(* ===== verification/_CoqProject ===== *)
-Q . S2P
Prelude.v
Codec.v
Files.v
LogFile.v
Wal.v
Undo.v
RowJson.v
Redo.v
Numerals.v
Snapshot.v
Txn.v
Recovery.v
Locks.v
Collation.v
BTree.v
NumericText.v
KeyOrder.v
Decimals.v
Dates.v
Split.v
QueryCache.v
TableFile.v
BufferPool.v
SharedMutex.v
GroupCommit.v
Lexer.v
Joins.v
ResultText.v
JsonValue.v
Ast.v
AstJson.v
AstStored.v
Pool.v
Parallel.v
SetOps.v
Arith.v
Classes.v
Eval.v
Subquery.v
Coerce.v
Gap.v
Partition.v
Probe.v
