(* ===== verification/Prelude.v ===== *)
(** * RuSQL engine: verification development

    RuSQL (src/code/backend) is an SQL server in C++: a client's text is cut into statements, lexed, parsed, planned
    and executed over tables of rows that live in memory and in files, with MVCC transactions, row locks, a
    write-ahead log, an undo log and a redo log. This library models the parts of it that carry its own logic
    and proves what they promise. Paths below are relative to src/code/backend/core unless they start with server/.

    ** How the parts interact

    A connection's lines go through the splitter (Split.v); a statement's text becomes tokens (Lexer.v). Values
    are texts: what they are worth and how they compare is NumericText.v, Decimals.v, Dates.v and Collation.v. Rows are
    maps of texts (RowJson.v). A table's rows are kept in the buffer pool (BufferPool.v) over table files
    (TableFile.v, written by the atomic replacement of Files.v) and are indexed by B+trees (BTree.v) whose keys
    compare as KeyOrder.v says. A transaction (Txn.v) stamps the versions of rows it makes
    and ends; what a statement sees of them is Snapshot.v; what two transactions may do at the same time is Locks.v.
    Its changes go to the WAL (Wal.v) and the undo log (Undo.v), both append-only log files (LogFile.v) of records
    in the binary format of Codec.v. A COMMIT writes one batch to the redo log (Redo.v), whose sync the sessions
    share, and its record to the WAL, which GroupCommit.v syncs; after a crash, Recovery.v replays the redo log over the
    loaded table files. Statements hold the shared mutex of SharedMutex.v; results of SELECTs are kept in QueryCache.v.
    The joins of a SELECT are Joins.v. An answer is a text (ResultText.v), which set operations, derived tables and subqueries take apart again.

    ** Conventions of the models

    - A text or buffer is the list of its bytes ([bytes], each a [Z] below 256); a position in it is often the rest
      of the text from there. A [double] is a [spec_float] of binary64. A machine integer is a [Z]; its wrap-around is
      written out ([wrap32], [wrap64], [wrap_int64]) where the code can reach it.
    - Stateful code passes its state (a [Record] with the class's members). A method that runs under one mutex is one step;
      a blocking call is the steps between its waits. Runs are lists of operations, step relations ([Inductive])
      or moves folded over a state, and invariants are proved by induction on them.
    - Every stdio call's outcome is an argument ([io_fault], [txn_env]); a crash can come after any step of a trace.
    - An exception or an error result is a value ([result], [outcome], [option]).
    - Code that is not under src/ is a parameter of the definitions that use it, with its documented behaviour as
      hypotheses: nlohmann::json ([nl_dump], [nl_parse]), LZ4 ([Lz4Laws]), the generated weight tables of the collation
      ([tables_ok], shown of their entries for ASCII), std::to_chars and printf of a double, and the iteration order of an
      unordered container ([iter], a permutation of its elements).
    - Interfaces are classes: [ReaderLaws] (a decoder never reads beyond what it was given), [LogCodec] (a log
      file's records), [DiskManager] with its laws (what the buffer pool needs of the table files).
    - Fuel: a loop over a text takes its length as fuel, which every turn lowers ([split], [tokenize], [extract_all],
      JSON); LIKE's is [(|v| + 2) * (|p| + 1)], an upper bound of its backtracking; the drain of a text's weights is
      bounded by [drain_fuel], shown to be enough; the cycle search's is the number of edges, and [creates_cycle_exact]
      shows it ends with the exact answer. No theorem says "if it ends": the fuel given is shown to be enough.

    ** Files and what their theorems show

    - Prelude.v: texts, machine integers, results, orders, shared tactics and list lemmas.
    - Codec.v, Files.v, LogFile.v, Wal.v, Undo.v (src/transaction/wal.cpp, txn_manager.cpp,
      include/engine/storage/atomic_write.hpp): a log file is the list of its records through any appends, prunings,
      checkpoint truncations and failed writes; a torn tail loses only itself; one changed byte is detected.
    - Redo.v (src/transaction/redo_log.cpp): a commit whose sync has returned is read back after any crash.
    - GroupCommit.v (src/transaction/group_commit.cpp): a return of [sync_commit] means that the record is on disk.
    - Txn.v (src/transaction/txn_manager.cpp): a session's manager with its two log files is the abstract stack of its changes and
      savepoints, through every sequence of calls.
    - Snapshot.v (txn_manager.hpp, txn_manager.cpp): a frozen snapshot is stable; the serializable check is exact.
    - Recovery.v (src/engine/executor/executor_redo.cpp): the replay restores every version as often as it was
      logged and killed, and a second replay changes nothing.
    - Locks.v (src/engine/lock_manager.cpp): an exclusive lock excludes; the wait-for graph stays acyclic; the cycle test is exact.
    - SharedMutex.v (include/engine/sync.hpp): mutual exclusion, no lost wake-up, and no starved writer.
    - RowJson.v (src/storage/row_json.cpp): a row is read back from its text, without nlohmann.
    - BTree.v, KeyOrder.v (src/storage/btree.cpp): the tree is the sorted map of its entries; the keys are ordered.
    - TableFile.v, BufferPool.v (src/storage/disk.cpp, page.cpp, buffer_pool.cpp): a save is all or nothing; the pool is a map of tables;
      a file holds committed work only.
    - Collation.v (src/collation.cpp): sort keys, grouping keys and LIKE are those of the weights.
    - NumericText.v, Numerals.v, Decimals.v, Dates.v (include/engine/numeric_text.hpp, sql_value_util.hpp): SUM, AVG, decimal
      arithmetic and rounding are exact; the calendar is the one counted day by day.
    - Split.v, Lexer.v (include/engine/statement_split.hpp, src/parser/lexer.cpp): the statements of an input do not depend on how it arrives;
      the splitter and the lexer agree; tokens are read back from their text.
    - QueryCache.v (src/engine/query_cache.cpp): a hit is never stale.
    - Joins.v (src/engine/join.cpp): the hash joins and the sort-merge join give the rows of the nested loop.
    - ResultText.v (include/engine/result_text.hpp, src/engine/executor/executor_setops.cpp): an answer's text is read back as its columns and rows.
    - JsonValue.v, Ast.v, AstJson.v, AstStored.v (src/parser/ast_json.cpp, include/engine/parser/ast.hpp, src/catalog/schema.cpp): stored
      statements and schemas are read back as they were.
    - Pool.v, Parallel.v (src/engine/thread_pool.cpp, include/engine/parallel_util.hpp, the parallel loops of
      src/engine/executor/executor_select.cpp): parallel_for runs every task once and returns; a parallel stage gives what a loop gives.
    - SetOps.v (src/engine/executor/executor_setops.cpp): UNION, INTERSECT and EXCEPT are the operations on bags of tuples; ORDER BY sorts.
    - Arith.v, Classes.v, Eval.v (src/engine/executor/executor_eval.cpp, include/engine/value_class.hpp): arithmetic is exact and typed;
      conditions follow the tables of three truth values, BETWEEN and IN are the comparisons they stand for.
    - Subquery.v (src/engine/executor/executor_subquery.cpp): the answers kept for subqueries never change a condition; IN is = ANY.
    - Coerce.v (src/engine/executor/executor_types.cpp): what a column of each type stores for a text, or the error: integers within
      their bounds, decimals rounded to their places, calendar dates and times, VARCHAR lengths, years. The
      theorems say which number or time is kept, exactly, and that what is stored has the form of its type.
    - Gap.v, Partition.v (src/engine/executor/gap_lock.cpp, executor_partition.cpp): the range of a key in a WHERE and the partitions
      left by pruning miss no matching row, an INSERT sends each row once to its partition.
    - Probe.v (src/engine/executor/executor_unique_probe.cpp, include/engine/unique_probe.hpp): the cache of UNIQUE values, stamped by the
      locks of the table, never calls a key absent that a live row holds.

    ** Bugs the models show

    Each is an [Example] or a remark next to the model: a wait that is repointed can hide a deadlock and a refused wait report one
    (Locks.v); a failed append shifts the redo log and torn bytes hide later commits (Redo.v, Txn.v); AVG of large sums overflows
    (NumericText.v); keys that are numbers and texts do not compare transitively (KeyOrder.v); a full pool drops a dirty page
    (BufferPool.v); a follower that comes after the leader's fsync returns without its record on disk (GroupCommit.v); the range of a
    key misses rows when texts are compared as numbers or a column is taken for a value (Gap.v), and so does the pruning of partitions
    (Partition.v).
    The manifest lists them all.

    ** Not modelled

    The parser, the binder, the planner's choice of access paths and the statements of the executor (the scans, groups, windows and
    access paths of SELECT, the control flow of INSERT, UPDATE, DELETE and MERGE, DDL, views, routines, triggers, privileges,
    information_schema) are some 25,000 lines over the parts above and over nlohmann's syntax trees: what they rely on is proved
    here, their own control flow is not. The built-in functions are a parameter of the evaluation, the hash and composite indexes are
    maps whose keys (KeyOrder.v) and texts (RowJson.v) are modelled. The MySQL wire protocol, the sockets of the server, the
    command-line client and the web frontend are input and output. Third-party code (LZ4, nlohmann::json, picosha2, sha1, Catch2) is a
    parameter where it is used. The index repair and the checkpoint after recovery, the JSON files of the catalog and the listings of
    the lock manager are left out of components that are otherwise modelled. *)
From Stdlib Require Export ZArith Lia.
From stdpp Require Export base tactics option list list_numbers numbers strings gmap sets sorting.

#[global] Set Default Goal Selector "!".
#[global] Open Scope Z_scope.

(** ** Bytes and texts

    A [std::string] or a [std::vector<uint8_t>] is the list of its bytes, each byte a [Z] in [0, 256). *)
Abbreviation bytes := (list Z).

(** The bytes of a literal of the source. *)
Definition str (s : string) : list Z :=
  (λ c, Z.of_N (Ascii.N_of_ascii c)) <$> String.list_ascii_of_string s.

Definition is_byte (z : Z) : Prop := 0 ≤ z < 256.
Definition is_bytes (s : list Z) : Prop := Forall is_byte s.

#[export] Instance is_byte_dec z : Decision (is_byte z).
Proof. unfold is_byte. apply _. Defined.

(** Characters the code tests for, by their codes. *)
Abbreviation c_quote := 34.
Abbreviation c_backslash := 92.
Abbreviation c_zero := 48.
Abbreviation c_nine := 57.
Abbreviation c_dot := 46.
Abbreviation c_plus := 43.
Abbreviation c_minus := 45.
Abbreviation c_space := 32.

Definition is_digit (c : Z) : bool := (48 <=? c) && (c <=? 57).

(** ** Machine integers *)
Definition u32_max : Z := 2 ^ 32 - 1.
Definition u64_max : Z := 2 ^ 64 - 1.
Definition wrap32 (z : Z) : Z := z mod 2 ^ 32.
Definition wrap64 (z : Z) : Z := z mod 2 ^ 64.
Definition int64_max : Z := 2 ^ 63 - 1.
Definition int64_min : Z := - 2 ^ 63.
Definition in_int64 (z : Z) : Prop := int64_min ≤ z ≤ int64_max.
Definition in_u32 (z : Z) : Prop := 0 ≤ z ≤ u32_max.
Definition in_u64 (z : Z) : Prop := 0 ≤ z ≤ u64_max.

#[export] Instance in_int64_dec z : Decision (in_int64 z).
Proof. unfold in_int64. apply _. Defined.
#[export] Instance in_u32_dec z : Decision (in_u32 z).
Proof. unfold in_u32. apply _. Defined.
#[export] Instance in_u64_dec z : Decision (in_u64 z).
Proof. unfold in_u64. apply _. Defined.

(** ** Results

    [Result<T, std::string>] of the source. *)
Inductive result (A : Type) : Type :=
  | Ok (a : A)
  | Err (msg : list Z).
Arguments Ok {A} a.
Arguments Err {A} msg.

#[export] Instance result_eq_dec `{EqDecision A} : EqDecision (result A).
Proof. solve_decision. Defined.

(** ** Tactics *)

(** Case analysis on the boolean tests of the code. *)
Ltac bool_cases :=
  repeat match goal with
    | H : (_ && _)%bool = true |- _ => apply andb_true_iff in H; destruct H
    | H : (_ || _)%bool = false |- _ => apply orb_false_iff in H; destruct H
    | H : negb _ = true |- _ => apply negb_true_iff in H
    | H : negb _ = false |- _ => apply negb_false_iff in H
    | H : (_ <=? _) = true |- _ => apply Z.leb_le in H
    | H : (_ <=? _) = false |- _ => apply Z.leb_gt in H
    | H : (_ <? _) = true |- _ => apply Z.ltb_lt in H
    | H : (_ <? _) = false |- _ => apply Z.ltb_ge in H
    | H : (_ =? _) = true |- _ => apply Z.eqb_eq in H
    | H : (_ =? _) = false |- _ => apply Z.eqb_neq in H
    end.

(** A decidable statement on concrete values, decided by evaluation; the values are not read back. *)
Ltac vm_decide := apply (bool_decide_unpack _); vm_compute; exact I.

(** Machine-integer side conditions. *)
Ltac widths :=
  unfold in_int64, in_u32, in_u64, int64_max, int64_min, u32_max, u64_max, is_byte in *; lia.

Lemma wrap32_small z : in_u32 z → wrap32 z = z.
Proof. intros H. apply Z.mod_small. widths. Qed.
Lemma wrap64_small z : in_u64 z → wrap64 z = z.
Proof. intros H. apply Z.mod_small. widths. Qed.

(** ** Lists *)
Lemma take_drop_span {A} (l : list A) (p q r : nat) :
  (p ≤ q ≤ r)%nat → take (r - p) (drop p l) = take (q - p) (drop p l) ++ take (r - q) (drop q l).
Proof.
  intros H. replace (r - p)%nat with ((q - p) + (r - q))%nat by lia.
  rewrite <- (take_drop (q - p) (take (q - p + (r - q)) (drop p l))).
  rewrite take_take, skipn_firstn_comm, drop_drop.
  f_equal; [f_equal; lia|]. f_equal; [lia|]. f_equal; lia.
Qed.

Lemma insert_mid {A} (l : list A) x y l' : <[length l := y]> (l ++ x :: l') = l ++ y :: l'.
Proof. rewrite insert_app_r_alt by lia. by rewrite Nat.sub_diag. Qed.

Section filter.
Context {A : Type} (P : A → Prop) `{!∀ x, Decision (P x)}.

Lemma filter_all l : Forall P l → filter P l = l.
Proof.
  induction 1 as [|x l Hx Hl IH]; [done|]. rewrite filter_cons_True by done. by f_equal.
Qed.

Lemma filter_none l : Forall (λ x, ¬ P x) l → filter P l = [].
Proof.
  induction 1 as [|x l Hx Hl IH]; [done|]. by rewrite filter_cons_False.
Qed.

Lemma Forall_filter_sub (Q : A → Prop) l : Forall Q l → Forall Q (filter P l).
Proof.
  rewrite !Forall_forall. intros Hall x Hx. apply list_elem_of_filter in Hx as [_ Hx]. by apply Hall.
Qed.
End filter.

(** ** The order of std::string

    [operator<] of [std::string]: the bytes are compared as unsigned characters, and a text that is a
    prefix of another comes first. *)
Fixpoint bytes_compare (a b : list Z) : comparison :=
  match a, b with
  | [], [] => Eq
  | [], _ => Lt
  | _, [] => Gt
  | x :: a, y :: b => match x ?= y with Eq => bytes_compare a b | c => c end
  end.

Definition bytes_ltb (a b : list Z) : bool :=
  match bytes_compare a b with Lt => true | _ => false end.
Definition bytes_leb (a b : list Z) : bool :=
  match bytes_compare a b with Gt => false | _ => true end.

Lemma bytes_compare_eq a b : bytes_compare a b = Eq ↔ a = b.
Proof.
  revert b. induction a as [|x a IH]; intros [|y b]; simpl; try done.
  destruct (x ?= y) eqn:E.
  - apply Z.compare_eq in E as ->. rewrite IH. split; congruence.
  - split; [done|]. intros [= -> ->]. by rewrite Z.compare_refl in E.
  - split; [done|]. intros [= -> ->]. by rewrite Z.compare_refl in E.
Qed.

Lemma bytes_compare_antisym a b : bytes_compare b a = CompOpp (bytes_compare a b).
Proof.
  revert b. induction a as [|x a IH]; intros [|y b]; simpl; try done.
  rewrite Z.compare_antisym. destruct (x ?= y); simpl; auto.
Qed.

Lemma bytes_compare_trans c a b d :
  bytes_compare a b = c → bytes_compare b d = c → bytes_compare a d = c.
Proof.
  revert b d. induction a as [|x a IH]; intros [|y b] [|z d]; simpl; try congruence.
  destruct (Z.compare_spec x y), (Z.compare_spec y z), (Z.compare_spec x z);
    subst; try lia; eauto; congruence.
Qed.

Lemma bytes_ltb_lt a b : bytes_ltb a b = true ↔ bytes_compare a b = Lt.
Proof. unfold bytes_ltb. by destruct (bytes_compare a b). Qed.

Lemma bytes_leb_le a b : bytes_leb a b = true ↔ bytes_compare a b ≠ Gt.
Proof. unfold bytes_leb. by destruct (bytes_compare a b). Qed.

#[export] Instance bytes_leb_trans : Transitive (λ a b, bytes_leb a b = true).
Proof.
  intros a b c. rewrite !bytes_leb_le. intros H1 H2 H3.
  destruct (bytes_compare a b) eqn:E1; [apply bytes_compare_eq in E1; congruence| |done].
  destruct (bytes_compare b c) eqn:E2; [apply bytes_compare_eq in E2; congruence| |done].
  by rewrite (bytes_compare_trans Lt a b c) in H3.
Qed.

#[export] Instance bytes_leb_total : Total (λ a b, bytes_leb a b = true).
Proof.
  intros a b. rewrite !bytes_leb_le, (bytes_compare_antisym a b).
  destruct (bytes_compare a b); simpl; auto.
Qed.

Lemma bytes_ltb_irrefl a : bytes_ltb a a = false.
Proof. unfold bytes_ltb. by rewrite (proj2 (bytes_compare_eq a a)). Qed.

Lemma bytes_ltb_trans a b c : bytes_ltb a b = true → bytes_ltb b c = true → bytes_ltb a c = true.
Proof. rewrite !bytes_ltb_lt. apply bytes_compare_trans. Qed.

Lemma bytes_leb_ne_ltb a b : bytes_leb a b = true → a ≠ b → bytes_ltb a b = true.
Proof.
  rewrite bytes_leb_le, bytes_ltb_lt. intros H Hne.
  destruct (bytes_compare a b) eqn:E; [by apply bytes_compare_eq in E|done|done].
Qed.

(** Elements of a sorted list, by their positions. *)
Lemma StronglySorted_lookup_lt {A} (R : relation A) l i j x y :
  StronglySorted R l → l !! i = Some x → l !! j = Some y → (i < j)%nat → R x y.
Proof.
  intros Hs. revert i j. induction Hs as [|z l Hl IH Hall]; intros i j; [done|].
  destruct j as [|j]; [lia|]. destruct i as [|i]; simpl.
  - intros [= ->] Hy _. by eapply (Forall_lookup_1 _ _ _ _ Hall).
  - intros Hx Hy Hij. eapply IH; [done..|lia].
Qed.

(** ** Orders *)

(** A total preorder on [dom]. *)
Record preorder {A} (dom : A → Prop) (ord : A → A → comparison) : Prop := {
  po_antisym x y : dom x → dom y → ord y x = CompOpp (ord x y);
  po_trans x y z : dom x → dom y → dom z → ord x y ≠ Gt → ord y z ≠ Gt → ord x z ≠ Gt
}.
Arguments po_antisym {A dom ord} _.
Arguments po_trans {A dom ord} _.

(** Lexicographic: by [f] and then by [g]. *)
Lemma preorder_then {A} (dom : A → Prop) f g :
  preorder dom f → preorder dom g → preorder dom (λ x y, match f x y with Eq => g x y | c => c end).
Proof.
  intros Hf Hg. split.
  - intros x y Hx Hy. rewrite (po_antisym Hf x y), (po_antisym Hg x y) by done. by destruct (f x y).
  - intros x y z Hx Hy Hz H1 H2.
    pose proof (po_trans Hf x y z Hx Hy Hz) as Tf. pose proof (po_trans Hg x y z Hx Hy Hz) as Tg.
    pose proof (po_trans Hf z x y Hz Hx Hy) as Tf2. pose proof (po_trans Hf y z x Hy Hz Hx) as Tf3.
    rewrite (po_antisym Hf x z), (po_antisym Hf y z) in Tf2 by done. rewrite (po_antisym Hf x z), (po_antisym Hf x y) in Tf3 by done.
    destruct (f x y), (f y z), (f x z); simpl in *; try done; first [by apply Tg|exfalso; by apply Tf|exfalso; by apply Tf2|exfalso; by apply Tf3].
Qed.

Lemma preorder_sub {A} (dom dom' : A → Prop) ord : (∀ x, dom x → dom' x) → preorder dom' ord → preorder dom ord.
Proof. intros Hs H. split; intros; [by apply (po_antisym H); apply Hs|]. eapply (po_trans H x y z); auto. Qed.

(** What two comparisons say about the third. *)
Definition triangle (xy yz xz : comparison) : bool :=
  match xy, yz with
  | Eq, c | c, Eq => bool_decide (xz = c)
  | Lt, Lt => bool_decide (xz = Lt)
  | Gt, Gt => bool_decide (xz = Gt)
  | _, _ => true
  end.

Lemma preorder_triangle {A} (dom : A → Prop) ord x y z :
  preorder dom ord → dom x → dom y → dom z → triangle (ord x y) (ord y z) (ord x z) = true.
Proof.
  intros P Hx Hy Hz. pose proof (po_trans P x y z Hx Hy Hz) as T1. pose proof (po_trans P z x y Hz Hx Hy) as T2.
  pose proof (po_trans P y z x Hy Hz Hx) as T3. pose proof (po_trans P z y x Hz Hy Hx) as T4.
  pose proof (po_trans P x z y Hx Hz Hy) as T5. pose proof (po_trans P y x z Hy Hx Hz) as T6.
  rewrite (po_antisym P x z), (po_antisym P y z), (po_antisym P x y) in * by done.
  destruct (ord x y), (ord y z), (ord x z); simpl in *; try done; exfalso; first [by apply T1|by apply T2|by apply T3|by apply T4|by apply T5|by apply T6].
Qed.
