(* ===== verification/Codec.v ===== *)
(** * Little-endian integers, length-prefixed texts and checksums

    The binary records of the write-ahead log (src/code/backend/core/src/transaction/wal.cpp), of the
    undo log (txn_manager.cpp), of the redo log (redo_log.cpp) and of the page header (page.cpp) are
    built from the same helpers, which each of those files defines for itself: [push_u32_le],
    [push_u64_le], [read_u32_le], [read_u64_le], [read_string] and the FNV-1a checksum.

    A decoder takes the buffer and a position and gives the value read and the position after it,
    [None] when the code returns [std::nullopt]. [ReaderLaws] states what every decoder promises the
    log files built on it; [bind], [advance] and [with_span] preserve the laws. *)
From S2P Require Import Prelude.

(** ** Decoders *)

Definition reader (A : Type) : Type := list Z → nat → option (A * nat).

Definition r_ret {A} (x : A) : reader A := λ buf pos, Some (x, pos).
Definition r_fail {A} : reader A := λ buf pos, None.
Definition r_bind {A B} (r : reader A) (k : A → reader B) : reader B :=
  λ buf pos, match r buf pos with Some (x, pos') => k x buf pos' | None => None end.

(** The value of [r] with the bytes it consumed (the code keeps the start position and later
    checksums [buf.data() + start .. pos - start]). *)
Definition with_span {A} (r : reader A) : reader (A * list Z) :=
  λ buf pos,
    match r buf pos with
    | Some (x, pos') => Some ((x, take (pos' - pos) (drop pos buf)), pos')
    | None => None
    end.

Declare Scope reader_scope.
Delimit Scope reader_scope with reader.
Notation "x <-- r ; k" := (r_bind r (λ x, k))
  (at level 100, r at next level, right associativity) : reader_scope.
Open Scope reader_scope.

(** [if (pos >= buf.size()) return std::nullopt; b = buf[pos]; pos += 1;] *)
Definition read_u8 : reader Z :=
  λ buf pos, match buf !! pos with Some b => Some (b, S pos) | None => None end.

(** [v |= buf[pos + i] << (8 * i)] for the [n] bytes at [pos]. *)
Definition le_at (n : nat) (buf : list Z) (pos : nat) : Z :=
  fold_left (λ v i, Z.lor v (Z.shiftl (nth (pos + i) buf 0) (8 * Z.of_nat i))) (seq 0 n) 0.

Definition read_u32_le (buf : list Z) (pos : nat) : option Z :=
  if decide (length buf < pos + 4)%nat then None else Some (le_at 4 buf pos).

Definition read_u64_le (buf : list Z) (pos : nat) : option Z :=
  if decide (length buf < pos + 8)%nat then None else Some (le_at 8 buf pos).

(** The value at the position, and [pos += n]. *)
Definition advance {A} (n : nat) (f : list Z → nat → option A) : reader A :=
  λ buf pos, match f buf pos with Some x => Some (x, (pos + n)%nat) | None => None end.

Definition read_string : reader (list Z) :=
  λ buf pos,
    match read_u32_le buf pos with
    | None => None
    | Some len =>
        let len := Z.to_nat len in
        let pos := (pos + 4)%nat in
        if decide (length buf < pos + len)%nat then None
        else Some (take len (drop pos buf), (pos + len)%nat)
    end.

(** ** Encoders *)

(** [static_cast<uint8_t>((v >> (8 * i)) & 0xFF)] for i = 0 .. n - 1. *)
Definition push_le (n : nat) (v : Z) : list Z :=
  (λ i, Z.land (Z.shiftr v (8 * Z.of_nat i)) 255) <$> seq 0 n.

Definition push_u32_le (v : Z) : list Z := push_le 4 v.
Definition push_u64_le (v : Z) : list Z := push_le 8 v.

(** [push_u32_le(buf, static_cast<uint32_t>(s.size())); buf.insert(buf.end(), s.begin(), s.end());] *)
Definition push_string (s : list Z) : list Z := push_u32_le (wrap32 (Z.of_nat (length s))) ++ s.

(** FNV-1a, 32 bits. *)
Definition fnv1a32 (data : list Z) : Z :=
  fold_left (λ h b, wrap32 (Z.lxor h b * 16777619)) data 2166136261.

#[global] Arguments push_le : simpl never.
#[global] Arguments push_u32_le : simpl never.
#[global] Arguments push_u64_le : simpl never.
#[global] Arguments push_string : simpl never.

(** ** The laws of a decoder *)

Class ReaderLaws {A} (r : reader A) : Prop := {
  reader_bounded buf pos x pos' :
    (pos ≤ length buf)%nat → r buf pos = Some (x, pos') → (pos ≤ pos' ≤ length buf)%nat;
  reader_stable buf ext pos x pos' :
    (pos ≤ length buf)%nat → r buf pos = Some (x, pos') → r (buf ++ ext) pos = Some (x, pos');
  reader_shift pre buf pos :
    r (pre ++ buf) (length pre + pos)%nat = prod_map id (Nat.add (length pre)) <$> r buf pos
}.

(** [r] reads back what [enc] wrote. *)
Definition reads_back {A} (r : reader A) (enc : list Z) (x : A) : Prop :=
  r enc 0%nat = Some (x, length enc).

Section laws.
Context {A B : Type}.

#[export] Instance r_ret_laws (x : A) : ReaderLaws (r_ret x).
Proof. split; unfold r_ret; intros; simplify_eq; [lia|done|done]. Qed.

#[export] Instance r_fail_laws : ReaderLaws (@r_fail A).
Proof. split; unfold r_fail; intros; simplify_eq; done. Qed.

#[export] Instance r_bind_laws (r : reader A) (k : A → reader B) :
  ReaderLaws r → (∀ x, ReaderLaws (k x)) → ReaderLaws (r_bind r k).
Proof.
  intros Hr Hk. split; unfold r_bind.
  - intros buf pos x pos' Hp H. destruct (r buf pos) as [[y p]|] eqn:E; [|done].
    apply reader_bounded in E as [??]; [|done].
    apply reader_bounded in H as [??]; lia.
  - intros buf ext pos x pos' Hp H. destruct (r buf pos) as [[y p]|] eqn:E; [|done].
    pose proof (reader_bounded _ _ _ _ Hp E) as [??].
    rewrite (reader_stable _ ext _ _ _ Hp E). by apply reader_stable.
  - intros pre buf pos. rewrite reader_shift.
    destruct (r buf pos) as [[y p]|]; [|done]. simpl. apply reader_shift.
Qed.

#[export] Instance with_span_laws (r : reader A) : ReaderLaws r → ReaderLaws (with_span r).
Proof.
  intros Hr. split; unfold with_span.
  - intros buf pos x pos' Hp H. destruct (r buf pos) as [[y p]|] eqn:E; simplify_eq.
    by apply reader_bounded in E.
  - intros buf ext pos x pos' Hp H. destruct (r buf pos) as [[y p]|] eqn:E; simplify_eq.
    pose proof (reader_bounded _ _ _ _ Hp E) as [??].
    rewrite (reader_stable _ ext _ _ _ Hp E).
    rewrite drop_app_le, take_app_le; [done|rewrite length_drop; lia|lia].
  - intros pre buf pos. rewrite reader_shift.
    destruct (r buf pos) as [[y p]|]; [|done]. simpl.
    rewrite drop_app_ge by lia.
    replace (length pre + p - (length pre + pos))%nat with (p - pos)%nat by lia.
    by replace (length pre + pos - length pre)%nat with pos by lia.
Qed.
End laws.

(** A decoder with the laws that reads back an encoding reads it back inside any buffer. *)
Lemma reads_back_app `{!ReaderLaws (r : reader A)} pre enc post x :
  reads_back r enc x →
  r (pre ++ enc ++ post) (length pre) = Some (x, (length pre + length enc)%nat).
Proof.
  intros H. rewrite <- (Nat.add_0_r (length pre)) at 1. rewrite reader_shift.
  rewrite (reader_stable enc post 0 x (length enc)); [done|lia|exact H].
Qed.

Lemma reads_back_bind `{!ReaderLaws (r : reader A)} {B} (k : A → reader B) `{!∀ x, ReaderLaws (k x)}
    enc1 enc2 x y :
  reads_back r enc1 x → reads_back (k x) enc2 y → reads_back (r_bind r k) (enc1 ++ enc2) y.
Proof.
  unfold reads_back, r_bind. intros H1 H2.
  rewrite (reader_stable enc1 enc2 0 x (length enc1)); [|lia|done].
  rewrite <- (Nat.add_0_r (length enc1)) at 1. rewrite reader_shift, H2. simpl.
  by rewrite length_app.
Qed.

Lemma reads_back_ret {A} (x : A) : reads_back (r_ret x) [] x.
Proof. done. Qed.

Lemma reads_back_with_span {A} (r : reader A) enc x :
  reads_back r enc x → reads_back (with_span r) enc (x, enc).
Proof.
  unfold reads_back, with_span. intros ->. by rewrite drop_0, Nat.sub_0_r, firstn_all.
Qed.

(** A strict prefix of an encoding does not decode: the bytes that are missing are missed. *)
Lemma reads_back_torn `{!ReaderLaws (r : reader A)} enc x (n : nat) :
  reads_back r enc x → (n < length enc)%nat → r (take n enc) 0%nat = None.
Proof.
  unfold reads_back. intros H Hn. destruct (r (take n enc) 0%nat) as [[y p]|] eqn:E; [|done].
  pose proof (reader_bounded _ _ _ _ (Nat.le_0_l _) E) as [_ Hb].
  apply (reader_stable _ (drop n enc)) in E; [|lia].
  rewrite take_drop, H in E. simplify_eq. rewrite length_take in Hb. lia.
Qed.

(** ** Little-endian integers *)

(** The value of a list of bytes, least significant first. *)
Fixpoint le_value (l : list Z) : Z :=
  match l with
  | [] => 0
  | b :: t => Z.lor b (Z.shiftl (le_value t) 8)
  end.

Lemma le_value_fold l k m acc :
  (k + m ≤ length l)%nat →
  fold_left (λ v i, Z.lor v (Z.shiftl (nth i l 0) (8 * Z.of_nat i))) (seq k m) acc =
  Z.lor acc (Z.shiftl (le_value (take m (drop k l))) (8 * Z.of_nat k)).
Proof.
  revert k acc. induction m as [|m IH]; intros k acc H; simpl.
  { by rewrite Z.shiftl_0_l, Z.lor_0_r. }
  rewrite IH by lia.
  destruct (lookup_lt_is_Some_2 l k) as [b Hb]; [lia|].
  rewrite (drop_S l b k Hb). simpl.
  rewrite (nth_lookup_Some l k 0 b Hb), Z.shiftl_lor, Z.shiftl_shiftl, Z.lor_assoc by lia.
  do 2 f_equal. lia.
Qed.

Lemma le_at_drop n buf pos :
  (pos + n ≤ length buf)%nat → le_at n buf pos = le_value (take n (drop pos buf)).
Proof.
  intros H. unfold le_at.
  enough (E : ∀ l a, fold_left (λ v i, Z.lor v (Z.shiftl (nth (pos + i) buf 0) (8 * Z.of_nat i))) l a =
                     fold_left (λ v i, Z.lor v (Z.shiftl (nth i (drop pos buf) 0) (8 * Z.of_nat i))) l a).
  { rewrite E, le_value_fold by (rewrite length_drop; lia).
    by rewrite Z.lor_0_l, Z.mul_0_r, Z.shiftl_0_r. }
  induction l as [|i l IH]; intros a; simpl; [done|]. rewrite IH. do 3 f_equal. by rewrite nth_skipn.
Qed.

Lemma push_le_S n v : push_le (S n) v = Z.land v 255 :: push_le n (Z.shiftr v 8).
Proof.
  unfold push_le. simpl. rewrite Z.shiftr_0_r. f_equal.
  rewrite <- seq_shift, <- list_fmap_compose. apply list_fmap_ext. intros _ i _. simpl.
  rewrite Z.shiftr_shiftr by lia. do 2 f_equal. lia.
Qed.

Lemma length_push_le n v : length (push_le n v) = n.
Proof. unfold push_le. by rewrite length_fmap, length_seq. Qed.

Lemma push_le_bytes n v : is_bytes (push_le n v).
Proof.
  unfold is_bytes, push_le. apply Forall_fmap, Forall_true. intros i. simpl. unfold is_byte.
  change 255 with (Z.ones 8). rewrite Z.land_ones by lia. apply Z.mod_pos_bound. lia.
Qed.

Lemma le_value_push n v : le_value (push_le n v) = v mod 2 ^ (8 * Z.of_nat n).
Proof.
  revert v. induction n as [|n IH]; intros v.
  { simpl. by rewrite Z.mod_1_r. }
  rewrite push_le_S. cbn [le_value]. rewrite IH.
  rewrite <- !Z.land_ones by lia. change 255 with (Z.ones 8).
  apply Z.bits_inj'. intros i Hi.
  rewrite Z.lor_spec, !Z.land_spec, !Z.testbit_ones_nonneg by lia.
  destruct (decide (i < 8)).
  - rewrite Z.shiftl_spec_low by lia. rewrite (proj2 (Z.ltb_lt i 8)) by lia.
    rewrite (proj2 (Z.ltb_lt i (8 * Z.of_nat (S n)))) by lia. by rewrite orb_false_r.
  - rewrite Z.shiftl_spec, Z.land_spec, Z.shiftr_spec, Z.testbit_ones_nonneg by lia.
    rewrite (proj2 (Z.ltb_ge i 8)) by lia. rewrite andb_false_r. simpl.
    replace (i - 8 + 8) with i by lia. f_equal.
    destruct (Z.ltb_spec (i - 8) (8 * Z.of_nat n)), (Z.ltb_spec i (8 * Z.of_nat (S n))); lia || done.
Qed.

Lemma le_value_u32 v : in_u32 v → le_value (push_u32_le v) = v.
Proof.
  intros H. unfold push_u32_le. rewrite le_value_push. apply Z.mod_small.
  change (8 * Z.of_nat 4) with 32. widths.
Qed.

Lemma le_at_shift n pre buf pos : le_at n (pre ++ buf) (length pre + pos) = le_at n buf pos.
Proof.
  unfold le_at.
  enough (E : ∀ l a, fold_left (λ v i, Z.lor v (Z.shiftl (nth (length pre + pos + i) (pre ++ buf) 0) (8 * Z.of_nat i))) l a =
                     fold_left (λ v i, Z.lor v (Z.shiftl (nth (pos + i) buf 0) (8 * Z.of_nat i))) l a) by apply E.
  induction l as [|i l IH]; intros a; simpl; [done|]. rewrite IH. do 2 f_equal.
  rewrite app_nth2 by lia. do 2 f_equal. lia.
Qed.

Lemma le_at_app n buf ext pos :
  (pos + n ≤ length buf)%nat → le_at n (buf ++ ext) pos = le_at n buf pos.
Proof.
  intros H. rewrite !le_at_drop by (rewrite ?length_app; lia).
  rewrite drop_app_le, take_app_le; [done|rewrite length_drop; lia|lia].
Qed.

Section integer_laws.
Context (n : nat) (f : list Z → nat → option Z).
Context (Hf : ∀ buf pos, f buf pos = if decide (length buf < pos + n)%nat then None else Some (le_at n buf pos)).

Lemma advance_laws : ReaderLaws (advance n f).
Proof.
  split; unfold advance.
  - intros buf pos x pos' Hp. rewrite Hf. case_decide; [done|]. intros; simplify_eq. lia.
  - intros buf ext pos x pos' Hp. rewrite !Hf. case_decide; [done|]. intros; simplify_eq.
    rewrite decide_False by (rewrite length_app; lia). by rewrite le_at_app by lia.
  - intros pre buf pos. rewrite !Hf, length_app, le_at_shift.
    do 2 case_decide; try lia; [done|]. simpl. do 2 f_equal. lia.
Qed.

Lemma advance_reads_back v :
  0 ≤ v < 2 ^ (8 * Z.of_nat n) → reads_back (advance n f) (push_le n v) v.
Proof.
  intros Hv. unfold reads_back, advance. rewrite Hf, length_push_le.
  rewrite decide_False by lia. rewrite le_at_drop by (rewrite length_push_le; lia).
  rewrite drop_0, take_ge by (by rewrite length_push_le).
  rewrite le_value_push, Z.mod_small by lia. done.
Qed.
End integer_laws.

#[export] Instance read_u32_laws : ReaderLaws (advance 4 read_u32_le).
Proof. apply advance_laws. done. Qed.
#[export] Instance read_u64_laws : ReaderLaws (advance 8 read_u64_le).
Proof. apply advance_laws. done. Qed.

Lemma read_u32_back v : in_u32 v → reads_back (advance 4 read_u32_le) (push_u32_le v) v.
Proof. intros H. apply (advance_reads_back 4 read_u32_le); [done|]. simpl. widths. Qed.
Lemma read_u64_back v : in_u64 v → reads_back (advance 8 read_u64_le) (push_u64_le v) v.
Proof. intros H. apply (advance_reads_back 8 read_u64_le); [done|]. simpl. widths. Qed.

#[export] Instance read_u8_laws : ReaderLaws read_u8.
Proof.
  split; unfold read_u8.
  - intros buf pos x pos' Hp H. destruct (buf !! pos) eqn:E; simplify_eq.
    apply lookup_lt_Some in E. lia.
  - intros buf ext pos x pos' Hp H. destruct (buf !! pos) eqn:E; simplify_eq.
    by rewrite (lookup_app_l_Some _ _ _ _ E).
  - intros pre buf pos. rewrite lookup_app_r by lia.
    replace (length pre + pos - length pre)%nat with pos by lia.
    destruct (buf !! pos); [|done]. simpl. do 2 f_equal. lia.
Qed.

Lemma read_u8_back b : reads_back read_u8 [b] b.
Proof. done. Qed.

Definition read_string_via : reader (list Z) :=
  (len <-- advance 4 read_u32_le;
   λ buf pos, if decide (length buf < pos + Z.to_nat len)%nat then None
              else Some (take (Z.to_nat len) (drop pos buf), (pos + Z.to_nat len)%nat)).

Lemma read_string_eq buf pos : read_string buf pos = read_string_via buf pos.
Proof.
  unfold read_string, read_string_via, r_bind, advance.
  by destruct (read_u32_le buf pos).
Qed.

#[export] Instance read_bytes_laws (m : nat) :
  ReaderLaws (λ buf pos, if decide (length buf < pos + m)%nat then None
                         else Some (take m (drop pos buf), (pos + m)%nat)).
Proof.
  split.
  - intros buf pos x pos' Hp H. case_decide; simplify_eq. lia.
  - intros buf ext pos x pos' Hp H. case_decide; simplify_eq.
    rewrite decide_False by (rewrite length_app; lia).
    rewrite drop_app_le, take_app_le; [done|rewrite length_drop; lia|lia].
  - intros pre buf pos. rewrite length_app. do 2 case_decide; try lia; [done|]. simpl.
    rewrite drop_app_ge by lia.
    replace (length pre + pos - length pre)%nat with pos by lia. do 2 f_equal. lia.
Qed.

#[export] Instance read_string_laws : ReaderLaws read_string.
Proof.
  assert (L : ReaderLaws read_string_via) by apply _.
  split; intros *; rewrite !read_string_eq; apply L.
Qed.

Lemma read_string_back s :
  in_u32 (Z.of_nat (length s)) → reads_back read_string (push_string s) s.
Proof.
  intros H. unfold reads_back. rewrite read_string_eq. unfold push_string.
  rewrite wrap32_small by done.
  eapply reads_back_bind; [apply _|by apply read_u32_back|].
  unfold reads_back. rewrite Nat2Z.id, decide_False by lia.
  by rewrite drop_0, firstn_all.
Qed.

Lemma length_push_string s : length (push_string s) = (4 + length s)%nat.
Proof. unfold push_string, push_u32_le. by rewrite length_app, length_push_le. Qed.

Lemma fnv1a32_range data : in_u32 (fnv1a32 data).
Proof.
  unfold fnv1a32. assert (H : in_u32 2166136261) by widths. revert H. generalize 2166136261.
  induction data as [|b data IH]; intros h Hh; simpl; [done|]. apply IH.
  unfold wrap32. pose proof (Z.mod_pos_bound (Z.lxor h b * 16777619) (2 ^ 32)). widths.
Qed.

Create HintDb codec.
#[export] Hint Resolve read_u8_back read_u32_back read_u64_back read_string_back
  reads_back_ret reads_back_with_span fnv1a32_range : codec.

(** ** What the checksum detects *)

Lemma lxor_u32 a b : in_u32 a → in_u32 b → in_u32 (Z.lxor a b).
Proof.
  intros Ha Hb. assert (E : Z.lxor a b = Z.lxor a b mod 2 ^ 32).
  { rewrite <- (Z.mod_small a (2 ^ 32)), <- (Z.mod_small b (2 ^ 32)) by widths.
    rewrite <- !Z.land_ones by lia. apply Z.bits_inj'. intros i Hi.
    rewrite !Z.land_spec, !Z.lxor_spec, !Z.land_spec.
    destruct (Z.testbit (Z.ones 32) i); by rewrite ?andb_true_r, ?andb_false_r. }
  rewrite E. pose proof (Z.mod_pos_bound (Z.lxor a b) (2 ^ 32)). widths.
Qed.

(** One step of the hash is injective, both in the state and in the byte: the multiplier is odd. *)
Lemma fnv_mul_inj a b :
  in_u32 a → in_u32 b → wrap32 (a * 16777619) = wrap32 (b * 16777619) → a = b.
Proof.
  unfold wrap32. intros Ha Hb H.
  assert (E : ∀ x, in_u32 x → (x * 16777619) mod 2 ^ 32 * 899433627 mod 2 ^ 32 = x).
  { intros x Hx. rewrite Z.mul_mod_idemp_l by lia.
    replace (x * 16777619 * 899433627) with (x + x * 3513497 * 2 ^ 32) by lia.
    rewrite Z.mod_add by lia. apply Z.mod_small. widths. }
  rewrite <- (E a Ha), <- (E b Hb). by rewrite H.
Qed.

Lemma byte_u32 b : is_byte b → in_u32 b.
Proof. widths. Qed.

Lemma lxor_inj_l a b c : Z.lxor a b = Z.lxor a c → b = c.
Proof.
  intros H. apply (f_equal (Z.lxor a)) in H.
  by rewrite <- !Z.lxor_assoc, Z.lxor_nilpotent, !Z.lxor_0_l in H.
Qed.

Lemma lxor_inj_r a b c : Z.lxor b a = Z.lxor c a → b = c.
Proof. rewrite !(Z.lxor_comm _ a). apply lxor_inj_l. Qed.

Lemma wrap32_range z : in_u32 (wrap32 z).
Proof. unfold wrap32. pose proof (Z.mod_pos_bound z (2 ^ 32)). widths. Qed.

Lemma fnv_fold_inj data h1 h2 :
  is_bytes data → in_u32 h1 → in_u32 h2 → h1 ≠ h2 →
  fold_left (λ h b, wrap32 (Z.lxor h b * 16777619)) data h1 ≠
  fold_left (λ h b, wrap32 (Z.lxor h b * 16777619)) data h2.
Proof.
  intros Hd. revert h1 h2. induction Hd as [|b data Hb Hd IH]; intros h1 h2 H1 H2 Hne; simpl; [done|].
  apply IH; [apply wrap32_range..|]. intros E. apply Hne.
  apply fnv_mul_inj in E; [by apply lxor_inj_r in E|..]; (apply lxor_u32; [done|by apply byte_u32]).
Qed.

(** Two texts of bytes that differ in exactly one byte have different checksums. *)
Lemma fnv1a32_single_byte data (i : nat) b b' :
  is_bytes data → data !! i = Some b → is_byte b' → b' ≠ b →
  fnv1a32 (<[i:=b']> data) ≠ fnv1a32 data.
Proof.
  intros Hd Hi Hb' Hne. unfold fnv1a32.
  assert (Hs : in_u32 2166136261) by widths. revert Hs. generalize 2166136261.
  revert data Hd Hi. induction i as [|i IH]; intros [|c data] Hd Hi h Hh; simplify_eq/=;
    apply Forall_cons in Hd as [Hc Hd].
  - intros E. revert E. apply fnv_fold_inj; [done|apply wrap32_range..|].
    intros E. apply fnv_mul_inj in E; [|by apply lxor_u32, byte_u32..]. by apply lxor_inj_l in E.
  - apply IH; [done..|apply wrap32_range].
Qed.
