(* ===== verification/Files.v ===== *)
(** * Files and the atomic replacement of a file

    The directory a server works in is a finite map from paths to contents.
    [write_bytes_atomic] is engine/storage/atomic_write.hpp (its non-Windows branch): the content goes
    to "<path>.tmp", is synced, and the temporary is renamed over the path. Every step can fail, and a
    crash can stop the sequence after any of them: [write_bytes_atomic_trace] lists the directories
    the steps go through. *)
From S2P Require Import Prelude.

Abbreviation files := (gmap (list Z) (list Z)).

(** Where a sequence of stdio calls fails; [k] is how many bytes had reached the file by then. *)
Inductive io_fault : Type :=
  | NoFault
  | OpenFault
  | WriteFault (k : nat)
  | FlushFault (k : nat)
  | SyncFault
  | RenameFault (ec_message : list Z).

#[export] Instance io_fault_eq_dec : EqDecision io_fault.
Proof. solve_decision. Defined.

Definition tmp_path (path : list Z) : list Z := path ++ str ".tmp".

(** The directories the call goes through after the one it starts in, and how it ends. *)
Definition write_bytes_atomic_trace (path data : list Z) (fault : io_fault) (fs : files)
  : list files * result unit :=
  let tmp := tmp_path path in
  let opened := <[tmp := []]> fs in
  match fault with
  | OpenFault => ([], Err (str "파일 쓰기 실패: " ++ tmp))
  | WriteFault k | FlushFault k =>
      ([opened; <[tmp := take k data]> opened], Err (str "파일 쓰기 실패: " ++ tmp))
  | SyncFault => ([opened; <[tmp := data]> opened], Err (str "파일 동기화 실패: " ++ tmp))
  | RenameFault ec => ([opened; <[tmp := data]> opened], Err (str "파일 교체 실패: " ++ path ++ str " (" ++ ec ++ str ")"))
  | NoFault =>
      ([opened; <[tmp := data]> opened; <[path := data]> (delete tmp opened)], Ok tt)
  end.

Definition write_bytes_atomic (path data : list Z) (fault : io_fault) (fs : files)
  : files * result unit :=
  let '(trace, r) := write_bytes_atomic_trace path data fault fs in
  (List.last trace fs, r).

Lemma tmp_path_ne path : tmp_path path ≠ path.
Proof.
  intros H. apply (f_equal length) in H. unfold tmp_path in H. rewrite length_app in H.
  change (length (str ".tmp")) with 4%nat in H. lia.
Qed.

(** Whatever the call has done when it stops, the path holds its old content or the new one. *)
Lemma write_bytes_atomic_old_or_new path data fault fs trace r fs' :
  write_bytes_atomic_trace path data fault fs = (trace, r) →
  fs' ∈ trace → fs' !! path = fs !! path ∨ fs' !! path = Some data.
Proof.
  pose proof (tmp_path_ne path) as Hne.
  destruct fault; simpl; intros E Hin; simplify_eq; set_unfold;
    destruct_or?; subst; try done; simplify_map_eq; auto.
Qed.

Lemma write_bytes_atomic_ok path data fs :
  ∃ fs', write_bytes_atomic path data NoFault fs = (fs', Ok tt) ∧ fs' !! path = Some data ∧
         ∀ p, p ≠ path → p ≠ tmp_path path → fs' !! p = fs !! p.
Proof.
  eexists. split; [reflexivity|]. simpl. split; [by simplify_map_eq|].
  intros p H1 H2. by simplify_map_eq.
Qed.

Lemma write_bytes_atomic_failed path data fault fs :
  fault ≠ NoFault →
  ∃ fs' msg, write_bytes_atomic path data fault fs = (fs', Err msg) ∧ fs' !! path = fs !! path.
Proof.
  pose proof (tmp_path_ne path) as Hne.
  intros Hf. destruct fault; try done; do 2 eexists; (split; [reflexivity|]); simpl; by simplify_map_eq.
Qed.
