(* ===== verification/LogFile.v ===== *)
(** * Append-only log files with a record of whose entries they hold

    The write-ahead log (wal.cpp) and the undo log (txn_manager.cpp) keep their records the same way:
    an append handle that stays open, a [LogContents] that remembers which transactions have records
    in the file, and a [remove_txn] that empties the file in place when it can tell from that memory
    that nobody else's records are there. The code writes each routine twice; the routines are
    modelled once, over any record type with a [LogCodec], and Wal.v and Undo.v instantiate them.

    A state is the directory, the handle and the tracking record ([LogSlot], the part of
    [TxnIoShared] one log uses). The outcome of every stdio call is an argument. *)
From S2P Require Import Prelude Codec Files.

(** ** What a record format promises *)

Class RecordCodec (R : Type) := {
  enc : R → list Z;
  dec : reader R;
  rec_ok : R → Prop;
  dec_laws :: ReaderLaws dec;
  dec_enc r : rec_ok r → reads_back dec (enc r) r;
  enc_nonempty r : enc r ≠ [];
  dec_nil : dec [] 0%nat = None
}.

(** A record that belongs to a transaction. *)
Class LogCodec (R : Type) := {
  log_codec :: RecordCodec R;
  txn_of : R → Z
}.

(** ** State *)

(** TxnIoShared::LogContents *)
Record LogContents := mkLogContents {
  lc_path : list Z;
  lc_known : bool;
  lc_txns : gset Z
}.

(** The open append handle (the path it was opened for, [None] for a null FILE pointer) and the
    tracking record. *)
Record LogSlot := mkLogSlot {
  sl_fp : option (list Z);
  sl_contents : LogContents
}.

Record log_state := mkLog {
  lg_files : files;
  lg_slot : LogSlot
}.

Definition with_contents (c : LogContents) (s : log_state) : log_state :=
  mkLog (lg_files s) (mkLogSlot (sl_fp (lg_slot s)) c).
Definition with_fp (fp : option (list Z)) (s : log_state) : log_state :=
  mkLog (lg_files s) (mkLogSlot fp (sl_contents (lg_slot s))).
Definition with_files (fs : files) (s : log_state) : log_state := mkLog fs (lg_slot s).

(** ** Operations *)

(** tracked_contents: the tracking record, reset when a different file is in use. *)
Definition tracked_contents (path : list Z) (s : log_state) : log_state :=
  if decide (lc_path (sl_contents (lg_slot s)) = path) then s
  else with_contents (mkLogContents path false ∅) s.

Definition set_known (known : bool) (s : log_state) : log_state :=
  let c := sl_contents (lg_slot s) in with_contents (mkLogContents (lc_path c) known (lc_txns c)) s.
Definition set_txns (txns : gset Z) (s : log_state) : log_state :=
  let c := sl_contents (lg_slot s) in with_contents (mkLogContents (lc_path c) (lc_known c) txns) s.

(** close_*_handle_locked *)
Definition close_handle_locked (s : log_state) : log_state := with_fp None s.

(** *_append_handle_locked: fopen "ab", which creates the file; false when the open fails. *)
Definition append_handle_locked (path : list Z) (open_ok : bool) (s : log_state) : log_state * bool :=
  if decide (sl_fp (lg_slot s) = Some path) then (s, true)
  else
    let s := close_handle_locked s in
    if open_ok then
      let fs := match lg_files s !! path with Some _ => lg_files s | None => <[path := []]> (lg_files s) end in
      (with_fp (Some path) (with_files fs s), true)
    else (s, false).

(** What reaches the file through the append handle. *)
Definition append_bytes (path data : list Z) (s : log_state) : log_state :=
  with_files (<[path := default [] (lg_files s !! path) ++ data]> (lg_files s)) s.

(** write_encoded_locked: append one encoded record of transaction [txn_id], flushed, and synced
    when [sync]; the exceptions it throws are [Err]. *)
Definition write_encoded_locked (path : list Z) (messages : list Z * list Z * list Z) (encoded : list Z)
    (sync : bool) (txn_id : Z) (fault : io_fault) (s : log_state) : log_state * result unit :=
  let '(open_msg, write_msg, sync_msg) := messages in
  let s := tracked_contents path s in
  let '(s, opened) := append_handle_locked path (bool_decide (fault ≠ OpenFault)) s in
  if negb opened then (s, Err open_msg)
  else
    match fault with
    | WriteFault k | FlushFault k =>
        (close_handle_locked (set_known false (append_bytes path (take k encoded) s)), Err write_msg)
    | _ =>
        let s := append_bytes path encoded s in
        let s := if lc_known (sl_contents (lg_slot s))
                 then set_txns ({[txn_id]} ∪ lc_txns (sl_contents (lg_slot s))) s else s in
        if sync && bool_decide (fault = SyncFault)
        then (close_handle_locked s, Err sync_msg) else (s, Ok tt)
    end.

(** clear_locked: the handle is closed and the file removed ([fs::remove] reports nothing when it
    fails, [removed = false]). *)
Definition clear_locked (path : list Z) (removed : bool) (s : log_state) : log_state :=
  let s := close_handle_locked s in
  let s := if removed then with_files (delete path (lg_files s)) s else s in
  set_txns ∅ (set_known true (tracked_contents path s)).

(** How the stdio calls of one [remove_txn] turn out: opening the handle and truncating in the branch
    where the transaction is alone in the file, the same two after the file has been read, the
    removal of the file, and the rewrite. *)
Record log_env := mkEnv {
  e_open1 : bool;
  e_trunc1 : bool;
  e_open2 : bool;
  e_trunc2 : bool;
  e_removed : bool;
  e_write : io_fault
}.

Section records.
Context {R : Type} `{!RecordCodec R}.

(** [while (auto record = decode(buf, pos)) records.push_back( *record);] — a record takes at least
    one byte, so the buffer's length bounds the iterations. *)
Fixpoint decode_loop (fuel : nat) (buf : list Z) (pos : nat) : list R :=
  match fuel with
  | O => []
  | S fuel =>
      match dec buf pos with
      | Some (r, pos') => r :: decode_loop fuel buf pos'
      | None => []
      end
  end.

Definition decode_all (buf : list Z) : list R := decode_loop (S (length buf)) buf 0.

Definition encode_all (rs : list R) : list Z := concat (enc <$> rs).

End records.

Section log.
Context {R : Type} `{!LogCodec R}.

(** read_all_locked *)
Definition read_all_locked (path : list Z) (s : log_state) : list R :=
  match lg_files s !! path with Some buf => decode_all buf | None => [] end.

Definition txn_ids_of (rs : list R) : gset Z := list_to_set (txn_of <$> rs).

(** The rewrite of the file with the records that stay. *)
Definition rewrite_records (path : list Z) (rs : list R) (fault : io_fault) (s : log_state)
  : log_state * result unit :=
  let s := close_handle_locked s in
  let '(fs, r) := write_bytes_atomic path (encode_all rs) fault (lg_files s) in
  let s := with_files fs s in
  match r with
  | Err m => (s, Err m)
  | Ok _ => (set_txns (txn_ids_of rs) (set_known true s), Ok tt)
  end.

(** truncate_to_zero through the handle. *)
Definition truncate_to_zero (path : list Z) (s : log_state) : log_state :=
  with_files (<[path := []]> (lg_files s)) s.

(** remove_txn. *)
Definition remove_txn (path : list Z) (txn_id : Z) (env : log_env) (s : log_state)
  : log_state * result unit :=
  let s := tracked_contents path s in
  let c := sl_contents (lg_slot s) in
  if lc_known c && negb (bool_decide (txn_id ∈ lc_txns c)) then (s, Ok tt)
  else
    let '(s, fp) :=
      if lc_known c && bool_decide (size (lc_txns c) = 1%nat)
      then append_handle_locked path (e_open1 env) s else (s, false) in
    if fp && e_trunc1 env then (set_txns ∅ (truncate_to_zero path s), Ok tt)
    else
      let remaining := filter (λ r, txn_of r ≠ txn_id) (read_all_locked path s) in
      match remaining with
      | [] =>
          match lg_files s !! path with
          | Some _ =>
              let '(s, fp) := append_handle_locked path (e_open2 env) s in
              if fp && e_trunc2 env
              then (set_txns ∅ (set_known true (truncate_to_zero path s)), Ok tt)
              else (clear_locked path (e_removed env) s, Ok tt)
          | None => (clear_locked path (e_removed env) s, Ok tt)
          end
      | _ => rewrite_records path remaining (e_write env) s
      end.
End log.

(** ** What a log file holds *)

Section record_facts.
Context {R : Type} `{!RecordCodec R}.
Implicit Types (rs : list R) (r : R).

Lemma encode_all_app rs1 rs2 : encode_all (rs1 ++ rs2) = encode_all rs1 ++ encode_all rs2.
Proof. unfold encode_all. by rewrite fmap_app, concat_app. Qed.

Lemma encode_all_cons r rs : encode_all (r :: rs) = enc r ++ encode_all rs.
Proof. done. Qed.

Lemma enc_length r : (0 < length (enc r))%nat.
Proof. pose proof (enc_nonempty r). destruct (enc r); [done|simpl; lia]. Qed.

Lemma encode_all_length rs : (length rs ≤ length (encode_all rs))%nat.
Proof.
  induction rs as [|r rs IH]; [done|].
  rewrite encode_all_cons, length_app. pose proof (enc_length r). simpl. lia.
Qed.

Lemma decode_loop_all rs pre tail fuel :
  Forall rec_ok rs → dec tail 0%nat = (None : option (R * nat)) → (length rs < fuel)%nat →
  decode_loop fuel (pre ++ encode_all rs ++ tail) (length pre) = rs.
Proof.
  intros Hok Htail. revert pre fuel.
  induction Hok as [|r rs Hr Hok IH]; intros pre fuel Hf; destruct fuel as [|fuel]; simpl in Hf; try lia; simpl.
  - change (encode_all []) with (@nil Z). simpl.
    pose proof (reader_shift (r := dec) pre tail 0) as E. rewrite Nat.add_0_r in E.
    by rewrite E, Htail.
  - rewrite encode_all_cons, <- app_assoc.
    rewrite (reads_back_app pre (enc r) (encode_all rs ++ tail) r) by (by apply dec_enc).
    f_equal. specialize (IH (pre ++ enc r) fuel). rewrite length_app, <- app_assoc in IH.
    apply IH. lia.
Qed.

(** Reading the file gives the records that were written whole, whatever bytes that do not decode
    follow them. *)
Lemma decode_all_encode rs tail :
  Forall rec_ok rs → dec tail 0%nat = (None : option (R * nat)) →
  decode_all (encode_all rs ++ tail) = rs.
Proof.
  intros Hok Ht. unfold decode_all.
  apply (decode_loop_all rs [] tail); [done..|].
  pose proof (encode_all_length rs). rewrite length_app. lia.
Qed.

Lemma decode_all_records rs : Forall rec_ok rs → decode_all (encode_all rs) = rs.
Proof.
  intros Hok. rewrite <- (app_nil_r (encode_all rs)). by apply decode_all_encode, dec_nil.
Qed.

(** A record that was only partly written is not read, and hides none of those before it. *)
Lemma decode_all_torn rs r (n : nat) :
  Forall rec_ok rs → rec_ok r → (n < length (enc r))%nat →
  decode_all (encode_all rs ++ take n (enc r)) = rs.
Proof.
  intros Hok Hr Hn. apply decode_all_encode; [done|].
  eapply reads_back_torn; [by apply dec_enc|done].
Qed.

(** Cutting the file at any byte leaves the records that end before the cut. *)
Lemma decode_all_cut rs (n : nat) :
  Forall rec_ok rs →
  ∃ k, decode_all (take n (encode_all rs)) = take k rs ∧
       ∀ j, (j ≤ length rs)%nat → (length (encode_all (take j rs)) ≤ n)%nat → (j ≤ k)%nat.
Proof.
  intros Hok. destruct (decide (length (encode_all rs) ≤ n)%nat) as [Hn|Hn].
  { exists (length rs). rewrite take_ge, firstn_all, decode_all_records by done. split; [done|]. lia. }
  assert (∃ k r, rs !! k = Some r ∧ (length (encode_all (take k rs)) ≤ n)%nat ∧
                 (n < length (encode_all (take (S k) rs)))%nat) as (k & r & Hr & Hlo & Hhi).
  { clear Hok. revert n Hn. induction rs as [|r rs IH]; intros n Hn; [simpl in Hn; lia|].
    rewrite encode_all_cons, length_app in Hn.
    destruct (decide (n < length (enc r))%nat).
    - exists 0%nat, r. split; [done|]. split; [simpl; lia|].
      change (take 1 (r :: rs)) with [r]. unfold encode_all. simpl. rewrite app_nil_r. lia.
    - destruct (IH (n - length (enc r))%nat) as (k & r' & H1 & H2 & H3); [lia|].
      exists (S k), r'. split; [done|].
      change (take (S (S k)) (r :: rs)) with (r :: take (S k) rs).
      change (take (S k) (r :: rs)) with (r :: take k rs).
      rewrite !encode_all_cons, !length_app. lia. }
  exists k. rewrite (take_S_r _ _ _ Hr), encode_all_app, length_app in Hhi.
  assert (Eone : encode_all [r] = enc r) by (unfold encode_all; simpl; apply app_nil_r). rewrite Eone in Hhi.
  assert (Ecut : take n (encode_all rs) =
                 encode_all (take k rs) ++ take (n - length (encode_all (take k rs))) (enc r)).
  { rewrite <- (take_drop_middle _ _ _ Hr) at 1. rewrite encode_all_app, encode_all_cons.
    rewrite take_app, take_ge by done. f_equal. apply take_app_le. lia. }
  split.
  - rewrite Ecut. apply decode_all_torn; [by apply Forall_take|by eapply Forall_lookup_1|lia].
  - intros j Hj Hlj. destruct (decide (j ≤ k)%nat); [done|]. exfalso.
    assert (Hmono : (length (encode_all (take (S k) rs)) ≤ length (encode_all (take j rs)))%nat).
    { replace j with (S k + (j - S k))%nat by lia. rewrite <- take_take_drop, encode_all_app, length_app. lia. }
    rewrite (take_S_r _ _ _ Hr), encode_all_app, length_app, Eone in Hmono. lia.
Qed.

Lemma encode_all_nil_inv rs : encode_all rs = [] → rs = [].
Proof.
  destruct rs as [|r rs]; [done|]. rewrite encode_all_cons.
  pose proof (enc_nonempty r). by destruct (enc r).
Qed.

End record_facts.

Section facts.
Context {R : Type} `{!LogCodec R}.
Implicit Types (rs : list R) (r : R) (s : log_state).

(** The file at [path] holds exactly the records [rs] (no file: none), and what the tracking record
    says of it, if it says anything, is true. *)
Definition log_inv (path : list Z) (rs : list R) (s : log_state) : Prop :=
  Forall rec_ok rs ∧
  default [] (lg_files s !! path) = encode_all rs ∧
  let c := sl_contents (lg_slot s) in
  lc_path c = path → lc_known c = true → lc_txns c = txn_ids_of rs.

Lemma log_inv_read path rs s : log_inv path rs s → read_all_locked path s = rs.
Proof.
  intros (Hok & Hf & _). unfold read_all_locked.
  destruct (lg_files s !! path) as [buf|] eqn:E; simpl in Hf; subst.
  - by apply decode_all_records.
  - destruct rs as [|r rs]; [done|]. rewrite encode_all_cons in Hf.
    pose proof (enc_nonempty r). destruct (enc r); [done|discriminate].
Qed.

Lemma tracked_inv path rs s :
  log_inv path rs s →
  log_inv path rs (tracked_contents path s) ∧
  lc_path (sl_contents (lg_slot (tracked_contents path s))) = path ∧
  lg_files (tracked_contents path s) = lg_files s.
Proof.
  intros (Hok & Hf & Hc). unfold tracked_contents. case_decide; simpl; [done|].
  repeat split; try done.
Qed.

Lemma append_handle_inv path rs o s s' fp :
  log_inv path rs s → append_handle_locked path o s = (s', fp) →
  log_inv path rs s' ∧ sl_contents (lg_slot s') = sl_contents (lg_slot s) ∧
  (∀ buf, lg_files s !! path = Some buf → lg_files s' !! path = Some buf) ∧
  (o = true → fp = true).
Proof.
  intros (Hok & Hf & Hc). unfold append_handle_locked. case_decide.
  { intros; simplify_eq. done. }
  destruct o; intros; simplify_eq/=; [|done].
  split_and!; try done.
  - split; [done|]. split; [|done]. simpl. destruct (lg_files s !! path) eqn:E; [by rewrite E|].
    simpl in *. by simplify_map_eq.
  - intros buf E. by rewrite E.
Qed.

(** Appending a record. *)
Lemma write_encoded_inv path msgs rs r sync fault s :
  log_inv path rs s → rec_ok r →
  match fault with WriteFault _ | FlushFault _ | OpenFault | RenameFault _ => False | _ => True end →
  let '(s', res) := write_encoded_locked path msgs (enc r) sync (txn_of r) fault s in
  log_inv path (rs ++ [r]) s' ∧ (fault = NoFault → res = Ok tt).
Proof.
  intros Hinv Hr Hfault. destruct msgs as [[m1 m2] m3]. unfold write_encoded_locked.
  destruct (tracked_inv _ _ _ Hinv) as (Hinv1 & Hp & _).
  destruct (append_handle_locked path _ _) as [s1 fp] eqn:E.
  destruct (append_handle_inv _ _ _ _ _ _ Hinv1 E) as (Hinv2 & Hc & _ & Hopen).
  rewrite bool_decide_eq_true_2 in Hopen by (by destruct fault). rewrite (Hopen eq_refl). simpl.
  rewrite <- Hc in Hp. destruct Hinv2 as (Hok & Hf & Hk).
  assert (G : log_inv path (rs ++ [r])
    (if lc_known (sl_contents (lg_slot (append_bytes path (enc r) s1)))
     then set_txns ({[txn_of r]} ∪ lc_txns (sl_contents (lg_slot (append_bytes path (enc r) s1))))
            (append_bytes path (enc r) s1)
     else append_bytes path (enc r) s1)).
  { split; [by apply Forall_app_2; [|apply Forall_singleton]|].
    assert (E2 : default [] (<[path:=default [] (lg_files s1 !! path) ++ enc r]> (lg_files s1) !! path)
                 = encode_all (rs ++ [r])).
    { simplify_map_eq. rewrite Hf, encode_all_app, encode_all_cons. by rewrite app_nil_r. }
    unfold append_bytes, with_files, set_txns. simpl.
    destruct (lc_known _) eqn:Hkn; simpl; (split; [exact E2|]); [|congruence].
    intros _ _. rewrite Hk by done. unfold txn_ids_of. rewrite fmap_app, list_to_set_app_L. simpl.
    by rewrite union_empty_r_L, union_comm_L. }
  destruct fault; try done.
  - rewrite bool_decide_eq_false_2 by done. rewrite andb_false_r. done.
  - rewrite bool_decide_eq_true_2 by done. rewrite andb_true_r. destruct sync; done.
Qed.

(** A failed write leaves the records that were there readable and the tracking off. *)
Lemma write_encoded_failed path msgs rs r sync k fault s :
  log_inv path rs s → rec_ok r → (k < length (enc r))%nat →
  fault = WriteFault k ∨ fault = FlushFault k →
  let '(s', res) := write_encoded_locked path msgs (enc r) sync (txn_of r) fault s in
  (∃ m, res = Err m) ∧ read_all_locked path s' = rs ∧ lc_known (sl_contents (lg_slot s')) = false.
Proof.
  intros Hinv Hr Hk Hfault. destruct msgs as [[m1 m2] m3]. unfold write_encoded_locked.
  destruct (tracked_inv _ _ _ Hinv) as (Hinv1 & Hp & _).
  destruct (append_handle_locked path _ _) as [s1 fp] eqn:E.
  destruct (append_handle_inv _ _ _ _ _ _ Hinv1 E) as ((Hok & Hf & _) & Hc & _ & Hopen).
  rewrite bool_decide_eq_true_2 in Hopen by (by destruct Hfault; subst). rewrite (Hopen eq_refl). simpl.
  assert (G : read_all_locked path (close_handle_locked (set_known false (append_bytes path (take k (enc r)) s1))) = rs).
  { unfold read_all_locked. simpl. simplify_map_eq. rewrite Hf. by apply decode_all_torn. }
  destruct Hfault as [->| ->]; split_and!; eauto.
Qed.

Lemma emptied_inv path s :
  lc_path (sl_contents (lg_slot s)) = path →
  default [] (lg_files s !! path) = [] → lc_txns (sl_contents (lg_slot s)) = ∅ →
  log_inv path [] s.
Proof. intros. split_and!; [done|done|]. intros. done. Qed.

Lemma clear_locked_inv path s : log_inv path [] (clear_locked path true s).
Proof.
  unfold clear_locked, tracked_contents. simpl. case_decide; simpl;
    (apply emptied_inv; simpl; [done|by simplify_map_eq|done]).
Qed.

Lemma truncate_inv path s :
  lc_path (sl_contents (lg_slot s)) = path → log_inv path [] (set_txns ∅ (truncate_to_zero path s)).
Proof. intros Hp. apply emptied_inv; simpl; [done|by simplify_map_eq|done]. Qed.

Lemma filter_others_all txn rs :
  txn ∉ txn_ids_of rs → filter (λ r, txn_of r ≠ txn) rs = rs.
Proof.
  intros H. apply filter_all, Forall_forall. intros r Hr Heq. apply H.
  unfold txn_ids_of. apply elem_of_list_to_set, list_elem_of_fmap. by exists r.
Qed.

Lemma filter_others_none txn rs :
  txn_ids_of rs ⊆ {[txn]} → filter (λ r, txn_of r ≠ txn) rs = [].
Proof.
  intros H. apply filter_none, Forall_forall. intros r Hr Hne. apply Hne.
  assert (Hin : txn_of r ∈ txn_ids_of rs).
  { unfold txn_ids_of. apply elem_of_list_to_set, list_elem_of_fmap. by exists r. }
  apply H in Hin. by apply elem_of_singleton in Hin.
Qed.

Lemma rewrite_records_inv path rs s :
  Forall rec_ok rs → lc_path (sl_contents (lg_slot s)) = path →
  ∃ s', rewrite_records path rs NoFault s = (s', Ok tt) ∧ log_inv path rs s'.
Proof.
  intros Hok Hp. unfold rewrite_records. simpl.
  eexists. split; [reflexivity|]. split; [done|]. simpl. by simplify_map_eq.
Qed.

(** The end of [remove_txn], after the file has been read. *)
Lemma remove_txn_reread path rs rs' env s :
  log_inv path rs s → lc_path (sl_contents (lg_slot s)) = path → Forall rec_ok rs' →
  ∃ s',
    match rs' with
    | [] =>
        match lg_files s !! path with
        | Some _ =>
            let '(s, fp) := append_handle_locked path (e_open2 env) s in
            if fp && e_trunc2 env
            then (set_txns ∅ (set_known true (truncate_to_zero path s)), Ok tt)
            else (clear_locked path true s, Ok tt)
        | None => (clear_locked path true s, Ok tt)
        end
    | _ => rewrite_records path rs' NoFault s
    end = (s', Ok tt) ∧ log_inv path rs' s'.
Proof.
  intros Hinv Hp Hok. destruct rs' as [|r rs']; [|by apply rewrite_records_inv].
  destruct (lg_files s !! path) eqn:Ef.
  - destruct (append_handle_locked path (e_open2 env) s) as [s' fp] eqn:E.
    destruct (append_handle_inv _ _ _ _ _ _ Hinv E) as (_ & Hc & _).
    destruct (fp && e_trunc2 env); eexists; (split; [done|]); [|apply clear_locked_inv].
    apply emptied_inv; simpl; [by rewrite Hc|by simplify_map_eq|done].
  - eexists. split; [done|]. apply clear_locked_inv.
Qed.

(** Removing a transaction's records leaves the others', whatever the tracking record let it skip
    and whichever way the handle and the truncation turn out. *)
Lemma remove_txn_inv path txn env rs s :
  log_inv path rs s → e_removed env = true → e_write env = NoFault →
  ∃ s', remove_txn path txn env s = (s', Ok tt) ∧
        log_inv path (filter (λ r, txn_of r ≠ txn) rs) s'.
Proof.
  intros Hinv Hrm Hw. unfold remove_txn. rewrite Hrm, Hw.
  destruct (tracked_inv _ _ _ Hinv) as (Hinv1 & Hp & _).
  set (s1 := tracked_contents path s) in *. clearbody s1. clear Hinv s.
  pose proof Hinv1 as (Hok & _ & Hk). specialize (Hk Hp).
  destruct (lc_known (sl_contents (lg_slot s1)) && _) eqn:E1.
  { exists s1. split; [done|]. apply andb_true_iff in E1 as [E1 E1'].
    rewrite negb_true_iff, bool_decide_eq_false, Hk in E1' by done.
    by rewrite filter_others_all. }
  destruct (if _ && bool_decide (size _ = 1%nat) then _ else _) as [s2 fp] eqn:E2.
  assert (H2 : log_inv path rs s2 ∧ sl_contents (lg_slot s2) = sl_contents (lg_slot s1) ∧
               (fp = true → txn_ids_of rs ⊆ {[txn]})).
  { destruct (_ && bool_decide (size _ = 1%nat)) eqn:E3; simplify_eq; [|done].
    destruct (append_handle_inv _ _ _ _ _ _ Hinv1 E2) as (? & ? & _). split_and!; [done..|]. intros _.
    apply andb_true_iff in E3 as [E3 E3']. rewrite E3 in E1. simpl in E1.
    rewrite negb_false_iff, bool_decide_eq_true, Hk in E1 by done.
    rewrite bool_decide_eq_true, Hk in E3' by done.
    apply size_1_elem_of in E3' as [x Hx%leibniz_equiv].
    rewrite Hx in E1 |- *. apply elem_of_singleton in E1. by subst. }
  destruct H2 as (Hinv2 & Hc2 & Hone). rewrite <- Hc2 in Hp.
  destruct fp; simpl; [destruct (e_trunc1 env)|].
  { eexists. split; [done|]. rewrite filter_others_none by auto. by apply truncate_inv. }
  all: rewrite (log_inv_read _ _ _ Hinv2); apply remove_txn_reread with rs; [done..|];
    by apply Forall_filter_sub.
Qed.
End facts.

(** ** What the routines leave alone

    The files other than the log's own and the temporary of its replacement. *)
Definition frames {A} (path : list Z) (f : log_state → log_state * A) : Prop :=
  ∀ s p, p ≠ path → p ≠ tmp_path path → lg_files (f s).1 !! p = lg_files s !! p.

Lemma tracked_files path s : lg_files (tracked_contents path s) = lg_files s.
Proof. unfold tracked_contents. by case_decide. Qed.

Lemma append_handle_frame path o s p :
  p ≠ path → lg_files (append_handle_locked path o s).1 !! p = lg_files s !! p.
Proof.
  intros Hp. unfold append_handle_locked. case_decide; [done|]. destruct o; [|done]. simpl.
  destruct (lg_files s !! path); [done|]. by rewrite lookup_insert_ne.
Qed.

Lemma clear_locked_frame path removed s p :
  p ≠ path → lg_files (clear_locked path removed s) !! p = lg_files s !! p.
Proof.
  intros Hp. unfold clear_locked. cbn [set_txns set_known with_contents lg_files]. rewrite tracked_files.
  destruct removed; [|done]. simpl. by rewrite lookup_delete_ne.
Qed.

Lemma write_atomic_frame path data fault fs p :
  p ≠ path → p ≠ tmp_path path → (write_bytes_atomic path data fault fs).1 !! p = fs !! p.
Proof. intros H1 H2. unfold write_bytes_atomic. destruct fault; simpl; by simplify_map_eq. Qed.

Lemma write_encoded_frame path msgs encoded sync txn fault :
  frames path (write_encoded_locked path msgs encoded sync txn fault).
Proof.
  intros s p Hp _. unfold write_encoded_locked. destruct msgs as [[m1 m2] m3].
  destruct (append_handle_locked _ _ _) as [s1 fp] eqn:E.
  assert (H1 : lg_files s1 !! p = lg_files s !! p).
  { change s1 with (s1, fp).1. rewrite <- E, append_handle_frame by done. by rewrite tracked_files. }
  destruct fp; simpl; [|done].
  assert (H2 : ∀ d, lg_files (append_bytes path d s1) !! p = lg_files s !! p).
  { intros d. simpl. by rewrite lookup_insert_ne. }
  destruct fault; simpl; repeat case_match; simpl; try apply H2; by rewrite lookup_insert_ne.
Qed.

Lemma remove_txn_frame `{!LogCodec R} path txn env : frames path (remove_txn (R := R) path txn env).
Proof.
  intros s p Hp Ht. unfold remove_txn.
  pose proof (tracked_files path s) as E0. set (s1 := tracked_contents path s) in *. clearbody s1.
  rewrite <- E0. clear E0. destruct (_ && negb _); [done|].
  destruct (if _ && bool_decide (size _ = 1%nat) then _ else _) as [s2 fp] eqn:E.
  assert (H2 : lg_files s2 !! p = lg_files s1 !! p).
  { destruct (_ && bool_decide _); simplify_eq; [|done].
    change s2 with (s2, fp).1. by rewrite <- E, append_handle_frame. }
  destruct (fp && _); [simpl; by rewrite lookup_insert_ne|].
  rewrite <- H2. destruct (filter _ _).
  - destruct (lg_files s2 !! path); [|by apply clear_locked_frame].
    destruct (append_handle_locked path (e_open2 env) s2) as [s3 fp3] eqn:E3.
    assert (H3 : lg_files s3 !! p = lg_files s2 !! p).
    { change s3 with (s3, fp3).1. by rewrite <- E3, append_handle_frame. }
    rewrite <- H3. destruct (fp3 && _); cbn [fst]; [simpl; by rewrite lookup_insert_ne|by apply clear_locked_frame].
  - unfold rewrite_records. destruct (write_bytes_atomic _ _ _ _) as [fs r'] eqn:Ew.
    assert (Hw : fs !! p = lg_files s2 !! p).
    { change fs with (fs, r').1. by rewrite <- Ew, write_atomic_frame. }
    by destruct r'.
Qed.
