(* ===== verification/Wal.v ===== *)
(** * The write-ahead log (engine/transaction/wal.hpp, src/transaction/wal.cpp)

    Record format, reading with detection of torn and corrupted records, appending, pruning a finished
    transaction's records, and checkpoint truncation. The routines shared with the undo log are in
    LogFile.v. *)
From S2P Require Import Prelude Codec Files LogFile.

(** ** Records *)

Inductive WalOp : Set :=
  | Insert
  | Update
  | Delete
  | Commit
  | Rollback
  | Checkpoint.

#[export] Instance WalOp_eq_dec : EqDecision WalOp.
Proof. solve_decision. Defined.

(** [static_cast<uint8_t>(op)] *)
Definition wal_op_to_u8 (op : WalOp) : Z :=
  match op with
  | Insert => 0x01 | Update => 0x02 | Delete => 0x03
  | Commit => 0xFF | Rollback => 0xFE | Checkpoint => 0xFD
  end.

Definition wal_op_from_u8 (v : Z) : option WalOp :=
  match v with
  | 0x01 => Some Insert | 0x02 => Some Update | 0x03 => Some Delete
  | 0xFF => Some Commit | 0xFE => Some Rollback | 0xFD => Some Checkpoint
  | _ => None
  end.

Record WalRecord := mkWalRecord {
  op : WalOp;
  txn_id : Z;
  table_name : list Z;
  key : list Z;
  data : list Z
}.

#[export] Instance WalRecord_eq_dec : EqDecision WalRecord.
Proof. solve_decision. Defined.

(** The record without its checksum. *)
Definition wal_body (record : WalRecord) : list Z :=
  [wal_op_to_u8 (op record)] ++ push_u64_le (txn_id record) ++ push_string (table_name record) ++
  push_string (key record) ++ push_string (data record).

Definition encode (record : WalRecord) : list Z :=
  let buf := wal_body record in buf ++ push_u32_le (fnv1a32 buf).

Definition decode_body : reader WalRecord :=
  b <-- read_u8;
  match wal_op_from_u8 b with
  | None => r_fail
  | Some op =>
      txn_id <-- advance 8 read_u64_le;
      table_name <-- read_string;
      key <-- read_string;
      data <-- read_string;
      r_ret (mkWalRecord op txn_id table_name key data)
  end.

(** decode: [buf] from the start of the record to [pos] is what the checksum covers. *)
Definition decode : reader WalRecord :=
  rec_span <-- with_span decode_body;
  stored_checksum <-- advance 4 read_u32_le;
  if decide (fnv1a32 rec_span.2 = stored_checksum) then r_ret rec_span.1 else r_fail.

(** The records the widths of the format can hold: the lengths are written in 32 bits. *)
Definition wal_record_ok (r : WalRecord) : Prop :=
  in_u64 (txn_id r) ∧ in_u32 (Z.of_nat (length (table_name r))) ∧
  in_u32 (Z.of_nat (length (key r))) ∧ in_u32 (Z.of_nat (length (data r))).

#[export] Instance wal_record_ok_dec r : Decision (wal_record_ok r).
Proof. unfold wal_record_ok. apply _. Defined.

(** ** The record format keeps the promises of [LogCodec] *)

Lemma wal_op_roundtrip o : wal_op_from_u8 (wal_op_to_u8 o) = Some o.
Proof. by destruct o. Qed.

#[export] Instance decode_body_laws : ReaderLaws decode_body.
Proof.
  unfold decode_body. apply r_bind_laws; [apply _|]. intros b.
  destruct (wal_op_from_u8 b); apply _.
Qed.

#[export] Instance decode_laws : ReaderLaws decode.
Proof.
  unfold decode. apply r_bind_laws; [apply _|]. intros [r span].
  apply r_bind_laws; [apply _|]. intros stored. simpl. case_decide; apply _.
Qed.

Lemma decode_body_back r : wal_record_ok r → reads_back decode_body (wal_body r) r.
Proof.
  intros (H1 & H2 & H3 & H4). destruct r as [o t tb k d]. simpl in *. unfold wal_body, decode_body. simpl op.
  eapply reads_back_bind with (x := wal_op_to_u8 o); [|apply read_u8_back|].
  { intros b. destruct (wal_op_from_u8 b); apply _. }
  rewrite wal_op_roundtrip. cbn [txn_id table_name key data].
  eapply reads_back_bind; [apply _|by apply read_u64_back|].
  eapply reads_back_bind; [apply _|by apply read_string_back|].
  eapply reads_back_bind; [apply _|by apply read_string_back|].
  rewrite <- (app_nil_r (push_string d)).
  eapply reads_back_bind; [apply _|by apply read_string_back|]. apply reads_back_ret.
Qed.

Lemma decode_back r : wal_record_ok r → reads_back decode (encode r) r.
Proof.
  intros Hr. unfold encode, decode.
  eapply reads_back_bind; [|by apply reads_back_with_span, decode_body_back|].
  { intros [??]. apply r_bind_laws; [apply _|]. intros. simpl. case_decide; apply _. }
  simpl. rewrite <- (app_nil_r (push_u32_le _)).
  eapply reads_back_bind; [|by apply read_u32_back, fnv1a32_range|].
  { intros. case_decide; apply _. }
  rewrite decide_True by done. apply reads_back_ret.
Qed.

#[export, refine] Instance wal_record_codec : RecordCodec WalRecord := {
  enc := encode;
  dec := decode;
  rec_ok := wal_record_ok;
  dec_enc := decode_back
}.
Proof. all: done. Defined.

#[export] Instance wal_codec : LogCodec WalRecord := { txn_of := txn_id }.

(** ** WalManager *)

Definition AUTO_CHECKPOINT_BYTES : Z := 512 * 1024.

(** The constructor's [path_]. *)
Definition wal_path (dir : list Z) : list Z := dir ++ str "/rusql.wal".

Definition wal_messages : list Z * list Z * list Z :=
  (str "WAL 파일 열기 실패", str "WAL 기록 실패", str "WAL fsync 실패").

Definition wal_write (path : list Z) (record : WalRecord) (sync : bool) (fault : io_fault)
  : log_state → log_state * result unit :=
  write_encoded_locked path wal_messages (encode record) sync (txn_id record) fault.

Definition append (path : list Z) (record : WalRecord) := wal_write path record false.

Definition log_insert (path : list Z) (txn_id : Z) (table key data : list Z) :=
  append path (mkWalRecord Insert txn_id table key data).
Definition log_update (path : list Z) (txn_id : Z) (table key data : list Z) :=
  append path (mkWalRecord Update txn_id table key data).
Definition log_delete (path : list Z) (txn_id : Z) (table key : list Z) :=
  append path (mkWalRecord Delete txn_id table key []).
Definition log_commit (path : list Z) (txn_id : Z) :=
  wal_write path (mkWalRecord Commit txn_id [] [] []) true.
Definition log_commit_no_sync (path : list Z) (txn_id : Z) :=
  wal_write path (mkWalRecord Commit txn_id [] [] []) false.
Definition log_rollback (path : list Z) (txn_id : Z) :=
  append path (mkWalRecord Rollback txn_id [] [] []).
Definition log_checkpoint (path : list Z) :=
  wal_write path (mkWalRecord Checkpoint 0 [] [] []) true.

Definition read_all (path : list Z) (s : log_state) : list WalRecord := read_all_locked path s.

Definition wal_remove_txn (path : list Z) (txn_id : Z) (env : log_env)
  : log_state → log_state * result unit := remove_txn (R := WalRecord) path txn_id env.

(** 0 when there is no file. *)
Definition file_size (path : list Z) (s : log_state) : Z :=
  match lg_files s !! path with Some buf => Z.of_nat (length buf) | None => 0 end.

Definition needs_auto_checkpoint (path : list Z) (s : log_state) : bool :=
  AUTO_CHECKPOINT_BYTES <=? file_size path s.

(** [for (i = records.size(); i-- > 0;) if (records[i].op == Checkpoint) { last_cp = i; break; }] *)
Fixpoint last_checkpoint (records : list WalRecord) (i : nat) : option nat :=
  match i with
  | O => None
  | S i =>
      match records !! i with
      | Some r => if decide (op r = Checkpoint) then Some i else last_checkpoint records i
      | None => None
      end
  end.

Definition truncate_to_last_checkpoint (path : list Z) (removed : bool) (fault : io_fault)
    (s : log_state) : log_state * result unit :=
  let records := read_all_locked path s in
  match records with
  | [] => (s, Ok tt)
  | _ =>
      match last_checkpoint records (length records) with
      | None => (s, Ok tt)
      | Some last_cp =>
          let remaining := drop last_cp records in
          if decide (length remaining ≤ 1)%nat then (clear_locked path removed s, Ok tt)
          else
            let s := close_handle_locked s in
            let '(fs, r) := write_bytes_atomic path (encode_all remaining) fault (lg_files s) in
            let s := with_files fs s in
            match r with
            | Err m => (s, Err m)
            | Ok _ => (set_txns (txn_ids_of remaining) (set_known true (tracked_contents path s)), Ok tt)
            end
      end
  end.

(** ** Facts *)

Lemma last_checkpoint_spec rs1 cp rs2 :
  op cp = Checkpoint → Forall (λ r, op r ≠ Checkpoint) rs2 →
  last_checkpoint (rs1 ++ cp :: rs2) (length (rs1 ++ cp :: rs2)) = Some (length rs1).
Proof.
  intros Hcp H2. rewrite length_app. simpl.
  assert (G : ∀ n, (n ≤ length rs2)%nat →
    last_checkpoint (rs1 ++ cp :: rs2) (length rs1 + S n) = Some (length rs1)).
  { induction n as [|n IH]; intros Hn; rewrite Nat.add_succ_r; cbn [last_checkpoint].
    - rewrite Nat.add_0_r, list_lookup_middle by done. by rewrite decide_True.
    - rewrite lookup_app_r by lia. replace (length rs1 + S n - length rs1)%nat with (S n) by lia.
      change ((cp :: rs2) !! S n) with (rs2 !! n).
      destruct (lookup_lt_is_Some_2 rs2 n) as [r Hr]; [lia|]. rewrite Hr.
      rewrite decide_False; [apply IH; lia|]. by apply (Forall_lookup_1 _ _ _ _ H2 Hr). }
  by apply G.
Qed.

Lemma last_checkpoint_none rs n :
  Forall (λ r, op r ≠ Checkpoint) rs → last_checkpoint rs n = None.
Proof.
  intros H. induction n as [|n IH]; simpl; [done|].
  destruct (rs !! n) as [r|] eqn:E; [|done]. eapply Forall_lookup_1 in E; [|done].
  by rewrite decide_False.
Qed.

Lemma truncate_spec path rs1 cp rs2 s :
  log_inv path (rs1 ++ cp :: rs2) s → op cp = Checkpoint → Forall (λ r, op r ≠ Checkpoint) rs2 →
  ∃ s', truncate_to_last_checkpoint path true NoFault s = (s', Ok tt) ∧
        log_inv path (if decide (rs2 = []) then [] else cp :: rs2) s'.
Proof.
  intros Hinv Hcp H2. unfold truncate_to_last_checkpoint.
  rewrite (log_inv_read _ _ _ Hinv), last_checkpoint_spec by done.
  rewrite drop_app_length. destruct (rs1 ++ cp :: rs2) eqn:E; [apply (f_equal length) in E; rewrite length_app in E; simpl in E; lia|]. rewrite <- E in Hinv. clear E.
  case_decide as H; case_decide as H'; subst; simpl in H; try lia.
  - eexists. split; [done|]. apply clear_locked_inv.
  - destruct rs2; [done|simpl in H; lia].
  - simpl. eexists. split; [done|].
    pose proof Hinv as (Hok & _). apply Forall_app in Hok as [_ Hok].
    split; [done|]. unfold tracked_contents. simpl. case_decide; simpl; by simplify_map_eq.
Qed.

(** Changing one byte of a record: nothing of the record's extent decodes any more. *)
Lemma decode_checksum buf r p :
  decode buf 0%nat = Some (r, p) →
  ∃ q, p = (q + 4)%nat ∧ (q + 4 ≤ length buf)%nat ∧ fnv1a32 (take q buf) = le_value (take 4 (drop q buf)).
Proof.
  unfold decode, r_bind, with_span. destruct (decode_body buf 0%nat) as [[r' q]|] eqn:E; [|done].
  unfold advance, read_u32_le. case_decide as Hlen; [done|].
  destruct (decide _) as [Heq|]; [|done]. simpl in *. unfold r_ret. intros; simplify_eq.
  exists q. split; [done|]. split; [lia|]. rewrite drop_0, Nat.sub_0_r in Heq.
  by rewrite Heq, le_at_drop by lia.
Qed.

Lemma push_u32_bytes v : is_bytes (push_u32_le v).
Proof. apply push_le_bytes. Qed.

(** The bytes of a record's texts are bytes. *)
Definition wal_record_bytes (r : WalRecord) : Prop :=
  is_bytes (table_name r) ∧ is_bytes (key r) ∧ is_bytes (data r).

Lemma wal_body_bytes r : wal_record_bytes r → is_bytes (wal_body r).
Proof.
  intros (H1 & H2 & H3). unfold wal_body, push_string, push_u64_le, is_bytes.
  repeat (apply Forall_app_2 || apply push_le_bytes || done).
  apply Forall_singleton. destruct (op r); unfold is_byte; simpl; lia.
Qed.

Lemma le_value_inj l l' :
  is_bytes l → is_bytes l' → length l = length l' → le_value l = le_value l' → l = l'.
Proof.
  intros Hl. revert l'. induction Hl as [|b l Hb Hl IH]; intros [|b' l'] Hl' Hlen H; simplify_eq/=; [done|].
  apply Forall_cons in Hl' as [Hb' Hl'].
  assert (G : ∀ c v, is_byte c → Z.lor c (v ≪ 8) mod 2 ^ 8 = c ∧ Z.lor c (v ≪ 8) ≫ 8 = v).
  { intros c v Hc. split.
    - rewrite <- Z.land_ones by lia. rewrite Z.land_lor_distr_l, !Z.land_ones by lia.
      rewrite Z.shiftl_mul_pow2, Z.mod_mul, Z.lor_0_r by lia. apply Z.mod_small. widths.
    - rewrite Z.shiftr_lor, Z.shiftr_shiftl_l by lia. rewrite Z.shiftr_div_pow2 by lia.
      rewrite Z.div_small by widths. rewrite Z.lor_0_l, Z.sub_diag. by rewrite Z.shiftl_0_r. }
  destruct (G b (le_value l) Hb) as [E1 E2], (G b' (le_value l') Hb') as [E1' E2'].
  rewrite H in E1, E2. f_equal; [congruence|]. apply IH; [done..|congruence].
Qed.

Lemma single_byte_extent r (i : nat) b b' tail (q : nat) :
  wal_record_ok r → wal_record_bytes r →
  encode r !! i = Some b → is_byte b' → b' ≠ b → (q + 4)%nat = length (encode r) →
  fnv1a32 (take q (<[i:=b']> (encode r) ++ tail)) ≠
  le_value (take 4 (drop q (<[i:=b']> (encode r) ++ tail))).
Proof.
  intros Hok Hb Hi Hb' Hne Hq Hsum.
  rewrite take_app_le in Hsum by (rewrite length_insert; lia).
  rewrite drop_app_le, take_app_le in Hsum by (rewrite ?length_drop, length_insert; lia).
  unfold encode in Hq. rewrite length_app in Hq. unfold push_u32_le in Hq. rewrite length_push_le in Hq.
  assert (q = length (wal_body r)) as -> by lia.
  pose proof (wal_body_bytes r Hb) as Hbytes.
  unfold encode in *. set (body := wal_body r) in *. set (sum := push_u32_le (fnv1a32 body)) in *.
  assert (Hval : le_value sum = fnv1a32 body).
  { apply le_value_u32, fnv1a32_range. }
  assert (Hlen : length sum = 4%nat) by apply length_push_le.
  destruct (decide (i < length body)%nat) as [Hlt|Hge].
  - rewrite insert_app_l in Hsum by done. rewrite <- (length_insert body i b') in Hsum at 1.
    rewrite take_app_length, (drop_app_length' (<[i:=b']> body)) in Hsum by (by rewrite length_insert).
    rewrite take_ge, Hval in Hsum by lia. rewrite lookup_app_l in Hi by done.
    by eapply fnv1a32_single_byte in Hsum.
  - rewrite insert_app_r_alt in Hsum by lia. rewrite take_app_length, drop_app_length in Hsum.
    rewrite take_ge, <- Hval in Hsum by (rewrite length_insert; lia).
    rewrite lookup_app_r in Hi by lia.
    apply le_value_inj in Hsum; [|apply push_u32_bytes| |by rewrite length_insert].
    + apply Hne. rewrite Hsum in Hi.
      rewrite list_lookup_insert_eq in Hi by (apply lookup_lt_Some in Hi; by rewrite length_insert in Hi).
      congruence.
    + apply Forall_insert; [apply push_u32_bytes|done].
Qed.

(** ** The specification: a list of records *)

(** One call of the log's interface. Opening the handle and truncating in place may fail wherever the
    code has another way; a failed sync leaves the record in the file. *)
Inductive wal_call : Type :=
  | CallWrite (r : WalRecord) (sync synced : bool)
  | CallRemove (txn : Z) (open1 trunc1 open2 trunc2 : bool)
  | CallTruncate.

Definition run_call (path : list Z) (c : wal_call) (s : log_state) : log_state :=
  match c with
  | CallWrite r sync synced => (wal_write path r sync (if synced then NoFault else SyncFault) s).1
  | CallRemove txn o1 t1 o2 t2 => (wal_remove_txn path txn (mkEnv o1 t1 o2 t2 true NoFault) s).1
  | CallTruncate => (truncate_to_last_checkpoint path true NoFault s).1
  end.

(** The records from the last checkpoint on; none when nothing follows it; all when there is none. *)
Fixpoint since_checkpoint (rs : list WalRecord) : option (list WalRecord) :=
  match rs with
  | [] => None
  | r :: rest =>
      match since_checkpoint rest with
      | Some kept => Some kept
      | None => if decide (op r = Checkpoint) then Some (if decide (rest = []) then [] else rs) else None
      end
  end.

Definition spec_call (c : wal_call) (rs : list WalRecord) : list WalRecord :=
  match c with
  | CallWrite r _ _ => rs ++ [r]
  | CallRemove txn _ _ _ _ => filter (λ r, txn_id r ≠ txn) rs
  | CallTruncate => default rs (since_checkpoint rs)
  end.

Definition call_ok (c : wal_call) : Prop :=
  match c with CallWrite r _ _ => wal_record_ok r | _ => True end.

#[export] Instance call_ok_dec c : Decision (call_ok c).
Proof. destruct c; simpl; apply _. Defined.

Definition run_calls (path : list Z) (cs : list wal_call) (s : log_state) : log_state :=
  fold_left (λ s c, run_call path c s) cs s.
Definition spec_calls (cs : list wal_call) (rs : list WalRecord) : list WalRecord :=
  fold_left (λ rs c, spec_call c rs) cs rs.

(** A server that has just started in an empty directory. *)
Definition log_start : log_state := mkLog ∅ (mkLogSlot None (mkLogContents [] false ∅)).

Lemma log_start_inv `{!LogCodec R} path : path ≠ [] → log_inv (R := R) path [] log_start.
Proof. intros. split_and!; simpl; [done|done|]. intros; congruence. Qed.

Lemma since_checkpoint_None rs :
  since_checkpoint rs = None → Forall (λ r, op r ≠ Checkpoint) rs.
Proof.
  induction rs as [|r rs IH]; simpl; [done|]. destruct (since_checkpoint rs); [done|].
  case_decide; [done|]. auto.
Qed.

Lemma since_checkpoint_Some rs kept :
  since_checkpoint rs = Some kept →
  ∃ rs1 cp rs2, rs = rs1 ++ cp :: rs2 ∧ op cp = Checkpoint ∧ Forall (λ r, op r ≠ Checkpoint) rs2 ∧
                kept = if decide (rs2 = []) then [] else cp :: rs2.
Proof.
  revert kept. induction rs as [|r rs IH]; intros kept; simpl; [done|].
  destruct (since_checkpoint rs) as [k|] eqn:E.
  - intros [= <-]. destruct (IH k eq_refl) as (rs1 & cp & rs2 & -> & ? & ? & ?).
    exists (r :: rs1), cp, rs2. done.
  - case_decide as Hop; [|done]. intros [= <-]. exists [], r, rs.
    split_and!; [done|done|by apply since_checkpoint_None|]. done.
Qed.

Lemma run_call_inv path c rs s :
  call_ok c → log_inv path rs s → log_inv path (spec_call c rs) (run_call path c s).
Proof.
  intros Hok Hinv. destruct c as [r sync synced|txn o1 t1 o2 t2|]; simpl in *.
  - pose proof (write_encoded_inv path wal_messages rs r sync (if synced then NoFault else SyncFault) s Hinv Hok) as H.
    unfold wal_write. simpl enc in H. simpl txn_of in H.
    destruct (write_encoded_locked _ _ _ _ _ _ _) as [s' res]. apply H. by destruct synced.
  - destruct (remove_txn_inv path txn (mkEnv o1 t1 o2 t2 true NoFault) rs s Hinv) as (s' & E & Hinv'); [done..|].
    unfold wal_remove_txn. by rewrite E.
  - destruct (since_checkpoint rs) as [kept|] eqn:E; simpl.
    + apply since_checkpoint_Some in E as (rs1 & cp & rs2 & -> & Hcp & H2 & ->).
      destruct (truncate_spec path rs1 cp rs2 s) as (s' & -> & H'); done.
    + apply since_checkpoint_None in E. unfold truncate_to_last_checkpoint.
      rewrite (log_inv_read _ _ _ Hinv), last_checkpoint_none by done. by destruct rs.
Qed.

Lemma run_calls_inv path cs rs s :
  Forall call_ok cs → log_inv path rs s → log_inv path (spec_calls cs rs) (run_calls path cs s).
Proof.
  intros H. revert rs s. induction H as [|c cs Hc _ IH]; intros rs s Hinv; simpl; [done|].
  by apply IH, run_call_inv.
Qed.

(** ** Properties *)

(** C1: the log file implements a list of records. After any sequence of appends (synced or not, the
    sync failing or not), removals of a transaction's records and checkpoint truncations, starting
    from an empty directory, [read_all] gives exactly the records that the sequence leaves by its
    meaning on lists: appended in order, without the removed transactions, and from the last
    checkpoint on after a truncation. This holds whichever of the in-place shortcuts of [remove_txn]
    its tracking record and the outcome of opening and truncating the file let it take. *)
Theorem wal_refines_list path cs :
  path ≠ [] → Forall call_ok cs → read_all path (run_calls path cs log_start) = spec_calls cs [].
Proof. intros Hp Hcs. by apply log_inv_read, run_calls_inv, log_start_inv. Qed.

Definition demo_calls : list wal_call :=
  let ins t := mkWalRecord Insert t (str "t") (str "1") (str "{}") in
  [CallWrite (ins 1) false true; CallWrite (ins 2) false true;
   CallRemove 1 true true true true; CallWrite (mkWalRecord Checkpoint 0 [] [] []) true true;
   CallWrite (ins 3) false true; CallTruncate; CallRemove 3 true false true true].

Lemma wal_refines_list_witness :
  spec_calls demo_calls [] = [mkWalRecord Checkpoint 0 [] [] []] ∧
  read_all (str "w") (run_calls (str "w") demo_calls log_start) = spec_calls demo_calls [].
Proof.
  split; [by vm_compute|]. apply wal_refines_list; [done|].
  apply (bool_decide_eq_true_1 _). by vm_compute.
Defined.

(** C2: a crash in the middle of an append loses that record only. When the file holds the whole
    records [rs] followed by any strict prefix of the encoding of one more, [read_all] gives [rs]. *)
Theorem wal_torn_tail path rs r (n : nat) s :
  Forall wal_record_ok rs → wal_record_ok r → (n < length (encode r))%nat →
  lg_files s !! path = Some (encode_all rs ++ take n (encode r)) →
  read_all path s = rs.
Proof.
  intros H1 H2 Hn E. unfold read_all, read_all_locked. rewrite E. exact (decode_all_torn rs r n H1 H2 Hn).
Qed.

Lemma wal_torn_tail_witness :
  let r := mkWalRecord Update 7 (str "t") (str "k") (str "v") in
  read_all (str "w")
    (mkLog {[str "w" := encode r ++ take 20 (encode r)]} (mkLogSlot None (mkLogContents [] false ∅))) = [r].
Proof.
  intros r. apply (wal_torn_tail (str "w") [r] r 20); [| | |by vm_compute].
  - apply (bool_decide_eq_true_1 _). by vm_compute.
  - apply (bool_decide_eq_true_1 _). by vm_compute.
  - apply (bool_decide_eq_true_1 _). by vm_compute.
Defined.

(** C3: the checksum detects every single-byte corruption that leaves the record's extent: the bytes
    of a record with one byte changed, whatever follows them in the file, never decode to a record
    that ends where the original did. *)
Theorem wal_corruption_detected r (i : nat) b b' x tail :
  wal_record_ok r → wal_record_bytes r → encode r !! i = Some b → is_byte b' → b' ≠ b →
  decode (<[i:=b']> (encode r) ++ tail) 0%nat ≠ Some (x, length (encode r)).
Proof.
  intros Hok Hb Hi Hb' Hne H. apply decode_checksum in H as (q & Hq & Hl & Hsum).
  eapply (single_byte_extent r i b b' tail q); try done; lia.
Qed.

Lemma wal_corruption_detected_witness :
  let r := mkWalRecord Insert 1 (str "t") (str "1") (str "{}") in
  decode (<[13%nat:=0]> (encode r) ++ [1; 2]) 0%nat ≠ Some (r, length (encode r)).
Proof.
  intros r. refine (wal_corruption_detected r 13 116 0 r [1; 2] _ _ _ _ _).
  - apply (bool_decide_eq_true_1 _). by vm_compute.
  - split_and!; apply (bool_decide_eq_true_1 _); by vm_compute.
  - by vm_compute.
  - by vm_compute.
  - by vm_compute.
Defined.

(** A write that fails is reported, loses nothing of what was written before, and turns the
    tracking off, so that the next [remove_txn] reads the file instead of trusting it. *)
Theorem wal_failed_write path rs r sync (k : nat) fault s :
  log_inv path rs s → wal_record_ok r → (k < length (encode r))%nat →
  fault = WriteFault k ∨ fault = FlushFault k →
  let '(s', res) := wal_write path r sync fault s in
  (∃ m, res = Err m) ∧ read_all path s' = rs ∧ lc_known (sl_contents (lg_slot s')) = false.
Proof. exact (write_encoded_failed path wal_messages rs r sync k fault s). Qed.

Lemma wal_failed_write_witness :
  let r := mkWalRecord Insert 1 (str "t") (str "1") (str "{}") in
  let s := log_start in
  let '(s', res) := wal_write (str "w") r true (WriteFault 10) s in
  (∃ m, res = Err m) ∧ read_all (str "w") s' = [] ∧ lc_known (sl_contents (lg_slot s')) = false.
Proof.
  intros r s. refine (wal_failed_write (str "w") [] r true 10 (WriteFault 10) s _ _ _ _).
  - by apply log_start_inv.
  - apply (bool_decide_eq_true_1 _). by vm_compute.
  - apply (bool_decide_eq_true_1 _). by vm_compute.
  - by left.
Defined.
