(* ===== verification/Undo.v ===== *)
(** * The undo log file (UndoLogFile of src/transaction/txn_manager.cpp)

    The undo entries of open transactions on disk: the entry format, and [rewrite_txn], which
    ROLLBACK TO SAVEPOINT uses. Appending, reading, clearing and pruning are the routines of
    LogFile.v, which the write-ahead log shares. *)
From S2P Require Import Prelude Codec Files LogFile.

(** ** Entries *)

(** UndoEntry; [new_key] is not written to the file. *)
Record UndoEntry := mkUndo {
  u_txn_id : Z;
  u_operation : list Z;
  u_table : list Z;
  u_key : list Z;
  u_old_data : option (list Z);
  u_new_key : option (list Z)
}.

#[export] Instance UndoEntry_eq_dec : EqDecision UndoEntry.
Proof. solve_decision. Defined.

Definition undo_op_to_u8 (operation : list Z) : Z :=
  if decide (operation = str "INSERT") then 0x01
  else if decide (operation = str "UPDATE") then 0x02
  else if decide (operation = str "DELETE") then 0x03 else 0x00.

Definition undo_op_from_u8 (b : Z) : option (list Z) :=
  match b with
  | 0x01 => Some (str "INSERT")
  | 0x02 => Some (str "UPDATE")
  | 0x03 => Some (str "DELETE")
  | _ => None
  end.

Definition push_old_data (old_data : option (list Z)) : list Z :=
  match old_data with
  | Some d => [1] ++ push_string d
  | None => [0]
  end.

(** The entry without its checksum. *)
Definition undo_body (entry : UndoEntry) : list Z :=
  [undo_op_to_u8 (u_operation entry)] ++ push_u64_le (u_txn_id entry) ++
  push_string (u_table entry) ++ push_string (u_key entry) ++ push_old_data (u_old_data entry).

(** UndoLogFile::encode *)
Definition undo_encode (entry : UndoEntry) : list Z :=
  let buf := undo_body entry in buf ++ push_u32_le (fnv1a32 buf).

Definition read_old_data : reader (option (list Z)) :=
  has_data <-- read_u8;
  if decide (has_data = 1) then (d <-- read_string; r_ret (Some d)) else r_ret None.

Definition undo_decode_body : reader UndoEntry :=
  op_byte <-- read_u8;
  match undo_op_from_u8 op_byte with
  | None => r_fail
  | Some operation =>
      txn_id <-- advance 8 read_u64_le;
      table <-- read_string;
      key <-- read_string;
      old_data <-- read_old_data;
      r_ret (mkUndo txn_id operation table key old_data None)
  end.

(** UndoLogFile::decode *)
Definition undo_decode : reader UndoEntry :=
  entry_span <-- with_span undo_decode_body;
  stored_checksum <-- advance 4 read_u32_le;
  if decide (fnv1a32 entry_span.2 = stored_checksum) then r_ret entry_span.1 else r_fail.

(** What of an entry is in the file. *)
Definition persisted (e : UndoEntry) : UndoEntry :=
  mkUndo (u_txn_id e) (u_operation e) (u_table e) (u_key e) (u_old_data e) None.

Definition undo_ok (e : UndoEntry) : Prop :=
  in_u64 (u_txn_id e) ∧
  u_operation e ∈ [str "INSERT"; str "UPDATE"; str "DELETE"] ∧
  in_u32 (Z.of_nat (length (u_table e))) ∧ in_u32 (Z.of_nat (length (u_key e))) ∧
  in_u32 (Z.of_nat (length (default [] (u_old_data e)))).

#[export] Instance undo_ok_dec e : Decision (undo_ok e).
Proof. unfold undo_ok. apply _. Defined.

Lemma undo_encode_persisted e : undo_encode (persisted e) = undo_encode e.
Proof. done. Qed.

#[export] Instance read_old_data_laws : ReaderLaws read_old_data.
Proof.
  unfold read_old_data. apply r_bind_laws; [apply _|]. intros b. case_decide; apply _.
Qed.

#[export] Instance undo_decode_body_laws : ReaderLaws undo_decode_body.
Proof.
  unfold undo_decode_body. apply r_bind_laws; [apply _|]. intros b.
  destruct (undo_op_from_u8 b); apply _.
Qed.

#[export] Instance undo_decode_laws : ReaderLaws undo_decode.
Proof.
  unfold undo_decode. apply r_bind_laws; [apply _|]. intros [r span].
  apply r_bind_laws; [apply _|]. intros stored. simpl. case_decide; apply _.
Qed.

Lemma read_old_data_back d :
  in_u32 (Z.of_nat (length (default [] d))) → reads_back read_old_data (push_old_data d) d.
Proof.
  intros H. unfold read_old_data, push_old_data. destruct d as [d|].
  - eapply reads_back_bind with (x := 1); [intros; case_decide; apply _|apply read_u8_back|].
    rewrite decide_True by done. rewrite <- (app_nil_r (push_string d)).
    eapply reads_back_bind; [apply _|by apply read_string_back|apply reads_back_ret].
  - change [0] with ([0] ++ []).
    eapply reads_back_bind with (x := 0); [intros; case_decide; apply _|apply read_u8_back|apply reads_back_ret].
Qed.

Lemma undo_decode_body_back e : undo_ok e → reads_back undo_decode_body (undo_body e) (persisted e).
Proof.
  intros (H1 & Hop & H3 & H4 & H5). destruct e as [t o tb k d nk]. cbn [u_txn_id u_operation u_table u_key u_old_data] in *.
  unfold undo_body, undo_decode_body.
  cbn [u_txn_id u_operation u_table u_key u_old_data].
  eapply reads_back_bind with (x := undo_op_to_u8 o); [|apply read_u8_back|].
  { intros b. destruct (undo_op_from_u8 b); apply _. }
  assert (undo_op_from_u8 (undo_op_to_u8 o) = Some o) as ->.
  { repeat (apply elem_of_cons in Hop as [->|Hop]; [done|]). by apply elem_of_nil in Hop. }
  eapply reads_back_bind; [apply _|by apply read_u64_back|].
  eapply reads_back_bind; [apply _|by apply read_string_back|].
  eapply reads_back_bind; [apply _|by apply read_string_back|].
  rewrite <- (app_nil_r (push_old_data d)).
  eapply reads_back_bind; [apply _|by apply read_old_data_back|]. apply reads_back_ret.
Qed.

Lemma undo_decode_back e : undo_ok e → reads_back undo_decode (undo_encode e) (persisted e).
Proof.
  intros Hr. unfold undo_encode, undo_decode.
  eapply reads_back_bind; [|by apply reads_back_with_span, undo_decode_body_back|].
  { intros [??]. apply r_bind_laws; [apply _|]. intros. simpl. case_decide; apply _. }
  simpl. rewrite <- (app_nil_r (push_u32_le _)).
  eapply reads_back_bind; [|by apply read_u32_back, fnv1a32_range|].
  { intros. case_decide; apply _. }
  rewrite decide_True by done. apply reads_back_ret.
Qed.

(** An entry as the file holds it. *)
Definition undo_rec_ok (e : UndoEntry) : Prop := undo_ok e ∧ persisted e = e.

Lemma undo_decode_rec e : undo_rec_ok e → reads_back undo_decode (undo_encode e) e.
Proof. intros [H E]. rewrite <- E at 2. by apply undo_decode_back. Qed.

Lemma persisted_ok e : undo_ok e → undo_rec_ok (persisted e).
Proof. done. Qed.

#[export, refine] Instance undo_record_codec : RecordCodec UndoEntry := {
  enc := undo_encode;
  dec := undo_decode;
  rec_ok := undo_rec_ok;
  dec_enc := undo_decode_rec
}.
Proof. all: done. Defined.

#[export] Instance undo_codec : LogCodec UndoEntry := { txn_of := u_txn_id }.

(** ** UndoLogFile *)

Definition undo_path (dir : list Z) : list Z := dir ++ str "/_undo.log".

(** append_locked (a write here is never synced). *)
Definition undo_append (path : list Z) (entry : UndoEntry) (fault : io_fault)
  : log_state → log_state * result unit :=
  write_encoded_locked path (str "Undo log 파일 열기 실패", str "Undo log 기록 실패", []) (undo_encode entry)
    false (u_txn_id entry) fault.

Definition undo_read_all (path : list Z) (s : log_state) : list UndoEntry := read_all_locked path s.

Definition undo_remove_txn (path : list Z) (txn_id : Z) (env : log_env)
  : log_state → log_state * result unit := remove_txn (R := UndoEntry) path txn_id env.

Definition rewrite_txn (path : list Z) (txn_id : Z) (entries : list UndoEntry) (removed : bool)
    (fault : io_fault) (s : log_state) : log_state * result unit :=
  let all_existing := read_all_locked path s in
  let all := filter (λ e, u_txn_id e ≠ txn_id) all_existing ++ entries in
  match all with
  | [] => (clear_locked path removed s, Ok tt)
  | _ =>
      let s := close_handle_locked s in
      let '(fs, r) := write_bytes_atomic path (encode_all all) fault (lg_files s) in
      let s := with_files fs s in
      match r with
      | Err m => (s, Err m)
      | Ok _ => (set_txns (txn_ids_of all) (set_known true (tracked_contents path s)), Ok tt)
      end
  end.

(** ** Facts *)

Lemma undo_append_inv path rs e fault s :
  log_inv path rs s → undo_ok e → fault = NoFault ∨ fault = SyncFault →
  ∃ s', undo_append path e fault s = (s', Ok tt) ∧ log_inv path (rs ++ [persisted e]) s'.
Proof.
  intros Hinv Hok Hf.
  pose proof (write_encoded_inv path (str "Undo log 파일 열기 실패", str "Undo log 기록 실패", [])
    rs (persisted e) false fault s Hinv (persisted_ok e Hok)) as H.
  change (undo_append path e fault s) with (write_encoded_locked path
    (str "Undo log 파일 열기 실패", str "Undo log 기록 실패", []) (enc (persisted e)) false
    (txn_of (persisted e)) fault s).
  destruct (write_encoded_locked _ _ _ _ _ _ _) as [s' res] eqn:E.
  destruct H as [H1 H2]; [by destruct Hf; subst|]. exists s'. split; [|done]. f_equal.
  destruct Hf as [->| ->]; [by apply H2|].
  revert E. unfold write_encoded_locked. destruct (append_handle_locked _ _ _) as [s1 o] eqn:Eo.
  destruct (tracked_inv _ _ _ Hinv) as (Hinv1 & _).
  destruct (append_handle_inv _ _ _ _ _ _ Hinv1 Eo) as (_ & _ & _ & Ho).
  rewrite Ho by done. simpl. by intros [= _ <-].
Qed.

Lemma encode_all_persisted es : encode_all (persisted <$> es) = encode_all es.
Proof.
  induction es as [|e es IH]; [done|].
  rewrite fmap_cons, !encode_all_cons, IH. done.
Qed.

Lemma txn_ids_of_persisted es : txn_ids_of (persisted <$> es) = txn_ids_of es.
Proof. unfold txn_ids_of. rewrite <- list_fmap_compose. by f_equal. Qed.

(** [rewrite_txn] replaces the transaction's entries, leaving the others' in place. *)
Lemma rewrite_txn_inv path txn rs entries s :
  log_inv path rs s → Forall undo_ok entries →
  ∃ s', rewrite_txn path txn entries true NoFault s = (s', Ok tt) ∧
        log_inv path (filter (λ e, u_txn_id e ≠ txn) rs ++ (persisted <$> entries)) s'.
Proof.
  intros Hinv Hok. unfold rewrite_txn. rewrite (log_inv_read _ _ _ Hinv).
  set (others := filter (λ e, u_txn_id e ≠ txn) rs).
  assert (Hall : Forall rec_ok (others ++ (persisted <$> entries))).
  { destruct Hinv as (Hrs & _). apply Forall_app. split; [by apply Forall_filter_sub|].
    apply Forall_fmap. eapply Forall_impl; [exact Hok|]. intros e He. by apply persisted_ok. }
  assert (Eb : encode_all (others ++ (persisted <$> entries)) = encode_all (others ++ entries))
    by (by rewrite !encode_all_app, encode_all_persisted).
  assert (Et : txn_ids_of (others ++ (persisted <$> entries)) = txn_ids_of (others ++ entries)).
  { unfold txn_ids_of. rewrite !fmap_app, !list_to_set_app_L. f_equal. apply txn_ids_of_persisted. }
  remember (others ++ entries) as all eqn:E. destruct all as [|e es].
  - symmetry in E. apply app_eq_nil in E as [E1 E2]. rewrite E1, E2. eexists. split; [done|]. apply clear_locked_inv.
  - simpl. eexists. split; [done|]. split; [done|]. split.
    + unfold tracked_contents. simpl. case_decide; simpl; rewrite Eb; by simplify_map_eq.
    + intros c _ _. subst c. rewrite Et. done.
Qed.

Lemma rewrite_txn_frame path txn entries removed fault : frames path (rewrite_txn path txn entries removed fault).
Proof.
  intros s p Hp Ht. unfold rewrite_txn. destruct (filter _ _ ++ entries); [by apply clear_locked_frame|].
  destruct (write_bytes_atomic _ _ _ _) as [fs r'] eqn:Ew.
  assert (Hw : fs !! p = lg_files s !! p).
  { change fs with (fs, r').1. by rewrite <- Ew, write_atomic_frame. }
  destruct r'; simpl; [by rewrite tracked_files|done].
Qed.
