(* ===== verification/RowJson.v ===== *)
(** * Rows and their JSON text (engine/row.hpp, src/.../row_json.cpp)

    Every stored image of a row is the text [row_to_json] writes: a flat object of strings, its keys in
    the order of std::string, without white space. [row_from_json] reads that form directly and hands
    everything else to nlohmann::json.

    A position [i] of the code in a text is the suffix of the text that starts there; [kNpos] is
    [None]. nlohmann's serializer and parser are third-party code: [nl_dump] and [nl_parse] are
    parameters, and the theorems show that a row of valid UTF-8 texts never reaches them. *)
From S2P Require Import Prelude.

(** [std::unordered_map<std::string, std::string>]. *)
Abbreviation Row := (gmap (list Z) (list Z)).

(** ** UTF-8 *)

Definition byte_in (s : list Z) (k : nat) (lo hi : Z) : bool :=
  match s !! k with Some b => (lo <=? b) && (b <=? hi) | None => false end.
Definition cont (s : list Z) (k : nat) : bool := byte_in s k 0x80 0xBF.

(** The suffix starts with the lead byte. *)
Definition utf8_sequence_length (s : list Z) : nat :=
  match s with
  | [] => 0%nat
  | b :: _ =>
      if (0xC2 <=? b) && (b <=? 0xDF) then (if cont s 1 then 2 else 0)%nat
      else if b =? 0xE0 then (if byte_in s 1 0xA0 0xBF && cont s 2 then 3 else 0)%nat
      else if b =? 0xED then (if byte_in s 1 0x80 0x9F && cont s 2 then 3 else 0)%nat
      else if ((0xE1 <=? b) && (b <=? 0xEC)) || (b =? 0xEE) || (b =? 0xEF)
      then (if cont s 1 && cont s 2 then 3 else 0)%nat
      else if b =? 0xF0 then (if byte_in s 1 0x90 0xBF && cont s 2 && cont s 3 then 4 else 0)%nat
      else if (0xF1 <=? b) && (b <=? 0xF3) then (if cont s 1 && cont s 2 && cont s 3 then 4 else 0)%nat
      else if b =? 0xF4 then (if byte_in s 1 0x80 0x8F && cont s 2 && cont s 3 then 4 else 0)%nat
      else 0%nat
  end.

(** ** Writing *)

Definition hex_digit (d : Z) : Z := nth (Z.to_nat d) (str "0123456789abcdef") 0.

(** The escape of a character that is not copied verbatim. *)
Definition escape_char (c : Z) : list Z :=
  if c =? 34 then [92; 34]
  else if c =? 92 then [92; 92]
  else if c =? 8 then [92; 98]
  else if c =? 12 then [92; 102]
  else if c =? 10 then [92; 110]
  else if c =? 13 then [92; 114]
  else if c =? 9 then [92; 116]
  else str "\u00" ++ [hex_digit (Z.shiftr c 4); hex_digit (Z.land c 15)].

(** The loop over the characters; [None] at invalid UTF-8. *)
Fixpoint escape_loop (fuel : nat) (s out : list Z) : option (list Z) :=
  match fuel, s with
  | _, [] => Some out
  | O, _ => None
  | S fuel, c :: rest =>
      if (32 <=? c) && negb (c =? 34) && negb (c =? 92) && (c <? 128) then escape_loop fuel rest (out ++ [c])
      else if 128 <=? c then
        let len := utf8_sequence_length s in
        if decide (len = 0%nat) then None
        else escape_loop fuel (drop len s) (out ++ take len s)
      else escape_loop fuel rest (out ++ escape_char c)
  end.

Section nlohmann.
Context (nl_dump : list Z → result (list Z)).
Context (nl_parse : list Z → result Row).
Context (nl_parse_rows : list Z → result (list Row)).

Definition append_json_string (out s : list Z) : result (list Z) :=
  match escape_loop (length s) s (out ++ [c_quote]) with
  | Some out => Ok (out ++ [c_quote])
  | None => match nl_dump s with Ok t => Ok (out ++ t) | Err m => Err m end
  end.

(** The entries, sorted by key. *)
Definition entry_le (a b : list Z * list Z) : Prop := bytes_leb a.1 b.1 = true.
#[export] Instance entry_le_dec a b : Decision (entry_le a b).
Proof. unfold entry_le. apply _. Defined.
Definition sorted_entries (row : Row) : list (list Z * list Z) := merge_sort entry_le (map_to_list row).

Fixpoint append_entries (first : bool) (out : list Z) (entries : list (list Z * list Z)) : result (list Z) :=
  match entries with
  | [] => Ok out
  | (k, v) :: entries =>
      let out := if first then out else out ++ [44] in
      match append_json_string out k with
      | Err m => Err m
      | Ok out =>
          match append_json_string (out ++ [58]) v with
          | Err m => Err m
          | Ok out => append_entries false out entries
          end
      end
  end.

Definition append_row_json (out : list Z) (row : Row) : result (list Z) :=
  match append_entries true (out ++ [123]) (sorted_entries row) with
  | Ok out => Ok (out ++ [125])
  | Err m => Err m
  end.

Definition row_to_json (row : Row) : result (list Z) := append_row_json [] row.

Fixpoint append_rows (first : bool) (out : list Z) (rows : list Row) : result (list Z) :=
  match rows with
  | [] => Ok out
  | row :: rows =>
      match append_row_json (if first then out else out ++ [44]) row with
      | Ok out => append_rows false out rows
      | Err m => Err m
      end
  end.

Definition rows_to_json (rows : list Row) : result (list Z) :=
  match append_rows true [91] rows with
  | Ok out => Ok (out ++ [93])
  | Err m => Err m
  end.

(** ** Reading *)

Fixpoint skip_ws (s : list Z) : list Z :=
  match s with
  | c :: rest => if (c =? 32) || (c =? 9) || (c =? 10) || (c =? 13) then skip_ws rest else s
  | [] => []
  end.

(** -1 for a character that is not a hexadecimal digit. *)
Definition hex_value (c : Z) : Z :=
  if (48 <=? c) && (c <=? 57) then c - 48
  else if (97 <=? c) && (c <=? 102) then c - 97 + 10
  else if (65 <=? c) && (c <=? 70) then c - 65 + 10
  else -1.

Definition read_hex4 (s : list Z) : option Z :=
  match s with
  | a :: b :: c :: d :: _ =>
      if (hex_value a <? 0) || (hex_value b <? 0) || (hex_value c <? 0) || (hex_value d <? 0) then None
      else Some (((hex_value a * 16 + hex_value b) * 16 + hex_value c) * 16 + hex_value d)
  | _ => None
  end.

Definition append_utf8 (out : list Z) (cp : Z) : list Z :=
  if cp <? 0x80 then out ++ [cp]
  else if cp <? 0x800 then out ++ [Z.lor 0xC0 (Z.shiftr cp 6); Z.lor 0x80 (Z.land cp 0x3F)]
  else if cp <? 0x10000 then
    out ++ [Z.lor 0xE0 (Z.shiftr cp 12); Z.lor 0x80 (Z.land (Z.shiftr cp 6) 0x3F); Z.lor 0x80 (Z.land cp 0x3F)]
  else
    out ++ [Z.lor 0xF0 (Z.shiftr cp 18); Z.lor 0x80 (Z.land (Z.shiftr cp 12) 0x3F);
            Z.lor 0x80 (Z.land (Z.shiftr cp 6) 0x3F); Z.lor 0x80 (Z.land cp 0x3F)].

(** [s[i] == c], and the text after it. *)
Definition expect (c : Z) (s : list Z) : option (list Z) :=
  match s with
  | x :: s => if x =? c then Some s else None
  | [] => None
  end.

(** The escape after a backslash: the text it stands for, and where it ends. *)
Definition read_escape (s out : list Z) : option (list Z * list Z) :=
  match s with
  | [] => None
  | e :: s =>
      if (e =? 34) || (e =? 92) || (e =? 47) then Some (out ++ [e], s)
      else if e =? 98 then Some (out ++ [8], s)
      else if e =? 102 then Some (out ++ [12], s)
      else if e =? 110 then Some (out ++ [10], s)
      else if e =? 114 then Some (out ++ [13], s)
      else if e =? 116 then Some (out ++ [9], s)
      else if e =? 117 then
        match read_hex4 s with
        | None => None
        | Some cp =>
            let s := drop 4 s in
            if (0xD800 <=? cp) && (cp <=? 0xDBFF) then
              match expect 92 s ≫= expect 117 with
              | Some s =>
                  match read_hex4 s with
                  | Some lo =>
                      if (0xDC00 <=? lo) && (lo <=? 0xDFFF)
                      then Some (append_utf8 out (0x10000 + Z.shiftl (cp - 0xD800) 10 + (lo - 0xDC00)), drop 4 s)
                      else None
                  | None => None
                  end
              | None => None
              end
            else if (0xDC00 <=? cp) && (cp <=? 0xDFFF) then None
            else Some (append_utf8 out cp, s)
        end
      else None
  end.

(** read_json_string from after the opening quote: the value, and the text after the closing quote. *)
Fixpoint read_json_string (fuel : nat) (s out : list Z) : option (list Z * list Z) :=
  match fuel, s with
  | S fuel, c :: rest =>
      if c =? 34 then Some (out, rest)
      else if c =? 92 then
        match read_escape rest out with
        | Some (out, s) => read_json_string fuel s out
        | None => None
        end
      else if c <? 32 then None
      else if 128 <=? c then
        let len := utf8_sequence_length s in
        if decide (len = 0%nat) then None
        else read_json_string fuel (drop len s) (out ++ take len s)
      else read_json_string fuel rest (out ++ [c])
  | _, _ => None
  end.

(** [row.emplace(key, value)]: a key that is there keeps its value. *)
Definition emplace (row : Row) (key value : list Z) : Row :=
  match row !! key with Some _ => row | None => <[key := value]> row end.

(** One quoted text, and the text after it. *)
Definition read_quoted (s : list Z) : option (list Z * list Z) :=
  match expect 34 s with
  | Some s => read_json_string (length s) s []
  | None => None
  end.

(** One key, its colon and its value, and the text after the white space that follows. *)
Definition read_pair (s : list Z) : option (list Z * list Z * list Z) :=
  match read_quoted s with
  | None => None
  | Some (key, s) =>
      match expect 58 (skip_ws s) with
      | None => None
      | Some s =>
          match read_quoted (skip_ws s) with
          | None => None
          | Some (value, s) => Some (key, value, skip_ws s)
          end
      end
  end.

Fixpoint read_pairs (fuel : nat) (s : list Z) (prev_key : option (list Z)) (row : Row)
  : option (Row * list Z) :=
  match fuel with
  | O => None
  | S fuel =>
      match read_pair s with
      | None => None
      | Some (key, value, s) =>
          if match prev_key with Some p => negb (bytes_ltb p key) | None => false end then None
          else
            let row := emplace row key value in
            match s with
            | [] => None
            | c :: s =>
                if c =? 125 then Some (row, s)
                else if c =? 44 then read_pairs fuel (skip_ws s) (Some key) row
                else None
            end
      end
  end.

(** read_flat_object from after the opening brace, into an empty row. *)
Definition read_flat_object (s : list Z) : option (Row * list Z) :=
  let s := skip_ws s in
  match expect 125 s with
  | Some s => Some (∅, s)
  | None => read_pairs (length s) s None ∅
  end.

Definition row_from_json (text : list Z) : result Row :=
  match expect 123 (skip_ws text) with
  | None => nl_parse text
  | Some s =>
      match read_flat_object s with
      | Some (row, s) => if decide (skip_ws s = []) then Ok row else nl_parse text
      | None => nl_parse text
      end
  end.

Fixpoint read_objects (fuel : nat) (s : list Z) (rows : list Row) : option (list Row * list Z) :=
  match fuel, expect 123 s with
  | S fuel, Some s =>
      match read_flat_object s with
      | None => None
      | Some (row, s) =>
          let rows := rows ++ [row] in
          match skip_ws s with
          | [] => None
          | c :: s =>
              if c =? 93 then Some (rows, s)
              else if c =? 44 then read_objects fuel (skip_ws s) rows
              else None
          end
      end
  | _, _ => None
  end.

Definition rows_from_json (text : list Z) : result (list Row) :=
  match expect 91 (skip_ws text) with
  | None => nl_parse_rows text
  | Some s =>
      let s := skip_ws s in
      match (match expect 93 s with
             | Some s => Some ([], s)
             | None => read_objects (length s) s []
             end) with
      | Some (rows, s) => if decide (skip_ws s = []) then Ok rows else nl_parse_rows text
      | None => nl_parse_rows text
      end
  end.
End nlohmann.

(** A text the writer copies or escapes itself: valid UTF-8, as nlohmann's serializer accepts it. *)
Fixpoint utf8_scan (fuel : nat) (s : list Z) : bool :=
  match fuel, s with
  | _, [] => true
  | O, _ => false
  | S fuel, c :: rest =>
      if (0 <=? c) && (c <? 128) then utf8_scan fuel rest
      else
        let len := utf8_sequence_length s in
        if decide (len = 0%nat) then false else utf8_scan fuel (drop len s)
  end.
Definition utf8_valid (s : list Z) : bool := utf8_scan (length s) s.

Definition row_valid (row : Row) : Prop :=
  map_Forall (λ k v, utf8_valid k = true ∧ utf8_valid v = true) row.

(** ** Round trip *)

Lemma utf8_sequence_length_le s : (utf8_sequence_length s ≤ length s)%nat.
Proof.
  assert (B : ∀ k lo hi, byte_in s k lo hi = true → (k < length s)%nat).
  { unfold byte_in. intros k lo hi. destruct (s !! k) eqn:E; [|done]. intros _. by eapply lookup_lt_Some. }
  unfold utf8_sequence_length. destruct s as [|b s]; [done|].
  repeat case_match; simpl; try lia; repeat match goal with
    | H : _ && _ = true |- _ => apply andb_true_iff in H as [? ?]
    | H : cont _ _ = true |- _ => apply B in H
    | H : byte_in _ _ _ _ = true |- _ => apply B in H
    end; simpl in *; lia.
Qed.

Lemma byte_in_app s t k lo hi : (k < length s)%nat → byte_in (s ++ t) k lo hi = byte_in s k lo hi.
Proof. intros H. unfold byte_in. by rewrite lookup_app_l. Qed.

Lemma byte_in_lt s k lo hi : byte_in s k lo hi = true → (k < length s)%nat.
Proof. unfold byte_in. destruct (s !! k) eqn:E; [|done]. intros _. by eapply lookup_lt_Some. Qed.

Lemma byte_in_mono s t k lo hi : byte_in s k lo hi = true → byte_in (s ++ t) k lo hi = true.
Proof. intros H. by rewrite byte_in_app by by eapply byte_in_lt. Qed.

(** A sequence that is valid stays valid whatever follows it. *)
Lemma utf8_sequence_length_app s t :
  utf8_sequence_length s ≠ 0%nat → utf8_sequence_length (s ++ t) = utf8_sequence_length s.
Proof.
  unfold utf8_sequence_length, cont. destruct s as [|b s]; [done|]. cbn [app].
  assert (M : ∀ k lo hi, byte_in (b :: s) k lo hi = true → byte_in (b :: s ++ t) k lo hi = true)
    by (intros *; apply (byte_in_mono (b :: s) t)).
  repeat match goal with
    | |- context [if ?c then (if ?d then _ else _) else _] => destruct c
    end;
    try done; match goal with |- (if ?c then _ else _) ≠ _ → _ => destruct c eqn:E end; try done; intros _;
    repeat match goal with H : _ && _ = true |- _ => apply andb_true_iff in H as [? ?] end;
    by repeat match goal with H : byte_in (b :: s) _ _ _ = true |- _ => rewrite (M _ _ _ H); clear H end.
Qed.

Lemma utf8_sequence_length_take s n :
  utf8_sequence_length s = n → n ≠ 0%nat → utf8_sequence_length (take n s) = n.
Proof.
  unfold utf8_sequence_length at 1, cont. destruct s as [|b s]; [intros; by subst|].
  intros Hn Hne. destruct n as [|n]; [done|]. cbn [take]. unfold utf8_sequence_length, cont.
  assert (M : ∀ k lo hi, byte_in (b :: s) k lo hi = true → (k ≤ n)%nat → byte_in (b :: take n s) k lo hi = true).
  { intros k lo hi H Hk. revert H. unfold byte_in. change (b :: take n s) with (take (S n) (b :: s)).
    rewrite lookup_take. by rewrite decide_True by lia. }
  revert Hn.
  repeat match goal with
    | |- context [if ?c then (if ?d then _ else _) else _] => destruct c
    end;
    try done; match goal with |- (if ?c then _ else _) = _ → _ => destruct c eqn:E | _ => idtac end;
    intros [= <-];
    repeat match goal with H : _ && _ = true |- _ => apply andb_true_iff in H as [? ?] end;
    by repeat match goal with H : byte_in (b :: s) _ _ _ = true |- _ => rewrite (M _ _ _ H) by lia; clear H end.
Qed.

Lemma read_escape_back c out rest :
  0 ≤ c < 32 ∨ c = 34 ∨ c = 92 →
  ∃ e, escape_char c = 92 :: e ∧ read_escape (e ++ rest) out = Some (out ++ [c], rest).
Proof.
  intros H.
  assert (Hin : c ∈ seqZ 0 32 ++ [34; 92]).
  { apply elem_of_app. rewrite elem_of_seqZ. set_unfold. lia. }
  clear H. revert c Hin. apply Forall_forall.
  repeat (apply Forall_cons; split; [eexists; split; [reflexivity|]; simpl; by rewrite ?drop_0|]).
  by apply Forall_nil.
Qed.

Lemma escape_read (n : nat) s :
  utf8_scan n s = true →
  ∃ t, (∀ out, escape_loop n s out = Some (out ++ t)) ∧
       (∀ m acc rest, (length t < m)%nat → read_json_string m (t ++ 34 :: rest) acc = Some (acc ++ s, rest)).
Proof.
  revert s. induction n as [|n IH]; intros [|c s] H; try done.
  1,2: exists []; split; [intros; simpl; by rewrite app_nil_r|];
       intros [|m] acc rest Hm; simpl in *; [lia|]; by rewrite app_nil_r.
  cbn [utf8_scan] in H. destruct ((0 <=? c) && (c <? 128)) eqn:Ec.
  - destruct (IH s H) as (t & He & Hr). bool_cases.
    destruct ((32 <=? c) && negb (c =? 34) && negb (c =? 92)) eqn:Ep.
    + exists (c :: t). split.
      * intros out. cbn [escape_loop]. rewrite Ep, (proj2 (Z.ltb_lt c 128)) by lia. simpl.
        by rewrite He, <- app_assoc.
      * intros [|m] acc rest Hm; simpl in Hm; [lia|]. cbn [app read_json_string]. bool_cases.
        rewrite (proj2 (Z.eqb_neq c 34)), (proj2 (Z.eqb_neq c 92)), (proj2 (Z.ltb_ge c 32)),
          (proj2 (Z.leb_gt 128 c)) by lia.
        rewrite Hr by lia. by rewrite <- app_assoc.
    + assert (Hc : 0 ≤ c < 32 ∨ c = 34 ∨ c = 92).
      { rewrite !andb_false_iff, !negb_false_iff, Z.leb_gt, !Z.eqb_eq in Ep. lia. }
      exists (escape_char c ++ t). split.
      * intros out. cbn [escape_loop]. rewrite Ep. simpl. rewrite (proj2 (Z.leb_gt 128 c)) by lia.
        by rewrite He, <- app_assoc.
      * intros [|m] acc rest Hm; [lia|].
        destruct (read_escape_back c acc (t ++ 34 :: rest) Hc) as (e & Ee & Hre).
        rewrite Ee in Hm |- *. rewrite <- app_assoc. cbn [app]. cbn [read_json_string].
        change (92 =? 34) with false. change (92 =? 92) with true. cbv iota.
        rewrite Hre. rewrite length_app in Hm. simpl in Hm. rewrite Hr by lia. by rewrite <- app_assoc.
  - set (len := utf8_sequence_length (c :: s)) in *. case_decide as Hlen; [done|].
    destruct (IH (drop len (c :: s)) H) as (t & He & Hr).
    pose proof (utf8_sequence_length_take (c :: s) len eq_refl Hlen) as Htake.
    pose proof (utf8_sequence_length_le (c :: s)) as Hle. fold len in Hle.
    assert (Hc : 128 ≤ c).
    { destruct (Z.lt_ge_cases c 128) as [Hlt|]; [|done]. exfalso. apply Hlen.
      assert (c < 0) by (apply andb_false_iff in Ec as [Ec|Ec]; bool_cases; lia).
      subst len. unfold utf8_sequence_length.
      repeat match goal with |- context [?x <=? c] => rewrite (proj2 (Z.leb_gt x c)) by lia end.
      repeat match goal with |- context [c =? ?x] => rewrite (proj2 (Z.eqb_neq c x)) by lia end. done. }
    exists (take len (c :: s) ++ t). split.
    + intros out. cbn [escape_loop]. rewrite (proj2 (Z.ltb_ge c 128)) by lia. rewrite andb_false_r.
      rewrite (proj2 (Z.leb_le 128 c)) by lia. fold len. rewrite decide_False by done.
      by rewrite He, <- app_assoc.
    + intros [|m] acc rest Hm; [lia|]. rewrite <- app_assoc.
      assert (Hlt : (length t < m)%nat).
      { rewrite length_app, length_take in Hm. lia. }
      assert (Hlen' : utf8_sequence_length (take len (c :: s) ++ t ++ 34 :: rest) = len)
        by (rewrite utf8_sequence_length_app; [done|by rewrite Htake]).
      destruct len as [|len']; [done|]. cbn [take app] in Hlen' |- *.
      cbn [read_json_string].
      rewrite (proj2 (Z.eqb_neq c 34)), (proj2 (Z.eqb_neq c 92)), (proj2 (Z.ltb_ge c 32)),
        (proj2 (Z.leb_le 128 c)) by lia.
      rewrite Hlen'. rewrite decide_False by done. cbn [take drop].
      simpl in Hle. rewrite drop_app_length', take_app_length' by (rewrite length_take; lia).
      rewrite Hr by done. rewrite <- app_assoc. cbn [app]. cbn [drop]. by rewrite take_drop.
Qed.

Section roundtrip.
Context (nl_dump : list Z → result (list Z)).
Context (nl_parse : list Z → result Row).
Context (nl_parse_rows : list Z → result (list Row)).

(** A valid text is written the same way at the end of any text, and read back from any. *)
Lemma quoted_back s :
  utf8_valid s = true →
  ∃ t, (∀ out, append_json_string nl_dump out s = Ok (out ++ 34 :: t)) ∧
       (∀ rest, read_quoted (34 :: t ++ rest) = Some (s, rest)).
Proof.
  intros H. destruct (escape_read _ _ H) as (t & He & Hr). exists (t ++ [34]). split.
  - intros out. unfold append_json_string. rewrite He. by rewrite <- !app_assoc.
  - intros rest. unfold read_quoted. cbn [expect]. rewrite Z.eqb_refl, <- app_assoc. cbn [app].
    apply (Hr _ []). rewrite length_app. simpl. lia.
Qed.

Lemma pair_back k v :
  utf8_valid k = true → utf8_valid v = true →
  ∃ t, (∀ out, match append_json_string nl_dump out k with
               | Ok out => append_json_string nl_dump (out ++ [58]) v
               | Err m => Err m
               end = Ok (out ++ 34 :: t)) ∧
       (∀ rest, read_pair (34 :: t ++ rest) = Some (k, v, skip_ws rest)).
Proof.
  intros Hk Hv. destruct (quoted_back k Hk) as (tk & Ek & Rk). destruct (quoted_back v Hv) as (tv & Ev & Rv).
  exists (tk ++ 58 :: 34 :: tv). split.
  - intros out. rewrite Ek, Ev. f_equal. by rewrite <- !app_assoc.
  - intros rest. unfold read_pair. rewrite <- app_assoc. rewrite Rk. simpl.
    by rewrite Rv.
Qed.

Definition entry_lt (a b : list Z * list Z) : Prop := bytes_ltb a.1 b.1 = true.
Definition entry_valid (p : list Z * list Z) : Prop := utf8_valid p.1 = true ∧ utf8_valid p.2 = true.

Lemma append_entries_cons first out k v l :
  append_entries nl_dump first out ((k, v) :: l) =
  match (match append_json_string nl_dump (if first then out else out ++ [44]) k with
         | Ok out => append_json_string nl_dump (out ++ [58]) v
         | Err m => Err m
         end) with
  | Ok out => append_entries nl_dump false out l
  | Err m => Err m
  end.
Proof. cbn [append_entries]. by destruct (append_json_string _ _ k). Qed.

Lemma entries_back p l :
  Forall entry_valid (p :: l) → Sorted entry_lt (p :: l) →
  ∃ t, (∀ out, append_entries nl_dump true out (p :: l) = Ok (out ++ 34 :: t)) ∧
       (∀ out, append_entries nl_dump false out (p :: l) = Ok (out ++ 44 :: 34 :: t)) ∧
       (length l ≤ length t)%nat ∧
       (∀ m prev row rest,
          (length l < m)%nat →
          match prev with Some q => bytes_ltb q p.1 = true | None => True end →
          read_pairs m (34 :: t ++ 125 :: rest) prev row =
          Some (foldl (λ r e, emplace r e.1 e.2) row (p :: l), rest)).
Proof.
  revert p. induction l as [|q l IH]; intros [k v] Hv Hs; inversion Hv as [|? ? [Hk Hvv] Hl]; subst;
    destruct (pair_back k v Hk Hvv) as (t & Et & Rt).
  - exists t. split_and!.
    + intros out. by rewrite append_entries_cons, Et.
    + intros out. rewrite append_entries_cons, Et. by rewrite <- app_assoc.
    + simpl. lia.
    + intros [|m] prev row rest Hm Hp; simpl in Hm; [lia|]. cbn [read_pairs]. rewrite Rt. simpl.
      destruct prev as [q|]; [|done]. simpl in Hp. by rewrite Hp.
  - inversion Hs as [|? ? Hs' Hd]; subst. inversion Hd as [|? ? Hlt]; subst.
    destruct (IH q Hl Hs') as (t' & _ & Ef & Hlen & Rr).
    exists (t ++ 44 :: 34 :: t'). split_and!.
    + intros out. rewrite append_entries_cons, Et, Ef. by rewrite <- !app_assoc.
    + intros out. rewrite append_entries_cons, Et, Ef. by rewrite <- !app_assoc.
    + rewrite length_app. simpl. lia.
    + intros [|m] prev row rest Hm Hp; simpl in Hm; [lia|]. cbn [read_pairs]. rewrite <- app_assoc, Rt.
      simpl. destruct prev as [q'|]; simpl in Hp; rewrite ?Hp; simpl; (apply Rr; [simpl in *; lia|exact Hlt]).
Qed.

Lemma emplace_all l row :
  NoDup l.*1 → (∀ k, k ∈ l.*1 → row !! k = None) →
  foldl (λ r e, emplace r e.1 e.2) row l = list_to_map l ∪ row.
Proof.
  revert row. induction l as [|[k v] l IH]; intros row Hd Hr; simpl.
  { by rewrite (left_id_L ∅ (∪)). }
  apply NoDup_cons in Hd as [Hk Hd]. unfold emplace at 2. simpl. rewrite Hr by left.
  rewrite IH; [|done|].
  - rewrite <- insert_union_r by by apply not_elem_of_list_to_map_1. by rewrite insert_union_l.
  - intros k' Hk'. rewrite lookup_insert_ne by (intros ->; done). apply Hr. by right.
Qed.

Lemma sorted_entries_lt row : Sorted entry_lt (sorted_entries row).
Proof.
  assert (Hs : Sorted entry_le (sorted_entries row)).
  { apply Sorted_merge_sort. intros a b. destruct (bytes_leb_total a.1 b.1); [by left|by right]. }
  assert (Hd : NoDup (sorted_entries row).*1).
  { unfold sorted_entries. rewrite merge_sort_Permutation. apply NoDup_fst_map_to_list. }
  induction Hs as [|a l Hs IH Ha]; [constructor|].
  simpl in Hd. apply NoDup_cons in Hd as [Hna Hd]. constructor; [by apply IH|].
  destruct Ha as [|b l Hab]; constructor. apply bytes_leb_ne_ltb; [done|].
  intros E. apply Hna. rewrite E. simpl. by left.
Qed.

Lemma sorted_entries_map row : list_to_map (sorted_entries row) = row.
Proof.
  rewrite <- (list_to_map_to_list row) at 2. apply list_to_map_proper.
  - unfold sorted_entries. rewrite merge_sort_Permutation. apply NoDup_fst_map_to_list.
  - apply merge_sort_Permutation.
Qed.

Lemma row_back row :
  row_valid row →
  ∃ t, (∀ out, append_row_json nl_dump out row = Ok (out ++ 123 :: t)) ∧
       (∀ rest, read_flat_object (t ++ rest) = Some (row, rest)).
Proof.
  intros Hv. unfold append_row_json.
  pose proof (sorted_entries_lt row) as Hs. pose proof (sorted_entries_map row) as Hm.
  assert (Hd : NoDup (sorted_entries row).*1).
  { unfold sorted_entries. rewrite merge_sort_Permutation. apply NoDup_fst_map_to_list. }
  assert (Hall : Forall entry_valid (sorted_entries row)).
  { unfold sorted_entries. rewrite merge_sort_Permutation. apply Forall_forall. intros [k v] Hin.
    apply elem_of_map_to_list in Hin. by apply (Hv k v). }
  destruct (sorted_entries row) as [|p l] eqn:E.
  - exists [125]. split; [intros out; simpl; by rewrite <- app_assoc|].
    intros rest. simpl in Hm. by subst row.
  - destruct (entries_back p l Hall Hs) as (t & Et & _ & Hlen & Rt). exists (34 :: t ++ [125]). split.
    + intros out. rewrite Et. rewrite <- !app_assoc. done.
    + intros rest. cbn [app]. rewrite <- app_assoc. cbn [app].
      change (read_flat_object (34 :: t ++ 125 :: rest)) with
        (read_pairs (length (34 :: t ++ 125 :: rest)) (34 :: t ++ 125 :: rest) None ∅).
      rewrite Rt; [|simpl; rewrite length_app; lia|done].
      rewrite emplace_all; [|done|intros; apply lookup_empty]. by rewrite Hm, map_union_empty.
Qed.

Lemma row_json_back row :
  row_valid row → ∃ t, row_to_json nl_dump row = Ok t ∧ row_from_json nl_parse t = Ok row.
Proof.
  intros Hv. destruct (row_back row Hv) as (t & Et & Rt). unfold row_to_json. rewrite Et.
  eexists. split; [done|]. unfold row_from_json. simpl.
  specialize (Rt []). rewrite app_nil_r in Rt. by rewrite Rt.
Qed.

Lemma rows_back row rows :
  row_valid row → Forall row_valid rows →
  ∃ t, (∀ out, append_rows nl_dump true out (row :: rows) = Ok (out ++ 123 :: t)) ∧
       (∀ out, append_rows nl_dump false out (row :: rows) = Ok (out ++ 44 :: 123 :: t)) ∧
       (length rows ≤ length t)%nat ∧
       (∀ m acc rest, (length rows < m)%nat →
          read_objects m (123 :: t ++ 93 :: rest) acc = Some (acc ++ row :: rows, rest)).
Proof.
  intros Hv Hvs. revert row Hv. induction Hvs as [|row' rows Hv' Hvs IH]; intros row Hv;
    destruct (row_back row Hv) as (t & Et & Rt).
  - exists t. split_and!; [intros; simpl; by rewrite Et|intros; simpl; rewrite Et; by rewrite <- app_assoc|simpl; lia|].
    intros [|m] acc rest Hm; simpl in Hm; [lia|]. cbn [read_objects expect]. simpl. by rewrite Rt.
  - destruct (IH row' Hv') as (t' & _ & Ef & Hlen & Rr). exists (t ++ 44 :: 123 :: t'). split_and!.
    + intros out. change (append_rows nl_dump true out (row :: row' :: rows)) with
        (match append_row_json nl_dump out row with Ok out => append_rows nl_dump false out (row' :: rows) | Err m => Err m end).
      rewrite Et, Ef. by rewrite <- !app_assoc.
    + intros out. change (append_rows nl_dump false out (row :: row' :: rows)) with
        (match append_row_json nl_dump (out ++ [44]) row with Ok out => append_rows nl_dump false out (row' :: rows) | Err m => Err m end).
      rewrite Et, Ef. by rewrite <- !app_assoc.
    + rewrite length_app. simpl. lia.
    + intros [|m] acc rest Hm; simpl in Hm; [lia|]. cbn [read_objects expect]. simpl.
      rewrite <- app_assoc, Rt. simpl. rewrite Rr by (simpl in *; lia). by rewrite <- app_assoc.
Qed.
End roundtrip.

(** ** Properties *)

(** C4: the stored image of a row reads back as the row. For every row whose keys and values are
    valid UTF-8, [row_to_json] succeeds without nlohmann's serializer and [row_from_json] of its text
    gives the row, without nlohmann's parser. *)
Theorem row_json_roundtrip nl_dump nl_parse row :
  row_valid row →
  ∃ text, row_to_json nl_dump row = Ok text ∧ row_from_json nl_parse text = Ok row.
Proof. apply row_json_back. Qed.

Definition demo_row : Row :=
  <[str "id" := str "1"]> (<[str "name" := str "한글"]> (<[str "note" := [34; 92; 10; 1; 47]]> ∅)).

Lemma row_json_roundtrip_witness :
  row_valid demo_row ∧
  ∃ text, row_to_json (λ _, Err []) demo_row = Ok text ∧ row_from_json (λ _, Err []) text = Ok demo_row.
Proof.
  assert (H : row_valid demo_row).
  { unfold row_valid, demo_row. repeat (apply map_Forall_insert_2; [by vm_compute|]). apply map_Forall_empty. }
  split; [exact H|]. apply (row_json_roundtrip _ _ demo_row H).
Defined.

(** The same for a list of rows, the form of an index bucket and of a table file: [rows_from_json]
    of [rows_to_json] gives the rows in order, duplicates included. *)
Theorem rows_json_roundtrip nl_dump nl_parse_rows rows :
  Forall row_valid rows →
  ∃ text, rows_to_json nl_dump rows = Ok text ∧ rows_from_json nl_parse_rows text = Ok rows.
Proof.
  intros Hv. unfold rows_to_json. destruct Hv as [|row rows Hv Hvs].
  { by eexists. }
  destruct (rows_back nl_dump row rows Hv Hvs) as (t & Et & _ & Hlen & Rt).
  rewrite Et. eexists. split; [done|].
  unfold rows_from_json. cbn [app]. 
  specialize (Rt (length (123 :: t ++ [93])) [] []).
  change (expect 91 (skip_ws (91 :: 123 :: t ++ [93]))) with (Some (123 :: t ++ [93])). cbv beta iota zeta.
  change (skip_ws (123 :: t ++ [93])) with (123 :: t ++ [93]).
  change (expect 93 (123 :: t ++ [93])) with (@None (list Z)). cbv iota.
  rewrite Rt by (simpl; rewrite length_app; lia). done.
Qed.

Lemma rows_json_roundtrip_witness :
  ∃ text, rows_to_json (λ _, Err []) [demo_row; ∅; demo_row] = Ok text ∧
          rows_from_json (λ _, Err []) text = Ok [demo_row; ∅; demo_row].
Proof.
  refine (rows_json_roundtrip _ _ [demo_row; ∅; demo_row] _).
  assert (H : row_valid demo_row).
  { unfold row_valid, demo_row. repeat (apply map_Forall_insert_2; [by vm_compute|]). apply map_Forall_empty. }
  repeat (apply Forall_cons; split; [first [exact H | apply map_Forall_empty]|]). by apply Forall_nil.
Defined.
