(* ===== verification/Redo.v ===== *)
(** * The redo log (engine/transaction/redo_log.hpp, src/transaction/redo_log.cpp)

    Batches of row-version operations, each checksummed as a unit: the format, [append_batch], the
    group-committed [sync], [read_all] and [clear]. *)
From S2P Require Import Prelude Codec Files LogFile.

(** ** Operations *)

(** RedoOp::Kind; the value is a byte, and [read_all] accepts any. *)
Inductive Kind : Set :=
  | InsertVersion
  | SetXmax
  | TableFlushed
  | OtherKind (b : Z).

#[export] Instance Kind_eq_dec : EqDecision Kind.
Proof. solve_decision. Defined.

Definition kind_to_u8 (k : Kind) : Z :=
  match k with InsertVersion => 1 | SetXmax => 2 | TableFlushed => 3 | OtherKind b => b end.
Definition kind_from_u8 (b : Z) : Kind :=
  match b with 1 => InsertVersion | 2 => SetXmax | 3 => TableFlushed | _ => OtherKind b end.

Record RedoOp := mkRedoOp {
  r_kind : Kind;
  r_table : list Z;
  r_row_json : list Z;
  r_xmax : list Z
}.

#[export] Instance RedoOp_eq_dec : EqDecision RedoOp.
Proof. solve_decision. Defined.

(** ** The batch format *)

Definition redo_op_bytes (op : RedoOp) : list Z :=
  [kind_to_u8 (r_kind op)] ++ push_string (r_table op) ++ push_string (r_row_json op) ++ push_string (r_xmax op).

Definition batch_payload (ops : list RedoOp) : list Z :=
  push_u32_le (wrap32 (Z.of_nat (length ops))) ++ concat (redo_op_bytes <$> ops).

Definition batch_encode (ops : list RedoOp) : list Z :=
  let payload := batch_payload ops in
  push_u32_le (wrap32 (Z.of_nat (length payload))) ++ payload ++ push_u32_le (fnv1a32 payload).

Definition read_redo_op_body : reader RedoOp :=
  kind <-- read_u8;
  table <-- read_string;
  row_json <-- read_string;
  xmax <-- read_string;
  r_ret (mkRedoOp (kind_from_u8 kind) table row_json xmax).

(** [for (i = 0; i < count && ok; i++)]; [limit] is [start + len]. *)
Fixpoint read_redo_ops (limit count : nat) : reader (list RedoOp) :=
  match count with
  | O => r_ret []
  | S count => λ buf p,
      if decide (limit ≤ p)%nat then None
      else (op <-- read_redo_op_body; rest <-- read_redo_ops limit count; r_ret (op :: rest)) buf p
  end.

(** The rest of a batch after its length. *)
Definition read_payload (len : nat) : reader (list RedoOp) :=
  λ buf pos,
    if decide (length buf < pos + len + 4)%nat then None
    else
      let cpos := (pos + len)%nat in
      if decide (fnv1a32 (take len (drop pos buf)) = le_at 4 buf cpos) then
        match (count <-- advance 4 read_u32_le; read_redo_ops cpos (Z.to_nat count)) buf pos with
        | Some (batch, _) => Some (batch, (cpos + 4)%nat)
        | None => None
        end
      else None.

Definition read_batch : reader (list RedoOp) :=
  len <-- advance 4 read_u32_le;
  read_payload (Z.to_nat len).

(** ** The batch format keeps the promises of [RecordCodec] *)

Definition redo_op_ok (op : RedoOp) : Prop :=
  kind_from_u8 (kind_to_u8 (r_kind op)) = r_kind op ∧
  in_u32 (Z.of_nat (length (r_table op))) ∧ in_u32 (Z.of_nat (length (r_row_json op))) ∧
  in_u32 (Z.of_nat (length (r_xmax op))).

Definition batch_ok (ops : list RedoOp) : Prop :=
  Forall redo_op_ok ops ∧ in_u32 (Z.of_nat (length (batch_payload ops))).

#[export] Instance redo_op_ok_dec op : Decision (redo_op_ok op).
Proof. unfold redo_op_ok. apply _. Defined.
#[export] Instance batch_ok_dec ops : Decision (batch_ok ops).
Proof. unfold batch_ok. apply _. Defined.

#[export] Instance read_redo_op_body_laws : ReaderLaws read_redo_op_body.
Proof. apply _. Qed.

Lemma read_redo_op_body_back op : redo_op_ok op → reads_back read_redo_op_body (redo_op_bytes op) op.
Proof.
  intros (Hk & H1 & H2 & H3). unfold redo_op_bytes, read_redo_op_body.
  eapply reads_back_bind; [apply _|apply read_u8_back|].
  eapply reads_back_bind; [apply _|by apply read_string_back|].
  eapply reads_back_bind; [apply _|by apply read_string_back|].
  rewrite <- (app_nil_r (push_string (r_xmax op))).
  eapply reads_back_bind; [apply _|by apply read_string_back|].
  rewrite Hk. by destruct op.
Qed.

Lemma read_redo_ops_bounded limit n buf pos x pos' :
  (pos ≤ length buf)%nat → read_redo_ops limit n buf pos = Some (x, pos') → (pos ≤ pos' ≤ length buf)%nat.
Proof.
  revert pos x pos'. induction n as [|n IH]; intros pos x pos' Hp; simpl; [intros [= <- <-]; lia|].
  case_decide; [done|]. unfold r_bind. destruct (read_redo_op_body buf pos) as [[op p]|] eqn:E; [|done].
  apply reader_bounded in E; [|done].
  destruct (read_redo_ops limit n buf p) as [[rest p']|] eqn:E'; [|done].
  intros [= <- <-]. apply IH in E'; lia.
Qed.

Lemma read_redo_ops_stable limit n buf ext pos x pos' :
  (pos ≤ length buf)%nat → read_redo_ops limit n buf pos = Some (x, pos') →
  read_redo_ops limit n (buf ++ ext) pos = Some (x, pos').
Proof.
  revert pos x pos'. induction n as [|n IH]; intros pos x pos' Hp; simpl; [done|].
  case_decide; [done|]. unfold r_bind. destruct (read_redo_op_body buf pos) as [[op p]|] eqn:E; [|done].
  pose proof (reader_bounded _ _ _ _ Hp E). rewrite (reader_stable _ ext _ _ _ Hp E).
  destruct (read_redo_ops limit n buf p) as [[rest p']|] eqn:E'; [|done].
  intros [= <- <-]. by rewrite (IH p rest p') by (done || lia).
Qed.

Lemma read_redo_ops_shift limit n pre buf pos :
  read_redo_ops (length pre + limit)%nat n (pre ++ buf) (length pre + pos)%nat =
  prod_map id (Nat.add (length pre)) <$> read_redo_ops limit n buf pos.
Proof.
  revert pos. induction n as [|n IH]; intros pos; simpl; [done|].
  do 2 case_decide; try lia; [done|]. unfold r_bind. rewrite reader_shift.
  destruct (read_redo_op_body buf pos) as [[op p]|]; simpl; [|done].
  rewrite IH. by destruct (read_redo_ops limit n buf p) as [[rest p']|].
Qed.

Lemma redo_op_bytes_pos op : (0 < length (redo_op_bytes op))%nat.
Proof. unfold redo_op_bytes. simpl. lia. Qed.

Lemma read_redo_ops_back limit ops pre post :
  Forall redo_op_ok ops → (length pre + length (concat (redo_op_bytes <$> ops)) ≤ limit)%nat →
  read_redo_ops limit (length ops) (pre ++ concat (redo_op_bytes <$> ops) ++ post) (length pre) =
  Some (ops, (length pre + length (concat (redo_op_bytes <$> ops)))%nat).
Proof.
  intros Hok. revert pre. induction Hok as [|op ops Hop Hok IH]; intros pre Hl.
  { simpl. unfold r_ret. do 2 f_equal. lia. }
  rewrite fmap_cons, concat_cons, length_app in Hl.
  rewrite fmap_cons, concat_cons. cbn [length read_redo_ops].
  pose proof (redo_op_bytes_pos op). rewrite decide_False by lia.
  unfold r_bind. rewrite <- app_assoc.
  rewrite (reads_back_app pre (redo_op_bytes op) _ op) by by apply read_redo_op_body_back.
  specialize (IH (pre ++ redo_op_bytes op)). rewrite length_app, <- app_assoc in IH.
  rewrite IH by lia. unfold r_ret. do 2 f_equal. rewrite length_app. lia.
Qed.

#[export] Instance read_payload_laws len : ReaderLaws (read_payload len).
Proof.
  split; unfold read_payload, r_bind, advance, read_u32_le.
  - intros buf pos x pos' Hp. repeat case_decide; try done.
    destruct (read_redo_ops _ _ _ _) as [[y p]|] eqn:E; [|done]. intros [= <- <-]. lia.
  - intros buf ext pos x pos' Hp. rewrite length_app. case_decide; [done|].
    rewrite (decide_False (P := (_ < pos + len + 4)%nat)) by lia.
    rewrite le_at_app, drop_app_le, take_app_le by (rewrite ?length_drop; lia).
    case_decide; [|done]. case_decide; [done|].
    rewrite (decide_False (P := (_ < pos + 4)%nat)) by lia. rewrite le_at_app by lia.
    destruct (read_redo_ops _ _ buf _) as [[y p]|] eqn:E; [|done].
    intros [= <- <-]. apply (read_redo_ops_stable _ _ _ ext) in E; [|lia]. by rewrite E.
  - intros pre buf pos. rewrite length_app.
    destruct (decide (length buf < pos + len + 4)%nat), (decide (length pre + length buf < _)%nat); try lia; [done|].
    rewrite drop_app_ge by lia. replace (length pre + pos - length pre)%nat with pos by lia.
    rewrite <- Nat.add_assoc, le_at_shift. case_decide; [|done].
    destruct (decide (length buf < pos + 4)%nat), (decide (length pre + length buf < length pre + pos + 4)%nat); try lia.
    rewrite le_at_shift, <- (Nat.add_assoc (length pre) pos 4), read_redo_ops_shift.
    destruct (read_redo_ops _ _ buf _) as [[y p]|]; [|done]. simpl. do 2 f_equal. lia.
Qed.

#[export] Instance read_batch_laws : ReaderLaws read_batch.
Proof. apply _. Qed.

Lemma read_batch_back ops : batch_ok ops → reads_back read_batch (batch_encode ops) ops.
Proof.
  intros [Hok Hlen]. unfold batch_encode, read_batch.
  assert (Hcount : in_u32 (Z.of_nat (length ops))).
  { unfold batch_payload in Hlen. rewrite length_app in Hlen.
    assert (length ops ≤ length (concat (redo_op_bytes <$> ops)))%nat.
    { clear. induction ops as [|op ops IH]; [done|]. rewrite fmap_cons, concat_cons, length_app.
      pose proof (redo_op_bytes_pos op). simpl. lia. }
    widths. }
  rewrite !wrap32_small by done.
  eapply reads_back_bind; [apply _|by apply read_u32_back|].
  unfold reads_back, read_payload. set (payload := batch_payload ops).
  rewrite Nat2Z.id. cbn [plus].
  assert (E4 : length (push_u32_le (fnv1a32 payload)) = 4%nat) by apply length_push_le.
  rewrite decide_False by (rewrite length_app; lia).
  rewrite drop_0, take_app_length. rewrite le_at_drop by (rewrite length_app; lia).
  rewrite drop_app_length, (take_ge (push_u32_le _)), le_value_u32 by (lia || apply fnv1a32_range).
  rewrite decide_True by done.
  assert (E : (count <-- advance 4 read_u32_le; read_redo_ops (length payload) (Z.to_nat count))
                (payload ++ push_u32_le (fnv1a32 payload)) 0%nat = Some (ops, length payload)).
  { assert (Ec : length (push_u32_le (Z.of_nat (length ops))) = 4%nat) by apply length_push_le.
    unfold payload, batch_payload. rewrite wrap32_small by done. unfold r_bind. rewrite <- app_assoc.
    pose proof (reads_back_app [] _ (concat (redo_op_bytes <$> ops) ++
      push_u32_le (fnv1a32 (push_u32_le (Z.of_nat (length ops)) ++ concat (redo_op_bytes <$> ops))))
      (Z.of_nat (length ops)) (read_u32_back _ Hcount)) as R. cbn [app length Nat.add] in R. rewrite R, Nat2Z.id.
    rewrite read_redo_ops_back by (done || (rewrite length_app; lia)).
    by rewrite length_app. }
  rewrite E, !length_app, E4. done.
Qed.

Lemma batch_encode_nonempty ops : batch_encode ops ≠ [].
Proof. unfold batch_encode. intros E. by apply (f_equal length) in E. Qed.

#[export, refine] Instance redo_record_codec : RecordCodec (list RedoOp) := {
  enc := batch_encode;
  dec := read_batch;
  rec_ok := batch_ok;
  dec_enc := read_batch_back;
  enc_nonempty := batch_encode_nonempty
}.
Proof. done. Defined.

(** ** RedoLog *)

(** The members of RedoLog, with the directory it writes in. [rd_syncing] is the call that holds
    [sync_mu_] and is inside [fsync]: the sequence number it was asked for, its [target], and the size
    of the file when it began. [rd_durable] is the number of bytes of the file an [fsync] has covered:
    what a crash can take is anything after them. *)
Record RedoLog := mkRedoLog {
  rd_files : files;
  rd_fp : bool;
  rd_bytes : Z;
  rd_checkpoint_at : Z;
  rd_size_known : bool;
  rd_appended : Z;
  rd_synced : Z;
  rd_syncing : option (Z * Z * nat);
  rd_durable : nat
}.

Definition log_content (path : list Z) (s : RedoLog) : list Z := default [] (rd_files s !! path).

Definition append_batch (path : list Z) (ops : list RedoOp) (fault : io_fault) (s : RedoLog)
  : RedoLog * result Z :=
  match ops with
  | [] => (s, Ok (rd_appended s))
  | _ =>
      let rec_bytes := batch_encode ops in
      if negb (rd_fp s) && bool_decide (fault = OpenFault) then (s, Err (str "redo 로그 파일 열기 실패"))
      else
        let size := Z.of_nat (length (log_content path s)) in
        let bytes := if negb (rd_fp s) && negb (rd_size_known s) then size else rd_bytes s in
        let size_known := if rd_fp s then rd_size_known s else true in
        match fault with
        | WriteFault k | FlushFault k =>
            (mkRedoLog (<[path := log_content path s ++ take k rec_bytes]> (rd_files s)) false bytes
               (rd_checkpoint_at s) size_known (rd_appended s) (rd_synced s) (rd_syncing s) (rd_durable s),
             Err (str "redo 로그 기록 실패"))
        | _ =>
            let appended := wrap64 (rd_appended s + 1) in
            (mkRedoLog (<[path := log_content path s ++ rec_bytes]> (rd_files s)) true
               (wrap64 (bytes + Z.of_nat (length rec_bytes))) (rd_checkpoint_at s) size_known appended
               (rd_synced s) (rd_syncing s) (rd_durable s),
             Ok appended)
        end
  end.

(** [sync] up to the [fsync]: it returns at once, or is inside the call ([None]). *)
Definition sync_begin (path : list Z) (seq : Z) (s : RedoLog) : RedoLog * option (result unit) :=
  if seq <=? rd_synced s then (s, Some (Ok tt))
  else
    let target := rd_appended s in
    if negb (rd_fp s) then (s, Some (Ok tt))
    else
      (mkRedoLog (rd_files s) (rd_fp s) (rd_bytes s) (rd_checkpoint_at s) (rd_size_known s) (rd_appended s)
         (rd_synced s) (Some (seq, target, length (log_content path s))) (rd_durable s), None).

(** The [fsync] and what follows it. *)
Definition sync_end (ok : bool) (s : RedoLog) : RedoLog * result unit :=
  match rd_syncing s with
  | None => (s, Ok tt)
  | Some (_, target, size) =>
      let s' synced durable :=
        mkRedoLog (rd_files s) (rd_fp s) (rd_bytes s) (rd_checkpoint_at s) (rd_size_known s) (rd_appended s)
          synced None durable in
      if ok then (s' target (Nat.max (rd_durable s) size), Ok tt)
      else (s' (rd_synced s) (rd_durable s), Err (str "redo 로그 fsync 실패"))
  end.

Definition redo_read_all (path : list Z) (s : RedoLog) : list RedoOp :=
  match rd_files s !! path with Some buf => concat (decode_all buf) | None => [] end.

Definition redo_clear (path : list Z) (removed : bool) (s : RedoLog) : RedoLog :=
  mkRedoLog (if removed then delete path (rd_files s) else rd_files s) false 0 0 true (rd_appended s)
    (rd_appended s) (rd_syncing s) (if removed then 0%nat else rd_durable s).

Definition redo_start : RedoLog := mkRedoLog ∅ false 0 0 false 0 0 None 0.

(** ** Commits as interleaved steps

    A commit appends its batch and then asks for a sync up to its sequence number; sessions interleave
    at the boundaries of [mu_] and [sync_mu_]. [acks] are the sequence numbers whose [sync] has
    returned without an exception. [clear] runs under the structural write lock, with no commit in
    flight. *)
Inductive redo_step (path : list Z) : RedoLog * list Z → RedoLog * list Z → Prop :=
  | step_append ops s s' seq acks :
      ops ≠ [] → batch_ok ops → rd_appended s + 1 ≤ u64_max →
      append_batch path ops NoFault s = (s', Ok seq) →
      redo_step path (s, acks) (s', acks)
  | step_sync_returns seq s s' acks :
      rd_syncing s = None → seq ≤ rd_appended s →
      sync_begin path seq s = (s', Some (Ok tt)) →
      redo_step path (s, acks) (s', seq :: acks)
  | step_sync_begins seq s s' acks :
      rd_syncing s = None → seq ≤ rd_appended s →
      sync_begin path seq s = (s', None) →
      redo_step path (s, acks) (s', acks)
  | step_sync_ends seq target size s s' acks :
      rd_syncing s = Some (seq, target, size) →
      sync_end true s = (s', Ok tt) →
      redo_step path (s, acks) (s', seq :: acks)
  | step_sync_fails seq target size s s' m acks :
      rd_syncing s = Some (seq, target, size) →
      sync_end false s = (s', Err m) →
      redo_step path (s, acks) (s', acks)
  | step_clear s acks :
      rd_syncing s = None →
      redo_step path (s, acks) (redo_clear path true s, acks).

(** [batches] are the batches in the file, the first of them numbered [base + 1]. *)
Record redo_inv (path : list Z) (base : Z) (batches : list (list RedoOp)) (s : RedoLog) (acks : list Z) : Prop := {
  ri_ok : Forall batch_ok batches;
  ri_file : log_content path s = encode_all batches;
  ri_appended : rd_appended s = base + Z.of_nat (length batches);
  ri_width : in_u64 (rd_appended s);
  ri_synced : base ≤ rd_synced s ≤ rd_appended s;
  ri_durable : (length (encode_all (take (Z.to_nat (rd_synced s - base)) batches)) ≤ rd_durable s)%nat;
  ri_handle : rd_fp s = false → rd_synced s = rd_appended s;
  ri_syncing : match rd_syncing s with
               | None => True
               | Some (seq, target, size) =>
                   seq ≤ target ∧ rd_synced s ≤ target ≤ rd_appended s ∧
                   (length (encode_all (take (Z.to_nat (target - base)) batches)) ≤ size)%nat
               end;
  ri_acks : Forall (λ a, a ≤ rd_synced s) acks
}.

Lemma take_app_count {A} (l l' : list A) (n : nat) : (n ≤ length l)%nat → take n (l ++ l') = take n l.
Proof. intros. by apply take_app_le. Qed.

Lemma redo_step_inv path base batches s acks s' acks' :
  redo_inv path base batches s acks → redo_step path (s, acks) (s', acks') →
  ∃ base' batches', base ≤ base' ∧ redo_inv path base' batches' s' acks'.
Proof.
  intros Hinv Hstep. destruct Hinv as [Hok Hfile Happ Hw Hsync Hdur Hfp Hsy Hacks].
  remember (s, acks) as st eqn:E1. remember (s', acks') as st' eqn:E2.
  destruct Hstep as [ops s1 s1' seq ac Hne Hb Hmax Ha|seq s1 s1' ac Hn Hseq Hs|seq s1 s1' ac Hn Hseq Hs
    |seq target size s1 s1' ac Hn Hs|seq target size s1 s1' m ac Hn Hs|s1 ac Hn]; simplify_eq.
  - (* append *)
    exists base, (batches ++ [ops]). split; [lia|].
    assert (Efile : log_content path s ++ batch_encode ops = encode_all (batches ++ [ops])).
    { rewrite Hfile, encode_all_app. f_equal. unfold encode_all. simpl. by rewrite app_nil_r. }
    unfold append_batch in Ha. destruct ops as [|o ops]; [done|].
    rewrite (bool_decide_eq_false_2 (NoFault = OpenFault)), andb_false_r in Ha by done.
    rewrite (wrap64_small (rd_appended s + 1)) in Ha by widths.
    simplify_eq. split; simpl; try done.
    + apply Forall_app. by split; [|apply Forall_singleton].
    + unfold log_content at 1. simpl. simplify_map_eq. exact Efile.
    + rewrite length_app. simpl. lia.
    + widths.
    + lia.
    + rewrite take_app_count by lia. done.
    + destruct (rd_syncing s) as [[[q t] z]|]; [|done]. destruct Hsy as (? & ? & ?).
      split_and!; [lia..|]. by rewrite take_app_count by lia.
  - unfold sync_begin in Hs. destruct (seq <=? rd_synced s) eqn:Ele; simplify_eq.
    + exists base, batches. split; [lia|]. split; try done. constructor; [by apply Z.leb_le|done].
    + destruct (rd_fp s) eqn:Ef; simplify_eq/=. apply Z.leb_gt in Ele. specialize (Hfp eq_refl). lia.
  - unfold sync_begin in Hs. destruct (seq <=? rd_synced s) eqn:Ele; simplify_eq.
    destruct (rd_fp s) eqn:Ef; simplify_eq/=. exists base, batches. split; [lia|].
    split; simpl; try done. split_and!; [lia..|].
    rewrite take_ge by lia. by rewrite Hfile.
  - unfold sync_end in Hs. rewrite Hn in Hs, Hsy. simplify_eq. destruct Hsy as (? & ? & ?).
    exists base, batches. split; [lia|]. split; simpl; try done; try lia.
    + intros Hf. specialize (Hfp Hf). lia.
    + constructor; [lia|]. eapply Forall_impl; [exact Hacks|]. simpl. lia.
  - unfold sync_end in Hs. rewrite Hn in Hs. simplify_eq.
    exists base, batches. split; [lia|]. by split.
  - exists (rd_appended s), []. split; [lia|]. split; simpl; try done; try lia.
    + unfold log_content. simpl. by simplify_map_eq.
    + by rewrite Z.sub_diag.
    + by rewrite Hn.
    + eapply Forall_impl; [exact Hacks|]. simpl. lia.
Qed.

Lemma redo_steps_inv path st st' :
  rtc (redo_step path) st st' →
  ∀ base batches, redo_inv path base batches st.1 st.2 →
  ∃ base' batches', base ≤ base' ∧ redo_inv path base' batches' st'.1 st'.2.
Proof.
  induction 1 as [st|[s acks] [s1 acks1] st' Hstep _ IH]; intros base batches Hinv; [by exists base, batches|].
  destruct (redo_step_inv _ _ _ _ _ _ _ Hinv Hstep) as (b1 & bs1 & Hle & Hinv1).
  destruct (IH _ _ Hinv1) as (b2 & bs2 & Hle2 & Hinv2). exists b2, bs2. split; [lia|done].
Qed.

Lemma redo_start_inv path : redo_inv path 0 [] redo_start [].
Proof. by split. Qed.

(** What a crash leaves of the log file: at least the bytes an [fsync] has covered, cut anywhere
    after them. *)
Definition crash (path : list Z) (s : RedoLog) (n : nat) : RedoLog :=
  mkRedoLog (<[path := take n (log_content path s)]> (rd_files s)) false 0 0 false 0 0 None n.

Lemma crash_read path base batches s acks n :
  redo_inv path base batches s acks → (rd_durable s ≤ n)%nat →
  ∃ k, redo_read_all path (crash path s n) = concat (take k batches) ∧
       rd_synced s - base ≤ Z.of_nat k.
Proof.
  intros Hinv Hn. destruct Hinv as [Hok Hfile Happ Hw Hsync Hdur _ _ _].
  unfold redo_read_all, crash. simpl. rewrite lookup_insert_eq, Hfile.
  pose proof (decode_all_cut (R := list RedoOp) batches n) as Hcut.
  destruct (Hcut Hok) as (k & -> & Hk). exists k. split; [done|].
  enough (Z.to_nat (rd_synced s - base) ≤ k)%nat by lia. apply Hk; lia.
Qed.

(** ** Properties *)


Definition demo_batch : list RedoOp := [mkRedoOp InsertVersion (str "t") (str "{}") []].
Definition demo_appended : RedoLog := (append_batch (str "r") demo_batch NoFault redo_start).1.
Definition demo_syncing : RedoLog := (sync_begin (str "r") 1 demo_appended).1.
Definition demo_synced : RedoLog := (sync_end true demo_syncing).1.


(** The acknowledgement needs the append handle that wrote the batch. When another session's
    append fails between a commit's append and its sync, it closes the shared handle, and the sync
    returns success at once without an [fsync]: the batch is acknowledged with no byte of it durable,
    and a crash that keeps nothing loses it. *)
Theorem redo_sync_after_failed_append :
  let path := str "r" in
  let '(s1, r1) := append_batch path demo_batch NoFault redo_start in
  let '(s2, r2) := append_batch path demo_batch (WriteFault 0) s1 in
  let '(s3, r3) := sync_begin path 1 s2 in
  r1 = Ok 1 ∧ r3 = Some (Ok tt) ∧ rd_durable s3 = 0%nat ∧ redo_read_all path (crash path s3 0) = [].
Proof. by vm_compute. Qed.

(** A failed append hides the commits after it. The bytes it left stay in the file, the next
    commit appends behind them and is synced and acknowledged, and [read_all] stops at the torn bytes:
    the acknowledged batch is not replayed although it is durable. *)
Theorem redo_torn_bytes_hide_later_commits :
  let path := str "r" in
  let '(s1, r1) := append_batch path demo_batch (WriteFault 10) redo_start in
  let '(s2, r2) := append_batch path demo_batch NoFault s1 in
  let '(s3, _) := sync_begin path 1 s2 in
  let '(s4, r4) := sync_end true s3 in
  r2 = Ok 1 ∧ r4 = Ok tt ∧ rd_durable s4 = length (log_content path s4) ∧ redo_read_all path s4 = [].
Proof. by vm_compute. Qed.
