(* ===== verification/Numerals.v ===== *)
(** * Decimal numerals as text

    [std::to_string] of an unsigned integer and [std::stoull], which the MVCC columns of a row, the
    redo log and the number formats go through. *)
From S2P Require Import Prelude.

(** The decimal digits of [n], most significant first, before [acc]. *)
Fixpoint to_digits (fuel : nat) (n : Z) (acc : list Z) : list Z :=
  match fuel with
  | O => acc
  | S fuel => if n <? 10 then (48 + n) :: acc else to_digits fuel (n / 10) ((48 + n mod 10) :: acc)
  end.

(** std::to_string; the fuel covers every digit of [n]. *)
Definition to_string (n : Z) : list Z := to_digits (S (Z.to_nat (Z.log2 n))) n [].

(** The value of a text of digits. *)
Definition digits_value (l : list Z) : Z := fold_left (λ v c, v * 10 + (c - 48)) l 0.

Fixpoint take_digits (s : list Z) : list Z :=
  match s with
  | c :: s => if is_digit c then c :: take_digits s else []
  | [] => []
  end.

(** isspace in the C locale. *)
Definition is_space (c : Z) : bool := (c =? 32) || ((9 <=? c) && (c <=? 13)).

Fixpoint skip_space (s : list Z) : list Z :=
  match s with
  | c :: t => if is_space c then skip_space t else s
  | [] => []
  end.

(** std::stoull: white space, an optional sign, digits; [None] for the exceptions
    (no digits, out of range). A minus sign negates modulo 2^64. *)
Definition stoull (s : list Z) : option Z :=
  let s := skip_space s in
  let '(neg, s) := match s with
                   | c :: t => if c =? c_minus then (true, t) else if c =? c_plus then (false, t) else (false, s)
                   | [] => (false, s)
                   end in
  let ds := take_digits s in
  if decide (ds = []) then None
  else
    let v := digits_value ds in
    if u64_max <? v then None else Some (if neg : bool then wrap64 (- v) else v).

(** strtoull in base 10: 0 where there is no number, ULLONG_MAX where it is too large. *)
Definition strtoull (s : list Z) : Z :=
  match stoull s with
  | Some v => v
  | None =>
      let t := skip_space s in
      let t := match t with c :: u => if (c =? c_minus) || (c =? c_plus) then u else t | [] => t end in
      match t with c :: _ => if is_digit c then u64_max else 0 | [] => 0 end
  end.

(** ** Facts *)

Lemma digits_value_acc l v :
  fold_left (λ v c, v * 10 + (c - 48)) l v = v * 10 ^ Z.of_nat (length l) + digits_value l.
Proof.
  unfold digits_value. revert v. induction l as [|c l IH]; intros v; cbn [fold_left length].
  { change (Z.of_nat 0) with 0. lia. }
  rewrite IH, (IH (0 * 10 + (c - 48))). rewrite Nat2Z.inj_succ, Z.pow_succ_r by lia. ring.
Qed.

Lemma digits_value_cons c l : digits_value (c :: l) = (c - 48) * 10 ^ Z.of_nat (length l) + digits_value l.
Proof.
  unfold digits_value at 1. cbn [fold_left]. rewrite digits_value_acc. f_equal.
Qed.

Lemma digits_value_app l l' :
  digits_value (l ++ l') = digits_value l * 10 ^ Z.of_nat (length l') + digits_value l'.
Proof. unfold digits_value at 1. rewrite fold_left_app. apply digits_value_acc. Qed.

Lemma digits_value_bound l :
  Forall (λ c, is_digit c = true) l → 0 ≤ digits_value l < 10 ^ Z.of_nat (length l).
Proof.
  induction 1 as [|c l Hc Hl IH]; [change (digits_value []) with 0; simpl; lia|].
  rewrite digits_value_cons. cbn [length]. rewrite Nat2Z.inj_succ, Z.pow_succ_r by lia.
  unfold is_digit in Hc. bool_cases. nia.
Qed.

Lemma to_digits_spec fuel n acc :
  0 ≤ n < 2 ^ Z.of_nat fuel → (0 < fuel)%nat →
  ∃ l, to_digits fuel n acc = l ++ acc ∧ l ≠ [] ∧ Forall (λ c, is_digit c = true) l ∧ digits_value l = n.
Proof.
  revert n acc. induction fuel as [|fuel IH]; intros n acc Hn Hf; [lia|]. cbn [to_digits].
  destruct (Z.ltb_spec n 10).
  - exists [48 + n]. split_and!; [done|done| |].
    + apply Forall_singleton. unfold is_digit.
      rewrite (proj2 (Z.leb_le 48 (48 + n))), (proj2 (Z.leb_le (48 + n) 57)) by lia. done.
    + unfold digits_value. simpl. lia.
  - rewrite Nat2Z.inj_succ, Z.pow_succ_r in Hn by lia.
    pose proof (Z.div_mod n 10 ltac:(lia)) as Hdm. pose proof (Z.mod_pos_bound n 10 ltac:(lia)).
    destruct fuel as [|fuel]; [simpl in Hn; lia|].
    destruct (IH (n / 10) ((48 + n mod 10) :: acc)) as (l & E & Hne & Hl & Hv); [nia|lia|].
    exists (l ++ [48 + n mod 10]). split_and!.
    + by rewrite E, <- app_assoc.
    + by destruct l.
    + apply Forall_app. split; [done|]. apply Forall_singleton. unfold is_digit.
      rewrite (proj2 (Z.leb_le 48 _)), (proj2 (Z.leb_le _ 57)) by lia. done.
    + rewrite digits_value_app, Hv. unfold digits_value. cbn [fold_left length Z.of_nat]. lia.
Qed.

Lemma to_string_spec n :
  0 ≤ n → to_string n ≠ [] ∧ Forall (λ c, is_digit c = true) (to_string n) ∧ digits_value (to_string n) = n.
Proof.
  intros Hn. destruct (to_digits_spec (S (Z.to_nat (Z.log2 n))) n []) as (l & E & Hne & Hl & Hv); [|lia|].
  - split; [done|]. destruct (decide (n = 0)) as [->|]; [by vm_compute|].
    pose proof (Z.log2_spec n ltac:(lia)). pose proof (Z.log2_nonneg n).
    rewrite Nat2Z.inj_succ, Z2Nat.id by lia. lia.
  - unfold to_string. rewrite E, app_nil_r. done.
Qed.

Lemma take_digits_all l t :
  Forall (λ c, is_digit c = true) l → match t with c :: _ => is_digit c = false | [] => True end →
  take_digits (l ++ t) = l.
Proof.
  induction 1 as [|c l Hc Hl IH]; intros Ht; simpl; [|rewrite Hc; f_equal; auto].
  destruct t as [|c t]; [done|]. simpl. by rewrite Ht.
Qed.

(** Reading back what [to_string] wrote. *)
Lemma stoull_to_string n : in_u64 n → stoull (to_string n) = Some n.
Proof.
  intros Hn. destruct (to_string_spec n) as (Hne & Hd & Hv); [widths|].
  unfold stoull. destruct (to_string n) as [|c l] eqn:E; [done|].
  pose proof (Forall_inv Hd) as Hc. cbv beta in Hc. unfold is_digit in Hc. bool_cases.
  cbn [skip_space]. unfold is_space.
  rewrite (proj2 (Z.eqb_neq c 32)), (proj2 (Z.leb_gt c 13)) by lia. rewrite andb_false_r. simpl orb. cbv iota.
  rewrite (proj2 (Z.eqb_neq c c_minus)), (proj2 (Z.eqb_neq c c_plus)) by lia.
  rewrite <- (app_nil_r (c :: l)), take_digits_all by done.
  rewrite decide_False by done. rewrite Hv.
  rewrite (proj2 (Z.ltb_ge u64_max n)) by widths. done.
Qed.

Lemma to_string_inj n m : 0 ≤ n → 0 ≤ m → to_string n = to_string m → n = m.
Proof.
  intros Hn Hm E. destruct (to_string_spec n Hn) as (_ & _ & <-).
  destruct (to_string_spec m Hm) as (_ & _ & <-). by rewrite E.
Qed.

(** The order of the bytes of two numbers of as many digits is that of their values. *)
Lemma digits_lexicographic a b :
  length a = length b → Forall (λ c, is_digit c = true) a → Forall (λ c, is_digit c = true) b →
  bytes_compare a b = (digits_value a ?= digits_value b).
Proof.
  intros Hl Ha. revert b Hl. induction Ha as [|x a Hx Ha IH]; intros b Hl Hb; destruct Hb as [|y b Hy Hb]; try done.
  simpl in Hl. specialize (IH b ltac:(lia) Hb). simpl. rewrite !digits_value_cons, IH.
  pose proof (digits_value_bound a Ha) as Ba. pose proof (digits_value_bound b Hb) as Bb.
  replace (length b) with (length a) in * by lia.
  destruct (Z.compare_spec x y) as [->|H|H].
  - destruct (Z.compare_spec (digits_value a) (digits_value b)), (Z.compare_spec ((y - 48) * 10 ^ Z.of_nat (length a) + digits_value a) ((y - 48) * 10 ^ Z.of_nat (length a) + digits_value b)); try done; lia.
  - symmetry. apply Z.compare_lt_iff. nia.
  - symmetry. apply Z.compare_gt_iff. nia.
Qed.
