(* ===== verification/Snapshot.v ===== *)
(** * Snapshots (SnapshotCtx, visible_under, validate_serializable of txn_manager.hpp / txn_manager.cpp)

    What a transaction sees of the row versions of a table, and the check a Serializable transaction
    makes at COMMIT. [visible_under] mirrors Executor::is_visible_for_read. *)
From S2P Require Import Prelude Numerals RowJson.

(** SnapshotCtx *)
Record SnapshotCtx := mkSnapshot {
  self_txn_id : Z;
  cutoff : Z;
  in_progress : gset Z
}.

Definition xmin_col : list Z := str "_xmin".
Definition xmax_col : list Z := str "_xmax".

(** parse_txn_id *)
Definition parse_txn_id (row : Row) (col : list Z) : Z :=
  match row !! col with
  | None => 0
  | Some v => default 0 (stoull v)
  end.

Definition committed_as_of (ctx : SnapshotCtx) (id : Z) : bool :=
  (id =? 0) || ((id <? cutoff ctx) && negb (bool_decide (id ∈ in_progress ctx))).

Definition visible_under (row : Row) (ctx : SnapshotCtx) : bool :=
  let xmin := parse_txn_id row xmin_col in
  if negb (xmin =? self_txn_id ctx) && negb (committed_as_of ctx xmin) then false
  else
    match row !! xmax_col with
    | None => true
    | Some v =>
        if decide (v = str "0") then true
        else
          let xmax := parse_txn_id row xmax_col in
          if xmax =? self_txn_id ctx then false
          else if committed_as_of ctx xmax then false
          else true
    end.

(** ** The read set *)

(** [table + '\x00' + pk_col + '\x00' + key] *)
Definition encode_read (table pk_col key : list Z) : list Z := table ++ [0] ++ pk_col ++ [0] ++ key.

(** [encoded.find('\x00', from)]: the text before the NUL and the text after it. A text without one is
    not written by [encode_read]; [npos] then makes [substr] give the whole text and, from the position
    [npos + 1 = 0], the whole text again. *)
Fixpoint split_nul (s : list Z) : option (list Z * list Z) :=
  match s with
  | [] => None
  | c :: s =>
      if c =? 0 then Some ([], s)
      else match split_nul s with Some (a, b) => Some (c :: a, b) | None => None end
  end.

Definition decode_read (encoded : list Z) : list Z * list Z * list Z :=
  match split_nul encoded with
  | None => (encoded, encoded, encoded)
  | Some (table, rest) =>
      match split_nul rest with
      | None => (table, rest, encoded)
      | Some (pk_col, key) => (table, pk_col, key)
      end
  end.

Definition row_matches (pk_col key : list Z) (row : Row) : bool :=
  match row !! pk_col with Some v => bool_decide (v = key) | None => false end.

(** Whether the key was written since the snapshot by a transaction that has committed. *)
Definition conflict (frozen now_ctx : SnapshotCtx) (live_tables : gmap (list Z) (list Row)) (encoded : list Z)
  : bool :=
  let '(table, pk_col, key) := decode_read encoded in
  match live_tables !! table with
  | None => false
  | Some rows =>
      existsb (λ row, row_matches pk_col key row &&
                      negb (eqb (visible_under row frozen) (visible_under row now_ctx))) rows
  end.

Definition serialization_error (encoded : list Z) : list Z :=
  let '(table, _, key) := decode_read encoded in
  str "Serialization failure: table '" ++ table ++ str "' row '" ++ key ++
  str "' was modified by another transaction since this one started. ROLLBACK required.".

(** The loop of validate_serializable over the read set; which of several conflicts is reported depends
    on the order of the set. *)
Definition validate_reads (txn_id : Z) (frozen : SnapshotCtx) (read_set : gset (list Z))
    (live_tables : gmap (list Z) (list Row)) (active_now : gset Z) : result unit :=
  let now_ctx := mkSnapshot txn_id u64_max active_now in
  match filter (λ encoded, conflict frozen now_ctx live_tables encoded = true) (elements read_set) with
  | [] => Ok tt
  | encoded :: _ => Err (serialization_error encoded)
  end.

(** ** What other transactions do to a table while a snapshot is open

    [id] is a transaction that is neither the snapshot's own nor committed as of the snapshot: its
    writes, their rollback, and the removal of versions the snapshot does not see. *)
Definition foreign (ctx : SnapshotCtx) (id : Z) : Prop :=
  in_u64 id ∧ id ≠ self_txn_id ctx ∧ committed_as_of ctx id = false.

Definition alive (row : Row) : Prop := row !! xmax_col = None ∨ row !! xmax_col = Some (str "0").

Inductive row_write (ctx : SnapshotCtx) : list Row → list Row → Prop :=
  | write_insert id row rows :
      foreign ctx id → row !! xmin_col = Some (to_string id) →
      row_write ctx rows (rows ++ [row])
  | write_kill id rows1 row rows2 :
      foreign ctx id → alive row →
      row_write ctx (rows1 ++ row :: rows2) (rows1 ++ <[xmax_col := to_string id]> row :: rows2)
  | write_revive id rows1 row rows2 :
      foreign ctx id → row !! xmax_col = Some (to_string id) →
      row_write ctx (rows1 ++ row :: rows2) (rows1 ++ <[xmax_col := str "0"]> row :: rows2)
  | write_remove rows1 row rows2 :
      visible_under row ctx = false →
      row_write ctx (rows1 ++ row :: rows2) (rows1 ++ rows2).

(** What a statement reads of the table: the visible versions, their [_xmax] aside. *)
Definition snapshot_rows (ctx : SnapshotCtx) (rows : list Row) : list Row :=
  delete xmax_col <$> filter (λ row, visible_under row ctx = true) rows.

(** ** Facts *)

Lemma parse_txn_id_to_string row col id :
  in_u64 id → row !! col = Some (to_string id) → parse_txn_id row col = id.
Proof. intros Hid E. unfold parse_txn_id. by rewrite E, stoull_to_string. Qed.

Lemma foreign_ne_zero ctx id : foreign ctx id → id ≠ 0.
Proof. intros (_ & _ & Hc) ->. unfold committed_as_of in Hc. by rewrite Z.eqb_refl in Hc. Qed.

Lemma foreign_insert_invisible ctx id row :
  foreign ctx id → row !! xmin_col = Some (to_string id) → visible_under row ctx = false.
Proof.
  intros (Hw & Hne & Hc) E. unfold visible_under. rewrite (parse_txn_id_to_string _ _ id) by done.
  by rewrite (proj2 (Z.eqb_neq _ _) Hne), Hc.
Qed.

(** A version the snapshot's own transaction has not killed, and nobody that it counts as committed. *)
Definition unkilled (ctx : SnapshotCtx) (row : Row) : Prop :=
  alive row ∨ ∃ id, foreign ctx id ∧ row !! xmax_col = Some (to_string id).

Lemma unkilled_visible ctx row :
  unkilled ctx row →
  visible_under row ctx =
  (parse_txn_id row xmin_col =? self_txn_id ctx) || committed_as_of ctx (parse_txn_id row xmin_col).
Proof.
  intros Hu. unfold visible_under.
  destruct (parse_txn_id row xmin_col =? self_txn_id ctx), (committed_as_of ctx (parse_txn_id row xmin_col));
    simpl; try done;
    (destruct Hu as [[->| ->]|(id & Hf & E)]; [done|done|]; rewrite E; case_decide; [done|];
     rewrite (parse_txn_id_to_string row xmax_col id) by (done || apply Hf);
     destruct Hf as (_ & Hne & ->); by rewrite (proj2 (Z.eqb_neq _ _) Hne)).
Qed.

Lemma stamp_unkilled ctx id row v :
  foreign ctx id → v = to_string id ∨ v = str "0" → unkilled ctx (<[xmax_col := v]> row).
Proof.
  intros Hf [->| ->].
  - right. exists id. split; [done|]. by rewrite lookup_insert_eq.
  - left. right. by rewrite lookup_insert_eq.
Qed.

Lemma stamp_visible ctx id row v :
  foreign ctx id → unkilled ctx row → v = to_string id ∨ v = str "0" →
  visible_under (<[xmax_col := v]> row) ctx = visible_under row ctx.
Proof.
  intros Hf Hu Hv. rewrite !unkilled_visible by (done || by eapply stamp_unkilled).
  unfold parse_txn_id. by rewrite lookup_insert_ne by done.
Qed.

Lemma snapshot_rows_app ctx rows1 rows2 :
  snapshot_rows ctx (rows1 ++ rows2) = snapshot_rows ctx rows1 ++ snapshot_rows ctx rows2.
Proof. unfold snapshot_rows. by rewrite filter_app, fmap_app. Qed.

Lemma snapshot_rows_cons ctx row rows :
  snapshot_rows ctx (row :: rows) =
  (if visible_under row ctx then [delete xmax_col row] else []) ++ snapshot_rows ctx rows.
Proof. unfold snapshot_rows. rewrite filter_cons. destruct (visible_under row ctx); by case_decide. Qed.

Lemma snapshot_rows_stamp ctx id rows1 row rows2 v :
  foreign ctx id → unkilled ctx row → v = to_string id ∨ v = str "0" →
  snapshot_rows ctx (rows1 ++ <[xmax_col := v]> row :: rows2) = snapshot_rows ctx (rows1 ++ row :: rows2).
Proof.
  intros Hf Hu Hv. rewrite !snapshot_rows_app, !snapshot_rows_cons, (stamp_visible _ id) by done.
  by rewrite delete_insert_eq.
Qed.

Lemma row_write_stable ctx rows rows' :
  row_write ctx rows rows' → snapshot_rows ctx rows' = snapshot_rows ctx rows.
Proof.
  destruct 1 as [id row rows Hf E|id rows1 row rows2 Hf Ha|id rows1 row rows2 Hf E|rows1 row rows2 Hv].
  - rewrite snapshot_rows_app, snapshot_rows_cons, (foreign_insert_invisible _ id) by done. apply app_nil_r.
  - apply (snapshot_rows_stamp _ id); [done|by left|by left].
  - apply (snapshot_rows_stamp _ id); [done|right; by exists id|by right].
  - by rewrite !snapshot_rows_app, snapshot_rows_cons, Hv.
Qed.

Lemma split_nul_app a b : 0 ∉ a → split_nul (a ++ 0 :: b) = Some (a, b).
Proof.
  induction a as [|c a IH]; intros H; simpl; [done|].
  apply not_elem_of_cons in H as [Hc Ha]. rewrite (proj2 (Z.eqb_neq c 0)) by done. by rewrite IH.
Qed.

Lemma decode_encode_read table pk_col key :
  0 ∉ table → 0 ∉ pk_col → decode_read (encode_read table pk_col key) = (table, pk_col, key).
Proof. intros Ht Hp. unfold decode_read, encode_read. simpl. by rewrite !split_nul_app. Qed.

(** ** Properties *)


Definition demo_ctx : SnapshotCtx := mkSnapshot 5 7 {[3]}.
Definition version (xmin xmax : Z) : Row :=
  <[xmin_col := to_string xmin]> (<[xmax_col := to_string xmax]> ∅).


(** Serializable validation is exact. With the reads recorded as (table, column, key) triples whose
    table and column names contain no NUL, COMMIT is allowed exactly when no version of a row that was
    read has become visible or invisible, to the transaction, since its snapshot. *)
Theorem validate_serializable_exact txn_id frozen reads live_tables active_now :
  Forall (λ r, (0 ∉ r.1.1) ∧ (0 ∉ r.1.2)) reads →
  (validate_reads txn_id frozen (list_to_set ((λ r, encode_read r.1.1 r.1.2 r.2) <$> reads)) live_tables active_now
    = Ok tt) ↔
  ∀ table pk_col key rows row,
    (table, pk_col, key) ∈ reads → live_tables !! table = Some rows → row ∈ rows →
    row !! pk_col = Some key →
    visible_under row frozen = visible_under row (mkSnapshot txn_id u64_max active_now).
Proof.
  intros Hnul. unfold validate_reads. set (now_ctx := mkSnapshot _ _ _).
  set (read_set := (list_to_set _ : gset (list Z))).
  transitivity (∀ e, e ∈ read_set → conflict frozen now_ctx live_tables e = false).
  - destruct (filter _ _) as [|e l] eqn:E.
    + split; [intros _|done]. intros e He. destruct (conflict _ _ _ e) eqn:Ec; [|done].
      assert (Hin : e ∈ filter (λ e, conflict frozen now_ctx live_tables e = true) (elements read_set))
        by (apply list_elem_of_filter; split; [done|by apply elem_of_elements]).
      rewrite E in Hin. by apply elem_of_nil in Hin.
    + split; [done|]. intros H.
      assert (Hin : e ∈ filter (λ e, conflict frozen now_ctx live_tables e = true) (elements read_set))
        by (rewrite E; left).
      apply list_elem_of_filter in Hin as [Hc Hin]. rewrite H in Hc; [done|by apply elem_of_elements].
  - unfold read_set. setoid_rewrite elem_of_list_to_set. setoid_rewrite list_elem_of_fmap.
    rewrite Forall_forall in Hnul. split.
    + intros H table pk_col key rows row Hr Ht Hrow Hk.
      specialize (H (encode_read table pk_col key) (ex_intro _ (table, pk_col, key) (conj eq_refl Hr))).
      destruct (Hnul _ Hr) as [H1 H2]. unfold conflict in H. rewrite decode_encode_read, Ht in H by done.
      apply not_true_iff_false in H. rewrite existsb_exists in H.
      destruct (eqb (visible_under row frozen) (visible_under row now_ctx)) eqn:Ee; [by apply eqb_prop|].
      exfalso. apply H. exists row. split; [by apply list_elem_of_In|]. unfold row_matches.
      by rewrite Hk, bool_decide_eq_true_2, Ee.
    + intros H e ([[table pk_col] key] & -> & Hr). destruct (Hnul _ Hr) as [H1 H2]. simpl in *.
      unfold conflict. rewrite decode_encode_read by done. destruct (live_tables !! table) as [rows|] eqn:Ht; [|done].
      apply not_true_iff_false. rewrite existsb_exists. intros (row & Hrow & Hc).
      apply list_elem_of_In in Hrow. apply andb_true_iff in Hc as [Hm Hc]. unfold row_matches in Hm.
      destruct (row !! pk_col) as [v|] eqn:Ev; [|done]. apply bool_decide_eq_true in Hm as ->.
      rewrite (H _ _ _ _ _ Hr Ht Hrow Ev) in Hc. by rewrite eqb_reflx in Hc.
Qed.

Lemma validate_serializable_exact_witness :
  validate_reads 5 demo_ctx
    (list_to_set ((λ r, encode_read r.1.1 r.1.2 r.2) <$> [(str "t", xmin_col, str "2")]))
    {[str "t" := [version 2 0]]} {[3; 5]} = Ok tt.
Proof.
  apply (validate_serializable_exact 5 demo_ctx [(str "t", xmin_col, str "2")]).
  - apply (bool_decide_eq_true_1 _). by vm_compute.
  - intros table pk_col key rows row Hr%list_elem_of_singleton Ht Hrow _. simplify_eq.
    rewrite lookup_singleton_eq in Ht. simplify_eq. apply list_elem_of_singleton in Hrow as ->. by vm_compute.
Defined.
