(* ===== verification/Txn.v ===== *)
(** * The transaction manager (engine/transaction/txn_manager.hpp, src/transaction/txn_manager.cpp)

    One session's TransactionManager over the TxnIoShared the sessions share: transaction boundaries,
    savepoints, the undo log in memory and on disk, and the redo operations that COMMIT writes.

    The log files are those of Wal.v and Undo.v; the outcome of every stdio call an operation makes is
    in [txn_env]. An exception is [Thrown], with the state as it was when it was thrown. *)
From S2P Require Import Prelude Codec Files LogFile Wal Undo RowJson Redo Numerals Snapshot.

(** ** State *)

(** TxnIoShared and the directory. *)
Record TxnIo := mkIo {
  io_files : files;
  io_wal : LogSlot;
  io_undo : LogSlot;
  next_txn_id : Z
}.

Inductive IsolationLevel : Set := ReadUncommitted | ReadCommitted | RepeatableRead | Serializable.

#[export] Instance IsolationLevel_eq_dec : EqDecision IsolationLevel.
Proof. solve_decision. Defined.

Record TxnManager := mkTxn {
  active : bool;
  t_id : Z;
  undo_log : list UndoEntry;
  isolation_level : IsolationLevel;
  frozen_ctx : option SnapshotCtx;
  read_set : gset (list Z);
  savepoints : list (list Z * nat);
  redo_ops : list RedoOp;
  redo_marks : list nat;
  redo_incomplete : bool
}.

Record txn_state := mkState {
  io : TxnIo;
  mgr : TxnManager
}.

Inductive outcome (A : Type) : Type :=
  | Returned (a : A)
  | Thrown (msg : list Z).
Arguments Returned {A} a.
Arguments Thrown {A} msg.

(** How the stdio calls of one operation turn out: the append to each log, the pruning of each, and
    the rewrite of the undo log. *)
Record txn_env := mkTxnEnv {
  te_wal : io_fault;
  te_wal_rm : log_env;
  te_undo : io_fault;
  te_undo_rm : log_env;
  te_removed : bool;
  te_rewrite : io_fault
}.

Definition on_wal {A} (f : log_state → log_state * A) (i : TxnIo) : TxnIo * A :=
  let '(l, r) := f (mkLog (io_files i) (io_wal i)) in
  (mkIo (lg_files l) (lg_slot l) (io_undo i) (next_txn_id i), r).
Definition on_undo {A} (f : log_state → log_state * A) (i : TxnIo) : TxnIo * A :=
  let '(l, r) := f (mkLog (io_files i) (io_undo i)) in
  (mkIo (lg_files l) (io_wal i) (lg_slot l) (next_txn_id i), r).

(** TxnIoShared::next_id / peek_next_id / ensure_next_id_at_least *)
Definition next_id (i : TxnIo) : TxnIo * Z :=
  (mkIo (io_files i) (io_wal i) (io_undo i) (wrap64 (next_txn_id i + 1)), next_txn_id i).
Definition peek_next_id (i : TxnIo) : Z := next_txn_id i.
Definition ensure_next_id_at_least (min_next : Z) (i : TxnIo) : TxnIo :=
  if next_txn_id i <? min_next then mkIo (io_files i) (io_wal i) (io_undo i) min_next else i.

(** ** Operations *)

Section manager.
Context (dir : list Z).
Context (nl_parse : list Z → result Row).

Definition current_txn_id (m : TxnManager) : Z := if active m then t_id m else 0.

Definition set_isolation_level (level : IsolationLevel) (m : TxnManager) : TxnManager :=
  mkTxn (active m) (t_id m) (undo_log m) level (frozen_ctx m) (read_set m) (savepoints m) (redo_ops m)
    (redo_marks m) (redo_incomplete m).

Definition already_active : list Z := str "Transaction already active. COMMIT or ROLLBACK first.".
Definition not_active : list Z := str "No active transaction.".

Definition begin_with_snapshot (active_txn_ids : gset Z) (s : txn_state) : txn_state * result Z :=
  let m := mgr s in
  if active m then (s, Err already_active)
  else
    let '(i, id) := next_id (io s) in
    let ctx :=
      if bool_decide (isolation_level m = RepeatableRead) || bool_decide (isolation_level m = Serializable)
      then Some (mkSnapshot id (peek_next_id i) active_txn_ids) else None in
    (mkState i (mkTxn true id [] (isolation_level m) ctx ∅ (savepoints m) [] [] false), Ok id).

Definition begin_txn (s : txn_state) : txn_state * result Z :=
  let m := mgr s in
  if active m then (s, Err already_active)
  else
    let '(i, id) := next_id (io s) in
    (mkState i (mkTxn true id [] (isolation_level m) (frozen_ctx m) (read_set m) (savepoints m) [] [] false),
     Ok id).

Definition record_read (table pk_col key : list Z) (m : TxnManager) : TxnManager :=
  if negb (active m) || negb (bool_decide (isolation_level m = Serializable)) then m
  else
    mkTxn (active m) (t_id m) (undo_log m) (isolation_level m) (frozen_ctx m)
      ({[encode_read table pk_col key]} ∪ read_set m) (savepoints m) (redo_ops m) (redo_marks m)
      (redo_incomplete m).

Definition validate_serializable (live_tables : gmap (list Z) (list Row)) (active_txn_ids_now : gset Z)
    (m : TxnManager) : result unit :=
  if negb (bool_decide (isolation_level m = Serializable)) then Ok tt
  else
    match frozen_ctx m with
    | None => Ok tt
    | Some frozen => validate_reads (t_id m) frozen (read_set m) live_tables active_txn_ids_now
    end.

Definition table_le (a b : list Z) : Prop := bytes_leb a b = true.
#[export] Instance table_le_dec a b : Decision (table_le a b).
Proof. unfold table_le. apply _. Defined.

(** [std::unique] on a sorted vector. *)
Fixpoint unique_adjacent (l : list (list Z)) : list (list Z) :=
  match l with
  | a :: ((b :: _) as rest) => if decide (a = b) then unique_adjacent rest else a :: unique_adjacent rest
  | _ => l
  end.

Definition dirty_tables (m : TxnManager) : list (list Z) :=
  unique_adjacent (merge_sort table_le (u_table <$> undo_log m)).

(** The end of a transaction, the same in commit, commit_finalize, rollback and abort. *)
Definition cleared (m : TxnManager) : TxnManager :=
  mkTxn false (t_id m) [] (isolation_level m) None ∅ [] [] [] false.

Definition set_undo_log (l : list UndoEntry) (m : TxnManager) : TxnManager :=
  mkTxn (active m) (t_id m) l (isolation_level m) (frozen_ctx m) (read_set m) (savepoints m) (redo_ops m)
    (redo_marks m) (redo_incomplete m).

Definition commit_finalize (env : txn_env) (s : txn_state) : txn_state * outcome unit :=
  let m := mgr s in
  let '(i, r) := on_wal (wal_remove_txn (wal_path dir) (t_id m) (te_wal_rm env)) (io s) in
  match r with
  | Err e => (mkState i m, Thrown e)
  | Ok _ =>
      let m := set_undo_log [] m in
      let '(i, r) := on_undo (undo_remove_txn (undo_path dir) (t_id m) (te_undo_rm env)) i in
      match r with
      | Err e => (mkState i m, Thrown e)
      | Ok _ => (mkState i (cleared m), Returned tt)
      end
  end.

Definition commit (env : txn_env) (s : txn_state) : txn_state * outcome (result unit) :=
  if negb (active (mgr s)) then (s, Returned (Err not_active))
  else
    let '(i, r) := on_wal (log_commit (wal_path dir) (t_id (mgr s)) (te_wal env)) (io s) in
    match r with
    | Err e => (mkState i (mgr s), Thrown e)
    | Ok _ =>
        let '(s, r) := commit_finalize env (mkState i (mgr s)) in
        (s, match r with Returned _ => Returned (Ok tt) | Thrown e => Thrown e end)
    end.

Definition commit_write_record (env : txn_env) (s : txn_state) : txn_state * outcome (result unit) :=
  if negb (active (mgr s)) then (s, Returned (Err not_active))
  else
    let '(i, r) := on_wal (log_commit_no_sync (wal_path dir) (t_id (mgr s)) (te_wal env)) (io s) in
    (mkState i (mgr s), match r with Ok _ => Returned (Ok tt) | Err e => Thrown e end).

Definition rollback (env : txn_env) (s : txn_state) : txn_state * outcome (list UndoEntry) :=
  let '(i, r) := on_wal (log_rollback (wal_path dir) (t_id (mgr s)) (te_wal env)) (io s) in
  match r with
  | Err e => (mkState i (mgr s), Thrown e)
  | Ok _ =>
      let entries := reverse (undo_log (mgr s)) in
      let '(s, r) := commit_finalize env (mkState i (mgr s)) in
      (s, match r with Returned _ => Returned entries | Thrown e => Thrown e end)
  end.

Definition abort (env : txn_env) (s : txn_state) : txn_state * outcome (result (list UndoEntry)) :=
  if negb (active (mgr s)) then (s, Returned (Err not_active))
  else
    let '(s, r) := rollback env s in
    (s, match r with Returned es => Returned (Ok es) | Thrown e => Thrown e end).

(** *** Savepoints *)

Definition set_savepoints (l : list (list Z * nat)) (m : TxnManager) : TxnManager :=
  mkTxn (active m) (t_id m) (undo_log m) (isolation_level m) (frozen_ctx m) (read_set m) l (redo_ops m)
    (redo_marks m) (redo_incomplete m).

Definition create_savepoint (name : list Z) (s : txn_state) : txn_state * result unit :=
  let m := mgr s in
  if negb (active m) then (s, Err (str "No active transaction. Use BEGIN first."))
  else
    (mkState (io s) (set_savepoints (filter (λ p, p.1 ≠ name) (savepoints m) ++ [(name, length (undo_log m))]) m),
     Ok tt).

(** The last savepoint of that name: its position and what it holds, the length of the undo log
    ([std::find_if(rbegin, rend)], [distance(it, rend) - 1]). *)
Fixpoint find_savepoint {A} (name : list Z) (l : list (list Z * A)) : option (nat * A) :=
  match l with
  | [] => None
  | (n, len) :: rest =>
      match find_savepoint name rest with
      | Some (pos, len') => Some (S pos, len')
      | None => if decide (n = name) then Some (0%nat, len) else None
      end
  end.

Definition not_found (name : list Z) : list Z := str "Savepoint '" ++ name ++ str "' not found".

(** [vector::resize] to a shorter length; the marks and operations are never fewer than asked for. *)
Definition rollback_to_savepoint (name : list Z) (env : txn_env) (s : txn_state)
  : txn_state * outcome (result (list UndoEntry)) :=
  let m := mgr s in
  if negb (active m) then (s, Returned (Err not_active))
  else
    match find_savepoint name (savepoints m) with
    | None => (s, Returned (Err (not_found name)))
    | Some (pos, undo_len) =>
        let entries := reverse (drop undo_len (undo_log m)) in
        let keep_ops :=
          match undo_len with O => 0%nat | S l => nth l (redo_marks m) 0%nat end in
        let m := mkTxn (active m) (t_id m) (take undo_len (undo_log m)) (isolation_level m) (frozen_ctx m)
                   (read_set m) (take (S pos) (savepoints m)) (take keep_ops (redo_ops m))
                   (take undo_len (redo_marks m)) (redo_incomplete m) in
        let '(i, r) := on_undo (rewrite_txn (undo_path dir) (t_id m) (undo_log m) (te_removed env) (te_rewrite env))
                         (io s) in
        (mkState i m, match r with Ok _ => Returned (Ok entries) | Err e => Thrown e end)
    end.

Definition release_savepoint (name : list Z) (s : txn_state) : txn_state * result unit :=
  let m := mgr s in
  if negb (active m) then (s, Err not_active)
  else
    match find_savepoint name (savepoints m) with
    | None => (s, Err (not_found name))
    | Some (pos, _) =>
        (mkState (io s) (set_savepoints (take pos (savepoints m) ++ drop (S pos) (savepoints m)) m), Ok tt)
    end.

(** *** Redo capture *)

Definition set_redo (ops : list RedoOp) (marks : list nat) (m : TxnManager) : TxnManager :=
  mkTxn (active m) (t_id m) (undo_log m) (isolation_level m) (frozen_ctx m) (read_set m) (savepoints m)
    ops marks (redo_incomplete m).

Definition discard_redo_ops (m : TxnManager) : TxnManager := set_redo [] [] m.

Definition fill_xmax (fallback_xmax : list Z) (op : RedoOp) : RedoOp :=
  if bool_decide (r_kind op = SetXmax) && bool_decide (r_xmax op = [])
  then mkRedoOp (r_kind op) (r_table op) (r_row_json op) fallback_xmax else op.

Definition take_redo_ops (fallback_xmax : list Z) (m : TxnManager) : TxnManager * list RedoOp :=
  (discard_redo_ops m, fill_xmax fallback_xmax <$> redo_ops m).

Definition mark_redo_incomplete (m : TxnManager) : TxnManager :=
  mkTxn (active m) (t_id m) (undo_log m) (isolation_level m) (frozen_ctx m) (read_set m) (savepoints m)
    (redo_ops m) (redo_marks m) true.

(** xmin_of_image *)
Definition xmin_of_image (json : list Z) : list Z :=
  match row_from_json nl_parse json with
  | Ok row => default [] (row !! xmin_col)
  | Err _ => []
  end.

(** [redo_ops_.push_back(...); if (active_) redo_marks_.push_back(redo_ops_.size());] *)
Definition push_redo (ops : list RedoOp) (m : TxnManager) : TxnManager :=
  let all := redo_ops m ++ ops in
  set_redo all (if active m then redo_marks m ++ [length all] else redo_marks m) m.

(** The tail of log_insert / log_update / log_delete inside a transaction: the WAL record, the undo
    entry on disk, the undo entry in memory. *)
Definition log_tail (wal_op : log_state → log_state * result unit) (entry : UndoEntry) (env : txn_env)
    (s : txn_state) : txn_state * outcome unit :=
  if negb (active (mgr s)) then (s, Returned tt)
  else
    let '(i, r) := on_wal wal_op (io s) in
    match r with
    | Err e => (mkState i (mgr s), Thrown e)
    | Ok _ =>
        let '(i, r) := on_undo (undo_append (undo_path dir) entry (te_undo env)) i in
        match r with
        | Err e => (mkState i (mgr s), Thrown e)
        | Ok _ => (mkState i (set_undo_log (undo_log (mgr s) ++ [entry]) (mgr s)), Returned tt)
        end
    end.

Definition insert_entry (txn_id : Z) (table key : list Z) : UndoEntry :=
  mkUndo txn_id (str "INSERT") table key None None.
Definition update_entry (txn_id : Z) (table key old_data new_key : list Z) : UndoEntry :=
  mkUndo txn_id (str "UPDATE") table key (Some old_data)
    (if bool_decide (new_key = []) || bool_decide (new_key = key) then None else Some new_key).
Definition delete_entry (txn_id : Z) (table key old_data : list Z) : UndoEntry :=
  mkUndo txn_id (str "DELETE") table key (Some old_data) None.

Definition insert_redo (table data : list Z) : list RedoOp := [mkRedoOp InsertVersion table data []].
Definition update_redo (table old_data new_data : list Z) : list RedoOp :=
  [mkRedoOp SetXmax table old_data (xmin_of_image new_data); mkRedoOp InsertVersion table new_data []].
Definition delete_redo (table old_data : list Z) : list RedoOp := [mkRedoOp SetXmax table old_data []].

Definition txn_log_insert (table key data : list Z) (env : txn_env) (s : txn_state) : txn_state * outcome unit :=
  let m := push_redo (insert_redo table data) (mgr s) in
  log_tail (log_insert (wal_path dir) (t_id m) table key data (te_wal env)) (insert_entry (t_id m) table key)
    env (mkState (io s) m).

Definition txn_log_update (table key old_data new_data new_key : list Z) (env : txn_env) (s : txn_state)
  : txn_state * outcome unit :=
  let m := push_redo (update_redo table old_data new_data) (mgr s) in
  log_tail (log_update (wal_path dir) (t_id m) table key new_data (te_wal env))
    (update_entry (t_id m) table key old_data new_key) env (mkState (io s) m).

Definition txn_log_delete (table key old_data : list Z) (env : txn_env) (s : txn_state)
  : txn_state * outcome unit :=
  let m := push_redo (delete_redo table old_data) (mgr s) in
  log_tail (log_delete (wal_path dir) (t_id m) table key (te_wal env)) (delete_entry (t_id m) table key old_data)
    env (mkState (io s) m).

Definition do_checkpoint (safe_to_truncate : bool) (env : txn_env) (s : txn_state) : txn_state * outcome unit :=
  if negb safe_to_truncate then (s, Returned tt)
  else
    let '(i, r) := on_wal (wal_write (wal_path dir) (mkWalRecord Checkpoint 0 [] [] []) true (te_wal env)) (io s) in
    match r with
    | Err e => (mkState i (mgr s), Thrown e)
    | Ok _ =>
        let '(i, r) := on_wal (truncate_to_last_checkpoint (wal_path dir) (te_removed env) (te_rewrite env)) i in
        (mkState i (mgr s), match r with Ok _ => Returned tt | Err e => Thrown e end)
    end.

Definition release_file_handles (s : txn_state) : txn_state :=
  let '(i, _) := on_wal (λ l, (close_handle_locked l, tt)) (io s) in
  let '(i, _) := on_undo (λ l, (close_handle_locked l, tt)) i in
  mkState i (mgr s).
End manager.

(** ** The specification: a list of changes

    A transaction is the list of the changes made so far; a savepoint remembers that list. *)
Inductive change : Type :=
  | CInsert (table key data : list Z)
  | CUpdate (table key old_data new_data new_key : list Z)
  | CDelete (table key old_data : list Z).

Record spec := mkSpec {
  changes : list change;
  saves : list (list Z * list change)
}.

Inductive txn_call : Type :=
  | CallLog (c : change)
  | CallSavepoint (name : list Z)
  | CallRollbackTo (name : list Z)
  | CallRelease (name : list Z).

Section refinement.
Context (dir : list Z) (nl_parse : list Z → result Row).

Definition undo_of (txn_id : Z) (c : change) : UndoEntry :=
  match c with
  | CInsert table key _ => insert_entry txn_id table key
  | CUpdate table key old_data _ new_key => update_entry txn_id table key old_data new_key
  | CDelete table key old_data => delete_entry txn_id table key old_data
  end.

Definition redo_of (c : change) : list RedoOp :=
  match c with
  | CInsert table _ data => insert_redo table data
  | CUpdate table _ old_data new_data _ => update_redo nl_parse table old_data new_data
  | CDelete table _ old_data => delete_redo table old_data
  end.

Definition wal_of (txn_id : Z) (c : change) : WalRecord :=
  match c with
  | CInsert table key data => mkWalRecord Insert txn_id table key data
  | CUpdate table key _ new_data _ => mkWalRecord Update txn_id table key new_data
  | CDelete table key _ => mkWalRecord Delete txn_id table key []
  end.

(** What a change leaves the manager to write, for the widths of the formats. *)
Definition change_ok (txn_id : Z) (c : change) : Prop :=
  wal_record_ok (wal_of txn_id c) ∧ undo_ok (undo_of txn_id c).

#[export] Instance change_ok_dec txn_id c : Decision (change_ok txn_id c).
Proof. unfold change_ok. apply _. Defined.

Definition spec_call (txn_id : Z) (call : txn_call) (sp : spec) : spec * result (list UndoEntry) :=
  match call with
  | CallLog c => (mkSpec (changes sp ++ [c]) (saves sp), Ok [])
  | CallSavepoint name =>
      (mkSpec (changes sp) (filter (λ p, p.1 ≠ name) (saves sp) ++ [(name, changes sp)]), Ok [])
  | CallRollbackTo name =>
      match find_savepoint name (saves sp) with
      | None => (sp, Err (not_found name))
      | Some (pos, saved) =>
          (mkSpec saved (take (S pos) (saves sp)),
           Ok (reverse (undo_of txn_id <$> drop (length saved) (changes sp))))
      end
  | CallRelease name =>
      match find_savepoint name (saves sp) with
      | None => (sp, Err (not_found name))
      | Some (pos, _) => (mkSpec (changes sp) (take pos (saves sp) ++ drop (S pos) (saves sp)), Ok [])
      end
  end.

Definition no_entries {A} (r : result A) : result (list UndoEntry) :=
  match r with Ok _ => Ok [] | Err m => Err m end.

Definition log_change (c : change) (env : txn_env) (s : txn_state) : txn_state * outcome unit :=
  match c with
  | CInsert table key data => txn_log_insert dir table key data env s
  | CUpdate table key old_data new_data new_key =>
      txn_log_update dir nl_parse table key old_data new_data new_key env s
  | CDelete table key old_data => txn_log_delete dir table key old_data env s
  end.

Definition run_txn_call (call : txn_call) (env : txn_env) (s : txn_state)
  : txn_state * outcome (result (list UndoEntry)) :=
  match call with
  | CallLog c =>
      let '(s, r) := log_change c env s in
      (s, match r with Returned _ => Returned (Ok []) | Thrown m => Thrown m end)
  | CallSavepoint name => let '(s, r) := create_savepoint name s in (s, Returned (no_entries r))
  | CallRollbackTo name => rollback_to_savepoint dir name env s
  | CallRelease name => let '(s, r) := release_savepoint name s in (s, Returned (no_entries r))
  end.

(** Every stdio call succeeds, except where the code has another way. *)
Definition quiet (env : txn_env) : Prop :=
  te_wal env = NoFault ∧ te_undo env = NoFault ∧ te_removed env = true ∧ te_rewrite env = NoFault ∧
  e_removed (te_wal_rm env) = true ∧ e_write (te_wal_rm env) = NoFault ∧
  e_removed (te_undo_rm env) = true ∧ e_write (te_undo_rm env) = NoFault.

#[export] Instance quiet_dec env : Decision (quiet env).
Proof. unfold quiet. apply _. Defined.

(** The number of redo operations after each change. *)
Definition marks_of (cs : list change) : list nat :=
  (λ i, length (concat (redo_of <$> take (S i) cs))) <$> seq 0 (length cs).

(** The manager's state stands for the list of changes, and the logs hold, besides the records [W] and
    the entries [U] of other transactions, this transaction's. *)
Record txn_sim (W : list WalRecord) (U : list UndoEntry) (sp : spec) (s : txn_state) : Prop := {
  ts_active : active (mgr s) = true;
  ts_undo : undo_log (mgr s) = undo_of (t_id (mgr s)) <$> changes sp;
  ts_redo : redo_ops (mgr s) = concat (redo_of <$> changes sp);
  ts_marks : redo_marks (mgr s) = marks_of (changes sp);
  ts_saves : savepoints (mgr s) = prod_map id length <$> saves sp;
  ts_chain : StronglySorted prefix ((saves sp).*2 ++ [changes sp]);
  ts_widths : Forall (change_ok (t_id (mgr s))) (changes sp);
  ts_wal : ∃ R, log_inv (wal_path dir) R (mkLog (io_files (io s)) (io_wal (io s))) ∧
                filter (λ r, txn_id r ≠ t_id (mgr s)) R = W;
  ts_others : Forall (λ e, u_txn_id e ≠ t_id (mgr s)) U;
  ts_file : log_inv (undo_path dir) (U ++ (persisted <$> undo_log (mgr s)))
              (mkLog (io_files (io s)) (io_undo (io s)))
}.

(** *** The two logs do not touch each other's file *)

Lemma wal_path_undo_path : wal_path dir ≠ undo_path dir.
Proof. unfold wal_path, undo_path. intros E%app_inv_head. by vm_compute in E. Qed.

Lemma wal_path_undo_tmp : wal_path dir ≠ tmp_path (undo_path dir).
Proof. unfold wal_path, undo_path, tmp_path. rewrite <- app_assoc. intros E%app_inv_head. by vm_compute in E. Qed.

Lemma undo_path_wal_tmp : undo_path dir ≠ tmp_path (wal_path dir).
Proof. unfold wal_path, undo_path, tmp_path. rewrite <- app_assoc. intros E%app_inv_head. by vm_compute in E. Qed.

Lemma log_inv_files `{!LogCodec R} path (rs : list R) fs fs' slot :
  fs' !! path = fs !! path → log_inv path rs (mkLog fs slot) → log_inv path rs (mkLog fs' slot).
Proof. intros E (H1 & H2 & H3). split_and!; [done| |done]. simpl in *. by rewrite E. Qed.

(** A routine of one log, run on the shared state, keeps what is known of the other. *)
Lemma on_wal_undo {A} (f : log_state → log_state * A) i i' r (U : list UndoEntry) :
  on_wal f i = (i', r) → frames (wal_path dir) f →
  log_inv (undo_path dir) U (mkLog (io_files i) (io_undo i)) →
  log_inv (undo_path dir) U (mkLog (io_files i') (io_undo i')) ∧
  f (mkLog (io_files i) (io_wal i)) = (mkLog (io_files i') (io_wal i'), r).
Proof.
  unfold on_wal. destruct (f _) as [l r'] eqn:E. intros [= <- <-] Hf Hinv. simpl. split; [|by destruct l].
  eapply log_inv_files; [|exact Hinv].
  specialize (Hf (mkLog (io_files i) (io_wal i)) (undo_path dir)). rewrite E in Hf. apply Hf.
  - intros H. by apply wal_path_undo_path.
  - apply undo_path_wal_tmp.
Qed.

Lemma on_undo_wal {A} (f : log_state → log_state * A) i i' r (W : list WalRecord) :
  on_undo f i = (i', r) → frames (undo_path dir) f →
  log_inv (wal_path dir) W (mkLog (io_files i) (io_wal i)) →
  log_inv (wal_path dir) W (mkLog (io_files i') (io_wal i')) ∧
  f (mkLog (io_files i) (io_undo i)) = (mkLog (io_files i') (io_undo i'), r).
Proof.
  unfold on_undo. destruct (f _) as [l r'] eqn:E. intros [= <- <-] Hf Hinv. simpl. split; [|by destruct l].
  eapply log_inv_files; [|exact Hinv].
  specialize (Hf (mkLog (io_files i) (io_undo i)) (wal_path dir)). rewrite E in Hf. apply Hf.
  - apply wal_path_undo_path.
  - apply wal_path_undo_tmp.
Qed.

(** The same on the shared state: each log's routine with its effect and what it keeps. *)
Lemma on_wal_write rec i (R : list WalRecord) U sync :
  log_inv (wal_path dir) R (mkLog (io_files i) (io_wal i)) →
  log_inv (undo_path dir) U (mkLog (io_files i) (io_undo i)) → wal_record_ok rec →
  ∃ i', on_wal (wal_write (wal_path dir) rec sync NoFault) i = (i', Ok tt) ∧
        log_inv (wal_path dir) (R ++ [rec]) (mkLog (io_files i') (io_wal i')) ∧
        log_inv (undo_path dir) U (mkLog (io_files i') (io_undo i')).
Proof.
  intros HR HU Hok. destruct (on_wal _ i) as [i' r] eqn:E.
  destruct (on_wal_undo _ _ _ _ U E ltac:(apply write_encoded_frame) HU) as [HU' Ef].
  pose proof (write_encoded_inv (wal_path dir) wal_messages R rec sync NoFault _ HR Hok I) as H.
  change (write_encoded_locked (wal_path dir) wal_messages (enc rec) sync (txn_of rec) NoFault) with
    (wal_write (wal_path dir) rec sync NoFault) in H. rewrite Ef in H. destruct H as [H1 H2].
  exists i'. rewrite H2 by done. done.
Qed.

Lemma on_undo_append e i (R : list WalRecord) U :
  log_inv (wal_path dir) R (mkLog (io_files i) (io_wal i)) →
  log_inv (undo_path dir) U (mkLog (io_files i) (io_undo i)) → undo_ok e →
  ∃ i', on_undo (undo_append (undo_path dir) e NoFault) i = (i', Ok tt) ∧
        log_inv (wal_path dir) R (mkLog (io_files i') (io_wal i')) ∧
        log_inv (undo_path dir) (U ++ [persisted e]) (mkLog (io_files i') (io_undo i')).
Proof.
  intros HR HU Hok. destruct (on_undo _ i) as [i' r] eqn:E.
  destruct (on_undo_wal _ _ _ _ R E ltac:(apply write_encoded_frame) HR) as [HR' Ef].
  destruct (undo_append_inv _ U e NoFault _ HU Hok (or_introl eq_refl)) as (l & El & Hl).
  rewrite Ef in El. simplify_eq. by exists i'.
Qed.

Lemma on_undo_rewrite txn entries i (R : list WalRecord) U :
  log_inv (wal_path dir) R (mkLog (io_files i) (io_wal i)) →
  log_inv (undo_path dir) U (mkLog (io_files i) (io_undo i)) → Forall undo_ok entries →
  ∃ i', on_undo (rewrite_txn (undo_path dir) txn entries true NoFault) i = (i', Ok tt) ∧
        log_inv (wal_path dir) R (mkLog (io_files i') (io_wal i')) ∧
        log_inv (undo_path dir) (filter (λ e, u_txn_id e ≠ txn) U ++ (persisted <$> entries))
          (mkLog (io_files i') (io_undo i')).
Proof.
  intros HR HU Hok. destruct (on_undo _ i) as [i' r] eqn:E.
  destruct (on_undo_wal _ _ _ _ R E ltac:(apply rewrite_txn_frame) HR) as [HR' Ef].
  destruct (rewrite_txn_inv _ txn U entries _ HU Hok) as (l & El & Hl).
  rewrite Ef in El. simplify_eq. by exists i'.
Qed.

Lemma on_wal_remove txn env i (R : list WalRecord) U :
  log_inv (wal_path dir) R (mkLog (io_files i) (io_wal i)) →
  log_inv (undo_path dir) U (mkLog (io_files i) (io_undo i)) →
  e_removed env = true → e_write env = NoFault →
  ∃ i', on_wal (wal_remove_txn (wal_path dir) txn env) i = (i', Ok tt) ∧
        log_inv (wal_path dir) (filter (λ r, txn_id r ≠ txn) R) (mkLog (io_files i') (io_wal i')) ∧
        log_inv (undo_path dir) U (mkLog (io_files i') (io_undo i')).
Proof.
  intros HR HU Hrm Hw. destruct (on_wal _ i) as [i' r] eqn:E.
  destruct (on_wal_undo _ _ _ _ U E ltac:(apply remove_txn_frame) HU) as [HU' Ef].
  destruct (remove_txn_inv _ txn env R _ HR Hrm Hw) as (l & El & Hl).
  unfold wal_remove_txn in Ef. rewrite Ef in El. simplify_eq. by exists i'.
Qed.

Lemma on_undo_remove txn env i (R : list WalRecord) U :
  log_inv (wal_path dir) R (mkLog (io_files i) (io_wal i)) →
  log_inv (undo_path dir) U (mkLog (io_files i) (io_undo i)) →
  e_removed env = true → e_write env = NoFault →
  ∃ i', on_undo (undo_remove_txn (undo_path dir) txn env) i = (i', Ok tt) ∧
        log_inv (wal_path dir) R (mkLog (io_files i') (io_wal i')) ∧
        log_inv (undo_path dir) (filter (λ e, u_txn_id e ≠ txn) U) (mkLog (io_files i') (io_undo i')).
Proof.
  intros HR HU Hrm Hw. destruct (on_undo _ i) as [i' r] eqn:E.
  destruct (on_undo_wal _ _ _ _ R E ltac:(apply remove_txn_frame) HR) as [HR' Ef].
  destruct (remove_txn_inv _ txn env U _ HU Hrm Hw) as (l & El & Hl).
  unfold undo_remove_txn in Ef. rewrite Ef in El. simplify_eq. by exists i'.
Qed.
(** *** Marks and savepoints *)

Lemma length_marks cs : length (marks_of cs) = length cs.
Proof. unfold marks_of. by rewrite length_fmap, length_seq. Qed.

Lemma marks_take cs cs' : take (length cs) (marks_of (cs ++ cs')) = marks_of cs.
Proof.
  unfold marks_of. rewrite <- fmap_take, take_seq, length_app, Nat.min_l by lia.
  apply list_fmap_ext. intros i j Hj%lookup_seq. rewrite take_app_le by lia. done.
Qed.

Lemma marks_snoc cs c : marks_of (cs ++ [c]) = marks_of cs ++ [length (concat (redo_of <$> cs ++ [c]))].
Proof.
  rewrite <- (take_drop (length cs) (marks_of (cs ++ [c]))), marks_take. f_equal.
  unfold marks_of. rewrite length_app, seq_app, fmap_app, drop_app_length' by by rewrite length_fmap, length_seq.
  simpl. by rewrite take_ge by (rewrite length_app; simpl; lia).
Qed.

Lemma marks_keep cs cs' :
  match length cs with O => 0%nat | S l => nth l (marks_of (cs ++ cs')) 0%nat end =
  length (concat (redo_of <$> cs)).
Proof.
  destruct (length cs) as [|l] eqn:E; [by apply nil_length_inv in E as ->|].
  apply (nth_lookup_Some _ _ 0%nat). unfold marks_of. rewrite list_lookup_fmap.
  rewrite (lookup_seq_lt 0) by (rewrite length_app; lia). simpl fmap. do 4 f_equal.
  simpl. rewrite <- E. by rewrite take_app_length.
Qed.

Lemma find_savepoint_fmap {A B} (f : A → B) name l :
  find_savepoint name (prod_map id f <$> l) = prod_map id f <$> find_savepoint name l.
Proof.
  induction l as [|[n x] l IH]; [done|]. rewrite fmap_cons. cbn [find_savepoint prod_map fst snd]. rewrite IH. destruct (find_savepoint name l) as [[pos y]|]; [done|].
  simpl. by case_decide.
Qed.

Lemma find_savepoint_lookup {A} name (l : list (list Z * A)) pos x :
  find_savepoint name l = Some (pos, x) → l !! pos = Some (name, x).
Proof.
  revert pos. induction l as [|[n y] l IH]; intros pos; simpl; [done|].
  destruct (find_savepoint name l) as [[p z]|]; [intros [= <- ->]; by apply IH|].
  case_decide; [|done]. by intros [= <- <-]; subst.
Qed.

Lemma filter_saves name (l : list (list Z * list change)) :
  filter (λ p, p.1 ≠ name) (prod_map id length <$> l) = prod_map id length <$> filter (λ p, p.1 ≠ name) l.
Proof. induction l as [|[n x] l IH]; [done|]. rewrite fmap_cons, !filter_cons. simpl. case_decide; by rewrite IH. Qed.

Lemma sublist_map {A B} (f : A → B) (l l' : list A) : sublist l l' → sublist (f <$> l) (f <$> l').
Proof. induction 1; simpl; by constructor. Qed.

Lemma StronglySorted_sub {A} (R : relation A) (l l' : list A) :
  sublist l l' → StronglySorted R l' → StronglySorted R l.
Proof.
  induction 1 as [|x l l' Hs IH|x l l' Hs IH]; intros H; [done| |].
  - apply StronglySorted_cons in H as [H1 H2]. apply StronglySorted_cons. split; [|by apply IH].
    rewrite Forall_forall in H1 |- *. intros y Hy. apply H1. by eapply elem_of_sublist.
  - apply StronglySorted_cons in H as [_ H2]. by apply IH.
Qed.

Lemma chain_snoc (l : list (list change)) x :
  StronglySorted prefix (l ++ [x]) ↔ StronglySorted prefix l ∧ Forall (λ y, y `prefix_of` x) l.
Proof.
  rewrite StronglySorted_app, Forall_forall. split.
  - intros (H1 & H2 & _). split; [done|]. intros y Hy. apply H1; [done|]. by apply list_elem_of_singleton.
  - intros (H1 & H2). split_and!; [|done|repeat constructor].
    intros y z Hy Hz%list_elem_of_singleton. subst. by apply H2.
Qed.

Lemma chain_twice (x : list change) : StronglySorted prefix [x; x].
Proof. constructor; [repeat constructor|]. apply Forall_singleton. reflexivity. Qed.

Lemma undo_of_txn id cs : Forall (λ e, ¬ u_txn_id e ≠ id) (persisted <$> (undo_of id <$> cs)).
Proof.
  apply Forall_fmap, Forall_fmap, Forall_true. intros c H. apply H. by destruct c.
Qed.

Lemma others_filter id U cs :
  Forall (λ e, u_txn_id e ≠ id) U →
  filter (λ e, u_txn_id e ≠ id) (U ++ (persisted <$> (undo_of id <$> cs))) = U.
Proof.
  intros HU. rewrite filter_app, filter_all by done.
  rewrite (filter_none _ (persisted <$> _)) by apply undo_of_txn. apply app_nil_r.
Qed.

(** *** Each call keeps the simulation *)

Lemma log_change_eq c env s :
  log_change c env s =
  log_tail dir (wal_write (wal_path dir) (wal_of (t_id (mgr s)) c) false (te_wal env)) (undo_of (t_id (mgr s)) c)
    env (mkState (io s) (push_redo (redo_of c) (mgr s))).
Proof. by destruct c. Qed.

Lemma log_change_sim W U sp s c env :
  quiet env → change_ok (t_id (mgr s)) c → txn_sim W U sp s →
  ∃ s', log_change c env s = (s', Returned tt) ∧ t_id (mgr s') = t_id (mgr s) ∧
        txn_sim W U (mkSpec (changes sp ++ [c]) (saves sp)) s'.
Proof.
  intros (Ew & Eu & _) Hc [Hact Hundo Hredo Hmarks Hsaves Hchain Hwid (R & HR & HW) Hoth Hfile].
  rewrite log_change_eq, Ew. unfold log_tail. cbn [mgr io]. unfold push_redo. rewrite Hact.
  cbn [set_redo active]. rewrite ?Hact. cbn [negb].
  destruct (on_wal_write (wal_of (t_id (mgr s)) c) (io s) R _ false HR Hfile) as (i1 & E1 & HR1 & HU1); [apply Hc|].
  rewrite E1, Eu.
  destruct (on_undo_append (undo_of (t_id (mgr s)) c) i1 _ _ HR1 HU1) as (i2 & E2 & HR2 & HU2); [apply Hc|].
  rewrite E2. eexists. split; [reflexivity|]. split; [done|].
  split; cbn [mgr io set_undo_log set_redo active t_id undo_log redo_ops redo_marks savepoints changes saves].
  - done.
  - by rewrite Hundo, fmap_app.
  - rewrite Hredo, fmap_app, concat_app. simpl. by rewrite app_nil_r.
  - rewrite Hmarks, marks_snoc, Hredo, fmap_app, concat_app. simpl. by rewrite app_nil_r.
  - done.
  - apply chain_snoc in Hchain as [H1 H2]. apply chain_snoc. split; [done|].
    eapply Forall_impl; [exact H2|]. intros x Hx. by apply prefix_app_r.
  - apply Forall_app. by split; [|apply Forall_singleton].
  - eexists. split; [exact HR2|]. rewrite filter_app, HW, filter_cons_False; [apply app_nil_r|].
    intros H. apply H. by destruct c.
  - done.
  - rewrite fmap_app, app_assoc. exact HU2.
Qed.

Lemma sim_savepoints W U sp s l l' :
  txn_sim W U sp s → l = prod_map id length <$> l' → StronglySorted prefix (l'.*2 ++ [changes sp]) →
  txn_sim W U (mkSpec (changes sp) l') (mkState (io s) (set_savepoints l (mgr s))).
Proof. intros [] -> Hc. by split. Qed.

Lemma savepoint_sim W U sp s name :
  txn_sim W U sp s →
  ∃ s', create_savepoint name s = (s', Ok tt) ∧ t_id (mgr s') = t_id (mgr s) ∧
        txn_sim W U (mkSpec (changes sp) (filter (λ p, p.1 ≠ name) (saves sp) ++ [(name, changes sp)])) s'.
Proof.
  intros H. unfold create_savepoint. rewrite (ts_active _ _ _ _ H). simpl.
  eexists. split; [done|]. split; [done|]. apply (sim_savepoints _ _ _ _ _ _ H).
  - rewrite (ts_saves _ _ _ _ H), (ts_undo _ _ _ _ H), length_fmap, fmap_app, filter_saves. done.
  - rewrite fmap_app. simpl. pose proof (ts_chain _ _ _ _ H) as Hc. apply chain_snoc in Hc as [H1 H2].
    assert (Hsub : sublist (filter (λ p, p.1 ≠ name) (saves sp)).*2 (saves sp).*2).
    { apply sublist_map, sublist_filter. }
    rewrite <- app_assoc. apply StronglySorted_app. split_and!.
    + intros x y Hx Hy. assert (y = changes sp) as ->.
      { apply elem_of_cons in Hy as [->|Hy%list_elem_of_singleton]; done. }
      rewrite Forall_forall in H2. apply H2. by eapply elem_of_sublist.
    + by eapply StronglySorted_sub.
    + apply chain_twice.
Qed.

Lemma release_sim W U sp s name pos saved :
  txn_sim W U sp s → find_savepoint name (saves sp) = Some (pos, saved) →
  ∃ s', release_savepoint name s = (s', Ok tt) ∧ t_id (mgr s') = t_id (mgr s) ∧
        txn_sim W U (mkSpec (changes sp) (take pos (saves sp) ++ drop (S pos) (saves sp))) s'.
Proof.
  intros H Hfind. unfold release_savepoint. rewrite (ts_active _ _ _ _ H). simpl.
  rewrite (ts_saves _ _ _ _ H), find_savepoint_fmap, Hfind. simpl.
  eexists. split; [done|]. split; [done|]. apply (sim_savepoints _ _ _ _ _ _ H).
  - by rewrite fmap_app, fmap_take, fmap_drop.
  - eapply StronglySorted_sub; [|apply H]. apply sublist_app; [|done]. apply sublist_map.
    rewrite <- (take_drop pos (saves sp)) at 3. apply sublist_app; [done|].
    replace (S pos) with (pos + 1)%nat by lia. rewrite <- drop_drop. apply sublist_drop.
Qed.

Lemma rollback_to_sim W U sp s name pos saved env :
  quiet env → txn_sim W U sp s → find_savepoint name (saves sp) = Some (pos, saved) →
  ∃ s', rollback_to_savepoint dir name env s =
          (s', Returned (Ok (reverse (undo_of (t_id (mgr s)) <$> drop (length saved) (changes sp))))) ∧
        t_id (mgr s') = t_id (mgr s) ∧ txn_sim W U (mkSpec saved (take (S pos) (saves sp))) s'.
Proof.
  intros (_ & _ & Er & Ew & _) H Hfind. pose proof (find_savepoint_lookup _ _ _ _ Hfind) as Hpos.
  destruct H as [Hact Hundo Hredo Hmarks Hsaves Hchain Hwid (R & HR & HW) Hoth Hfile].
  assert (Hpre : saved `prefix_of` changes sp).
  { apply chain_snoc in Hchain as [_ Hc]. rewrite Forall_forall in Hc. apply Hc.
    apply list_elem_of_fmap. exists (name, saved). split; [done|]. by eapply list_elem_of_lookup_2. }
  destruct Hpre as [undone Hch].
  unfold rollback_to_savepoint. rewrite Hact. cbn [negb]. rewrite Hsaves, find_savepoint_fmap, Hfind.
  cbn [fmap option_fmap option_map prod_map fst snd id t_id undo_log].
  assert (Etake : take (length saved) (undo_log (mgr s)) = undo_of (t_id (mgr s)) <$> saved).
  { by rewrite Hundo, Hch, fmap_app, take_app_length' by by rewrite length_fmap. }
  rewrite Er, Ew.
  destruct (on_undo_rewrite (t_id (mgr s)) (take (length saved) (undo_log (mgr s))) (io s) R _ HR Hfile)
    as (i & Ei & HR1 & HU1).
  { rewrite Etake. apply Forall_fmap. rewrite Hch in Hwid. apply Forall_app in Hwid as [Hwid _].
    eapply Forall_impl; [exact Hwid|]. intros c [_ Hc]. exact Hc. }
  rewrite Ei. eexists. split; [|split].
  - do 3 f_equal. by rewrite Hundo, <- fmap_drop.
  - done.
  - split; cbn [mgr io active t_id undo_log redo_ops redo_marks savepoints changes saves].
    + done.
    + exact Etake.
    + rewrite Hmarks, Hch, marks_keep, Hredo, Hch, fmap_app, concat_app. by rewrite take_app_length.
    + rewrite Hmarks, Hch. apply marks_take.
    + by rewrite fmap_take.
    + apply chain_snoc in Hchain as [Hc _]. rewrite fmap_take.
      rewrite (take_S_r _ _ saved) by (by rewrite list_lookup_fmap, Hpos).
      rewrite <- app_assoc.
      assert (Hc' : StronglySorted prefix (take pos (saves sp).*2 ++ [saved])).
      { rewrite <- take_S_r by (by rewrite list_lookup_fmap, Hpos).
        eapply StronglySorted_sub; [apply sublist_take|done]. }
      apply chain_snoc in Hc' as [H1 H2]. rewrite Forall_forall in H2. apply StronglySorted_app. split_and!.
      * intros x y Hx Hy. assert (y = saved) as ->.
        { apply elem_of_cons in Hy as [->|Hy%list_elem_of_singleton]; done. }
        by apply H2.
      * done.
      * apply chain_twice.
    + rewrite Hch in Hwid. by apply Forall_app in Hwid as [? _].
    + by exists R.
    + done.
    + rewrite Hundo, others_filter in HU1 by done. by rewrite Hundo.
Qed.

Definition txn_call_ok (txn_id : Z) (call : txn_call) : Prop :=
  match call with CallLog c => change_ok txn_id c | _ => True end.

#[export] Instance txn_call_ok_dec txn_id call : Decision (txn_call_ok txn_id call).
Proof. destruct call; simpl; apply _. Defined.

Lemma run_txn_call_sim W U sp s call env :
  quiet env → txn_call_ok (t_id (mgr s)) call → txn_sim W U sp s →
  let '(sp', r) := spec_call (t_id (mgr s)) call sp in
  ∃ s', run_txn_call call env s = (s', Returned r) ∧ t_id (mgr s') = t_id (mgr s) ∧ txn_sim W U sp' s'.
Proof.
  intros Hq Hok H. destruct call as [c|name|name|name]; simpl.
  - destruct (log_change_sim W U sp s c env) as (s' & E & Ht & H'); [done..|]. rewrite E. by exists s'.
  - destruct (savepoint_sim W U sp s name H) as (s' & E & Ht & H'). rewrite E. by exists s'.
  - destruct (find_savepoint name (saves sp)) as [[pos saved]|] eqn:Ef.
    + by apply rollback_to_sim.
    + exists s. split; [|done]. unfold rollback_to_savepoint.
      by rewrite (ts_active _ _ _ _ H), (ts_saves _ _ _ _ H), find_savepoint_fmap, Ef.
  - destruct (find_savepoint name (saves sp)) as [[pos saved]|] eqn:Ef.
    + destruct (release_sim W U sp s name pos saved H Ef) as (s' & E & Ht & H'). rewrite E. by exists s'.
    + exists s. split; [|done]. unfold release_savepoint.
      by rewrite (ts_active _ _ _ _ H), (ts_saves _ _ _ _ H), find_savepoint_fmap, Ef.
Qed.
End refinement.

(** ** Whole transactions *)

Section lifecycle.
Context (dir : list Z) (nl_parse : list Z → result Row).

(** No transaction is open, the logs hold the records [W] and the entries [U], and the id that BEGIN
    will take is new. *)
Record idle (W : list WalRecord) (U : list UndoEntry) (s : txn_state) : Prop := {
  id_inactive : active (mgr s) = false;
  id_saves : savepoints (mgr s) = [];
  id_wal : log_inv (wal_path dir) W (mkLog (io_files (io s)) (io_wal (io s)));
  id_undo : log_inv (undo_path dir) U (mkLog (io_files (io s)) (io_undo (io s)));
  id_fresh : Forall (λ r, txn_id r ≠ next_txn_id (io s)) W;
  id_fresh_undo : Forall (λ e, u_txn_id e ≠ next_txn_id (io s)) U
}.

Lemma begin_sim W U s active_ids :
  idle W U s →
  ∃ s', begin_with_snapshot active_ids s = (s', Ok (next_txn_id (io s))) ∧
        t_id (mgr s') = next_txn_id (io s) ∧ txn_sim dir nl_parse W U (mkSpec [] []) s'.
Proof.
  intros [Ha Hs HW HU Hf1 Hf2]. unfold begin_with_snapshot. rewrite Ha. simpl.
  eexists. split; [done|]. split; [done|]. split; simpl; try done.
  - repeat constructor.
  - exists W. split; [done|]. by rewrite filter_all.
  - by rewrite app_nil_r.
Qed.

Fixpoint run_txn_calls (calls : list (txn_call * txn_env)) (s : txn_state)
  : txn_state * list (outcome (result (list UndoEntry))) :=
  match calls with
  | [] => (s, [])
  | (call, env) :: calls =>
      let '(s, r) := run_txn_call dir nl_parse call env s in
      let '(s, rs) := run_txn_calls calls s in
      (s, r :: rs)
  end.

Fixpoint spec_calls (txn_id : Z) (calls : list (txn_call * txn_env)) (sp : spec)
  : spec * list (outcome (result (list UndoEntry))) :=
  match calls with
  | [] => (sp, [])
  | (call, _) :: calls =>
      let '(sp, r) := spec_call txn_id call sp in
      let '(sp, rs) := spec_calls txn_id calls sp in
      (sp, Returned r :: rs)
  end.

Definition calls_ok (txn_id : Z) (calls : list (txn_call * txn_env)) : Prop :=
  Forall (λ c, txn_call_ok txn_id c.1 ∧ quiet c.2) calls.

#[export] Instance calls_ok_dec txn_id calls : Decision (calls_ok txn_id calls).
Proof. unfold calls_ok. apply _. Defined.

Lemma run_txn_calls_sim W U calls sp s :
  calls_ok (t_id (mgr s)) calls → txn_sim dir nl_parse W U sp s →
  let '(sp', rs) := spec_calls (t_id (mgr s)) calls sp in
  ∃ s', run_txn_calls calls s = (s', rs) ∧ t_id (mgr s') = t_id (mgr s) ∧ txn_sim dir nl_parse W U sp' s'.
Proof.
  revert sp s. induction calls as [|[call env] calls IH]; intros sp s Hok H; simpl.
  { by exists s. }
  apply Forall_cons in Hok as [[Hc Hq] Hok]. simpl in Hc, Hq.
  pose proof (run_txn_call_sim dir nl_parse W U sp s call env Hq Hc H) as Hcall.
  destruct (spec_call (t_id (mgr s)) call sp) as [sp1 r]. destruct Hcall as (s1 & E1 & Ht & H1). rewrite E1.
  rewrite <- Ht in Hok. specialize (IH sp1 s1 Hok H1). rewrite Ht in IH.
  destruct (spec_calls (t_id (mgr s)) calls sp1) as [sp2 rs]. destruct IH as (s2 & E2 & Ht2 & H2).
  rewrite E2. exists s2. split_and!; [done|congruence|done].
Qed.

Lemma finalize_sim W U sp s env R :
  quiet env → txn_sim dir nl_parse W U sp s →
  log_inv (wal_path dir) R (mkLog (io_files (io s)) (io_wal (io s))) →
  filter (λ r, txn_id r ≠ t_id (mgr s)) R = W →
  ∃ s', commit_finalize dir env s = (s', Returned tt) ∧ mgr s' = cleared (mgr s) ∧
        log_inv (wal_path dir) W (mkLog (io_files (io s')) (io_wal (io s'))) ∧
        log_inv (undo_path dir) U (mkLog (io_files (io s')) (io_undo (io s'))).
Proof.
  intros (_ & _ & _ & _ & Q1 & Q2 & Q3 & Q4) H HR HW. unfold commit_finalize.
  destruct (on_wal_remove dir (t_id (mgr s)) (te_wal_rm env) (io s) R _ HR (ts_file _ _ _ _ _ _ H) Q1 Q2)
    as (i1 & E1 & HR1 & HU1).
  rewrite E1. cbn [t_id set_undo_log].
  destruct (on_undo_remove dir (t_id (mgr s)) (te_undo_rm env) i1 _ _ HR1 HU1 Q3 Q4) as (i2 & E2 & HR2 & HU2).
  rewrite E2. eexists. split; [reflexivity|]. split; [reflexivity|]. cbn [io]. rewrite HW in HR2. split; [done|].
  rewrite (ts_undo _ _ _ _ _ _ H), others_filter in HU2 by apply H. done.
Qed.

Lemma own_record_filter (txn : Z) R rec :
  txn_id rec = txn → filter (λ r, txn_id r ≠ txn) (R ++ [rec]) = filter (λ r, txn_id r ≠ txn) R.
Proof. intros E. rewrite filter_app, (filter_cons_False _ rec) by (intros H; by apply H). apply app_nil_r. Qed.

Lemma end_sim W U sp s env o :
  quiet env → in_u64 (t_id (mgr s)) → txn_sim dir nl_parse W U sp s →
  ∃ i, on_wal (wal_write (wal_path dir) (mkWalRecord o (t_id (mgr s)) [] [] []) (bool_decide (o = Commit)) NoFault)
         (io s) = (i, Ok tt) ∧
  ∃ s', commit_finalize dir env (mkState i (mgr s)) = (s', Returned tt) ∧ mgr s' = cleared (mgr s) ∧
        log_inv (wal_path dir) W (mkLog (io_files (io s')) (io_wal (io s'))) ∧
        log_inv (undo_path dir) U (mkLog (io_files (io s')) (io_undo (io s'))).
Proof.
  intros Hq Hid H. destruct (ts_wal _ _ _ _ _ _ H) as (R & HR & HW).
  destruct (on_wal_write dir (mkWalRecord o (t_id (mgr s)) [] [] []) (io s) R _ (bool_decide (o = Commit)) HR
    (ts_file _ _ _ _ _ _ H)) as (i & E & HR1 & HU1).
  { split_and!; [done|..]; simpl; widths. }
  exists i. split; [done|].
  assert (H1 : txn_sim dir nl_parse W U sp (mkState i (mgr s))).
  { destruct H. split; try done. eexists. split; [exact HR1|]. by rewrite own_record_filter. }
  eapply (finalize_sim W U sp (mkState i (mgr s))); [done|exact H1|exact HR1|]. by rewrite own_record_filter.
Qed.
End lifecycle.

(** ** Properties *)


(** A transaction that commits leaves nothing in the logs, and touches nobody else's records. From
    an idle manager: BEGIN, any such calls, COMMIT. COMMIT succeeds, the write-ahead log and the undo
    log hold exactly the records they held before BEGIN, in order, and the manager is idle again
    (no undo entry, savepoint, redo operation, snapshot or read left). *)
Theorem txn_commit_restores_logs dir nl_parse W U s0 active_ids calls env :
  idle dir W U s0 → in_u64 (next_txn_id (io s0)) → calls_ok (next_txn_id (io s0)) calls → quiet env →
  let '(s1, _) := begin_with_snapshot active_ids s0 in
  let '(s2, _) := run_txn_calls dir nl_parse calls s1 in
  let '(s3, r) := commit dir env s2 in
  r = Returned (Ok tt) ∧ mgr s3 = cleared (mgr s2) ∧
  read_all (wal_path dir) (mkLog (io_files (io s3)) (io_wal (io s3))) = W ∧
  undo_read_all (undo_path dir) (mkLog (io_files (io s3)) (io_undo (io s3))) = U.
Proof.
  intros Hidle Hid Hok Hq.
  destruct (begin_sim dir nl_parse W U s0 active_ids Hidle) as (s1 & -> & Ht & H1).
  rewrite <- Ht in Hok, Hid. pose proof (run_txn_calls_sim dir nl_parse W U calls _ s1 Hok H1) as H2.
  destruct (spec_calls _ calls _) as [sp expected]. destruct H2 as (s2 & -> & Ht2 & H2).
  rewrite <- Ht2 in Hid.
  destruct (end_sim dir nl_parse W U sp s2 env Commit Hq Hid H2) as (i & Ew & s3 & Ef & Hm & HW & HU).
  unfold commit. rewrite (ts_active _ _ _ _ _ _ H2). cbn [negb]. destruct Hq as (-> & _).
  unfold log_commit. change (bool_decide (Commit = Commit)) with true in Ew. rewrite Ew, Ef.
  split_and!; [done|done|by apply log_inv_read in HW|by apply log_inv_read in HU].
Qed.

(** ROLLBACK hands out the undo entries of the changes that were not already rolled back to a
    savepoint, newest first, and leaves the logs and the manager as COMMIT does. *)
Theorem txn_abort_returns_undo dir nl_parse W U s0 active_ids calls env :
  idle dir W U s0 → in_u64 (next_txn_id (io s0)) → calls_ok (next_txn_id (io s0)) calls → quiet env →
  let id := next_txn_id (io s0) in
  let '(s1, _) := begin_with_snapshot active_ids s0 in
  let '(s2, _) := run_txn_calls dir nl_parse calls s1 in
  let '(s3, r) := abort dir env s2 in
  r = Returned (Ok (reverse (undo_of id <$> changes (spec_calls id calls (mkSpec [] [])).1))) ∧
  mgr s3 = cleared (mgr s2) ∧
  read_all (wal_path dir) (mkLog (io_files (io s3)) (io_wal (io s3))) = W ∧
  undo_read_all (undo_path dir) (mkLog (io_files (io s3)) (io_undo (io s3))) = U.
Proof.
  intros Hidle Hid Hok Hq. cbv zeta.
  destruct (begin_sim dir nl_parse W U s0 active_ids Hidle) as (s1 & -> & Ht & H1).
  rewrite <- Ht in Hok, Hid |- *. pose proof (run_txn_calls_sim dir nl_parse W U calls _ s1 Hok H1) as H2.
  destruct (spec_calls _ calls _) as [sp expected]. destruct H2 as (s2 & -> & Ht2 & H2).
  rewrite <- Ht2 in Hid.
  destruct (end_sim dir nl_parse W U sp s2 env Rollback Hq Hid H2) as (i & Ew & s3 & Ef & Hm & HW & HU).
  unfold abort, rollback. rewrite (ts_active _ _ _ _ _ _ H2). cbn [negb]. destruct Hq as (-> & _).
  unfold log_rollback, append. change (bool_decide (Rollback = Commit)) with false in Ew. rewrite Ew, Ef.
  cbn [fst]. rewrite (ts_undo _ _ _ _ _ _ H2), Ht2.
  split_and!; [done|done|by apply log_inv_read in HW|by apply log_inv_read in HU].
Qed.

(** *** Witnesses *)

Definition good_env : txn_env :=
  mkTxnEnv NoFault (mkEnv true true true true true NoFault) NoFault (mkEnv true false true false true NoFault)
    true NoFault.
Definition wal_fault_env : txn_env :=
  mkTxnEnv (WriteFault 0) (te_wal_rm good_env) NoFault (te_undo_rm good_env) true NoFault.

Definition manager_start : TxnManager := mkTxn false 0 [] ReadCommitted None ∅ [] [] [] false.
Definition txn_start : txn_state :=
  mkState (mkIo ∅ (lg_slot log_start) (lg_slot log_start) 1) manager_start.

Definition demo_txn : list (txn_call * txn_env) :=
  (λ c, (c, good_env)) <$>
    [CallLog (CInsert (str "t") (str "1") (str "{}")); CallSavepoint (str "a");
     CallLog (CUpdate (str "t") (str "1") (str "{}") (str "{}") []); CallRollbackTo (str "a");
     CallLog (CDelete (str "t") (str "1") (str "{}")); CallRelease (str "b")].

Lemma txn_start_idle : idle (str "d") [] [] txn_start.
Proof. split; simpl; try done; by apply log_start_inv. Qed.


Lemma txn_commit_restores_logs_witness :
  let '(s1, _) := begin_with_snapshot ∅ txn_start in
  let '(s2, _) := run_txn_calls (str "d") (λ _, Err []) demo_txn s1 in
  let '(s3, r) := commit (str "d") good_env s2 in
  r = Returned (Ok tt) ∧ mgr s3 = cleared (mgr s2) ∧
  read_all (wal_path (str "d")) (mkLog (io_files (io s3)) (io_wal (io s3))) = [] ∧
  undo_read_all (undo_path (str "d")) (mkLog (io_files (io s3)) (io_undo (io s3))) = [].
Proof.
  apply (txn_commit_restores_logs (str "d") (λ _, Err []) [] [] txn_start ∅ demo_txn good_env txn_start_idle);
    apply (bool_decide_eq_true_1 _); by vm_compute.
Defined.

Lemma txn_abort_returns_undo_witness :
  let '(s1, _) := begin_with_snapshot ∅ txn_start in
  let '(s2, _) := run_txn_calls (str "d") (λ _, Err []) demo_txn s1 in
  let '(s3, r) := abort (str "d") good_env s2 in
  r = Returned (Ok (reverse (undo_of 1 <$> changes (spec_calls 1 demo_txn (mkSpec [] [])).1))) ∧
  mgr s3 = cleared (mgr s2) ∧
  read_all (wal_path (str "d")) (mkLog (io_files (io s3)) (io_wal (io s3))) = [] ∧
  undo_read_all (undo_path (str "d")) (mkLog (io_files (io s3)) (io_undo (io s3))) = [].
Proof.
  apply (txn_abort_returns_undo (str "d") (λ _, Err []) [] [] txn_start ∅ demo_txn good_env txn_start_idle);
    apply (bool_decide_eq_true_1 _); by vm_compute.
Defined.

(** A change whose WAL append fails leaves its redo operation and its mark behind, and the marks no
    longer line up with the undo log: after the statement has failed, a later ROLLBACK TO SAVEPOINT
    keeps the failed change's operation and drops that of a change that was made and kept. Here "2" is
    inserted with a failing WAL write, then "3"; a savepoint, "4", and ROLLBACK TO: the undo log rightly
    has "1" and "3", the redo operations that COMMIT will write are those of "1" and "2". *)
Theorem failed_log_shifts_redo :
  let dir := str "d" in
  let ins k := CallLog (CInsert (str "t") k (str "row " ++ k)) in
  let '(s1, _) := begin_with_snapshot ∅ txn_start in
  let '(s2, _) := run_txn_calls dir (λ _, Err [])
    [(ins (str "1"), good_env); (ins (str "2"), wal_fault_env); (ins (str "3"), good_env);
     (CallSavepoint (str "s"), good_env); (ins (str "4"), good_env); (CallRollbackTo (str "s"), good_env)] s1 in
  u_key <$> undo_log (mgr s2) = [str "1"; str "3"] ∧
  r_row_json <$> redo_ops (mgr s2) = [str "row 1"; str "row 2"].
Proof. by vm_compute. Qed.
