(* ===== verification/Recovery.v ===== *)
(** * Recovery from the redo log (src/engine/executor/executor_redo.cpp)

    [Executor::recover_from_redo]: the operations of the log that are newer than their table's file,
    first every version that was created, then every version that was killed, on top of the tables
    loaded from disk. The per-table index of row identities, the counters and the set of touched tables
    are the code's; the repair of the secondary indexes and the flush that follow are not modelled. *)
From S2P Require Import Prelude Codec Numerals RowJson Redo Snapshot.

(** ** The operations that count *)

(** The positions of the last TableFlushed marker of each table. *)
Fixpoint last_flush (i : nat) (ops : list RedoOp) (m : gmap (list Z) nat) : gmap (list Z) nat :=
  match ops with
  | [] => m
  | op :: ops =>
      last_flush (S i) ops (if bool_decide (r_kind op = TableFlushed) then <[r_table op := i]> m else m)
  end.

Fixpoint keep_ops (i : nat) (flushed : gmap (list Z) nat) (ops : list RedoOp) : list RedoOp :=
  match ops with
  | [] => []
  | op :: ops =>
      if bool_decide (r_kind op = TableFlushed) then keep_ops (S i) flushed ops
      else
        match flushed !! r_table op with
        | Some lf => if bool_decide (i < lf)%nat then keep_ops (S i) flushed ops
                     else op :: keep_ops (S i) flushed ops
        | None => op :: keep_ops (S i) flushed ops
        end
  end.

Definition kept_ops (ops : list RedoOp) : list RedoOp := keep_ops 0 (last_flush 0 ops ∅) ops.

(** ** Replay *)

Abbreviation Positions := (gmap (list Z) (list nat)).

Record replay_state := mkReplay {
  rs_tables : gmap (list Z) (list Row);
  rs_pos : gmap (list Z) Positions;
  rs_inserts_seen : gmap (list Z) nat;
  rs_kills_seen : gmap (list Z) nat;
  rs_kills_present : gmap (list Z) nat;
  rs_touched : gset (list Z)
}.

Section replay.
Context (nl_dump : list Z → result (list Z)).
Context (nl_parse : list Z → result Row).

(** The image of a version without its [_xmax]. *)
Definition version_identity (row : Row) : result (list Z) := row_to_json nl_dump (delete xmax_col row).

(** [for (i = 0; ...) m[version_identity(rows[i])].push_back(i);] *)
Fixpoint build_index (i : nat) (rows : list Row) (m : Positions) : result Positions :=
  match rows with
  | [] => Ok m
  | row :: rows =>
      match version_identity row with
      | Err e => Err e
      | Ok id => build_index (S i) rows (<[id := default [] (m !! id) ++ [i]]> m)
      end
  end.

(** ensure_index: [None] when the table no longer exists. *)
Definition ensure_index (table : list Z) (st : replay_state) : result (replay_state * option Positions) :=
  match rs_tables st !! table with
  | None => Ok (st, None)
  | Some rows =>
      match rs_pos st !! table with
      | Some m => Ok (st, Some m)
      | None =>
          match build_index 0 rows ∅ with
          | Err e => Err e
          | Ok m =>
              Ok (mkReplay (rs_tables st) (<[table := m]> (rs_pos st)) (rs_inserts_seen st) (rs_kills_seen st)
                    (rs_kills_present st) (rs_touched st), Some m)
          end
      end
  end.

Definition insert_key (table id : list Z) : list Z := table ++ [0] ++ id.
Definition kill_key (table id xmax : list Z) : list Z := table ++ [0] ++ id ++ [0] ++ xmax.

(** Phase 1: add the k-th logged copy of an image unless k copies are there. *)
Definition replay_insert (op : RedoOp) (st : replay_state) : result replay_state :=
  if negb (bool_decide (r_kind op = InsertVersion)) then Ok st
  else
    match ensure_index (r_table op) st with
    | Err e => Err e
    | Ok (st, None) => Ok st
    | Ok (st, Some idx) =>
        match row_from_json nl_parse (r_row_json op) with
        | Err _ => Ok st
        | Ok row =>
            match version_identity row with
            | Err _ => Ok st
            | Ok id =>
                let key := insert_key (r_table op) id in
                let k := S (default 0%nat (rs_inserts_seen st !! key)) in
                let seen := <[key := k]> (rs_inserts_seen st) in
                let at_ := default [] (idx !! id) in
                if bool_decide (k ≤ length at_)%nat
                then Ok (mkReplay (rs_tables st) (<[r_table op := <[id := at_]> idx]> (rs_pos st)) seen
                           (rs_kills_seen st) (rs_kills_present st) (rs_touched st))
                else
                  let rows := default [] (rs_tables st !! r_table op) in
                  Ok (mkReplay (<[r_table op := rows ++ [row]]> (rs_tables st))
                        (<[r_table op := <[id := at_ ++ [length rows]]> idx]> (rs_pos st)) seen
                        (rs_kills_seen st) (rs_kills_present st) ({[r_table op]} ∪ rs_touched st))
            end
        end
    end.

Definition is_alive (row : Row) : bool :=
  match row !! xmax_col with Some v => bool_decide (v = str "0") | None => true end.
Definition killed_by (xmax : list Z) (row : Row) : bool :=
  match row !! xmax_col with Some v => bool_decide (v = xmax) | None => false end.

(** The first position whose version is alive. *)
Fixpoint first_alive (rows : list Row) (ps : list nat) : option (nat * Row) :=
  match ps with
  | [] => None
  | p :: ps =>
      match rows !! p with
      | Some row => if is_alive row then Some (p, row) else first_alive rows ps
      | None => first_alive rows ps
      end
  end.

Definition count_killed (rows : list Row) (xmax : list Z) (ps : list nat) : nat :=
  length (filter (λ p, match rows !! p with Some row => killed_by xmax row | None => false end = true) ps).

(** Phase 2: stamp the k-th logged kill of an image by a transaction unless it killed k copies. *)
Definition replay_kill (op : RedoOp) (st : replay_state) : result replay_state :=
  if negb (bool_decide (r_kind op = SetXmax)) then Ok st
  else
    match ensure_index (r_table op) st with
    | Err e => Err e
    | Ok (st, None) => Ok st
    | Ok (st, Some idx) =>
        match row_from_json nl_parse (r_row_json op) with
        | Err _ => Ok st
        | Ok old =>
            match version_identity old with
            | Err _ => Ok st
            | Ok id =>
                match idx !! id with
                | None => Ok st
                | Some at_ =>
                    let rows := default [] (rs_tables st !! r_table op) in
                    let key := kill_key (r_table op) id (r_xmax op) in
                    let present := match rs_kills_present st !! key with
                                   | Some n => n
                                   | None => count_killed rows (r_xmax op) at_
                                   end in
                    let k := S (default 0%nat (rs_kills_seen st !! key)) in
                    let kills_seen := <[key := k]> (rs_kills_seen st) in
                    let kills_present := <[key := present]> (rs_kills_present st) in
                    if bool_decide (k ≤ present)%nat
                    then Ok (mkReplay (rs_tables st) (rs_pos st) (rs_inserts_seen st) kills_seen kills_present
                               (rs_touched st))
                    else
                      match first_alive rows at_ with
                      | None => Ok (mkReplay (rs_tables st) (rs_pos st) (rs_inserts_seen st) kills_seen
                                      kills_present (rs_touched st))
                      | Some (p, row) =>
                          Ok (mkReplay
                                (<[r_table op := <[p := <[xmax_col := r_xmax op]> row]> rows]> (rs_tables st))
                                (rs_pos st) (rs_inserts_seen st) kills_seen kills_present
                                ({[r_table op]} ∪ rs_touched st))
                      end
                end
            end
        end
    end.

Fixpoint replay_each (f : RedoOp → replay_state → result replay_state) (ops : list RedoOp) (st : replay_state)
  : result replay_state :=
  match ops with
  | [] => Ok st
  | op :: ops => match f op st with Ok st => replay_each f ops st | Err e => Err e end
  end.

(** The tables after the replay, and those it changed. *)
Definition replay (log : list RedoOp) (tables : gmap (list Z) (list Row)) : result replay_state :=
  let ops := kept_ops log in
  match replay_each replay_insert ops (mkReplay tables ∅ ∅ ∅ ∅ ∅) with
  | Err e => Err e
  | Ok st => replay_each replay_kill ops st
  end.

(** ** Reference: what a replay must leave *)

Definition has_id (id : list Z) (row : Row) : bool :=
  match version_identity row with Ok i => bool_decide (i = id) | Err _ => false end.

(** How many versions of that image the table has. *)
Definition count_id (id : list Z) (rows : list Row) : nat := length (filter (λ row, has_id id row = true) rows).

(** The identity of the version an operation of a given kind names. *)
Definition op_id (k : Kind) (op : RedoOp) : option (list Z) :=
  if bool_decide (r_kind op = k) then
    match row_from_json nl_parse (r_row_json op) with
    | Ok row => match version_identity row with Ok id => Some id | Err _ => None end
    | Err _ => None
    end
  else None.

(** How many copies of an image the operations create. *)
Definition logged_inserts (table id : list Z) (ops : list RedoOp) : nat :=
  length (filter (λ op, r_table op = table ∧ op_id InsertVersion op = Some id) ops).

(** How many kills of an image by a transaction. *)
Definition logged_kills (table id xmax : list Z) (ops : list RedoOp) : nat :=
  length (filter (λ op, r_table op = table ∧ op_id SetXmax op = Some id ∧ r_xmax op = xmax) ops).

(** ** Facts about the index *)

Fixpoint positions (i : nat) (id : list Z) (rows : list Row) : list nat :=
  match rows with
  | [] => []
  | row :: rows => (if has_id id row then [i] else []) ++ positions (S i) id rows
  end.

Lemma positions_app i id l l' :
  positions i id (l ++ l') = positions i id l ++ positions (i + length l) id l'.
Proof.
  revert i. induction l as [|row l IH]; intros i; simpl; [by rewrite Nat.add_0_r|].
  rewrite IH, <- app_assoc. do 3 f_equal. lia.
Qed.

Definition identified (rows : list Row) : Prop := Forall (λ row, ∃ id, version_identity row = Ok id) rows.

Lemma build_index_spec rows i m :
  identified rows →
  ∃ m', build_index i rows m = Ok m' ∧
        ∀ id, default [] (m' !! id) = default [] (m !! id) ++ positions i id rows.
Proof.
  intros H. revert i m. induction H as [|row rows [id0 Hid] _ IH]; intros i m; simpl.
  { exists m. split; [done|]. intros. by rewrite app_nil_r. }
  rewrite Hid. destruct (IH (S i) (<[id0:=default [] (m !! id0) ++ [i]]> m)) as (m' & E & Hm').
  exists m'. split; [done|]. intros id. rewrite Hm'. unfold has_id. rewrite Hid.
  destruct (decide (id0 = id)) as [->|Hne].
  - rewrite lookup_insert_eq, bool_decide_eq_true_2 by done. simpl. by rewrite <- app_assoc.
  - by rewrite lookup_insert_ne, bool_decide_eq_false_2.
Qed.

Lemma length_positions i id rows : length (positions i id rows) = count_id id rows.
Proof.
  unfold count_id. revert i. induction rows as [|row rows IH]; intros i; simpl; [done|].
  rewrite length_app, filter_cons, IH. destruct (has_id id row); by case_decide.
Qed.

(** A test of the rows at the positions of an identity, and the same test of the rows with it. *)
Lemma positions_filter (P : Row → bool) id pre rows :
  length (filter (λ p, match (pre ++ rows) !! p with Some row => P row | None => false end = true)
            (positions (length pre) id rows)) =
  length (filter (λ row, has_id id row = true ∧ P row = true) rows).
Proof.
  revert pre. induction rows as [|row rows IH]; intros pre; simpl; [done|].
  specialize (IH (pre ++ [row])). rewrite length_app, <- app_assoc in IH. simpl in IH.
  replace (length pre + 1)%nat with (S (length pre)) in IH by lia.
  rewrite filter_app, length_app, IH. rewrite (filter_cons _ row). clear IH.
  assert (El : (pre ++ row :: rows) !! length pre = Some row) by (by apply list_lookup_middle).
  destruct (has_id id row); [|rewrite (decide_False (P := _ ∧ _)) by (by intros []); done].
  rewrite filter_cons, filter_nil. case_decide as H1; case_decide as H2; rewrite El in H1; simpl; try done;
    exfalso; tauto.
Qed.

Definition killed (id xmax : list Z) (rows : list Row) : nat :=
  length (filter (λ row, has_id id row = true ∧ killed_by xmax row = true) rows).

Lemma count_killed_positions id xmax rows :
  count_killed rows xmax (positions 0 id rows) = killed id xmax rows.
Proof. apply (positions_filter (killed_by xmax) id [] rows). Qed.

Lemma first_alive_positions id pre rows :
  match first_alive (pre ++ rows) (positions (length pre) id rows) with
  | Some (p, row) => ∃ l l', rows = l ++ row :: l' ∧ p = (length pre + length l)%nat ∧
                             has_id id row = true ∧ is_alive row = true
  | None => Forall (λ row, has_id id row = true → is_alive row = false) rows
  end.
Proof.
  revert pre. induction rows as [|row rows IH]; intros pre; simpl; [done|].
  specialize (IH (pre ++ [row])). rewrite length_app, <- app_assoc in IH. simpl in IH.
  replace (length pre + 1)%nat with (S (length pre)) in IH by lia.
  assert (G : match first_alive (pre ++ row :: rows) (positions (S (length pre)) id rows) with
    | Some (p, row') => ∃ l l', row :: rows = (row :: l) ++ row' :: l' ∧ p = (length pre + S (length l))%nat ∧
                                has_id id row' = true ∧ is_alive row' = true
    | None => Forall (λ row, has_id id row = true → is_alive row = false) rows
    end).
  { destruct (first_alive _ _) as [[p row']|]; [|done]. destruct IH as (l & l' & -> & -> & ? & ?).
    exists l, l'. split_and!; try done. lia. }
  destruct (has_id id row) eqn:Ei; simpl.
  - rewrite list_lookup_middle by done. destruct (is_alive row) eqn:Ea.
    + exists [], rows. split_and!; try done.
    + destruct (first_alive _ _) as [[p row']|]; [|by constructor].
      destruct G as (l & l' & E & -> & ? & ?). by exists (row :: l), l'.
  - destruct (first_alive _ _) as [[p row']|]; [|by constructor; [congruence|]].
    destruct G as (l & l' & E & -> & ? & ?). by exists (row :: l), l'.
Qed.
(** ** The machine of the replay *)

Definition index_ok (st : replay_state) : Prop :=
  ∀ table m, rs_pos st !! table = Some m →
    ∃ rows, rs_tables st !! table = Some rows ∧ ∀ id, default [] (m !! id) = positions 0 id rows.

Definition tables_identified (T : gmap (list Z) (list Row)) : Prop := map_Forall (λ _, identified) T.

Definition machine_ok (st : replay_state) : Prop := index_ok st ∧ tables_identified (rs_tables st).

(** ensure_index changes nothing but the index, and gives the table's. *)
Lemma ensure_index_spec table st :
  machine_ok st →
  ∃ pos', let st' := mkReplay (rs_tables st) pos' (rs_inserts_seen st) (rs_kills_seen st) (rs_kills_present st)
                       (rs_touched st) in
    machine_ok st' ∧
    match rs_tables st !! table with
    | None => ensure_index table st = Ok (st', None)
    | Some rows => ∃ idx, ensure_index table st = Ok (st', Some idx) ∧ pos' !! table = Some idx ∧
                          ∀ id, default [] (idx !! id) = positions 0 id rows
    end.
Proof.
  intros [Hidx Hid]. unfold ensure_index. destruct (rs_tables st !! table) as [rows|] eqn:Et.
  - destruct (rs_pos st !! table) as [m|] eqn:Ep.
    + exists (rs_pos st). split; [by split|]. exists m. split; [by destruct st|]. split; [done|].
      destruct (Hidx _ _ Ep) as (rows' & Et' & Hm). by simplify_eq.
    + destruct (build_index_spec rows 0 ∅) as (m & -> & Hm); [by apply (Hid _ _ Et)|].
      exists (<[table := m]> (rs_pos st)). split.
      * split; [|done]. intros t m'. simpl. destruct (decide (t = table)) as [->|Hne].
        -- rewrite lookup_insert_eq. intros [= <-]. exists rows. split; [done|]. intros id. by rewrite Hm.
        -- rewrite lookup_insert_ne by done. apply Hidx.
      * exists m. split; [done|]. split; [by rewrite lookup_insert_eq|]. intros id. by rewrite Hm.
  - exists (rs_pos st). split; [by split|]. by destruct st.
Qed.

Definition rows_of (T : gmap (list Z) (list Row)) (table : list Z) : list Row := default [] (T !! table).

(** The only ways the two phases change the tables. *)
Inductive insert_effect (op : RedoOp) (st st' : replay_state) : Prop :=
  | insert_none :
      rs_tables st' = rs_tables st → rs_inserts_seen st' = rs_inserts_seen st →
      (∀ id, op_id InsertVersion op = Some id → rs_tables st !! r_table op = None) →
      insert_effect op st st'
  | insert_present id rows :
      op_id InsertVersion op = Some id → rs_tables st !! r_table op = Some rows →
      let k := S (default 0%nat (rs_inserts_seen st !! insert_key (r_table op) id)) in
      (k ≤ count_id id rows)%nat →
      rs_tables st' = rs_tables st →
      rs_inserts_seen st' = <[insert_key (r_table op) id := k]> (rs_inserts_seen st) →
      insert_effect op st st'
  | insert_added id rows row :
      op_id InsertVersion op = Some id → rs_tables st !! r_table op = Some rows →
      version_identity row = Ok id →
      let k := S (default 0%nat (rs_inserts_seen st !! insert_key (r_table op) id)) in
      (count_id id rows < k)%nat →
      rs_tables st' = <[r_table op := rows ++ [row]]> (rs_tables st) →
      rs_inserts_seen st' = <[insert_key (r_table op) id := k]> (rs_inserts_seen st) →
      insert_effect op st st'.

Lemma index_ok_update st t m rows' (T' := <[t := rows']> (rs_tables st)) pos' ins ks kp tc :
  index_ok st → pos' = <[t := m]> (rs_pos st) → (∀ id, default [] (m !! id) = positions 0 id rows') →
  index_ok (mkReplay T' pos' ins ks kp tc).
Proof.
  intros Hi -> Hm t' m'. simpl. unfold T'. destruct (decide (t' = t)) as [->|Hne].
  - rewrite !lookup_insert_eq. intros [= <-]. by exists rows'.
  - rewrite !lookup_insert_ne by done. apply Hi.
Qed.

Lemma replay_insert_effect op st :
  machine_ok st → ∃ st', replay_insert op st = Ok st' ∧ machine_ok st' ∧ insert_effect op st st' ∧
                         rs_kills_seen st' = rs_kills_seen st ∧ rs_kills_present st' = rs_kills_present st.
Proof.
  intros Hok. unfold replay_insert.
  destruct (bool_decide (r_kind op = InsertVersion)) eqn:Ek; simpl.
  2: { exists st. split_and!; try done. apply insert_none; [done..|]. intros id. unfold op_id. by rewrite Ek. }
  destruct (ensure_index_spec (r_table op) st Hok) as (pos' & Hok1 & He).
  set (st1 := mkReplay _ pos' _ _ _ _) in *.
  destruct (rs_tables st !! r_table op) as [rows|] eqn:Et.
  2: { rewrite He. exists st1. split_and!; try done. by apply insert_none. }
  destruct He as (idx & -> & Hpos & Hidx).
  destruct (row_from_json nl_parse (r_row_json op)) as [row|e] eqn:Er.
  2: { exists st1. split_and!; try done. apply insert_none; [done..|]. intros id. unfold op_id. by rewrite Ek, Er. }
  destruct (version_identity row) as [id|e] eqn:Ev.
  2: { exists st1. split_and!; try done. apply insert_none; [done..|]. intros id. unfold op_id. by rewrite Ek, Er, Ev. }
  assert (Eop : op_id InsertVersion op = Some id) by (unfold op_id; by rewrite Ek, Er, Ev). clear Ek.
  rewrite Hidx, length_positions. destruct Hok1 as [Hi1 Hid1].
  case_bool_decide as Hk; (eexists; split; [reflexivity|]; split; [|split; [|done]]).
  - split; [|done]. intros t m'. simpl. destruct (decide (t = r_table op)) as [->|Hne].
    + rewrite lookup_insert_eq. intros [= <-]. exists rows. split; [done|]. intros id'.
      destruct (decide (id' = id)) as [->|]; [by rewrite lookup_insert_eq|by rewrite lookup_insert_ne].
    + rewrite lookup_insert_ne by done. apply Hi1.
  - by apply (insert_present _ _ _ id rows).
  - cbn [rs_tables st1]. rewrite Et. simpl. split.
    + eapply (index_ok_update st1); [done|done|]. intros id'. rewrite positions_app. simpl.
      destruct (decide (id' = id)) as [->|Hne].
      * rewrite lookup_insert_eq. simpl. unfold has_id. by rewrite Ev, bool_decide_eq_true_2.
      * rewrite lookup_insert_ne, Hidx by done. unfold has_id. rewrite Ev, bool_decide_eq_false_2 by done.
        by rewrite app_nil_r.
    + simpl. apply map_Forall_insert_2; [|done]. apply Forall_app. split; [by apply (Hid1 _ _ Et)|].
      apply Forall_singleton. by exists id.
  - apply (insert_added _ _ _ id rows row); try done; cbn [rs_tables rs_inserts_seen st1] in *; [lia|by rewrite Et].
Qed.

Inductive kill_effect (op : RedoOp) (st st' : replay_state) : Prop :=
  | kill_none :
      rs_tables st' = rs_tables st → rs_kills_seen st' = rs_kills_seen st →
      rs_kills_present st' = rs_kills_present st →
      (∀ id rows, op_id SetXmax op = Some id → rs_tables st !! r_table op = Some rows → count_id id rows = 0%nat) →
      kill_effect op st st'
  | kill_some id rows present rows' :
      op_id SetXmax op = Some id → rs_tables st !! r_table op = Some rows →
      let key := kill_key (r_table op) id (r_xmax op) in
      let k := S (default 0%nat (rs_kills_seen st !! key)) in
      present = default (killed id (r_xmax op) rows) (rs_kills_present st !! key) →
      rs_tables st' = <[r_table op := rows']> (rs_tables st) →
      rs_kills_seen st' = <[key := k]> (rs_kills_seen st) →
      rs_kills_present st' = <[key := present]> (rs_kills_present st) →
      (rows' = rows ∧ ((k ≤ present)%nat ∨ Forall (λ row, has_id id row = true → is_alive row = false) rows)) ∨
      ((present < k)%nat ∧
       ∃ l row l', rows = l ++ row :: l' ∧ rows' = l ++ <[xmax_col := r_xmax op]> row :: l' ∧
                   has_id id row = true ∧ is_alive row = true) →
      kill_effect op st st'.

Lemma version_identity_stamp v row : version_identity (<[xmax_col := v]> row) = version_identity row.
Proof. unfold version_identity. by rewrite delete_insert_eq. Qed.

Lemma has_id_stamp id v row : has_id id (<[xmax_col := v]> row) = has_id id row.
Proof. unfold has_id. by rewrite version_identity_stamp. Qed.

Lemma positions_stamp i id l row l' v :
  positions i id (l ++ <[xmax_col := v]> row :: l') = positions i id (l ++ row :: l').
Proof. rewrite !positions_app. simpl. by rewrite has_id_stamp. Qed.

Lemma replay_kill_effect op st :
  machine_ok st → ∃ st', replay_kill op st = Ok st' ∧ machine_ok st' ∧ kill_effect op st st'.
Proof.
  intros Hok. unfold replay_kill.
  destruct (bool_decide (r_kind op = SetXmax)) eqn:Ek; simpl.
  2: { exists st. split_and!; try done. apply kill_none; [done..|]. intros id rows. unfold op_id. by rewrite Ek. }
  destruct (ensure_index_spec (r_table op) st Hok) as (pos' & Hok1 & He).
  set (st1 := mkReplay _ pos' _ _ _ _) in *.
  destruct (rs_tables st !! r_table op) as [rows|] eqn:Et.
  2: { rewrite He. exists st1. split_and!; try done. apply kill_none; [done..|]. congruence. }
  destruct He as (idx & -> & Hpos & Hidx).
  destruct (row_from_json nl_parse (r_row_json op)) as [row|e] eqn:Er.
  2: { exists st1. split_and!; try done. apply kill_none; [done..|]. intros id r. unfold op_id. by rewrite Ek, Er. }
  destruct (version_identity row) as [id|e] eqn:Ev.
  2: { exists st1. split_and!; try done. apply kill_none; [done..|]. intros id r. unfold op_id. by rewrite Ek, Er, Ev. }
  assert (Eop : op_id SetXmax op = Some id) by (unfold op_id; by rewrite Ek, Er, Ev). clear Ek.
  destruct (idx !! id) as [at_|] eqn:Eat.
  2: { exists st1. split_and!; try done. apply kill_none; [done..|]. intros id' rows' ? ?. simplify_eq.
       rewrite <- (length_positions 0), <- Hidx, Eat. done. }
  assert (at_ = positions 0 id rows) as -> by (rewrite <- Hidx, Eat; done).
  cbn [rs_tables rs_pos rs_inserts_seen rs_kills_seen rs_kills_present rs_touched st1].
  rewrite Et. change (default [] (Some rows)) with rows. rewrite count_killed_positions.
  set (present := match rs_kills_present st !! kill_key (r_table op) id (r_xmax op) with
                  | Some n => n | None => killed id (r_xmax op) rows end).
  assert (Epres : present = default (killed id (r_xmax op) rows) (rs_kills_present st !! kill_key (r_table op) id (r_xmax op)))
    by (unfold present; by destruct (rs_kills_present st !! _)).
  assert (Esame : rs_tables st = <[r_table op := rows]> (rs_tables st)) by by rewrite insert_id.
  pose proof (first_alive_positions id [] rows) as Hfa. simpl in Hfa.
  case_bool_decide as Hk; [|destruct (first_alive rows (positions 0 id rows)) as [[p row']|] eqn:Efa];
    (eexists; split; [reflexivity|]).
  - split; [by destruct Hok1|]. apply (kill_some _ _ _ id rows present rows); try done. left. split; [done|by left].
  - destruct Hfa as (l & l' & -> & -> & Hi & Ha). rewrite insert_mid.
    assert (Hrows : positions 0 id (l ++ row' :: l') = positions 0 id (l ++ <[xmax_col := r_xmax op]> row' :: l'))
      by by rewrite positions_stamp.
    split.
    + destruct Hok1 as [Hi1 Hid1]. split.
      * intros t m. simpl. destruct (decide (t = r_table op)) as [->|Hne].
        -- rewrite lookup_insert_eq, Hpos. intros [= <-].
           eexists. split; [done|]. intros id'. by rewrite positions_stamp, Hidx.
        -- rewrite lookup_insert_ne by done. apply Hi1.
      * simpl. apply map_Forall_insert_2; [|done]. pose proof (Hid1 _ _ Et) as Hall. simpl in Hall.
        apply Forall_app in Hall as [Ha1 Ha2]. apply Forall_cons in Ha2 as [[i Hi'] Ha2].
        apply Forall_app. split; [done|]. apply Forall_cons. split; [|done]. exists i.
        by rewrite version_identity_stamp.
    + apply (kill_some _ _ _ id (l ++ row' :: l') present (l ++ <[xmax_col := r_xmax op]> row' :: l')); try done.
      right. split; [lia|]. by exists l, row', l'.
  - split; [by destruct Hok1|]. apply (kill_some _ _ _ id rows present rows); try done. left. split; [done|by right].
Qed.
(** ** The counters' keys *)

Lemma insert_key_inj t t' id id' :
  0 ∉ t → 0 ∉ t' → insert_key t id = insert_key t' id' → t = t' ∧ id = id'.
Proof.
  intros Ht Ht' E. apply (f_equal split_nul) in E. unfold insert_key in E. simpl in E.
  rewrite !split_nul_app in E by done. by simplify_eq.
Qed.

Lemma split_last_nul (a b x y : list Z) : 0 ∉ x → 0 ∉ y → a ++ [0] ++ x = b ++ [0] ++ y → a = b ∧ x = y.
Proof.
  intros Hx Hy E. apply (f_equal (@rev Z)) in E. rewrite !rev_app_distr in E. simpl in E.
  rewrite <- !app_assoc in E. simpl in E. apply (f_equal split_nul) in E.
  rewrite !split_nul_app in E by by rewrite list_elem_of_In, <- in_rev, <- list_elem_of_In.
  injection E as E1 E2. apply (f_equal (@rev Z)) in E1, E2. by rewrite !rev_involutive in E1, E2.
Qed.

Lemma kill_key_inj t t' id id' x x' :
  0 ∉ t → 0 ∉ t' → 0 ∉ x → 0 ∉ x' → kill_key t id x = kill_key t' id' x' → t = t' ∧ id = id' ∧ x = x'.
Proof.
  intros Ht Ht' Hx Hx' E. change (insert_key t (id ++ [0] ++ x) = insert_key t' (id' ++ [0] ++ x')) in E.
  apply insert_key_inj in E as [-> E]; [|done..]. by apply split_last_nul in E as [-> ->].
Qed.

Lemma logged_inserts_snoc t id P op :
  logged_inserts t id (P ++ [op]) =
  (logged_inserts t id P + if decide (r_table op = t ∧ op_id InsertVersion op = Some id) then 1 else 0)%nat.
Proof. unfold logged_inserts. rewrite filter_app, length_app, filter_cons, filter_nil. by case_decide. Qed.

Lemma logged_kills_snoc t id x P op :
  logged_kills t id x (P ++ [op]) =
  (logged_kills t id x P +
   if decide (r_table op = t ∧ op_id SetXmax op = Some id ∧ r_xmax op = x) then 1 else 0)%nat.
Proof. unfold logged_kills. rewrite filter_app, length_app, filter_cons, filter_nil. by case_decide. Qed.

(** ** Phase 1 *)

Record inserts_inv (T0 : gmap (list Z) (list Row)) (P : list RedoOp) (st : replay_state) : Prop := {
  ii_ok : machine_ok st;
  ii_dom t : is_Some (rs_tables st !! t) ↔ is_Some (T0 !! t);
  ii_seen t id : 0 ∉ t → is_Some (T0 !! t) →
    default 0%nat (rs_inserts_seen st !! insert_key t id) = logged_inserts t id P;
  ii_count t id : 0 ∉ t → is_Some (T0 !! t) →
    count_id id (rows_of (rs_tables st) t) = Nat.max (count_id id (rows_of T0 t)) (logged_inserts t id P);
  ii_same : rs_tables st = T0 ∨
    ∃ t id, (0 ∉ t) ∧ is_Some (T0 !! t) ∧ (count_id id (rows_of T0 t) < logged_inserts t id P)%nat;
  ii_kills : rs_kills_seen st = ∅ ∧ rs_kills_present st = ∅
}.

Lemma count_id_snoc id rows row :
  count_id id (rows ++ [row]) = (count_id id rows + if has_id id row then 1 else 0)%nat.
Proof.
  unfold count_id. rewrite filter_app, length_app, filter_cons, filter_nil. by destruct (has_id id row); case_decide.
Qed.

Lemma has_id_eq row id id' : version_identity row = Ok id → has_id id' row = bool_decide (id = id').
Proof. intros E. unfold has_id. by rewrite E. Qed.

Lemma rows_of_insert (T : gmap (list Z) (list Row)) t t' rows :
  rows_of (<[t := rows]> T) t' = if decide (t = t') then rows else rows_of T t'.
Proof. unfold rows_of. case_decide; subst; [by rewrite lookup_insert_eq|by rewrite lookup_insert_ne]. Qed.

Lemma insert_step_inv T0 P st st' op :
  inserts_inv T0 P st → 0 ∉ r_table op → machine_ok st' → insert_effect op st st' →
  rs_kills_seen st' = rs_kills_seen st → rs_kills_present st' = rs_kills_present st →
  inserts_inv T0 (P ++ [op]) st'.
Proof.
  intros [Hok Hdom Hseen Hcount Hsame Hkills] Hnul Hok' He E1 E2.
  assert (Hmono : ∀ t id, (logged_inserts t id P ≤ logged_inserts t id (P ++ [op]))%nat)
    by (intros; rewrite logged_inserts_snoc; lia).
  assert (Hsame' : rs_tables st = T0 ∨ ∃ t id, (0 ∉ t) ∧ is_Some (T0 !! t) ∧
            (count_id id (rows_of T0 t) < logged_inserts t id (P ++ [op]))%nat).
  { destruct Hsame as [->|(t & id & ? & ? & ?)]; [by left|]. right. exists t, id. split_and!; try done.
    specialize (Hmono t id). lia. }
  destruct He as [Et Es Hno|id rows Hid Ht k Hk Et Es|id rows row Hid Ht Hrow k Hk Et Es].
  - assert (Hsn : ∀ t id, is_Some (T0 !! t) → logged_inserts t id (P ++ [op]) = logged_inserts t id P).
    { intros t id Hs. rewrite logged_inserts_snoc, decide_False; [lia|]. intros [<- Hi].
      apply Hdom in Hs. rewrite (Hno _ Hi) in Hs. by destruct Hs. }
    split; rewrite ?Et, ?Es, ?E1, ?E2; try done; intros; rewrite Hsn by done; auto.
  - assert (Hs0 : is_Some (T0 !! r_table op)) by (apply Hdom; by rewrite Ht).
    assert (Hk' : k = S (logged_inserts (r_table op) id P)) by (unfold k; by rewrite Hseen).
    assert (Hr : rows_of (rs_tables st) (r_table op) = rows) by (unfold rows_of; by rewrite Ht).
    split; rewrite ?Et, ?Es, ?E1, ?E2; try done.
    + intros t i Hn Hs. rewrite logged_inserts_snoc. case_decide as Hd.
      * destruct Hd as [<- Hi]. assert (i = id) as -> by congruence. rewrite lookup_insert_eq. simpl. lia.
      * rewrite lookup_insert_ne, Hseen by (done || (intros E; apply insert_key_inj in E as [<- <-]; [tauto|done..])).
        lia.
    + intros t i Hn Hs. rewrite logged_inserts_snoc, Hcount by done. case_decide as Hd; [|lia].
      destruct Hd as [<- Hi]. assert (i = id) as -> by congruence. pose proof (Hcount (r_table op) id Hn Hs) as Hc.
      rewrite Hr in Hc. lia.
  - assert (Hs0 : is_Some (T0 !! r_table op)) by (apply Hdom; by rewrite Ht).
    assert (Hk' : k = S (logged_inserts (r_table op) id P)) by (unfold k; by rewrite Hseen).
    assert (Hr : rows_of (rs_tables st) (r_table op) = rows) by (unfold rows_of; by rewrite Ht).
    pose proof (Hcount (r_table op) id Hnul Hs0) as Hc. rewrite Hr in Hc.
    assert (Hlog : logged_inserts (r_table op) id (P ++ [op]) = S (logged_inserts (r_table op) id P)).
    { rewrite logged_inserts_snoc, decide_True by done. lia. }
    split; rewrite ?Et, ?Es, ?E1, ?E2; try done.
    + intros t. rewrite <- Hdom. destruct (decide (t = r_table op)) as [->|]; [|by rewrite lookup_insert_ne].
      rewrite lookup_insert_eq, Ht. by split; eauto.
    + intros t i Hn Hs. rewrite logged_inserts_snoc. case_decide as Hd.
      * destruct Hd as [<- Hi]. assert (i = id) as -> by congruence. rewrite lookup_insert_eq. simpl. lia.
      * rewrite lookup_insert_ne, Hseen by (done || (intros E; apply insert_key_inj in E as [<- <-]; [tauto|done..])).
        lia.
    + intros t i Hn Hs. rewrite logged_inserts_snoc, rows_of_insert. case_decide as Ht'; [subst t|].
      * rewrite count_id_snoc, (has_id_eq _ id) by done.
        pose proof (Hcount (r_table op) i Hnul Hs0) as Hci. rewrite Hr in Hci. case_bool_decide as Hii; [subst i; rewrite decide_True by done|
          rewrite decide_False by (intros [_ ?]; congruence)]; lia.
      * rewrite Hcount, decide_False by (done || (intros [? _]; congruence)). lia.
    + right. exists (r_table op), id. split_and!; [done..|]. lia.
Qed.

Definition op_fine (op : RedoOp) : Prop := (0 ∉ r_table op) ∧ (0 ∉ r_xmax op) ∧ r_xmax op ≠ str "0".

Lemma replay_inserts_inv T0 ops P st :
  Forall op_fine ops → inserts_inv T0 P st →
  ∃ st', replay_each replay_insert ops st = Ok st' ∧ inserts_inv T0 (P ++ ops) st'.
Proof.
  intros Hf. revert P st. induction Hf as [|op ops Hop Hf IH]; intros P st Hi; simpl.
  { exists st. by rewrite app_nil_r. }
  destruct (replay_insert_effect op st (ii_ok _ _ _ Hi)) as (st1 & E & Hok1 & He & H1 & H2). rewrite E.
  destruct (IH (P ++ [op]) st1) as (st2 & E2 & Hi2).
  { eapply insert_step_inv; [done|apply Hop|done..]. }
  exists st2. split; [done|]. by rewrite <- app_assoc in Hi2.
Qed.

Lemma inserts_start T0 : tables_identified T0 → inserts_inv T0 [] (mkReplay T0 ∅ ∅ ∅ ∅ ∅).
Proof.
  intros H. split; simpl; try done.
  - intros. unfold logged_inserts. simpl. lia.
  - by left.
Qed.

(** ** Phase 2 *)

Definition none_alive (id : list Z) (rows : list Row) : Prop :=
  Forall (λ row, has_id id row = true → is_alive row = false) rows.

(** Enough copies are killed by the transaction, or there is no copy left to kill. *)
Definition kills_done (T : gmap (list Z) (list Row)) (ops : list RedoOp) (t id x : list Z) : Prop :=
  (logged_kills t id x ops ≤ killed id x (rows_of T t))%nat ∨ none_alive id (rows_of T t).

(** Nothing has been stamped, and the counts of killed copies are those of [T0]. *)
Definition unchanged (T0 : gmap (list Z) (list Row)) (st : replay_state) : Prop :=
  rs_tables st = T0 ∧
  ∀ t id x n, 0 ∉ t → 0 ∉ x → rs_kills_present st !! kill_key t id x = Some n → n = killed id x (rows_of T0 t).

(** Some logged kill had not been applied to [T0], and had a copy to kill. *)
Definition kills_needed (T0 : gmap (list Z) (list Row)) (P : list RedoOp) : Prop :=
  ∃ t id x, (0 ∉ t) ∧ (0 ∉ x) ∧ x ≠ str "0" ∧ is_Some (T0 !! t) ∧
    (killed id x (rows_of T0 t) < logged_kills t id x P)%nat ∧ ¬ none_alive id (rows_of T0 t).

Record kills_inv (T0 : gmap (list Z) (list Row)) (P : list RedoOp) (st : replay_state) : Prop := {
  ki_ok : machine_ok st;
  ki_dom t : is_Some (rs_tables st !! t) ↔ is_Some (T0 !! t);
  ki_count t id : count_id id (rows_of (rs_tables st) t) = count_id id (rows_of T0 t);
  ki_seen t id x : 0 ∉ t → 0 ∉ x →
    (default 0 (rs_kills_seen st !! kill_key t id x) ≤ logged_kills t id x P)%nat;
  ki_seen_all t id x : 0 ∉ t → 0 ∉ x → is_Some (T0 !! t) → count_id id (rows_of T0 t) ≠ 0%nat →
    default 0%nat (rs_kills_seen st !! kill_key t id x) = logged_kills t id x P;
  ki_present t id x n : 0 ∉ t → 0 ∉ x → x ≠ str "0" → rs_kills_present st !! kill_key t id x = Some n →
    (n ≤ killed id x (rows_of (rs_tables st) t))%nat;
  ki_done t id x : 0 ∉ t → 0 ∉ x → x ≠ str "0" → is_Some (T0 !! t) → kills_done (rs_tables st) P t id x;
  ki_same : unchanged T0 st ∨ kills_needed T0 P
}.

Lemma killed_app id x l l' : killed id x (l ++ l') = (killed id x l + killed id x l')%nat.
Proof. unfold killed. by rewrite filter_app, length_app. Qed.

Lemma killed_cons id x row l :
  killed id x (row :: l) = ((if has_id id row && killed_by x row then 1 else 0) + killed id x l)%nat.
Proof.
  unfold killed. rewrite filter_cons.
  by destruct (has_id id row), (killed_by x row).
Qed.

Lemma alive_not_killed x row : x ≠ str "0" → is_alive row = true → killed_by x row = false.
Proof.
  unfold is_alive, killed_by. intros Hx. destruct (row !! xmax_col) as [v|]; [|done].
  rewrite bool_decide_eq_true, bool_decide_eq_false. congruence.
Qed.

Lemma killed_by_stamp x x' row : killed_by x (<[xmax_col := x']> row) = bool_decide (x' = x).
Proof. unfold killed_by. by rewrite lookup_insert_eq. Qed.

(** Stamping one alive copy. *)
Lemma killed_stamp id id' x x' l row l' :
  has_id id row = true → is_alive row = true → x' ≠ str "0" →
  killed id' x' (l ++ <[xmax_col := x]> row :: l') =
  (killed id' x' (l ++ row :: l') + if bool_decide (id' = id ∧ x' = x) then 1 else 0)%nat.
Proof.
  intros Hi Ha Hx. rewrite !killed_app, !killed_cons, has_id_stamp, killed_by_stamp, (alive_not_killed x' row) by done.
  assert (Hii : has_id id' row = bool_decide (id' = id)).
  { unfold has_id in *. destruct (version_identity row) as [i|]; [|done]. apply bool_decide_eq_true in Hi as ->.
    apply bool_decide_ext. naive_solver. }
  rewrite Hii. repeat case_bool_decide; simpl; try lia; exfalso; intuition congruence.
Qed.

Lemma none_alive_stamp id' x l row l' :
  none_alive id' (l ++ row :: l') → x ≠ str "0" → none_alive id' (l ++ <[xmax_col := x]> row :: l').
Proof.
  unfold none_alive. rewrite !Forall_app, !Forall_cons. intros (H1 & H2 & H3) Hx. split_and!; [done| |done].
  intros _. unfold is_alive. rewrite lookup_insert_eq. by apply bool_decide_eq_false.
Qed.

Lemma count_id_stamp id x l row l' : count_id id (l ++ <[xmax_col := x]> row :: l') = count_id id (l ++ row :: l').
Proof. rewrite <- !(length_positions 0). by rewrite positions_stamp. Qed.

Lemma count_id_none id rows : count_id id rows = 0%nat → none_alive id rows.
Proof.
  unfold count_id. intros H%nil_length_inv. apply Forall_forall. intros row Hrow Hid.
  assert (Hin : row ∈ filter (λ row, has_id id row = true) rows) by by apply list_elem_of_filter.
  rewrite H in Hin. by apply elem_of_nil in Hin.
Qed.

Lemma logged_kills_mono t id x P op : (logged_kills t id x P ≤ logged_kills t id x (P ++ [op]))%nat.
Proof. rewrite logged_kills_snoc. lia. Qed.

(** Whatever an operation does, what it says about other tables, images and transactions is
    unchanged. *)
Lemma logged_kills_other t id x P op :
  ¬ (r_table op = t ∧ op_id SetXmax op = Some id ∧ r_xmax op = x) →
  logged_kills t id x (P ++ [op]) = logged_kills t id x P.
Proof. intros H. rewrite logged_kills_snoc, decide_False by done. lia. Qed.

Lemma kills_needed_mono T0 P op : kills_needed T0 P → kills_needed T0 (P ++ [op]).
Proof.
  intros (t & id & x & ? & ? & ? & ? & Hlt & ?). exists t, id, x. split_and!; try done.
  pose proof (logged_kills_mono t id x P op). lia.
Qed.

Lemma kill_none_inv T0 P st st' op :
  kills_inv T0 P st → machine_ok st' →
  rs_tables st' = rs_tables st → rs_kills_seen st' = rs_kills_seen st → rs_kills_present st' = rs_kills_present st →
  (∀ id rows, op_id SetXmax op = Some id → rs_tables st !! r_table op = Some rows → count_id id rows = 0%nat) →
  kills_inv T0 (P ++ [op]) st'.
Proof.
  intros [Hok Hdom Hcount Hseen Hall Hpres Hdone Hsame] Hok' Et Es Ep Hno.
  assert (Hz : ∀ t id, op_id SetXmax op = Some id → r_table op = t → is_Some (T0 !! t) →
                       count_id id (rows_of T0 t) = 0%nat).
  { intros t id Hi <- Hs. apply Hdom in Hs as [rows Hr]. rewrite <- Hcount. unfold rows_of. rewrite Hr.
    by apply (Hno id rows). }
  split; rewrite ?Et, ?Es, ?Ep; try done.
  - intros t id x Ht Hx. specialize (Hseen t id x Ht Hx). pose proof (logged_kills_mono t id x P op). lia.
  - intros t id x Ht Hx Hs Hc. rewrite logged_kills_other; [by apply Hall|]. intros (Htab & Hi & _).
    by apply Hc, (Hz t id).
  - intros t id x Ht Hx Hne Hs. destruct (decide (r_table op = t ∧ op_id SetXmax op = Some id ∧ r_xmax op = x)) as [Hd|Hd].
    + right. apply count_id_none. rewrite Hcount. destruct Hd as (Htab & Hi & _). by apply (Hz t id).
    + destruct (Hdone t id x Ht Hx Hne Hs) as [?|?]; [left|by right]. by rewrite logged_kills_other.
  - destruct Hsame as [[H1 H2]|H]; [left; split; rewrite ?Et, ?Ep; done|right; by apply kills_needed_mono].
Qed.

Section kill_step.
Context (T0 : gmap (list Z) (list Row)) (P : list RedoOp) (st st' : replay_state) (op : RedoOp).
Context (id : list Z) (rows rows' : list Row) (present : nat).
Context (Hinv : kills_inv T0 P st) (Hok' : machine_ok st') (Hfine : op_fine op).
Context (Hid : op_id SetXmax op = Some id) (Ht : rs_tables st !! r_table op = Some rows).
Let key := kill_key (r_table op) id (r_xmax op).
Let k := S (default 0%nat (rs_kills_seen st !! key)).
Context (Hpr : present = default (killed id (r_xmax op) rows) (rs_kills_present st !! key)).
Context (Et : rs_tables st' = <[r_table op := rows']> (rs_tables st)).
Context (Es : rs_kills_seen st' = <[key := k]> (rs_kills_seen st)).
Context (Ep : rs_kills_present st' = <[key := present]> (rs_kills_present st)).

Lemma kill_rows : rows_of (rs_tables st) (r_table op) = rows.
Proof. unfold rows_of. by rewrite Ht. Qed.

Lemma kill_table_exists : is_Some (T0 !! r_table op).
Proof. apply (ki_dom _ _ _ Hinv). by rewrite Ht. Qed.

Lemma kill_key_other t i x :
  0 ∉ t → 0 ∉ x → ¬ (r_table op = t ∧ op_id SetXmax op = Some i ∧ r_xmax op = x) → kill_key t i x ≠ key.
Proof.
  intros Hn Hx Hd E. destruct Hfine as (F1 & F2 & _). apply kill_key_inj in E as (-> & -> & ->); [tauto|done..].
Qed.

Lemma kill_logged : logged_kills (r_table op) id (r_xmax op) (P ++ [op]) = S (logged_kills (r_table op) id (r_xmax op) P).
Proof. rewrite logged_kills_snoc, decide_True by done. lia. Qed.

Lemma kill_k_le : (k ≤ logged_kills (r_table op) id (r_xmax op) (P ++ [op]))%nat.
Proof.
  destruct Hfine as (F1 & F2 & _). rewrite kill_logged. unfold k, key.
  pose proof (ki_seen _ _ _ Hinv (r_table op) id (r_xmax op) F1 F2). lia.
Qed.

Lemma kill_present : (present ≤ killed id (r_xmax op) rows)%nat.
Proof.
  destruct Hfine as (F1 & F2 & F3). rewrite Hpr. destruct (rs_kills_present st !! key) as [n|] eqn:E; simpl; [|done].
  pose proof (ki_present _ _ _ Hinv _ _ _ _ F1 F2 F3 E) as H1. by rewrite kill_rows in H1.
Qed.

Lemma kill_present_unchanged : unchanged T0 st → present = killed id (r_xmax op) (rows_of T0 (r_table op)).
Proof.
  destruct Hfine as (F1 & F2 & F3). intros [HT Hn]. rewrite Hpr.
  destruct (rs_kills_present st !! key) as [n|] eqn:E; simpl; [by apply Hn|]. by rewrite <- HT, kill_rows.
Qed.

(** A step that stamps while nothing had been stamped applies a kill that was needed. *)
Lemma kill_same_step :
  (rows' = rows ∨ (present < k)%nat ∧ ¬ none_alive id rows) → unchanged T0 st' ∨ kills_needed T0 (P ++ [op]).
Proof.
  intros Hchange. pose proof kill_rows as Hr. pose proof kill_k_le as Hkl.
  destruct (ki_same _ _ _ Hinv) as [Hun|Hneed]; [|right; by apply kills_needed_mono].
  pose proof (kill_present_unchanged Hun) as Hp. destruct Hun as [HT Hn], Hfine as (F1 & F2 & F3).
  destruct Hchange as [Heq|[Hlt Hal]].
  - left. split; [rewrite Et, Heq, <- HT; by rewrite insert_id|].
    intros t i x n Ht0 Hx. rewrite Ep. destruct (decide (kill_key t i x = key)) as [E|E].
    + rewrite E, lookup_insert_eq. intros [= <-]. by apply kill_key_inj in E as (-> & -> & ->).
    + rewrite lookup_insert_ne by done. by apply Hn.
  - right. exists (r_table op), id, (r_xmax op). split_and!; try done.
    + apply kill_table_exists.
    + lia.
    + by rewrite <- HT, Hr.
Qed.

(** What a step keeps, once it is known how it changed the counts of one table. *)
Lemma kill_step_inv :
  (∀ i x, x ≠ str "0" → (killed i x rows ≤ killed i x rows')%nat) →
  (∀ i, none_alive i rows → none_alive i rows') →
  (∀ i, count_id i rows' = count_id i rows) →
  ((k ≤ killed id (r_xmax op) rows')%nat ∨ none_alive id rows') →
  (rows' = rows ∨ (present < k)%nat ∧ ¬ none_alive id rows) →
  kills_inv T0 (P ++ [op]) st'.
Proof.
  intros Hle Hna Hc Hdone' Hchange. pose proof (kill_same_step Hchange) as Hsame.
  pose proof kill_rows as Hr. pose proof kill_table_exists as Hs0. pose proof kill_present as Hp.
  destruct Hfine as (F1 & F2 & F3). pose proof Hinv as [Hok Hdom Hcount Hseen Hall Hpres Hdone _].
  assert (Hrows : ∀ t, rows_of (rs_tables st') t = if decide (r_table op = t) then rows' else rows_of (rs_tables st) t)
    by (intros; rewrite Et; apply rows_of_insert).
  split; try done.
  - intros t. rewrite Et, <- Hdom. destruct (decide (t = r_table op)) as [->|]; [|by rewrite lookup_insert_ne].
    rewrite lookup_insert_eq, Ht. split; eauto.
  - intros t i. rewrite Hrows. case_decide as E; [|done]. by rewrite Hc, <- Hcount, <- E, Hr.
  - intros t i x Hn Hx. rewrite Es.
    destruct (decide (r_table op = t ∧ op_id SetXmax op = Some i ∧ r_xmax op = x)) as [Hd|Hd].
    + destruct Hd as (<- & Hi & <-). assert (i = id) as -> by congruence. rewrite lookup_insert_eq. apply kill_k_le.
    + rewrite lookup_insert_ne, logged_kills_other by (done || by apply not_eq_sym, kill_key_other). auto.
  - intros t i x Hn Hx Hs Hci. rewrite Es.
    destruct (decide (r_table op = t ∧ op_id SetXmax op = Some i ∧ r_xmax op = x)) as [Hd|Hd].
    + destruct Hd as (<- & Hi & <-). assert (i = id) as -> by congruence. rewrite lookup_insert_eq, kill_logged.
      simpl. unfold k, key. by rewrite Hall.
    + rewrite lookup_insert_ne, logged_kills_other by (done || by apply not_eq_sym, kill_key_other). auto.
  - intros t i x n Hn Hx Hx0. rewrite Ep, Hrows.
    destruct (decide (kill_key t i x = key)) as [E|E].
    + rewrite E, lookup_insert_eq. intros [= <-]. apply kill_key_inj in E as (-> & -> & ->); [|done..].
      rewrite decide_True by done. etransitivity; [exact Hp|auto].
    + rewrite lookup_insert_ne by done. intros Hpn. specialize (Hpres t i x n Hn Hx Hx0 Hpn).
      case_decide as Ett; [|done]. rewrite <- Ett, Hr in Hpres. etransitivity; [exact Hpres|auto].
  - intros t i x Hn Hx Hx0 Hs. unfold kills_done. rewrite Hrows.
    destruct (decide (r_table op = t ∧ op_id SetXmax op = Some i ∧ r_xmax op = x)) as [Hd|Hd].
    + destruct Hd as (<- & Hi & <-). assert (i = id) as -> by congruence. rewrite decide_True by done.
      destruct (decide (count_id id rows = 0%nat)) as [Hz|Hz]; [right; by apply Hna, count_id_none|].
      destruct Hdone' as [Hk|Hk]; [left|by right].
      rewrite kill_logged, <- (Hall _ id _ F1 F2 Hs); [exact Hk|]. by rewrite <- Hcount, Hr.
    + rewrite logged_kills_other by done. destruct (Hdone t i x Hn Hx Hx0 Hs) as [H|H].
      * left. case_decide as Ett; [|done]. rewrite <- Ett, Hr in H. rewrite <- Ett. etransitivity; [exact H|auto].
      * right. case_decide as Ett; [|done]. rewrite <- Ett, Hr in H. by apply Hna.
Qed.
End kill_step.

Lemma kill_effect_inv T0 P st st' op :
  kills_inv T0 P st → op_fine op → machine_ok st' → kill_effect op st st' → kills_inv T0 (P ++ [op]) st'.
Proof.
  intros Hi Hf Hok' He. destruct He as [Et Es Ep Hno|id rows present rows' Hid Ht key k Hpr Et Es Ep Hcase].
  { by apply kill_none_inv with st. }
  pose proof Hf as (F1 & F2 & F3). pose proof (kill_rows st op rows Ht) as Hr.
  assert (Hk_le : (k ≤ S (logged_kills (r_table op) id (r_xmax op) P))%nat).
  { unfold k. pose proof (ki_seen _ _ _ Hi (r_table op) id (r_xmax op) F1 F2). unfold key. lia. }
  unfold k, key in Hk_le.
  apply (kill_step_inv T0 P st st' op id rows rows' present Hi Hok' Hf Hid Ht Hpr Et Es Ep);
    destruct Hcase as [[-> Hk]|[Hk (l & row & l' & Erows & -> & Hrow & Ha)]]; try done; try (by left);
    try rewrite Erows.
  - intros i x Hx. rewrite (killed_stamp id) by done. lia.
  - intros i H. by apply none_alive_stamp.
  - intros i. apply count_id_stamp.
  - destruct Hk as [Hk|Hk]; [left|by right].
    pose proof (kill_present T0 P st op id rows present Hi Hf Ht Hpr). unfold k, key in *. lia.
  - left. rewrite (killed_stamp id), bool_decide_eq_true_2 by done.
    assert (Hs : is_Some (T0 !! r_table op)) by (apply (ki_dom _ _ _ Hi); by rewrite Ht).
    destruct (ki_done _ _ _ Hi _ id _ F1 F2 F3 Hs) as [H|H]; rewrite Hr, Erows in H.
    + lia.
    + exfalso. unfold none_alive in H. rewrite Forall_app, Forall_cons in H. destruct H as (_ & H & _).
      by rewrite H in Ha.
  - right. split; [done|]. intros H. unfold none_alive in H. rewrite Forall_app, Forall_cons in H.
    destruct H as (_ & H & _). by rewrite H in Ha.
Qed.

Lemma replay_kills_inv T0 ops P st :
  Forall op_fine ops → kills_inv T0 P st →
  ∃ st', replay_each replay_kill ops st = Ok st' ∧ kills_inv T0 (P ++ ops) st'.
Proof.
  intros Hf. revert P st. induction Hf as [|op ops Hop Hf IH]; intros P st Hi; simpl.
  { exists st. by rewrite app_nil_r. }
  destruct (replay_kill_effect op st (ki_ok _ _ _ Hi)) as (st1 & E & Hok1 & He). rewrite E.
  destruct (IH (P ++ [op]) st1) as (st2 & E2 & Hi2); [by eapply kill_effect_inv|].
  exists st2. split; [done|]. by rewrite <- app_assoc in Hi2.
Qed.

Lemma kills_start T0 ops st : inserts_inv T0 ops st → kills_inv (rs_tables st) [] st.
Proof.
  intros [Hok _ _ _ _ [E1 E2]]. split; rewrite ?E1, ?E2; try done.
  - intros t id x _ _ _. left. unfold logged_kills. simpl. lia.
  - left. split; [done|]. intros t id x n _ _. rewrite E2. by rewrite lookup_empty.
Qed.

(** A replay from the tables [T0]: it succeeds, and what it leaves. *)
Lemma replay_spec log T0 :
  tables_identified T0 → Forall op_fine (kept_ops log) →
  ∃ st1 st, replay log T0 = Ok st ∧ inserts_inv T0 (kept_ops log) st1 ∧
            kills_inv (rs_tables st1) (kept_ops log) st.
Proof.
  intros HT Hf. unfold replay.
  destruct (replay_inserts_inv T0 (kept_ops log) [] _ Hf (inserts_start T0 HT)) as (st1 & E1 & H1).
  rewrite E1. destruct (replay_kills_inv (rs_tables st1) (kept_ops log) [] st1 Hf (kills_start _ _ _ H1)) as (st & E & H).
  by exists st1, st.
Qed.

(** ** Properties *)

(** C7: replaying the log is idempotent. Replaying it once more over the tables a replay has left
    changes nothing, not even the order of a row: a crash between the flush that follows a recovery (or
    a checkpoint) and the removal of the log is harmless. This holds with identical images in a table
    and for a log that kills more copies than the tables have. The texts of the log are assumed to be
    what the engine writes: no NUL in a table name or in a transaction id, and no kill by "0". *)
Theorem replay_idempotent log T0 :
  tables_identified T0 → Forall op_fine (kept_ops log) →
  ∃ st st', replay log T0 = Ok st ∧ replay log (rs_tables st) = Ok st' ∧ rs_tables st' = rs_tables st.
Proof.
  intros HT Hf. destruct (replay_spec log T0 HT Hf) as (st1 & st & E & H1 & H2).
  assert (HT' : tables_identified (rs_tables st)) by apply (ki_ok _ _ _ H2).
  destruct (replay_spec log (rs_tables st) HT' Hf) as (st1' & st' & E' & H1' & H2').
  exists st, st'. split_and!; [done..|].
  assert (E1 : rs_tables st1' = rs_tables st).
  { destruct (ii_same _ _ _ H1') as [?|(t & id & Ht & Hs & Hlt)]; [done|]. exfalso.
    assert (Hs0 : is_Some (T0 !! t)) by (apply (ii_dom _ _ _ H1), (ki_dom _ _ _ H2), Hs).
    rewrite (ki_count _ _ _ H2), (ii_count _ _ _ H1) in Hlt by done. lia. }
  destruct (ki_same _ _ _ H2') as [[? _]|(t & id & x & Ht & Hx & Hx0 & Hs & Hlt & Hna)]; [congruence|]. exfalso.
  rewrite E1 in Hs, Hlt, Hna. apply (ki_dom _ _ _ H2) in Hs.
  destruct (ki_done _ _ _ H2 t id x Ht Hx Hx0 Hs) as [Hd|Hd]; [lia|done].
Qed.

End replay.

Definition demo_log : list RedoOp :=
  [mkRedoOp InsertVersion (str "t") (str "{}") [];
   mkRedoOp TableFlushed (str "t") [] [];
   mkRedoOp InsertVersion (str "t") (str "{" ++ [34] ++ str "a" ++ [34; 58; 34] ++ str "1" ++ [34] ++ str "}") [];
   mkRedoOp InsertVersion (str "t") (str "{" ++ [34] ++ str "a" ++ [34; 58; 34] ++ str "1" ++ [34] ++ str "}") [];
   mkRedoOp SetXmax (str "t") (str "{" ++ [34] ++ str "a" ++ [34; 58; 34] ++ str "1" ++ [34] ++ str "}") (str "7")].
Definition demo_tables : gmap (list Z) (list Row) := {[str "t" := [{[str "a" := str "1"]}]]}.

Lemma demo_identified : tables_identified (λ _, Err []) demo_tables.
Proof.
  apply map_Forall_singleton. repeat constructor. eexists. by vm_compute.
Qed.

Lemma demo_fine : Forall op_fine (kept_ops demo_log).
Proof.
  vm_compute kept_ops. repeat (apply Forall_cons; split; [split_and!; apply (bool_decide_eq_true_1 _); by vm_compute|]).
  by apply Forall_nil.
Qed.

Lemma replay_idempotent_witness :
  ∃ st st', replay (λ _, Err []) (λ _, Err []) demo_log demo_tables = Ok st ∧
            replay (λ _, Err []) (λ _, Err []) demo_log (rs_tables st) = Ok st' ∧ rs_tables st' = rs_tables st.
Proof. apply (replay_idempotent _ _ demo_log demo_tables demo_identified demo_fine). Defined.

