(* ===== verification/Locks.v ===== *)
(** * The lock manager (engine/lock_manager.hpp, src/engine/lock_manager.cpp)

    Row locks with wait-for deadlock detection, gap locks and predicate reads. Every method runs under
    [mutex_], so a method is one step, except where it sleeps on [cv_]: a blocking call is
    [acquire_start], which returns or goes to sleep, followed by one [acquire_wake] per wake-up.

    [coll_key] is collation::key; [iter] is the iteration order of an unordered_set, which the standard
    library leaves open. *)
From S2P Require Import Prelude.

(** ** State *)

Inductive LockData : Type :=
  | Exclusive (holder : Z)
  | Shared (holders : gset Z).

Record LockEntry := mkEntry {
  le_data : LockData;
  le_shown : list Z
}.

Inductive LockResult : Type :=
  | Granted
  | Conflict (holder : Z)
  | Deadlock (holder : Z)
  | Timeout (holder : Z).

Record GapLockRow := mkGap {
  g_lo : option (list Z);
  g_hi : option (list Z);
  g_lo_inclusive : bool;
  g_hi_inclusive : bool;
  g_holder : Z
}.

Abbreviation row_id := (list Z * list Z)%type.

Record LockManager := mkLocks {
  row_locks : gmap row_id LockEntry;
  wait_for : gmap Z Z;
  deadlock_history : list (Z * Z);
  gap_locks : gmap (list Z) (list GapLockRow);
  predicate_reads : gmap (list Z) (list GapLockRow);
  predicate_violations : gset Z;
  waits : Z
}.

Definition no_locks : LockManager := mkLocks ∅ ∅ [] ∅ ∅ ∅ 0.

Definition set_row_locks (m : gmap row_id LockEntry) (s : LockManager) : LockManager :=
  mkLocks m (wait_for s) (deadlock_history s) (gap_locks s) (predicate_reads s) (predicate_violations s) (waits s).
Definition set_wait_for (m : gmap Z Z) (s : LockManager) : LockManager :=
  mkLocks (row_locks s) m (deadlock_history s) (gap_locks s) (predicate_reads s) (predicate_violations s) (waits s).
Definition push_deadlock (p : Z * Z) (s : LockManager) : LockManager :=
  mkLocks (row_locks s) (wait_for s) (deadlock_history s ++ [p]) (gap_locks s) (predicate_reads s)
    (predicate_violations s) (waits s).
Definition count_wait (s : LockManager) : LockManager :=
  mkLocks (row_locks s) (wait_for s) (deadlock_history s) (gap_locks s) (predicate_reads s)
    (predicate_violations s) (wrap64 (waits s + 1)).
Definition set_gaps (gaps reads : gmap (list Z) (list GapLockRow)) (violations : gset Z) (s : LockManager)
  : LockManager :=
  mkLocks (row_locks s) (wait_for s) (deadlock_history s) gaps reads violations (waits s).

(** ** Cycles *)

(** creates_cycle's loop; each turn visits a new transaction that waits, so the fuel
    [S (size wait_for)] is enough ([creates_cycle_spec]). *)
Fixpoint cycle_loop (fuel : nat) (edges : gmap Z Z) (from current : Z) (visited : gset Z) : bool :=
  match fuel with
  | O => false
  | S fuel =>
      if current =? from then true
      else if bool_decide (current ∈ visited) then false
      else
        match edges !! current with
        | None => false
        | Some next => cycle_loop fuel edges from next ({[current]} ∪ visited)
        end
  end.

Definition creates_cycle (from to : Z) (s : LockManager) : bool :=
  cycle_loop (S (size (wait_for s))) (wait_for s) from to ∅.

(** *** The wait-for graph *)

Definition waits_on (edges : gmap Z Z) (a b : Z) : Prop := edges !! a = Some b.

Definition acyclic (edges : gmap Z Z) : Prop := ∀ a b, waits_on edges a b → ¬ rtc (waits_on edges) b a.

Lemma cycle_loop_sound fuel edges from current visited :
  cycle_loop fuel edges from current visited = true → rtc (waits_on edges) current from.
Proof.
  revert current visited. induction fuel as [|fuel IH]; intros current visited; simpl; [done|].
  destruct (Z.eqb_spec current from) as [->|]; [done|]. case_bool_decide; [done|].
  destruct (edges !! current) as [next|] eqn:E; [|done]. intros Hl%IH. by eapply rtc_l.
Qed.

(** A set that every edge stays in, but for edges to [current]. *)
Definition closed_but (edges : gmap Z Z) (visited : gset Z) (current : Z) : Prop :=
  ∀ a b, a ∈ visited → waits_on edges a b → b ∈ visited ∨ b = current.

Lemma closed_rtc edges (visited : gset Z) x y :
  (∀ a b, a ∈ visited → waits_on edges a b → b ∈ visited) → x ∈ visited → rtc (waits_on edges) x y → y ∈ visited.
Proof. intros Hcl Hx Hr. revert Hx. induction Hr as [x|x y z Hxy _ IH]; intros Hx; [done|]. by eapply IH, Hcl. Qed.

Lemma cycle_loop_complete fuel edges from current visited :
  closed_but edges visited current → from ∉ visited → visited ⊆ dom edges →
  (size edges < fuel + size visited)%nat →
  rtc (waits_on edges) current from → cycle_loop fuel edges from current visited = true.
Proof.
  revert current visited. induction fuel as [|fuel IH]; intros current visited Hcl Hfrom Hsub Hsize Hr.
  { apply subseteq_size in Hsub. rewrite size_dom in Hsub. lia. }
  simpl. destruct (Z.eqb_spec current from) as [|Hne]; [done|]. case_bool_decide as Hin.
  - exfalso. apply Hfrom. apply (closed_rtc edges visited current); [|done|done].
    intros a b Ha Hab. by destruct (Hcl a b Ha Hab) as [?| ->].
  - destruct Hr as [|current next from Hcn Hr]; [done|]. unfold waits_on in Hcn. rewrite Hcn. apply IH; [| | | |done].
    + intros a b Ha Hab. apply elem_of_union in Ha as [->%elem_of_singleton|Ha].
      * right. unfold waits_on in Hab. congruence.
      * left. apply elem_of_union. destruct (Hcl a b Ha Hab) as [?| ->]; [by right|left; by apply elem_of_singleton].
    + rewrite elem_of_union, elem_of_singleton. intros [E|?]; [congruence|done].
    + apply union_subseteq. split; [|done]. apply singleton_subseteq_l, elem_of_dom. eauto.
    + rewrite size_union, size_singleton by (apply disjoint_singleton_l; done). lia.
Qed.

(** The loop decides whether [from] can be reached, with the fuel it is given. *)
Lemma creates_cycle_spec from to s :
  creates_cycle from to s = true ↔ rtc (waits_on (wait_for s)) to from.
Proof.
  unfold creates_cycle. split; [apply cycle_loop_sound|]. apply cycle_loop_complete; [|apply not_elem_of_empty|apply empty_subseteq|].
  - intros a b Ha. by apply elem_of_empty in Ha.
  - rewrite size_empty. lia.
Qed.

Lemma rtc_subgraph (e e' : gmap Z Z) x y : e ⊆ e' → rtc (waits_on e) x y → rtc (waits_on e') x y.
Proof.
  intros Hs. induction 1 as [|x y z Hxy _ IH]; [done|]. eapply rtc_l; [|exact IH].
  by eapply lookup_weaken.
Qed.

Lemma acyclic_subgraph e e' : e ⊆ e' → acyclic e' → acyclic e.
Proof.
  intros Hs Ha a b Hab Hr. apply (Ha a b); [by eapply lookup_weaken|by eapply rtc_subgraph].
Qed.

(** A path in the graph with a new edge avoids the edge, or takes it. *)
Lemma rtc_insert e from to x y :
  rtc (waits_on (<[from := to]> e)) x y →
  rtc (waits_on (delete from e)) x y ∨
  (rtc (waits_on (delete from e)) x from ∧ rtc (waits_on (<[from := to]> e)) to y).
Proof.
  induction 1 as [x|x y z Hxy Hyz IH]; [by left|]. unfold waits_on in Hxy.
  destruct (decide (x = from)) as [->|Hne].
  - rewrite lookup_insert_eq in Hxy. simplify_eq. right. by split.
  - rewrite lookup_insert_ne in Hxy by done.
    assert (Hd : waits_on (delete from e) x y) by (unfold waits_on; by rewrite lookup_delete_ne).
    destruct IH as [IH|[IH1 IH2]]; [left|right; split; [|done]]; by eapply rtc_l.
Qed.

(** An edge that closes no cycle keeps the graph acyclic. *)
Lemma acyclic_insert e from to :
  acyclic e → ¬ rtc (waits_on e) to from → acyclic (<[from := to]> e).
Proof.
  intros Ha Hno.
  assert (Hsub : delete from e ⊆ e) by apply delete_subseteq.
  assert (Hto : ¬ rtc (waits_on (<[from := to]> e)) to from).
  { intros H. apply Hno. apply (rtc_subgraph (delete from e)); [done|].
    by destruct (rtc_insert _ _ _ _ _ H) as [?|[? _]]. }
  intros a b Hab Hr. destruct (decide (a = from)) as [->|Hne].
  { unfold waits_on in Hab. rewrite lookup_insert_eq in Hab. by simplify_eq. }
  assert (Hab' : waits_on e a b) by (unfold waits_on in *; by rewrite lookup_insert_ne in Hab).
  destruct (rtc_insert _ _ _ _ _ Hr) as [H|[H1 H2]].
  - apply (Ha a b); [done|by eapply rtc_subgraph].
  - apply Hto. etransitivity; [exact H2|]. eapply rtc_l; [exact Hab|].
    eapply (rtc_subgraph (delete from e)); [|exact H1].
    apply map_subseteq_spec. intros i x Hi. apply lookup_delete_Some in Hi as [? ?]. by rewrite lookup_insert_ne.
Qed.

Section locks.
Context (coll_key : list Z → list Z).
Context (iter : gset Z → list Z).

(** [table.find("#ck:") != npos] *)
Fixpoint contains (needle s : list Z) : bool :=
  bool_decide (take (length needle) s = needle) ||
  match s with [] => false | _ :: s => contains needle s end.

Definition row_key (table pk : list Z) : row_id :=
  (table, if contains (str "#ck:") table then pk else coll_key pk).

(** ** Granting *)

Inductive mode : Set := ModeExclusive | ModeShared.

Definition first_other (txn_id : Z) (holders : gset Z) : option Z :=
  head (filter (λ h, h ≠ txn_id) (iter holders)).

(** [None] when the lock has been granted, the holder in the way otherwise. *)
Definition try_grant_exclusive_locked (key : row_id) (shown : list Z) (txn_id : Z) (s : LockManager)
  : LockManager * option Z :=
  match row_locks s !! key with
  | None => (set_row_locks (<[key := mkEntry (Exclusive txn_id) shown]> (row_locks s)) s, None)
  | Some entry =>
      match le_data entry with
      | Exclusive holder => if holder =? txn_id then (s, None) else (s, Some holder)
      | Shared holders =>
          if bool_decide (size holders = 1%nat) && bool_decide (txn_id ∈ holders)
          then (set_row_locks (<[key := mkEntry (Exclusive txn_id) (le_shown entry)]> (row_locks s)) s, None)
          else (s, first_other txn_id holders)
      end
  end.

Definition try_grant_shared_locked (key : row_id) (shown : list Z) (txn_id : Z) (s : LockManager)
  : LockManager * option Z :=
  match row_locks s !! key with
  | None => (set_row_locks (<[key := mkEntry (Shared {[txn_id]}) shown]> (row_locks s)) s, None)
  | Some entry =>
      match le_data entry with
      | Exclusive holder => if holder =? txn_id then (s, None) else (s, Some holder)
      | Shared holders =>
          (set_row_locks (<[key := mkEntry (Shared ({[txn_id]} ∪ holders)) (le_shown entry)]> (row_locks s)) s, None)
      end
  end.

Definition try_grant (m : mode) :=
  match m with ModeExclusive => try_grant_exclusive_locked | ModeShared => try_grant_shared_locked end.

(** ** acquire and acquire_shared *)

(** Up to the first sleep: [None] when the call sleeps. *)
Definition acquire_start (m : mode) (table pk : list Z) (txn_id : Z) (timed : bool) (s : LockManager)
  : LockManager * option LockResult :=
  let '(s, conflict_holder) := try_grant m (row_key table pk) pk txn_id s in
  match conflict_holder with
  | None => (s, Some Granted)
  | Some h =>
      if creates_cycle txn_id h s then (push_deadlock (txn_id, h) s, Some (Deadlock h))
      else
        let s := set_wait_for (<[txn_id := h]> (wait_for s)) s in
        if negb timed then (s, Some (Conflict h)) else (count_wait s, None)
  end.

(** One turn of the waiting loop; [expired]: the deadline has passed, or KILL was asked. *)
Definition acquire_wake (m : mode) (table pk : list Z) (txn_id : Z) (expired : bool) (s : LockManager)
  : LockManager * option LockResult :=
  let '(s, retry_holder) := try_grant m (row_key table pk) pk txn_id s in
  match retry_holder with
  | None => (set_wait_for (delete txn_id (wait_for s)) s, Some Granted)
  | Some h =>
      if expired then (set_wait_for (delete txn_id (wait_for s)) s, Some (Timeout h))
      else (set_wait_for (<[txn_id := h]> (wait_for s)) s, None)
  end.

(** ** release *)

(** The entry without the transaction; [None] when nobody is left. *)
Definition release_entry (txn_id : Z) (entry : LockEntry) : option LockEntry :=
  match le_data entry with
  | Exclusive holder => if holder =? txn_id then None else Some entry
  | Shared holders =>
      let holders := holders ∖ {[txn_id]} in
      if decide (holders = ∅) then None else Some (mkEntry (Shared holders) (le_shown entry))
  end.

Definition release_ranges (txn_id : Z) (rows : list GapLockRow) : option (list GapLockRow) :=
  match filter (λ r, g_holder r ≠ txn_id) rows with
  | [] => None
  | rows => Some rows
  end.

Definition release (txn_id : Z) (s : LockManager) : LockManager :=
  mkLocks (omap (release_entry txn_id) (row_locks s))
    (filter (λ e, e.1 ≠ txn_id ∧ e.2 ≠ txn_id) (wait_for s)) (deadlock_history s)
    (omap (release_ranges txn_id) (gap_locks s)) (omap (release_ranges txn_id) (predicate_reads s))
    (predicate_violations s ∖ {[txn_id]}) (waits s).

(** ** The rest of the interface *)

Definition holder (table pk : list Z) (s : LockManager) : option Z :=
  match row_locks s !! row_key table pk with
  | Some entry => match le_data entry with Exclusive h => Some h | Shared _ => None end
  | None => None
  end.

Definition is_empty (s : LockManager) : bool := bool_decide (row_locks s = ∅).

Definition push_range (table : list Z) (row : GapLockRow) (m : gmap (list Z) (list GapLockRow)) :=
  <[table := default [] (m !! table) ++ [row]]> m.

Definition acquire_gap (table : list Z) (lo : option (list Z)) (lo_inclusive : bool) (hi : option (list Z))
    (hi_inclusive : bool) (txn_id : Z) (s : LockManager) : LockManager :=
  set_gaps (push_range table (mkGap lo hi lo_inclusive hi_inclusive txn_id) (gap_locks s)) (predicate_reads s)
    (predicate_violations s) s.

Definition gap_locks_for (table : list Z) (s : LockManager) : list GapLockRow := default [] (gap_locks s !! table).

Definition register_gap_start (txn_id h : Z) (timed : bool) (s : LockManager) : LockManager * option LockResult :=
  if creates_cycle txn_id h s then (push_deadlock (txn_id, h) s, Some (Deadlock h))
  else
    let s := set_wait_for (<[txn_id := h]> (wait_for s)) s in
    if negb timed then (s, Some (Conflict h)) else (s, None).

Definition register_gap_wake (table : list Z) (txn_id h : Z) (expired : bool) (s : LockManager)
  : LockManager * option LockResult :=
  if negb (existsb (λ r, g_holder r =? h) (gap_locks_for table s))
  then (set_wait_for (delete txn_id (wait_for s)) s, Some Granted)
  else if expired then (set_wait_for (delete txn_id (wait_for s)) s, Some (Timeout h))
  else (s, None).

Definition register_predicate_read (table : list Z) (lo : option (list Z)) (lo_inclusive : bool)
    (hi : option (list Z)) (hi_inclusive : bool) (txn_id : Z) (s : LockManager) : LockManager :=
  set_gaps (gap_locks s) (push_range table (mkGap lo hi lo_inclusive hi_inclusive txn_id) (predicate_reads s))
    (predicate_violations s) s.

Definition predicate_reads_for (table : list Z) (s : LockManager) : list GapLockRow :=
  default [] (predicate_reads s !! table).

Definition flag_predicate_violation (txn_id : Z) (s : LockManager) : LockManager :=
  set_gaps (gap_locks s) (predicate_reads s) ({[txn_id]} ∪ predicate_violations s) s.

Definition take_predicate_violation (txn_id : Z) (s : LockManager) : LockManager * bool :=
  if decide (txn_id ∈ predicate_violations s)
  then (set_gaps (gap_locks s) (predicate_reads s) (predicate_violations s ∖ {[txn_id]}) s, true)
  else (s, false).

(** ** Steps

    The calls of the executor, in the order [mutex_] serialises them. *)
Inductive lock_call : Type :=
  | CallAcquire (m : mode) (table pk : list Z) (timed : bool)
  | CallWake (m : mode) (table pk : list Z) (expired : bool)
  | CallRelease
  | CallGap (table : list Z) (lo hi : option (list Z)) (lo_inclusive hi_inclusive : bool)
  | CallGapConflict (h : Z) (timed : bool)
  | CallGapWake (table : list Z) (h : Z) (expired : bool)
  | CallPredicate (table : list Z) (lo hi : option (list Z)) (lo_inclusive hi_inclusive : bool)
  | CallFlag
  | CallTake.

(** The call by [txn_id], and what a lock request answered ([None]: it sleeps, or is no request). *)
Definition run_call (txn_id : Z) (c : lock_call) (s : LockManager) : LockManager * option LockResult :=
  match c with
  | CallAcquire m table pk timed => acquire_start m table pk txn_id timed s
  | CallWake m table pk expired => acquire_wake m table pk txn_id expired s
  | CallRelease => (release txn_id s, None)
  | CallGap table lo hi li hi_in => (acquire_gap table lo li hi hi_in txn_id s, None)
  | CallGapConflict h timed => register_gap_start txn_id h timed s
  | CallGapWake table h expired => register_gap_wake table txn_id h expired s
  | CallPredicate table lo hi li hi_in => (register_predicate_read table lo li hi hi_in txn_id s, None)
  | CallFlag => (flag_predicate_violation txn_id s, None)
  | CallTake => ((take_predicate_violation txn_id s).1, None)
  end.

Definition run_calls (cs : list (Z * lock_call)) (s : LockManager) : LockManager :=
  fold_left (λ s c, (run_call c.1 c.2 s).1) cs s.

(** *** Row locks *)

(** [txn_id] holds the row in a mode at least as strong. *)
Definition holds (s : LockManager) (key : row_id) (txn_id : Z) (m : mode) : Prop :=
  match row_locks s !! key with
  | Some entry =>
      match le_data entry with
      | Exclusive h => h = txn_id
      | Shared hs => m = ModeShared ∧ txn_id ∈ hs
      end
  | None => False
  end.

(** No entry without a holder. *)
Definition locks_wf (s : LockManager) : Prop :=
  map_Forall (λ _ e, match le_data e with Shared hs => hs ≠ ∅ | Exclusive _ => True end) (row_locks s).

Context (Hiter : ∀ hs, iter hs ≡ₚ elements hs).

Lemma first_other_None txn_id hs : first_other txn_id hs = None → hs ⊆ {[txn_id]}.
Proof.
  unfold first_other. intros H x Hx. apply elem_of_singleton.
  destruct (decide (x = txn_id)) as [|Hne]; [done|]. exfalso.
  assert (Hin : x ∈ filter (λ h, h ≠ txn_id) (iter hs)).
  { apply list_elem_of_filter. split; [done|]. rewrite Hiter. by apply elem_of_elements. }
  destruct (filter _ _); [by apply elem_of_nil in Hin|done].
Qed.

Lemma first_other_Some txn_id hs h : first_other txn_id hs = Some h → h ∈ hs ∧ h ≠ txn_id.
Proof.
  unfold first_other. intros H.
  assert (Hin : h ∈ filter (λ h, h ≠ txn_id) (iter hs)).
  { destruct (filter _ _) as [|x l]; simplify_eq/=. by left. }
  apply list_elem_of_filter in Hin as [? Hin]. rewrite Hiter in Hin. by apply elem_of_elements in Hin.
Qed.

(** What trying to lock a row does: granted, or nothing but the name of another holder in the way. *)
Lemma try_grant_spec m key shown txn s s' r :
  locks_wf s → try_grant m key shown txn s = (s', r) →
  wait_for s' = wait_for s ∧ locks_wf s' ∧
  (∀ key' t m', t ≠ txn → holds s' key' t m' ↔ holds s key' t m') ∧
  match r with
  | None => holds s' key txn m
  | Some h => s' = s ∧ h ≠ txn ∧ holds s key h ModeShared ∧
              (m = ModeShared → holds s key h ModeExclusive)
  end.
Proof.
  intros Hwf.
  assert (Hset : ∀ e, (∀ t m', t ≠ txn → holds (set_row_locks (<[key := e]> (row_locks s)) s) key t m' ↔ holds s key t m') →
    ∀ key' t m', t ≠ txn → holds (set_row_locks (<[key := e]> (row_locks s)) s) key' t m' ↔ holds s key' t m').
  { intros e He key' t m' Ht. destruct (decide (key' = key)) as [->|Hne]; [by apply He|].
    unfold holds. simpl. by rewrite lookup_insert_ne. }
  assert (Hw : ∀ e, match le_data e with Shared hs => hs ≠ ∅ | Exclusive _ => True end →
                    locks_wf (set_row_locks (<[key := e]> (row_locks s)) s)).
  { intros e He. unfold locks_wf. simpl. by apply map_Forall_insert_2. }
  destruct m; unfold try_grant, try_grant_exclusive_locked, try_grant_shared_locked;
    destruct (row_locks s !! key) as [[[h|hs] shown']|] eqn:E; simpl.
  - destruct (Z.eqb_spec h txn) as [->|Hne]; intros; simplify_eq; split_and!; try done; unfold holds; by rewrite E.
  - destruct (bool_decide (size hs = 1%nat) && bool_decide (txn ∈ hs)) eqn:Eb; intros; simplify_eq.
    + apply andb_true_iff in Eb as [E1%bool_decide_eq_true E2%bool_decide_eq_true].
      apply size_1_elem_of in E1 as [x Ex%leibniz_equiv]. rewrite Ex in E2. apply elem_of_singleton in E2 as ->.
      split_and!; [done|by apply Hw| |unfold holds; simpl; by rewrite lookup_insert_eq].
      apply Hset. intros t m' Ht. unfold holds. simpl. rewrite lookup_insert_eq, E. simpl.
      rewrite Ex, elem_of_singleton. clear -Ht; naive_solver.
    + destruct (first_other txn hs) as [h|] eqn:Ef.
      * apply first_other_Some in Ef as [Hin Hne]. split_and!; try done. unfold holds. by rewrite E.
      * exfalso. apply first_other_None in Ef.
        assert (hs = {[txn]}) as ->.
        { apply leibniz_equiv, set_equiv_subseteq. split; [done|]. apply singleton_subseteq_l.
          pose proof (Hwf _ _ E) as Hne. simpl in Hne. apply set_choose_L in Hne as [x Hx].
          pose proof (Ef x Hx) as ->%elem_of_singleton. done. }
        rewrite size_singleton in Eb. rewrite !bool_decide_eq_true_2 in Eb; [done|by apply elem_of_singleton|done].
  - intros; simplify_eq. split_and!; [done|by apply Hw| |unfold holds; simpl; by rewrite lookup_insert_eq].
    apply Hset. intros t m' Ht. unfold holds. simpl. rewrite lookup_insert_eq, E. simpl. clear -Ht; naive_solver.
  - destruct (Z.eqb_spec h txn) as [->|Hne]; intros; simplify_eq; split_and!; try done; unfold holds; by rewrite E.
  - intros; simplify_eq. split_and!; [done| | |].
    + apply Hw. simpl. intros Hemp. assert (txn ∈ ({[txn]} ∪ hs : gset Z)) as Hin by (apply elem_of_union_l; by apply elem_of_singleton).
      rewrite Hemp in Hin. by apply elem_of_empty in Hin.
    + apply Hset. intros t m' Ht. unfold holds. simpl. rewrite lookup_insert_eq, E. simpl.
      rewrite elem_of_union, elem_of_singleton. clear -Ht; naive_solver.
    + unfold holds. simpl. rewrite lookup_insert_eq. simpl. split; [done|]. apply elem_of_union_l. by apply elem_of_singleton.
  - intros; simplify_eq. split_and!; [done| | |].
    + apply Hw. simpl. intros Hemp. assert (txn ∈ ({[txn]} : gset Z)) as Hin by by apply elem_of_singleton.
      rewrite Hemp in Hin. by apply elem_of_empty in Hin.
    + apply Hset. intros t m' Ht. unfold holds. simpl. rewrite lookup_insert_eq, E. simpl.
      rewrite elem_of_singleton. clear -Ht; naive_solver.
    + unfold holds. simpl. rewrite lookup_insert_eq. simpl. split; [done|]. by apply elem_of_singleton.
Qed.

Lemma release_lookup txn s key :
  row_locks (release txn s) !! key = row_locks s !! key ≫= release_entry txn.
Proof. unfold release. simpl. apply lookup_omap. Qed.

Lemma release_holds txn s key t m :
  holds (release txn s) key t m ↔ holds s key t m ∧ t ≠ txn.
Proof.
  unfold holds. rewrite release_lookup. destruct (row_locks s !! key) as [[[h|hs] shown]|]; simpl; [| |clear; naive_solver].
  - unfold release_entry. simpl. destruct (Z.eqb_spec h txn); simpl; naive_solver.
  - unfold release_entry. simpl. case_decide as Hd; simpl.
    + split; [done|]. intros [[_ Hin] Hne]. assert (t ∈ hs ∖ {[txn]}) as Ht by set_solver +Hin Hne.
      rewrite Hd in Ht. by apply elem_of_empty in Ht.
    + rewrite elem_of_difference, elem_of_singleton. clear. naive_solver.
Qed.

Lemma release_wf txn s : locks_wf s → locks_wf (release txn s).
Proof.
  intros Hwf key e. rewrite release_lookup. intros (e0 & E & Hr)%bind_Some.
  unfold release_entry in Hr. destruct (le_data e0) as [h|hs] eqn:Ed; [destruct (h =? txn)|case_decide as Hd];
    simplify_eq; rewrite ?Ed; done.
Qed.

(** Every call by [txn] leaves the other transactions' row locks alone. *)
Lemma run_call_spec txn c s s' r :
  locks_wf s → run_call txn c s = (s', r) →
  locks_wf s' ∧ (∀ key t m, t ≠ txn → holds s' key t m ↔ holds s key t m) ∧
  match c, r with
  | (CallAcquire m table pk _ | CallWake m table pk _), Some Granted => holds s' (row_key table pk) txn m
  | CallAcquire m table pk _, _ => row_locks s' = row_locks s
  | CallWake m table pk _, _ => row_locks s' = row_locks s
  | CallRelease, _ => ∀ key m, ¬ holds s' key txn m
  | _, _ => row_locks s' = row_locks s
  end.
Proof.
  intros Hwf. destruct c as [m table pk timed|m table pk expired| | |h timed|table h expired| | |]; simpl;
    try (intros [= <- <-]; split_and!; done).
  - unfold acquire_start. destruct (try_grant m (row_key table pk) pk txn s) as [s1 [h|]] eqn:E;
      destruct (try_grant_spec _ _ _ _ _ _ _ Hwf E) as (Hw & Hwf1 & Hoth & Hr).
    + destruct Hr as (-> & _). destruct (creates_cycle txn h s); [|destruct timed]; intros [= <- <-]; split_and!; done.
    + intros [= <- <-]. done.
  - unfold acquire_wake. destruct (try_grant m (row_key table pk) pk txn s) as [s1 [h|]] eqn:E;
      destruct (try_grant_spec _ _ _ _ _ _ _ Hwf E) as (Hw & Hwf1 & Hoth & Hr).
    + destruct Hr as (-> & _). destruct expired; intros [= <- <-]; split_and!; done.
    + intros [= <- <-]. done.
  - intros [= <- <-]. split_and!; [by apply release_wf| |].
    + intros key t m Ht. rewrite release_holds. clear -Ht. naive_solver.
    + intros key m [_ ?]%release_holds. done.
  - unfold register_gap_start. destruct (creates_cycle txn h s); [|destruct timed]; intros [= <- <-]; done.
  - unfold register_gap_wake. destruct (negb _); [|destruct expired]; intros [= <- <-]; done.
  - intros [= <- <-]. unfold take_predicate_violation. case_decide; done.
Qed.

Lemma run_calls_wf cs s : locks_wf s → locks_wf (run_calls cs s).
Proof.
  revert s. induction cs as [|[txn c] cs IH]; intros s Hwf; simpl; [done|]. apply IH.
  destruct (run_call txn c s) as [s' r] eqn:E. by destruct (run_call_spec _ _ _ _ _ Hwf E) as [? _].
Qed.

(** *** Waiting *)

Definition no_repoint (c : lock_call) (r : option LockResult) : Prop :=
  match c, r with CallWake _ _ _ _, None => False | _, _ => True end.

Lemma acyclic_set e s : acyclic e → acyclic (wait_for (set_wait_for e s)).
Proof. done. Qed.

Lemma run_call_acyclic txn c s s' r :
  locks_wf s → run_call txn c s = (s', r) → no_repoint c r → acyclic (wait_for s) → acyclic (wait_for s').
Proof.
  intros Hwf Hrun Hno Ha.
  assert (Hadd : ∀ h, creates_cycle txn h s = false → acyclic (<[txn := h]> (wait_for s))).
  { intros h Hc. apply acyclic_insert; [done|]. rewrite <- creates_cycle_spec, Hc. done. }
  assert (Hdel : acyclic (delete txn (wait_for s))) by (eapply acyclic_subgraph; [apply delete_subseteq|done]).
  destruct c as [m table pk timed|m table pk expired| | |h timed|table h expired| | |]; simpl in *;
    try (injection Hrun as <- <-; done).
  - unfold acquire_start in Hrun. destruct (try_grant m (row_key table pk) pk txn s) as [s1 [h|]] eqn:E;
      destruct (try_grant_spec _ _ _ _ _ _ _ Hwf E) as (Hw & _ & _ & Hr); rewrite <- Hw in *.
    + destruct Hr as (-> & _). destruct (creates_cycle txn h s) eqn:Ec; [|destruct timed];
        injection Hrun as <- <-; simpl; auto.
    + by injection Hrun as <- <-.
  - unfold acquire_wake in Hrun. destruct (try_grant m (row_key table pk) pk txn s) as [s1 [h|]] eqn:E;
      destruct (try_grant_spec _ _ _ _ _ _ _ Hwf E) as (Hw & _ & _ & Hr); rewrite <- Hw in *.
    + destruct Hr as (-> & _). destruct expired; injection Hrun as <- <-; simpl; [done|by destruct Hno].
    + by injection Hrun as <- <-.
  - injection Hrun as <- <-. simpl. eapply acyclic_subgraph; [apply map_filter_subseteq|done].
  - unfold register_gap_start in Hrun. destruct (creates_cycle txn h s) eqn:Ec; [|destruct timed];
      injection Hrun as <- <-; simpl; auto.
  - unfold register_gap_wake in Hrun. destruct (negb _); [|destruct expired]; injection Hrun as <- <-; simpl; auto.
  - injection Hrun as <- <-. unfold take_predicate_violation. by case_decide.
Qed.

(** A transaction keeps its own locks through every call but release. *)
Lemma own_call_keeps txn c s s' r key m :
  run_call txn c s = (s', r) → c ≠ CallRelease → holds s key txn m → holds s' key txn m.
Proof.
  intros Hrun Hc Hh.
  assert (Hgrant : ∀ m' key' shown s1 h, try_grant m' key' shown txn s = (s1, h) → holds s1 key txn m).
  { intros m' key' shown s1 h E. destruct (decide (key = key')) as [<-|Hne].
    - unfold holds in Hh. destruct m'; unfold try_grant, try_grant_exclusive_locked, try_grant_shared_locked in E;
        destruct (row_locks s !! key) as [[[h'|hs] shown']|] eqn:El; simpl in *; try done; subst;
        rewrite ?Z.eqb_refl in E.
      + simplify_eq. unfold holds. by rewrite El.
      + destruct (bool_decide (size hs = 1%nat) && bool_decide (txn ∈ hs)); simplify_eq; unfold holds; simpl.
        * by rewrite lookup_insert_eq.
        * by rewrite El.
      + simplify_eq. unfold holds. by rewrite El.
      + simplify_eq. unfold holds. simpl. rewrite lookup_insert_eq. simpl. destruct Hh as [? ?]. split; [done|].
        by apply elem_of_union_r.
    - assert (Hset : ∀ e, holds (set_row_locks (<[key' := e]> (row_locks s)) s) key txn m).
      { intros e. unfold holds. simpl. by rewrite lookup_insert_ne by congruence. }
      destruct m'; unfold try_grant, try_grant_exclusive_locked, try_grant_shared_locked in E;
        destruct (row_locks s !! key') as [[[h'|hs] shown']|]; simpl in E.
      1,4: by destruct (h' =? txn); injection E as <- _.
      1: destruct (bool_decide _ && bool_decide _).
      all: injection E as <- _; done. }
  destruct c as [m' table pk timed|m' table pk expired| | |h timed|table h expired| | |]; simpl in *;
    try (by injection Hrun as <- <-); try done.
  - unfold acquire_start in Hrun. destruct (try_grant _ _ _ _ _) as [s1 [h|]] eqn:E; apply Hgrant in E.
    + destruct (creates_cycle txn h s1); [|destruct timed]; by injection Hrun as <- <-.
    + by injection Hrun as <- <-.
  - unfold acquire_wake in Hrun. destruct (try_grant _ _ _ _ _) as [s1 [h|]] eqn:E; apply Hgrant in E.
    + destruct expired; by injection Hrun as <- <-.
    + by injection Hrun as <- <-.
  - unfold register_gap_start in Hrun. destruct (creates_cycle txn h s); [|destruct timed]; by injection Hrun as <- <-.
  - unfold register_gap_wake in Hrun. destruct (negb _); [|destruct expired]; by injection Hrun as <- <-.
  - injection Hrun as <- <-. unfold take_predicate_violation. by case_decide.
Qed.

Lemma run_calls_keep txn cs s key m :
  locks_wf s → Forall (λ c, c ≠ (txn, CallRelease)) cs → holds s key txn m → holds (run_calls cs s) key txn m.
Proof.
  intros Hwf Hcs. revert s Hwf. induction Hcs as [|[t c] cs Hc _ IH]; intros s Hwf Hh; simpl; [done|].
  destruct (run_call t c s) as [s1 r] eqn:E. destruct (run_call_spec _ _ _ _ _ Hwf E) as (Hwf1 & Hoth & _).
  simpl. apply IH; [done|]. destruct (decide (txn = t)) as [->|Hne]; [|by apply Hoth].
  eapply own_call_keeps; [exact E|congruence|done].
Qed.

Lemma holds_exclusive_only s key t t' m : holds s key t ModeExclusive → holds s key t' m → t' = t.
Proof. unfold holds. destruct (row_locks s !! key) as [[[h|hs] shown]|]; simpl; [congruence|by intros [? _]|done]. Qed.

(** ** Properties *)

(** C10: an exclusive row lock excludes. Start with no locks and let any transactions make any calls;
    when one of them is granted a row exclusively, at once or after sleeping, then until it calls
    [release] nobody else holds the row in any mode, whatever calls everybody makes meanwhile. *)
Theorem exclusive_lock_excludes cs0 cs txn table pk c s' t m :
  c = CallAcquire ModeExclusive table pk true ∨ c = CallAcquire ModeExclusive table pk false ∨
    c = CallWake ModeExclusive table pk false ∨ c = CallWake ModeExclusive table pk true →
  run_call txn c (run_calls cs0 no_locks) = (s', Some Granted) →
  Forall (λ c, c ≠ (txn, CallRelease)) cs →
  holds (run_calls cs s') (row_key table pk) txn ModeExclusive ∧
  (holds (run_calls cs s') (row_key table pk) t m → t = txn).
Proof.
  intros Hc Hrun Hcs.
  assert (Hwf : locks_wf (run_calls cs0 no_locks)) by (apply run_calls_wf, map_Forall_empty).
  destruct (run_call_spec _ _ _ _ _ Hwf Hrun) as (Hwf' & _ & Hh).
  assert (Hh' : holds s' (row_key table pk) txn ModeExclusive) by (by destruct_or! Hc; subst c).
  pose proof (run_calls_keep txn cs s' _ _ Hwf' Hcs Hh') as Hk. split; [done|]. by apply holds_exclusive_only.
Qed.


(** [release] forgets the transaction: it holds no row afterwards, waits for nobody and nobody is
    recorded as waiting for it, and no gap lock, predicate read or violation of it is left. *)
Theorem release_forgets txn s :
  let s' := release txn s in
  (∀ key m, ¬ holds s' key txn m) ∧
  (∀ a b, waits_on (wait_for s') a b → a ≠ txn ∧ b ≠ txn) ∧
  (∀ table, Forall (λ r, g_holder r ≠ txn) (gap_locks_for table s')) ∧
  (∀ table, Forall (λ r, g_holder r ≠ txn) (predicate_reads_for table s')) ∧
  txn ∉ predicate_violations s'.
Proof.
  assert (G : ∀ (gs : gmap (list Z) (list GapLockRow)) table,
             Forall (λ r, g_holder r ≠ txn) (default [] (omap (release_ranges txn) gs !! table))).
  { intros gs table. rewrite lookup_omap. destruct (gs !! table) as [rows|]; simpl; [|by constructor].
    assert (Hf : Forall (λ r, g_holder r ≠ txn) (filter (λ r, g_holder r ≠ txn) rows)).
    { apply Forall_forall. by intros r [? _]%list_elem_of_filter. }
    unfold release_ranges. destruct (filter _ rows); [by constructor|done]. }
  split_and!.
  - intros key m [_ ?]%release_holds. done.
  - intros a b Hab. unfold waits_on in Hab. simpl in Hab. by apply map_lookup_filter_Some in Hab as [_ ?].
  - intros table. apply G.
  - intros table. apply G.
  - simpl. rewrite elem_of_difference, elem_of_singleton. clear. naive_solver.
Qed.
End locks.

(** C12: the cycle test is exact: it terminates and answers true exactly when following the recorded
    waits from [to] reaches [from]. *)
Theorem creates_cycle_exact from to s :
  creates_cycle from to s = true ↔ rtc (waits_on (wait_for s)) to from.
Proof. apply creates_cycle_spec. Qed.

Definition demo_calls : list (Z * lock_call) :=
  [(1, CallAcquire ModeExclusive (str "t") (str "x") true); (2, CallAcquire ModeExclusive (str "t") (str "x") true)].

Lemma exclusive_lock_excludes_witness :
  let s' := (run_call id elements 2 (CallWake ModeExclusive (str "t") (str "x") false)
               (run_calls id elements (demo_calls ++ [(1, CallRelease)]) no_locks)).1 in
  holds (run_calls id elements [(3, CallAcquire ModeShared (str "t") (str "x") true)] s')
    (row_key id (str "t") (str "x")) 2 ModeExclusive ∧
  (holds (run_calls id elements [(3, CallAcquire ModeShared (str "t") (str "x") true)] s')
     (row_key id (str "t") (str "x")) 3 ModeShared → 3 = 2).
Proof.
  intros s'.
  apply (exclusive_lock_excludes id elements ltac:(done) (demo_calls ++ [(1, CallRelease)])
    [(3, CallAcquire ModeShared (str "t") (str "x") true)] 2 (str "t") (str "x")
    (CallWake ModeExclusive (str "t") (str "x") false) s' 3 ModeShared).
  - right. right. by left.
  - by vm_compute.
  - by apply Forall_singleton.
Defined.


(** A deadlock that is not detected. Transaction 3 holds row y and sleeps on x, and so does 2; the
    holder 1 of x releases it, and 2 wakes first and gets x. 2 now asks for y: 3 is recorded as waiting
    for nobody (the release erased the edge), so no cycle is found and 2 sleeps. 3 wakes, finds x held
    by 2, and its wait is recorded without a cycle test. Both sleep, each waiting for the other, and no
    call answered Deadlock. *)
Theorem repointed_wait_misses_deadlock :
  let x m := m ModeExclusive (str "t") (str "x") in
  let y m := m ModeExclusive (str "t") (str "y") in
  let s := run_calls id elements
    [(1, x CallAcquire true); (3, y CallAcquire true); (2, x CallAcquire true); (3, x CallAcquire true);
     (1, CallRelease); (2, x CallWake false)] no_locks in
  let '(s1, r1) := run_call id elements 2 (y CallAcquire true) s in
  let '(s2, r2) := run_call id elements 3 (x CallWake false) s1 in
  r1 = None ∧ r2 = None ∧ waits_on (wait_for s2) 2 3 ∧ waits_on (wait_for s2) 3 2 ∧ deadlock_history s2 = [].
Proof. by vm_compute. Qed.

(** A deadlock that is none. A request without a timeout that is refused with Conflict leaves its
    wait recorded although the caller does not wait: when the holder later asks for a row of the
    refused transaction, it is told Deadlock. *)
Theorem refused_wait_reports_deadlock :
  let s := run_calls id elements
    [(1, CallAcquire ModeExclusive (str "t") (str "x") false);
     (2, CallAcquire ModeExclusive (str "t") (str "y") false)] no_locks in
  let '(s1, r1) := run_call id elements 2 (CallAcquire ModeExclusive (str "t") (str "x") false) s in
  let '(s2, r2) := run_call id elements 1 (CallAcquire ModeExclusive (str "t") (str "y") true) s1 in
  r1 = Some (Conflict 1) ∧ r2 = Some (Deadlock 2).
Proof. by vm_compute. Qed.
