(* ===== verification/Collation.v ===== *)
(** * The default collation (include/engine/collation.hpp, src/collation.cpp)

    How two texts compare (utf8mb4_0900_ai_ci), the grouping key of a text, and LIKE. The weight tables
    (collation_data.inc, generated) are parameters: [kRuns] and [kPool]. A position in a text is the rest
    of the text from it. *)
From S2P Require Import Prelude.

(** ** Weights *)

Record Run := mkRun {
  run_start : Z;
  run_count : Z;
  run_kind : Z;
  run_n : nat;
  run_pool : nat
}.

Definition wrap16 (z : Z) : Z := z mod 2 ^ 16.

Definition is_null_text (s : list Z) : bool := bool_decide (s = str "NULL").

(** An ideograph or a code point nobody has assigned. *)
Definition implicit_weights (cp : Z) : list Z :=
  let base :=
    if ((0x4E00 <=? cp) && (cp <=? 0x9FFF)) || (cp =? 0xFA0E) || (cp =? 0xFA0F) || (cp =? 0xFA11) ||
       (cp =? 0xFA13) || (cp =? 0xFA14) || (cp =? 0xFA1F) || (cp =? 0xFA21) || (cp =? 0xFA23) ||
       (cp =? 0xFA24) || (cp =? 0xFA27) || (cp =? 0xFA28) || (cp =? 0xFA29)
    then 0xFB40
    else if ((0x3400 <=? cp) && (cp <=? 0x4DBF)) || ((0x20000 <=? cp) && (cp <=? 0x2A6DF)) ||
            ((0x2A700 <=? cp) && (cp <=? 0x2EBEF))
    then 0xFB80
    else 0xFBC0 in
  [wrap16 (base + Z.shiftr cp 15); wrap16 (Z.lor (Z.land cp 0x7FFF) 0x8000)].

(** ** Code points *)

(** The bytes after the first one of a sequence of [n] more bytes. *)
Fixpoint decode_tail (n : nat) (cp : Z) (s : list Z) : option (Z * list Z) :=
  match n with
  | O => Some (cp, s)
  | S n =>
      match s with
      | [] => None
      | d :: s =>
          if Z.land d 0xC0 =? 0x80 then decode_tail n (Z.lor (Z.shiftl cp 6) (Z.land d 0x3F)) s else None
      end
  end.

(** The code point at the first of the bytes [c :: s], and what follows it. *)
Definition decode (c : Z) (s : list Z) : Z * list Z :=
  let bad := (0xFFFD, s) in
  let sequence (len : nat) (cp : Z) :=
    if (length (c :: s) <? len)%nat then bad
    else
      match decode_tail (len - 1) cp s with
      | None => bad
      | Some (cp, rest) =>
          if ((len =? 3)%nat && (cp <? 0x800)) || ((len =? 4)%nat && ((cp <? 0x10000) || (0x10FFFF <? cp)))
          then bad else (cp, rest)
      end in
  if c <? 0x80 then (c, s)
  else if (0xC2 <=? c) && (c <=? 0xDF) then sequence 2%nat (Z.land c 0x1F)
  else if (0xE0 <=? c) && (c <=? 0xEF) then sequence 3%nat (Z.land c 0x0F)
  else if (0xF0 <=? c) && (c <=? 0xF4) then sequence 4%nat (Z.land c 0x07)
  else bad.

(** A code point takes at least one byte, so [length s] turns are enough. *)
Fixpoint code_points_loop (fuel : nat) (s : list Z) : list Z :=
  match fuel, s with
  | S fuel, c :: s => let '(cp, rest) := decode c s in cp :: code_points_loop fuel rest
  | _, _ => []
  end.
Definition code_points (s : list Z) : list Z := code_points_loop (length s) s.

Definition all_ascii (s : list Z) : bool := forallb (λ c, c <? 0x80) s.

(** ** LIKE's walk

    Both loops of like() and like_ascii(), which differ in what is a character and in [same]; [star]
    holds the pattern after the last [%] and the text at [mark]. *)
Definition c_percent : Z := 37.
Definition c_underscore : Z := 95.

Fixpoint skip_percent (p : list Z) : list Z :=
  match p with
  | c :: p' => if c =? c_percent then skip_percent p' else p
  | [] => []
  end.

Fixpoint like_loop (same : Z → Z → bool) (fuel : nat) (v p : list Z) (star : option (list Z * list Z)) : bool :=
  match fuel with
  | O => false
  | S fuel =>
      let backtrack :=
        match star with
        | Some (after, mark) => like_loop same fuel (tail mark) after (Some (after, tail mark))
        | None => false
        end in
      match v with
      | [] => match skip_percent p with [] => true | _ => false end
      | x :: v' =>
          match p with
          | [] => backtrack
          | c :: p' =>
              if c =? c_percent then like_loop same fuel v p' (Some (p', v))
              else
                match p' with
                | l :: p'' =>
                    if c =? c_backslash then
                      if same l x then like_loop same fuel v' p'' star else backtrack
                    else if (c =? c_underscore) || same c x then like_loop same fuel v' p' star else backtrack
                | [] => if (c =? c_underscore) || same c x then like_loop same fuel v' p' star else backtrack
                end
          end
      end
  end.

(** Every turn moves the mark, or reads of the pattern without moving it back. *)
Definition like_fuel (v p : list Z) : nat := (length v + 2) * S (length p).

Definition like_walk (same : Z → Z → bool) (v p : list Z) : bool := like_loop same (like_fuel v p) v p None.

(** ** What a pattern means *)

Inductive token : Type :=
  | AnyRun
  | AnyOne
  | Char (c : Z).

Fixpoint tokens (p : list Z) : list token :=
  match p with
  | [] => []
  | c :: p =>
      if c =? c_percent then AnyRun :: tokens p
      else
        match p with
        | l :: p' =>
            if c =? c_backslash then Char l :: tokens p'
            else (if c =? c_underscore then AnyOne else Char c) :: tokens p
        | [] => [if c =? c_underscore then AnyOne else Char c]
        end
  end.

Inductive matches (same : Z → Z → bool) : list token → list Z → Prop :=
  | matches_nil : matches same [] []
  | matches_one ts x v : matches same ts v → matches same (AnyOne :: ts) (x :: v)
  | matches_char ts c x v : same c x = true → matches same ts v → matches same (Char c :: ts) (x :: v)
  | matches_run_stop ts v : matches same ts v → matches same (AnyRun :: ts) v
  | matches_run_more ts x v : matches same (AnyRun :: ts) v → matches same (AnyRun :: ts) (x :: v).

Section like_walk.
Context (same : Z → Z → bool).

Abbreviation M := (matches same).

Lemma matches_run_suffix ts v : M (AnyRun :: ts) v ↔ ∃ v', v' `suffix_of` v ∧ M ts v'.
Proof.
  split.
  - remember (AnyRun :: ts) as ts' eqn:E. induction 1 as [| | |ts' v H IH|ts' x v H IH]; simplify_eq.
    + exists v. by split.
    + destruct IH as (v' & ? & ?); [done|]. exists v'. split; [by apply suffix_cons_r|done].
  - intros (v' & [pre ->] & H). induction pre as [|x pre IH]; [by apply matches_run_stop|by apply matches_run_more].
Qed.

Lemma matches_run_grow ts v v' : v' `suffix_of` v → M (AnyRun :: ts) v' → M (AnyRun :: ts) v.
Proof. rewrite !matches_run_suffix. intros Hs (v'' & Hs' & H). exists v''. split; [by etransitivity|done]. Qed.

(** A segment of one-character tokens takes as many characters. *)
Definition fixed (t : token) : Prop := t ≠ AnyRun.

Lemma matches_fixed seg ts v :
  Forall fixed seg → M (seg ++ ts) v → ∃ cs v', v = cs ++ v' ∧ length cs = length seg ∧ M ts v'.
Proof.
  intros Hs. revert v. induction Hs as [|t seg Ht _ IH]; intros v H; simpl in H.
  - exists [], v. by split.
  - inversion H; subst; try done;
      match goal with H : M (seg ++ ts) ?w |- _ => destruct (IH w H) as (cs & v' & -> & Hl & HM) end;
      eexists (_ :: cs), v'; (split_and!; [done|simpl; by rewrite Hl|done]).
Qed.

(** A proper suffix of [mark] from which the pattern after the star matches. *)
Definition retries (star : option (list Z * list Z)) : Prop :=
  match star with
  | None => False
  | Some (after, mark) => ∃ m, m `suffix_of` tail mark ∧ mark ≠ [] ∧ M (tokens after) m
  end.

(** Since the star only one-character tokens were passed, one for each character. *)
Definition star_ok (star : option (list Z * list Z)) (v p : list Z) : Prop :=
  match star with
  | None => True
  | Some (after, mark) =>
      ∃ seg cs, Forall fixed seg ∧ tokens after = seg ++ tokens p ∧ mark = cs ++ v ∧ length cs = length seg
  end.

Definition like_measure (K : nat) (v p : list Z) (star : option (list Z * list Z)) : nat :=
  match star with
  | None => (length v + 1) * K + length p
  | Some (_, mark) => length mark * K + length p
  end.

Lemma skip_percent_spec p : (match skip_percent p with [] => true | _ => false end) = true ↔ M (tokens p) [].
Proof.
  induction p as [|c p IH]; simpl; [split; [constructor|done]|]. destruct (c =? c_percent).
  - rewrite IH. split; [by apply matches_run_stop|]. by inversion 1.
  - split; [done|]. intros H. destruct p as [|l p]; [|destruct (c =? c_backslash)]; try destruct (c =? c_underscore); inversion H.
Qed.

Lemma retries_nil after mark p : star_ok (Some (after, mark)) [] p → ¬ retries (Some (after, mark)).
Proof.
  intros (seg & cs & Hf & Ht & -> & Hl) (m & Hm & Hne & H). rewrite Ht in H. rewrite app_nil_r in *.
  destruct (matches_fixed _ _ _ Hf H) as (cs' & v' & -> & Hl' & _). destruct cs as [|c cs]; [done|].
  apply suffix_length in Hm. rewrite length_app in Hm. simpl in *. lia.
Qed.

Lemma star_ok_advance star x v p p' t :
  fixed t → tokens p = t :: tokens p' → star_ok star (x :: v) p → star_ok star v p'.
Proof.
  intros Ht Hp. destruct star as [[after mark]|]; [|done]. intros (seg & cs & Hf & Ha & -> & Hl).
  exists (seg ++ [t]), (cs ++ [x]). rewrite Ha, Hp. split_and!.
  - apply Forall_app. split; [done|by constructor].
  - by rewrite <- app_assoc.
  - by rewrite <- app_assoc.
  - rewrite !length_app. simpl. lia.
Qed.

(** A later star takes over: where an older retry matches, the later run does too. *)
Lemma retries_older star v p p' :
  tokens p = AnyRun :: tokens p' → star_ok star v p → retries star → M (AnyRun :: tokens p') v.
Proof.
  intros Hp. destruct star as [[after mark]|]; [|done]. intros (seg & cs & Hf & Ha & -> & Hl) (m & Hm & Hne & H).
  rewrite Ha, Hp in H. destruct (matches_fixed _ _ _ Hf H) as (cs' & v' & -> & Hl' & HM).
  apply (matches_run_grow _ _ v'); [|done].
  assert (Hs : (cs' ++ v') `suffix_of` (cs ++ v)) by (etransitivity; [exact Hm|]; destruct (cs ++ v); [done|by exists [z]]).
  destruct Hs as [pre E]. rewrite app_assoc in E.
  assert (Hlen : (length cs ≤ length (pre ++ cs'))%nat) by (rewrite length_app; lia).
  exists (drop (length cs) (pre ++ cs')). apply (f_equal (drop (length cs))) in E.
  rewrite drop_app_length in E. rewrite E. by rewrite drop_app_le by done.
Qed.

Lemma suffix_tail {A} (m l : list A) : m `suffix_of` l ↔ m = l ∨ (l ≠ [] ∧ m `suffix_of` tail l).
Proof.
  split.
  - intros [[|y pre] ->]; [by left|]. right. split; [done|]. by exists pre.
  - intros [->|[Hl [pre E]]]; [done|]. destruct l as [|y l]; [done|]. simpl in E. subst l. by exists (y :: pre).
Qed.

Lemma like_loop_spec K fuel v p star :
  (like_measure K v p star < fuel)%nat → (length p < K)%nat →
  match star with Some (after, _) => (length after < K)%nat | None => True end →
  star_ok star v p →
  like_loop same fuel v p star = true ↔ M (tokens p) v ∨ retries star.
Proof.
  revert v p star. induction fuel as [|fuel IH]; intros v p star Hf HK Hstar Hok; [lia|].
  destruct v as [|x v].
  { simpl. rewrite skip_percent_spec. split; [by left|]. intros [H|H]; [done|]. exfalso.
    destruct star as [[after mark]|]; [|done]. by apply (retries_nil _ _ _ Hok). }
  cbn [like_loop].
  set (back := match star with
               | Some (after, mark) => like_loop same fuel (tail mark) after (Some (after, tail mark))
               | None => false
               end).
  assert (Hback : back = true ↔ retries star).
  { subst back. destruct star as [[after mark]|]; [|done].
    destruct Hok as (seg & cs & _ & _ & -> & _). destruct (cs ++ x :: v) as [|y mark] eqn:Em; [by destruct cs|].
    simpl in *. rewrite IH; [|simpl; nia|done|done|exists [], []; by split_and!]. split.
    - intros [H|(m & Hm & Hne & H)]; [by exists mark|]. exists m. split_and!; [|done|done].
      apply suffix_tail. by right.
    - intros (m & Hm & _ & H). apply suffix_tail in Hm as [->|[Hne Hm]]; [by left|]. right. by exists m. }
  clearbody back.
  assert (Hno : ∀ b : bool, (b = true ↔ retries star) → ¬ M (tokens p) (x :: v) →
                  b = true ↔ M (tokens p) (x :: v) ∨ retries star).
  { intros b -> Hn. clear -Hn. tauto. }
  (* one character read by the first token of [p] *)
  assert (Hstep : ∀ p' t (ok : bool), fixed t → tokens p = t :: tokens p' → (length p' < length p)%nat →
            (M (t :: tokens p') (x :: v) ↔ ok = true ∧ M (tokens p') v) →
            (if ok then like_loop same fuel v p' star else back) = true ↔ M (tokens p) (x :: v) ∨ retries star).
  { intros p' t ok Ht Hp Hlen HM. destruct ok.
    - rewrite IH; [rewrite Hp, HM; clear; tauto| |lia|done|by eapply star_ok_advance].
      unfold like_measure in *. destruct star as [[after mark]|]; simpl in Hf; nia.
    - apply Hno; [done|]. rewrite Hp, HM. clear. intros [? _]. done. }
  destruct p as [|c p']; [apply Hno; [done|]; inversion 1|].
  destruct (c =? c_percent) eqn:Ec.
  - assert (Hp : tokens (c :: p') = AnyRun :: tokens p') by (simpl; by rewrite Ec).
    simpl in HK. rewrite IH; [|unfold like_measure in *; destruct star as [[after mark]|]|lia|lia|exists [], []; by split_and!].
    + rewrite Hp. split.
      * intros [H|H]; left; [by apply matches_run_stop|]. destruct H as (m & Hm & _ & H). simpl in Hm.
        apply matches_run_suffix. exists m. split; [|done]. by apply suffix_cons_r.
      * intros [H|H].
        -- apply matches_run_suffix in H as (m & Hm & H). apply suffix_tail in Hm as [->|[Hne Hm]]; [by left|].
           right. by exists m.
        -- pose proof (retries_older _ _ _ _ Hp Hok H) as H'.
           apply matches_run_suffix in H' as (m & Hm & H'). apply suffix_tail in Hm as [->|[Hne Hm]]; [by left|].
           right. by exists m.
    + destruct Hok as (seg & cs & _ & _ & -> & _). rewrite length_app in Hf. simpl in *. nia.
    + simpl in *. nia.
  - destruct p' as [|l p''].
    + apply (Hstep [] (if c =? c_underscore then AnyOne else Char c)).
      * by destruct (c =? c_underscore).
      * simpl. by rewrite Ec.
      * simpl. lia.
      * destruct (c =? c_underscore); simpl; split; [inversion 1; by split|by intros [_ ?]; constructor| |].
        -- inversion 1; by split.
        -- intros [??]. by constructor.
    + destruct (c =? c_backslash) eqn:Eb.
      * apply (Hstep p'' (Char l)); [done|simpl; by rewrite Ec, Eb|simpl; lia|]. split.
        -- inversion 1; by split.
        -- intros [??]. by constructor.
      * apply (Hstep (l :: p'') (if c =? c_underscore then AnyOne else Char c)).
        -- by destruct (c =? c_underscore).
        -- cbn [tokens]. by rewrite Ec, Eb.
        -- simpl. lia.
        -- destruct (c =? c_underscore); simpl; split; [inversion 1; by split|by intros [_ ?]; constructor| |].
           ++ inversion 1; by split.
           ++ intros [??]. by constructor.
Qed.

Lemma like_walk_spec v p : like_walk same v p = true ↔ M (tokens p) v.
Proof.
  unfold like_walk. rewrite (like_loop_spec (S (length p))); [simpl; clear; tauto| |lia|done|done].
  unfold like_measure, like_fuel. nia.
Qed.
End like_walk.

Section collation.
Context (kRuns : list Run) (kPool : list Z).

(** The first run that starts after [cp]; every turn halves the interval, so [length kRuns] turns are
    enough ([upper_run_spec]). *)
Fixpoint upper_run (fuel lo hi : nat) (cp : Z) : nat :=
  match fuel with
  | O => lo
  | S fuel =>
      if (lo <? hi)%nat then
        let mid := (lo + (hi - lo) / 2)%nat in
        match kRuns !! mid with
        | Some run => if run_start run <=? cp then upper_run fuel (S mid) hi cp else upper_run fuel lo mid cp
        | None => lo
        end
      else lo
  end.

(** [v] with [f] applied to its last element. *)
Fixpoint map_last (f : Z → Z) (v : list Z) : list Z :=
  match v with
  | [] => []
  | [x] => [f x]
  | x :: v => x :: map_last f v
  end.

Definition run_weights (run : Run) (cp : Z) : list Z :=
  let out := (λ i, default 0 (kPool !! i)) <$> seq (run_pool run) (run_n run) in
  if run_kind run =? 1 then map_last (λ w, wrap16 (w + (cp - run_start run))) out else out.

Definition from_runs (cp : Z) : option (list Z) :=
  match upper_run (length kRuns) 0 (length kRuns) cp with
  | O => None
  | S i =>
      match kRuns !! i with
      | Some run => if run_start run + run_count run <=? cp then None else Some (run_weights run cp)
      | None => None
      end
  end.

Definition weights_of (cp : Z) : list Z :=
  match from_runs cp with
  | Some ws => ws
  | None =>
      if (0xAC00 <=? cp) && (cp <=? 0xD7A3) then
        let s := cp - 0xAC00 in
        let jamo := [0x1100 + s / 588; 0x1161 + (s mod 588) / 28; 0x11A7 + s mod 28] in
        let count := if s mod 28 =? 0 then 2%nat else 3%nat in
        concat ((λ j, default [] (from_runs j)) <$> take count jamo)
      else implicit_weights cp
  end.

(** AsciiTable: the weights of a code point below 128, at most one. *)
Definition table_n (c : Z) : nat := if c =? 0 then 0%nat else Nat.min 1 (length (weights_of c)).
Definition table_w (c : Z) : Z := if c =? 0 then 0 else default 0 (head (weights_of c)).

(** ** Cursor: the weights of a text, one after the other *)

Record Cursor := mkCursor {
  cur_rest : list Z;
  cur_buf : list Z
}.

Definition cursor (s : list Z) : Cursor := mkCursor s [].

(** Each turn but the last reads of the text, so [S (S (length (cur_rest c)))] turns are enough. *)
Fixpoint next (fuel : nat) (c : Cursor) : option (Z * Cursor) :=
  match fuel with
  | O => None
  | S fuel =>
      match cur_buf c, cur_rest c with
      | w :: buf, rest => Some (w, mkCursor rest buf)
      | [], [] => None
      | [], ch :: rest =>
          if ch <? 0x80 then
            if (table_n ch =? 0)%nat then next fuel (mkCursor rest [])
            else Some (table_w ch, mkCursor rest [])
          else
            let '(cp, rest) := decode ch rest in next fuel (mkCursor rest (weights_of cp))
      end
  end.

Definition cursor_next (c : Cursor) : option (Z * Cursor) := next (S (S (length (cur_rest c)))) c.

(** [while (c.next(w)) out.push_back(w);] *)
Fixpoint drain (fuel : nat) (c : Cursor) : list Z :=
  match fuel with
  | O => []
  | S fuel => match cursor_next c with Some (w, c) => w :: drain fuel c | None => [] end
  end.

(** More weights than a text can have: [bound] is the most weights of one of its code points. *)
Definition weight_bound (s : list Z) : nat :=
  length s * S (foldr (λ cp m, Nat.max (length (weights_of cp)) m) 0%nat (code_points s)).

Definition drain_fuel (s : list Z) : nat := S (weight_bound s).

(** ** compare, equal, sort_key, key *)

Fixpoint compare_loop (fuel : nat) (ca cb : Cursor) : Z :=
  match fuel with
  | O => 0
  | S fuel =>
      match cursor_next ca, cursor_next cb with
      | Some (wa, ca), Some (wb, cb) =>
          if negb (wa =? wb) then (if wa <? wb then -1 else 1) else compare_loop fuel ca cb
      | None, None => 0
      | Some _, None => 1
      | None, Some _ => -1
      end
  end.

Definition compare (a b : list Z) : Z :=
  if is_null_text a || is_null_text b
  then (if is_null_text a then (if is_null_text b then 0 else -1) else 1)
  else compare_loop (drain_fuel a) (cursor a) (cursor b).

Definition equal (a b : list Z) : bool := bool_decide (a = b) || (compare a b =? 0).

Definition weight_bytes (w : Z) : list Z := [Z.shiftr w 8; Z.land w 0xFF].

Definition text_weights (s : list Z) : list Z := drain (drain_fuel s) (cursor s).

Definition sort_key (s : list Z) : list Z := concat (weight_bytes <$> text_weights s).

Definition is_upper (c : Z) : bool := (65 <=? c) && (c <=? 90).
Definition is_printable (c : Z) : bool := (0x20 <=? c) && (c <=? 0x7E).

(** std::pair<uint16_t, char>'s order. *)
Definition weight_char_le (x y : Z * Z) : Prop := x.1 < y.1 ∨ x.1 = y.1 ∧ x.2 ≤ y.2.
#[export] Instance weight_char_le_dec x y : Decision (weight_char_le x y).
Proof. unfold weight_char_le. apply _. Defined.

Definition ascii_of_weight : list (Z * Z) :=
  merge_sort weight_char_le
    ((λ c, (table_w c, c)) <$> filter (λ c, is_upper c = false) (seqZ 0x20 95)).

(** The table's entry for a weight: lower_bound, and the test for the weight. *)
Definition plain_char (weight : Z) : option Z :=
  match find (λ e, negb (e.1 <? weight)) ascii_of_weight with
  | Some (w, c) => if w =? weight then Some c else None
  | None => None
  end.

Definition key (s : list Z) : list Z :=
  if is_null_text s then [2; 78]
  else if forallb is_printable s then (λ ch, if is_upper ch then ch - 65 + 97 else ch) <$> s
  else
    let weights := text_weights s in
    match mapM plain_char weights with
    | Some plain => plain
    | None => 1 :: concat (weight_bytes <$> weights)
    end.

(** ** like *)

Definition same_weights (a b : Z) : bool := (a =? b) || bool_decide (weights_of a = weights_of b).

Definition same_ascii (a b : Z) : bool :=
  (a =? b) || ((table_n a =? table_n b)%nat && ((table_n a =? 0)%nat || (table_w a =? table_w b))).

Definition like_ascii (v p : list Z) : bool := like_walk same_ascii v p.

Definition like (value pattern : list Z) : bool :=
  if is_null_text value then false
  else if all_ascii value && all_ascii pattern then like_ascii value pattern
  else like_walk same_weights (code_points value) (code_points pattern).

(** ** The weights of a text *)

Lemma decode_tail_length n cp s cp' rest : decode_tail n cp s = Some (cp', rest) → (length rest ≤ length s)%nat.
Proof.
  revert cp s. induction n as [|n IH]; intros cp s; simpl; [by intros [= <- <-]|].
  destruct s as [|d s]; [done|]. destruct (_ =? _); [|done]. intros H%IH. simpl. lia.
Qed.

Lemma decode_length c s : (length (decode c s).2 ≤ length s)%nat.
Proof.
  assert (Hseq : ∀ len cp (test : Z → bool), (length ((
      if (length (c :: s) <? len)%nat then (0xFFFD, s)
      else match decode_tail (len - 1) cp s with
           | None => (0xFFFD, s)
           | Some (cp, rest) => if test cp then (0xFFFD, s) else (cp, rest)
           end)%Z).2 ≤ length s)%nat).
  { intros len cp test. destruct (_ <? _)%nat; [done|]. destruct (decode_tail _ _ _) as [[cp' rest]|] eqn:E; [|done].
    apply decode_tail_length in E. by destruct (test cp'). }
  unfold decode. destruct (c <? 128); [done|]. destruct ((194 <=? c) && _); [|destruct ((224 <=? c) && _); [|destruct ((240 <=? c) && _); [|done]]].
  - apply (Hseq 2%nat _ (λ cp, ((2 =? 3)%nat && (cp <? 2048)) || _)).
  - apply (Hseq 3%nat _ (λ cp, ((3 =? 3)%nat && (cp <? 2048)) || _)).
  - apply (Hseq 4%nat _ (λ cp, ((4 =? 3)%nat && (cp <? 2048)) || _)).
Qed.

(** The reference: what the cursor gives, code point by code point. *)
Fixpoint weights_ref (fuel : nat) (s : list Z) : list Z :=
  match fuel, s with
  | S fuel, ch :: rest =>
      if ch <? 0x80 then (if (table_n ch =? 0)%nat then [] else [table_w ch]) ++ weights_ref fuel rest
      else let '(cp, rest) := decode ch rest in weights_of cp ++ weights_ref fuel rest
  | _, _ => []
  end.

Definition remaining (c : Cursor) : list Z := cur_buf c ++ weights_ref (length (cur_rest c)) (cur_rest c).

Lemma weights_ref_enough s : ∀ f1 f2, (length s ≤ f1)%nat → (length s ≤ f2)%nat → weights_ref f1 s = weights_ref f2 s.
Proof.
  remember (length s) as n eqn:En. revert s En.
  induction n as [n IH] using lt_wf_ind. intros [|ch rest] -> [|f1] [|f2]; simpl; try (done || lia). intros H1 H2.
  destruct (ch <? 128); [f_equal; apply (IH (length rest)); simpl; lia|].
  pose proof (decode_length ch rest) as Hl. destruct (decode ch rest) as [cp r]. simpl in Hl.
  f_equal. apply (IH (length r)); simpl; lia.
Qed.

Lemma next_spec fuel c :
  (length (cur_rest c) + 1 < fuel)%nat →
  match remaining c with
  | [] => next fuel c = None
  | w :: ws => ∃ c', next fuel c = Some (w, c') ∧ remaining c' = ws ∧ (length (cur_rest c') ≤ length (cur_rest c))%nat
  end.
Proof.
  revert c. induction fuel as [|fuel IH]; intros [rest buf] Hf; simpl in *; [lia|]. unfold remaining. simpl.
  destruct buf as [|w buf]; simpl; [|by exists (mkCursor rest buf)].
  destruct rest as [|ch rest]; simpl in *; [done|]. destruct (ch <? 128).
  - destruct (table_n ch =? 0)%nat; simpl.
    + specialize (IH (mkCursor rest [])). unfold remaining in IH. simpl in IH.
      destruct (weights_ref _ _); [apply IH; lia|]. destruct (IH ltac:(lia)) as (c' & ? & ? & ?). exists c'. split_and!; [done..|lia].
    + exists (mkCursor rest []). split_and!; [done..|simpl; lia].
  - destruct (decode ch rest) as [cp r] eqn:E. pose proof (decode_length ch rest) as Hl. rewrite E in Hl. simpl in Hl.
    specialize (IH (mkCursor r (weights_of cp))). unfold remaining in IH. simpl in IH.
    rewrite (weights_ref_enough r (length rest) (length r)) by lia.
    destruct (weights_of cp ++ _) as [|w ws]; [apply IH; lia|]. destruct (IH ltac:(lia)) as (c' & ? & ? & ?). exists c'. split_and!; [done..|lia].
Qed.

Lemma cursor_next_spec c :
  match remaining c with
  | [] => cursor_next c = None
  | w :: ws => ∃ c', cursor_next c = Some (w, c') ∧ remaining c' = ws
  end.
Proof.
  pose proof (next_spec (S (S (length (cur_rest c)))) c ltac:(lia)) as H. unfold cursor_next.
  destruct (remaining c); [done|]. destruct H as (c' & ? & ? & _). by exists c'.
Qed.

Lemma drain_spec fuel c : (length (remaining c) < fuel)%nat → drain fuel c = remaining c.
Proof.
  revert c. induction fuel as [|fuel IH]; intros c Hf; simpl; [lia|].
  pose proof (cursor_next_spec c) as H. destruct (remaining c) as [|w ws]; [by rewrite H|].
  destruct H as (c' & -> & Hc). simpl in Hf. rewrite IH by (rewrite Hc; lia). by rewrite Hc.
Qed.

Lemma weights_ref_bound fuel s :
  (length (weights_ref fuel s) ≤
   fuel * S (foldr (λ cp m, Nat.max (length (weights_of cp)) m) 0%nat (code_points_loop fuel s)))%nat.
Proof.
  revert s. induction fuel as [|fuel IH]; intros [|ch rest]; simpl; [lia..|].
  destruct (ch <? 128) eqn:E.
  - assert (decode ch rest = (ch, rest)) as -> by (unfold decode; by rewrite E). cbn [foldr]. specialize (IH rest).
    destruct (table_n ch =? 0)%nat; simpl; nia.
  - destruct (decode ch rest) as [cp r]. cbn [foldr]. rewrite length_app. specialize (IH r). nia.
Qed.

Definition weights (s : list Z) : list Z := weights_ref (length s) s.

Lemma weights_fuel s : (length (remaining (cursor s)) < drain_fuel s)%nat.
Proof. unfold drain_fuel, weight_bound, remaining, cursor, code_points. simpl. pose proof (weights_ref_bound (length s) s). lia. Qed.

Lemma text_weights_spec s : text_weights s = weights s.
Proof. unfold text_weights. by rewrite drain_spec by apply weights_fuel. Qed.

Definition sign (c : comparison) : Z := match c with Lt => -1 | Eq => 0 | Gt => 1 end.

Lemma compare_loop_spec fuel ca cb :
  (length (remaining ca) < fuel)%nat →
  compare_loop fuel ca cb = sign (bytes_compare (remaining ca) (remaining cb)).
Proof.
  revert ca cb. induction fuel as [|fuel IH]; intros ca cb Hf; simpl; [lia|].
  pose proof (cursor_next_spec ca) as Ha. pose proof (cursor_next_spec cb) as Hb.
  destruct (remaining ca) as [|wa wsa], (remaining cb) as [|wb wsb]; simpl in Hf |- *.
  - by rewrite Ha, Hb.
  - destruct Hb as (cb' & -> & _). by rewrite Ha.
  - destruct Ha as (ca' & -> & _). by rewrite Hb.
  - destruct Ha as (ca' & -> & Ha), Hb as (cb' & -> & Hb). destruct (Z.compare_spec wa wb) as [->|H|H].
    + rewrite Z.eqb_refl. simpl. rewrite IH by (rewrite Ha; lia). by rewrite Ha, Hb.
    + rewrite (proj2 (Z.eqb_neq wa wb)) by lia. simpl. by rewrite (proj2 (Z.ltb_lt wa wb)).
    + rewrite (proj2 (Z.eqb_neq wa wb)) by lia. simpl. by rewrite (proj2 (Z.ltb_ge wa wb)) by lia.
Qed.

(** The order of two texts: NULL first, then by the weights. *)
Definition order (a b : list Z) : comparison :=
  match is_null_text a, is_null_text b with
  | true, true => Eq
  | true, false => Lt
  | false, true => Gt
  | false, false => bytes_compare (weights a) (weights b)
  end.

Lemma compare_spec a b : compare a b = sign (order a b).
Proof.
  unfold compare, order. destruct (is_null_text a), (is_null_text b); try done.
  cbn [orb]. exact (compare_loop_spec (drain_fuel a) (cursor a) (cursor b) (weights_fuel a)).
Qed.

Lemma sign_le c : sign c ≤ 0 ↔ c ≠ Gt.
Proof. by destruct c. Qed.

Lemma order_antisym a b : order b a = CompOpp (order a b).
Proof. unfold order. destruct (is_null_text a), (is_null_text b); try done. apply bytes_compare_antisym. Qed.

Lemma order_trans a b c : order a b ≠ Gt → order b c ≠ Gt → order a c ≠ Gt.
Proof.
  unfold order. destruct (is_null_text a), (is_null_text b), (is_null_text c); try done.
  rewrite <- !bytes_leb_le. apply bytes_leb_trans.
Qed.

Lemma order_refl a : order a a = Eq.
Proof. unfold order. destruct (is_null_text a); [done|]. by apply bytes_compare_eq. Qed.

(** ** The shape of weights *)

Definition is_u16 (w : Z) : Prop := 0 ≤ w < 2 ^ 16.

Lemma wrap16_u16 z : is_u16 (wrap16 z).
Proof. apply Z.mod_pos_bound. done. Qed.

Lemma map_last_u16 f v : (∀ x, is_u16 (f x)) → Forall is_u16 v → Forall is_u16 (map_last f v).
Proof.
  intros Hf. induction 1 as [|x v Hx Hv IH]; simpl; [done|]. destruct v; [by constructor|by constructor].
Qed.

Lemma from_runs_u16 cp ws : Forall is_u16 kPool → from_runs cp = Some ws → Forall is_u16 ws.
Proof.
  intros Hp. unfold from_runs. destruct (upper_run _ _ _ _) as [|i]; [done|].
  destruct (kRuns !! i) as [run|]; [|done]. destruct (_ <=? cp); [done|]. intros [= <-].
  assert (H : Forall is_u16 ((λ i, default 0 (kPool !! i)) <$> seq (run_pool run) (run_n run))).
  { apply Forall_fmap, Forall_forall. intros k _. simpl. destruct (kPool !! k) as [w|] eqn:E; simpl; [|done].
    by eapply (Forall_lookup_1 _ _ _ _ Hp). }
  unfold run_weights. destruct (_ =? 1); [|done]. apply map_last_u16; [|done]. intros. apply wrap16_u16.
Qed.

Lemma weights_of_u16 cp : Forall is_u16 kPool → Forall is_u16 (weights_of cp).
Proof.
  intros Hp. unfold weights_of. destruct (from_runs cp) as [ws|] eqn:E; [by eapply from_runs_u16|].
  destruct (_ && _).
  - apply Forall_concat, Forall_fmap, Forall_forall. intros j _. simpl.
    destruct (from_runs j) as [ws|] eqn:Ej; simpl; [by eapply from_runs_u16|done].
  - unfold implicit_weights. repeat constructor; apply wrap16_u16.
Qed.

Lemma table_w_u16 c : Forall is_u16 kPool → is_u16 (table_w c).
Proof.
  intros Hp. unfold table_w. destruct (c =? 0); [done|]. pose proof (weights_of_u16 c Hp) as H.
  by destruct H.
Qed.

Lemma weights_u16 s : Forall is_u16 kPool → Forall is_u16 (weights s).
Proof.
  intros Hp. unfold weights. generalize (length s) as fuel. intros fuel. revert s.
  induction fuel as [|fuel IH]; intros [|ch rest]; simpl; try done. destruct (ch <? 128).
  - apply Forall_app. split; [|done]. destruct (_ =? _)%nat; [done|]. constructor; [|done]. by apply table_w_u16.
  - destruct (decode ch rest) as [cp r]. apply Forall_app. split; [by apply weights_of_u16|done].
Qed.

Lemma weight_bytes_arith w : is_u16 w → weight_bytes w = [w / 256; w mod 256].
Proof.
  intros Hw. unfold weight_bytes. rewrite Z.shiftr_div_pow2 by done.
  change 0xFF with (Z.ones 8). by rewrite Z.land_ones.
Qed.

Lemma weight_bytes_compare a b :
  Forall is_u16 a → Forall is_u16 b →
  bytes_compare (concat (weight_bytes <$> a)) (concat (weight_bytes <$> b)) = bytes_compare a b.
Proof.
  intros Ha. revert b. induction Ha as [|x a Hx _ IH]; intros b Hb; destruct Hb as [|y b Hy Hb]; simpl; try done.
  specialize (IH b Hb). pose proof (weight_bytes_arith x Hx) as Ex. pose proof (weight_bytes_arith y Hy) as Ey.
  unfold weight_bytes in Ex, Ey. simplify_eq Ex. simplify_eq Ey. intros -> -> -> ->. unfold is_u16 in *.
  destruct (Z.compare_spec x y) as [->|H|H].
  - by rewrite !Z.compare_refl.
  - destruct (Z.compare_spec (x / 256) (y / 256)); [|done|exfalso; Z.to_euclidean_division_equations; lia].
    destruct (Z.compare_spec (x mod 256) (y mod 256)); [|done|]; exfalso; Z.to_euclidean_division_equations; lia.
  - destruct (Z.compare_spec (x / 256) (y / 256)); [|exfalso; Z.to_euclidean_division_equations; lia|done].
    destruct (Z.compare_spec (x mod 256) (y mod 256)); [| |done]; exfalso; Z.to_euclidean_division_equations; lia.
Qed.

(** ** The table lookup *)

Definition run_before (r r' : Run) : Prop := run_start r + run_count r ≤ run_start r'.
#[export] Instance run_before_dec r r' : Decision (run_before r r').
Proof. unfold run_before. apply _. Defined.

Lemma upper_run_spec fuel lo hi cp :
  StronglySorted (λ r r', run_start r ≤ run_start r') kRuns →
  (lo ≤ hi ≤ length kRuns)%nat → (hi - lo < 2 ^ fuel)%nat →
  (∀ i r, (i < lo)%nat → kRuns !! i = Some r → run_start r ≤ cp) →
  (∀ i r, (hi ≤ i)%nat → kRuns !! i = Some r → cp < run_start r) →
  let u := upper_run fuel lo hi cp in
  (u ≤ length kRuns)%nat ∧ (∀ i r, (i < u)%nat → kRuns !! i = Some r → run_start r ≤ cp) ∧
  (∀ i r, (u ≤ i)%nat → kRuns !! i = Some r → cp < run_start r).
Proof.
  intros Hs. revert lo hi. induction fuel as [|fuel IH]; intros lo hi Hb Hf Hlo Hhi; cbn [upper_run].
  { simpl in Hf. assert (lo = hi) as -> by lia. split_and!; [lia|done..]. }
  rewrite Nat.pow_succ_r' in Hf. destruct (Nat.ltb_spec lo hi) as [Hlt|Hge]; [|assert (lo = hi) as -> by lia; split_and!; [lia|done..]].
  pose proof (Nat.div_mod_eq (hi - lo) 2) as Hd. pose proof (Nat.mod_upper_bound (hi - lo) 2) as Hm. cbn zeta.
  destruct (kRuns !! (lo + (hi - lo) / 2)%nat) as [run|] eqn:E; [|exfalso; apply lookup_ge_None in E; lia].
  assert (Hle : ∀ i j r r', (i ≤ j)%nat → kRuns !! i = Some r → kRuns !! j = Some r' → run_start r ≤ run_start r').
  { intros i j r r' Hij Hi Hj. destruct (decide (i = j)) as [->|]; [by simplify_eq|].
    apply (StronglySorted_lookup_lt _ _ i j r r' Hs Hi Hj). lia. }
  destruct (Z.leb_spec (run_start run) cp) as [Hc|Hc]; apply IH; try lia.
  - intros i r Hi Hr. assert (run_start r ≤ run_start run) by (eapply Hle; [|done|done]; lia). lia.
  - done.
  - done.
  - intros i r Hi Hr. assert (run_start run ≤ run_start r) by (eapply Hle; [|done|done]; lia). lia.
Qed.

(** The binary search over the runs finds the run of a code point: with runs in order that do not
    overlap, a code point has the weights of the run it lies in, and none when it lies in no run. *)
Theorem from_runs_exact cp ws :
  Forall (λ r, 0 < run_count r) kRuns → StronglySorted run_before kRuns →
  from_runs cp = Some ws ↔
  ∃ run, run ∈ kRuns ∧ run_start run ≤ cp < run_start run + run_count run ∧ ws = run_weights run cp.
Proof.
  intros Hc Hs.
  assert (Hs' : StronglySorted (λ r r', run_start r ≤ run_start r') kRuns).
  { induction Hs as [|r l Hl IH Hall]; [constructor|]. apply Forall_cons in Hc as [Hr Hc].
    constructor; [by apply IH|]. eapply Forall_impl; [exact Hall|]. unfold run_before. simpl. lia. }
  destruct (upper_run_spec (length kRuns) 0 (length kRuns) cp Hs') as (Hu & Hlo & Hhi); [lia| |lia| |].
  { rewrite Nat.sub_0_r. apply Nat.pow_gt_lin_r. lia. }
  { intros i r Hi Hr. apply lookup_lt_Some in Hr. lia. }
  unfold from_runs. destruct (upper_run _ _ _ _) as [|u].
  - split; [done|]. intros (run & Hin & ? & _). apply list_elem_of_lookup in Hin as [i Hi].
    pose proof (Hhi i run ltac:(lia) Hi). lia.
  - split.
    + destruct (kRuns !! u) as [run|] eqn:E; [|done]. destruct (Z.leb_spec (run_start run + run_count run) cp); [done|].
      intros [= <-]. exists run. split_and!; [by eapply list_elem_of_lookup_2|by eapply Hlo; [|exact E]; lia|lia|done].
    + intros (run & Hin & Hr & ->). apply list_elem_of_lookup in Hin as [i Hi].
      assert (i = u) as ->.
      { destruct (Nat.lt_trichotomy i u) as [Hlt|[?|Hgt]]; [|done|].
        - exfalso. destruct (kRuns !! u) as [run'|] eqn:E.
          + pose proof (StronglySorted_lookup_lt _ _ i u run run' Hs Hi E Hlt) as Hb. unfold run_before in Hb.
            pose proof (Hlo u run' ltac:(lia) E). lia.
          + apply lookup_ge_None in E. lia.
        - exfalso. pose proof (Hhi i run ltac:(lia) Hi). lia. }
      rewrite Hi. rewrite (proj2 (Z.leb_gt _ _)) by lia. done.
Qed.

(** What the code relies on of the tables: 16-bit weights, one weight for a printable ASCII character and
    at most one for any other below 128, a letter's weight in both cases, and no weight shared otherwise.
    [ascii_tables] finds it of the entries of collation_data.inc. *)
Definition plain_ascii (c : Z) : bool := is_printable c && negb (is_upper c).

Record tables_ok : Prop := {
  tables_u16 : Forall is_u16 kPool;
  ascii_one : Forall (λ c, (length (weights_of c) ≤ 1)%nat) (seqZ 1 127);
  printable_one : Forall (λ c, table_n c = 1%nat) (seqZ 0x20 95);
  letters_fold : Forall (λ c, table_w c = table_w (c - 65 + 97)) (seqZ 65 26);
  plain_distinct : NoDup (table_w <$> filter (λ c, is_upper c = false) (seqZ 0x20 95))
}.

Context (Hok : tables_ok).

Lemma plain_ascii_elem c : c ∈ filter (λ c, is_upper c = false) (seqZ 0x20 95) ↔ plain_ascii c = true.
Proof.
  rewrite list_elem_of_filter, elem_of_seqZ. unfold plain_ascii, is_printable.
  rewrite !andb_true_iff, negb_true_iff, !Z.leb_le. split; intros; destruct_and?; split_and?; try done; lia.
Qed.

Lemma table_w_inj c d : plain_ascii c = true → plain_ascii d = true → table_w c = table_w d → c = d.
Proof.
  rewrite <- !plain_ascii_elem. pose proof (plain_distinct Hok) as Hn.
  revert Hn. generalize (filter (λ c, is_upper c = false) (seqZ 0x20 95)) as l.
  induction l as [|x l IH]; simpl; intros Hn Hc Hd He; [by apply elem_of_nil in Hc|].
  apply NoDup_cons in Hn as [Hx Hn]. apply elem_of_cons in Hc as [->|Hc]; apply elem_of_cons in Hd as [->|Hd]; auto.
  - exfalso. apply Hx. rewrite He. by apply list_elem_of_fmap_2.
  - exfalso. apply Hx. rewrite <- He. by apply list_elem_of_fmap_2.
Qed.

Lemma ascii_of_weight_elem w c : (w, c) ∈ ascii_of_weight ↔ plain_ascii c = true ∧ w = table_w c.
Proof.
  unfold ascii_of_weight. rewrite merge_sort_Permutation, list_elem_of_fmap. rewrite <- plain_ascii_elem. split.
  - intros (d & ? & ?). by simplify_eq.
  - intros [? ->]. by exists c.
Qed.

#[local] Instance weight_char_le_total : Total weight_char_le.
Proof. intros [a b] [c d]. unfold weight_char_le. simpl. lia. Qed.
#[local] Instance weight_char_le_trans : Transitive weight_char_le.
Proof. intros [a b] [c d] [e f]. unfold weight_char_le. simpl. lia. Qed.

Lemma find_lower_bound (l : list (Z * Z)) w c :
  StronglySorted weight_char_le l → (w, c) ∈ l →
  ∃ c', find (λ e, negb (e.1 <? w)) l = Some (w, c') ∧ (w, c') ∈ l.
Proof.
  induction 1 as [|[x y] l Hs IH Hall]; intros Hin; [by apply elem_of_nil in Hin|]. simpl.
  destruct (Z.ltb_spec x w) as [Hlt|Hge]; simpl.
  - apply elem_of_cons in Hin as [E|Hin]; [simplify_eq; lia|]. destruct (IH Hin) as (c' & ? & ?). exists c'. split; [done|by right].
  - apply elem_of_cons in Hin as [E|Hin]; [simplify_eq; exists y; split; [done|by left]|].
    rewrite Forall_forall in Hall. specialize (Hall _ Hin). unfold weight_char_le in Hall. simpl in Hall.
    assert (x = w) as -> by lia. exists y. split; [done|by left].
Qed.

Lemma plain_char_spec w c : plain_char w = Some c ↔ plain_ascii c = true ∧ w = table_w c.
Proof.
  unfold plain_char. split.
  - destruct (find _ _) as [[x d]|] eqn:E; [|done]. destruct (Z.eqb_spec x w) as [->|]; [|done]. intros [= ->].
    apply find_some in E as [Hin _]. by apply ascii_of_weight_elem, list_elem_of_In.
  - intros [Hc ->].
    assert (Hin : (table_w c, c) ∈ ascii_of_weight) by by apply ascii_of_weight_elem.
    assert (Hs : StronglySorted weight_char_le ascii_of_weight) by (apply StronglySorted_merge_sort; apply _).
    destruct (find_lower_bound _ _ _ Hs Hin) as (c' & -> & Hin').
    apply ascii_of_weight_elem in Hin' as [Hc' Hw]. rewrite Z.eqb_refl. f_equal. symmetry. by apply table_w_inj.
Qed.

Definition fold_case (ch : Z) : Z := if is_upper ch then ch - 65 + 97 else ch.

Lemma fold_case_plain c : is_printable c = true → plain_ascii (fold_case c) = true ∧ table_w (fold_case c) = table_w c.
Proof.
  unfold plain_ascii, fold_case. intros Hc. destruct (is_upper c) eqn:Eu.
  - pose proof (letters_fold Hok) as Hl. rewrite Forall_forall in Hl. unfold is_upper, is_printable in *. bool_cases. split.
    + rewrite (proj2 (Z.leb_le 32 _)), (proj2 (Z.leb_le _ 126)), (proj2 (Z.leb_gt _ 90)) by lia. by rewrite andb_false_r.
    + symmetry. apply Hl. apply elem_of_seqZ. lia.
  - split; [|done]. by rewrite Hc, Eu.
Qed.

Lemma weights_printable s : forallb is_printable s = true → weights s = table_w <$> s.
Proof.
  unfold weights. induction s as [|c s IH]; [done|]. cbn [forallb]. intros [Hc Hs]%andb_true_iff. simpl.
  pose proof (printable_one Hok) as Hp. rewrite Forall_forall in Hp.
  unfold is_printable in Hc. bool_cases. rewrite (proj2 (Z.ltb_lt c 128)) by lia.
  rewrite Hp by (apply elem_of_seqZ; lia). simpl. by rewrite IH.
Qed.

(** The key is a function of the weights. *)
Lemma key_weights s : is_null_text s = false →
  key s = match mapM plain_char (weights s) with
          | Some plain => plain
          | None => 1 :: concat (weight_bytes <$> weights s)
          end.
Proof.
  intros Hn. unfold key. rewrite Hn, text_weights_spec. destruct (forallb is_printable s) eqn:Ep; [|done].
  rewrite weights_printable by done.
  replace (mapM plain_char (table_w <$> s)) with (Some (fold_case <$> s)); [done|].
  symmetry. apply mapM_Some. clear Hn. induction s as [|c s IH]; [by constructor|].
  cbn [forallb] in Ep. apply andb_true_iff in Ep as [Hc Hs]. constructor; [|by apply IH].
  apply plain_char_spec. destruct (fold_case_plain c Hc) as [? E]. by rewrite E.
Qed.

Lemma plain_chars_range ws plain : mapM plain_char ws = Some plain → Forall (λ c, 32 ≤ c) plain.
Proof.
  intros H%mapM_Some. induction H as [|w c ws plain Hc _ IH]; [done|]. constructor; [|done].
  apply plain_char_spec in Hc as [Hc _]. unfold plain_ascii, is_printable in Hc. bool_cases. lia.
Qed.

Lemma key_injective a b : is_null_text a = false → is_null_text b = false → key a = key b ↔ weights a = weights b.
Proof.
  intros Ha Hb. rewrite !key_weights by done. split; [|by intros ->].
  destruct (mapM plain_char (weights a)) as [pa|] eqn:Ea, (mapM plain_char (weights b)) as [pb|] eqn:Eb.
  - intros ->. apply mapM_Some in Ea, Eb. revert Eb. generalize (weights b) as wb.
    induction Ea as [|w c ws pl Hc _ IH]; intros wb H; inversion H as [|w' c' ws' pl' Hc' Hr]; subst; [done|].
    f_equal; [|by apply IH]. apply plain_char_spec in Hc as [_ ->], Hc' as [_ ->]. done.
  - intros ->. apply plain_chars_range in Ea. inversion Ea. lia.
  - intros <-. apply plain_chars_range in Eb. inversion Eb. lia.
  - intros [= E]. pose proof (weights_u16 a (tables_u16 Hok)) as Ua. pose proof (weights_u16 b (tables_u16 Hok)) as Ub.
    apply bytes_compare_eq. rewrite <- weight_bytes_compare by done. by apply bytes_compare_eq.
Qed.

Lemma key_null b : is_null_text b = false → key b ≠ [2; 78].
Proof.
  intros Hb. rewrite key_weights by done. destruct (mapM _ _) as [p|] eqn:E; [|done].
  apply plain_chars_range in E. intros ->. inversion E. lia.
Qed.

Lemma key_not_null b : is_null_text b = false → key b ≠ str "NULL".
Proof.
  intros Hb. rewrite key_weights by done. destruct (mapM _ _) as [p|] eqn:E; [|done]. intros ->.
  apply mapM_Some in E. inversion E as [|w c ws l Hc _]; subst. apply plain_char_spec in Hc as [Hc _]. done.
Qed.

Lemma equal_order a b : equal a b = true ↔ order a b = Eq.
Proof.
  unfold equal. rewrite orb_true_iff, bool_decide_eq_true, Z.eqb_eq, compare_spec. split.
  - intros [->|H]; [apply order_refl|by destruct (order a b)].
  - intros ->. by right.
Qed.

(** ** LIKE on ASCII texts *)

Definition plain_byte (c : Z) : Prop := 0 < c < 128.

Lemma code_points_ascii s : Forall (λ c, c < 128) s → code_points s = s.
Proof.
  unfold code_points. induction 1 as [|c s Hc _ IH]; [done|]. simpl. unfold decode.
  rewrite (proj2 (Z.ltb_lt c 128)) by done. by rewrite IH.
Qed.

Lemma same_ascii_weights a b : plain_byte a → plain_byte b → same_ascii a b = same_weights a b.
Proof.
  intros Ha Hb. unfold same_ascii, same_weights, table_n, table_w, plain_byte in *.
  rewrite (proj2 (Z.eqb_neq a 0)), (proj2 (Z.eqb_neq b 0)) by lia.
  pose proof (ascii_one Hok) as H1. rewrite Forall_forall in H1.
  pose proof (H1 a ltac:(apply elem_of_seqZ; lia)) as Hla. pose proof (H1 b ltac:(apply elem_of_seqZ; lia)) as Hlb.
  f_equal. destruct (weights_of a) as [|x [|? ?]], (weights_of b) as [|y [|? ?]]; simpl in *; try lia.
  destruct (Z.eqb_spec x y) as [->|Hne]; [by rewrite bool_decide_eq_true_2|].
  rewrite bool_decide_eq_false_2; [done|congruence].
Qed.

Lemma tokens_chars (P : Z → Prop) p : Forall P p → ∀ c, Char c ∈ tokens p → P c.
Proof.
  remember (length p) as n eqn:En. revert p En. induction n as [n IH] using lt_wf_ind.
  intros p -> Hp c. destruct Hp as [|x p Hx Hp]; [by intros ?%elem_of_nil|]. cbn [tokens].
  destruct (x =? c_percent); [intros [[=]|Hc]%elem_of_cons; by eapply (IH (length p)); [simpl; lia|done..]|].
  destruct Hp as [|l p Hl Hp].
  - intros Hc%list_elem_of_singleton. destruct (x =? c_underscore); by simplify_eq.
  - destruct (x =? c_backslash).
    + intros [[= ->]|Hc]%elem_of_cons; [done|]. by eapply (IH (length p)); [simpl; lia|done..].
    + intros [E|Hc]%elem_of_cons; [destruct (x =? c_underscore); by simplify_eq|].
      eapply (IH (length (l :: p))); [simpl; lia|done|by constructor|done].
Qed.

Lemma matches_ext (P : Z → Prop) f g ts v :
  (∀ a b, P a → P b → f a b = g a b) → (∀ c, Char c ∈ ts → P c) → Forall P v → matches f ts v → matches g ts v.
Proof.
  intros Hfg Hts Hv H. induction H as [|ts x v H IH|ts c x v Hs H IH|ts v H IH|ts x v H IH].
  - constructor.
  - apply Forall_cons in Hv as [? ?]. constructor. apply IH; [|done]. intros c Hc. apply Hts. by right.
  - apply Forall_cons in Hv as [? ?]. constructor.
    + rewrite <- Hfg; [done|apply Hts; by left|done].
    + apply IH; [|done]. intros d Hd. apply Hts. by right.
  - apply matches_run_stop, IH; [|done]. intros c Hc. apply Hts. by right.
  - apply Forall_cons in Hv as [? ?]. by apply matches_run_more, IH.
Qed.

Lemma all_ascii_bytes s : is_bytes s → 0 ∉ s → all_ascii s = true → Forall plain_byte s.
Proof.
  unfold all_ascii. rewrite forallb_forall, Forall_forall. intros Hb H0 Ha c Hc.
  unfold is_bytes in Hb. rewrite Forall_forall in Hb. specialize (Hb c Hc). specialize (Ha c ltac:(by apply list_elem_of_In)).
  apply Z.ltb_lt in Ha. assert (c ≠ 0) by (by intros ->). unfold is_byte, plain_byte in *. lia.
Qed.

(** ** Properties *)

(** [compare] is a total preorder of all texts, whatever the weight tables hold: it answers -1, 0 or
    1, the two sides swapped give the opposite answer, and "not greater" is transitive. So is then
    "equal", and the sort of a column, an index or a MIN over texts depends on no order of evaluation. *)
Theorem compare_total_order :
  (∀ a b, compare a b = -1 ∨ compare a b = 0 ∨ compare a b = 1) ∧
  (∀ a b, compare b a = - compare a b) ∧
  (∀ a b c, compare a b ≤ 0 → compare b c ≤ 0 → compare a c ≤ 0).
Proof.
  split_and!.
  - intros a b. rewrite compare_spec. destruct (order a b); simpl; auto.
  - intros a b. rewrite !compare_spec, order_antisym. by destruct (order a b).
  - intros a b c. rewrite !compare_spec, !sign_le. apply order_trans.
Qed.

(** The byte order of two sort keys is [compare], for texts that are not NULL. *)
Theorem sort_key_order a b :
  is_null_text a = false → is_null_text b = false →
  compare a b = sign (bytes_compare (sort_key a) (sort_key b)).
Proof.
  intros Ha Hb. unfold sort_key. rewrite !text_weights_spec, weight_bytes_compare by (apply weights_u16, Hok).
  rewrite compare_spec. unfold order. by rewrite Ha, Hb.
Qed.

Lemma key_equal a b : key a = key b ↔ equal a b = true.
Proof.
  rewrite equal_order. unfold order. destruct (is_null_text a) eqn:Ea, (is_null_text b) eqn:Eb.
  - split; [done|]. intros _. unfold key. by rewrite Ea, Eb.
  - split; [|done]. unfold key at 1. rewrite Ea. intros H. by destruct (key_null b).
  - split; [|done]. unfold key at 2. rewrite Eb. intros H. by destruct (key_null a).
  - rewrite key_injective by done. by rewrite bytes_compare_eq.
Qed.

(** C13: two texts are [equal] exactly when their keys are the same bytes, NULL and the texts whose
    characters all weigh as ASCII characters included. Locks, hash buckets and groups by [key] therefore
    meet exactly where a comparison says the values are the same. *)
Theorem key_exact a b : key a = key b ↔ equal a b = true.
Proof. apply key_equal. Qed.

(** C14: LIKE says what a pattern means: the walk with one saved position, byte by byte where both texts
    are ASCII and code point by code point elsewhere, answers true exactly when the text can be split
    along the pattern, a run for each [%], a character for each [_] and one of the same weights for each
    other character. It always ends. *)
Theorem like_exact value pattern :
  is_bytes value → is_bytes pattern → (0 ∉ value) → (0 ∉ pattern) →
  like value pattern = true ↔
  is_null_text value = false ∧ matches same_weights (tokens (code_points pattern)) (code_points value).
Proof.
  intros Hv Hp H0v H0p. unfold like. destruct (is_null_text value); [split; [done|by intros [? _]]|].
  destruct (all_ascii value) eqn:Ev, (all_ascii pattern) eqn:Ep; cbn [andb]; try (rewrite like_walk_spec; clear; tauto).
  pose proof (all_ascii_bytes _ Hv H0v Ev) as Fv. pose proof (all_ascii_bytes _ Hp H0p Ep) as Fp.
  unfold like_ascii. rewrite like_walk_spec.
  rewrite !code_points_ascii by (eapply Forall_impl; [done|]; unfold plain_byte; simpl; lia).
  assert (Hc := tokens_chars _ _ Fp). pose proof same_ascii_weights as Hs.
  split; [intros H; split; [done|]|intros [_ H]]; (eapply (matches_ext plain_byte); [|exact Hc|exact Fv|exact H]); intros; [|symmetry]; by apply Hs.
Qed.

End collation.

(** The entries of collation_data.inc for the code points below 128, with the part of [kPool] they use. *)
Definition ascii_runs : list Run := [
  mkRun 1 8 0 0 0; mkRun 9 5 1 1 0; mkRun 14 18 0 0 1; mkRun 32 1 0 1 1; mkRun 33 1 0 1 2;
  mkRun 34 1 0 1 3; mkRun 35 1 0 1 4; mkRun 36 1 0 1 5; mkRun 37 1 0 1 6; mkRun 38 1 0 1 7;
  mkRun 39 1 0 1 8; mkRun 40 2 1 1 9; mkRun 42 1 0 1 10; mkRun 43 1 0 1 11; mkRun 44 1 0 1 12;
  mkRun 45 1 0 1 13; mkRun 46 1 0 1 14; mkRun 47 1 0 1 15; mkRun 48 10 1 1 16;
  mkRun 58 1 0 1 17; mkRun 59 1 0 1 18; mkRun 60 3 1 1 19; mkRun 63 1 0 1 20;
  mkRun 64 1 0 1 21; mkRun 65 1 0 1 22; mkRun 66 1 0 1 23; mkRun 67 1 0 1 24;
  mkRun 68 1 0 1 25; mkRun 69 1 0 1 26; mkRun 70 1 0 1 27; mkRun 71 1 0 1 28;
  mkRun 72 1 0 1 29; mkRun 73 1 0 1 30; mkRun 74 1 0 1 31; mkRun 75 1 0 1 32;
  mkRun 76 1 0 1 33; mkRun 77 1 0 1 34; mkRun 78 1 0 1 35; mkRun 79 1 0 1 36;
  mkRun 80 1 0 1 37; mkRun 81 1 0 1 38; mkRun 82 1 0 1 39; mkRun 83 1 0 1 40;
  mkRun 84 1 0 1 41; mkRun 85 1 0 1 42; mkRun 86 1 0 1 43; mkRun 87 1 0 1 44;
  mkRun 88 1 0 1 45; mkRun 89 1 0 1 46; mkRun 90 1 0 1 47; mkRun 91 1 0 1 48;
  mkRun 92 1 0 1 49; mkRun 93 1 0 1 50; mkRun 94 1 0 1 51; mkRun 95 1 0 1 52;
  mkRun 96 1 0 1 53; mkRun 97 1 0 1 54; mkRun 98 1 0 1 55; mkRun 99 1 0 1 56;
  mkRun 100 1 0 1 57; mkRun 101 1 0 1 58; mkRun 102 1 0 1 59; mkRun 103 1 0 1 60;
  mkRun 104 1 0 1 61; mkRun 105 1 0 1 62; mkRun 106 1 0 1 63; mkRun 107 1 0 1 64;
  mkRun 108 1 0 1 65; mkRun 109 1 0 1 66; mkRun 110 1 0 1 67; mkRun 111 1 0 1 68;
  mkRun 112 1 0 1 69; mkRun 113 1 0 1 70; mkRun 114 1 0 1 71; mkRun 115 1 0 1 72;
  mkRun 116 1 0 1 73; mkRun 117 1 0 1 74; mkRun 118 1 0 1 75; mkRun 119 1 0 1 76;
  mkRun 120 1 0 1 77; mkRun 121 1 0 1 78; mkRun 122 1 0 1 79; mkRun 123 1 0 1 80;
  mkRun 124 1 0 1 81; mkRun 125 1 0 1 82; mkRun 126 1 0 1 83; mkRun 127 6 0 0 84].

Definition ascii_pool : list Z := [
  513; 521; 608; 780; 920; 7186; 921; 918; 773; 791; 911; 1558; 546; 525; 631; 916; 7229; 569;
  564; 1562; 614; 910; 7239; 7264; 7290; 7311; 7338; 7397; 7412; 7448; 7474; 7500; 7525; 7543;
  7594; 7609; 7645; 7692; 7713; 7731; 7793; 7829; 7861; 7907; 7925; 7935; 7947; 7969; 793; 917;
  794; 1157; 523; 1154; 7239; 7264; 7290; 7311; 7338; 7397; 7412; 7448; 7474; 7500; 7525; 7543;
  7594; 7609; 7645; 7692; 7713; 7731; 7793; 7829; 7861; 7907; 7925; 7935; 7947; 7969; 795;
  1566; 796; 1568].

Lemma ascii_tables : tables_ok ascii_runs ascii_pool.
Proof.
  split; try (apply (bool_decide_eq_true_1 _); by vm_compute).
Defined.

Lemma sort_key_order_witness :
  compare ascii_runs ascii_pool (str "_A") (str "0") =
  sign (bytes_compare (sort_key ascii_runs ascii_pool (str "_A")) (sort_key ascii_runs ascii_pool (str "0"))).
Proof. apply (sort_key_order ascii_runs ascii_pool ascii_tables); by vm_compute. Defined.

Lemma key_exact_witness :
  key ascii_runs ascii_pool (str "Bob") = key ascii_runs ascii_pool (str "bOB") ↔
  equal ascii_runs ascii_pool (str "Bob") (str "bOB") = true.
Proof. apply (key_exact ascii_runs ascii_pool ascii_tables). Defined.

Lemma like_exact_witness :
  like ascii_runs ascii_pool (str "50% of it") (str "%0\% O_ %") = true ↔
  is_null_text (str "50% of it") = false ∧
  matches (same_weights ascii_runs ascii_pool) (tokens (code_points (str "%0\% O_ %"))) (code_points (str "50% of it")).
Proof.
  apply (like_exact ascii_runs ascii_pool ascii_tables); apply (bool_decide_eq_true_1 _); by vm_compute.
Defined.

Lemma from_runs_exact_witness :
  from_runs ascii_runs ascii_pool 57 = Some [7238] ↔
  ∃ run, run ∈ ascii_runs ∧ run_start run ≤ 57 < run_start run + run_count run ∧ [7238] = run_weights ascii_pool run 57.
Proof.
  apply (from_runs_exact ascii_runs ascii_pool).
  - apply (bool_decide_eq_true_1 _). by vm_compute.
  - repeat (constructor; [|apply (bool_decide_eq_true_1 _); by vm_compute]). constructor.
Defined.

(** A NUL byte: [like_ascii] takes it for an ignored character, the walk over code points for one with
    implicit weights, so the answer depends on whether another character is outside ASCII. *)
Example like_nul_byte :
  like ascii_runs ascii_pool [0] [1] = true ∧
  like ascii_runs ascii_pool [0; 0xC3; 0xA9] [1; 0xC3; 0xA9] = false.
Proof. by vm_compute. Qed.
