(* ===== verification/BTree.v ===== *)
(** * The B+tree of the indexes (include/engine/storage/btree.hpp, src/storage/btree.cpp)

    The nodes and every operation of the tree, over the order of the keys [cmp] (cmp_keys, see
    KeyOrder.v). A vector is a list; an operation that reads a vector out of its bounds, or takes a leaf
    for an internal node, has no defined result: [None]. *)
From S2P Require Import Prelude.

Inductive Node : Type :=
  | Internal (keys : list (list Z)) (children : list Node)
  | Leaf (keys : list (list Z)) (values : list (list Z)).

Definition ORDER : nat := 16.
Definition MIN_KEYS : nat := ORDER / 2 - 1.

(** [f] on the [idx]-th child. *)
Definition at_child {A} (f : Node → A) : list Node → nat → option A :=
  fix at_child (cs : list Node) (idx : nat) {struct cs} : option A :=
    match cs, idx with
    | [], _ => None
    | c :: _, O => Some (f c)
    | _ :: cs, S idx => at_child cs idx
    end.

Lemma at_child_lookup {A} (f : Node → A) cs idx : at_child f cs idx = f <$> cs !! idx.
Proof. revert idx. induction cs as [|c cs IH]; intros [|idx]; simpl; auto. Qed.

(** The loop over the children of the range scans: child [i] is skipped by the key after it, and the key
    before it ends the loop. *)
Definition over_children {A} (f : Node → list A) (skip stop : list Z → bool) :
    option (list Z) → list (list Z) → list Node → list A :=
  fix over (prev : option (list Z)) (ks : list (list Z)) (cs : list Node) {struct cs} : list A :=
    match cs with
    | [] => []
    | c :: cs =>
        if match ks with k :: _ => skip k | [] => false end then over (head ks) (tail ks) cs
        else if match prev with Some k => stop k | None => false end then []
        else f c ++ over (head ks) (tail ks) cs
    end.

(** The loop over the entries of a leaf. *)
Fixpoint over_entries {A} (take stop : list Z → bool) (ks : list (list Z)) (l : list A) : list A :=
  match ks, l with
  | k :: ks, x :: l =>
      if stop k then [] else if take k then x :: over_entries take stop ks l else over_entries take stop ks l
  | _, _ => []
  end.

Definition vector_erase {A} (i : nat) (l : list A) : list A := delete i l.
Definition vector_insert {A} (i : nat) (x : A) (l : list A) : list A := take i l ++ x :: drop i l.

Section tree.
Context (cmp : list Z → list Z → Z).

(** std::partition_point on keys of which a prefix satisfies [p]: the length of the prefix. *)
Fixpoint partition_point (p : list Z → bool) (keys : list (list Z)) : nat :=
  match keys with
  | k :: keys => if p k then S (partition_point p keys) else O
  | [] => O
  end.

Definition first_greater (keys : list (list Z)) (key : list Z) : nat := partition_point (λ k, cmp k key <=? 0) keys.
Definition first_geq (keys : list (list Z)) (key : list Z) : nat := partition_point (λ k, cmp k key <? 0) keys.

(** [std::find_if(keys, cmp_keys(k, key) == 0)] *)
Fixpoint find_key (keys : list (list Z)) (key : list Z) : option nat :=
  match keys with
  | k :: keys => if cmp k key =? 0 then Some O else S <$> find_key keys key
  | [] => None
  end.

Definition child_index (keys : list (list Z)) (children : list Node) (key : list Z) : nat :=
  Nat.min (first_greater keys key) (length children - 1).

(** ** search *)

Fixpoint search_node (node : Node) (key : list Z) : option (option (list Z)) :=
  match node with
  | Leaf keys values =>
      match find_key keys key with
      | Some i => v ← values !! i; Some (Some v)
      | None => Some None
      end
  | Internal keys children =>
      mjoin (at_child (λ c, search_node c key) children (child_index keys children key))
  end.

(** ** insert *)

(** The node, and the split: the key between and the right node. *)
Abbreviation inserted := (Node * option (list Z * Node))%type.

Definition insert_leaf (keys values : list (list Z)) (key value : list Z) : option inserted :=
  let pos := first_geq keys key in
  if match keys !! pos with Some k => cmp k key =? 0 | None => false end
  then Some (Leaf keys (<[pos := value]> values), None)
  else
    let keys := vector_insert pos key keys in
    let values := vector_insert pos value values in
    if (ORDER <=? length keys)%nat then
      let mid := (length keys / 2)%nat in
      mid_key ← drop mid keys !! 0%nat;
      Some (Leaf (take mid keys) (take mid values), Some (mid_key, Leaf (drop mid keys) (drop mid values)))
    else Some (Leaf keys values, None).

(** The internal node with its child at [idx] replaced by the result of the insertion in it. *)
Definition insert_internal (keys : list (list Z)) (children : list Node) (idx : nat) (r : inserted)
  : option inserted :=
  let '(new_child, split) := r in
  let children := <[idx := new_child]> children in
  match split with
  | None => Some (Internal keys children, None)
  | Some (split_key, right_child) =>
      let pos := first_geq keys split_key in
      let keys := vector_insert pos split_key keys in
      let children := vector_insert (pos + 1) right_child children in
      if (ORDER <=? length keys)%nat then
        let mid := (length keys / 2)%nat in
        up_key ← keys !! mid;
        Some (Internal (take mid keys) (take (mid + 1) children),
              Some (up_key, Internal (drop (mid + 1) keys) (drop (mid + 1) children)))
      else Some (Internal keys children, None)
  end.

Fixpoint insert_node (node : Node) (key value : list Z) : option inserted :=
  match node with
  | Leaf keys values => insert_leaf keys values key value
  | Internal keys children =>
      let idx := child_index keys children key in
      r ← mjoin (at_child (λ c, insert_node c key value) children idx);
      insert_internal keys children idx r
  end.

(** ** remove *)

Definition key_count (node : Node) : nat :=
  match node with Leaf keys _ => length keys | Internal keys _ => length keys end.

Definition borrow_from_left (keys : list (list Z)) (children : list Node) (idx : nat)
  : option (list (list Z) * list Node) :=
  left ← children !! (idx - 1)%nat;
  target ← children !! idx;
  match target, left with
  | Leaf tk tv, Leaf lk lv =>
      k ← last lk; v ← last lv;
      Some (<[(idx - 1)%nat := k]> keys,
            <[idx := Leaf (k :: tk) (v :: tv)]> (<[(idx - 1)%nat := Leaf (removelast lk) (removelast lv)]> children))
  | Internal tk tc, Internal lk lc =>
      sep ← keys !! (idx - 1)%nat; c ← last lc; k ← last lk;
      Some (<[(idx - 1)%nat := k]> keys,
            <[idx := Internal (sep :: tk) (c :: tc)]>
              (<[(idx - 1)%nat := Internal (removelast lk) (removelast lc)]> children))
  | _, _ => None
  end.

Definition borrow_from_right (keys : list (list Z)) (children : list Node) (idx : nat)
  : option (list (list Z) * list Node) :=
  right ← children !! (idx + 1)%nat;
  target ← children !! idx;
  match target, right with
  | Leaf tk tv, Leaf rk rv =>
      k ← head rk; v ← head rv; k' ← head (tail rk);
      Some (<[idx := k']> keys,
            <[idx := Leaf (tk ++ [k]) (tv ++ [v])]> (<[(idx + 1)%nat := Leaf (tail rk) (tail rv)]> children))
  | Internal tk tc, Internal rk rc =>
      sep ← keys !! idx; c ← head rc; k ← head rk;
      Some (<[idx := k]> keys,
            <[idx := Internal (tk ++ [sep]) (tc ++ [c])]> (<[(idx + 1)%nat := Internal (tail rk) (tail rc)]> children))
  | _, _ => None
  end.

(** The node [left] with the node after the separator [sep] absorbed. *)
Definition merge_nodes (left : Node) (sep : list Z) (right : Node) : option Node :=
  match left, right with
  | Leaf lk lv, Leaf rk rv => Some (Leaf (lk ++ rk) (lv ++ rv))
  | Internal lk lc, Internal rk rc => Some (Internal (lk ++ sep :: rk) (lc ++ rc))
  | _, _ => None
  end.

Definition merge_with_left (keys : list (list Z)) (children : list Node) (idx : nat)
  : option (list (list Z) * list Node) :=
  target ← children !! idx; left ← children !! (idx - 1)%nat; sep ← keys !! (idx - 1)%nat;
  merged ← merge_nodes left sep target;
  Some (vector_erase (idx - 1) keys, vector_erase idx (<[(idx - 1)%nat := merged]> children)).

Definition merge_with_right (keys : list (list Z)) (children : list Node) (idx : nat)
  : option (list (list Z) * list Node) :=
  right ← children !! (idx + 1)%nat; target ← children !! idx; sep ← keys !! idx;
  merged ← merge_nodes target sep right;
  Some (vector_erase idx keys, vector_erase (idx + 1) (<[idx := merged]> children)).

(** The child at [i] has more than [MIN_KEYS] keys. *)
Definition can_spare (children : list Node) (i : nat) : bool :=
  match children !! i with Some c => (MIN_KEYS <? key_count c)%nat | None => false end.

Definition rebalance_child (keys : list (list Z)) (children : list Node) (idx : nat)
  : option (list (list Z) * list Node) :=
  let has_left := (0 <? idx)%nat in
  let has_right := (idx + 1 <? length children)%nat in
  if has_left && can_spare children (idx - 1) then borrow_from_left keys children idx
  else if has_right && can_spare children (idx + 1) then borrow_from_right keys children idx
  else if has_left then merge_with_left keys children idx
  else if has_right then merge_with_right keys children idx
  else Some (keys, children).

(** [Some None]: the null pointer, nothing is left of the node. *)
Definition remove_leaf (keys values : list (list Z)) (key : list Z) : option Node :=
  let '(keys, values) :=
    match find_key keys key with
    | Some pos => (vector_erase pos keys, vector_erase pos values)
    | None => (keys, values)
    end in
  match keys with [] => None | _ => Some (Leaf keys values) end.

Definition remove_internal (keys : list (list Z)) (children : list Node) (idx : nat) (updated_child : option Node)
  : option (option Node) :=
  match updated_child with
  | None =>
      let children := vector_erase idx children in
      let key_idx := if (idx =? 0)%nat then 0%nat else (idx - 1)%nat in
      let keys := if (key_idx <? length keys)%nat then vector_erase key_idx keys else keys in
      match children with
      | [] => Some None
      | [c] => Some (Some c)
      | _ => Some (Some (Internal keys children))
      end
  | Some c =>
      let children := <[idx := c]> children in
      '(keys, children) ← (if (key_count c <? MIN_KEYS)%nat then rebalance_child keys children idx
                           else Some (keys, children));
      match children with
      | [c] => Some (Some c)
      | _ => Some (Some (Internal keys children))
      end
  end.

Fixpoint remove_node (node : Node) (key : list Z) : option (option Node) :=
  match node with
  | Leaf keys values => Some (remove_leaf keys values key)
  | Internal keys children =>
      let idx := child_index keys children key in
      updated ← mjoin (at_child (λ c, remove_node c key) children idx);
      remove_internal keys children idx updated
  end.

(** ** Scans *)

Fixpoint range_collect (node : Node) (start end_ : list Z) : list (list Z) :=
  match node with
  | Leaf keys values => over_entries (λ k, 0 <=? cmp k start) (λ k, 0 <? cmp k end_) keys values
  | Internal keys children =>
      over_children (λ c, range_collect c start end_) (λ k, cmp k start <=? 0) (λ k, 0 <? cmp k end_)
        None keys children
  end.

Fixpoint scan_from_node (node : Node) (start : list Z) (inclusive : bool) : list (list Z * list Z) :=
  match node with
  | Leaf keys values =>
      over_entries (λ k, if inclusive then 0 <=? cmp k start else 0 <? cmp k start) (λ _, false)
        keys (zip keys values)
  | Internal keys children =>
      over_children (λ c, scan_from_node c start inclusive) (λ k, cmp k start <=? 0) (λ _, false) None keys children
  end.

Fixpoint scan_to_node (node : Node) (end_ : list Z) (inclusive : bool) : list (list Z * list Z) :=
  match node with
  | Leaf keys values =>
      over_entries (λ k, inclusive || (cmp k end_ <? 0)) (λ k, 0 <? cmp k end_) keys (zip keys values)
  | Internal keys children =>
      over_children (λ c, scan_to_node c end_ inclusive) (λ _, false)
        (λ k, if inclusive then 0 <? cmp k end_ else 0 <=? cmp k end_) None keys children
  end.

Fixpoint range_collect_keys (node : Node) (start end_ : list Z) : list (list Z) :=
  match node with
  | Leaf keys _ => over_entries (λ k, 0 <=? cmp k start) (λ k, 0 <? cmp k end_) keys keys
  | Internal keys children =>
      over_children (λ c, range_collect_keys c start end_) (λ k, cmp k start <=? 0) (λ k, 0 <? cmp k end_)
        None keys children
  end.

Fixpoint collect_all (node : Node) : list (list Z) :=
  match node with
  | Leaf _ values => values
  | Internal _ children => concat (collect_all <$> children)
  end.

Fixpoint collect_kv_node (node : Node) : list (list Z * list Z) :=
  match node with
  | Leaf keys values => zip keys values
  | Internal _ children => concat (collect_kv_node <$> children)
  end.

(** ** BPlusTree *)

(** root_: [None] is the null pointer. *)
Abbreviation BPlusTree := (option Node).

Definition tree_search (t : BPlusTree) (key : list Z) : option (option (list Z)) :=
  match t with None => Some None | Some root => search_node root key end.

Definition tree_insert (key value : list Z) (t : BPlusTree) : option BPlusTree :=
  match t with
  | None => Some (Some (Leaf [key] [value]))
  | Some root =>
      '(new_root, split) ← insert_node root key value;
      match split with
      | None => Some (Some new_root)
      | Some (mid_key, right_node) => Some (Some (Internal [mid_key] [new_root; right_node]))
      end
  end.

Definition tree_remove (key : list Z) (t : BPlusTree) : option BPlusTree :=
  match t with None => Some None | Some root => remove_node root key end.

Definition on_root {A} (f : Node → list A) (t : BPlusTree) : list A :=
  match t with None => [] | Some root => f root end.

Definition range_search (t : BPlusTree) (start end_ : list Z) : list (list Z) :=
  on_root (λ n, range_collect n start end_) t.
Definition scan_from (t : BPlusTree) (start : list Z) (inclusive : bool) : list (list Z * list Z) :=
  on_root (λ n, scan_from_node n start inclusive) t.
Definition scan_to (t : BPlusTree) (end_ : list Z) (inclusive : bool) : list (list Z * list Z) :=
  on_root (λ n, scan_to_node n end_ inclusive) t.
Definition all_values (t : BPlusTree) : list (list Z) := on_root collect_all t.
Definition collect_all_kv (t : BPlusTree) : list (list Z * list Z) := on_root collect_kv_node t.
Definition range_keys (t : BPlusTree) (start end_ : list Z) : list (list Z) :=
  on_root (λ n, range_collect_keys n start end_) t.
Definition tree_len (t : BPlusTree) : nat := length (all_values t).

(** ** The order of keys

    What the tree relies on of [cmp] on the keys it is given: a total preorder. *)
Class KeyOrder (dom : list Z → Prop) : Prop := {
  cmp_flip a b : dom a → dom b → cmp a b < 0 ↔ 0 < cmp b a;
  cmp_trans a b c : dom a → dom b → dom c → cmp a b ≤ 0 → cmp b c ≤ 0 → cmp a c ≤ 0
}.

Context {dom : list Z → Prop} `{!KeyOrder dom}.

Definition kle (a b : list Z) : Prop := dom a ∧ dom b ∧ cmp a b ≤ 0.
Definition klt (a b : list Z) : Prop := dom a ∧ dom b ∧ cmp a b < 0.

Lemma kle_refl a : dom a → kle a a.
Proof. intros Ha. split_and!; [done..|]. pose proof (cmp_flip a a Ha Ha). lia. Qed.
Lemma klt_kle a b : klt a b → kle a b.
Proof. unfold klt, kle. intuition lia. Qed.
Lemma not_klt_kle a b : klt a b → ¬ kle b a.
Proof. intros (Ha & Hb & H) (_ & _ & H'). apply cmp_flip in H; [lia|done..]. Qed.
Lemma kle_or_klt a b : dom a → dom b → kle a b ∨ klt b a.
Proof.
  intros Ha Hb. destruct (Z.leb_spec (cmp a b) 0); [by left|]. right. split_and!; [done..|]. by apply cmp_flip.
Qed.
Lemma kle_trans a b c : kle a b → kle b c → kle a c.
Proof. intros (Ha & Hb & H) (_ & Hc & H'). split_and!; [done..|]. by apply (cmp_trans a b c). Qed.
Lemma klt_kle_trans a b c : klt a b → kle b c → klt a c.
Proof.
  intros H1 H2. destruct (kle_or_klt c a) as [H|H]; [apply H2|apply H1| |done].
  exfalso. apply (not_klt_kle a b H1). by eapply kle_trans.
Qed.
Lemma kle_klt_trans a b c : kle a b → klt b c → klt a c.
Proof.
  intros H1 H2. destruct (kle_or_klt c a) as [H|H]; [apply H2|apply H1| |done].
  exfalso. apply (not_klt_kle b c H2). by eapply kle_trans.
Qed.
Lemma klt_trans a b c : klt a b → klt b c → klt a c.
Proof. intros H%klt_kle ?. by eapply kle_klt_trans. Qed.
Lemma klt_cmp a b : klt a b → cmp a b < 0.
Proof. by intros (_ & _ & ?). Qed.
Lemma klt_cmp_flip a b : klt a b → 0 < cmp b a.
Proof. intros (? & ? & ?). by apply cmp_flip. Qed.
Lemma kle_cmp_flip a b : kle a b → 0 ≤ cmp b a.
Proof. intros (Ha & Hb & H). pose proof (cmp_flip b a Hb Ha). lia. Qed.
Lemma cmp_lt_klt a b : dom a → dom b → cmp a b < 0 → klt a b.
Proof. by intros. Qed.
Lemma cmp_ge_kle a b : dom a → dom b → 0 ≤ cmp a b → kle b a.
Proof. intros Ha Hb H. split_and!; [done..|]. pose proof (cmp_flip a b Ha Hb). pose proof (cmp_flip b a Hb Ha). lia. Qed.

(** ** The reference: a list of entries with keys in strictly ascending order *)

Fixpoint lfind (key : list Z) (l : list (list Z * list Z)) : option (list Z) :=
  match l with
  | [] => None
  | (k, v) :: l => if cmp k key =? 0 then Some v else lfind key l
  end.

(** An equal key keeps its spelling and gets the new value. *)
Fixpoint linsert (key value : list Z) (l : list (list Z * list Z)) : list (list Z * list Z) :=
  match l with
  | [] => [(key, value)]
  | (k, v) :: l =>
      if cmp k key <? 0 then (k, v) :: linsert key value l
      else if cmp k key =? 0 then (k, value) :: l
      else (key, value) :: (k, v) :: l
  end.

Fixpoint lremove (key : list Z) (l : list (list Z * list Z)) : list (list Z * list Z) :=
  match l with
  | [] => []
  | (k, v) :: l => if cmp k key =? 0 then l else (k, v) :: lremove key l
  end.

Abbreviation before key := (Forall (λ e : list Z * list Z, klt e.1 key)).
Abbreviation after key := (Forall (λ e : list Z * list Z, klt key e.1)).

Lemma lfind_after key l : after key l → lfind key l = None.
Proof.
  induction 1 as [|[k v] l Hk _ IH]; simpl; [done|]. apply klt_cmp_flip in Hk. simpl in Hk. by rewrite (proj2 (Z.eqb_neq _ _)) by lia.
Qed.
Lemma lremove_after key l : after key l → lremove key l = l.
Proof.
  induction 1 as [|[k v] l Hk _ IH]; simpl; [done|]. apply klt_cmp_flip in Hk. simpl in Hk.
  rewrite (proj2 (Z.eqb_neq _ _)) by lia. by rewrite IH.
Qed.
Lemma linsert_after key v l : after key l → linsert key v l = (key, v) :: l.
Proof.
  intros H. destruct H as [|[k x] l Hk _]; simpl; [done|]. apply klt_cmp_flip in Hk. simpl in Hk.
  by rewrite (proj2 (Z.ltb_ge _ _)), (proj2 (Z.eqb_neq _ _)) by lia.
Qed.

(** An operation on the list is one on the part between the entries before the key and after it. *)
Lemma lfind_focus key l1 l2 l3 : before key l1 → after key l3 → lfind key (l1 ++ l2 ++ l3) = lfind key l2.
Proof.
  intros H1 H3. induction H1 as [|[k v] l Hk _ IH]; simpl.
  - induction l2 as [|[k v] l2 IH]; simpl; [by apply lfind_after|]. by destruct (_ =? _).
  - apply klt_cmp in Hk. simpl in Hk. by rewrite (proj2 (Z.eqb_neq _ _)) by lia.
Qed.
Lemma linsert_focus key v l1 l2 l3 :
  before key l1 → after key l3 → linsert key v (l1 ++ l2 ++ l3) = l1 ++ linsert key v l2 ++ l3.
Proof.
  intros H1 H3. induction H1 as [|[k x] l Hk _ IH]; simpl.
  - induction l2 as [|[k x] l2 IH]; simpl; [by apply linsert_after|].
    destruct (_ <? _); simpl; [by rewrite IH|]. by destruct (_ =? _).
  - apply klt_cmp in Hk. simpl in Hk. rewrite (proj2 (Z.ltb_lt _ _)) by lia. by rewrite IH.
Qed.
Lemma lremove_focus key l1 l2 l3 :
  before key l1 → after key l3 → lremove key (l1 ++ l2 ++ l3) = l1 ++ lremove key l2 ++ l3.
Proof.
  intros H1 H3. induction H1 as [|[k x] l Hk _ IH]; simpl.
  - induction l2 as [|[k x] l2 IH]; simpl; [by apply lremove_after|]. destruct (_ =? _); simpl; [done|by rewrite IH].
  - apply klt_cmp in Hk. simpl in Hk. rewrite (proj2 (Z.eqb_neq _ _)) by lia. by rewrite IH.
Qed.

(** *** Bounds *)

Abbreviation bound := (option (list Z)).

Definition lower (lo : bound) (k : list Z) : Prop := match lo with None => dom k | Some m => kle m k end.
Definition upper (hi : bound) (k : list Z) : Prop := match hi with None => dom k | Some m => klt k m end.
Definition in_range (lo hi : bound) (k : list Z) : Prop := lower lo k ∧ upper hi k.

Lemma lower_dom lo k : lower lo k → dom k.
Proof. destruct lo; [by intros (_ & ? & _)|done]. Qed.
Lemma upper_dom hi k : upper hi k → dom k.
Proof. destruct hi; [by intros (? & _ & _)|done]. Qed.
Lemma lower_mono lo a b : lower lo a → kle a b → lower lo b.
Proof. destruct lo; simpl; [apply kle_trans|by intros _ (_ & ? & _)]. Qed.
Lemma upper_mono hi a b : upper hi b → kle a b → upper hi a.
Proof. destruct hi; simpl; [intros ??; by eapply kle_klt_trans|by intros _ (? & _ & _)]. Qed.

Definition sorted_in (lo hi : bound) (ks : list (list Z)) : Prop :=
  StronglySorted klt ks ∧ Forall (in_range lo hi) ks.

Lemma sorted_in_split lo hi l1 k l2 :
  sorted_in lo hi (l1 ++ k :: l2) → sorted_in lo (Some k) l1 ∧ sorted_in (Some k) hi (k :: l2).
Proof.
  intros [Hs Hr]. apply StronglySorted_app in Hs as (Hlt & Hs1 & Hs2). apply Forall_app in Hr as [Hr1 Hr2].
  split; split; try done.
  - rewrite Forall_forall in Hr1 |- *. intros x Hx. destruct (Hr1 x Hx) as [? _]. split; [done|].
    apply Hlt; [done|by left].
  - apply StronglySorted_inv in Hs2 as [_ Hs2]. rewrite Forall_forall in Hs2. rewrite Forall_forall in Hr2 |- *.
    intros x Hx. destruct (Hr2 x Hx) as [? Hu]. split; [|done].
    apply elem_of_cons in Hx as [->|Hx]; [by eapply kle_refl, upper_dom|]. by apply klt_kle, Hs2.
Qed.

Lemma sorted_in_join lo hi s l1 l2 :
  l1 ≠ [] → l2 ≠ [] → sorted_in lo (Some s) l1 → sorted_in (Some s) hi l2 → sorted_in lo hi (l1 ++ l2).
Proof.
  intros Hn1 Hn2 [Hs1 Hr1] [Hs2 Hr2]. rewrite Forall_forall in Hr1, Hr2.
  assert (Hlt : ∀ x y, x ∈ l1 → y ∈ l2 → klt x y).
  { intros x y Hx Hy. destruct (Hr1 x Hx) as [_ ?], (Hr2 y Hy) as [? _]. by eapply klt_kle_trans. }
  split; [by apply StronglySorted_app|]. apply Forall_app. rewrite !Forall_forall. split.
  - intros x Hx. destruct (Hr1 x Hx) as [? _]. split; [done|]. destruct l2 as [|y l2]; [done|].
    eapply upper_mono; [apply (Hr2 y); by left|]. apply klt_kle, Hlt; [done|by left].
  - intros y Hy. destruct (Hr2 y Hy) as [_ ?]. split; [|done]. destruct l1 as [|x l1]; [done|].
    eapply lower_mono; [apply (Hr1 x); by left|]. apply klt_kle, Hlt; [by left|done].
Qed.

(** ** Well-formed trees *)

(** Children and the keys between them. *)
Fixpoint chain (P : bound → bound → Node → Prop) (lo hi : bound) (ks : list (list Z)) (cs : list Node) : Prop :=
  match ks, cs with
  | [], [c] => P lo hi c
  | k :: ks, c :: cs => P lo (Some k) c ∧ chain P (Some k) hi ks cs
  | _, _ => False
  end.

(** A node of height [h] with keys in [lo, hi): all leaves at one depth, at least [min] keys here and
    [MIN_KEYS] below, fewer than [ORDER] everywhere, keys in order. *)
Fixpoint bnode (h min : nat) (lo hi : bound) (n : Node) : Prop :=
  match h, n with
  | O, Leaf ks vs => length vs = length ks ∧ (min ≤ length ks < ORDER)%nat ∧ sorted_in lo hi ks
  | S h, Internal ks cs => (min ≤ length ks < ORDER)%nat ∧ chain (bnode h MIN_KEYS) lo hi ks cs
  | _, _ => False
  end.

Definition tree_ok (t : BPlusTree) : Prop :=
  match t with None => True | Some root => ∃ h, bnode h 1 None None root end.

Abbreviation contents cs := (concat (collect_kv_node <$> cs)).
Definition entries_in (lo hi : bound) (l : list (list Z * list Z)) : Prop := sorted_in lo hi l.*1.

(** The bound after the keys [ks], and before them. *)
Definition last_bound (lo : bound) (ks : list (list Z)) : bound := match last ks with Some k => Some k | None => lo end.
Definition head_bound (hi : bound) (ks : list (list Z)) : bound := match head ks with Some k => Some k | None => hi end.

Lemma last_bound_cons lo k ks : last_bound lo (k :: ks) = last_bound (Some k) ks.
Proof. unfold last_bound. rewrite last_cons. by destruct (last ks). Qed.

(** Children each after its key. *)
Fixpoint lchain (P : bound → bound → Node → Prop) (lo : bound) (ks : list (list Z)) (cs : list Node) : Prop :=
  match ks, cs with
  | [], [] => True
  | k :: ks, c :: cs => P lo (Some k) c ∧ lchain P (Some k) ks cs
  | _, _ => False
  end.
(** ... and each behind its key. *)
Fixpoint rchain (P : bound → bound → Node → Prop) (hi : bound) (ks : list (list Z)) (cs : list Node) : Prop :=
  match ks, cs with
  | [], [] => True
  | k :: ks, c :: cs => P (Some k) (head_bound hi ks) c ∧ rchain P hi ks cs
  | _, _ => False
  end.

Section chain.
Context (P : bound → bound → Node → Prop).

Lemma chain_length lo hi ks cs : chain P lo hi ks cs → length cs = S (length ks).
Proof.
  revert lo cs. induction ks as [|k ks IH]; intros lo [|c cs]; simpl; try done.
  - by destruct cs.
  - intros [_ H%IH]. lia.
Qed.
Lemma lchain_length lo ks cs : lchain P lo ks cs → length cs = length ks.
Proof. revert lo cs. induction ks as [|k ks IH]; intros lo [|c cs]; simpl; try done. intros [_ H%IH]. lia. Qed.

(** Any children can be put between the ones before and behind: the two sides, and what is put. *)
Lemma chain_rchain lo hi k ks cs c : chain P lo hi (k :: ks) (c :: cs) ↔ P lo (Some k) c ∧ rchain P hi (k :: ks) cs.
Proof.
  revert lo k cs c. induction ks as [|k' ks IH]; intros lo k cs c.
  - simpl. destruct cs as [|c' [|? ?]]; simpl; unfold head_bound; simpl; tauto.
  - destruct cs as [|c' cs]; [simpl; tauto|]. specialize (IH (Some k) k' cs c'). simpl in *. rewrite IH.
    unfold head_bound. simpl. tauto.
Qed.

Lemma chain_plug_r lo hi ks cs ks2 cs2 :
  length cs = S (length ks) →
  chain P lo hi (ks ++ ks2) (cs ++ cs2) ↔ chain P lo (head_bound hi ks2) ks cs ∧ rchain P hi ks2 cs2.
Proof.
  revert lo cs. induction ks as [|k ks IH]; intros lo [|c cs] Hl; simpl in Hl; try lia.
  - destruct cs as [|? ?]; [|done]. destruct ks2 as [|k2 ks2]; simpl.
    + destruct cs2 as [|c2 cs2]; simpl; unfold head_bound; simpl; tauto.
    + exact (chain_rchain lo hi k2 ks2 cs2 c).
  - simpl. rewrite IH by lia. tauto.
Qed.

Lemma chain_plug lo hi ks1 cs1 ks cs ks2 cs2 :
  length cs1 = length ks1 → length cs = S (length ks) →
  chain P lo hi (ks1 ++ ks ++ ks2) (cs1 ++ cs ++ cs2) ↔
  lchain P lo ks1 cs1 ∧ chain P (last_bound lo ks1) (head_bound hi ks2) ks cs ∧ rchain P hi ks2 cs2.
Proof.
  intros H1 H2. revert lo cs1 H1. induction ks1 as [|k1 ks1 IH]; intros lo [|c1 cs1] H1; simpl in H1; try lia.
  - simpl. rewrite chain_plug_r by done. unfold last_bound. simpl. tauto.
  - simpl. rewrite IH by lia. rewrite last_bound_cons. tauto.
Qed.

(** Two chains joined at a key. *)
Lemma chain_join lo hi ks1 cs1 s ks2 cs2 :
  length cs1 = S (length ks1) →
  chain P lo hi (ks1 ++ s :: ks2) (cs1 ++ cs2) ↔ chain P lo (Some s) ks1 cs1 ∧ chain P (Some s) hi ks2 cs2.
Proof.
  revert lo cs1. induction ks1 as [|k ks1 IH]; intros lo [|c cs1] Hl; simpl in Hl; try lia.
  - destruct cs1; [|done]. simpl. tauto.
  - simpl. rewrite IH by lia. tauto.
Qed.

Context (HP : ∀ lo hi c, P lo hi c → entries_in lo hi (collect_kv_node c) ∧ collect_kv_node c ≠ []).

Lemma HP_key lo hi c : P lo hi c → ∃ k, in_range lo hi k.
Proof.
  intros [[_ Hr] Hne]%HP. destruct (collect_kv_node c) as [|[k v] l]; [done|]. exists k.
  simpl in Hr. by apply Forall_cons in Hr as [? _].
Qed.

Lemma HP_klt a b c : P (Some a) (Some b) c → klt a b.
Proof. intros (k & H1 & H2)%HP_key. by eapply kle_klt_trans. Qed.

Lemma lchain_lower lo ks cs k : lchain P lo ks cs → lower (last_bound lo ks) k → lower lo k.
Proof.
  revert lo cs. induction ks as [|k1 ks IH]; intros lo [|c cs]; simpl; try done.
  rewrite last_bound_cons. intros [Hc Hl] Hk. specialize (IH _ _ Hl Hk). simpl in IH.
  destruct (HP_key _ _ _ Hc) as (x & Hx1 & Hx2). simpl in Hx2.
  eapply lower_mono; [exact Hx1|]. apply klt_kle. by eapply klt_kle_trans.
Qed.

Lemma chain_key lo hi ks cs : chain P lo hi ks cs → ∃ k, in_range lo hi k.
Proof.
  revert lo cs. induction ks as [|k ks IH]; intros lo [|c cs]; simpl; try done.
  - destruct cs; [|done]. apply HP_key.
  - intros [(x & Hx1 & Hx2)%HP_key Hr]. destruct (IH _ _ Hr) as (y & Hy1 & Hy2). exists x. split; [done|].
    eapply upper_mono; [exact Hy2|]. apply klt_kle. simpl in Hx2, Hy1. by eapply klt_kle_trans.
Qed.

(** The keys between the children are in order, inside the bounds. *)
Lemma chain_keys lo hi ks cs :
  chain P lo hi ks cs → Forall (in_range lo hi) ks ∧ match lo with Some m => Forall (klt m) ks | None => True end.
Proof.
  revert lo cs. induction ks as [|k ks IH]; intros lo [|c cs]; simpl; try done; [by destruct lo|].
  intros [Hc Hr]. destruct (IH _ _ Hr) as [H1 H2]. destruct (HP_key _ _ _ Hc) as (x & Hx1 & Hx2). simpl in Hx2.
  assert (Hlk : lower lo k) by (eapply lower_mono; [exact Hx1|by apply klt_kle]).
  destruct (chain_key _ _ _ _ Hr) as (y & Hy1 & Hy2). split.
  - constructor.
    + split; [done|]. by eapply upper_mono.
    + eapply Forall_impl; [exact H1|]. intros z [Hz1 Hz2]. split; [|done]. eapply lower_mono; [exact Hlk|exact Hz1].
  - destruct lo as [m|]; [|done]. simpl in *. assert (klt m k) by (eapply kle_klt_trans; [exact Hx1|exact Hx2]). constructor; [done|].
    eapply Forall_impl; [exact H2|]. intros z Hz. eapply klt_trans; [done|exact Hz].
Qed.

Lemma chain_dom lo hi ks cs : chain P lo hi ks cs → Forall dom ks.
Proof. intros [H _]%chain_keys. eapply Forall_impl; [exact H|]. intros k [? _]. by eapply lower_dom. Qed.

Lemma entries_in_join lo hi s l1 l2 :
  l1 ≠ [] → l2 ≠ [] → entries_in lo (Some s) l1 → entries_in (Some s) hi l2 → entries_in lo hi (l1 ++ l2).
Proof.
  intros H1 H2 H3 H4. unfold entries_in. rewrite fmap_app.
  apply (sorted_in_join _ _ s); [by intros ?%fmap_nil_inv|by intros ?%fmap_nil_inv|done|done].
Qed.

Lemma chain_entries lo hi ks cs : chain P lo hi ks cs → entries_in lo hi (contents cs) ∧ contents cs ≠ [].
Proof.
  revert lo cs. induction ks as [|k ks IH]; intros lo [|c cs]; simpl; try done.
  - destruct cs; [|done]. simpl. rewrite app_nil_r. apply HP.
  - intros [[H1 Hn1]%HP Hr]. destruct (IH _ _ Hr) as [H2 Hn2]. split; [by eapply entries_in_join|].
    by intros [? _]%app_nil.
Qed.

(** The entries before a child that may hold [key] have smaller keys, the ones behind it greater ones. *)
Lemma lchain_before lo ks cs key :
  lchain P lo ks cs → lower (last_bound lo ks) key → before key (contents cs).
Proof.
  revert lo cs. induction ks as [|k ks IH]; intros lo [|c cs]; simpl; try done.
  rewrite last_bound_cons. intros [Hc Hl] Hk. apply Forall_app. split; [|by eapply IH].
  pose proof (lchain_lower _ _ _ _ Hl Hk) as Hkk. simpl in Hkk.
  apply HP in Hc as [[_ Hr] _]. rewrite Forall_fmap in Hr. eapply Forall_impl; [exact Hr|].
  intros [x v] [_ Hx]. simpl in *. by eapply klt_kle_trans.
Qed.

Lemma rchain_after hi ks cs key :
  rchain P hi ks cs → upper (head_bound hi ks) key → after key (contents cs).
Proof.
  revert cs. induction ks as [|k ks IH]; intros [|c cs]; simpl; try done.
  intros [Hc Hr] Hk. unfold head_bound in Hk. simpl in Hk.
  pose proof (HP_key _ _ _ Hc) as (y & Hy1 & Hy2). simpl in Hy1. apply Forall_app. split.
  - apply HP in Hc as [[_ Hc] _]. rewrite Forall_fmap in Hc. eapply Forall_impl; [exact Hc|].
    intros [x v] [Hx _]. simpl in *. by eapply klt_kle_trans.
  - apply IH; [done|]. eapply upper_mono; [exact Hy2|]. apply klt_kle. by eapply klt_kle_trans.
Qed.
End chain.

Lemma fmap_fst_zip_eq (ks vs : list (list Z)) : length vs = length ks → (zip ks vs).*1 = ks.
Proof. intros H. apply fst_zip. lia. Qed.

Lemma bnode_entries h min lo hi n :
  (1 ≤ min)%nat → bnode h min lo hi n → entries_in lo hi (collect_kv_node n) ∧ collect_kv_node n ≠ [].
Proof.
  revert min lo hi n. induction h as [|h IH]; intros min lo hi [ks cs|ks vs] Hmin; simpl; try done.
  - intros (Hl & Hk & Hs). unfold entries_in. rewrite fmap_fst_zip_eq by done. split; [done|].
    intros E. apply (f_equal (fmap fst)) in E. rewrite fmap_fst_zip_eq in E by done. destruct ks; [simpl in Hk; lia|done].
  - intros [_ Hc]. eapply chain_entries; [|exact Hc]. intros lo' hi' c. apply IH. vm_compute. lia.
Qed.

Lemma bnode_entries' h lo hi n :
  bnode h MIN_KEYS lo hi n → entries_in lo hi (collect_kv_node n) ∧ collect_kv_node n ≠ [].
Proof. apply bnode_entries. vm_compute. lia. Qed.

Lemma bnode_weaken h min min' lo hi n : (min' ≤ min)%nat → bnode h min lo hi n → bnode h min' lo hi n.
Proof. destruct h, n; simpl; intros ? H; try done; destruct_and?; split_and?; try done; lia. Qed.

(** ** Finding the place *)

Lemma partition_point_split p ks :
  ∃ ks1 ks2, ks = ks1 ++ ks2 ∧ partition_point p ks = length ks1 ∧ Forall (λ k, p k = true) ks1 ∧
    match head ks2 with Some k => p k = false | None => True end.
Proof.
  induction ks as [|k ks (ks1 & ks2 & -> & IH & H1 & H2)]; simpl; [by exists [], []|].
  destruct (p k) eqn:E.
  - exists (k :: ks1), ks2. split_and!; [done|by rewrite IH|by constructor|done].
  - exists [], (k :: ks1 ++ ks2). by split_and!.
Qed.

(** The child that may hold [key]: a record of where a descent goes. *)
Record descent (P : bound → bound → Node → Prop) (lo hi : bound) (ks : list (list Z)) (cs : list Node)
    (key : list Z) (ks1 ks2 : list (list Z)) (cs1 : list Node) (c : Node) (cs2 : list Node) : Prop := {
  de_keys : ks = ks1 ++ ks2;
  de_children : cs = cs1 ++ c :: cs2;
  de_length : length cs1 = length ks1;
  de_index : child_index ks cs key = length ks1;
  de_left : lchain P lo ks1 cs1;
  de_child : P (last_bound lo ks1) (head_bound hi ks2) c;
  de_right : rchain P hi ks2 cs2;
  de_range : in_range (last_bound lo ks1) (head_bound hi ks2) key
}.

Lemma chain_descent P lo hi ks cs key :
  (∀ lo hi c, P lo hi c → entries_in lo hi (collect_kv_node c) ∧ collect_kv_node c ≠ []) →
  chain P lo hi ks cs → in_range lo hi key →
  ∃ ks1 ks2 cs1 c cs2, descent P lo hi ks cs key ks1 ks2 cs1 c cs2.
Proof.
  intros HP Hc [Hlo Hhi]. pose proof (chain_length _ _ _ _ _ Hc) as Hl. pose proof (chain_dom P HP _ _ _ _ Hc) as Hd.
  destruct (partition_point_split (λ k, cmp k key <=? 0) ks) as (ks1 & ks2 & -> & Hp & H1 & H2).
  assert (Hi : child_index (ks1 ++ ks2) cs key = length ks1).
  { unfold child_index, first_greater. rewrite Hp, Hl, length_app. lia. }
  destruct (cs !! length ks1) as [c|] eqn:Ec; [|apply lookup_ge_None in Ec; rewrite Hl, length_app in Ec; lia].
  pose proof (take_drop_middle _ _ _ Ec) as Ecs.
  assert (Hl1 : length (take (length ks1) cs) = length ks1) by (apply length_take_le; rewrite Hl, length_app; lia).
  rewrite <- Ecs in Hc. apply (chain_plug P lo hi ks1 _ [] [c] ks2) in Hc as (Hc1 & Hc2 & Hc3); [|done..].
  exists ks1, ks2, (take (length ks1) cs), c, (drop (S (length ks1)) cs).
  apply Forall_app in Hd as [Hd1 Hd2]. assert (Hdk : dom key) by by eapply lower_dom. split; try done. split.
  - unfold last_bound. destruct (last ks1) as [k|] eqn:E; [|done]. apply last_Some in E as [l ->].
    apply Forall_app in H1 as [_ H1]. apply Forall_app in Hd1 as [_ Hd1]. inversion H1 as [|? ? Hk _]; subst. inversion Hd1; subst.
    apply Z.leb_le in Hk. by split_and!.
  - unfold head_bound. destruct ks2 as [|k ks2]; [done|]. simpl in *. apply Z.leb_gt in H2. inversion Hd2; subst.
    split_and!; [done..|]. by apply cmp_flip.
Qed.

Lemma descent_at_child {A} (f : Node → A) P lo hi ks cs key ks1 ks2 cs1 c cs2 :
  descent P lo hi ks cs key ks1 ks2 cs1 c cs2 → at_child f cs (child_index ks cs key) = Some (f c).
Proof.
  intros []. rewrite at_child_lookup, de_index0, de_children0, <- de_length0.
  by rewrite list_lookup_middle.
Qed.

(** The entries around the child. *)
Lemma descent_entries P lo hi ks cs key ks1 ks2 cs1 c cs2 :
  (∀ lo hi c, P lo hi c → entries_in lo hi (collect_kv_node c) ∧ collect_kv_node c ≠ []) →
  descent P lo hi ks cs key ks1 ks2 cs1 c cs2 →
  contents cs = contents cs1 ++ collect_kv_node c ++ contents cs2 ∧
  before key (contents cs1) ∧ after key (contents cs2).
Proof.
  intros HP []. destruct de_range0 as [Hlo Hhi]. split_and!.
  - rewrite de_children0, fmap_app, concat_app. done.
  - by eapply lchain_before.
  - by eapply rchain_after.
Qed.

(** ** search *)

Lemma find_key_spec ks (vs : list (list Z)) key :
  length vs = length ks →
  match find_key ks key with
  | Some i => ∃ v, vs !! i = Some v ∧ lfind key (zip ks vs) = Some v ∧
                   zip (delete i ks) (delete i vs) = lremove key (zip ks vs) ∧ (i < length ks)%nat
  | None => lfind key (zip ks vs) = None ∧ lremove key (zip ks vs) = zip ks vs
  end.
Proof.
  revert vs. induction ks as [|k ks IH]; intros [|v vs] Hl; simpl in *; try done.
  destruct (cmp k key =? 0); [exists v; split_and!; [done..|lia]|].
  specialize (IH vs ltac:(lia)). destruct (find_key ks key) as [i|]; simpl.
  - destruct IH as (v' & Hv & Hf & Hr & Hi). exists v'. split_and!; [done..|by rewrite Hr|lia].
  - destruct IH as [? ->]. done.
Qed.

Lemma search_node_spec h min lo hi n key :
  (1 ≤ min)%nat → bnode h min lo hi n → in_range lo hi key →
  search_node n key = Some (lfind key (collect_kv_node n)).
Proof.
  revert min lo hi n. induction h as [|h IH]; intros min lo hi [ks cs|ks vs] Hmin Hn Hk; simpl in *; try done.
  - destruct Hn as (Hl & _ & _). pose proof (find_key_spec ks vs key Hl) as H. destruct (find_key ks key) as [i|].
    + destruct H as (v & Hv & Hf & _). by rewrite Hv, Hf.
    + by destruct H as [-> _].
  - destruct Hn as [_ Hc].
    destruct (chain_descent _ _ _ _ _ key (bnode_entries' h) Hc Hk) as (ks1 & ks2 & cs1 & c & cs2 & Hd).
    rewrite (descent_at_child _ _ _ _ _ _ _ _ _ _ _ _ Hd).
    destruct (descent_entries _ _ _ _ _ _ _ _ _ _ _ (bnode_entries' h) Hd) as (-> & Hb & Ha).
    rewrite lfind_focus by done. simpl. destruct Hd. by eapply (IH MIN_KEYS); [vm_compute; lia|..].
Qed.

(** ** insert *)

Lemma vector_insert_app {A} (l1 l2 : list A) x : vector_insert (length l1) x (l1 ++ l2) = l1 ++ x :: l2.
Proof. unfold vector_insert. by rewrite take_app_length, drop_app_length. Qed.

Lemma vector_insert_length {A} i (x : A) l : length (vector_insert i x l) = S (length l).
Proof. unfold vector_insert. rewrite length_app, length_cons. rewrite length_take, length_drop. lia. Qed.

Lemma zip_app_eq (a b c d : list (list Z)) : length c = length a → zip (a ++ b) (c ++ d) = zip a c ++ zip b d.
Proof. intros. by rewrite zip_with_app. Qed.

(** What a split hands up: two halves around a key. *)
Definition inserted_ok (h min : nat) (lo hi : bound) (r : Node * option (list Z * Node)) : Prop :=
  match r.2 with
  | None => bnode h min lo hi r.1
  | Some (k, r') => bnode h MIN_KEYS lo (Some k) r.1 ∧ bnode h MIN_KEYS (Some k) hi r'
  end.
Definition inserted_entries (r : Node * option (list Z * Node)) : list (list Z * list Z) :=
  collect_kv_node r.1 ++ match r.2 with None => [] | Some (_, r') => collect_kv_node r' end.

(** The place of a key in a leaf. *)
Lemma first_geq_spec lo hi ks key :
  sorted_in lo hi ks → dom key →
  ∃ ks1 ks2, ks = ks1 ++ ks2 ∧ first_geq ks key = length ks1 ∧ Forall (λ k, klt k key) ks1 ∧
    match ks2 with [] => True | k :: ks2 => kle key k ∧ Forall (klt k) ks2 end.
Proof.
  intros [Hs Hr] Hd. destruct (partition_point_split (λ k, cmp k key <? 0) ks) as (ks1 & ks2 & -> & Hp & H1 & H2).
  assert (Hdom : Forall dom (ks1 ++ ks2)) by (eapply Forall_impl; [exact Hr|]; intros k [? _]; by eapply lower_dom).
  apply Forall_app in Hdom as [Hd1 Hd2]. exists ks1, ks2. split_and!; [done|done| |].
  - rewrite Forall_forall in H1, Hd1 |- *. intros k Hk. specialize (H1 k Hk). apply Z.ltb_lt in H1.
    split_and!; [by apply Hd1|done|done].
  - destruct ks2 as [|k ks2]; [done|]. apply StronglySorted_app in Hs as (_ & _ & Hs). apply StronglySorted_cons in Hs as [Hs _].
    simpl in H2. apply Z.ltb_ge in H2. inversion Hd2; subst. split; [|done]. by apply cmp_ge_kle.
Qed.

(** A sorted list with a key put in its place, or put in the place of an equal one. *)
Lemma sorted_in_insert lo hi ks1 ks2 key :
  sorted_in lo hi (ks1 ++ ks2) → in_range lo hi key → Forall (λ k, klt k key) ks1 → Forall (klt key) ks2 →
  sorted_in lo hi (ks1 ++ key :: ks2).
Proof.
  intros [Hs Hr] Hk H1 H2. apply StronglySorted_app in Hs as (H12 & Hs1 & Hs2). apply Forall_app in Hr as [Hr1 Hr2].
  split; [|apply Forall_app; split; [done|by constructor]].
  apply StronglySorted_app. split_and!; [|done|by apply StronglySorted_cons].
  intros x y Hx [->|Hy]%elem_of_cons; [|by apply H12]. rewrite Forall_forall in H1. by apply H1.
Qed.

Ltac sizes := change MIN_KEYS with 7%nat in *; change ORDER with 16%nat in *;
  rewrite ?length_app, ?length_cons, ?length_take, ?length_drop in *; simpl length in *; lia.

Lemma insert_leaf_spec min lo hi ks vs key value :
  (min ≤ MIN_KEYS)%nat → bnode 0 min lo hi (Leaf ks vs) → in_range lo hi key →
  ∃ r, insert_leaf ks vs key value = Some r ∧ inserted_ok 0 min lo hi r ∧
       inserted_entries r = linsert key value (zip ks vs).
Proof.
  intros Hmin (Hl & Hk & Hs) Hr. assert (Hd : dom key) by (by eapply lower_dom, Hr).
  destruct (first_geq_spec lo hi ks key Hs Hd) as (ks1 & ks2 & -> & Hpos & H1 & H2).
  unfold insert_leaf. rewrite Hpos.
  assert (∃ vs1 vs2, vs = vs1 ++ vs2 ∧ length vs1 = length ks1 ∧ length vs2 = length ks2) as (vs1 & vs2 & -> & Hl1 & Hl2).
  { rewrite length_app in Hl. exists (take (length ks1) vs), (drop (length ks1) vs).
    rewrite take_drop, length_take, length_drop. split_and!; [done|lia|lia]. }
  assert (Hb : before key (zip ks1 vs1)).
  { rewrite <- (fmap_fst_zip_eq ks1 vs1 Hl1), Forall_fmap in H1. exact H1. }
  assert (Hins : linsert key value (zip (ks1 ++ ks2) (vs1 ++ vs2)) = zip ks1 vs1 ++ linsert key value (zip ks2 vs2)).
  { rewrite zip_app_eq by done. pose proof (linsert_focus key value (zip ks1 vs1) (zip ks2 vs2) [] Hb ltac:(by constructor)) as H.
    by rewrite !app_nil_r in H. }
  rewrite lookup_app_r, Nat.sub_diag by done.
  destruct (match ks2 !! 0%nat with Some k => cmp k key =? 0 | None => false end) eqn:E.
  - destruct ks2 as [|k ks2]; [done|]. destruct vs2 as [|v vs2]; [done|]. simpl in E. eexists. split; [done|].
    rewrite <- Hl1, insert_mid. split.
    + split; [rewrite !length_app in *; simpl in *; lia|by split].
    + unfold inserted_entries. cbn [fst snd]. rewrite app_nil_r, Hins. cbn [collect_kv_node].
      rewrite zip_app_eq by done. f_equal. simpl. rewrite E. by rewrite (proj2 (Z.ltb_ge _ _)) by lia.
  - assert (Hgt : Forall (klt key) ks2 ∧ linsert key value (zip ks2 vs2) = (key, value) :: zip ks2 vs2).
    { destruct ks2 as [|k ks2]; [by split|]. destruct H2 as [Hle H2]. simpl in E. apply Z.eqb_neq in E.
      pose proof (kle_cmp_flip key k Hle) as Hge. destruct Hle as (_ & Hdk & _).
      assert (Hlt : klt key k) by (split_and!; [done..|]; apply cmp_flip; [done..|lia]). split.
      - constructor; [done|]. eapply Forall_impl; [exact H2|]. intros y Hy. by eapply klt_trans.
      - destruct vs2 as [|v vs2]; [done|]. simpl. by rewrite (proj2 (Z.ltb_ge _ _)), (proj2 (Z.eqb_neq _ _)) by lia. }
    destruct Hgt as [Hgt Hins2]. rewrite Hins2 in Hins.
    assert (Hv : vector_insert (length ks1) value (vs1 ++ vs2) = vs1 ++ value :: vs2)
      by (rewrite <- Hl1; apply vector_insert_app).
    cbn zeta. rewrite vector_insert_app, Hv.
    pose proof (sorted_in_insert _ _ _ _ _ Hs Hr H1 Hgt) as Hs'.
    assert (Hz : zip (ks1 ++ key :: ks2) (vs1 ++ value :: vs2) = linsert key value (zip (ks1 ++ ks2) (vs1 ++ vs2))).
    { by rewrite Hins, zip_app_eq by done. }
    assert (Hlen : length (vs1 ++ value :: vs2) = length (ks1 ++ key :: ks2)) by (rewrite !length_app; simpl; lia).
    assert (Hn : length (ks1 ++ key :: ks2) = S (length (ks1 ++ ks2))) by (rewrite !length_app; simpl; lia).
    rewrite <- Hz. clear Hz Hins Hins2 Hb H1 H2 Hgt E Hpos Hl Hs.
    generalize dependent (vs1 ++ value :: vs2). generalize dependent (ks1 ++ key :: ks2). intros ks Hks Hn vs' Hlen.
    destruct (Nat.leb_spec ORDER (length ks)) as [Hbig|Hsmall].
    + assert (Eq : length ks = 16%nat) by sizes. rewrite Eq in *. change (16 / 2)%nat with 8%nat.
      destruct (drop 8 ks) as [|k2 kr] eqn:Ed.
      { exfalso. apply (f_equal length) in Ed. rewrite length_drop, Eq in Ed. done. }
      eexists. split; [reflexivity|].
      pose proof Hks as Hks2. rewrite <- (take_drop 8 ks), Ed in Hks2. apply sorted_in_split in Hks2 as [Hsl Hsr].
      split.
      * rewrite <- Ed in Hsr |- *. split; (split; [|split; [|done]]); rewrite ?length_take, ?length_drop; sizes.
      * unfold inserted_entries. cbn [fst snd collect_kv_node]. rewrite <- Ed.
        rewrite <- zip_app_eq; [by rewrite !take_drop|]. rewrite !length_take. lia.
    + eexists. split; [done|]. split; [split; [done|split; [sizes|done]]|].
      unfold inserted_entries. simpl. by rewrite app_nil_r.
Qed.

Lemma first_geq_between ks1 ks2 k :
  Forall (λ x, klt x k) ks1 → Forall (klt k) ks2 → first_geq (ks1 ++ ks2) k = length ks1.
Proof.
  intros H1 H2. unfold first_geq. induction H1 as [|x ks1 Hx _ IH]; simpl.
  - destruct H2 as [|y ks2 Hy _]; simpl; [done|]. apply klt_cmp_flip in Hy. by rewrite (proj2 (Z.ltb_ge _ _)) by lia.
  - apply klt_cmp in Hx. by rewrite (proj2 (Z.ltb_lt _ _)), IH by lia.
Qed.

(** An internal node that has one key too many is cut in two around its middle key. *)
Lemma chain_cut h lo hi ks cs :
  chain (bnode h MIN_KEYS) lo hi ks cs → length ks = ORDER →
  ∃ up, ks !! 8%nat = Some up ∧
    inserted_ok (S h) 0 lo hi (Internal (take 8 ks) (take 9 cs), Some (up, Internal (drop 9 ks) (drop 9 cs))).
Proof.
  intros Hc Hl. change ORDER with 16%nat in Hl. pose proof (chain_length _ _ _ _ _ Hc) as Hlc.
  destruct (ks !! 8%nat) as [up|] eqn:E; [|apply lookup_ge_None in E; lia]. exists up. split; [done|].
  rewrite <- (take_drop_middle _ _ _ E), <- (take_drop 9 cs) in Hc.
  apply chain_join in Hc as [H1 H2]; [|rewrite !length_take; lia].
  split; (split; [|done]); rewrite ?length_take, ?length_drop; sizes.
Qed.

Lemma insert_internal_spec h min lo hi ks cs key ks1 ks2 cs1 c cs2 r :
  (min ≤ length ks < ORDER)%nat →
  descent (bnode h MIN_KEYS) lo hi ks cs key ks1 ks2 cs1 c cs2 →
  inserted_ok h MIN_KEYS (last_bound lo ks1) (head_bound hi ks2) r →
  ∃ r', insert_internal ks cs (child_index ks cs key) r = Some r' ∧ inserted_ok (S h) min lo hi r' ∧
        inserted_entries r' = contents cs1 ++ inserted_entries r ++ contents cs2.
Proof.
  intros Hk [] Hr. destruct r as [c' split]. unfold insert_internal. rewrite de_index0, de_children0, <- de_length0, insert_mid.
  destruct split as [[k rn]|]; simpl in Hr.
  - destruct Hr as [Hc' Hrn].
    assert (Hc : chain (bnode h MIN_KEYS) lo hi (ks1 ++ k :: ks2) ((cs1 ++ [c']) ++ rn :: cs2)).
    { rewrite <- app_assoc. apply (chain_plug _ lo hi ks1 cs1 [k] [c'; rn] ks2 cs2); [done..|]. by split_and!. }
    assert (Hpos : first_geq ks k = length ks1).
    { rewrite de_keys0. apply chain_join in Hc as [H1 H2]; [|rewrite length_app; simpl; lia].
      apply (chain_keys _ (bnode_entries' h)) in H1 as [H1 _]. apply (chain_keys _ (bnode_entries' h)) in H2 as [_ H2].
      apply first_geq_between; [|done]. eapply Forall_impl; [exact H1|]. by intros x [_ ?]. }
    cbn zeta. rewrite Hpos, de_keys0, vector_insert_app.
    assert (Hv : vector_insert (length ks1 + 1) rn (cs1 ++ c' :: cs2) = (cs1 ++ [c']) ++ rn :: cs2).
    { rewrite <- (vector_insert_app (cs1 ++ [c']) cs2 rn), length_app, de_length0. simpl. by rewrite <- app_assoc. }
    rewrite Hv.
    assert (Hl : length (ks1 ++ k :: ks2) = S (length ks)) by (rewrite de_keys0, !length_app; simpl; lia).
    assert (He : contents ((cs1 ++ [c']) ++ rn :: cs2) =
                 contents cs1 ++ inserted_entries (c', Some (k, rn)) ++ contents cs2).
    { rewrite !fmap_app, !concat_app. unfold inserted_entries. simpl. by rewrite app_nil_r, <- !app_assoc. }
    rewrite <- He. clear He Hv Hpos. revert Hc Hl. generalize (ks1 ++ k :: ks2) ((cs1 ++ [c']) ++ rn :: cs2). intros K C Hc Hl.
    destruct (Nat.leb_spec ORDER (length K)) as [Hbig|Hsmall].
    + assert (Eq : length K = ORDER) by lia. rewrite Eq. change (ORDER / 2)%nat with 8%nat.
      destruct (chain_cut _ _ _ _ _ Hc Eq) as (up & -> & Hok). eexists. split; [reflexivity|].
      change (8 + 1)%nat with 9%nat. split; [exact Hok|]. unfold inserted_entries. cbn [fst snd collect_kv_node].
      by rewrite <- concat_app, <- fmap_app, take_drop.
    + eexists. split; [done|]. split; [split; [lia|done]|]. unfold inserted_entries. cbn [fst snd collect_kv_node].
      by rewrite app_nil_r.
  - eexists. split; [done|]. split.
    + split; [done|]. rewrite de_keys0. by apply (chain_plug _ lo hi ks1 cs1 [] [c'] ks2 cs2).
    + unfold inserted_entries. cbn [fst snd collect_kv_node]. rewrite fmap_app, concat_app. cbn [fmap list_fmap concat].
      by rewrite !app_nil_r.
Qed.

Lemma insert_node_spec h min lo hi n key value :
  (min ≤ MIN_KEYS)%nat → bnode h min lo hi n → in_range lo hi key →
  ∃ r, insert_node n key value = Some r ∧ inserted_ok h min lo hi r ∧
       inserted_entries r = linsert key value (collect_kv_node n).
Proof.
  revert min lo hi n. induction h as [|h IH]; intros min lo hi [ks cs|ks vs] Hmin Hn Hk; try done.
  - by apply insert_leaf_spec.
  - destruct Hn as [Hl Hc].
    destruct (chain_descent _ _ _ _ _ key (bnode_entries' h) Hc Hk) as (ks1 & ks2 & cs1 & c & cs2 & Hd).
    destruct (IH MIN_KEYS _ _ c (le_n _) (de_child _ _ _ _ _ _ _ _ _ _ _ Hd) (de_range _ _ _ _ _ _ _ _ _ _ _ Hd))
      as (r & Er & Hr & He).
    destruct (insert_internal_spec _ _ _ _ _ _ _ _ _ _ _ _ r Hl Hd Hr) as (r' & Er' & Hr' & He').
    exists r'. cbn [insert_node]. rewrite (descent_at_child _ _ _ _ _ _ _ _ _ _ _ _ Hd), Er. cbn [mjoin option_join mbind option_bind].
    split_and!; [exact Er'|done|].
    destruct (descent_entries _ _ _ _ _ _ _ _ _ _ _ (bnode_entries' h) Hd) as (Hcs & Hb & Ha).
    cbn [collect_kv_node]. rewrite Hcs, linsert_focus by done. by rewrite He', He.
Qed.

Lemma tree_insert_spec key value t :
  tree_ok t → dom key →
  ∃ t', tree_insert key value t = Some t' ∧ tree_ok t' ∧ collect_all_kv t' = linsert key value (collect_all_kv t).
Proof.
  intros Ht Hk. destruct t as [root|]; simpl in *.
  - destruct Ht as [h Hn]. destruct (insert_node_spec h 1 None None root key value) as ([n split] & -> & Hok & He);
      [vm_compute; lia|done|done|]. cbn [mbind option_bind]. destruct split as [[k rn]|]; simpl in *.
    + eexists. split; [done|]. split.
      * exists (S h). split; [vm_compute; lia|]. exact Hok.
      * unfold inserted_entries in He. simpl in *. by rewrite app_nil_r.
    + eexists. split; [done|]. split; [by exists h|]. unfold inserted_entries in He. simpl in *. by rewrite app_nil_r in He.
  - eexists. split; [done|]. split; [|done]. exists 0%nat. split; [done|]. split; [vm_compute; lia|].
    split; [by repeat constructor|]. constructor; [by split|done].
Qed.

(** ** remove *)

Lemma lookup_mid {A} (l : list A) x l' : (l ++ x :: l') !! length l = Some x.
Proof. by apply list_lookup_middle. Qed.
Lemma lookup_mid2 {A} (l : list A) x y l' : (l ++ x :: y :: l') !! S (length l) = Some y.
Proof. by induction l. Qed.
Lemma insert_mid2 {A} (l : list A) x y z l' : <[S (length l) := z]> (l ++ x :: y :: l') = l ++ x :: z :: l'.
Proof. induction l as [|a l IH]; simpl; [done|]. by f_equal. Qed.
Lemma erase_mid {A} (l : list A) x l' : vector_erase (length l) (l ++ x :: l') = l ++ l'.
Proof. unfold vector_erase. by rewrite delete_middle. Qed.
Lemma erase_mid2 {A} (l : list A) x y l' : vector_erase (S (length l)) (l ++ x :: y :: l') = l ++ x :: l'.
Proof. unfold vector_erase. induction l as [|a l IH]; simpl; [done|]. by f_equal. Qed.

Lemma bnode_merge h a b lo hi s l t :
  (1 ≤ a)%nat → (1 ≤ b)%nat → bnode h a lo (Some s) l → bnode h b (Some s) hi t →
  (MIN_KEYS ≤ key_count l + key_count t < ORDER - 1)%nat →
  ∃ n, merge_nodes l s t = Some n ∧ bnode h MIN_KEYS lo hi n ∧
       collect_kv_node n = collect_kv_node l ++ collect_kv_node t.
Proof.
  intros Ha Hb. destruct h as [|h], l as [lk lc|lk lv], t as [tk tc|tk tv]; simpl; try done.
  - intros (Hl & Hlk & Hls) (Ht & Htk & Hts) Hc. eexists. split; [done|]. split.
    + split; [rewrite !length_app; lia|]. split; [sizes|].
      eapply sorted_in_join; [by intros ->; simpl in *; lia|by intros ->; simpl in *; lia|done|done].
    + simpl. by rewrite zip_app_eq.
  - intros [Hlk Hl] [Htk Ht] Hc. eexists. split; [done|]. pose proof (chain_length _ _ _ _ _ Hl). split.
    + split; [sizes|]. by apply chain_join.
    + simpl. by rewrite fmap_app, concat_app.
Qed.

Lemma snoc_of {A} (l : list A) : (0 < length l)%nat → ∃ l' x, l = l' ++ [x].
Proof. intros H. destruct l as [|x l' _] using rev_ind; [simpl in H; lia|]. by exists l', x. Qed.

Lemma last_removelast {A} (l : list A) x : last (l ++ [x]) = Some x ∧ removelast (l ++ [x]) = l.
Proof. split; [apply last_snoc|apply removelast_last]. Qed.

(** What rotating between two siblings gives. *)
Definition rotated (h : nat) (lo hi : bound) (ks1 ks2 : list (list Z)) (cs1 : list Node) (l t : Node) (cs2 : list Node)
    (r : option (list (list Z) * list Node)) : Prop :=
  ∃ s' l' t', r = Some (ks1 ++ s' :: ks2, cs1 ++ l' :: t' :: cs2) ∧
    bnode h MIN_KEYS lo (Some s') l' ∧ bnode h MIN_KEYS (Some s') hi t' ∧
    collect_kv_node l' ++ collect_kv_node t' = collect_kv_node l ++ collect_kv_node t.

Lemma borrow_from_left_spec h lo hi ks1 s ks2 cs1 l t cs2 :
  length cs1 = length ks1 → bnode h MIN_KEYS lo (Some s) l → bnode h (MIN_KEYS - 1) (Some s) hi t →
  (MIN_KEYS < key_count l)%nat → (key_count t < MIN_KEYS)%nat →
  rotated h lo hi ks1 ks2 cs1 l t cs2
    (borrow_from_left (ks1 ++ s :: ks2) (cs1 ++ l :: t :: cs2) (S (length cs1))).
Proof.
  intros Hlen Hl Ht Hcl Hct. unfold borrow_from_left, rotated.
  assert (Hks : (ks1 ++ s :: ks2) !! length cs1 = Some s) by (rewrite Hlen; apply lookup_mid).
  assert (Hki : ∀ k, <[length cs1 := k]> (ks1 ++ s :: ks2) = ks1 ++ k :: ks2) by (intros; rewrite Hlen; apply insert_mid).
  replace (S (length cs1) - 1)%nat with (length cs1) by lia. rewrite lookup_mid, lookup_mid2. cbn [mbind option_bind].
  destruct h as [|h], l as [lk lc|lk lv], t as [tk tc|tk tv]; simpl in Hl, Ht, Hcl, Hct; try done.
  - destruct Hl as (Hlv & Hlk & Hls), Ht as (Htv & Htk & Hts).
    destruct (snoc_of lk) as (lk' & k & ->); [lia|]. destruct (snoc_of lv) as (lv' & v & ->); [lia|].
    rewrite !(proj1 (last_removelast _ _)), !(proj2 (last_removelast _ _)). cbn [mbind option_bind].
    exists k, (Leaf lk' lv'), (Leaf (k :: tk) (v :: tv)).
    assert (Hj : sorted_in lo hi (lk' ++ k :: tk)).
    { assert (H : sorted_in lo hi ((lk' ++ [k]) ++ tk)); [|by rewrite <- app_assoc in H].
      eapply sorted_in_join; [by destruct lk'|by intros ->; simpl in *; sizes|done|done]. }
    apply sorted_in_split in Hj as [Hj1 Hj2]. split_and!.
    + by rewrite insert_mid, insert_mid2, Hki.
    + split; [rewrite !length_app in *; simpl in *; lia|]. split; [sizes|done].
    + split; [simpl; lia|]. split; [sizes|done].
    + simpl. rewrite zip_app_eq by (rewrite !length_app in *; simpl in *; lia). by rewrite <- app_assoc.
  - destruct Hl as [Hlk Hl], Ht as [Htk Ht]. pose proof (chain_length _ _ _ _ _ Hl) as Hll.
    destruct (snoc_of lk) as (lk' & k & ->); [sizes|]. destruct (snoc_of lc) as (lc' & c & ->); [lia|].
    rewrite Hks. cbn [mbind option_bind].
    rewrite !(proj1 (last_removelast _ _)), !(proj2 (last_removelast _ _)). cbn [mbind option_bind].
    exists k, (Internal lk' lc'), (Internal (s :: tk) (c :: tc)).
    assert (Hj : chain (bnode h MIN_KEYS) lo hi (lk' ++ k :: s :: tk) (lc' ++ c :: tc)).
    { assert (H : chain (bnode h MIN_KEYS) lo hi ((lk' ++ [k]) ++ s :: tk) ((lc' ++ [c]) ++ tc)) by by apply chain_join.
      by rewrite <- !app_assoc in H. }
    apply chain_join in Hj as [Hj1 Hj2]; [|rewrite !length_app in Hll; simpl in Hll; lia]. split_and!.
    + by rewrite insert_mid, insert_mid2, Hki.
    + split; [sizes|done].
    + split; [sizes|done].
    + simpl. rewrite !fmap_app, !concat_app. simpl. by rewrite app_nil_r, <- app_assoc.
Qed.

Lemma borrow_from_right_spec h lo hi ks1 s ks2 cs1 t r cs2 :
  length cs1 = length ks1 → bnode h (MIN_KEYS - 1) lo (Some s) t → bnode h MIN_KEYS (Some s) hi r →
  (MIN_KEYS < key_count r)%nat → (key_count t < MIN_KEYS)%nat →
  rotated h lo hi ks1 ks2 cs1 t r cs2
    (borrow_from_right (ks1 ++ s :: ks2) (cs1 ++ t :: r :: cs2) (length cs1)).
Proof.
  intros Hlen Ht Hr Hcr Hct. unfold borrow_from_right, rotated.
  assert (Hks : (ks1 ++ s :: ks2) !! length cs1 = Some s) by (rewrite Hlen; apply lookup_mid).
  assert (Hki : ∀ k, <[length cs1 := k]> (ks1 ++ s :: ks2) = ks1 ++ k :: ks2) by (intros; rewrite Hlen; apply insert_mid).
  replace (length cs1 + 1)%nat with (S (length cs1)) by lia. rewrite lookup_mid, lookup_mid2. cbn [mbind option_bind].
  assert (Hins : ∀ x y : Node, <[length cs1 := x]> (<[S (length cs1) := y]> (cs1 ++ t :: r :: cs2)) = cs1 ++ x :: y :: cs2)
    by (intros; by rewrite insert_mid2, insert_mid).
  destruct h as [|h], r as [rk rc|rk rv], t as [tk tc|tk tv]; simpl in Hr, Ht, Hcr, Hct; try done.
  - destruct Hr as (Hrv & Hrk & Hrs), Ht as (Htv & Htk & Hts).
    destruct rk as [|k [|k' rk]]; [sizes|sizes|]. destruct rv as [|v rv]; [simpl in *; lia|]. cbn [head tail mbind option_bind].
    exists k', (Leaf (tk ++ [k]) (tv ++ [v])), (Leaf (k' :: rk) rv).
    assert (Hj : sorted_in lo hi ((tk ++ [k]) ++ k' :: rk)).
    { rewrite <- app_assoc. eapply sorted_in_join; [by intros ->; simpl in *; sizes|done|done|done]. }
    apply sorted_in_split in Hj as [Hj1 Hj2]. split_and!.
    + by rewrite Hins, Hki.
    + split; [rewrite !length_app; simpl; lia|]. split; [sizes|done].
    + split; [simpl in *; lia|]. split; [sizes|done].
    + simpl. rewrite zip_app_eq by done. by rewrite <- app_assoc.
  - destruct Hr as [Hrk Hr], Ht as [Htk Ht]. pose proof (chain_length _ _ _ _ _ Hr) as Hlr.
    pose proof (chain_length _ _ _ _ _ Ht) as Hlt.
    destruct rk as [|k rk]; [sizes|]. destruct rc as [|c rc]; [done|].
    rewrite Hks. cbn [head tail mbind option_bind].
    exists k, (Internal (tk ++ [s]) (tc ++ [c])), (Internal rk rc).
    assert (Hj : chain (bnode h MIN_KEYS) lo hi ((tk ++ [s]) ++ k :: rk) ((tc ++ [c]) ++ rc)).
    { rewrite <- !app_assoc. by apply chain_join. }
    apply chain_join in Hj as [Hj1 Hj2]; [|rewrite !length_app; simpl; lia]. split_and!.
    + by rewrite Hins, Hki.
    + split; [sizes|done].
    + split; [sizes|done].
    + simpl. rewrite !fmap_app, !concat_app. simpl. by rewrite app_nil_r, <- app_assoc.
Qed.

Lemma lchain_snoc P lo ks cs k c :
  length cs = length ks →
  lchain P lo (ks ++ [k]) (cs ++ [c]) ↔ lchain P lo ks cs ∧ P (last_bound lo ks) (Some k) c.
Proof.
  revert lo cs. induction ks as [|k1 ks IH]; intros lo [|c1 cs] Hl; simpl in Hl; try lia; simpl.
  - unfold last_bound. simpl. tauto.
  - rewrite IH by lia. rewrite last_bound_cons. tauto.
Qed.

(** What rebalancing gives: the children of the parent in order again, with at most one key less. *)
Definition rebalanced (h : nat) (lo hi : bound) (ks : list (list Z)) (es : list (list Z * list Z))
    (r : option (list (list Z) * list Node)) : Prop :=
  ∃ K C, r = Some (K, C) ∧ chain (bnode h MIN_KEYS) lo hi K C ∧ (length ks - 1 ≤ length K ≤ length ks)%nat ∧
    contents C = es.

Lemma rotated_rebalanced h lo hi ks1 s ks2 cs1 l t cs2 r :
  lchain (bnode h MIN_KEYS) lo ks1 cs1 → rchain (bnode h MIN_KEYS) hi ks2 cs2 →
  rotated h (last_bound lo ks1) (head_bound hi ks2) ks1 ks2 cs1 l t cs2 r →
  rebalanced h lo hi (ks1 ++ s :: ks2) (contents (cs1 ++ l :: t :: cs2)) r.
Proof.
  intros H1 H2 (s' & l' & t' & -> & Hl & Ht & He). eexists _, _. split; [done|]. split_and!.
  - apply (chain_plug _ lo hi ks1 cs1 [s'] [l'; t'] ks2 cs2); [by eapply lchain_length|done|]. by split_and!.
  - rewrite !length_app. simpl. lia.
  - rewrite !length_app. simpl. lia.
  - rewrite !fmap_app, !concat_app, !fmap_cons. cbn [concat]. f_equal. by rewrite !app_assoc, He.
Qed.

Lemma merged_rebalanced h lo hi ks1 s ks2 cs1 l t cs2 n :
  lchain (bnode h MIN_KEYS) lo ks1 cs1 → rchain (bnode h MIN_KEYS) hi ks2 cs2 →
  bnode h MIN_KEYS (last_bound lo ks1) (head_bound hi ks2) n →
  collect_kv_node n = collect_kv_node l ++ collect_kv_node t →
  rebalanced h lo hi (ks1 ++ s :: ks2) (contents (cs1 ++ l :: t :: cs2)) (Some (ks1 ++ ks2, cs1 ++ n :: cs2)).
Proof.
  intros H1 H2 Hn He. eexists _, _. split; [done|]. split_and!.
  - apply (chain_plug _ lo hi ks1 cs1 [] [n] ks2 cs2); [by eapply lchain_length|done|]. by split_and!.
  - rewrite !length_app. simpl. lia.
  - rewrite !length_app. simpl. lia.
  - rewrite !fmap_app, !concat_app, !fmap_cons. cbn [concat]. f_equal. by rewrite !app_assoc, He.
Qed.

Lemma merge_with_left_spec ks1 s ks2 cs1 l t cs2 n :
  length cs1 = length ks1 → merge_nodes l s t = Some n →
  merge_with_left (ks1 ++ s :: ks2) (cs1 ++ l :: t :: cs2) (S (length cs1)) = Some (ks1 ++ ks2, cs1 ++ n :: cs2).
Proof.
  intros Hl Hn. unfold merge_with_left. replace (S (length cs1) - 1)%nat with (length cs1) by lia.
  rewrite lookup_mid, lookup_mid2. cbn [mbind option_bind].
  assert ((ks1 ++ s :: ks2) !! length cs1 = Some s) as -> by (rewrite Hl; apply lookup_mid). cbn [mbind option_bind].
  rewrite Hn. cbn [mbind option_bind]. rewrite insert_mid, erase_mid2.
  assert (vector_erase (length cs1) (ks1 ++ s :: ks2) = ks1 ++ ks2) as -> by (rewrite Hl; apply erase_mid). done.
Qed.

Lemma merge_with_right_spec ks1 s ks2 cs1 t r cs2 n :
  length cs1 = length ks1 → merge_nodes t s r = Some n →
  merge_with_right (ks1 ++ s :: ks2) (cs1 ++ t :: r :: cs2) (length cs1) = Some (ks1 ++ ks2, cs1 ++ n :: cs2).
Proof.
  intros Hl Hn. unfold merge_with_right. replace (length cs1 + 1)%nat with (S (length cs1)) by lia.
  rewrite lookup_mid, lookup_mid2. cbn [mbind option_bind].
  assert ((ks1 ++ s :: ks2) !! length cs1 = Some s) as -> by (rewrite Hl; apply lookup_mid). cbn [mbind option_bind].
  rewrite Hn. cbn [mbind option_bind]. rewrite insert_mid, erase_mid2.
  assert (vector_erase (length cs1) (ks1 ++ s :: ks2) = ks1 ++ ks2) as -> by (rewrite Hl; apply erase_mid). done.
Qed.

Lemma bnode_count h min lo hi n : bnode h min lo hi n → (min ≤ key_count n < ORDER)%nat.
Proof. destruct h, n; simpl; try done; [by intros (_ & ? & _)|by intros [? _]]. Qed.

Lemma rebalance_child_spec h lo hi ks1 ks2 cs1 c cs2 :
  length cs1 = length ks1 → lchain (bnode h MIN_KEYS) lo ks1 cs1 → rchain (bnode h MIN_KEYS) hi ks2 cs2 →
  bnode h (MIN_KEYS - 1) (last_bound lo ks1) (head_bound hi ks2) c → (key_count c < MIN_KEYS)%nat →
  (1 ≤ length (ks1 ++ ks2))%nat →
  rebalanced h lo hi (ks1 ++ ks2) (contents (cs1 ++ c :: cs2))
    (rebalance_child (ks1 ++ ks2) (cs1 ++ c :: cs2) (length cs1)).
Proof.
  intros Hlen Hl Hr Hc Hcc Hks. unfold rebalance_child. pose proof (bnode_count _ _ _ _ _ Hc) as Hcn.
  assert (Hright : ∀ s ks2' r cs2', ks2 = s :: ks2' → cs2 = r :: cs2' →
            bnode h MIN_KEYS (Some s) (head_bound hi ks2') r ∧ rchain (bnode h MIN_KEYS) hi ks2' cs2').
  { intros s ks2' r cs2' -> ->. exact Hr. }
  set (spare := can_spare (cs1 ++ c :: cs2)). cbn zeta.
  destruct (decide (length cs1 = 0%nat)) as [H0|H0].
  - (* no left sibling *)
    destruct cs1; [|done]. destruct ks1; [|done]. cbn [app] in *. change (0 <? length (@nil Node))%nat with false. cbn [andb].
    change (length (@nil Node)) with 0%nat.
    destruct ks2 as [|s ks2]; [simpl in Hks; lia|]. destruct cs2 as [|r cs2]; [done|].
    destruct (Hright s ks2 r cs2 eq_refl eq_refl) as [Hrn Hr']. pose proof (bnode_count _ _ _ _ _ Hrn) as Hrc.
    assert ((0 + 1 <? length (c :: r :: cs2))%nat = true) as -> by (apply Nat.ltb_lt; simpl; lia). cbn [andb].
    change (spare (0 + 1)%nat) with (MIN_KEYS <? key_count r)%nat.
    destruct (Nat.ltb_spec MIN_KEYS (key_count r)) as [Hsp|Hsp].
    + apply (rotated_rebalanced h lo hi [] s ks2 [] c r cs2); [done..|].
      by apply (borrow_from_right_spec h lo (head_bound hi ks2) [] s ks2 [] c r cs2).
    + destruct (bnode_merge h (MIN_KEYS - 1) MIN_KEYS lo (head_bound hi ks2) s c r) as (n & Hm & Hn & He);
        [vm_compute; lia|vm_compute; lia|done|done|sizes|].
      pose proof (merge_with_right_spec [] s ks2 [] c r cs2 n eq_refl Hm) as Hmr. cbn [app length] in Hmr. rewrite Hmr.
      by apply (merged_rebalanced h lo hi [] s ks2 [] c r cs2 n).
  - destruct (snoc_of cs1) as (cs0 & l & ->); [lia|]. destruct (snoc_of ks1) as (ks0 & s & ->); [lia|].
    rewrite !length_app in Hlen. simpl in Hlen.
    assert (Hl0 : length cs0 = length ks0) by lia. apply lchain_snoc in Hl as [Hl Hln]; [|done].
    assert (Hb : last_bound lo (ks0 ++ [s]) = Some s) by (unfold last_bound; by rewrite last_snoc). rewrite Hb in Hc.
    pose proof (bnode_count _ _ _ _ _ Hln) as Hlc.
    assert (Hi : length (cs0 ++ [l]) = S (length cs0)) by (rewrite length_app; simpl; lia).
    assert (Hsl : spare (S (length cs0) - 1)%nat = (MIN_KEYS <? key_count l)%nat).
    { unfold spare, can_spare. rewrite <- app_assoc. cbn [app]. replace (S (length cs0) - 1)%nat with (length cs0) by lia.
      by rewrite (lookup_mid cs0 l (c :: cs2)). }
    rewrite Hi, Hsl. change (0 <? S (length cs0))%nat with true. clear Hsl.
    assert (Hborrow : (MIN_KEYS < key_count l)%nat →
        rebalanced h lo hi ((ks0 ++ [s]) ++ ks2) (contents ((cs0 ++ [l]) ++ c :: cs2))
          (borrow_from_left ((ks0 ++ [s]) ++ ks2) ((cs0 ++ [l]) ++ c :: cs2) (S (length cs0)))).
    { intros Hsp. rewrite <- !app_assoc. apply rotated_rebalanced; [done..|]. by apply borrow_from_left_spec. }
    assert (Hmerge : (key_count l ≤ MIN_KEYS)%nat →
        rebalanced h lo hi ((ks0 ++ [s]) ++ ks2) (contents ((cs0 ++ [l]) ++ c :: cs2))
          (merge_with_left ((ks0 ++ [s]) ++ ks2) ((cs0 ++ [l]) ++ c :: cs2) (S (length cs0)))).
    { intros Hsp. rewrite <- !app_assoc.
      destruct (bnode_merge h MIN_KEYS (MIN_KEYS - 1) (last_bound lo ks0) (head_bound hi ks2) s l c) as (n & Hm & Hn & He);
        [vm_compute; lia|vm_compute; lia|done|done|sizes|].
      cbn [app]. rewrite (merge_with_left_spec ks0 s ks2 cs0 l c cs2 n Hl0 Hm). by apply merged_rebalanced. }
    cbn [andb]. destruct (Nat.ltb_spec MIN_KEYS (key_count l)) as [Hsp|Hsp]; [by apply Hborrow|].
    destruct ((S (length cs0) + 1 <? length ((cs0 ++ [l]) ++ c :: cs2))%nat && spare (S (length cs0) + 1)%nat) eqn:Er.
    + apply andb_true_iff in Er as [Er1 Er2]. apply Nat.ltb_lt in Er1. rewrite !length_app in Er1. simpl in Er1.
      destruct cs2 as [|r cs2]; [simpl in Er1; lia|]. destruct ks2 as [|s2 ks2]; [done|].
      destruct (Hright s2 ks2 r cs2 eq_refl eq_refl) as [Hrn Hr'].
      assert (Hsr : spare (S (length cs0) + 1)%nat = (MIN_KEYS <? key_count r)%nat).
      { unfold spare, can_spare. rewrite <- Hi. replace (length (cs0 ++ [l]) + 1)%nat with (S (length (cs0 ++ [l]))) by lia.
        by rewrite lookup_mid2. }
      rewrite Hsr in Er2. apply Nat.ltb_lt in Er2. rewrite <- Hi.
      apply rotated_rebalanced; [by apply lchain_snoc|done|]. rewrite Hb.
      apply borrow_from_right_spec; [rewrite !length_app; simpl; lia|done|done|done|done].
    + by apply Hmerge.
Qed.

Lemma bnode_raise h min min' lo hi n : (min' ≤ key_count n)%nat → bnode h min lo hi n → bnode h min' lo hi n.
Proof. destruct h, n; simpl; intros ? H; try done; destruct_and?; split_and?; try done; lia. Qed.

Lemma sorted_in_erase lo hi ks i : sorted_in lo hi ks → sorted_in lo hi (vector_erase i ks).
Proof.
  unfold vector_erase. intros [Hs Hr]. destruct (ks !! i) as [k|] eqn:E; [|apply lookup_ge_None in E; by rewrite delete_take_drop, take_ge, drop_ge, app_nil_r by lia].
  rewrite <- (take_drop_middle _ _ _ E) in Hs, Hr. rewrite delete_take_drop.
  apply StronglySorted_app in Hs as (H12 & Hs1 & Hs2). apply StronglySorted_cons in Hs2 as [_ Hs2].
  apply Forall_app in Hr as [Hr1 Hr2]. apply Forall_cons in Hr2 as [_ Hr2]. split; [|by apply Forall_app].
  apply StronglySorted_app. split_and!; [|done..]. intros x y Hx Hy. apply H12; [done|by right].
Qed.

(** What a removal gives: nothing, if the node held but the key; or a node with one key less, whose height
    may have changed if [min] allows the root. *)
Definition removed_ok (h min : nat) (lo hi : bound) (es : list (list Z * list Z)) (r : option Node) : Prop :=
  match r with
  | None => (min ≤ 1)%nat ∧ es = []
  | Some n =>
      collect_kv_node n = es ∧
      if decide (min ≤ 1)%nat then ∃ h', bnode h' 1 lo hi n else bnode h (min - 1) lo hi n
  end.

Lemma remove_leaf_spec min lo hi ks vs key :
  (1 ≤ min)%nat → bnode 0 min lo hi (Leaf ks vs) →
  removed_ok 0 min lo hi (lremove key (zip ks vs)) (remove_leaf ks vs key).
Proof.
  intros Hmin (Hl & Hk & Hs). unfold remove_leaf. pose proof (find_key_spec ks vs key Hl) as Hf.
  assert (Hres : ∀ ks' vs', length vs' = length ks' → (length ks - 1 ≤ length ks' ≤ length ks)%nat → sorted_in lo hi ks' →
            removed_ok 0 min lo hi (zip ks' vs') (match ks' with [] => None | _ => Some (Leaf ks' vs') end)).
  { intros ks' vs' Hl' Hk' Hs'. destruct ks' as [|k ks']; [split; [simpl in *; lia|done]|]. split; [done|].
    destruct (decide _); [exists 0%nat|]; (split; [done|]; split; [simpl in *; lia|done]). }
  destruct (find_key ks key) as [i|].
  - destruct Hf as (v & Hv & _ & <- & Hi).
    assert (length (vector_erase i vs) = length vs - 1)%nat by (apply length_delete; by exists v).
    assert (length (vector_erase i ks) = length ks - 1)%nat by (by apply length_delete, lookup_lt_is_Some).
    apply Hres; [lia|lia|by apply sorted_in_erase].
  - destruct Hf as [_ ->]. apply Hres; [done|lia|done].
Qed.

Lemma remove_internal_spec h min lo hi ks cs key ks1 ks2 cs1 c cs2 es n :
  (1 ≤ min ≤ length ks)%nat → (length ks < ORDER)%nat →
  descent (bnode h MIN_KEYS) lo hi ks cs key ks1 ks2 cs1 c cs2 →
  removed_ok h MIN_KEYS (last_bound lo ks1) (head_bound hi ks2) es (Some n) →
  ∃ r, remove_internal ks cs (child_index ks cs key) (Some n) = Some (Some r) ∧
       removed_ok (S h) min lo hi (contents cs1 ++ es ++ contents cs2) (Some r).
Proof.
  intros Hk Hmax [] [Hes Hn]. rewrite decide_False in Hn by (vm_compute; lia).
  assert (Hreb : rebalanced h lo hi ks (contents cs1 ++ es ++ contents cs2)
    (if (key_count n <? MIN_KEYS)%nat then rebalance_child ks (cs1 ++ n :: cs2) (length ks1) else Some (ks, cs1 ++ n :: cs2))).
  { assert (He : contents (cs1 ++ n :: cs2) = contents cs1 ++ es ++ contents cs2).
    { rewrite fmap_app, concat_app, fmap_cons. cbn [concat]. by rewrite Hes. }
    rewrite <- He. destruct (Nat.ltb_spec (key_count n) MIN_KEYS) as [Hlt|Hge].
    - rewrite de_keys0, <- de_length0. apply rebalance_child_spec; [done..|]. rewrite <- de_keys0. lia.
    - exists ks, (cs1 ++ n :: cs2). split_and!; [done| |lia|lia|done]. rewrite de_keys0.
      apply (chain_plug _ lo hi ks1 cs1 [] [n] ks2 cs2); [done..|]. split_and!; [done| |done]. by eapply bnode_raise. }
  unfold remove_internal. rewrite de_index0, de_children0.
  assert (<[length ks1 := n]> (cs1 ++ c :: cs2) = cs1 ++ n :: cs2) as -> by (rewrite <- de_length0; apply insert_mid).
  destruct Hreb as (K & C & Er & Hc & Hl & <-). cbn zeta. rewrite Er. cbn [mbind option_bind].
  pose proof (chain_length _ _ _ _ _ Hc) as Hlc.
  destruct C as [|c1 [|c2 C]]; [done| |].
  - exists c1. split; [done|]. split; [simpl; by rewrite app_nil_r|]. destruct K; [|done]. simpl in Hl.
    rewrite decide_True by lia. exists h. by eapply bnode_weaken; [|exact Hc]; vm_compute; lia.
  - exists (Internal K (c1 :: c2 :: C)). split; [done|]. split; [done|]. simpl in Hlc.
    destruct (decide _); [exists (S h)|]; (split; [lia|done]).
Qed.

Lemma remove_node_spec h min lo hi n key :
  (1 ≤ min)%nat → bnode h min lo hi n → in_range lo hi key →
  ∃ r, remove_node n key = Some r ∧ removed_ok h min lo hi (lremove key (collect_kv_node n)) r.
Proof.
  revert min lo hi n. induction h as [|h IH]; intros min lo hi [ks cs|ks vs] Hmin Hn Hk; try done.
  - eexists. split; [done|]. by apply remove_leaf_spec.
  - destruct Hn as [Hl Hc].
    destruct (chain_descent _ _ _ _ _ key (bnode_entries' h) Hc Hk) as (ks1 & ks2 & cs1 & c & cs2 & Hd).
    destruct (IH MIN_KEYS _ _ c ltac:(vm_compute; lia) (de_child _ _ _ _ _ _ _ _ _ _ _ Hd) (de_range _ _ _ _ _ _ _ _ _ _ _ Hd))
      as (r & Er & Hr).
    destruct r as [r|]; [|exfalso; destruct Hr as [Hr _]; vm_compute in Hr; lia].
    destruct (remove_internal_spec _ min _ _ _ _ _ _ _ _ _ _ _ r (conj Hmin (proj1 Hl)) (proj2 Hl) Hd Hr) as (r' & Er' & Hr').
    exists (Some r'). cbn [remove_node]. rewrite (descent_at_child _ _ _ _ _ _ _ _ _ _ _ _ Hd), Er.
    cbn [mjoin option_join mbind option_bind]. split; [exact Er'|].
    destruct (descent_entries _ _ _ _ _ _ _ _ _ _ _ (bnode_entries' h) Hd) as (Hcs & Hb & Ha).
    cbn [collect_kv_node]. rewrite Hcs, lremove_focus by done. exact Hr'.
Qed.

Lemma tree_remove_spec key t :
  tree_ok t → dom key →
  ∃ t', tree_remove key t = Some t' ∧ tree_ok t' ∧ collect_all_kv t' = lremove key (collect_all_kv t).
Proof.
  intros Ht Hk. destruct t as [root|]; simpl in *; [|by exists None].
  destruct Ht as [h Hn]. destruct (remove_node_spec h 1 None None root key) as (r & -> & Hr); [done..|].
  exists r. split; [done|]. destruct r as [n|]; simpl in *; [|by destruct Hr as [_ ->]].
  destruct Hr as [<- Hr]. done.
Qed.

Lemma tree_search_spec key t :
  tree_ok t → dom key → tree_search t key = Some (lfind key (collect_all_kv t)).
Proof.
  intros Ht Hk. destruct t as [root|]; simpl in *; [|done]. destruct Ht as [h Hn]. by eapply search_node_spec.
Qed.

(** ** Scans *)

Section scan.
Context {A : Type} (h : list Z * list Z → A) (Q skip stop : list Z → bool).
Context (Hskip : ∀ k x, klt x k → skip k = true → Q x = false).
Context (Hstop : ∀ k x, kle k x → stop k = true → Q x = false).

(** The entries with a key that satisfies [Q]. *)
Definition selected (l : list (list Z * list Z)) : list A := h <$> filter (λ e, Q e.1 = true) l.

Lemma selected_app l1 l2 : selected (l1 ++ l2) = selected l1 ++ selected l2.
Proof. unfold selected. by rewrite filter_app, fmap_app. Qed.

Lemma selected_none l : Forall (λ e, Q e.1 = false) l → selected l = [].
Proof.
  intros H. unfold selected. rewrite filter_none; [done|]. eapply Forall_impl; [exact H|]. intros e E. simpl. by rewrite E.
Qed.

Lemma over_children_spec (P : bound → bound → Node → Prop) (f : Node → list A) prev lo hi ks cs :
  (∀ lo hi c, P lo hi c → entries_in lo hi (collect_kv_node c) ∧ collect_kv_node c ≠ []) →
  (∀ lo hi c, P lo hi c → f c = selected (collect_kv_node c)) →
  chain P lo hi ks cs → prev = None ∨ prev = lo →
  over_children f skip stop prev ks cs = selected (contents cs).
Proof.
  intros HP Hf. revert prev lo cs. induction ks as [|k ks IH]; intros prev lo [|c cs] Hc Hp; try done.
  - pose proof (chain_entries P HP _ _ _ _ Hc) as [[_ Hr] _]. rewrite Forall_fmap in Hr.
    destruct cs; [|done]. simpl in Hc. 
    change (over_children f skip stop prev [] [c]) with
      (if match prev with Some k => stop k | None => false end then [] else f c ++ []).
    destruct prev as [k|]; [destruct (stop k) eqn:E|].
    + destruct Hp as [?|<-]; [done|]. symmetry. apply selected_none. eapply Forall_impl; [exact Hr|].
      intros e [Hk _]. by eapply Hstop.
    + simpl. rewrite !app_nil_r. by eapply Hf.
    + simpl. rewrite !app_nil_r. by eapply Hf.
  - pose proof (chain_entries P HP _ _ _ _ Hc) as [[_ Hr] _]. rewrite Forall_fmap in Hr.
    destruct Hc as [Hc Hcs].
    change (over_children f skip stop prev (k :: ks) (c :: cs)) with
      (if skip k then over_children f skip stop (Some k) ks cs
       else if match prev with Some k => stop k | None => false end then []
            else f c ++ over_children f skip stop (Some k) ks cs).
    rewrite (IH (Some k) (Some k) cs Hcs) by by right. rewrite fmap_cons. cbn [concat].
    destruct (skip k) eqn:Es.
    + rewrite selected_app, (selected_none (collect_kv_node c)); [done|]. apply HP in Hc as [[_ Hc] _]. rewrite Forall_fmap in Hc.
      eapply Forall_impl; [exact Hc|]. intros e [_ Hk]. by eapply Hskip.
    + assert (Hkeep : f c ++ selected (contents cs) = selected (collect_kv_node c ++ contents cs)).
      { rewrite selected_app. f_equal. by eapply Hf. }
      destruct prev as [k'|]; [destruct (stop k') eqn:E|]; try done.
      destruct Hp as [?|<-]; [done|]. symmetry. apply selected_none. eapply Forall_impl; [exact Hr|].
      intros e [Hk _]. by eapply Hstop.
Qed.

Lemma over_entries_spec (take leaf_stop : list Z → bool) (g : list Z * list Z → A) lo hi ks vs (l : list A) :
  (∀ k, Q k = negb (leaf_stop k) && take k) → (∀ k x, klt k x → leaf_stop k = true → Q x = false) →
  l = h <$> zip ks vs → length vs = length ks → sorted_in lo hi ks →
  over_entries take leaf_stop ks l = selected (zip ks vs).
Proof.
  intros HQ Hls -> Hl [Hs _]. revert vs Hl. induction Hs as [|k ks Hs IH Hall]; intros [|v vs] Hl; simpl in *; try done.
  unfold selected. rewrite filter_cons. simpl. rewrite HQ. destruct (leaf_stop k) eqn:El; simpl.
  - symmetry. apply selected_none. rewrite <- (fmap_fst_zip_eq ks vs), Forall_fmap in Hall by lia.
    eapply Forall_impl; [exact Hall|]. intros e He. by eapply Hls.
  - rewrite IH by lia. destruct (take k); simpl; by try case_decide.
Qed.
End scan.

Definition ge_start (start k : list Z) : bool := 0 <=? cmp k start.
Definition le_end (end_ k : list Z) : bool := cmp k end_ <=? 0.
Definition from_start (start : list Z) (inclusive : bool) (k : list Z) : bool :=
  if inclusive then 0 <=? cmp k start else 0 <? cmp k start.
Definition to_end (end_ : list Z) (inclusive : bool) (k : list Z) : bool :=
  if inclusive then cmp k end_ <=? 0 else cmp k end_ <? 0.

Lemma skip_start start k x : dom start → klt x k → (cmp k start <=? 0) = true → cmp x start < 0.
Proof.
  intros Hs Hx Hk%Z.leb_le. assert (kle k start) by (split_and!; [apply Hx|done|done]).
  apply klt_cmp. by eapply klt_kle_trans.
Qed.
Lemma stop_end end_ k x : dom end_ → kle k x → 0 < cmp k end_ → 0 < cmp x end_.
Proof.
  intros He Hx Hk. assert (klt end_ k) by (split_and!; [done|apply Hx|apply cmp_flip; [done|apply Hx|done]]).
  apply klt_cmp_flip. by eapply klt_kle_trans.
Qed.
Lemma stop_end_strict end_ k x : dom end_ → kle k x → 0 ≤ cmp k end_ → 0 ≤ cmp x end_.
Proof.
  intros He Hx Hk. assert (kle end_ k) by (apply cmp_ge_kle; [apply Hx|done|done]).
  apply kle_cmp_flip. by eapply kle_trans.
Qed.

Lemma range_collect_spec h min lo hi n start end_ :
  (1 ≤ min)%nat → dom start → dom end_ → bnode h min lo hi n →
  range_collect n start end_ = selected snd (λ k, ge_start start k && le_end end_ k) (collect_kv_node n).
Proof.
  intros Hmin Hs He. revert min lo hi n Hmin. induction h as [|h IH]; intros min lo hi [ks cs|ks vs] Hmin Hn; try done.
  - destruct Hn as (Hl & _ & Hn). cbn [range_collect collect_kv_node].
    apply (over_entries_spec snd _ _ _ snd lo hi); [| |by rewrite snd_zip by lia|done|done].
    + intros k. unfold ge_start, le_end. rewrite andb_comm. f_equal. apply Z.leb_antisym.
    + intros k x Hk%klt_kle Hst%Z.ltb_lt. unfold le_end. apply andb_false_iff. right. apply Z.leb_gt. by eapply stop_end.
  - destruct Hn as [_ Hc]. cbn [range_collect collect_kv_node].
    apply (over_children_spec snd _ _ _) with (P := bnode h MIN_KEYS) (lo := lo) (hi := hi);
      [| |apply bnode_entries'| |done|by left].
    + intros k x Hx Hk. apply andb_false_iff. left. apply Z.leb_gt. by eapply skip_start.
    + intros k x Hx Hk%Z.ltb_lt. apply andb_false_iff. right. apply Z.leb_gt. by eapply stop_end.
    + intros lo' hi' c Hc'. by eapply (IH MIN_KEYS); [vm_compute; lia|].
Qed.

Lemma range_collect_keys_spec h min lo hi n start end_ :
  (1 ≤ min)%nat → dom start → dom end_ → bnode h min lo hi n →
  range_collect_keys n start end_ = selected fst (λ k, ge_start start k && le_end end_ k) (collect_kv_node n).
Proof.
  intros Hmin Hs He. revert min lo hi n Hmin. induction h as [|h IH]; intros min lo hi [ks cs|ks vs] Hmin Hn; try done.
  - destruct Hn as (Hl & _ & Hn). cbn [range_collect_keys collect_kv_node].
    apply (over_entries_spec fst _ _ _ fst lo hi); [| |by rewrite fst_zip by lia|done|done].
    + intros k. unfold ge_start, le_end. rewrite andb_comm. f_equal. apply Z.leb_antisym.
    + intros k x Hk%klt_kle Hst%Z.ltb_lt. unfold le_end. apply andb_false_iff. right. apply Z.leb_gt. by eapply stop_end.
  - destruct Hn as [_ Hc]. cbn [range_collect_keys collect_kv_node].
    apply (over_children_spec fst _ _ _) with (P := bnode h MIN_KEYS) (lo := lo) (hi := hi);
      [| |apply bnode_entries'| |done|by left].
    + intros k x Hx Hk. apply andb_false_iff. left. apply Z.leb_gt. by eapply skip_start.
    + intros k x Hx Hk%Z.ltb_lt. apply andb_false_iff. right. apply Z.leb_gt. by eapply stop_end.
    + intros lo' hi' c Hc'. by eapply (IH MIN_KEYS); [vm_compute; lia|].
Qed.

Lemma scan_from_node_spec h min lo hi n start inclusive :
  (1 ≤ min)%nat → dom start → bnode h min lo hi n →
  scan_from_node n start inclusive = selected id (from_start start inclusive) (collect_kv_node n).
Proof.
  intros Hmin Hs. revert min lo hi n Hmin. induction h as [|h IH]; intros min lo hi [ks cs|ks vs] Hmin Hn; try done.
  - destruct Hn as (Hl & _ & Hn). cbn [scan_from_node collect_kv_node].
    apply (over_entries_spec id _ _ _ id lo hi); [done|done|by rewrite list_fmap_id|done|done].
  - destruct Hn as [_ Hc]. cbn [scan_from_node collect_kv_node].
    apply (over_children_spec id _ _ _) with (P := bnode h MIN_KEYS) (lo := lo) (hi := hi);
      [|done|apply bnode_entries'| |done|by left].
    + intros k x Hx Hk. pose proof (skip_start _ _ _ Hs Hx Hk). unfold from_start.
      destruct inclusive; [apply Z.leb_gt|apply Z.ltb_ge]; lia.
    + intros lo' hi' c Hc'. by eapply (IH MIN_KEYS); [vm_compute; lia|].
Qed.

Lemma scan_to_node_spec h min lo hi n end_ inclusive :
  (1 ≤ min)%nat → dom end_ → bnode h min lo hi n →
  scan_to_node n end_ inclusive = selected id (to_end end_ inclusive) (collect_kv_node n).
Proof.
  intros Hmin He. revert min lo hi n Hmin. induction h as [|h IH]; intros min lo hi [ks cs|ks vs] Hmin Hn; try done.
  - destruct Hn as (Hl & _ & Hn). cbn [scan_to_node collect_kv_node].
    apply (over_entries_spec id _ _ _ id lo hi); [| |by rewrite list_fmap_id|done|done].
    + intros k. unfold to_end. destruct inclusive; cbn [orb].
      * rewrite andb_true_r. apply Z.leb_antisym.
      * destruct (Z.ltb_spec (cmp k end_) 0); [by rewrite (proj2 (Z.ltb_ge _ _)) by lia|by rewrite andb_false_r].
    + intros k x Hk%klt_kle Hst%Z.ltb_lt. pose proof (stop_end _ _ _ He Hk Hst). unfold to_end.
      destruct inclusive; [apply Z.leb_gt|apply Z.ltb_ge]; lia.
  - destruct Hn as [_ Hc]. cbn [scan_to_node collect_kv_node].
    apply (over_children_spec id _ _ _) with (P := bnode h MIN_KEYS) (lo := lo) (hi := hi);
      [done| |apply bnode_entries'| |done|by left].
    + intros k x Hx Hk. unfold to_end. destruct inclusive.
      * apply Z.leb_gt. apply Z.ltb_lt in Hk. by eapply stop_end.
      * apply Z.ltb_ge. apply Z.leb_le in Hk. by eapply stop_end_strict.
    + intros lo' hi' c Hc'. by eapply (IH MIN_KEYS); [vm_compute; lia|].
Qed.

Lemma collect_all_spec h min lo hi n : bnode h min lo hi n → collect_all n = (collect_kv_node n).*2.
Proof.
  revert min lo hi n. induction h as [|h IH]; intros min lo hi [ks cs|ks vs] Hn; try done.
  - destruct Hn as (Hl & _). simpl. rewrite snd_zip; [done|lia].
  - destruct Hn as [_ Hc]. simpl. revert lo ks Hc. induction cs as [|c cs IHc]; intros lo ks Hc; [done|]. simpl.
    rewrite fmap_app. destruct ks as [|k ks]; simpl in Hc.
    + destruct cs; [|done]. simpl. rewrite !app_nil_r. by eapply IH.
    + destruct Hc as [Hc Hcs]. f_equal; [by eapply IH|by eapply IHc].
Qed.

(** ** Height *)

Fixpoint height (n : Node) : nat :=
  match n with
  | Leaf _ _ => 0
  | Internal _ cs => match cs with c :: _ => S (height c) | [] => 0 end
  end.

Lemma bnode_height h min lo hi n : bnode h min lo hi n → height n = h.
Proof.
  revert min lo hi n. induction h as [|h IH]; intros min lo hi [ks cs|ks vs] Hn; try done.
  destruct Hn as [_ Hc]. destruct cs as [|c cs]; [by destruct ks|]. simpl. f_equal.
  destruct ks as [|k ks]; simpl in Hc; [destruct cs; [|done]; by eapply IH|]. destruct Hc as [Hc _]. by eapply IH.
Qed.

Lemma chain_size P m lo hi ks cs :
  (∀ lo hi c, P lo hi c → (m ≤ length (collect_kv_node c))%nat) →
  chain P lo hi ks cs → (S (length ks) * m ≤ length (contents cs))%nat.
Proof.
  intros HP. revert lo cs. induction ks as [|k ks IH]; intros lo [|c cs] Hc; simpl in Hc; try done.
  - destruct cs; [|done]. apply HP in Hc. simpl. rewrite app_nil_r. lia.
  - destruct Hc as [Hc Hcs]. apply HP in Hc. apply IH in Hcs. rewrite fmap_cons. cbn [concat]. rewrite length_app.
    cbn [length] in *. lia.
Qed.

Lemma bnode_size h lo hi n : bnode h MIN_KEYS lo hi n → (MIN_KEYS * (MIN_KEYS + 1) ^ h ≤ length (collect_kv_node n))%nat.
Proof.
  revert lo hi n. induction h as [|h IH]; intros lo hi [ks cs|ks vs] Hn; try done.
  - destruct Hn as (Hl & Hk & _). cbn [collect_kv_node]. rewrite length_zip_with, Nat.pow_0_r. lia.
  - destruct Hn as [Hk Hc]. pose proof (chain_size _ _ _ _ _ _ IH Hc) as Hs. cbn [collect_kv_node].
    change MIN_KEYS with 7%nat in *. rewrite Nat.pow_succ_r'. nia.
Qed.

(** ** Sequences of operations *)

Inductive tree_op : Type :=
  | OpInsert (key value : list Z)
  | OpRemove (key : list Z).

Definition op_key (o : tree_op) : list Z := match o with OpInsert key _ => key | OpRemove key => key end.

Definition run_op (o : tree_op) (t : BPlusTree) : option BPlusTree :=
  match o with OpInsert key value => tree_insert key value t | OpRemove key => tree_remove key t end.

Fixpoint run_ops (os : list tree_op) (t : BPlusTree) : option BPlusTree :=
  match os with [] => Some t | o :: os => t ← run_op o t; run_ops os t end.

Definition list_op (l : list (list Z * list Z)) (o : tree_op) : list (list Z * list Z) :=
  match o with OpInsert key value => linsert key value l | OpRemove key => lremove key l end.

Lemma run_ops_spec os t :
  tree_ok t → Forall (λ o, dom (op_key o)) os →
  ∃ t', run_ops os t = Some t' ∧ tree_ok t' ∧ collect_all_kv t' = fold_left list_op os (collect_all_kv t).
Proof.
  intros Ht Hos. revert t Ht. induction Hos as [|o os Ho _ IH]; intros t Ht; simpl; [by exists t|].
  assert (∃ t', run_op o t = Some t' ∧ tree_ok t' ∧ collect_all_kv t' = list_op (collect_all_kv t) o) as (t' & -> & Ht' & <-).
  { destruct o; simpl in *; [by apply tree_insert_spec|by apply tree_remove_spec]. }
  by apply IH.
Qed.

Lemma tree_ok_sorted t : tree_ok t → StronglySorted klt (collect_all_kv t).*1.
Proof.
  destruct t as [root|]; [|constructor]. intros [h Hn]. by destruct (bnode_entries h 1 _ _ _ (le_n 1) Hn) as [[? _] _].
Qed.

(** ** Properties *)

(** C15: the tree is the sorted list of its entries. Any insertions and removals, from the empty tree,
    keep within the bounds of every vector and never take a leaf for an internal node; the tree they give
    is balanced with [MIN_KEYS] to [ORDER - 1] keys in every node but the root ([tree_ok]); its entries are
    what the operations do on a list sorted by key; and a search finds exactly the entry of an equal key. *)
Theorem btree_refines_sorted_list os key :
  Forall (λ o, dom (op_key o)) os → dom key →
  ∃ t, run_ops os None = Some t ∧ tree_ok t ∧
    collect_all_kv t = fold_left list_op os [] ∧ StronglySorted klt (collect_all_kv t).*1 ∧
    tree_search t key = Some (lfind key (collect_all_kv t)).
Proof.
  intros Hos Hk. destruct (run_ops_spec os None I Hos) as (t & Er & Ht & He). exists t.
  split_and!; [done|done|done|by apply tree_ok_sorted|by apply tree_search_spec].
Qed.

(** The scans of a tree that any operations built give the entries of their range, in order and each
    once, the subtrees they skip and the places they stop early notwithstanding. *)
Theorem btree_scans os start end_ inclusive t :
  Forall (λ o, dom (op_key o)) os → run_ops os None = Some t → dom start → dom end_ →
  let es := collect_all_kv t in
  range_search t start end_ = (filter (λ e, ge_start start e.1 && le_end end_ e.1 = true) es).*2 ∧
  range_keys t start end_ = (filter (λ e, ge_start start e.1 && le_end end_ e.1 = true) es).*1 ∧
  scan_from t start inclusive = filter (λ e, from_start start inclusive e.1 = true) es ∧
  scan_to t end_ inclusive = filter (λ e, to_end end_ inclusive e.1 = true) es ∧
  all_values t = es.*2.
Proof.
  intros Hos Hr Hs He. destruct (run_ops_spec os None I Hos) as (t' & Er & Ht & _). simplify_eq.
  destruct t as [root|]; [|by split_and!]. destruct Ht as [h Hn]. cbn zeta. simpl. split_and!.
  - by eapply (range_collect_spec h 1).
  - by eapply (range_collect_keys_spec h 1).
  - etransitivity; [by eapply (scan_from_node_spec h 1)|]. apply list_fmap_id.
  - etransitivity; [by eapply (scan_to_node_spec h 1)|]. apply list_fmap_id.
  - by eapply collect_all_spec.
Qed.

(** The height is logarithmic: a tree that any operations built with more than one level holds at least
    [2 * MIN_KEYS * (MIN_KEYS + 1) ^ (height - 1)] entries. *)
Theorem btree_height os root :
  Forall (λ o, dom (op_key o)) os → run_ops os None = Some (Some root) → (0 < height root)%nat →
  (2 * MIN_KEYS * (MIN_KEYS + 1) ^ (height root - 1) ≤ length (collect_kv_node root))%nat.
Proof.
  intros Hos Hr Hh. destruct (run_ops_spec os None I Hos) as (t' & Er & Ht & _). simplify_eq.
  destruct Ht as [h Hn]. rewrite (bnode_height _ _ _ _ _ Hn) in *. destruct h as [|h]; [lia|].
  destruct root as [ks cs|]; [|done]. destruct Hn as [Hk Hc]. pose proof (chain_size _ _ _ _ _ _ (bnode_size h) Hc) as Hsz.
  cbn [collect_kv_node]. replace (S h - 1)%nat with h by lia. nia.
Qed.
End tree.

(** ** A concrete order *)

Definition bytes_cmp (a b : list Z) : Z := match bytes_compare a b with Lt => -1 | Eq => 0 | Gt => 1 end.

#[export] Instance bytes_cmp_order : KeyOrder bytes_cmp (λ _, True).
Proof.
  split.
  - intros a b _ _. unfold bytes_cmp. rewrite (bytes_compare_antisym a b). by destruct (bytes_compare a b).
  - intros a b c _ _ _. unfold bytes_cmp.
    pose proof (bytes_leb_trans a b c) as Ht. rewrite !bytes_leb_le in Ht.
    destruct (bytes_compare a b), (bytes_compare b c), (bytes_compare a c); try lia; intros; exfalso; by apply Ht.
Defined.

Definition demo_key (i : nat) : list Z := [Z.of_nat (i * 7 mod 60)].
(** Sixty insertions, then fifty removals: leaves split, borrow and merge. *)
Definition demo_ops : list tree_op :=
  ((λ i, OpInsert (demo_key i) [Z.of_nat i]) <$> seq 0 60) ++ ((λ i, OpRemove (demo_key i)) <$> seq 0 50).

Lemma btree_refines_sorted_list_witness :
  ∃ t, run_ops bytes_cmp demo_ops None = Some t ∧ tree_ok bytes_cmp (dom := λ _, True) t ∧
    collect_all_kv t = fold_left (list_op bytes_cmp) demo_ops [] ∧
    StronglySorted (klt bytes_cmp (dom := λ _, True)) (collect_all_kv t).*1 ∧
    tree_search bytes_cmp t [50] = Some (lfind bytes_cmp [50] (collect_all_kv t)).
Proof. apply (btree_refines_sorted_list bytes_cmp); [by apply Forall_forall|done]. Defined.

Definition demo_tree : option Node :=
  default None (run_ops bytes_cmp ((λ i, OpInsert (demo_key i) [Z.of_nat i]) <$> seq 0 60) None).

Lemma btree_scans_witness :
  let es := collect_all_kv demo_tree in
  range_search bytes_cmp demo_tree [10] [20] =
    (filter (λ e, ge_start bytes_cmp [10] e.1 && le_end bytes_cmp [20] e.1 = true) es).*2 ∧
  range_keys bytes_cmp demo_tree [10] [20] =
    (filter (λ e, ge_start bytes_cmp [10] e.1 && le_end bytes_cmp [20] e.1 = true) es).*1 ∧
  scan_from bytes_cmp demo_tree [10] true = filter (λ e, from_start bytes_cmp [10] true e.1 = true) es ∧
  scan_to bytes_cmp demo_tree [20] true = filter (λ e, to_end bytes_cmp [20] true e.1 = true) es ∧
  all_values demo_tree = es.*2.
Proof.
  apply (btree_scans bytes_cmp (dom := λ _, True) ((λ i, OpInsert (demo_key i) [Z.of_nat i]) <$> seq 0 60));
    [by apply Forall_forall|by vm_compute|done|done].
Defined.

Lemma btree_height_witness :
  (2 * MIN_KEYS * (MIN_KEYS + 1) ^ (height (default (Leaf [] []) demo_tree) - 1) ≤
   length (collect_kv_node (default (Leaf [] []) demo_tree)))%nat.
Proof.
  apply (btree_height bytes_cmp (dom := λ _, True) ((λ i, OpInsert (demo_key i) [Z.of_nat i]) <$> seq 0 60));
    [by apply Forall_forall|by vm_compute|apply Nat.ltb_lt; by vm_compute].
Defined.
