(* ===== verification/NumericText.v ===== *)
(** * Numbers as text (include/engine/numeric_text.hpp)

    What a text is worth as a number, exact integer and decimal arithmetic, and the texts of SUM and AVG.
    A [double] is a [spec_float] of binary64; std::from_chars rounds a decimal correctly, to nearest even.
    std::to_chars (the shortest text of a double) is the parameter [to_chars]. A signed overflow, which
    C++ leaves undefined, wraps around. *)
From Stdlib Require Import SpecFloat QArith Qfield.
From S2P Require Import Prelude Numerals.

#[local] Open Scope Z_scope.

(** ** The shape of a number *)

Definition is_sign (c : Z) : bool := (c =? c_plus) || (c =? c_minus).
Definition is_exponent_mark (c : Z) : bool := (c =? 101) || (c =? 69).

Definition count_digits (s : list Z) : nat := length (take_digits s).

Definition number_length (s : list Z) : nat :=
  let sign := match s with c :: _ => if is_sign c then 1%nat else 0%nat | [] => 0%nat end in
  let whole := count_digits (drop sign s) in
  let i := (sign + whole)%nat in
  let '(i, digits) :=
    match drop i s with
    | c :: rest => if c =? c_dot then ((i + 1 + count_digits rest)%nat, (whole + count_digits rest)%nat) else (i, whole)
    | [] => (i, whole)
    end in
  if (digits =? 0)%nat then 0%nat
  else
    match drop i s with
    | c :: rest =>
        if is_exponent_mark c then
          let sign := match rest with c :: _ => if is_sign c then 1%nat else 0%nat | [] => 0%nat end in
          let exponent := count_digits (drop sign rest) in
          if (0 <? exponent)%nat then (i + 1 + sign + exponent)%nat else i
        else i
    | [] => i
    end.

(** ** std::from_chars *)

(** [m * 10^e] with a sign, rounded to the nearest double, ties to even. *)
Definition double_of_decimal (neg : bool) (m e : Z) : spec_float :=
  if m =? 0 then S754_zero neg
  else if 0 <=? e then binary_normalize 53 1024 (if neg then - (m * 10 ^ e) else m * 10 ^ e) 0 neg
  else
    let '(q, e', l) := SFdiv_core_binary 53 1024 m 0 (10 ^ (- e)) 0 in
    binary_round_aux 53 1024 neg q e' l.

(** The exponent after the digits: its value and the rest; 0 when there is none. *)
Definition read_exponent (s : list Z) : Z * list Z :=
  match s with
  | c :: rest =>
      if is_exponent_mark c then
        let '(neg, ds) := match rest with c :: t => if is_sign c then (c =? c_minus, t) else (false, rest) | [] => (false, rest) end in
        let digits := take_digits ds in
        if (length digits =? 0)%nat then (0, s)
        else ((if neg : bool then - digits_value digits else digits_value digits), drop (length digits) ds)
      else (0, s)
  | [] => (0, s)
  end.

(** A double at the start of the text and what follows it; [None]: no number, or none a double can hold.
    (The texts "inf" and "nan" are numbers too, but the code calls this on none that starts with a letter.) *)
Definition from_chars_double (s : list Z) : option (spec_float * list Z) :=
  let '(neg, s) := match s with c :: t => if c =? c_minus then (true, t) else (false, s) | [] => (false, s) end in
  let whole := take_digits s in
  let s := drop (length whole) s in
  let '(fraction, s) :=
    match s with
    | c :: t => if c =? c_dot then (take_digits t, drop (count_digits t) t) else ([], s)
    | [] => ([], s)
    end in
  if (length whole + length fraction =? 0)%nat then None
  else
    let m := digits_value (whole ++ fraction) in
    let '(e, s) := read_exponent s in
    match double_of_decimal neg m (e - Z.of_nat (length fraction)) with
    | S754_infinity _ | S754_nan => None
    | S754_zero _ as v => if m =? 0 then Some (v, s) else None
    | v => Some (v, s)
    end.

(** [from_chars] to an int64, of the whole text. *)
Definition from_chars_int64 (s : list Z) : option Z :=
  let '(neg, ds) := match s with c :: t => if c =? c_minus then (true, t) else (false, s) | [] => (false, s) end in
  if bool_decide (ds = []) || negb (forallb is_digit ds) then None
  else
    let v := if neg : bool then - digits_value ds else digits_value ds in
    if decide (in_int64 v) then Some v else None.

Definition from_chars_u64 (s : list Z) : option Z :=
  if bool_decide (s = []) || negb (forallb is_digit s) then None
  else if decide (in_u64 (digits_value s)) then Some (digits_value s) else None.

(** ** What a text is worth *)

Definition strip_plus (s : list Z) : list Z := match s with c :: t => if c =? c_plus then t else s | [] => s end.

Definition number_value (number : list Z) : spec_float :=
  match from_chars_double (strip_plus number) with Some (v, _) => v | None => S754_zero false end.

Definition parse_number (s : list Z) : option spec_float :=
  let p := strip_plus s in
  if match s, p with c :: _, c' :: _ => (c =? c_plus) && is_sign c' | _, _ => false end then None
  else
    let q := match p with c :: t => if c =? c_minus then t else p | [] => p end in
    match q with
    | c :: _ =>
        if is_digit c || (c =? c_dot) then
          match from_chars_double p with
          | Some (v, []) => Some v
          | _ => None
          end
        else None
    | [] => None
    end.

Definition text_to_number (s : list Z) : spec_float :=
  let s := skip_space s in number_value (take (number_length s) s).

Definition parse_int64_text (s : list Z) : option Z :=
  match strip_plus s with [] => None | s => from_chars_int64 s end.

Record SignedMagnitude := mkSigned {
  negative : bool;
  magnitude_of : Z
}.

Definition parse_wide_integer_text (s : list Z) : option SignedMagnitude :=
  let '(neg, ds) := match s with c :: t => if is_sign c then (c =? c_minus, t) else (false, s) | [] => (false, s) end in
  match ds with
  | [] => None
  | _ => m ← from_chars_u64 ds; Some (mkSigned (if m =? 0 then false else neg) m)
  end.

Definition compare_numbers (a b : list Z) : Z :=
  let by_double :=
    let u := text_to_number a in
    let v := text_to_number b in
    if SFltb u v then -1 else if SFltb v u then 1 else 0 in
  match parse_int64_text a, parse_int64_text b with
  | Some x, Some y => if x <? y then -1 else if y <? x then 1 else 0
  | _, _ =>
      match parse_wide_integer_text a, parse_wide_integer_text b with
      | Some u, Some v =>
          if negb (eqb (negative u) (negative v)) then (if negative u then -1 else 1)
          else
            let by_magnitude :=
              if magnitude_of u <? magnitude_of v then -1 else if magnitude_of v <? magnitude_of u then 1 else 0 in
            if negative u then - by_magnitude else by_magnitude
      | _, _ => by_double
      end
  end.

(** ** Exact arithmetic *)

(** [a op b]; [Z.quot] is the division of C++. *)
Definition int64_arith (op a b : Z) : option Z :=
  if op =? 43 then
    if ((0 <? b) && (int64_max - b <? a)) || ((b <? 0) && (a <? int64_min - b)) then None else Some (a + b)
  else if op =? 45 then
    if ((b <? 0) && (int64_max + b <? a)) || ((0 <? b) && (a <? int64_min + b)) then None else Some (a - b)
  else if (a =? 0) || (b =? 0) then Some 0
  else if ((a =? -1) && (b =? int64_min)) || ((b =? -1) && (a =? int64_min)) then None
  else if (if 0 <? a then (if 0 <? b then Z.quot int64_max b <? a else b <? Z.quot int64_min a)
           else (if 0 <? b then a <? Z.quot int64_min b else a <? Z.quot int64_max b)) then None
  else Some (a * b).

(** An int64 that overflowed. *)
Definition wrap_int64 (z : Z) : Z := (z + 2 ^ 63) mod 2 ^ 64 - 2 ^ 63.

Record DecimalSum := mkSum {
  units : Z;
  scale : nat;
  max_places : nat;
  count : Z;
  exact : bool
}.

Definition sum_start : DecimalSum := mkSum 0 0 0 0 true.

Definition pow10 (n : nat) : Z := Nat.iter n (λ p, wrap_int64 (p * 10)) 1.

(** [None] when the units overflow. *)
Definition widen (to : nat) (s : DecimalSum) : option DecimalSum :=
  if (to =? scale s)%nat then Some s
  else
    widened ← int64_arith 42 (units s) (pow10 (to - scale s));
    Some (mkSum widened to (max_places s) (count s) (exact s)).

(** The digits of a value: the mantissa, its places and the number of its digits; [None] for a text that
    is no plain decimal. *)
Fixpoint read_decimal (s : list Z) (mantissa : Z) (places digits : nat) (after_point : bool)
  : option (Z * nat * nat) :=
  match s with
  | [] => Some (mantissa, places, digits)
  | c :: s =>
      if (c =? c_dot) && negb after_point then read_decimal s mantissa places digits true
      else if negb (is_digit c) || (18 <? S digits)%nat then None
      else read_decimal s (wrap_int64 (mantissa * 10 + (c - 48))) (if after_point then S places else places) (S digits) after_point
  end.

(** "100.10" is 100.1. *)
Fixpoint strip_zeros (places : nat) (mantissa : Z) : Z * nat :=
  match places with
  | S places' => if mantissa mod 10 =? 0 then strip_zeros places' (mantissa / 10) else (mantissa, places)
  | O => (mantissa, O)
  end.

Definition inexact (s : DecimalSum) : DecimalSum := mkSum (units s) (scale s) (max_places s) (count s) false.

Definition sum_add (text : list Z) (s : DecimalSum) : DecimalSum :=
  let s := mkSum (units s) (scale s) (max_places s) (wrap64 (count s + 1)) (exact s) in
  if negb (exact s) then s
  else
    let '(neg, digits_text) :=
      match text with c :: t => if is_sign c then (c =? c_minus, t) else (false, text) | [] => (false, text) end in
    match read_decimal digits_text 0 0 0 false with
    | None => inexact s
    | Some (mantissa, places, digits) =>
        if (digits =? 0)%nat then inexact s
        else
          let s := mkSum (units s) (scale s) (Nat.max (max_places s) places) (count s) (exact s) in
          let '(mantissa, places) := strip_zeros places mantissa in
          let mantissa := if neg : bool then - mantissa else mantissa in
          match (if (scale s <? places)%nat then widen places s else Some s) with
          | None => inexact s
          | Some s =>
              match (if (places <? scale s)%nat then int64_arith 42 mantissa (pow10 (scale s - places)) else Some mantissa) with
              | None => inexact s
              | Some mantissa =>
                  match int64_arith 43 (units s) mantissa with
                  | None => inexact s
                  | Some total => mkSum total (scale s) (max_places s) (count s) (exact s)
                  end
              end
          end
    end.

Definition magnitude (v : Z) : Z := if v <? 0 then wrap64 (0 - wrap64 v) else wrap64 v.

(** [digits] with [places] of them behind the point; zeros are put before them where they are too few. *)
Definition with_point (places : nat) (digits : list Z) : list Z :=
  let digits := if (length digits <=? places)%nat then replicate (places - length digits + 1) 48 ++ digits else digits in
  take (length digits - places) digits ++ c_dot :: drop (length digits - places) digits.

Definition minus_sign (v : Z) : list Z := if v <? 0 then [c_minus] else [].

Definition sum_text (s : DecimalSum) : list Z :=
  let digits := to_string (magnitude (units s)) in
  minus_sign (units s) ++ (if (0 <? scale s)%nat then with_point (scale s) digits else digits).

Definition text_with_places (s : DecimalSum) : list Z :=
  if (scale s <? max_places s)%nat
  then sum_text s ++ (if (scale s =? 0)%nat then [c_dot] else []) ++ replicate (max_places s - scale s) 48
  else sum_text s.

Definition average_text (divisor : Z) (places : nat) (s : DecimalSum) : option (list Z) :=
  '(numerator, denominator) ←
    (if (scale s <=? places)%nat
     then scaled ← int64_arith 42 (units s) (pow10 (places - scale s)); Some (scaled, divisor)
     else scaled ← int64_arith 42 divisor (pow10 (scale s - places)); Some (units s, scaled));
  let quotient := Z.quot numerator denominator in
  let remainder := Z.rem numerator denominator in
  let abs_remainder := if remainder <? 0 then - remainder else remainder in
  let quotient :=
    if denominator - abs_remainder <=? abs_remainder then quotient + (if numerator <? 0 then -1 else 1) else quotient in
  Some (minus_sign quotient ++ with_point places (to_string (magnitude quotient))).

(** 10 units of 10^-1 are 1 unit of 10^0. *)
Definition normalize (s : DecimalSum) : DecimalSum :=
  let '(u, sc) := strip_zeros (scale s) (units s) in mkSum u sc (max_places s) (count s) (exact s).


(** ** Doubles as text *)

(** [n / d] rounded to the nearest integer, ties to even. *)
Definition round_half_even (n d : Z) : Z :=
  let q := n / d in
  let r := n mod d in
  if (d <? 2 * r) || ((2 * r =? d) && Z.odd q) then q + 1 else q.

(** The integer a double is, if it is one; a double is [m * 2^e]. *)
Definition whole_value (v : spec_float) : option Z :=
  match v with
  | S754_zero _ => Some 0
  | S754_finite s m e =>
      let signed z := if s : bool then - z else z in
      if 0 <=? e then Some (signed (Z.pos m * 2 ^ e))
      else if Z.pos m mod 2 ^ (- e) =? 0 then Some (signed (Z.pos m / 2 ^ (- e))) else None
  | S754_infinity _ | S754_nan => None
  end.

(** [v != std::trunc(v)] *)
Definition has_fraction (v : spec_float) : bool :=
  match v with
  | S754_finite _ _ _ => bool_decide (whole_value v = None)
  | S754_nan => true
  | _ => false
  end.

(** [snprintf(buf, 64, "%.*f", places, v)]: the exact value rounded, of which 63 characters fit. *)
Definition format_places (v : spec_float) (places : nat) : list Z :=
  let digits (s : bool) (n : Z) :=
    (if s then [c_minus] else []) ++ (if (0 <? places)%nat then with_point places (to_string n) else to_string n) in
  take 63
    match v with
    | S754_zero s => digits s 0
    | S754_infinity s => (if s then [c_minus] else []) ++ str "inf"
    | S754_nan => str "nan"
    | S754_finite s m e =>
        let scaled := Z.pos m * 10 ^ Z.of_nat places in
        digits s (if 0 <=? e then scaled * 2 ^ e else round_half_even scaled (2 ^ (- e)))
    end.

Section format.
Context (to_chars : spec_float → list Z).

Definition format_shortest (v : spec_float) : list Z :=
  match whole_value v with
  | Some z => if Z.abs z <? 10 ^ 15 then minus_sign z ++ to_string (Z.abs z) else to_chars v
  | None => to_chars v
  end.

(** ** SUM and AVG *)

Definition sum_doubles (values : list (list Z)) : spec_float :=
  fold_left (λ total v, SFadd 53 1024 total (text_to_number v)) values (S754_zero false).

Definition sum_decimals (values : list (list Z)) : DecimalSum := fold_left (λ s v, sum_add v s) values sum_start.

Definition sum_of_texts (values : list (list Z)) (display approx : bool) : option (list Z) :=
  if bool_decide (values = []) then None
  else if approx then Some (format_shortest (sum_doubles values))
  else
    let sum := sum_decimals values in
    if exact sum then Some (text_with_places sum)
    else
      let total := sum_doubles values in
      if display && has_fraction total then Some (format_places total 4) else Some (format_shortest total).

Definition average_double (values : list (list Z)) : spec_float :=
  SFdiv 53 1024 (sum_doubles values) (double_of_decimal false (Z.of_nat (length values)) 0).

Definition average_of_texts (values : list (list Z)) (approx : bool) : option (list Z) :=
  if bool_decide (values = []) then None
  else if approx then Some (format_shortest (average_double values))
  else
    let sum := sum_decimals values in
    match (if exact sum
           then average_text (wrap_int64 (Z.of_nat (length values))) (Nat.min (max_places sum + 4) 30) sum
           else None) with
    | Some text => Some text
    | None => Some (format_places (average_double values) 4)
    end.
End format.

(** ** Integers *)

(** The exact result of [a op b]. *)
Definition exact_op (op a b : Z) : Z := if op =? 43 then a + b else if op =? 45 then a - b else a * b.

Lemma quot_lt a b c : 0 < b → 0 ≤ a → (Z.quot a b <? c) = (a <? c * b).
Proof.
  intros Hb Ha. rewrite Z.quot_div_nonneg by lia. pose proof (Z.div_mod a b ltac:(lia)). pose proof (Z.mod_pos_bound a b Hb).
  apply eq_true_iff_eq. rewrite !Z.ltb_lt. split; nia.
Qed.

Lemma lt_quot a b c : 0 < b → a ≤ 0 → (c <? Z.quot a b) = (c * b <? a).
Proof.
  intros Hb Ha. rewrite <- (Z.opp_involutive a), Z.quot_opp_l by lia. pose proof (quot_lt (- a) b (- c) Hb ltac:(lia)) as H.
  destruct (Z.ltb_spec (Z.quot (- a) b) (- c)), (Z.ltb_spec (- a) (- c * b)); try done;
    [rewrite (proj2 (Z.ltb_lt c _)), (proj2 (Z.ltb_lt _ _)) by lia; done|].
  rewrite (proj2 (Z.ltb_ge c _)), (proj2 (Z.ltb_ge _ _)) by lia. done.
Qed.

Lemma int64_arith_spec op a b :
  in_int64 a → in_int64 b →
  int64_arith op a b = if decide (in_int64 (exact_op op a b)) then Some (exact_op op a b) else None.
Proof.
  intros Ha Hb. unfold int64_arith, exact_op.
  assert (Hdone : ∀ (c : bool) x, c = negb (bool_decide (in_int64 x)) → (if c then None else Some x) = if decide (in_int64 x) then Some x else None).
  { intros c x ->. case_bool_decide; destruct (decide (in_int64 x)); done. }
  destruct (op =? 43); [|destruct (op =? 45)].
  - apply Hdone. case_bool_decide as H; simpl.
    + apply orb_false_iff. split; apply andb_false_iff; rewrite !Z.ltb_ge; widths.
    + apply orb_true_iff. rewrite !andb_true_iff, !Z.ltb_lt. widths.
  - apply Hdone. case_bool_decide as H; simpl.
    + apply orb_false_iff. split; apply andb_false_iff; rewrite !Z.ltb_ge; widths.
    + apply orb_true_iff. rewrite !andb_true_iff, !Z.ltb_lt. widths.
  - destruct (Z.eqb_spec a 0) as [->|Ha0]; cbn [orb]; [by rewrite decide_True by (rewrite Z.mul_0_l; widths)|].
    destruct (Z.eqb_spec b 0) as [->|Hb0]; cbn [orb]; [rewrite Z.mul_0_r; by rewrite decide_True by widths|].
    destruct ((a =? -1) && (b =? int64_min) || (b =? -1) && (a =? int64_min)) eqn:Em.
    { rewrite decide_False; [done|]. rewrite orb_true_iff, !andb_true_iff, !Z.eqb_eq in Em. widths. }
    assert (Hm : ¬ (a = -1 ∧ b = int64_min) ∧ ¬ (b = -1 ∧ a = int64_min)).
    { apply orb_false_iff in Em as [E1 E2]. apply andb_false_iff in E1, E2. rewrite !Z.eqb_neq in E1, E2. lia. }
    clear Em Ha0. apply Hdone. destruct (Z.ltb_spec 0 a), (Z.ltb_spec 0 b).
    + rewrite quot_lt by (unfold int64_max; lia). assert (0 < a * b) by nia.
      case_bool_decide; [apply Z.ltb_ge|apply Z.ltb_lt]; widths.
    + rewrite lt_quot by (unfold int64_min; lia). rewrite (Z.mul_comm b a). assert (a * b < 0) by nia.
      case_bool_decide; [apply Z.ltb_ge|apply Z.ltb_lt]; widths.
    + rewrite lt_quot by (unfold int64_min; lia). assert (a * b ≤ 0) by nia.
      case_bool_decide; [apply Z.ltb_ge|apply Z.ltb_lt]; widths.
    + assert (Hq : (a <? Z.quot int64_max b) = (Z.quot int64_max (- b) <? - a)).
      { rewrite Z.quot_opp_r by lia. apply eq_true_iff_eq. rewrite !Z.ltb_lt. lia. }
      rewrite Hq, quot_lt by (unfold int64_max; lia). replace (- a * - b) with (a * b) by ring. assert (0 ≤ a * b) by nia.
      case_bool_decide; [apply Z.ltb_ge|apply Z.ltb_lt]; widths.
Qed.

Lemma int64_arith_Some op a b c :
  in_int64 a → in_int64 b → int64_arith op a b = Some c → c = exact_op op a b ∧ in_int64 c.
Proof. intros Ha Hb. rewrite int64_arith_spec by done. case_decide; [|done]. intros [= <-]. done. Qed.

Lemma pow10_exact n : (n ≤ 18)%nat → pow10 n = 10 ^ Z.of_nat n.
Proof. intros H. do 19 (destruct n as [|n]; [by vm_compute|]). lia. Qed.

Lemma pow10_int64 n : (n ≤ 18)%nat → in_int64 (pow10 n).
Proof. intros H. do 19 (destruct n as [|n]; [apply (bool_decide_eq_true_1 _); by vm_compute|]). lia. Qed.

(** ** Decimal values *)

(** [m] units of [10^-p]. *)
Definition q10 (p : nat) : Q := inject_Z (10 ^ Z.of_nat p).
Definition dec (m : Z) (p : nat) : Q := (inject_Z m / q10 p)%Q.

Lemma q10_nonzero p : ~ (q10 p == 0)%Q.
Proof. unfold q10, Qeq. simpl. pose proof (Z.pow_pos_nonneg 10 (Z.of_nat p)). lia. Qed.

Lemma q10_add p k : (q10 (p + k) == q10 p * q10 k)%Q.
Proof. unfold q10. rewrite Nat2Z.inj_add, Z.pow_add_r by lia. by rewrite inject_Z_mult. Qed.

Lemma dec_scale m p k : (dec (m * 10 ^ Z.of_nat k) (p + k) == dec m p)%Q.
Proof.
  unfold dec. rewrite inject_Z_mult, q10_add. change (inject_Z (10 ^ Z.of_nat k)) with (q10 k).
  pose proof (q10_nonzero p). pose proof (q10_nonzero k). field. by split.
Qed.

Lemma dec_add a b p : (dec (a + b) p == dec a p + dec b p)%Q.
Proof. unfold dec. rewrite inject_Z_plus. pose proof (q10_nonzero p). by field. Qed.

(** The text is a plain decimal and its value is [m] units of [10^-p], [p] its places. *)
Inductive denotes : list Z → Z → nat → Prop :=
  | denotes_intro sg (neg : bool) ds1 point ds2 :
      (neg = true ∧ sg = [c_minus]) ∨ (neg = false ∧ (sg = [] ∨ sg = [c_plus])) →
      Forall (λ c, is_digit c = true) ds1 → Forall (λ c, is_digit c = true) ds2 →
      (point = [] ∧ ds2 = []) ∨ point = [c_dot] → ds1 ++ ds2 ≠ [] →
      denotes (sg ++ ds1 ++ point ++ ds2)
        (if neg then - digits_value (ds1 ++ ds2) else digits_value (ds1 ++ ds2)) (length ds2).

Lemma is_digit_not_dot c : is_digit c = true → (c =? c_dot) = false.
Proof. unfold is_digit. intros. bool_cases. apply Z.eqb_neq. lia. Qed.

Lemma read_decimal_spec s m p d ap m' p' d' :
  0 ≤ m < 10 ^ Z.of_nat d → (d ≤ 18)%nat → read_decimal s m p d ap = Some (m', p', d') →
  ∃ ds1 point ds2, s = ds1 ++ point ++ ds2 ∧
    Forall (λ c, is_digit c = true) ds1 ∧ Forall (λ c, is_digit c = true) ds2 ∧
    ((point = [] ∧ ds2 = []) ∨ point = [c_dot] ∧ ap = false) ∧
    m' = m * 10 ^ Z.of_nat (length (ds1 ++ ds2)) + digits_value (ds1 ++ ds2) ∧
    p' = (if ap then p + length ds1 else p + length ds2)%nat ∧ d' = (d + length (ds1 ++ ds2))%nat ∧
    0 ≤ m' < 10 ^ Z.of_nat d' ∧ (d' ≤ 18)%nat.
Proof.
  revert m p d ap. induction s as [|c s IH]; intros m p d ap Hm Hd H; simpl in H.
  - simplify_eq. exists [], [], []. cbn [app length]. change (digits_value []) with 0.
    split_and!; try done; try (by left); destruct ap; simpl; lia.
  - destruct ((c =? c_dot) && negb ap) eqn:Edot.
    + apply andb_true_iff in Edot as [->%Z.eqb_eq Hap%negb_true_iff]. subst ap.
      destruct (IH m p d true Hm Hd H) as (ds1 & point & ds2 & -> & H1 & H2 & Hp & Hv & Hp' & Hd' & Hb & Hle).
      destruct Hp as [[-> ->]|[_ ?]]; [|done]. rewrite app_nil_r in *. exists [], [c_dot], ds1.
      destruct Hb. split_and!; try done. by right.
    + destruct (negb (is_digit c) || (18 <? S d)%nat) eqn:Ec; [done|].
      apply orb_false_iff in Ec as [Ec%negb_false_iff E18%Nat.ltb_ge].
      pose proof Ec as Edig. unfold is_digit in Ec. bool_cases.
      assert (Hw : wrap_int64 (m * 10 + (c - 48)) = m * 10 + (c - 48)).
      { unfold wrap_int64. assert (10 ^ Z.of_nat d ≤ 10 ^ 17) by (apply Z.pow_le_mono_r; lia).
        change (10 ^ 17) with 100000000000000000 in *. rewrite Z.mod_small; lia. }
      rewrite Hw in H. apply IH in H; [|rewrite Nat2Z.inj_succ, Z.pow_succ_r by lia; lia|lia].
      destruct H as (ds1 & point & ds2 & -> & Hds1 & Hds2 & Hp & Hv & Hp' & Hd' & Hb & Hle).
      exists (c :: ds1), point, ds2. destruct Hb. split_and!; try done.
      * by constructor.
      * rewrite Hv. cbn [app length]. rewrite digits_value_cons, Nat2Z.inj_succ, Z.pow_succ_r by lia. ring.
      * rewrite Hp'. simpl. destruct ap; lia.
      * rewrite Hd'. simpl. lia.
Qed.

Lemma strip_zeros_spec p m m' p' :
  strip_zeros p m = (m', p') → (p' ≤ p)%nat ∧ m = m' * 10 ^ Z.of_nat (p - p').
Proof.
  revert m. induction p as [|p IH]; intros m; simpl.
  - intros [= <- <-]. simpl. lia.
  - destruct (Z.eqb_spec (m mod 10) 0) as [E|].
    + intros H. apply IH in H as [Hle H]. split; [lia|].
      replace (S p - p')%nat with (S (p - p')) by lia. rewrite Nat2Z.inj_succ, Z.pow_succ_r by lia.
      pose proof (Z.div_mod m 10 ltac:(lia)). nia.
    + intros [= <- <-]. split; [lia|]. rewrite Nat.sub_diag. simpl. lia.
Qed.

Definition sum_inv (s : DecimalSum) : Prop := in_int64 (units s) ∧ (scale s ≤ max_places s ≤ 18)%nat.

Lemma int64_arith_scale a n c :
  in_int64 a → (n ≤ 18)%nat → int64_arith 42 a (pow10 n) = Some c → c = a * 10 ^ Z.of_nat n ∧ in_int64 c.
Proof.
  intros Ha Hn H. apply int64_arith_Some in H as [-> Hc]; [|done|by apply pow10_int64].
  unfold exact_op in *. simpl in *. by rewrite pow10_exact in *.
Qed.

(** The sign of a value and the digits after it. *)
Lemma signed_text text :
  ∃ sg neg ds,
    match text with c :: t => if is_sign c then (c =? c_minus, t) else (false, text) | [] => (false, text) end = (neg, ds) ∧
    text = sg ++ ds ∧ ((neg = true ∧ sg = [c_minus]) ∨ (neg = false ∧ (sg = [] ∨ sg = [c_plus]))).
Proof.
  destruct text as [|c t]; [exists [], false, []; auto 10|]. unfold is_sign.
  destruct (Z.eqb_spec c c_plus) as [->|]; simpl; [exists [c_plus], false, t; auto 10|].
  destruct (Z.eqb_spec c c_minus) as [->|]; simpl; [exists [c_minus], true, t; auto 10|].
  exists [], false, (c :: t); auto 10.
Qed.

Lemma read_value text sg (neg : bool) ds m p d :
  text = sg ++ ds → (neg = true ∧ sg = [c_minus]) ∨ (neg = false ∧ (sg = [] ∨ sg = [c_plus])) →
  read_decimal ds 0 0 0 false = Some (m, p, d) → d ≠ 0%nat →
  denotes text (if neg then - m else m) p ∧ 0 ≤ m < 10 ^ 18 ∧ (p ≤ 18)%nat.
Proof.
  intros -> Hsg H Hd. apply read_decimal_spec in H; [|simpl; lia|lia].
  destruct H as (ds1 & point & ds2 & -> & H1 & H2 & Hp & -> & -> & -> & Hb & Hle).
  rewrite Z.mul_0_l, Z.add_0_l in *. rewrite length_app in *. split_and!.
  - apply denotes_intro; [done..| |].
    + destruct Hp as [?|[? _]]; [by left|by right].
    + intros E. apply (f_equal length) in E. rewrite length_app in E. simpl in *. lia.
  - lia.
  - apply Z.lt_le_trans with (10 ^ Z.of_nat (0 + (length ds1 + length ds2))); [lia|].
    change (10 ^ 18) with (10 ^ Z.of_nat 18). apply Z.pow_le_mono_r; lia.
  - lia.
Qed.

(** The arithmetic of [add], once the value is read. *)
Lemma add_units s m2 p2 :
  sum_inv s → in_int64 m2 → (p2 ≤ max_places s)%nat →
  let s' := match (if (scale s <? p2)%nat then widen p2 s else Some s) with
            | None => inexact s
            | Some s =>
                match (if (p2 <? scale s)%nat then int64_arith 42 m2 (pow10 (scale s - p2)) else Some m2) with
                | None => inexact s
                | Some mantissa =>
                    match int64_arith 43 (units s) mantissa with
                    | None => inexact s
                    | Some total => mkSum total (scale s) (max_places s) (count s) (exact s)
                    end
                end
            end in
  exact s' = true →
  sum_inv s' ∧ max_places s' = max_places s ∧ (dec (units s') (scale s') == dec (units s) (scale s) + dec m2 p2)%Q.
Proof.
  intros [Hu Hs] Hm Hp s' He. subst s'.
  (* both brought to the same scale *)
  set (wide := if (scale s <? p2)%nat then widen p2 s else Some s) in *.
  assert (Hw : ∀ w, wide = Some w → in_int64 (units w) ∧ scale w = Nat.max (scale s) p2 ∧ max_places w = max_places s ∧
            exact w = exact s ∧ (dec (units w) (scale w) == dec (units s) (scale s))%Q).
  { intros w Ew. subst wide. destruct (Nat.ltb_spec (scale s) p2) as [Hlt|Hge].
    - unfold widen in Ew. rewrite (proj2 (Nat.eqb_neq p2 (scale s))) in Ew by lia.
      destruct (int64_arith 42 (units s) _) as [c|] eqn:E; [|done]. simpl in Ew. simplify_eq. simpl.
      apply int64_arith_scale in E as [-> Hc]; [|done|lia]. split_and!; [done|lia|done|done|].
      rewrite <- (dec_scale (units s) (scale s) (p2 - scale s)). replace (scale s + (p2 - scale s))%nat with p2 by lia. reflexivity.
    - simplify_eq. split_and!; [done|lia|done|done|reflexivity]. }
  destruct wide as [w|]; [|done]. destruct (Hw w eq_refl) as (Hwu & Hws & Hwm & Hwe & Hwd). clear Hw.
  set (scaled := if (p2 <? scale w)%nat then int64_arith 42 m2 (pow10 (scale w - p2)) else Some m2) in *.
  assert (Hsc : ∀ c, scaled = Some c → in_int64 c ∧ (dec c (scale w) == dec m2 p2)%Q).
  { intros c Ec. subst scaled. destruct (Nat.ltb_spec p2 (scale w)) as [Hlt|Hge].
    - apply int64_arith_scale in Ec as [-> Hc]; [|done|lia]. split; [done|].
      rewrite <- (dec_scale m2 p2 (scale w - p2)). replace (p2 + (scale w - p2))%nat with (scale w) by lia. reflexivity.
    - simplify_eq. split; [done|]. replace (scale w) with p2 by lia. reflexivity. }
  destruct scaled as [c|]; [|done]. destruct (Hsc c eq_refl) as [Hc Hcd].
  destruct (int64_arith 43 (units w) c) as [total|] eqn:E; [|done].
  apply int64_arith_Some in E as [-> Ht]; [|done..]. simpl in *. split_and!.
  - unfold sum_inv. simpl. split; [done|lia].
  - done.
  - unfold exact_op. simpl. rewrite dec_add, Hwd, Hcd. reflexivity.
Qed.

Lemma sum_add_spec text s :
  sum_inv s → exact (sum_add text s) = true →
  exact s = true ∧ sum_inv (sum_add text s) ∧
  ∃ m p, denotes text m p ∧ max_places (sum_add text s) = Nat.max (max_places s) p ∧
    (dec (units (sum_add text s)) (scale (sum_add text s)) == dec (units s) (scale s) + dec m p)%Q.
Proof.
  intros [Hu Hs]. unfold sum_add. cbn zeta. cbn [exact]. destruct (exact s) eqn:Eex; [|by cbn [negb exact]]. cbn [negb].
  destruct (signed_text text) as (sg & neg & ds & -> & Htext & Hsg).
  destruct (read_decimal ds 0 0 0 false) as [[[m p] d]|] eqn:Er; [|done].
  destruct (Nat.eqb_spec d 0) as [|Hd]; [done|].
  destruct (read_value _ _ _ _ _ _ _ Htext Hsg Er Hd) as (Hden & Hm & Hp).
  destruct (strip_zeros p m) as [m2 p2] eqn:Es. apply strip_zeros_spec in Es as [Hp2 Em].
  assert (Hpos : 0 < 10 ^ Z.of_nat (p - p2)) by (apply Z.pow_pos_nonneg; lia).
  assert (Hm2 : in_int64 (if neg then - m2 else m2)).
  { change (10 ^ 18) with 1000000000000000000 in Hm. unfold in_int64, int64_max, int64_min. destruct neg; nia. }
  assert (Hdec : (dec (if neg then - m2 else m2) p2 == dec (if neg then - m else m) p)%Q).
  { rewrite <- (dec_scale _ p2 (p - p2)). replace (p2 + (p - p2))%nat with p by lia. rewrite Em.
    destruct neg; [replace (- m2 * 10 ^ Z.of_nat (p - p2)) with (- (m2 * 10 ^ Z.of_nat (p - p2))) by ring|]; reflexivity. }
  set (s1 := mkSum (units s) (scale s) (Nat.max (max_places s) p) (wrap64 (count s + 1)) true). intros He.
  assert (Hs1 : sum_inv s1) by (unfold sum_inv; simpl; split; [done|lia]).
  destruct (add_units s1 _ p2 Hs1 Hm2 ltac:(simpl; lia) He) as (Hinv & Hmp & Hv).
  split_and!; [done|exact Hinv|].
  exists (if neg then - m else m), p. split_and!; [done|exact Hmp|]. eapply Qeq_trans; [exact Hv|]. rewrite Hdec. reflexivity.
Qed.

(** ** The text of a sum *)

Lemma magnitude_abs v : in_int64 v → magnitude v = Z.abs v.
Proof.
  intros Hv. unfold magnitude, wrap64. destruct (Z.ltb_spec v 0).
  - rewrite Zminus_mod_idemp_r. rewrite Z.mod_small by widths. lia.
  - rewrite Z.mod_small by widths. lia.
Qed.

Lemma replicate_zeros_value n l : digits_value (replicate n 48 ++ l) = digits_value l.
Proof.
  induction n as [|n IH]; simpl; [done|]. rewrite digits_value_cons, IH. lia.
Qed.

Lemma Forall_zeros n : Forall (λ c, is_digit c = true) (replicate n 48).
Proof. by apply Forall_replicate. Qed.

(** The text of [v] units of [10^-places]: its value, with exactly these places. *)
Lemma with_point_denotes v places :
  in_int64 v → denotes (minus_sign v ++ with_point places (to_string (magnitude v))) v places.
Proof.
  intros Hv. rewrite magnitude_abs by done. destruct (to_string_spec (Z.abs v) ltac:(lia)) as (Hne & Hd & Hval).
  unfold with_point. set (digits := to_string (Z.abs v)) in *.
  set (full := if (length digits <=? places)%nat then replicate (places - length digits + 1) 48 ++ digits else digits).
  assert (Hfull : Forall (λ c, is_digit c = true) full ∧ digits_value full = Z.abs v ∧ (places < length full)%nat).
  { subst full. destruct (Nat.leb_spec (length digits) places).
    - split_and!; [apply Forall_app; split; [apply Forall_zeros|done]|by rewrite replicate_zeros_value|].
      rewrite length_app, length_replicate. lia.
    - done. }
  destruct Hfull as (Hf & Hfv & Hfl). cbn zeta. fold full.
  set (n := (length full - places)%nat).
  assert (Hl2 : length (drop n full) = places) by (rewrite length_drop; lia).
  pose proof (denotes_intro (minus_sign v) (v <? 0) (take n full) [c_dot] (drop n full)) as H.
  rewrite Hl2, take_drop, Hfv in H. cbn [app] in H.
  replace (if v <? 0 then - Z.abs v else Z.abs v) with v in H by (destruct (Z.ltb_spec v 0); lia).
  apply H.
  - unfold minus_sign. destruct (v <? 0); [by left|right; auto].
  - by apply Forall_take.
  - by apply Forall_drop.
  - by right.
  - intros ->. simpl in Hfl. lia.
Qed.

Lemma digits_denotes v : in_int64 v → denotes (minus_sign v ++ to_string (magnitude v)) v 0.
Proof.
  intros Hv. rewrite magnitude_abs by done. destruct (to_string_spec (Z.abs v) ltac:(lia)) as (Hne & Hd & Hval).
  pose proof (denotes_intro (minus_sign v) (v <? 0) (to_string (Z.abs v)) [] []) as H.
  rewrite !app_nil_r, Hval in H.
  replace (if v <? 0 then - Z.abs v else Z.abs v) with v in H by (destruct (Z.ltb_spec v 0); lia).
  apply H; [|done|done|by left|done]. unfold minus_sign. destruct (v <? 0); [by left|right; auto].
Qed.

Lemma sum_text_denotes s : in_int64 (units s) → denotes (sum_text s) (units s) (scale s).
Proof.
  intros Hu. unfold sum_text. destruct (Nat.ltb_spec 0 (scale s)); [by apply with_point_denotes|].
  replace (scale s) with 0%nat by lia. by apply digits_denotes.
Qed.

(** Zeros written behind the last place. *)
Lemma denotes_zeros t m p k :
  denotes t m p → (0 < k)%nat →
  denotes (t ++ (if (p =? 0)%nat then [c_dot] else []) ++ replicate k 48) (m * 10 ^ Z.of_nat k) (p + k) ∨
  (p = 0%nat ∧ ∃ t', t = t' ++ [c_dot]).
Proof.
  intros H Hk. destruct H as [sg neg ds1 point ds2 Hsg H1 H2 Hp Hne].
  assert (Hval : digits_value (ds1 ++ ds2 ++ replicate k 48) = digits_value (ds1 ++ ds2) * 10 ^ Z.of_nat k).
  { rewrite app_assoc, digits_value_app, length_replicate.
    pose proof (replicate_zeros_value k []) as Hz. rewrite app_nil_r in Hz. change (digits_value []) with 0 in Hz. lia. }
  assert (Hgen : ∀ T, T = sg ++ ds1 ++ [c_dot] ++ (ds2 ++ replicate k 48) →
            denotes T ((if neg then - digits_value (ds1 ++ ds2) else digits_value (ds1 ++ ds2)) * 10 ^ Z.of_nat k) (length ds2 + k)).
  { intros T ->. replace (length ds2 + k)%nat with (length (ds2 ++ replicate k 48)) by (rewrite length_app, length_replicate; lia).
    replace ((if neg then _ else _) * _) with
      (if neg then - digits_value (ds1 ++ ds2 ++ replicate k 48) else digits_value (ds1 ++ ds2 ++ replicate k 48))
      by (rewrite Hval; destruct neg; ring).
    apply denotes_intro; [done|done| |by right|].
    - apply Forall_app. split; [done|apply Forall_zeros].
    - destruct k; [lia|]. intros [_ [_ [=]]%app_nil]%app_nil. }
  destruct Hp as [[-> ->]| ->].
  - left. apply Hgen. cbn [app length Nat.eqb]. by rewrite app_nil_r, <- !app_assoc.
  - destruct ds2 as [|c ds2].
    + right. split; [done|]. exists (sg ++ ds1). by rewrite <- !app_assoc.
    + left. apply Hgen. simpl. rewrite <- !app_assoc. simpl. by rewrite <- ?app_assoc.
Qed.

Lemma text_with_places_denotes s :
  in_int64 (units s) → (scale s ≤ max_places s)%nat →
  ∃ m, denotes (text_with_places s) m (max_places s) ∧ (dec m (max_places s) == dec (units s) (scale s))%Q.
Proof.
  intros Hu Hs. unfold text_with_places. pose proof (sum_text_denotes s Hu) as Hd.
  destruct (Nat.ltb_spec (scale s) (max_places s)) as [Hlt|Hge].
  - exists (units s * 10 ^ Z.of_nat (max_places s - scale s)).
    replace (max_places s) with (scale s + (max_places s - scale s))%nat at 3 5 by lia. split; [|apply dec_scale].
    destruct (denotes_zeros _ _ _ (max_places s - scale s) Hd ltac:(lia)) as [H|[H0 [t' Ht]]]; [done|].
    exfalso. unfold sum_text in Ht. rewrite H0 in Ht. simpl in Ht.
    destruct (to_string_spec (magnitude (units s))) as (Hne & Hdg & _); [rewrite magnitude_abs by done; lia|].
    destruct (to_string (magnitude (units s))) as [|x l _] using rev_ind; [done|].
    rewrite app_assoc in Ht. apply app_inj_tail in Ht as [_ ->]. apply Forall_app in Hdg as [_ Hdg]. by inversion Hdg.
  - exists (units s). replace (max_places s) with (scale s) by lia. split; [done|reflexivity].
Qed.

(** ** The quotient of AVG *)

(** [n / d] rounded half away from zero. *)
Definition round_half_away (n d : Z) : Z := Z.sgn n * ((2 * Z.abs n + d) / (2 * d)).

Lemma rounded_quotient n d :
  in_int64 n → 0 < d ≤ int64_max →
  let quotient := Z.quot n d in
  let remainder := Z.rem n d in
  let abs_remainder := if remainder <? 0 then - remainder else remainder in
  (if d - abs_remainder <=? abs_remainder then quotient + (if n <? 0 then -1 else 1) else quotient) = round_half_away n d.
Proof.
  intros Hn Hd. cbn zeta.
  assert (Hpos : ∀ a, 0 ≤ a → (if d - Z.rem a d <=? Z.rem a d then Z.quot a d + 1 else Z.quot a d) = (2 * a + d) / (2 * d)).
  { intros a Ha. rewrite Z.rem_mod_nonneg, Z.quot_div_nonneg by lia.
    pose proof (Z.div_mod a d ltac:(lia)) as Hdm. pose proof (Z.mod_pos_bound a d ltac:(lia)) as Hb.
    destruct (Z.leb_spec (d - a mod d) (a mod d)).
    - apply Z.div_unique with (2 * (a mod d) - d); [left; lia|]. rewrite Hdm at 1. ring.
    - apply Z.div_unique with (2 * (a mod d) + d); [left; lia|]. rewrite Hdm at 1. ring. }
  unfold round_half_away. destruct (Z.ltb_spec n 0) as [Hneg|Hge].
  - replace (Z.abs n) with (- n) by lia. replace (Z.sgn n) with (-1) by lia.
    pose proof (Hpos (- n) ltac:(lia)) as H. rewrite Z.rem_opp_l, Z.quot_opp_l in H by lia.
    pose proof (Z.rem_nonpos n d ltac:(lia) ltac:(lia)) as Hr.
    destruct (Z.ltb_spec (Z.rem n d) 0) as [Hr0|Hr0].
    + destruct (Z.leb_spec (d - - Z.rem n d) (- Z.rem n d)); lia.
    + assert (Z.rem n d = 0) as E by lia. rewrite E in *.
      destruct (Z.leb_spec (d - 0) 0); [lia|]. destruct (Z.leb_spec (d - - 0) (- 0)); lia.
  - replace (Z.abs n) with n by lia. pose proof (Hpos n Hge) as H. pose proof (Z.rem_nonneg n d ltac:(lia) Hge).
    rewrite (proj2 (Z.ltb_ge (Z.rem n d) 0)) by lia. rewrite H.
    destruct (Z.eq_dec n 0) as [->|]; [simpl; symmetry; rewrite Z.div_small by lia; done|].
    replace (Z.sgn n) with 1 by lia. lia.
Qed.

Lemma round_half_away_scale n d k : 0 < k → 0 < d → round_half_away (n * k) (d * k) = round_half_away n d.
Proof.
  intros Hk Hd. unfold round_half_away. rewrite Z.sgn_mul, Z.abs_mul, (Z.sgn_pos k), (Z.abs_eq k) by lia.
  rewrite Z.mul_1_r. f_equal. replace (2 * (Z.abs n * k) + d * k) with ((2 * Z.abs n + d) * k) by ring.
  replace (2 * (d * k)) with (2 * d * k) by ring. apply Z.div_mul_cancel_r; lia.
Qed.

Lemma round_half_away_int64 n d : in_int64 n → 0 < d → in_int64 (round_half_away n d).
Proof.
  intros Hn Hd. unfold round_half_away.
  assert (0 ≤ (2 * Z.abs n + d) / (2 * d) ≤ Z.abs n).
  { split; [apply Z.div_pos; lia|].
    destruct (Z.eq_dec n 0) as [->|]; [rewrite Z.div_small by lia; lia|].
    apply Z.lt_succ_r, Z.div_lt_upper_bound; nia. }
  destruct (Z.sgn_spec n) as [[? ->]|[[? ->]|[? ->]]]; widths.
Qed.

(** The sum of values of the form [m] units of [10^-p]. *)
Definition sum_values (vs : list (Z * nat)) : Q := foldr (λ v q, dec v.1 v.2 + q)%Q (inject_Z 0) vs.
Definition most_places (vs : list (Z * nat)) : nat := foldr (λ v p, Nat.max v.2 p) 0%nat vs.

Lemma sum_start_inv : sum_inv sum_start.
Proof. split; [apply (bool_decide_eq_true_1 _); by vm_compute|simpl; lia]. Qed.

Lemma sum_add_inexact v s : exact s = false → exact (sum_add v s) = false.
Proof. intros E. unfold sum_add. cbn zeta. cbn [exact]. by rewrite E. Qed.

Lemma sum_fold_inexact values s : exact s = false → exact (fold_left (λ s v, sum_add v s) values s) = false.
Proof. revert s. induction values as [|v values IH]; intros s E; simpl; [done|]. by apply IH, sum_add_inexact. Qed.

Lemma sum_fold_spec values s :
  sum_inv s → exact (fold_left (λ s v, sum_add v s) values s) = true →
  let s' := fold_left (λ s v, sum_add v s) values s in
  sum_inv s' ∧ ∃ vs, Forall2 (λ t v, denotes t v.1 v.2) values vs ∧
    max_places s' = Nat.max (max_places s) (most_places vs) ∧
    (dec (units s') (scale s') == dec (units s) (scale s) + sum_values vs)%Q.
Proof.
  revert s. induction values as [|t values IH]; intros s Hs He; simpl in *.
  - split; [done|]. exists []. split_and!; [done|simpl; lia|]. unfold sum_values. simpl. rewrite Qplus_0_r. reflexivity.
  - assert (He1 : exact (sum_add t s) = true) by (destruct (exact (sum_add t s)) eqn:E; [done|by rewrite sum_fold_inexact in He]).
    destruct (sum_add_spec t s Hs He1) as (_ & Hs1 & m & p & Hd & Hm & Hv).
    destruct (IH _ Hs1 He) as (Hs' & vs & Hvs & Hmp & Hval). split; [done|]. exists ((m, p) :: vs). split_and!.
    + by constructor.
    + rewrite Hmp, Hm. simpl. lia.
    + rewrite Hval, Hv. unfold sum_values. simpl. ring.
Qed.

Lemma sum_decimals_spec values :
  exact (sum_decimals values) = true →
  sum_inv (sum_decimals values) ∧ ∃ vs, Forall2 (λ t v, denotes t v.1 v.2) values vs ∧
    max_places (sum_decimals values) = most_places vs ∧
    (dec (units (sum_decimals values)) (scale (sum_decimals values)) == sum_values vs)%Q.
Proof.
  intros He. destruct (sum_fold_spec values sum_start sum_start_inv He) as (Hs & vs & Hvs & Hm & Hv).
  split; [done|]. exists vs. split_and!; [done|done|]. eapply Qeq_trans; [exact Hv|].
  assert (dec 0 0 == 0)%Q as E by (unfold dec, q10; reflexivity). simpl. rewrite E. ring.
Qed.

Lemma average_text_spec divisor places s t :
  sum_inv s → 0 < divisor ≤ int64_max → (places - scale s ≤ 18)%nat → average_text divisor places s = Some t →
  denotes t (round_half_away (units s * 10 ^ Z.of_nat places) (divisor * 10 ^ Z.of_nat (scale s))) places.
Proof.
  intros [Hu Hs] Hd Hp H. unfold average_text in H.
  assert (Hgen : ∀ n d, in_int64 n → 0 < d ≤ int64_max →
    (let quotient := Z.quot n d in
     let remainder := Z.rem n d in
     let abs_remainder := if remainder <? 0 then - remainder else remainder in
     let quotient := if d - abs_remainder <=? abs_remainder then quotient + (if n <? 0 then -1 else 1) else quotient in
     Some (minus_sign quotient ++ with_point places (to_string (magnitude quotient)))) = Some t →
    denotes t (round_half_away n d) places).
  { intros n d Hn Hd'. cbn zeta. rewrite (rounded_quotient n d Hn Hd'). intros [= <-].
    apply with_point_denotes, round_half_away_int64; [done|lia]. }
  destruct (Nat.leb_spec (scale s) places) as [Hle|Hgt].
  - destruct (int64_arith 42 (units s) _) as [n|] eqn:E; [|done]. cbn [mbind option_bind] in H.
    apply int64_arith_scale in E as [-> Hn]; [|done|done]. apply Hgen in H; [|done|done].
    rewrite <- (round_half_away_scale _ _ (10 ^ Z.of_nat (scale s))) in H; [|apply Z.pow_pos_nonneg; lia|lia].
    rewrite <- Z.mul_assoc, <- Z.pow_add_r in H by lia.
    by replace (Z.of_nat (places - scale s) + Z.of_nat (scale s)) with (Z.of_nat places) in H by lia.
  - destruct (int64_arith 42 divisor _) as [d|] eqn:E; [|done]. cbn [mbind option_bind] in H.
    apply int64_arith_scale in E as [-> Hd2]; [|widths|lia].
    pose proof (Z.pow_pos_nonneg 10 (Z.of_nat (scale s - places)) ltac:(lia) ltac:(lia)) as Hpw.
    apply Hgen in H; [|done|split; [nia|apply Hd2]].
    rewrite <- (round_half_away_scale _ _ (10 ^ Z.of_nat places)) in H; [|apply Z.pow_pos_nonneg; lia|nia].
    rewrite <- Z.mul_assoc, <- Z.pow_add_r in H by lia.
    by replace (Z.of_nat (scale s - places) + Z.of_nat places) with (Z.of_nat (scale s)) in H by lia.
Qed.

(** ** Properties *)

Section properties.
Context (to_chars : spec_float → list Z).


(** Integer arithmetic never overflows unnoticed: on int64 operands [int64_arith] gives the exact sum,
    difference or product when it fits in an int64, and nothing otherwise. *)
Theorem int64_arith_exact op a b :
  in_int64 a → in_int64 b →
  int64_arith op a b = if decide (in_int64 (exact_op op a b)) then Some (exact_op op a b) else None.
Proof. apply int64_arith_spec. Qed.

(** SUM is exact. When the decimal sum of some values has stayed exact, every value is a plain decimal,
    and the text of SUM is a decimal with the value of their exact sum, written with the most places any
    of the values has. *)
Theorem sum_of_texts_exact values display :
  values ≠ [] → exact (sum_decimals values) = true →
  ∃ t vs m, sum_of_texts to_chars values display false = Some t ∧ Forall2 (λ t v, denotes t v.1 v.2) values vs ∧
    denotes t m (most_places vs) ∧ (dec m (most_places vs) == sum_values vs)%Q.
Proof.
  intros Hne He. unfold sum_of_texts. rewrite bool_decide_eq_false_2, He by done.
  destruct (sum_decimals_spec values He) as ([Hu Hs] & vs & Hvs & Hm & Hv).
  destruct (text_with_places_denotes _ Hu ltac:(lia)) as (m & Hd & Hq). rewrite Hm in *.
  exists (text_with_places (sum_decimals values)), vs, m. split_and!; [done..|]. by rewrite Hq.
Qed.

(** AVG is the exact quotient rounded half away from zero to its places, when the decimal sum has
    stayed exact, the scaled numerator fits and the power of ten it is scaled by fits in an int64 (for a
    larger one see [average_overflows]). *)
Theorem average_of_texts_rounds values t :
  let sum := sum_decimals values in
  let places := Nat.min (max_places sum + 4) 30 in
  values ≠ [] → exact sum = true → Z.of_nat (length values) ≤ int64_max → (places - scale sum ≤ 18)%nat →
  average_text (Z.of_nat (length values)) places sum = Some t →
  average_of_texts to_chars values false = Some t ∧
  denotes t (round_half_away (units sum * 10 ^ Z.of_nat places) (Z.of_nat (length values) * 10 ^ Z.of_nat (scale sum))) places ∧
  ∃ vs, Forall2 (λ t v, denotes t v.1 v.2) values vs ∧ (dec (units sum) (scale sum) == sum_values vs)%Q.
Proof.
  intros sum places Hne He Hn Hp Ht. subst sum. destruct (sum_decimals_spec values He) as (Hs & vs & Hvs & _ & Hv).
  assert (Hlen : 0 < Z.of_nat (length values)) by (destruct values; [done|simpl; lia]).
  split_and!.
  - unfold average_of_texts. rewrite bool_decide_eq_false_2, He by done.
    assert (wrap_int64 (Z.of_nat (length values)) = Z.of_nat (length values)) as ->.
    { unfold wrap_int64. unfold int64_max in Hn. rewrite Z.mod_small; lia. }
    fold places. by rewrite Ht.
  - by apply average_text_spec.
  - by exists vs.
Qed.
End properties.

Lemma int64_arith_exact_witness :
  int64_arith 42 (-3) 3074457345618258603 =
  if decide (in_int64 (exact_op 42 (-3) 3074457345618258603)) then Some (exact_op 42 (-3) 3074457345618258603) else None.
Proof. apply int64_arith_exact; apply (bool_decide_eq_true_1 _); by vm_compute. Defined.

Lemma sum_of_texts_exact_witness :
  ∃ t vs m, sum_of_texts (λ _, []) [str "10.50"; str "-0.75"; str "5"] true false = Some t ∧
    Forall2 (λ t v, denotes t v.1 v.2) [str "10.50"; str "-0.75"; str "5"] vs ∧
    denotes t m (most_places vs) ∧ (dec m (most_places vs) == sum_values vs)%Q.
Proof. apply sum_of_texts_exact; [done|by vm_compute]. Defined.

Lemma average_of_texts_rounds_witness :
  let values := [str "1"; str "2"; str "2"] in
  let sum := sum_decimals values in
  let places := Nat.min (max_places sum + 4) 30 in
  average_of_texts (λ _, []) values false = Some (str "1.6667") ∧
  denotes (str "1.6667") (round_half_away (units sum * 10 ^ Z.of_nat places) (Z.of_nat (length values) * 10 ^ Z.of_nat (scale sum))) places ∧
  ∃ vs, Forall2 (λ t v, denotes t v.1 v.2) values vs ∧ (dec (units sum) (scale sum) == sum_values vs)%Q.
Proof.
  intros values sum places. apply average_of_texts_rounds; [done|by vm_compute| | |by vm_compute].
  - by vm_compute.
  - apply Nat.leb_le. by vm_compute.
Defined.

(** AVG over decimals with many places is wrong. The sum drops the zeros its values end in, and
    [average_text] scales it back to 4 places more than the values show with [pow10], which overflows an
    int64 from 10^19 on: the average of the one value 1.0000000000000000 (16 places) is 0.0776... *)
Theorem average_overflows to_chars :
  average_of_texts to_chars [str "1.0000000000000000"] false = Some (str "0.07766279631452241920").
Proof. by vm_compute. Qed.
