(* ===== verification/KeyOrder.v ===== *)
(** * The order of index keys (cmp_keys in src/storage/btree.cpp, KeyKind in include/engine/storage/btree.hpp)

    How the keys of a tree compare, by the kinds of its columns, and that this is an order of the keys
    the B+tree can rely on: of all texts in a column of text, of the integers in a column of numbers, and
    of tuples of them. *)
From Stdlib Require Import SpecFloat.
From S2P Require Import Prelude Numerals Collation BTree NumericText.

Inductive KeyKind : Set := Mixed | Number | Text.

Definition plain_uint (s : list Z) : bool :=
  if bool_decide (s = []) || (15 <? length s)%nat then false
  else if (1 <? length s)%nat && match s with c :: _ => c =? c_zero | [] => false end then false
  else forallb is_digit s.

Definition bytes_order (a b : list Z) : Z := match bytes_compare a b with Lt => -1 | Eq => 0 | Gt => 1 end.

(** The kind of a segment of the key; a tree without kinds is Mixed. *)
Definition kind_of (kinds : list KeyKind) (segment : nat) : KeyKind :=
  default Mixed (kinds !! Nat.min segment (length kinds - 1)).

(** The segments of a key, which NUL bytes divide. *)
Fixpoint segments (s : list Z) : list (list Z) :=
  match s with
  | [] => [[]]
  | c :: s =>
      if c =? 0 then [] :: segments s
      else match segments s with x :: l => (c :: x) :: l | [] => [[c]] end
  end.

Section keys.
Context (kRuns : list Run) (kPool : list Z).

Definition text_order (a b : list Z) : Z := compare kRuns kPool a b.

Definition cmp_key_segment (a b : list Z) (kind : KeyKind) : Z :=
  if bool_decide (a = b) then 0
  else
    match kind with
    | Text => text_order a b
    | _ =>
        if plain_uint a && plain_uint b then
          if negb (length a =? length b)%nat then (if (length a <? length b)%nat then -1 else 1)
          else if bytes_order a b <? 0 then -1 else 1
        else
          match kind with
          | Number =>
              let c := compare_numbers a b in
              if negb (c =? 0) then c else bytes_order a b
          | _ =>
              match a, b with
              | [], _ => -1
              | _, [] => 1
              | _, _ =>
                  match parse_number a, parse_number b with
                  | Some x, Some y => if SFltb x y then -1 else if SFltb y x then 1 else bytes_order a b
                  | Some _, None => -1
                  | None, Some _ => 1
                  | None, None => text_order a b
                  end
              end
          end
    end.

(** The loop over the segments of two keys. *)
Fixpoint cmp_segments (kinds : list KeyKind) (i : nat) (sa sb : list (list Z)) : Z :=
  match sa, sb with
  | a :: sa, b :: sb =>
      let c := cmp_key_segment a b (kind_of kinds i) in
      if negb (c =? 0) then c
      else
        match sa, sb with
        | [], [] => 0
        | [], _ => -1
        | _, [] => 1
        | _, _ => cmp_segments kinds (S i) sa sb
        end
  | _, _ => 0
  end.

Definition cmp_keys (kinds : list KeyKind) (a b : list Z) : Z :=
  if bool_decide (0 ∉ a) && bool_decide (0 ∉ b) then cmp_key_segment a b (kind_of kinds 0)
  else cmp_segments kinds 0 (segments a) (segments b).

(** ** Integers as keys *)

(** The value of an integer text, with a sign or none, up to the largest BIGINT UNSIGNED. *)
Definition integer_value (s : list Z) : option Z :=
  v ← parse_wide_integer_text s; Some (if negative v then - magnitude_of v else magnitude_of v).

Lemma from_chars_u64_spec ds m :
  from_chars_u64 ds = Some m → ds ≠ [] ∧ Forall (λ c, is_digit c = true) ds ∧ m = digits_value ds ∧ in_u64 m.
Proof.
  unfold from_chars_u64. case_bool_decide; [done|]. destruct (forallb is_digit ds) eqn:E; simpl; [|done].
  case_decide; [|done]. intros [= <-]. split_and!; try done. rewrite forallb_forall in E.
  apply Forall_forall. intros c Hc. by apply E, list_elem_of_In.
Qed.

Lemma from_chars_int64_digits (neg : bool) ds :
  ds ≠ [] → Forall (λ c, is_digit c = true) ds →
  from_chars_int64 ((if neg then [c_minus] else []) ++ ds) =
  let v := if neg then - digits_value ds else digits_value ds in if decide (in_int64 v) then Some v else None.
Proof.
  intros Hne Hd. assert (Hf : forallb is_digit ds = true).
  { apply forallb_forall. intros c Hc%list_elem_of_In. rewrite Forall_forall in Hd. by apply Hd. }
  unfold from_chars_int64. destruct neg; cbn [app].
  - change (c_minus =? c_minus) with true. cbv iota. rewrite bool_decide_eq_false_2, Hf by done. done.
  - destruct ds as [|c ds]; [done|].
    assert ((c =? c_minus) = false) as ->.
    { apply Forall_cons in Hd as [Hc _]. unfold is_digit in Hc. bool_cases. apply Z.eqb_neq. lia. }
    rewrite bool_decide_eq_false_2, Hf by done. done.
Qed.

(** The shape of an integer text. *)
Lemma integer_value_spec s v :
  integer_value s = Some v →
  ∃ sg (neg : bool) ds, s = sg ++ ds ∧ ds ≠ [] ∧ Forall (λ c, is_digit c = true) ds ∧
    ((neg = true ∧ sg = [c_minus]) ∨ (neg = false ∧ (sg = [] ∨ sg = [c_plus]))) ∧
    v = (if neg then - digits_value ds else digits_value ds) ∧ in_u64 (digits_value ds) ∧
    parse_wide_integer_text s = Some (mkSigned (if digits_value ds =? 0 then false else neg) (digits_value ds)).
Proof.
  unfold integer_value, parse_wide_integer_text. destruct (signed_text s) as (sg & neg & ds & -> & -> & Hsg).
  destruct ds as [|c ds]; [done|]. destruct (from_chars_u64 (c :: ds)) as [m|] eqn:E; simpl; [|done].
  apply from_chars_u64_spec in E as (Hne & Hd & -> & Hu). intros [= <-].
  exists sg, neg, (c :: ds). split_and!; try done. destruct (Z.eqb_spec (digits_value (c :: ds)) 0) as [->|]; [by destruct neg|done].
Qed.

Lemma parse_int64_integer s v :
  integer_value s = Some v → parse_int64_text s = if decide (in_int64 v) then Some v else None.
Proof.
  intros H. destruct (integer_value_spec s v H) as (sg & neg & ds & -> & Hne & Hd & Hsg & -> & _).
  pose proof (from_chars_int64_digits neg ds Hne Hd) as Hf. unfold parse_int64_text.
  destruct Hsg as [[-> ->]|[-> [-> | ->]]]; cbn [app] in *.
  - change (strip_plus (c_minus :: ds)) with (c_minus :: ds). exact Hf.
  - destruct ds as [|c ds]; [done|].
    assert (strip_plus (c :: ds) = c :: ds) as ->; [|exact Hf].
    apply Forall_cons in Hd as [Hc _]. unfold is_digit in Hc. bool_cases. unfold strip_plus.
    by rewrite (proj2 (Z.eqb_neq c c_plus)) by lia.
  - change (strip_plus (c_plus :: ds)) with ds. destruct ds as [|c ds]; [done|]. exact Hf.
Qed.

Lemma compare_numbers_integers a b x y :
  integer_value a = Some x → integer_value b = Some y → compare_numbers a b = sign (x ?= y).
Proof.
  intros Ha Hb. unfold compare_numbers. rewrite (parse_int64_integer _ _ Ha), (parse_int64_integer _ _ Hb).
  assert (Hlt : ∀ u v, (if u <? v then -1 else if v <? u then 1 else 0) = sign (u ?= v)).
  { intros u v. destruct (Z.compare_spec u v); simpl.
    - subst. by rewrite !(proj2 (Z.ltb_ge _ _)) by lia.
    - by rewrite (proj2 (Z.ltb_lt _ _)) by lia.
    - by rewrite (proj2 (Z.ltb_ge u v)), (proj2 (Z.ltb_lt v u)) by lia. }
  destruct (integer_value_spec _ _ Ha) as (_ & na & da & _ & _ & _ & _ & -> & Hua & ->).
  destruct (integer_value_spec _ _ Hb) as (_ & nb & db & _ & _ & _ & _ & -> & Hub & ->).
  unfold in_u64 in *. generalize dependent (digits_value da). generalize dependent (digits_value db). intros y Hb Hy x Ha Hx.
  assert (Hwide : (if negb (eqb (if x =? 0 then false else na) (if y =? 0 then false else nb))
                   then (if (if x =? 0 then false else na) then -1 else 1)
                   else if (if x =? 0 then false else na) then - sign (x ?= y) else sign (x ?= y)) =
                  sign ((if na then - x else x) ?= (if nb then - y else y))).
  { destruct (Z.eqb_spec x 0) as [->|], (Z.eqb_spec y 0) as [->|], na, nb; cbn [negb eqb];
      repeat match goal with |- context [?u ?= ?v] => destruct (Z.compare_spec u v) end; cbn [sign]; lia. }
  cbn [negative magnitude_of]. cbn zeta.
  case_decide; [case_decide; [apply Hlt|]|]; cbn [negative magnitude_of]; rewrite Hlt; exact Hwide.
Qed.

Lemma plain_uint_spec s :
  plain_uint s = true → s ≠ [] ∧ (length s ≤ 15)%nat ∧ Forall (λ c, is_digit c = true) s ∧
    ((1 < length s)%nat → 10 ^ Z.of_nat (length s - 1) ≤ digits_value s).
Proof.
  unfold plain_uint. case_bool_decide as Hne; [done|]. cbn [orb]. destruct (Nat.ltb_spec 15 (length s)); [done|].
  destruct ((1 <? length s)%nat && _) eqn:E; [done|]. rewrite forallb_forall. intros Hf.
  assert (Hd : Forall (λ c, is_digit c = true) s) by (apply Forall_forall; intros c Hc; by apply Hf, list_elem_of_In).
  split_and!; try done. intros Hl. rewrite (proj2 (Nat.ltb_lt _ _) Hl) in E. cbn [andb] in E.
  destruct s as [|c s]; [done|]. apply Z.eqb_neq in E. apply Forall_cons in Hd as [Hc Hd]. rewrite digits_value_cons.
  pose proof (digits_value_bound s Hd). unfold is_digit in Hc. bool_cases. simpl. rewrite Nat.sub_0_r. nia.
Qed.

Lemma plain_uint_integer s : plain_uint s = true → integer_value s = Some (digits_value s).
Proof.
  intros H. destruct (plain_uint_spec s H) as (Hne & Hl & Hd & _). pose proof (digits_value_bound s Hd) as Hb.
  unfold integer_value, parse_wide_integer_text. destruct s as [|c s]; [done|].
  assert (is_sign c = false) as ->.
  { apply Forall_cons in Hd as [Hc _]. unfold is_digit, is_sign in *. bool_cases. by rewrite !(proj2 (Z.eqb_neq c _)) by lia. }
  unfold from_chars_u64. rewrite bool_decide_eq_false_2 by done.
  assert (forallb is_digit (c :: s) = true) as ->.
  { apply forallb_forall. intros x Hx%list_elem_of_In. rewrite Forall_forall in Hd. by apply Hd. }
  cbn [orb negb]. rewrite decide_True.
  - simpl. by destruct (digits_value (c :: s) =? 0).
  - assert (10 ^ Z.of_nat (length (c :: s)) ≤ 10 ^ 15) by (apply Z.pow_le_mono_r; lia). unfold in_u64, u64_max. lia.
Qed.

(** The order of two integers as keys: by value, and the spellings of one by their bytes. *)
Definition number_order (a b : list Z) : comparison :=
  match default 0 (integer_value a) ?= default 0 (integer_value b) with Eq => bytes_compare a b | c => c end.

Lemma bytes_order_sign a b : bytes_order a b = sign (bytes_compare a b).
Proof. unfold bytes_order. by destruct (bytes_compare a b). Qed.

Lemma plain_uint_order a b :
  plain_uint a = true → plain_uint b = true → a ≠ b →
  (if negb (length a =? length b)%nat then (if (length a <? length b)%nat then -1 else 1)
   else if bytes_order a b <? 0 then -1 else 1) = sign (digits_value a ?= digits_value b).
Proof.
  intros Ha Hb Hne. destruct (plain_uint_spec a Ha) as (Hna & _ & Hda & Hla). destruct (plain_uint_spec b Hb) as (Hnb & _ & Hdb & Hlb).
  pose proof (digits_value_bound a Hda) as Ba. pose proof (digits_value_bound b Hdb) as Bb.
  assert (0 < length a)%nat by (destruct a; [done|simpl; lia]). assert (0 < length b)%nat by (destruct b; [done|simpl; lia]).
  destruct (Nat.eqb_spec (length a) (length b)) as [El|Hl]; simpl.
  - rewrite bytes_order_sign, (digits_lexicographic a b El Hda Hdb).
    destruct (Z.compare_spec (digits_value a) (digits_value b)) as [E| |]; try done. exfalso. apply Hne, bytes_compare_eq.
    rewrite (digits_lexicographic a b El Hda Hdb), E. apply Z.compare_refl.
  - destruct (Nat.ltb_spec (length a) (length b)) as [Hlt|Hge].
    + assert (10 ^ Z.of_nat (length a) ≤ 10 ^ Z.of_nat (length b - 1)) by (apply Z.pow_le_mono_r; lia).
      rewrite (proj2 (Z.compare_lt_iff _ _)); [done|]. specialize (Hlb ltac:(lia)). lia.
    + assert (10 ^ Z.of_nat (length b) ≤ 10 ^ Z.of_nat (length a - 1)) by (apply Z.pow_le_mono_r; lia).
      rewrite (proj2 (Z.compare_gt_iff _ _)); [done|]. specialize (Hla ltac:(lia)). lia.
Qed.

(** ** Orders *)

Lemma bytes_preorder : preorder (λ _, True) bytes_compare.
Proof.
  split; [intros; apply bytes_compare_antisym|]. intros x y z _ _ _. rewrite <- !bytes_leb_le. apply bytes_leb_trans.
Qed.

Lemma number_preorder : preorder (λ _, True) number_order.
Proof.
  apply (preorder_then (λ _, True) (λ a b, default 0 (integer_value a) ?= default 0 (integer_value b)) bytes_compare); [|apply bytes_preorder].
  split; [intros; apply Z.compare_antisym|]. intros x y z _ _ _.
  generalize (default 0 (integer_value x)) (default 0 (integer_value y)) (default 0 (integer_value z)). intros u v w.
  destruct (Z.compare_spec u v), (Z.compare_spec v w), (Z.compare_spec u w); try done; lia.
Qed.

(** ** Segments and keys *)

Definition segment_dom (kind : KeyKind) (s : list Z) : Prop :=
  match kind with
  | Text => True
  | Number => integer_value s ≠ None
  | Mixed => False
  end.

Definition segment_order (kind : KeyKind) (a b : list Z) : comparison :=
  match kind with Text => order kRuns kPool a b | _ => number_order a b end.

Lemma number_order_refl a : number_order a a = Eq.
Proof. unfold number_order. rewrite Z.compare_refl. by apply bytes_compare_eq. Qed.

Lemma cmp_key_segment_spec kind a b :
  segment_dom kind a → segment_dom kind b → cmp_key_segment a b kind = sign (segment_order kind a b).
Proof.
  intros Ha Hb. unfold cmp_key_segment, segment_order, text_order. case_bool_decide as E.
  { subst. destruct kind; by rewrite ?order_refl, ?number_order_refl. }
  destruct kind; [done| |apply compare_spec]. simpl in Ha, Hb.
  destruct (integer_value a) as [x|] eqn:Ea; [|done]. destruct (integer_value b) as [y|] eqn:Eb; [|done].
  unfold number_order. rewrite Ea, Eb. simpl. destruct (plain_uint a && plain_uint b) eqn:Ep.
  - apply andb_true_iff in Ep as [Pa Pb]. rewrite plain_uint_order by done.
    pose proof (plain_uint_integer a Pa) as Ea'. pose proof (plain_uint_integer b Pb) as Eb'. simplify_eq.
    assert (digits_value a ≠ digits_value b) as Hne.
    { intros E'. pose proof (plain_uint_order a b Pa Pb E) as H. rewrite E', Z.compare_refl in H. simpl in H.
      repeat case_match; lia. }
    destruct (Z.compare_spec (digits_value a) (digits_value b)); done.
  - rewrite (compare_numbers_integers a b x y Ea Eb), bytes_order_sign. by destruct (x ?= y).
Qed.

Lemma segment_preorder kind : preorder (segment_dom kind) (segment_order kind).
Proof.
  destruct kind.
  - by split.
  - eapply preorder_sub; [|apply number_preorder]. done.
  - split; [intros; apply order_antisym|intros; by eapply order_trans].
Qed.

(** Lexicographic order of tuples, the kind of each component given by its position. *)
Fixpoint tuple_order (kinds : list KeyKind) (i : nat) (sa sb : list (list Z)) : comparison :=
  match sa, sb with
  | [], [] => Eq
  | [], _ => Lt
  | _, [] => Gt
  | a :: sa, b :: sb => match segment_order (kind_of kinds i) a b with Eq => tuple_order kinds (S i) sa sb | c => c end
  end.

Fixpoint tuple_dom (kinds : list KeyKind) (i : nat) (sa : list (list Z)) : Prop :=
  match sa with [] => True | a :: sa => segment_dom (kind_of kinds i) a ∧ tuple_dom kinds (S i) sa end.

Lemma tuple_preorder kinds i : preorder (tuple_dom kinds i) (tuple_order kinds i).
Proof.
  split.
  - intros x. revert i. induction x as [|a x IH]; intros i [|b y]; simpl; try done. intros [Ha Hx] [Hb Hy].
    rewrite (po_antisym (segment_preorder (kind_of kinds i)) a b Ha Hb), (IH (S i) y Hx Hy). by destruct (segment_order _ a b).
  - intros x. revert i. induction x as [|a x IH]; intros i [|b y] [|c z]; simpl; try done. intros [Ha Hx] [Hb Hy] [Hc Hz].
    pose proof (segment_preorder (kind_of kinds i)) as P. set (o := segment_order (kind_of kinds i)) in *.
    pose proof (po_trans P a b c Ha Hb Hc) as T1. pose proof (po_trans P c a b Hc Ha Hb) as T2. pose proof (po_trans P b c a Hb Hc Ha) as T3.
    rewrite (po_antisym P a c), (po_antisym P b c) in T2 by done. rewrite (po_antisym P a c), (po_antisym P a b) in T3 by done.
    specialize (IH (S i) y z Hx Hy Hz).
    destruct (o a b), (o b c), (o a c); simpl in *; try done; intros U V; first [by apply IH|exfalso; by apply T1|exfalso; by apply T2|exfalso; by apply T3].
Qed.

Lemma cmp_segments_spec kinds i sa sb :
  sa ≠ [] → sb ≠ [] → tuple_dom kinds i sa → tuple_dom kinds i sb →
  cmp_segments kinds i sa sb = sign (tuple_order kinds i sa sb).
Proof.
  revert i sb. induction sa as [|a sa IH]; intros i [|b sb] Hna Hnb; try done. intros [Ha Hsa] [Hb Hsb]. simpl.
  rewrite cmp_key_segment_spec by done. destruct (segment_order _ a b); simpl; try done.
  destruct sa as [|a' sa], sb as [|b' sb]; try done. by apply IH.
Qed.

Lemma segments_nonempty s : segments s ≠ [].
Proof. destruct s as [|c s]; simpl; [done|]. destruct (c =? 0); [done|]. by destruct (segments s). Qed.

Lemma segments_plain s : 0 ∉ s → segments s = [s].
Proof.
  induction s as [|c s IH]; [done|]. rewrite not_elem_of_cons. intros [Hc Hs]. simpl.
  rewrite (proj2 (Z.eqb_neq c 0)) by done. by rewrite IH.
Qed.

(** The keys that the order of the tree is one of. *)
Definition key_dom (kinds : list KeyKind) (s : list Z) : Prop := tuple_dom kinds 0 (segments s).

Lemma cmp_keys_spec kinds a b :
  key_dom kinds a → key_dom kinds b → cmp_keys kinds a b = sign (tuple_order kinds 0 (segments a) (segments b)).
Proof.
  intros Ha Hb. unfold cmp_keys. destruct (bool_decide (0 ∉ a) && bool_decide (0 ∉ b)) eqn:E.
  - apply andb_true_iff in E as [E1%bool_decide_eq_true E2%bool_decide_eq_true].
    unfold key_dom in *. rewrite segments_plain in Ha, Hb by done. rewrite !segments_plain by done.
    destruct Ha as [Ha _], Hb as [Hb _]. rewrite cmp_key_segment_spec by done. simpl. by destruct (segment_order _ a b).
  - apply cmp_segments_spec; [apply segments_nonempty|apply segments_nonempty|done|done].
Qed.

#[export] Instance cmp_keys_order kinds : KeyOrder (cmp_keys kinds) (key_dom kinds).
Proof.
  pose proof (tuple_preorder kinds 0) as P. split.
  - intros a b Ha Hb. rewrite !cmp_keys_spec by done. rewrite (po_antisym P (segments a) (segments b)) by done.
    by destruct (tuple_order _ _ (segments a) (segments b)).
  - intros a b c Ha Hb Hc. rewrite !cmp_keys_spec, !sign_le by done. by apply (po_trans P).
Qed.

(** ** Properties *)

(** Integers of any spelling compare by their values, exactly, up to the largest BIGINT UNSIGNED. *)
Theorem compare_numbers_exact a b x y :
  integer_value a = Some x → integer_value b = Some y → compare_numbers a b = sign (x ?= y).
Proof. apply compare_numbers_integers. Qed.

(** The keys of an index on columns of text and of integers are totally ordered by [cmp_keys]: what
    the B+tree relies on holds for tuples of any texts and integers, the shortcut for plain unsigned
    integers and the tie-breaks included. An index of such keys is therefore the sorted list of its
    entries after any insertions and removals. *)
Theorem cmp_keys_index kinds os key :
  Forall (λ o, key_dom kinds (op_key o)) os → key_dom kinds key →
  (∀ a b, key_dom kinds a → key_dom kinds b → cmp_keys kinds a b < 0 ↔ 0 < cmp_keys kinds b a) ∧
  (∀ a b c, key_dom kinds a → key_dom kinds b → key_dom kinds c →
     cmp_keys kinds a b ≤ 0 → cmp_keys kinds b c ≤ 0 → cmp_keys kinds a c ≤ 0) ∧
  ∃ t, run_ops (cmp_keys kinds) os None = Some t ∧
    collect_all_kv t = fold_left (list_op (cmp_keys kinds)) os [] ∧
    tree_search (cmp_keys kinds) t key = Some (lfind (cmp_keys kinds) key (collect_all_kv t)).
Proof.
  intros Hos Hk. split_and!; [apply (cmp_keys_order kinds)..|].
  destruct (run_ops_spec (cmp_keys kinds) os None I Hos) as (t & Er & Ht & He).
  exists t. split_and!; [done|done|]. by apply (tree_search_spec (cmp_keys kinds) (dom:=key_dom kinds)).
Qed.
End keys.

Lemma compare_numbers_exact_witness :
  compare_numbers (str "+0018446744073709551615") (str "9223372036854775807") = sign (18446744073709551615 ?= 9223372036854775807).
Proof. apply compare_numbers_exact; by vm_compute. Defined.

(** An index on (number, text): "10\0Bob", "9\0bob", "9\0Alice". *)
Definition demo_tuples : list tree_op :=
  [OpInsert (str "10" ++ 0 :: str "Bob") (str "a"); OpInsert (str "9" ++ 0 :: str "bob") (str "b");
   OpInsert (str "9" ++ 0 :: str "Alice") (str "c"); OpRemove (str "10" ++ 0 :: str "BOB")].

Lemma cmp_keys_index_witness :
  let cmp := cmp_keys ascii_runs ascii_pool [Number; Text] in
  (∀ a b, key_dom [Number; Text] a → key_dom [Number; Text] b → cmp a b < 0 ↔ 0 < cmp b a) ∧
  (∀ a b c, key_dom [Number; Text] a → key_dom [Number; Text] b → key_dom [Number; Text] c →
     cmp a b ≤ 0 → cmp b c ≤ 0 → cmp a c ≤ 0) ∧
  ∃ t, run_ops cmp demo_tuples None = Some t ∧ collect_all_kv t = fold_left (list_op cmp) demo_tuples [] ∧
    tree_search cmp t (str "9" ++ 0 :: str "BOB") = Some (lfind cmp (str "9" ++ 0 :: str "BOB") (collect_all_kv t)).
Proof.
  apply (cmp_keys_index ascii_runs ascii_pool [Number; Text]).
  - repeat constructor; by vm_compute.
  - repeat constructor; by vm_compute.
Defined.

(** Numbers that are not integers break the order of a column of numbers: integers compare exactly,
    and a number with a fraction compares as a double, in which it may equal both of two different
    integers, and by its bytes then. Three keys with a < b < c < a. *)
Theorem number_keys_not_transitive kRuns kPool :
  let cmp := cmp_keys kRuns kPool [Number] in
  cmp (str "-9007199254740993") (str "-9007199254740992") < 0 ∧
  cmp (str "-9007199254740992") (str "-9007199254740992.5") < 0 ∧
  cmp (str "-9007199254740992.5") (str "-9007199254740993") < 0.
Proof. by vm_compute. Qed.
