(* ===== verification/Decimals.v ===== *)
(** * Exact decimal arithmetic (include/engine/sql_value_util.hpp, Decimal and Num)

    MySQL's DECIMAL as texts of digits: [Decimal] is a sign with the digits before and after the point,
    [Num] a sign, the digits of an integer and a scale. The operations work on the digits and are proved
    to give the exact sum, difference and product, and the rounded quotient. The cells of a product are
    [int] in the code; they stay below 81 times the digits of a factor, far from overflowing. *)
From Stdlib Require Import QArith.
From S2P Require Import Prelude Numerals NumericText.

#[local] Open Scope Z_scope.

(** ** Decimal *)

Record Decimal := mkDecimal {
  d_negative : bool;
  d_integer : list Z;
  d_fraction : list Z
}.

Definition decimal_zero (neg : bool) : Decimal := mkDecimal neg [48] [].

Fixpoint skip_blanks (s : list Z) : list Z :=
  match s with
  | c :: t => if c =? 32 then skip_blanks t else s
  | [] => []
  end.

Fixpoint skip_zeros (s : list Z) : list Z :=
  match s with
  | c :: t => if c =? 48 then skip_zeros t else s
  | [] => []
  end.

Definition strip_zeros (s : list Z) : list Z := match skip_zeros s with [] => [48] | t => t end.

(** The digits of an exponent, read while it is below 1000: its value and what follows. *)
Fixpoint exponent_digits (s : list Z) (e : Z) : Z * list Z :=
  match s with
  | c :: t => if is_digit c && (e <? 1000) then exponent_digits t (e * 10 + (c - 48)) else (e, s)
  | [] => (e, [])
  end.

(** [e5], [E+05], [e-3]: the exponent and what follows; 0 and all of the text when there is none. *)
Definition parse_exponent (s : list Z) : Z * list Z :=
  match s with
  | c :: t =>
      if is_exponent_mark c then
        let '(neg, t) := match t with c :: u => if is_sign c then (c =? c_minus, u) else (false, t) | [] => (false, t) end in
        match t with
        | c :: _ => if is_digit c then let '(e, t) := exponent_digits t 0 in (if neg : bool then - e else e, t) else (0, s)
        | [] => (0, s)
        end
      else (0, s)
  | [] => (0, s)
  end.

(** The point moved one digit to the right, and to the left. *)
Definition shift_up (d : list Z * list Z) : list Z * list Z :=
  match d.2 with [] => (d.1 ++ [48], []) | c :: f => (d.1 ++ [c], f) end.
Definition shift_down (d : list Z * list Z) : list Z * list Z :=
  match last d.1 with None => (d.1, 48 :: d.2) | Some c => (removelast d.1, c :: d.2) end.

Definition shift_point (e : Z) (d : list Z * list Z) : list Z * list Z :=
  if 0 <? e then Nat.iter (Z.to_nat e) shift_up d else Nat.iter (Z.to_nat (- e)) shift_down d.

(** The digits before and after the point, and what follows them. *)
Definition parse_digits (s : list Z) : list Z * list Z * list Z :=
  let ip := take_digits s in
  match drop (length ip) s with
  | c :: t => if c =? c_dot then (ip, take_digits t, drop (length (take_digits t)) t) else (ip, [], c :: t)
  | [] => (ip, [], [])
  end.

Definition parse (text : list Z) : option Decimal :=
  let s := skip_blanks text in
  let '(neg, s) := match s with c :: t => if is_sign c then (c =? c_minus, t) else (false, s) | [] => (false, s) end in
  let '(ip, fp, s) := parse_digits s in
  if bool_decide (ip = []) && bool_decide (fp = []) then None
  else
    let '(e, s) := parse_exponent s in
    match skip_blanks s with
    | [] => let '(ip, fp) := shift_point e (ip, fp) in Some (mkDecimal neg (strip_zeros ip) fp)
    | _ => None
    end.

Definition is_zero (d : Decimal) : bool :=
  bool_decide (d_integer d = [48]) && bool_decide (skip_zeros (d_fraction d) = []).

Definition sign_text (d : Decimal) : list Z := if d_negative d && negb (is_zero d) then [c_minus] else [].

(** Decimal::str *)
Definition decimal_str (scale : nat) (d : Decimal) : list Z :=
  sign_text d ++ d_integer d ++ (if (0 <? scale)%nat then c_dot :: resize scale 48 (d_fraction d) else []).

(** The text without the zeros it ends in. *)
Definition drop_trailing_zeros (f : list Z) : list Z := reverse (skip_zeros (reverse f)).

Definition compact (d : Decimal) : list Z :=
  let f := drop_trailing_zeros (d_fraction d) in
  sign_text d ++ d_integer d ++ (if bool_decide (f = []) then [] else c_dot :: f).

(** One added in the last place of the digits, which are given from the last to the first; a carry out of
    the first digit is a 1 before it. *)
Fixpoint add_one (low : list Z) : list Z :=
  match low with
  | [] => [49]
  | c :: low => if c =? 57 then 48 :: add_one low else (c + 1) :: low
  end.

Definition add_unit (places : nat) (d : Decimal) : Decimal :=
  let digits := reverse (add_one (reverse (d_integer d ++ take places (d_fraction d)))) in
  let integer := take (length digits - places) digits in
  mkDecimal (d_negative d) (if bool_decide (integer = []) then [48] else integer) (drop (length digits - places) digits).

(** Decimal::rounded *)
Definition rounded (places : Z) (cut : bool) (d : Decimal) : Decimal :=
  if 0 <=? places then
    let places := Z.to_nat places in
    if (length (d_fraction d) <=? places)%nat then d
    else
      let up := negb cut && (53 <=? d_fraction d !!! places) in
      let r := mkDecimal (d_negative d) (d_integer d) (take places (d_fraction d)) in
      if up then add_unit places r else r
  else
    let drop := Z.to_nat (- places) in
    if (length (d_integer d) <? drop)%nat then decimal_zero (d_negative d)
    else
      let kept := take (length (d_integer d) - drop) (d_integer d) in
      let up := negb cut && (53 <=? d_integer d !!! (length (d_integer d) - drop)%nat) in
      let out := mkDecimal (d_negative d) (if bool_decide (kept = []) then [48] else kept) [] in
      let out := if up then add_unit 0 out else out in
      let digits := d_integer out ++ replicate drop 48 in
      mkDecimal (d_negative d) (if bool_decide (skip_zeros digits = []) then [48] else digits) (d_fraction out).

(** The loop over the digits with its guard; [None] when the value leaves an unsigned 64-bit integer. *)
Fixpoint to_u64 (s : list Z) (v : Z) : option Z :=
  match s with
  | [] => Some v
  | c :: s => if (u64_max - 9) / 10 <? v then None else to_u64 s (v * 10 + (c - 48))
  end.

(** Decimal::to_int64 *)
Definition to_int64 (d : Decimal) : option Z :=
  if (19 <? length (d_integer d))%nat then None
  else
    v ← to_u64 (d_integer d) 0;
    if d_negative d then (if 2 ^ 63 <? v then None else Some (wrap_int64 (- v)))
    else if int64_max <? v then None else Some v.

(** ** Num *)

Record Num := mkNum {
  n_negative : bool;
  n_digits : list Z;
  n_scale : nat
}.

Definition is_zero_digits (s : list Z) : bool := bool_decide (s = [48]).

Definition from_decimal (d : Decimal) : Num :=
  let digits := strip_zeros (d_integer d ++ d_fraction d) in
  mkNum (d_negative d && negb (is_zero_digits digits)) digits (length (d_fraction d)).

(** Num::from_int *)
Definition from_int (v : Z) : Num := mkNum (v <? 0) (to_string (if v <? 0 then wrap64 (0 - wrap64 v) else v)) 0.

Definition to_decimal (n : Num) : Decimal :=
  let all := if (length (n_digits n) <=? n_scale n)%nat
             then replicate (n_scale n - length (n_digits n) + 1) 48 ++ n_digits n else n_digits n in
  mkDecimal (n_negative n && negb (is_zero_digits (n_digits n)))
    (take (length all - n_scale n) all) (drop (length all - n_scale n) all).

Definition cmp_abs_digits (a b : list Z) : Z :=
  if negb (length a =? length b)%nat then (if (length a <? length b)%nat then -1 else 1)
  else match bytes_compare a b with Lt => -1 | Gt => 1 | Eq => 0 end.

(** The digit at the end of what is left of a number read from its last digit; 0 past its first. *)
Definition digit_of (low : list Z) : Z := match low with c :: _ => c - 48 | [] => 0 end.

Fixpoint add_loop (fuel : nat) (a b : list Z) (carry : Z) : list Z :=
  match fuel with
  | O => []
  | S fuel =>
      if bool_decide (a = []) && bool_decide (b = []) && (carry =? 0) then []
      else
        let sum := digit_of a + digit_of b + carry in
        (48 + sum mod 10) :: add_loop fuel (tail a) (tail b) (sum / 10)
  end.

(** The loop runs over the digits of the longer number and a last carry. *)
Definition add_abs_digits (a b : list Z) : list Z :=
  let out := reverse (add_loop (S (Nat.max (length a) (length b))) (reverse a) (reverse b) 0) in
  if bool_decide (out = []) then [48] else out.

Fixpoint sub_loop (a b : list Z) (borrow : Z) : list Z :=
  match a with
  | [] => []
  | c :: a =>
      let x := c - 48 - borrow in
      let y := digit_of b in
      if x <? y then (48 + (x + 10) - y) :: sub_loop a (tail b) 1 else (48 + x - y) :: sub_loop a (tail b) 0
  end.

Definition sub_abs_digits (a b : list Z) : list Z := strip_zeros (reverse (sub_loop (reverse a) (reverse b) 0)).

(** [cells[k + j] += x * (b[j] - '0')] for every [j]. *)
Fixpoint mul_row (cells : list Z) (k : nat) (x : Z) (b : list Z) : list Z :=
  match b with
  | [] => cells
  | c :: b => mul_row (<[k := cells !!! k + x * (c - 48)]> cells) (S k) x b
  end.

Fixpoint mul_rows (cells : list Z) (i : nat) (a b : list Z) : list Z :=
  match a with
  | [] => cells
  | c :: a => mul_rows (mul_row cells (S i) (c - 48) b) (S i) a b
  end.

(** The tens of every cell go to the cell before it, from the last cell to the second. *)
Fixpoint carry_cells (low : list Z) (carry : Z) : list Z :=
  match low with
  | [] => []
  | x :: low => if bool_decide (low = []) then [x + carry] else ((x + carry) mod 10) :: carry_cells low ((x + carry) / 10)
  end.

Definition mul_abs_digits (a b : list Z) : list Z :=
  if is_zero_digits a || is_zero_digits b then [48]
  else
    let cells := mul_rows (replicate (length a + length b) 0) 0 a b in
    strip_zeros ((λ c, 48 + c) <$> reverse (carry_cells (reverse cells) 0)).

(** [while (rem >= den)]: what is left and how often [den] went into it; [None] when ten rounds are not
    enough, as for a [den] of zero, with which the loop never ends. *)
Fixpoint div_digit (fuel : nat) (rem den : list Z) (count : Z) : option (list Z * Z) :=
  if cmp_abs_digits rem den <? 0 then Some (rem, count)
  else match fuel with
       | O => None
       | S fuel => div_digit fuel (sub_abs_digits rem den) den (count + 1)
       end.

Fixpoint div_loop (num rem den q : list Z) : option (list Z) :=
  match num with
  | [] => Some q
  | ch :: num =>
      '(rem, count) ← div_digit 9 (strip_zeros (rem ++ [ch])) den 0;
      div_loop num rem den (q ++ [48 + count])
  end.

Definition div_abs_digits (num den : list Z) : option (list Z) := strip_zeros <$> div_loop num [48] den [].

Definition align_scale (scale : nat) (n : Num) : Num :=
  mkNum (n_negative n)
    (if (n_scale n <? scale)%nat && negb (is_zero_digits (n_digits n))
     then n_digits n ++ replicate (scale - n_scale n) 48 else n_digits n) scale.

Definition num_add (a b : Num) (subtract : bool) : Num :=
  let b := if subtract then mkNum (negb (n_negative b)) (n_digits b) (n_scale b) else b in
  let scale := Nat.max (n_scale a) (n_scale b) in
  let a := align_scale scale a in
  let b := align_scale scale b in
  let '(neg, digits) :=
    if eqb (n_negative a) (n_negative b) then (n_negative a, add_abs_digits (n_digits a) (n_digits b))
    else
      let c := cmp_abs_digits (n_digits a) (n_digits b) in
      if c =? 0 then (false, [48])
      else if 0 <? c then (n_negative a, sub_abs_digits (n_digits a) (n_digits b))
      else (n_negative b, sub_abs_digits (n_digits b) (n_digits a)) in
  mkNum (if is_zero_digits digits then false else neg) digits scale.

Definition num_mul (a b : Num) : Num :=
  let digits := mul_abs_digits (n_digits a) (n_digits b) in
  mkNum (negb (is_zero_digits digits) && negb (eqb (n_negative a) (n_negative b))) digits (n_scale a + n_scale b).

Definition num_round (scale : nat) (cut : bool) (n : Num) : Num :=
  if (n_scale n <=? scale)%nat then align_scale scale n
  else
    let drop := (n_scale n - scale)%nat in
    let digits := if (length (n_digits n) <=? drop)%nat
                  then replicate (drop - length (n_digits n) + 1) 48 ++ n_digits n else n_digits n in
    let up := negb cut && (53 <=? digits !!! (length digits - drop)%nat) in
    let digits := take (length digits - drop) digits in
    let digits := strip_zeros (if up then add_abs_digits digits [49] else digits) in
    mkNum (if is_zero_digits digits then false else n_negative n) digits scale.

(** [None] for a division by zero, which does not end. *)
Definition num_div (a b : Num) (scale : nat) (cut : bool) : option Num :=
  let shift := Z.of_nat (scale + 1 + n_scale b) - Z.of_nat (n_scale a) in
  let zeros := replicate (Z.to_nat (Z.abs shift)) 48 in
  let '(numerator, denominator) :=
    if 0 <=? shift then (n_digits a ++ zeros, n_digits b) else (n_digits a, n_digits b ++ zeros) in
  digits ← div_abs_digits numerator denominator;
  Some (num_round scale cut
          (mkNum (negb (is_zero_digits digits) && negb (eqb (n_negative a) (n_negative b))) digits (scale + 1))).

(** ** Texts of digits *)

#[local] Abbreviation digits l := (Forall (λ c, is_digit c = true) l).

(** Digits without leading zeros. *)
Definition canonical (s : list Z) : Prop :=
  digits s ∧ s ≠ [] ∧ ((1 < length s)%nat → 10 ^ Z.of_nat (length s - 1) ≤ digits_value s).

(** The value of digits given from the last to the first. *)
Definition low_value (l : list Z) : Z := digits_value (reverse l).

Lemma low_value_nil : low_value [] = 0.
Proof. done. Qed.

Lemma low_value_cons c l : low_value (c :: l) = (c - 48) + 10 * low_value l.
Proof.
  unfold low_value. rewrite reverse_cons, digits_value_app. unfold digits_value at 2. simpl. lia.
Qed.

Lemma low_value_reverse l : low_value (reverse l) = digits_value l.
Proof. unfold low_value. by rewrite reverse_involutive. Qed.

Lemma digits_reverse l : digits l → digits (reverse l).
Proof. intros H. by apply Forall_reverse. Qed.

Lemma low_value_bound l : digits l → 0 ≤ low_value l < 10 ^ Z.of_nat (length l).
Proof. intros H. rewrite <- (length_reverse l). by apply digits_value_bound, digits_reverse. Qed.

Lemma is_digit_iff c : is_digit c = true ↔ 48 ≤ c ≤ 57.
Proof. unfold is_digit. rewrite andb_true_iff, !Z.leb_le. lia. Qed.

Lemma pow10_succ n : 10 ^ Z.of_nat (S n) = 10 * 10 ^ Z.of_nat n.
Proof. rewrite Nat2Z.inj_succ, Z.pow_succ_r by lia. lia. Qed.

Lemma pow10_pos n : 0 < 10 ^ Z.of_nat n.
Proof. apply Z.pow_pos_nonneg; lia. Qed.

Lemma skip_zeros_split s : ∃ k, s = replicate k 48 ++ skip_zeros s.
Proof.
  induction s as [|c s [k IH]]; [by exists 0%nat|]. simpl. destruct (Z.eqb_spec c 48) as [->|]; [|by exists 0%nat].
  exists (S k). simpl. by f_equal.
Qed.

Lemma skip_zeros_head s : match skip_zeros s with c :: _ => c ≠ 48 | [] => True end.
Proof. induction s as [|c s IH]; [done|]. simpl. by destruct (Z.eqb_spec c 48). Qed.

Lemma skip_zeros_value s : digits_value (skip_zeros s) = digits_value s.
Proof. destruct (skip_zeros_split s) as [k E]. rewrite E at 2. by rewrite replicate_zeros_value. Qed.

Lemma skip_zeros_digits s : digits s → digits (skip_zeros s).
Proof. intros H. destruct (skip_zeros_split s) as [k E]. rewrite E in H. by apply Forall_app in H as [_ ?]. Qed.

(** Digits that do not start with a zero. *)
Lemma canonical_head c s : digits (c :: s) → c ≠ 48 → canonical (c :: s).
Proof.
  intros H Hc. split_and!; [done|done|]. intros _. apply Forall_cons in H as [Hd Hs]. apply is_digit_iff in Hd.
  pose proof (digits_value_bound s Hs). rewrite digits_value_cons. simpl. rewrite Nat.sub_0_r. nia.
Qed.

Lemma canonical_0 : canonical [48].
Proof. split_and!; [by repeat constructor|done|simpl; lia]. Qed.

Lemma strip_zeros_canonical s : digits s → canonical (strip_zeros s).
Proof.
  intros H. unfold strip_zeros. pose proof (skip_zeros_head s) as Hh. pose proof (skip_zeros_digits s H) as Hd.
  destruct (skip_zeros s) as [|c t]; [apply canonical_0|by apply canonical_head].
Qed.

Lemma strip_zeros_value s : digits_value (strip_zeros s) = digits_value s.
Proof. unfold strip_zeros. pose proof (skip_zeros_value s) as <-. by destruct (skip_zeros s). Qed.

(** Two texts in canonical form are in the order of their values. *)
Lemma cmp_abs_digits_spec a b :
  canonical a → canonical b →
  cmp_abs_digits a b = match digits_value a ?= digits_value b with Lt => -1 | Gt => 1 | Eq => 0 end.
Proof.
  intros (Hda & Hna & Ha) (Hdb & Hnb & Hb). unfold cmp_abs_digits.
  pose proof (digits_value_bound a Hda) as Ba. pose proof (digits_value_bound b Hdb) as Bb.
  assert (0 < length a)%nat by (destruct a; [done|simpl; lia]). assert (0 < length b)%nat by (destruct b; [done|simpl; lia]).
  destruct (Nat.eqb_spec (length a) (length b)) as [El|Hl]; simpl.
  - by rewrite (digits_lexicographic a b El Hda Hdb).
  - destruct (Nat.ltb_spec (length a) (length b)) as [Hlt|Hge].
    + assert (10 ^ Z.of_nat (length a) ≤ 10 ^ Z.of_nat (length b - 1)) by (apply Z.pow_le_mono_r; lia).
      specialize (Hb ltac:(lia)). by rewrite (proj2 (Z.compare_lt_iff _ _)) by lia.
    + assert (10 ^ Z.of_nat (length b) ≤ 10 ^ Z.of_nat (length a - 1)) by (apply Z.pow_le_mono_r; lia).
      specialize (Ha ltac:(lia)). by rewrite (proj2 (Z.compare_gt_iff _ _)) by lia.
Qed.

Lemma canonical_eq a b : canonical a → canonical b → digits_value a = digits_value b → a = b.
Proof.
  intros Ha Hb E. pose proof (cmp_abs_digits_spec a b Ha Hb) as H. rewrite E, Z.compare_refl in H. unfold cmp_abs_digits in H.
  destruct (Nat.eqb_spec (length a) (length b)); simpl in H; [|by destruct (length a <? length b)%nat].
  destruct (bytes_compare a b) eqn:Ec; try done. by apply bytes_compare_eq.
Qed.

Lemma is_zero_digits_spec s : canonical s → is_zero_digits s = (digits_value s =? 0).
Proof.
  intros H. unfold is_zero_digits. apply eq_true_iff_eq. rewrite bool_decide_eq_true, Z.eqb_eq. split; [by intros ->|].
  intros E. apply canonical_eq; [done|apply canonical_0|done].
Qed.

(** Zeros behind a number multiply it. *)
Lemma append_zeros s k : canonical s → digits_value s ≠ 0 → canonical (s ++ replicate k 48).
Proof.
  intros (Hd & Hne & Hv) Hz. destruct s as [|c s]; [done|]. assert (c ≠ 48) as Hc.
  { intros ->. destruct s as [|d s]; [done|]. specialize (Hv ltac:(simpl; lia)). apply Forall_cons in Hd as [_ Hd].
    pose proof (digits_value_bound _ Hd). rewrite digits_value_cons in Hv. simpl in *. lia. }
  apply canonical_head; [|done].  apply (Forall_app_2 _ (c :: s)); [done|apply Forall_zeros].
Qed.

Lemma append_zeros_value s k : digits_value (s ++ replicate k 48) = digits_value s * 10 ^ Z.of_nat k.
Proof.
  rewrite digits_value_app, length_replicate. pose proof (replicate_zeros_value k []) as H. rewrite app_nil_r in H. rewrite H.
  change (digits_value []) with 0. lia.
Qed.

(** ** The loops over digits *)

Lemma digit_of_bound l : digits l → 0 ≤ digit_of l ≤ 9.
Proof. intros [|c l' Hc _]; simpl; [lia|]. apply is_digit_iff in Hc. lia. Qed.

Lemma digits_tail l : digits l → digits (tail l).
Proof. by intros [|c l' _ H]. Qed.

Lemma low_value_tail l : low_value l = digit_of l + 10 * low_value (tail l).
Proof. destruct l; [done|]. by rewrite low_value_cons. Qed.

Lemma digit_char n : 0 ≤ n ≤ 9 → is_digit (48 + n) = true.
Proof. intros. apply is_digit_iff. lia. Qed.

Lemma length_tail_pred {A} (l : list A) : length (tail l) = pred (length l).
Proof. by destruct l. Qed.

Lemma add_loop_spec fuel a b carry :
  digits a → digits b → 0 ≤ carry ≤ 1 → (Nat.max (length a) (length b) < fuel)%nat →
  let m := Nat.max (length a) (length b) in
  let out := add_loop fuel a b carry in
  digits out ∧ low_value out = low_value a + low_value b + carry ∧
  (length out = m ∨ (length out = S m ∧ 10 ^ Z.of_nat m ≤ low_value out)).
Proof.
  revert a b carry. induction fuel as [|fuel IH]; intros a b carry Ha Hb Hc Hf; [lia|]. cbn zeta. cbn [add_loop].
  destruct (bool_decide (a = []) && bool_decide (b = []) && (carry =? 0)) eqn:E.
  { rewrite !andb_true_iff, !bool_decide_eq_true, Z.eqb_eq in E. destruct E as [[-> ->] ->].
    split_and!; [constructor|done|by left]. }
  pose proof (digit_of_bound a Ha). pose proof (digit_of_bound b Hb). set (sum := digit_of a + digit_of b + carry) in *.
  pose proof (Z.mod_pos_bound sum 10 ltac:(lia)). pose proof (Z.div_mod sum 10 ltac:(lia)).
  assert (Hq : 0 ≤ sum / 10 ≤ 1) by lia.
  destruct (decide (a = [] ∧ b = [])) as [[-> ->]|Hab].
  - assert (carry = 1) as -> by (destruct (Z.eqb_spec carry 0); [done|lia]).
    change (tail []) with (@nil Z). change (sum / 10) with 0. replace (add_loop fuel [] [] 0) with (@nil Z) by (by destruct fuel).
    split_and!; [by repeat constructor|done|by right].
  - assert (Hm : Nat.max (length a) (length b) = S (Nat.max (length (tail a)) (length (tail b)))).
    { rewrite !length_tail_pred. destruct a, b; simpl; [by destruct Hab| lia..]. }
    destruct (IH (tail a) (tail b) (sum / 10)) as (Hd & Hv & Hl); [by apply digits_tail..|done|lia|].
    split_and!.
    + constructor; [|done]. apply digit_char. lia.
    + rewrite low_value_cons, Hv, (low_value_tail a), (low_value_tail b). lia.
    + rewrite Hm, pow10_succ, low_value_cons. cbn [length]. destruct Hl as [->|[-> Hl]]; [by left|right]. lia.
Qed.

Lemma add_abs_digits_spec a b :
  digits a → digits b → a ≠ [] →
  digits (add_abs_digits a b) ∧ add_abs_digits a b ≠ [] ∧
  digits_value (add_abs_digits a b) = digits_value a + digits_value b.
Proof.
  intros Ha Hb Hne.
  pose proof (add_loop_spec (S (Nat.max (length (reverse a)) (length (reverse b)))) (reverse a) (reverse b) 0) as H.
  cbn zeta in H. rewrite !length_reverse, !low_value_reverse in H.
  destruct H as (Hd & Hv & Hl); [by apply digits_reverse..|lia|lia|].
  unfold add_abs_digits. rewrite bool_decide_eq_false_2.
  - split_and!; [by apply digits_reverse| |change (low_value (add_loop (S (length a `max` length b)) (reverse a) (reverse b) 0) = digits_value a + digits_value b); lia].
    intros E%(f_equal length). rewrite length_reverse in E. destruct a; [done|]. simpl in *. lia.
  - intros E%(f_equal length). rewrite length_reverse in E. destruct a; [done|]. simpl in *. lia.
Qed.

Lemma canonical_bound s : digits s → s ≠ [] → ((1 < length s)%nat → 10 ^ Z.of_nat (length s - 1) ≤ digits_value s) → canonical s.
Proof. done. Qed.

(** The sum of two numbers without leading zeros has none. *)
Lemma add_abs_digits_canonical a b : canonical a → canonical b → canonical (add_abs_digits a b).
Proof.
  intros (Hda & Hna & Ha) (Hdb & Hnb & Hb). destruct (add_abs_digits_spec a b Hda Hdb Hna) as (Hd & Hne & Hv).
  apply canonical_bound; [done..|]. rewrite Hv. intros Hl. revert Hl Hv. unfold add_abs_digits.
  pose proof (add_loop_spec (S (Nat.max (length (reverse a)) (length (reverse b)))) (reverse a) (reverse b) 0) as H.
  cbn zeta in H. rewrite !length_reverse, !low_value_reverse in H.
  destruct H as (_ & Hv & Hlen); [by apply digits_reverse..|lia|lia|]. case_bool_decide; [simpl; lia|].
  rewrite length_reverse. intros Hl _. pose proof (digits_value_bound a Hda). pose proof (digits_value_bound b Hdb).
  destruct Hlen as [Hlen|[Hlen Hv']]; rewrite Hlen in *.
  - destruct (Nat.max_spec (length a) (length b)) as [[? E]|[? E]]; rewrite E in *; [specialize (Hb ltac:(lia))|specialize (Ha ltac:(lia))]; lia.
  - replace (S (length a `max` length b) - 1)%nat with (length a `max` length b)%nat by lia. lia.
Qed.

Lemma sub_loop_spec a b borrow :
  digits a → digits b → (length b ≤ length a)%nat → 0 ≤ borrow ≤ 1 →
  let out := sub_loop a b borrow in
  digits out ∧ length out = length a ∧
  ∃ k, 0 ≤ k ≤ 1 ∧ low_value out = low_value a - low_value b - borrow + k * 10 ^ Z.of_nat (length a).
Proof.
  intros Ha. revert b borrow. induction Ha as [|c a Hc Ha IH]; intros b borrow Hb Hl Hbo; cbn zeta; cbn [sub_loop].
  { destruct b; [|simpl in Hl; lia]. split_and!; [constructor|done|]. exists borrow. split; [done|]. simpl. rewrite !low_value_nil. lia. }
  apply is_digit_iff in Hc. pose proof (digit_of_bound b Hb).
  assert (Hlt : (length (tail b) ≤ length a)%nat) by (rewrite length_tail_pred; simpl in Hl; lia).
  assert (Hstep : ∀ x bo, 0 ≤ bo ≤ 1 → 0 ≤ x ≤ 9 → x = c - 48 - borrow - digit_of b + 10 * bo →
    let out := (48 + x) :: sub_loop a (tail b) bo in
    digits out ∧ length out = length (c :: a) ∧
    ∃ k, 0 ≤ k ≤ 1 ∧ low_value out = low_value (c :: a) - low_value b - borrow + k * 10 ^ Z.of_nat (length (c :: a))).
  { intros x bo Hbo' Hx E. destruct (IH (tail b) bo (digits_tail _ Hb) Hlt Hbo') as (Hd & Hlen & k & Hk & Hv).
    cbn zeta. split_and!; [constructor; [by apply digit_char|done]|by simpl; rewrite Hlen|].
    exists k. split; [done|]. rewrite !low_value_cons, Hv, (low_value_tail b). cbn [length]. rewrite pow10_succ. lia. }
  destruct (Z.ltb_spec (c - 48 - borrow) (digit_of b)).
  - replace (48 + (c - 48 - borrow + 10) - digit_of b) with (48 + (c - 48 - borrow + 10 - digit_of b)) by lia. apply Hstep; lia.
  - replace (48 + (c - 48 - borrow) - digit_of b) with (48 + (c - 48 - borrow - digit_of b)) by lia. apply Hstep; lia.
Qed.

Lemma sub_abs_digits_spec a b :
  canonical a → canonical b → digits_value b ≤ digits_value a →
  canonical (sub_abs_digits a b) ∧ digits_value (sub_abs_digits a b) = digits_value a - digits_value b.
Proof.
  intros Ha Hb Hle.
  assert (Hl : (length b ≤ length a)%nat).
  { pose proof (cmp_abs_digits_spec a b Ha Hb) as H. unfold cmp_abs_digits in H.
    destruct (Nat.eqb_spec (length a) (length b)); [lia|]. destruct (Nat.ltb_spec (length a) (length b)); [|lia]. simpl in H.
    destruct (Z.compare_spec (digits_value a) (digits_value b)); try done; lia. }
  destruct Ha as (Hda & _ & _), Hb as (Hdb & _ & _). unfold sub_abs_digits.
  destruct (sub_loop_spec (reverse a) (reverse b) 0) as (Hd & Hlen & k & Hk & Hv);
    [by apply digits_reverse..|by rewrite !length_reverse|lia|].
  rewrite strip_zeros_value. split; [by apply strip_zeros_canonical, digits_reverse|].
  pose proof (low_value_bound _ Hd) as Hbd. rewrite Hlen in Hbd. rewrite Hv, !low_value_reverse in *. rewrite length_reverse in *.
  change (low_value (sub_loop (reverse a) (reverse b) 0) = digits_value a - digits_value b). rewrite Hv.
  pose proof (digits_value_bound a Hda). pose proof (digits_value_bound b Hdb).
  assert (k = 0 ∨ k = 1) as [-> | ->] by lia; lia.
Qed.

(** ** Multiplication *)

(** The value of the cells of a product, most significant first, and from the last. *)
Fixpoint cells_value (l : list Z) : Z :=
  match l with [] => 0 | c :: l => c * 10 ^ Z.of_nat (length l) + cells_value l end.
Fixpoint low_cells (l : list Z) : Z := match l with [] => 0 | c :: l => c + 10 * low_cells l end.

Lemma cells_value_app a b : cells_value (a ++ b) = cells_value a * 10 ^ Z.of_nat (length b) + cells_value b.
Proof.
  induction a as [|c a IH]; simpl; [lia|]. rewrite IH, length_app, Nat2Z.inj_add, Z.pow_add_r by lia. ring.
Qed.

Lemma low_cells_reverse l : low_cells (reverse l) = cells_value l.
Proof.
  induction l as [|c l IH] using rev_ind; [done|]. rewrite reverse_app, cells_value_app. simpl. rewrite IH. lia.
Qed.

Lemma cells_value_replicate n : cells_value (replicate n 0) = 0.
Proof. induction n; simpl; lia. Qed.

Lemma cells_value_insert l k v :
  (k < length l)%nat → cells_value (<[k := v]> l) = cells_value l + (v - l !!! k) * 10 ^ Z.of_nat (length l - 1 - k).
Proof.
  revert k. induction l as [|c l IH]; intros k Hk; simpl in Hk; [lia|]. destruct k as [|k]; simpl.
  - rewrite !Nat.sub_0_r. ring.
  - change ((c :: l) !!! S k) with (l !!! k). rewrite IH, length_insert by lia.
    replace (length l - 1 - k)%nat with (length l - 0 - S k)%nat by lia. ring.
Qed.

Lemma mul_row_spec cells k x b :
  (k + length b ≤ length cells)%nat → Forall (λ c, 0 ≤ c) cells → 0 ≤ x → digits b →
  length (mul_row cells k x b) = length cells ∧ Forall (λ c, 0 ≤ c) (mul_row cells k x b) ∧
  cells_value (mul_row cells k x b) = cells_value cells + x * digits_value b * 10 ^ Z.of_nat (length cells - k - length b).
Proof.
  intros Hk Hc Hx Hb. revert cells k Hk Hc. induction Hb as [|c b Hcb Hb IH]; intros cells k Hk Hc; simpl.
  { split_and!; [done|done|]. change (digits_value []) with 0. lia. }
  simpl in Hk. apply is_digit_iff in Hcb. assert (Hklt : (k < length cells)%nat) by lia.
  assert (0 ≤ cells !!! k).
  { destruct (lookup_lt_is_Some_2 cells k Hklt) as [v E]. rewrite (list_lookup_total_correct _ _ _ E).
    by apply (Forall_lookup_1 _ _ _ _ Hc E). }
  destruct (IH (<[k := cells !!! k + x * (c - 48)]> cells) (S k)) as (Hl & Hn & Hv).
  - rewrite length_insert. lia.
  - apply Forall_insert; [done|nia].
  - rewrite length_insert in *. split_and!; [done|done|]. rewrite Hv, cells_value_insert by lia.
    rewrite digits_value_cons. replace (length cells - 1 - k)%nat with (length b + (length cells - k - S (length b)))%nat by lia.
    replace (length cells - S k - length b)%nat with (length cells - k - S (length b))%nat by lia.
    rewrite Nat2Z.inj_add, Z.pow_add_r by lia. ring.
Qed.

Lemma mul_rows_spec cells i a b :
  (i + length a + length b = length cells)%nat → Forall (λ c, 0 ≤ c) cells → digits a → digits b →
  length (mul_rows cells i a b) = length cells ∧ Forall (λ c, 0 ≤ c) (mul_rows cells i a b) ∧
  cells_value (mul_rows cells i a b) = cells_value cells + digits_value a * digits_value b.
Proof.
  intros Hl Hc Ha Hb. revert cells i Hl Hc. induction Ha as [|c a Hca Ha IH]; intros cells i Hl Hc; simpl.
  { split_and!; [done|done|]. change (digits_value []) with 0. lia. }
  simpl in Hl. apply is_digit_iff in Hca.
  destruct (mul_row_spec cells (S i) (c - 48) b ltac:(lia) Hc ltac:(lia) Hb) as (Hl1 & Hn1 & Hv1).
  destruct (IH (mul_row cells (S i) (c - 48) b) (S i)) as (Hl2 & Hn2 & Hv2); [lia|done|].
  split_and!; [lia|done|]. rewrite Hv2, Hv1, digits_value_cons.
  replace (length cells - S i - length b)%nat with (length a) by lia. ring.
Qed.

Lemma carry_cells_spec low carry :
  Forall (λ c, 0 ≤ c) low → 0 ≤ carry → low_cells low + carry < 10 ^ Z.of_nat (length low) →
  Forall (λ c, 0 ≤ c ≤ 9) (carry_cells low carry) ∧ low_cells (carry_cells low carry) = low_cells low + carry.
Proof.
  intros Hl. revert carry. induction Hl as [|x low Hx Hl IH]; intros carry Hc Hb; cbn [carry_cells].
  { simpl in Hb. split; [constructor|simpl; lia]. }
  cbn [length low_cells] in *. rewrite pow10_succ in Hb. case_bool_decide as E.
  { subst. simpl in *. split; [repeat constructor; lia|lia]. }
  pose proof (Z.mod_pos_bound (x + carry) 10 ltac:(lia)). pose proof (Z.div_mod (x + carry) 10 ltac:(lia)).
  destruct (IH ((x + carry) / 10)) as [Hd Hv]; [apply Z.div_pos; lia|lia|].
  split; [constructor; [lia|done]|]. cbn [low_cells]. lia.
Qed.

Lemma cells_digits l :
  Forall (λ c, 0 ≤ c ≤ 9) l → digits ((λ c, 48 + c) <$> reverse l) ∧ digits_value ((λ c, 48 + c) <$> reverse l) = low_cells l.
Proof.
  induction 1 as [|c l Hc Hl [IHd IHv]]; [split; [constructor|done]|]. rewrite reverse_cons, fmap_app, digits_value_app, IHv.
  split; [apply Forall_app; split; [done|]; repeat constructor; by apply digit_char|].
  simpl. unfold digits_value. simpl. lia.
Qed.

Lemma mul_abs_digits_spec a b :
  canonical a → canonical b →
  canonical (mul_abs_digits a b) ∧ digits_value (mul_abs_digits a b) = digits_value a * digits_value b.
Proof.
  intros Ha Hb. unfold mul_abs_digits. rewrite !is_zero_digits_spec by done.
  destruct (Z.eqb_spec (digits_value a) 0) as [E|]; simpl; [split; [apply canonical_0|by rewrite E]|].
  destruct (Z.eqb_spec (digits_value b) 0) as [E|]; simpl; [split; [apply canonical_0|by rewrite E, Z.mul_0_r]|].
  destruct Ha as (Hda & _), Hb as (Hdb & _).
  destruct (mul_rows_spec (replicate (length a + length b) 0) 0 a b) as (Hl & Hn & Hv);
    [by rewrite length_replicate|by apply Forall_replicate|done|done|].
  rewrite cells_value_replicate in Hv. rewrite length_replicate in Hl. set (cells := mul_rows _ _ _ _) in *.
  destruct (carry_cells_spec (reverse cells) 0) as [Hd9 Hvc]; [by apply Forall_reverse|lia| |].
  { rewrite low_cells_reverse, Hv, length_reverse, Hl, Nat2Z.inj_add, Z.pow_add_r by lia.
    pose proof (digits_value_bound a Hda). pose proof (digits_value_bound b Hdb). nia. }
  destruct (cells_digits _ Hd9) as [Hdd Hvd]. rewrite strip_zeros_value, Hvd, Hvc, low_cells_reverse, Hv.
  split; [by apply strip_zeros_canonical|lia].
Qed.

(** ** Division *)

Lemma div_digit_spec fuel rem den count :
  canonical rem → canonical den → 0 < digits_value den → digits_value rem < digits_value den * (Z.of_nat fuel + 1) →
  ∃ rem', div_digit fuel rem den count = Some (rem', count + digits_value rem / digits_value den) ∧
    canonical rem' ∧ digits_value rem' = digits_value rem mod digits_value den.
Proof.
  revert rem count. induction fuel as [|fuel IH]; intros rem count Hr Hd Hpos Hlt; cbn [div_digit];
    pose proof (digits_value_bound rem (proj1 Hr)); rewrite cmp_abs_digits_spec by done.
  - rewrite (proj2 (Z.compare_lt_iff _ _)) by lia. simpl. exists rem.
    rewrite Z.div_small, Z.mod_small, Z.add_0_r by lia. done.
  - destruct (Z.compare_spec (digits_value rem) (digits_value den)) as [E|Hl|Hg]; simpl.
    2: { exists rem. rewrite Z.div_small, Z.mod_small, Z.add_0_r by lia. done. }
    all: destruct (sub_abs_digits_spec rem den Hr Hd ltac:(lia)) as [Hc Hv];
      destruct (IH (sub_abs_digits rem den) (count + 1) Hc Hd Hpos ltac:(lia)) as (rem' & -> & Hc' & Hv');
      rewrite Hv in *; exists rem'; split_and!; [|done|].
    1, 3: do 2 f_equal; replace (digits_value rem) with (digits_value rem - digits_value den + 1 * digits_value den) at 2 by lia;
      rewrite Z.div_add by lia; lia.
    all: rewrite Hv'; replace (digits_value rem) with (digits_value rem - digits_value den + 1 * digits_value den) at 2 by lia;
      by rewrite Z.mod_add by lia.
Qed.

Lemma div_loop_spec num rem den q :
  digits num → canonical rem → canonical den → digits q → digits_value rem < digits_value den →
  ∃ q', div_loop num rem den q = Some q' ∧ digits q' ∧
    digits_value q' = digits_value q * 10 ^ Z.of_nat (length num) +
      (digits_value rem * 10 ^ Z.of_nat (length num) + digits_value num) / digits_value den.
Proof.
  intros Hn. revert rem q. induction Hn as [|c num Hc Hn IH]; intros rem q Hr Hd Hq Hlt; cbn [div_loop].
  { exists q. split_and!; [done|done|]. pose proof (digits_value_bound rem (proj1 Hr)). simpl.
    change (digits_value []) with 0. rewrite !Z.mul_1_r, Z.add_0_r, Z.div_small by lia. lia. }
  pose proof (digits_value_bound rem (proj1 Hr)) as Br. apply is_digit_iff in Hc as Hc'.
  assert (Hrc : digits (rem ++ [c])) by (apply Forall_app; split; [apply Hr|by repeat constructor]).
  assert (Hv1 : digits_value (strip_zeros (rem ++ [c])) = digits_value rem * 10 + (c - 48)).
  { rewrite strip_zeros_value, digits_value_app. unfold digits_value at 2. simpl. lia. }
  destruct (div_digit_spec 9 (strip_zeros (rem ++ [c])) den 0) as (rem' & -> & Hr' & Hv');
    [by apply strip_zeros_canonical|done|lia|lia|]. cbn [mbind option_bind]. rewrite Hv1 in *.
  set (v := digits_value rem * 10 + (c - 48)) in *. set (d := digits_value den) in *.
  pose proof (Z.div_mod v d ltac:(lia)). pose proof (Z.mod_pos_bound v d ltac:(lia)).
  assert (Hq1 : 0 ≤ v / d ≤ 9) by (split; [apply Z.div_pos; lia|]; assert (v / d < 10); [apply Z.div_lt_upper_bound; lia|lia]).
  destruct (IH rem' (q ++ [48 + (0 + v / d)])) as (q' & -> & Hdq & Hvq); [done|done| |lia|].
  { apply Forall_app. split; [done|]. repeat constructor. by apply digit_char. }
  exists q'. split_and!; [done|done|]. rewrite Hvq, Hv', digits_value_app, (digits_value_cons c num).
  cbn [length]. rewrite !pow10_succ. set (p := 10 ^ Z.of_nat (length num)).
  replace (digits_value [48 + (0 + v / d)]) with (v / d) by (unfold digits_value; simpl; lia).
  replace (digits_value rem * (10 * p) + ((c - 48) * p + digits_value num)) with ((v mod d) * p + digits_value num + (v / d * p) * d) by (subst v; lia).
  rewrite Z.div_add by lia. change (Z.of_nat 1) with 1. lia.
Qed.

Lemma div_abs_digits_spec num den :
  digits num → canonical den → 0 < digits_value den →
  ∃ q, div_abs_digits num den = Some q ∧ canonical q ∧ digits_value q = digits_value num / digits_value den.
Proof.
  intros Hn Hd Hpos. unfold div_abs_digits.
  destruct (div_loop_spec num [48] den [] Hn canonical_0 Hd ltac:(constructor) ltac:(done)) as (q & -> & Hq & Hv).
  exists (strip_zeros q). rewrite strip_zeros_value, Hv. split_and!; [done|by apply strip_zeros_canonical|].
  f_equal.
Qed.

(** ** Rounding *)

(** [n / d] cut off, or rounded half away from zero. *)
Definition rounding (cut : bool) (n d : Z) : Z := if cut then Z.quot n d else round_half_away n d.

Definition round_abs (cut : bool) (n d : Z) : Z := if cut then n / d else (2 * n + d) / (2 * d).

Lemma rounding_abs cut n d : 0 < d → rounding cut n d = Z.sgn n * round_abs cut (Z.abs n) d.
Proof.
  intros Hd. unfold rounding, round_abs, round_half_away. destruct cut; [|done].
  rewrite Z.quot_div by lia. rewrite (Z.sgn_pos d), (Z.abs_eq d) by lia. lia.
Qed.

Lemma rounding_opp cut n d : 0 < d → rounding cut (- n) d = - rounding cut n d.
Proof. intros Hd. rewrite !rounding_abs by done. rewrite Z.sgn_opp, Z.abs_opp. lia. Qed.

Lemma round_abs_scale cut n d k : 0 < k → 0 < d → round_abs cut (n * k) (d * k) = round_abs cut n d.
Proof.
  intros Hk Hd. unfold round_abs. destruct cut; [by apply Z.div_mul_cancel_r; lia|].
  replace (2 * (n * k) + d * k) with ((2 * n + d) * k) by ring. replace (2 * (d * k)) with (2 * d * k) by ring.
  apply Z.div_mul_cancel_r; lia.
Qed.

Lemma round_abs_exact cut n d : 0 < d → round_abs cut (n * d) d = n.
Proof.
  intros Hd. unfold round_abs. destruct cut; [apply Z.div_mul; lia|].
  replace (2 * (n * d) + d) with (d + n * (2 * d)) by ring. rewrite Z.div_add, Z.div_small by lia. lia.
Qed.

(** The quotient goes up by one when the rest is at least half of the divisor. *)
Lemma round_abs_step (cut : bool) n d :
  0 ≤ n → 0 < d → round_abs cut n d = n / d + (if negb cut && (d <=? 2 * (n mod d)) then 1 else 0).
Proof.
  intros Hn Hd. unfold round_abs. destruct cut; cbn [negb andb]; [lia|].
  pose proof (Z.div_mod n d ltac:(lia)). pose proof (Z.mod_pos_bound n d ltac:(lia)).
  symmetry. destruct (Z.leb_spec d (2 * (n mod d))).
  - apply (Z.div_unique_pos _ _ _ (2 * (n mod d) - d)); lia.
  - apply (Z.div_unique_pos _ _ _ (2 * (n mod d) + d)); lia.
Qed.

(** Rounding what a division left. *)
Lemma round_abs_twice cut n d h :
  0 ≤ n → 0 < d → 0 < h → round_abs cut (n / d) (2 * h) = round_abs cut n (d * (2 * h)).
Proof.
  intros Hn Hd Hh. set (e := 2 * h). assert (0 ≤ n / d) by (apply Z.div_pos; lia). rewrite !round_abs_step by lia. rewrite Z.div_div by lia. f_equal.
  pose proof (Z.div_mod n d ltac:(lia)). pose proof (Z.mod_pos_bound n d ltac:(lia)).
  pose proof (Z.div_mod (n / d) e ltac:(lia)). pose proof (Z.mod_pos_bound (n / d) e ltac:(lia)).
  assert (E : n mod (d * e) = d * ((n / d) mod e) + n mod d).
  { symmetry. apply (Z.mod_unique_pos n (d * e) (n / d / e)); nia. }
  rewrite E. destruct cut; [done|]. cbn [negb andb].
  set (r := (n / d) mod e) in *. replace (d * e) with (2 * (d * h)) by (unfold e; ring).
  destruct (Z.leb_spec e (2 * r)) as [Hr|Hr], (Z.leb_spec (2 * (d * h)) (2 * (d * r + n mod d))) as [Hq|Hq]; try done; exfalso.
  - assert (h ≤ r) by lia. nia.
  - assert (r ≤ h - 1) by lia. nia.
Qed.

Definition signed (neg : bool) (v : Z) : Z := if neg then - v else v.

Lemma rounding_signed cut neg v d : 0 ≤ v → 0 < d → rounding cut (signed neg v) d = signed neg (round_abs cut v d).
Proof.
  intros Hv Hd. assert (E : rounding cut v d = round_abs cut v d).
  { rewrite rounding_abs, Z.abs_eq by done. destruct (decide (v = 0)) as [->|]; [|rewrite Z.sgn_pos; lia].
    pose proof (round_abs_exact cut 0 d Hd) as H. rewrite Z.mul_0_l in H. by rewrite H. }
  destruct neg; simpl; [by rewrite rounding_opp, E|done].
Qed.

(** ** Num *)

(** The invariant of a [Num]: no leading zeros, and no sign for zero. *)
Definition num_ok (n : Num) : Prop := canonical (n_digits n) ∧ (digits_value (n_digits n) = 0 → n_negative n = false).

(** Its value: [num_units] of [10^-n_scale]. *)
Definition num_units (n : Num) : Z := signed (n_negative n) (digits_value (n_digits n)).
Definition num_value (n : Num) : Q := dec (num_units n) (n_scale n).

Lemma canonical_digits s : canonical s → digits s.
Proof. apply proj1. Qed.
Lemma canonical_nonempty s : canonical s → s ≠ [].
Proof. intros H. apply H. Qed.
Lemma canonical_nonneg s : canonical s → 0 ≤ digits_value s.
Proof. intros H. apply digits_value_bound, H. Qed.
#[local] Hint Resolve canonical_digits canonical_nonempty canonical_nonneg canonical_0 strip_zeros_canonical pow10_pos : core.

Lemma align_scale_spec scale n :
  canonical (n_digits n) → (n_scale n ≤ scale)%nat →
  canonical (n_digits (align_scale scale n)) ∧
  digits_value (n_digits (align_scale scale n)) = digits_value (n_digits n) * 10 ^ Z.of_nat (scale - n_scale n).
Proof.
  intros Hc Hs. unfold align_scale. cbn [n_digits]. rewrite is_zero_digits_spec by done.
  destruct (Nat.ltb_spec (n_scale n) scale); cbn [andb]; [|replace (scale - n_scale n)%nat with 0%nat by lia; split; [done|lia]].
  destruct (Z.eqb_spec (digits_value (n_digits n)) 0) as [E|]; cbn [negb]; [split; [done|rewrite E; lia]|].
  split; [by apply append_zeros|by apply append_zeros_value].
Qed.

(** A result whose sign is dropped when it is zero. *)
Lemma num_ok_zero_sign neg s scale : canonical s → num_ok (mkNum (if is_zero_digits s then false else neg) s scale).
Proof. intros H. split; [done|]. simpl. rewrite is_zero_digits_spec by done. by intros ->. Qed.

Lemma units_zero_sign neg s scale :
  canonical s → num_units (mkNum (if is_zero_digits s then false else neg) s scale) = signed neg (digits_value s).
Proof.
  intros H. unfold num_units. simpl. rewrite is_zero_digits_spec by done. unfold signed.
  destruct (Z.eqb_spec (digits_value s) 0) as [->|]; [|done]. by destruct neg.
Qed.

Lemma num_add_spec a b subtract :
  num_ok a → num_ok b →
  let r := num_add a b subtract in
  num_ok r ∧ n_scale r = Nat.max (n_scale a) (n_scale b) ∧
  num_units r = num_units a * 10 ^ Z.of_nat (n_scale r - n_scale a) + (if subtract then -1 else 1) * num_units b * 10 ^ Z.of_nat (n_scale r - n_scale b).
Proof.
  intros [Ha _] [Hb _]. cbn zeta. unfold num_add.
  set (b' := if subtract then mkNum (negb (n_negative b)) (n_digits b) (n_scale b) else b).
  assert (Eb : n_digits b' = n_digits b ∧ n_scale b' = n_scale b ∧ signed (n_negative b') (digits_value (n_digits b)) = (if subtract then -1 else 1) * num_units b).
  { unfold b', num_units, signed. destruct subtract; simpl; destruct (n_negative b); simpl; split_and!; try done; lia. }
  destruct Eb as (Ed & Es & Ev). clearbody b'. rewrite Es. set (m := Nat.max (n_scale a) (n_scale b)).
  destruct (align_scale_spec m a Ha ltac:(lia)) as [Hca Hva].
  destruct (align_scale_spec m b' ltac:(by rewrite Ed) ltac:(lia)) as [Hcb Hvb]. rewrite Ed, Es in Hvb.
  change (n_negative (align_scale m a)) with (n_negative a). change (n_negative (align_scale m b')) with (n_negative b').
  set (da := n_digits (align_scale m a)) in *. set (db := n_digits (align_scale m b')) in *.
  destruct (eqb (n_negative a) (n_negative b')) eqn:Eneg.
  - apply eqb_prop in Eneg. destruct (add_abs_digits_spec da db) as (_ & _ & Hv); [by auto..|].
    pose proof (add_abs_digits_canonical da db Hca Hcb) as Hc. cbn [n_scale].
    split_and!; [by apply num_ok_zero_sign|done|]. rewrite units_zero_sign, Hv by done. rewrite <- Ev, Hva, Hvb. unfold num_units, signed.
    rewrite <- Eneg. destruct (n_negative a); ring.
  - assert (Hn : n_negative b' = negb (n_negative a)) by (by destruct (n_negative a), (n_negative b')). rewrite Hn in *.
    rewrite cmp_abs_digits_spec by done. rewrite <- Ev.
    change (num_units a) with (signed (n_negative a) (digits_value (n_digits a))).
    destruct (Z.compare_spec (digits_value da) (digits_value db)) as [E|Hl|Hg]; 
      [change (0 =? 0) with true|change (-1 =? 0) with false; change (0 <? -1) with false|change (1 =? 0) with false; change (0 <? 1) with true];
      cbv iota; cbn [n_scale].
    + split_and!; [by apply num_ok_zero_sign|done|]. rewrite units_zero_sign by done. change (digits_value [48]) with 0. unfold signed. destruct (n_negative a); simpl; lia.
    + destruct (sub_abs_digits_spec db da Hcb Hca ltac:(lia)) as [Hc Hv]. split_and!; [by apply num_ok_zero_sign|done|].
      rewrite units_zero_sign, Hv by done. unfold signed. destruct (n_negative a); simpl; lia.
    + destruct (sub_abs_digits_spec da db Hca Hcb ltac:(lia)) as [Hc Hv]. split_and!; [by apply num_ok_zero_sign|done|].
      rewrite units_zero_sign, Hv by done. unfold signed. destruct (n_negative a); simpl; lia.
Qed.

Lemma num_mul_spec a b :
  num_ok a → num_ok b →
  num_ok (num_mul a b) ∧ n_scale (num_mul a b) = (n_scale a + n_scale b)%nat ∧ num_units (num_mul a b) = num_units a * num_units b.
Proof.
  intros [Ha _] [Hb _]. destruct (mul_abs_digits_spec _ _ Ha Hb) as [Hc Hv].
  assert (E : num_mul a b = mkNum (if is_zero_digits (mul_abs_digits (n_digits a) (n_digits b)) then false
                                   else negb (eqb (n_negative a) (n_negative b)))
                             (mul_abs_digits (n_digits a) (n_digits b)) (n_scale a + n_scale b)).
  { unfold num_mul. by destruct (is_zero_digits _). }
  rewrite E. split_and!; [by apply num_ok_zero_sign|done|]. rewrite units_zero_sign, Hv by done. unfold num_units, signed.
  destruct (n_negative a), (n_negative b); simpl; lia.
Qed.

(** Dropping the last digits of a number: what stays, the first digit dropped, and the rest. *)
Lemma digits_split s k :
  digits s → (k ≤ length s)%nat →
  digits_value (take (length s - k) s) = digits_value s / 10 ^ Z.of_nat k ∧
  ((0 < k)%nat → (53 <=? s !!! (length s - k)%nat) = (10 ^ Z.of_nat k <=? 2 * (digits_value s mod 10 ^ Z.of_nat k))).
Proof.
  intros Hd Hk. set (a := take (length s - k) s). set (b := drop (length s - k) s).
  assert (E : s = a ++ b) by (symmetry; apply take_drop). assert (Hlb : length b = k) by (unfold b; rewrite length_drop; lia).
  assert (Hda : digits a ∧ digits b) by (apply Forall_app; by rewrite <- E). destruct Hda as [Hda Hdb].
  pose proof (digits_value_bound b Hdb) as Hb. rewrite Hlb in Hb.
  assert (Ev : digits_value s = digits_value b + digits_value a * 10 ^ Z.of_nat k) by (rewrite E, digits_value_app, Hlb; lia).
  pose proof (pow10_pos k). split; [by rewrite Ev, Z.div_add, Z.div_small by lia|]. intros Hk0.
  rewrite Ev, Z.mod_add, Z.mod_small by lia.
  assert (Es : s !!! (length s - k)%nat = digit_of b + 48).
  { destruct b as [|c b'] eqn:Eb; [simpl in Hlb; lia|]. simpl. apply list_lookup_total_correct. rewrite E.
    rewrite length_app, Hlb, lookup_app_r by lia. replace (length a + k - k - length a)%nat with 0%nat by lia. simpl. f_equal. lia. }
  rewrite Es. destruct b as [|c b']; [simpl in Hlb; lia|]. apply Forall_cons in Hdb as [Hc Hdb]. apply is_digit_iff in Hc.
  pose proof (digits_value_bound b' Hdb) as Hb'. destruct k as [|k]; [lia|]. simpl in Hlb. injection Hlb as Hlb.
  rewrite digits_value_cons, Hlb, pow10_succ in *. simpl. pose proof (pow10_pos k).
  destruct (Z.leb_spec 53 (c - 48 + 48)), (Z.leb_spec (10 * 10 ^ Z.of_nat k) (2 * ((c - 48) * 10 ^ Z.of_nat k + digits_value b'))); try done; nia.
Qed.

Lemma num_round_spec scale cut n :
  num_ok n →
  num_ok (num_round scale cut n) ∧ n_scale (num_round scale cut n) = scale ∧
  num_units (num_round scale cut n) = rounding cut (num_units n * 10 ^ Z.of_nat scale) (10 ^ Z.of_nat (n_scale n)).
Proof.
  intros Hn. assert (Hmain : num_ok (num_round scale cut n) ∧ n_scale (num_round scale cut n) = scale ∧
    num_units (num_round scale cut n) =
    signed (n_negative n) (round_abs cut (digits_value (n_digits n) * 10 ^ Z.of_nat scale) (10 ^ Z.of_nat (n_scale n)))).
  { destruct Hn as [Hc Hz]. unfold num_round. destruct (Nat.leb_spec (n_scale n) scale) as [Hle|Hgt].
    - destruct (align_scale_spec scale n Hc Hle) as [Hc' Hv]. pose proof (pow10_pos (scale - n_scale n)). split_and!; [|done|].
      + split; [done|]. rewrite Hv. intros E. apply Hz. nia.
      + unfold num_units. rewrite Hv. f_equal. replace scale with (scale - n_scale n + n_scale n)%nat at 2 by lia.
        rewrite Nat2Z.inj_add, Z.pow_add_r, Z.mul_assoc by lia. by rewrite round_abs_exact by done.
    - set (k := (n_scale n - scale)%nat).
      set (ds := if (length (n_digits n) <=? k)%nat then _ else _).
      assert (Hds : digits ds ∧ digits_value ds = digits_value (n_digits n) ∧ (k < length ds)%nat).
      { unfold ds. destruct (Nat.leb_spec (length (n_digits n)) k); [|by auto].
        rewrite replicate_zeros_value, length_app, length_replicate. split_and!; [|done|lia].
        apply Forall_app. split; [apply Forall_zeros|by auto]. }
      destruct Hds as (Hd & Hv & Hl). destruct (digits_split ds k Hd ltac:(lia)) as [Ht Hup]. rewrite Hup, Hv in * by lia.
      clearbody ds. clear Hup.
      assert (Htd : digits (take (length ds - k) ds)) by (by apply Forall_take).
      assert (Htn : take (length ds - k) ds ≠ []) by (intros E%(f_equal length); rewrite length_take in E; simpl in E; lia).
      destruct (add_abs_digits_spec (take (length ds - k) ds) [49] Htd ltac:(by repeat constructor) Htn) as (Had & _ & Hav).
      set (up := negb cut && _).
      assert (Hdd : digits (if up then add_abs_digits (take (length ds - k) ds) [49] else take (length ds - k) ds)) by (by destruct up).
      split_and!; [by apply num_ok_zero_sign, strip_zeros_canonical|done|].
      rewrite units_zero_sign, strip_zeros_value by (by apply strip_zeros_canonical). f_equal.
      replace (n_scale n) with (k + scale)%nat by lia. rewrite Nat2Z.inj_add, Z.pow_add_r, round_abs_scale by (done || lia).
      rewrite round_abs_step by (done || by apply canonical_nonneg). fold up.
      destruct up; [rewrite Hav, Ht|rewrite Ht]; [|lia]. f_equal. }
  destruct Hmain as (H1 & H2 & H3). split_and!; [done|done|].
  replace (num_units n * 10 ^ Z.of_nat scale) with (signed (n_negative n) (digits_value (n_digits n) * 10 ^ Z.of_nat scale))
    by (unfold num_units, signed; destruct (n_negative n); lia).
  rewrite rounding_signed; [done| |done]. apply Z.mul_nonneg_nonneg; [apply canonical_nonneg, Hn|by apply Z.lt_le_incl].
Qed.

Lemma num_div_spec a b scale cut :
  num_ok a → num_ok b → num_units b ≠ 0 →
  ∃ q, num_div a b scale cut = Some q ∧ num_ok q ∧ n_scale q = scale ∧
    num_units q = rounding cut (num_units a * Z.sgn (num_units b) * 10 ^ Z.of_nat (scale + n_scale b))
                               (Z.abs (num_units b) * 10 ^ Z.of_nat (n_scale a)).
Proof.
  intros [Ha _] [Hb _] Hnz. unfold num_div. set (shift := Z.of_nat (scale + 1 + n_scale b) - Z.of_nat (n_scale a)).
  set (zeros := replicate (Z.to_nat (Z.abs shift)) 48).
  pose proof (canonical_nonneg _ Ha) as HA. pose proof (canonical_nonneg _ Hb) as HB.
  set (A := digits_value (n_digits a)) in *. set (B := digits_value (n_digits b)) in *.
  assert (HB0 : 0 < B) by (unfold num_units, signed in Hnz; destruct (n_negative b); fold B in Hnz; lia).
  assert (Hnd : ∃ num den, (if 0 <=? shift then (n_digits a ++ zeros, n_digits b) else (n_digits a, n_digits b ++ zeros)) = (num, den) ∧
    digits num ∧ canonical den ∧ 0 < digits_value den ∧ 0 ≤ digits_value num ∧
    ∀ k, round_abs k (digits_value num) (digits_value den * 10) = round_abs k (A * 10 ^ Z.of_nat (scale + n_scale b)) (B * 10 ^ Z.of_nat (n_scale a))).
  { pose proof (pow10_pos (Z.to_nat (Z.abs shift))) as Hp.
    destruct (Z.leb_spec 0 shift); do 2 eexists; (split; [done|]); unfold zeros; rewrite append_zeros_value; fold A B;
      (split_and!; [|first [exact Hb|apply append_zeros; [done|fold B; lia]]|nia|nia|]).
    1, 3: repeat apply Forall_app_2; auto using Forall_zeros.
    - intros k. rewrite <- (round_abs_scale k _ (B * 10) (10 ^ Z.of_nat (n_scale a))), <- (round_abs_scale k (A * _) _ 10) by (done || lia).
      f_equal; [|ring]. rewrite <- !Z.mul_assoc. f_equal. replace (10 ^ Z.of_nat (scale + n_scale b) * 10) with (10 ^ Z.of_nat (scale + 1 + n_scale b)).
      + rewrite <- Z.pow_add_r by lia. f_equal. lia.
      + replace (scale + 1 + n_scale b)%nat with (S (scale + n_scale b)) by lia. rewrite pow10_succ. lia.
    - intros k. rewrite <- (round_abs_scale k A _ (10 ^ Z.of_nat (scale + n_scale b))) by (done || lia). f_equal.
      rewrite <- !Z.mul_assoc. f_equal. rewrite (Z.mul_assoc _ 10). rewrite (Z.mul_comm _ 10), <- pow10_succ, <- Z.pow_add_r by lia. f_equal. lia. }
  destruct Hnd as (num & den & -> & Hn & Hd & Hpos & Hn0 & Hround).
  destruct (div_abs_digits_spec num den Hn Hd Hpos) as (q & -> & Hq & Hv). cbn [mbind option_bind].
  set (neg := negb (eqb (n_negative a) (n_negative b))).
  replace (negb (is_zero_digits q) && neg) with (if is_zero_digits q then false else neg) by (by destruct (is_zero_digits q)).
  destruct (num_round_spec scale cut _ (num_ok_zero_sign neg q (scale + 1) Hq)) as (Hok & Hsc & Hu).
  eexists. split_and!; [done|done|done|]. rewrite Hu. cbn [n_scale]. rewrite units_zero_sign, Hv by done.
  assert (E1 : num_units a * Z.sgn (num_units b) * 10 ^ Z.of_nat (scale + n_scale b) = signed neg (A * 10 ^ Z.of_nat (scale + n_scale b))).
  { unfold num_units, signed, neg. fold A B. destruct (n_negative a), (n_negative b); simpl; rewrite ?Z.sgn_opp, Z.sgn_pos by lia; lia. }
  assert (E2 : Z.abs (num_units b) = B) by (unfold num_units, signed; fold B; destruct (n_negative b); lia).
  assert (E3 : signed neg (digits_value num / digits_value den) * 10 ^ Z.of_nat scale = signed neg (digits_value num / digits_value den * 10 ^ Z.of_nat scale))
    by (destruct neg; simpl; lia).
  pose proof (pow10_pos scale). assert (0 ≤ digits_value num / digits_value den) by (apply Z.div_pos; lia).
  rewrite E1, E2, E3, !rounding_signed; [|nia|pose proof (pow10_pos (n_scale a)); nia|nia|done]. f_equal.
  replace (scale + 1)%nat with (S scale) by lia. rewrite pow10_succ, round_abs_scale by lia. rewrite (round_abs_twice cut _ _ 5) by lia. apply Hround.
Qed.

(** ** Decimal *)

(** The invariant of a [Decimal] and its value. *)
Definition decimal_ok (d : Decimal) : Prop := canonical (d_integer d) ∧ digits (d_fraction d).
Definition d_units (d : Decimal) : Z := signed (d_negative d) (digits_value (d_integer d ++ d_fraction d)).
Definition d_value (d : Decimal) : Q := dec (d_units d) (length (d_fraction d)).

Lemma canonical_first c s : canonical (c :: s) → c ≠ 48 ∨ s = [].
Proof.
  intros (Hd & _ & Hv). destruct (decide (c = 48)) as [->|]; [right|by left]. destruct s as [|x s]; [done|].
  specialize (Hv ltac:(simpl; lia)). apply Forall_cons in Hd as [_ Hd]. pose proof (digits_value_bound _ Hd).
  rewrite digits_value_cons in Hv. simpl in *. lia.
Qed.

(** The first digits of a number without leading zeros. *)
Lemma canonical_take s k : canonical s → (0 < k)%nat → canonical (take k s).
Proof.
  intros H Hk. destruct s as [|c s]; [by destruct (proj1 (proj2 H))|]. destruct k as [|k]; [lia|]. simpl.
  destruct (canonical_first c s H) as [Hc| ->]; [|by rewrite take_nil].
  apply canonical_head; [|done]. destruct H as [Hd _]. apply Forall_cons in Hd as [? Hd]. constructor; [done|by apply Forall_take].
Qed.

Lemma from_decimal_spec d :
  decimal_ok d → num_ok (from_decimal d) ∧ n_scale (from_decimal d) = length (d_fraction d) ∧ num_units (from_decimal d) = d_units d.
Proof.
  intros [Hi Hf]. assert (Hd : digits (d_integer d ++ d_fraction d)) by (apply Forall_app; auto).
  unfold from_decimal. set (s := strip_zeros _).
  assert (Hc : canonical s) by (by apply strip_zeros_canonical).
  replace (d_negative d && negb (is_zero_digits s)) with (if is_zero_digits s then false else d_negative d)
    by (destruct (d_negative d); by destruct (is_zero_digits s)).
  split_and!; [by apply num_ok_zero_sign|done|]. rewrite units_zero_sign by done. unfold d_units, s. by rewrite strip_zeros_value.
Qed.

Lemma to_decimal_spec n :
  num_ok n → decimal_ok (to_decimal n) ∧ length (d_fraction (to_decimal n)) = n_scale n ∧ d_units (to_decimal n) = num_units n.
Proof.
  intros [Hc Hz]. unfold to_decimal. set (all := if (length _ <=? _)%nat then _ else _).
  assert (Hall : digits all ∧ digits_value all = digits_value (n_digits n) ∧ (n_scale n < length all)%nat ∧ canonical (take (length all - n_scale n) all)).
  { unfold all. destruct (Nat.leb_spec (length (n_digits n)) (n_scale n)) as [Hl|Hl].
    - rewrite replicate_zeros_value, length_app, length_replicate. split_and!; [|done|lia|].
      + apply Forall_app. split; [apply Forall_zeros|by auto].
      + replace (n_scale n - length (n_digits n) + 1 + length (n_digits n) - n_scale n)%nat with 1%nat by lia.
        rewrite Nat.add_1_r. simpl. rewrite take_0. apply canonical_0.
    - split_and!; [by auto|done|lia|]. apply canonical_take; [done|lia]. }
  destruct Hall as (Hd & Hv & Hl & Hci). unfold d_units, decimal_ok. cbn [d_integer d_fraction d_negative].
  rewrite take_drop, length_drop, Hv. split_and!; [done|by apply Forall_drop|lia|].
  rewrite is_zero_digits_spec by done. unfold num_units. destruct (Z.eqb_spec (digits_value (n_digits n)) 0) as [E|]; simpl.
  - rewrite andb_false_r, (Hz E). done.
  - by rewrite andb_true_r.
Qed.

Lemma add_one_spec low :
  digits low →
  digits (add_one low) ∧ low_value (add_one low) = low_value low + 1 ∧
  (length (add_one low) = length low ∨ (length (add_one low) = S (length low) ∧ 10 ^ Z.of_nat (length low) ≤ low_value low + 1)).
Proof.
  induction 1 as [|c low Hc Hl (IHd & IHv & IHl)]; cbn [add_one].
  { split_and!; [by repeat constructor|done|by right]. }
  apply is_digit_iff in Hc. destruct (Z.eqb_spec c 57) as [->|Hne]; rewrite !low_value_cons; cbn [length].
  - rewrite IHv. split_and!; [by constructor|lia|]. rewrite pow10_succ. destruct IHl as [->|[-> H]]; [by left|right; split; [done|lia]].
  - split_and!; [|lia|by left]. constructor; [apply is_digit_iff; lia|done].
Qed.

Lemma add_unit_spec places d :
  decimal_ok d → (places ≤ length (d_fraction d))%nat →
  let r := add_unit places d in
  decimal_ok r ∧ d_negative r = d_negative d ∧ length (d_fraction r) = places ∧
  digits_value (d_integer r ++ d_fraction r) = digits_value (d_integer d ++ take places (d_fraction d)) + 1.
Proof.
  intros [Hi Hf] Hp. cbn zeta. unfold add_unit. set (s := d_integer d ++ take places (d_fraction d)).
  assert (Hs : digits s) by (apply Forall_app; split; [by auto|by apply Forall_take]).
  assert (Hls : length s = (length (d_integer d) + places)%nat) by (unfold s; rewrite length_app, length_take; lia).
  destruct (add_one_spec (reverse s) ltac:(by apply digits_reverse)) as (Hd & Hv & Hl).
  rewrite low_value_reverse in Hv, Hl. rewrite length_reverse in Hl.
  set (ds := reverse (add_one (reverse s))).
  assert (Hvd : digits_value ds = digits_value s + 1) by (by rewrite <- Hv).
  assert (Hdd : digits ds) by (by apply digits_reverse).
  assert (Hld : length ds = length s ∨ (length ds = S (length s) ∧ 10 ^ Z.of_nat (length s) ≤ digits_value s + 1))
    by (unfold ds; by rewrite length_reverse).
  clearbody ds. assert (0 < length (d_integer d))%nat by (destruct Hi as (_ & Hne & _); destruct (d_integer d); [done|simpl; lia]).
  assert (Hne : take (length ds - places) ds ≠ []) by (intros E%(f_equal length); rewrite length_take in E; simpl in E; lia).
  rewrite bool_decide_eq_false_2 by done. unfold decimal_ok. cbn [d_integer d_fraction d_negative]. rewrite take_drop, length_drop.
  split_and!; [|by apply Forall_drop|done|lia|done].
  apply canonical_bound; [by apply Forall_take|done|]. rewrite length_take. intros Hlt.
  destruct (digits_split ds places Hdd ltac:(lia)) as [-> _]. rewrite Hvd.
  apply Z.div_le_lower_bound; [done|]. rewrite <- Z.pow_add_r by lia. destruct Hld as [El|[El Hv']].
  - pose proof (digits_value_bound (take places (d_fraction d)) ltac:(by apply Forall_take)).
    assert (digits_value s = digits_value (d_integer d) * 10 ^ Z.of_nat places + digits_value (take places (d_fraction d))) as ->.
    { unfold s. rewrite digits_value_app, length_take. do 4 f_equal. lia. }
    destruct Hi as (_ & _ & Hi). specialize (Hi ltac:(lia)).
    replace (Z.of_nat places + Z.of_nat ((length ds - places) `min` length ds - 1)) with (Z.of_nat (length (d_integer d) - 1) + Z.of_nat places) by lia.
    rewrite Z.pow_add_r by lia. nia.
  - replace (Z.of_nat places + Z.of_nat ((length ds - places) `min` length ds - 1)) with (Z.of_nat (length s)) by lia. lia.
Qed.

(** What is left of a number when its last [k] digits are rounded away. *)
Lemma round_digits cut s k :
  digits s → (0 < k ≤ length s)%nat →
  digits_value (take (length s - k) s) + (if negb cut && (53 <=? s !!! (length s - k)%nat) then 1 else 0) =
  round_abs cut (digits_value s) (10 ^ Z.of_nat k).
Proof.
  intros Hd Hk. destruct (digits_split s k Hd ltac:(lia)) as [-> ->]; [|lia]. pose proof (digits_value_bound s Hd).
  by rewrite round_abs_step by (done || lia).
Qed.

Lemma d_units_nonneg d : decimal_ok d → 0 ≤ digits_value (d_integer d ++ d_fraction d).
Proof. intros [Hi Hf]. apply digits_value_bound, Forall_app. by auto. Qed.

Lemma rounded_fraction cut places d :
  decimal_ok d → (places < length (d_fraction d))%nat →
  let r := rounded (Z.of_nat places) cut d in
  decimal_ok r ∧ length (d_fraction r) = places ∧
  d_units r = signed (d_negative d) (round_abs cut (digits_value (d_integer d ++ d_fraction d)) (10 ^ Z.of_nat (length (d_fraction d) - places))).
Proof.
  intros Hok Hlt. cbn zeta. destruct (Hok) as [Hi Hf]. unfold rounded.
  rewrite (proj2 (Z.leb_le 0 (Z.of_nat places))), Nat2Z.id by lia. rewrite (proj2 (Nat.leb_gt _ _)) by lia.
  set (s := d_integer d ++ d_fraction d). set (k := (length (d_fraction d) - places)%nat).
  assert (Hs : digits s) by (apply Forall_app; by auto).
  assert (Hls : (length s - k)%nat = (length (d_integer d) + places)%nat) by (unfold s, k; rewrite length_app; lia).
  pose proof (round_digits cut s k Hs ltac:(unfold s, k; rewrite length_app; lia)) as Hr. rewrite Hls in Hr.
  assert (E1 : take (length (d_integer d) + places) s = d_integer d ++ take places (d_fraction d)) by (unfold s; by rewrite take_app_add).
  assert (E2 : s !!! (length (d_integer d) + places)%nat = d_fraction d !!! places) by (unfold s; by rewrite lookup_total_app_r, Nat.add_sub_swap, Nat.sub_diag by lia).
  rewrite E1, E2 in Hr. rewrite <- Hr.
  assert (Hok' : decimal_ok (mkDecimal (d_negative d) (d_integer d) (take places (d_fraction d)))) by (split; [done|by apply Forall_take]).
  destruct (negb cut && _).
  - destruct (add_unit_spec places _ Hok') as (Ho & Hn & Hl & Hv); [simpl; rewrite length_take; lia|].
    split_and!; [done|done|]. unfold d_units. rewrite Hn, Hv. cbn [d_negative d_integer d_fraction]. by rewrite take_take, Nat.min_id.
  - split_and!; [done|simpl; rewrite length_take; lia|]. unfold d_units. cbn [d_negative d_integer d_fraction]. by rewrite Z.add_0_r.
Qed.

Lemma round_abs_small cut n d : 0 ≤ n → 2 * n < d → round_abs cut n d = 0.
Proof. intros Hn Hd. unfold round_abs. destruct cut; apply Z.div_small; lia. Qed.

Lemma rounded_integer cut k d :
  decimal_ok d → (0 < k)%nat →
  let r := rounded (- Z.of_nat k) cut d in
  decimal_ok r ∧ d_fraction r = [] ∧
  d_units r = signed (d_negative d)
    (round_abs cut (digits_value (d_integer d ++ d_fraction d)) (10 ^ Z.of_nat (length (d_fraction d) + k)) * 10 ^ Z.of_nat k).
Proof.
  intros Hok Hk. cbn zeta. destruct (Hok) as [Hi Hf]. pose proof (d_units_nonneg d Hok) as Hnn. unfold rounded.
  rewrite (proj2 (Z.leb_gt 0 (- Z.of_nat k))) by lia. rewrite Z.opp_involutive, Nat2Z.id.
  pose proof (digits_value_bound (d_integer d) ltac:(by auto)) as Bi. pose proof (digits_value_bound (d_fraction d) Hf) as Bf.
  assert (Ev : digits_value (d_integer d ++ d_fraction d) = digits_value (d_fraction d) + digits_value (d_integer d) * 10 ^ Z.of_nat (length (d_fraction d)))
    by (rewrite digits_value_app; lia).
  rewrite Nat2Z.inj_add, Z.pow_add_r by lia. destruct (Nat.ltb_spec (length (d_integer d)) k) as [Hlt|Hge].
  - split_and!; [by split|done|]. rewrite round_abs_small; [unfold d_units; simpl; by destruct (d_negative d)|done|].
    assert (10 ^ Z.of_nat (S (length (d_integer d))) ≤ 10 ^ Z.of_nat k) as Hp by (apply Z.pow_le_mono_r; lia).
    rewrite pow10_succ in Hp. rewrite Ev. nia.
  - pose proof (round_digits cut (d_integer d) k ltac:(by auto) ltac:(lia)) as Hr.
    assert (Ediv : digits_value (d_integer d) = digits_value (d_integer d ++ d_fraction d) / 10 ^ Z.of_nat (length (d_fraction d)))
      by (rewrite Ev, Z.div_add, Z.div_small by lia; lia).
    rewrite Ediv in Hr. destruct k as [|k']; [lia|]. rewrite pow10_succ in Hr.
    replace (10 * 10 ^ Z.of_nat k') with (2 * (5 * 10 ^ Z.of_nat k')) in Hr by lia. pose proof (pow10_pos k').
    rewrite round_abs_twice in Hr by (done || lia). replace (2 * (5 * 10 ^ Z.of_nat k')) with (10 ^ Z.of_nat (S k')) in Hr by (rewrite pow10_succ; lia).
    rewrite <- Hr. clear Hr Ediv Ev. set (k := S k') in *. set (kept := take (length (d_integer d) - k) (d_integer d)).
    set (out := mkDecimal (d_negative d) (if bool_decide (kept = []) then [48] else kept) []).
    assert (Hout : decimal_ok out ∧ digits_value (d_integer out) = digits_value kept).
    { unfold out, decimal_ok. cbn [d_integer d_fraction]. case_bool_decide as E; [by rewrite E; split|]. split; [|done]. split; [|done].
      apply canonical_take; [done|]. unfold kept in E. destruct (length (d_integer d) - k)%nat; [by rewrite take_0 in E|lia]. }
    destruct Hout as [Ho Hvo]. set (up := negb cut && _).
    set (out' := if up then add_unit 0 out else out).
    assert (Hout' : decimal_ok out' ∧ d_fraction out' = [] ∧ digits_value (d_integer out') = digits_value kept + (if up then 1 else 0)).
    { unfold out'. destruct up; [|split_and!; [done|done|lia]]. destruct (add_unit_spec 0 out Ho ltac:(lia)) as (Ho' & _ & Hl & Hv).
      apply nil_length_inv in Hl. rewrite Hl, take_0, !app_nil_r in Hv. split_and!; [done|done|lia]. }
    clearbody out'. destruct Hout' as ([Hi' Hf'] & He & Hv'). rewrite He. unfold d_units. cbn [d_integer d_fraction d_negative]. rewrite app_nil_r, <- Hv'.
    case_bool_decide as Ez.
    + split_and!; [by split|done|]. pose proof (skip_zeros_value (d_integer out' ++ replicate k 48)) as Hz. rewrite Ez, append_zeros_value in Hz.
      by rewrite <- Hz.
    + rewrite append_zeros_value. split_and!; [|done|done]. split; [|constructor]. cbn [d_integer]. apply append_zeros; [done|].
      intros E. apply Ez. assert (Hz : d_integer out' = [48]) by (by apply canonical_eq). rewrite Hz. clear. by induction k.
Qed.

Lemma to_u64_spec s v :
  digits s → 0 ≤ v → (v + 1) * 10 ^ Z.of_nat (length s) ≤ 10 ^ 19 → to_u64 s v = Some (v * 10 ^ Z.of_nat (length s) + digits_value s).
Proof.
  intros Hs. revert v. induction Hs as [|c s Hc Hs IH]; intros v Hv Hb; cbn [to_u64].
  { f_equal. simpl. change (digits_value []) with 0. lia. }
  apply is_digit_iff in Hc. cbn [length] in *. rewrite pow10_succ in *. pose proof (pow10_pos (length s)).
  assert (v < 10 ^ 18) by nia. rewrite (proj2 (Z.ltb_ge _ _)).
  - rewrite IH by nia. rewrite digits_value_cons. f_equal. lia.
  - apply Z.div_le_lower_bound; unfold u64_max; lia.
Qed.

Lemma to_int64_spec d :
  decimal_ok d →
  to_int64 d = let v := signed (d_negative d) (digits_value (d_integer d)) in if decide (in_int64 v) then Some v else None.
Proof.
  intros [Hi _]. cbn zeta. unfold to_int64. destruct Hi as (Hd & _ & Hv). pose proof (digits_value_bound _ Hd) as Hb.
  destruct (Nat.ltb_spec 19 (length (d_integer d))) as [Hl|Hl].
  - specialize (Hv ltac:(lia)). assert (10 ^ 19 ≤ 10 ^ Z.of_nat (length (d_integer d) - 1)) by (apply Z.pow_le_mono_r; lia).
    rewrite decide_False; [done|]. unfold signed. destruct (d_negative d); widths.
  - rewrite to_u64_spec; [|done|lia|].
    2: { rewrite Z.add_0_l, Z.mul_1_l. apply Z.pow_le_mono_r; lia. }
    cbn [mbind option_bind]. rewrite Z.mul_0_l, Z.add_0_l. unfold signed. destruct (d_negative d).
    + destruct (Z.ltb_spec (2 ^ 63) (digits_value (d_integer d))); [rewrite decide_False by widths; done|].
      rewrite decide_True by widths. f_equal. unfold wrap_int64. rewrite Z.mod_small by lia. lia.
    + destruct (Z.ltb_spec int64_max (digits_value (d_integer d))); [rewrite decide_False by widths; done|].
      by rewrite decide_True by widths.
Qed.

(** ** Parsing *)

(** The text starts with no character that [f] holds of. *)
Definition no_head (f : Z → bool) (s : list Z) : Prop := match s with c :: _ => f c = false | [] => True end.

Definition blanks (b : list Z) : Prop := Forall (λ c, c = 32) b.
Definition sign_of (sg : list Z) (neg : bool) : Prop := (sg = [c_minus] ∧ neg = true) ∨ ((sg = [] ∨ sg = [c_plus]) ∧ neg = false).

(** An exponent of the value [e], or none. *)
Definition exponent_text (ex : list Z) (e : Z) : Prop :=
  (ex = [] ∧ e = 0) ∨
  ∃ m sg neg ds, ex = m :: sg ++ ds ∧ is_exponent_mark m = true ∧ sign_of sg neg ∧ digits ds ∧ ds ≠ [] ∧
    digits_value ds < 10000 ∧ e = signed neg (digits_value ds).

(** The texts of numbers: blanks around a sign, digits, a fraction and an exponent. *)
Definition number_text (text : list Z) (neg : bool) (ip fp : list Z) (e : Z) : Prop :=
  ∃ b sg pt ex b', text = b ++ sg ++ ip ++ pt ++ ex ++ b' ∧ blanks b ∧ blanks b' ∧ sign_of sg neg ∧ digits ip ∧ digits fp ∧
    (ip ≠ [] ∨ fp ≠ []) ∧ ((pt = [] ∧ fp = []) ∨ pt = c_dot :: fp) ∧ exponent_text ex e.

Lemma skip_blanks_app b s : blanks b → no_head (λ c, c =? 32) s → skip_blanks (b ++ s) = s.
Proof.
  induction 1 as [|c b -> Hb IH]; simpl; [|auto]. intros H. destruct s as [|c s]; [done|]. simpl in *. by rewrite H.
Qed.

Lemma skip_blanks_split s : ∃ b, s = b ++ skip_blanks s ∧ blanks b.
Proof.
  induction s as [|c s (b & E & Hb)]; [exists []; by repeat constructor|]. simpl.
  destruct (Z.eqb_spec c 32) as [->|]; [|exists []; by repeat constructor].
  exists (32 :: b). split; [simpl; by f_equal|by constructor].
Qed.

Lemma take_digits_split s : s = take_digits s ++ drop (length (take_digits s)) s ∧ digits (take_digits s).
Proof.
  induction s as [|c s [IHe IHd]]; [done|]. simpl. destruct (is_digit c) eqn:E; simpl; [|done]. split; [by rewrite <- IHe|by constructor].
Qed.

Lemma sign_match (s : list Z) sg neg :
  sign_of sg neg → no_head is_sign s →
  match sg ++ s with c :: t => if is_sign c then (c =? c_minus, t) else (false, sg ++ s) | [] => (false, sg ++ s) end = (neg, s).
Proof.
  intros [[-> ->]|[[-> | ->] ->]] Hs; [done| |done]. simpl. destruct s as [|c s]; [done|]. simpl in Hs. by rewrite Hs.
Qed.

Lemma sign_match_inv (s : list Z) neg t :
  match s with c :: t => if is_sign c then (c =? c_minus, t) else (false, s) | [] => (false, s) end = (neg, t) →
  ∃ sg, s = sg ++ t ∧ sign_of sg neg.
Proof.
  destruct s as [|c s]; [intros [= <- <-]; exists []; split; [done|right; by auto]|].
  destruct (is_sign c) eqn:E; intros [= <- <-]; [|exists []; split; [done|right; by auto]].
  exists [c]. split; [done|]. unfold is_sign in E. destruct (Z.eqb_spec c c_minus) as [->|]; [by left|right].
  rewrite orb_false_r in E. apply Z.eqb_eq in E as ->. by auto.
Qed.

Lemma digit_no_sign c : is_digit c = true → is_sign c = false ∧ (c =? 32) = false ∧ is_exponent_mark c = false ∧ (c =? c_dot) = false.
Proof.
  rewrite is_digit_iff. unfold is_sign, is_exponent_mark. intros. rewrite !orb_false_iff, !Z.eqb_neq. lia.
Qed.

Lemma exponent_digits_spec ds e t :
  digits ds → no_head is_digit t → 0 ≤ e → e * 10 ^ Z.of_nat (length ds) + digits_value ds < 10000 →
  exponent_digits (ds ++ t) e = (e * 10 ^ Z.of_nat (length ds) + digits_value ds, t).
Proof.
  intros Hd. revert e. induction Hd as [|c ds Hc Hd IH]; intros e Ht He Hb; simpl app; cbn [exponent_digits].
  - change (digits_value []) with 0. simpl Z.of_nat. rewrite Z.mul_1_r, Z.add_0_r. destruct t as [|c t]; [done|]. simpl in *. by rewrite Ht.
  - cbn [length] in *. rewrite pow10_succ in *. rewrite digits_value_cons in *. apply is_digit_iff in Hc as Hc'.
    pose proof (digits_value_bound ds Hd). pose proof (pow10_pos (length ds)). cbn [exponent_digits]. rewrite Hc, (proj2 (Z.ltb_lt e 1000)) by nia.
    cbn [andb]. rewrite IH by (done || lia). f_equal. lia.
Qed.

Lemma parse_exponent_spec ex e t :
  exponent_text ex e → no_head is_digit t → no_head is_exponent_mark t → parse_exponent (ex ++ t) = (e, t).
Proof.
  intros [[-> ->]|(m & sg & neg & ds & -> & Hm & Hsg & Hd & Hne & Hlt & ->)] Ht Hm'.
  - destruct t as [|c t]; [done|]. simpl in *. by rewrite Hm'.
  - simpl app. unfold parse_exponent. rewrite Hm, <- app_assoc, (sign_match _ sg neg Hsg).
    2: { destruct ds as [|c ds]; [done|]. apply Forall_inv in Hd. by apply digit_no_sign. }
    pose proof (exponent_digits_spec ds 0 t Hd Ht ltac:(lia)) as E. rewrite Z.mul_0_l, Z.add_0_l in E.
    destruct ds as [|c ds]; [done|]. simpl app in *.
    rewrite E by lia. cbv iota. rewrite (Forall_inv Hd). by destruct neg.
Qed.

Lemma parse_digits_spec ip fp pt t :
  digits ip → digits fp → (pt = [] ∧ fp = []) ∨ pt = c_dot :: fp →
  no_head is_digit t → no_head (λ c, c =? c_dot) t → parse_digits (ip ++ pt ++ t) = (ip, fp, t).
Proof.
  intros Hi Hf Hpt Ht Hdot. unfold parse_digits. rewrite take_digits_all; [|done|].
  2: { destruct Hpt as [[-> ->]| ->]; [by destruct t|done]. }
  rewrite drop_app_length. destruct Hpt as [[-> ->]| ->]; simpl app.
  - destruct t as [|c t]; [done|]. simpl in *. by rewrite Hdot.
  - cbv iota. rewrite Z.eqb_refl, take_digits_all by (done || by destruct t). by rewrite drop_app_length.
Qed.

Lemma exponent_head (f : Z → bool) ex e t :
  exponent_text ex e → f 101 = false → f 69 = false → no_head f t → no_head f (ex ++ t).
Proof.
  intros [[-> ->]|(m & sg & neg & ds & -> & Hm & _)] H1 H2 Ht; [done|]. simpl. unfold is_exponent_mark in Hm.
  by apply orb_true_iff in Hm as [->%Z.eqb_eq| ->%Z.eqb_eq].
Qed.

Lemma blanks_head (f : Z → bool) b : blanks b → f 32 = false → no_head f b.
Proof. by intros [|c b' -> _]. Qed.

(** The digits of a number start with no character that is neither a digit nor a point. *)
Lemma digits_head (f : Z → bool) ip fp pt t :
  digits ip → ip ≠ [] ∨ fp ≠ [] → (pt = [] ∧ fp = []) ∨ pt = c_dot :: fp →
  (∀ c, is_digit c = true → f c = false) → f c_dot = false → no_head f (ip ++ pt ++ t).
Proof.
  intros Hi Hne Hpt Hf Hdot. destruct Hi as [|c ip Hc Hi]; simpl; [|by apply Hf].
  destruct Hpt as [[-> ->]| ->]; [by destruct Hne|done].
Qed.

Lemma parse_number_text text neg ip fp e :
  number_text text neg ip fp e →
  parse text = Some (let '(i, f) := shift_point e (ip, fp) in mkDecimal neg (strip_zeros i) f).
Proof.
  intros (b & sg & pt & ex & b' & -> & Hb & Hb' & Hsg & Hi & Hf & Hne & Hpt & Hex). unfold parse. rewrite skip_blanks_app; [|done|].
  2: { destruct Hsg as [[-> _]|[[-> | ->] _]]; try done. apply (digits_head _ ip fp); try done. intros. by apply digit_no_sign. }
  rewrite (sign_match _ sg neg Hsg).
  2: { apply (digits_head _ ip fp); try done. intros. by apply digit_no_sign. }
  rewrite (parse_digits_spec ip fp) by (try done; by eapply exponent_head, blanks_head).
  rewrite (parse_exponent_spec ex e b') by (done || by apply blanks_head).
  destruct (bool_decide (ip = []) && bool_decide (fp = [])) eqn:E.
  { rewrite andb_true_iff, !bool_decide_eq_true in E. destruct E as [-> ->]. by destruct Hne. }
  pose proof (skip_blanks_app b' [] Hb' I) as ->%(eq_trans (f_equal skip_blanks (eq_sym (app_nil_r b')))).
  by destruct (shift_point e (ip, fp)).
Qed.

Lemma exponent_digits_inv s e0 e t :
  0 ≤ e0 < 10000 → exponent_digits s e0 = (e, t) →
  ∃ ds, s = ds ++ t ∧ digits ds ∧ e = e0 * 10 ^ Z.of_nat (length ds) + digits_value ds ∧ 0 ≤ e < 10000 ∧
    (is_digit (hd 0 s) = true → e0 < 1000 → ds ≠ []).
Proof.
  revert e0. induction s as [|c s IH]; intros e0 He0; cbn [exponent_digits].
  { intros [= <- <-]. exists []. split_and!; [done|constructor|change (e0 = e0 * 1 + 0); lia|lia|lia|done]. }
  destruct (is_digit c) eqn:Ec; cbn [andb]; [destruct (Z.ltb_spec e0 1000)|].
  - apply is_digit_iff in Ec as Ec'. intros H1. destruct (IH (e0 * 10 + (c - 48)) ltac:(lia) H1) as (ds & -> & Hd & -> & Hb & _).
    exists (c :: ds). split_and!; [done|by constructor|rewrite digits_value_cons; cbn [length]; rewrite pow10_succ; lia|lia|lia|done].
  - intros [= <- <-]. exists []. split_and!; [done|constructor|change (e0 = e0 * 1 + 0); lia|lia|lia|intros; lia].
  - intros [= <- <-]. exists []. split_and!; [done|constructor|change (e0 = e0 * 1 + 0); lia|lia|lia|simpl; congruence].
Qed.

Lemma parse_exponent_inv s e t : parse_exponent s = (e, t) → ∃ ex, s = ex ++ t ∧ exponent_text ex e.
Proof.
  assert (Hnone : (0, s) = (e, t) → ∃ ex, s = ex ++ t ∧ exponent_text ex e).
  { intros [= <- <-]. exists []. split; [done|by left]. }
  destruct s as [|m u]; [done|]. unfold parse_exponent. destruct (is_exponent_mark m) eqn:Em; [|done].
  destruct (match u with c :: t => if is_sign c then (c =? c_minus, t) else (false, u) | [] => (false, u) end) as [neg v] eqn:Es.
  apply sign_match_inv in Es as (sg & -> & Hsg). destruct v as [|c v]; [done|]. destruct (is_digit c) eqn:Ec; [|done].
  destruct (exponent_digits (c :: v) 0) as [e' t'] eqn:Ee. apply exponent_digits_inv in Ee as (ds & Ev & Hd & -> & Hb & Hne); [|lia].
  intros [= <- <-]. exists (m :: sg ++ ds). rewrite Ev. split; [simpl; by rewrite <- app_assoc|]. right.
  exists m, sg, neg, ds. rewrite Z.mul_0_l, Z.add_0_l in *. split_and!; try done; [by apply Hne|lia].
Qed.

Lemma parse_digits_inv s ip fp t :
  parse_digits s = (ip, fp, t) → ∃ pt, s = ip ++ pt ++ t ∧ digits ip ∧ digits fp ∧ ((pt = [] ∧ fp = []) ∨ pt = c_dot :: fp).
Proof.
  unfold parse_digits. destruct (take_digits_split s) as [E Hd]. destruct (drop (length (take_digits s)) s) as [|c u] eqn:Ed.
  { intros [= <- <- <-]. exists []. rewrite E at 1. split_and!; [done|done|constructor|by left]. }
  destruct (Z.eqb_spec c c_dot) as [->|]; intros [= <- <- <-].
  - destruct (take_digits_split u) as [Eu Hu]. exists (c_dot :: take_digits u). split_and!; [|done|done|by right].
    rewrite E at 1. simpl. by rewrite Eu at 1.
  - exists []. rewrite E at 1. split_and!; [done|done|constructor|by left].
Qed.

Lemma parse_sound text d : parse text = Some d → ∃ neg ip fp e, number_text text neg ip fp e.
Proof.
  unfold parse. destruct (skip_blanks_split text) as (b & E & Hb). set (s := skip_blanks text) in *.
  destruct (match s with c :: t => if is_sign c then (c =? c_minus, t) else (false, s) | [] => (false, s) end) as [neg u] eqn:Es.
  apply sign_match_inv in Es as (sg & Es & Hsg). destruct (parse_digits u) as [[ip fp] v] eqn:Eu.
  apply parse_digits_inv in Eu as (pt & Eu & Hi & Hf & Hpt).
  destruct (bool_decide (ip = []) && bool_decide (fp = [])) eqn:En; [done|]. destruct (parse_exponent v) as [e w] eqn:Ev.
  apply parse_exponent_inv in Ev as (ex & Ev & Hex). destruct (skip_blanks w) as [|? ?] eqn:Ew; [|done]. intros _.
  destruct (skip_blanks_split w) as (b' & Ew' & Hb'). rewrite Ew, app_nil_r in Ew'.
  exists neg, ip, fp, e, b, sg, pt, ex, b'. split_and!; try done; [by rewrite E, Es, Eu, Ev, Ew' at 1|].
  apply andb_false_iff in En as [H|H]; apply bool_decide_eq_false in H; auto.
Qed.

Lemma dec_opp v p : (dec (- v) p == - dec v p)%Q.
Proof. unfold dec. rewrite inject_Z_opp. pose proof (q10_nonzero p). by field. Qed.

(** The digits and the places of a number whose point is moved. *)
Lemma shift_up_value d :
  digits d.1 → digits d.2 → digits (shift_up d).1 ∧ digits (shift_up d).2 ∧
  (dec (digits_value ((shift_up d).1 ++ (shift_up d).2)) (length (shift_up d).2) == dec (digits_value (d.1 ++ d.2)) (length d.2) * q10 1)%Q.
Proof.
  destruct d as [i [|c f]]; unfold shift_up; simpl; intros Hi Hf.
  - split_and!; [apply Forall_app; split; [done|by repeat constructor]|constructor|]. rewrite !app_nil_r, digits_value_app.
    change (digits_value [48]) with 0. rewrite Z.add_0_r. pose proof (dec_scale (digits_value i) 0 1) as H. rewrite <- H.
    unfold dec. simpl length. change (Z.of_nat 1) with 1. simpl (0 + 1)%nat. pose proof (q10_nonzero 1). unfold q10 at 1.
    rewrite !Z.pow_1_r. change (inject_Z (10 ^ Z.of_nat 0)) with 1%Q. by field.
  - apply Forall_cons in Hf as [Hc Hf]. split_and!; [apply Forall_app; split; [done|by repeat constructor]|done|].
    rewrite <- app_assoc. simpl app. unfold dec. pose proof (q10_add (length f) 1) as E. rewrite Nat.add_1_r in E. rewrite E.
    pose proof (q10_nonzero 1). pose proof (q10_nonzero (length f)). field. by split.
Qed.

Lemma shift_down_value d :
  digits d.1 → digits d.2 → digits (shift_down d).1 ∧ digits (shift_down d).2 ∧
  (dec (digits_value ((shift_down d).1 ++ (shift_down d).2)) (length (shift_down d).2) * q10 1 == dec (digits_value (d.1 ++ d.2)) (length d.2))%Q.
Proof.
  destruct d as [i f]. unfold shift_down. cbn [fst snd]. intros Hi Hf.
  assert (Hq : ∀ v, (dec v (S (length f)) * q10 1 == dec v (length f))%Q).
  { intros v. unfold dec. pose proof (q10_add (length f) 1) as E. rewrite Nat.add_1_r in E. rewrite E.
    pose proof (q10_nonzero 1). pose proof (q10_nonzero (length f)). field. by split. }
  destruct i as [|c i _] using rev_ind.
  - simpl. split_and!; [constructor|by constructor|]. rewrite Hq. rewrite digits_value_cons. change (48 - 48) with 0. by rewrite Z.mul_0_l.
  - rewrite last_snoc, removelast_last. cbn [fst snd]. apply Forall_app in Hi as [Hi Hc%Forall_inv].
    split_and!; [done|by constructor|]. simpl length. by rewrite Hq, <- app_assoc.
Qed.

Lemma shift_point_value e ip fp :
  digits ip → digits fp →
  let r := shift_point e (ip, fp) in
  digits r.1 ∧ digits r.2 ∧
  (dec (digits_value (r.1 ++ r.2)) (length r.2) * q10 (Z.to_nat (- e)) == dec (digits_value (ip ++ fp)) (length fp) * q10 (Z.to_nat e))%Q.
Proof.
  intros Hi Hf. cbn zeta. unfold shift_point. destruct (Z.ltb_spec 0 e).
  - replace (Z.to_nat (- e)) with 0%nat by lia. generalize (Z.to_nat e). intros n.
    induction n as [|n (IH1 & IH2 & IHv)]; [split_and!; done|]. change (Nat.iter (S n) shift_up (ip, fp)) with (shift_up (Nat.iter n shift_up (ip, fp))).
    destruct (shift_up_value _ IH1 IH2) as (H1 & H2 & Hv). split_and!; [done|done|]. rewrite Hv.
    pose proof (q10_add n 1) as E. rewrite Nat.add_1_r in E. rewrite E. rewrite Qmult_assoc, <- IHv. ring.
  - replace (Z.to_nat e) with 0%nat by lia. generalize (Z.to_nat (- e)). intros n.
    induction n as [|n (IH1 & IH2 & IHv)]; [split_and!; done|]. change (Nat.iter (S n) shift_down (ip, fp)) with (shift_down (Nat.iter n shift_down (ip, fp))).
    destruct (shift_down_value _ IH1 IH2) as (H1 & H2 & Hv). split_and!; [done|done|]. rewrite <- IHv, <- Hv.
    pose proof (q10_add n 1) as E. rewrite Nat.add_1_r in E. rewrite E. ring.
Qed.

(** ** Texts of decimals *)

Lemma strip_zeros_id s : canonical s → strip_zeros s = s.
Proof. intros H. apply canonical_eq; [by auto|done|apply strip_zeros_value]. Qed.

Lemma drop_trailing_zeros_split f : ∃ k, f = drop_trailing_zeros f ++ replicate k 48.
Proof.
  unfold drop_trailing_zeros. destruct (skip_zeros_split (reverse f)) as [k E]. exists k.
  rewrite <- (reverse_replicate k 48), <- reverse_app, <- E. by rewrite reverse_involutive.
Qed.

(** A decimal written with a fraction that is read back. *)
Lemma parse_written d f :
  canonical (d_integer d) → digits f → (is_zero d = true → d_negative d = false) →
  parse (sign_text d ++ d_integer d ++ (if bool_decide (f = []) then [] else c_dot :: f)) = Some (mkDecimal (d_negative d) (d_integer d) f).
Proof.
  intros Hi Hf Hz. rewrite (parse_number_text _ (d_negative d) (d_integer d) f 0).
  { change (shift_point 0 (d_integer d, f)) with (d_integer d, f). cbv beta iota. by rewrite strip_zeros_id. }
  exists [], (sign_text d), (if bool_decide (f = []) then [] else c_dot :: f), [], [].
  split_and!; [by rewrite !app_nil_r|constructor|constructor| |by auto|done|left; apply Hi| |by left].
  - unfold sign_text, sign_of. destruct (is_zero d); [rewrite Hz by done; simpl; by auto|].
    destruct (d_negative d); simpl; by auto.
  - case_bool_decide; by auto.
Qed.

(** ** Properties *)

(** The sum, the difference and the product of two decimals are exact: their value is that of the
    operation on the values, with as many places as the longer operand has, or both together; they are in
    normal form, without leading zeros and with no sign for zero. *)
Theorem num_arith_exact a b :
  num_ok a → num_ok b →
  let s := num_add a b false in
  let d := num_add a b true in
  let p := num_mul a b in
  (num_ok s ∧ n_scale s = Nat.max (n_scale a) (n_scale b) ∧ (num_value s == num_value a + num_value b)%Q) ∧
  (num_ok d ∧ n_scale d = Nat.max (n_scale a) (n_scale b) ∧ (num_value d == num_value a - num_value b)%Q) ∧
  (num_ok p ∧ n_scale p = (n_scale a + n_scale b)%nat ∧ (num_value p == num_value a * num_value b)%Q).
Proof.
  intros Ha Hb. cbn zeta.
  assert (Hadd : ∀ sub : bool, num_ok (num_add a b sub) ∧ n_scale (num_add a b sub) = Nat.max (n_scale a) (n_scale b) ∧
    (num_value (num_add a b sub) == num_value a + (if sub then - num_value b else num_value b))%Q).
  { intros sub. destruct (num_add_spec a b sub Ha Hb) as (Ho & Hs & Hu). split_and!; [done|done|]. unfold num_value. rewrite Hu, Hs.
    rewrite dec_add. set (m := Nat.max _ _).
    replace (dec (num_units a * _) m) with (dec (num_units a * 10 ^ Z.of_nat (m - n_scale a)) (n_scale a + (m - n_scale a))) by (f_equal; lia).
    replace (dec (_ * num_units b * _) m) with (dec ((if sub then -1 else 1) * num_units b * 10 ^ Z.of_nat (m - n_scale b)) (n_scale b + (m - n_scale b))) by (f_equal; lia).
    rewrite !dec_scale. apply Qplus_inj_l. destruct sub; [|by rewrite Z.mul_1_l]. unfold dec.
    rewrite inject_Z_mult. change (inject_Z (-1)) with (- (1))%Q. pose proof (q10_nonzero (n_scale b)). by field. }
  split_and!; try apply (Hadd false); try apply (Hadd true); try apply num_mul_spec; try done.
  destruct (num_mul_spec a b Ha Hb) as (_ & Hs & Hu). unfold num_value. rewrite Hs, Hu. unfold dec. rewrite inject_Z_mult, q10_add.
  pose proof (q10_nonzero (n_scale a)). pose proof (q10_nonzero (n_scale b)). field. by split.
Qed.

(** Division gives the exact quotient, rounded half away from zero or cut off to the places asked for:
    digit by digit with one digit more, and the last digit decides. Every division by a number other than
    zero ends. *)
Theorem num_div_rounds a b scale cut :
  num_ok a → num_ok b → num_units b ≠ 0 →
  ∃ q, num_div a b scale cut = Some q ∧ num_ok q ∧ n_scale q = scale ∧
    num_units q = rounding cut (num_units a * Z.sgn (num_units b) * 10 ^ Z.of_nat (scale + n_scale b))
                               (Z.abs (num_units b) * 10 ^ Z.of_nat (n_scale a)).
Proof. apply num_div_spec. Qed.

(** ROUND and TRUNCATE of a decimal, to places after the point and before it, round its exact value
    half away from zero, or cut it off. *)
Theorem decimal_rounded_exact d places cut :
  decimal_ok d →
  let r := rounded places cut d in
  let p := Z.to_nat (Z.abs places) in
  decimal_ok r ∧
  if 0 <=? places
  then length (d_fraction r) = Nat.min p (length (d_fraction d)) ∧
       (d_value r == dec (rounding cut (d_units d * 10 ^ Z.of_nat p) (10 ^ Z.of_nat (length (d_fraction d)))) p)%Q
  else d_fraction r = [] ∧ d_units r = rounding cut (d_units d) (10 ^ Z.of_nat (length (d_fraction d) + p)) * 10 ^ Z.of_nat p.
Proof.
  intros Hok. cbn zeta. pose proof (d_units_nonneg d Hok) as Hv. set (v := digits_value _) in *.
  destruct (Z.leb_spec 0 places) as [Hp|Hp].
  - rewrite (Z.abs_eq places) by done. set (p := Z.to_nat places). replace places with (Z.of_nat p) by lia.
    change (d_units d) with (signed (d_negative d) v). replace (signed (d_negative d) v * 10 ^ Z.of_nat p) with (signed (d_negative d) (v * 10 ^ Z.of_nat p))
      by (destruct (d_negative d); simpl; lia). pose proof (pow10_pos p). rewrite rounding_signed by (done || nia).
    destruct (Nat.lt_ge_cases p (length (d_fraction d))) as [Hlt|Hge].
    + destruct (rounded_fraction cut p d Hok Hlt) as (Ho & Hl & Hu). split_and!; [done|lia|]. unfold d_value. rewrite Hu, Hl. fold v.
      set (k := (length (d_fraction d) - p)%nat). replace (length (d_fraction d)) with (k + p)%nat by lia.
      by rewrite Nat2Z.inj_add, Z.pow_add_r, round_abs_scale by (done || lia).
    + assert (rounded (Z.of_nat p) cut d = d) as ->.
      { unfold rounded. rewrite (proj2 (Z.leb_le 0 _)), Nat2Z.id by lia. by rewrite (proj2 (Nat.leb_le _ _)) by done. }
      split_and!; [done|lia|]. set (f := length (d_fraction d)) in *. unfold d_value. fold f.
      replace (10 ^ Z.of_nat p) with (10 ^ Z.of_nat (p - f) * 10 ^ Z.of_nat f) by (rewrite <- Z.pow_add_r by lia; f_equal; lia).
      rewrite Z.mul_assoc, round_abs_exact by done. replace p with (f + (p - f))%nat at 2 by lia.
      replace (signed (d_negative d) (v * 10 ^ Z.of_nat (p - f))) with (d_units d * 10 ^ Z.of_nat (p - f)); [by rewrite dec_scale|].
      unfold d_units. fold v. destruct (d_negative d); simpl; lia.
  - rewrite (Z.abs_neq places) by lia. set (p := Z.to_nat (- places)). replace places with (- Z.of_nat p) by lia.
    destruct (rounded_integer cut p d Hok ltac:(lia)) as (Ho & Hf & Hu). split_and!; [done|done|]. rewrite Hu. fold v.
    change (d_units d) with (signed (d_negative d) v). rewrite rounding_signed by done. destruct (d_negative d); simpl; lia.
Qed.

Lemma decimal_parse_spec text :
  (parse text ≠ None ↔ ∃ neg ip fp e, number_text text neg ip fp e) ∧
  ∀ neg ip fp e, number_text text neg ip fp e →
    ∃ d, parse text = Some d ∧ decimal_ok d ∧ d_negative d = neg ∧
      (d_value d * q10 (Z.to_nat (- e)) == dec (signed neg (digits_value (ip ++ fp))) (length fp) * q10 (Z.to_nat e))%Q.
Proof.
  split.
  - split; [destruct (parse text) as [d|] eqn:E; [intros _; by apply (parse_sound text d)|done]|].
    intros (neg & ip & fp & e & H). by rewrite (parse_number_text _ _ _ _ _ H).
  - intros neg ip fp e H. rewrite (parse_number_text _ _ _ _ _ H).
    destruct H as (_ & _ & _ & _ & _ & _ & _ & _ & _ & Hi & Hf & _). destruct (shift_point_value e ip fp Hi Hf) as (H1 & H2 & Hv).
    destruct (shift_point e (ip, fp)) as [i f]. cbn [fst snd] in *. eexists. split_and!; [done|split; [by apply strip_zeros_canonical|done]|done|].
    unfold d_value, d_units. cbn [d_negative d_integer d_fraction].
    assert (E : digits_value (strip_zeros i ++ f) = digits_value (i ++ f)) by (by rewrite !digits_value_app, strip_zeros_value).
    rewrite E. destruct neg; [|exact Hv]. simpl signed. rewrite !dec_opp. apply Qopp_comp in Hv.
    etransitivity; [|etransitivity; [exact Hv|]]; ring.
Qed.

(** A text is read as a decimal exactly when it is blanks, a sign, digits with a point, an exponent
    of at most 9999 and blanks, and the decimal has its exact value and no leading zeros. *)
Theorem decimal_parse_exact text :
  (parse text ≠ None ↔ ∃ neg ip fp e, number_text text neg ip fp e) ∧
  ∀ neg ip fp e, number_text text neg ip fp e →
    ∃ d, parse text = Some d ∧ decimal_ok d ∧ d_negative d = neg ∧
      (d_value d * q10 (Z.to_nat (- e)) == dec (signed neg (digits_value (ip ++ fp))) (length fp) * q10 (Z.to_nat e))%Q.
Proof. apply decimal_parse_spec. Qed.

(** A decimal written with all of its places reads back as itself, and written without the zeros its
    fraction ends in as the same value. *)
Theorem decimal_text_roundtrip d :
  decimal_ok d → (is_zero d = true → d_negative d = false) →
  parse (decimal_str (length (d_fraction d)) d) = Some d ∧
  ∃ d', parse (compact d) = Some d' ∧ decimal_ok d' ∧ (d_value d' == d_value d)%Q.
Proof.
  intros [Hi Hf] Hz. split.
  - pose proof (parse_written d (d_fraction d) Hi Hf Hz) as H. unfold decimal_str. rewrite resize_all.
    destruct d as [neg i [|c f]]; exact H.
  - destruct (drop_trailing_zeros_split (d_fraction d)) as [k E]. set (f := drop_trailing_zeros (d_fraction d)) in *.
    assert (Hd : digits f ∧ digits (replicate k 48)) by (apply Forall_app; by rewrite <- E). destruct Hd as [Hd _].
    exists (mkDecimal (d_negative d) (d_integer d) f). split_and!; [by apply (parse_written d f)|by split|].
    unfold d_value, d_units. cbn [d_negative d_integer d_fraction]. clearbody f. rewrite E.
    rewrite app_assoc, append_zeros_value, length_app, length_replicate.
    replace (signed (d_negative d) (digits_value (d_integer d ++ f) * 10 ^ Z.of_nat k))
      with (signed (d_negative d) (digits_value (d_integer d ++ f)) * 10 ^ Z.of_nat k) by (destruct (d_negative d); simpl; lia).
    by rewrite dec_scale.
Qed.

Lemma digits_check s : forallb is_digit s = true → digits s.
Proof. rewrite forallb_forall, Forall_forall. intros H c Hc%list_elem_of_In. by apply H. Qed.

Lemma canonical_check s : forallb is_digit s = true → strip_zeros s = s → canonical s.
Proof. intros Hd <-. apply strip_zeros_canonical. by apply digits_check. Qed.

Lemma num_arith_exact_witness :
  let a := mkNum true (str "1250") 2 in
  let b := mkNum false (str "99") 1 in
  let s := num_add a b false in
  let d := num_add a b true in
  let p := num_mul a b in
  (num_ok s ∧ n_scale s = Nat.max (n_scale a) (n_scale b) ∧ (num_value s == num_value a + num_value b)%Q) ∧
  (num_ok d ∧ n_scale d = Nat.max (n_scale a) (n_scale b) ∧ (num_value d == num_value a - num_value b)%Q) ∧
  (num_ok p ∧ n_scale p = (n_scale a + n_scale b)%nat ∧ (num_value p == num_value a * num_value b)%Q).
Proof.
  intros a b s d p. apply (num_arith_exact a b); (split; [by apply canonical_check; vm_compute|by vm_compute]).
Defined.

(** -20 / 0.3 = -66.667 *)
Lemma num_div_rounds_witness :
  let a := mkNum true (str "20") 0 in
  let b := mkNum false (str "3") 1 in
  ∃ q, num_div a b 3 false = Some q ∧ num_ok q ∧ n_scale q = 3%nat ∧
    num_units q = rounding false (num_units a * Z.sgn (num_units b) * 10 ^ Z.of_nat (3 + n_scale b))
                                 (Z.abs (num_units b) * 10 ^ Z.of_nat (n_scale a)).
Proof.
  intros a b. apply num_div_rounds; [split; [by apply canonical_check; vm_compute|by vm_compute]..|by vm_compute].
Defined.

(** ROUND(-995.55, 1) = -995.6 *)
Lemma decimal_rounded_exact_witness :
  let d := mkDecimal true (str "995") (str "55") in
  let r := rounded 1 false d in
  decimal_ok r ∧ length (d_fraction r) = 1%nat ∧
  (d_value r == dec (rounding false (d_units d * 10 ^ 1) (10 ^ 2)) 1)%Q.
Proof.
  intros d. apply (decimal_rounded_exact d 1 false). split; [by apply canonical_check; vm_compute|by apply digits_check; vm_compute].
Defined.

Lemma decimal_text_roundtrip_witness :
  let d := mkDecimal true (str "12") (str "500") in
  parse (decimal_str (length (d_fraction d)) d) = Some d ∧
  ∃ d', parse (compact d) = Some d' ∧ decimal_ok d' ∧ (d_value d' == d_value d)%Q.
Proof.
  intros d. apply decimal_text_roundtrip; [|by vm_compute].
  split; [by apply canonical_check; vm_compute|by apply digits_check; vm_compute].
Defined.

(** " -1.25e+3 " *)
Lemma decimal_parse_exact_witness :
  ∃ d, parse (str " -1.25e+3 ") = Some d ∧ decimal_ok d ∧ d_negative d = true ∧
    (d_value d * q10 (Z.to_nat (- 3)) == dec (signed true (digits_value (str "1" ++ str "25"))) (length (str "25")) * q10 (Z.to_nat 3))%Q.
Proof.
  apply (proj2 (decimal_parse_exact (str " -1.25e+3 ")) true (str "1") (str "25") 3). exists (str " "), (str "-"), (str ".25"), (str "e+3"), (str " ").
  split_and!; [done|by repeat constructor|by repeat constructor|by left|by repeat constructor|by repeat constructor|by left|by right|].
  right. exists 101, (str "+"), false, (str "3"). split_and!; [done|done|right; split; [by right|done]|by repeat constructor|done|done|done].
Defined.
