(* ===== verification/Dates.v ===== *)
(** * Dates and times (include/engine/sql_value_util.hpp, the part after "Dates")

    The calendar in days since 1970-01-01, dates and times as texts, and intervals added to them. The
    division of C++ cuts toward zero ([Z.quot], [Z.rem]). An [int] or [long long] that overflows, which C++
    leaves undefined, wraps around where a caller's number can reach it (the amount of an interval, the
    digits of a time). *)
From S2P Require Import Prelude Numerals NumericText Decimals.

#[local] Open Scope Z_scope.

(** ** The calendar *)

Definition is_leap (y : Z) : bool :=
  ((Z.rem y 4 =? 0) && negb (Z.rem y 100 =? 0)) || (Z.rem y 400 =? 0).

Definition month_lengths : list Z := [31; 28; 31; 30; 31; 30; 31; 31; 30; 31; 30; 31].

(** For a month outside 1 to 12 the code reads outside of its array; [valid_date] and [add_interval] keep to 1 to 12. *)
Definition days_in_month (y m : Z) : Z :=
  if (m =? 2) && is_leap y then 29 else month_lengths !!! Z.to_nat (m - 1).

Definition days_from_civil (y m d : Z) : Z :=
  let y := if m <=? 2 then y - 1 else y in
  let era := Z.quot (if 0 <=? y then y else y - 399) 400 in
  let yoe := y - era * 400 in
  let doy := Z.quot (153 * (m + (if 2 <? m then -3 else 9)) + 2) 5 + d - 1 in
  let doe := yoe * 365 + Z.quot yoe 4 - Z.quot yoe 100 + doy in
  era * 146097 + doe - 719468.

Definition civil_from_days (z : Z) : Z * Z * Z :=
  let z := z + 719468 in
  let era := Z.quot (if 0 <=? z then z else z - 146096) 146097 in
  let doe := z - era * 146097 in
  let yoe := Z.quot (doe - Z.quot doe 1460 + Z.quot doe 36524 - Z.quot doe 146096) 365 in
  let y := yoe + era * 400 in
  let doy := doe - (365 * yoe + Z.quot yoe 4 - Z.quot yoe 100) in
  let mp := Z.quot (5 * doy + 2) 153 in
  let d := doy - Z.quot (153 * mp + 2) 5 + 1 in
  let m := if mp <? 10 then mp + 3 else mp - 9 in
  (if m <=? 2 then y + 1 else y, m, d).

Record DateTime := mkDateTime {
  dt_year : Z;
  dt_month : Z;
  dt_day : Z;
  dt_hour : Z;
  dt_minute : Z;
  dt_second : Z;
  dt_micro : Z;
  has_date : bool;
  has_time : bool
}.

Definition epoch_days (t : DateTime) : Z := days_from_civil (dt_year t) (dt_month t) (dt_day t).

Definition epoch_seconds (t : DateTime) : Z :=
  epoch_days t * 86400 + dt_hour t * 3600 + dt_minute t * 60 + dt_second t.

Definition from_epoch_seconds (s micro : Z) : DateTime :=
  let days := if 0 <=? s then Z.quot s 86400 else - Z.quot (- s + 86399) 86400 in
  let rest := s - days * 86400 in
  let '(y, m, d) := civil_from_days days in
  mkDateTime y m d (Z.quot rest 3600) (Z.quot (Z.rem rest 3600) 60) (Z.rem rest 60) micro true true.

Definition valid_date (t : DateTime) : bool :=
  (0 <=? dt_year t) && (dt_year t <=? 9999) && (1 <=? dt_month t) && (dt_month t <=? 12) && (1 <=? dt_day t) &&
  (dt_day t <=? days_in_month (dt_year t) (dt_month t)).

(** 0 = Monday ... 6 = Sunday *)
Definition weekday_monday0 (epoch_days : Z) : Z :=
  let w := Z.rem (epoch_days + 3) 7 in if w <? 0 then w + 7 else w.

(** ** Texts *)

(** [printf("%0<width>d", v)] *)
Definition zero_padded (width : nat) (v : Z) : list Z :=
  let sg := if v <? 0 then [c_minus] else [] in
  let ds := to_string (Z.abs v) in
  sg ++ replicate (width - length sg - length ds) 48 ++ ds.

Definition date_str (t : DateTime) : list Z :=
  take 31 (zero_padded 4 (dt_year t) ++ c_minus :: zero_padded 2 (dt_month t) ++ c_minus :: zero_padded 2 (dt_day t)).

Definition time_str (t : DateTime) : list Z :=
  let clock := zero_padded 2 (dt_hour t) ++ 58 :: zero_padded 2 (dt_minute t) ++ 58 :: zero_padded 2 (dt_second t) in
  take 47 (if dt_micro t =? 0 then clock else clock ++ c_dot :: zero_padded 6 (dt_micro t)).

Definition datetime_str (t : DateTime) : list Z := date_str t ++ 32 :: time_str t.

(** Between [min_n] and [max_n] digits: their value and what follows. *)
Definition digits_at (min_n max_n : nat) (s : list Z) : option (Z * list Z) :=
  let ds := take_digits (take max_n s) in
  if (length ds <? min_n)%nat then None else Some (digits_value ds, drop (length ds) s).

(** A separator and what follows it. *)
Definition after (c : Z) (s : list Z) : option (list Z) :=
  match s with x :: s => if x =? c then Some s else None | [] => None end.

(** Is the character that rounds the sixth place up, if there is one, at the start of the text? *)
Definition rounds_up (s : list Z) : bool := match s with c :: _ => (53 <=? c) && (c <=? 57) | [] => false end.

(** The fraction of a second behind the point: six places, and the seventh rounds. *)
Definition read_fraction (s : list Z) (t : DateTime) : DateTime :=
  let frac := take_digits (take 6 s) in
  let micro := digits_value (resize 6 48 frac) in
  let up := rounds_up (drop (length frac) s) in
  let set t micro := mkDateTime (dt_year t) (dt_month t) (dt_day t) (dt_hour t) (dt_minute t) (dt_second t) micro (has_date t) (has_time t) in
  if up then
    if micro + 1 =? 1000000 then
      let next := from_epoch_seconds (epoch_seconds t + 1) 0 in
      mkDateTime (dt_year next) (dt_month next) (dt_day next) (dt_hour next) (dt_minute next) (dt_second next) 0 (has_date t) (has_time t)
    else set t (micro + 1)
  else set t micro.

(** The clock behind a date: hours and minutes, perhaps seconds and a fraction; what is none is ignored. *)
Definition read_clock (s : list Z) (t : DateTime) : DateTime :=
  match (
    '(h, s) ← digits_at 1 2 s;
    s ← after 58 s;
    '(mi, s) ← digits_at 1 2 s;
    let '(se, s) := match after 58 s with Some s => match digits_at 1 2 s with Some r => r | None => (0, s) end | None => (0, s) end in
    let t := mkDateTime (dt_year t) (dt_month t) (dt_day t) h mi se (dt_micro t) (has_date t) true in
    Some (match after c_dot s with Some s => read_fraction s t | None => t end)) with
  | Some t => t
  | None => t
  end.

(** The 8 or 14 digits of [20240305], [20240305140709]. *)
Definition parse_compact (s : list Z) : option DateTime :=
  '(y, u) ← digits_at 4 4 s;
  '(mo, u) ← digits_at 2 2 u;
  '(d, u) ← digits_at 2 2 u;
  if (length s =? 14)%nat then
    '(h, u) ← digits_at 2 2 u;
    '(mi, u) ← digits_at 2 2 u;
    '(se, u) ← digits_at 2 2 u;
    Some (mkDateTime y mo d h mi se 0 true true)
  else Some (mkDateTime y mo d 0 0 0 0 true false).

(** A '-' among the first three characters: a year of one or two digits. *)
Definition short_year (s : list Z) : bool := bool_decide (c_minus ∈ take 3 s).

Definition parse_datetime (text : list Z) : option DateTime :=
  let s := skip_blanks text in
  if bool_decide (s = []) then None
  else if forallb is_digit (take 14 s) && ((length s =? 8)%nat || (length s =? 14)%nat) then parse_compact s
  else
    '(y, u) ← digits_at 1 4 s;
    '(sep, u) ← match u with c :: u => if (c =? c_minus) || (c =? 47) then Some (c, u) else None | [] => None end;
    '(mo, u) ← digits_at 1 2 u;
    u ← after sep u;
    '(d, u) ← digits_at 1 2 u;
    let year := if (y <? 70) && short_year s then 2000 + y else if (y <? 100) && short_year s then 1900 + y else y in
    let t := mkDateTime year mo d 0 0 0 0 true false in
    Some match u with
         | c :: u => if (c =? 32) || (c =? 84) then read_clock u t else t
         | [] => t
         end.

(** [atoll] of a text of at most six characters. *)
Definition atoll (s : list Z) : Z :=
  let s := skip_space s in
  let '(neg, s) := match s with c :: t => if is_sign c then (c =? c_minus, t) else (false, s) | [] => (false, s) end in
  signed neg (digits_value (take_digits s)).

(** The loop over the fields of a time: the closed fields, the last one, whether it has a digit, and the
    fraction; [None] for a character that belongs to no time. *)
Fixpoint time_fields (s : list Z) (v : list Z) (cur : Z) (any : bool) : option (list Z * Z * bool * list Z) :=
  match s with
  | [] => Some (v, cur, any, [])
  | c :: s' =>
      if is_digit c then time_fields s' v (wrap_int64 (cur * 10 + (c - 48))) true
      else if c =? 58 then time_fields s' (v ++ [cur]) 0 false
      else if c =? c_dot then Some (v, cur, any, s)
      else None
  end.

(** The millionths behind the point, and the second that rounding them up carries. *)
Definition time_fraction (s : list Z) : Z * Z :=
  match s with
  | [] => (0, 0)
  | _ :: f =>
      let micro := atoll (resize 6 48 (take 6 f)) in
      if rounds_up (drop 6 f) then (if micro + 1 =? 1000000 then (0, 1) else (micro + 1, 0)) else (micro, 0)
  end.

(** The seconds of a time and its millionths. *)
Definition parse_time_seconds (text : list Z) : option (Z * Z) :=
  let s := skip_blanks text in
  if bool_decide (s = []) then None
  else
    match parse_datetime s with
    | Some (mkDateTime _ _ _ h mi se micro _ true) => Some (h * 3600 + mi * 60 + se, micro)
    | _ =>
        let '(negative, s) := match s with c :: t => if c =? c_minus then (true, t) else (false, s) | [] => (false, s) end in
        '(v, cur, any, rest) ← time_fields s [] 0 false;
        if negb any && bool_decide (v = []) then None
        else
          let '(micro, carry) := time_fraction rest in
          '(h, mi, se) ← match v ++ [cur] with
                         | [x] => Some (Z.quot x 10000, Z.rem (Z.quot x 100) 100, Z.rem x 100)
                         | [x; y] => Some (x, y, 0)
                         | [x; y; z] => Some (x, y, z)
                         | _ => None
                         end;
          if (59 <? mi) || (59 <? se) then None
          else
            let total := wrap_int64 (h * 3600 + mi * 60 + se + carry) in
            Some (if negative : bool then - total else total, micro)
    end.

(** ** Intervals *)

Definition is_unit (unit : list Z) (name : string) : bool := bool_decide (unit = str name).

(** The seconds and the millionths of an amount of a unit; [None] for a unit of months or none at all. *)
Definition unit_seconds (unit : list Z) (amount : Z) : option (Z * Z) :=
  if is_unit unit "DAY" then Some (wrap_int64 (amount * 86400), 0)
  else if is_unit unit "WEEK" then Some (wrap_int64 (amount * 7 * 86400), 0)
  else if is_unit unit "HOUR" then Some (wrap_int64 (amount * 3600), 0)
  else if is_unit unit "MINUTE" then Some (wrap_int64 (amount * 60), 0)
  else if is_unit unit "SECOND" then Some (amount, 0)
  else if is_unit unit "MICROSECOND" then Some (Z.quot amount 1000000, Z.rem amount 1000000)
  else None.

Definition add_months (t : DateTime) (months : Z) : option DateTime :=
  let total := wrap_int64 (dt_year t * 12 + (dt_month t - 1) + months) in
  if total <? 0 then None
  else
    let y := Z.quot total 12 in
    let m := Z.rem total 12 + 1 in
    if 9999 <? y then None
    else Some (mkDateTime y m (Z.min (dt_day t) (days_in_month y m)) (dt_hour t) (dt_minute t) (dt_second t) (dt_micro t) (has_date t) (has_time t)).

Definition add_interval (t : DateTime) (unit : list Z) (amount : Z) : option DateTime :=
  if is_unit unit "MONTH" then add_months t amount
  else if is_unit unit "YEAR" then add_months t (wrap_int64 (amount * 12))
  else if is_unit unit "QUARTER" then add_months t (wrap_int64 (amount * 3))
  else
    '(seconds, micro) ← unit_seconds unit amount;
    let total_micro := dt_micro t + micro in
    let seconds := wrap_int64 (seconds + (if 1000000 <=? total_micro then 1 else if total_micro <? 0 then -1 else 0)) in
    let total_micro := Z.rem (Z.rem total_micro 1000000 + 1000000) 1000000 in
    let out := from_epoch_seconds (wrap_int64 (epoch_seconds t + seconds)) total_micro in
    let timed := has_time t || is_unit unit "HOUR" || is_unit unit "MINUTE" || is_unit unit "SECOND" || is_unit unit "MICROSECOND" in
    let out := mkDateTime (dt_year out) (dt_month out) (dt_day out) (dt_hour out) (dt_minute out) (dt_second out) (dt_micro out) true timed in
    if (dt_year out <? 0) || (9999 <? dt_year out) then None else Some out.

(** ** The calendar's arithmetic

    A year of the code starts in March: month 0 is March, month 11 the February of the next calendar year. *)

Lemma quot_floor v k : 0 < k → Z.quot (if 0 <=? v then v else v - (k - 1)) k = v / k.
Proof. intros Hk. destruct (Z.leb_spec 0 v); Z.to_euclidean_division_equations; nia. Qed.

(** The days before a year of an era of 400 years, and before a month of a year. *)
Definition year_start (yoe : Z) : Z := 365 * yoe + yoe / 4 - yoe / 100.
Definition month_start (mp : Z) : Z := (153 * mp + 2) / 5.
Definition year_of (doe : Z) : Z := (doe - doe / 1460 + doe / 36524 - doe / 146096) / 365.

(** The years of an era that end with a 29th of February. *)
Definition long_year (yoe : Z) : Prop := yoe mod 4 = 3 ∧ (yoe mod 100 ≠ 99 ∨ yoe = 399).

Lemma year_of_start yoe doy :
  0 ≤ yoe < 400 → 0 ≤ doy ≤ 364 ∨ (doy = 365 ∧ long_year yoe) →
  0 ≤ year_start yoe + doy ≤ 146096 ∧ year_of (year_start yoe + doy) = yoe.
Proof.
  intros Hy Hd. unfold year_start, long_year in *.
  assert (H : 0 ≤ 365 * yoe + yoe / 4 - yoe / 100 + doy ≤ 146096) by (Z.to_euclidean_division_equations; lia).
  split; [done|]. unfold year_of. symmetry. set (doe := 365 * yoe + yoe / 4 - yoe / 100 + doy) in *.
  apply (Z.div_unique_pos _ _ _ (doe - doe / 1460 + doe / 36524 - doe / 146096 - 365 * yoe)); [|lia].
  assert (Hc : doe / 36524 = yoe / 100 ∨ (doe = 146096 ∧ doe / 36524 = 4 ∧ yoe = 399)) by (subst doe; Z.to_euclidean_division_equations; lia).
  assert (doe / 146096 = if decide (doe = 146096) then 1 else 0) by (case_decide; Z.to_euclidean_division_equations; lia).
  case_decide; subst doe; Z.to_euclidean_division_equations; lia.
Qed.

Lemma year_start_of doe :
  0 ≤ doe ≤ 146096 →
  let yoe := year_of doe in
  let doy := doe - year_start yoe in
  0 ≤ yoe < 400 ∧ (0 ≤ doy ≤ 364 ∨ (doy = 365 ∧ long_year yoe)).
Proof.
  intros H. cbn zeta. unfold year_of, year_start, long_year.
  assert (doe / 146096 = if decide (doe = 146096) then 1 else 0) by (case_decide; Z.to_euclidean_division_equations; lia).
  case_decide; Z.to_euclidean_division_equations; lia.
Qed.

Definition valid_day (y m d : Z) : Prop := 1 ≤ m ≤ 12 ∧ 1 ≤ d ≤ days_in_month y m.

(** The year that starts in March, and its month. *)
Definition march_year (y m : Z) : Z := if m <=? 2 then y - 1 else y.
Definition march_month (m : Z) : Z := if 2 <? m then m - 3 else m + 9.

Lemma days_from_civil_eq y m d :
  1 ≤ m ≤ 12 →
  let y' := march_year y m in
  days_from_civil y m d = y' / 400 * 146097 + (year_start (y' mod 400) + (month_start (march_month m) + d - 1)) - 719468.
Proof.
  intros Hm. cbn zeta. unfold days_from_civil. fold (march_year y m). set (y' := march_year y m).
  change (y' - 399) with (y' - (400 - 1)). rewrite quot_floor by lia.
  replace (y' - y' / 400 * 400) with (y' mod 400) by (pose proof (Z.div_mod y' 400); lia). pose proof (Z.mod_pos_bound y' 400 ltac:(lia)).
  rewrite !(Z.quot_div_nonneg (y' mod 400)) by lia. unfold year_start, month_start, march_month.
  destruct (Z.ltb_spec 2 m); rewrite Z.quot_div_nonneg by lia;
    [replace (m + -3) with (m - 3) by lia|]; lia.
Qed.

Lemma civil_from_days_eq w :
  let yoe := year_of (w mod 146097) in
  let doy := w mod 146097 - year_start yoe in
  let mp := (5 * doy + 2) / 153 in
  let m := if mp <? 10 then mp + 3 else mp - 9 in
  let y := yoe + w / 146097 * 400 in
  civil_from_days (w - 719468) = (if m <=? 2 then y + 1 else y, m, doy - month_start mp + 1).
Proof.
  cbn zeta. unfold civil_from_days. replace (w - 719468 + 719468) with w by lia.
  change (w - 146096) with (w - (146097 - 1)). rewrite quot_floor by lia.
  replace (w - w / 146097 * 146097) with (w mod 146097) by (pose proof (Z.div_mod w 146097); lia).
  pose proof (Z.mod_pos_bound w 146097 ltac:(lia)). set (doe := w mod 146097) in *.
  destruct (year_start_of doe ltac:(lia)) as [Hy Hd].
  rewrite !(Z.quot_div_nonneg doe) by lia. rewrite (Z.quot_div_nonneg (_ - _) 365); [fold (year_of doe)| |lia].
  2: { Z.to_euclidean_division_equations; lia. }
  rewrite !(Z.quot_div_nonneg (year_of doe)) by lia. fold (year_start (year_of doe)).
  assert (0 ≤ doe - year_start (year_of doe)) by lia. rewrite (Z.quot_div_nonneg (5 * _ + 2)) by lia.
  rewrite (Z.quot_div_nonneg (153 * _ + 2)); [done| |lia]. pose proof (Z.div_pos (5 * (doe - year_start (year_of doe)) + 2) 153). lia.
Qed.

Lemma is_leap_spec y : is_leap y = true ↔ (y mod 4 = 0 ∧ y mod 100 ≠ 0) ∨ y mod 400 = 0.
Proof.
  unfold is_leap. rewrite orb_true_iff, andb_true_iff, negb_true_iff, !Z.eqb_eq, Z.eqb_neq.
  Z.to_euclidean_division_equations. lia.
Qed.

Lemma is_leap_long y : is_leap y = true ↔ long_year ((y - 1) mod 400).
Proof. rewrite is_leap_spec. unfold long_year. Z.to_euclidean_division_equations. lia. Qed.

Lemma days_in_month_eq y m :
  1 ≤ m ≤ 12 →
  days_in_month y m = if (m =? 2) then (if is_leap y then 29 else 28) else if (m =? 4) || (m =? 6) || (m =? 9) || (m =? 11) then 30 else 31.
Proof.
  intros H. unfold days_in_month.
  assert (m = 1 ∨ m = 2 ∨ m = 3 ∨ m = 4 ∨ m = 5 ∨ m = 6 ∨ m = 7 ∨ m = 8 ∨ m = 9 ∨ m = 10 ∨ m = 11 ∨ m = 12) as Hm by lia.
  destruct_or! Hm; subst; simpl; try done; by destruct (is_leap y).
Qed.

Lemma month_start_values mp :
  0 ≤ mp ≤ 11 →
  month_start mp = if mp =? 0 then 0 else if mp =? 1 then 31 else if mp =? 2 then 61 else if mp =? 3 then 92 else if mp =? 4 then 122
    else if mp =? 5 then 153 else if mp =? 6 then 184 else if mp =? 7 then 214 else if mp =? 8 then 245 else if mp =? 9 then 275
    else if mp =? 10 then 306 else 337.
Proof.
  intros H. unfold month_start.
  assert (mp = 0 ∨ mp = 1 ∨ mp = 2 ∨ mp = 3 ∨ mp = 4 ∨ mp = 5 ∨ mp = 6 ∨ mp = 7 ∨ mp = 8 ∨ mp = 9 ∨ mp = 10 ∨ mp = 11) as Hm by lia.
  by destruct_or! Hm; subst.
Qed.

(** The days of a year that starts in March. *)
Definition year_days (y' doy : Z) : Prop := 0 ≤ doy ≤ 364 ∨ (doy = 365 ∧ long_year (y' mod 400)).

Lemma valid_day_doy y m d :
  valid_day y m d →
  let doy := month_start (march_month m) + d - 1 in
  year_days (march_year y m) doy ∧ (5 * doy + 2) / 153 = march_month m.
Proof.
  intros [Hm Hd]. cbn zeta. rewrite days_in_month_eq in Hd by done. unfold year_days, march_year, march_month.
  rewrite month_start_values by (destruct (Z.ltb_spec 2 m); lia).
  pose proof (is_leap_long y) as Hl.
  assert (m = 1 ∨ m = 2 ∨ m = 3 ∨ m = 4 ∨ m = 5 ∨ m = 6 ∨ m = 7 ∨ m = 8 ∨ m = 9 ∨ m = 10 ∨ m = 11 ∨ m = 12) as Hm' by lia.
  destruct_or! Hm'; subst; simpl in Hd |- *;
    try (destruct (is_leap y)); split; try (Z.to_euclidean_division_equations; lia).
  destruct (decide (d = 29)) as [->|]; [right; split; [done|by apply Hl]|left; lia].
Qed.

Lemma doy_valid_day y' doy :
  year_days y' doy →
  let mp := (5 * doy + 2) / 153 in
  let m := if mp <? 10 then mp + 3 else mp - 9 in
  let y := if m <=? 2 then y' + 1 else y' in
  valid_day y m (doy - month_start mp + 1) ∧ march_year y m = y' ∧ march_month m = mp.
Proof.
  unfold year_days, valid_day. intros Hd. cbn zeta.
  assert (Hdoy : 0 ≤ doy ≤ 365) by lia. set (mp := (5 * doy + 2) / 153).
  assert (Hmp : 0 ≤ mp ≤ 11 ∧ 153 * mp ≤ 5 * doy + 2 < 153 * mp + 153) by (unfold mp; Z.to_euclidean_division_equations; lia).
  clearbody mp. destruct Hmp as [Hmp Hb]. rewrite month_start_values by done. unfold march_year, march_month.
  pose proof (is_leap_long (y' + 1)) as Hl. rewrite Z.add_simpl_r in Hl.
  assert (mp = 0 ∨ mp = 1 ∨ mp = 2 ∨ mp = 3 ∨ mp = 4 ∨ mp = 5 ∨ mp = 6 ∨ mp = 7 ∨ mp = 8 ∨ mp = 9 ∨ mp = 10 ∨ mp = 11) as Hm by lia.
  destruct_or! Hm; subst; simpl; rewrite days_in_month_eq by lia; simpl; try (split_and!; lia).
  destruct (is_leap (y' + 1)) eqn:E; [split_and!; lia|].
  assert (doy ≠ 365) by (intros ->; destruct Hd as [|[_ Hd]]; [lia|by apply Hl in Hd]). split_and!; lia.
Qed.

Lemma civil_roundtrip y m d : valid_day y m d → civil_from_days (days_from_civil y m d) = (y, m, d).
Proof.
  intros Hv. destruct (valid_day_doy y m d Hv) as [Hy Hmp]. rewrite days_from_civil_eq by apply Hv.
  set (doy := month_start (march_month m) + d - 1) in *. set (y' := march_year y m) in *.
  pose proof (Z.mod_pos_bound y' 400 ltac:(lia)) as Hb. destruct (year_of_start (y' mod 400) doy Hb Hy) as [Hr Hyo].
  rewrite civil_from_days_eq.
  assert (Em : (y' / 400 * 146097 + (year_start (y' mod 400) + doy)) mod 146097 = year_start (y' mod 400) + doy)
    by (rewrite Z.add_comm, Z.mod_add, Z.mod_small by lia; lia).
  assert (Ed : (y' / 400 * 146097 + (year_start (y' mod 400) + doy)) / 146097 = y' / 400)
    by (rewrite Z.add_comm, Z.div_add, Z.div_small by lia; lia).
  rewrite Em, Ed, Hyo. replace (year_start (y' mod 400) + doy - year_start (y' mod 400)) with doy by lia. rewrite Hmp.
  destruct Hv as [Hm _]. replace (y' mod 400 + y' / 400 * 400) with y' by (pose proof (Z.div_mod y' 400); lia).
  assert (E : (if march_month m <? 10 then march_month m + 3 else march_month m - 9) = m).
  { unfold march_month. destruct (Z.ltb_spec 2 m); [destruct (Z.ltb_spec (m - 3) 10)|destruct (Z.ltb_spec (m + 9) 10)]; lia. }
  rewrite E. f_equal; [f_equal|unfold doy; lia]. unfold y', march_year. destruct (m <=? 2); lia.
Qed.

Lemma days_roundtrip z : let '(y, m, d) := civil_from_days z in valid_day y m d ∧ days_from_civil y m d = z.
Proof.
  pose proof (civil_from_days_eq (z + 719468)) as E. rewrite Z.add_simpl_r in E. rewrite E. set (w := z + 719468).
  pose proof (Z.mod_pos_bound w 146097 ltac:(lia)) as Hb. destruct (year_start_of (w mod 146097) ltac:(lia)) as [Hy Hd].
  set (yoe := year_of (w mod 146097)) in *. set (doy := w mod 146097 - year_start yoe) in *. set (y' := yoe + w / 146097 * 400).
  assert (Ey : y' mod 400 = yoe ∧ y' / 400 = w / 146097).
  { unfold y'. rewrite Z.mod_add, Z.div_add, Z.mod_small, Z.div_small by lia. lia. }
  destruct (doy_valid_day y' doy) as (Hv & Hmy & Hmm); [unfold year_days; by rewrite (proj1 Ey)|].
  split; [done|]. rewrite days_from_civil_eq by apply Hv. rewrite Hmy, Hmm, (proj1 Ey), (proj2 Ey).
  unfold doy, w. pose proof (Z.div_mod w 146097 ltac:(lia)). fold w. lia.
Qed.

(** The day after a day. *)
Definition next_day (y m d : Z) : Z * Z * Z :=
  if d <? days_in_month y m then (y, m, d + 1) else if m <? 12 then (y, m + 1, 1) else (y + 1, 1, 1).

Lemma next_day_spec y m d :
  valid_day y m d → let '(y', m', d') := next_day y m d in valid_day y' m' d' ∧ days_from_civil y' m' d' = days_from_civil y m d + 1.
Proof.
  intros [Hm Hd]. unfold next_day. destruct (Z.ltb_spec d (days_in_month y m)) as [Hlt|Hge].
  { split; [split; lia|]. rewrite !days_from_civil_eq by done. lia. }
  assert (d = days_in_month y m) as -> by lia. clear Hd Hge. unfold valid_day.
  assert (H1 : ∀ y, days_in_month y 1 = 31) by (intros; by rewrite days_in_month_eq by lia).
  destruct (Z.ltb_spec m 12).
  - split; [rewrite days_in_month_eq by lia; repeat case_match; lia|]. rewrite !days_from_civil_eq, days_in_month_eq by lia.
    pose proof (is_leap_long y) as Hl. unfold march_year, march_month. rewrite !month_start_values by (repeat case_match; lia).
    assert (m = 1 ∨ m = 2 ∨ m = 3 ∨ m = 4 ∨ m = 5 ∨ m = 6 ∨ m = 7 ∨ m = 8 ∨ m = 9 ∨ m = 10 ∨ m = 11) as Hm' by lia.
    destruct_or! Hm'; subst; simpl; try lia. unfold long_year in Hl. unfold year_start.
    destruct (is_leap y); [destruct Hl as [Hl _]; specialize (Hl eq_refl)|destruct Hl as [_ Hl]];
      [|assert (¬ (((y - 1) mod 400) mod 4 = 3 ∧ (((y - 1) mod 400) mod 100 ≠ 99 ∨ (y - 1) mod 400 = 399))) by (intros Hx; by specialize (Hl Hx)); clear Hl];
      Z.to_euclidean_division_equations; lia.
  - assert (m = 12) as -> by lia. rewrite !days_in_month_eq by lia. simpl. split; [lia|].
    rewrite !days_from_civil_eq by lia. unfold march_year, march_month. rewrite !month_start_values by (simpl; lia). simpl.
    rewrite Z.add_simpl_r. lia.
Qed.

(** ** Seconds *)

(** A date of the years 0 to 9999 and a time of day. *)
Definition valid_time (t : DateTime) : Prop :=
  0 ≤ dt_hour t < 24 ∧ 0 ≤ dt_minute t < 60 ∧ 0 ≤ dt_second t < 60 ∧ 0 ≤ dt_micro t < 1000000.
Definition valid_datetime (t : DateTime) : Prop := valid_date t = true ∧ valid_time t.

Lemma valid_date_spec t : valid_date t = true ↔ 0 ≤ dt_year t ≤ 9999 ∧ valid_day (dt_year t) (dt_month t) (dt_day t).
Proof. unfold valid_date, valid_day. rewrite !andb_true_iff, !Z.leb_le. lia. Qed.

Definition epoch_micros (t : DateTime) : Z := epoch_seconds t * 1000000 + dt_micro t.

Lemma from_epoch_seconds_eq s micro :
  from_epoch_seconds s micro =
  let '(y, m, d) := civil_from_days (s / 86400) in
  let rest := s mod 86400 in
  mkDateTime y m d (rest / 3600) (rest mod 3600 / 60) (rest mod 60) micro true true.
Proof.
  unfold from_epoch_seconds. assert (E : (if 0 <=? s then Z.quot s 86400 else - Z.quot (- s + 86399) 86400) = s / 86400).
  { destruct (Z.leb_spec 0 s); Z.to_euclidean_division_equations; nia. }
  rewrite E. replace (s - s / 86400 * 86400) with (s mod 86400) by (pose proof (Z.div_mod s 86400); lia).
  pose proof (Z.mod_pos_bound s 86400 ltac:(lia)). destruct (civil_from_days (s / 86400)) as [[y m] d].
  rewrite !Z.rem_mod_nonneg by lia. rewrite !Z.quot_div_nonneg by (try lia; apply Z.mod_pos_bound; lia). done.
Qed.

(** The clock of a number of seconds is in range, and the number is read back from it. *)
Lemma from_epoch_seconds_spec s micro :
  0 ≤ micro < 1000000 →
  let t := from_epoch_seconds s micro in
  valid_time t ∧ valid_day (dt_year t) (dt_month t) (dt_day t) ∧ epoch_seconds t = s ∧ dt_micro t = micro.
Proof.
  intros Hm. cbn zeta. rewrite from_epoch_seconds_eq. pose proof (days_roundtrip (s / 86400)) as H.
  destruct (civil_from_days (s / 86400)) as [[y m] d]. destruct H as [Hv Hd]. unfold valid_time, epoch_seconds, epoch_days.
  cbn [dt_year dt_month dt_day dt_hour dt_minute dt_second dt_micro]. rewrite Hd. split_and!; try done; try apply Hv;
    clear Hv Hd; Z.to_euclidean_division_equations; lia.
Qed.

Lemma epoch_seconds_roundtrip t :
  valid_day (dt_year t) (dt_month t) (dt_day t) → valid_time t →
  from_epoch_seconds (epoch_seconds t) (dt_micro t) =
  mkDateTime (dt_year t) (dt_month t) (dt_day t) (dt_hour t) (dt_minute t) (dt_second t) (dt_micro t) true true.
Proof.
  intros Hv (Hh & Hmi & Hs & _). rewrite from_epoch_seconds_eq. unfold epoch_seconds.
  set (r := dt_hour t * 3600 + dt_minute t * 60 + dt_second t).
  replace (epoch_days t * 86400 + dt_hour t * 3600 + dt_minute t * 60 + dt_second t) with (r + epoch_days t * 86400) by (unfold r; lia).
  assert (0 ≤ r < 86400) by (unfold r; lia). rewrite Z.div_add, Z.mod_add, (Z.div_small r), (Z.mod_small r) by lia.
  unfold epoch_days. rewrite Z.add_0_l, civil_roundtrip by done. f_equal; unfold r; Z.to_euclidean_division_equations; lia.
Qed.

Lemma wrap_int64_small z : in_int64 z → wrap_int64 z = z.
Proof. intros H. unfold wrap_int64. rewrite Z.mod_small by widths. lia. Qed.

(** The days of the years 0 to 9999 are less than 4 million from 1970. *)
Lemma days_bound y m d : 0 ≤ y ≤ 9999 → valid_day y m d → -4000000 ≤ days_from_civil y m d ≤ 4000000.
Proof.
  intros Hy Hv. destruct (valid_day_doy y m d Hv) as [Hd _]. rewrite days_from_civil_eq by apply Hv.
  set (doy := month_start _ + d - 1) in *. unfold year_days, year_start, march_year in *.
  destruct (m <=? 2); Z.to_euclidean_division_equations; lia.
Qed.

(** ** Intervals *)

(** The millionths of a second of a unit of fixed length. *)
Definition unit_micros (unit : list Z) : option Z :=
  if is_unit unit "DAY" then Some (86400 * 1000000)
  else if is_unit unit "WEEK" then Some (7 * 86400 * 1000000)
  else if is_unit unit "HOUR" then Some (3600 * 1000000)
  else if is_unit unit "MINUTE" then Some (60 * 1000000)
  else if is_unit unit "SECOND" then Some 1000000
  else if is_unit unit "MICROSECOND" then Some 1
  else None.

(** The months of a unit of months. *)
Definition unit_months (unit : list Z) : option Z :=
  if is_unit unit "MONTH" then Some 1 else if is_unit unit "YEAR" then Some 12 else if is_unit unit "QUARTER" then Some 3 else None.

Lemma is_unit_eq unit name : is_unit unit name = true → unit = str name.
Proof. apply bool_decide_eq_true. Qed.

Lemma unit_micros_months unit u : unit_micros unit = Some u → is_unit unit "MONTH" = false ∧ is_unit unit "YEAR" = false ∧ is_unit unit "QUARTER" = false.
Proof.
  unfold unit_micros. intros H.
  repeat match type of H with (if ?b then _ else _) = _ => let E := fresh in destruct b eqn:E; [apply is_unit_eq in E as ->; by vm_compute|] end. done.
Qed.

Lemma unit_seconds_spec unit u amount :
  unit_micros unit = Some u → Z.abs (amount * u) ≤ 10 ^ 18 →
  ∃ s mi, unit_seconds unit amount = Some (s, mi) ∧ s * 1000000 + mi = amount * u ∧ -1000000 < mi < 1000000.
Proof.
  unfold unit_micros, unit_seconds. intros H Hb.
  repeat match type of H with (if ?b then _ else _) = _ => destruct b; [injection H as <-; do 2 eexists; split; [done|];
    rewrite ?wrap_int64_small by widths; Z.to_euclidean_division_equations; lia|] end.
  done.
Qed.

Lemma micro_carry tm :
  -1000000 < tm < 2000000 →
  (if 1000000 <=? tm then 1 else if tm <? 0 then -1 else 0) = tm / 1000000 ∧ Z.rem (Z.rem tm 1000000 + 1000000) 1000000 = tm mod 1000000.
Proof.
  intros H. split; [destruct (Z.leb_spec 1000000 tm), (Z.ltb_spec tm 0)|]; Z.to_euclidean_division_equations; lia.
Qed.

Lemma valid_datetime_bound t : valid_datetime t → Z.abs (epoch_seconds t) ≤ 400000000000.
Proof.
  intros [Hd (? & ? & ? & ?)]. apply valid_date_spec in Hd as [Hy Hv]. pose proof (days_bound _ _ _ Hy Hv).
  unfold epoch_seconds, epoch_days. lia.
Qed.

(** Two valid times of the same millionth are of the same year. *)
Lemma same_micros t t' :
  valid_datetime t' → valid_time t → valid_day (dt_year t) (dt_month t) (dt_day t) → epoch_micros t' = epoch_micros t → dt_year t' = dt_year t.
Proof.
  intros [Hd' Ht'] Ht Hv E. apply valid_date_spec in Hd' as [_ Hv']. unfold epoch_micros in E.
  assert (Es : epoch_seconds t' = epoch_seconds t ∧ dt_micro t' = dt_micro t).
  { destruct Ht as (_ & _ & _ & ?), Ht' as (_ & _ & _ & ?). lia. }
  pose proof (epoch_seconds_roundtrip t' Hv' Ht') as H'. pose proof (epoch_seconds_roundtrip t Hv Ht) as H.
  rewrite (proj1 Es), (proj2 Es), H in H'. by injection H'.
Qed.

(** A time that is dropped outside the years 0 to 9999, whatever its flags. *)
Lemma in_years out timed n :
  valid_time out → valid_day (dt_year out) (dt_month out) (dt_day out) → epoch_micros out = n →
  match
    (if (dt_year out <? 0) || (9999 <? dt_year out) then None
     else Some (mkDateTime (dt_year out) (dt_month out) (dt_day out) (dt_hour out) (dt_minute out) (dt_second out) (dt_micro out) true timed))
  with
  | Some t' => valid_datetime t' ∧ epoch_micros t' = n
  | None => ¬ ∃ t', valid_datetime t' ∧ epoch_micros t' = n
  end.
Proof.
  intros Ht Hd <-. destruct ((dt_year out <? 0) || (9999 <? dt_year out)) eqn:E.
  - intros (t' & Hv' & He'). apply (same_micros out t') in He' as Ey; [|done..].
    destruct Hv' as [Hv' _]. apply valid_date_spec in Hv' as [Hy _]. apply orb_true_iff in E. rewrite !Z.ltb_lt in E. lia.
  - apply orb_false_iff in E. rewrite !Z.ltb_ge in E. split; [|done]. split; [|done]. apply valid_date_spec. split; [simpl; lia|done].
Qed.

(** ** Texts *)

Lemma to_digits_length fuel n acc w :
  0 ≤ n < 10 ^ Z.of_nat w → (0 < w)%nat → (length (to_digits fuel n acc) ≤ w + length acc)%nat.
Proof.
  revert n acc w. induction fuel as [|fuel IH]; intros n acc w Hn Hw; cbn [to_digits]; [lia|].
  destruct (Z.ltb_spec n 10); [simpl; lia|]. destruct w as [|w]; [lia|]. rewrite pow10_succ in Hn.
  destruct w as [|w]; [simpl in Hn; lia|].
  specialize (IH (n / 10) ((48 + n mod 10) :: acc) (S w)). simpl length in IH.
  assert (0 ≤ n / 10 < 10 ^ Z.of_nat (S w)) by (split; [apply Z.div_pos; lia|apply Z.div_lt_upper_bound; lia]). specialize (IH H0). lia.
Qed.

Lemma zero_padded_spec w v :
  0 ≤ v < 10 ^ Z.of_nat w → (0 < w)%nat →
  Forall (λ c, is_digit c = true) (zero_padded w v) ∧ length (zero_padded w v) = w ∧ digits_value (zero_padded w v) = v.
Proof.
  intros Hv Hw. unfold zero_padded. rewrite (proj2 (Z.ltb_ge v 0)), Z.abs_eq by lia. simpl app.
  destruct (to_string_spec v ltac:(lia)) as (_ & Hd & Hval). pose proof (to_digits_length (S (Z.to_nat (Z.log2 v))) v [] w Hv Hw) as Hl.
  fold (to_string v) in Hl. rewrite length_app, length_replicate, replicate_zeros_value. simpl length in *.
  split_and!; [apply Forall_app; split; [apply Forall_zeros|done]|lia|done].
Qed.

Lemma digits_at_exact min_n max_n ds s :
  Forall (λ c, is_digit c = true) ds → length ds = max_n → (min_n ≤ max_n)%nat → digits_at min_n max_n (ds ++ s) = Some (digits_value ds, s).
Proof.
  intros Hd <- Hl. unfold digits_at. rewrite take_app_length. pose proof (take_digits_all ds [] Hd I) as E. rewrite app_nil_r in E.
  rewrite E, drop_app_length. by rewrite (proj2 (Nat.ltb_ge _ _)) by lia.
Qed.

Lemma digits_at_padded min_n w v s :
  0 ≤ v < 10 ^ Z.of_nat w → (0 < w)%nat → (min_n ≤ w)%nat → digits_at min_n w (zero_padded w v ++ s) = Some (v, s).
Proof.
  intros Hv Hw Hm. destruct (zero_padded_spec w v Hv Hw) as (Hd & Hl & Hval). by rewrite digits_at_exact, Hval.
Qed.

Lemma read_fraction_padded v t :
  0 ≤ v < 1000000 →
  read_fraction (zero_padded 6 v) t =
  mkDateTime (dt_year t) (dt_month t) (dt_day t) (dt_hour t) (dt_minute t) (dt_second t) v (has_date t) (has_time t).
Proof.
  intros Hv. destruct (zero_padded_spec 6 v Hv ltac:(lia)) as (Hd & Hl & Hval). unfold read_fraction.
  rewrite (take_ge (zero_padded 6 v)) by lia. pose proof (take_digits_all (zero_padded 6 v) [] Hd I) as E. rewrite app_nil_r in E.
  rewrite E, drop_ge, resize_all_alt by lia. cbn [rounds_up]. by rewrite Hval.
Qed.

(** The clock as [time_str] writes it. *)
Lemma read_clock_padded h mi se micro t :
  0 ≤ h < 24 → 0 ≤ mi < 60 → 0 ≤ se < 60 → 0 ≤ micro < 1000000 → dt_micro t = 0 →
  let clock := zero_padded 2 h ++ 58 :: zero_padded 2 mi ++ 58 :: zero_padded 2 se in
  read_clock (if micro =? 0 then clock else clock ++ c_dot :: zero_padded 6 micro) t =
  mkDateTime (dt_year t) (dt_month t) (dt_day t) h mi se micro (has_date t) true.
Proof.
  intros Hh Hm Hs Hmi Ht. cbn zeta. unfold read_clock.
  replace (if micro =? 0 then _ else _) with
    (zero_padded 2 h ++ 58 :: zero_padded 2 mi ++ 58 :: zero_padded 2 se ++ (if micro =? 0 then [] else c_dot :: zero_padded 6 micro)).
  2: { destruct (micro =? 0); rewrite ?app_nil_r; [done|]. by rewrite <- !app_assoc; simpl; rewrite <- !app_assoc. }
  rewrite digits_at_padded by lia. cbn [mbind option_bind after]. change (58 =? 58) with true. cbv iota. cbn [mbind option_bind].
  rewrite digits_at_padded by lia. cbn [mbind option_bind after]. change (58 =? 58) with true. cbv iota. rewrite digits_at_padded by lia.
  destruct (Z.eqb_spec micro 0) as [->|]; [by rewrite Ht|]. cbn [after]. change (c_dot =? c_dot) with true. cbv iota.
  by rewrite read_fraction_padded.
Qed.

Lemma datetime_str_eq t :
  valid_datetime t →
  datetime_str t = zero_padded 4 (dt_year t) ++ c_minus :: zero_padded 2 (dt_month t) ++ c_minus :: zero_padded 2 (dt_day t) ++ 32 ::
    (let clock := zero_padded 2 (dt_hour t) ++ 58 :: zero_padded 2 (dt_minute t) ++ 58 :: zero_padded 2 (dt_second t) in
     if dt_micro t =? 0 then clock else clock ++ c_dot :: zero_padded 6 (dt_micro t)).
Proof.
  intros [Hd (Hh & Hmi & Hs & Hu)]. apply valid_date_spec in Hd as [Hy [Hm Hday]].
  assert (1 ≤ dt_day t ≤ 31) by (rewrite days_in_month_eq in Hday by done; repeat case_match; lia).
  destruct (zero_padded_spec 4 (dt_year t) ltac:(simpl; lia) ltac:(lia)) as (_ & Ly & _).
  destruct (zero_padded_spec 2 (dt_month t) ltac:(simpl; lia) ltac:(lia)) as (_ & Lm & _).
  destruct (zero_padded_spec 2 (dt_day t) ltac:(simpl; lia) ltac:(lia)) as (_ & Ld & _).
  destruct (zero_padded_spec 2 (dt_hour t) ltac:(simpl; lia) ltac:(lia)) as (_ & Lh & _).
  destruct (zero_padded_spec 2 (dt_minute t) ltac:(simpl; lia) ltac:(lia)) as (_ & Lmi & _).
  destruct (zero_padded_spec 2 (dt_second t) ltac:(simpl; lia) ltac:(lia)) as (_ & Ls & _).
  destruct (zero_padded_spec 6 (dt_micro t) ltac:(simpl; lia) ltac:(lia)) as (_ & Lu & _).
  unfold datetime_str, date_str, time_str. cbn zeta.
  rewrite (take_ge (_ ++ c_minus :: _)) by (rewrite length_app; cbn [length]; rewrite length_app; cbn [length]; lia).
  rewrite take_ge; [by rewrite <- !app_assoc; simpl; rewrite <- !app_assoc|].
  destruct (dt_micro t =? 0); rewrite ?length_app; cbn [length]; rewrite ?length_app; cbn [length]; rewrite ?length_app; cbn [length]; lia.
Qed.

Lemma parse_datetime_str t :
  valid_datetime t →
  parse_datetime (datetime_str t) =
  Some (mkDateTime (dt_year t) (dt_month t) (dt_day t) (dt_hour t) (dt_minute t) (dt_second t) (dt_micro t) true true).
Proof.
  intros Hv. rewrite datetime_str_eq by done. destruct Hv as [Hd (Hh & Hmi & Hs & Hu)]. apply valid_date_spec in Hd as [Hy [Hm Hday]].
  assert (1 ≤ dt_day t ≤ 31) by (rewrite days_in_month_eq in Hday by done; repeat case_match; lia).
  destruct (zero_padded_spec 4 (dt_year t) ltac:(simpl; lia) ltac:(lia)) as (Dy & Ly & Vy).
  set (rest := c_minus :: _). unfold parse_datetime.
  assert (Hs4 : ∃ a b c d, zero_padded 4 (dt_year t) = [a; b; c; d]).
  { destruct (zero_padded 4 (dt_year t)) as [|a [|b [|c [|d [|]]]]]; try done. by exists a, b, c, d. }
  destruct Hs4 as (a & b & c & d & E4).
  assert (Hskip : skip_blanks (zero_padded 4 (dt_year t) ++ rest) = zero_padded 4 (dt_year t) ++ rest).
  { rewrite E4 in *. simpl. apply Forall_inv in Dy. by destruct (digit_no_sign a Dy) as (_ & -> & _). }
  rewrite Hskip. rewrite bool_decide_eq_false_2 by (by rewrite E4).
  assert (Hall : forallb is_digit (take 14 (zero_padded 4 (dt_year t) ++ rest)) = false).
  { rewrite E4. unfold rest. cbn [app take forallb]. change (is_digit c_minus) with false. by rewrite !andb_false_r. }
  rewrite Hall. cbn [andb]. rewrite digits_at_padded by (simpl; lia). cbn [mbind option_bind].
  assert (Hshort : short_year (zero_padded 4 (dt_year t) ++ rest) = false).
  { unfold short_year. apply bool_decide_eq_false_2. rewrite E4 in *. simpl. intros Hin.
    assert (Hx : is_digit c_minus = true) by (apply (proj1 (Forall_forall _ _) Dy); revert Hin; rewrite !elem_of_cons; tauto). done. }
  rewrite Hshort, !andb_false_r. unfold rest. change ((c_minus =? c_minus) || (c_minus =? 47)) with true. cbn [mbind option_bind].
  rewrite digits_at_padded by (simpl; lia). cbn [mbind option_bind after]. change (c_minus =? c_minus) with true. cbn [mbind option_bind].
  rewrite digits_at_padded by (simpl; lia). cbn [mbind option_bind]. change ((32 =? 32) || (32 =? 84)) with true. cbv iota.
  f_equal. by rewrite read_clock_padded.
Qed.

(** ** Properties *)

(** The day numbers are the calendar's: 1970-01-01 is day 0 and the next day of the calendar has the next
    number, every day of every year has one number, and every number is that of one valid day. *)
Theorem civil_calendar :
  days_from_civil 1970 1 1 = 0 ∧
  (∀ y m d, valid_day y m d →
     civil_from_days (days_from_civil y m d) = (y, m, d) ∧
     let '(y', m', d') := next_day y m d in valid_day y' m' d' ∧ days_from_civil y' m' d' = days_from_civil y m d + 1) ∧
  (∀ z, let '(y, m, d) := civil_from_days z in valid_day y m d ∧ days_from_civil y m d = z).
Proof.
  split; [done|split; [|apply days_roundtrip]]. intros y m d H. split; [by apply civil_roundtrip|by apply next_day_spec].
Qed.

(** A date and time is read back from the text it is shown as. *)
Theorem datetime_text_roundtrip t :
  valid_datetime t →
  parse_datetime (datetime_str t) =
  Some (mkDateTime (dt_year t) (dt_month t) (dt_day t) (dt_hour t) (dt_minute t) (dt_second t) (dt_micro t) true true).
Proof. apply parse_datetime_str. Qed.

(** An interval of a unit of fixed length, from weeks to millionths of a second and of either sign, is
    added exactly: the result is the valid date and time that many millionths away, and there is none
    exactly when that is outside the years 0 to 9999. *)
Theorem add_interval_exact t unit u amount :
  valid_datetime t → unit_micros unit = Some u → Z.abs (amount * u) ≤ 10 ^ 18 →
  match add_interval t unit amount with
  | Some t' => valid_datetime t' ∧ epoch_micros t' = epoch_micros t + amount * u
  | None => ¬ ∃ t', valid_datetime t' ∧ epoch_micros t' = epoch_micros t + amount * u
  end.
Proof.
  intros Hv Hu Hb. destruct (unit_micros_months unit u Hu) as (E1 & E2 & E3). unfold add_interval. rewrite E1, E2, E3.
  destruct (unit_seconds_spec unit u amount Hu Hb) as (s & mi & -> & Hs & Hmi). cbn [mbind option_bind].
  pose proof (valid_datetime_bound t Hv) as Hbt. destruct (Hv) as [_ (_ & _ & _ & Hm)].
  destruct (micro_carry (dt_micro t + mi) ltac:(lia)) as [-> ->]. set (tm := dt_micro t + mi) in *.
  assert (Hc : -1 ≤ tm / 1000000 ≤ 1) by (Z.to_euclidean_division_equations; lia).
  rewrite (wrap_int64_small (s + tm / 1000000)) by widths. rewrite (wrap_int64_small (epoch_seconds t + _)) by widths.
  pose proof (Z.mod_pos_bound tm 1000000 ltac:(lia)) as Hmod.
  destruct (from_epoch_seconds_spec (epoch_seconds t + (s + tm / 1000000)) (tm mod 1000000) Hmod) as (Ht & Hd & Hes & Hem).
  generalize dependent (from_epoch_seconds (epoch_seconds t + (s + tm / 1000000)) (tm mod 1000000)). intros out Ht Hd Hes Hem.
  cbn zeta. cbn [dt_year]. apply in_years; [done|done|]. unfold epoch_micros. rewrite Hes, Hem.
  pose proof (Z.div_mod tm 1000000 ltac:(lia)). unfold tm in *. lia.
Qed.

(** Months, quarters and years are added on the calendar: the result is the day of the same number in
    the month that many months away, or that month's last day when it is shorter, at the same time of day;
    there is none exactly when the month is outside the years 0 to 9999. *)
Theorem add_months_exact t unit k amount :
  valid_datetime t → unit_months unit = Some k → Z.abs (amount * k) ≤ 10 ^ 18 →
  let total := dt_year t * 12 + (dt_month t - 1) + amount * k in
  match add_interval t unit amount with
  | Some t' => valid_datetime t' ∧ dt_year t' * 12 + (dt_month t' - 1) = total ∧
               dt_day t' = Z.min (dt_day t) (days_in_month (dt_year t') (dt_month t')) ∧
               (dt_hour t', dt_minute t', dt_second t', dt_micro t') = (dt_hour t, dt_minute t, dt_second t, dt_micro t)
  | None => ¬ 0 ≤ total < 120000
  end.
Proof.
  intros Hv Hk Hb. cbn zeta. set (total := _ + amount * k). pose proof Hv as [Hd Ht]. apply valid_date_spec in Hd as [Hy [Hm Hday]].
  assert (E : add_interval t unit amount = add_months t (amount * k)).
  { unfold add_interval. revert Hk. unfold unit_months. destruct (is_unit unit "MONTH"); [intros [= <-]; by rewrite Z.mul_1_r|].
    destruct (is_unit unit "YEAR"); [intros [= <-]; by rewrite wrap_int64_small by widths|].
    destruct (is_unit unit "QUARTER"); [intros [= <-]; by rewrite wrap_int64_small by widths|done]. }
  rewrite E. unfold add_months. rewrite wrap_int64_small by widths. fold total.
  destruct (Z.ltb_spec total 0) as [|H0]; [lia|]. rewrite Z.quot_div_nonneg, Z.rem_mod_nonneg by lia.
  pose proof (Z.div_mod total 12 ltac:(lia)). pose proof (Z.mod_pos_bound total 12 ltac:(lia)).
  destruct (Z.ltb_spec 9999 (total / 12)) as [Hbig|Hle]; [lia|]. cbn [dt_year dt_month dt_day dt_hour dt_minute dt_second dt_micro].
  assert (Hdim : 28 ≤ days_in_month (total / 12) (total mod 12 + 1)) by (rewrite days_in_month_eq by lia; repeat case_match; lia).
  split_and!; [|lia|done|done]. split; [|done]. apply valid_date_spec. unfold valid_day. cbn [dt_year dt_month dt_day].
  assert (0 ≤ total / 12) by (apply Z.div_pos; lia). lia.
Qed.

(** 2024-02-29 23:59:59.000001 *)
Definition demo_datetime : DateTime := mkDateTime 2024 2 29 23 59 59 1 true true.

Lemma demo_datetime_valid : valid_datetime demo_datetime.
Proof. split; [done|]. by repeat split. Qed.

Lemma civil_calendar_witness :
  civil_from_days (days_from_civil 2023 12 31) = (2023, 12, 31) ∧
  let '(y', m', d') := next_day 2023 12 31 in valid_day y' m' d' ∧ days_from_civil y' m' d' = days_from_civil 2023 12 31 + 1.
Proof. apply (proj1 (proj2 civil_calendar) 2023 12 31). split; [by split|]. split; by vm_compute. Defined.

Lemma datetime_text_roundtrip_witness :
  parse_datetime (datetime_str demo_datetime) = Some demo_datetime.
Proof. apply (datetime_text_roundtrip demo_datetime). apply demo_datetime_valid. Defined.

Lemma add_interval_exact_witness :
  match add_interval demo_datetime (str "MICROSECOND") 999999 with
  | Some t' => valid_datetime t' ∧ epoch_micros t' = epoch_micros demo_datetime + 999999 * 1
  | None => ¬ ∃ t', valid_datetime t' ∧ epoch_micros t' = epoch_micros demo_datetime + 999999 * 1
  end.
Proof. apply (add_interval_exact demo_datetime (str "MICROSECOND") 1); [apply demo_datetime_valid|done|by vm_compute]. Defined.

Lemma add_months_exact_witness :
  let total := 2024 * 12 + (2 - 1) + -1 * 12 in
  match add_interval demo_datetime (str "YEAR") (-1) with
  | Some t' => valid_datetime t' ∧ dt_year t' * 12 + (dt_month t' - 1) = total ∧
               dt_day t' = Z.min 29 (days_in_month (dt_year t') (dt_month t')) ∧
               (dt_hour t', dt_minute t', dt_second t', dt_micro t') = (23, 59, 59, 1)
  | None => ¬ 0 ≤ total < 120000
  end.
Proof. apply (add_months_exact demo_datetime (str "YEAR") 12); [apply demo_datetime_valid|done|by vm_compute]. Defined.

(** The text ['1 12:00:00'], a day and a time, is no time. *)
Example day_and_time : parse_time_seconds (str "1 12:00:00") = None.
Proof. by vm_compute. Qed.
