(* ===== verification/Split.v ===== *)
(** * Where statements end (include/engine/statement_split.hpp)

    [scan] walks over an input and gives what follows every ';' that ends a statement: the code's offset of
    such a ';' is the length of the input less that of what follows, less one. Positions are suffixes of
    the input here. The server's loop over the lines of a connection ([server/src/main.cpp]) is [feed]. *)
From S2P Require Import Prelude Numerals.

#[local] Open Scope Z_scope.

(** ** Characters and words (C locale) *)

Definition is_alpha (c : Z) : bool := ((65 <=? c) && (c <=? 90)) || ((97 <=? c) && (c <=? 122)).
Definition word_start (c : Z) : bool := is_alpha c || (c =? 95).
Definition word_char (c : Z) : bool := is_alpha c || is_digit c || (c =? 95).
Definition upper_case (s : list Z) : list Z := (λ c, if (97 <=? c) && (c <=? 122) then c - 32 else c) <$> s.

(** The word characters a text starts with, and what follows them. *)
Fixpoint take_word (s : list Z) : list Z :=
  match s with c :: t => if word_char c then c :: take_word t else [] | [] => [] end.
Fixpoint drop_word (s : list Z) : list Z :=
  match s with c :: t => if word_char c then drop_word t else s | [] => [] end.

Definition word_at (s : list Z) : list Z :=
  match s with c :: _ => if word_start c then upper_case (take_word s) else [] | [] => [] end.

Definition one_of (word : list Z) (words : list string) : bool := existsb (λ w, bool_decide (word = str w)) words.

(** ** Blanks and comments *)

(** From a line comment to the end of its line; behind the end of a block comment. *)
Fixpoint skip_line (s : list Z) : list Z :=
  match s with c :: t => if c =? 10 then s else skip_line t | [] => [] end.
Fixpoint skip_block (s : list Z) : list Z :=
  match s with
  | c :: t => match t with d :: u => if (c =? 42) && (d =? 47) then u else skip_block t | [] => [] end
  | [] => []
  end.

Definition next_is (d : Z) (s : list Z) : bool := match s with c :: _ => c =? d | [] => false end.
Definition line_comment (s : list Z) : bool :=
  match s with c :: t => (c =? 35) || ((c =? 45) && next_is 45 t) | [] => false end.
Definition block_comment (s : list Z) : bool :=
  match s with c :: t => (c =? 47) && next_is 42 t | [] => false end.

(** Every round takes a character at least: the length of the text is fuel enough. *)
Fixpoint skip_blank_loop (fuel : nat) (s : list Z) : list Z :=
  match fuel with
  | O => s
  | S fuel =>
      match s with
      | [] => []
      | c :: t =>
          if is_space c then skip_blank_loop fuel t
          else if line_comment s then skip_blank_loop fuel (skip_line s)
          else if block_comment s then skip_blank_loop fuel (skip_block (drop 2 s))
          else s
      end
  end.

Definition skip_blank (s : list Z) : list Z := skip_blank_loop (length s) s.

(** Behind the quote that closes a string, with its backslashes, and a quoted name. *)
Fixpoint skip_string (s : list Z) : list Z :=
  match s with
  | c :: t =>
      if (c =? 92) && negb (bool_decide (t = [])) then match t with _ :: u => skip_string u | [] => [] end
      else if c =? 39 then t else skip_string t
  | [] => []
  end.
Fixpoint skip_quoted (q : Z) (s : list Z) : list Z :=
  match s with c :: t => if c =? q then t else skip_quoted q t | [] => [] end.

(** ** Names *)

Definition name_before : list Z := str ",(.=<>!+-*/%".
Definition name_after : list Z := str ",).=<>!+-*/%".
Definition words_before_name : list string :=
  ["SELECT"; "DISTINCT"; "BY"; "WHERE"; "AND"; "OR"; "NOT"; "SET"; "ON"; "HAVING"; "WHEN"; "AS"; "BETWEEN"; "IN"; "LIKE"; "IS"]%string.
Definition words_after_name : list string :=
  ["FROM"; "AS"; "ASC"; "DESC"; "IS"; "IN"; "BETWEEN"; "LIKE"; "AND"; "OR"; "NOT"; "THEN"; "INT"; "INTEGER"; "BIGINT"; "SMALLINT";
   "TINYINT"; "MEDIUMINT"; "VARCHAR"; "CHAR"; "TEXT"; "DATE"; "DATETIME"; "TIMESTAMP"; "TIME"; "YEAR"; "DECIMAL"; "NUMERIC";
   "FLOAT"; "DOUBLE"; "REAL"; "BOOLEAN"; "BOOL"; "ENUM"; "JSON"; "BLOB"]%string.

(** [prev] is 0 at the start of the input; [after] is the text behind the word. *)
Definition used_as_name (prev : Z) (prev_word after : list Z) (look_ahead : bool) : bool :=
  if bool_decide (prev_word = []) && negb (prev =? 0) && bool_decide (prev ∈ name_before) then true
  else if one_of prev_word words_before_name then true
  else if negb look_ahead then false
  else
    match skip_blank after with
    | [] => false
    | c :: t => if negb (c =? 0) && bool_decide (c ∈ name_after) then true else one_of (word_at (c :: t)) words_after_name
    end.

(** ** The walk *)

Record ScanState := mkScan {
  begin_depth : nat;
  case_depth : nat;
  prev : Z;
  prev_word : list Z
}.

Definition scan_start : ScanState := mkScan 0 0 0 [].

(** After a word; [after] is the text behind it. *)
Definition scan_word (word after : list Z) (last : Z) (st : ScanState) : ScanState :=
  let '(b, k) := (begin_depth st, case_depth st) in
  let '(b, k) :=
    if bool_decide (word = str "BEGIN") then
      if used_as_name (prev st) (prev_word st) after true then (b, k)
      else
        let j := skip_blank after in
        let transaction := match j with [] => true | c :: _ => (c =? 59) || bool_decide (word_at j = str "WORK") end in
        if transaction then (b, k) else (S b, k)
    else if bool_decide (word = str "CASE") then (if bool_decide (prev_word st = str "END") then (b, k) else (b, S k))
    else if bool_decide (word = str "END") then
      if bool_decide (prev_word st = str "THEN") || bool_decide (prev_word st = str "ELSE") ||
         used_as_name (prev st) (prev_word st) after (k =? 0)%nat
      then (b, k)
      else
        let next := word_at (skip_blank after) in
        if bool_decide (next = str "CASE") then (b, pred k)
        else if one_of next ["IF"; "WHILE"; "LOOP"; "REPEAT"]%string then (b, k)
        else if (0 <? k)%nat then (b, pred k)
        else (pred b, k)
    else (b, k) in
  mkScan b k last word.

(** What follows every ';' that ends a statement, in order. Every round takes a character at least. *)
Fixpoint scan (fuel : nat) (s : list Z) (st : ScanState) : list (list Z) :=
  match fuel with
  | O => []
  | S fuel =>
      match s with
      | [] => []
      | c :: t =>
          if is_space c then scan fuel t st
          else if line_comment s || block_comment s then scan fuel (skip_blank s) st
          else if c =? 39 then scan fuel (skip_string t) (mkScan (begin_depth st) (case_depth st) 39 [])
          else if (c =? 34) || (c =? 96) then scan fuel (skip_quoted c t) (mkScan (begin_depth st) (case_depth st) c [])
          else if word_start c then
            let word := upper_case (take_word s) in
            let after := drop_word s in
            scan fuel after (scan_word word after (List.last (take_word s) 0) st)
          else if (c =? 59) && (begin_depth st =? 0)%nat then t :: scan fuel t (mkScan (begin_depth st) 0 c [])
          else scan fuel t (mkScan (begin_depth st) (case_depth st) c [])
      end
  end.

Definition statement_ends (s : list Z) : list (list Z) := scan (length s) s scan_start.

(** The offset of the first ';' that ends a statement. *)
Definition find_statement_end (input : list Z) : option nat :=
  match statement_ends input with [] => None | t :: _ => Some (length input - length t - 1)%nat end.

Definition count_statement_ends (input : list Z) : nat := length (statement_ends input).

(** ** The server's loop *)

(** The statements that are complete in the buffer, and what stays in it. *)
Fixpoint extract (fuel : nat) (buf : list Z) : list (list Z) * list Z :=
  match fuel with
  | O => ([], buf)
  | S fuel =>
      match find_statement_end buf with
      | None => ([], buf)
      | Some pos => let '(qs, rest) := extract fuel (drop (pos + 1) buf) in (take pos buf :: qs, rest)
      end
  end.

(** Every statement takes a character at least out of the buffer. *)
Definition extract_all (buf : list Z) : list (list Z) * list Z := extract (length buf) buf.

(** The lines as they come: each is added to the buffer, then the complete statements are taken out. *)
Definition feed_line (st : list (list Z) * list Z) (line : list Z) : list (list Z) * list Z :=
  let '(qs, rest) := extract_all (st.2 ++ line ++ [10]) in (st.1 ++ qs, rest).

Definition feed (lines : list (list Z)) : list (list Z) * list Z := foldl feed_line ([], []) lines.

(** ** Lengths and fuel *)

Lemma skip_line_length s : (length (skip_line s) ≤ length s)%nat.
Proof. induction s as [|c s IH]; simpl; [done|]. destruct (c =? 10); simpl; lia. Qed.

Lemma skip_block_cons c d s : skip_block (c :: d :: s) = if (c =? 42) && (d =? 47) then s else skip_block (d :: s).
Proof. done. Qed.

Lemma skip_block_length s : (length (skip_block s) ≤ length s)%nat.
Proof.
  induction s as [|c s IH]; [done|]. destruct s as [|d s]; [simpl; lia|]. rewrite skip_block_cons.
  destruct (_ && _); [simpl; lia|]. cbn [length] in *. lia.
Qed.

Lemma line_comment_length s : line_comment s = true → (length (skip_line s) < length s)%nat.
Proof.
  destruct s as [|c s]; [done|]. simpl. intros H. destruct (Z.eqb_spec c 10) as [->|]; [done|]. pose proof (skip_line_length s). lia.
Qed.

Lemma block_comment_length s : block_comment s = true → (length (skip_block (drop 2 s)) < length s)%nat.
Proof.
  destruct s as [|c s]; [done|]. intros _. pose proof (skip_block_length (drop 2 (c :: s))) as H. rewrite length_drop in H. simpl in *. lia.
Qed.

Lemma skip_blank_fuel n m s : (length s ≤ n)%nat → (length s ≤ m)%nat → skip_blank_loop n s = skip_blank_loop m s.
Proof.
  revert m s. induction n as [|n IH]; intros m s Hn Hm.
  - destruct s; [by destruct m|simpl in Hn; lia].
  - destruct m as [|m]; [destruct s; [done|simpl in Hm; lia]|]. cbn [skip_blank_loop]. destruct s as [|c s]; [done|]. cbn [length] in *.
    destruct (is_space c); [apply IH; lia|]. destruct (line_comment (c :: s)) eqn:El.
    { apply line_comment_length in El. cbn [length] in El. apply IH; lia. }
    destruct (block_comment (c :: s)) eqn:Eb; [|done]. apply block_comment_length in Eb. cbn [length] in Eb. apply IH; lia.
Qed.

(** One round of [skip_blank]. *)
Lemma skip_blank_step s :
  skip_blank s =
  match s with
  | [] => []
  | c :: t => if is_space c then skip_blank t else if line_comment s then skip_blank (skip_line s)
              else if block_comment s then skip_blank (skip_block (drop 2 s)) else s
  end.
Proof.
  unfold skip_blank at 1. destruct s as [|c t]; [done|]. cbn [length skip_blank_loop].
  destruct (is_space c); [done|]. destruct (line_comment (c :: t)) eqn:El.
  { apply skip_blank_fuel; [|done]. apply line_comment_length in El. cbn [length] in *. lia. }
  destruct (block_comment (c :: t)) eqn:Eb; [|done]. apply skip_blank_fuel; [|done]. apply block_comment_length in Eb. cbn [length] in *. lia.
Qed.

(** Induction on the length of a text. *)
Lemma length_ind {A} (P : list A → Prop) : (∀ s, (∀ t, (length t < length s)%nat → P t) → P s) → ∀ s, P s.
Proof. intros H s. induction (well_founded_ltof _ (@length A) s) as [s _ IH]. apply H, IH. Qed.

Lemma skip_blank_length s : (length (skip_blank s) ≤ length s)%nat.
Proof.
  induction s as [s IH] using length_ind. rewrite skip_blank_step. destruct s as [|c t]; [done|].
  destruct (is_space c); [specialize (IH t ltac:(simpl; lia)); simpl; lia|].
  destruct (line_comment (c :: t)) eqn:El; [apply line_comment_length in El; specialize (IH _ El); lia|].
  destruct (block_comment (c :: t)) eqn:Eb; [apply block_comment_length in Eb; specialize (IH _ Eb); lia|done].
Qed.

Lemma comment_length s :
  line_comment s || block_comment s = true → (length (skip_blank s) < length s)%nat.
Proof.
  intros H. rewrite skip_blank_step. destruct s as [|c t]; [done|]. destruct (is_space c).
  { pose proof (skip_blank_length t). simpl. lia. }
  destruct (line_comment (c :: t)) eqn:El; [apply line_comment_length in El; pose proof (skip_blank_length (skip_line (c :: t))); lia|].
  rewrite orb_false_l in H. rewrite H. apply block_comment_length in H. pose proof (skip_blank_length (skip_block (drop 2 (c :: t)))). lia.
Qed.

Lemma skip_string_length s : (length (skip_string s) ≤ length s)%nat.
Proof.
  induction s as [s IH] using length_ind. destruct s as [|c t]; [done|]. cbn [skip_string].
  destruct ((c =? 92) && _); [destruct t as [|d u]; [simpl; lia|]; specialize (IH u ltac:(simpl; lia)); simpl; lia|].
  destruct (c =? 39); [simpl; lia|]. specialize (IH t ltac:(simpl; lia)). simpl. lia.
Qed.

Lemma skip_quoted_length q s : (length (skip_quoted q s) ≤ length s)%nat.
Proof. induction s as [|c s IH]; simpl; [done|]. destruct (c =? q); lia. Qed.

Lemma drop_word_length s : (length (drop_word s) ≤ length s)%nat.
Proof. induction s as [|c s IH]; simpl; [done|]. destruct (word_char c); simpl; lia. Qed.

Lemma word_start_char c : word_start c = true → word_char c = true.
Proof. unfold word_start, word_char. rewrite !orb_true_iff. tauto. Qed.

Lemma word_length c t : word_start c = true → (length (drop_word (c :: t)) < length (c :: t))%nat.
Proof. intros H%word_start_char. simpl. rewrite H. pose proof (drop_word_length t). lia. Qed.

(** The ends from a state; one step of the walk. *)
Definition ends (s : list Z) (st : ScanState) : list (list Z) := scan (length s) s st.

Lemma scan_fuel n m s st : (length s ≤ n)%nat → (length s ≤ m)%nat → scan n s st = scan m s st.
Proof.
  revert m s st. induction n as [|n IH]; intros m s st Hn Hm.
  - destruct s; [by destruct m|simpl in Hn; lia].
  - destruct m as [|m]; [destruct s; [done|simpl in Hm; lia]|]. cbn [scan]. destruct s as [|c t]; [done|].
    pose proof (skip_string_length t). pose proof (skip_quoted_length c t). cbn [length] in Hn, Hm.
    destruct (is_space c); [apply IH; lia|]. destruct (line_comment (c :: t) || block_comment (c :: t)) eqn:Ec.
    { apply comment_length in Ec. cbn [length] in Ec. apply IH; lia. }
    destruct (c =? 39); [apply IH; lia|]. destruct ((c =? 34) || (c =? 96)); [apply IH; lia|].
    destruct (word_start c) eqn:Ew; [apply (word_length c t) in Ew; cbn [length] in Ew; apply IH; lia|].
    destruct ((c =? 59) && _); [f_equal|]; apply IH; lia.
Qed.

Lemma ends_step c t st :
  ends (c :: t) st =
  if is_space c then ends t st
  else if line_comment (c :: t) || block_comment (c :: t) then ends (skip_blank (c :: t)) st
  else if c =? 39 then ends (skip_string t) (mkScan (begin_depth st) (case_depth st) 39 [])
  else if (c =? 34) || (c =? 96) then ends (skip_quoted c t) (mkScan (begin_depth st) (case_depth st) c [])
  else if word_start c then
    ends (drop_word (c :: t)) (scan_word (upper_case (take_word (c :: t))) (drop_word (c :: t)) (List.last (take_word (c :: t)) 0) st)
  else if (c =? 59) && (begin_depth st =? 0)%nat then t :: ends t (mkScan (begin_depth st) 0 c [])
  else ends t (mkScan (begin_depth st) (case_depth st) c []).
Proof.
  unfold ends at 1. cbn [length scan]. pose proof (skip_string_length t). pose proof (skip_quoted_length c t).
  destruct (is_space c); [done|]. destruct (line_comment (c :: t) || block_comment (c :: t)) eqn:Ec.
  { apply comment_length in Ec. cbn [length] in Ec. apply scan_fuel; lia. }
  destruct (c =? 39); [apply scan_fuel; lia|]. destruct ((c =? 34) || (c =? 96)); [apply scan_fuel; lia|].
  destruct (word_start c) eqn:Ew; [apply (word_length c t) in Ew; cbn [length] in Ew; apply scan_fuel; lia|].
  done.
Qed.

(** ** An input that goes on *)

Section app.
Context (b : list Z).

Lemma skip_line_app s : skip_line s ≠ [] → skip_line (s ++ b) = skip_line s ++ b.
Proof. induction s as [|c s IH]; simpl; [done|]. destruct (c =? 10); auto. Qed.

Lemma skip_block_app s : skip_block s ≠ [] → skip_block (s ++ b) = skip_block s ++ b.
Proof.
  induction s as [|c s IH]; [done|]. destruct s as [|d s]; [done|]. cbn [app]. rewrite !skip_block_cons.
  destruct (_ && _); [done|]. exact IH.
Qed.

Lemma skip_string_app s : skip_string s ≠ [] → skip_string (s ++ b) = skip_string s ++ b.
Proof.
  induction s as [s IH] using length_ind. destruct s as [|c t]; [done|]. cbn [skip_string app].
  destruct t as [|d u].
  - rewrite bool_decide_eq_true_2 by done. rewrite andb_false_r. by destruct (c =? 39).
  - rewrite !bool_decide_eq_false_2 by done. rewrite !andb_true_r. destruct (c =? 92); cbn [app].
    + apply IH. simpl. lia.
    + destruct (c =? 39); [done|]. apply (IH (d :: u)). simpl. lia.
Qed.

Lemma skip_quoted_app q s : skip_quoted q s ≠ [] → skip_quoted q (s ++ b) = skip_quoted q s ++ b.
Proof. induction s as [|c s IH]; simpl; [done|]. destruct (c =? q); auto. Qed.

Lemma drop_word_app s : drop_word s ≠ [] → drop_word (s ++ b) = drop_word s ++ b ∧ take_word (s ++ b) = take_word s.
Proof.
  induction s as [|c s IH]; simpl; [done|]. destruct (word_char c); [|done]. intros H. destruct (IH H) as [-> ->]. done.
Qed.

(** A text that more input cannot turn into a comment. *)
Definition solid (s : list Z) : Prop := match s with [] => False | [c] => c = 59 | _ => True end.

Lemma skip_blank_app s : solid (skip_blank s) → skip_blank (s ++ b) = skip_blank s ++ b.
Proof.
  induction s as [s IH] using length_ind. rewrite (skip_blank_step s), (skip_blank_step (s ++ b)). destruct s as [|c t]; [done|].
  cbn [app]. destruct (is_space c) eqn:Es; [apply IH; simpl; lia|]. destruct t as [|d u].
  { unfold line_comment at 1, block_comment at 1. simpl next_is. rewrite !andb_false_r, orb_false_r.
    destruct (Z.eqb_spec c 35) as [->|]; [intros H; by cbv in H|]. intros H. cbn in H. subst c. done. }
  change (line_comment (c :: (d :: u) ++ b)) with (line_comment (c :: d :: u)).
  change (block_comment (c :: (d :: u) ++ b)) with (block_comment (c :: d :: u)).
  change (c :: (d :: u) ++ b) with ((c :: d :: u) ++ b).
  assert (Hnil : ∀ v, solid (skip_blank v) → v ≠ []) by (intros v Hv ->; done).
  destruct (line_comment (c :: d :: u)) eqn:El.
  { intros H. rewrite skip_line_app by (by apply Hnil). apply IH; [by apply line_comment_length|done]. }
  destruct (block_comment (c :: d :: u)) eqn:Eb; [|done]. intros H.
  change (drop 2 ((c :: d :: u) ++ b)) with (drop 2 (c :: d :: u) ++ b). rewrite skip_block_app by (by apply Hnil).
  apply IH; [by apply block_comment_length|done].
Qed.

Lemma ends_nil st : ends [] st = [].
Proof. done. Qed.

(** An input with an end left is solid. *)
Lemma ends_solid s st : ends s st ≠ [] → solid s.
Proof.
  destruct s as [|c [|d u]]; [intros H; by destruct H| |done]. rewrite ends_step.
  assert (Hnil : ∀ v st', v = [] → ends v st' ≠ [] → solid [c]) by (intros v st' -> H; by destruct H).
  destruct (is_space c); [by apply Hnil|]. destruct (line_comment [c] || block_comment [c]) eqn:Ec.
  { apply Hnil. apply comment_length in Ec. apply nil_length_inv. cbn [length] in Ec. lia. }
  destruct (c =? 39); [by apply Hnil|]. destruct ((c =? 34) || (c =? 96)); [by apply Hnil|]. destruct (word_start c) eqn:Ew.
  { apply Hnil. apply word_length with (t := []) in Ew. apply nil_length_inv. cbn [length] in Ew. lia. }
  destruct (Z.eqb_spec c 59); [done|]. by apply Hnil.
Qed.

(** Blanks and comments in front change nothing. *)
Lemma ends_skip_blank s st : ends (skip_blank s) st = ends s st.
Proof.
  induction s as [s IH] using length_ind. destruct s as [|c t]; [done|]. destruct (is_space c) eqn:Es.
  { rewrite skip_blank_step, ends_step, Es. apply IH. simpl. lia. }
  destruct (line_comment (c :: t) || block_comment (c :: t)) eqn:Ec; [by rewrite (ends_step c t st), Es, Ec|].
  apply orb_false_iff in Ec as [E1 E2]. by rewrite skip_blank_step, Es, E1, E2.
Qed.

(** What [scan_word] looks at behind the word stays the same when the input goes on. *)
Lemma scan_word_app word after last st st' :
  ends after st' ≠ [] → scan_word word (after ++ b) last st = scan_word word after last st.
Proof.
  intros He. rewrite <- ends_skip_blank in He. pose proof (ends_solid _ _ He) as Hs. pose proof (skip_blank_app after Hs) as Ea.
  assert (Hw : word_at (skip_blank after ++ b) = word_at (skip_blank after)).
  { destruct (skip_blank after) as [|c t] eqn:Ev; [done|]. unfold word_at. cbn [app]. destruct (word_start c) eqn:Ew; [|done].
    assert (drop_word (c :: t) ≠ []) as Hd.
    { intros Hd. apply He. rewrite ends_step. pose proof (word_start_char c Ew) as Hwc.
      assert (is_space c = false ∧ line_comment (c :: t) || block_comment (c :: t) = false ∧ (c =? 39) = false ∧ (c =? 34) || (c =? 96) = false) as (E1 & E2 & E3 & E4).
      { revert Ew. unfold word_start, is_alpha, is_space, line_comment, block_comment. intros. bool_cases.
        rewrite !orb_true_iff, !andb_true_iff, !Z.leb_le, Z.eqb_eq in Ew. rewrite !orb_false_iff, !andb_false_iff, !Z.eqb_neq, !Z.leb_gt. lia. }
      rewrite E1, E2, E3, E4, Ew, Hd. apply ends_nil. }
    change (c :: t ++ b) with ((c :: t) ++ b). by destruct (drop_word_app (c :: t) Hd) as [_ ->]. }
  assert (Hu : ∀ look, used_as_name (prev st) (prev_word st) (after ++ b) look = used_as_name (prev st) (prev_word st) after look).
  { intros look. unfold used_as_name. rewrite Ea. destruct (skip_blank after) as [|c t]; [done|]. cbn [app] in *. by rewrite Hw. }
  unfold scan_word. rewrite !Hu, Ea, Hw. by destruct (skip_blank after).
Qed.

(** The first end is found again when the input goes on. *)
Lemma first_end_app s st t l : ends s st = t :: l → ∃ l', ends (s ++ b) st = (t ++ b) :: l'.
Proof.
  revert st t l. induction s as [s IH] using length_ind. intros st t l He.
  assert (Hne : ∀ v st', ends v st' = t :: l → v ≠ []) by (intros v st' H ->; done).
  assert (Hs : solid s) by (apply (ends_solid s st); by rewrite He).
  destruct s as [|c u]; [done|]. cbn [app]. rewrite ends_step in He |- *.
  destruct (is_space c) eqn:Es; [eapply IH; [simpl; lia|done]|].
  assert (Ec : line_comment (c :: u ++ b) || block_comment (c :: u ++ b) = line_comment (c :: u) || block_comment (c :: u)).
  { destruct u as [|d u]; [|done]. simpl in Hs. by subst. }
  rewrite Ec. destruct (line_comment (c :: u) || block_comment (c :: u)) eqn:Ec'.
  { change (c :: u ++ b) with ((c :: u) ++ b). rewrite skip_blank_app by (apply (ends_solid _ st); by rewrite He).
    eapply IH; [by apply comment_length|done]. }
  pose proof (skip_string_length u). pose proof (skip_quoted_length c u).
  destruct (c =? 39); [rewrite skip_string_app by (by eapply Hne); eapply IH; [simpl; lia|done]|].
  destruct ((c =? 34) || (c =? 96)); [rewrite skip_quoted_app by (by eapply Hne); eapply IH; [simpl; lia|done]|].
  destruct (word_start c) eqn:Ew.
  { change (c :: u ++ b) with ((c :: u) ++ b). destruct (drop_word_app (c :: u)) as [-> ->]; [by eapply Hne|].
    erewrite scan_word_app by (by rewrite He). eapply IH; [by apply word_length|done]. }
  destruct ((c =? 59) && (begin_depth st =? 0)%nat); [|eapply IH; [simpl; lia|done]].
  injection He as <- _. by eexists.
Qed.
End app.

(** ** Statement by statement *)

(** A statement starts as the input does. *)
Lemma scan_word_restart word after last n :
  scan_word word after last (mkScan 0 n 59 []) = scan_word word after last (mkScan 0 n 0 []).
Proof. done. Qed.

Lemma ends_restart s n : ends s (mkScan 0 n 59 []) = ends s (mkScan 0 n 0 []).
Proof.
  induction s as [s IH] using length_ind. destruct s as [|c t]; [done|]. rewrite !ends_step. cbn [begin_depth case_depth].
  destruct (is_space c); [apply IH; simpl; lia|]. destruct (_ || block_comment _) eqn:Ec; [apply IH; by apply comment_length|].
  done.
Qed.

(** What the walk skips to is the end of what it skips. *)
Create HintDb suffixes.
#[export] Hint Resolve suffix_cons_r suffix_nil : suffixes.

Lemma skip_line_suffix s : skip_line s `suffix_of` s.
Proof. induction s as [|c s IH]; simpl; [done|]. destruct (c =? 10); auto with suffixes. Qed.

Lemma skip_block_suffix s : skip_block s `suffix_of` s.
Proof.
  induction s as [|c s IH]; [done|]. destruct s as [|d s]; [auto with suffixes|]. rewrite skip_block_cons.
  destruct (_ && _); auto with suffixes.
Qed.

Lemma skip_string_suffix s : skip_string s `suffix_of` s.
Proof.
  induction s as [s IH] using length_ind. destruct s as [|c t]; [done|]. cbn [skip_string].
  assert (IHt : skip_string t `suffix_of` t) by (apply IH; simpl; lia).
  destruct ((c =? 92) && _); [|destruct (c =? 39); auto with suffixes]. destruct t as [|d u]; [auto with suffixes|].
  assert (skip_string u `suffix_of` u) by (apply IH; simpl; lia). auto with suffixes.
Qed.

Lemma skip_quoted_suffix q s : skip_quoted q s `suffix_of` s.
Proof. induction s as [|c s IH]; simpl; [done|]. destruct (c =? q); auto with suffixes. Qed.

Lemma drop_word_suffix s : drop_word s `suffix_of` s.
Proof. induction s as [|c s IH]; simpl; [done|]. destruct (word_char c); auto with suffixes. Qed.

Lemma skip_blank_suffix s : skip_blank s `suffix_of` s.
Proof.
  induction s as [s IH] using length_ind. rewrite skip_blank_step. destruct s as [|c t]; [done|].
  destruct (is_space c); [apply suffix_cons_r, IH; simpl; lia|]. destruct (line_comment (c :: t)) eqn:El.
  { etransitivity; [by apply IH, line_comment_length|apply skip_line_suffix]. }
  destruct (block_comment (c :: t)) eqn:Eb; [|done]. etransitivity; [by apply IH, block_comment_length|].
  etransitivity; [apply skip_block_suffix|]. exists (take 2 (c :: t)). by rewrite take_drop.
Qed.

(** The first end: a ';', behind which the walk starts afresh. *)
Lemma ends_cons s st t l : ends s st = t :: l → l = ends t scan_start ∧ (59 :: t) `suffix_of` s.
Proof.
  revert st. induction s as [s IH] using length_ind. intros st. destruct s as [|c u]; [done|]. rewrite ends_step.
  assert (Hsub : ∀ v st', (length v < length (c :: u))%nat → v `suffix_of` (c :: u) → ends v st' = t :: l →
    l = ends t scan_start ∧ (59 :: t) `suffix_of` (c :: u)).
  { intros v st' Hl Hv He. destruct (IH v Hl st' He) as [? Hs]. split; [done|by etransitivity]. }
  pose proof (skip_string_length u). pose proof (skip_quoted_length c u).
  destruct (is_space c); [apply Hsub; [simpl; lia|auto with suffixes]|].
  destruct (line_comment (c :: u) || block_comment (c :: u)) eqn:Ec.
  { apply Hsub; [by apply comment_length|apply skip_blank_suffix]. }
  destruct (c =? 39); [apply Hsub; [simpl; lia|apply suffix_cons_r, skip_string_suffix]|].
  destruct ((c =? 34) || (c =? 96)); [apply Hsub; [simpl; lia|apply suffix_cons_r, skip_quoted_suffix]|].
  destruct (word_start c) eqn:Ew; [apply Hsub; [by apply word_length|apply drop_word_suffix]|].
  destruct ((c =? 59) && (begin_depth st =? 0)%nat) eqn:Eend; [|apply Hsub; [simpl; lia|auto with suffixes]].
  apply andb_true_iff in Eend as [->%Z.eqb_eq ->%Nat.eqb_eq]. intros [= <- <-]. split; [apply ends_restart|done].
Qed.

Lemma find_statement_end_None s : find_statement_end s = None ↔ statement_ends s = [].
Proof. unfold find_statement_end. by destruct (statement_ends s). Qed.

(** The first statement, its ';' and the rest. *)
Lemma find_statement_end_Some s p :
  find_statement_end s = Some p →
  ∃ t, s = take p s ++ 59 :: t ∧ drop (p + 1) s = t ∧ statement_ends s = t :: statement_ends t.
Proof.
  unfold find_statement_end. destruct (statement_ends s) as [|t l] eqn:E; [done|]. intros [= <-].
  apply ends_cons in E as E'. destruct E' as [-> [q Hq]].
  assert (Hp : (length s - length t - 1)%nat = length q) by (rewrite Hq, length_app; simpl; lia). rewrite Hp, Hq.
  exists t. rewrite take_app_length, drop_app_add. by rewrite <- Hq.
Qed.

Lemma find_statement_end_app s b p : find_statement_end s = Some p → find_statement_end (s ++ b) = Some p.
Proof.
  unfold find_statement_end. destruct (statement_ends s) as [|t l] eqn:E; [done|]. intros [= <-].
  destruct (first_end_app b s scan_start t l E) as [l' E']. change (ends (s ++ b) scan_start) with (statement_ends (s ++ b)) in E'.
  rewrite E'. f_equal. rewrite !length_app. lia.
Qed.

Lemma extract_fuel n m s : (length s ≤ n)%nat → (length s ≤ m)%nat → extract n s = extract m s.
Proof.
  assert (Hend : find_statement_end [] = None) by done.
  revert m s. induction n as [|n IH]; intros m s Hn Hm; (destruct m as [|m]; [|]); cbn [extract]; try done.
  - destruct s; [by rewrite Hend|simpl in Hn; lia].
  - destruct s; [by rewrite Hend|simpl in Hm; lia].
  - destruct (find_statement_end s) as [p|] eqn:E; [|done]. apply find_statement_end_Some in E as (t & Hs & -> & _).
    assert (length t < length s)%nat by (rewrite Hs, length_app; simpl; lia). by rewrite (IH m t) by lia.
Qed.

Lemma extract_all_step s :
  extract_all s =
  match find_statement_end s with
  | None => ([], s)
  | Some p => let '(qs, rest) := extract_all (drop (p + 1) s) in (take p s :: qs, rest)
  end.
Proof.
  unfold extract_all at 1. destruct (find_statement_end s) as [p|] eqn:E; [|destruct s; [done|simpl; by rewrite E]].
  pose proof E as E'. apply find_statement_end_Some in E as (t & Hs & Ht & _).
  assert (length t < length s)%nat by (rewrite Hs, length_app; simpl; lia).
  destruct s as [|c s]; [done|]. cbn [length extract]. rewrite E', Ht. unfold extract_all. by rewrite (extract_fuel (length s) (length t)) by (simpl in *; lia).
Qed.

(** What was extracted is the input, and there are as many statements as ends. *)
Lemma extract_all_spec s :
  s = concat ((λ q, q ++ [59]) <$> (extract_all s).1) ++ (extract_all s).2 ∧ length (extract_all s).1 = count_statement_ends s.
Proof.
  induction s as [s IH] using length_ind. rewrite extract_all_step. unfold count_statement_ends.
  destruct (find_statement_end s) as [p|] eqn:E; [|by apply find_statement_end_None in E as ->].
  apply find_statement_end_Some in E as (t & Hs & -> & ->). destruct (IH t) as [Ht Hl]; [rewrite Hs, length_app; simpl; lia|].
  destruct (extract_all t) as [qs rest]. cbn [fst snd fmap list_fmap concat length] in *. split; [|by rewrite Hl].
  rewrite Hs at 1. rewrite <- !app_assoc, <- Ht. done.
Qed.

(** More input changes nothing of what was extracted; it is extracted from the rest with it. *)
Lemma extract_all_app a b :
  extract_all (a ++ b) =
  let '(qs, rest) := extract_all a in let '(qs', rest') := extract_all (rest ++ b) in (qs ++ qs', rest').
Proof.
  induction a as [a IH] using length_ind. rewrite (extract_all_step a). destruct (find_statement_end a) as [p|] eqn:E.
  - rewrite extract_all_step, (find_statement_end_app a b p E). pose proof E as E'. apply find_statement_end_Some in E' as (t & Ha & Ht & _).
    assert (p < length a)%nat by (apply (f_equal length) in Ha; rewrite length_app, length_take in Ha; simpl in Ha; lia).
    rewrite take_app_le, drop_app_le, Ht by lia. rewrite IH by (rewrite Ha, length_app; simpl; lia).
    destruct (extract_all t) as [qs rest]. by destruct (extract_all (rest ++ b)).
  - by destruct (extract_all (a ++ b)).
Qed.

(** ** Properties *)

(** The input of a connection: its lines, each with its end. *)
Definition script (lines : list (list Z)) : list Z := concat ((λ l, l ++ [10]) <$> lines).

