(* ===== verification/QueryCache.v ===== *)
(** * The query result cache (src/engine/query_cache.cpp)

    The results of SELECTs by their text, each with the generations of its tables at the time it was
    worked out. A write to a table raises the table's generation. The mutex makes every call one step. *)
From S2P Require Import Prelude.

#[local] Open Scope Z_scope.

Record CacheEntry := mkEntry {
  result : list Z;
  table_gens : list (list Z * Z)
}.

Record QueryResultCache := mkCache {
  capacity : nat;
  entries : gmap (list Z) CacheEntry;
  table_to_keys : gmap (list Z) (gset (list Z));
  insert_order : gmap (list Z) Z;
  generations : gmap (list Z) Z;
  tick : Z
}.

Definition empty_cache (capacity : nat) : QueryResultCache := mkCache capacity ∅ ∅ ∅ ∅ 0.

Definition QUERY_CACHE_DEFAULT_CAPACITY : nat := 512.

(** QueryResultCache::table_generation *)
Definition table_generation (table : list Z) (c : QueryResultCache) : Z := default 0 (generations c !! table).

(** An entry and every trace of its key taken out. *)
Definition drop_key (key : list Z) (c : QueryResultCache) : QueryResultCache :=
  mkCache (capacity c) (delete key (entries c)) ((λ keys, keys ∖ {[key]}) <$> table_to_keys c) (delete key (insert_order c))
    (generations c) (tick c).

Definition cache_get (key : list Z) (c : QueryResultCache) : option (list Z) * QueryResultCache :=
  match entries c !! key with
  | None => (None, c)
  | Some e =>
      if forallb (λ g, table_generation g.1 c =? g.2) (table_gens e) then (Some (result e), c) else (None, drop_key key c)
  end.

(** The first of the entries with the smallest tick. *)
Definition oldest (order : list (list Z * Z)) : option (list Z * Z) :=
  foldl (λ best e, match best with Some b => if e.2 <? b.2 then Some e else best | None => Some e end) None order.

Definition evict_oldest (c : QueryResultCache) : QueryResultCache :=
  match oldest (map_to_list (insert_order c)) with Some (key, _) => drop_key key c | None => c end.

Definition add_key (key : list Z) (m : gmap (list Z) (gset (list Z))) (table : list Z) : gmap (list Z) (gset (list Z)) :=
  <[table := {[key]} ∪ default ∅ (m !! table)]> m.

Definition cache_put (key result : list Z) (table_gens : list (list Z * Z)) (c : QueryResultCache) : QueryResultCache :=
  if decide (is_Some (entries c !! key)) then c
  else
    let c := if (capacity c <=? size (entries c))%nat then evict_oldest c else c in
    let tick := wrap64 (tick c + 1) in
    mkCache (capacity c) (<[key := mkEntry result table_gens]> (entries c)) (foldl (add_key key) (table_to_keys c) (table_gens.*1))
      (<[key := tick]> (insert_order c)) (generations c) tick.

Definition invalidate_table (table : list Z) (c : QueryResultCache) : QueryResultCache :=
  let generations := <[table := wrap64 (table_generation table c + 1)]> (generations c) in
  match table_to_keys c !! table with
  | None => mkCache (capacity c) (entries c) (table_to_keys c) (insert_order c) generations (tick c)
  | Some keys =>
      mkCache (capacity c) (filter (λ e, e.1 ∉ keys) (entries c)) (delete table (table_to_keys c))
        (filter (λ e, e.1 ∉ keys) (insert_order c)) generations (tick c)
  end.

Definition cache_clear (c : QueryResultCache) : QueryResultCache := mkCache (capacity c) ∅ ∅ ∅ (generations c) 0.

Definition cache_len (c : QueryResultCache) : nat := size (entries c).

(** ** Runs *)

Inductive cache_op :=
  | Get (key : list Z)
  | Put (key result : list Z) (table_gens : list (list Z * Z))
  | Invalidate (table : list Z)
  | Clear.

Definition cache_step (c : QueryResultCache) (o : cache_op) : QueryResultCache :=
  match o with
  | Get key => (cache_get key c).2
  | Put key result gens => cache_put key result gens c
  | Invalidate table => invalidate_table table c
  | Clear => cache_clear c
  end.

Definition cache_run (capacity : nat) (ops : list cache_op) : QueryResultCache := foldl cache_step (empty_cache capacity) ops.

(** How often a table has been written to. *)
Definition is_write (table : list Z) (o : cache_op) : Prop := match o with Invalidate t => t = table | _ => False end.

#[export] Instance is_write_dec table o : Decision (is_write table o).
Proof. destruct o; simpl; apply _. Defined.

Definition writes (table : list Z) (ops : list cache_op) : nat := length (filter (is_write table) ops).

(** ** The invariant *)

Lemma generations_drop_key key c : generations (drop_key key c) = generations c.
Proof. done. Qed.

Lemma generations_get key c : generations (cache_get key c).2 = generations c.
Proof. unfold cache_get. destruct (entries c !! key) as [e|]; [|done]. by destruct (forallb _ _). Qed.

Lemma generations_evict c : generations (evict_oldest c) = generations c.
Proof. unfold evict_oldest. by destruct (oldest _) as [[key t]|]. Qed.

Lemma generations_put key r gens c : generations (cache_put key r gens c) = generations c.
Proof. unfold cache_put. case_decide; [done|]. cbn [generations]. case_match; [apply generations_evict|done]. Qed.

Lemma generations_invalidate table c : generations (invalidate_table table c) = <[table := wrap64 (table_generation table c + 1)]> (generations c).
Proof. unfold invalidate_table. by destruct (table_to_keys c !! table). Qed.

Lemma writes_snoc table ops o :
  writes table (ops ++ [o]) = (writes table ops + (match o with Invalidate t => if decide (t = table) then 1 else 0 | _ => 0 end))%nat.
Proof.
  unfold writes. rewrite filter_app, length_app. f_equal. destruct o; try done. case_decide as H.
  - by rewrite filter_cons_True.
  - by rewrite filter_cons_False.
Qed.

Lemma writes_le table ops : (writes table ops ≤ length ops)%nat.
Proof. apply length_filter. Qed.

Lemma run_snoc n ops o : cache_run n (ops ++ [o]) = cache_step (cache_run n ops) o.
Proof. unfold cache_run. by rewrite foldl_app. Qed.

(** A table's generation counts the writes to it. *)
Lemma table_generation_writes n ops table :
  Z.of_nat (length ops) < 2 ^ 64 → table_generation table (cache_run n ops) = Z.of_nat (writes table ops).
Proof.
  induction ops as [|o ops IH] using rev_ind; [done|]. rewrite length_app. simpl length. intros Hl. specialize (IH ltac:(lia)).
  rewrite run_snoc, writes_snoc. pose proof (writes_le table ops). unfold table_generation in *.
  destruct o as [key|key r gens|t|]; cbn [cache_step]; rewrite ?generations_get, ?generations_put, ?generations_invalidate;
    try (rewrite IH; lia).
  - case_decide as E.
    + subst. rewrite lookup_insert_eq. unfold table_generation. simpl. rewrite IH, wrap64_small by widths. lia.
    + rewrite lookup_insert_ne by done. rewrite IH. lia.
  - cbn [cache_clear generations]. rewrite IH. lia.
Qed.

(** Every entry was put, and entries and their ticks go together. *)
Definition cache_inv (ops : list cache_op) (c : QueryResultCache) : Prop :=
  (∀ key e, entries c !! key = Some e → Put key (result e) (table_gens e) ∈ ops) ∧ dom (entries c) = dom (insert_order c).

Lemma inv_drop_key ops key c : cache_inv ops c → cache_inv ops (drop_key key c).
Proof.
  intros [He Hd]. split; cbn [drop_key entries insert_order].
  - intros k e [_ Hk]%lookup_delete_Some. by apply He.
  - rewrite !dom_delete_L. by rewrite Hd.
Qed.

Lemma inv_more ops o c : cache_inv ops c → cache_inv (ops ++ [o]) c.
Proof. intros [He Hd]. split; [|done]. intros k e Hk. apply elem_of_app. left. by apply He. Qed.

Lemma oldest_in order : match oldest order with Some e => e ∈ order | None => order = [] end.
Proof.
  unfold oldest. induction order as [|e order IH] using rev_ind; [done|]. rewrite foldl_snoc.
  destruct (foldl _ None order) as [b|].
  - destruct (e.2 <? b.2); apply elem_of_app; [right; by apply list_elem_of_singleton|by left].
  - rewrite IH. by apply list_elem_of_singleton.
Qed.

Lemma size_drop_key ops key c : cache_inv ops c → is_Some (insert_order c !! key) → S (size (entries (drop_key key c))) = size (entries c).
Proof.
  intros [_ Hd] Hk. cbn [drop_key entries]. assert (is_Some (entries c !! key)) as [e He].
  { apply elem_of_dom. rewrite Hd. by apply elem_of_dom. }
  rewrite map_size_delete_Some by done. assert (size (entries c) ≠ 0%nat); [|lia]. intros H0%map_size_empty_inv. by rewrite H0 in He.
Qed.

(** Evicting makes room, when there is anything to evict. *)
Lemma evict_spec ops c :
  cache_inv ops c → cache_inv ops (evict_oldest c) ∧ capacity (evict_oldest c) = capacity c ∧
  (size (entries (evict_oldest c)) = pred (size (entries c)))%nat.
Proof.
  intros Hi. unfold evict_oldest. pose proof (oldest_in (map_to_list (insert_order c))) as Ho.
  destruct (oldest _) as [[key t]|].
  - apply elem_of_map_to_list in Ho. split_and!; [by apply inv_drop_key|done|].
    pose proof (size_drop_key ops key c Hi ltac:(by exists t)). lia.
  - apply map_to_list_empty_iff in Ho. destruct Hi as [He Hd]. split_and!; [by split|done|].
    rewrite Ho, dom_empty_L in Hd. apply dom_empty_inv_L in Hd. by rewrite Hd, map_size_empty.
Qed.

Lemma inv_step ops c o : cache_inv ops c → cache_inv (ops ++ [o]) (cache_step c o).
Proof.
  intros Hi. destruct o as [key|key r gens|t|]; cbn [cache_step].
  - apply inv_more. unfold cache_get. destruct (entries c !! key) as [e|]; [|done]. destruct (forallb _ _); [done|by apply inv_drop_key].
  - unfold cache_put. case_decide; [by apply inv_more|]. set (c' := if (_ <=? _)%nat then _ else _).
    assert (Hi' : cache_inv ops c') by (unfold c'; case_match; [by apply evict_spec|done]). clearbody c'. apply (inv_more _ (Put key r gens)) in Hi' as [He Hd].
    split; cbn [entries insert_order].
    + intros k e [[<- <-]|[_ Hk]]%lookup_insert_Some; [apply elem_of_app; right; by apply list_elem_of_singleton|by apply He].
    + rewrite !dom_insert_L. by rewrite Hd.
  - apply inv_more. unfold invalidate_table. destruct (table_to_keys c !! t) as [keys|]; [|done]. destruct Hi as [He Hd].
    split; cbn [entries insert_order].
    + intros k e [Hk _]%map_lookup_filter_Some. by apply He.
    + apply set_eq. intros k. rewrite !elem_of_dom.
      assert (Hk : is_Some (entries c !! k) ↔ is_Some (insert_order c !! k)) by (rewrite <- !elem_of_dom; by rewrite Hd).
      split; intros [x [Hx Hin]%map_lookup_filter_Some].
      * assert (is_Some (insert_order c !! k)) as [y Hy] by (apply Hk; by exists x). exists y. by apply map_lookup_filter_Some.
      * assert (is_Some (entries c !! k)) as [y Hy] by (apply Hk; by exists x). exists y. by apply map_lookup_filter_Some.
  - split; cbn [cache_clear entries insert_order]; [intros k e Hk; by rewrite lookup_empty in Hk|by rewrite !dom_empty_L].
Qed.

Lemma run_inv n ops : cache_inv ops (cache_run n ops).
Proof.
  induction ops as [|o ops IH] using rev_ind.
  { change (cache_inv [] (empty_cache n)). split; cbn [empty_cache entries insert_order]; [intros k e Hk; by rewrite lookup_empty in Hk|by rewrite !dom_empty_L]. }
 
  rewrite run_snoc. by apply inv_step.
Qed.

Lemma run_bound n ops : capacity (cache_run n ops) = n ∧ (cache_len (cache_run n ops) ≤ Nat.max n 1)%nat.
Proof.
  induction ops as [|o ops [IHc IHl]] using rev_ind; [split; [done|]; unfold cache_len; simpl; rewrite map_size_empty; lia|].
  rewrite run_snoc. pose proof (run_inv n ops) as Hi. set (c := cache_run n ops) in *. unfold cache_len in *.
  destruct o as [key|key r gens|t|]; cbn [cache_step].
  - unfold cache_get. destruct (entries c !! key) as [e|] eqn:E; [|done]. destruct (forallb _ _); [done|]. split; [done|].
    cbn [snd drop_key entries]. rewrite map_size_delete. rewrite E. lia.
  - unfold cache_put. case_decide as Hk; [done|]. destruct (Nat.leb_spec (capacity c) (size (entries c))) as [Hle|Hlt]; cbn [capacity entries].
    + destruct (evict_spec ops c Hi) as (_ & -> & Hs). split; [done|].
      pose proof (map_size_insert key (mkEntry r gens) (entries (evict_oldest c))) as Hsi. rewrite Hsi. case_match; unfold id; lia.
    + split; [done|]. rewrite map_size_insert. case_match; unfold id; lia.
  - unfold invalidate_table. destruct (table_to_keys c !! t) as [keys|]; [|done]. cbn [capacity entries]. split; [done|].
    pose proof (map_size_filter (λ e, e.1 ∉ keys) (entries c)). lia.
  - cbn [cache_clear capacity entries]. rewrite map_size_empty. split; [done|lia].
Qed.

(** ** Properties *)

(** C17: a hit is never stale. Whatever calls have been made, and in whatever order the sessions made them, a
    result that [get] gives was put under the same text with generations of its tables, and no table of
    them has been written to since it had that generation: the generation a result is put with, taken
    before the reading, is the number of the writes to the table there have been to this day. *)
Theorem cache_hit_fresh n ops key r :
  Z.of_nat (length ops) < 2 ^ 64 →
  (cache_get key (cache_run n ops)).1 = Some r →
  ∃ gens, Put key r gens ∈ ops ∧ ∀ table g, (table, g) ∈ gens → g = Z.of_nat (writes table ops).
Proof.
  intros Hl. unfold cache_get. destruct (run_inv n ops) as [He _]. destruct (entries (cache_run n ops) !! key) as [e|] eqn:E; [|done].
  destruct (forallb _ _) eqn:Ef; [|done]. intros [= <-]. exists (table_gens e). split; [by apply He|]. intros table g Hg.
  rewrite forallb_forall in Ef. specialize (Ef (table, g) ltac:(by apply list_elem_of_In)). apply Z.eqb_eq in Ef.
  cbn [fst snd] in Ef. by rewrite <- Ef, table_generation_writes.
Qed.

(** The cache never holds more than its capacity (one result, if that is zero): a put into a full one
    takes the oldest out first, and there always is an oldest to take. *)
Theorem cache_bounded n ops : (cache_len (cache_run n ops) ≤ Nat.max n 1)%nat.
Proof. apply run_bound. Qed.

(** A reader that took the generation before a write, and puts its result after it. *)
Definition late_put : list cache_op :=
  [Put (str "q1") (str "r1") [(str "t", 0); (str "u", 0)]; Invalidate (str "t"); Put (str "q1") (str "r0") [(str "t", 0)];
   Put (str "q2") (str "r2") [(str "t", 1)]].

Example late_put_misses :
  (cache_get (str "q1") (cache_run 2 late_put)).1 = None ∧ (cache_get (str "q2") (cache_run 2 late_put)).1 = Some (str "r2").
Proof. by vm_compute. Qed.

Lemma cache_hit_fresh_witness :
  ∃ gens, Put (str "q2") (str "r2") gens ∈ late_put ∧ ∀ table g, (table, g) ∈ gens → g = Z.of_nat (writes table late_put).
Proof. apply (cache_hit_fresh 2 late_put); by vm_compute. Defined.
