(* ===== verification/TableFile.v ===== *)
(** * Table files (src/storage/disk.cpp, page.cpp)

    A table's rows are saved as one file, data/<db>/<table>.rdb: a 32-byte header and the LZ4 block of the
    rows' texts, each behind its length. LZ4 and nlohmann::json are third-party code, parameters of the
    definitions. The directories of a database always exist. *)
From S2P Require Import Prelude Codec Files RowJson.

#[local] Open Scope Z_scope.

(** ** The page header (page.hpp, page.cpp) *)

Definition PAGE_SIZE : Z := 16384.
Definition MAGIC : Z := 0x52444200.
Definition VERSION : Z := 1.
Definition FLAG_COMPRESSED : Z := 1.

Record PageHeader := mkHeader {
  magic : Z;
  version : Z;
  flags : Z;
  row_count : Z;
  page_count : Z
}.

Definition to_bytes (h : PageHeader) : list Z :=
  push_le 4 (magic h) ++ push_le 2 (version h) ++ [flags h] ++ [0] ++ push_le 4 (row_count h) ++ push_le 4 (page_count h) ++
  replicate 16 0.

Definition from_bytes (bytes : list Z) : option PageHeader :=
  if decide (length bytes < 32)%nat then None
  else
    let magic := le_at 4 bytes 0 in
    if negb (magic =? MAGIC) then None
    else Some (mkHeader magic (le_at 2 bytes 4) (nth 6 bytes 0) (le_at 4 bytes 8) (le_at 4 bytes 12)).

Definition is_compressed (h : PageHeader) : bool := negb (Z.land (flags h) FLAG_COMPRESSED =? 0).

(** ** LZ4 *)

(** [static_cast<int>] of an unsigned integer. *)
Definition to_int (z : Z) : Z := let z := wrap32 z in if z <? 2 ^ 31 then z else z - 2 ^ 32.

(** The functions of lz4.h the code calls. [LZ4_compress_default] gives the bytes it wrote, none when it
    returns 0; [LZ4_decompress_safe] gives none for a negative result. *)
Class Lz4 := {
  LZ4_compressBound : Z → Z;
  LZ4_compress_default : list Z → Z → Z → list Z;
  LZ4_decompress_safe : list Z → Z → Z → option (list Z)
}.

Definition LZ4_MAX_INPUT_SIZE : Z := 0x7E000000.

(** What lz4.h promises: with the room of the bound the compression succeeds, and the block decompresses. *)
Class Lz4Laws `{Lz4} : Prop := {
  lz4_bounded src : Z.of_nat (length src) ≤ LZ4_MAX_INPUT_SIZE →
    Z.of_nat (length (LZ4_compress_default src (Z.of_nat (length src)) (LZ4_compressBound (Z.of_nat (length src))))) < 2 ^ 31;
  lz4_inverse src : Z.of_nat (length src) ≤ LZ4_MAX_INPUT_SIZE →
    let block := LZ4_compress_default src (Z.of_nat (length src)) (LZ4_compressBound (Z.of_nat (length src))) in
    LZ4_decompress_safe block (Z.of_nat (length block)) (Z.of_nat (length src)) = Some src
}.

Section disk.
Context `{Lz4}.
Context (nl_dump : list Z → result (list Z)) (nl_parse : list Z → result Row) (nl_parse_rows : list Z → result (list Row)).

Definition lz4_compress_prepend_size (raw : list Z) : list Z :=
  let size := Z.of_nat (length raw) in
  push_u32_le (wrap32 size) ++ LZ4_compress_default raw (to_int size) (LZ4_compressBound (to_int size)).

Definition lz4_decompress_size_prepended (data : list Z) : option (list Z) :=
  if decide (length data < 4)%nat then None
  else
    let orig_size := le_at 4 data 0 in
    if orig_size =? 0 then Some []
    else
      match LZ4_decompress_safe (drop 4 data) (to_int (Z.of_nat (length data - 4))) (to_int orig_size) with
      | Some out => if Z.of_nat (length out) =? orig_size then Some out else None
      | None => None
      end.

(** ** The bytes of a table *)

Fixpoint encode_rows (raw : list Z) (rows : list Row) : result (list Z) :=
  match rows with
  | [] => Ok raw
  | row :: rows =>
      match row_to_json nl_dump row with
      | Ok json => encode_rows (raw ++ push_u32_le (wrap32 (Z.of_nat (length json))) ++ json) rows
      | Err msg => Err msg
      end
  end.

Definition table_bytes (rows : list Row) : result (list Z) :=
  match encode_rows [] rows with
  | Err msg => Err msg
  | Ok raw =>
      let compressed := lz4_compress_prepend_size raw in
      let header := mkHeader MAGIC VERSION FLAG_COMPRESSED (wrap32 (Z.of_nat (length rows)))
        (wrap32 (Z.max ((Z.of_nat (length compressed) + PAGE_SIZE - 1) / PAGE_SIZE) 1)) in
      Ok (to_bytes header ++ compressed)
  end.

(** The loop of load_rdb over [row_count] rows; a row that does not parse is left out. *)
Fixpoint decode_rows (count : nat) (raw : list Z) (pos : nat) : list Row :=
  match count with
  | O => []
  | S count =>
      if decide (length raw < pos + 4)%nat then []
      else
        let len := Z.to_nat (le_at 4 raw pos) in
        let pos := (pos + 4)%nat in
        if decide (length raw < pos + len)%nat then []
        else
          let rest := decode_rows count raw (pos + len) in
          match row_from_json nl_parse (take len (drop pos raw)) with
          | Ok row => row :: rest
          | Err _ => rest
          end
  end.

Definition rdb_rows (buf : list Z) : list Row :=
  if decide (length buf < 32)%nat then []
  else
    match from_bytes (take 32 buf) with
    | None => []
    | Some header =>
        match (if is_compressed header then lz4_decompress_size_prepended (drop 32 buf) else Some (drop 32 buf)) with
        | None => []
        | Some raw => decode_rows (Z.to_nat (row_count header)) raw 0
        end
    end.

(** ** The directory *)

Context (data_dir : list Z).

Definition table_dir (db : list Z) : list Z := data_dir ++ str "/" ++ db.

(** The text before the first '.' and the text behind it. *)
Fixpoint find_dot (key : list Z) : option (list Z * list Z) :=
  match key with
  | [] => None
  | c :: key => if c =? c_dot then Some ([], key) else match find_dot key with Some (a, b) => Some (c :: a, b) | None => None end
  end.

Definition parse_key (key : list Z) : list Z * list Z := default (str "rusql", key) (find_dot key).

Definition rdb_path (key : list Z * list Z) : list Z := table_dir key.1 ++ str "/" ++ key.2 ++ str ".rdb".

Definition save_table_trace (table : list Z) (rows : list Row) (fault : io_fault) (fs : files) : list files * result unit :=
  match table_bytes rows with
  | Err msg => ([], Err msg)
  | Ok out => write_bytes_atomic_trace (rdb_path (parse_key table)) out fault fs
  end.

Definition save_table (table : list Z) (rows : list Row) (fault : io_fault) (fs : files) : files * result unit :=
  let '(trace, r) := save_table_trace table rows fault fs in (List.last trace fs, r).

Definition load_rdb (fs : files) (path : list Z) : list Row :=
  match fs !! path with None => [] | Some buf => rdb_rows buf end.

Definition flat_path (tbl suffix : list Z) : list Z := data_dir ++ str "/" ++ tbl ++ suffix.

Definition load_table (fs : files) (table : list Z) : list Row :=
  let '(db, tbl) := parse_key table in
  let rdb := rdb_path (db, tbl) in
  if decide (is_Some (fs !! rdb)) then load_rdb fs rdb
  else if decide (db = str "rusql") then
    let flat_rdb := flat_path tbl (str ".rdb") in
    let flat_json := flat_path tbl (str ".json") in
    if decide (is_Some (fs !! flat_rdb)) then load_rdb fs flat_rdb
    else match fs !! flat_json with
         | Some content => match rows_from_json nl_parse_rows content with Ok rows => rows | Err _ => [] end
         | None => []
         end
  else [].

Definition delete_table (table : list Z) (fs : files) : files :=
  let '(db, tbl) := parse_key table in
  let remove dir fs := foldl (λ fs suffix, delete (dir ++ str "/" ++ tbl ++ suffix) fs) fs [str ".rdb"; str ".json"; str ".schema.json"] in
  let fs := remove (table_dir db) fs in
  if decide (db = str "rusql") then remove data_dir fs else fs.

End disk.

#[global] Arguments to_bytes : simpl never.

(** ** The bytes read back *)

Lemma le_at_push n pre v post : le_at n (pre ++ push_le n v ++ post) (length pre) = v mod 2 ^ (8 * Z.of_nat n).
Proof.
  replace (length pre) with (length pre + 0)%nat by lia. rewrite le_at_shift, le_at_drop by (rewrite length_app, length_push_le; lia).
  rewrite drop_0, take_app_le, take_ge by (rewrite length_push_le; lia). apply le_value_push.
Qed.

Lemma length_to_bytes h : length (to_bytes h) = 32%nat.
Proof. unfold to_bytes. by rewrite !length_app, !length_push_le. Qed.

Definition header_valid (h : PageHeader) : Prop :=
  magic h = MAGIC ∧ 0 ≤ version h < 2 ^ 16 ∧ in_u32 (row_count h) ∧ in_u32 (page_count h).

Lemma header_back h : header_valid h → from_bytes (to_bytes h) = Some h.
Proof.
  intros (Hm & Hv & Hr & Hp). unfold from_bytes. rewrite length_to_bytes. rewrite decide_False by lia. unfold to_bytes.
  set (m := push_le 4 (magic h)). set (v := push_le 2 (version h)). set (r := push_le 4 (row_count h)). set (p := push_le 4 (page_count h)).
  assert (Em : le_at 4 (m ++ v ++ [flags h] ++ [0] ++ r ++ p ++ replicate 16 0) 0 = magic h).
  { pose proof (le_at_push 4 [] (magic h) (v ++ [flags h] ++ [0] ++ r ++ p ++ replicate 16 0)) as E. simpl in E. fold m in E. simpl. rewrite E.
    rewrite Hm. done. }
  rewrite Em, Hm, Z.eqb_refl. simpl negb. cbv iota.
  pose proof (le_at_push 2 m (version h) ([flags h] ++ [0] ++ r ++ p ++ replicate 16 0)) as Ev. fold v in Ev.
  pose proof (le_at_push 4 (m ++ v ++ [flags h] ++ [0]) (row_count h) (p ++ replicate 16 0)) as Er. fold r in Er.
  pose proof (le_at_push 4 (m ++ v ++ [flags h] ++ [0] ++ r) (page_count h) (replicate 16 0)) as Ep. fold p in Ep.
  repeat rewrite <- app_assoc in Er. repeat rewrite <- app_assoc in Ep.
  assert (Lm : length m = 4%nat) by apply length_push_le. assert (Lv : length v = 2%nat) by apply length_push_le.
  assert (Lr : length r = 4%nat) by apply length_push_le.
  assert (L8 : length (m ++ v ++ [flags h] ++ [0]) = 8%nat) by (rewrite !length_app; cbn [length]; lia).
  assert (L12 : length (m ++ v ++ [flags h] ++ [0] ++ r) = 12%nat) by (rewrite !length_app; cbn [length]; lia).
  rewrite L8 in Er. rewrite L12 in Ep. rewrite Lm in Ev.
  rewrite Ev, Er, Ep. rewrite !Z.mod_small by (change (8 * Z.of_nat 4) with 32; change (8 * Z.of_nat 2) with 16; widths).
  destruct h; simpl in *. subst. reflexivity.
Qed.

(** One row's record at the reading position. *)
Lemma decode_record nl_parse count pre json post :
  in_u32 (Z.of_nat (length json)) →
  let raw := pre ++ push_string json ++ post in
  decode_rows nl_parse (S count) raw (length pre) =
  match row_from_json nl_parse json with
  | Ok row => row :: decode_rows nl_parse count raw (length pre + length (push_string json))
  | Err _ => decode_rows nl_parse count raw (length pre + length (push_string json))
  end.
Proof.
  intros Hj raw. cbn [decode_rows].
  assert (Lraw : length raw = (length pre + (4 + length json + length post))%nat) by (unfold raw; rewrite !length_app, length_push_string; lia).
  rewrite decide_False by lia.
  assert (El : le_at 4 raw (length pre) = Z.of_nat (length json)).
  { unfold raw, push_string. rewrite <- app_assoc. unfold push_u32_le. rewrite le_at_push, (wrap32_small _ Hj). apply Z.mod_small.
    change (8 * Z.of_nat 4) with 32. widths. }
  rewrite El, Nat2Z.id, decide_False by lia.
  replace (take (length json) (drop (length pre + 4) raw)) with json; [rewrite length_push_string; by rewrite <- Nat.add_assoc|].
  unfold raw, push_string. rewrite <- (app_assoc _ json post). set (w := push_u32_le _).
  assert (Lw : length w = 4%nat) by apply length_push_le. rewrite <- Lw, <- length_app, (app_assoc pre w), drop_app_length.
  by rewrite take_app_length.
Qed.

Section rows.
Context (nl_dump : list Z → result (list Z)) (nl_parse : list Z → result Row).

Lemma encode_rows_back rows :
  Forall row_valid rows →
  ∃ t, (∀ raw, encode_rows nl_dump raw rows = Ok (raw ++ t)) ∧ (4 * length rows ≤ length t)%nat ∧
       ∀ pre, in_u32 (Z.of_nat (length t)) → decode_rows nl_parse (length rows) (pre ++ t) (length pre) = rows.
Proof.
  induction 1 as [|row rows Hv Hvs (t & Et & Hl & Rt)].
  { exists []. split_and!; [intros; cbn [encode_rows]; by rewrite app_nil_r|simpl; lia|done]. }
  destruct (row_json_back nl_dump nl_parse row Hv) as (json & Ej & Rj). exists (push_string json ++ t). split_and!.
  - intros raw. cbn [encode_rows]. rewrite Ej, Et. by rewrite <- !app_assoc.
  - rewrite length_app, length_push_string. cbn [length]. lia.
  - intros pre Hu. rewrite length_app, length_push_string in Hu. cbn [length]. rewrite decode_record by widths. rewrite Rj.
    rewrite app_assoc, <- length_app. rewrite Rt by widths. done.
Qed.

(** The rows' bytes fit what LZ4 can compress. *)
Definition storable (rows : list Row) : Prop :=
  Forall row_valid rows ∧ ∀ raw, encode_rows nl_dump [] rows = Ok raw → Z.of_nat (length raw) ≤ LZ4_MAX_INPUT_SIZE.

Lemma to_int_small z : 0 ≤ z < 2 ^ 31 → to_int z = z.
Proof. intros Hz. unfold to_int. rewrite wrap32_small by widths. by rewrite (proj2 (Z.ltb_lt z (2 ^ 31))) by lia. Qed.

Lemma lz4_back `{Lz4Laws} raw :
  Z.of_nat (length raw) ≤ LZ4_MAX_INPUT_SIZE → lz4_decompress_size_prepended (lz4_compress_prepend_size raw) = Some raw.
Proof.
  intros Hl. pose proof (lz4_bounded raw Hl) as Hb. pose proof (lz4_inverse raw Hl) as Hi. cbv zeta in Hi. unfold LZ4_MAX_INPUT_SIZE in Hl.
  unfold lz4_decompress_size_prepended, lz4_compress_prepend_size. rewrite to_int_small by lia.
  set (block := LZ4_compress_default _ _ _) in *. rewrite !length_app. unfold push_u32_le. rewrite length_push_le, decide_False by lia.
  pose proof (le_at_push 4 [] (wrap32 (Z.of_nat (length raw))) block) as E. cbn [app length] in E. rewrite E. change (8 * Z.of_nat 4) with 32.
  rewrite wrap32_small, Z.mod_small by widths. destruct (Z.eqb_spec (Z.of_nat (length raw)) 0) as [Hz|Hn].
  { by destruct raw. }
  rewrite drop_app_length' by (by rewrite length_push_le). replace (4 + length block - 4)%nat with (length block) by lia.
  rewrite !to_int_small by lia. rewrite Hi, Z.eqb_refl. done.
Qed.

Lemma table_bytes_back `{Lz4Laws} rows : storable rows → ∃ out, table_bytes nl_dump rows = Ok out ∧ rdb_rows nl_parse out = rows.
Proof.
  intros [Hv Hs]. destruct (encode_rows_back rows Hv) as (t & Et & Hl & Rt). specialize (Hs _ (Et [])). cbn [app] in Hs.
  unfold table_bytes. rewrite Et. cbn [app]. eexists. split; [done|]. unfold LZ4_MAX_INPUT_SIZE in Hs. unfold rdb_rows.
  rewrite length_app, length_to_bytes, decide_False by lia. rewrite take_app_length' by (by rewrite length_to_bytes).
  rewrite header_back by (split_and!; first [apply wrap32_range | done]).
  rewrite drop_app_length' by (by rewrite length_to_bytes). change (is_compressed _) with true. cbv iota. rewrite lz4_back by done.
  cbn [row_count]. rewrite wrap32_small by widths. rewrite Nat2Z.id. apply (Rt []). widths.
Qed.
End rows.

(** ** The paths *)

Definition no_slash (s : list Z) : Prop := 47 ∉ s.
Definition plain_name (table : list Z) : Prop := no_slash (parse_key table).1 ∧ no_slash (parse_key table).2.

Lemma slash_split a b x y : no_slash a → no_slash b → a ++ 47 :: x = b ++ 47 :: y → a = b ∧ x = y.
Proof.
  revert b. induction a as [|c a IH]; intros [|d b] Ha Hb E; simpl in E; unfold no_slash in *.
  - by injection E.
  - injection E as E _. subst. by destruct Hb; left.
  - injection E as E _. subst. by destruct Ha; left.
  - injection E as -> E. clear -IH E Ha Hb; apply IH in E as [-> ->]; [done|set_solver..].
Qed.

Lemma last_char_ne (a b s t : list Z) : last s ≠ last t → s ≠ [] → t ≠ [] → a ++ s ≠ b ++ t.
Proof.
  intros Hne Hs Ht E. apply (f_equal last) in E. rewrite !last_app in E.
  destruct (last s) as [x|] eqn:E1; [|apply last_None in E1; congruence]. destruct (last t) as [y|] eqn:E2; [|apply last_None in E2; congruence]. congruence.
Qed.

Section paths.
Context (dir : list Z).

Lemma rdb_path_inj k k' :
  no_slash k.1 → no_slash k'.1 → rdb_path dir k = rdb_path dir k' → k = k'.
Proof.
  destruct k as [db tbl], k' as [db' tbl']. simpl. intros H1 H2 E. unfold rdb_path, table_dir in E. simpl in E.
  rewrite <- !app_assoc in E. apply app_inv_head in E. cbn in E. injection E as E. apply slash_split in E as [-> E]; [|done..].
  by apply app_inv_tail in E as ->.
Qed.

Lemma flat_rdb_ne k tbl : no_slash k.1 → no_slash tbl → flat_path dir tbl (str ".rdb") ≠ rdb_path dir k.
Proof.
  destruct k as [db tbl']. simpl. intros H1 H2 E. unfold rdb_path, table_dir, flat_path in E. simpl in E. rewrite <- !app_assoc in E.
  apply app_inv_head in E. change (str "/") with [47%Z] in E. cbn [app] in E. injection E as E. unfold no_slash in *.
  assert (47 ∈ tbl ++ str ".rdb") as Hin by (rewrite E; apply elem_of_app; right; left).
  apply elem_of_app in Hin as [Hin|Hin]; [done|].
  exact (bool_decide_unpack (47 ∉ str ".rdb") I Hin).
Qed.

Lemma tmp_ne k p s : last s ≠ Some 112 → s ≠ [] → tmp_path (rdb_path dir k) ≠ p ++ s.
Proof. intros Hl Hs. unfold tmp_path. by apply last_char_ne. Qed.
End paths.

(** ** Properties *)

Section store.
Context `{Lz4Laws} (nl_dump : list Z → result (list Z)) (nl_parse : list Z → result Row) (nl_parse_rows : list Z → result (list Row)).
Context (dir : list Z).
Abbreviation load := (load_table nl_parse nl_parse_rows dir).

(** What [load_table] reads depends on the three files it looks at. *)
Lemma load_table_ext fs fs' table :
  (∀ p, p ∈ [rdb_path dir (parse_key table); flat_path dir (parse_key table).2 (str ".rdb"); flat_path dir (parse_key table).2 (str ".json")] →
        fs !! p = fs' !! p) →
  load fs table = load fs' table.
Proof.
  intros Hp. unfold load_table. destruct (parse_key table) as [db tbl]. simpl in Hp.
  rewrite <- (Hp (rdb_path dir (db, tbl))) by set_solver. unfold load_rdb at 1 3. rewrite <- (Hp (rdb_path dir (db, tbl))) by set_solver.
  case_decide; [done|]. case_decide; [|done]. unfold load_rdb. rewrite <- (Hp (flat_path dir tbl (str ".rdb"))) by set_solver.
  case_decide; [done|]. by rewrite <- (Hp (flat_path dir tbl (str ".json"))) by set_solver.
Qed.

Lemma load_written fs table out :
  fs !! rdb_path dir (parse_key table) = Some out → load fs table = rdb_rows nl_parse out.
Proof.
  intros E. unfold load_table. destruct (parse_key table) as [db tbl]. unfold load_rdb. rewrite E.
  by rewrite decide_True by (by eexists).
Qed.

(** The writing changes the table's own file and its temporary only. *)
Lemma trace_other path data fault fs trace r fs' p :
  write_bytes_atomic_trace path data fault fs = (trace, r) → fs' ∈ trace → p ≠ path → p ≠ tmp_path path → fs' !! p = fs !! p.
Proof.
  intros E Hin Hp Ht. destruct fault; simpl in E; simplify_eq; set_unfold; destruct_or?; subst; try done; by simplify_map_eq.
Qed.

Lemma trace_last path data fault fs trace r :
  write_bytes_atomic_trace path data fault fs = (trace, r) →
  List.last trace fs !! path = (if decide (fault = NoFault) then Some data else fs !! path) ∧
  (r = Ok tt ↔ fault = NoFault).
Proof.
  pose proof (tmp_path_ne path). destruct fault; simpl; intros E; simplify_eq; simpl; simplify_map_eq; split; try done; by split.
Qed.

Lemma load_other table other fs fs' path data fault trace r :
  path = rdb_path dir (parse_key table) → write_bytes_atomic_trace path data fault fs = (trace, r) → fs' ∈ trace →
  plain_name table → plain_name other → parse_key other ≠ parse_key table → load fs' other = load fs other.
Proof.
  intros -> E Hin [Ht1 Ht2] [Ho1 Ho2] Hne. apply load_table_ext. intros p Hp.
  apply elem_of_cons in Hp as [->|[->|[->|[]%not_elem_of_nil]%elem_of_cons]%elem_of_cons]; apply (trace_other _ _ _ _ _ _ _ _ E Hin).
  - intros Eq. apply rdb_path_inj in Eq; [done|done|done].
  - symmetry. unfold rdb_path at 2. rewrite !app_assoc. by apply tmp_ne.
  - by apply flat_rdb_ne.
  - symmetry. unfold flat_path. rewrite !app_assoc. by apply tmp_ne.
  - unfold flat_path, rdb_path. rewrite !app_assoc. by apply last_char_ne.
  - symmetry. unfold flat_path. rewrite !app_assoc. by apply tmp_ne.
Qed.

Lemma load_same table fs fs' data fault trace r :
  plain_name table → write_bytes_atomic_trace (rdb_path dir (parse_key table)) data fault fs = (trace, r) → fs' ∈ trace →
  fs' !! rdb_path dir (parse_key table) = fs !! rdb_path dir (parse_key table) → load fs' table = load fs table.
Proof.
  intros [Ht1 Ht2] E Hin Es. apply load_table_ext. intros p Hp.
  apply elem_of_cons in Hp as [->|[->|[->|[]%not_elem_of_nil]%elem_of_cons]%elem_of_cons]; [done|apply (trace_other _ _ _ _ _ _ _ _ E Hin)..].
  - by apply flat_rdb_ne.
  - symmetry. unfold flat_path. rewrite !app_assoc. by apply tmp_ne.
  - unfold flat_path, rdb_path. rewrite !app_assoc. by apply last_char_ne.
  - symmetry. unfold flat_path. rewrite !app_assoc. by apply tmp_ne.
Qed.

(** C18: the files are a map of tables that a save replaces one entry of, all or nothing. Wherever the save of
    some rows fails or is cut off by a crash, the table loads as it did before or as the new rows, and no
    other table is changed; when it returns, the table is the new rows, and when it reports an error it is
    what it was. *)
Theorem table_save_atomic table rows fault fs trace r :
  plain_name table → storable nl_dump rows → save_table_trace nl_dump dir table rows fault fs = (trace, r) →
  (∀ fs', fs' ∈ trace → load fs' table = load fs table ∨ load fs' table = rows) ∧
  (∀ fs' other, fs' ∈ trace → plain_name other → parse_key other ≠ parse_key table → load fs' other = load fs other) ∧
  load (List.last trace fs) table = (if decide (fault = NoFault) then rows else load fs table) ∧ (r = Ok tt ↔ fault = NoFault).
Proof.
  intros Hn Hs E. destruct (table_bytes_back nl_dump nl_parse rows Hs) as (out & Eo & Ro). unfold save_table_trace in E. rewrite Eo in E.
  assert (Hload : ∀ fs', fs' ∈ trace → load fs' table = load fs table ∨ fs' !! rdb_path dir (parse_key table) = Some out).
  { intros fs' Hin. destruct (write_bytes_atomic_old_or_new _ _ _ _ _ _ _ E Hin) as [Eq|Eq]; [left|by right].
    by apply (load_same table fs fs' out fault trace r). }
  destruct (trace_last _ _ _ _ _ _ E) as [El Er]. split; [|split; [|split; [|exact Er]]].
  - intros fs' Hin. destruct (Hload fs' Hin) as [Eq|Eq]; [by left|right]. by rewrite (load_written _ _ _ Eq).
  - intros fs' other Hin Ho Hne. by apply (load_other table other fs fs' (rdb_path dir (parse_key table)) out fault trace r).
  - destruct (decide (fault = NoFault)) as [Hf|Hf]; [by rewrite (load_written _ _ _ El)|].
    destruct trace as [|fs1 trace _] using rev_ind; [done|]. rewrite List.last_last in *.
    apply (load_same table fs fs1 out fault (trace ++ [fs1]) r); [done|done| |done]. apply elem_of_app. right. by left.
Qed.
End store.

(** A block that stores its bytes as they are. *)
Definition stored : Lz4 := {|
  LZ4_compressBound n := n;
  LZ4_compress_default src _ _ := src;
  LZ4_decompress_safe src _ capacity := if Z.of_nat (length src) <=? capacity then Some src else None
|}.

Lemma stored_laws : Lz4Laws (H := stored).
Proof.
  split; cbn; intros src Hs; [unfold LZ4_MAX_INPUT_SIZE in Hs; lia|]. by rewrite Z.leb_refl.
Qed.

#[local] Existing Instance stored.
#[local] Existing Instance stored_laws.

Definition demo_rows : list Row := [demo_row; ∅; demo_row].

Lemma demo_storable : storable (λ _, Err []) demo_rows.
Proof.
  split.
  - assert (Hv : row_valid demo_row).
    { unfold row_valid, demo_row. repeat (apply map_Forall_insert_2; [by vm_compute|]). apply map_Forall_empty. }
    repeat (apply Forall_cons; split; [first [exact Hv | apply map_Forall_empty]|]). by apply Forall_nil.
  - intros raw E. vm_compute in E. injection E as <-. by vm_compute.
Qed.

Lemma table_save_atomic_witness :
  let load fs := load_table (λ _, Err []) (λ _, Err []) (str "data") fs (str "shop.users") in
  ∃ trace r, save_table_trace (λ _, Err []) (str "data") (str "shop.users") demo_rows NoFault ∅ = (trace, r) ∧
    (∀ fs', fs' ∈ trace → load fs' = load ∅ ∨ load fs' = demo_rows) ∧ load (List.last trace ∅) = demo_rows ∧ length trace = 3%nat.
Proof.
  intros load.
  assert (Hl : length (save_table_trace (λ _, Err []) (str "data") (str "shop.users") demo_rows NoFault ∅).1 = 3%nat) by (vm_compute; reflexivity).
  destruct (save_table_trace (λ _, Err []) (str "data") (str "shop.users") demo_rows NoFault ∅) as [trace r] eqn:E.
  assert (Hn : plain_name (str "shop.users")) by (split; apply (bool_decide_unpack _); by vm_compute).
  destruct (table_save_atomic (λ _, Err []) (λ _, Err []) (λ _, Err []) (str "data") (str "shop.users") demo_rows NoFault ∅ trace r Hn demo_storable E)
    as (H1 & _ & H2 & _).
  exists trace, r. split; [done|]. split; [exact H1|]. split; [exact H2|]. exact Hl.
Defined.

(** A saved table shadows the files of the older layouts, and a deleted one is gone with them. *)
Example delete_and_legacy :
  let load fs := load_table (λ _, Err []) (λ _, Err []) (str "data") fs (str "t") in
  let legacy : files := <[str "data/t.json" := ([91; 123; 34; 97; 34; 58; 34; 49; 34; 125; 93])]> ∅ in
  load legacy = [{[ str "a" := str "1" ]}] ∧
  load (save_table (λ _, Err []) (str "data") (str "t") [∅; ∅] NoFault legacy).1 = [∅; ∅] ∧
  load (delete_table (str "data") (str "t") (save_table (λ _, Err []) (str "data") (str "t") [∅; ∅] NoFault legacy).1) = [].
Proof. by vm_compute. Qed.
