(* ===== verification/BufferPool.v ===== *)
(** * The buffer pool (src/storage/buffer_pool.cpp)

    Tables' rows in memory, the least recently used given up for another, over the table files. A file
    holds committed work only: [save_committed] leaves out what open transactions have done. The files are
    an interface, which TableFile.v's are shown to keep; the mutex makes every call one step. *)
From S2P Require Import Prelude Numerals Files RowJson Snapshot TableFile.

#[local] Open Scope Z_scope.

(** ** The files the pool is over *)

Class DiskManager := {
  disk : Type;
  load : disk → list Z → list Row;
  save : list Z → list Row → disk → disk * result unit
}.

(** What the pool relies on, for the names and rows that can be stored. *)
Class DiskLaws `{DiskManager} (named : list Z → Prop) (storable : list Row → Prop) : Prop := {
  disk_saved table rows d d' : named table → storable rows → save table rows d = (d', Ok tt) → load d' table = rows;
  disk_failed table rows d d' msg : named table → storable rows → save table rows d = (d', Err msg) → load d' table = load d table;
  disk_other table other rows d d' r :
    named table → named other → storable rows → other ≠ table → save table rows d = (d', r) → load d' other = load d other
}.

(** ** Committed rows *)

(** The transaction a row's [_xmin] or [_xmax] names, 0 for none. *)
Definition txn_id_of (row : Row) (field : list Z) : Z :=
  match row !! field with
  | None => 0
  | Some v => if decide (v = str "0") then 0 else strtoull v
  end.

Definition marked (open : gset Z) (field : list Z) (row : Row) : bool := bool_decide (txn_id_of row field ∈ open).

(** A row without what the open transactions did to it. *)
Definition committed_row (open : gset Z) (row : Row) : option Row :=
  if marked open xmin_col row then None
  else Some (if marked open xmax_col row then <[xmax_col := str "0"]> row else row).

(** The rows [save_committed] writes; [open] is what the callback answers. *)
Definition committed_rows (open_transactions : gset Z) (keep_txn : Z) (rows : list Row) : list Row :=
  let open := open_transactions ∖ {[keep_txn]} in
  let affected := negb (bool_decide (open = ∅)) && existsb (λ r, marked open xmin_col r || marked open xmax_col r) rows in
  if affected then omap (committed_row open) rows else rows.

(** ** The pool *)

Record Page := mkPage {
  table_name : list Z;
  rows : list Row;
  is_dirty : bool
}.

Record BufferPool := mkPool {
  pool_capacity : nat;
  hit_count : Z;
  miss_count : Z;
  cache : gmap (list Z) (Page * Z);
  pool_tick : Z
}.

Definition BUFFER_POOL_SIZE : nat := 64.
Definition empty_pool (capacity : nat) : BufferPool := mkPool capacity 0 0 ∅ 0.

Section pool.
Context `{DiskManager}.

Definition save_committed (open : gset Z) (name : list Z) (rows : list Row) (keep_txn : Z) (d : disk) : disk * result unit :=
  save name (committed_rows open keep_txn rows) d.

(** The first of the pages with the smallest tick. *)
Definition least_recent (pages : list (list Z * (Page * Z))) : option (list Z * (Page * Z)) :=
  foldl (λ best e, match best with Some b => if e.2.2 <? b.2.2 then Some e else best | None => Some e end) None pages.

Definition erase (name : list Z) (p : BufferPool) : BufferPool :=
  mkPool (pool_capacity p) (hit_count p) (miss_count p) (delete name (cache p)) (pool_tick p).

(** insert_page; [to_disk] is whether it is given the disk. A save that throws leaves the pool as it is. *)
Definition insert_page (open : gset Z) (name : list Z) (rows' : list Row) (dirty to_disk : bool) (p : BufferPool) (d : disk)
  : BufferPool * disk * result unit :=
  let '(p, d, r) :=
    if decide (pool_capacity p ≤ size (cache p))%nat then
      match least_recent (map_to_list (cache p)) with
      | None => (p, d, Ok tt)
      | Some (victim, (page, _)) =>
          if is_dirty page && to_disk then
            match save_committed open victim (rows page) 0 d with
            | (d, Ok _) => (erase victim p, d, Ok tt)
            | (d, Err msg) => (p, d, Err msg)
            end
          else (erase victim p, d, Ok tt)
      end
    else (p, d, Ok tt) in
  match r with
  | Err msg => (p, d, Err msg)
  | Ok _ =>
      let tick := wrap64 (pool_tick p + 1) in
      (mkPool (pool_capacity p) (hit_count p) (miss_count p) (<[name := (mkPage name rows' dirty, tick)]> (cache p)) tick, d, Ok tt)
  end.

Definition get_page (open : gset Z) (name : list Z) (p : BufferPool) (d : disk) : BufferPool * disk * result (list Row) :=
  match cache p !! name with
  | Some (page, _) =>
      let tick := wrap64 (pool_tick p + 1) in
      (mkPool (pool_capacity p) (wrap64 (hit_count p + 1)) (miss_count p) (<[name := (page, tick)]> (cache p)) tick, d, Ok (rows page))
  | None =>
      let p := mkPool (pool_capacity p) (hit_count p) (wrap64 (miss_count p + 1)) (cache p) (pool_tick p) in
      let loaded := load d name in
      match insert_page open name loaded false true p d with
      | (p, d, Ok _) => (p, d, Ok loaded)
      | (p, d, Err msg) => (p, d, Err msg)
      end
  end.

Definition write_page (open : gset Z) (name : list Z) (rows' : list Row) (p : BufferPool) (d : disk) : BufferPool * disk * result unit :=
  match cache p !! name with
  | Some (page, _) =>
      let tick := wrap64 (pool_tick p + 1) in
      (mkPool (pool_capacity p) (hit_count p) (miss_count p) (<[name := (mkPage (table_name page) rows' true, tick)]> (cache p)) tick, d, Ok tt)
  | None => insert_page open name rows' true false p d
  end.

Definition write_through (open : gset Z) (name : list Z) (rows' : list Row) (keep_txn : Z) (p : BufferPool) (d : disk)
  : BufferPool * disk * result unit :=
  match save_committed open name rows' keep_txn d with
  | (d, Ok _) => (erase name p, d, Ok tt)
  | (d, Err msg) => (p, d, Err msg)
  end.

Definition clean (name : list Z) (p : BufferPool) : BufferPool :=
  mkPool (pool_capacity p) (hit_count p) (miss_count p)
    (alter (λ e, (mkPage (table_name e.1) (rows e.1) false, e.2)) name (cache p)) (pool_tick p).

Fixpoint flush_pages (open : gset Z) (dirty : list (list Z)) (p : BufferPool) (d : disk) : BufferPool * disk * result unit :=
  match dirty with
  | [] => (p, d, Ok tt)
  | name :: dirty =>
      match cache p !! name with
      | None => flush_pages open dirty p d
      | Some (page, _) =>
          match save_committed open name (rows page) 0 d with
          | (d, Ok _) => flush_pages open dirty (clean name p) d
          | (d, Err msg) => (p, d, Err msg)
          end
      end
  end.

Definition dirty_names (p : BufferPool) : list (list Z) := (filter (λ e, is_dirty e.2.1 = true) (map_to_list (cache p))).*1.

Definition flush_all (open : gset Z) (p : BufferPool) (d : disk) : BufferPool * disk * result unit := flush_pages open (dirty_names p) p d.

Definition invalidate (name : list Z) (p : BufferPool) : BufferPool := erase name p.

Definition usage (p : BufferPool) : nat := size (cache p).

End pool.

(** ** Committed rows are those of the committed changes *)

(** What transactions do to a table: a version appended, a live version ended. *)
Inductive change :=
  | Create (txn : Z) (row : Row)
  | Kill (txn : Z) (row : Row).

Definition made_by (c : change) : Z := match c with Create txn _ | Kill txn _ => txn end.

#[local] Definition live (row : Row) : Prop := row !! xmax_col = Some (str "0").

Inductive apply_change : change → list Row → list Row → Prop :=
  | apply_create txn row rows :
      row !! xmin_col = Some (to_string txn) → live row → apply_change (Create txn row) rows (rows ++ [row])
  | apply_kill txn row rows1 rows2 :
      live row → apply_change (Kill txn row) (rows1 ++ row :: rows2) (rows1 ++ <[xmax_col := to_string txn]> row :: rows2).

Inductive changes : list change → list Row → list Row → Prop :=
  | changes_none rows : changes [] rows rows
  | changes_more cs c rows rows' rows'' : changes cs rows rows' → apply_change c rows' rows'' → changes (cs ++ [c]) rows rows''.

(** Transactions are numbered from 1; a version that an open transaction made is ended by that transaction only. *)
Definition change_fine (open : gset Z) (c : change) : Prop :=
  1 ≤ made_by c ≤ u64_max ∧ match c with Kill txn row => marked open xmin_col row = true → txn_id_of row xmin_col = txn | _ => True end.

Lemma txn_id_of_written row field n : 1 ≤ n ≤ u64_max → row !! field = Some (to_string n) → txn_id_of row field = n.
Proof.
  intros Hn E. unfold txn_id_of. rewrite E. case_decide as Hz.
  - change (str "0") with (to_string 0) in Hz. apply to_string_inj in Hz; lia.
  - unfold strtoull. rewrite stoull_to_string by widths. done.
Qed.

Lemma committed_rows_omap open keep rows : committed_rows open keep rows = omap (committed_row (open ∖ {[keep]})) rows.
Proof.
  unfold committed_rows. destruct (_ && _) eqn:E; [done|].
  assert (Hun : ∀ r, r ∈ rows → marked (open ∖ {[keep]}) xmin_col r = false ∧ marked (open ∖ {[keep]}) xmax_col r = false).
  { intros r Hr. apply andb_false_iff in E as [E|E].
    - apply negb_false_iff, bool_decide_eq_true in E. unfold marked. rewrite E. done.
    - apply orb_false_iff. apply not_true_iff_false. intros Ht. apply not_true_iff_false in E. apply E. apply existsb_exists. exists r.
      split; [by apply list_elem_of_In|done]. }
  symmetry. clear E. induction rows as [|r rows IH]; [done|]. simpl. unfold committed_row at 1.
  destruct (Hun r ltac:(by left)) as [-> ->]. f_equal. apply IH. intros r' Hr. apply Hun. by right.
Qed.

Section committed.
Context (open : gset Z) (Hopen : 0 ∉ open).

Lemma live_unmarked row : live row → marked open xmax_col row = false.
Proof. intros Hl. unfold marked, txn_id_of. rewrite Hl. by apply bool_decide_eq_false. Qed.

Lemma created_marked row txn : 1 ≤ txn ≤ u64_max → row !! xmin_col = Some (to_string txn) → marked open xmin_col row = bool_decide (txn ∈ open).
Proof. intros Ht E. unfold marked. by rewrite (txn_id_of_written row xmin_col txn). Qed.

Lemma killed_committed row txn :
  1 ≤ txn ≤ u64_max → live row → committed_row open (<[xmax_col := to_string txn]> row) =
  if marked open xmin_col row then None else Some (if bool_decide (txn ∈ open) then row else <[xmax_col := to_string txn]> row).
Proof.
  intros Ht Hl. unfold committed_row.
  assert (E : marked open xmin_col (<[xmax_col := to_string txn]> row) = marked open xmin_col row).
  { unfold marked, txn_id_of. rewrite lookup_insert_ne by done. done. }
  rewrite E. destruct (marked open xmin_col row); [done|].
  assert (E' : marked open xmax_col (<[xmax_col := to_string txn]> row) = bool_decide (txn ∈ open)).
  { unfold marked. rewrite (txn_id_of_written _ _ txn); [done|done|by rewrite lookup_insert_eq]. }
  rewrite E'. case_bool_decide; [|done]. by rewrite insert_insert_eq, insert_id.
Qed.

Lemma live_committed row : live row → marked open xmin_col row = false → committed_row open row = Some row.
Proof. intros Hl E. unfold committed_row. by rewrite E, live_unmarked. Qed.

(** One change, in the whole table and in its committed rows. *)
Lemma apply_committed c rows rows' :
  change_fine open c → apply_change c rows rows' →
  if bool_decide (made_by c ∈ open) then omap (committed_row open) rows' = omap (committed_row open) rows
  else apply_change c (omap (committed_row open) rows) (omap (committed_row open) rows').
Proof.
  intros [Ht Hf] Hc. destruct Hc as [txn row rows Hm Hl|txn row rows1 rows2 Hl]; cbn [made_by] in *.
  - pose proof (created_marked row txn Ht Hm) as E. rewrite omap_app. simpl. case_bool_decide.
    + unfold committed_row at 2. rewrite E. by rewrite app_nil_r.
    + rewrite live_committed by done. by apply apply_create.
  - rewrite !omap_app. simpl. rewrite killed_committed by done. case_bool_decide as Hin.
    + destruct (marked open xmin_col row) eqn:E; [|by rewrite live_committed]. unfold committed_row at 4. by rewrite E.
    + destruct (marked open xmin_col row) eqn:E.
      * specialize (Hf eq_refl). subst txn. unfold marked in E. by apply bool_decide_eq_true in E.
      * rewrite live_committed by done. by apply apply_kill.
Qed.

Lemma changes_committed cs rows rows' :
  Forall (change_fine open) cs → changes cs rows rows' → omap (committed_row open) rows = rows →
  changes (filter (λ c, made_by c ∉ open) cs) rows (omap (committed_row open) rows').
Proof.
  intros Hf Hc Hr. induction Hc as [rows|cs c rows rows' rows'' Hc IH Ha]; [rewrite Hr; constructor|].
  apply Forall_app in Hf as [Hf Hfc]. apply Forall_inv in Hfc. specialize (IH Hf Hr). pose proof (apply_committed c rows' rows'' Hfc Ha) as Hs.
  rewrite filter_app. case_bool_decide as Hin.
  - rewrite filter_cons_False by (intros Hn; by apply Hn). cbn. rewrite app_nil_r, Hs. done.
  - rewrite filter_cons_True by done. by eapply changes_more.
Qed.
End committed.

(** ** What the pool shows *)

Section view.
Context `{DiskManager} (named : list Z → Prop) (storable : list Row → Prop) `{!DiskLaws named storable}.

(** The rows [get_page] gives for a table. *)
Definition view (p : BufferPool) (d : disk) (table : list Z) : list Row :=
  match cache p !! table with Some (page, _) => rows page | None => load d table end.

(** Pages that are not dirty are what the disk holds; every page can be stored and holds nothing of a
    transaction that is open. *)
Definition coherent (open : gset Z) (p : BufferPool) (d : disk) : Prop :=
  ∀ table page t, cache p !! table = Some (page, t) →
    named table ∧ storable (rows page) ∧ committed_rows open 0 (rows page) = rows page ∧ (is_dirty page = false → load d table = rows page).

Lemma least_recent_in pages : match least_recent pages with Some e => e ∈ pages | None => pages = [] end.
Proof.
  unfold least_recent. induction pages as [|e pages IH] using rev_ind; [done|]. rewrite foldl_snoc.
  destruct (foldl _ None pages) as [b|].
  - destruct (e.2.2 <? b.2.2); apply elem_of_app; [right; by apply list_elem_of_singleton|by left].
  - rewrite IH. by apply list_elem_of_singleton.
Qed.

(** A save of a page leaves every table as the pool shows it. *)
Lemma save_view open p d d' r victim page t :
  coherent open p d → cache p !! victim = Some (page, t) → save_committed open victim (rows page) 0 d = (d', r) →
  (∀ other, named other → load d' other = (if decide (other = victim ∧ r = Ok tt) then rows page else load d other)).
Proof.
  intros Hc Hv Hs other Ho. destruct (Hc _ _ _ Hv) as (Hn & Hst & Hcm & _). unfold save_committed in Hs. rewrite Hcm in Hs.
  destruct (decide (other = victim)) as [->|Hne].
  - destruct r as [[]|msg].
    + rewrite decide_True by done. by eapply disk_saved.
    + rewrite decide_False by (by intros [_ ?]). by eapply disk_failed.
  - rewrite decide_False by (by intros [? _]). by eapply disk_other.
Qed.

Lemma coherent_load open p d d' :
  coherent open p d → (∀ table page t, cache p !! table = Some (page, t) → is_dirty page = false → load d' table = load d table) → coherent open p d'.
Proof. intros Hc Hl table page t E. destruct (Hc _ _ _ E) as (H1 & H2 & H3 & H4). split_and!; try done. intros Hd. rewrite (Hl _ _ _ E Hd). auto. Qed.

Lemma coherent_erase open p d name : coherent open p d → coherent open (erase name p) d.
Proof. intros Hc table page t E. cbn in E. apply lookup_delete_Some in E as [_ E]. by eapply Hc. Qed.

(** Whether insert_page gives up the only copy of some rows: a dirty page that is not saved. *)
Definition loses (p : BufferPool) : bool :=
  bool_decide (pool_capacity p ≤ size (cache p))%nat &&
  match least_recent (map_to_list (cache p)) with Some (_, (page, _)) => is_dirty page | None => false end.

(** Making room keeps what every table shows. *)
Lemma insert_page_view open name rows' dirty to_disk p d p' d' r :
  coherent open p d → named name → storable rows' → committed_rows open 0 rows' = rows' →
  cache p !! name = None → (dirty = false → load d name = rows') → (to_disk = false → loses p = false) →
  insert_page open name rows' dirty to_disk p d = (p', d', r) →
  coherent open p' d' ∧
  ∀ table, named table → view p' d' table = (if decide (table = name ∧ r = Ok tt) then rows' else view p d table).
Proof.
  intros Hc Hn Hs Hcm Hout Hld Hlose E. unfold insert_page in E.
  set (evicted := if decide _ then _ else _) in E.
  assert (Hev : ∃ p1 d1 r1, evicted = (p1, d1, r1) ∧ coherent open p1 d1 ∧ cache p1 !! name = None ∧ load d1 name = load d name ∧
    (∀ table, named table → view p1 d1 table = view p d table)).
  { unfold evicted. clear E evicted. case_decide as Hfull; [|by exists p, d, (Ok tt)].
    pose proof (least_recent_in (map_to_list (cache p))) as Hin.
    destruct (least_recent _) as [[victim [page t]]|] eqn:El; [|by exists p, d, (Ok tt)]. apply elem_of_map_to_list in Hin.
    assert (Hvn : victim ≠ name) by congruence.
    destruct (Hc _ _ _ Hin) as (V1 & V2 & V3 & V4). unfold view.
    destruct (is_dirty page && to_disk) eqn:Ed.
    - destruct (save_committed open victim (rows page) 0 d) as [d1 [[]|msg]] eqn:Es; do 3 eexists; (split; [done|]);
        pose proof (save_view open p d d1 _ victim page t Hc Hin Es) as Hl.
      + split_and!.
        * apply coherent_erase. eapply coherent_load; [done|]. intros table pg t' E' Hd. rewrite Hl by (by eapply Hc).
          destruct (decide (table = victim ∧ _)) as [[-> _]|_]; [|done]. rewrite E' in Hin. injection Hin as -> ->. by rewrite Hd in Ed.
        * cbn. by rewrite lookup_delete_ne.
        * rewrite Hl by done. by rewrite decide_False by (intros [? _]; congruence).
        * intros table Ht. cbn. destruct (decide (table = victim)) as [->|Hne].
          -- rewrite lookup_delete_eq, Hin, Hl by done. by rewrite decide_True.
          -- rewrite lookup_delete_ne, Hl by done. by rewrite decide_False by (by intros [? _]).
      + split_and!; [|done| |].
        * eapply coherent_load; [done|]. intros table pg t' E' Hd. rewrite Hl by (by eapply Hc). by rewrite decide_False by (by intros [_ ?]).
        * rewrite Hl by done. by rewrite decide_False by (by intros [_ ?]).
        * intros table Ht. rewrite Hl by done. by rewrite decide_False by (by intros [_ ?]).
    - do 3 eexists. split; [done|]. split_and!; [by apply coherent_erase|cbn; by rewrite lookup_delete_ne|done|].
      assert (Hcl : is_dirty page = false).
      { apply andb_false_iff in Ed as [Ed|Ed]; [done|]. specialize (Hlose Ed). unfold loses in Hlose. rewrite El in Hlose.
        apply andb_false_iff in Hlose as [Hl|Hl]; [by apply bool_decide_eq_false in Hl|done]. }
      intros table Ht. cbn. destruct (decide (table = victim)) as [->|Hne].
      + rewrite lookup_delete_eq, Hin. auto.
      + by rewrite lookup_delete_ne. }
  clear Hlose. destruct Hev as (p1 & d1 & r1 & Eev & Hc1 & Ho1 & Hl1 & Hv1). rewrite Eev in E. clear Eev evicted.
  destruct r1 as [[]|msg]; injection E as <- <- <-.
  - split.
    + intros table page t E. cbn in E. apply lookup_insert_Some in E as [[<- [= <- <-]]|[Hne E]]; [|by eapply Hc1].
      cbn. split_and!; try done. intros ->. rewrite Hl1. auto.
    + intros table Ht. unfold view at 1. cbn. destruct (decide (table = name)) as [->|Hne].
      * rewrite lookup_insert_eq, decide_True by done. done.
      * rewrite lookup_insert_ne, decide_False by (done || by intros [? _]). by apply Hv1.
  - split; [done|]. intros table Ht. rewrite decide_False by (by intros [_ ?]). by apply Hv1.
Qed.
End view.

(** ** Calls and what they come to *)

Inductive pool_op :=
  | GetPage (name : list Z)
  | WritePage (name : list Z) (rows : list Row)
  | WriteThrough (name : list Z) (rows : list Row) (keep_txn : Z)
  | FlushAll
  | Invalidate (name : list Z).

Inductive answer :=
  | Shown (rows : list Row)
  | Done
  | Failed (msg : list Z).

#[export] Instance answer_eq_dec : EqDecision answer.
Proof. solve_decision. Defined.

Definition answer_of {A} (r : result A) : answer := match r with Ok _ => Done | Err msg => Failed msg end.

Section runs.
Context `{DiskManager} (named : list Z → Prop) (storable : list Row → Prop) `{!DiskLaws named storable}.
Context (open : gset Z).

Definition pool_step (op : pool_op) (p : BufferPool) (d : disk) : BufferPool * disk * answer :=
  match op with
  | GetPage name =>
      match get_page open name p d with (p, d, Ok rows) => (p, d, Shown rows) | (p, d, Err msg) => (p, d, Failed msg) end
  | WritePage name rows => let '(p, d, r) := write_page open name rows p d in (p, d, answer_of r)
  | WriteThrough name rows keep => let '(p, d, r) := write_through open name rows keep p d in (p, d, answer_of r)
  | FlushAll => let '(p, d, r) := flush_all open p d in (p, d, answer_of r)
  | Invalidate name => (invalidate name p, d, Done)
  end.

(** Names and rows that can be stored; no page with rows that are nowhere else is given up: [write_page] finds
    room or a page that is not dirty, and [invalidate] is not for a dirty page. *)
Definition op_allowed (op : pool_op) (p : BufferPool) (d : disk) : Prop :=
  match op with
  | GetPage name => named name ∧ storable (load d name) ∧ committed_rows open 0 (load d name) = load d name
  | WritePage name rows =>
      named name ∧ storable rows ∧ committed_rows open 0 rows = rows ∧ (cache p !! name = None → loses p = false)
  | WriteThrough name rows keep => named name ∧ storable (committed_rows open keep rows)
  | FlushAll => True
  | Invalidate name => match cache p !! name with Some (page, _) => is_dirty page = false | None => True end
  end.

Inductive pool_steps : BufferPool → disk → list (pool_op * answer) → BufferPool → disk → Prop :=
  | steps_none p d : pool_steps p d [] p d
  | steps_more p d tr p' d' op p'' d'' a :
      pool_steps p d tr p' d' → op_allowed op p' d' → pool_step op p' d' = (p'', d'', a) → pool_steps p d (tr ++ [(op, a)]) p'' d''.

Lemma steps_go p d tr p' d' op :
  pool_steps p d tr p' d' → op_allowed op p' d' →
  let s := pool_step op p' d' in pool_steps p d (tr ++ [(op, s.2)]) s.1.1 s.1.2.
Proof. intros Hs Ha s. eapply steps_more; [exact Hs|exact Ha|]. unfold s. by destruct (pool_step op p' d') as [[p'' d''] a]. Qed.

(** The tables without files or pages: each name has its rows. *)
Inductive tables_step (shown : list Z → list Row) : pool_op * answer → (list Z → list Row) → Prop :=
  | shown_get name : tables_step shown (GetPage name, Shown (shown name)) shown
  | shown_failed op msg : tables_step shown (op, Failed msg) shown
  | shown_write name rows : tables_step shown (WritePage name rows, Done) (λ t, if decide (t = name) then rows else shown t)
  | shown_through name rows keep :
      tables_step shown (WriteThrough name rows keep, Done) (λ t, if decide (t = name) then committed_rows open keep rows else shown t)
  | shown_flush : tables_step shown (FlushAll, Done) shown
  | shown_invalidate name : tables_step shown (Invalidate name, Done) shown.

Inductive tables_steps : (list Z → list Row) → list (pool_op * answer) → (list Z → list Row) → Prop :=
  | tables_none shown : tables_steps shown [] shown
  | tables_more shown tr shown' e shown'' : tables_steps shown tr shown' → tables_step shown' e shown'' → tables_steps shown (tr ++ [e]) shown''.

(** A table is replaced in what is shown, and every other stays. *)
Definition agree (p : BufferPool) (d : disk) (shown : list Z → list Row) : Prop := ∀ table, named table → view p d table = shown table.

Lemma get_page_step name p d p' d' r shown :
  coherent named storable open p d → agree p d shown → named name → storable (load d name) → committed_rows open 0 (load d name) = load d name →
  get_page open name p d = (p', d', r) →
  coherent named storable open p' d' ∧ agree p' d' shown ∧ match r with Ok rows => rows = shown name | Err _ => True end.
Proof.
  intros Hc Hag Hn Hst Hcm E. unfold get_page in E. destruct (cache p !! name) as [[page t]|] eqn:El.
  - injection E as <- <- <-. pose proof (Hag name Hn) as Hs. unfold view in Hs. rewrite El in Hs. split_and!; [| |done].
    + intros table pg t' E. cbn in E. apply lookup_insert_Some in E as [[<- [= <- <-]]|[Hne E]]; by eapply Hc.
    + intros table Ht. rewrite <- (Hag table Ht). unfold view. cbn. destruct (decide (table = name)) as [->|Hne].
      * by rewrite lookup_insert_eq, El.
      * by rewrite lookup_insert_ne.
  - set (p0 := mkPool _ _ _ _ _) in E. assert (Hc0 : coherent named storable open p0 d) by exact Hc.
    destruct (insert_page open name (load d name) false true p0 d) as [[p1 d1] r1] eqn:Ei.
    pose proof (insert_page_view named storable open name (load d name) false true p0 d p1 d1 r1 Hc0 Hn Hst Hcm El ltac:(done) ltac:(done) Ei) as [Hc1 Hv1].
    assert (Hname : load d name = shown name) by (rewrite <- (Hag name Hn); unfold view; by rewrite El).
    assert (Hag1 : agree p1 d1 shown).
    { intros table Ht. rewrite Hv1 by done. destruct (decide (table = name ∧ _)) as [[-> _]|_]; [done|]. by apply Hag. }
    destruct r1 as [[]|msg]; injection E as <- <- <-; by split_and!.
Qed.

Lemma clean_coherent name p d page t :
  coherent named storable open p d → cache p !! name = Some (page, t) → load d name = rows page → coherent named storable open (clean name p) d.
Proof.
  intros Hc E Hl table pg t' E'. cbn in E'. destruct (decide (table = name)) as [->|Hne].
  - rewrite lookup_alter_eq, E in E'. injection E' as <- <-. destruct (Hc _ _ _ E) as (H1 & H2 & H3 & H4). by split_and!.
  - rewrite lookup_alter_ne in E' by done. by eapply Hc.
Qed.

Lemma flush_step dirty p d p' d' r shown :
  coherent named storable open p d → agree p d shown → flush_pages open dirty p d = (p', d', r) →
  coherent named storable open p' d' ∧ agree p' d' shown.
Proof.
  revert p d. induction dirty as [|name dirty IH]; intros p d Hc Hag E; cbn [flush_pages] in E; [by injection E as <- <- <-|].
  destruct (cache p !! name) as [[page t]|] eqn:El; [|by apply (IH p d)].
  destruct (save_committed open name (rows page) 0 d) as [d1 r1] eqn:Es.
  pose proof (save_view named storable open p d d1 r1 name page t Hc El Es) as Hl.
  destruct (Hc _ _ _ El) as (Hn & _ & _ & _).
  assert (Hag1 : agree p d1 shown).
  { intros table Ht. rewrite <- (Hag table Ht). unfold view. destruct (cache p !! table) as [[pg t']|] eqn:Et; [done|].
    rewrite Hl by done. rewrite decide_False; [done|]. intros [-> _]. congruence. }
  assert (Hc1 : coherent named storable open p d1).
  { eapply coherent_load; [done|]. intros table pg t' E' Hd. destruct (Hc _ _ _ E') as (Hn' & _ & _ & H4). rewrite Hl by done.
    destruct (decide (table = name ∧ _)) as [[-> _]|_]; [|done]. rewrite El in E'. injection E' as -> ->. symmetry. by apply H4. }
  destruct r1 as [[]|msg]; [|by injection E as <- <- <-]. apply (IH (clean name p) d1); [|..|done].
  - eapply clean_coherent; [done|done|]. rewrite Hl by done. by rewrite decide_True.
  - intros table Ht. rewrite <- (Hag1 table Ht). unfold view. cbn. destruct (decide (table = name)) as [->|Hne].
    + by rewrite lookup_alter_eq, El.
    + by rewrite lookup_alter_ne.
Qed.

Lemma pool_step_view op p d p' d' a shown :
  coherent named storable open p d → agree p d shown → op_allowed op p d → pool_step op p d = (p', d', a) →
  coherent named storable open p' d' ∧ ∃ shown', tables_step shown (op, a) shown' ∧ agree p' d' shown'.
Proof.
  intros Hc Hag Ha E. destruct op as [name|name rows'|name rows' keep| |name]; cbn [pool_step op_allowed] in *.
  - destruct Ha as (Hn & Hs & Hcm). destruct (get_page open name p d) as [[p1 d1] r] eqn:Eg.
    destruct (get_page_step name p d p1 d1 r shown Hc Hag Hn Hs Hcm Eg) as (H1 & H2 & H3).
    destruct r as [rows'|msg]; injection E as <- <- <-; (split; [done|]); exists shown; split; try done; [subst|]; constructor.
  - destruct Ha as (Hn & Hs & Hcm & Hl). destruct (write_page open name rows' p d) as [[p1 d1] r] eqn:Ew. injection E as <- <- <-.
    unfold write_page in Ew. destruct (cache p !! name) as [[page t]|] eqn:El.
    + injection Ew as <- <- <-. split.
      * intros table pg t' E'. cbn in E'. apply lookup_insert_Some in E' as [[<- [= <- <-]]|[Hne E']]; [|by eapply Hc]. by split_and!.
      * eexists. split; [constructor|]. intros table Ht. unfold view. cbn. destruct (decide (table = name)) as [->|Hne].
        -- by rewrite lookup_insert_eq.
        -- rewrite lookup_insert_ne by done. by apply Hag.
    + destruct (insert_page_view named storable open name rows' true false p d p1 d1 r Hc Hn Hs Hcm El ltac:(done) ltac:(auto) Ew) as [Hc1 Hv].
      split; [done|]. destruct r as [[]|msg]; eexists; (split; [constructor|]); intros table Ht; rewrite Hv by done.
      * destruct (decide (table = name)) as [->|Hne]; [by rewrite decide_True|]. rewrite decide_False by (by intros [? _]). by apply Hag.
      * rewrite decide_False by (by intros [_ ?]). by apply Hag.
  - destruct Ha as [Hn Hs]. destruct (write_through open name rows' keep p d) as [[p1 d1] r] eqn:Ew. injection E as <- <- <-.
    unfold write_through, save_committed in Ew. destruct (save name (committed_rows open keep rows') d) as [d2 [[]|msg]] eqn:Es; injection Ew as <- <- <-.
    + assert (Hother : ∀ table, named table → table ≠ name → load d2 table = load d table) by (intros table Ht Hne; exact (disk_other name table _ d d2 (Ok tt) Hn Ht Hs Hne Es)).
      split.
      * apply (coherent_load named storable open _ d); [by apply coherent_erase|]. intros table pg t' E' _. cbn in E'.
        apply lookup_delete_Some in E' as [Hne E']. destruct (Hc _ _ _ E') as (Hn' & _). by apply Hother.
      * eexists. split; [constructor|]. intros table Ht. unfold view. cbn. destruct (decide (table = name)) as [->|Hne].
        -- rewrite lookup_delete_eq. exact (disk_saved name _ d d2 Hn Hs Es).
        -- rewrite lookup_delete_ne by done. rewrite <- (Hag table Ht). unfold view. destruct (cache p !! table); [done|by apply Hother].
    + assert (Hsame : ∀ table, named table → load d2 table = load d table).
      { intros table Ht. destruct (decide (table = name)) as [->|Hne]; [exact (disk_failed name _ d d2 msg Hn Hs Es)|exact (disk_other name table _ d d2 (Err msg) Hn Ht Hs Hne Es)]. }
      split.
      * eapply coherent_load; [done|]. intros table pg t' E' _. destruct (Hc _ _ _ E') as (Hn' & _). by apply Hsame.
      * exists shown. split; [constructor|]. intros table Ht. rewrite <- (Hag table Ht). unfold view. by rewrite Hsame.
  - destruct (flush_all open p d) as [[p1 d1] r] eqn:Ef. injection E as <- <- <-.
    destruct (flush_step _ p d p1 d1 r shown Hc Hag Ef) as [H1 H2]. split; [done|]. exists shown. split; [|done].
    destruct r; constructor.
  - injection E as <- <- <-. split; [by apply coherent_erase|]. exists shown. split; [constructor|].
    intros table Ht. rewrite <- (Hag table Ht). unfold view. cbn. destruct (decide (table = name)) as [->|Hne]; [|by rewrite lookup_delete_ne].
    rewrite lookup_delete_eq. destruct (cache p !! name) as [[page t]|] eqn:El; [|done]. by apply (Hc _ _ _ El).
Qed.

Lemma pool_steps_view p d tr p' d' shown :
  coherent named storable open p d → agree p d shown → pool_steps p d tr p' d' →
  coherent named storable open p' d' ∧ ∃ shown', tables_steps shown tr shown' ∧ agree p' d' shown'.
Proof.
  intros Hc Hag Hs. induction Hs as [p d|p d tr p' d' op p'' d'' a Hs IH Ha E]; [by split; [|exists shown; split; [constructor|]]|].
  destruct (IH Hc Hag) as (Hc' & shown' & Ht & Hag'). destruct (pool_step_view op p' d' p'' d'' a shown' Hc' Hag' Ha E) as (Hc'' & shown'' & Ht' & Hag'').
  split; [done|]. exists shown''. split; [by eapply tables_more|done].
Qed.

End runs.

(** ** Over the table files *)

Section over_files.
Context `{Lz4Laws} (nl_dump : list Z → result (list Z)) (nl_parse : list Z → result Row) (nl_parse_rows : list Z → result (list Row)).
Context (dir : list Z).

(** The directory, and where the next saves fail. *)
#[local] Instance file_disk : DiskManager := {|
  disk := files * list io_fault;
  load d table := load_table nl_parse nl_parse_rows dir d.1 table;
  save table rows d :=
    let '(fs, r) := save_table nl_dump dir table rows (default NoFault (head d.2)) d.1 in ((fs, tail d.2), r)
|}.

(** A full name, "<db>.<table>". *)
Definition full_name (table : list Z) : Prop := plain_name table ∧ is_Some (find_dot table).

Lemma find_dot_app key a b : find_dot key = Some (a, b) → key = a ++ c_dot :: b.
Proof.
  revert a. induction key as [|c key IH]; intros a E; simpl in E; [done|]. destruct (Z.eqb_spec c c_dot) as [->|Hne].
  - by injection E as <- <-.
  - destruct (find_dot key) as [[a' b']|]; [|done]. injection E as <- <-. cbn. by rewrite (IH a').
Qed.

Lemma full_name_inj t t' : full_name t → full_name t' → parse_key t = parse_key t' → t = t'.
Proof.
  intros [_ [[a b] E]] [_ [[a' b'] E']]. unfold parse_key. rewrite E, E'. cbn. intros [= -> ->].
  by rewrite (find_dot_app _ _ _ E), (find_dot_app _ _ _ E').
Qed.

#[local] Instance file_disk_laws : DiskLaws full_name (TableFile.storable nl_dump).
Proof.
  assert (Hsave : ∀ table rows d d' r, full_name table → TableFile.storable nl_dump rows → save table rows d = (d', r) →
    load d' table = (if decide (r = Ok tt) then rows else load d table) ∧
    ∀ other, full_name other → other ≠ table → load d' other = load d other).
  { intros table rows [fs faults] d' r Hn Hs E. cbn in E. unfold save_table in E. cbn [fst snd] in E.
    destruct (save_table_trace _ _ _ _ _ _) as [trace r'] eqn:Et. injection E as <- <-.
    destruct (table_save_atomic nl_dump nl_parse nl_parse_rows dir table rows _ fs trace r' (proj1 Hn) Hs Et) as (_ & Ho & Hl & Hr).
    cbn [load file_disk fst]. split.
    - rewrite Hl. destruct (decide (default NoFault (head faults) = NoFault)) as [Hf|Hf].
      + rewrite decide_True by (by apply Hr). done.
      + rewrite decide_False by (by rewrite Hr). done.
    - intros other Hon Hne. destruct trace as [|fs1 trace _] using rev_ind; [done|]. rewrite List.last_last.
      apply Ho; [apply elem_of_app; right; by left|apply Hon|]. intros Eq. apply Hne. by apply full_name_inj. }
  split.
  - intros table rows d d' Hn Hs E. destruct (Hsave _ _ _ _ _ Hn Hs E) as [-> _]. by rewrite decide_True.
  - intros table rows d d' msg Hn Hs E. destruct (Hsave _ _ _ _ _ Hn Hs E) as [-> _]. by rewrite decide_False.
  - intros table other rows d d' r Hn Ho Hs Hne E. destruct (Hsave _ _ _ _ _ Hn Hs E) as [_ Hoth]. by apply Hoth.
Qed.

(** ** Properties *)


(** C20: a table file holds committed work only. When transactions have made changes to a table in any order, and
    its rows are written through while some of the transactions are open, the file then holds, whatever
    [keep_txn] is, exactly the rows that the changes of the other transactions alone come to, in their order;
    when the save fails, it holds what it held. *)
Theorem file_holds_committed open keep_txn cs base rows name p d p' d' r :
  let unfinished := open ∖ {[keep_txn]} in
  0 ∉ open → full_name name → TableFile.storable nl_dump (committed_rows open keep_txn rows) →
  Forall (change_fine unfinished) cs → committed_rows open keep_txn base = base → changes cs base rows →
  write_through open name rows keep_txn p d = (p', d', r) →
  match r with
  | Ok _ => changes (filter (λ c, made_by c ∉ unfinished) cs) base (load d' name)
  | Err _ => load d' name = load d name
  end.
Proof.
  intros unfinished Hz Hn Hs Hf Hb Hc Hw. unfold write_through, save_committed in Hw.
  destruct (save name (committed_rows open keep_txn rows) d) as [d1 [[]|msg]] eqn:Es; injection Hw as <- <- <-.
  - rewrite (disk_saved name _ d d1 Hn Hs Es). rewrite committed_rows_omap in *. apply changes_committed; [set_solver|done|done|done].
  - exact (disk_failed name _ d d1 msg Hn Hs Es).
Qed.
End over_files.

(** A version of user 1 ended by transaction 7, which is open, and one that it made. *)
Definition version (id name xmin xmax : list Z) : Row :=
  <[str "id" := id]> (<[str "name" := name]> (<[xmin_col := xmin]> (<[xmax_col := xmax]> ∅))).

Definition old_version : Row := version (str "1") (str "kim") (str "5") (str "0").
Definition new_version : Row := version (str "1") (str "lee") (str "7") (str "0").
Definition demo_changes : list change := [Create 5 old_version; Kill 7 old_version; Create 7 new_version].
Definition demo_table : list Row := [version (str "1") (str "kim") (str "5") (str "7"); new_version].

Lemma demo_changes_made : changes demo_changes [] demo_table.
Proof.
  assert (H0 : changes [] [] []) by constructor.
  assert (H1 : changes [Create 5 old_version] [] [old_version]).
  { apply (changes_more [] _ [] []); [done|]. by apply (apply_create 5 old_version []). }
  assert (H2 : changes [Create 5 old_version; Kill 7 old_version] [] [version (str "1") (str "kim") (str "5") (str "7")]).
  { eapply (changes_more [_]); [exact H1|].
    change [version (str "1") (str "kim") (str "5") (str "7")] with ([] ++ version (str "1") (str "kim") (str "5") (str "7") :: []).
    replace (version (str "1") (str "kim") (str "5") (str "7")) with (<[xmax_col := to_string 7]> old_version) by vm_decide.
    by apply (apply_kill 7 old_version [] []). }
  eapply (changes_more [_; _]); [exact H2|]. by apply (apply_create 7 new_version).
Qed.

#[local] Existing Instance stored.
#[local] Existing Instance stored_laws.

Abbreviation no_json := (λ _, Err []).

Lemma full_shop_users : full_name (str "shop.users").
Proof.
  split; [|by exists (str "shop", str "users")]. split; unfold no_slash; apply (bool_decide_unpack _); by vm_compute.
Qed.

Lemma old_version_valid : row_valid old_version.
Proof. unfold row_valid, old_version, version. repeat (apply map_Forall_insert_2; [by vm_compute|]). apply map_Forall_empty. Qed.

Lemma demo_table_storable : TableFile.storable no_json (committed_rows {[7]} 0 demo_table).
Proof.
  replace (committed_rows {[7]} 0 demo_table) with [old_version] by vm_decide.
  split; [apply Forall_singleton, old_version_valid|]. intros raw Hr. vm_compute in Hr. injection Hr as <-. by vm_compute.
Qed.

Lemma demo_changes_fine : Forall (change_fine ({[7]} ∖ {[0]})) demo_changes.
Proof.
  repeat (apply Forall_cons; split; [split; [cbn [made_by]; widths|first [exact I|intros Hm; vm_compute in Hm; discriminate Hm]]|]).
  by apply Forall_nil.
Qed.

Lemma zero_not_open : 0 ∉ ({[7]} : gset Z).
Proof. set_solver. Qed.

Lemma file_holds_committed_witness :
  let wt keep := write_through (H := @file_disk stored no_json no_json no_json (str "data")) {[7]} (str "shop.users") demo_table keep (empty_pool 2) (∅, []) in
  let loaded x := load_table (H := stored) no_json no_json (str "data") (fst x) (str "shop.users") in
  ∃ p' d', wt 0 = (p', d', Ok tt) ∧ changes [Create 5 old_version] [] (loaded d') ∧ loaded d' = [old_version].
Proof.
  intros wt loaded. assert (Er : (wt 0).2 = Ok tt ∧ loaded (wt 0).1.2 = [old_version]) by vm_decide.
  destruct (wt 0) as [[p' d'] r] eqn:E. destruct Er as [Er El]. simpl in Er, El. subst r. exists p', d'.
  split; [reflexivity|]. split; [|exact El].
  exact (@file_holds_committed stored stored_laws no_json no_json no_json (str "data") {[7]} 0 demo_changes [] demo_table (str "shop.users")
    (empty_pool 2) (∅, []) p' d' (Ok tt) zero_not_open full_shop_users demo_table_storable demo_changes_fine eq_refl demo_changes_made E).
Defined.

(** A pool of one page: the second table's page takes the place of the first's, which is saved. *)
Definition demo_disk : DiskManager := @file_disk stored no_json no_json no_json (str "data").
#[local] Existing Instance demo_disk.

Definition demo_step (op : pool_op) (s : BufferPool * disk * answer) : BufferPool * disk * answer := pool_step ∅ op s.1.1 s.1.2.
Definition demo_s0 : BufferPool * disk * answer := (empty_pool 1, (∅, []), Done).
Definition demo_s1 := demo_step (WritePage (str "shop.users") [old_version]) demo_s0.
Definition demo_s2 := demo_step (GetPage (str "shop.items")) demo_s1.
Definition demo_s3 := demo_step (GetPage (str "shop.users")) demo_s2.

Lemma full_shop_items : full_name (str "shop.items").
Proof.
  split; [|by exists (str "shop", str "items")]. split; unfold no_slash; apply (bool_decide_unpack _); by vm_compute.
Qed.

Lemma old_version_storable : TableFile.storable no_json [old_version].
Proof. split; [apply Forall_singleton, old_version_valid|]. intros raw Hr. vm_compute in Hr. injection Hr as <-. by vm_compute. Qed.

Lemma nothing_storable : TableFile.storable no_json [].
Proof. split; [by apply Forall_nil|]. intros raw Hr. vm_compute in Hr. injection Hr as <-. by vm_compute. Qed.

Lemma demo_allowed_1 : op_allowed full_name (TableFile.storable no_json) ∅ (WritePage (str "shop.users") [old_version]) demo_s0.1.1 demo_s0.1.2.
Proof. split; [exact full_shop_users|]. split; [exact old_version_storable|]. split; [vm_decide|]. intros _. by vm_compute. Qed.

Lemma demo_allowed_2 : op_allowed full_name (TableFile.storable no_json) ∅ (GetPage (str "shop.items")) demo_s1.1.1 demo_s1.1.2.
Proof.
  split; [exact full_shop_items|]. replace (load demo_s1.1.2 (str "shop.items")) with (@nil Row) by vm_decide.
  split; [exact nothing_storable|done].
Qed.

Lemma demo_allowed_3 : op_allowed full_name (TableFile.storable no_json) ∅ (GetPage (str "shop.users")) demo_s2.1.1 demo_s2.1.2.
Proof.
  split; [exact full_shop_users|]. replace (load demo_s2.1.2 (str "shop.users")) with [old_version] by vm_decide.
  split; [exact old_version_storable|vm_decide].
Qed.

Lemma demo_step_eq op s : pool_step ∅ op s.1.1 s.1.2 = ((demo_step op s).1.1, (demo_step op s).1.2, (demo_step op s).2).
Proof. unfold demo_step. by destruct (pool_step ∅ op s.1.1 s.1.2) as [[p d] a]. Qed.

Definition demo_trace : list (pool_op * answer) :=
  [(WritePage (str "shop.users") [old_version], demo_s1.2); (GetPage (str "shop.items"), demo_s2.2); (GetPage (str "shop.users"), demo_s3.2)].

Lemma demo_steps : pool_steps full_name (TableFile.storable no_json) ∅ (empty_pool 1) demo_s0.1.2 demo_trace demo_s3.1.1 demo_s3.1.2.
Proof.
  refine (steps_more _ _ _ _ _ [_; _] _ _ _ _ _ _ _ demo_allowed_3 (demo_step_eq _ _)).
  refine (steps_more _ _ _ _ _ [_] _ _ _ _ _ _ _ demo_allowed_2 (demo_step_eq _ _)).
  refine (steps_more _ _ _ _ _ [] _ _ _ _ _ _ _ demo_allowed_1 (demo_step_eq _ _)).
  exact (steps_none _ _ _ _ _).
Qed.


(** Without that condition: [write_page] into a full pool drops a dirty page without saving it. *)
Example dirty_page_dropped :
  let s := demo_step (WritePage (str "shop.items") []) demo_s1 in
  (demo_step (GetPage (str "shop.users")) s).2 = Shown [].
Proof. vm_decide. Qed.
