(* ===== verification/SharedMutex.v ===== *)
(** * The shared mutex (FairSharedMutex of include/engine/sync.hpp)

    A readers-writer lock on one mutex and one condition variable. Every stretch of a call between taking
    the inner mutex and letting go of it (at its end, or in [cv_.wait]) is one step of a thread. A thread in
    [cv_.wait] sleeps until it is notified or wakes for no reason, and then tests its condition again. *)
From S2P Require Import Prelude.

#[local] Open Scope Z_scope.

(** Where a thread is; one the map has no entry for is outside. *)
Inductive phase : Set :=
  | Outside
  | SleepWrite | AwakeWrite | SleepRead | AwakeRead
  | Writing | Reading.

#[export] Instance phase_eq_dec : EqDecision phase.
Proof. solve_decision. Defined.

Record FairSharedMutex := mkMutex {
  readers_active : Z;
  writers_waiting : Z;
  writer_active : bool;
  exclusive_count : Z;
  phases : gmap nat phase
}.

Definition fresh_mutex : FairSharedMutex := mkMutex 0 0 false 0 ∅.

Definition phase_of (t : nat) (s : FairSharedMutex) : phase := default Outside (phases s !! t).

(** The conditions that lock() and lock_shared() wait for. *)
Definition can_write (s : FairSharedMutex) : bool := negb (writer_active s) && (readers_active s =? 0).
Definition can_read (s : FairSharedMutex) : bool := negb (writer_active s) && (writers_waiting s =? 0).

Definition at_phase (t : nat) (p : phase) (s : FairSharedMutex) : FairSharedMutex :=
  mkMutex (readers_active s) (writers_waiting s) (writer_active s) (exclusive_count s) (<[t := p]> (phases s)).

Definition wake (p : phase) : phase := match p with SleepWrite => AwakeWrite | SleepRead => AwakeRead | p => p end.

(** cv_.notify_all() *)
Definition notify_all (s : FairSharedMutex) : FairSharedMutex :=
  mkMutex (readers_active s) (writers_waiting s) (writer_active s) (exclusive_count s) (wake <$> phases s).

(** lock() from the test of the condition on. *)
Definition write_or_sleep (t : nat) (s : FairSharedMutex) : FairSharedMutex :=
  if can_write s then
    at_phase t Writing (mkMutex (readers_active s) (writers_waiting s - 1) true (wrap64 (exclusive_count s + 1)) (phases s))
  else at_phase t SleepWrite s.

Definition lock (t : nat) (s : FairSharedMutex) : FairSharedMutex :=
  write_or_sleep t (mkMutex (readers_active s) (writers_waiting s + 1) (writer_active s) (exclusive_count s) (phases s)).

Definition unlock (t : nat) (s : FairSharedMutex) : FairSharedMutex :=
  notify_all (at_phase t Outside (mkMutex (readers_active s) (writers_waiting s) false (exclusive_count s) (phases s))).

(** lock_shared(), and from the test of the condition on. *)
Definition read_or_sleep (t : nat) (s : FairSharedMutex) : FairSharedMutex :=
  if can_read s then
    at_phase t Reading (mkMutex (readers_active s + 1) (writers_waiting s) (writer_active s) (exclusive_count s) (phases s))
  else at_phase t SleepRead s.

Definition lock_shared (t : nat) (s : FairSharedMutex) : FairSharedMutex := read_or_sleep t s.

Definition unlock_shared (t : nat) (s : FairSharedMutex) : FairSharedMutex :=
  let s := at_phase t Outside (mkMutex (readers_active s - 1) (writers_waiting s) (writer_active s) (exclusive_count s) (phases s)) in
  if readers_active s =? 0 then notify_all s else s.

(** ** Steps *)

Inductive move :=
  | Lock (t : nat)
  | Unlock (t : nat)
  | LockShared (t : nat)
  | UnlockShared (t : nat)
  | Resume (t : nat)
  | Spurious (t : nat).

(** Callers unlock what they hold; [Resume] is an awake thread taking the inner mutex again. *)
Definition step (m : move) (s : FairSharedMutex) : option FairSharedMutex :=
  match m with
  | Lock t => if decide (phase_of t s = Outside) then Some (lock t s) else None
  | LockShared t => if decide (phase_of t s = Outside) then Some (lock_shared t s) else None
  | Unlock t => if decide (phase_of t s = Writing) then Some (unlock t s) else None
  | UnlockShared t => if decide (phase_of t s = Reading) then Some (unlock_shared t s) else None
  | Resume t =>
      match phase_of t s with
      | AwakeWrite => Some (write_or_sleep t s)
      | AwakeRead => Some (read_or_sleep t s)
      | _ => None
      end
  | Spurious t =>
      match phase_of t s with
      | SleepWrite | SleepRead => Some (at_phase t (wake (phase_of t s)) s)
      | _ => None
      end
  end.

Inductive reachable : FairSharedMutex → Prop :=
  | reachable_fresh : reachable fresh_mutex
  | reachable_step m s s' : reachable s → step m s = Some s' → reachable s'.

(** ** Counting threads *)

Definition writing (p : phase) : bool := match p with Writing => true | _ => false end.
Definition reading (p : phase) : bool := match p with Reading => true | _ => false end.
Definition wants_write (p : phase) : bool := match p with SleepWrite | AwakeWrite => true | _ => false end.

Definition count (P : phase → bool) (m : gmap nat phase) : Z := Z.of_nat (size (filter (λ e, P e.2 = true) m)).

Lemma count_insert (P : phase → bool) m t p :
  P Outside = false → count P (<[t := p]> m) = count P m - Z.b2z (P (default Outside (m !! t))) + Z.b2z (P p).
Proof.
  intros Hout. unfold count.
  assert (Hd : ∀ m' : gmap nat phase, Z.of_nat (size (filter (λ e : nat * phase, P e.2 = true) m')) =
    Z.of_nat (size (filter (λ e : nat * phase, P e.2 = true) (delete t m'))) + Z.b2z (P (default Outside (m' !! t)))).
  { intros m'. rewrite map_filter_delete, map_size_delete. rewrite map_lookup_filter. destruct (m' !! t) as [q|] eqn:E; simpl; [|rewrite Hout; simpl; lia].
    destruct (P q) eqn:Eq; simpl; rewrite ?option_guard_True, ?option_guard_False by congruence; simpl; [|lia].
    assert (size (filter (λ e : nat * phase, P e.2 = true) m') ≠ 0%nat); [|lia].
    intros Hz%map_size_empty_inv. assert (Hl : filter (λ e : nat * phase, P e.2 = true) m' !! t = Some q) by (by apply map_lookup_filter_Some).
    by rewrite Hz, lookup_empty in Hl. }
  rewrite (Hd (<[t := p]> m)), (Hd m), delete_insert_eq, lookup_insert_eq. simpl. lia.
Qed.

Lemma count_wake (P : phase → bool) m : (∀ p, P (wake p) = P p) → count P (wake <$> m) = count P m.
Proof.
  intros HP. unfold count. f_equal. rewrite map_filter_fmap, map_size_fmap. f_equal. apply map_filter_ext. intros i x _. simpl. by rewrite HP.
Qed.

Lemma count_nonneg P m : 0 ≤ count P m.
Proof. unfold count. lia. Qed.

Lemma count_pos P m t : P Outside = false → P (default Outside (m !! t)) = true → 0 < count P m.
Proof.
  intros Hout Ht. pose proof (count_insert P m t Outside Hout) as E. rewrite Ht, Hout in E. simpl in E. pose proof (count_nonneg P (<[t := Outside]> m)). lia.
Qed.

Lemma count_pos_inv P m : 0 < count P m → ∃ t, P (default Outside (m !! t)) = true.
Proof.
  intros H. unfold count in H. destruct (map_choose (filter (λ e : nat * phase, P e.2 = true) m)) as (t & p & E).
  { intros E. rewrite E, map_size_empty in H. lia. }
  apply map_lookup_filter_Some in E as [E Hp]. exists t. by rewrite E.
Qed.

(** ** The invariant

    The counters count the threads; a writer is alone; and nobody sleeps who could go on. *)
Record mutex_ok (s : FairSharedMutex) : Prop := {
  ok_readers : readers_active s = count reading (phases s);
  ok_waiting : writers_waiting s = count wants_write (phases s);
  ok_writers : count writing (phases s) = Z.b2z (writer_active s);
  ok_alone : writer_active s = true → readers_active s = 0;
  ok_sleep_write t : phase_of t s = SleepWrite → can_write s = false;
  ok_sleep_read t : phase_of t s = SleepRead → can_read s = false
}.

Lemma phase_at t p s t' : phase_of t' (at_phase t p s) = if decide (t' = t) then p else phase_of t' s.
Proof.
  unfold phase_of, at_phase. simpl. destruct (decide (t' = t)) as [->|Hne]; [by rewrite lookup_insert_eq|by rewrite lookup_insert_ne].
Qed.

Lemma phase_notify t s : phase_of t (notify_all s) = wake (phase_of t s).
Proof. unfold phase_of, notify_all. simpl. rewrite lookup_fmap. by destruct (phases s !! t) as [p|]. Qed.

Lemma awake_no_sleep p : wake p ≠ SleepWrite ∧ wake p ≠ SleepRead.
Proof. by destruct p. Qed.

(** The counters of a state with one thread moved. *)
Ltac counts t s :=
  let H1 := fresh "Cw" in let H2 := fresh "Cr" in let H3 := fresh "Cx" in
  pose proof (λ p, count_insert wants_write (phases s) t p eq_refl) as H1;
  pose proof (λ p, count_insert reading (phases s) t p eq_refl) as H2;
  pose proof (λ p, count_insert writing (phases s) t p eq_refl) as H3;
  fold (phase_of t s) in H1, H2, H3.

Ltac counters Cw Cr Cx := cbn [at_phase notify_all readers_active writers_waiting writer_active phases]; rewrite ?Cw, ?Cr, ?Cx; simpl; try lia; try done.

Lemma ok_write_or_sleep t s :
  mutex_ok s → phase_of t s = AwakeWrite → mutex_ok (write_or_sleep t s).
Proof.
  intros [O1 O2 O3 O4 O5 O6] Hp. counts t s. rewrite Hp in Cw, Cr, Cx. unfold write_or_sleep. destruct (can_write s) eqn:Ec.
  - unfold can_write in Ec. bool_cases. rewrite H in O3. simpl in O3. split; counters Cw Cr Cx.
  - split; counters Cw Cr Cx; intros t'; rewrite phase_at; (case_decide; [first [done|intros _; exact Ec]|]); first [exact (O5 t')|exact (O6 t')].
Qed.

Lemma ok_read_or_sleep t s :
  mutex_ok s → phase_of t s = AwakeRead ∨ phase_of t s = Outside → mutex_ok (read_or_sleep t s).
Proof.
  intros [O1 O2 O3 O4 O5 O6] Hp. counts t s. unfold read_or_sleep.
  assert (Hz : Z.b2z (wants_write (phase_of t s)) = 0 ∧ Z.b2z (reading (phase_of t s)) = 0 ∧ Z.b2z (writing (phase_of t s)) = 0) by (by destruct Hp as [-> | ->]).
  destruct Hz as (Z1 & Z2 & Z3). rewrite Z1 in Cw. rewrite Z2 in Cr. rewrite Z3 in Cx. destruct (can_read s) eqn:Ec.
  - unfold can_read in Ec. bool_cases. split; counters Cw Cr Cx.
    + congruence.
    + intros t' Ht'. rewrite phase_at in Ht'. case_decide; [done|]. change (phase_of t' s = SleepWrite) in Ht'. specialize (O5 t' Ht'). exfalso.
      assert (0 < count wants_write (phases s)) by (apply (count_pos _ _ t'); [done|]; fold (phase_of t' s); by rewrite Ht'). lia.
    + intros t' Ht'. rewrite phase_at in Ht'. case_decide; [done|]. change (phase_of t' s = SleepRead) in Ht'. by specialize (O6 t' Ht').
  - split; counters Cw Cr Cx; intros t'; rewrite phase_at; (case_decide; [first [done|intros _; exact Ec]|]); first [exact (O5 t')|exact (O6 t')].
Qed.

Lemma ok_notify s : mutex_ok s → mutex_ok (notify_all s).
Proof.
  intros [O1 O2 O3 O4 O5 O6]. split; cbn [notify_all readers_active writers_waiting writer_active phases]; rewrite ?count_wake by (by intros []); try done.
  - intros t. rewrite phase_notify. by destruct (awake_no_sleep (phase_of t s)).
  - intros t. rewrite phase_notify. by destruct (awake_no_sleep (phase_of t s)).
Qed.

(** As [notify_all], when the sleepers' conditions may have become true. *)
Lemma ok_notify' s :
  readers_active s = count reading (phases s) → writers_waiting s = count wants_write (phases s) →
  count writing (phases s) = Z.b2z (writer_active s) → (writer_active s = true → readers_active s = 0) → mutex_ok (notify_all s).
Proof.
  intros O1 O2 O3 O4. split; cbn [notify_all readers_active writers_waiting writer_active phases]; rewrite ?count_wake by (by intros []); try done.
  - intros t. rewrite phase_notify. by destruct (awake_no_sleep (phase_of t s)).
  - intros t. rewrite phase_notify. by destruct (awake_no_sleep (phase_of t s)).
Qed.

Lemma write_or_sleep_at t p s : write_or_sleep t (at_phase t p s) = write_or_sleep t s.
Proof. unfold write_or_sleep, at_phase, can_write. cbn. destruct (_ && _); cbn; by rewrite insert_insert_eq. Qed.

Lemma ok_lock t s : mutex_ok s → phase_of t s = Outside → mutex_ok (lock t s).
Proof.
  intros [O1 O2 O3 O4 O5 O6] Hp. unfold lock. rewrite <- (write_or_sleep_at t AwakeWrite). set (s' := mkMutex _ _ _ _ _).
  apply ok_write_or_sleep; [|rewrite phase_at; by rewrite decide_True]. counts t s. rewrite Hp in Cw, Cr, Cx. split; counters Cw Cr Cx.
  - intros t'. rewrite phase_at. case_decide; [done|]. apply O5.
  - intros t' Ht'. rewrite phase_at in Ht'. case_decide; [done|]. unfold can_read. cbn.
    pose proof (count_nonneg wants_write (phases s)). rewrite (proj2 (Z.eqb_neq (writers_waiting s + 1) 0)) by lia. by rewrite andb_false_r.
Qed.

Lemma ok_unlock t s : mutex_ok s → phase_of t s = Writing → mutex_ok (unlock t s).
Proof.
  intros [O1 O2 O3 O4 O5 O6] Hp. counts t s. rewrite Hp in Cw, Cr, Cx. unfold unlock.
  assert (Ha : writer_active s = true).
  { destruct (writer_active s); [done|]. simpl in O3. exfalso.
    assert (0 < count writing (phases s)) by (apply (count_pos _ _ t); [done|]; fold (phase_of t s); by rewrite Hp). lia. }
  rewrite Ha in O3. simpl in O3. apply ok_notify'; counters Cw Cr Cx.
Qed.

Lemma ok_unlock_shared t s : mutex_ok s → phase_of t s = Reading → mutex_ok (unlock_shared t s).
Proof.
  intros [O1 O2 O3 O4 O5 O6] Hp. counts t s. rewrite Hp in Cw, Cr, Cx. simpl in Cw, Cr, Cx. unfold unlock_shared.
  assert (Hr : 0 < count reading (phases s)) by (apply (count_pos _ _ t); [done|]; fold (phase_of t s); by rewrite Hp).
  assert (Ha : writer_active s = false) by (destruct (writer_active s); [specialize (O4 eq_refl); lia|done]).
  rewrite Ha in O3. simpl in O3. set (s' := at_phase _ _ _). destruct (Z.eqb_spec (readers_active s') 0) as [Hz|Hz]; cbn in Hz.
  - apply ok_notify'; unfold s'; counters Cw Cr Cx; try (rewrite Ha; simpl; lia); try congruence.
  - unfold s'. split; counters Cw Cr Cx; try (rewrite Ha; simpl; lia); try congruence.
    + intros t'. rewrite phase_at. case_decide; [done|]. intros Ht'. unfold can_write. cbn. by rewrite (proj2 (Z.eqb_neq _ 0)), andb_false_r.
    + intros t'. rewrite phase_at. case_decide; [done|]. apply O6.
Qed.

Lemma ok_spurious t s : mutex_ok s → phase_of t s = SleepWrite ∨ phase_of t s = SleepRead → mutex_ok (at_phase t (wake (phase_of t s)) s).
Proof.
  intros [O1 O2 O3 O4 O5 O6] Hp. counts t s. destruct Hp as [Hp|Hp]; rewrite Hp in *; simpl wake; split; counters Cw Cr Cx.
  all: intros t'; rewrite phase_at; case_decide; [done|]; first [exact (O5 t')|exact (O6 t')].
Qed.

Lemma step_ok m s s' : mutex_ok s → step m s = Some s' → mutex_ok s'.
Proof.
  intros Hs E. destruct m as [t|t|t|t|t|t]; cbn [step] in E; repeat case_decide; simplify_eq.
  - by apply ok_lock.
  - by apply ok_unlock.
  - apply ok_read_or_sleep; auto.
  - by apply ok_unlock_shared.
  - destruct (phase_of t s) eqn:Ep; simplify_eq; [by apply ok_write_or_sleep|]. apply ok_read_or_sleep; auto.
  - assert (Hp : phase_of t s = SleepWrite ∨ phase_of t s = SleepRead) by (destruct (phase_of t s); simplify_eq; auto).
    pose proof (ok_spurious t s Hs Hp) as Ho. destruct Hp as [Hp|Hp]; rewrite Hp in *; by simplify_eq.
Qed.

Lemma reachable_ok s : reachable s → mutex_ok s.
Proof.
  induction 1 as [|m s s' _ IH E]; [|by eapply step_ok].
  split; try done; intros t; unfold phase_of; simpl; by rewrite lookup_empty.
Qed.

(** ** A waiting writer *)

(** How far a state is from letting a writer in. *)
Definition inside (s : FairSharedMutex) : Z := readers_active s + Z.b2z (writer_active s).

Definition leaves (m : move) : Prop := match m with Unlock _ | UnlockShared _ => True | _ => False end.

Lemma inside_nonneg s : mutex_ok s → 0 ≤ inside s.
Proof. intros [O1 _ _ _ _ _]. unfold inside. rewrite O1. pose proof (count_nonneg reading (phases s)). destruct (writer_active s); simpl; lia. Qed.

Lemma inside_pos_inv s : mutex_ok s → can_write s = false → ∃ t, phase_of t s = Writing ∨ phase_of t s = Reading.
Proof.
  intros [O1 O2 O3 _ _ _] Hc. unfold can_write in Hc. apply andb_false_iff in Hc as [Hc|Hc].
  - apply negb_false_iff in Hc. rewrite Hc in O3. destruct (count_pos_inv writing (phases s)) as [t Ht]; [simpl in O3; lia|]. exists t. left.
    unfold phase_of. by destruct (default Outside (phases s !! t)).
  - apply Z.eqb_neq in Hc. pose proof (count_nonneg reading (phases s)). destruct (count_pos_inv reading (phases s)) as [t Ht]; [lia|].
    exists t. right. unfold phase_of. by destruct (default Outside (phases s !! t)).
Qed.

Lemma waiting_inv s : mutex_ok s → 0 < writers_waiting s → can_write s = true → ∃ t, phase_of t s = AwakeWrite.
Proof.
  intros [_ O2 _ _ O5 _] Hw Hc. rewrite O2 in Hw. apply count_pos_inv in Hw as [t Ht]. fold (phase_of t s) in Ht. exists t.
  destruct (phase_of t s) eqn:E; try done. specialize (O5 t E). congruence.
Qed.

(** What a step does while a writer waits and none gets in. *)
Record waits_on (m : move) (s s' : FairSharedMutex) : Prop := {
  on_waiting : writers_waiting s ≤ writers_waiting s';
  on_inside : inside s' ≤ inside s;
  on_leave : leaves m → inside s' < inside s;
  on_ready : can_write s = true → can_write s' = true;
  on_awake t : can_write s = true → phase_of t s = AwakeWrite → m ≠ Resume t ∧ phase_of t s' = AwakeWrite
}.

Definition gets_in (s s' : FairSharedMutex) : Prop := writer_active s = false ∧ writer_active s' = true.

Lemma step_waits m s s' :
  mutex_ok s → 0 < writers_waiting s → step m s = Some s' → gets_in s s' ∨ waits_on m s s'.
Proof.
  intros Hok Hw E. pose proof Hok as [O1 O2 O3 O4 O5 O6]. assert (Hnr : can_read s = false).
  { unfold can_read. rewrite (proj2 (Z.eqb_neq (writers_waiting s) 0)) by lia. by rewrite andb_false_r. }
  destruct m as [t|t|t|t|t|t]; cbn [step] in E; repeat case_decide; simplify_eq.
  - unfold lock, write_or_sleep, gets_in. set (s0 := mkMutex _ _ _ _ _). change (can_write s0) with (can_write s). destruct (can_write s) eqn:Ec.
    + left. unfold can_write in Ec. bool_cases. done.
    + right. split; try done; unfold inside; cbn; try lia; congruence.
  - right. assert (Ha : writer_active s = true).
    { destruct (writer_active s); [done|]. simpl in O3. exfalso.
      assert (0 < count writing (phases s)) by (apply (count_pos _ _ t); [done|]; fold (phase_of t s); by rewrite H). lia. }
    assert (Hc : can_write s = false) by (unfold can_write; by rewrite Ha).
    split; try congruence; unfold unlock, inside; cbn; rewrite ?Ha; simpl; lia.
  - right. unfold lock_shared, read_or_sleep. rewrite Hnr. split; try done; unfold inside; cbn; try lia.
    intros u _ Hu. split; [done|]. rewrite phase_at. case_decide; [congruence|done].
  - right. assert (Hr : 0 < readers_active s).
    { rewrite O1. apply (count_pos _ _ t); [done|]. fold (phase_of t s). by rewrite H. }
    assert (Hc : can_write s = false).
    { unfold can_write. rewrite (proj2 (Z.eqb_neq (readers_active s) 0)) by lia. by rewrite andb_false_r. }
    unfold unlock_shared. set (s1 := at_phase _ _ _). destruct (readers_active s1 =? 0); split; try congruence; unfold inside; cbn; lia.
  - destruct (phase_of t s) eqn:Ep; simplify_eq.
    + unfold write_or_sleep, gets_in. destruct (can_write s) eqn:Ec.
      * left. unfold can_write in Ec. bool_cases. done.
      * right. split; try done; unfold inside; cbn; try lia; congruence.
    + right. unfold read_or_sleep. rewrite Hnr. split; try done; unfold inside; cbn; try lia.
      intros u _ Hu. split; [congruence|]. rewrite phase_at. case_decide; [congruence|done].
  - right. assert (Hs' : s' = at_phase t (wake (phase_of t s)) s) by (destruct (phase_of t s); by simplify_eq).
    subst s'. split; try done; unfold inside; cbn; try lia.
    intros u _ Hu. split; [done|]. rewrite phase_at. case_decide; [|done]. subst u. rewrite Hu in E. done.
Qed.

(** No reader gets in while a writer waits. *)
Lemma step_no_reader m s s' u :
  mutex_ok s → 0 < writers_waiting s → step m s = Some s' → phase_of u s' = Reading → phase_of u s = Reading.
Proof.
  intros Hok Hw E. assert (Hnr : can_read s = false).
  { unfold can_read. rewrite (proj2 (Z.eqb_neq (writers_waiting s) 0)) by lia. by rewrite andb_false_r. }
  assert (Hwake : ∀ p, wake p = Reading → p = Reading) by (by intros []).
  destruct m as [t|t|t|t|t|t]; cbn [step] in E; repeat case_decide; simplify_eq; intros Hu.
  - unfold lock, write_or_sleep in Hu. destruct (can_write _); rewrite phase_at in Hu; by case_decide.
  - unfold unlock in Hu. rewrite phase_notify, phase_at in Hu. case_decide; [done|]. by apply Hwake.
  - unfold lock_shared, read_or_sleep in Hu. rewrite Hnr, phase_at in Hu. by case_decide.
  - unfold unlock_shared in Hu. destruct (_ =? 0); rewrite ?phase_notify, phase_at in Hu; case_decide; try done. by apply Hwake.
  - destruct (phase_of t s) eqn:Ep; simplify_eq.
    + unfold write_or_sleep in Hu. destruct (can_write _); rewrite phase_at in Hu; by case_decide.
    + unfold read_or_sleep in Hu. rewrite Hnr, phase_at in Hu. by case_decide.
  - assert (Hs' : s' = at_phase t (wake (phase_of t s)) s) by (destruct (phase_of t s); by simplify_eq). subst s'.
    rewrite phase_at in Hu. case_decide; [|done]. subst. by apply Hwake.
Qed.

(** ** Runs *)

Section run.
Context (run : nat → FairSharedMutex) (moves : nat → move).
Context (Hstart : run 0%nat = fresh_mutex) (Hsteps : ∀ n, step (moves n) (run n) = Some (run (S n))).

Lemma run_ok n : mutex_ok (run n).
Proof.
  induction n as [|n IH]; [rewrite Hstart; apply reachable_ok, reachable_fresh|]. by eapply step_ok.
Qed.

(** Some writer gets in at step [n]; up to it every step is a waiting one. *)
Lemma waits_until n m :
  (n ≤ m)%nat → 0 < writers_waiting (run n) →
  (∃ k, (n ≤ k < m)%nat ∧ gets_in (run k) (run (S k)) ∧ ∀ i, (n ≤ i ≤ k)%nat → 0 < writers_waiting (run i)) ∨
  (∀ i, (n ≤ i ≤ m)%nat → 0 < writers_waiting (run i)) ∧ (∀ i, (n ≤ i < m)%nat → waits_on (moves i) (run i) (run (S i))).
Proof.
  intros Hnm Hw. induction m as [|m IH].
  - right. split; intros i Hi; [by replace i with n by lia|lia].
  - destruct (decide (n = S m)) as [->|Hne]; [right; split; intros i Hi; [by replace i with (S m) by lia|lia]|].
    destruct (IH ltac:(lia)) as [(k & Hk & Hin & Hall)|[Hall Hon]]; [left; exists k; split; [lia|split; [exact Hin|exact Hall]]|].
    destruct (step_waits (moves m) (run m) (run (S m)) (run_ok m) (Hall m ltac:(lia)) (Hsteps m)) as [Hin|Hstep].
    + left. exists m. split; [lia|]. split; [exact Hin|]. intros i Hi. apply Hall. lia.
    + right. split.
      * intros i Hi. destruct (decide (i = S m)) as [->|]; [|apply Hall; lia]. pose proof (on_waiting _ _ _ Hstep). pose proof (Hall m ltac:(lia)). lia.
      * intros i Hi. destruct (decide (i = m)) as [->|]; [done|apply Hon; lia].
Qed.

Lemma waits_inside n m : (∀ i, (n ≤ i < m)%nat → waits_on (moves i) (run i) (run (S i))) → (n ≤ m)%nat → inside (run m) ≤ inside (run n).
Proof.
  intros Hon Hnm. induction m as [|m IH]; [replace n with 0%nat by lia; lia|]. destruct (decide (n = S m)) as [->|]; [lia|].
  pose proof (on_inside _ _ _ (Hon m ltac:(lia))). specialize (IH ltac:(intros i Hi; apply Hon; lia) ltac:(lia)). lia.
Qed.

Lemma waits_ready n m t :
  (∀ i, (n ≤ i < m)%nat → waits_on (moves i) (run i) (run (S i))) → (n ≤ m)%nat → can_write (run n) = true → phase_of t (run n) = AwakeWrite →
  can_write (run m) = true ∧ phase_of t (run m) = AwakeWrite.
Proof.
  intros Hon Hnm Hc Hp. induction m as [|m IH]; [by replace n with 0%nat in * by lia|]. destruct (decide (n = S m)) as [->|]; [done|].
  destruct (IH ltac:(intros i Hi; apply Hon; lia) ltac:(lia)) as [Hc' Hp']. pose proof (Hon m ltac:(lia)) as Hm.
  split; [by apply (on_ready _ _ _ Hm)|]. by apply (on_awake _ _ _ Hm t).
Qed.

(** Whoever is inside leaves some day, and a thread that is awake takes the inner mutex some day. *)
Context (Hleave : ∀ n t, phase_of t (run n) = Writing ∨ phase_of t (run n) = Reading → ∃ m, (n ≤ m)%nat ∧ (moves m = Unlock t ∨ moves m = UnlockShared t)).
Context (Hresume : ∀ n t, phase_of t (run n) = AwakeWrite ∨ phase_of t (run n) = AwakeRead → ∃ m, (n ≤ m)%nat ∧ moves m = Resume t).

Lemma writer_gets_in n :
  0 < writers_waiting (run n) →
  ∃ m, (n ≤ m)%nat ∧ gets_in (run m) (run (S m)) ∧ ∀ i, (n ≤ i ≤ m)%nat → 0 < writers_waiting (run i).
Proof.
  remember (Z.to_nat (inside (run n))) as d eqn:Ed. revert n Ed. induction d as [d IH] using lt_wf_ind. intros n -> Hw.
  destruct (can_write (run n)) eqn:Ec.
  - destruct (waiting_inv _ (run_ok n) Hw Ec) as [t Ht]. destruct (Hresume n t ltac:(auto)) as (m & Hm & Em).
    destruct (waits_until n (S m) ltac:(lia) Hw) as [(k & Hk & Hin & Hall)|[Hall Hon]]; [exists k; split; [lia|split; [exact Hin|exact Hall]]|].
    destruct (waits_ready n m t ltac:(intros i Hi; apply Hon; lia) Hm Ec Ht) as [Hc' Ht'].
    destruct (on_awake _ _ _ (Hon m ltac:(lia)) t Hc' Ht') as [Hne _]. done.
  - destruct (inside_pos_inv _ (run_ok n) Ec) as [t Ht]. destruct (Hleave n t Ht) as (m & Hm & Em).
    destruct (waits_until n (S m) ltac:(lia) Hw) as [(k & Hk & Hin & Hall)|[Hall Hon]]; [exists k; split; [lia|split; [exact Hin|exact Hall]]|].
    assert (Hlv : leaves (moves m)) by (by destruct Em as [-> | ->]). pose proof (on_leave _ _ _ (Hon m ltac:(lia)) Hlv) as Hlt.
    pose proof (waits_inside n m ltac:(intros i Hi; apply Hon; lia) Hm) as Hle. pose proof (inside_nonneg _ (run_ok (S m))).
    destruct (IH (Z.to_nat (inside (run (S m)))) ltac:(lia) (S m) eq_refl (Hall (S m) ltac:(lia))) as (k & Hk & Hin & Hall').
    exists k. split; [lia|]. split; [exact Hin|]. intros i Hi. destruct (decide (i ≤ S m)%nat); [apply Hall; lia|apply Hall'; lia].
Qed.
End run.

Lemma gets_in_thread s s' : mutex_ok s → mutex_ok s' → gets_in s s' → ∃ t, phase_of t s ≠ Writing ∧ phase_of t s' = Writing.
Proof.
  intros Hs Hs' [Ha Ha']. pose proof (ok_writers s) as O3. pose proof (ok_writers s' Hs') as O3'. rewrite Ha' in O3'.
  destruct (count_pos_inv writing (phases s')) as [t Ht]; [simpl in O3'; lia|]. exists t. fold (phase_of t s') in Ht. split; [|by destruct (phase_of t s')].
  intros Hw. specialize (O3 Hs). rewrite Ha in O3. simpl in O3.
  assert (0 < count writing (phases s)) by (apply (count_pos _ _ t); [done|]; fold (phase_of t s); by rewrite Hw). lia.
Qed.

(** ** Properties *)

(** The lock excludes and loses no wake-up. However threads call and are scheduled, a thread that writes
    is inside alone; and a thread asleep in [cv_.wait] is one whose condition does not hold, so that nobody
    is left asleep that could go on. *)
Theorem mutex_sound s :
  reachable s →
  (∀ t u, phase_of t s = Writing → u ≠ t → phase_of u s ≠ Writing ∧ phase_of u s ≠ Reading) ∧
  (∀ t, phase_of t s = SleepWrite → can_write s = false) ∧ (∀ t, phase_of t s = SleepRead → can_read s = false).
Proof.
  intros Hr. destruct (reachable_ok s Hr) as [O1 O2 O3 O4 O5 O6]. split; [|by split].
  intros t u Ht Hne. pose proof (count_insert writing (phases s) t Outside eq_refl) as Ct. fold (phase_of t s) in Ct. rewrite Ht in Ct. simpl in Ct.
  pose proof (count_nonneg writing (<[t := Outside]> (phases s))).
  assert (Ha : writer_active s = true) by (destruct (writer_active s); [done|simpl in O3; lia]). rewrite Ha in O3. simpl in O3. split; intros Hu.
  - assert (0 < count writing (<[t := Outside]> (phases s))); [|lia]. apply (count_pos _ _ u); [done|]. rewrite lookup_insert_ne by done.
    fold (phase_of u s). by rewrite Hu.
  - assert (0 < count reading (phases s)) by (apply (count_pos _ _ u); [done|]; fold (phase_of u s); by rewrite Hu). specialize (O4 Ha). lia.
Qed.

(** C21: writers are not starved. In every run in which whoever is inside leaves some day and a woken thread takes
    the inner mutex some day, a writer that waits is followed by a writer that gets in, and from the moment
    it waits until then no reader gets in, however many come. *)
Theorem writer_not_starved (run : nat → FairSharedMutex) (moves : nat → move) n t :
  run 0%nat = fresh_mutex → (∀ k, step (moves k) (run k) = Some (run (S k))) →
  (∀ k u, phase_of u (run k) = Writing ∨ phase_of u (run k) = Reading → ∃ m, (k ≤ m)%nat ∧ (moves m = Unlock u ∨ moves m = UnlockShared u)) →
  (∀ k u, phase_of u (run k) = AwakeWrite ∨ phase_of u (run k) = AwakeRead → ∃ m, (k ≤ m)%nat ∧ moves m = Resume u) →
  wants_write (phase_of t (run n)) = true →
  ∃ m, (n ≤ m)%nat ∧ (∃ w, phase_of w (run m) ≠ Writing ∧ phase_of w (run (S m)) = Writing) ∧
    ∀ k u, (n ≤ k ≤ m)%nat → phase_of u (run (S k)) = Reading → phase_of u (run k) = Reading.
Proof.
  intros H0 Hs Hl Hr Ht. pose proof (run_ok run moves H0 Hs) as Hok.
  assert (Hw : 0 < writers_waiting (run n)) by (rewrite (ok_waiting _ (Hok n)); by apply (count_pos _ _ t)).
  destruct (writer_gets_in run moves H0 Hs Hl Hr n Hw) as (m & Hm & Hin & Hall). exists m. split; [done|]. split.
  - by apply gets_in_thread.
  - intros k u Hk Hu. exact (step_no_reader (moves k) (run k) (run (S k)) u (Hok k) (Hall k Hk) (Hs k) Hu).
Qed.

(** A reader holds the lock as a writer comes; the writer gets in after it, and readers follow for ever. *)
Definition demo_moves (k : nat) : move :=
  match k with
  | 0%nat => LockShared 1 | 1%nat => Lock 2 | 2%nat => UnlockShared 1 | 3%nat => Resume 2 | 4%nat => Unlock 2
  | S (S (S (S (S j)))) => if Nat.even j then LockShared 1 else UnlockShared 1
  end.

Fixpoint demo_run (k : nat) : FairSharedMutex :=
  match k with O => fresh_mutex | S k => default (demo_run k) (step (demo_moves k) (demo_run k)) end.

Lemma demo_period j : demo_run (5 + 2 * j) = demo_run 5 ∧ demo_run (6 + 2 * j) = demo_run 6.
Proof.
  induction j as [|j [E5 E6]]; [done|].
  assert (H5 : demo_run (5 + 2 * S j) = demo_run 5).
  { replace (5 + 2 * S j)%nat with (S (6 + 2 * j)) by lia. cbn [demo_run]. rewrite E6.
    replace (demo_moves (6 + 2 * j)) with (UnlockShared 1); [by vm_compute|].
    cbn [demo_moves Nat.add]. rewrite Nat.even_succ, <- Nat.negb_even, Nat.even_mul. done. }
  split; [done|]. replace (6 + 2 * S j)%nat with (S (5 + 2 * S j)) by lia. cbn [demo_run]. rewrite H5.
  replace (demo_moves (5 + 2 * S j)) with (LockShared 1); [by vm_compute|].
  cbn [demo_moves Nat.add]. by rewrite Nat.even_mul.
Qed.

(** Every moment of the run is one of its first seven, or repeats one. *)
Lemma demo_cases (P : nat → Prop) :
  (∀ k, (k < 5)%nat → P k) → (∀ j, P (5 + 2 * j)%nat) → (∀ j, P (6 + 2 * j)%nat) → ∀ k, P k.
Proof.
  intros H1 H2 H3 k. destruct (decide (k < 5)%nat) as [Hk|Hk]; [by apply H1|].
  destruct (Nat.even (k - 5)) eqn:E.
  - apply Nat.even_spec in E as [j Ej]. replace k with (5 + 2 * j)%nat by lia. apply H2.
  - assert (Ho : Nat.odd (k - 5) = true) by (rewrite <- Nat.negb_even, E; done). apply Nat.odd_spec in Ho as [j Ej].
    replace k with (6 + 2 * j)%nat by lia. apply H3.
Qed.

Lemma demo_moves_even j : demo_moves (5 + 2 * j) = LockShared 1 ∧ demo_moves (6 + 2 * j) = UnlockShared 1.
Proof. cbn [demo_moves Nat.add]. rewrite Nat.even_succ, <- Nat.negb_even, Nat.even_mul. done. Qed.

Lemma demo_step k : step (demo_moves k) (demo_run k) = Some (demo_run (S k)).
Proof.
  revert k. apply demo_cases.
  - intros k Hk. do 5 (destruct k as [|k]; [by vm_compute|]). lia.
  - intros j. destruct (demo_period j) as [-> E6]. destruct (demo_moves_even j) as [-> _].
    replace (S (5 + 2 * j)) with (6 + 2 * j)%nat by lia. rewrite E6. by vm_compute.
  - intros j. destruct (demo_period j) as [_ ->]. destruct (demo_moves_even j) as [_ ->]. destruct (demo_period (S j)) as [E5 _].
    replace (S (6 + 2 * j)) with (5 + 2 * S j)%nat by lia. rewrite E5. by vm_compute.
Qed.

(** The threads of a state in some phase. *)
Definition threads (P : phase → bool) (s : FairSharedMutex) : list nat := (filter (λ e, P e.2 = true) (map_to_list (phases s))).*1.

Lemma threads_all P s u : P Outside = false → P (phase_of u s) = true → u ∈ threads P s.
Proof.
  intros Ho Hu. unfold phase_of in Hu. destruct (phases s !! u) as [p|] eqn:E; simpl in Hu; [|congruence].
  apply list_elem_of_fmap. exists (u, p). split; [done|]. apply list_elem_of_filter. split; [done|]. by apply elem_of_map_to_list.
Qed.

Definition is_inside (p : phase) : bool := match p with Writing | Reading => true | _ => false end.
Definition is_awake (p : phase) : bool := match p with AwakeWrite | AwakeRead => true | _ => false end.

Lemma demo_leaves k u : phase_of u (demo_run k) = Writing ∨ phase_of u (demo_run k) = Reading → ∃ m, (k ≤ m)%nat ∧ (demo_moves m = Unlock u ∨ demo_moves m = UnlockShared u).
Proof.
  intros Hu. assert (Hin : u ∈ threads is_inside (demo_run k)) by (apply threads_all; [done|]; by destruct Hu as [-> | ->]). clear Hu.
  revert k Hin. apply (demo_cases (λ k, u ∈ threads is_inside (demo_run k) → _)).
  - intros k Hk Hin. do 5 (destruct k as [|k]; [vm_compute in Hin; first [by apply not_elem_of_nil in Hin|apply list_elem_of_singleton in Hin as ->; first [by exists 2%nat; split; [lia|right]|by exists 4%nat; split; [lia|left]]]|]). lia.
  - intros j. destruct (demo_period j) as [-> _]. intros Hin. vm_compute in Hin. by apply not_elem_of_nil in Hin.
  - intros j. destruct (demo_period j) as [_ ->]. intros Hin. vm_compute in Hin. apply list_elem_of_singleton in Hin as ->.
    exists (6 + 2 * j)%nat. split; [done|]. right. apply demo_moves_even.
Qed.

Lemma demo_resumes k u : phase_of u (demo_run k) = AwakeWrite ∨ phase_of u (demo_run k) = AwakeRead → ∃ m, (k ≤ m)%nat ∧ demo_moves m = Resume u.
Proof.
  intros Hu. assert (Hin : u ∈ threads is_awake (demo_run k)) by (apply threads_all; [done|]; by destruct Hu as [-> | ->]). clear Hu.
  revert k Hin. apply (demo_cases (λ k, u ∈ threads is_awake (demo_run k) → _)).
  - intros k Hk Hin. do 5 (destruct k as [|k]; [vm_compute in Hin; first [by apply not_elem_of_nil in Hin|apply list_elem_of_singleton in Hin as ->; by exists 3%nat; split; [lia|]]|]). lia.
  - intros j. destruct (demo_period j) as [-> _]. intros Hin. vm_compute in Hin. by apply not_elem_of_nil in Hin.
  - intros j. destruct (demo_period j) as [_ ->]. intros Hin. vm_compute in Hin. by apply not_elem_of_nil in Hin.
Qed.

Lemma writer_not_starved_witness :
  ∃ m, (2 ≤ m)%nat ∧ (∃ w, phase_of w (demo_run m) ≠ Writing ∧ phase_of w (demo_run (S m)) = Writing) ∧
    ∀ k u, (2 ≤ k ≤ m)%nat → phase_of u (demo_run (S k)) = Reading → phase_of u (demo_run k) = Reading.
Proof. exact (writer_not_starved demo_run demo_moves 2 2 eq_refl demo_step demo_leaves demo_resumes eq_refl). Defined.

Lemma mutex_sound_witness :
  let s := demo_run 4 in phase_of 2 s = Writing ∧ ∀ t u, phase_of t s = Writing → u ≠ t → phase_of u s ≠ Writing ∧ phase_of u s ≠ Reading.
Proof.
  split; [by vm_compute|]. apply (mutex_sound (demo_run 4)).
  do 4 (refine (reachable_step (demo_moves _) (demo_run _) _ _ (demo_step _))). exact reachable_fresh.
Defined.
