(* ===== verification/GroupCommit.v ===== *)
(** * Group commit (src/transaction/group_commit.cpp)

    Sessions that have written their COMMIT record to the WAL file call [sync_commit]; the first becomes
    the leader and syncs the file once, those that come while it does so wait for it. A step is a stretch of
    the call under the mutex, or the leader's fsync between two of them. *)
From S2P Require Import Prelude.

#[local] Open Scope Z_scope.

(** Where a session is. [record] is the position of its COMMIT record in the file, counted in records;
    [late] notes whether the leader's fsync was over when a follower came. *)
Inductive session : Type :=
  | Logged (record : nat)
  | Leading (record : nat) (synced : bool)
  | Following (record : nat) (my_gen : Z) (late : bool)
  | Returned (record : nat).

Record GroupCommitCoordinator := mkCoordinator {
  flushing : bool;
  generation : Z;
  sessions : gmap nat session;
  written : nat;  (* records in the file *)
  durable : nat;  (* records of it that a crash cannot take *)
  flush_synced : bool  (* the fsync of the flush under way is over *)
}.

Definition new_coordinator : GroupCommitCoordinator := mkCoordinator false 0 ∅ 0 0 false.

Inductive commit_move :=
  | WriteRecord (t : nat)
  | Arrive (t : nat)
  | Fsync (t : nat) (opened : bool)
  | Finish (t : nat)
  | GoOn (t : nat).

(** The record of a COMMIT written to the file, before the call. *)
Definition write_record (t : nat) (c : GroupCommitCoordinator) : GroupCommitCoordinator :=
  mkCoordinator (flushing c) (generation c) (<[t := Logged (S (written c))]> (sessions c)) (S (written c)) (durable c) (flush_synced c).

(** sync_commit up to the end of its first block. *)
Definition arrive (t record : nat) (c : GroupCommitCoordinator) : GroupCommitCoordinator :=
  if flushing c then
    mkCoordinator true (generation c) (<[t := Following record (generation c) (flush_synced c)]> (sessions c)) (written c) (durable c) (flush_synced c)
  else mkCoordinator true (generation c) (<[t := Leading record false]> (sessions c)) (written c) (durable c) false.

(** The leader's fsync, if the file is there and opens. *)
Definition leader_fsync (t record : nat) (opened : bool) (c : GroupCommitCoordinator) : GroupCommitCoordinator :=
  mkCoordinator (flushing c) (generation c) (<[t := Leading record true]> (sessions c)) (written c)
    (if opened then written c else durable c) true.

Definition leader_finish (t record : nat) (c : GroupCommitCoordinator) : GroupCommitCoordinator :=
  mkCoordinator false (wrap64 (generation c + 1)) (<[t := Returned record]> (sessions c)) (written c) (durable c) false.

Definition follower_return (t record : nat) (c : GroupCommitCoordinator) : GroupCommitCoordinator :=
  mkCoordinator (flushing c) (generation c) (<[t := Returned record]> (sessions c)) (written c) (durable c) (flush_synced c).

Definition commit_step (m : commit_move) (c : GroupCommitCoordinator) : option GroupCommitCoordinator :=
  match m with
  | WriteRecord t => match sessions c !! t with None | Some (Returned _) => Some (write_record t c) | _ => None end
  | Arrive t => match sessions c !! t with Some (Logged record) => Some (arrive t record c) | _ => None end
  | Fsync t opened => match sessions c !! t with Some (Leading record false) => Some (leader_fsync t record opened c) | _ => None end
  | Finish t => match sessions c !! t with Some (Leading record true) => Some (leader_finish t record c) | _ => None end
  | GoOn t =>
      match sessions c !! t with
      | Some (Following record my_gen _) => if negb (generation c =? my_gen) then Some (follower_return t record c) else None
      | _ => None
      end
  end.

Fixpoint commit_run (ms : list commit_move) (c : GroupCommitCoordinator) : option GroupCommitCoordinator :=
  match ms with
  | [] => Some c
  | m :: ms => c' ← commit_step m c; commit_run ms c'
  end.

(** ** The invariant *)

Definition opens (m : commit_move) : Prop := match m with Fsync _ opened => opened = true | _ => True end.

(** A session whose record the fsync under way will make durable, or has. *)
Definition session_ok (c : GroupCommitCoordinator) (x : session) : Prop :=
  match x with
  | Logged record => (record ≤ written c)%nat
  | Leading record synced =>
      (record ≤ written c)%nat ∧ flushing c = true ∧ flush_synced c = synced ∧ (synced = true → (record ≤ durable c)%nat)
  | Following record my_gen late =>
      (record ≤ written c)%nat ∧ my_gen ≤ generation c ∧
      (late = false → (record ≤ durable c)%nat ∨ (my_gen = generation c ∧ flushing c = true ∧ flush_synced c = false)) ∧
      (my_gen = generation c → flushing c = true)
  | Returned record => True
  end.

Record commits_ok (c : GroupCommitCoordinator) : Prop := {
  ok_sessions t x : sessions c !! t = Some x → session_ok c x;
  ok_leader t record synced u record' synced' :
    sessions c !! t = Some (Leading record synced) → sessions c !! u = Some (Leading record' synced') → t = u;
  ok_led : flushing c = true → ∃ t record, sessions c !! t = Some (Leading record (flush_synced c));
  ok_durable : (durable c ≤ written c)%nat;
  ok_generation : 0 ≤ generation c
}.

Lemma ok_new : commits_ok new_coordinator.
Proof. split; simpl; try done; intros *; by rewrite ?lookup_empty. Qed.

(** The sessions but one are as they were. *)
Lemma sessions_insert (ss : gmap nat session) t x u y : <[t := x]> ss !! u = Some y → u = t ∧ y = x ∨ u ≠ t ∧ ss !! u = Some y.
Proof. intros [[<- <-]|[Hne E]]%lookup_insert_Some; auto. Qed.

Lemma write_record_ok t c :
  (sessions c !! t = None ∨ ∃ r, sessions c !! t = Some (Returned r)) → commits_ok c → commits_ok (write_record t c).
Proof.
  intros Ht [O1 O2 O3 O4 O5]. split; cbn [write_record sessions flushing generation written durable flush_synced]; try done; try lia.
  - intros u x [[-> ->]|[Hne E]]%sessions_insert; [simpl; lia|]. specialize (O1 u x E). destruct x; simpl in *; intuition lia.
  - intros u r s v r' s' [[-> E]|[Hu E]]%sessions_insert [[-> E']|[Hv E']]%sessions_insert; try done. by eapply O2.
  - intros Hf. destruct (O3 Hf) as (u & r & E). exists u, r. rewrite lookup_insert_ne; [done|]. intros ->. destruct Ht as [Ht|[? Ht]]; congruence.
Qed.

Lemma arrive_ok t record c : sessions c !! t = Some (Logged record) → commits_ok c → commits_ok (arrive t record c).
Proof.
  intros Ht [O1 O2 O3 O4 O5]. pose proof (O1 t _ Ht) as Hr. simpl in Hr. unfold arrive. destruct (flushing c) eqn:Ef.
  - split; cbn [sessions flushing generation written durable flush_synced]; try done.
    + intros u x [[-> ->]|[Hne E]]%sessions_insert.
      * simpl. split_and!; try done. intros ->. by right.
      * specialize (O1 u x E). destruct x; simpl in *; rewrite ?Ef in O1; intuition.
    + intros u r s v r' s' [[-> E]|[Hu E]]%sessions_insert [[-> E']|[Hv E']]%sessions_insert; try done. by eapply O2.
    + intros _. destruct (O3 eq_refl) as (u & r & E). exists u, r. rewrite lookup_insert_ne; [done|]. congruence.
  - assert (Hno : ∀ u r s, sessions c !! u = Some (Leading r s) → False).
    { intros u r s E. specialize (O1 u _ E). simpl in O1. rewrite Ef in O1. by destruct O1 as (_ & ? & _). }
    split; cbn [sessions flushing generation written durable flush_synced]; try done.
    + intros u x [[-> ->]|[Hne E]]%sessions_insert; [simpl; by split_and!|]. pose proof (O1 u x E) as Hx. destruct x as [r|r s|r g l|r]; simpl in *; try done.
      * by destruct (Hno u r s).
      * rewrite Ef in Hx. destruct Hx as (H1 & H2 & H3 & H4). split_and!; try done. intros Hl. destruct (H3 Hl) as [?|(_ & ? & _)]; [by left|done].
    + intros u r s v r' s' [[-> E]|[Hu E]]%sessions_insert [[-> E']|[Hv E']]%sessions_insert; try done; [by destruct (Hno v r' s')|by destruct (Hno u r s)|by destruct (Hno u r s)].
    + intros _. exists t, record. by rewrite lookup_insert_eq.
Qed.

Lemma leader_fsync_ok t record c : sessions c !! t = Some (Leading record false) → commits_ok c → commits_ok (leader_fsync t record true c).
Proof.
  intros Ht [O1 O2 O3 O4 O5]. pose proof (O1 t _ Ht) as (Hr & Hf & Hs & _).
  split; cbn [leader_fsync sessions flushing generation written durable flush_synced]; try done.
  - intros u x [[-> ->]|[Hne E]]%sessions_insert; [simpl; by split_and!|]. pose proof (O1 u x E) as Hx. destruct x as [r|r s|r g l|r]; simpl in *; try done.
    + by destruct (Hne (O2 _ _ _ _ _ _ E Ht)).
    + destruct Hx as (H1 & H2 & H3 & H4). split_and!; try done. intros _. by left.
  - intros u r s v r' s' [[-> E]|[Hu E]]%sessions_insert [[-> E']|[Hv E']]%sessions_insert; try done; [by eapply O2|by eapply O2|by eapply O2].
  - intros _. exists t, record. by rewrite lookup_insert_eq.
Qed.

Lemma leader_finish_ok t record c :
  generation c < 2 ^ 64 - 1 → sessions c !! t = Some (Leading record true) → commits_ok c → commits_ok (leader_finish t record c).
Proof.
  intros Hg Ht [O1 O2 O3 O4 O5]. pose proof (O1 t _ Ht) as (Hr & Hf & Hs & Hd).
  assert (Hno : ∀ u r s, u ≠ t → sessions c !! u = Some (Leading r s) → False).
  { intros u r s Hne E. apply Hne. by eapply O2. }
  split; cbn [leader_finish sessions flushing generation written durable flush_synced]; try done.
  - intros u x [[-> ->]|[Hne E]]%sessions_insert; [done|]. pose proof (O1 u x E) as Hx. destruct x as [r|r s|r g l|r]; simpl in *; try done.
    + by destruct (Hno u r s).
    + destruct Hx as (H1 & H2 & H3 & H4). rewrite wrap64_small by widths. split_and!; try done; [lia| |lia].
      intros Hl. destruct (H3 Hl) as [?|(_ & _ & Hs')]; [by left|congruence].
  - intros u r s v r' s' [[-> E]|[Hu E]]%sessions_insert [[-> E']|[Hv E']]%sessions_insert; try done. by eapply O2.
  - rewrite wrap64_small by widths. lia.
Qed.

Lemma follower_return_ok t record g l c : sessions c !! t = Some (Following record g l) → commits_ok c → commits_ok (follower_return t record c).
Proof.
  intros Ht [O1 O2 O3 O4 O5]. split; cbn [follower_return sessions flushing generation written durable flush_synced]; try done.
  - intros u x [[-> ->]|[Hne E]]%sessions_insert; [done|]. specialize (O1 u x E). destruct x; done.
  - intros u r s v r' s' [[-> E]|[Hu E]]%sessions_insert [[-> E']|[Hv E']]%sessions_insert; try done. by eapply O2.
  - intros Hf. destruct (O3 Hf) as (u & r & E). exists u, r. rewrite lookup_insert_ne; [done|]. congruence.
Qed.

Lemma commit_step_ok m c c' :
  generation c < 2 ^ 64 - 1 → opens m → commits_ok c → commit_step m c = Some c' → commits_ok c' ∧ generation c' ≤ generation c + 1.
Proof.
  intros Hg Ho Hc E. pose proof (ok_generation c Hc). destruct m as [t|t|t opened|t|t]; cbn [commit_step] in E.
  - destruct (sessions c !! t) as [[]|] eqn:Et; simplify_eq; (split; [apply write_record_ok; eauto|simpl; lia]).
  - destruct (sessions c !! t) as [[]|] eqn:Et; simplify_eq. split; [by apply arrive_ok|]. unfold arrive. destruct (flushing c); simpl; lia.
  - destruct (sessions c !! t) as [[|r []| |]|] eqn:Et; simplify_eq. simpl in Ho. subst. split; [by apply leader_fsync_ok|simpl; lia].
  - destruct (sessions c !! t) as [[|r []| |]|] eqn:Et; simplify_eq. split; [by apply leader_finish_ok|]. simpl. rewrite wrap64_small by widths. lia.
  - destruct (sessions c !! t) as [[| |r g l|]|] eqn:Et; simplify_eq. destruct (negb _); simplify_eq. split; [by eapply follower_return_ok|simpl; lia].
Qed.

Lemma commit_run_ok ms c c' :
  generation c + Z.of_nat (length ms) < 2 ^ 64 → Forall opens ms → commits_ok c → commit_run ms c = Some c' → commits_ok c'.
Proof.
  intros Hl Ho. revert c Hl. induction Ho as [|m ms Hm Hms IH]; intros c Hl Hc E; cbn [commit_run length] in *; [by simplify_eq|].
  destruct (commit_step m c) as [c1|] eqn:Es; [|done]. destruct (commit_step_ok m c c1 ltac:(lia) Hm Hc Es) as [Hc1 Hg]. apply (IH c1); (lia || done).
Qed.

(** ** Properties *)


Definition demo_commits : list commit_move := [WriteRecord 1; Arrive 1; WriteRecord 2; Arrive 2; Fsync 1 true; WriteRecord 3; Arrive 3; Finish 1].


(** A follower that comes between the leader's fsync and its return is let go by that flush, which did not
    sync its record. *)
Example late_follower_not_durable :
  ∃ c, commit_run (demo_commits ++ [GoOn 3]) new_coordinator = Some c ∧ sessions c !! 3%nat = Some (Returned 3) ∧ durable c = 2%nat.
Proof. eexists. split; [by vm_compute|]. by vm_compute. Qed.
