(* ===== verification/Lexer.v ===== *)
(** * The lexer (src/parser/lexer.cpp, include/engine/parser/lexer.hpp)

    The tokens of a statement's text. A position in the text is the rest of it from there; the code's
    offset is the length of the text less that of the rest. The character classes and words of the C
    locale are those of Split.v. *)
From S2P Require Import Prelude Numerals Split.

#[local] Open Scope Z_scope.

(** ** Tokens *)

Inductive TokenKind : Set :=
  | TkSelect | TkFrom | TkWhere | TkInsert | TkInto | TkValues | TkUpdate | TkSet | TkDelete | TkCreate | TkTable | TkDrop
  | TkJoin | TkLeft | TkRight | TkCross | TkNatural | TkOuter | TkOn | TkAnd | TkOr | TkNot | TkAlter | TkAdd | TkColumn
  | TkRename | TkTo | TkOrder | TkGroup | TkBy | TkAsc | TkDesc | TkLimit | TkCount | TkSum | TkAvg | TkMin | TkMax | TkHaving
  | TkIn | TkBetween | TkLike | TkIndex | TkUnique | TkView | TkAs | TkPrimary | TkKey | TkNull | TkAuto | TkIncrement | TkShow
  | TkTables | TkDescribe | TkTruncate | TkReferences | TkForeign | TkConstraint | TkInt | TkText | TkFloat | TkBoolean
  | TkAsterisk | TkComma | TkSemicolon | TkLParen | TkRParen | TkDot | TkEq | TkNe | TkGt | TkLt | TkGte | TkLte | TkIdent
  | TkStringLit | TkNumberLit | TkCascade | TkRestrict | TkIs | TkCheckpoint | TkIsolation | TkLevel | TkUncommitted
  | TkCommitted | TkRepeatable | TkSerializable | TkVacuum | TkFor | TkLocks | TkDistinct | TkDefault | TkModify | TkExists
  | TkSavepoint | TkRelease | TkExplain | TkVarchar | TkDate | TkDatetime | TkTimestamp | TkDecimal | TkDouble | TkTime
  | TkYear | TkBlob | TkEnum | TkDatabase | TkInner | TkCheck | TkUpper | TkLower | TkLength | TkTrim | TkConcat | TkSubstr
  | TkSubstring | TkNow | TkCurdate | TkDateFormat | TkCoalesce | TkIfnull | TkReplace | TkRound | TkAbs | TkCeil | TkFloor
  | TkMod | TkInterval | TkCase | TkWhen | TkThen | TkElse | TkEnd | TkUnion | TkIntersect | TkExcept | TkAll | TkIf
  | TkGroupConcat | TkIgnore | TkDuplicate | TkNullif | TkLpad | TkRpad | TkCast | TkDateAdd | TkDateSub | TkDateDiff
  | TkSeparator | TkPlus | TkMinus | TkSlash | TkOffset | TkWith | TkRecursive | TkUse | TkUser | TkIdentified | TkGrant
  | TkRevoke | TkPrivileges | TkGrants | TkOptionKw | TkAt | TkPassword | TkDatabases | TkAnalyze | TkRowNumber | TkRank
  | TkDenseRank | TkLag | TkLead | TkOver | TkPartition | TkFirstValue | TkLastValue | TkNthValue | TkFull | TkReturning
  | TkStddev | TkVariance | TkBitAnd | TkBitOr | TkJsonAgg | TkArrayAgg | TkMedian | TkFilter | TkLateral | TkNtile
  | TkPercentRank | TkCumeDist | TkRegexp | TkRows | TkRange | TkUnbounded | TkPreceding | TkFollowing | TkCurrent | TkMerge
  | TkUsing | TkMatched | TkProcedure | TkCall | TkTrigger | TkBefore | TkAfter | TkEach | TkRow | TkNewKw | TkOldKw | TkBody
  | TkSignal | TkDeclare | TkHandler | TkLeave | TkIterate | TkLoop | TkRepeat | TkUntil | TkWhile | TkDo | TkIfKw | TkElseIfKw
  | TkBigInt | TkSmallInt | TkTinyInt | TkJson | TkJsonExtract | TkJsonUnquote | TkJsonValue | TkShare | TkArrow | TkLongArrow
  | TkPrepare | TkExecute | TkDeallocate | TkFetch | TkNext | TkOnly | TkRole | TkSynonym | TkPercent | TkPipePipe
  | TkAmpersand | TkPipe | TkCaret | TkTilde | TkShiftLeft | TkShiftRight | TkNullSafeEq | TkColonEq.

(** keyword_map, in the order of its entries. *)
Definition keyword_map : list (list Z * TokenKind) := prod_map str id <$> [
  ("SELECT", TkSelect); ("FROM", TkFrom); ("WHERE", TkWhere); ("INSERT", TkInsert); ("INTO", TkInto); ("VALUES", TkValues);
  ("UPDATE", TkUpdate); ("SET", TkSet); ("DELETE", TkDelete); ("CREATE", TkCreate); ("TABLE", TkTable); ("DROP", TkDrop);
  ("JOIN", TkJoin); ("LEFT", TkLeft); ("RIGHT", TkRight); ("CROSS", TkCross); ("NATURAL", TkNatural); ("OUTER", TkOuter);
  ("FULL", TkFull); ("RETURNING", TkReturning); ("ON", TkOn); ("AND", TkAnd); ("OR", TkOr); ("NOT", TkNot); ("ALTER", TkAlter);
  ("ADD", TkAdd); ("COLUMN", TkColumn); ("RENAME", TkRename); ("TO", TkTo); ("ORDER", TkOrder); ("GROUP", TkGroup);
  ("BY", TkBy); ("ASC", TkAsc); ("DESC", TkDesc); ("LIMIT", TkLimit); ("COUNT", TkCount); ("SUM", TkSum); ("AVG", TkAvg);
  ("MIN", TkMin); ("MAX", TkMax); ("HAVING", TkHaving); ("IN", TkIn); ("BETWEEN", TkBetween); ("LIKE", TkLike);
  ("INDEX", TkIndex); ("UNIQUE", TkUnique); ("VIEW", TkView); ("AS", TkAs); ("PRIMARY", TkPrimary); ("KEY", TkKey);
  ("NULL", TkNull); ("AUTO", TkAuto); ("INCREMENT", TkIncrement); ("SHOW", TkShow); ("TABLES", TkTables);
  ("DESCRIBE", TkDescribe); ("TRUNCATE", TkTruncate); ("INT", TkInt); ("TEXT", TkText); ("FLOAT", TkFloat);
  ("BOOLEAN", TkBoolean); ("REFERENCES", TkReferences); ("FOREIGN", TkForeign); ("CONSTRAINT", TkConstraint);
  ("CASCADE", TkCascade); ("RESTRICT", TkRestrict); ("IS", TkIs); ("CHECKPOINT", TkCheckpoint); ("ISOLATION", TkIsolation);
  ("LEVEL", TkLevel); ("UNCOMMITTED", TkUncommitted); ("COMMITTED", TkCommitted); ("REPEATABLE", TkRepeatable);
  ("SERIALIZABLE", TkSerializable); ("VACUUM", TkVacuum); ("FOR", TkFor); ("LOCKS", TkLocks); ("DISTINCT", TkDistinct);
  ("DEFAULT", TkDefault); ("MODIFY", TkModify); ("EXISTS", TkExists); ("SAVEPOINT", TkSavepoint); ("RELEASE", TkRelease);
  ("EXPLAIN", TkExplain); ("VARCHAR", TkVarchar); ("DATE", TkDate); ("DATETIME", TkDatetime); ("TIMESTAMP", TkTimestamp);
  ("DECIMAL", TkDecimal); ("DOUBLE", TkDouble); ("TIME", TkTime); ("YEAR", TkYear); ("BLOB", TkBlob); ("ENUM", TkEnum);
  ("DATABASE", TkDatabase); ("INNER", TkInner); ("SCHEMA", TkDatabase); ("CHECK", TkCheck); ("UPPER", TkUpper);
  ("LOWER", TkLower); ("LENGTH", TkLength); ("TRIM", TkTrim); ("CONCAT", TkConcat); ("SUBSTR", TkSubstr);
  ("SUBSTRING", TkSubstring); ("NOW", TkNow); ("CURDATE", TkCurdate); ("DATE_FORMAT", TkDateFormat); ("COALESCE", TkCoalesce);
  ("IFNULL", TkIfnull); ("REPLACE", TkReplace); ("ROUND", TkRound); ("ABS", TkAbs); ("CEIL", TkCeil); ("FLOOR", TkFloor);
  ("MOD", TkMod); ("INTERVAL", TkInterval); ("CASE", TkCase); ("WHEN", TkWhen); ("THEN", TkThen); ("ELSE", TkElse);
  ("END", TkEnd); ("UNION", TkUnion); ("INTERSECT", TkIntersect); ("EXCEPT", TkExcept); ("ALL", TkAll); ("IF", TkIf);
  ("GROUP_CONCAT", TkGroupConcat); ("IGNORE", TkIgnore); ("DUPLICATE", TkDuplicate); ("NULLIF", TkNullif); ("LPAD", TkLpad);
  ("RPAD", TkRpad); ("CAST", TkCast); ("DATE_ADD", TkDateAdd); ("DATE_SUB", TkDateSub); ("DATEDIFF", TkDateDiff);
  ("SEPARATOR", TkSeparator); ("OFFSET", TkOffset); ("WITH", TkWith); ("RECURSIVE", TkRecursive); ("USE", TkUse);
  ("USER", TkUser); ("IDENTIFIED", TkIdentified); ("GRANT", TkGrant); ("REVOKE", TkRevoke); ("PRIVILEGES", TkPrivileges);
  ("GRANTS", TkGrants); ("OPTION", TkOptionKw); ("PASSWORD", TkPassword); ("DATABASES", TkDatabases); ("ANALYZE", TkAnalyze);
  ("STDDEV", TkStddev); ("STD", TkStddev); ("STDDEV_POP", TkStddev); ("STDDEV_SAMP", TkStddev); ("VARIANCE", TkVariance);
  ("VAR_POP", TkVariance); ("VAR_SAMP", TkVariance); ("BIT_AND", TkBitAnd); ("BIT_OR", TkBitOr); ("JSON_AGG", TkJsonAgg);
  ("ARRAY_AGG", TkArrayAgg); ("MEDIAN", TkMedian); ("FILTER", TkFilter); ("LATERAL", TkLateral); ("NTILE", TkNtile);
  ("PERCENT_RANK", TkPercentRank); ("CUME_DIST", TkCumeDist); ("ROW_NUMBER", TkRowNumber); ("REGEXP", TkRegexp);
  ("RLIKE", TkRegexp); ("MERGE", TkMerge); ("USING", TkUsing); ("MATCHED", TkMatched); ("PREPARE", TkPrepare);
  ("EXECUTE", TkExecute); ("DEALLOCATE", TkDeallocate); ("FETCH", TkFetch); ("NEXT", TkNext); ("ONLY", TkOnly);
  ("ROLE", TkRole); ("SYNONYM", TkSynonym); ("PROCEDURE", TkProcedure); ("CALL", TkCall); ("TRIGGER", TkTrigger);
  ("BEFORE", TkBefore); ("AFTER", TkAfter); ("EACH", TkEach); ("ROW", TkRow); ("NEW", TkNewKw); ("OLD", TkOldKw);
  ("BODY", TkBody); ("SIGNAL", TkSignal); ("DECLARE", TkDeclare); ("HANDLER", TkHandler); ("LEAVE", TkLeave);
  ("ITERATE", TkIterate); ("LOOP", TkLoop); ("REPEAT", TkRepeat); ("UNTIL", TkUntil); ("WHILE", TkWhile); ("DO", TkDo);
  ("ELSEIF", TkElseIfKw); ("ROWS", TkRows); ("RANGE", TkRange); ("UNBOUNDED", TkUnbounded); ("PRECEDING", TkPreceding);
  ("FOLLOWING", TkFollowing); ("CURRENT", TkCurrent); ("FIRST_VALUE", TkFirstValue); ("LAST_VALUE", TkLastValue);
  ("NTH_VALUE", TkNthValue); ("RANK", TkRank); ("DENSE_RANK", TkDenseRank); ("LAG", TkLag); ("LEAD", TkLead); ("OVER", TkOver);
  ("PARTITION", TkPartition); ("BIGINT", TkBigInt); ("SMALLINT", TkSmallInt); ("TINYINT", TkTinyInt); ("JSON", TkJson);
  ("JSON_EXTRACT", TkJsonExtract); ("JSON_UNQUOTE", TkJsonUnquote); ("JSON_VALUE", TkJsonValue); ("SHARE", TkShare);
  ("INTEGER", TkInt); ("INT4", TkInt); ("INT8", TkBigInt); ("MEDIUMINT", TkInt); ("INT2", TkInt); ("INT3", TkInt);
  ("LONGTEXT", TkText); ("MEDIUMTEXT", TkText); ("TINYTEXT", TkText); ("CLOB", TkText); ("LONGBLOB", TkText);
  ("MEDIUMBLOB", TkText); ("TINYBLOB", TkText); ("NVARCHAR", TkVarchar); ("NCHAR", TkVarchar); ("CHARACTER", TkVarchar);
  ("CHAR", TkVarchar); ("NUMERIC", TkDecimal); ("REAL", TkDouble); ("BOOL", TkBoolean); ("UNKNOWN", TkNull);
  ("CURRENT_DATE", TkCurdate); ("CURRENT_TIMESTAMP", TkNow); ("SYSDATE", TkNow); ("LOCALTIME", TkNow);
  ("LOCALTIMESTAMP", TkNow)]%string.

Definition keyword_kind (word : list Z) : option TokenKind := snd <$> find (λ e, bool_decide (e.1 = word)) keyword_map.

Record Token := mkToken {
  kind : TokenKind;
  text : list Z;
  word : list Z;
  tok_begin : nat;
  tok_end : nat
}.

Definition is_value_or_close_paren (t : Token) : bool :=
  match kind t with TkNumberLit | TkIdent | TkStringLit | TkRParen => true | _ => false end.

Definition is_hexdigit (c : Z) : bool := is_digit c || ((65 <=? c) && (c <=? 70)) || ((97 <=? c) && (c <=? 102)).
Definition lower_case (s : list Z) : list Z := (λ c, if (65 <=? c) && (c <=? 90) then c + 32 else c) <$> s.

(** ** Executable comments *)

Fixpoint starts_with (p s : list Z) : bool :=
  match p, s with
  | [], _ => true
  | c :: p, d :: s => (c =? d) && starts_with p s
  | _, [] => false
  end.

(** The text before the first [pat] and the rest from it on. *)
Fixpoint find_text (pat s : list Z) : option (list Z * list Z) :=
  if starts_with pat s then Some ([], s)
  else match s with
       | [] => None
       | c :: s => match find_text pat s with Some (a, b) => Some (c :: a, b) | None => None end
       end.

(** A literal or quoted name, from behind its opening quote: its text with the closing quote, and the rest. *)
Fixpoint copy_quoted (q : Z) (s : list Z) : list Z * list Z :=
  match s with
  | [] => ([], [])
  | c :: t =>
      if c =? q then ([c], t)
      else if (c =? 92) && negb (q =? 96) then
        match t with d :: u => let '(a, b) := copy_quoted q u in (c :: d :: a, b) | [] => ([c], []) end
      else let '(a, b) := copy_quoted q t in (c :: a, b)
  end.

Definition kVersion : Z := 80409.

(** At most [n] digits: their number, how many there are, and the rest. *)
Fixpoint version_digits (n : nat) (version : Z) (digits : nat) (s : list Z) : Z * nat * list Z :=
  match n, s with
  | S n, c :: t => if is_digit c then version_digits n (version * 10 + (c - 48)) (S digits) t else (version, digits, s)
  | _, _ => (version, digits, s)
  end.

(** One round of the loop: what goes to the output, and the rest. *)
Definition expand_one (c : Z) (t : list Z) : list Z * list Z :=
  let s := c :: t in
  if (c =? 39) || (c =? 34) || (c =? 96) then let '(a, b) := copy_quoted c t in (c :: a, b)
  else if (c =? 35) || ((c =? 45) && next_is 45 t) then
    match find_text [10] s with Some (a, b) => (a, b) | None => (s, []) end
  else if (c =? 47) && next_is 42 t then
    let u := tail t in
    let '(body, stop) := match find_text [42; 47] u with Some (a, b) => (a, drop 2 b) | None => (u, []) end in
    if next_is 33 u then
      let '(version, digits, rest) := version_digits 5 0 0 (tail u) in
      if (digits =? 0)%nat || (version <=? kVersion) then
        (32 :: take (length body - 1 - digits) rest ++ [32], stop)
      else ([], stop)
    else if starts_with (str "/*M!") s then ([], stop)
    else (take (length s - length stop) s, stop)
  else ([c], t).

(** Every round takes a character at least: the length of the text is fuel enough. *)
Fixpoint expand_loop (fuel : nat) (s : list Z) : list Z :=
  match fuel, s with
  | S fuel, c :: t => let '(a, b) := expand_one c t in a ++ expand_loop fuel b
  | _, _ => []
  end.

Definition expand_executable_comments (sql : list Z) : list Z :=
  match find_text (str "/*!") sql, find_text (str "/*M!") sql with
  | None, None => sql
  | _, _ => expand_loop (length sql) sql
  end.

(** ** Literals and names *)

(** skip_whitespace *)
Definition skip_whitespace : list Z → list Z := skip_space.

Definition escaped (c : Z) : list Z :=
  if c =? 110 then [10] else if c =? 114 then [13] else if c =? 116 then [9] else if c =? 48 then [0]
  else if c =? 98 then [8] else if c =? 90 then [26] else if (c =? 37) || (c =? 95) then [92; c] else [c].

(** read_string behind the opening quote. *)
Fixpoint read_string (s : list Z) : list Z * list Z :=
  match s with
  | [] => ([], [])
  | c :: t =>
      if c =? 39 then
        match t with
        | d :: u => if d =? 39 then let '(a, b) := read_string u in (39 :: a, b) else ([], t)
        | [] => ([], [])
        end
      else if c =? 92 then
        match t with
        | d :: u => let '(a, b) := read_string u in (escaped d ++ a, b)
        | [] => ([], [])
        end
      else let '(a, b) := read_string t in (c :: a, b)
  end.

(** read_quoted_ident behind the opening quote. *)
Fixpoint read_quoted_ident (closing : Z) (s : list Z) : list Z * list Z :=
  match s with
  | [] => ([], [])
  | c :: t => if c =? closing then ([], t) else let '(a, b) := read_quoted_ident closing t in (c :: a, b)
  end.

(** The characters of a class a text starts with, and the rest. *)
Fixpoint span (P : Z → bool) (s : list Z) : list Z * list Z :=
  match s with
  | c :: t => if P c then let '(a, b) := span P t in (c :: a, b) else ([], s)
  | [] => ([], [])
  end.

Definition digit_or_dot (c : Z) : bool := is_digit c || (c =? c_dot).

Section lexer.
(** std::strtod and std::snprintf of "%.15g": the text of the DOUBLE that a text of a number spells. *)
Context (format_15g : list Z → list Z).

Definition read_exponent (s rest : list Z) : option (list Z * list Z) :=
  match rest with
  | e :: t =>
      if bool_decide (s = []) || bool_decide (last s = Some c_dot) || negb ((e =? 101) || (e =? 69)) then None
      else
        let '(sign, t) := match t with c :: u => if (c =? c_plus) || (c =? c_minus) then ([c], u) else ([], t) | [] => ([], t) end in
        match t with
        | d :: _ =>
            if negb (is_digit d) then None
            else
              let '(digits, t) := span is_digit t in
              let exponent := 101 :: sign ++ digits in
              let written := format_15g (s ++ exponent) in
              Some (if existsb (λ c, (c =? 101) || (c =? 110)) written then s ++ exponent else written, t)
        | [] => None
        end
  | [] => None
  end.

Definition read_number (s : list Z) : TokenKind * list Z * list Z :=
  let '(digits, rest) := span digit_or_dot s in
  match read_exponent digits rest with
  | Some (number, rest) => (TkNumberLit, number, rest)
  | None =>
      match rest with
      | x :: t =>
          if bool_decide (digits = str "0") && ((x =? 120) || (x =? 88)) then
            let '(hex, rest) := span is_hexdigit t in (TkStringLit, hex, rest)
          else (TkNumberLit, digits, rest)
      | [] => (TkNumberLit, digits, rest)
      end
  end.

(** A word: its kind, the text of the token, the word as it was typed, and the rest. *)
Definition read_ident (s : list Z) : TokenKind * list Z * list Z * list Z :=
  let '(w, rest) := span word_char s in
  let upper := upper_case w in
  if bool_decide (upper = str "TRUE") then (TkIdent, str "true", [], rest)
  else if bool_decide (upper = str "FALSE") then (TkIdent, str "false", [], rest)
  else match keyword_kind upper with
       | Some k => (k, [], lower_case w, rest)
       | None => (TkIdent, w, [], rest)
       end.

(** ** Comments *)

(** Behind the end of the line. *)
Fixpoint after_line (s : list Z) : list Z := match s with c :: t => if c =? 10 then t else after_line t | [] => [] end.

(** Behind the "*/". *)
Fixpoint after_block (s : list Z) : list Z :=
  match s with
  | c :: t => if (c =? 42) && next_is 47 t then tail t else after_block t
  | [] => []
  end.

(** ** One token

    [len] is the length of the whole text, [prev] the token before; the result is what is put to the tokens
    (nothing for a comment or a character the lexer leaves out) and the rest. *)

(** The operators and marks, the longer before the shorter. *)
Definition mark_table : list (list Z * TokenKind) :=
  prod_map str id <$> [
    ("->>", TkLongArrow); ("->", TkArrow); ("-", TkMinus); ("+", TkPlus); ("/", TkSlash); ("*", TkAsterisk); (",", TkComma);
    (";", TkSemicolon); ("(", TkLParen); (")", TkRParen); (".", TkDot); ("=", TkEq); (">=", TkGte); (">>", TkShiftRight); (">", TkGt);
    ("<=>", TkNullSafeEq); ("<=", TkLte); ("<>", TkNe); ("<<", TkShiftLeft); ("<", TkLt); ("!=", TkNe); ("!", TkNot); ("%", TkPercent);
    (":=", TkColonEq); ("||", TkPipePipe); ("|", TkPipe); ("&", TkAmpersand); ("^", TkCaret); ("~", TkTilde)]%string.

Definition read_mark (s : list Z) : option (TokenKind * list Z) :=
  match find (λ e, starts_with e.1 s) mark_table with
  | Some (m, k) => Some (k, drop (length m) s)
  | None => None
  end.

(** Behind an "@@": the name of the server variable, with its scope left out. *)
Definition server_variable (s : list Z) : list Z * list Z :=
  let '(name, rest) := span word_char s in
  let scope := upper_case name in
  if next_is c_dot rest && one_of scope ["SESSION"; "GLOBAL"; "LOCAL"; "PERSIST"]%string then
    let '(name, rest) := span word_char (tail rest) in (lower_case (64 :: name), rest)
  else (lower_case (64 :: name), rest).

Definition lex_one (len : nat) (prev : option Token) (c : Z) (t : list Z) : list Token * list Z :=
  let s := c :: t in
  let at_ (s : list Z) := (len - length s)%nat in
  let one (k : TokenKind) (text word rest : list Z) := ([mkToken k text word (at_ s) (at_ rest)], rest) in
  if (c =? 45) && next_is 45 t then ([], after_line (tail t))
  else if (c =? 45) && negb (next_is 62 t) && match t with d :: _ => is_digit d | [] => false end &&
          negb match prev with Some p => is_value_or_close_paren p | None => false end then
    let '(digits, rest) := span digit_or_dot t in
    let '(number, rest) := default (45 :: digits, rest) (read_exponent (45 :: digits) rest) in
    let number := if existsb (λ c, (49 <=? c) && (c <=? 57)) number then number else tail number in
    one TkNumberLit number [] rest
  else if c =? 64 then
    if next_is 64 t then
      let '(name, rest) := server_variable (tail t) in
      ([mkToken TkAt [] [] (at_ s) (at_ s + 2); mkToken TkIdent name [] (at_ s) (at_ rest)], rest)
    else one TkAt [] [] t
  else if c =? 35 then ([], after_line t)
  else if (c =? 47) && next_is 42 t then ([], after_block (tail t))
  else if (c =? 96) || (c =? 34) then let '(name, rest) := read_quoted_ident c t in one TkIdent name [] rest
  else if c =? 39 then let '(value, rest) := read_string t in one TkStringLit value [] rest
  else match read_mark s with
       | Some (k, rest) => one k [] [] rest
       | None =>
           if is_digit c then let '(k, value, rest) := read_number s in one k value [] rest
           else if word_start c then let '(k, value, w, rest) := read_ident s in one k value w rest
           else ([], t)
       end.

(** Every round takes a character at least: the length of the text is fuel enough. *)
Fixpoint tokenize_loop (fuel len : nat) (prev : option Token) (s : list Z) : list Token :=
  match fuel, skip_whitespace s with
  | S fuel, c :: t =>
      let '(toks, rest) := lex_one len prev c t in
      toks ++ tokenize_loop fuel len (match last toks with Some p => Some p | None => prev end) rest
  | _, _ => []
  end.

Definition tokenize (sql : list Z) : list Token :=
  let input := expand_executable_comments sql in tokenize_loop (length input) (length input) None input.
End lexer.

(** ** What is left is an end of the text *)

Lemma tail_suffix {A} (s : list A) : tail s `suffix_of` s.
Proof. destruct s as [|c s]; [done|]. by exists [c]. Qed.

Lemma suffix_drop {A} n (s : list A) : drop n s `suffix_of` s.
Proof. exists (take n s). by rewrite take_drop. Qed.

Lemma suffix_of_app {A} (a b : list A) : b `suffix_of` a ++ b.
Proof. by exists a. Qed.

Lemma suffix_of_cons {A} (c : A) s t : s `suffix_of` t → s `suffix_of` c :: t.
Proof. intros [k ->]. by exists (c :: k). Qed.

Lemma span_spec P s : s = (span P s).1 ++ (span P s).2 ∧ Forall (λ c, P c = true) (span P s).1 ∧
  match (span P s).2 with c :: _ => P c = false | [] => True end.
Proof.
  induction s as [|c s IH]; [done|]. simpl. destruct (P c) eqn:E; [|simpl; by split_and!].
  destruct (span P s) as [a b]. simpl in *. destruct IH as (-> & IH & IH'). split_and!; [done|by constructor|done].
Qed.

Lemma span_suffix P s : (span P s).2 `suffix_of` s.
Proof. destruct (span_spec P s) as [E _]. by exists (span P s).1. Qed.

Lemma read_string_suffix s : (read_string s).2 `suffix_of` s.
Proof.
  induction s as [s IH] using length_ind. destruct s as [|c t]; [done|]. cbn [read_string]. destruct (c =? 39).
  - destruct t as [|d u]; [by exists [c]|]. destruct (d =? 39); [|simpl; by exists [c]].
    specialize (IH u ltac:(simpl; lia)). destruct (read_string u) as [a b]. simpl in *. by do 2 apply suffix_of_cons.
  - destruct (c =? 92).
    + destruct t as [|d u]; [by exists [c]|]. specialize (IH u ltac:(simpl; lia)). destruct (read_string u) as [a b]. simpl in *. by do 2 apply suffix_of_cons.
    + specialize (IH t ltac:(simpl; lia)). destruct (read_string t) as [a b]. simpl in *. by apply suffix_of_cons.
Qed.

Lemma read_quoted_ident_suffix q s : (read_quoted_ident q s).2 `suffix_of` s.
Proof.
  induction s as [|c t IH]; [done|]. simpl. destruct (c =? q); [by exists [c]|]. destruct (read_quoted_ident q t) as [a b]. by apply suffix_of_cons.
Qed.

Lemma after_line_suffix s : after_line s `suffix_of` s.
Proof. induction s as [|c t IH]; [done|]. simpl. destruct (c =? 10); [by exists [c]|by apply suffix_of_cons]. Qed.

Lemma after_block_suffix s : after_block s `suffix_of` s.
Proof.
  induction s as [|c t IH]; [done|]. simpl. apply suffix_of_cons. destruct (_ && _); [apply tail_suffix|done].
Qed.

Lemma skip_space_suffix s : skip_space s `suffix_of` s.
Proof. induction s as [|c t IH]; [done|]. simpl. destruct (is_space c); [by apply suffix_of_cons|done]. Qed.
(** ** The splitter on a text without BEGIN

    Where no word BEGIN starts, the splitter's state does not matter: [marks] are the ends of statements. *)
Definition no_begin (s : list Z) : Prop := ∀ u, u `suffix_of` s → word_at u ≠ str "BEGIN".

Definition no_begin_b (s : list Z) : bool := forallb (λ n, negb (bool_decide (word_at (drop n s) = str "BEGIN"))) (seq 0 (S (length s))).

Lemma no_begin_dec s : no_begin_b s = true → no_begin s.
Proof.
  unfold no_begin_b. rewrite forallb_forall. intros H u [w ->]. specialize (H (length w)). rewrite drop_app_length in H.
  apply negb_true_iff, bool_decide_eq_false in H; [done|]. apply in_seq. rewrite length_app. lia.
Qed.

Lemma no_begin_suffix s u : no_begin s → u `suffix_of` s → no_begin u.
Proof. intros H Hu v Hv. apply H. by etrans. Qed.

Lemma no_begin_tail c t : no_begin (c :: t) → no_begin t.
Proof. intros H. eapply no_begin_suffix; [done|]. by exists [c]. Qed.

Definition marks (s : list Z) : list (list Z) := ends s scan_start.

Lemma scan_word_depth w after l st : w ≠ str "BEGIN" → begin_depth st = 0%nat → begin_depth (scan_word w after l st) = 0%nat.
Proof.
  intros Hw Hd. unfold scan_word. destruct st as [b k p pw]. simpl in *. subst b. rewrite (bool_decide_eq_false_2 (w = str "BEGIN")) by done.
  repeat (case_match; simplify_eq; try done).
Qed.

Lemma ends_marks s st : no_begin s → begin_depth st = 0%nat → ends s st = marks s.
Proof.
  unfold marks. revert st. enough (H : ∀ st st', no_begin s → begin_depth st = 0%nat → begin_depth st' = 0%nat → ends s st = ends s st') by (intros; by apply H).
  induction s as [s IH] using length_ind. intros st st' Hn Hd Hd'. destruct s as [|c t]; [by rewrite !ends_nil|]. rewrite !ends_step.
  assert (Hlt : (length t < length (c :: t))%nat) by (simpl; lia).
  assert (Ht : no_begin t) by by eapply no_begin_tail.
  destruct (is_space c); [by apply IH|]. destruct (line_comment (c :: t) || block_comment (c :: t)) eqn:Ec.
  { apply IH; [by apply comment_length| |done|done]. exact (no_begin_suffix _ _ Hn (skip_blank_suffix _)). }
  destruct (c =? 39); [apply IH; try done; [pose proof (skip_string_length t); simpl; lia|exact (no_begin_suffix _ _ Ht (skip_string_suffix _))]|].
  destruct ((c =? 34) || (c =? 96)).
  { apply IH; try done; [pose proof (skip_quoted_length c t); simpl; lia|exact (no_begin_suffix _ _ Ht (skip_quoted_suffix _ _))]. }
  destruct (word_start c) eqn:Ew.
  { assert (Hw : upper_case (take_word (c :: t)) ≠ str "BEGIN").
    { pose proof (Hn (c :: t) ltac:(done)) as H. unfold word_at in H. by rewrite Ew in H. }
    apply IH; [by apply word_length|exact (no_begin_suffix _ _ Hn (drop_word_suffix _))|by apply scan_word_depth..]. }
  rewrite Hd, Hd'. rewrite andb_true_r. destruct (c =? 59); [f_equal|]; by apply IH.
Qed.

Lemma marks_step c t :
  no_begin (c :: t) →
  marks (c :: t) =
  if is_space c then marks t
  else if line_comment (c :: t) || block_comment (c :: t) then marks (skip_blank (c :: t))
  else if c =? 39 then marks (skip_string t)
  else if (c =? 34) || (c =? 96) then marks (skip_quoted c t)
  else if word_start c then marks (drop_word (c :: t))
  else if c =? 59 then t :: marks t
  else marks t.
Proof.
  intros Hn. assert (Ht : no_begin t) by by eapply no_begin_tail. unfold marks at 1. rewrite ends_step. cbn [begin_depth scan_start case_depth].
  destruct (is_space c); [done|]. destruct (line_comment (c :: t) || block_comment (c :: t)) eqn:Ec; [done|].
  destruct (c =? 39); [apply ends_marks; [exact (no_begin_suffix _ _ Ht (skip_string_suffix _))|done]|].
  destruct ((c =? 34) || (c =? 96)); [apply ends_marks; [exact (no_begin_suffix _ _ Ht (skip_quoted_suffix _ _))|done]|].
  destruct (word_start c) eqn:Ew.
  { assert (Hw : upper_case (take_word (c :: t)) ≠ str "BEGIN").
    { pose proof (Hn (c :: t) ltac:(done)) as H. unfold word_at in H. by rewrite Ew in H. }
    apply ends_marks; [exact (no_begin_suffix _ _ Hn (drop_word_suffix _))|by apply scan_word_depth]. }
  rewrite andb_true_r. destruct (c =? 59); [f_equal|]; by apply ends_marks.
Qed.

(** Behind the word characters at its start a text has the ends it has. *)
Lemma word_char_cases c : word_char c = true → word_start c = true ∨ is_digit c = true.
Proof. unfold word_char, word_start. rewrite !orb_true_iff. tauto. Qed.

Lemma word_char_plain c t :
  word_char c = true ∨ c = c_dot → is_space c = false ∧ line_comment (c :: t) || block_comment (c :: t) = false ∧ (c =? 39) = false ∧ (c =? 34) || (c =? 96) = false ∧
  (c =? 59) = false.
Proof.
  intros [H| ->]; [|by vm_compute]. unfold word_char, is_alpha, is_digit in H. unfold is_space, line_comment, block_comment.
  destruct (Z.eqb_spec c 32), (Z.leb_spec 9 c), (Z.leb_spec c 13), (Z.eqb_spec c 35), (Z.eqb_spec c 45), (Z.eqb_spec c 47), (Z.eqb_spec c 39),
    (Z.eqb_spec c 34), (Z.eqb_spec c 96), (Z.eqb_spec c 59); subst; try done; exfalso; lia.
Qed.

Lemma marks_word s : no_begin s → marks s = marks (drop_word s).
Proof.
  induction s as [|c t IH]; [done|]. intros Hn. simpl. destruct (word_char c) eqn:Ew; [|done].
  destruct (word_char_plain c t ltac:(auto)) as (E1 & E2 & E3 & E4 & E5). rewrite marks_step, E1, E2, E3, E4, E5 by done.
  destruct (word_start c) eqn:Es; [simpl; by rewrite Ew|]. apply IH. by eapply no_begin_tail.
Qed.

(** A character that is part of a word, a dot, or nothing the splitter looks at. *)
Lemma marks_char c t : no_begin (c :: t) → word_char c = true ∨ c = c_dot → marks (c :: t) = marks t.
Proof.
  intros Hn Hc. destruct (word_char_plain c t Hc) as (E1 & E2 & E3 & E4 & E5). destruct (word_char c) eqn:Ew.
  - rewrite marks_word by done. simpl. rewrite Ew. symmetry. apply marks_word. by eapply no_begin_tail.
  - destruct Hc as [?| ->]; [done|]. rewrite marks_step by done. done.
Qed.

Lemma marks_chars w t : no_begin (w ++ t) → Forall (λ c, word_char c = true ∨ c = c_dot) w → marks (w ++ t) = marks t.
Proof.
  intros Hn Hw. induction Hw as [|c w Hc Hw IH]; [done|]. cbn [app] in *. rewrite marks_char by done. apply IH. by eapply no_begin_tail.
Qed.

Lemma marks_plain c t :
  no_begin (c :: t) → is_space c = false → line_comment (c :: t) || block_comment (c :: t) = false → (c =? 39) = false → (c =? 34) || (c =? 96) = false →
  (c =? 59) = false → marks (c :: t) = marks t.
Proof.
  intros Hn E1 E2 E3 E4 E5. rewrite marks_step, E1, E2, E3, E4, E5 by done. destruct (word_start c) eqn:Es; [|done].
  simpl. rewrite (word_start_char c Es). symmetry. apply marks_word. by eapply no_begin_tail.
Qed.

Lemma marks_space s : no_begin s → marks (skip_space s) = marks s.
Proof.
  induction s as [|c t IH]; [done|]. intros Hn. simpl. destruct (is_space c) eqn:E; [|done].
  rewrite marks_step, E by done. apply IH. by eapply no_begin_tail.
Qed.
(** ** The lexer beside the splitter *)

(** A character the splitter passes over, whatever follows. *)
Definition inert (c : Z) : bool := negb (is_space c || bool_decide (c ∈ str "#-/'`;") || (c =? 34)).

Lemma marks_inert c t : no_begin (c :: t) → inert c = true → marks (c :: t) = marks t.
Proof.
  intros Hn Hi. unfold inert in Hi. apply negb_true_iff in Hi. apply orb_false_iff in Hi as [Hi E34]. apply orb_false_iff in Hi as [Es Hc].
  apply bool_decide_eq_false in Hc. change (str "#-/'`;") with [35; 45; 47; 39; 96; 59] in Hc. rewrite !not_elem_of_cons in Hc.
  destruct Hc as (H1 & H2 & H3 & H4 & H5 & H6 & _). apply marks_plain; [done|done| |lia| |lia].
  - unfold line_comment, block_comment. rewrite (proj2 (Z.eqb_neq c 35)), (proj2 (Z.eqb_neq c 45)), (proj2 (Z.eqb_neq c 47)) by lia. done.
  - rewrite E34. simpl. lia.
Qed.

Lemma marks_inerts w t : no_begin (w ++ t) → forallb inert w = true → marks (w ++ t) = marks t.
Proof.
  induction w as [|c w IH]; [done|]. intros Hn Hw. simpl in Hw. apply andb_true_iff in Hw as [Hc Hw]. cbn [app] in *.
  rewrite marks_inert by done. apply IH; [by eapply no_begin_tail|done].
Qed.

Lemma marks_skip_line s : no_begin s → marks (skip_line s) = marks (after_line s).
Proof.
  induction s as [|c t IH]; [done|]. intros Hn. simpl. destruct (Z.eqb_spec c 10) as [->|]; [by rewrite marks_step by done|].
  apply IH. by eapply no_begin_tail.
Qed.

(** A line comment from its first characters [w]. *)
Lemma marks_line_comment w t :
  no_begin (w ++ t) → line_comment (w ++ t) = true → forallb (λ c, negb (c =? 10)) w = true → marks (w ++ t) = marks (after_line t).
Proof.
  intros Hn Hc Hw. assert (Hne : ∃ c u, w ++ t = c :: u ∧ is_space c = false).
  { destruct (w ++ t) as [|c u]; [done|]. exists c, u. split; [done|]. unfold line_comment in Hc. unfold is_space.
    destruct (Z.eqb_spec c 35) as [->|]; [done|]. destruct (Z.eqb_spec c 45) as [->|]; [done|]. done. }
  destruct Hne as (c & u & E & Es).
  assert (E1 : marks (w ++ t) = marks (skip_line (w ++ t))).
  { rewrite E in *. rewrite marks_step, Es, Hc by done. cbn [orb]. rewrite skip_blank_step, Es, Hc. unfold marks. apply ends_skip_blank. }
  rewrite E1. assert (E2 : skip_line (w ++ t) = skip_line t).
  { clear -Hw. induction w as [|c w IH]; [done|]. simpl in *. apply andb_true_iff in Hw as [Hc Hw]. apply negb_true_iff in Hc. by rewrite Hc, IH. }
  rewrite E2. apply marks_skip_line. eapply no_begin_suffix; [exact Hn|apply suffix_of_app].
Qed.

Lemma after_block_skip s : after_block s = skip_block s.
Proof.
  induction s as [|c t IH]; [done|]. destruct t as [|d u]; [simpl; by destruct (c =? 42)|].
  rewrite skip_block_cons, <- IH. change (after_block (c :: d :: u)) with (if (c =? 42) && (d =? 47) then u else after_block (d :: u)). done.
Qed.

Lemma marks_block_comment t : no_begin (47 :: 42 :: t) → marks (47 :: 42 :: t) = marks (after_block t).
Proof.
  intros Hn. rewrite marks_step by done. change (is_space 47) with false. cbv iota.
  change (line_comment (47 :: 42 :: t) || block_comment (47 :: 42 :: t)) with true. cbv iota. rewrite skip_blank_step.
  change (is_space 47) with false. cbv iota. change (line_comment (47 :: 42 :: t)) with false. change (block_comment (47 :: 42 :: t)) with true. cbv iota.
  change (drop 2 (47 :: 42 :: t)) with t. rewrite after_block_skip. unfold marks. apply ends_skip_blank.
Qed.

Lemma marks_string t : no_begin t → marks (skip_string t) = marks (read_string t).2.
Proof.
  induction t as [t IH] using length_ind. intros Hn. destruct t as [|c t]; [done|]. cbn [read_string skip_string].
  destruct (Z.eqb_spec c 92) as [->|Hc].
  - change (92 =? 39) with false. cbv iota. destruct t as [|d u]; [done|]. rewrite bool_decide_eq_false_2 by done. cbn [negb andb].
    rewrite IH; [by destruct (read_string u)|simpl; lia|]. by do 2 eapply no_begin_tail.
  - cbn [andb]. destruct (c =? 39); [|rewrite IH; [by destruct (read_string t)|simpl; lia|by eapply no_begin_tail]].
    destruct t as [|d u]; [done|]. destruct (Z.eqb_spec d 39) as [->|]; [|done].
    assert (Hn' : no_begin (39 :: u)) by (by eapply no_begin_tail).
    rewrite marks_step by done. change (is_space 39) with false. change (line_comment (39 :: u) || block_comment (39 :: u)) with false. cbv iota.
    rewrite Z.eqb_refl. rewrite IH; [by destruct (read_string u)|simpl; lia|by eapply no_begin_tail].
Qed.

Lemma read_quoted_ident_skip q s : (read_quoted_ident q s).2 = skip_quoted q s.
Proof. induction s as [|c t IH]; [done|]. simpl. destruct (c =? q); [done|]. rewrite <- IH. by destruct (read_quoted_ident q t). Qed.

Lemma digit_or_dot_char c : digit_or_dot c = true → word_char c = true ∨ c = c_dot.
Proof. unfold digit_or_dot, word_char. intros H. destruct (is_digit c); [left; by rewrite orb_true_r|right; simpl in H; lia]. Qed.

Lemma is_digit_char c : is_digit c = true → word_char c = true ∨ c = c_dot.
Proof. unfold word_char. intros ->. left. by rewrite orb_true_r. Qed.

Lemma is_hexdigit_char c : is_hexdigit c = true → word_char c = true ∨ c = c_dot.
Proof. unfold is_hexdigit, word_char, is_alpha. intros H. left. destruct (is_digit c); [by rewrite orb_true_r|]. simpl in H. lia. Qed.

Lemma marks_span (P : Z → bool) s :
  (∀ c, P c = true → word_char c = true ∨ c = c_dot) → no_begin s → marks (span P s).2 = marks s.
Proof.
  intros HP Hn. destruct (span_spec P s) as (E & Hw & _). rewrite E at 2. symmetry. apply marks_chars; [by rewrite <- E|].
  eapply Forall_impl; [exact Hw|]. done.
Qed.

Lemma marks_exponent f s rest number rest' :
  no_begin rest → read_exponent f s rest = Some (number, rest') → marks rest' = marks rest ∧ rest' `suffix_of` rest.
Proof.
  intros Hn E. unfold read_exponent in E. destruct rest as [|e t]; [done|]. destruct (_ || _ || negb _) eqn:Eb; [done|].
  apply orb_false_iff in Eb as [_ Eb]. apply negb_false_iff in Eb. assert (He : word_char e = true) by (unfold word_char, is_alpha; lia).
  assert (Ht : no_begin t) by by eapply no_begin_tail. rewrite (marks_char e t) by auto.
  set (st := match t with c :: u => if (c =? c_plus) || (c =? c_minus) then ([c], u) else ([], t) | [] => ([], t) end) in E.
  assert (Hst : ∃ sg u, st = (sg, u) ∧ t = sg ++ u ∧ (sg = [] ∨ sg = [c_plus] ∨ sg = [c_minus])).
  { unfold st. destruct t as [|c u]; [exists [], []; auto|]. destruct (Z.eqb_spec c c_plus) as [->|]; [eexists _, _; split; [done|]; auto|].
    destruct (Z.eqb_spec c c_minus) as [->|]; eexists _, _; (split; [done|]); auto. }
  destruct Hst as (sg & u & -> & -> & Hsg). destruct u as [|d v] eqn:Eu; [done|]. destruct (is_digit d) eqn:Ed; [|done]. cbn [negb] in E.
  destruct (span is_digit (d :: v)) as [ds w] eqn:Ew. injection E as _ <-.
  assert (Hu : no_begin (d :: v)) by (eapply no_begin_suffix; [exact Ht|apply suffix_of_app]).
  pose proof (marks_span is_digit (d :: v) is_digit_char Hu) as Hm. rewrite Ew in Hm. simpl in Hm.
  pose proof (span_suffix is_digit (d :: v)) as Hsuf. rewrite Ew in Hsuf. simpl in Hsuf. rewrite Hm. split.
  - destruct Hsg as [-> | [-> | ->]]; [done|..].
    + cbn [app]. symmetry. by apply marks_inert.
    + cbn [app]. symmetry. apply marks_plain; [done|done| |done|done|done]. unfold line_comment, block_comment. simpl.
      assert ((d =? 45) = false) as ->; [|done]. unfold is_digit in Ed. lia.
  - apply suffix_of_cons. etrans; [exact Hsuf|apply suffix_of_app].
Qed.
Lemma marks_number f s k value rest :
  no_begin s → read_number f s = (k, value, rest) → marks rest = marks s ∧ rest `suffix_of` (span digit_or_dot s).2 ∧ k ≠ TkSemicolon.
Proof.
  intros Hn E. unfold read_number in E. pose proof (marks_span digit_or_dot s digit_or_dot_char Hn) as Hm.
  pose proof (span_suffix digit_or_dot s) as Hs. destruct (span digit_or_dot s) as [ds r]. simpl in Hm, Hs.
  pose proof (no_begin_suffix _ _ Hn Hs) as Hr. destruct (read_exponent f ds r) as [[number r']|] eqn:Ee.
  { injection E as <- <- <-. destruct (marks_exponent f ds r number r' Hr Ee) as [-> Hr']. split_and!; [done|done|done]. }
  destruct r as [|x t]; [injection E as <- <- <-; by split_and!|]. destruct (_ && _) eqn:Ex; [|injection E as <- <- <-; by split_and!].
  pose proof (marks_span is_hexdigit t is_hexdigit_char ltac:(by eapply no_begin_tail)) as Hh. pose proof (span_suffix is_hexdigit t) as Hhs.
  destruct (span is_hexdigit t) as [hex r']. injection E as <- <- <-. simpl in Hh, Hhs. apply andb_true_iff in Ex as [_ Ex]. split_and!; [|by apply suffix_of_cons|done].
  rewrite Hh, <- Hm. symmetry. apply marks_char; [done|]. left. unfold word_char, is_alpha. lia.
Qed.

Definition is_semicolon (k : TokenKind) : bool := match k with TkSemicolon => true | _ => false end.

Lemma marks_ident s k value w rest :
  no_begin s → read_ident s = (k, value, w, rest) → marks rest = marks s ∧ rest = (span word_char s).2 ∧ k ≠ TkSemicolon.
Proof.
  intros Hn E. unfold read_ident in E. pose proof (marks_span word_char s ltac:(auto) Hn) as Hm. pose proof (span_suffix word_char s) as Hs.
  destruct (span word_char s) as [u r]. simpl in Hm, Hs.
  assert (Hk : forallb (λ e, negb (is_semicolon e.2)) keyword_map = true) by by vm_compute. rewrite forallb_forall in Hk.
  destruct (bool_decide _); [by simplify_eq|]. destruct (bool_decide _); [by simplify_eq|].
  destruct (keyword_kind (upper_case u)) as [k'|] eqn:Ek; simplify_eq; [|done]. split_and!; [done|done|]. intros ->.
  unfold keyword_kind in Ek. destruct (find _ keyword_map) as [e|] eqn:Ef; [|done]. injection Ek as Ek. apply find_some in Ef as [Hin _].
  specialize (Hk e Hin). by rewrite Ek in Hk.
Qed.

Lemma starts_with_spec p s : starts_with p s = true → s = p ++ drop (length p) s.
Proof.
  revert s. induction p as [|c p IH]; intros s; [done|]. destruct s as [|d s]; simpl; [done|]. intros [E H]%andb_true_iff. apply Z.eqb_eq in E as ->.
  f_equal. by apply IH.
Qed.

(** An operator or a mark, where no comment starts. *)
Lemma marks_mark s k rest :
  no_begin s → line_comment s || block_comment s = false → read_mark s = Some (k, rest) →
  marks s = (if is_semicolon k then [rest] else []) ++ marks rest ∧ rest `suffix_of` s ∧ (length rest < length s)%nat.
Proof.
  intros Hn Hc E. unfold read_mark in E. destruct (find _ mark_table) as [[m k']|] eqn:Ef; [|done]. injection E as -> <-.
  apply find_some in Ef as [Hin Hst]. simpl in Hst. pose proof (starts_with_spec m s Hst) as Es.
  set (rest := drop (length m) s) in *. clearbody rest. subst s.
  assert (Hm : ∃ c w, m = c :: w ∧ forallb inert w = true ∧ (is_semicolon k = true ∧ c = 59 ∧ w = [] ∨ is_semicolon k = false ∧ (inert c = true ∨ c = 45 ∨ c = 47))).
  { assert (Hall : forallb (λ e, match e.1 with
        | c :: w => forallb inert w && (if is_semicolon e.2 then (c =? 59) && bool_decide (w = []) else inert c || (c =? 45) || (c =? 47))
        | [] => false end) mark_table = true) by by vm_compute.
    rewrite forallb_forall in Hall. specialize (Hall _ Hin). simpl in Hall. destruct m as [|c w]; [done|]. exists c, w.
    apply andb_true_iff in Hall as [Hw Hk]. split; [done|]. split; [done|]. destruct (is_semicolon k).
    - left. apply andb_true_iff in Hk as [Hk1 Hk2]. apply Z.eqb_eq in Hk1. apply bool_decide_eq_true in Hk2. done.
    - right. split; [done|]. apply orb_true_iff in Hk as [Hk|Hk]; [apply orb_true_iff in Hk as [Hk|Hk]; [auto|apply Z.eqb_eq in Hk; auto]|apply Z.eqb_eq in Hk; auto]. }
  destruct Hm as (c & w & -> & Hw & Hk). split_and!; [|apply suffix_of_app|rewrite length_app; simpl; lia].
  cbn [app] in *. destruct Hk as [(-> & -> & ->)|(-> & Hk)].
  - rewrite marks_step by done. change (is_space 59) with false. change (line_comment (59 :: [] ++ rest) || block_comment (59 :: [] ++ rest)) with false. done.
  - rewrite <- (marks_inerts w rest); [|by eapply no_begin_tail|done]. destruct Hk as [Hk|Hk]; [by rewrite marks_inert|].
    rewrite marks_plain; [done|done| |done| | |]; by destruct Hk as [-> | ->].
Qed.
Lemma span_head P c t : P c = true → (span P (c :: t)).2 = (span P t).2.
Proof. intros E. simpl. rewrite E. by destruct (span P t). Qed.

Lemma server_variable_marks t : no_begin t → marks (server_variable t).2 = marks t ∧ (server_variable t).2 `suffix_of` t.
Proof.
  intros Hn. unfold server_variable. pose proof (marks_span word_char t ltac:(auto) Hn) as Hm. pose proof (span_suffix word_char t) as Hs.
  destruct (span word_char t) as [name r]. simpl in Hm, Hs. pose proof (no_begin_suffix _ _ Hn Hs) as Hr. destruct (next_is c_dot r && _) eqn:E; [|done].
  apply andb_true_iff in E as [Hd _]. destruct r as [|d u]; [done|]. simpl in Hd. apply Z.eqb_eq in Hd as ->. cbn [tail].
  assert (Hu : no_begin u) by by eapply no_begin_tail.
  pose proof (marks_span word_char u ltac:(auto) Hu) as Hm'. pose proof (span_suffix word_char u) as Hs'. destruct (span word_char u) as [name' r']. simpl in *.
  split; [|by etrans; [apply suffix_of_cons|]]. rewrite Hm', <- Hm. symmetry. apply marks_char; auto.
Qed.

(** What one round of the lexer passes, the splitter passes, and they meet the same end of a statement. *)
Definition round_ok (len : nat) (s : list Z) (toks : list Token) (rest : list Z) : Prop :=
  rest `suffix_of` tail s ∧
  ((∃ tok, toks = [tok] ∧ kind tok = TkSemicolon ∧ tok_end tok = (len - length rest)%nat ∧ marks s = rest :: marks rest) ∨
   (forallb (λ t, negb (is_semicolon (kind t))) toks = true ∧ marks s = marks rest)).

Lemma not_semicolon k : k ≠ TkSemicolon → is_semicolon k = false.
Proof. by destruct k. Qed.

Lemma round_one len s k v w b rest :
  rest `suffix_of` tail s → k ≠ TkSemicolon → marks s = marks rest → round_ok len s [mkToken k v w b (len - length rest)] rest.
Proof. intros Hs Hk Hm. split; [done|]. right. split; [|done]. simpl. by rewrite not_semicolon. Qed.

Lemma line_comment_dash t : next_is 45 t = false → line_comment (45 :: t) || block_comment (45 :: t) = false.
Proof. intros H. unfold line_comment, block_comment. by rewrite H. Qed.

Lemma inert_dash_next t : match t with d :: _ => is_digit d | [] => false end = true → next_is 45 t = false.
Proof. destruct t as [|d t]; [done|]. unfold is_digit. simpl. intros H. lia. Qed.

Lemma lex_one_ok f len prev c t toks rest :
  no_begin (c :: t) → is_space c = false → lex_one f len prev c t = (toks, rest) → round_ok len (c :: t) toks rest.
Proof.
  intros Hn Hsp E. assert (Ht : no_begin t) by by eapply no_begin_tail. unfold lex_one in E.
  destruct ((c =? 45) && next_is 45 t) eqn:E1.
  { apply andb_true_iff in E1 as [Ec En]. apply Z.eqb_eq in Ec as ->. destruct t as [|d u]; [done|]. simpl in En. apply Z.eqb_eq in En as ->.
    injection E as <- <-. cbn [tail]. split; [apply suffix_of_cons, after_line_suffix|]. right. split; [done|].
    by apply (marks_line_comment [45; 45] u). }
  destruct (_ && _ && _ && _) eqn:E2.
  { repeat (apply andb_true_iff in E2 as [E2 ?]). apply Z.eqb_eq in E2 as ->. pose proof (inert_dash_next t H0) as Hd.
    assert (Hm : marks (45 :: t) = marks t) by (apply marks_plain; try done; by apply line_comment_dash).
    pose proof (marks_span digit_or_dot t digit_or_dot_char Ht) as Hms. pose proof (span_suffix digit_or_dot t) as Hs.
    destruct (span digit_or_dot t) as [ds r]. simpl in Hms, Hs. pose proof (no_begin_suffix _ _ Ht Hs) as Hr.
    destruct (read_exponent f (45 :: ds) r) as [[number r']|] eqn:Ee; cbn [default] in E; injection E as <- <-.
    - destruct (marks_exponent f _ _ _ _ Hr Ee) as [Hm' Hs']. apply round_one; [cbn [tail]; by etrans|done|]. by rewrite Hm, Hm'.
    - apply round_one; [done|done|]. by rewrite Hm. }
  destruct (Z.eqb_spec c 64) as [->|Hc64].
  { assert (Hm : marks (64 :: t) = marks t) by (by apply marks_inert). destruct (next_is 64 t) eqn:En.
    - destruct t as [|d u]; [done|]. simpl in En. apply Z.eqb_eq in En as ->. cbn [tail] in E.
      assert (Hu : no_begin u) by by eapply no_begin_tail. destruct (server_variable_marks u Hu) as [Hv Hvs].
      destruct (server_variable u) as [name r]. injection E as <- <-. simpl in Hv, Hvs. split; [cbn [tail]; by apply suffix_of_cons|]. right. split; [done|].
      rewrite Hm, Hv. by apply marks_inert.
    - injection E as <- <-. by apply round_one. }
  destruct (Z.eqb_spec c 35) as [->|Hc35].
  { injection E as <- <-. split; [apply after_line_suffix|]. right. split; [done|]. by apply (marks_line_comment [35] t). }
  destruct ((c =? 47) && next_is 42 t) eqn:E3.
  { apply andb_true_iff in E3 as [Ec En]. apply Z.eqb_eq in Ec as ->. destruct t as [|d u]; [done|]. simpl in En. apply Z.eqb_eq in En as ->.
    injection E as <- <-. cbn [tail]. split; [apply suffix_of_cons, after_block_suffix|]. right. split; [done|]. by apply marks_block_comment. }
  assert (Hnc : line_comment (c :: t) || block_comment (c :: t) = false).
  { unfold line_comment, block_comment. rewrite E1, E3. rewrite (proj2 (Z.eqb_neq c 35)) by done. done. }
  destruct ((c =? 96) || (c =? 34)) eqn:E4.
  { pose proof (read_quoted_ident_skip c t) as Hq. pose proof (read_quoted_ident_suffix c t) as Hs. destruct (read_quoted_ident c t) as [name r].
    injection E as <- <-. simpl in Hq, Hs. apply round_one; [done|done|]. rewrite marks_step, Hsp, Hnc by done.
    rewrite (proj2 (Z.eqb_neq c 39)) by lia. rewrite orb_comm, E4. by rewrite Hq. }
  destruct (Z.eqb_spec c 39) as [->|Hc39].
  { pose proof (marks_string t Ht) as Hq. pose proof (read_string_suffix t) as Hs. destruct (read_string t) as [v r].
    injection E as <- <-. simpl in Hq, Hs. apply round_one; [done|done|]. rewrite marks_step, Hsp, Hnc by done. by rewrite Z.eqb_refl. }
  destruct (read_mark (c :: t)) as [[k r]|] eqn:Em.
  { injection E as <- <-. destruct (marks_mark (c :: t) k r Hn Hnc Em) as (Hm & Hs & Hl). split.
    - destruct Hs as [[|d w] Hs]; [simpl in Hs; subst r; simpl in Hl; lia|]. injection Hs as _ ->. apply suffix_of_app.
    - destruct (is_semicolon k) eqn:Ek; [left; eexists; split; [done|]; split; [by destruct k|done]|right; split; [simpl; by rewrite Ek|done]]. }
  destruct (is_digit c) eqn:Ed.
  { destruct (read_number f (c :: t)) as [[k v] r] eqn:En. injection E as <- <-. destruct (marks_number f _ _ _ _ Hn En) as (Hm & Hs & Hk).
    rewrite span_head in Hs by (unfold digit_or_dot; by rewrite Ed). apply round_one; [cbn [tail]; etrans; [exact Hs|apply span_suffix]|done|done]. }
  destruct (word_start c) eqn:Ew.
  { destruct (read_ident (c :: t)) as [[[k v] w] r] eqn:En. injection E as <- <-. destruct (marks_ident _ _ _ _ _ Hn En) as (Hm & Hs & Hk).
    rewrite span_head in Hs by by apply word_start_char. apply round_one; [cbn [tail]; rewrite Hs; apply span_suffix|done|done]. }
  injection E as <- <-. split; [done|]. right. split; [done|]. apply marks_plain; try done.
  - by apply Z.eqb_neq.
  - by rewrite orb_comm.
  - apply Z.eqb_neq. intros ->. done.
Qed.

(** ** The fuel, and the whole text *)

Definition semicolon_rests (input : list Z) (toks : list Token) : list (list Z) :=
  (λ t, drop (tok_end t) input) <$> filter (λ t, is_semicolon (kind t) = true) toks.

Lemma no_semicolons toks : forallb (λ t, negb (is_semicolon (kind t))) toks = true → filter (λ t, is_semicolon (kind t) = true) toks = [].
Proof.
  induction toks as [|t toks IH]; [done|]. simpl. intros [Ht H]%andb_true_iff. apply negb_true_iff in Ht. rewrite filter_cons_False by (by rewrite Ht). auto.
Qed.

Lemma drop_suffix (input rest : list Z) : rest `suffix_of` input → drop (length input - length rest) input = rest.
Proof. intros [k ->]. rewrite length_app. replace (length k + length rest - length rest)%nat with (length k) by lia. by rewrite drop_app_length. Qed.

Lemma tokenize_marks f input fuel prev s :
  no_begin s → s `suffix_of` input → (length s ≤ fuel)%nat → semicolon_rests input (tokenize_loop f fuel (length input) prev s) = marks s.
Proof.
  revert prev s. induction fuel as [|fuel IH]; intros prev s Hn Hs Hf; [destruct s; [done|simpl in Hf; lia]|]. cbn [tokenize_loop].
  unfold skip_whitespace. rewrite <- marks_space by done. pose proof (skip_space_suffix s) as Hsk. pose proof (no_begin_suffix _ _ Hn Hsk) as Hn'.
  assert (Hsp : match skip_space s with c :: _ => is_space c = false | [] => True end).
  { clear. induction s as [|c t IH]; [done|]. simpl. destruct (is_space c) eqn:E; [done|done]. }
  destruct (skip_space s) as [|c t] eqn:Esk; [done|]. destruct (lex_one f (length input) prev c t) as [toks rest] eqn:El.
  destruct (lex_one_ok f _ _ _ _ _ _ Hn' Hsp El) as [Hr Hm]. cbn [tail] in Hr.
  assert (Hrs : rest `suffix_of` s) by (etrans; [exact Hr|]; etrans; [|exact Hsk]; by exists [c]).
  assert (Hlen : (length rest ≤ fuel)%nat).
  { pose proof (suffix_length _ _ Hr). pose proof (suffix_length _ _ Hsk) as Hl. simpl in Hl. lia. }
  assert (IHr := IH (match last toks with Some p => Some p | None => prev end) rest (no_begin_suffix _ _ Hn Hrs) ltac:(by etrans) Hlen).
  unfold semicolon_rests in *. rewrite filter_app, fmap_app, IHr. destruct Hm as [(tok & -> & Hk & He & ->)|[Hns ->]].
  - rewrite filter_cons_True by by rewrite Hk. cbn. rewrite He. f_equal. apply drop_suffix. by etrans.
  - by rewrite no_semicolons.
Qed.

(** ** Spellings *)

Definition quote (s : list Z) : list Z := concat ((λ c, if (c =? 39) || (c =? 92) then [92; c] else [c]) <$> s).

(** A way to write a token: its text, its kind, and the text the token carries. *)
Inductive spelling : list Z → TokenKind → list Z → Prop :=
  | spell_mark m k : (m, k) ∈ mark_table → spelling m k []
  | spell_keyword w k :
      keyword_kind (upper_case w) = Some k → Forall (λ c, word_char c = true) w → match w with c :: _ => word_start c = true | [] => False end →
      upper_case w ≠ str "TRUE" → upper_case w ≠ str "FALSE" → spelling w k []
  | spell_word w :
      keyword_kind (upper_case w) = None → Forall (λ c, word_char c = true) w → match w with c :: _ => word_start c = true | [] => False end →
      upper_case w ≠ str "TRUE" → upper_case w ≠ str "FALSE" → spelling w TkIdent w
  | spell_name s : 96 ∉ s → spelling (96 :: s ++ [96]) TkIdent s
  | spell_string s : spelling (39 :: quote s ++ [39]) TkStringLit s
  | spell_number ds :
      Forall (λ c, digit_or_dot c = true) ds → match ds with c :: _ => is_digit c = true | [] => False end → spelling ds TkNumberLit ds.

Lemma span_all P w t : Forall (λ c, P c = true) w → match t with c :: _ => P c = false | [] => True end → span P (w ++ t) = (w, t).
Proof.
  intros Hw Ht. induction Hw as [|c w Hc Hw IH]; simpl.
  - destruct t as [|c t]; [done|]. simpl. by rewrite Ht.
  - rewrite Hc, IH. done.
Qed.

Lemma read_quoted_ident_all q s t : q ∉ s → read_quoted_ident q (s ++ q :: t) = (s, t).
Proof.
  induction s as [|c s IH]; intros Hq; simpl; [by rewrite Z.eqb_refl|]. rewrite not_elem_of_cons in Hq. destruct Hq as [H1 H2].
  rewrite (proj2 (Z.eqb_neq c q)) by done. by rewrite IH.
Qed.

Lemma read_string_quote s t : match t with c :: _ => c ≠ 39 | [] => True end → read_string (quote s ++ 39 :: t) = (s, t).
Proof.
  intros Ht. induction s as [|c s IH].
  - cbn. destruct t as [|d u]; [done|]. by rewrite (proj2 (Z.eqb_neq d 39)).
  - unfold quote in *. cbn [fmap list_fmap concat]. destruct (Z.eqb_spec c 39) as [->|H39]; [cbn; cbn in IH; by rewrite IH|].
    destruct (Z.eqb_spec c 92) as [->|H92]; [cbn; cbn in IH; by rewrite IH|]. cbn [orb app read_string].
    rewrite (proj2 (Z.eqb_neq c 39)), (proj2 (Z.eqb_neq c 92)) by done. cbn in IH |- *. by rewrite IH.
Qed.

Lemma copy_quoted_quote s t : copy_quoted 39 (quote s ++ 39 :: t) = (quote s ++ [39], t).
Proof.
  induction s as [|c s IH]; [done|]. unfold quote in *. cbn [fmap list_fmap concat].
  destruct (Z.eqb_spec c 39) as [->|H39]; [cbn; cbn in IH; by rewrite IH|].
  destruct (Z.eqb_spec c 92) as [->|H92]; [cbn; cbn in IH; by rewrite IH|]. cbn [orb app copy_quoted].
  rewrite (proj2 (Z.eqb_neq c 39)), (proj2 (Z.eqb_neq c 92)) by done. cbn in IH |- *. by rewrite IH.
Qed.

Lemma copy_quoted_name s t : 96 ∉ s → copy_quoted 96 (s ++ 96 :: t) = (s ++ [96], t).
Proof.
  induction s as [|c s IH]; intros Hq; simpl; [done|]. rewrite not_elem_of_cons in Hq. destruct Hq as [H1 H2].
  rewrite (proj2 (Z.eqb_neq c 96)) by done. rewrite andb_false_r. by rewrite IH.
Qed.

Lemma starts_with_app p s : starts_with p (p ++ s) = true.
Proof. induction p as [|c p IH]; [done|]. simpl. by rewrite Z.eqb_refl, IH. Qed.

Lemma starts_with_space p m s :
  starts_with p (m ++ 32 :: s) = true → 32 ∉ p → starts_with p m = true.
Proof.
  revert m. induction p as [|c p IH]; intros m; [done|]. rewrite not_elem_of_cons. intros H [Hc Hp]. destruct m as [|d m]; simpl in *.
  - apply andb_true_iff in H as [H _]. lia.
  - apply andb_true_iff in H as [H1 H2]. rewrite H1. simpl. by apply IH.
Qed.

Lemma starts_with_more p m s : starts_with p m = true → starts_with p (m ++ s) = true.
Proof. revert m. induction p as [|c p IH]; intros [|d m]; simpl; try done. intros [-> H]%andb_true_iff. simpl. by apply IH. Qed.

(** A mark followed by a blank is read as it stands in the table. *)
Lemma find_mark (l : list (list Z * TokenKind)) m rest :
  Forall (λ e, 32 ∉ e.1) l →
  find (λ e, starts_with e.1 (m ++ 32 :: rest)) l = find (λ e, starts_with e.1 m) l.
Proof.
  induction 1 as [|e l He Hl IH]; [done|]. simpl. rewrite IH. destruct (starts_with e.1 m) eqn:E; [by rewrite starts_with_more|].
  destruct (starts_with e.1 (m ++ 32 :: rest)) eqn:E'; [|done]. by rewrite (starts_with_space _ _ _ E' He) in E.
Qed.

Lemma read_mark_table m k rest : (m, k) ∈ mark_table → read_mark (m ++ 32 :: rest) = Some (k, 32 :: rest).
Proof.
  intros Hin. unfold read_mark. rewrite find_mark.
  - assert (H : Forall (λ e, find (λ e', starts_with e'.1 e.1) mark_table = Some e) mark_table) by (repeat (apply Forall_cons; split; [by vm_compute|]); by apply Forall_nil).
    rewrite Forall_forall in H. specialize (H (m, k) Hin). cbn [fst] in H. rewrite H. by rewrite drop_app_length.
  - repeat (apply Forall_cons; split; [by apply (bool_decide_unpack _); vm_compute|]). by apply Forall_nil.
Qed.
Lemma upper_head c (t : list Z) : word_start c = true → word_char c = true ∧ is_space c = false ∧ is_digit c = false.
Proof. intros H. split; [by apply word_start_char|]. unfold word_start, is_alpha, is_space, is_digit in *. lia. Qed.

Lemma word_start_tests c t :
  word_start c = true → (c =? 45) = false ∧ (c =? 64) = false ∧ (c =? 35) = false ∧ (c =? 47) = false ∧ (c =? 96) || (c =? 34) = false ∧ (c =? 39) = false ∧
  read_mark (c :: t) = None.
Proof.
  intros H. assert (Hc : (97 ≤ c ≤ 122) ∨ (65 ≤ c ≤ 90) ∨ c = 95) by (unfold word_start, is_alpha in H; lia).
  split_and!; try lia. unfold read_mark.
  destruct (find _ mark_table) as [e|] eqn:Ef; [|done]. exfalso. apply find_some in Ef as [Hin Hst].
  assert (Hall : forallb (λ e, match e.1 with d :: _ => negb (word_start d) | [] => false end) mark_table = true) by by vm_compute.
  rewrite forallb_forall in Hall. specialize (Hall e Hin). destruct (e.1) as [|d w]; [done|]. simpl in Hst. apply andb_true_iff in Hst as [Hd _].
  apply Z.eqb_eq in Hd as ->. by rewrite H in Hall.
Qed.

Lemma digit_tests c t :
  is_digit c = true → (c =? 45) = false ∧ (c =? 64) = false ∧ (c =? 35) = false ∧ (c =? 47) = false ∧ (c =? 96) || (c =? 34) = false ∧ (c =? 39) = false ∧
  read_mark (c :: t) = None.
Proof.
  intros H. assert (Hc : 48 ≤ c ≤ 57) by (unfold is_digit in H; lia).
  split_and!; try lia. unfold read_mark.
  destruct (find _ mark_table) as [e|] eqn:Ef; [|done]. exfalso. apply find_some in Ef as [Hin Hst].
  assert (Hall : forallb (λ e, match e.1 with d :: _ => negb (is_digit d) | [] => false end) mark_table = true) by by vm_compute.
  rewrite forallb_forall in Hall. specialize (Hall e Hin). destruct (e.1) as [|d w]; [done|]. simpl in Hst. apply andb_true_iff in Hst as [Hd _].
  apply Z.eqb_eq in Hd as ->. by rewrite H in Hall.
Qed.

(** A mark is no comment and no number, with a blank behind it. *)
Lemma mark_tests m k rest :
  (m, k) ∈ mark_table → ∃ c w, m = c :: w ∧ is_space c = false ∧ (c =? 64) = false ∧ (c =? 35) = false ∧ (c =? 96) || (c =? 34) = false ∧ (c =? 39) = false ∧
    (c =? 45) && next_is 45 (w ++ 32 :: rest) = false ∧ (c =? 47) && next_is 42 (w ++ 32 :: rest) = false ∧
    (c =? 45) && negb (next_is 62 (w ++ 32 :: rest)) && match w ++ 32 :: rest with d :: _ => is_digit d | [] => false end = false.
Proof.
  intros Hin. assert (H : Forall (λ e, match e.1 with
      | c :: w => is_space c = false ∧ (c =? 64) = false ∧ (c =? 35) = false ∧ (c =? 96) || (c =? 34) = false ∧ (c =? 39) = false ∧
          (c =? 45) && next_is 45 w = false ∧ (c =? 47) && next_is 42 w = false ∧ match w with d :: _ => is_digit d = false | [] => True end
      | [] => False end) mark_table).
  { repeat (apply Forall_cons; split; [by vm_compute|]). by apply Forall_nil. }
  rewrite Forall_forall in H. specialize (H (m, k) Hin). cbn [fst] in H. destruct m as [|c w]; [done|].
  destruct H as (H1 & H2 & H3 & H4 & H5 & H6 & H7 & H8). exists c, w. split_and!; try done.
  - destruct w as [|d w]; [simpl; by rewrite andb_false_r|done].
  - destruct w as [|d w]; [simpl; by rewrite andb_false_r|done].
  - destruct w as [|d w]; [simpl; by rewrite andb_false_r|]. simpl in *. by rewrite H8, andb_false_r.
Qed.

(** The lexer reads a spelling and a blank as its token. *)
Lemma lex_spelling f len prev p k v rest :
  spelling p k v → ∃ c t w b e, p ++ 32 :: rest = c :: t ∧ is_space c = false ∧ lex_one f len prev c t = ([mkToken k v w b e], 32 :: rest).
Proof.
  destruct 1 as [m k Hin|w k Hk Hw Hs HT HF|w Hk Hw Hs HT HF|s Hs|s|ds Hd Hs].
  - pose proof (read_mark_table m k rest Hin) as Hm. destruct (mark_tests m k rest Hin) as (c & w & -> & H1 & H2 & H3 & H4 & H5 & H6 & H7 & H8).
    cbn [app] in Hm |- *. eexists c, _, [], _, _. split; [done|]. split; [done|]. unfold lex_one. rewrite H6, H8, H2, H3, H7, H4, H5, Hm. done.
  - destruct w as [|c w]; [done|]. destruct (upper_head c w Hs) as (Hc & Hsp & Hd). cbn [app].
    destruct (word_start_tests c (w ++ 32 :: rest) Hs) as (T1 & T2 & T3 & T4 & T5 & T6 & T7).
    eexists c, _, _, _, _. split; [done|]. split; [done|]. unfold lex_one. rewrite T1, T2, T3, T4, T5, T6, T7, Hd, Hs. cbn [andb]. unfold read_ident.
    change (c :: w ++ 32 :: rest) with ((c :: w) ++ 32 :: rest). rewrite span_all by done. rewrite !bool_decide_eq_false_2, Hk by done. done.
  - destruct w as [|c w]; [done|]. destruct (upper_head c w Hs) as (Hc & Hsp & Hd). cbn [app].
    destruct (word_start_tests c (w ++ 32 :: rest) Hs) as (T1 & T2 & T3 & T4 & T5 & T6 & T7).
    eexists c, _, _, _, _. split; [done|]. split; [done|]. unfold lex_one. rewrite T1, T2, T3, T4, T5, T6, T7, Hd, Hs. cbn [andb]. unfold read_ident.
    change (c :: w ++ 32 :: rest) with ((c :: w) ++ 32 :: rest). rewrite span_all by done. rewrite !bool_decide_eq_false_2, Hk by done. done.
  - cbn [app]. rewrite <- app_assoc. eexists 96, _, _, _, _. split; [done|]. split; [done|]. unfold lex_one.
    change (96 =? 45) with false. change (96 =? 64) with false. change (96 =? 35) with false. change (96 =? 47) with false. cbn [andb orb]. rewrite Z.eqb_refl. cbn [orb app].
    by rewrite read_quoted_ident_all.
  - cbn [app]. rewrite <- app_assoc. eexists 39, _, _, _, _. split; [done|]. split; [done|]. unfold lex_one.
    change (39 =? 45) with false. change (39 =? 64) with false. change (39 =? 35) with false. change (39 =? 47) with false. change ((39 =? 96) || (39 =? 34)) with false.
    cbn [andb orb app]. rewrite Z.eqb_refl. by rewrite read_string_quote.
  - destruct ds as [|c w]; [done|]. cbn [app]. destruct (digit_tests c (w ++ 32 :: rest) Hs) as (T1 & T2 & T3 & T4 & T5 & T6 & T7).
    eexists c, _, _, _, _. split; [done|]. split; [unfold is_digit, is_space in *; lia|]. unfold lex_one. rewrite T1, T2, T3, T4, T5, T6, T7, Hs. cbn [andb]. unfold read_number.
    change (c :: w ++ 32 :: rest) with ((c :: w) ++ 32 :: rest). rewrite span_all by done. unfold read_exponent. rewrite orb_true_r. rewrite andb_false_r. done.
Qed.
(** ** Texts without comments are not changed *)

Definition kept (s : list Z) : Prop := ∀ fuel, (length s ≤ fuel)%nat → expand_loop fuel s = s.

Lemma kept_one c t a b : expand_one c t = (a, b) → a ++ b = c :: t → a ≠ [] → kept b → kept (c :: t).
Proof.
  intros E Eab Ha Hb fuel Hf. destruct fuel as [|fuel]; [simpl in Hf; lia|]. cbn [expand_loop]. rewrite E, Hb; [done|].
  apply (f_equal length) in Eab. rewrite length_app in Eab. destruct a as [|x a]; [done|]. cbn [length] in *. lia.
Qed.

Lemma kept_char c t :
  (c =? 39) || (c =? 34) || (c =? 96) = false → (c =? 35) = false → (c =? 45) && next_is 45 t = false → (c =? 47) && next_is 42 t = false →
  kept t → kept (c :: t).
Proof. intros H1 H2 H3 H4 Ht. apply (kept_one c t [c] t); [|done..]. unfold expand_one. by rewrite H1, H2, H3, H4. Qed.

Definition passive (c : Z) : bool := negb (bool_decide (c ∈ str "'`#-/") || (c =? 34)).

Lemma kept_run w t : forallb passive w = true → kept t → kept (w ++ t).
Proof.
  induction w as [|c w IH]; [done|]. simpl. intros [Hc Hw]%andb_true_iff Ht. unfold passive in Hc. apply negb_true_iff, orb_false_iff in Hc as [Hc H34].
  apply bool_decide_eq_false in Hc. change (str "'`#-/") with [39; 96; 35; 45; 47] in Hc. rewrite !not_elem_of_cons in Hc. destruct Hc as (H1 & H2 & H3 & H4 & H5 & _).
  apply kept_char; [lia|lia| | |by apply IH].
  - by rewrite (proj2 (Z.eqb_neq c 45)).
  - by rewrite (proj2 (Z.eqb_neq c 47)).
Qed.

Lemma word_passive c : word_char c = true ∨ c = c_dot → passive c = true.
Proof.
  intros Hc. unfold passive. apply negb_true_iff, orb_false_iff. split.
  - apply bool_decide_eq_false. change (str "'`#-/") with [39; 96; 35; 45; 47]. rewrite !elem_of_cons, elem_of_nil. unfold word_char, is_alpha, is_digit in Hc. lia.
  - unfold word_char, is_alpha, is_digit in Hc. lia.
Qed.

Lemma words_passive (P : Z → bool) w : (∀ c, P c = true → word_char c = true ∨ c = c_dot) → Forall (λ c, P c = true) w → forallb passive w = true.
Proof. intros HP Hw. induction Hw as [|c w Hc Hw IH]; [done|]. simpl. by rewrite word_passive, IH by auto. Qed.

Lemma kept_spelling p k v rest : spelling p k v → kept rest → kept (p ++ 32 :: rest).
Proof.
  intros Hp Hr. assert (Hr' : kept (32 :: rest)) by by apply (kept_run [32] rest).
  destruct Hp as [m k Hin|w k _ Hw _ _ _|w _ Hw _ _ _|s Hs|s|ds Hd _].
  - destruct (mark_tests m k rest Hin) as (c & w & -> & H1 & H2 & H3 & H4 & H5 & H6 & H7 & H8). cbn [app]. apply kept_char; [|done..|].
    + apply orb_false_iff in H4 as [-> ->]. by rewrite H5.
    + apply kept_run; [|done].
      assert (Hall : forallb (λ e, forallb passive (tail e.1)) mark_table = true) by by vm_compute.
      rewrite forallb_forall in Hall. exact (Hall _ (proj1 (list_elem_of_In _ _) Hin)).
  - apply kept_run; [|done]. apply (words_passive word_char); auto.
  - apply kept_run; [|done]. apply (words_passive word_char); auto.
  - cbn [app]. rewrite <- app_assoc. cbn [app]. apply (kept_one _ _ (96 :: s ++ [96]) (32 :: rest)); [|cbn; by rewrite <- app_assoc|done|done].
    unfold expand_one. change ((96 =? 39) || (96 =? 34) || (96 =? 96)) with true. cbv iota. by rewrite copy_quoted_name.
  - cbn [app]. rewrite <- app_assoc. cbn [app]. apply (kept_one _ _ (39 :: quote s ++ [39]) (32 :: rest)); [|cbn; by rewrite <- app_assoc|done|done].
    unfold expand_one. change ((39 =? 39) || (39 =? 34) || (39 =? 96)) with true. cbv iota. by rewrite copy_quoted_quote.
  - apply kept_run; [|done]. apply (words_passive digit_or_dot); [apply digit_or_dot_char|done].
Qed.

Lemma kept_expand s : kept s → expand_executable_comments s = s.
Proof. intros Hk. unfold expand_executable_comments. destruct (find_text (str "/*!") s), (find_text (str "/*M!") s); try done; by apply Hk. Qed.

(** A text of spellings, a blank behind each. *)
Definition written (ps : list (list Z * TokenKind * list Z)) : list Z := concat ((λ p, p.1.1 ++ [32]) <$> ps).
Definition spelled (p : list Z * TokenKind * list Z) : Prop := spelling p.1.1 p.1.2 p.2.

Lemma written_cons p ps : written (p :: ps) = p.1.1 ++ 32 :: written ps.
Proof. unfold written. simpl. by rewrite <- app_assoc. Qed.

Lemma written_kept ps : Forall spelled ps → kept (written ps).
Proof. induction 1 as [|p ps Hp Hps IH]; [by intros []|]. rewrite written_cons. by eapply kept_spelling. Qed.

Lemma spelling_nonempty p k v : spelling p k v → (0 < length p)%nat.
Proof.
  destruct 1 as [m k Hin|[|c w] k _ _ Hs _ _|[|c w] _ _ Hs _ _|s Hs|s|[|c w] _ Hs]; try done; cbn [length]; try lia.
  destruct (mark_tests m k [] Hin) as (c & w & -> & _). cbn [length]. lia.
Qed.

Lemma tokenize_written f len fuel prev ps :
  Forall spelled ps → (length (written ps) ≤ fuel)%nat →
  (λ t, (kind t, text t)) <$> tokenize_loop f fuel len prev (written ps) = (λ p, (p.1.2, p.2)) <$> ps ∧
  ((length (written ps) < fuel)%nat → (λ t, (kind t, text t)) <$> tokenize_loop f fuel len prev (32 :: written ps) = (λ p, (p.1.2, p.2)) <$> ps).
Proof.
  intros Hps. revert fuel prev. induction Hps as [|[[p k] v] ps Hp Hps IH]; intros fuel prev Hf.
  { by destruct fuel as [|fuel]. }
  enough (H : (λ t, (kind t, text t)) <$> tokenize_loop f fuel len prev (written ((p, k, v) :: ps)) = (λ p, (p.1.2, p.2)) <$> (p, k, v) :: ps).
  { split; [exact H|]. destruct fuel as [|fuel]; [lia|]. intros _. exact H. }
  pose proof (spelling_nonempty p k v Hp) as Hlen. rewrite written_cons in *. cbn [fst snd] in *. rewrite length_app in Hf. cbn [length] in Hf.
  destruct fuel as [|fuel]; [lia|]. cbn [tokenize_loop].
  destruct (lex_spelling f len prev p k v (written ps) Hp) as (c & t & w & b & e & E & Hsp & El). rewrite E. unfold skip_whitespace. cbn [skip_space].
  rewrite Hsp, El. cbn [app fmap list_fmap last kind text]. f_equal. apply IH; lia.
Qed.

(** ** Properties *)



(** C24: tokens written out are read back. Write any tokens with a blank behind each: marks and keywords as their
    tables have them (keywords in any case), words, quoted names, strings with their quotes and backslashes
    escaped, numbers of digits and dots. The lexer gives those tokens, whatever the strings and the names
    contain, comments and semicolons included. *)
Theorem tokens_roundtrip format_15g ps :
  Forall spelled ps → (λ t, (kind t, text t)) <$> tokenize format_15g (written ps) = (λ p, (p.1.2, p.2)) <$> ps.
Proof.
  intros Hps. unfold tokenize. rewrite kept_expand by by apply written_kept. by apply tokenize_written.
Qed.

Lemma tokens_roundtrip_witness :
  (λ t, (kind t, text t)) <$> tokenize id (str "select `a;--b` , 'it\'s /* 7;' <= 12.5 ") =
  [(TkSelect, []); (TkIdent, str "a;--b"); (TkComma, []); (TkStringLit, str "it's /* 7;"); (TkLte, []); (TkNumberLit, str "12.5")].
Proof.
  apply (tokens_roundtrip id [(str "select", TkSelect, []); (str "`a;--b`", TkIdent, str "a;--b"); (str ",", TkComma, []);
    (str "'it\'s /* 7;'", TkStringLit, str "it's /* 7;"); (str "<=", TkLte, []); (str "12.5", TkNumberLit, str "12.5")]).
  repeat apply Forall_cons_2; [..|apply Forall_nil_2].
  - by apply spell_keyword; [|repeat constructor|..].
  - refine (spell_name (str "a;--b") _). apply (bool_decide_unpack _). reflexivity.
  - apply spell_mark. apply list_elem_of_In. vm_compute. tauto.
  - exact (spell_string (str "it's /* 7;")).
  - apply spell_mark. apply list_elem_of_In. vm_compute. tauto.
  - by apply spell_number; [repeat constructor|].
Defined.

Example tokenize_demo :
  (λ t, (kind t, text t, tok_begin t, tok_end t)) <$> tokenize (λ s, s) (str "SELECT a.b, -5 -3 FROM `t;`/*!40101 WHERE*/-- x;") =
  [(TkSelect, [], 0, 6); (TkIdent, str "a", 7, 8); (TkDot, [], 8, 9); (TkIdent, str "b", 9, 10); (TkComma, [], 10, 11);
   (TkNumberLit, str "-5", 12, 14); (TkMinus, [], 15, 16); (TkNumberLit, str "3", 16, 17); (TkFrom, [], 18, 22);
   (TkIdent, str "t;", 23, 27); (TkWhere, [], 29, 34)]%nat.
Proof. by vm_compute. Qed.
