(* ===== verification/Joins.v ===== *)
(** * Joins (src/engine/join.cpp, include/engine/join.hpp, normalize_numeric_key of
    include/engine/storage/numeric_key.hpp)

    The four ways a join is done: the nested loop, the hash join that tests the ON of every candidate
    pair, the hash join on one equality, whose probe is divided among threads, and the sort-merge join;
    and that the other three give what the nested loop gives. A row is a map of texts; the order in which
    std::unordered_map gives its entries is [iter]. printf's "%.17g" is a parameter. The clock and the KILL
    flag, at which a statement ends with an error, are left out. *)
From Stdlib Require Import SpecFloat.
From S2P Require Import Prelude Numerals Collation BTree NumericText RowJson.

Inductive JoinType : Set := Inner | Left | Right | Cross | Natural | FullOuter.

Definition JOIN_NULL_VALUE : list Z := str "NULL".

Definition ends_with (s suffix : list Z) : bool :=
  (length suffix <=? length s)%nat && bool_decide (drop (length s - length suffix) s = suffix).

(** [x] goes before the first element that is not less than it. *)
Fixpoint stable_insert {A} (less : A → A → bool) (x : A) (l : list A) : list A :=
  match l with
  | [] => [x]
  | y :: l => if less y x then y :: stable_insert less x l else x :: y :: l
  end.

(** std::stable_sort *)
Definition stable_sort {A} (less : A → A → bool) (l : list A) : list A := foldr (stable_insert less) [] l.

(** The longest prefix that satisfies [P], and the rest. *)
Fixpoint run {A} (P : A → bool) (l : list A) : list A * list A :=
  match l with
  | x :: l' => if P x then let '(a, b) := run P l' in (x :: a, b) else ([], l)
  | [] => ([], [])
  end.

Section joins.
Context (kRuns : list Run) (kPool : list Z).
Context (printf_17g : spec_float → list Z).
Context (iter : Row → list (list Z * list Z)).

(** ** Keys *)

Definition sort_cmp (a b : list Z) : Z :=
  match parse_number a, parse_number b with
  | Some _, Some _ => compare_numbers a b
  | _, _ => compare kRuns kPool a b
  end.

(** [std::fabs(v) < 9.2e18] of a whole double. *)
Definition normalize_numeric_key (s : list Z) : list Z :=
  match parse_int64_text s with
  | Some whole => to_string whole
  | None =>
      match parse_number s with
      | None => key kRuns kPool s
      | Some S754_nan => s
      | Some (S754_infinity neg) => if neg then str "-inf" else str "inf"
      | Some v =>
          match whole_value v with
          | Some z => if Z.abs z <? 9200000000000000000 then to_string z else printf_17g v
          | None => printf_17g v
          end
      end
  end.

(** ** Rows *)

Definition merge_right (table : list Z) (merged right : Row) : Row :=
  foldl (λ m e, emplace (<[table ++ c_dot :: e.1 := e.2]> m) e.1 e.2) merged (iter right).

Definition null_right (cols : list (list Z)) (table : list Z) (merged : Row) : Row :=
  foldl (λ m col, emplace (<[table ++ c_dot :: col := JOIN_NULL_VALUE]> m) col JOIN_NULL_VALUE) merged cols.

Definition non_qualified_keys (r : option Row) : list (list Z) :=
  match r with
  | None => []
  | Some r =>
      filter (λ k, match k with c :: _ => negb (c =? 95) | [] => false end && negb (bool_decide (c_dot ∈ k)) = true) ((iter r).*1)
  end.

(** The columns a right row without a partner has NULL in. *)
Definition left_columns (left : list Row) (left_pad : option (list (list Z))) : list (list Z) :=
  match left_pad with Some cols => cols | None => non_qualified_keys (head left) end.

Definition pad_left (cols : list (list Z)) (table : list Z) (right : Row) : Row :=
  merge_right table (foldl (λ m c, <[c := JOIN_NULL_VALUE]> m) ∅ cols) right.

(** ** nested_loop_join *)

(** The rows of [l] with every row of [right], those that [on_match] accepts. *)
Definition pairs_of (table : list Z) (on_match : Row → bool) (l : Row) (right : list Row) : list Row :=
  filter (λ m, on_match m = true) (merge_right table l <$> right).

Definition using_match (using_cols : list (list Z)) (l r : Row) : bool :=
  forallb (λ col,
    let lv := default JOIN_NULL_VALUE (l !! col) in
    let rv := default JOIN_NULL_VALUE (r !! col) in
    bool_decide (lv = rv) && negb (bool_decide (lv = JOIN_NULL_VALUE))) using_cols.

Definition natural_match (common_cols : list (list Z)) (l r : Row) : bool :=
  forallb (λ col, bool_decide (default [] (l !! col) = default [] (r !! col))) common_cols.

(** FULL OUTER JOIN's loop over the right rows for [l]: the rows, and the positions it matched. *)
Definition full_pairs (table : list Z) (on_match : Row → bool) (l : Row) (right : list Row) (matched : gset nat) : list Row * gset nat :=
  foldl (λ s e,
      let merged := merge_right table l e.2 in
      if on_match merged then (s.1 ++ [merged], {[e.1]} ∪ s.2) else s)
    ([], matched) (imap pair right).

Definition nested_loop_join (left right : list Row) (join_type : JoinType) (table : list Z) (using_cols right_schema_cols : list (list Z))
    (on_match : Row → bool) (left_pad : option (list (list Z))) (keep : option (Row → bool)) : list Row :=
  let kept m := match keep with Some k => k m | None => true end in
  match using_cols with
  | _ :: _ =>
      concat ((λ l, filter (λ m, match join_type with Inner => kept m | _ => true end = true)
                      (merge_right table l <$> filter (λ r, using_match using_cols l r = true) right)) <$> left)
  | [] =>
      match join_type with
      | Inner => concat ((λ l, filter (λ m, kept m = true) (pairs_of table on_match l right)) <$> left)
      | Left =>
          concat ((λ l, match pairs_of table on_match l right with
                        | [] => [null_right right_schema_cols table l]
                        | ms => ms
                        end) <$> left)
      | Right =>
          let left_cols := left_columns left left_pad in
          concat ((λ r, match filter (λ m, on_match m = true) ((λ l, merge_right table l r) <$> left) with
                        | [] => [pad_left left_cols table r]
                        | ms => ms
                        end) <$> right)
      | Cross => concat ((λ l, filter (λ m, kept m = true) (merge_right table l <$> right)) <$> left)
      | Natural =>
          let common_cols := filter (λ rc, match left with l :: _ => bool_decide (is_Some (l !! rc)) | [] => false end = true) right_schema_cols in
          concat ((λ l, merge_right table l <$> filter (λ r, natural_match common_cols l r = true) right) <$> left)
      | FullOuter =>
          let left_cols := left_columns left left_pad in
          let '(out, matched_right) :=
            foldl (λ s l,
                let '(ms, matched) := full_pairs table on_match l right s.2 in
                (s.1 ++ match ms with [] => [null_right right_schema_cols table l] | _ => ms end, matched))
              ([], ∅) left in
          out ++ concat (imap (λ ri r, if decide (ri ∈ matched_right) then [] else [pad_left left_cols table r]) right)
      end
  end.

(** ** hashed_join_verified *)

Definition bucket_add {A} (m : gmap (list Z) (list A)) (k : list Z) (x : A) : gmap (list Z) (list A) :=
  <[k := default [] (m !! k) ++ [x]]> m.

(** The positions of the rows by their normalised key; a row whose key is NULL is in no bucket. *)
Definition hash_positions (norm : list Z → list Z) (keys : list (list Z)) : gmap (list Z) (list nat) :=
  foldl (λ m e, if bool_decide (e.2 = JOIN_NULL_VALUE) then m else bucket_add m (norm e.2) e.1) ∅ (imap pair keys).

(** The positions a key finds. *)
Definition bucket_of {A} (norm : list Z → list Z) (by_key : gmap (list Z) (list A)) (k : list Z) : list A :=
  if bool_decide (k = JOIN_NULL_VALUE) then [] else default [] (by_key !! norm k).

(** The candidates of a row, each merged ([mk]) and tested: the rows, and the positions that passed. *)
Definition try_candidates (mk : nat → option Row) (on_match : Row → bool) (candidates : list nat) : list (nat * Row) :=
  omap (λ i, merged ← mk i; if on_match merged then Some (i, merged) else None) candidates.

Definition mark_all (marks : list bool) (at_ : list nat) : list bool := foldl (λ ms i, <[i := true]> ms) marks at_.

Definition hashed_join_verified (left right : list Row) (table : list Z) (join_type : JoinType)
    (left_key right_key : Row → option (list Z)) (right_schema_cols : list (list Z)) (on_match : Row → bool)
    (left_pad : option (list (list Z))) (exact_keys : bool) : option (list Row) :=
  if match join_type with Inner | Left | Right | FullOuter => false | _ => true end then None
  else
    let norm k := if exact_keys then key kRuns kPool k else normalize_numeric_key k in
    right_keys ← mapM right_key right;
    left_keys ← mapM left_key left;
    let left_cols := left_columns left left_pad in
    match join_type with
    | Right =>
        let by_key := hash_positions norm left_keys in
        Some (concat (zip_with (λ r k,
          match try_candidates (λ li, l ← left !! li; Some (merge_right table l r)) on_match (bucket_of norm by_key k) with
          | [] => [pad_left left_cols table r]
          | ms => ms.*2
          end) right right_keys))
    | _ =>
        let by_key := hash_positions norm right_keys in
        let pad_left_rows := match join_type with Left | FullOuter => true | _ => false end in
        let marks := match join_type with FullOuter => replicate (length right) false | _ => [] end in
        let '(out, right_matched) :=
          foldl (λ s e,
              let ms := try_candidates (λ ri, r ← right !! ri; Some (merge_right table e.1 r)) on_match (bucket_of norm by_key e.2) in
              (s.1 ++ match ms with [] => if pad_left_rows : bool then [null_right right_schema_cols table e.1] else [] | _ => ms.*2 end,
               match join_type with FullOuter => mark_all s.2 (ms.*1) | _ => s.2 end))
            ([], marks) (zip left left_keys) in
        Some (match join_type with
              | FullOuter => out ++ concat (imap (λ ri r, if default false (right_matched !! ri) then [] else [pad_left left_cols table r]) right)
              | _ => out
              end)
    end.

(** ** hash_join *)

(** The value of the key in a row of the left side: under its name, or under the first name that ends in it. *)
Definition probe_key (probe_col : list Z) (l : Row) : list Z :=
  match l !! probe_col with
  | Some v => v
  | None => match find (λ e, ends_with e.1 (c_dot :: probe_col)) (iter l) with Some e => e.2 | None => [] end
  end.

Definition build_key (table build_col : list Z) (r : Row) : list Z :=
  match r !! build_col with
  | Some v => v
  | None => default [] (r !! (table ++ c_dot :: build_col))
  end.

Definition hash_rows (row_key : Row → list Z) (rows : list Row) : gmap (list Z) (list Row) :=
  foldl (λ m r, if bool_decide (row_key r = JOIN_NULL_VALUE) then m else bucket_add m (normalize_numeric_key (row_key r)) r) ∅ rows.

(** Where the chunks of the probe begin, for [cpus] threads. *)
Definition chunk_starts (n n_chunks : nat) : list nat :=
  foldl (λ starts c, starts ++ [(default 0 (last starts) + n / n_chunks + (if decide (c < n mod n_chunks) then 1 else 0))%nat]) [0%nat] (seq 0 n_chunks).

Definition probe_parallel (cpus : nat) (left : list Row) (per_row : Row → list Row) : list Row :=
  let n := length left in
  let cpus := if decide (cpus = 0%nat) then 4%nat else cpus in
  let n_chunks := Nat.min cpus n in
  if decide (n_chunks < 2)%nat then concat (per_row <$> left)
  else
    let starts := chunk_starts n n_chunks in
    let chunk c := take (starts !!! S c - starts !!! c) (drop (starts !!! c) left) in
    concat ((λ c, concat (per_row <$> chunk c)) <$> seq 0 n_chunks).

Definition hash_join (cpus : nat) (left right : list Row) (join_type : JoinType) (table probe_col build_col : list Z)
    (right_schema_cols : list (list Z)) (left_pad : option (list (list Z))) : list Row :=
  match join_type with
  | Inner =>
      let hash := hash_rows (build_key table build_col) right in
      probe_parallel cpus left (λ l, merge_right table l <$> bucket_of normalize_numeric_key hash (probe_key probe_col l))
  | Left =>
      let hash := hash_rows (build_key table build_col) right in
      probe_parallel cpus left (λ l,
        match bucket_of normalize_numeric_key hash (probe_key probe_col l) with
        | [] => [null_right right_schema_cols table l]
        | rs => merge_right table l <$> rs
        end)
  | Right =>
      let left_hash := hash_rows (λ l, default [] (l !! probe_col)) left in
      let left_cols := left_columns left left_pad in
      concat ((λ r,
        match bucket_of normalize_numeric_key left_hash (default [] (r !! build_col)) with
        | [] => [pad_left left_cols table r]
        | ls => (λ l, merge_right table l r) <$> ls
        end) <$> right)
  | _ => []
  end.

(** ** sort_merge_join *)

(** INNER JOIN's loop over the sorted rows, the parts of them that are left. *)
Fixpoint merge_inner (fuel : nat) (table : list Z) (lkey rkey : Row → list Z) (ls rs : list Row) : list Row :=
  match fuel, ls, rs with
  | S fuel, l :: ls', r :: rs' =>
      let lk := lkey l in
      let rk := rkey r in
      if bool_decide (lk = JOIN_NULL_VALUE) then merge_inner fuel table lkey rkey ls' rs
      else if bool_decide (rk = JOIN_NULL_VALUE) then merge_inner fuel table lkey rkey ls rs'
      else
        let cmp := sort_cmp lk rk in
        if cmp <? 0 then merge_inner fuel table lkey rkey ls' rs
        else if 0 <? cmp then merge_inner fuel table lkey rkey ls rs'
        else
          let '(la, lb) := run (λ x, sort_cmp (lkey x) lk =? 0) ls in
          let '(ra, rb) := run (λ x, sort_cmp (rkey x) lk =? 0) rs in
          concat ((λ a, merge_right table a <$> ra) <$> la) ++ merge_inner fuel table lkey rkey lb rb
  | _, _, _ => []
  end.

(** LEFT and RIGHT JOIN's loop: for every row [x] of the preserved side the rows of the other side, from where the last
    row's began, that are equal to it. *)
Fixpoint merge_outer (xkey ykey : Row → list Z) (mk : Row → Row → Row) (pad : Row → Row) (xs ys : list Row) : list Row :=
  match xs with
  | [] => []
  | x :: xs =>
      let k := xkey x in
      let '(_, ys) := run (λ y, sort_cmp (ykey y) k <? 0) ys in
      let '(ms, _) := run (λ y, negb (bool_decide (k = JOIN_NULL_VALUE)) && (sort_cmp (ykey y) k =? 0)) ys in
      match ms with [] => [pad x] | _ => mk x <$> ms end ++ merge_outer xkey ykey mk pad xs ys
  end.

Definition sort_merge_join (left right : list Row) (join_type : JoinType) (table probe_col build_col : list Z)
    (right_schema_cols : list (list Z)) (left_pad : option (list (list Z))) : list Row :=
  let lkey := probe_key probe_col in
  let rkey := build_key table build_col in
  let ls := stable_sort (λ a b, sort_cmp (lkey a) (lkey b) <? 0) left in
  let rs := stable_sort (λ a b, sort_cmp (rkey a) (rkey b) <? 0) right in
  match join_type with
  | Inner => merge_inner (length ls + length rs) table lkey rkey ls rs
  | Left => merge_outer lkey rkey (merge_right table) (null_right right_schema_cols table) ls rs
  | Right =>
      let left_cols := left_columns ls left_pad in
      merge_outer rkey lkey (λ r l, merge_right table l r) (pad_left left_cols table) rs ls
  | _ => []
  end.

(** ** What a join is

    The pairs that [m] accepts, in the order of the left rows and, for one of them, of the right rows; the rows of
    a preserved side that have no partner, with NULL in the columns of the other side. *)
Definition join_spec (join_type : JoinType) (table : list Z) (right_cols left_cols : list (list Z)) (m : Row → Row → bool)
    (left right : list Row) : list Row :=
  let padded l := match filter (λ r, m l r = true) right with
                  | [] => [null_right right_cols table l]
                  | rs => merge_right table l <$> rs
                  end in
  match join_type with
  | Inner => concat ((λ l, merge_right table l <$> filter (λ r, m l r = true) right) <$> left)
  | Left => concat (padded <$> left)
  | Right =>
      concat ((λ r, match filter (λ l, m l r = true) left with
                    | [] => [pad_left left_cols table r]
                    | ls => (λ l, merge_right table l r) <$> ls
                    end) <$> right)
  | FullOuter => concat (padded <$> left) ++ (pad_left left_cols table <$> filter (λ r, forallb (λ l, negb (m l r)) left = true) right)
  | Cross | Natural => []
  end.

(** A join type that joins on a condition. *)
Definition on_condition (join_type : JoinType) : bool := match join_type with Cross | Natural => false | _ => true end.

Implicit Types (left right rows : list Row) (table k : list Z) (join_type : JoinType) (left_pad : option (list (list Z))).
Implicit Types (keys left_keys right_keys right_cols left_cols : list (list Z)) (norm : list Z → list Z) (on_match : Row → bool) (cpus n : nat).

(** ** The loops over positions *)

(** The rows that [on_match] accepts merged with [g], and where they stand. *)
Definition hits (g : Row → Row) (on_match : Row → bool) (rows : list Row) : list (nat * Row) :=
  omap (λ e, if on_match (g e.2) then Some (e.1, g e.2) else None) (imap pair rows).

Lemma imap_pair_snoc {A} (l : list A) x : imap pair (l ++ [x]) = imap pair l ++ [(length l, x)].
Proof. rewrite imap_app. simpl. by rewrite Nat.add_0_r. Qed.

Lemma hits_snoc g on_match rows r :
  hits g on_match (rows ++ [r]) = hits g on_match rows ++ if on_match (g r) then [(length rows, g r)] else [].
Proof. unfold hits. rewrite imap_pair_snoc, omap_app. simpl. by destruct (on_match (g r)). Qed.

Lemma filter_fmap_rows (g : Row → Row) (on_match : Row → bool) (rows : list Row) :
  filter (λ m, on_match m = true) (g <$> rows) = g <$> filter (λ r, on_match (g r) = true) rows.
Proof.
  induction rows as [|r rows IH]; [done|]. simpl. destruct (on_match (g r)) eqn:E.
  - rewrite !filter_cons_True by done. simpl. by f_equal.
  - rewrite !filter_cons_False by congruence. done.
Qed.

Lemma hits_rows g on_match rows : (hits g on_match rows).*2 = g <$> filter (λ r, on_match (g r) = true) rows.
Proof.
  induction rows as [|r rows IH] using rev_ind; [done|]. rewrite hits_snoc, fmap_app, IH, filter_app, fmap_app. f_equal.
  destruct (on_match (g r)) eqn:E; [rewrite filter_cons_True by done|rewrite filter_cons_False by congruence]; done.
Qed.

Lemma elem_of_hits g on_match rows i : i ∈ (hits g on_match rows).*1 ↔ ∃ r, rows !! i = Some r ∧ on_match (g r) = true.
Proof.
  induction rows as [|r rows IH] using rev_ind.
  { simpl. split; [by intros ?%elem_of_nil|by intros (r & ? & _)]. }
  rewrite hits_snoc, fmap_app, elem_of_app, IH. split.
  - intros [(r' & Hr & Hm)|Hi]; [exists r'; split; [by apply lookup_app_l_Some|done]|].
    destruct (on_match (g r)) eqn:E; [|by apply elem_of_nil in Hi]. apply list_elem_of_singleton in Hi as ->. exists r.
    split; [|done]. by rewrite lookup_app_r, Nat.sub_diag by done.
  - intros (r' & [Hr|[Hl Hr]]%lookup_app_Some & Hm); [left; by exists r'|]. right.
    destruct (i - length rows)%nat eqn:Ei; [|done]. injection Hr as ->. rewrite Hm. apply list_elem_of_singleton. simpl. lia.
Qed.

Lemma full_pairs_spec table on_match l right matched :
  (full_pairs table on_match l right matched).1 = (hits (merge_right table l) on_match right).*2 ∧
  ∀ i, i ∈ (full_pairs table on_match l right matched).2 ↔ i ∈ matched ∨ i ∈ (hits (merge_right table l) on_match right).*1.
Proof.
  unfold full_pairs. induction right as [|r right [IH1 IH2]] using rev_ind.
  { split; [done|]. intros i. simpl. rewrite elem_of_nil. tauto. }
  rewrite imap_pair_snoc, foldl_app, hits_snoc, !fmap_app. simpl. destruct (on_match (merge_right table l r)); simpl.
  - rewrite IH1. split; [done|]. intros i. rewrite elem_of_union, elem_of_app, IH2, elem_of_singleton, list_elem_of_singleton. tauto.
  - rewrite app_nil_r. split; [done|]. intros i. rewrite elem_of_app, IH2, elem_of_nil. tauto.
Qed.

(** The rows whose positions are not marked. *)
Lemma concat_unmarked (f : Row → Row) (c : nat → bool) (P : Row → bool) (rows : list Row) :
  (∀ i r, rows !! i = Some r → c i = negb (P r)) →
  concat (imap (λ i r, if c i then [] else [f r]) rows) = f <$> filter (λ r, P r = true) rows.
Proof.
  revert c. induction rows as [|r rows IH]; intros c Hc; [done|]. simpl. rewrite (Hc 0%nat r) by done.
  assert (E : concat (imap ((λ i r0, if c i then [] else [f r0]) ∘ S) rows) = f <$> filter (λ r0, P r0 = true) rows).
  { apply (IH (c ∘ S)). intros i r' Hr. by apply (Hc (S i)). }
  rewrite E. destruct (P r) eqn:EP; [rewrite filter_cons_True by done|rewrite filter_cons_False by congruence]; done.
Qed.

Lemma padded_fmap {A} (f : Row → A) (pad : A) (rs : list Row) :
  match f <$> rs with [] => [pad] | ms => ms end = match rs with [] => [pad] | r :: rs' => f <$> (r :: rs') end.
Proof. by destruct rs. Qed.

Lemma kept_all (l : list Row) : filter (λ m : Row, (λ _ : Row, true) m = true) l = l.
Proof. apply filter_all, Forall_true. done. Qed.

(** A loop over the left rows that also marks positions of the right ones. *)
Lemma marking_loop {A M : Type} (part : A → list Row) (step : list Row * M → A → list Row * M) (at_ : A → list nat) (is_in : nat → M → Prop)
    (bound : nat → Prop) (left : list A) (out : list Row) (m : M) :
  (∀ s l, l ∈ left → (step s l).1 = s.1 ++ part l) →
  (∀ s l i, l ∈ left → bound i → is_in i (step s l).2 ↔ is_in i s.2 ∨ i ∈ at_ l) →
  (foldl step (out, m) left).1 = out ++ concat (part <$> left) ∧
  ∀ i, bound i → is_in i (foldl step (out, m) left).2 ↔ is_in i m ∨ ∃ l, l ∈ left ∧ i ∈ at_ l.
Proof.
  induction left as [|l left IH] using rev_ind; intros H1 H2.
  { simpl. rewrite app_nil_r. split; [done|]. intros i _. split; [by left|]. intros [?|(l & ?%elem_of_nil & _)]; done. }
  assert (Hl : l ∈ left ++ [l]) by (apply elem_of_app; right; by apply list_elem_of_singleton).
  destruct IH as [IH1 IH2]; [intros; apply H1, elem_of_app; by left|intros; apply H2; [apply elem_of_app; by left|done]|].
  rewrite foldl_app. simpl. rewrite H1, IH1 by done. rewrite fmap_app, concat_app. simpl. rewrite app_nil_r, app_assoc. split; [done|].
  intros i Hi. rewrite H2, IH2 by done. setoid_rewrite elem_of_app. setoid_rewrite list_elem_of_singleton. split.
  - intros [[H|(l' & Hl' & H)]|H]; [by left|right; exists l'; auto|right; exists l; auto].
  - intros [H|(l' & [Hl'| ->] & H)]; [by left; left|left; right; by exists l'|by right].
Qed.

(** The right rows that no left row matched. *)
Lemma unmatched_spec (m : Row → Row → bool) (left right : list Row) (c : nat → bool) (f : Row → Row) :
  (∀ i r, right !! i = Some r → c i = true ↔ ∃ l, l ∈ left ∧ m l r = true) →
  concat (imap (λ i r, if c i then [] else [f r]) right) = f <$> filter (λ r, forallb (λ l, negb (m l r)) left = true) right.
Proof.
  intros Hc. apply concat_unmarked. intros i r Hr. specialize (Hc i r Hr). destruct (forallb _ left) eqn:E; simpl.
  - apply not_true_is_false. intros (l & Hl & Hm)%Hc. rewrite forallb_forall in E. specialize (E l (proj1 (list_elem_of_In _ _) Hl)). by rewrite Hm in E.
  - apply Hc. apply not_true_iff_false in E. destruct (decide (Exists (λ l, m l r = true) left)) as [H|H].
    + by apply Exists_exists in H.
    + exfalso. apply E, forallb_forall. intros l Hl%list_elem_of_In. apply negb_true_iff, not_true_is_false. intros Hm. apply H, Exists_exists. by exists l.
Qed.

Lemma if_decide {A} (P : Prop) `{Decision P} (x y : A) : (if decide P then x else y) = if bool_decide P then x else y.
Proof. case_bool_decide; destruct (decide P); done. Qed.

(** The nested loop gives the pairs that the ON accepts. *)
Lemma nested_loop_spec left right join_type table right_cols on_match left_pad :
  on_condition join_type = true →
  nested_loop_join left right join_type table [] right_cols on_match left_pad None =
  join_spec join_type table right_cols (left_columns left left_pad) (λ l r, on_match (merge_right table l r)) left right.
Proof.
  intros Ht. unfold nested_loop_join, join_spec, pairs_of. destruct join_type; try done.
  - f_equal. apply list_fmap_ext. intros _ l _. rewrite kept_all. apply filter_fmap_rows.
  - f_equal. apply list_fmap_ext. intros _ l _. rewrite filter_fmap_rows. apply padded_fmap.
  - f_equal. apply list_fmap_ext. intros _ r _. rewrite (filter_fmap_rows (λ l, merge_right table l r)). apply padded_fmap.
  - pose proof (marking_loop
      (λ l, match filter (λ r, on_match (merge_right table l r) = true) right with
            | [] => [null_right right_cols table l] | rs => merge_right table l <$> rs end)
      (λ s l, let '(ms, matched) := full_pairs table on_match l right s.2 in
         (s.1 ++ match ms with [] => [null_right right_cols table l] | _ => ms end, matched))
      (λ l, (hits (merge_right table l) on_match right).*1) (λ i (m : gset nat), i ∈ m) (λ _, True) left [] ∅) as H.
    destruct H as [H1 H2].
    { intros s l _. destruct (full_pairs_spec table on_match l right s.2) as [H _]. destruct (full_pairs _ _ _ _ _) as [ms matched].
      simpl in H |- *. rewrite H, hits_rows. by destruct (filter _ right). }
    { intros s l i _ _. destruct (full_pairs_spec table on_match l right s.2) as [_ H]. by destruct (full_pairs _ _ _ _ _) as [ms matched]. }
    destruct (foldl _ _ left) as [out matched]. simpl in H1, H2. rewrite H1. f_equal.
    rewrite <- (unmatched_spec _ left right (λ i, bool_decide (i ∈ matched)) (pad_left (left_columns left left_pad) table)).
    { f_equal. apply imap_ext. intros i r _. apply if_decide. }
    intros i r Hr. rewrite bool_decide_eq_true, H2 by done. setoid_rewrite elem_of_hits. rewrite elem_of_empty. split.
    + intros [[]|(l & Hl & r' & Hr' & Hm)]. simplify_eq. by exists l.
    + intros (l & Hl & Hm). right. exists l. split; [done|]. by exists r.
Qed.

(** ** Buckets *)

Definition key_match (norm : list Z → list Z) (x y : list Z) : bool :=
  negb (bool_decide (x = JOIN_NULL_VALUE)) && negb (bool_decide (y = JOIN_NULL_VALUE)) && bool_decide (norm x = norm y).

Lemma bucket_add_lookup {A : Type} (m : gmap (list Z) (list A)) k x k' :
  default [] (bucket_add m k x !! k') = default [] (m !! k') ++ if bool_decide (k = k') then [x] else [].
Proof.
  unfold bucket_add. case_bool_decide as E; [subst; by rewrite lookup_insert_eq|]. by rewrite lookup_insert_ne, app_nil_r by done.
Qed.

Lemma hash_positions_spec norm keys k :
  default [] (hash_positions norm keys !! k) =
  fst <$> filter (λ e, negb (bool_decide (e.2 = JOIN_NULL_VALUE)) && bool_decide (norm e.2 = k) = true) (imap pair keys).
Proof.
  unfold hash_positions. induction keys as [|x keys IH] using rev_ind; [done|].
  rewrite imap_pair_snoc, foldl_app, filter_app, fmap_app, <- IH. simpl. case_bool_decide as Hx; simpl.
  - rewrite filter_cons_False by (simpl; by rewrite bool_decide_eq_true_2). by rewrite app_nil_r.
  - rewrite bucket_add_lookup. f_equal. case_bool_decide as Hk.
    + rewrite filter_cons_True by (simpl; by rewrite bool_decide_eq_false_2, bool_decide_eq_true_2). done.
    + rewrite filter_cons_False by (simpl; by rewrite (bool_decide_eq_false_2 (norm x = k)), andb_false_r by done). done.
Qed.

Lemma hash_rows_spec row_key rows k :
  default [] (hash_rows row_key rows !! k) =
  filter (λ r, negb (bool_decide (row_key r = JOIN_NULL_VALUE)) && bool_decide (normalize_numeric_key (row_key r) = k) = true) rows.
Proof.
  unfold hash_rows. induction rows as [|r rows IH] using rev_ind; [done|].
  rewrite foldl_app, filter_app, <- IH. simpl. case_bool_decide as Hx; simpl.
  - rewrite filter_cons_False by (by rewrite bool_decide_eq_true_2). by rewrite app_nil_r.
  - rewrite bucket_add_lookup. f_equal. case_bool_decide as Hk.
    + rewrite filter_cons_True by (simpl; by rewrite bool_decide_eq_false_2, bool_decide_eq_true_2). done.
    + rewrite filter_cons_False by (simpl; by rewrite (bool_decide_eq_false_2 (normalize_numeric_key (row_key r) = k)), andb_false_r by done). done.
Qed.

Lemma bucket_of_rows row_key rows k :
  bucket_of normalize_numeric_key (hash_rows row_key rows) k = filter (λ r, key_match normalize_numeric_key k (row_key r) = true) rows.
Proof.
  unfold bucket_of, key_match. case_bool_decide as E; simpl.
  - rewrite filter_none; [done|]. apply Forall_true. intros r. done.
  - rewrite hash_rows_spec. apply list_filter_iff. intros r. by rewrite (bool_decide_ext (normalize_numeric_key k = _) (normalize_numeric_key (row_key r) = normalize_numeric_key k)).
Qed.

Lemma omap_Forall2 {A B C : Type} (F : A → option C) (G : B → option C) la lb :
  Forall2 (λ a b, F a = G b) la lb → omap F la = omap G lb.
Proof. induction 1 as [|a b la lb Hab _ IH]; [done|]. simpl. rewrite Hab. destruct (G b); [by f_equal|exact IH]. Qed.

Lemma omap_filtered {A B C : Type} (Q : A → bool) (h : A → B) (F : B → option C) (l : list A) :
  omap F (h <$> filter (λ x, Q x = true) l) = omap (λ x, if Q x then F (h x) else None) l.
Proof.
  induction l as [|x l IH]; [done|]. destruct (Q x) eqn:E.
  - rewrite filter_cons_True by done. simpl. rewrite E. destruct (F (h x)); [by f_equal|exact IH].
  - rewrite filter_cons_False by congruence. simpl. rewrite E. exact IH.
Qed.

(** The candidates a row's key finds, tested, are the rows the condition accepts, if it accepts equal keys only. *)
Lemma try_candidates_spec (norm : list Z → list Z) (k : list Z) (row_key : Row → option (list Z)) (rows : list Row) (keys : list (list Z))
    (g : Row → Row) (on_match : Row → bool) :
  mapM row_key rows = Some keys →
  (∀ r y, r ∈ rows → row_key r = Some y → on_match (g r) = true → key_match norm k y = true) →
  try_candidates (λ i, r ← rows !! i; Some (g r)) on_match (bucket_of norm (hash_positions norm keys) k) = hits g on_match rows.
Proof.
  intros Hk Hm. apply mapM_Some in Hk. unfold bucket_of. case_bool_decide as E.
  { unfold hits. rewrite (omap_Forall2 _ (λ _ : nat, None) _ (const 0%nat <$> imap pair rows)).
    - by induction (imap pair rows).
    - apply Forall2_fmap_r, Forall2_same_length_lookup. split; [done|]. intros i e e' He He'. simplify_eq.
      rewrite list_lookup_imap in He. destruct (rows !! i) as [r|] eqn:Er; [|done]. injection He as <-. simpl.
      destruct (on_match (g r)) eqn:Eo; [|done]. destruct (Forall2_lookup_l _ _ _ _ _ Hk Er) as (y & Hy & Hry).
      specialize (Hm r y (list_elem_of_lookup_2 _ _ _ Er) Hry Eo). unfold key_match in Hm. by rewrite bool_decide_eq_true_2 in Hm. }
  rewrite hash_positions_spec. unfold try_candidates. rewrite omap_filtered. apply omap_Forall2, Forall2_same_length_lookup.
  rewrite !length_imap. split; [by rewrite (Forall2_length _ _ _ Hk)|].
  intros i e e' He He'. rewrite list_lookup_imap in He. rewrite list_lookup_imap in He'. destruct (rows !! i) as [r|] eqn:Er; [|done].
  destruct (Forall2_lookup_l _ _ _ _ _ Hk Er) as (y & Hy & Hry). rewrite Hy in He. injection He as <-. injection He' as <-. simpl.
  rewrite Er. simpl. destruct (on_match (g r)) eqn:Eo; [|by destruct (_ && _)].
  specialize (Hm r y (list_elem_of_lookup_2 _ _ _ Er) Hry Eo). unfold key_match in Hm. bool_cases.
  apply bool_decide_eq_true in H0. by rewrite H1, H0, bool_decide_eq_true_2.
Qed.

Lemma key_match_sym norm x y : key_match norm x y = key_match norm y x.
Proof.
  unfold key_match. rewrite (bool_decide_ext (norm x = norm y) (norm y = norm x)) by done.
  by rewrite (andb_comm (negb (bool_decide (x = _)))).
Qed.

Lemma padded_hits (g : Row → Row) (on_match : Row → bool) (rows pad : list Row) :
  match hits g on_match rows with [] => pad | e :: ms => (e :: ms).*2 end =
  match filter (λ r, on_match (g r) = true) rows with [] => pad | r :: rs => g <$> (r :: rs) end.
Proof. pose proof (hits_rows g on_match rows) as H. destruct (hits g on_match rows), (filter _ rows); done. Qed.

Lemma zip_with_keys {A : Type} (F : Row → list Z → A) (G : Row → A) (row_key : Row → option (list Z)) (rows : list Row) (keys : list (list Z)) :
  mapM row_key rows = Some keys → (∀ r y, r ∈ rows → row_key r = Some y → F r y = G r) → zip_with F rows keys = G <$> rows.
Proof.
  intros Hk%mapM_Some. induction Hk as [|r y rows keys Hry Hk IH]; intros H; [done|]. simpl. rewrite (H r y); [|by left|done].
  f_equal. apply IH. intros r' y' Hr. apply H. by right.
Qed.

Lemma elem_of_zip_keys (row_key : Row → option (list Z)) (rows : list Row) (keys : list (list Z)) e :
  mapM row_key rows = Some keys → e ∈ zip rows keys → e.1 ∈ rows ∧ row_key e.1 = Some e.2.
Proof.
  intros Hk%mapM_Some. induction Hk as [|r y rows keys Hry Hk IH]; [by intros ?%elem_of_nil|]. simpl.
  intros [->|He]%elem_of_cons; [split; [by left|done]|]. apply IH in He as [? ?]. split; [by right|done].
Qed.

Lemma length_mark_all (at_ : list nat) (marks : list bool) : length (mark_all marks at_) = length marks.
Proof. unfold mark_all. revert marks. induction at_ as [|i at_ IH]; intros marks; [done|]. simpl. by rewrite IH, length_insert. Qed.

Lemma mark_all_lookup (at_ : list nat) (marks : list bool) i :
  (i < length marks)%nat → mark_all marks at_ !! i = Some true ↔ marks !! i = Some true ∨ i ∈ at_.
Proof.
  unfold mark_all. revert marks. induction at_ as [|j at_ IH]; intros marks Hi; simpl.
  { rewrite elem_of_nil. tauto. }
  rewrite IH by by rewrite length_insert. rewrite elem_of_cons. destruct (decide (i = j)) as [->|Hne].
  - rewrite list_lookup_insert_eq by done. tauto.
  - rewrite list_lookup_insert_ne by done. tauto.
Qed.

Lemma foldl_marks_length {A : Type} (step : list Row * list bool → A → list Row * list bool) (l : list A) s :
  (∀ s e, length (step s e).2 = length s.2) → length (foldl step s l).2 = length s.2.
Proof. intros Hs. revert s. induction l as [|e l IH]; intros s; [done|]. simpl. by rewrite IH, Hs. Qed.

(** The left side's loop: its rows, and the marks it leaves. *)
Lemma hashed_left_loop (norm : list Z → list Z) (left right : list Row) (table : list Z) (right_cols : list (list Z)) (left_key right_key : Row → option (list Z))
    (on_match : Row → bool) (left_keys right_keys : list (list Z)) (pad full : bool) :
  mapM right_key right = Some right_keys → mapM left_key left = Some left_keys →
  (∀ l r x y, l ∈ left → r ∈ right → left_key l = Some x → right_key r = Some y → on_match (merge_right table l r) = true → key_match norm x y = true) →
  let res :=
    foldl (λ s e,
        let ms := try_candidates (λ ri, r ← right !! ri; Some (merge_right table e.1 r)) on_match (bucket_of norm (hash_positions norm right_keys) e.2) in
        (s.1 ++ match ms with [] => if pad then [null_right right_cols table e.1] else [] | _ => ms.*2 end,
         if full then mark_all s.2 (ms.*1) else s.2))
      ([], if full then replicate (length right) false else []) (zip left left_keys) in
  res.1 = concat ((λ l, match filter (λ r, on_match (merge_right table l r) = true) right with
                        | [] => if pad then [null_right right_cols table l] else []
                        | r :: rs => merge_right table l <$> (r :: rs)
                        end) <$> left) ∧
  (full = true → ∀ i r, right !! i = Some r → default false (res.2 !! i) = true ↔ ∃ l, l ∈ left ∧ on_match (merge_right table l r) = true).
Proof.
  intros Hr Hl Hm res.
  assert (Hms : ∀ e, e ∈ zip left left_keys →
    try_candidates (λ ri, r ← right !! ri; Some (merge_right table e.1 r)) on_match (bucket_of norm (hash_positions norm right_keys) e.2) =
    hits (merge_right table e.1) on_match right).
  { intros [l x] He. apply (elem_of_zip_keys left_key) in He as [Hl1 Hx]; [|done]. simpl in *.
    apply (try_candidates_spec norm x right_key right right_keys); [done|]. intros r y Hr1 Hy. by apply Hm. }
  assert (Hlen : full = true → length res.2 = length right).
  { intros ->. subst res. rewrite foldl_marks_length; [apply length_replicate|]. intros s' e. apply length_mark_all. }
  pose proof (marking_loop
    (λ e : Row * list Z, match filter (λ r, on_match (merge_right table e.1 r) = true) right with
          | [] => if pad then [null_right right_cols table e.1] else []
          | r :: rs => merge_right table e.1 <$> (r :: rs) end)
    (λ s e, let ms := try_candidates (λ ri, r ← right !! ri; Some (merge_right table e.1 r)) on_match (bucket_of norm (hash_positions norm right_keys) e.2) in
        (s.1 ++ match ms with [] => if pad then [null_right right_cols table e.1] else [] | _ => ms.*2 end,
         if full then mark_all s.2 (ms.*1) else s.2))
    (λ e, (hits (merge_right table e.1) on_match right).*1)
    (λ i (ms : list bool), full = true → length ms = length right → ms !! i = Some true) (λ i, full = true ∧ (i < length right)%nat) (zip left left_keys) []
    (if full then replicate (length right) false else [])) as H.
  destruct H as [H1 H2].
  { intros s' e He. simpl. rewrite (Hms e He). f_equal. rewrite <- padded_hits. by destruct (hits _ _ _). }
  { intros s' e i He [-> Hi]. simpl. rewrite (Hms e He). rewrite length_mark_all.
    destruct (decide (length s'.2 = length right)) as [E|E].
    - rewrite mark_all_lookup by lia. tauto.
    - split; [by left|done]. }
  split.
  - etransitivity; [exact H1|]. simpl. f_equal. rewrite <- (zip_with_keys (λ l _, _) _ left_key left left_keys Hl (λ _ _ _ _, eq_refl)).
    clear. revert left_keys. induction left as [|l left IH]; intros [|x left_keys]; try done. simpl. by rewrite IH.
  - intros -> i r Hir. assert (Hi : (i < length right)%nat) by by eapply lookup_lt_Some.
    specialize (H2 i (conj eq_refl Hi)). fold res in H2. specialize (Hlen eq_refl).
    assert (E : default false (res.2 !! i) = true ↔ res.2 !! i = Some true) by (clear; generalize (res.2 !! i); intros [[]|]; simpl; split; congruence).
    rewrite E. split.
    + intros Ht. destruct H2 as [H2 _]. destruct (H2 (λ _ _, Ht)) as [Hf|(e & He & Hat)].
      * specialize (Hf eq_refl ltac:(apply length_replicate)). by rewrite lookup_replicate_2 in Hf.
      * apply (elem_of_zip_keys left_key) in He as [He _]; [|done]. apply elem_of_hits in Hat as (r' & Hr' & Ho). simplify_eq. by exists e.1.
    + intros (l & Hl1 & Ho). destruct H2 as [_ H2]. apply H2; [|done|done]. right.
      apply list_elem_of_lookup in Hl1 as [j Hj]. pose proof Hl as Hl'. apply mapM_Some in Hl'. destruct (Forall2_lookup_l _ _ _ _ _ Hl' Hj) as (x & Hx & _).
      exists (l, x). split; [|apply elem_of_hits; by exists r]. apply list_elem_of_lookup. exists j. rewrite lookup_zip_with, Hj, Hx. done.
Qed.

Lemma hashed_join_spec (left right : list Row) (table : list Z) join_type (left_key right_key : Row → option (list Z)) (right_cols : list (list Z))
    (on_match : Row → bool) left_pad exact_keys left_keys right_keys :
  let norm k := if exact_keys : bool then key kRuns kPool k else normalize_numeric_key k in
  on_condition join_type = true → mapM left_key left = Some left_keys → mapM right_key right = Some right_keys →
  (∀ l r x y, l ∈ left → r ∈ right → left_key l = Some x → right_key r = Some y → on_match (merge_right table l r) = true → key_match norm x y = true) →
  hashed_join_verified left right table join_type left_key right_key right_cols on_match left_pad exact_keys =
  Some (join_spec join_type table right_cols (left_columns left left_pad) (λ l r, on_match (merge_right table l r)) left right).
Proof.
  intros norm Ht Hl Hr Hm. unfold hashed_join_verified. rewrite Hl, Hr. fold norm.
  pose proof (hashed_left_loop norm left right table right_cols left_key right_key on_match left_keys right_keys) as H.
  destruct join_type; try done; cbn [mbind option_bind].
  - destruct (H false false Hr Hl Hm) as [H1 _]. destruct (foldl _ _ _) as [out marks]. simpl in H1. rewrite H1. unfold join_spec. do 2 f_equal.
    apply list_fmap_ext. intros _ l _. by destruct (filter _ right).
  - destruct (H true false Hr Hl Hm) as [H1 _]. destruct (foldl _ _ _) as [out marks]. simpl in H1. by rewrite H1.
  - unfold join_spec. do 2 f_equal. apply (zip_with_keys _ _ right_key right right_keys Hr). intros r y Hr1 Hy.
    rewrite (try_candidates_spec norm y left_key left left_keys (λ l, merge_right table l r)); [|done|].
    + rewrite <- padded_hits. by destruct (hits _ _ _).
    + intros l x Hl1 Hx Ho. rewrite key_match_sym. by apply (Hm l r).
  - destruct (H true true Hr Hl Hm) as [H1 H2]. destruct (foldl _ _ _) as [out marks]. simpl in H1, H2. rewrite H1. unfold join_spec. do 2 f_equal.
    apply (unmatched_spec (λ l r, on_match (merge_right table l r)) left right (λ i, default false (marks !! i))). by apply H2.
Qed.

(** ** The parallel probe *)

Lemma chunk_starts_spec n (k c : nat) : (c ≤ k)%nat → chunk_starts n k !! c = Some (c * (n / k) + c `min` (n mod k))%nat.
Proof.
  unfold chunk_starts. intros Hc.
  enough (H : ∀ j, (j ≤ k)%nat →
    let l := foldl (λ starts c, starts ++ [(default 0 (last starts) + n / k + (if decide (c < n mod k) then 1 else 0))%nat]) [0%nat] (seq 0 j) in
    length l = S j ∧ ∀ c, (c ≤ j)%nat → l !! c = Some (c * (n / k) + c `min` (n mod k))%nat) by by apply (H k).
  clear c Hc. induction j as [|j IH]; intros Hj l.
  { split; [done|]. by intros [|c] Hc; [|lia]. }
  subst l. rewrite seq_S, foldl_app. destruct (IH ltac:(lia)) as [Hlen Hl]. set (l := foldl _ _ (seq 0 j)) in *. simpl.
  assert (Hlast : last l = Some (j * (n / k) + j `min` (n mod k))%nat) by (rewrite last_lookup, Hlen; by apply Hl).
  rewrite length_app, Hlen, Hlast. split; [simpl; lia|]. intros c Hc. destruct (decide (c = S j)) as [->|Hne].
  - rewrite lookup_app_r, Hlen, Nat.sub_diag by lia. cbn [default lookup list_lookup]. f_equal.
    rewrite Nat.mul_succ_l. unfold id. destruct (decide (j < n mod k)%nat); lia.
  - rewrite lookup_app_l by lia. apply Hl. lia.
Qed.

Lemma concat_chunks {A : Type} (l : list A) (s : nat → nat) (k : nat) :
  s 0%nat = 0%nat → (∀ c, (c < k)%nat → s c ≤ s (S c))%nat →
  concat ((λ c, take (s (S c) - s c) (drop (s c) l)) <$> seq 0 k) = take (s k) l.
Proof.
  intros H0 Hm. induction k as [|k IH]; [by rewrite H0|]. rewrite seq_S, fmap_app, concat_app, IH by (intros; apply Hm; lia). simpl.
  rewrite app_nil_r. specialize (Hm k ltac:(lia)).
  pose proof (take_drop_span l 0 (s k) (s (S k)) ltac:(lia)) as H. by rewrite !Nat.sub_0_r, drop_0 in H.
Qed.

Lemma concat_concat_fmap {A B : Type} (f : A → list B) (ls : list (list A)) : concat ((λ l, concat (f <$> l)) <$> ls) = concat (f <$> concat ls).
Proof. induction ls as [|l ls IH]; [done|]. cbn. rewrite fmap_app, concat_app. f_equal. exact IH. Qed.

(** The slices between the starts are the whole list. *)
Lemma slices_cover {A : Type} (l : list A) (k : nat) : (0 < k)%nat →
  concat ((λ c, take (chunk_starts (length l) k !!! S c - chunk_starts (length l) k !!! c) (drop (chunk_starts (length l) k !!! c) l)) <$> seq 0 k) = l.
Proof.
  intros Hk. set (at_ c := (c * (length l / k) + c `min` (length l mod k))%nat).
  assert (Hc : ∀ c, (c ≤ k)%nat → chunk_starts (length l) k !!! c = at_ c).
  { intros c Hck. apply list_lookup_total_correct. by apply chunk_starts_spec. }
  assert (Hlast : at_ k = length l).
  { unfold at_. pose proof (Nat.mod_upper_bound (length l) k ltac:(lia)). pose proof (Nat.div_mod_eq (length l) k). lia. }
  transitivity (concat ((λ c, take (at_ (S c) - at_ c) (drop (at_ c) l)) <$> seq 0 k)).
  - f_equal. apply list_fmap_ext. intros i c Hi. apply list_elem_of_lookup_2, elem_of_seq in Hi. simpl. by rewrite !Hc by lia.
  - rewrite concat_chunks; [|done|unfold at_; intros c _; rewrite Nat.mul_succ_l; lia]. by rewrite Hlast, take_ge.
Qed.

(** However many threads there are, the probe gives the rows of a loop over the left side. *)
Lemma probe_parallel_spec cpus (left : list Row) (per_row : Row → list Row) : probe_parallel cpus left per_row = concat (per_row <$> left).
Proof.
  unfold probe_parallel. set (k := Nat.min _ (length left)). case_decide as Hk; [done|].
  symmetry. etransitivity; [apply (f_equal (λ l, concat (per_row <$> l))), eq_sym, (slices_cover left k); lia|]. cbn beta.
  by rewrite <- concat_concat_fmap, <- list_fmap_compose.
Qed.

(** The hash join gives the pairs whose keys are the same number or the same text. *)
Definition hash_match (join_type : JoinType) (table probe_col build_col : list Z) (l r : Row) : bool :=
  match join_type with
  | Right => key_match normalize_numeric_key (default [] (r !! build_col)) (default [] (l !! probe_col))
  | _ => key_match normalize_numeric_key (probe_key probe_col l) (build_key table build_col r)
  end.

Lemma hash_join_spec cpus left right join_type table probe_col build_col right_cols left_pad :
  match join_type with Inner | Left | Right => True | _ => False end →
  hash_join cpus left right join_type table probe_col build_col right_cols left_pad =
  join_spec join_type table right_cols (left_columns left left_pad) (hash_match join_type table probe_col build_col) left right.
Proof.
  intros Ht. unfold hash_join, join_spec, hash_match. destruct join_type; try done; rewrite ?probe_parallel_spec; f_equal; apply list_fmap_ext; intros _ x _;
    by rewrite bucket_of_rows.
Qed.

End joins.

(** ** Sorting *)

Section sorting.
Context {A : Type} (less : A → A → bool).
Implicit Types (x y : A) (l : list A) (P : A → bool).

Definition not_after x y : Prop := less y x = false.

Lemma stable_insert_perm x l : stable_insert less x l ≡ₚ x :: l.
Proof. induction l as [|y l IH]; [done|]. simpl. destruct (less y x); [|done]. rewrite IH. apply Permutation_swap. Qed.

Lemma stable_sort_perm l : stable_sort less l ≡ₚ l.
Proof. unfold stable_sort. induction l as [|x l IH]; [done|]. simpl. by rewrite stable_insert_perm, IH. Qed.

(** [less] is a strict weak order of the elements. *)
Definition strict_weak l : Prop :=
  ∀ x y z, x ∈ l → y ∈ l → z ∈ l → (less x y = true → not_after x y) ∧ (not_after x y → not_after y z → not_after x z).

Lemma stable_insert_sorted x l : strict_weak (x :: l) → StronglySorted not_after l → StronglySorted not_after (stable_insert less x l).
Proof.
  intros Hw Hs. induction Hs as [|y l Hs IH Hy]; simpl; [by repeat constructor|].
  assert (Hx : x ∈ x :: y :: l) by by left. assert (Hyl : y ∈ x :: y :: l) by (right; by left). destruct (less y x) eqn:E.
  - constructor.
    + apply IH. intros a b c. rewrite !elem_of_cons. intros Ha Hb Hc. apply Hw; rewrite !elem_of_cons; tauto.
    + rewrite stable_insert_perm. constructor; [|done]. exact (proj1 (Hw y x x Hyl Hx Hx) E).
  - constructor; [by constructor|]. constructor; [done|]. rewrite Forall_forall in *. intros z Hz.
    assert (Hzl : z ∈ x :: y :: l) by (do 2 right; done).
    exact (proj2 (Hw x y z Hx Hyl Hzl) E (Hy z Hz)).
Qed.

Lemma stable_sort_sorted l : strict_weak l → StronglySorted not_after (stable_sort less l).
Proof.
  induction l as [|x l IH]; intros Hw; [constructor|]. simpl. apply stable_insert_sorted.
  - intros a b c. rewrite !elem_of_cons, !(elem_of_Permutation_proper _ _ _ (stable_sort_perm l)). rewrite <- !elem_of_cons. apply Hw.
  - apply IH. intros a b c Ha Hb Hc. apply Hw; by right.
Qed.

Lemma run_app P l : (run P l).1 ++ (run P l).2 = l.
Proof. induction l as [|x l IH]; [done|]. simpl. destruct (P x); [|done]. destruct (run P l). simpl in *. by rewrite IH. Qed.

(** A test that fails for all that follow an element it fails for divides a sorted list in two. *)
Lemma run_filter (R : relation A) P l :
  StronglySorted R l → (∀ x y, x ∈ l → y ∈ l → R x y → P x = false → P y = false) →
  run P l = (filter (λ x, P x = true) l, filter (λ x, P x = false) l).
Proof.
  intros HS. induction HS as [|x l Hs IH Hx]; intros Hm; [reflexivity|]. simpl. destruct (P x) eqn:E.
  - rewrite IH by (intros x0 y0 Hx0 Hy0; apply (Hm x0 y0); by right). by rewrite filter_cons_True, filter_cons_False by congruence.
  - rewrite filter_cons_False, filter_cons_True by congruence. rewrite Forall_forall in Hx.
    assert (Hall : ∀ y, y ∈ l → P y = false) by (intros y Hy; apply (Hm x y); [by left|by right|by apply Hx|done]).
    rewrite filter_none by (apply Forall_forall; intros y Hy; by rewrite Hall). by rewrite filter_all by by apply Forall_forall.
Qed.
End sorting.


Section sort_merge.
Context (kRuns : list Run) (kPool : list Z).
Context (iter : Row → list (list Z * list Z)).
Implicit Types (ls rs left right : list Row) (table : list Z) (join_type : JoinType) (left_pad : option (list (list Z))).
Implicit Types (k : list Z) (lkey rkey xkey ykey : Row → list Z) (right_cols : list (list Z)).

#[local] Abbreviation cmp := (sort_cmp kRuns kPool).

(** Only NULL compares as equal to NULL. *)
Lemma cmp_null k : cmp k JOIN_NULL_VALUE = 0 → k = JOIN_NULL_VALUE.
Proof.
  unfold sort_cmp. change (parse_number JOIN_NULL_VALUE) with (@None spec_float).
  assert (E : compare kRuns kPool k JOIN_NULL_VALUE = 0 → k = JOIN_NULL_VALUE); [|by destruct (parse_number k)].
  unfold compare. change (is_null_text JOIN_NULL_VALUE) with true. rewrite orb_true_r.
  destruct (is_null_text k) eqn:Ek; [|done]. intros _. by apply bool_decide_eq_true in Ek.
Qed.

(** The keys of the two sides compare as a total preorder. *)
Context (dom : list Z → Prop).
Context (Hord : preorder dom (λ a b, cmp a b ?= 0)).

Lemma cmp_sym (x y : list Z) : dom x → dom y → (cmp y x < 0 ↔ 0 < cmp x y) ∧ (cmp y x = 0 ↔ cmp x y = 0).
Proof.
  intros Hx Hy. pose proof (po_antisym Hord x y Hx Hy) as H. cbn beta in H.
  destruct (Z.compare_spec (cmp y x) 0), (Z.compare_spec (cmp x y) 0); simpl in H; try discriminate H; lia.
Qed.

Lemma cmp_le_trans (x y z : list Z) : dom x → dom y → dom z → cmp x y ≤ 0 → cmp y z ≤ 0 → cmp x z ≤ 0.
Proof. intros Hx Hy Hz. exact (po_trans Hord x y z Hx Hy Hz). Qed.

Lemma cmp_refl x : dom x → cmp x x = 0.
Proof. intros Hx. pose proof (cmp_sym x x Hx Hx). lia. Qed.

(** [x] is below [y], which is not below [z]'s equals: the orders that the proofs below use. *)
Lemma cmp_eq_trans (x y z : list Z) : dom x → dom y → dom z → cmp x y = 0 → cmp y z = 0 → cmp x z = 0.
Proof.
  intros Hx Hy Hz H1 H2. pose proof (cmp_le_trans x y z Hx Hy Hz). pose proof (cmp_le_trans z y x Hz Hy Hx).
  pose proof (cmp_sym x y Hx Hy). pose proof (cmp_sym y z Hy Hz). pose proof (cmp_sym x z Hx Hz). lia.
Qed.

Lemma cmp_lt_le (x y z : list Z) : dom x → dom y → dom z → cmp x y < 0 → cmp y z ≤ 0 → cmp x z < 0.
Proof.
  intros Hx Hy Hz H1 H2. pose proof (cmp_le_trans x y z Hx Hy Hz). pose proof (cmp_le_trans y z x Hy Hz Hx).
  pose proof (cmp_sym x y Hx Hy). pose proof (cmp_sym x z Hx Hz). lia.
Qed.

Lemma cmp_le_lt (x y z : list Z) : dom x → dom y → dom z → cmp x y ≤ 0 → cmp y z < 0 → cmp x z < 0.
Proof.
  intros Hx Hy Hz H1 H2. pose proof (cmp_le_trans x y z Hx Hy Hz). pose proof (cmp_le_trans z x y Hz Hx Hy).
  pose proof (cmp_sym y z Hy Hz). pose proof (cmp_sym x z Hx Hz). lia.
Qed.

Definition cmp_match x y : bool :=
  negb (bool_decide (x = JOIN_NULL_VALUE)) && negb (bool_decide (y = JOIN_NULL_VALUE)) && (cmp x y =? 0).

Lemma cmp_match_eq x y : dom x → dom y → x ≠ JOIN_NULL_VALUE → cmp_match x y = (cmp x y =? 0).
Proof.
  intros Hx Hy Hn. unfold cmp_match. rewrite bool_decide_eq_false_2 by done. case_bool_decide as E; [|done]. simpl.
  symmetry. apply Z.eqb_neq. subst y. intros Hc. by apply Hn, cmp_null.
Qed.

Definition sorted_by xkey : list Row → Prop := StronglySorted (λ a b, cmp (xkey a) (xkey b) ≤ 0).
Definition in_dom xkey (l : list Row) : Prop := Forall (λ r, dom (xkey r)) l.

Lemma sorted_by_sort xkey l :
  in_dom xkey l → sorted_by xkey (stable_sort (λ a b, cmp (xkey a) (xkey b) <? 0) l) ∧ in_dom xkey (stable_sort (λ a b, cmp (xkey a) (xkey b) <? 0) l).
Proof.
  intros Hd. set (less := λ a b, cmp (xkey a) (xkey b) <? 0).
  assert (Hd' : in_dom xkey (stable_sort less l)) by (unfold in_dom; by rewrite stable_sort_perm). split; [|done].
  assert (Hw : strict_weak less l).
  { unfold in_dom in Hd. rewrite Forall_forall in Hd. intros x y z Hx%Hd Hy%Hd Hz%Hd. unfold not_after, less. rewrite !Z.ltb_ge, !Z.ltb_lt.
    pose proof (cmp_sym (xkey x) (xkey y) Hx Hy). pose proof (cmp_sym (xkey y) (xkey z) Hy Hz). pose proof (cmp_sym (xkey x) (xkey z) Hx Hz).
    pose proof (cmp_le_trans (xkey x) (xkey y) (xkey z) Hx Hy Hz). lia. }
  pose proof (stable_sort_sorted less l Hw) as Hs. unfold in_dom in Hd'. revert Hd'. induction Hs as [|x l' Hs IH Hall]; [constructor|].
  intros [Hx Hl]%Forall_cons. constructor; [by apply IH|]. rewrite Forall_forall in *. intros y Hy. specialize (Hall y Hy).
  unfold not_after, less in Hall. apply Z.ltb_ge in Hall. pose proof (cmp_sym (xkey x) (xkey y) Hx (Hl y Hy)). lia.
Qed.

(** The rows whose keys equal [k], and the rows below it, are what [run] takes of the sorted rows. *)
Lemma run_equal ykey k l :
  dom k → in_dom ykey l → sorted_by ykey l → Forall (λ y, cmp k (ykey y) ≤ 0) l →
  run (λ y, cmp (ykey y) k =? 0) l = (filter (λ y, (cmp (ykey y) k =? 0) = true) l, filter (λ y, (cmp (ykey y) k =? 0) = false) l).
Proof.
  intros Hk Hd Hs Hge. apply (run_filter _ (λ y, cmp (ykey y) k =? 0) l Hs). unfold in_dom in Hd. rewrite Forall_forall in Hd, Hge.
  intros x y Hx Hy Hle. rewrite !Z.eqb_neq. intros Hxk. pose proof (Hge x Hx). pose proof (Hge y Hy). apply Hd in Hx, Hy.
  pose proof (cmp_sym k (ykey x) Hk Hx). pose proof (cmp_sym k (ykey y) Hk Hy).
  pose proof (cmp_lt_le k (ykey x) (ykey y) Hk Hx Hy). lia.
Qed.

Lemma run_below ykey k l :
  dom k → in_dom ykey l → sorted_by ykey l →
  run (λ y, cmp (ykey y) k <? 0) l = (filter (λ y, (cmp (ykey y) k <? 0) = true) l, filter (λ y, (cmp (ykey y) k <? 0) = false) l).
Proof.
  intros Hk Hd Hs. apply (run_filter _ (λ y, cmp (ykey y) k <? 0) l Hs). unfold in_dom in Hd. rewrite Forall_forall in Hd.
  intros x y Hx%Hd Hy%Hd Hle. rewrite !Z.ltb_ge. intros Hxk.
  pose proof (cmp_sym k (ykey x) Hk Hx). pose proof (cmp_sym k (ykey y) Hk Hy). pose proof (cmp_le_trans k (ykey x) (ykey y) Hk Hx Hy). lia.
Qed.

Lemma run_parts {A : Type} (P : A → bool) (l a b : list A) : run P l = (a, b) → l = a ++ b.
Proof. intros E. pose proof (run_app P l) as H. by rewrite E in H. Qed.

Lemma sorted_by_app_r ykey a b : sorted_by ykey (a ++ b) → sorted_by ykey b.
Proof. apply StronglySorted_app_1_r. Qed.

Lemma filter_bool_ext {A : Type} (P Q : A → bool) (l : list A) :
  (∀ x, x ∈ l → P x = Q x) → filter (λ x, P x = true) l = filter (λ x, Q x = true) l.
Proof.
  induction l as [|x l IH]; intros H; [done|]. rewrite !filter_cons, (H x), IH; [done|intros; apply H; by right|by left].
Qed.

Lemma filter_skip (P : Row → bool) (a b : list Row) : (∀ x, x ∈ a → P x = false) → filter (λ x, P x = true) (a ++ b) = filter (λ x, P x = true) b.
Proof. intros H. rewrite filter_app, filter_none; [done|]. apply Forall_forall. intros x Hx. by rewrite H. Qed.

Lemma merge_outer_spec xkey ykey (mk : Row → Row → Row) (pad : Row → Row) xs ys :
  sorted_by xkey xs → sorted_by ykey ys → in_dom xkey xs → in_dom ykey ys →
  merge_outer kRuns kPool xkey ykey mk pad xs ys =
  concat ((λ x, match filter (λ y, cmp_match (xkey x) (ykey y) = true) ys with [] => [pad x] | y :: ms => mk x <$> (y :: ms) end) <$> xs).
Proof.
  intros Hx. revert ys. induction Hx as [|x xs Hx IH Hle]; intros ys Hy Hdx Hdy; [done|]. cbn [merge_outer].
  apply Forall_cons in Hdx as [Hk Hdx]. rewrite (run_below ykey (xkey x) ys Hk Hdy Hy).
  pose proof (run_below ykey (xkey x) ys Hk Hdy Hy) as Eb%run_parts. set (lt := filter _ ys) in Eb. set (ge := filter (λ y, _ = false) ys) in *.
  assert (Hdge : in_dom ykey ge) by (apply Forall_filter_sub, Hdy).
  assert (Hsge : sorted_by ykey ge) by (rewrite Eb in Hy; by eapply sorted_by_app_r).
  assert (Hge : Forall (λ y, cmp (xkey x) (ykey y) ≤ 0) ge).
  { apply Forall_forall. intros y [Hlt Hin]%list_elem_of_filter. apply Z.ltb_ge in Hlt. unfold in_dom in Hdy. rewrite Forall_forall in Hdy.
    pose proof (cmp_sym (xkey x) (ykey y) Hk (Hdy y Hin)). lia. }
  assert (Hskip : ∀ z, dom z → cmp (xkey x) z ≤ 0 → filter (λ y, cmp_match z (ykey y) = true) ys = filter (λ y, cmp_match z (ykey y) = true) ge).
  { intros z Hz Hxz. rewrite Eb at 1. apply (filter_skip (λ y, cmp_match z (ykey y))). intros y [Hlt Hin]%list_elem_of_filter. apply Z.ltb_lt in Hlt.
    unfold in_dom in Hdy. rewrite Forall_forall in Hdy. specialize (Hdy y Hin). unfold cmp_match.
    pose proof (cmp_lt_le (ykey y) (xkey x) z Hdy Hk Hz Hlt Hxz). pose proof (cmp_sym (ykey y) z Hdy Hz).
    rewrite (proj2 (Z.eqb_neq (cmp z (ykey y)) 0)) by lia. by rewrite andb_false_r. }
  assert (Hms : (run (λ y, negb (bool_decide (xkey x = JOIN_NULL_VALUE)) && (cmp (ykey y) (xkey x) =? 0)) ge).1 =
                filter (λ y, cmp_match (xkey x) (ykey y) = true) ge).
  { case_bool_decide as En; simpl.
    - transitivity (@nil Row); [by destruct ge|]. symmetry. apply filter_none, Forall_forall. intros y _. unfold cmp_match. by rewrite bool_decide_eq_true_2.
    - rewrite (run_equal ykey (xkey x) ge Hk Hdge Hsge Hge). simpl. apply (filter_bool_ext (λ y, cmp (ykey y) (xkey x) =? 0) (λ y, cmp_match (xkey x) (ykey y))). intros y Hin. unfold in_dom in Hdge. rewrite Forall_forall in Hdge.
      rewrite cmp_match_eq by auto. pose proof (cmp_sym (xkey x) (ykey y) Hk (Hdge y Hin)).
      destruct (Z.eqb_spec (cmp (ykey y) (xkey x)) 0), (Z.eqb_spec (cmp (xkey x) (ykey y)) 0); tauto. }
  destruct (run _ ge) as [ms rest]. simpl in Hms. subst ms. rewrite IH by done. simpl. rewrite (Hskip (xkey x)) by (rewrite ?cmp_refl; done). f_equal.
  - by destruct (filter _ ge).
  - f_equal. apply list_fmap_ext. intros i x' Hi. apply list_elem_of_lookup_2 in Hi. rewrite Forall_forall in Hle. unfold in_dom in Hdx. rewrite Forall_forall in Hdx.
    by rewrite Hskip by auto.
Qed.

Definition pairs table lkey rkey ls rs : list Row :=
  concat ((λ l, merge_right iter table l <$> filter (λ r, cmp_match (lkey l) (rkey r) = true) rs) <$> ls).

Lemma pairs_none table lkey rkey ls rs :
  (∀ l r, l ∈ ls → r ∈ rs → cmp_match (lkey l) (rkey r) = false) → pairs table lkey rkey ls rs = [].
Proof.
  unfold pairs. induction ls as [|l ls IH]; intros H; [done|]. simpl. rewrite filter_none; [|apply Forall_forall; intros r Hr; rewrite H; [done|by left|done]].
  simpl. apply IH. intros l' r Hl Hr. apply H; [by right|done].
Qed.

Lemma pairs_app_l table lkey rkey la lb rs : pairs table lkey rkey (la ++ lb) rs = pairs table lkey rkey la rs ++ pairs table lkey rkey lb rs.
Proof. unfold pairs. by rewrite fmap_app, concat_app. Qed.

Lemma pairs_rows table lkey rkey ls rs rs' :
  (∀ l, l ∈ ls → filter (λ r, cmp_match (lkey l) (rkey r) = true) rs = filter (λ r, cmp_match (lkey l) (rkey r) = true) rs') →
  pairs table lkey rkey ls rs = pairs table lkey rkey ls rs'.
Proof. intros H. unfold pairs. f_equal. apply list_fmap_ext. intros i l Hl. by rewrite (H l) by by eapply list_elem_of_lookup_2. Qed.

Lemma pairs_skip table lkey rkey ls a b :
  (∀ l r, l ∈ ls → r ∈ a → cmp_match (lkey l) (rkey r) = false) → pairs table lkey rkey ls (a ++ b) = pairs table lkey rkey ls b.
Proof. intros H. apply pairs_rows. intros l Hl. apply (filter_skip (λ r, cmp_match (lkey l) (rkey r))). intros r Hr. by apply H. Qed.

Lemma pairs_front table lkey rkey ls a b :
  (∀ l r, l ∈ ls → r ∈ b → cmp_match (lkey l) (rkey r) = false) → pairs table lkey rkey ls (a ++ b) = pairs table lkey rkey ls a.
Proof.
  intros H. apply pairs_rows. intros l Hl. rewrite filter_app, (filter_none _ b), app_nil_r; [done|]. apply Forall_forall. intros r Hr. by rewrite H.
Qed.

Lemma cmp_match_ne (x y : list Z) : cmp x y ≠ 0 → cmp_match x y = false.
Proof. intros H. unfold cmp_match. by rewrite (proj2 (Z.eqb_neq _ _) H), andb_false_r. Qed.

Lemma cmp_match_null (x y : list Z) : x = JOIN_NULL_VALUE ∨ y = JOIN_NULL_VALUE → cmp_match x y = false.
Proof. unfold cmp_match. intros [-> | ->]; rewrite (bool_decide_eq_true_2 (JOIN_NULL_VALUE = _)) by done; simpl; by rewrite ?andb_false_r. Qed.

Lemma sorted_by_head ykey y l x : in_dom ykey (y :: l) → sorted_by ykey (y :: l) → x ∈ y :: l → cmp (ykey y) (ykey x) ≤ 0.
Proof.
  intros [Hy _]%Forall_cons [_ Hall]%StronglySorted_inv [->|Hx]%elem_of_cons; [by rewrite cmp_refl|].
  rewrite Forall_forall in Hall. by apply Hall.
Qed.

(** The equal rows at the front of both sides, and the rest. *)
Lemma pairs_equal table lkey rkey k la lb ra rb :
  dom k → k ≠ JOIN_NULL_VALUE → in_dom lkey (la ++ lb) → in_dom rkey (ra ++ rb) →
  Forall (λ x, cmp (lkey x) k = 0) la → Forall (λ x, cmp k (lkey x) < 0) lb → Forall (λ x, cmp (rkey x) k = 0) ra → Forall (λ x, cmp k (rkey x) < 0) rb →
  pairs table lkey rkey (la ++ lb) (ra ++ rb) = concat ((λ a, merge_right iter table a <$> ra) <$> la) ++ pairs table lkey rkey lb rb.
Proof.
  unfold in_dom. rewrite !Forall_app, !Forall_forall. intros Hk Hn [Hdla Hdlb] [Hdra Hdrb] Hla Hlb Hra Hrb. rewrite pairs_app_l.
  rewrite pairs_front, pairs_skip; first f_equal.
  - unfold pairs. f_equal. apply list_fmap_ext. intros i a Ha%list_elem_of_lookup_2. f_equal. apply filter_all, Forall_forall. intros r Hr.
    specialize (Hla a Ha). specialize (Hra r Hr). apply Hdla in Ha. apply Hdra in Hr. pose proof (cmp_sym (rkey r) k Hr Hk).
    assert (Ha' : lkey a ≠ JOIN_NULL_VALUE).
    { intros E. rewrite E in *. apply Hn, cmp_null. pose proof (cmp_sym JOIN_NULL_VALUE k Ha Hk). lia. }
    rewrite cmp_match_eq by done. apply Z.eqb_eq, (cmp_eq_trans _ k); try done. lia.
  - intros l r Hl Hr. apply cmp_match_ne. specialize (Hlb l Hl). specialize (Hra r Hr). apply Hdlb in Hl. apply Hdra in Hr.
    pose proof (cmp_le_lt (rkey r) k (lkey l) Hr Hk Hl). pose proof (cmp_sym (rkey r) (lkey l) Hr Hl). lia.
  - intros l r Hl Hr. apply cmp_match_ne. specialize (Hla l Hl). specialize (Hrb r Hr). apply Hdla in Hl. apply Hdrb in Hr.
    pose proof (cmp_le_lt (lkey l) k (rkey r) Hl Hk Hr). lia.
Qed.

(** What [run_equal] takes is equal, what it leaves is greater. *)
Lemma run_equal_parts ykey k l a b :
  dom k → in_dom ykey l → sorted_by ykey l → Forall (λ y, cmp k (ykey y) ≤ 0) l → run (λ y, cmp (ykey y) k =? 0) l = (a, b) →
  l = a ++ b ∧ Forall (λ y, cmp (ykey y) k = 0) a ∧ Forall (λ y, cmp k (ykey y) < 0) b ∧ sorted_by ykey b ∧
  (∀ y l', l = y :: l' → cmp (ykey y) k = 0 → (length b ≤ length l')%nat).
Proof.
  intros Hk Hd Hs Hge E. pose proof (run_parts _ _ _ _ E) as El. rewrite (run_equal ykey k l Hk Hd Hs Hge) in E. injection E as <- <-.
  split; [done|]. split; [apply Forall_forall; intros y [Hy _]%list_elem_of_filter; by apply Z.eqb_eq|]. split.
  { apply Forall_forall. intros y [Hy Hin]%list_elem_of_filter. apply Z.eqb_neq in Hy. unfold in_dom in Hd. rewrite Forall_forall in Hd, Hge.
    pose proof (cmp_sym k (ykey y) Hk (Hd y Hin)). specialize (Hge y Hin). lia. }
  split; [rewrite El in Hs; by eapply sorted_by_app_r|]. intros y l' -> Hy.
  rewrite filter_cons_False by (rewrite (proj2 (Z.eqb_eq _ _) Hy); done). apply length_filter.
Qed.

Lemma merge_inner_spec fuel table lkey rkey ls rs :
  (length ls + length rs ≤ fuel)%nat → sorted_by lkey ls → sorted_by rkey rs → in_dom lkey ls → in_dom rkey rs →
  merge_inner kRuns kPool iter fuel table lkey rkey ls rs = pairs table lkey rkey ls rs.
Proof.
  revert ls rs. induction fuel as [|fuel IH]; intros ls rs Hf Hls Hrs Hdl Hdr.
  { destruct ls as [|l ls]; [done|]. simpl in Hf. lia. }
  destruct ls as [|l ls']; [done|]. destruct rs as [|r rs']; [simpl; symmetry; apply pairs_none; intros ? ? _ ?%elem_of_nil; done|].
  cbn [length] in Hf. cbn [merge_inner].
  pose proof (sorted_by_head lkey l ls') as Hl. pose proof (sorted_by_head rkey r rs') as Hr.
  assert (Hk : dom (lkey l)) by by apply Forall_cons in Hdl as [? _]. assert (Hk' : dom (rkey r)) by by apply Forall_cons in Hdr as [? _].
  assert (Hdl' : in_dom lkey ls') by by apply Forall_cons in Hdl as [_ ?]. assert (Hdr' : in_dom rkey rs') by by apply Forall_cons in Hdr as [_ ?].
  assert (Hls' : sorted_by lkey ls') by by apply StronglySorted_inv in Hls as [? _]. assert (Hrs' : sorted_by rkey rs') by by apply StronglySorted_inv in Hrs as [? _].
  assert (Hinl : ∀ x, x ∈ l :: ls' → dom (lkey x)) by by apply Forall_forall. assert (Hinr : ∀ x, x ∈ r :: rs' → dom (rkey x)) by by apply Forall_forall.
  case_bool_decide as En.
  { rewrite IH by (done || (cbn [length]; lia)). symmetry. rewrite (pairs_app_l _ _ _ [l] ls'), pairs_none; [done|].
    intros x y ->%list_elem_of_singleton _. apply cmp_match_null. by left. }
  case_bool_decide as En'.
  { rewrite IH by (done || (cbn [length]; lia)). symmetry. apply (pairs_skip _ _ _ _ [r]).
    intros x y _ ->%list_elem_of_singleton. apply cmp_match_null. by right. }
  destruct (Z.ltb_spec (cmp (lkey l) (rkey r)) 0) as [Hlt|Hge].
  { rewrite IH by (done || (cbn [length]; lia)). symmetry. rewrite (pairs_app_l _ _ _ [l] ls'), pairs_none; [done|].
    intros x y ->%list_elem_of_singleton Hy. apply cmp_match_ne. pose proof (cmp_lt_le (lkey l) (rkey r) (rkey y) Hk Hk' (Hinr y Hy) Hlt (Hr y Hdr Hrs Hy)). lia. }
  destruct (Z.ltb_spec 0 (cmp (lkey l) (rkey r))) as [Hgt|Hle].
  { rewrite IH by (done || (cbn [length]; lia)). symmetry. apply (pairs_skip _ _ _ _ [r]). intros x y Hx ->%list_elem_of_singleton. apply cmp_match_ne.
    pose proof (cmp_sym (lkey l) (rkey r) Hk Hk'). pose proof (cmp_sym (lkey x) (rkey r) (Hinl x Hx) Hk').
    pose proof (cmp_lt_le (rkey r) (lkey l) (lkey x) Hk' Hk (Hinl x Hx) ltac:(lia) (Hl x Hdl Hls Hx)). lia. }
  assert (Heq : cmp (lkey l) (rkey r) = 0) by lia.
  destruct (run _ (l :: ls')) as [la lb] eqn:El. destruct (run _ (r :: rs')) as [ra rb] eqn:Er.
  apply (run_equal_parts lkey) in El as (El & Hla & Hlb & Hslb & Hlen); [|done..|].
  2: { apply Forall_forall. intros x Hx. by apply Hl. }
  apply (run_equal_parts rkey) in Er as (Er & Hra & Hrb & Hsrb & _); [|done..|].
  2: { apply Forall_forall. intros x Hx. apply (cmp_le_trans _ (rkey r)); auto. }
  assert (Hlenr : (length rb ≤ S (length rs'))%nat) by (apply (f_equal length) in Er; rewrite length_app in Er; simpl in Er; lia).
  specialize (Hlen l ls' eq_refl (cmp_refl _ Hk)). rewrite El in Hdl |- *. rewrite Er in Hdr |- *.
  rewrite (pairs_equal table lkey rkey (lkey l)) by done. f_equal. apply IH; [lia|done|done|by apply Forall_app in Hdl as [_ ?]|by apply Forall_app in Hdr as [_ ?]].
Qed.

End sort_merge.

(** ** The rows of a join, in any order *)

Lemma concat_fmap_perm {A B : Type} (f g : A → list B) (l l' : list A) : l ≡ₚ l' → (∀ x, f x ≡ₚ g x) → concat (f <$> l) ≡ₚ concat (g <$> l').
Proof.
  intros Hl Hf. induction Hl as [|x l l' _ IH|x y l|l1 l2 l3 _ IH1 _ IH2]; simpl; [done|by rewrite Hf, IH| |].
  - rewrite (Hf x), (Hf y), !(assoc (++)), (comm (++) (g y)). f_equiv. induction l as [|z l IH]; [done|]. simpl. by rewrite Hf, IH.
  - rewrite IH1. rewrite <- IH2. clear -Hf. induction l2 as [|z l IH]; [done|]. simpl. by rewrite Hf, IH.
Qed.

Lemma padded_perm (f : Row → Row) (pad : Row) (rs rs' : list Row) :
  rs ≡ₚ rs' → match rs with [] => [pad] | r :: t => f <$> (r :: t) end ≡ₚ match rs' with [] => [pad] | r :: t => f <$> (r :: t) end.
Proof.
  intros H. destruct rs as [|r rs]; [by apply Permutation_nil in H as ->|]. destruct rs' as [|r' rs']; [by apply Permutation_sym, Permutation_nil in H|].
  by rewrite H.
Qed.

Lemma forallb_perm {A : Type} (P : A → bool) (l l' : list A) : l ≡ₚ l' → forallb P l = forallb P l'.
Proof. induction 1 as [|x l l' _ IH|x y l|l1 l2 l3 _ IH1 _ IH2]; simpl; [done|by rewrite IH|by rewrite !andb_assoc, (andb_comm (P y))|congruence]. Qed.

#[export] Instance join_spec_perm iter join_type table right_cols left_cols m :
  Proper ((≡ₚ) ==> (≡ₚ) ==> (≡ₚ)) (join_spec iter join_type table right_cols left_cols m).
Proof.
  intros left left' Hl right right' Hr. unfold join_spec.
  assert (Hpad : concat ((λ l, match filter (λ r, m l r = true) right with [] => [null_right right_cols table l] | r :: rs => merge_right iter table l <$> (r :: rs) end) <$> left) ≡ₚ
                 concat ((λ l, match filter (λ r, m l r = true) right' with [] => [null_right right_cols table l] | r :: rs => merge_right iter table l <$> (r :: rs) end) <$> left')).
  { apply concat_fmap_perm; [done|]. intros l. apply padded_perm. by rewrite Hr. }
  destruct join_type; try done.
  - apply concat_fmap_perm; [done|]. intros l. by rewrite Hr.
  - apply (concat_fmap_perm (λ r, match filter (λ l, m l r = true) left with [] => _ | l :: ls => _ end)); [done|]. intros r.
    apply (padded_perm (λ l, merge_right iter table l r)). by rewrite Hl.
  - f_equiv; [exact Hpad|]. rewrite Hr. apply fmap_Permutation. apply reflexive_eq, list_filter_iff. intros r. by rewrite (forallb_perm _ _ _ Hl).
Qed.

(** ** Properties *)
Section properties.
Context (kRuns : list Run) (kPool : list Z).
Context (printf_17g : spec_float → list Z).
Context (iter : Row → list (list Z * list Z)).


(** The sort-merge join gives the pairs of equal keys. When the keys of both sides compare as a total
    preorder, the sort-merge join of any two tables is, up to the order of the rows, the INNER, LEFT or RIGHT join
    on keys that are not NULL and compare as equal. *)
Theorem sort_merge_join_exact (left right : list Row) (join_type : JoinType) (table probe_col build_col : list Z)
    (right_cols : list (list Z)) (left_pad : option (list (list Z))) :
  let lkey := probe_key iter probe_col in
  let rkey := build_key table build_col in
  let dom k := k ∈ (lkey <$> left) ++ (rkey <$> right) in
  let ls := stable_sort (λ a b, sort_cmp kRuns kPool (lkey a) (lkey b) <? 0) left in
  match join_type with Inner | Left | Right => True | _ => False end →
  preorder dom (λ a b, sort_cmp kRuns kPool a b ?= 0) →
  sort_merge_join kRuns kPool iter left right join_type table probe_col build_col right_cols left_pad ≡ₚ
  join_spec iter join_type table right_cols (left_columns iter ls left_pad) (λ l r, cmp_match kRuns kPool (lkey l) (rkey r)) left right.
Proof.
  intros lkey rkey dom ls Ht Ho.
  assert (Hdl : in_dom dom lkey left) by (apply Forall_forall; intros l Hl; apply elem_of_app; left; by apply list_elem_of_fmap_2).
  assert (Hdr : in_dom dom rkey right) by (apply Forall_forall; intros r Hr; apply elem_of_app; right; by apply list_elem_of_fmap_2).
  destruct (sorted_by_sort kRuns kPool dom Ho lkey left Hdl) as [Hsl Hdl']. destruct (sorted_by_sort kRuns kPool dom Ho rkey right Hdr) as [Hsr Hdr'].
  fold ls in Hsl, Hdl'. set (rs := stable_sort _ right) in *.
  trans (join_spec iter join_type table right_cols (left_columns iter ls left_pad) (λ l r, cmp_match kRuns kPool (lkey l) (rkey r)) ls rs).
  2: { apply join_spec_perm; apply stable_sort_perm. }
  apply reflexive_eq. unfold sort_merge_join. fold lkey rkey ls rs. destruct join_type; try done.
  - by apply (merge_inner_spec kRuns kPool iter dom Ho).
  - by apply (merge_outer_spec kRuns kPool iter dom Ho).
  - etransitivity; [by apply (merge_outer_spec kRuns kPool iter dom Ho)|]. unfold join_spec. f_equal. apply list_fmap_ext. intros i r Hr%list_elem_of_lookup_2.
    rewrite (filter_bool_ext (λ y, cmp_match kRuns kPool (rkey r) (lkey y)) (λ l, cmp_match kRuns kPool (lkey l) (rkey r))); [done|].
    intros l Hl. unfold in_dom in Hdl', Hdr'. rewrite Forall_forall in Hdl', Hdr'. unfold cmp_match.
    pose proof (cmp_sym kRuns kPool dom Ho (lkey l) (rkey r) (Hdl' l Hl) (Hdr' r Hr)).
    destruct (Z.eqb_spec (sort_cmp kRuns kPool (rkey r) (lkey l)) 0), (Z.eqb_spec (sort_cmp kRuns kPool (lkey l) (rkey r)) 0); try tauto;
      rewrite ?andb_false_r, ?andb_true_r; [apply andb_comm|done].
Qed.

End properties.

(** ** Concrete joins *)

Definition preorder_check {A : Type} (ord : A → A → comparison) (l : list A) : bool :=
  forallb (λ x, forallb (λ y, bool_decide (ord y x = CompOpp (ord x y)) &&
    forallb (λ z, bool_decide (ord x y = Gt) || bool_decide (ord y z = Gt) || negb (bool_decide (ord x z = Gt))) l) l) l.

Lemma preorder_checked {A : Type} (ord : A → A → comparison) (l : list A) : preorder_check ord l = true → preorder (λ x, x ∈ l) ord.
Proof.
  unfold preorder_check. rewrite forallb_forall. intros H.
  assert (H2 : ∀ x y, x ∈ l → y ∈ l → _) by (intros x y Hx%list_elem_of_In Hy%list_elem_of_In; exact (proj1 (forallb_forall _ _) (H x Hx) y Hy)).
  split.
  - intros x y Hx Hy. specialize (H2 x y Hx Hy). apply andb_true_iff in H2 as [H2 _]. by apply bool_decide_eq_true in H2.
  - intros x y z Hx Hy Hz%list_elem_of_In H3 H4. specialize (H2 x y Hx Hy). apply andb_true_iff in H2 as [_ H2].
    rewrite forallb_forall in H2. specialize (H2 z Hz). rewrite (bool_decide_eq_false_2 (ord x y = Gt)), (bool_decide_eq_false_2 (ord y z = Gt)) in H2 by done.
    simpl in H2. apply negb_true_iff in H2. by apply bool_decide_eq_false in H2.
Qed.

Definition user (id : string) : Row := {[ str "id" := str id ]}.
Definition order_of (uid item : string) : Row := <[str "uid" := str uid]> {[ str "item" := str item ]}.
Definition demo_users : list Row := [user "2"; user "NULL"; user "1"; user "3"].
Definition demo_orders : list Row := [order_of "1.0" "a"; order_of "NULL" "b"; order_of "2" "c"; order_of "1" "d"; order_of "9" "e"].

(** ON id = o.uid *)
Definition demo_on (m : Row) : bool :=
  match m !! str "id", m !! str "o.uid" with
  | Some a, Some b => negb (bool_decide (a = JOIN_NULL_VALUE)) && negb (bool_decide (b = JOIN_NULL_VALUE)) && (compare_numbers a b =? 0)
  | _, _ => false
  end.

Abbreviation demo_hashed := (hashed_join_verified ascii_runs ascii_pool (λ _, []) map_to_list demo_users demo_orders (str "o") FullOuter
  (λ l, l !! str "id") (λ r, r !! str "uid") [str "uid"; str "item"] demo_on None false).


Lemma sort_merge_join_exact_witness :
  sort_merge_join ascii_runs ascii_pool map_to_list demo_users demo_orders Inner (str "o") (str "id") (str "uid") [] (Some []) ≡ₚ
  join_spec map_to_list Inner (str "o") [] [] (λ l r, cmp_match ascii_runs ascii_pool (probe_key map_to_list (str "id") l) (build_key (str "o") (str "uid") r))
    demo_users demo_orders.
Proof.
  apply (sort_merge_join_exact ascii_runs ascii_pool map_to_list demo_users demo_orders Inner (str "o") (str "id") (str "uid") [] (Some [])); [exact I|].
  apply preorder_checked. vm_compute. reflexivity.
Defined.

(** Numbers and texts together are no such order: 9 comes before 10 as a number, '10' before '1a' and '1a' before '9' as
    texts. The sort-merge join of keys like these finds no partner for a 9 that has one; the hash join does. *)
Example mixed_keys_lose_rows :
  let left := [user "10"; user "1a"; user "9"] in
  let right := [order_of "9" "a"] in
  length (sort_merge_join ascii_runs ascii_pool map_to_list left right Inner (str "o") (str "id") (str "uid") [] None) = 0%nat ∧
  length (hash_join ascii_runs ascii_pool (λ _, []) map_to_list 4 left right Inner (str "o") (str "id") (str "uid") [] None) = 1%nat.
Proof. split; vm_compute; reflexivity. Qed.
