(* ===== verification/ResultText.v ===== *)
(** * The text of a result table (include/engine/result_text.hpp, Executor::format_set_result of
    src/engine/executor/executor_setops.cpp, Executor::parse_table_output of executor_eval.cpp,
    extract_cells_from_output and extract_values_from_output of executor_subquery.cpp)

    A statement's answer is a text: a table drawn with bars. What reads an answer inside the engine (a set
    operation, a derived table, INSERT ... SELECT, a subquery) takes that text apart again. *)
From S2P Require Import Prelude Numerals RowJson.

Definition is_blank (c : Z) : bool := (c =? 32) || (c =? 9).

(** ** Cells *)

(** find_first_not_of(" \t") and find_last_not_of *)
Fixpoint first_not_blank (s : list Z) : option nat :=
  match s with
  | [] => None
  | c :: s => if is_blank c then S <$> first_not_blank s else Some 0%nat
  end.

Fixpoint last_not_blank (s : list Z) : option nat :=
  match s with
  | [] => None
  | c :: s =>
      match last_not_blank s with
      | Some i => Some (S i)
      | None => if is_blank c then None else Some 0%nat
      end
  end.

Definition escape_char_at (first last : option nat) (i : nat) (c : Z) : list Z :=
  let at_an_end := match first, last with Some f, Some l => (i <? f)%nat || (l <? i)%nat | _, _ => true end in
  if c =? 92 then [92; 92]
  else if c =? 10 then [92; 110]
  else if c =? 124 then [92; 124]
  else if (c =? 32) && at_an_end then [92; 115]
  else if (c =? 9) && at_an_end then [92; 116]
  else [c].

Definition escape_cell (value : list Z) : list Z := concat (imap (escape_char_at (first_not_blank value) (last_not_blank value)) value).

Fixpoint unescape_cell (cell : list Z) : list Z :=
  match cell with
  | c :: ((next :: t) as t') =>
      if c =? 92 then
        if (next =? 92) || (next =? 124) then next :: unescape_cell t
        else if next =? 110 then 10 :: unescape_cell t
        else if next =? 115 then 32 :: unescape_cell t
        else if next =? 116 then 9 :: unescape_cell t
        else c :: unescape_cell t'
      else c :: unescape_cell t'
  | _ => cell
  end.

(** ** Rows *)

(** find_unescaped_bar: the piece before the bar, and what follows the bar if there is one. *)
Fixpoint cut_at_bar (line : list Z) : list Z * option (list Z) :=
  match line with
  | [] => ([], None)
  | c :: t =>
      match t with
      | d :: t' =>
          if c =? 92 then let '(p, r) := cut_at_bar t' in (c :: d :: p, r)
          else if c =? 124 then ([], Some t)
          else let '(p, r) := cut_at_bar t in (c :: p, r)
      | [] => if c =? 124 then ([], Some []) else ([c], None)
      end
  end.

Fixpoint skip_blanks (s : list Z) : list Z := match s with c :: t => if is_blank c then skip_blanks t else s | [] => [] end.
Definition trim (s : list Z) : list Z := reverse (skip_blanks (reverse (skip_blanks s))).

(** The cell of a piece; the pieces before the first bar and after the last are empty and give none. *)
Definition piece_cells (piece : list Z) : list (list Z) := match piece with [] => [] | _ => [unescape_cell (trim piece)] end.

Fixpoint split_loop (fuel : nat) (line : list Z) : list (list Z) :=
  match fuel with
  | O => []
  | S fuel =>
      let '(piece, rest) := cut_at_bar line in
      piece_cells piece ++ match rest with Some rest => split_loop fuel rest | None => [] end
  end.

Definition split_row (line : list Z) : list (list Z) := split_loop (S (length line)) line.

(** ** Tables *)

Definition width_of (cells : list (list Z)) : nat := foldr Nat.max 0%nat (length <$> cells).

(** [" " + cell + padding + " |"] of every column, behind a bar. *)
Definition row_line (widths : list nat) (cells : list (list Z)) : list Z :=
  124 :: concat (zip_with (λ w v, 32 :: v ++ replicate (w - length v) 32 ++ [32; 124]) widths cells).

Definition separator (widths : list nat) : list Z := 43 :: concat ((λ w, replicate (w + 2) 45 ++ [43]) <$> widths).

Definition cell_of (row : Row) (col : list Z) : list Z := default [] (escape_cell <$> row !! col).

Definition no_rows : list Z := str "0 rows returned.".

Definition format_set_result (cols : list (list Z)) (result : list Row) : list Z :=
  match result with
  | [] => no_rows
  | _ =>
      let headers := escape_cell <$> cols in
      let col_widths := (λ c, Nat.max (length (escape_cell c)) (width_of ((λ row, cell_of row c) <$> result))) <$> cols in
      let sep := separator col_widths in
      sep ++ 10 :: row_line col_widths headers ++ 10 :: sep ++ 10 ::
      concat ((λ row, row_line col_widths (cell_of row <$> cols) ++ [10]) <$> result) ++
      sep ++ 10 :: to_string (Z.of_nat (length result)) ++ str " row(s) returned."
  end.

(** The answer of a SELECT that has columns and no rows. *)
Definition empty_table (columns : list (list Z)) : list Z :=
  let bar := concat ((λ column, 43 :: replicate (length (escape_cell column) + 2) 45) <$> columns) ++ [43] in
  let header := concat ((λ column, [124; 32] ++ escape_cell column ++ [32]) <$> columns) ++ [124] in
  bar ++ 10 :: header ++ 10 :: bar ++ 10 :: bar ++ 10 :: no_rows.

(** The text cut at its newlines. *)
Fixpoint split_lines (s : list Z) : list (list Z) :=
  match s with
  | [] => [[]]
  | c :: t =>
      if c =? 10 then [] :: split_lines t
      else match split_lines t with x :: l => (c :: x) :: l | [] => [[c]] end
  end.

Definition starts_line (c : Z) (line : list Z) : bool := match line with d :: _ => d =? c | [] => false end.

(** A row read back, with the version columns of a row that everybody sees. *)
Definition read_row (col_names cells : list (list Z)) : Row :=
  <[str "_xmax" := str "0"]> (<[str "_xmin" := str "0"]>
    (foldl (λ row e, <[e.2 := default [] (cells !! e.1)]> row) ∅ (imap pair col_names))).

(** The loop over the lines; [None] until the header has been read. *)
Definition read_line (st : option (list (list Z)) * list Row) (line : list Z) : option (list (list Z)) * list Row :=
  if starts_line 124 line then
    let cells := split_row line in
    match st.1 with
    | None => (Some cells, st.2)
    | Some cols => (st.1, st.2 ++ [read_row cols cells])
    end
  else st.

Definition parse_table_output (output : list Z) : list (list Z) * list Row :=
  let lines := split_lines output in
  if negb (starts_line 43 (default [] (head lines))) then ([], [])
  else let st := foldl read_line (None, []) lines in (default [] st.1, st.2).

(** The first cells of the rows under the second separator, and all cells. *)
Definition read_answer (cells_of : list Z → option (list (list Z))) (st : option (nat * list (list Z))) (line : list Z) : option (nat * list (list Z)) :=
  '(separators, vals) ← st;
  if starts_line 43 line then Some (S separators, vals)
  else if starts_line 124 line && (2 <=? separators)%nat then cells ← cells_of line; Some (separators, vals ++ cells)
  else Some (separators, vals).

Definition extract_values_from_output (output : list Z) : list (list Z) :=
  match foldl (read_answer (λ line, Some [default [] (head (split_row line))])) (Some (0%nat, [])) (split_lines output) with
  | Some (_, vals) => vals
  | None => []
  end.

(** [None]: "Operand should contain n column(s)" *)
Definition cells_of_width (width : nat) (line : list Z) : option (list (list Z)) :=
  let row := split_row line in if decide (length row = width) then Some row else None.

Definition extract_cells_from_output (output : list Z) (width : nat) : option (list (list Z)) :=
  snd <$> foldl (read_answer (cells_of_width width)) (Some (0%nat, [])) (split_lines output).

(** EXISTS: whether the answer has rows. *)
Fixpoint contains (s pat : list Z) : bool :=
  bool_decide (take (length pat) s = pat) || match s with [] => false | _ :: t => contains t pat end.

Definition has_rows (output : list Z) : bool := negb (contains output (str "0 rows returned")).

(** ** Escaped cells *)

(** What stands for a character in a cell. *)
Inductive chunk_of : list Z → Z → Prop :=
  | chunk_escape x c : (x, c) ∈ [(92, 92); (110, 10); (124, 124); (115, 32); (116, 9)] → chunk_of [92; x] c
  | chunk_plain c : c ≠ 92 → c ≠ 10 → c ≠ 124 → chunk_of [c] c.

Lemma escape_char_chunk first last i c : chunk_of (escape_char_at first last i c) c.
Proof.
  unfold escape_char_at. set (at_an_end := match first, last with Some f, Some l => _ | _, _ => _ end).
  destruct (Z.eqb_spec c 92) as [->|H1]; [apply chunk_escape; set_solver|]. destruct (Z.eqb_spec c 10) as [->|H2]; [apply chunk_escape; set_solver|].
  destruct (Z.eqb_spec c 124) as [->|H3]; [apply chunk_escape; set_solver|].
  destruct ((c =? 32) && at_an_end) eqn:E4; [apply andb_true_iff in E4 as [->%Z.eqb_eq _]; apply chunk_escape; set_solver|].
  destruct ((c =? 9) && at_an_end) eqn:E5; [apply andb_true_iff in E5 as [->%Z.eqb_eq _]; apply chunk_escape; set_solver|]. by apply chunk_plain.
Qed.

Lemma escape_cell_chunks v : ∃ ks, escape_cell v = concat ks ∧ Forall2 chunk_of ks v.
Proof.
  unfold escape_cell. exists (imap (escape_char_at (first_not_blank v) (last_not_blank v)) v). split; [done|].
  generalize (first_not_blank v), (last_not_blank v). intros f l. apply Forall2_same_length_lookup. rewrite length_imap. split; [done|].
  intros i k c Hk Hc. rewrite list_lookup_imap, Hc in Hk. injection Hk as <-. apply escape_char_chunk.
Qed.

Lemma chunk_cases k c : chunk_of k c →
  (k = [c] ∧ c ≠ 92 ∧ c ≠ 10 ∧ c ≠ 124) ∨ (∃ x, k = [92; x] ∧ is_blank x = false ∧ x ≠ 10 ∧ ∀ t, unescape_cell (92 :: x :: t) = c :: unescape_cell t).
Proof.
  destruct 1 as [x c Hin|c H1 H2 H3]; [right|by left]. exists x. split; [done|]. rewrite !elem_of_cons, elem_of_nil in Hin.
  destruct Hin as [[= -> ->]|[[= -> ->]|[[= -> ->]|[[= -> ->]|[[= -> ->]|[]]]]]]; done.
Qed.

Lemma unescape_plain c t : c ≠ 92 → unescape_cell (c :: t) = c :: unescape_cell t.
Proof. intros Hc. destruct t as [|d t]; [done|]. cbn [unescape_cell]. by rewrite (proj2 (Z.eqb_neq c 92)). Qed.

Lemma unescape_escape v : unescape_cell (escape_cell v) = v.
Proof.
  destruct (escape_cell_chunks v) as (ks & -> & Hks). induction Hks as [|k c ks v Hk Hks IH]; [done|]. simpl.
  apply chunk_cases in Hk as [(-> & Hc & _)|(x & -> & _ & _ & Hu)]; simpl app; [by rewrite unescape_plain, IH|by rewrite Hu, IH].
Qed.

Lemma escape_no_newline v : 10 ∉ escape_cell v.
Proof.
  destruct (escape_cell_chunks v) as (ks & -> & Hks). induction Hks as [|k c ks v Hk Hks IH]; [apply not_elem_of_nil|]. simpl.
  apply chunk_cases in Hk as [(-> & _ & Hc & _)|(x & -> & _ & Hx & _)]; simpl app; rewrite !not_elem_of_cons; repeat split; try done; lia.
Qed.

Lemma cut_plain c t : c ≠ 92 → c ≠ 124 → cut_at_bar (c :: t) = (c :: (cut_at_bar t).1, (cut_at_bar t).2).
Proof.
  intros H1 H2. destruct t as [|d t]; cbn [cut_at_bar]; rewrite ?(proj2 (Z.eqb_neq c 92)), (proj2 (Z.eqb_neq c 124)) by done; [done|].
  by destruct (match t with [] => _ | _ => _ end).
Qed.

Lemma cut_escape x t : cut_at_bar (92 :: x :: t) = (92 :: x :: (cut_at_bar t).1, (cut_at_bar t).2).
Proof. cbn [cut_at_bar]. rewrite Z.eqb_refl. by destruct (cut_at_bar t). Qed.

Lemma cut_bar t : cut_at_bar (124 :: t) = ([], Some t).
Proof. by destruct t. Qed.

Lemma cut_escaped v t : cut_at_bar (escape_cell v ++ t) = (escape_cell v ++ (cut_at_bar t).1, (cut_at_bar t).2).
Proof.
  destruct (escape_cell_chunks v) as (ks & -> & Hks). induction Hks as [|k c ks v Hk Hks IH]; simpl; [by destruct (cut_at_bar t)|].
  rewrite <- app_assoc. apply chunk_cases in Hk as [(-> & H1 & _ & H2)|(x & -> & _)]; simpl app; [by rewrite cut_plain, IH|by rewrite cut_escape, IH].
Qed.

Lemma cut_spaces n t : cut_at_bar (replicate n 32 ++ t) = (replicate n 32 ++ (cut_at_bar t).1, (cut_at_bar t).2).
Proof. induction n as [|n IH]; [simpl; by destruct (cut_at_bar t)|]. cbn [replicate app]. by rewrite cut_plain, IH. Qed.

(** ** No blank at an end of an escaped cell *)

Definition no_blank_ends (e : list Z) : Prop :=
  (∀ c t, e = c :: t → is_blank c = false) ∧ (∀ c t, e = t ++ [c] → is_blank c = false).

Lemma last_not_blank_spec s l : last_not_blank s = Some l → ∃ c, s !! l = Some c ∧ is_blank c = false.
Proof.
  revert l. induction s as [|c s IH]; intros l; simpl; [done|]. destruct (last_not_blank s) as [i|].
  - intros [= <-]. by apply IH.
  - destruct (is_blank c) eqn:E; [done|]. intros [= <-]. by exists c.
Qed.

Lemma escape_blank first last i c :
  is_blank c = true → match first, last with Some f, Some l => (i <? f)%nat || (l <? i)%nat | _, _ => true end = true →
  ∃ x, escape_char_at first last i c = [92; x] ∧ is_blank x = false.
Proof.
  intros Hc He. unfold escape_char_at. rewrite He. unfold is_blank in Hc. apply orb_true_iff in Hc as [-> %Z.eqb_eq| -> %Z.eqb_eq]; by eexists.
Qed.

Lemma escape_ends v : no_blank_ends (escape_cell v).
Proof.
  unfold escape_cell. split.
  - intros c t E. destruct v as [|d v]; [done|]. set (f := first_not_blank (d :: v)) in E. set (l := last_not_blank (d :: v)) in E.
    change (escape_char_at f l 0 d ++ concat (imap (escape_char_at f l ∘ S) v) = c :: t) in E. destruct (is_blank d) eqn:Ed.
    + destruct (escape_blank f l 0 d Ed) as (x & Hx & _).
      { unfold f. simpl. rewrite Ed. by destruct (first_not_blank v), l. }
      rewrite Hx in E. by injection E as <- _.
    + pose proof (escape_char_chunk f l 0 d) as Hk.
      apply chunk_cases in Hk as [(Hk & _)|(x & Hk & _)]; rewrite Hk in E; by injection E as <- _.
  - intros c t E. destruct v as [|d v _] using rev_ind; [by destruct t|]. rewrite imap_app, concat_app in E. simpl in E. rewrite app_nil_r, Nat.add_0_r in E.
    set (f := first_not_blank _) in E. destruct (is_blank d) eqn:Ed.
    + destruct (escape_blank f (last_not_blank (v ++ [d])) (length v) d Ed) as (x & Hx & Hxb).
      { destruct f; [|done]. destruct (last_not_blank (v ++ [d])) as [l|] eqn:El; [|done]. apply last_not_blank_spec in El as (c' & Hl & Hc').
        apply orb_true_iff. right. apply Nat.ltb_lt. destruct (decide (l < length v)%nat); [done|].
        rewrite lookup_app_r in Hl by lia. destruct (l - length v)%nat; [injection Hl as ->; congruence|done]. }
      rewrite Hx in E. replace [92; x] with ([92] ++ [x]) in E by done. rewrite app_assoc in E. apply app_inj_tail in E as [_ <-]. done.
    + pose proof (escape_char_chunk f (last_not_blank (v ++ [d])) (length v) d) as Hk.
      apply chunk_cases in Hk as [(Hk & _)|(x & Hk & Hxb & _)]; rewrite Hk in E.
      * apply app_inj_tail in E as [_ <-]. done.
      * replace [92; x] with ([92] ++ [x]) in E by done. rewrite app_assoc in E. apply app_inj_tail in E as [_ <-]. done.
Qed.

Lemma skip_blanks_spaces n t : skip_blanks (replicate n 32 ++ t) = skip_blanks t.
Proof. induction n as [|n IH]; [done|]. simpl. by rewrite IH. Qed.

Lemma trim_padded e n m : no_blank_ends e → trim (replicate n 32 ++ e ++ replicate m 32) = e.
Proof.
  intros [H1 H2]. unfold trim. rewrite skip_blanks_spaces. destruct e as [|c e].
  { simpl. rewrite <- (app_nil_r (replicate m 32)), skip_blanks_spaces. done. }
  simpl. rewrite (H1 c e eq_refl). rewrite app_comm_cons, reverse_app, reverse_replicate, skip_blanks_spaces.
  destruct (exists_last (l := c :: e) ltac:(done)) as (t & d & E). rewrite E, reverse_snoc. simpl. rewrite (H2 d t E).
  rewrite <- reverse_snoc. apply reverse_involutive.
Qed.

(** ** Lines *)

(** A column's piece of a row's line. *)
Definition piece (w : nat) (v : list Z) : list Z := 32 :: v ++ replicate (w - length v) 32 ++ [32].

Lemma row_line_pieces ws vs : row_line ws vs = 124 :: concat (zip_with (λ w v, piece w v ++ [124]) ws vs).
Proof.
  unfold row_line, piece. do 2 f_equal. revert vs. induction ws as [|w ws IH]; intros [|v vs]; try done. simpl. f_equal; [|apply IH].
  f_equal. by rewrite <- !app_assoc.
Qed.

Lemma trim_piece w v : trim (piece w (escape_cell v)) = escape_cell v.
Proof.
  unfold piece. rewrite <- (trim_padded (escape_cell v) 1 (S (w - length (escape_cell v))) (escape_ends v)) at 3. simpl replicate.
  f_equal. change (32 :: replicate ?n 32) with ([32] ++ replicate n 32). by rewrite <- replicate_cons_app.
Qed.

Lemma cut_piece w v t : cut_at_bar (piece w (escape_cell v) ++ 124 :: t) = (piece w (escape_cell v), Some t).
Proof.
  unfold piece. cbn [app]. rewrite cut_plain by done. rewrite <- !app_assoc, cut_escaped, cut_spaces. cbn [app]. rewrite cut_plain, cut_bar by done. done.
Qed.

Lemma split_pieces ws vs fuel :
  length ws = length vs → (length vs < fuel)%nat →
  split_loop fuel (concat (zip_with (λ w v, piece w v ++ [124]) ws (escape_cell <$> vs))) = vs.
Proof.
  revert ws fuel. induction vs as [|v vs IH]; intros [|w ws] [|fuel] Hl Hf; try done; [simpl in Hf; lia|]. simpl in Hf.
  cbn [fmap list_fmap zip_with concat split_loop]. rewrite <- app_assoc. cbn [app]. rewrite cut_piece.
  unfold piece_cells. unfold piece at 1. rewrite trim_piece, unescape_escape. cbn [app]. f_equal. apply IH; [by injection Hl|lia].
Qed.

Lemma length_pieces (ws : list nat) (vs : list (list Z)) : length ws = length vs → (length vs <= length (concat (zip_with (λ w v, piece w v ++ [124%Z]) ws vs)))%nat.
Proof.
  revert ws. induction vs as [|v vs IH]; intros [|w ws] Hl; try done. injection Hl as Hl. specialize (IH ws Hl).
  cbn [zip_with concat]. rewrite !length_app. cbn [length]. lia.
Qed.

Lemma split_first fuel l : split_loop (S fuel) (124 :: l) = split_loop fuel l.
Proof. cbn [split_loop]. by rewrite cut_bar. Qed.

(** A row's line is taken apart into the values. *)
Lemma split_row_line ws vs : length ws = length vs → split_row (row_line ws (escape_cell <$> vs)) = vs.
Proof.
  intros Hl. rewrite row_line_pieces. unfold split_row. rewrite split_first.
  apply split_pieces; [done|]. pose proof (length_pieces ws (escape_cell <$> vs)) as H. rewrite length_fmap in H. specialize (H Hl). cbn [length]. lia.
Qed.

Lemma split_lines_app a b : 10 ∉ a → split_lines (a ++ 10 :: b) = a :: split_lines b.
Proof.
  induction a as [|c a IH]; intros Ha; [done|]. rewrite not_elem_of_cons in Ha. destruct Ha as [Hc Ha]. cbn [app split_lines].
  rewrite (proj2 (Z.eqb_neq c 10)) by congruence. by rewrite IH.
Qed.

Lemma split_lines_last a : 10 ∉ a → split_lines a = [a].
Proof.
  induction a as [|c a IH]; intros Ha; [done|]. rewrite not_elem_of_cons in Ha. destruct Ha as [Hc Ha]. cbn [split_lines].
  rewrite (proj2 (Z.eqb_neq c 10)) by congruence. by rewrite IH.
Qed.

Lemma split_lines_lines ls b : Forall (λ l, 10 ∉ l) ls → split_lines (concat ((λ l, l ++ [10]) <$> ls) ++ b) = ls ++ split_lines b.
Proof. induction 1 as [|l ls Hl _ IH]; [done|]. cbn [fmap list_fmap concat]. rewrite <- !app_assoc. cbn [app]. rewrite split_lines_app by done. f_equal. exact IH. Qed.

Lemma replicate_no_newline n c : c ≠ 10 → 10 ∉ replicate n c.
Proof. intros Hc [Hn _]%elem_of_replicate. by apply Hc. Qed.

Lemma piece_no_newline w v : 10 ∉ v → 10 ∉ piece w v.
Proof.
  intros Hv. unfold piece. rewrite not_elem_of_cons, !not_elem_of_app, list_elem_of_singleton. split_and!; try done. by apply replicate_no_newline.
Qed.

Lemma row_line_no_newline ws vs : Forall (λ v, 10 ∉ v) vs → 10 ∉ row_line ws vs.
Proof.
  intros Hv. rewrite row_line_pieces, not_elem_of_cons. split; [done|]. revert ws.
  induction Hv as [|v vs Hv _ IH]; intros [|w ws]; try apply not_elem_of_nil. cbn [zip_with concat].
  rewrite !not_elem_of_app, list_elem_of_singleton. split_and!; [by apply piece_no_newline|done|apply IH].
Qed.

Lemma separator_no_newline ws : 10 ∉ separator ws.
Proof.
  unfold separator. rewrite not_elem_of_cons. split; [done|]. induction ws as [|w ws IH]; [apply not_elem_of_nil|]. cbn [fmap list_fmap concat].
  rewrite !not_elem_of_app, list_elem_of_singleton. split_and!; [by apply replicate_no_newline|done|exact IH].
Qed.

(** ** The lines of a table *)

Definition footer (n : nat) : list Z := to_string (Z.of_nat n) ++ str " row(s) returned.".

Lemma footer_spec n : (10 ∉ footer n) ∧ (starts_line 43 (footer n) = false) ∧ (starts_line 124 (footer n) = false).
Proof.
  destruct (to_string_spec (Z.of_nat n) ltac:(lia)) as (Hne & Hd & _). unfold footer. split.
  - rewrite not_elem_of_app. split; [|apply (bool_decide_unpack _); by vm_compute]. intros Hin. rewrite Forall_forall in Hd. specialize (Hd 10 Hin). done.
  - destruct (to_string (Z.of_nat n)) as [|c t]; [done|]. apply Forall_cons in Hd as [Hc _]. unfold is_digit in Hc. simpl. split; lia.
Qed.

Definition table_widths (cols : list (list Z)) (result : list Row) : list nat :=
  (λ c, Nat.max (length (escape_cell c)) (width_of ((λ row, cell_of row c) <$> result))) <$> cols.

(** The values of a row, in the order of the columns. *)
Definition row_values (cols : list (list Z)) (row : Row) : list (list Z) := (λ c, default [] (row !! c)) <$> cols.

Lemma row_cells cols row : cell_of row <$> cols = escape_cell <$> row_values cols row.
Proof. unfold row_values, cell_of. rewrite <- list_fmap_compose. apply list_fmap_ext. intros _ c _. simpl. by destruct (row !! c). Qed.

Lemma table_lines cols row result :
  let ws := table_widths cols (row :: result) in
  split_lines (format_set_result cols (row :: result)) =
  [separator ws; row_line ws (escape_cell <$> cols); separator ws] ++
  ((λ row, row_line ws (escape_cell <$> row_values cols row)) <$> (row :: result)) ++ [separator ws; footer (length (row :: result))].
Proof.
  intros ws. set (rows := row :: result) in *.
  assert (E : format_set_result cols rows =
    concat ((λ l, l ++ [10]) <$> [separator ws; row_line ws (escape_cell <$> cols); separator ws] ++
      ((λ row, row_line ws (escape_cell <$> row_values cols row)) <$> rows) ++ [separator ws]) ++ footer (length rows)).
  { unfold format_set_result, rows at 1. cbv zeta. fold rows. change (λ c, Nat.max _ _) with (λ c, Nat.max (length (escape_cell c)) (width_of ((λ row, cell_of row c) <$> rows))).
    fold (table_widths cols rows). fold ws. rewrite !fmap_app, !concat_app. cbn [fmap list_fmap concat]. rewrite !app_nil_r, <- !app_assoc. cbn [app].
    do 7 f_equal. rewrite <- list_fmap_compose. f_equal. apply list_fmap_ext. intros _ r _. simpl. by rewrite row_cells. }
  rewrite E, split_lines_lines, split_lines_last; [|apply footer_spec|].
  - by rewrite <- !app_assoc.
  - assert (Hrow : ∀ vs, 10 ∉ row_line ws (escape_cell <$> vs)).
    { intros vs. apply row_line_no_newline, Forall_fmap, Forall_true. intros v. apply escape_no_newline. }
    pose proof (separator_no_newline ws). rewrite !Forall_app. split_and!.
    + repeat (apply Forall_cons; split; [done || apply Hrow|]). by apply Forall_nil.
    + apply Forall_fmap, Forall_true. intros r. apply Hrow.
    + apply Forall_cons. split; [done|by apply Forall_nil].
Qed.

Lemma row_line_starts ws vs : starts_line 124 (row_line ws vs) = true ∧ starts_line 43 (row_line ws vs) = false.
Proof. done. Qed.

Lemma separator_starts ws : starts_line 124 (separator ws) = false ∧ starts_line 43 (separator ws) = true.
Proof. done. Qed.

(** A row as it is read back. *)
Definition shown_row (cols : list (list Z)) (row : Row) : Row := read_row cols (row_values cols row).

Lemma shown_row_lookup cols row c :
  c ≠ str "_xmin" → c ≠ str "_xmax" → shown_row cols row !! c = if bool_decide (c ∈ cols) then Some (default [] (row !! c)) else None.
Proof.
  intros H1 H2. unfold shown_row, read_row. rewrite !lookup_insert_ne by done.
  enough (H : ∀ vals : list (list Z), (∀ i c', cols !! i = Some c' → default [] (vals !! i) = default [] (row !! c')) →
    foldl (λ (r : Row) e, <[e.2 := default [] (vals !! e.1)]> r) (∅ : Row) (imap pair cols) !! c = if bool_decide (c ∈ cols) then Some (default [] (row !! c)) else None).
  { apply H. intros i c' Hi. unfold row_values. rewrite list_lookup_fmap, Hi. done. }
  intros vals. induction cols as [|c' cols IH] using rev_ind; intros Hv; [done|].
  assert (IH' := IH (λ i c0 Hi, Hv i c0 (lookup_app_l_Some _ _ _ _ Hi))). clear IH.
  rewrite imap_app, foldl_app. simpl. rewrite Nat.add_0_r. destruct (decide (c = c')) as [->|Hne].
  - rewrite lookup_insert_eq, bool_decide_eq_true_2 by (apply elem_of_app; right; by apply list_elem_of_singleton).
    rewrite (Hv (length cols) c'); [done|]. by rewrite lookup_app_r, Nat.sub_diag.
  - rewrite lookup_insert_ne by done. rewrite IH'. erewrite bool_decide_ext; [done|]. rewrite elem_of_app, list_elem_of_singleton. tauto.
Qed.

Lemma read_border st ws : read_line st (separator ws) = st.
Proof. unfold read_line. by rewrite (proj1 (separator_starts ws)). Qed.

Lemma read_footer st k : read_line st (footer k) = st.
Proof. unfold read_line. by destruct (footer_spec k) as (_ & _ & ->). Qed.

Lemma read_heading rows ws cols : length ws = length cols → read_line (None, rows) (row_line ws (escape_cell <$> cols)) = (Some cols, rows).
Proof. intros Hl. unfold read_line. by rewrite (proj1 (row_line_starts _ _)), split_row_line. Qed.

Lemma read_lines ws cols result :
  length ws = length cols →
  foldl read_line (Some cols, []) ((λ row, row_line ws (escape_cell <$> row_values cols row)) <$> result) = (Some cols, shown_row cols <$> result).
Proof.
  intros Hl. enough (H : ∀ acc, foldl read_line (Some cols, acc) ((λ row, row_line ws (escape_cell <$> row_values cols row)) <$> result) =
    (Some cols, acc ++ (shown_row cols <$> result))) by apply H.
  induction result as [|row result IH]; intros acc; [by rewrite app_nil_r|]. cbn [fmap list_fmap foldl]. unfold read_line at 2.
  rewrite (proj1 (row_line_starts _ _)), split_row_line by (unfold row_values; by rewrite length_fmap). cbn [fst snd]. rewrite IH, <- app_assoc. done.
Qed.

Section answers.
Context (cells_of : list Z → option (list (list Z))).

Lemma answer_border ws n vals : read_answer cells_of (Some (n, vals)) (separator ws) = Some (S n, vals).
Proof. unfold read_answer. cbn [mbind option_bind]. by rewrite (proj2 (separator_starts ws)). Qed.

Lemma answer_heading ws vs n vals : (n < 2)%nat → read_answer cells_of (Some (n, vals)) (row_line ws vs) = Some (n, vals).
Proof.
  intros Hn. unfold read_answer. cbn [mbind option_bind]. rewrite (proj1 (row_line_starts _ _)), (proj2 (row_line_starts _ _)), (proj2 (Nat.leb_gt 2 n)) by done. done.
Qed.

Lemma answer_row ws vs n vals cells :
  (2 <= n)%nat → cells_of (row_line ws vs) = Some cells → read_answer cells_of (Some (n, vals)) (row_line ws vs) = Some (n, vals ++ cells).
Proof.
  intros Hn Hc. unfold read_answer. cbn [mbind option_bind]. rewrite (proj1 (row_line_starts _ _)), (proj2 (row_line_starts _ _)), (proj2 (Nat.leb_le 2 n)) by done.
  cbn [andb]. by rewrite Hc.
Qed.

Lemma answer_footer k n vals : read_answer cells_of (Some (n, vals)) (footer k) = Some (n, vals).
Proof. unfold read_answer. cbn [mbind option_bind]. destruct (footer_spec k) as (_ & -> & ->). done. Qed.

Context (f : Row → list (list Z)).

Lemma answer_lines ws cols result n vals :
  (2 <= n)%nat → (∀ row, cells_of (row_line ws (escape_cell <$> row_values cols row)) = Some (f row)) →
  foldl (read_answer cells_of) (Some (n, vals)) ((λ row, row_line ws (escape_cell <$> row_values cols row)) <$> result) = Some (n, vals ++ concat (f <$> result)).
Proof.
  intros Hn Hf. revert vals. induction result as [|row result IH]; intros vals; [cbn; by rewrite app_nil_r|]. cbn [fmap list_fmap foldl concat].
  rewrite (answer_row _ _ _ _ (f row)) by done. rewrite IH. by rewrite <- app_assoc.
Qed.

Lemma answer_table cols row result :
  let ws := table_widths cols (row :: result) in
  (∀ row, cells_of (row_line ws (escape_cell <$> row_values cols row)) = Some (f row)) →
  ∃ n, foldl (read_answer cells_of) (Some (0%nat, [])) (split_lines (format_set_result cols (row :: result))) = Some (n, concat (f <$> (row :: result))).
Proof.
  intros ws Hf. rewrite table_lines. fold ws. set (rows := row :: result). rewrite !foldl_app. cbn [foldl].
  rewrite answer_border, answer_heading, answer_border, answer_lines, answer_border, answer_footer by (done || lia). by eexists.
Qed.
End answers.

(** The columns of a table without rows: a row of the width of its cells. *)
Lemma empty_bar cols : concat ((λ column, 43 :: replicate (length (escape_cell column) + 2) 45) <$> cols) ++ [43] = separator ((λ c, length (escape_cell c)) <$> cols).
Proof.
  unfold separator. induction cols as [|c cols IH]; [done|]. cbn [fmap list_fmap concat app]. f_equal. rewrite <- !app_assoc. cbn [app]. f_equal. exact IH.
Qed.

Lemma empty_header cols :
  concat ((λ column, [124; 32] ++ escape_cell column ++ [32]) <$> cols) ++ [124] = row_line ((λ c, length (escape_cell c)) <$> cols) (escape_cell <$> cols).
Proof.
  unfold row_line. induction cols as [|c cols IH]; [done|]. cbn [fmap list_fmap concat app zip_with]. do 2 f_equal. rewrite Nat.sub_diag. cbn [replicate app].
  rewrite <- !app_assoc. f_equal. cbn [app]. f_equal. exact IH.
Qed.

Lemma empty_lines cols :
  let ws := (λ c, length (escape_cell c)) <$> cols in
  split_lines (empty_table cols) = [separator ws; row_line ws (escape_cell <$> cols); separator ws; separator ws; no_rows].
Proof.
  intros ws. unfold empty_table. rewrite empty_bar, empty_header. fold ws.
  assert (Hr : 10 ∉ row_line ws (escape_cell <$> cols)) by (apply row_line_no_newline, Forall_fmap, Forall_true; intros v; apply escape_no_newline).
  rewrite !split_lines_app by (done || apply separator_no_newline). done.
Qed.

Lemma read_empty_table cols : parse_table_output (empty_table cols) = (cols, []).
Proof.
  unfold parse_table_output. rewrite empty_lines. cbv zeta. set (lines := _ :: _). change (negb (starts_line 43 (default [] (head lines)))) with false.
  unfold lines. cbn [foldl]. rewrite !read_border, read_heading by (by rewrite length_fmap). done.
Qed.

(** ** Properties *)

(** C26: an answer is read back as it was. The text of a table of any rows, whatever bytes their values hold (bars, backslashes, newlines,
    blanks at their ends, nothing at all), is taken apart into its columns and, in order, its rows with the version columns of rows
    that all see; the values a subquery takes from it are those of the first column, and the cells those of all columns. A
    table without rows is read as no columns and no rows, unless it was written with its columns ([empty_table]). *)
Theorem result_text_roundtrip cols result :
  parse_table_output (format_set_result cols result) = (match result with [] => [] | _ => cols end, shown_row cols <$> result) ∧
  extract_values_from_output (format_set_result cols result) = (λ row, default [] (head (row_values cols row))) <$> result ∧
  extract_cells_from_output (format_set_result cols result) (length cols) = Some (concat (row_values cols <$> result)) ∧
  parse_table_output (empty_table cols) = (cols, []).
Proof.
  rewrite read_empty_table.
  destruct result as [|row result]; [by vm_compute|]. set (ws := table_widths cols (row :: result)).
  assert (Hlen : length ws = length cols) by (unfold ws, table_widths; by rewrite length_fmap).
  assert (Hsplit : ∀ r, split_row (row_line ws (escape_cell <$> row_values cols r)) = row_values cols r).
  { intros r. apply split_row_line. unfold row_values. by rewrite length_fmap. }
  split_and!.
  - unfold parse_table_output. rewrite table_lines. fold ws. cbv zeta. cbn [app]. set (lines := _ :: _).
    change (negb (starts_line 43 (default [] (head lines)))) with false. unfold lines. cbn [foldl].
    rewrite !read_border, read_heading by done. rewrite foldl_app, read_lines by done. cbn [foldl]. by rewrite read_border, read_footer.
  - unfold extract_values_from_output.
    destruct (answer_table (λ line, Some [default [] (head (split_row line))]) (λ r, [default [] (head (row_values cols r))]) cols row result) as (n & ->).
    { intros r. fold ws. by rewrite Hsplit. }
    clear. induction (row :: result) as [|r rows IH]; [done|]. cbn [fmap list_fmap concat app]. f_equal. exact IH.
  - unfold extract_cells_from_output.
    destruct (answer_table (cells_of_width (length cols)) (row_values cols) cols row result) as (n & ->); [|done].
    intros r. unfold cells_of_width. fold ws. rewrite Hsplit. cbv zeta. rewrite decide_True; [done|]. unfold row_values. by rewrite length_fmap.
  - done.
Qed.

(** A value with these words in it makes EXISTS false: [has_rows] looks for them anywhere in the text of the answer. *)
Example exists_reads_values :
  has_rows (format_set_result [str "note"] [{[ str "note" := str "0 rows returned" ]}]) = false.
Proof. by vm_compute. Qed.
