(* ===== verification/JsonValue.v ===== *)
(** * JSON values (third_party/nlohmann/json.hpp, include/engine/json_support.hpp)

    A value of nlohmann::json and the members of it that the engine calls: the conversions of the standard types, an object (a
    std::map, so its members are in the order of their keys), [at], [contains], [value] and [get]. An exception is an [Err]. *)
From S2P Require Import Prelude.
From Stdlib Require Import SpecFloat.

#[local] Unset Elimination Schemes.

(** number_integer and number_unsigned are one constructor: what reads them casts either. *)
Inductive Json : Type :=
  | JNull
  | JBool (b : bool)
  | JInt (z : Z)
  | JFloat (d : spec_float)
  | JString (s : list Z)
  | JArray (l : list Json)
  | JObject (l : list (list Z * Json)).

#[export] Instance result_ret : MRet result := @Ok.
#[export] Instance result_bind : MBind result := λ A B f r, match r with Ok x => f x | Err e => Err e end.

Definition type_error {A} : result A := Err (str "type_error").
Definition out_of_range {A} : result A := Err (str "out_of_range").

(** ** Writing *)

(** operator[] and an assignment to it *)
Fixpoint member_set (k : list Z) (v : Json) (l : list (list Z * Json)) : list (list Z * Json) :=
  match l with
  | [] => [(k, v)]
  | (k', v') :: t =>
      match bytes_compare k k' with
      | Lt => (k, v) :: l
      | Eq => (k, v) :: t
      | Gt => (k', v') :: member_set k v t
      end
  end.

(** An initializer list of pairs; the keys are different. *)
Definition json_object (members : list (string * Json)) : Json := JObject (foldl (λ l e, member_set (str e.1) e.2 l) [] members).

(** [j\[k\] = v] of an object *)
Definition json_set (k : string) (v : Json) (j : Json) : Json := match j with JObject l => JObject (member_set (str k) v l) | _ => j end.

Definition json_vector {A} (f : A → Json) (l : list A) : Json := JArray (map f l).
Definition json_optional {A} (f : A → Json) (o : option A) : Json := match o with Some x => f x | None => JNull end.
Definition json_pair {A B} (f : A → Json) (g : B → Json) (p : A * B) : Json := JArray [f p.1; g p.2].
Definition json_strings : list (list Z) → Json := json_vector JString.
Definition json_string_opt : option (list Z) → Json := json_optional JString.
Definition json_string_pairs : list (list Z * list Z) → Json := json_vector (json_pair JString JString).

(** ** Reading *)

Fixpoint member (k : list Z) (l : list (list Z * Json)) : option Json :=
  match l with
  | [] => None
  | (k', v) :: t => match bytes_compare k k' with Eq => Some v | _ => member k t end
  end.

Definition at_ (j : Json) (k : string) : result Json :=
  match j with
  | JObject l => match member (str k) l with Some v => Ok v | None => out_of_range end
  | _ => type_error
  end.

Definition at_index (j : Json) (i : nat) : result Json :=
  match j with
  | JArray l => match l !! i with Some v => Ok v | None => out_of_range end
  | _ => type_error
  end.

Definition contains (j : Json) (k : string) : bool :=
  match j with JObject l => match member (str k) l with Some _ => true | None => false end | _ => false end.

Definition is_null (j : Json) : bool := match j with JNull => true | _ => false end.

(** is_object() and not empty(); then *begin() *)
Definition first_member (j : Json) : option (list Z * Json) := match j with JObject (e :: _) => Some e | _ => None end.

Definition get_string (j : Json) : result (list Z) := match j with JString s => Ok s | _ => type_error end.
Definition get_bool (j : Json) : result bool := match j with JBool b => Ok b | _ => type_error end.

(** static_cast of a double to an integer: the fraction is dropped. *)
Definition trunc_double (d : spec_float) : Z :=
  match d with
  | S754_finite s m e => let n := if 0 <=? e then Z.pos m * 2 ^ e else Z.pos m / 2 ^ (- e) in if s then - n else n
  | _ => 0
  end.

Definition double_of_int (z : Z) : spec_float := binary_normalize 53 1024 z 0 false.

(** get of an integer type: static_cast, whatever kind of number it is; a type of fewer bits than 64 takes a boolean too. *)
Definition get_integer (cast : Z → Z) (j : Json) : result Z :=
  match j with
  | JInt z => Ok (cast z)
  | JFloat d => Ok (cast (trunc_double d))
  | _ => type_error
  end.

Definition get_small_integer (cast : Z → Z) (j : Json) : result Z := match j with JBool b => Ok (cast (if b then 1 else 0)) | _ => get_integer cast j end.

Definition wrap_signed (w : Z) (z : Z) : Z := (z + 2 ^ (w - 1)) mod 2 ^ w - 2 ^ (w - 1).

Definition get_uint8 : Json → result Z := get_small_integer (λ z, z mod 2 ^ 8).
Definition get_uint32 : Json → result Z := get_small_integer wrap32.
Definition get_int32 : Json → result Z := get_small_integer (wrap_signed 32).
Definition get_size : Json → result Z := get_integer wrap64.
Definition get_int64 : Json → result Z := get_integer (wrap_signed 64).
Definition get_double (j : Json) : result spec_float :=
  match j with JInt z => Ok (double_of_int z) | JFloat d => Ok d | _ => type_error end.

Fixpoint get_elements {A} (g : Json → result A) (l : list Json) : result (list A) :=
  match l with
  | [] => Ok []
  | j :: l => x ← g j; xs ← get_elements g l; Ok (x :: xs)
  end.

Fixpoint get_members {A} (g : Json → result A) (l : list (list Z * Json)) : result (list (list Z * A)) :=
  match l with
  | [] => Ok []
  | (k, j) :: l => x ← g j; xs ← get_members g l; Ok ((k, x) :: xs)
  end.

(** get<std::vector<T>> *)
Definition get_vector {A} (g : Json → result A) (j : Json) : result (list A) := match j with JArray l => get_elements g l | _ => type_error end.

(** A loop over the elements of a value: those of an array or the values of an object; a value of another kind is its own only element, and null has none. *)
Definition elements_of (j : Json) : list Json :=
  match j with JArray l => l | JObject l => map snd l | JNull => [] | _ => [j] end.

(** json_support.hpp *)
Definition get_optional {A} (g : Json → result A) (j : Json) : result (option A) := if is_null j then Ok None else x ← g j; Ok (Some x).

Definition get_pair {A B} (g : Json → result A) (h : Json → result B) (j : Json) : result (A * B) :=
  a ← at_index j 0; b ← at_index j 1; x ← g a; y ← h b; Ok (x, y).

(** [j.at(k).get<T>()] *)
Definition field {A} (j : Json) (k : string) (g : Json → result A) : result A := v ← at_ j k; g v.

(** A member that older files do not have. *)
Definition field_or {A} (j : Json) (k : string) (g : Json → result A) (default : A) : result A := if contains j k then field j k g else Ok default.

(** [j.value(k, default)] *)
Definition value {A} (j : Json) (k : string) (g : Json → result A) (default : A) : result A := match j with JObject _ => field_or j k g default | _ => type_error end.

Definition item {A} (j : Json) (i : nat) (g : Json → result A) : result A := v ← at_index j i; g v.

Definition get_strings : Json → result (list (list Z)) := get_vector get_string.
Definition get_string_opt : Json → result (option (list Z)) := get_optional get_string.
Definition get_string_pairs : Json → result (list (list Z * list Z)) := get_vector (get_pair get_string get_string).

(** ** Depth *)

Fixpoint jdepth (j : Json) : nat :=
  match j with
  | JArray l => S (foldr (λ x n, Nat.max (jdepth x) n) 0%nat l)
  | JObject l => S (foldr (λ e n, Nat.max (jdepth e.2) n) 0%nat l)
  | _ => 0%nat
  end.

Definition fits (n : nat) (j : Json) : Prop := (jdepth j < n)%nat.

(** ** What is written is read

    [Reads ok to n g]: a good value is read back by [g] from what [to] writes, if that has a depth below [n]. *)
Definition Reads {A} (ok : A → bool) (to : A → Json) (n : nat) (g : Json → result A) : Prop := ∀ x, ok x = true → fits n (to x) → g (to x) = Ok x.

Definition option_ok {A} (ok : A → bool) (o : option A) : bool := match o with Some x => ok x | None => true end.

Lemma fits_mono n m j : (n <= m)%nat → fits n j → fits m j.
Proof. unfold fits. lia. Qed.

Lemma fits_pred n j : fits (pred n) j → fits n j.
Proof. apply fits_mono. lia. Qed.

Lemma fits_element n j l : fits n (JArray (j :: l)) → fits (pred n) j ∧ fits n (JArray l).
Proof. unfold fits. cbn [jdepth foldr]. lia. Qed.

Lemma fits_member n k j l : fits n (JObject ((k, j) :: l)) → fits (pred n) j ∧ fits n (JObject l).
Proof. unfold fits. cbn [jdepth foldr snd]. lia. Qed.

Lemma fits_vector {A} n (to : A → Json) l : fits n (json_vector to l) → Forall (λ x, fits n (to x)) l.
Proof.
  unfold json_vector. induction l as [|x l IH]; intros F; [done|]. apply fits_element in F as [Fx F]. constructor; [by apply fits_pred|by apply IH].
Qed.

Lemma Reads_all {A} (ok : A → bool) (to : A → Json) n g : (∀ x, ok x = true → g (to x) = Ok x) → Reads ok to n g.
Proof. intros H x Hx _. by apply H. Qed.

Lemma Reads_vector {A} (ok : A → bool) (to : A → Json) n g : Reads ok to n g → Reads (forallb ok) (json_vector to) n (get_vector g).
Proof.
  intros H l Hok F%fits_vector. unfold json_vector, get_vector. induction F as [|x l Fx F IH]; [done|]. simpl in Hok. apply andb_true_iff in Hok as [Hx Hl].
  cbn [map get_elements]. rewrite (H x) by done. cbn [mbind result_bind]. by rewrite IH.
Qed.

Lemma Reads_elements {A} (ok : A → bool) (to : A → Json) n g l :
  Reads ok to n g → forallb ok l = true → fits n (json_vector to l) → get_elements g (elements_of (json_vector to l)) = Ok l.
Proof. intros H Hok F. by apply (Reads_vector ok to n g H l Hok F). Qed.

Lemma Reads_optional {A} (ok : A → bool) (to : A → Json) n g :
  (∀ x, is_null (to x) = false) → Reads ok to n g → Reads (option_ok ok) (json_optional to) n (get_optional g).
Proof. intros Hn H [x|] Hok F; [|done]. unfold get_optional. simpl. rewrite Hn, (H x) by done. done. Qed.

Lemma Reads_pair {A B} (oka : A → bool) (okb : B → bool) (to : A → Json) (to' : B → Json) n g g' :
  Reads oka to n g → Reads okb to' n g' → Reads (λ p, oka p.1 && okb p.2) (json_pair to to') n (get_pair g g').
Proof.
  intros H H' [x y] Hok F. simpl in *. apply andb_true_iff in Hok as [Hx Hy]. unfold json_pair in *. cbn [fst snd] in *.
  apply fits_element in F as [Fx F]. apply fits_element in F as [Fy _]. unfold get_pair. cbn. by rewrite (H x), (H' y) by (done || by apply fits_pred).
Qed.

Definition any {A} (_ : A) : bool := true.

Lemma forallb_any {A} (l : list A) : forallb any l = true.
Proof. by induction l. Qed.

Lemma forallb_any_pair {A B} (l : list (A * B)) : forallb (λ p, any p.1 && any p.2) l = true.
Proof. by induction l. Qed.

Lemma option_ok_any {A} (o : option A) : option_ok any o = true.
Proof. by destruct o. Qed.

Lemma Reads_string n : Reads any JString n get_string.
Proof. by apply Reads_all. Qed.
Lemma Reads_bool n : Reads any JBool n get_bool.
Proof. by apply Reads_all. Qed.

Lemma Reads_any {A} (ok : A → bool) to n (g : Json → result A) : Reads ok to n g → (∀ x, ok x = true) → Reads any to n g.
Proof. intros H Hok x _. by apply H. Qed.

Lemma Reads_strings n : Reads any json_strings n get_strings.
Proof. apply (Reads_any (forallb any)); [apply Reads_vector, Reads_string|apply forallb_any]. Qed.

Lemma Reads_string_opt n : Reads any json_string_opt n get_string_opt.
Proof. apply (Reads_any (option_ok any)); [by apply Reads_optional; [|apply Reads_string]|by intros []]. Qed.

Lemma Reads_string_pairs n : Reads any json_string_pairs n get_string_pairs.
Proof.
  apply (Reads_any (forallb (λ p, any p.1 && any p.2))); [apply Reads_vector, Reads_pair; apply Reads_string|apply forallb_any_pair].
Qed.

Lemma bind_ok {A B} (r : result A) (k : A → result B) x y : r = Ok x → k x = y → (r ≫= k) = y.
Proof. by intros -> <-. Qed.

Lemma reads_use {A} (ok : A → bool) (to : A → Json) n g x : Reads ok to n g → ok x = true → fits n (to x) → g (to x) = Ok x.
Proof. intros H. apply H. Qed.

Create HintDb json.
#[export] Hint Resolve Reads_vector Reads_pair Reads_string Reads_bool Reads_strings Reads_string_opt Reads_string_pairs : json.
#[export] Hint Extern 1 (Reads _ (json_optional _) _ (get_optional _)) => (apply Reads_optional; [solve [reflexivity | auto with json | by intros []]|]) : json.
