(* ===== verification/Ast.v ===== *)
(** * The syntax trees of statements (include/engine/parser/ast.hpp)

    A std::variant is an inductive type with a constructor per alternative, a struct with a recursive member a
    type of one constructor, a unique_ptr to a part the part itself. The members that the binder fills (the class of a value, how many queries
    out a column lives, ...) are there as the parser leaves them. The mutable members of ArithExpr::Subquery, an answer kept for the
    running statement, are not part of its value (a copy starts without them). *)
From S2P Require Import Prelude.
From Stdlib Require Import SpecFloat.

Inductive IsolationLevel := ReadUncommitted | ReadCommitted | RepeatableRead | Serializable.

(** value_class.hpp *)
Inductive ValueClass := ClassUnknown | ClassNumber | ClassText.
Inductive ColKind := KindPlain | KindDate | KindDateTime | KindTime | KindEnum | KindSet.

#[export] Instance ValueClass_eq_dec : EqDecision ValueClass.
Proof. solve_decision. Defined.
#[export] Instance ColKind_eq_dec : EqDecision ColKind.
Proof. solve_decision. Defined.

#[local] Unset Elimination Schemes.

(** ** Columns and tables *)

Inductive DataType :=
  | TInt | TBigInt | TSmallInt | TTinyInt | TText | TFloat | TBoolean
  | TVarchar (length : Z)
  | TDate
  | TDateTime (fsp : Z)
  | TTimestamp (fsp : Z)
  | TDecimal (precision scale : Z)
  | TDouble
  | TTime (fsp : Z)
  | TYear
  | TEnum (values : list (list Z))
  | TSet (values : list (list Z))
  | TBlob | TJson | TUnknown.

Inductive FkAction := Restrict | Cascade | SetNull | SetDefault.

Record ForeignKey := mkForeignKey {
  fk_column : list Z;
  fk_ref_table : list Z;
  fk_ref_column : list Z;
  fk_on_delete : FkAction;
  fk_on_update : FkAction;
  fk_name : list Z;
  fk_restrict_delete : bool;
  fk_restrict_update : bool
}.

Record UniqueKey := mkUniqueKey { uk_name : option (list Z); uk_columns : list (list Z) }.

Record ColumnDef := mkColumnDef {
  cd_name : list Z;
  cd_data_type : DataType;
  cd_primary_key : bool;
  cd_not_null : bool;
  cd_unique : bool;
  cd_unique_constraint_name : option (list Z);
  cd_auto_increment : bool;
  cd_default_value : option (list Z);
  cd_foreign_keys : list ForeignKey;
  cd_check_expr : option (list Z);
  cd_on_update_now : bool;
  cd_is_unsigned : bool
}.

Inductive PartitionKind := PartRange | PartList | PartHash.

Record PartitionDef := mkPartitionDef {
  pd_name : list Z;
  pd_range_upper_bound : option (list Z);
  pd_range_is_maxvalue : bool;
  pd_list_values : list (list Z);
  pd_child_table : list Z
}.

Record PartitionBy := mkPartitionBy {
  pb_kind : PartitionKind;
  pb_column : list Z;
  pb_partitions : list PartitionDef;
  pb_hash_partitions : Z
}.

Record OrderBy := mkOrderBy { ob_column : list Z; ob_ascending : bool; ob_cls : ValueClass }.

Record ColumnPosition := mkColumnPosition { cp_first : bool; cp_after : option (list Z) }.

Inductive AlterAction :=
  | AddColumn (column : ColumnDef) (position : option ColumnPosition)
  | DropColumn (name : list Z)
  | RenameColumn (from to : list Z)
  | ModifyColumn (column : ColumnDef) (position : option ColumnPosition)
  | AlterRenameTable (to : list Z)
  | AddForeignKey (name : option (list Z)) (column ref_table ref_column : list Z) (on_delete on_update : FkAction) (restrict_delete restrict_update : bool)
  | DropForeignKey (name : list Z)
  | AddUniqueConstraint (name : option (list Z)) (column : list Z) (columns : list (list Z))
  | AddCheckConstraint (name : option (list Z)) (expr : list Z)
  | DropConstraint (name : list Z)
  | AddPartition (def : PartitionDef)
  | DropPartition (name : list Z)
  | NoOp
  | AddIndex (name : option (list Z)) (columns : list (list Z))
  | ChangeColumn (from : list Z) (column : ColumnDef) (position : option ColumnPosition)
  | AlterSetDefault (column : list Z) (value : option (list Z))
  | SetAutoIncrement (next : Z).

(** ** Windows *)

Inductive FrameBound :=
  | UnboundedPreceding
  | Preceding (n : Z) (amount : spec_float) (unit : list Z)
  | CurrentRow
  | Following (n : Z) (amount : spec_float) (unit : list Z)
  | UnboundedFollowing.

Inductive FrameUnit := FrameRows | FrameRange.

Record WindowFrame := mkWindowFrame { wf_unit : FrameUnit; wf_start : FrameBound; wf_end : FrameBound }.

Inductive WindowFunc :=
  | WfRowNumber | WfRank | WfDenseRank | WfLag | WfLead | WfFirstValue | WfLastValue | WfNthValue | WfNtile
  | WfPercentRank | WfCumeDist | WfSum | WfAvg | WfCount | WfMin | WfMax.

Inductive Operator :=
  | OpEq | OpNe | OpGt | OpLt | OpGte | OpLte | OpIn | OpNotIn | OpLike | OpNotLike | OpBetween | OpNotBetween
  | OpIsNull | OpIsNotNull | OpExists | OpNotExists | OpRegexp | OpNotRegexp.

Inductive Quantifier := QuantNone | QuantAny | QuantAll.
Inductive JoinType := JoinInner | JoinLeft | JoinRight | JoinCross | JoinNatural | JoinFullOuter.
Inductive TriggerTiming := Before | After.
Inductive TriggerEvent := OnInsert | OnUpdate | OnDelete.

(** ** Expressions, conditions, select items and statements *)

Inductive ArithExpr :=
  | Col (name : list Z) (cls : ValueClass) (outer : Z) (approx : bool) (kind : ColKind) (members : option (list (list Z))) (fsp : Z) (single : bool)
  | Num (value : list Z)
  | Str (value : list Z)
  | Add (lhs rhs : ArithExpr)
  | Sub (lhs rhs : ArithExpr)
  | Mul (lhs rhs : ArithExpr)
  | Div (lhs rhs : ArithExpr)
  | Func (name : list Z) (args : list ArithExpr)
  | Cmp (lhs : ArithExpr) (op : list Z) (rhs : ArithExpr)
  | Pred (cond : CondExpr)
  | ArithSubquery (query : Statement) (cls : ValueClass)

with ConditionValue :=
  | Literal (value : list Z) (quoted : bool) (outer : Z)
  | ValueSubquery (query : Statement)
  | Between (lo hi : list Z) (lo_quoted hi_quoted : bool)
  | LiteralList (values : list (list Z)) (quoted : list bool)
  | Arith (expr : ArithExpr)

with Condition := mkCondition (left : ArithExpr) (op : Operator) (value : ConditionValue) (left_class right_class : ValueClass) (quantifier : Quantifier)

with CondExpr :=
  | And (lhs rhs : CondExpr)
  | Or (lhs rhs : CondExpr)
  | Not (inner : CondExpr)
  | Leaf (condition : Condition)

with Join := mkJoin (table : list Z) (on_expr : CondExpr) (join_type : JoinType) (using_cols : list (list Z))
    (subquery : option (Statement * list Z)) (lateral : bool) (alias : list Z)

with CaseWhenBranch := mkCaseWhenBranch (condition : CondExpr) (result : list Z)

with AggFunc :=
  | AggCount | AggCountDistinct | AggSum | AggAvg | AggMin | AggMax | AggSumDistinct | AggAvgDistinct
  | AggStddev (sample : bool)
  | AggVariance (sample : bool)
  | AggGroupConcat (separator : list Z) (distinct : bool) (order_by : list (list Z * bool))
  | AggCountCase (branches : list CaseWhenBranch) (else_val : option (list Z))
  | AggSumCase (branches : list CaseWhenBranch) (else_val : option (list Z))
  | AggBitAnd | AggBitOr | AggJsonAgg | AggArrayAgg | AggMedian

with InsertConflict :=
  | ConflictAbort
  | ConflictIgnore
  | ConflictUpdate (assignments : list (list Z * ArithExpr))
  | ConflictReplace

with SelectColumn :=
  | SelAll (table : list Z)
  | SelColumn (name : list Z) (cls : ValueClass) (outer : Z)
  | SelColumnAlias (name alias : list Z) (cls : ValueClass) (outer : Z)
  | SelAgg (func : AggFunc) (col : list Z) (filter : option CondExpr) (source : list Z) (arg_class : ValueClass) (arg_approx arg_single : bool)
  | SelAggAlias (func : AggFunc) (col alias : list Z) (filter : option CondExpr) (source : list Z) (arg_class : ValueClass) (arg_approx arg_single : bool)
  | SelFunc (name : list Z) (args : list (list Z)) (alias : option (list Z))
  | SelExpr (expr : ArithExpr) (alias : option (list Z))
  | SelCaseWhen (branches : list CaseWhenBranch) (else_val alias : option (list Z))
  | SelWinFunc (func : WindowFunc) (col : option (list Z)) (offset : Z) (partition_by : list (list Z)) (order_by : list OrderBy) (alias : option (list Z))
      (frame : option WindowFrame) (col_class : ValueClass) (default_value : option (list Z)) (col_approx col_single : bool)
  | SelSubquery (query : Statement) (alias : option (list Z))

with Statement :=
  | Begin | Commit | Rollback
  | CreateTable (name : list Z) (columns : list ColumnDef) (if_not_exists : bool) (primary_key_columns : list (list Z))
      (check_constraints : list (option (list Z) * list Z)) (partition_by : option PartitionBy) (unique_keys : list UniqueKey)
      (auto_increment_start : option Z) (indexes : list UniqueKey)
  | DropTable (name : list Z) (if_exists : bool) (more : list (list Z))
  | TruncateTable (name : list Z)
  | Insert (table : list Z) (columns : option (list (list Z))) (values : list (list (list Z))) (on_conflict : InsertConflict) (returning : option (list SelectColumn))
  | InsertSelect (table : list Z) (columns : option (list (list Z))) (query : Statement) (on_conflict : InsertConflict) (returning : option (list SelectColumn))
  | Select (table : list Z) (subquery : option (Statement * list Z)) (columns : list SelectColumn) (distinct : bool) (condition : option CondExpr)
      (joins : list Join) (order_by : list OrderBy) (group_by : option (list (list Z))) (having : option CondExpr) (limit offset : option Z)
      (for_update for_share sort_resolved : bool) (table_alias : list Z) (table_aliases : list (list Z * list Z)) (with_rollup : bool)
  | Update (table : list Z) (assignments : list (list Z * ArithExpr)) (condition : option CondExpr) (returning : option (list SelectColumn))
      (table_aliases : list (list Z * list Z)) (order_by : list OrderBy) (limit : option Z)
  | Delete (table : list Z) (condition : option CondExpr) (returning : option (list SelectColumn)) (table_aliases : list (list Z * list Z))
      (order_by : list OrderBy) (limit : option Z)
  | AlterTable (table : list Z) (action : AlterAction) (more : list AlterAction)
  | CreateIndex (index_name table : list Z) (columns : list (list Z)) (using_hash : bool)
  | DropIndex (index_name : list Z) (table : option (list Z))
  | CreateView (name : list Z) (query : Statement) (raw_sql : list Z)
  | DropView (name : list Z)
  | ShowTables (database like : option (list Z))
  | Describe (table : list Z)
  | ShowBufferPool | ShowWal | Checkpoint
  | SetIsolationLevel (level : IsolationLevel)
  | ShowIsolationLevel
  | Vacuum (table : option (list Z))
  | ShowLocks
  | Use (database : list Z)
  | Savepoint (name : list Z)
  | ReleaseSavepoint (name : list Z)
  | RollbackTo (name : list Z)
  | Explain (inner : Statement)
  | ExplainAnalyze (inner : Statement)
  | AnalyzeTable (table : list Z)
  | With (ctes : list (list Z * Statement)) (query : Statement) (recursive : bool)
  | Union (left right : Statement) (all : bool) (order_by : list OrderBy) (limit offset : option Z)
  | Intersect (left right : Statement) (all : bool) (order_by : list OrderBy) (limit offset : option Z)
  | Except (left right : Statement) (all : bool) (order_by : list OrderBy) (limit offset : option Z)
  | CreateDatabase (name : list Z) (if_not_exists : bool)
  | DropDatabase (name : list Z) (if_exists : bool)
  | MultiUpdate (tables : list (list Z)) (joins : list Join) (assignments : list (list Z * ArithExpr)) (condition : option CondExpr) (table_aliases : list (list Z * list Z))
  | MultiDelete (delete_tables : list (list Z)) (from_table : list Z) (joins : list Join) (condition : option CondExpr) (table_aliases : list (list Z * list Z))
  | CreateUser (user host : list Z) (password : option (list Z)) (if_not_exists : bool)
  | DropUser (user host : list Z) (if_exists : bool)
  | Grant (privileges : list (list Z)) (object_type object user host : list Z) (with_grant_option : bool)
  | Revoke (privileges : list (list Z)) (object_type object user host : list Z)
  | ShowGrants (user host : option (list Z))
  | CreateRole (name : list Z)
  | DropRole (name : list Z) (if_exists : bool)
  | GrantRole (role user host : list Z) (with_admin_option : bool)
  | RevokeRole (role user host : list Z)
  | ShowRoles
  | CreateSynonym (name target : list Z) (or_replace : bool)
  | DropSynonym (name : list Z) (if_exists : bool)
  | ShowSynonyms | ShowDatabases
  | ShowCreateTable (table : list Z)
  | ShowCreateView (view : list Z)
  | ShowIndex (table : list Z)
  | Merge (target : list Z) (target_alias : option (list Z)) (source : list Z) (source_alias : option (list Z)) (on : CondExpr)
      (when_matched_update : option (list (list Z * ArithExpr))) (when_matched_delete : bool) (when_matched_delete_cond : option CondExpr)
      (when_not_matched_columns : option (list (list Z))) (when_not_matched_values : list (list Z)) (when_matched_update_cond : option CondExpr)
      (when_matched_update_first : bool)
  | CreateProcedure (name : list Z) (params : list (list Z * list Z * list Z)) (body : list Statement)
  | CallProcedure (name : list Z) (args : list (list Z))
  | CreateTrigger (name : list Z) (timing : TriggerTiming) (event : TriggerEvent) (table : list Z) (body : list Statement)
  | DropTrigger (name : list Z) (if_exists : bool)
  | DropProcedure (name : list Z) (if_exists : bool)
  | Backup (database output_file : option (list Z))
  | RestoreStmt (source_file : list Z) (database : option (list Z))
  | ShowProcessList
  | CreateFunction (name : list Z) (params : list (list Z)) (body : list Z) (param_types : list (list Z)) (return_type : list Z)
  | DropFunction (name : list Z) (if_exists : bool)
  | ProcDeclare (name typ : list Z) (default_value : option (list Z))
  | ProcSet (name : list Z) (expr : ArithExpr)
  | ProcIf (condition : CondExpr) (then_body : list Statement) (elseif_branches : list (CondExpr * list Statement)) (else_body : option (list Statement))
  | ProcWhile (label : option (list Z)) (condition : CondExpr) (body : list Statement)
  | ProcLoop (label : option (list Z)) (body : list Statement)
  | ProcRepeat (label : option (list Z)) (body : list Statement) (until : CondExpr)
  | ProcLeave (label : option (list Z))
  | ProcIterate (label : option (list Z))
  | PrepareStmt (name query : list Z)
  | ExecuteStmt (name : list Z) (using_vars : list (list Z))
  | DeallocatePrepare (name : list Z)
  | SetUserVar (name : list Z) (expr : ArithExpr)
  | LockTables (tables : list (list Z * bool))
  | UnlockTables
  | SelectInto (query : Statement) (vars : list (list Z))
  | SetVars (items : list (list Z * ArithExpr))
  | CreateTableLike (name source : list Z) (if_not_exists : bool)
  | CreateTableAs (name : list Z) (if_not_exists : bool) (columns : list ColumnDef) (query : Statement)
  | RenameTable (pairs : list (list Z * list Z)).

(** catalog/schema.hpp *)
Record CheckConstraint := mkCheckConstraint { cc_name : option (list Z); cc_expression : list Z }.

Record TableSchema := mkTableSchema {
  ts_name : list Z;
  ts_columns : list ColumnDef;
  ts_auto_increment_counters : gmap (list Z) Z;
  ts_primary_key_columns : list (list Z);
  ts_check_constraints : list CheckConstraint;
  ts_unique_keys : list UniqueKey;
  ts_partition_info : option PartitionBy
}.
