(* ===== verification/AstJson.v ===== *)
(** * The stored form of statements and schemas (src/parser/ast_json.cpp, src/catalog/schema.cpp)

    Views, procedures, triggers, functions and table schemas are kept in files as JSON. Each type has a [to_json] and a [from_json];
    those of the types that hold one another are one recursion. A reader of a type that holds other expressions,
    conditions or statements takes the readers of those ([Readers]); [readers] closes the recursion with the depth of the value as fuel. *)
From S2P Require Import Prelude JsonValue Ast.
From Stdlib Require Import SpecFloat.

(** ** Tags *)

Definition is_tag (tag : list Z) (name : string) : bool := match bytes_compare tag (str name) with Eq => true | _ => false end.

(** The names of an enumeration: [default] is what an unknown name is read as. *)
Fixpoint tag_of {A} (names : list (string * A)) (default : A) (tag : list Z) : A :=
  match names with
  | [] => default
  | (n, x) :: names => if is_tag tag n then x else tag_of names default tag
  end.

Definition enum_from_json {A} (names : list (string * A)) (default : A) (j : Json) : result A := tag ← get_string j; Ok (tag_of names default tag).

Definition word (s : string) : Json := JString (str s).
Definition tagged (tag : string) (v : Json) : Json := json_object [(tag, v)].
Definition bad_tag {A} : result A := Err (str "unknown tag").

(** ** Data types, keys and columns *)

Definition with_fsp (tag : string) (fsp : Z) : Json := if fsp =? 0 then word tag else tagged tag (JInt fsp).

Definition data_type_to_json (dt : DataType) : Json :=
  match dt with
  | TInt => word "Int" | TBigInt => word "BigInt" | TSmallInt => word "SmallInt" | TTinyInt => word "TinyInt"
  | TText => word "Text" | TFloat => word "Float" | TBoolean => word "Boolean"
  | TVarchar length => tagged "Varchar" (JInt length)
  | TDate => word "Date"
  | TDateTime fsp => with_fsp "DateTime" fsp
  | TTimestamp fsp => with_fsp "Timestamp" fsp
  | TDecimal precision scale => tagged "Decimal" (JArray [JInt precision; JInt scale])
  | TDouble => word "Double"
  | TTime fsp => with_fsp "Time" fsp
  | TYear => word "Year"
  | TEnum values => tagged "Enum" (json_strings values)
  | TSet values => tagged "Set" (json_strings values)
  | TBlob => word "Blob" | TJson => word "Json" | TUnknown => word "Unknown"
  end.

Definition type_words : list (string * DataType) :=
  [("Int", TInt); ("BigInt", TBigInt); ("SmallInt", TSmallInt); ("TinyInt", TTinyInt); ("Text", TText); ("Float", TFloat); ("Boolean", TBoolean);
   ("Date", TDate); ("DateTime", TDateTime 0); ("Timestamp", TTimestamp 0); ("Double", TDouble); ("Time", TTime 0); ("Year", TYear);
   ("Blob", TBlob); ("Json", TJson)]%string.

Definition data_type_from_json (j : Json) : result DataType :=
  match j with
  | JString tag => Ok (tag_of type_words TUnknown tag)
  | _ =>
      match first_member j with
      | None => Ok TUnknown
      | Some (tag, payload) =>
          if is_tag tag "Varchar" then n ← get_uint32 payload; Ok (TVarchar n)
          else if is_tag tag "Decimal" then p ← item payload 0 get_uint8; s ← item payload 1 get_uint8; Ok (TDecimal p s)
          else if is_tag tag "DateTime" then n ← get_uint8 payload; Ok (TDateTime n)
          else if is_tag tag "Timestamp" then n ← get_uint8 payload; Ok (TTimestamp n)
          else if is_tag tag "Time" then n ← get_uint8 payload; Ok (TTime n)
          else if is_tag tag "Enum" then l ← get_strings payload; Ok (TEnum l)
          else if is_tag tag "Set" then l ← get_strings payload; Ok (TSet l)
          else Ok TUnknown
      end
  end.

Definition fk_action_to_json (a : FkAction) : Json :=
  match a with Restrict => word "Restrict" | Cascade => word "Cascade" | SetNull => word "SetNull" | SetDefault => word "SetDefault" end.

Definition fk_action_from_json : Json → result FkAction := enum_from_json [("Cascade", Cascade); ("SetNull", SetNull); ("SetDefault", SetDefault)]%string Restrict.

Definition foreign_key_to_json (fk : ForeignKey) : Json :=
  let j := json_object [("column", JString (fk_column fk)); ("ref_table", JString (fk_ref_table fk)); ("ref_column", JString (fk_ref_column fk));
                        ("on_delete", fk_action_to_json (fk_on_delete fk)); ("on_update", fk_action_to_json (fk_on_update fk)); ("name", JString (fk_name fk))] in
  let j := if fk_restrict_delete fk then json_set "restrict_delete" (JBool true) j else j in
  if fk_restrict_update fk then json_set "restrict_update" (JBool true) j else j.

Definition foreign_key_from_json (j : Json) : result ForeignKey :=
  column ← field j "column" get_string;
  ref_table ← field j "ref_table" get_string;
  ref_column ← field j "ref_column" get_string;
  on_delete ← field j "on_delete" fk_action_from_json;
  on_update ← field_or j "on_update" fk_action_from_json Restrict;
  name ← value j "name" get_string [];
  restrict_delete ← value j "restrict_delete" get_bool false;
  restrict_update ← value j "restrict_update" get_bool false;
  Ok (mkForeignKey column ref_table ref_column on_delete on_update name restrict_delete restrict_update).

Definition column_def_to_json (col : ColumnDef) : Json :=
  let j := json_object [("name", JString (cd_name col)); ("data_type", data_type_to_json (cd_data_type col)); ("primary_key", JBool (cd_primary_key col));
                        ("not_null", JBool (cd_not_null col)); ("unique", JBool (cd_unique col));
                        ("unique_constraint_name", json_string_opt (cd_unique_constraint_name col)); ("auto_increment", JBool (cd_auto_increment col));
                        ("default", json_string_opt (cd_default_value col));
                        ("foreign_key", match cd_foreign_keys col with [] => JNull | fk :: _ => foreign_key_to_json fk end);
                        ("check_expr", json_string_opt (cd_check_expr col)); ("on_update_now", JBool (cd_on_update_now col));
                        ("unsigned", JBool (cd_is_unsigned col))] in
  match cd_foreign_keys col with _ :: ((_ :: _) as more) => json_set "more_foreign_keys" (json_vector foreign_key_to_json more) j | _ => j end.

Definition column_def_from_json (j : Json) : result ColumnDef :=
  name ← field j "name" get_string;
  data_type ← field j "data_type" data_type_from_json;
  primary_key ← field j "primary_key" get_bool;
  not_null ← field j "not_null" get_bool;
  unique ← field j "unique" get_bool;
  unique_constraint_name ← field j "unique_constraint_name" get_string_opt;
  auto_increment ← field j "auto_increment" get_bool;
  default_value ← field_or j "default" get_string_opt None;
  first_key ← field j "foreign_key" (get_optional foreign_key_from_json);
  more_keys ← (if contains j "more_foreign_keys" then more ← at_ j "more_foreign_keys"; get_elements foreign_key_from_json (elements_of more) else Ok []);
  check_expr ← field_or j "check_expr" get_string_opt None;
  on_update_now ← field_or j "on_update_now" get_bool false;
  is_unsigned ← field_or j "unsigned" get_bool false;
  Ok (mkColumnDef name data_type primary_key not_null unique unique_constraint_name auto_increment default_value
        (match first_key with Some fk => [fk] | None => [] end ++ more_keys) check_expr on_update_now is_unsigned).

Definition partition_kind_to_json (k : PartitionKind) : Json := match k with PartRange => word "Range" | PartList => word "List" | PartHash => word "Hash" end.
Definition partition_kind_from_json : Json → result PartitionKind := enum_from_json [("List", PartList); ("Hash", PartHash)]%string PartRange.

Definition partition_def_to_json (d : PartitionDef) : Json :=
  json_object [("name", JString (pd_name d)); ("range_upper_bound", json_string_opt (pd_range_upper_bound d)); ("range_is_maxvalue", JBool (pd_range_is_maxvalue d));
               ("list_values", json_strings (pd_list_values d)); ("child_table", JString (pd_child_table d))].

Definition partition_def_from_json (j : Json) : result PartitionDef :=
  name ← field j "name" get_string;
  range_upper_bound ← field j "range_upper_bound" get_string_opt;
  range_is_maxvalue ← field j "range_is_maxvalue" get_bool;
  list_values ← field j "list_values" get_strings;
  child_table ← field j "child_table" get_string;
  Ok (mkPartitionDef name range_upper_bound range_is_maxvalue list_values child_table).

Definition partition_by_to_json (pb : PartitionBy) : Json :=
  json_object [("kind", partition_kind_to_json (pb_kind pb)); ("column", JString (pb_column pb));
               ("partitions", json_vector partition_def_to_json (pb_partitions pb)); ("hash_partitions", JInt (pb_hash_partitions pb))].

Definition partition_by_from_json (j : Json) : result PartitionBy :=
  kind ← field j "kind" partition_kind_from_json;
  column ← field j "column" get_string;
  partitions ← field j "partitions" (get_vector partition_def_from_json);
  hash_partitions ← field j "hash_partitions" get_int32;
  Ok (mkPartitionBy kind column partitions hash_partitions).

Definition unique_key_to_json (k : UniqueKey) : Json := json_object [("name", json_string_opt (uk_name k)); ("columns", json_strings (uk_columns k))].

Definition unique_key_from_json (j : Json) : result UniqueKey :=
  name ← field j "name" get_string_opt;
  columns ← field j "columns" get_strings;
  Ok (mkUniqueKey name columns).

Definition check_constraint_to_json (c : CheckConstraint) : Json := json_object [("name", json_string_opt (cc_name c)); ("expression", JString (cc_expression c))].

Definition check_constraint_from_json (j : Json) : result CheckConstraint :=
  name ← field j "name" get_string_opt;
  expression ← field j "expression" get_string;
  Ok (mkCheckConstraint name expression).

(** A std::unordered_map<std::string, std::int64_t>: an object. *)
Definition counters_to_json (m : gmap (list Z) Z) : Json := JObject (foldr (λ e l, member_set e.1 (JInt e.2) l) [] (map_to_list m)).

Definition counters_from_json (j : Json) : result (gmap (list Z) Z) :=
  match j with JObject l => members ← get_members get_int64 l; Ok (list_to_map members) | _ => type_error end.

Definition table_schema_to_json (s : TableSchema) : Json :=
  json_object [("name", JString (ts_name s)); ("columns", json_vector column_def_to_json (ts_columns s));
               ("auto_increment_counters", counters_to_json (ts_auto_increment_counters s)); ("primary_key_columns", json_strings (ts_primary_key_columns s));
               ("check_constraints", json_vector check_constraint_to_json (ts_check_constraints s));
               ("unique_keys", json_vector unique_key_to_json (ts_unique_keys s));
               ("partition_info", json_optional partition_by_to_json (ts_partition_info s))].

Definition table_schema_from_json (j : Json) : result TableSchema :=
  name ← field j "name" get_string;
  columns ← field j "columns" (get_vector column_def_from_json);
  auto_increment_counters ← field j "auto_increment_counters" counters_from_json;
  primary_key_columns ← field_or j "primary_key_columns" get_strings [];
  check_constraints ← field_or j "check_constraints" (get_vector check_constraint_from_json) [];
  unique_keys ← field_or j "unique_keys" (get_vector unique_key_from_json) [];
  partition_info ← field_or j "partition_info" (get_optional partition_by_from_json) None;
  Ok (mkTableSchema name columns auto_increment_counters primary_key_columns check_constraints unique_keys partition_info).

(** ** Enumerations of the statements *)

Definition isolation_to_json (l : IsolationLevel) : Json :=
  match l with ReadUncommitted => word "ReadUncommitted" | ReadCommitted => word "ReadCommitted" | RepeatableRead => word "RepeatableRead" | Serializable => word "Serializable" end.
Definition isolation_from_json : Json → result IsolationLevel :=
  enum_from_json [("ReadUncommitted", ReadUncommitted); ("RepeatableRead", RepeatableRead); ("Serializable", Serializable)]%string ReadCommitted.

Definition join_type_to_json (jt : JoinType) : Json :=
  match jt with
  | JoinInner => word "Inner" | JoinLeft => word "Left" | JoinRight => word "Right" | JoinCross => word "Cross" | JoinNatural => word "Natural" | JoinFullOuter => word "FullOuter"
  end.
Definition join_type_from_json : Json → result JoinType :=
  enum_from_json [("Left", JoinLeft); ("Right", JoinRight); ("Cross", JoinCross); ("Natural", JoinNatural); ("FullOuter", JoinFullOuter)]%string JoinInner.

Definition operator_to_json (op : Operator) : Json :=
  match op with
  | OpEq => word "Eq" | OpNe => word "Ne" | OpGt => word "Gt" | OpLt => word "Lt" | OpGte => word "Gte" | OpLte => word "Lte" | OpIn => word "In" | OpNotIn => word "NotIn"
  | OpLike => word "Like" | OpNotLike => word "NotLike" | OpBetween => word "Between" | OpNotBetween => word "NotBetween" | OpIsNull => word "IsNull"
  | OpIsNotNull => word "IsNotNull" | OpExists => word "Exists" | OpNotExists => word "NotExists" | OpRegexp => word "Regexp" | OpNotRegexp => word "NotRegexp"
  end.
Definition operator_from_json : Json → result Operator :=
  enum_from_json [("Ne", OpNe); ("Gt", OpGt); ("Lt", OpLt); ("Gte", OpGte); ("Lte", OpLte); ("In", OpIn); ("NotIn", OpNotIn); ("Like", OpLike); ("NotLike", OpNotLike);
    ("Between", OpBetween); ("NotBetween", OpNotBetween); ("IsNull", OpIsNull); ("IsNotNull", OpIsNotNull); ("Exists", OpExists); ("NotExists", OpNotExists);
    ("Regexp", OpRegexp); ("NotRegexp", OpNotRegexp)]%string OpEq.

Definition timing_to_json (t : TriggerTiming) : Json := match t with Before => word "Before" | After => word "After" end.
Definition timing_from_json : Json → result TriggerTiming := enum_from_json [("After", After)]%string Before.

Definition event_to_json (e : TriggerEvent) : Json := match e with OnInsert => word "Insert" | OnUpdate => word "Update" | OnDelete => word "Delete" end.
Definition event_from_json : Json → result TriggerEvent := enum_from_json [("Update", OnUpdate); ("Delete", OnDelete)]%string OnInsert.

Definition order_by_to_json (ob : OrderBy) : Json := json_object [("column", JString (ob_column ob)); ("ascending", JBool (ob_ascending ob))].
Definition order_by_from_json (j : Json) : result OrderBy :=
  column ← field j "column" get_string; ascending ← field j "ascending" get_bool; Ok (mkOrderBy column ascending ClassUnknown).

(** ** Windows *)

Definition frame_offset (tag : string) (n : Z) (amount : spec_float) (unit : list Z) : Json :=
  if match unit with [] => true | _ => false end && SFeqb amount (double_of_int n) then tagged tag (JInt n)
  else tagged tag (json_object [("n", JInt n); ("amount", JFloat amount); ("unit", JString unit)]).

Definition frame_bound_to_json (fb : FrameBound) : Json :=
  match fb with
  | UnboundedPreceding => word "UnboundedPreceding"
  | Preceding n amount unit => frame_offset "Preceding" n amount unit
  | CurrentRow => word "CurrentRow"
  | Following n amount unit => frame_offset "Following" n amount unit
  | UnboundedFollowing => word "UnboundedFollowing"
  end.

Definition is_object (j : Json) : bool := match j with JObject _ => true | _ => false end.

Definition frame_offset_from_json (p : Json) : result (Z * spec_float * list Z) :=
  n ← (if is_object p then field p "n" get_size else get_size p);
  amount ← (if is_object p then field p "amount" get_double else Ok (double_of_int n));
  unit ← (if is_object p then field p "unit" get_string else Ok []);
  Ok (n, amount, unit).

Definition frame_bound_from_json (j : Json) : result FrameBound :=
  match j with
  | JString tag =>
      if is_tag tag "UnboundedPreceding" then Ok UnboundedPreceding
      else if is_tag tag "CurrentRow" then Ok CurrentRow
      else if is_tag tag "UnboundedFollowing" then Ok UnboundedFollowing
      else bad_tag
  | _ =>
      match first_member j with
      | None => bad_tag
      | Some (tag, p) =>
          if is_tag tag "Preceding" then '(n, amount, unit) ← frame_offset_from_json p; Ok (Preceding n amount unit)
          else if is_tag tag "Following" then '(n, amount, unit) ← frame_offset_from_json p; Ok (Following n amount unit)
          else bad_tag
      end
  end.

Definition frame_unit_to_json (u : FrameUnit) : Json := match u with FrameRows => word "Rows" | FrameRange => word "Range" end.
Definition frame_unit_from_json : Json → result FrameUnit := enum_from_json [("Range", FrameRange)]%string FrameRows.

Definition window_frame_to_json (wf : WindowFrame) : Json :=
  json_object [("unit", frame_unit_to_json (wf_unit wf)); ("start", frame_bound_to_json (wf_start wf)); ("end", frame_bound_to_json (wf_end wf))].
Definition window_frame_from_json (j : Json) : result WindowFrame :=
  unit ← field j "unit" frame_unit_from_json; start ← field j "start" frame_bound_from_json; end_ ← field j "end" frame_bound_from_json;
  Ok (mkWindowFrame unit start end_).

Definition window_func_names : list (string * WindowFunc) :=
  [("RowNumber", WfRowNumber); ("Rank", WfRank); ("DenseRank", WfDenseRank); ("Lag", WfLag); ("Lead", WfLead); ("FirstValue", WfFirstValue);
   ("LastValue", WfLastValue); ("NthValue", WfNthValue); ("Ntile", WfNtile); ("PercentRank", WfPercentRank); ("CumeDist", WfCumeDist);
   ("Sum", WfSum); ("Avg", WfAvg); ("Count", WfCount); ("Min", WfMin); ("Max", WfMax)]%string.

Definition window_func_to_json (f : WindowFunc) : Json :=
  match f with
  | WfRowNumber => word "RowNumber" | WfRank => word "Rank" | WfDenseRank => word "DenseRank" | WfLag => word "Lag" | WfLead => word "Lead"
  | WfFirstValue => word "FirstValue" | WfLastValue => word "LastValue" | WfNthValue => word "NthValue" | WfNtile => word "Ntile"
  | WfPercentRank => word "PercentRank" | WfCumeDist => word "CumeDist" | WfSum => word "Sum" | WfAvg => word "Avg" | WfCount => word "Count"
  | WfMin => word "Min" | WfMax => word "Max"
  end.

(** The names of an enumeration without a default: an unknown one is an error. *)
Fixpoint known_tag {A} (names : list (string * A)) (tag : list Z) : result A :=
  match names with
  | [] => bad_tag
  | (n, x) :: names => if is_tag tag n then Ok x else known_tag names tag
  end.

Definition window_func_from_json (j : Json) : result WindowFunc := tag ← get_string j; known_tag window_func_names tag.

(** ** ALTER TABLE *)

Definition position_to_json (p : ColumnPosition) : Json := json_object [("first", JBool (cp_first p)); ("after", json_string_opt (cp_after p))].

Definition placed_column (tag : string) (column : ColumnDef) (position : option ColumnPosition) : Json :=
  match position with
  | None => tagged tag (column_def_to_json column)
  | Some p => tagged tag (json_object [("column", column_def_to_json column); ("position", position_to_json p)])
  end.

(** [j\[tag\]\[k\] = v] *)
Definition set_inside (k : string) (v : Json) (j : Json) : Json := match j with JObject [(tag, p)] => JObject [(tag, json_set k v p)] | _ => j end.

Definition alter_action_to_json (action : AlterAction) : Json :=
  match action with
  | AddColumn column position => placed_column "AddColumn" column position
  | DropColumn name => tagged "DropColumn" (JString name)
  | RenameColumn from to => tagged "RenameColumn" (json_object [("from", JString from); ("to", JString to)])
  | ModifyColumn column position => placed_column "ModifyColumn" column position
  | ChangeColumn from column position =>
      let j := tagged "ChangeColumn" (json_object [("from", JString from); ("column", column_def_to_json column)]) in
      match position with Some p => set_inside "position" (position_to_json p) j | None => j end
  | AddIndex name columns => tagged "AddIndex" (json_object [("name", json_string_opt name); ("columns", json_strings columns)])
  | AlterSetDefault column value => tagged "SetDefault" (json_object [("column", JString column); ("value", json_string_opt value)])
  | AlterRenameTable to => tagged "RenameTable" (JString to)
  | AddForeignKey name column ref_table ref_column on_delete on_update restrict_delete restrict_update =>
      let j := tagged "AddForeignKey" (json_object [("name", json_string_opt name); ("column", JString column); ("ref_table", JString ref_table);
                 ("ref_column", JString ref_column); ("on_delete", fk_action_to_json on_delete); ("on_update", fk_action_to_json on_update)]) in
      let j := if restrict_delete then set_inside "restrict_delete" (JBool true) j else j in
      if restrict_update then set_inside "restrict_update" (JBool true) j else j
  | DropForeignKey name => tagged "DropForeignKey" (JString name)
  | AddUniqueConstraint name column columns =>
      tagged "AddUniqueConstraint" (json_object [("name", json_string_opt name); ("column", JString column); ("columns", json_strings columns)])
  | AddCheckConstraint name expr => tagged "AddCheckConstraint" (json_object [("name", json_string_opt name); ("expr", JString expr)])
  | DropConstraint name => tagged "DropConstraint" (JString name)
  | AddPartition def => tagged "AddPartition" (partition_def_to_json def)
  | DropPartition name => tagged "DropPartition" (JString name)
  | NoOp => tagged "NoOp" JNull
  | SetAutoIncrement next => tagged "SetAutoIncrement" (JInt next)
  end.

Definition position_of (holder : Json) : result (option ColumnPosition) :=
  if contains holder "position" then
    p ← at_ holder "position"; first ← field p "first" get_bool; after ← field p "after" get_string_opt; Ok (Some (mkColumnPosition first after))
  else Ok None.

Definition placed_column_from_json (p : Json) : result (ColumnDef * option ColumnPosition) :=
  if contains p "position" then column ← field p "column" column_def_from_json; position ← position_of p; Ok (column, position)
  else column ← column_def_from_json p; Ok (column, None).

Definition add_foreign_key_from_json (p : Json) : result AlterAction :=
  name ← field p "name" get_string_opt;
  column ← field p "column" get_string;
  ref_table ← field p "ref_table" get_string;
  ref_column ← field p "ref_column" get_string;
  on_delete ← field p "on_delete" fk_action_from_json;
  on_update ← field p "on_update" fk_action_from_json;
  restrict_delete ← value p "restrict_delete" get_bool false;
  restrict_update ← value p "restrict_update" get_bool false;
  Ok (AddForeignKey name column ref_table ref_column on_delete on_update restrict_delete restrict_update).

Definition alter_action_from_json (j : Json) : result AlterAction :=
  match first_member j with
  | None => bad_tag
  | Some (tag, p) =>
      if is_tag tag "AddColumn" then '(c, pos) ← placed_column_from_json p; Ok (AddColumn c pos)
      else if is_tag tag "DropColumn" then x ← get_string p; Ok (DropColumn x)
      else if is_tag tag "RenameColumn" then from ← field p "from" get_string; to ← field p "to" get_string; Ok (RenameColumn from to)
      else if is_tag tag "ModifyColumn" then '(c, pos) ← placed_column_from_json p; Ok (ModifyColumn c pos)
      else if is_tag tag "ChangeColumn" then
        from ← field p "from" get_string; c ← field p "column" column_def_from_json; pos ← position_of p; Ok (ChangeColumn from c pos)
      else if is_tag tag "AddIndex" then n ← field p "name" get_string_opt; cs ← field p "columns" get_strings; Ok (AddIndex n cs)
      else if is_tag tag "SetDefault" then c ← field p "column" get_string; v ← field p "value" get_string_opt; Ok (AlterSetDefault c v)
      else if is_tag tag "RenameTable" then x ← get_string p; Ok (AlterRenameTable x)
      else if is_tag tag "AddForeignKey" then add_foreign_key_from_json p
      else if is_tag tag "DropForeignKey" then x ← get_string p; Ok (DropForeignKey x)
      else if is_tag tag "AddUniqueConstraint" then
        n ← field p "name" get_string_opt; c ← field p "column" get_string;
        cs ← (if contains p "columns" then field p "columns" get_strings else c ← field p "column" get_string; Ok [c]); Ok (AddUniqueConstraint n c cs)
      else if is_tag tag "AddCheckConstraint" then n ← field p "name" get_string_opt; e ← field p "expr" get_string; Ok (AddCheckConstraint n e)
      else if is_tag tag "DropConstraint" then x ← get_string p; Ok (DropConstraint x)
      else if is_tag tag "AddPartition" then d ← partition_def_from_json p; Ok (AddPartition d)
      else if is_tag tag "DropPartition" then x ← get_string p; Ok (DropPartition x)
      else if is_tag tag "NoOp" then Ok NoOp
      else if is_tag tag "SetAutoIncrement" then n ← get_int64 p; Ok (SetAutoIncrement n)
      else bad_tag
  end.

(** ** Writing expressions, conditions, select items and statements *)

(** The aggregates that are a word. *)
Definition agg_words : list (string * AggFunc) :=
  [("Count", AggCount); ("CountDistinct", AggCountDistinct); ("Sum", AggSum); ("Avg", AggAvg); ("Min", AggMin); ("Max", AggMax);
   ("SumDistinct", AggSumDistinct); ("AvgDistinct", AggAvgDistinct); ("Stddev", AggStddev false); ("Variance", AggVariance false);
   ("StddevSamp", AggStddev true); ("VarianceSamp", AggVariance true); ("BitAnd", AggBitAnd); ("BitOr", AggBitOr); ("JsonAgg", AggJsonAgg);
   ("ArrayAgg", AggArrayAgg); ("Median", AggMedian)]%string.

(** The statements that are a word. *)
Definition statement_words : list (string * Statement) :=
  [("Begin", Begin); ("Commit", Commit); ("Rollback", Rollback); ("ShowTables", ShowTables None None); ("ShowBufferPool", ShowBufferPool);
   ("ShowWal", ShowWal); ("Checkpoint", Checkpoint); ("ShowIsolationLevel", ShowIsolationLevel); ("ShowLocks", ShowLocks);
   ("ShowRoles", ShowRoles); ("ShowSynonyms", ShowSynonyms); ("ShowDatabases", ShowDatabases); ("ShowProcessList", ShowProcessList)]%string.

Definition limit_to_json : option Z → Json := json_optional JInt.

(** The statements about tables, indexes and the server that hold no expressions. *)
Definition table_statement_to_json (stmt : Statement) : Json :=
  match stmt with
  | Begin => word "Begin" | Commit => word "Commit" | Rollback => word "Rollback"
  | ShowTables None None => word "ShowTables"
  | ShowTables database like => tagged "ShowTables" (json_object [("database", json_string_opt database); ("like", json_string_opt like)])
  | ShowBufferPool => word "ShowBufferPool" | ShowWal => word "ShowWal" | Checkpoint => word "Checkpoint"
  | ShowIsolationLevel => word "ShowIsolationLevel" | ShowLocks => word "ShowLocks" | ShowRoles => word "ShowRoles"
  | ShowSynonyms => word "ShowSynonyms" | ShowDatabases => word "ShowDatabases" | ShowProcessList => word "ShowProcessList"
  | CreateTable name columns if_not_exists primary_key_columns check_constraints partition_by unique_keys auto_increment_start indexes =>
      tagged "CreateTable" (json_object
        [("name", JString name); ("columns", json_vector column_def_to_json columns); ("if_not_exists", JBool if_not_exists);
         ("primary_key_columns", json_strings primary_key_columns); ("check_constraints", json_vector (json_pair json_string_opt JString) check_constraints);
         ("partition_by", json_optional partition_by_to_json partition_by); ("unique_keys", json_vector unique_key_to_json unique_keys);
         ("auto_increment_start", limit_to_json auto_increment_start); ("indexes", json_vector unique_key_to_json indexes)])
  | DropTable name if_exists more =>
      let j := tagged "DropTable" (json_object [("name", JString name); ("if_exists", JBool if_exists)]) in
      match more with [] => j | _ => set_inside "more" (json_strings more) j end
  | CreateTableLike name source if_not_exists =>
      tagged "CreateTableLike" (json_object [("name", JString name); ("source", JString source); ("if_not_exists", JBool if_not_exists)])
  | RenameTable pairs => tagged "RenameTable" (json_object [("pairs", json_string_pairs pairs)])
  | TruncateTable name => tagged "TruncateTable" (json_object [("name", JString name)])
  | AlterTable table action more =>
      let j := tagged "AlterTable" (json_object [("table", JString table); ("action", alter_action_to_json action)]) in
      match more with [] => j | _ => set_inside "more" (json_vector alter_action_to_json more) j end
  | CreateIndex index_name table columns using_hash =>
      tagged "CreateIndex" (json_object [("index_name", JString index_name); ("table", JString table); ("columns", json_strings columns); ("using_hash", JBool using_hash)])
  | DropIndex index_name table =>
      let j := tagged "DropIndex" (json_object [("index_name", JString index_name)]) in
      match table with Some t => set_inside "table" (JString t) j | None => j end
  | DropView name => tagged "DropView" (json_object [("name", JString name)])
  | Describe table => tagged "Describe" (json_object [("table", JString table)])
  | SetIsolationLevel level => tagged "SetIsolationLevel" (json_object [("level", isolation_to_json level)])
  | Vacuum table => tagged "Vacuum" (json_object [("table", json_string_opt table)])
  | Use database => tagged "Use" (json_object [("database", JString database)])
  | Savepoint name => tagged "Savepoint" (json_object [("name", JString name)])
  | ReleaseSavepoint name => tagged "ReleaseSavepoint" (json_object [("name", JString name)])
  | RollbackTo name => tagged "RollbackTo" (json_object [("name", JString name)])
  | AnalyzeTable table => tagged "AnalyzeTable" (json_object [("table", JString table)])
  | _ => JNull
  end.

(** The statements about databases, users, routines and variables that hold no expressions. [LockTables] and [UnlockTables] have no case: the value stays null. *)
Definition admin_statement_to_json (stmt : Statement) : Json :=
  match stmt with
  | CreateDatabase name if_not_exists => tagged "CreateDatabase" (json_object [("name", JString name); ("if_not_exists", JBool if_not_exists)])
  | DropDatabase name if_exists => tagged "DropDatabase" (json_object [("name", JString name); ("if_exists", JBool if_exists)])
  | CreateUser user host password if_not_exists =>
      tagged "CreateUser" (json_object [("user", JString user); ("host", JString host); ("password", json_string_opt password); ("if_not_exists", JBool if_not_exists)])
  | DropUser user host if_exists => tagged "DropUser" (json_object [("user", JString user); ("host", JString host); ("if_exists", JBool if_exists)])
  | Grant privileges object_type object user host with_grant_option =>
      tagged "Grant" (json_object [("privileges", json_strings privileges); ("object_type", JString object_type); ("object", JString object);
                                   ("user", JString user); ("host", JString host); ("with_grant_option", JBool with_grant_option)])
  | Revoke privileges object_type object user host =>
      tagged "Revoke" (json_object [("privileges", json_strings privileges); ("object_type", JString object_type); ("object", JString object);
                                    ("user", JString user); ("host", JString host)])
  | ShowGrants user host => tagged "ShowGrants" (json_object [("user", json_string_opt user); ("host", json_string_opt host)])
  | CreateRole name => tagged "CreateRole" (json_object [("name", JString name)])
  | DropRole name if_exists => tagged "DropRole" (json_object [("name", JString name); ("if_exists", JBool if_exists)])
  | GrantRole role user host with_admin_option =>
      tagged "GrantRole" (json_object [("role", JString role); ("user", JString user); ("host", JString host); ("with_admin_option", JBool with_admin_option)])
  | RevokeRole role user host => tagged "RevokeRole" (json_object [("role", JString role); ("user", JString user); ("host", JString host)])
  | CreateSynonym name target or_replace => tagged "CreateSynonym" (json_object [("name", JString name); ("target", JString target); ("or_replace", JBool or_replace)])
  | DropSynonym name if_exists => tagged "DropSynonym" (json_object [("name", JString name); ("if_exists", JBool if_exists)])
  | ShowCreateTable table => tagged "ShowCreateTable" (json_object [("table", JString table)])
  | ShowCreateView view => tagged "ShowCreateView" (json_object [("view", JString view)])
  | ShowIndex table => tagged "ShowIndex" (json_object [("table", JString table)])
  | CallProcedure name args => tagged "CallProcedure" (json_object [("name", JString name); ("args", json_strings args)])
  | DropTrigger name if_exists => tagged "DropTrigger" (json_object [("name", JString name); ("if_exists", JBool if_exists)])
  | DropProcedure name if_exists => tagged "DropProcedure" (json_object [("name", JString name); ("if_exists", JBool if_exists)])
  | Backup database output_file => tagged "Backup" (json_object [("database", json_string_opt database); ("output_file", json_string_opt output_file)])
  | RestoreStmt source_file database => tagged "Restore" (json_object [("source_file", JString source_file); ("database", json_string_opt database)])
  | CreateFunction name params body param_types return_type =>
      tagged "CreateFunction" (json_object [("name", JString name); ("params", json_strings params); ("body", JString body);
                                            ("param_types", json_strings param_types); ("return_type", JString return_type)])
  | DropFunction name if_exists => tagged "DropFunction" (json_object [("name", JString name); ("if_exists", JBool if_exists)])
  | ProcDeclare name typ default_value =>
      tagged "ProcDeclare" (json_object [("name", JString name); ("typ", JString typ); ("default_value", json_string_opt default_value)])
  | ProcLeave label => tagged "ProcLeave" (json_object [("label", json_string_opt label)])
  | ProcIterate label => tagged "ProcIterate" (json_object [("label", json_string_opt label)])
  | PrepareStmt name query => tagged "PrepareStmt" (json_object [("name", JString name); ("query", JString query)])
  | ExecuteStmt name using_vars => tagged "ExecuteStmt" (json_object [("name", JString name); ("using_vars", json_strings using_vars)])
  | DeallocatePrepare name => tagged "DeallocatePrepare" (json_object [("name", JString name)])
  | _ => JNull
  end.

Definition aggregate_to_json (tag : string) (members : list (string * Json)) (source : list Z) : Json :=
  let j := tagged tag (json_object members) in
  match source with [] => j | _ => set_inside "source" (JString source) j end.

(** std::tuple, and an item of SetVars *)
Definition param_to_json (p : list Z * list Z * list Z) : Json := JArray [JString p.1.1; JString p.1.2; JString p.2].
Definition set_var_to_json (expr_to_json : ArithExpr → Json) (i : list Z * ArithExpr) : Json := json_object [("name", JString i.1); ("expr", expr_to_json i.2)].

Fixpoint arith_to_json (expr : ArithExpr) : Json :=
  match expr with
  | Col name _ _ _ _ _ _ _ => tagged "Col" (JString name)
  | Num value => tagged "Num" (JString value)
  | Str value => tagged "Str" (JString value)
  | Add lhs rhs => tagged "Add" (JArray [arith_to_json lhs; arith_to_json rhs])
  | Sub lhs rhs => tagged "Sub" (JArray [arith_to_json lhs; arith_to_json rhs])
  | Mul lhs rhs => tagged "Mul" (JArray [arith_to_json lhs; arith_to_json rhs])
  | Div lhs rhs => tagged "Div" (JArray [arith_to_json lhs; arith_to_json rhs])
  | Func name args => tagged "Func" (JArray [JString name; json_vector arith_to_json args])
  | Cmp lhs op rhs => tagged "Cmp" (JArray [arith_to_json lhs; JString op; arith_to_json rhs])
  | Pred cond => tagged "Pred" (cond_to_json cond)
  | ArithSubquery query _ => tagged "Subquery" (statement_to_json query)
  end

with condition_value_to_json (cv : ConditionValue) : Json :=
  match cv with
  | Literal value quoted _ =>
      let j := tagged "Literal" (JString value) in if quoted then json_set "quoted" (JBool true) j else j
  | ValueSubquery query => tagged "Subquery" (statement_to_json query)
  | Between lo hi lo_quoted hi_quoted =>
      let j := tagged "Between" (JArray [JString lo; JString hi]) in
      let j := if lo_quoted then json_set "lo_quoted" (JBool true) j else j in
      if hi_quoted then json_set "hi_quoted" (JBool true) j else j
  | LiteralList values quoted =>
      let j := tagged "LiteralList" (json_strings values) in
      match quoted with [] => j | _ => json_set "quoted" (json_vector JBool quoted) j end
  | Arith expr => tagged "Arith" (arith_to_json expr)
  end

with condition_to_json (c : Condition) : Json :=
  match c with
  | mkCondition lhs op value _ _ quantifier =>
      let j := json_object [("left", arith_to_json lhs); ("op", operator_to_json op); ("value", condition_value_to_json value)] in
      match quantifier with
      | QuantNone => j
      | QuantAny => json_set "quantifier" (word "Any") j
      | QuantAll => json_set "quantifier" (word "All") j
      end
  end

with cond_to_json (expr : CondExpr) : Json :=
  match expr with
  | And lhs rhs => tagged "And" (JArray [cond_to_json lhs; cond_to_json rhs])
  | Or lhs rhs => tagged "Or" (JArray [cond_to_json lhs; cond_to_json rhs])
  | Not inner => tagged "Not" (cond_to_json inner)
  | Leaf condition => tagged "Leaf" (condition_to_json condition)
  end

with join_to_json (join : Join) : Json :=
  match join with
  | mkJoin table on_expr join_type using_cols subquery lateral alias =>
      let sub := match subquery with Some (query, name) => JArray [statement_to_json query; JString name] | None => JNull end in
      let j := json_object [("table", JString table); ("on_expr", cond_to_json on_expr); ("join_type", join_type_to_json join_type);
                            ("using_cols", json_strings using_cols); ("subquery", sub); ("lateral", JBool lateral)] in
      match alias with [] => j | _ => json_set "alias" (JString alias) j end
  end

with branch_to_json (b : CaseWhenBranch) : Json :=
  match b with mkCaseWhenBranch condition result => json_object [("condition", cond_to_json condition); ("result", JString result)] end

with agg_to_json (f : AggFunc) : Json :=
  match f with
  | AggCount => word "Count" | AggCountDistinct => word "CountDistinct" | AggSum => word "Sum" | AggAvg => word "Avg" | AggMin => word "Min"
  | AggMax => word "Max" | AggSumDistinct => word "SumDistinct" | AggAvgDistinct => word "AvgDistinct"
  | AggStddev sample => word (if sample then "StddevSamp" else "Stddev")
  | AggVariance sample => word (if sample then "VarianceSamp" else "Variance")
  | AggGroupConcat separator distinct order_by =>
      if negb distinct && match order_by with [] => true | _ => false end then tagged "GroupConcat" (JString separator)
      else tagged "GroupConcat" (json_object [("separator", JString separator); ("distinct", JBool distinct); ("order_by", json_vector (json_pair JString JBool) order_by)])
  | AggCountCase branches else_val => tagged "CountCase" (json_object [("branches", json_vector branch_to_json branches); ("else_val", json_string_opt else_val)])
  | AggSumCase branches else_val => tagged "SumCase" (json_object [("branches", json_vector branch_to_json branches); ("else_val", json_string_opt else_val)])
  | AggBitAnd => word "BitAnd" | AggBitOr => word "BitOr" | AggJsonAgg => word "JsonAgg" | AggArrayAgg => word "ArrayAgg" | AggMedian => word "Median"
  end

with conflict_to_json (ic : InsertConflict) : Json :=
  match ic with
  | ConflictAbort => word "Abort"
  | ConflictIgnore => word "Ignore"
  | ConflictUpdate assignments => tagged "Update" (json_vector (json_pair JString arith_to_json) assignments)
  | ConflictReplace => word "Replace"
  end

with select_column_to_json (col : SelectColumn) : Json :=
  match col with
  | SelAll table => match table with [] => word "All" | _ => tagged "AllOf" (JString table) end
  | SelColumn name _ _ => tagged "Column" (JString name)
  | SelColumnAlias name alias _ _ => tagged "ColumnAlias" (JArray [JString name; JString alias])
  | SelAgg func col filter source _ _ _ =>
      aggregate_to_json "Agg" [("func", agg_to_json func); ("col", JString col); ("filter", json_optional cond_to_json filter)] source
  | SelAggAlias func col alias filter source _ _ _ =>
      aggregate_to_json "AggAlias" [("func", agg_to_json func); ("col", JString col); ("alias", JString alias); ("filter", json_optional cond_to_json filter)] source
  | SelFunc name args alias => tagged "Func" (json_object [("name", JString name); ("args", json_strings args); ("alias", json_string_opt alias)])
  | SelExpr expr alias => tagged "Expr" (json_object [("expr", arith_to_json expr); ("alias", json_string_opt alias)])
  | SelCaseWhen branches else_val alias =>
      tagged "CaseWhen" (json_object [("branches", json_vector branch_to_json branches); ("else_val", json_string_opt else_val); ("alias", json_string_opt alias)])
  | SelWinFunc func col offset partition_by order_by alias frame _ default_value _ _ =>
      tagged "WinFunc" (json_object
        [("func", window_func_to_json func); ("col", json_string_opt col); ("offset", JInt offset); ("partition_by", json_strings partition_by);
         ("order_by", json_vector order_by_to_json order_by); ("alias", json_string_opt alias); ("frame", json_optional window_frame_to_json frame);
         ("default_value", json_string_opt default_value)])
  | SelSubquery query alias => tagged "Subquery" (json_object [("query", statement_to_json query); ("alias", json_string_opt alias)])
  end

with statement_to_json (stmt : Statement) : Json :=
  let columns_opt := json_optional (json_vector select_column_to_json) in
  let assignments_json := json_vector (json_pair JString arith_to_json) in
  let body_json := json_vector statement_to_json in
  match stmt with
  | CreateTableAs name if_not_exists columns query =>
      tagged "CreateTableAs" (json_object [("name", JString name); ("if_not_exists", JBool if_not_exists); ("columns", json_vector column_def_to_json columns); ("query", statement_to_json query)])
  | Insert table columns values on_conflict returning =>
      tagged "Insert" (json_object [("table", JString table); ("columns", json_optional json_strings columns); ("values", json_vector json_strings values);
                                    ("on_conflict", conflict_to_json on_conflict); ("returning", columns_opt returning)])
  | InsertSelect table columns query on_conflict returning =>
      tagged "InsertSelect" (json_object [("table", JString table); ("columns", json_optional json_strings columns); ("query", statement_to_json query);
                                          ("on_conflict", conflict_to_json on_conflict); ("returning", columns_opt returning)])
  | Select table subquery columns distinct condition joins order_by group_by having limit offset for_update for_share _ table_alias table_aliases with_rollup =>
      let sub := match subquery with Some (query, name) => JArray [statement_to_json query; JString name] | None => JNull end in
      tagged "Select" (json_object
        [("table", JString table); ("subquery", sub); ("columns", json_vector select_column_to_json columns); ("distinct", JBool distinct);
         ("condition", json_optional cond_to_json condition); ("joins", json_vector join_to_json joins); ("order_by", json_vector order_by_to_json order_by);
         ("group_by", json_optional json_strings group_by); ("with_rollup", JBool with_rollup); ("having", json_optional cond_to_json having);
         ("limit", limit_to_json limit); ("offset", limit_to_json offset); ("for_update", JBool for_update); ("for_share", JBool for_share);
         ("table_alias", JString table_alias); ("table_aliases", json_string_pairs table_aliases)])
  | Update table assignments condition returning table_aliases order_by limit =>
      tagged "Update" (json_object [("table", JString table); ("assignments", assignments_json assignments); ("condition", json_optional cond_to_json condition);
                                    ("returning", columns_opt returning); ("table_aliases", json_string_pairs table_aliases);
                                    ("order_by", json_vector order_by_to_json order_by); ("limit", limit_to_json limit)])
  | Delete table condition returning table_aliases order_by limit =>
      tagged "Delete" (json_object [("table", JString table); ("condition", json_optional cond_to_json condition); ("returning", columns_opt returning);
                                    ("table_aliases", json_string_pairs table_aliases); ("order_by", json_vector order_by_to_json order_by); ("limit", limit_to_json limit)])
  | CreateView name query raw_sql => tagged "CreateView" (json_object [("name", JString name); ("query", statement_to_json query); ("raw_sql", JString raw_sql)])
  | SelectInto query vars => tagged "SelectInto" (json_object [("query", statement_to_json query); ("vars", json_strings vars)])
  | Explain inner => tagged "Explain" (statement_to_json inner)
  | ExplainAnalyze inner => tagged "ExplainAnalyze" (statement_to_json inner)
  | With ctes query recursive =>
      tagged "With" (json_object [("ctes", json_vector (json_pair JString statement_to_json) ctes); ("query", statement_to_json query); ("recursive", JBool recursive)])
  | Union lhs rhs all order_by limit offset =>
      tagged "Union" (json_object [("left", statement_to_json lhs); ("right", statement_to_json rhs); ("all", JBool all);
                                   ("order_by", json_vector order_by_to_json order_by); ("limit", limit_to_json limit); ("offset", limit_to_json offset)])
  | Intersect lhs rhs all order_by limit offset =>
      tagged "Intersect" (json_object [("left", statement_to_json lhs); ("right", statement_to_json rhs); ("all", JBool all);
                                       ("order_by", json_vector order_by_to_json order_by); ("limit", limit_to_json limit); ("offset", limit_to_json offset)])
  | Except lhs rhs all order_by limit offset =>
      tagged "Except" (json_object [("left", statement_to_json lhs); ("right", statement_to_json rhs); ("all", JBool all);
                                    ("order_by", json_vector order_by_to_json order_by); ("limit", limit_to_json limit); ("offset", limit_to_json offset)])
  | MultiUpdate tables joins assignments condition table_aliases =>
      tagged "MultiUpdate" (json_object [("tables", json_strings tables); ("joins", json_vector join_to_json joins); ("assignments", assignments_json assignments);
                                         ("condition", json_optional cond_to_json condition); ("table_aliases", json_string_pairs table_aliases)])
  | MultiDelete delete_tables from_table joins condition table_aliases =>
      tagged "MultiDelete" (json_object [("delete_tables", json_strings delete_tables); ("from_table", JString from_table); ("joins", json_vector join_to_json joins);
                                         ("condition", json_optional cond_to_json condition); ("table_aliases", json_string_pairs table_aliases)])
  | Merge target target_alias source source_alias on when_matched_update when_matched_delete when_matched_delete_cond when_not_matched_columns
      when_not_matched_values when_matched_update_cond when_matched_update_first =>
      tagged "Merge" (json_object
        [("target", JString target); ("target_alias", json_string_opt target_alias); ("source", JString source); ("source_alias", json_string_opt source_alias);
         ("on", cond_to_json on); ("when_matched_update", json_optional assignments_json when_matched_update); ("when_matched_delete", JBool when_matched_delete);
         ("when_matched_delete_cond", json_optional cond_to_json when_matched_delete_cond); ("when_not_matched_columns", json_optional json_strings when_not_matched_columns);
         ("when_not_matched_values", json_strings when_not_matched_values); ("when_matched_update_cond", json_optional cond_to_json when_matched_update_cond);
         ("when_matched_update_first", JBool when_matched_update_first)])
  | CreateProcedure name params body =>
      tagged "CreateProcedure" (json_object [("name", JString name);
        ("params", json_vector param_to_json params); ("body", body_json body)])
  | CreateTrigger name timing event table body =>
      tagged "CreateTrigger" (json_object [("name", JString name); ("timing", timing_to_json timing); ("event", event_to_json event); ("table", JString table); ("body", body_json body)])
  | ProcSet name expr => tagged "ProcSet" (json_object [("name", JString name); ("expr", arith_to_json expr)])
  | ProcIf condition then_body elseif_branches else_body =>
      tagged "ProcIf" (json_object [("condition", cond_to_json condition); ("then_body", body_json then_body);
                                    ("elseif_branches", json_vector (json_pair cond_to_json body_json) elseif_branches); ("else_body", json_optional body_json else_body)])
  | ProcWhile label condition body => tagged "ProcWhile" (json_object [("label", json_string_opt label); ("condition", cond_to_json condition); ("body", body_json body)])
  | ProcLoop label body => tagged "ProcLoop" (json_object [("label", json_string_opt label); ("body", body_json body)])
  | ProcRepeat label body until => tagged "ProcRepeat" (json_object [("label", json_string_opt label); ("body", body_json body); ("until", cond_to_json until)])
  | SetUserVar name expr => tagged "SetUserVar" (json_object [("name", JString name); ("expr", arith_to_json expr)])
  | SetVars items => tagged "SetVars" (json_vector (set_var_to_json arith_to_json) items)
  | _ => match table_statement_to_json stmt with JNull => admin_statement_to_json stmt | j => j end
  end.

(** ** Reading them *)

(** The readers that a reader calls for the parts of its value. *)
Record Readers := mkReaders {
  read_arith : Json → result ArithExpr;
  read_cond : Json → result CondExpr;
  read_statement : Json → result Statement
}.

Section readers.
Context (R : Readers).

Definition arith_from_json (j : Json) : result ArithExpr :=
  let both (p : Json) (f : ArithExpr → ArithExpr → ArithExpr) := lhs ← item p 0 (read_arith R); rhs ← item p 1 (read_arith R); Ok (f lhs rhs) in
  match first_member j with
  | None => bad_tag
  | Some (tag, p) =>
      if is_tag tag "Col" then name ← get_string p; Ok (Col name ClassUnknown 0 false KindPlain None 0 false)
      else if is_tag tag "Num" then x ← get_string p; Ok (Num x)
      else if is_tag tag "Str" then x ← get_string p; Ok (Str x)
      else if is_tag tag "Add" then both p Add
      else if is_tag tag "Sub" then both p Sub
      else if is_tag tag "Mul" then both p Mul
      else if is_tag tag "Div" then both p Div
      else if is_tag tag "Func" then name ← item p 0 get_string; args ← item p 1 (get_vector (read_arith R)); Ok (Func name args)
      else if is_tag tag "Cmp" then lhs ← item p 0 (read_arith R); op ← item p 1 get_string; rhs ← item p 2 (read_arith R); Ok (Cmp lhs op rhs)
      else if is_tag tag "Pred" then cond ← read_cond R p; Ok (Pred cond)
      else if is_tag tag "Subquery" then query ← read_statement R p; Ok (ArithSubquery query ClassUnknown)
      else bad_tag
  end.

Definition condition_value_from_json (j : Json) : result ConditionValue :=
  match first_member j with
  | None => bad_tag
  | Some (tag, p) =>
      if is_tag tag "Literal" then x ← get_string p; quoted ← value j "quoted" get_bool false; Ok (Literal x quoted 0)
      else if is_tag tag "Subquery" then query ← read_statement R p; Ok (ValueSubquery query)
      else if is_tag tag "Between" then
        lo ← item p 0 get_string; hi ← item p 1 get_string;
        lo_quoted ← value j "lo_quoted" get_bool false; hi_quoted ← value j "hi_quoted" get_bool false; Ok (Between lo hi lo_quoted hi_quoted)
      else if is_tag tag "LiteralList" then
        values ← get_strings p; quoted ← field_or j "quoted" (get_vector get_bool) []; Ok (LiteralList values quoted)
      else if is_tag tag "Arith" then expr ← read_arith R p; Ok (Arith expr)
      else bad_tag
  end.

Definition quantifier_from_json (j : Json) : result Quantifier := tag ← get_string j; Ok (if is_tag tag "Any" then QuantAny else QuantAll).

Definition condition_from_json (j : Json) : result Condition :=
  lhs ← field j "left" (read_arith R);
  op ← field j "op" operator_from_json;
  v ← field j "value" condition_value_from_json;
  quantifier ← field_or j "quantifier" quantifier_from_json QuantNone;
  Ok (mkCondition lhs op v ClassUnknown ClassUnknown quantifier).

Definition cond_from_json (j : Json) : result CondExpr :=
  match first_member j with
  | None => bad_tag
  | Some (tag, p) =>
      if is_tag tag "And" then lhs ← item p 0 (read_cond R); rhs ← item p 1 (read_cond R); Ok (And lhs rhs)
      else if is_tag tag "Or" then lhs ← item p 0 (read_cond R); rhs ← item p 1 (read_cond R); Ok (Or lhs rhs)
      else if is_tag tag "Not" then inner ← read_cond R p; Ok (Not inner)
      else if is_tag tag "Leaf" then c ← condition_from_json p; Ok (Leaf c)
      else bad_tag
  end.

Definition subquery_from_json (j : Json) : result (option (Statement * list Z)) :=
  if is_null j then Ok None else query ← item j 0 (read_statement R); name ← item j 1 get_string; Ok (Some (query, name)).

Definition join_from_json (j : Json) : result Join :=
  table ← field j "table" get_string;
  on_expr ← field j "on_expr" (read_cond R);
  join_type ← field j "join_type" join_type_from_json;
  using_cols ← field j "using_cols" get_strings;
  lateral ← field_or j "lateral" get_bool false;
  alias ← field_or j "alias" get_string [];
  subquery ← field_or j "subquery" subquery_from_json None;
  Ok (mkJoin table on_expr join_type using_cols subquery lateral alias).

Definition branch_from_json (j : Json) : result CaseWhenBranch :=
  condition ← field j "condition" (read_cond R); res ← field j "result" get_string; Ok (mkCaseWhenBranch condition res).

Definition agg_from_json (j : Json) : result AggFunc :=
  match j with
  | JString tag => known_tag agg_words tag
  | _ =>
      match first_member j with
      | None => bad_tag
      | Some (tag, p) =>
          if is_tag tag "GroupConcat" then
            match p with
            | JString separator => Ok (AggGroupConcat separator false [])
            | _ =>
                separator ← field p "separator" get_string; distinct ← field p "distinct" get_bool;
                order_by ← field p "order_by" (get_vector (get_pair get_string get_bool)); Ok (AggGroupConcat separator distinct order_by)
            end
          else if is_tag tag "CountCase" then
            branches ← field p "branches" (get_vector branch_from_json); else_val ← field p "else_val" get_string_opt; Ok (AggCountCase branches else_val)
          else if is_tag tag "SumCase" then
            branches ← field p "branches" (get_vector branch_from_json); else_val ← field p "else_val" get_string_opt; Ok (AggSumCase branches else_val)
          else bad_tag
      end
  end.

Definition get_assignments : Json → result (list (list Z * ArithExpr)) := get_vector (get_pair get_string (read_arith R)).

Definition conflict_from_json (j : Json) : result InsertConflict :=
  match j with
  | JString tag => Ok (if is_tag tag "Ignore" then ConflictIgnore else if is_tag tag "Replace" then ConflictReplace else ConflictAbort)
  | _ =>
      match first_member j with
      | Some (tag, p) => if is_tag tag "Update" then a ← get_assignments p; Ok (ConflictUpdate a) else Ok ConflictAbort
      | None => Ok ConflictAbort
      end
  end.

Definition get_cond_opt : Json → result (option CondExpr) := get_optional (read_cond R).

Definition win_func_from_json (p : Json) : result SelectColumn :=
  func ← field p "func" window_func_from_json;
  col ← field p "col" get_string_opt;
  offset ← field p "offset" get_int64;
  partition_by ← field p "partition_by" get_strings;
  order_by ← field p "order_by" (get_vector order_by_from_json);
  alias ← field p "alias" get_string_opt;
  frame ← field p "frame" (get_optional window_frame_from_json);
  default_value ← field_or p "default_value" get_string_opt None;
  Ok (SelWinFunc func col offset partition_by order_by alias frame ClassUnknown default_value false false).

Definition select_column_from_json (j : Json) : result SelectColumn :=
  match j with
  | JString _ => Ok (SelAll [])
  | _ =>
      match first_member j with
      | None => bad_tag
      | Some (tag, p) =>
          if is_tag tag "AllOf" then x ← get_string p; Ok (SelAll x)
          else if is_tag tag "Column" then x ← get_string p; Ok (SelColumn x ClassUnknown 0)
          else if is_tag tag "ColumnAlias" then name ← item p 0 get_string; alias ← item p 1 get_string; Ok (SelColumnAlias name alias ClassUnknown 0)
          else if is_tag tag "Agg" then
            filter ← field_or p "filter" get_cond_opt None; func ← field p "func" agg_from_json; col ← field p "col" get_string;
            source ← field_or p "source" get_string []; Ok (SelAgg func col filter source ClassUnknown false false)
          else if is_tag tag "AggAlias" then
            filter ← field_or p "filter" get_cond_opt None; func ← field p "func" agg_from_json; col ← field p "col" get_string; alias ← field p "alias" get_string;
            source ← field_or p "source" get_string []; Ok (SelAggAlias func col alias filter source ClassUnknown false false)
          else if is_tag tag "Func" then
            name ← field p "name" get_string; args ← field p "args" get_strings; alias ← field p "alias" get_string_opt; Ok (SelFunc name args alias)
          else if is_tag tag "Expr" then expr ← field p "expr" (read_arith R); alias ← field p "alias" get_string_opt; Ok (SelExpr expr alias)
          else if is_tag tag "CaseWhen" then
            branches ← field p "branches" (get_vector branch_from_json); else_val ← field p "else_val" get_string_opt; alias ← field p "alias" get_string_opt;
            Ok (SelCaseWhen branches else_val alias)
          else if is_tag tag "WinFunc" then win_func_from_json p
          else if is_tag tag "Subquery" then query ← field p "query" (read_statement R); alias ← field p "alias" get_string_opt; Ok (SelSubquery query alias)
          else bad_tag
      end
  end.

Definition get_returning : Json → result (option (list SelectColumn)) := get_optional (get_vector select_column_from_json).
Definition get_order_by : Json → result (list OrderBy) := get_vector order_by_from_json.
Definition get_limit : Json → result (option Z) := get_optional get_size.
Definition get_body : Json → result (list Statement) := get_vector (read_statement R).
End readers.

Definition create_table_from_json (p : Json) : result Statement :=
  name ← field p "name" get_string;
  columns ← field p "columns" (get_vector column_def_from_json);
  if_not_exists ← field p "if_not_exists" get_bool;
  primary_key_columns ← field p "primary_key_columns" get_strings;
  check_constraints ← field p "check_constraints" (get_vector (get_pair get_string_opt get_string));
  partition_by ← field_or p "partition_by" (get_optional partition_by_from_json) None;
  unique_keys ← field_or p "unique_keys" (get_vector unique_key_from_json) [];
  auto_increment_start ← field_or p "auto_increment_start" (get_optional get_int64) None;
  indexes ← field_or p "indexes" (get_vector unique_key_from_json) [];
  Ok (CreateTable name columns if_not_exists primary_key_columns check_constraints partition_by unique_keys auto_increment_start indexes).

(** The readers of the statements of [table_statement_to_json], by their tags. *)
Definition table_statement_readers : list (string * (Json → result Statement)) :=
  [("CreateTable", create_table_from_json);
   ("DropTable", λ p, n ← field p "name" get_string; e ← field p "if_exists" get_bool; more ← field_or p "more" get_strings []; Ok (DropTable n e more));
   ("CreateTableLike", λ p, n ← field p "name" get_string; src ← field p "source" get_string; e ← field p "if_not_exists" get_bool; Ok (CreateTableLike n src e));
   ("RenameTable", λ p, pairs ← field p "pairs" get_string_pairs; Ok (RenameTable pairs));
   ("TruncateTable", λ p, n ← field p "name" get_string; Ok (TruncateTable n));
   ("AlterTable", λ p, t ← field p "table" get_string; a ← field p "action" alter_action_from_json;
      more ← field_or p "more" (get_vector alter_action_from_json) []; Ok (AlterTable t a more));
   ("CreateIndex", λ p, i ← field p "index_name" get_string; t ← field p "table" get_string; cs ← field p "columns" get_strings; h ← field p "using_hash" get_bool;
      Ok (CreateIndex i t cs h));
   ("DropIndex", λ p, i ← field p "index_name" get_string;
      t ← (if contains p "table" then t ← field p "table" get_string; Ok (Some t) else Ok None); Ok (DropIndex i t));
   ("DropView", λ p, n ← field p "name" get_string; Ok (DropView n));
   ("ShowTables", λ p, d ← field p "database" get_string_opt; l ← field p "like" get_string_opt; Ok (ShowTables d l));
   ("Describe", λ p, t ← field p "table" get_string; Ok (Describe t));
   ("SetIsolationLevel", λ p, l ← field p "level" isolation_from_json; Ok (SetIsolationLevel l));
   ("Vacuum", λ p, t ← field p "table" get_string_opt; Ok (Vacuum t));
   ("Use", λ p, d ← field p "database" get_string; Ok (Use d));
   ("Savepoint", λ p, n ← field p "name" get_string; Ok (Savepoint n));
   ("ReleaseSavepoint", λ p, n ← field p "name" get_string; Ok (ReleaseSavepoint n));
   ("RollbackTo", λ p, n ← field p "name" get_string; Ok (RollbackTo n));
   ("AnalyzeTable", λ p, t ← field p "table" get_string; Ok (AnalyzeTable t))]%string.

(** Those of [admin_statement_to_json]. *)
Definition admin_statement_readers : list (string * (Json → result Statement)) :=
  [("CreateDatabase", λ p, n ← field p "name" get_string; e ← field p "if_not_exists" get_bool; Ok (CreateDatabase n e));
   ("DropDatabase", λ p, n ← field p "name" get_string; e ← field p "if_exists" get_bool; Ok (DropDatabase n e));
   ("CreateUser", λ p, u ← field p "user" get_string; h ← field p "host" get_string; pw ← field p "password" get_string_opt; e ← field p "if_not_exists" get_bool;
      Ok (CreateUser u h pw e));
   ("DropUser", λ p, u ← field p "user" get_string; h ← field p "host" get_string; e ← field p "if_exists" get_bool; Ok (DropUser u h e));
   ("Grant", λ p, pr ← field p "privileges" get_strings; ot ← field p "object_type" get_string; o ← field p "object" get_string; u ← field p "user" get_string;
      h ← field p "host" get_string; g ← field p "with_grant_option" get_bool; Ok (Grant pr ot o u h g));
   ("Revoke", λ p, pr ← field p "privileges" get_strings; ot ← field p "object_type" get_string; o ← field p "object" get_string; u ← field p "user" get_string;
      h ← field p "host" get_string; Ok (Revoke pr ot o u h));
   ("ShowGrants", λ p, u ← field p "user" get_string_opt; h ← field p "host" get_string_opt; Ok (ShowGrants u h));
   ("CreateRole", λ p, n ← field p "name" get_string; Ok (CreateRole n));
   ("DropRole", λ p, n ← field p "name" get_string; e ← field p "if_exists" get_bool; Ok (DropRole n e));
   ("GrantRole", λ p, r ← field p "role" get_string; u ← field p "user" get_string; h ← field p "host" get_string; a ← field p "with_admin_option" get_bool;
      Ok (GrantRole r u h a));
   ("RevokeRole", λ p, r ← field p "role" get_string; u ← field p "user" get_string; h ← field p "host" get_string; Ok (RevokeRole r u h));
   ("CreateSynonym", λ p, n ← field p "name" get_string; t ← field p "target" get_string; o ← field p "or_replace" get_bool; Ok (CreateSynonym n t o));
   ("DropSynonym", λ p, n ← field p "name" get_string; e ← field p "if_exists" get_bool; Ok (DropSynonym n e));
   ("ShowCreateTable", λ p, t ← field p "table" get_string; Ok (ShowCreateTable t));
   ("ShowCreateView", λ p, v ← field p "view" get_string; Ok (ShowCreateView v));
   ("ShowIndex", λ p, t ← field p "table" get_string; Ok (ShowIndex t));
   ("CallProcedure", λ p, n ← field p "name" get_string; args ← field p "args" get_strings; Ok (CallProcedure n args));
   ("DropTrigger", λ p, n ← field p "name" get_string; e ← field p "if_exists" get_bool; Ok (DropTrigger n e));
   ("DropProcedure", λ p, n ← field p "name" get_string; e ← field p "if_exists" get_bool; Ok (DropProcedure n e));
   ("Backup", λ p, d ← field p "database" get_string_opt; o ← field p "output_file" get_string_opt; Ok (Backup d o));
   ("Restore", λ p, src ← field p "source_file" get_string; d ← field p "database" get_string_opt; Ok (RestoreStmt src d));
   ("CreateFunction", λ p, n ← field p "name" get_string; ps ← field p "params" get_strings; b ← field p "body" get_string;
      pt ← field_or p "param_types" get_strings []; rt ← field_or p "return_type" get_string []; Ok (CreateFunction n ps b pt rt));
   ("DropFunction", λ p, n ← field p "name" get_string; e ← field p "if_exists" get_bool; Ok (DropFunction n e));
   ("ProcDeclare", λ p, n ← field p "name" get_string; t ← field p "typ" get_string; d ← field p "default_value" get_string_opt; Ok (ProcDeclare n t d));
   ("ProcLeave", λ p, l ← field p "label" get_string_opt; Ok (ProcLeave l));
   ("ProcIterate", λ p, l ← field p "label" get_string_opt; Ok (ProcIterate l));
   ("PrepareStmt", λ p, n ← field p "name" get_string; q ← field p "query" get_string; Ok (PrepareStmt n q));
   ("ExecuteStmt", λ p, n ← field p "name" get_string; vs ← field p "using_vars" get_strings; Ok (ExecuteStmt n vs));
   ("DeallocatePrepare", λ p, n ← field p "name" get_string; Ok (DeallocatePrepare n))]%string.

Section statement_readers.
Context (R : Readers).

Definition insert_from_json (p : Json) : result Statement :=
  table ← field p "table" get_string;
  columns ← field p "columns" (get_optional get_strings);
  values ← field p "values" (get_vector get_strings);
  on_conflict ← field p "on_conflict" (conflict_from_json R);
  returning ← field p "returning" (get_returning R);
  Ok (Insert table columns values on_conflict returning).

Definition insert_select_from_json (p : Json) : result Statement :=
  table ← field p "table" get_string;
  columns ← field p "columns" (get_optional get_strings);
  query ← field p "query" (read_statement R);
  on_conflict ← field p "on_conflict" (conflict_from_json R);
  returning ← field p "returning" (get_returning R);
  Ok (InsertSelect table columns query on_conflict returning).

Definition select_from_json (p : Json) : result Statement :=
  table ← field p "table" get_string;
  subquery ← field p "subquery" (subquery_from_json R);
  columns ← field p "columns" (get_vector (select_column_from_json R));
  distinct ← field p "distinct" get_bool;
  condition ← field p "condition" (get_cond_opt R);
  joins ← field p "joins" (get_vector (join_from_json R));
  order_by ← field p "order_by" get_order_by;
  group_by ← field p "group_by" (get_optional get_strings);
  with_rollup ← value p "with_rollup" get_bool false;
  having ← field p "having" (get_cond_opt R);
  limit ← field p "limit" get_limit;
  offset ← field p "offset" get_limit;
  for_update ← field p "for_update" get_bool;
  for_share ← field p "for_share" get_bool;
  table_alias ← field_or p "table_alias" get_string [];
  table_aliases ← field_or p "table_aliases" get_string_pairs [];
  Ok (Select table subquery columns distinct condition joins order_by group_by having limit offset for_update for_share false table_alias table_aliases with_rollup).

Definition update_from_json (p : Json) : result Statement :=
  table ← field p "table" get_string;
  assignments ← field p "assignments" (get_assignments R);
  condition ← field p "condition" (get_cond_opt R);
  returning ← field p "returning" (get_returning R);
  table_aliases ← field_or p "table_aliases" get_string_pairs [];
  order_by ← field_or p "order_by" get_order_by [];
  limit ← field_or p "limit" get_limit None;
  Ok (Update table assignments condition returning table_aliases order_by limit).

Definition delete_from_json (p : Json) : result Statement :=
  table ← field p "table" get_string;
  condition ← field p "condition" (get_cond_opt R);
  returning ← field p "returning" (get_returning R);
  table_aliases ← field_or p "table_aliases" get_string_pairs [];
  order_by ← field_or p "order_by" get_order_by [];
  limit ← field_or p "limit" get_limit None;
  Ok (Delete table condition returning table_aliases order_by limit).

Definition set_operation_from_json (f : Statement → Statement → bool → list OrderBy → option Z → option Z → Statement) (p : Json) : result Statement :=
  lhs ← field p "left" (read_statement R);
  rhs ← field p "right" (read_statement R);
  all ← field p "all" get_bool;
  order_by ← field p "order_by" get_order_by;
  limit ← field p "limit" get_limit;
  offset ← field p "offset" get_limit;
  Ok (f lhs rhs all order_by limit offset).

Definition with_from_json (p : Json) : result Statement :=
  ctes ← field p "ctes" (λ l, get_elements (get_pair get_string (read_statement R)) (elements_of l));
  query ← field p "query" (read_statement R);
  recursive ← field p "recursive" get_bool;
  Ok (With ctes query recursive).

Definition multi_update_from_json (p : Json) : result Statement :=
  tables ← field p "tables" get_strings;
  joins ← field p "joins" (get_vector (join_from_json R));
  assignments ← field p "assignments" (get_assignments R);
  condition ← field p "condition" (get_cond_opt R);
  table_aliases ← field_or p "table_aliases" get_string_pairs [];
  Ok (MultiUpdate tables joins assignments condition table_aliases).

Definition multi_delete_from_json (p : Json) : result Statement :=
  delete_tables ← field p "delete_tables" get_strings;
  from_table ← field p "from_table" get_string;
  joins ← field p "joins" (get_vector (join_from_json R));
  condition ← field p "condition" (get_cond_opt R);
  table_aliases ← field_or p "table_aliases" get_string_pairs [];
  Ok (MultiDelete delete_tables from_table joins condition table_aliases).

Definition merge_from_json (p : Json) : result Statement :=
  target ← field p "target" get_string;
  target_alias ← field p "target_alias" get_string_opt;
  source ← field p "source" get_string;
  source_alias ← field p "source_alias" get_string_opt;
  on ← field p "on" (read_cond R);
  when_matched_update ← field p "when_matched_update" (get_optional (get_assignments R));
  when_matched_delete ← field p "when_matched_delete" get_bool;
  when_matched_delete_cond ← field p "when_matched_delete_cond" (get_cond_opt R);
  when_not_matched_columns ← field p "when_not_matched_columns" (get_optional get_strings);
  when_not_matched_values ← field p "when_not_matched_values" get_strings;
  when_matched_update_cond ← field_or p "when_matched_update_cond" (get_cond_opt R) None;
  when_matched_update_first ← field_or p "when_matched_update_first" get_bool false;
  Ok (Merge target target_alias source source_alias on when_matched_update when_matched_delete when_matched_delete_cond when_not_matched_columns
        when_not_matched_values when_matched_update_cond when_matched_update_first).

Definition query_statement_readers : list (string * (Json → result Statement)) :=
  [("CreateTableAs", λ p, n ← field p "name" get_string; e ← field p "if_not_exists" get_bool; cs ← field p "columns" (get_vector column_def_from_json);
      q ← field p "query" (read_statement R); Ok (CreateTableAs n e cs q));
   ("Insert", insert_from_json); ("InsertSelect", insert_select_from_json); ("Select", select_from_json); ("Update", update_from_json); ("Delete", delete_from_json);
   ("CreateView", λ p, n ← field p "name" get_string; q ← field p "query" (read_statement R); sql ← field p "raw_sql" get_string; Ok (CreateView n q sql));
   ("Explain", λ p, s ← read_statement R p; Ok (Explain s));
   ("ExplainAnalyze", λ p, s ← read_statement R p; Ok (ExplainAnalyze s));
   ("With", with_from_json);
   ("Union", set_operation_from_json Union); ("Intersect", set_operation_from_json Intersect); ("Except", set_operation_from_json Except);
   ("MultiUpdate", multi_update_from_json); ("MultiDelete", multi_delete_from_json); ("Merge", merge_from_json)]%string.

Definition param_from_json (j : Json) : result (list Z * list Z * list Z) := a ← item j 0 get_string; b ← item j 1 get_string; c ← item j 2 get_string; Ok (a, b, c).
Definition get_params : Json → result (list (list Z * list Z * list Z)) := get_vector param_from_json.

Definition set_var_from_json (j : Json) : result (list Z * ArithExpr) := n ← field j "name" get_string; e ← field j "expr" (read_arith R); Ok (n, e).

Definition routine_statement_readers : list (string * (Json → result Statement)) :=
  [("CreateProcedure", λ p, n ← field p "name" get_string; ps ← field p "params" get_params; b ← field p "body" (get_body R); Ok (CreateProcedure n ps b));
   ("SelectInto", λ p, q ← field p "query" (read_statement R); vs ← field p "vars" get_strings; Ok (SelectInto q vs));
   ("CreateTrigger", λ p, n ← field p "name" get_string; t ← field p "timing" timing_from_json; e ← field p "event" event_from_json; tb ← field p "table" get_string;
      b ← field p "body" (get_body R); Ok (CreateTrigger n t e tb b));
   ("ProcSet", λ p, n ← field p "name" get_string; e ← field p "expr" (read_arith R); Ok (ProcSet n e));
   ("ProcIf", λ p, c ← field p "condition" (read_cond R); t ← field p "then_body" (get_body R);
      es ← field p "elseif_branches" (get_vector (get_pair (read_cond R) (get_body R))); e ← field p "else_body" (get_optional (get_body R)); Ok (ProcIf c t es e));
   ("ProcWhile", λ p, l ← field p "label" get_string_opt; c ← field p "condition" (read_cond R); b ← field p "body" (get_body R); Ok (ProcWhile l c b));
   ("ProcLoop", λ p, l ← field p "label" get_string_opt; b ← field p "body" (get_body R); Ok (ProcLoop l b));
   ("ProcRepeat", λ p, l ← field p "label" get_string_opt; b ← field p "body" (get_body R); u ← field p "until" (read_cond R); Ok (ProcRepeat l b u));
   ("SetUserVar", λ p, n ← field p "name" get_string; e ← field p "expr" (read_arith R); Ok (SetUserVar n e));
   ("SetVars", λ p, items ← get_elements set_var_from_json (elements_of p); Ok (SetVars items))]%string.

Definition statement_from_json (j : Json) : result Statement :=
  match j with
  | JString tag => known_tag statement_words tag
  | _ =>
      match first_member j with
      | None => bad_tag
      | Some (tag, p) => f ← known_tag (table_statement_readers ++ admin_statement_readers ++ query_statement_readers ++ routine_statement_readers) tag; f p
      end
  end.
End statement_readers.

(** The recursion: a reader of a value of depth [n]. *)
Fixpoint readers (n : nat) : Readers :=
  match n with
  | O => mkReaders (λ _, bad_tag) (λ _, bad_tag) (λ _, bad_tag)
  | S n => let R := readers n in mkReaders (arith_from_json R) (cond_from_json R) (statement_from_json R)
  end.

(** [j.get<Statement>()], [j.get<ArithExpr>()], [j.get<CondExpr>()] *)
Definition get_statement (j : Json) : result Statement := read_statement (readers (S (jdepth j))) j.
Definition get_arith (j : Json) : result ArithExpr := read_arith (readers (S (jdepth j))) j.
Definition get_cond (j : Json) : result CondExpr := read_cond (readers (S (jdepth j))) j.
