(* ===== verification/AstStored.v ===== *)
(** * What is stored is read back (src/parser/ast_json.cpp)

    The readers of AstJson.v give back every tree that its writers were given, if the tree is as the parser leaves it: the numbers are in their
    widths, what only the binder fills is not filled, and it has no LOCK TABLES or UNLOCK TABLES, which are written as null. *)
From S2P Require Import Prelude JsonValue Ast AstJson.
From Stdlib Require Import SpecFloat.

(** ** Trees as the parser leaves them *)

Definition in_width (lo hi z : Z) : bool := (lo <=? z) && (z <? hi).
Definition is_uint8 : Z → bool := in_width 0 (2 ^ 8).
Definition is_uint32 : Z → bool := in_width 0 (2 ^ 32).
Definition is_size : Z → bool := in_width 0 (2 ^ 64).
Definition is_int32 : Z → bool := in_width (- 2 ^ 31) (2 ^ 31).
Definition is_int64 : Z → bool := in_width (- 2 ^ 63) (2 ^ 63).

Definition class_unset (c : ValueClass) : bool := match c with ClassUnknown => true | _ => false end.
Definition kind_plain (k : ColKind) : bool := match k with KindPlain => true | _ => false end.
Definition unset {A} (o : option A) : bool := match o with None => true | Some _ => false end.

Definition storable_type (dt : DataType) : bool :=
  match dt with
  | TVarchar length => is_uint32 length
  | TDateTime fsp | TTimestamp fsp | TTime fsp => is_uint8 fsp
  | TDecimal precision scale => is_uint8 precision && is_uint8 scale
  | _ => true
  end.

Definition storable_column (c : ColumnDef) : bool := storable_type (cd_data_type c).
Definition storable_partition (p : PartitionBy) : bool := is_int32 (pb_hash_partitions p).
Definition storable_order (o : OrderBy) : bool := class_unset (ob_cls o).

Definition storable_schema (s : TableSchema) : bool :=
  forallb storable_column (ts_columns s) && forallb (λ e, is_int64 e.2) (map_to_list (ts_auto_increment_counters s)) &&
  option_ok storable_partition (ts_partition_info s).

#[export] Instance spec_float_eq_dec : EqDecision spec_float.
Proof. solve_decision. Defined.

(** An offset that equals its number of rows is that number (it is not -0). *)
Definition storable_offset (n : Z) (amount : spec_float) : bool :=
  is_size n && (negb (SFeqb amount (double_of_int n)) || bool_decide (amount = double_of_int n)).

Definition storable_bound (b : FrameBound) : bool :=
  match b with Preceding n amount _ | Following n amount _ => storable_offset n amount | _ => true end.

Definition storable_frame (f : WindowFrame) : bool := storable_bound (wf_start f) && storable_bound (wf_end f).

Definition storable_action (a : AlterAction) : bool :=
  match a with
  | AddColumn c _ | ModifyColumn c _ | ChangeColumn _ c _ => storable_column c
  | SetAutoIncrement next => is_int64 next
  | _ => true
  end.

Definition storable_limit : option Z → bool := option_ok is_size.

Fixpoint storable_arith (e : ArithExpr) : bool :=
  match e with
  | Col _ cls outer approx kind members fsp single =>
      class_unset cls && (outer =? 0) && negb approx && kind_plain kind && unset members && (fsp =? 0) && negb single
  | Num _ | Str _ => true
  | Add l r | Sub l r | Mul l r | Div l r | Cmp l _ r => storable_arith l && storable_arith r
  | Func _ args => forallb storable_arith args
  | Pred c => storable_cond c
  | ArithSubquery q cls => storable q && class_unset cls
  end

with storable_value (v : ConditionValue) : bool :=
  match v with
  | Literal _ _ outer => outer =? 0
  | ValueSubquery q => storable q
  | Between _ _ _ _ | LiteralList _ _ => true
  | Arith e => storable_arith e
  end

with storable_condition (c : Condition) : bool :=
  match c with mkCondition l _ v lc rc _ => storable_arith l && storable_value v && class_unset lc && class_unset rc end

with storable_cond (c : CondExpr) : bool :=
  match c with
  | And l r | Or l r => storable_cond l && storable_cond r
  | Not c => storable_cond c
  | Leaf c => storable_condition c
  end

with storable_join (j : Join) : bool :=
  match j with mkJoin _ on _ _ sub _ _ => storable_cond on && match sub with Some (q, _) => storable q | None => true end end

with storable_branch (b : CaseWhenBranch) : bool := match b with mkCaseWhenBranch c _ => storable_cond c end

with storable_agg (f : AggFunc) : bool :=
  match f with AggCountCase bs _ | AggSumCase bs _ => forallb storable_branch bs | _ => true end

with storable_conflict (c : InsertConflict) : bool :=
  match c with ConflictUpdate a => forallb (λ p, any p.1 && storable_arith p.2) a | _ => true end

with storable_select_column (c : SelectColumn) : bool :=
  match c with
  | SelAll _ | SelFunc _ _ _ => true
  | SelColumn _ cls outer | SelColumnAlias _ _ cls outer => class_unset cls && (outer =? 0)
  | SelAgg f _ filter _ cls approx single => storable_agg f && option_ok storable_cond filter && class_unset cls && negb approx && negb single
  | SelAggAlias f _ _ filter _ cls approx single => storable_agg f && option_ok storable_cond filter && class_unset cls && negb approx && negb single
  | SelExpr e _ => storable_arith e
  | SelCaseWhen bs _ _ => forallb storable_branch bs
  | SelWinFunc _ _ offset _ order_by _ frame cls _ approx single =>
      is_int64 offset && forallb storable_order order_by && option_ok storable_frame frame && class_unset cls && negb approx && negb single
  | SelSubquery q _ => storable q
  end

with storable (s : Statement) : bool :=
  let assignments := forallb (λ p, any p.1 && storable_arith p.2) in
  let body := forallb storable in
  let returned := option_ok (forallb storable_select_column) in
  match s with
  | CreateTable _ columns _ _ _ partition_by _ start _ => forallb storable_column columns && option_ok storable_partition partition_by && option_ok is_int64 start
  | Insert _ _ _ c r => storable_conflict c && returned r
  | InsertSelect _ _ q c r => storable q && storable_conflict c && returned r
  | Select _ sub columns _ condition joins order_by _ having limit offset _ _ resolved _ _ _ =>
      match sub with Some (q, _) => storable q | None => true end && forallb storable_select_column columns && option_ok storable_cond condition &&
      forallb storable_join joins && forallb storable_order order_by && option_ok storable_cond having && storable_limit limit && storable_limit offset && negb resolved
  | Update _ a condition r _ order_by limit => assignments a && option_ok storable_cond condition && returned r && forallb storable_order order_by && storable_limit limit
  | Delete _ condition r _ order_by limit => option_ok storable_cond condition && returned r && forallb storable_order order_by && storable_limit limit
  | AlterTable _ action more => storable_action action && forallb storable_action more
  | CreateView _ q _ | Explain q | ExplainAnalyze q | SelectInto q _ => storable q
  | With ctes q _ => forallb (λ p, any p.1 && storable p.2) ctes && storable q
  | Union l r _ order_by limit offset => storable l && storable r && forallb storable_order order_by && storable_limit limit && storable_limit offset
  | Intersect l r _ order_by limit offset => storable l && storable r && forallb storable_order order_by && storable_limit limit && storable_limit offset
  | Except l r _ order_by limit offset => storable l && storable r && forallb storable_order order_by && storable_limit limit && storable_limit offset
  | MultiUpdate _ joins a condition _ => forallb storable_join joins && assignments a && option_ok storable_cond condition
  | MultiDelete _ _ joins condition _ => forallb storable_join joins && option_ok storable_cond condition
  | Merge _ _ _ _ on update _ delete_cond _ _ update_cond _ =>
      storable_cond on && option_ok assignments update && option_ok storable_cond delete_cond && option_ok storable_cond update_cond
  | CreateProcedure _ _ b | CreateTrigger _ _ _ _ b | ProcLoop _ b => body b
  | ProcSet _ e | SetUserVar _ e => storable_arith e
  | ProcIf c t es e => storable_cond c && body t && forallb (λ p, storable_cond p.1 && body p.2) es && option_ok body e
  | ProcWhile _ c b | ProcRepeat _ b c => storable_cond c && body b
  | LockTables _ | UnlockTables => false
  | SetVars items => assignments items
  | CreateTableAs _ _ columns q => forallb storable_column columns && storable q
  | _ => true
  end.

(** ** Evaluation of the keys *)

Ltac json_compute :=
  lazy [at_ item at_index lookup list_lookup field field_or contains member member_set json_object json_set set_inside tagged word first_member is_tag with_fsp
        aggregate_to_json tag_of known_tag type_words statement_words agg_words window_func_names enum_from_json
        table_statement_readers admin_statement_readers query_statement_readers routine_statement_readers
        create_table_from_json insert_from_json insert_select_from_json select_from_json update_from_json delete_from_json set_operation_from_json
        with_from_json multi_update_from_json multi_delete_from_json merge_from_json app foldl fst snd value is_object
        bytes_compare str fmap list_fmap String.list_ascii_of_string
        Ascii.N_of_ascii Ascii.N_of_digits Z.of_N N.add N.mul Pos.add Pos.mul Pos.add_carry Pos.succ Z.compare Pos.compare Pos.compare_cont CompOpp].

Ltac json_compute_in F :=
  lazy [at_ member member_set json_object json_set set_inside tagged word aggregate_to_json with_fsp foldl fst snd
        bytes_compare str fmap list_fmap String.list_ascii_of_string
        Ascii.N_of_ascii Ascii.N_of_digits Z.of_N N.add N.mul Pos.add Pos.mul Pos.add_carry Pos.succ Z.compare Pos.compare Pos.compare_cont CompOpp] in F.

(** The depth of a value bounds that of its parts. *)
Ltac split_fits F :=
  lazymatch type of F with
  | fits _ (JObject ((_, _) :: _)) => let F' := fresh "F" in apply fits_member in F as [F' F]; cbn [pred] in F'; split_fits F'; split_fits F
  | fits _ (JArray (_ :: _)) => let F' := fresh "F" in apply fits_element in F as [F' F]; cbn [pred] in F'; split_fits F'; split_fits F
  | _ => idtac
  end.

Ltac json_side := first [eassumption | reflexivity | apply forallb_any | apply forallb_any_pair | apply option_ok_any | apply fits_pred; eassumption | do 2 apply fits_pred; eassumption | do 3 apply fits_pred; eassumption].

(** One read of a chain of reads. *)
Ltac json_read :=
  cbv beta;
  lazymatch goal with
  | |- Ok _ = Ok _ => reflexivity
  | |- (_ ≫= _) = Ok _ => eapply bind_ok; [json_read|cbv beta; json_compute; json_read]
  | |- get_elements _ (elements_of (json_vector _ _)) = Ok _ => eapply Reads_elements; [by eauto with json|json_side|json_side]
  | |- _ => eapply reads_use; [by eauto with json|json_side|json_side]
  end.

Ltac json_reads := repeat (lazymatch goal with |- (_ ≫= _) = _ => eapply bind_ok; [json_read|cbv beta] end).

(** A reader against a writer: the keys are evaluated, then the reads go one by one. *)
Ltac json_solve F := json_compute_in F; split_fits F; json_compute; json_reads.

(** ** Numbers and words *)

Lemma in_width_spec lo hi z : in_width lo hi z = true → lo ≤ z < hi.
Proof. unfold in_width. lia. Qed.

Lemma wrap_signed_small w z : 0 < w → - 2 ^ (w - 1) ≤ z < 2 ^ (w - 1) → wrap_signed w z = z.
Proof.
  intros Hw Hz. unfold wrap_signed. rewrite Z.mod_small; [lia|]. assert (2 ^ w = 2 * 2 ^ (w - 1)) by (rewrite <- Z.pow_succ_r by lia; f_equal; lia). lia.
Qed.

Lemma Reads_uint8 n : Reads is_uint8 JInt n get_uint8.
Proof. apply Reads_all. intros z H%in_width_spec. simpl. by rewrite Z.mod_small. Qed.
Lemma Reads_uint32 n : Reads is_uint32 JInt n get_uint32.
Proof. apply Reads_all. intros z H%in_width_spec. simpl. rewrite wrap32_small; [done|widths]. Qed.
Lemma Reads_size n : Reads is_size JInt n get_size.
Proof. apply Reads_all. intros z H%in_width_spec. simpl. rewrite wrap64_small; [done|widths]. Qed.
Lemma Reads_int32 n : Reads is_int32 JInt n get_int32.
Proof. apply Reads_all. intros z H%in_width_spec. simpl. by rewrite wrap_signed_small. Qed.
Lemma Reads_int64 n : Reads is_int64 JInt n get_int64.
Proof. apply Reads_all. intros z H%in_width_spec. simpl. by rewrite wrap_signed_small. Qed.
Lemma Reads_double n : Reads any JFloat n get_double.
Proof. by apply Reads_all. Qed.
#[export] Hint Resolve Reads_uint8 Reads_uint32 Reads_size Reads_int32 Reads_int64 Reads_double : json.

(** An enumeration: every word is read as what wrote it. *)
Ltac json_words := apply Reads_all; intros [] _; by json_compute.

Lemma Reads_fk_action n : Reads any fk_action_to_json n fk_action_from_json.
Proof. json_words. Qed.
Lemma Reads_partition_kind n : Reads any partition_kind_to_json n partition_kind_from_json.
Proof. json_words. Qed.
Lemma Reads_isolation n : Reads any isolation_to_json n isolation_from_json.
Proof. json_words. Qed.
Lemma Reads_join_type n : Reads any join_type_to_json n join_type_from_json.
Proof. json_words. Qed.
Lemma Reads_operator n : Reads any operator_to_json n operator_from_json.
Proof. json_words. Qed.
Lemma Reads_timing n : Reads any timing_to_json n timing_from_json.
Proof. json_words. Qed.
Lemma Reads_event n : Reads any event_to_json n event_from_json.
Proof. json_words. Qed.
Lemma Reads_frame_unit n : Reads any frame_unit_to_json n frame_unit_from_json.
Proof. json_words. Qed.
Lemma Reads_window_func n : Reads any window_func_to_json n window_func_from_json.
Proof. json_words. Qed.
#[export] Hint Resolve Reads_fk_action Reads_partition_kind Reads_isolation Reads_join_type Reads_operator Reads_timing Reads_event
  Reads_frame_unit Reads_window_func : json.

(** ** Columns, keys and schemas *)

Lemma with_fsp_cases tag fsp : with_fsp tag fsp = word tag ∧ fsp = 0 ∨ with_fsp tag fsp = tagged tag (JInt fsp).
Proof. unfold with_fsp. destruct (Z.eqb_spec fsp 0) as [->|]; auto. Qed.

Lemma Reads_type n : Reads storable_type data_type_to_json n data_type_from_json.
Proof.
  intros dt H F. unfold data_type_from_json.
  destruct dt; cbn [data_type_to_json storable_type] in *; bool_cases;
    try match goal with |- context [with_fsp ?t ?f] => destruct (with_fsp_cases t f) as [[E Hz]|E]; rewrite E in *; [subst|] end;
    json_solve F; try done.
Qed.
#[export] Hint Resolve Reads_type : json.

Lemma Reads_foreign_key n : Reads any foreign_key_to_json n foreign_key_from_json.
Proof.
  intros fk _ F. unfold foreign_key_from_json. unfold foreign_key_to_json in *.
  destruct (fk_restrict_delete fk) eqn:E1, (fk_restrict_update fk) eqn:E2; json_solve F; destruct fk; simpl in *; congruence.
Qed.
#[export] Hint Resolve Reads_foreign_key : json.

Ltac json_record x F := json_solve F; by destruct x.

Lemma foreign_key_not_null fk : is_null (foreign_key_to_json fk) = false.
Proof. unfold foreign_key_to_json. by destruct (fk_restrict_delete fk), (fk_restrict_update fk). Qed.
#[export] Hint Resolve foreign_key_not_null : json.

Lemma Reads_column n : Reads storable_column column_def_to_json n column_def_from_json.
Proof.
  intros c H F. unfold storable_column in H. unfold column_def_from_json. unfold column_def_to_json in *.
  replace (match cd_foreign_keys c with [] => JNull | fk :: _ => foreign_key_to_json fk end) with (json_optional foreign_key_to_json (head (cd_foreign_keys c))) in *
    by by destruct (cd_foreign_keys c).
  destruct (cd_foreign_keys c) as [|fk [|fk' fks]] eqn:E; cbn [tail head] in *; json_solve F.
  all: by destruct c; simpl in *; subst.
Qed.
#[export] Hint Resolve Reads_column : json.

Lemma Reads_partition_def n : Reads any partition_def_to_json n partition_def_from_json.
Proof. intros d _ F. unfold partition_def_from_json. unfold partition_def_to_json in *. json_record d F. Qed.
#[export] Hint Resolve Reads_partition_def : json.

Lemma Reads_partition n : Reads storable_partition partition_by_to_json n partition_by_from_json.
Proof. intros p H F. unfold storable_partition in H. unfold partition_by_from_json. unfold partition_by_to_json in *. json_record p F. Qed.

Lemma Reads_unique_key n : Reads any unique_key_to_json n unique_key_from_json.
Proof. intros k _ F. unfold unique_key_from_json. unfold unique_key_to_json in *. json_record k F. Qed.

Lemma Reads_check n : Reads any check_constraint_to_json n check_constraint_from_json.
Proof. intros c _ F. unfold check_constraint_from_json. unfold check_constraint_to_json in *. json_record c F. Qed.

Lemma Reads_order n : Reads storable_order order_by_to_json n order_by_from_json.
Proof.
  intros o H F. unfold order_by_from_json. unfold order_by_to_json in *. json_solve F. destruct o as [c a cls]. unfold storable_order in H. simpl in *. by destruct cls.
Qed.
#[export] Hint Resolve Reads_partition Reads_unique_key Reads_check Reads_order : json.

(** The members of an object built from a map are the entries of the map. *)
Lemma member_set_map (k : list Z) (z : Z) (m : list (list Z * Z)) :
  ∃ m' : list (list Z * Z), member_set k (JInt z) ((λ e, (e.1, JInt e.2)) <$> m) = (λ e, (e.1, JInt e.2)) <$> m' ∧
    (k ∉ m.*1 → (list_to_map m' : gmap (list Z) Z) = <[k := z]> (list_to_map m)) ∧ (∀ e, e ∈ m' → e = (k, z) ∨ e ∈ m).
Proof.
  induction m as [|[k' z'] m (m' & E & Hm & Hin)]; cbn [fmap list_fmap member_set fst snd].
  - exists [(k, z)]. split_and!; [done|done|]. intros e ->%list_elem_of_singleton. by left.
  - destruct (bytes_compare k k') eqn:C.
    + exists ((k, z) :: m). apply bytes_compare_eq in C as <-. split_and!; [done| |].
      * intros Hk. exfalso. apply Hk. by left.
      * intros e [->|He]%elem_of_cons; [by left|right; by right].
    + exists ((k, z) :: (k', z') :: m). split_and!; [done|done|].
      intros e [->|He]%elem_of_cons; [by left|by right].
    + exists ((k', z') :: m'). rewrite E. split_and!; [done| |].
      * intros Hk. cbn [fmap list_fmap fst] in Hk. apply not_elem_of_cons in Hk as [Hne Hk]. cbn [list_to_map foldr fst snd].
        rewrite Hm by done. by rewrite insert_insert_ne by done.
      * intros e [->|[->|He]%Hin]%elem_of_cons; [right; by left|by left|right; by right].
Qed.

Lemma get_members_ints (l : list (list Z * Z)) : forallb (λ e, is_int64 e.2) l = true → get_members get_int64 ((λ e, (e.1, JInt e.2)) <$> l) = Ok l.
Proof.
  induction l as [|[k z] l IH]; [done|]. cbn [forallb fst snd]. intros [Hz Hl]%andb_true_iff. cbn [fmap list_fmap get_members fst snd].
  rewrite (reads_use is_int64 JInt 1 get_int64 z) by (by apply Reads_int64 || done || (unfold fits; simpl; lia)). cbn [mbind result_bind]. by rewrite IH.
Qed.

Lemma counters_members (es : list (list Z * Z)) : NoDup es.*1 → forallb (λ e, is_int64 e.2) es = true →
  ∃ m : list (list Z * Z), foldr (λ e l, member_set e.1 (JInt e.2) l) [] es = (λ e, (e.1, JInt e.2)) <$> m ∧ (list_to_map m : gmap (list Z) Z) = list_to_map es ∧
    (∀ e, e ∈ m → e ∈ es).
Proof.
  induction es as [|[k z] es IH]; intros Hd Hok; [by exists []|]. cbn [fmap list_fmap fst] in Hd. apply NoDup_cons in Hd as [Hk Hd].
  cbn [forallb snd] in Hok. apply andb_true_iff in Hok as [Hz Hok]. destruct IH as (m & E & Hm & Hin); [done..|]. cbn [foldr fst snd]. rewrite E.
  destruct (member_set_map k z m) as (m' & E' & Hm' & Hin'). exists m'. split_and!; [done| |].
  - cbn [list_to_map foldr fst snd]. rewrite Hm', Hm; [done|]. intros (e & -> & He)%list_elem_of_fmap. apply Hk. apply list_elem_of_fmap. eauto.
  - intros e [->|He]%Hin'; [by left|right; by apply Hin].
Qed.

Lemma Reads_counters n : Reads (λ m, forallb (λ e, is_int64 e.2) (map_to_list m)) counters_to_json n counters_from_json.
Proof.
  apply Reads_all. intros m Hok. unfold counters_from_json, counters_to_json.
  destruct (counters_members (map_to_list m)) as (es & E & Hes & Hin); [apply NoDup_fst_map_to_list|done|]. rewrite E, get_members_ints.
  - cbn [mbind result_bind]. by rewrite Hes, list_to_map_to_list.
  - apply List.forallb_forall. intros e He%list_elem_of_In%Hin%list_elem_of_In. by apply (proj1 (List.forallb_forall _ _) Hok).
Qed.
#[export] Hint Resolve Reads_counters : json.

Lemma Reads_schema n : Reads storable_schema table_schema_to_json n table_schema_from_json.
Proof. intros s H F. unfold storable_schema in H. bool_cases. unfold table_schema_from_json. unfold table_schema_to_json in *. json_record s F. Qed.

(** ** Windows *)

Lemma Reads_offset n tag k amount unit : storable_offset k amount = true → fits n (frame_offset tag k amount unit) →
  ∃ p, frame_offset tag k amount unit = tagged tag p ∧ frame_offset_from_json p = Ok (k, amount, unit).
Proof.
  unfold storable_offset, frame_offset. intros [Hk Ha]%andb_true_iff F.
  destruct (match unit with [] => true | _ => false end && SFeqb amount (double_of_int k)) eqn:E; (eexists; split; [done|]); unfold frame_offset_from_json.
  - apply andb_true_iff in E as [Hu E]. rewrite E in Ha. apply bool_decide_eq_true in Ha as ->. destruct unit; [|done]. json_solve F. done.
  - json_solve F. done.
Qed.

Lemma Reads_bound n : Reads storable_bound frame_bound_to_json n frame_bound_from_json.
Proof.
  intros b H F. destruct b as [|k amount unit| |k amount unit|]; try (by unfold frame_bound_from_json, frame_bound_to_json; json_compute);
    cbn [storable_bound frame_bound_to_json] in *; destruct (Reads_offset n _ k amount unit H F) as (p & E & Hp); rewrite E; unfold frame_bound_from_json;
    json_compute; by rewrite Hp.
Qed.
#[export] Hint Resolve Reads_bound : json.

Lemma Reads_frame n : Reads storable_frame window_frame_to_json n window_frame_from_json.
Proof. intros w H F. unfold storable_frame in H. bool_cases. unfold window_frame_from_json. unfold window_frame_to_json in *. json_record w F. Qed.
#[export] Hint Resolve Reads_frame : json.

(** ** ALTER TABLE *)

Lemma Reads_placed n tag c p : storable_column c = true → fits n (placed_column tag c p) →
  ∃ j, placed_column tag c p = tagged tag j ∧ placed_column_from_json j = Ok (c, p).
Proof.
  unfold placed_column. intros Hc F. destruct p as [p|]; (eexists; split; [done|]); unfold placed_column_from_json, position_of.
  - unfold position_to_json in *. json_solve F. by destruct p.
  - assert (E : contains (column_def_to_json c) "position" = false).
    { unfold column_def_to_json. destruct (cd_foreign_keys c) as [|fk [|fk' fks]]; by json_compute. }
    rewrite E. rewrite (Reads_column n c) by (done || (json_compute_in F; split_fits F; by apply fits_pred)). done.
Qed.

Lemma Reads_action n : Reads storable_action alter_action_to_json n alter_action_from_json.
Proof.
  intros a H F. unfold alter_action_from_json.
  destruct a; cbn [storable_action] in H; cbn [alter_action_to_json] in *;
    try (destruct (Reads_placed n _ _ _ H F) as (p & E & Hp); rewrite E; json_compute; by rewrite Hp);
    unfold add_foreign_key_from_json, position_of, position_to_json in *;
    try match goal with p : option ColumnPosition |- _ => destruct p end; repeat match goal with b : bool |- _ => destruct b end; json_solve F; try done.
  by destruct c.
Qed.
#[export] Hint Resolve Reads_action : json.

(** ** The recursion *)

Section level.
Context (R : Readers) (n : nat).
Context (Harith : Reads storable_arith arith_to_json n (read_arith R)).
Context (Hcond : Reads storable_cond cond_to_json n (read_cond R)).
Context (Hstatement : Reads storable statement_to_json n (read_statement R)).

#[local] Hint Resolve Harith Hcond Hstatement : json.

(** What the binder fills is unset. *)
Ltac unset_cases :=
  repeat match goal with
    | H : class_unset ?c = true |- _ => destruct c; try discriminate H; clear H
    | H : kind_plain ?k = true |- _ => destruct k; try discriminate H; clear H
    | H : unset ?o = true |- _ => destruct o; try discriminate H; clear H
    end; subst; try reflexivity.

Lemma Reads_arith_level : Reads storable_arith arith_to_json (S n) (arith_from_json R).
Proof.
  intros e H F. unfold arith_from_json. destruct e; cbn [storable_arith] in H; cbn [arith_to_json] in *; bool_cases; json_solve F; unset_cases.
Qed.

Lemma Reads_quoted m : Reads (forallb any) (json_vector JBool) m (get_vector get_bool).
Proof. apply Reads_vector, Reads_bool. Qed.

Lemma Reads_value : Reads storable_value condition_value_to_json n (condition_value_from_json R).
Proof.
  intros v H F. unfold condition_value_from_json. destruct v; cbn [storable_value] in H; cbn [condition_value_to_json] in *; bool_cases;
    repeat match goal with b : bool |- _ => destruct b end; try match goal with |- context [match ?l with [] => tagged _ _ | _ => _ end] => destruct l end;
    json_solve F; subst; try done.
Qed.
#[local] Hint Resolve Reads_value : json.

Lemma Reads_condition : Reads storable_condition condition_to_json n (condition_from_json R).
Proof.
  intros c H F. unfold condition_from_json. destruct c as [l op v lc rc q]. cbn [storable_condition] in H. cbn [condition_to_json] in *. bool_cases.
  destruct q; json_solve F; unset_cases.
Qed.
#[local] Hint Resolve Reads_condition : json.

Lemma Reads_cond_level : Reads storable_cond cond_to_json (S n) (cond_from_json R).
Proof.
  intros c H F. unfold cond_from_json. destruct c; cbn [storable_cond] in H; cbn [cond_to_json] in *; bool_cases; json_solve F; done.
Qed.

(** A derived table: its statement and its name, or null. *)
Definition derived_to_json (sub : option (Statement * list Z)) : Json :=
  match sub with Some (q, name) => JArray [statement_to_json q; JString name] | None => JNull end.

Definition storable_derived (sub : option (Statement * list Z)) : bool := match sub with Some (q, _) => storable q | None => true end.

Lemma Reads_derived : Reads storable_derived derived_to_json n (subquery_from_json R).
Proof.
  intros [[q name]|] H F; [|done]. cbn [storable_derived derived_to_json] in *. unfold subquery_from_json. cbn [is_null]. json_solve F. done.
Qed.
#[local] Hint Resolve Reads_derived : json.

Lemma Reads_join : Reads storable_join join_to_json n (join_from_json R).
Proof.
  intros j H F. unfold join_from_json. destruct j as [table on jt uc sub lateral alias]. cbn [storable_join] in H. cbn [join_to_json] in *.
  fold (derived_to_json sub) in *. fold (storable_derived sub) in H. bool_cases. destruct alias; json_solve F; done.
Qed.

Lemma Reads_branch : Reads storable_branch branch_to_json n (branch_from_json R).
Proof. intros b H F. unfold branch_from_json. destruct b as [c res]. cbn [storable_branch] in H. cbn [branch_to_json] in *. json_solve F. done. Qed.
#[local] Hint Resolve Reads_join Reads_branch : json.

Lemma Reads_agg : Reads storable_agg agg_to_json n (agg_from_json R).
Proof.
  intros f H F. unfold agg_from_json. destruct f; cbn [storable_agg] in H; cbn [agg_to_json] in *;
    repeat match goal with b : bool |- _ => destruct b end; try match goal with l : list (list Z * bool) |- _ => destruct l end; cbn [negb andb] in *; json_solve F; done.
Qed.

Lemma Reads_assignments : Reads (forallb (λ p, any p.1 && storable_arith p.2)) (json_vector (json_pair JString arith_to_json)) n (get_assignments R).
Proof. unfold get_assignments. auto with json. Qed.
#[local] Hint Resolve Reads_agg Reads_assignments : json.

Lemma Reads_conflict : Reads storable_conflict conflict_to_json n (conflict_from_json R).
Proof. intros c H F. unfold conflict_from_json. destruct c; cbn [storable_conflict] in H; cbn [conflict_to_json] in *; json_solve F; done. Qed.

Lemma Reads_cond_opt : Reads (option_ok storable_cond) (json_optional cond_to_json) n (get_cond_opt R).
Proof. unfold get_cond_opt. auto with json. Qed.
#[local] Hint Resolve Reads_conflict Reads_cond_opt : json.

Lemma Reads_select_column : Reads storable_select_column select_column_to_json n (select_column_from_json R).
Proof.
  intros c H F. unfold select_column_from_json, win_func_from_json. destruct c; cbn [storable_select_column] in H; cbn [select_column_to_json] in *; bool_cases;
    try match goal with |- context [aggregate_to_json _ _ ?l] => destruct l | |- context [match ?l with [] => word _ | _ => _ end] => destruct l end; json_solve F; unset_cases.
Qed.
#[local] Hint Resolve Reads_select_column : json.

Lemma Reads_returning : Reads (option_ok (forallb storable_select_column)) (json_optional (json_vector select_column_to_json)) n (get_returning R).
Proof. unfold get_returning. auto with json. Qed.

Lemma Reads_body : Reads (forallb storable) (json_vector statement_to_json) n (get_body R).
Proof. unfold get_body. auto with json. Qed.

Lemma Reads_limit m : Reads storable_limit limit_to_json m get_limit.
Proof. unfold get_limit, limit_to_json, storable_limit. auto with json. Qed.

Lemma Reads_orders m : Reads (forallb storable_order) (json_vector order_by_to_json) m get_order_by.
Proof. unfold get_order_by. auto with json. Qed.

Lemma Reads_int64_opt m : Reads (option_ok is_int64) limit_to_json m (get_optional get_int64).
Proof. unfold limit_to_json. auto with json. Qed.
#[local] Hint Resolve Reads_returning Reads_body Reads_limit Reads_orders Reads_int64_opt : json.

Lemma Reads_table_statement s :
  storable s = true → fits (S n) (table_statement_to_json s) → table_statement_to_json s ≠ JNull → statement_from_json R (table_statement_to_json s) = Ok s.
Proof.
  intros H F Hn. unfold statement_from_json. destruct s; cbn [table_statement_to_json] in *; try done; cbn [storable] in H; bool_cases;
    try match goal with
      | |- context [match ?l with [] => tagged _ _ | _ => _ end] => destruct l
      | |- context [match ?o with Some _ => set_inside _ _ _ | None => _ end] => destruct o
      | database : option (list Z) |- context [match ?o with Some _ => _ | None => word _ end] => destruct database, like
      end; json_solve F; try done.
Qed.

Lemma Reads_admin_statement s :
  storable s = true → fits (S n) (admin_statement_to_json s) → admin_statement_to_json s ≠ JNull → statement_from_json R (admin_statement_to_json s) = Ok s.
Proof.
  intros H F Hn. unfold statement_from_json. destruct s; cbn [admin_statement_to_json] in *; try done; json_solve F; done.
Qed.

(** A statement without expressions. *)
Lemma Reads_flat_statement s :
  let j := match table_statement_to_json s with JNull => admin_statement_to_json s | j => j end in
  storable s = true → fits (S n) j → j ≠ JNull → statement_from_json R j = Ok s.
Proof.
  intros j H F Hn. unfold j in *. destruct (table_statement_to_json s) eqn:E; [by apply Reads_admin_statement|..];
    rewrite <- E; apply Reads_table_statement; by rewrite ?E.
Qed.

Lemma Reads_set_var : Reads (λ p, any p.1 && storable_arith p.2) (set_var_to_json arith_to_json) n (set_var_from_json R).
Proof. intros [name e] H F. cbn [fst snd] in H. bool_cases. unfold set_var_from_json. unfold set_var_to_json in *. json_solve F. done. Qed.

Lemma Reads_param m : Reads any param_to_json m param_from_json.
Proof. intros [[a b] c] _ F. done. Qed.

Lemma Reads_params m : Reads (forallb any) (json_vector param_to_json) m get_params.
Proof. apply Reads_vector, Reads_param. Qed.
#[local] Hint Resolve Reads_set_var Reads_params : json.

Lemma Reads_statement_level : Reads storable statement_to_json (S n) (statement_from_json R).
Proof.
  intros s H F. destruct s; cbn [statement_to_json] in *; try (apply Reads_flat_statement; [exact H|exact F|first [done | by destruct more | by destruct table | by destruct database, like]]);
    cbn [storable] in H; unfold statement_from_json;
    try match goal with sub : option (Statement * list Z) |- _ => fold (derived_to_json sub) in *; fold (storable_derived sub) in H end;
    bool_cases; json_solve F; unset_cases.
Qed.
End level.

Lemma readers_level n :
  Reads storable_arith arith_to_json n (read_arith (readers n)) ∧ Reads storable_cond cond_to_json n (read_cond (readers n)) ∧
  Reads storable statement_to_json n (read_statement (readers n)).
Proof.
  induction n as [|n (IHa & IHc & IHs)]; [by split_and!; intros x _ F%Nat.nlt_0_r|]. cbn [readers read_arith read_cond read_statement].
  split_and!; [by apply Reads_arith_level|by apply Reads_cond_level|by apply Reads_statement_level].
Qed.

(** ** Properties *)

(** C27: what is stored is read back. The readers of src/parser/ast_json.cpp give back every statement, expression and condition from the JSON
    that their writers made of it (so a view, procedure, trigger or function is, after a restart, what it was), whatever the texts in it, through every
    member of every alternative, if it is as the parser leaves it: [storable] asks that numbers are in their widths, that what only the
    binder fills is unset, and that it has no LOCK TABLES or UNLOCK TABLES. *)
Theorem stored_statement_read_back :
  (∀ s, storable s = true → get_statement (statement_to_json s) = Ok s) ∧
  (∀ e, storable_arith e = true → get_arith (arith_to_json e) = Ok e) ∧
  (∀ c, storable_cond c = true → get_cond (cond_to_json c) = Ok c).
Proof.
  unfold get_statement, get_arith, get_cond. split_and!; intros x Hx.
  - destruct (readers_level (S (jdepth (statement_to_json x)))) as (_ & _ & H). apply H; [done|unfold fits; lia].
  - destruct (readers_level (S (jdepth (arith_to_json x)))) as (H & _ & _). apply H; [done|unfold fits; lia].
  - destruct (readers_level (S (jdepth (cond_to_json x)))) as (_ & H & _). apply H; [done|unfold fits; lia].
Qed.

(** A table's schema file is read back: every column with its type, keys, default, CHECK and foreign keys (the first and the others), the
    counters of AUTO_INCREMENT, the composite keys, the CHECK constraints and the partitions. *)
Theorem stored_schema_read_back s : storable_schema s = true → table_schema_from_json (table_schema_to_json s) = Ok s.
Proof. intros H. pose proof (Reads_schema (S (jdepth (table_schema_to_json s))) s H) as Hr. apply Hr. unfold fits. lia. Qed.

(** A procedure that locks a table is written as null in its place and cannot be read: load_sys_json then starts with no procedure at all. *)
Example lock_tables_not_read :
  get_statement (statement_to_json (CreateProcedure (str "p") [] [LockTables [(str "t", true)]])) = Err (str "unknown tag").
Proof. by vm_compute. Qed.

(** SELECT a, SUM(b + 1.5) ... in a trigger's IF: a join, a derived table, a subquery in the condition, a window and a CASE. *)
Definition example_condition : CondExpr :=
  And (Leaf (mkCondition (Col (str "t.a") ClassUnknown 0 false KindPlain None 0 false) OpGte (Arith (Add (Num (str "1")) (Func (str "ABS") [Str (str "x|y")])))
         ClassUnknown ClassUnknown QuantNone))
      (Not (Leaf (mkCondition (Pred (Leaf (mkCondition (Num (str "1")) OpEq (Literal (str "1") true 0) ClassUnknown ClassUnknown QuantNone))) OpLt
         (ValueSubquery (Select (str "u") None [SelAll []] false None [] [] None None (Some 1) None false false false [] [] false)) ClassUnknown ClassUnknown QuantAll))).

Definition example_select : Statement :=
  Select (str "t") (Some (Select (str "v") None [SelColumn (str "c") ClassUnknown 0] true None [] [] None None None None false false false [] [] false, str "d"))
    [SelAgg (AggSumCase [mkCaseWhenBranch example_condition (str "1")] None) (str "b") (Some example_condition) (str "t.b") ClassUnknown false false;
     SelWinFunc WfLag (Some (str "a")) 1 [str "a"] [mkOrderBy (str "a") false ClassUnknown] None
       (Some (mkWindowFrame FrameRange (Preceding 7 (double_of_int 7) (str "DAY")) CurrentRow)) ClassUnknown (Some []) false false]
    true (Some example_condition) [mkJoin (str "u") example_condition JoinLeft [] None false (str "u2")] [mkOrderBy (str "1") true ClassUnknown]
    (Some [str "a"]) (Some example_condition) (Some 10) (Some (2 ^ 64 - 1)) false false false (str "x") [(str "x", str "t")] true.

Definition example_trigger : Statement :=
  CreateTrigger (str "tr") After OnUpdate (str "t")
    [ProcIf example_condition [example_select; SetVars [(str "@a", Num (str "1"))]] [(example_condition, [Begin])]
       (Some [Insert (str "t") None [[str "1"; str "NULL"]] (ConflictUpdate [(str "a", Mul (Num (str "2")) (Num (str "3")))]) None;
              AlterTable (str "t") (ChangeColumn (str "a") (mkColumnDef (str "b") (TEnum [str "x"; []]) false true false None false None [] None true false)
                (Some (mkColumnPosition false (Some (str "c"))))) [NoOp; SetAutoIncrement (- 5)]])].

Lemma stored_statement_read_back_witness : storable example_trigger = true ∧ get_statement (statement_to_json example_trigger) = Ok example_trigger.
Proof. split; [reflexivity|]. apply (proj1 stored_statement_read_back). reflexivity. Defined.

Definition example_schema : TableSchema :=
  mkTableSchema (str "t")
    [mkColumnDef (str "id") TInt true true false None true None [] None false true;
     mkColumnDef (str "p") (TDecimal 10 2) false false true (Some (str "uq")) false (Some (str "0"))
       [mkForeignKey (str "p") (str "a") (str "id") Cascade SetNull (str "f1") false true; mkForeignKey (str "p") (str "b") (str "id") Restrict Restrict [] true false]
       (Some (str "p > 0")) false false]
    {[ str "id" := 12 ]} [str "id"] [mkCheckConstraint None (str "p < 9")] [mkUniqueKey (Some (str "k")) [str "id"; str "p"]]
    (Some (mkPartitionBy PartHash (str "id") [mkPartitionDef (str "p0") None false [] (str "t#p0")] 1)).

Lemma stored_schema_read_back_witness : storable_schema example_schema = true ∧ table_schema_from_json (table_schema_to_json example_schema) = Ok example_schema.
Proof. split; [reflexivity|]. apply stored_schema_read_back. reflexivity. Defined.
