(* ===== verification/Pool.v ===== *)
(** * The worker pool (ThreadPool of src/engine/thread_pool.cpp)

    [parallel_for(count, fn)] puts [count] tasks in one queue, which the workers empty, and sleeps until the last of them
    has run. The model is a state machine whose steps are the stretches of code between two points at which another
    thread may act: a lock taken and let go, an atomic operation, a notification, the body of a task. The calls of a
    state are all that its threads make of [parallel_for], at whatever time they begin. *)
From S2P Require Import Prelude.

#[local] Open Scope nat_scope.

(** A task of a call is its number [i]. *)
#[local] Abbreviation task := (nat * nat)%type.

Inductive worker : Set :=
  | Ready                          (* about to take the mutex and test the predicate of cv.wait *)
  | Asleep                         (* in cv.wait *)
  | Running (c i : nat)            (* in fn(i) *)
  | Counting (c : nat)             (* about to do remaining->fetch_sub(1) *)
  | Completing (c : nat)           (* its fetch_sub returned 1: about to set *done *)
  | Signalling (c : nat)           (* about to call done_cv->notify_one() *)
  | Exited.

Inductive caller : Set :=
  | Pushing (i : nat)              (* at the head of the loop that hands out the tasks *)
  | Notifying (i : nat)            (* task i is in the queue: about to call cv.notify_one() *)
  | Testing                        (* about to test *done *)
  | Sleeping                       (* in done_cv->wait *)
  | Returned.

#[export] Instance worker_eq_dec : EqDecision worker.
Proof. solve_decision. Defined.
#[export] Instance caller_eq_dec : EqDecision caller.
Proof. solve_decision. Defined.

(** One call, with the counters it shares with its tasks. *)
Record Call := mkCall { count : nat; at_ : caller; remaining : nat; done_ : bool }.

Inductive closing : Set := Open | Shut | Notified.

#[export] Instance closing_eq_dec : EqDecision closing.
Proof. solve_decision. Defined.

Record ThreadPool := mkPool {
  workers : list worker;
  tasks : list task;
  shutdown : closing;
  calls : list Call;
  runs : list task                 (* the fn(i) that have returned, in that order *)
}.

Definition with_worker (w : nat) (p : worker) (s : ThreadPool) : ThreadPool :=
  mkPool (<[w := p]> (workers s)) (tasks s) (shutdown s) (calls s) (runs s).
Definition with_call (c : nat) (k : Call) (s : ThreadPool) : ThreadPool :=
  mkPool (workers s) (tasks s) (shutdown s) (<[c := k]> (calls s)) (runs s).
Definition with_tasks (q : list task) (s : ThreadPool) : ThreadPool :=
  mkPool (workers s) q (shutdown s) (calls s) (runs s).
Definition with_run (t : task) (s : ThreadPool) : ThreadPool :=
  mkPool (workers s) (tasks s) (shutdown s) (calls s) (runs s ++ [t]).
Definition with_shutdown (d : closing) (ws : list worker) (s : ThreadPool) : ThreadPool :=
  mkPool ws (tasks s) d (calls s) (runs s).
Definition call_at (a : caller) (k : Call) : Call := mkCall (count k) a (remaining k) (done_ k).

Inductive event : Set :=
  | Call0 (c : nat)                        (* parallel_for of no task or of one *)
  | Push (c : nat)                         (* enqueue: under the mutex *)
  | Notify (c : nat) (woken : option nat)  (* enqueue: cv.notify_one() wakes one of the sleepers, if there is one *)
  | TestDone (c : nat)                     (* done_cv->wait: the test *)
  | Take (w : nat)                         (* worker_loop under the mutex *)
  | Finish (w : nat)                       (* fn(i) returns *)
  | Count (w : nat)                        (* remaining->fetch_sub(1) *)
  | Complete (w : nat)                     (* *done = true *)
  | Signal (w : nat)                       (* done_cv->notify_one() *)
  | ShutDown | NotifyAll                   (* ~ThreadPool *)
  | WakeWorker (w : nat) | WakeCaller (c : nat).  (* a wait that returns for no reason *)

(** worker_loop(), from the wait to the end of the locked part. *)
Definition take_task (w : nat) (s : ThreadPool) : ThreadPool :=
  match tasks s with
  | (c, i) :: q => with_worker w (Running c i) (with_tasks q s)
  | [] => match shutdown s with Open => with_worker w Asleep s | _ => with_worker w Exited s end
  end.

Definition after_push (i : nat) (k : Call) : Call :=
  call_at (if S i <? count k then Pushing (S i) else Testing) k.

Definition step (e : event) (s : ThreadPool) : option ThreadPool :=
  match e with
  | Call0 c =>
      k ← calls s !! c; guard (at_ k = Pushing 0);;
      if count k =? 0 then Some (with_call c (call_at Returned k) s)
      else if count k =? 1 then Some (with_run (c, 0) (with_call c (call_at Returned k) s))
      else None
  | Push c =>
      k ← calls s !! c; guard (2 ≤ count k);;
      match at_ k with
      | Pushing i => Some (with_tasks (tasks s ++ [(c, i)]) (with_call c (call_at (Notifying i) k) s))
      | _ => None
      end
  | Notify c woken =>
      k ← calls s !! c;
      match at_ k with
      | Notifying i =>
          let s := with_call c (after_push i k) s in
          match woken with
          | Some w => guard (workers s !! w = Some Asleep);; Some (with_worker w Ready s)
          | None => guard (Asleep ∉ workers s);; Some s
          end
      | _ => None
      end
  | TestDone c =>
      k ← calls s !! c; guard (at_ k = Testing);;
      Some (with_call c (call_at (if done_ k then Returned else Sleeping) k) s)
  | Take w => guard (workers s !! w = Some Ready);; Some (take_task w s)
  | Finish w =>
      match workers s !! w with
      | Some (Running c i) => Some (with_run (c, i) (with_worker w (Counting c) s))
      | _ => None
      end
  | Count w =>
      match workers s !! w with
      | Some (Counting c) =>
          k ← calls s !! c;
          Some (with_worker w (if remaining k =? 1 then Completing c else Ready)
                 (with_call c (mkCall (count k) (at_ k) (remaining k - 1) (done_ k)) s))
      | _ => None
      end
  | Complete w =>
      match workers s !! w with
      | Some (Completing c) =>
          k ← calls s !! c;
          Some (with_worker w (Signalling c) (with_call c (mkCall (count k) (at_ k) (remaining k) true) s))
      | _ => None
      end
  | Signal w =>
      match workers s !! w with
      | Some (Signalling c) =>
          k ← calls s !! c;
          Some (with_worker w Ready (with_call c (call_at (if decide (at_ k = Sleeping) then Testing else at_ k) k) s))
      | _ => None
      end
  | ShutDown => guard (shutdown s = Open);; Some (with_shutdown Shut (workers s) s)
  | NotifyAll =>
      guard (shutdown s = Shut);;
      Some (with_shutdown Notified ((λ p, if decide (p = Asleep) then Ready else p) <$> workers s) s)
  | WakeWorker w => guard (workers s !! w = Some Asleep);; Some (with_worker w Ready s)
  | WakeCaller c =>
      k ← calls s !! c; guard (at_ k = Sleeping);; Some (with_call c (call_at Testing k) s)
  end.

Fixpoint run_events (es : list event) (s : ThreadPool) : option ThreadPool :=
  match es with [] => Some s | e :: es => s' ← step e s; run_events es s' end.

(** ThreadPool(n_threads), and the threads about to call parallel_for(count, fn) for each of [counts]. *)
Definition start (n_threads : nat) (counts : list nat) : ThreadPool :=
  mkPool (replicate (n_threads `max` 1) Ready) [] Open ((λ n, mkCall n (Pushing 0) n false) <$> counts) [].

Example two_calls : (λ s, (at_ <$> calls s, runs s)) <$> run_events
  [Take 0; Take 1; Push 0; Notify 0 (Some 0); Push 1; Take 0; Notify 1 (Some 1); Push 0; Finish 0; Take 1; Notify 0 None; Count 0;
   TestDone 0; Take 0; Finish 0; Count 0; Complete 0; Signal 0; TestDone 0; Call0 2] (start 2 [2; 2; 1])
  = Some ([Returned; Pushing 1; Returned], [(0, 0); (0, 1); (2, 0)]).
Proof. vm_compute. reflexivity. Qed.

(** ** What a state holds of a call *)

(** The numbers of the tasks of call [c] that have returned, that a worker runs, and that are queued. *)
Definition own (c : nat) (l : list task) : list nat := (filter (λ t : task, t.1 = c) l).*2.
Definition in_hand (c : nat) (p : worker) : list nat :=
  match p with Running c' i => if decide (c' = c) then [i] else [] | _ => [] end.
Definition held (c : nat) (ws : list worker) : list nat := concat (in_hand c <$> ws).
Definition number (p : worker) (ws : list worker) : nat := length (filter (p =.) ws).

Definition pushed (k : Call) : nat := match at_ k with Pushing i => i | Notifying i => S i | _ => count k end.

Definition shape (k : Call) : Prop :=
  match at_ k with
  | Pushing i => i = 0 ∨ (i < count k ∧ 2 ≤ count k)
  | Notifying i => i < count k ∧ 2 ≤ count k
  | Returned => True
  | _ => 2 ≤ count k
  end.

Record call_ok (c : nat) (k : Call) (s : ThreadPool) : Prop := {
  ok_shape : shape k;
  ok_share : own c (runs s) ++ held c (workers s) ++ own c (tasks s) ≡ₚ seq 0 (pushed k);
  ok_remaining : 2 ≤ count k → remaining k + length (own c (runs s)) = count k + number (Counting c) (workers s);
  ok_done : 2 ≤ count k → done_ k = true → remaining k = 0;
  ok_completing : 0 < number (Completing c) (workers s) → remaining k = 0;
  ok_last : 2 ≤ count k → remaining k = 0 → done_ k = true ∨ 0 < number (Completing c) (workers s);
  ok_sleeping : at_ k = Sleeping → done_ k = true → 0 < number (Signalling c) (workers s);
  ok_returned : 2 ≤ count k → at_ k = Returned → done_ k = true;
  ok_inline : count k < 2 → held c (workers s) = [] ∧ own c (tasks s) = [] ∧
    number (Counting c) (workers s) + number (Completing c) (workers s) + number (Signalling c) (workers s) = 0
}.

(** Nothing belongs to a call that nobody makes. *)
Definition unknown (c : nat) (s : ThreadPool) : Prop :=
  own c (runs s) ++ held c (workers s) ++ own c (tasks s) = [] ∧
  number (Counting c) (workers s) + number (Completing c) (workers s) + number (Signalling c) (workers s) = 0.

Definition idle (p : worker) : Prop := p = Asleep ∨ p = Exited.

Record pool_ok (s : ThreadPool) : Prop := {
  ok_calls : ∀ c, match calls s !! c with Some k => call_ok c k s | None => unknown c s end;
  ok_workers : workers s ≠ [];
  ok_open : shutdown s = Open → Exited ∉ workers s;
  ok_woken : shutdown s = Notified → Asleep ∉ workers s;
  (* no wake-up is lost *)
  ok_served : tasks s ≠ [] → shutdown s = Open →
    (∃ p, p ∈ workers s ∧ ~ idle p) ∨ (∃ c k i, calls s !! c = Some k ∧ at_ k = Notifying i)
}.

Lemma own_app c l l' : own c (l ++ l') = own c l ++ own c l'.
Proof. unfold own. by rewrite filter_app, fmap_app. Qed.

Lemma own_cons c t l : own c (t :: l) = (if decide (t.1 = c) then [t.2] else []) ++ own c l.
Proof. unfold own. rewrite filter_cons. by case_decide. Qed.

Lemma number_insert q (ws : list worker) w p p' : ws !! w = Some p →
  number q (<[w := p']> ws) + (if decide (q = p) then 1 else 0) = number q ws + (if decide (q = p') then 1 else 0).
Proof.
  intros Hw. unfold number. rewrite (insert_take_drop _ _ _ (lookup_lt_Some _ _ _ Hw)). rewrite <- (take_drop_middle ws w p Hw) at 3.
  rewrite !filter_app, !filter_cons. repeat case_decide; rewrite !length_app; simpl; lia.
Qed.

Lemma held_insert c (ws : list worker) w p p' : ws !! w = Some p →
  in_hand c p ++ held c (<[w := p']> ws) ≡ₚ in_hand c p' ++ held c ws.
Proof.
  intros Hw. unfold held. rewrite (insert_take_drop _ _ _ (lookup_lt_Some _ _ _ Hw)). rewrite <- (take_drop_middle ws w p Hw) at 3.
  rewrite !fmap_app, !fmap_cons, !concat_app. simpl. solve_Permutation.
Qed.

(** What remains of a call's state when a worker passes from [p] to [p']. *)
Lemma worker_moves c (ws : list worker) w p p' : ws !! w = Some p →
  (in_hand c p ++ held c (<[w := p']> ws) ≡ₚ in_hand c p' ++ held c ws) ∧
  (∀ q, number q (<[w := p']> ws) + (if decide (q = p) then 1 else 0) = number q ws + (if decide (q = p') then 1 else 0)).
Proof. intros Hw. split; [by apply held_insert|]. intros q. by apply number_insert. Qed.

Lemma number_in q (ws : list worker) : 0 < number q ws ↔ q ∈ ws.
Proof.
  unfold number. split.
  - intros H. destruct (filter (q =.) ws) as [|x l] eqn:E; [simpl in H; lia|].
    assert (Hx : x ∈ filter (q =.) ws) by (rewrite E; by left). apply list_elem_of_filter in Hx as [<- ?]. done.
  - intros H. assert (Hx : q ∈ filter (q =.) ws) by by apply list_elem_of_filter.
    destruct (filter (q =.) ws); [by apply elem_of_nil in Hx|]. simpl. lia.
Qed.

(** A part of [seq 0 n] that is the whole length leaves nothing for the others. *)
Lemma share_bound c k s : call_ok c k s →
  length (own c (runs s)) + length (held c (workers s)) + length (own c (tasks s)) = pushed k ∧ pushed k ≤ count k.
Proof.
  intros H. split.
  - pose proof (Permutation_length (ok_share _ _ _ H)) as L. rewrite !length_app, length_seq in L. lia.
  - pose proof (ok_shape _ _ _ H) as S. unfold shape, pushed in *. destruct (at_ k); lia.
Qed.

(** A call's part of the state is all that [call_ok] looks at. *)
Lemma call_ok_same c k s s' : call_ok c k s →
  own c (runs s') = own c (runs s) → held c (workers s') ≡ₚ held c (workers s) → own c (tasks s') = own c (tasks s) →
  (∀ q, q = Counting c ∨ q = Completing c ∨ q = Signalling c → number q (workers s') = number q (workers s)) → call_ok c k s'.
Proof.
  intros [] HR HH HQ HN. pose proof (HN (Counting c) ltac:(tauto)) as H1. pose proof (HN (Completing c) ltac:(tauto)) as H2.
  pose proof (HN (Signalling c) ltac:(tauto)) as H3. constructor; rewrite ?H1, ?H2, ?H3, ?HR, ?HQ; try done.
  - by rewrite HH.
  - intros Hc. destruct (ok_inline0 Hc) as (E & ? & ?). split; [|done]. apply Permutation_nil_r. by rewrite HH, E.
Qed.

Lemma unknown_same c s s' : unknown c s →
  own c (runs s') = own c (runs s) → held c (workers s') ≡ₚ held c (workers s) → own c (tasks s') = own c (tasks s) →
  (∀ q, q = Counting c ∨ q = Completing c ∨ q = Signalling c → number q (workers s') = number q (workers s)) → unknown c s'.
Proof.
  intros [H1 H2] HR HH HQ HN. unfold unknown. rewrite !HN by tauto. split; [|done]. rewrite HR, HQ. apply Permutation_nil_r. by rewrite HH, H1.
Qed.

(** The state of the calls after a step that changes call [c0] only. *)
Definition calls_ok (s : ThreadPool) : Prop := ∀ c, match calls s !! c with Some k => call_ok c k s | None => unknown c s end.

Lemma calls_frame (c0 : nat) s s' (k' : Call) :
  calls_ok s → is_Some (calls s !! c0) → calls s' = <[c0 := k']> (calls s) → call_ok c0 k' s' →
  (∀ c, c ≠ c0 → own c (runs s') = own c (runs s) ∧ held c (workers s') ≡ₚ held c (workers s) ∧ own c (tasks s') = own c (tasks s) ∧
    (∀ q, q = Counting c ∨ q = Completing c ∨ q = Signalling c → number q (workers s') = number q (workers s))) →
  calls_ok s'.
Proof.
  intros Hs Hk0 E H0 HF c. rewrite E. destruct (decide (c = c0)) as [->|Hc].
  - rewrite list_lookup_insert_eq by by apply lookup_lt_is_Some. done.
  - rewrite list_lookup_insert_ne by done. pose proof (Hs c) as HC. destruct (HF c Hc) as (H1 & H2 & H3 & H4).
    destruct (calls s !! c) eqn:Ec; [by eapply call_ok_same|by eapply unknown_same].
Qed.

Lemma calls_frame_none s s' : calls_ok s → calls s' = calls s →
  (∀ c, own c (runs s') = own c (runs s) ∧ held c (workers s') ≡ₚ held c (workers s) ∧ own c (tasks s') = own c (tasks s) ∧
    (∀ q, q = Counting c ∨ q = Completing c ∨ q = Signalling c → number q (workers s') = number q (workers s))) →
  calls_ok s'.
Proof.
  intros Hs E HF c. rewrite E. pose proof (Hs c) as HC. destruct (HF c) as (H1 & H2 & H3 & H4).
  destruct (calls s !! c) eqn:Ec; [by eapply call_ok_same|by eapply unknown_same].
Qed.

(** The steps of a worker leave the other calls alone. *)
Ltac parts := cbn [with_worker with_call with_tasks with_run with_shutdown call_at workers tasks shutdown calls runs count at_ remaining done_].
Ltac moved Hw := parts; intros ? [->|[->| ->]];
  match type of Hw with ?ws !! ?w = Some ?p =>
    match goal with |- number ?q (<[w := ?p']> _) = _ => pose proof (number_insert q ws w p p' Hw); repeat case_decide; (congruence || lia) end end.
Ltac hands Hw := parts;
  match type of Hw with ?ws !! ?w = Some ?p =>
    match goal with |- context [held ?c (<[w := ?p']> _)] =>
      let H := fresh in pose proof (held_insert c ws w p p' Hw) as H; cbn [in_hand] in H; repeat case_decide; try congruence; simpl in H; try exact H end end.
Ltac numbers Hw := parts;
  match type of Hw with ?ws !! ?w = Some ?p =>
    repeat match goal with
    | |- context [number ?q (<[w := ?p']> _)] =>
        let N := fresh "N" in pose proof (number_insert q ws w p p' Hw) as N;
        let m := fresh "m" in set (m := number q (<[w := p']> ws)) in *; clearbody m
    end; repeat case_decide; try congruence end.

Lemma step_take w s : calls_ok s → workers s !! w = Some Ready → calls_ok (take_task w s).
Proof.
  intros Hs Hw. unfold take_task. destruct (tasks s) as [|[c i] q] eqn:Et.
  - destruct (shutdown s); (eapply calls_frame_none; [exact Hs|done|]); intros c; (split_and!; [done|by hands Hw|done|moved Hw]).
  - assert (HQ : ∀ c', own c' (tasks s) = (if decide (c = c') then [i] else []) ++ own c' q) by (intros c'; by rewrite Et, own_cons).
    intros c'. pose proof (Hs c') as HC. unfold with_worker, with_tasks; cbn [calls].
    assert (Hsame : ∀ q', q' = Counting c' ∨ q' = Completing c' ∨ q' = Signalling c' → number q' (<[w := Running c i]> (workers s)) = number q' (workers s))
      by moved Hw.
    assert (HH : held c' (<[w := Running c i]> (workers s)) ++ own c' q ≡ₚ held c' (workers s) ++ own c' (tasks s)).
    { rewrite HQ. pose proof (held_insert c' _ w _ (Running c i) Hw) as H. cbn [in_hand] in H. simpl in H. rewrite H. case_decide; solve_Permutation. }
    destruct (calls s !! c') as [k|].
    + destruct HC. constructor; cbn [runs workers tasks]; rewrite ?Hsame by tauto; try done.
      * by rewrite HH.
      * intros Hc. destruct (ok_inline0 Hc) as (E1 & E2 & ?). rewrite E1, E2 in HH. apply Permutation_nil_r in HH. by apply app_eq_nil in HH as [-> ->].
    + destruct HC as [H1 H2]. split; cbn [runs workers tasks]; rewrite ?Hsame by tauto; [|done]. apply Permutation_nil_r. by rewrite HH, H1.
Qed.

Lemma step_finish w c i s : calls_ok s → workers s !! w = Some (Running c i) → calls_ok (with_run (c, i) (with_worker w (Counting c) s)).
Proof.
  intros Hs Hw c'. pose proof (Hs c') as HC. unfold with_run, with_worker; cbn [calls].
  assert (HR : own c' (runs s ++ [(c, i)]) = own c' (runs s) ++ if decide (c = c') then [i] else []).
  { rewrite own_app, own_cons. simpl. by rewrite app_nil_r. }
  pose proof (held_insert c' _ w _ (Counting c) Hw) as HH. cbn [in_hand] in HH. simpl in HH.
  assert (HS : own c' (runs s ++ [(c, i)]) ++ held c' (<[w := Counting c]> (workers s)) ++ own c' (tasks s) ≡ₚ
    own c' (runs s) ++ held c' (workers s) ++ own c' (tasks s)).
  { rewrite HR, <- HH. case_decide; solve_Permutation. }
  destruct (calls s !! c') as [k|].
  - pose proof (share_bound _ _ _ HC) as HB. destruct HC.
    constructor; cbn [runs workers tasks]; numbers Hw; rewrite ?HS; rewrite ?HR, ?length_app; simpl; try done; try (intros; lia).
    all: try (intros; destruct ok_last0; auto; right; lia).
    all: try (intros; pose proof (ok_sleeping0 ltac:(done) ltac:(done)); lia).
    all: try (intros Hc; pose proof (ok_remaining0 Hc); lia).
    + subst c'. intros Hc. destruct (ok_inline0 Hc) as (E1 & E2 & ?). rewrite E1 in HH. by apply Permutation_nil_r in HH.
    + intros Hc. destruct (ok_inline0 Hc) as (E1 & E2 & ?). rewrite E1 in HH. simpl in HH.
      apply Permutation_nil_r in HH. split_and!; [done|done|lia].
  - destruct HC as [H1 H2]. split; cbn [runs workers tasks]; [apply Permutation_nil_r; by rewrite HS, H1|].
    apply app_eq_nil in H1 as [_ H1]. apply app_eq_nil in H1 as [H1 _]. rewrite H1 in HH. numbers Hw; [|lia].
    subst c'. by apply Permutation_nil_r in HH.
Qed.

(** A step of one worker with its call [c]. *)
Lemma calls_worker w p p' c k k' s : calls_ok s → workers s !! w = Some p → calls s !! c = Some k →
  (∀ c', c' ≠ c → in_hand c' p = [] ∧ in_hand c' p' = []) →
  (∀ c' q, c' ≠ c → q = Counting c' ∨ q = Completing c' ∨ q = Signalling c' → q ≠ p ∧ q ≠ p') →
  call_ok c k' (with_worker w p' (with_call c k' s)) → calls_ok (with_worker w p' (with_call c k' s)).
Proof.
  intros Hs Hw Hk Hh Hq HC. apply (calls_frame c s _ k'); [done|by rewrite Hk|done|done|]. intros c' Hc'. parts.
  split_and!; [done| |done|].
  - pose proof (held_insert c' _ w _ p' Hw) as H. destruct (Hh c' Hc') as [E1 E2]. by rewrite E1, E2 in H.
  - intros q Hqc. destruct (Hq c' q Hc' Hqc). pose proof (number_insert q _ w _ p' Hw) as HN. rewrite !decide_False in HN by done. lia.
Qed.

Ltac other_call := intros; naive_solver.

Lemma step_count w c k s : calls_ok s → workers s !! w = Some (Counting c) → calls s !! c = Some k →
  calls_ok (with_worker w (if remaining k =? 1 then Completing c else Ready)
    (with_call c (mkCall (count k) (at_ k) (remaining k - 1) (done_ k)) s)).
Proof.
  intros Hs Hw Hk. pose proof (Hs c) as HC. rewrite Hk in HC. pose proof (share_bound _ _ _ HC) as HB.
  assert (Hn : 0 < number (Counting c) (workers s)) by by apply number_in, (list_elem_of_lookup_2 _ w).
  destruct (decide (count k < 2)) as [Hi|Hi]; [pose proof (ok_inline _ _ _ HC Hi); lia|].
  pose proof (ok_remaining _ _ _ HC ltac:(lia)) as HR.
  eapply calls_worker; [done|exact Hw|exact Hk|by destruct (_ =? _)|destruct (_ =? _); other_call|].
  pose proof (held_insert c _ w _ (if remaining k =? 1 then Completing c else Ready) Hw) as HH.
  assert (HH' : held c (<[w := if remaining k =? 1 then Completing c else Ready]> (workers s)) ≡ₚ held c (workers s))
    by (destruct (remaining k =? 1); cbn [in_hand] in HH; simpl in HH; exact HH). clear HH.
  destruct HC. destruct (Nat.eqb_spec (remaining k) 1) as [E|E]; constructor; numbers Hw; try done; try lia.
  all: try by rewrite HH'.
  all: try (intros; pose proof (ok_done0 ltac:(lia) ltac:(done)); lia).
  all: try (intros; pose proof (ok_sleeping0 ltac:(done) ltac:(done)); lia).
  all: intros; try lia. all: try (right; lia).
Qed.

Lemma step_complete w c k s : calls_ok s → workers s !! w = Some (Completing c) → calls s !! c = Some k →
  calls_ok (with_worker w (Signalling c) (with_call c (mkCall (count k) (at_ k) (remaining k) true) s)).
Proof.
  intros Hs Hw Hk. pose proof (Hs c) as HC. rewrite Hk in HC.
  assert (Hn : 0 < number (Completing c) (workers s)) by by apply number_in, (list_elem_of_lookup_2 _ w).
  eapply calls_worker; [done|exact Hw|exact Hk|done|other_call|].
  pose proof (held_insert c _ w _ (Signalling c) Hw) as HH. cbn [in_hand] in HH. simpl in HH.
  destruct HC. pose proof (ok_completing0 Hn). constructor; numbers Hw; try done; try (intros; lia).
  all: try by rewrite HH.
  all: intros Hi; try (pose proof (ok_remaining0 Hi)); try (pose proof (ok_inline0 Hi)); try lia; tauto.
Qed.

Lemma step_signal w c k s : calls_ok s → workers s !! w = Some (Signalling c) → calls s !! c = Some k →
  calls_ok (with_worker w Ready (with_call c (call_at (if decide (at_ k = Sleeping) then Testing else at_ k) k) s)).
Proof.
  intros Hs Hw Hk. pose proof (Hs c) as HC. rewrite Hk in HC.
  assert (Hn : 0 < number (Signalling c) (workers s)) by by apply number_in, (list_elem_of_lookup_2 _ w).
  eapply calls_worker; [done|exact Hw|exact Hk|done|other_call|].
  pose proof (held_insert c _ w _ Ready Hw) as HH. cbn [in_hand] in HH. simpl in HH.
  destruct HC. constructor; numbers Hw; try done; try (intros; lia).
  all: unfold shape, pushed in *; parts; try match goal with E : at_ _ = Sleeping |- _ => rewrite E in * end; rewrite ?HH; try done.
  all: try (intros; pose proof (ok_remaining0 ltac:(done)); lia).
  all: try (intros; destruct (ok_last0 ltac:(done) ltac:(done)); [by left|right; lia]).
  all: try (intros; pose proof (ok_completing0 ltac:(lia)); lia).
Qed.

(** The steps of the threads that call: the workers stay where they are. *)
Lemma calls_caller c k k' s s' : calls_ok s → calls s !! c = Some k → s' = with_call c k' s → (call_ok c k s → call_ok c k' s') → calls_ok s'.
Proof. intros Hs Hk -> HC. pose proof (Hs c) as H. rewrite Hk in H. apply (calls_frame c s _ k'); [done|by rewrite Hk|done|by apply HC|done]. Qed.

Lemma calls_wake w s : calls_ok s → workers s !! w = Some Asleep → calls_ok (with_worker w Ready s).
Proof. intros Hs Hw. eapply calls_frame_none; [exact Hs|done|]. intros c. split_and!; [done|by hands Hw|done|moved Hw]. Qed.

Lemma step_push c i k s : calls_ok s → calls s !! c = Some k → 2 ≤ count k → at_ k = Pushing i →
  calls_ok (with_tasks (tasks s ++ [(c, i)]) (with_call c (call_at (Notifying i) k) s)).
Proof.
  intros Hs Hk Hc Ha. pose proof (Hs c) as HC. rewrite Hk in HC.
  assert (HQ : ∀ c', own c' (tasks s ++ [(c, i)]) = own c' (tasks s) ++ if decide (c = c') then [i] else []).
  { intros c'. rewrite own_app, own_cons. simpl. by rewrite app_nil_r. }
  apply (calls_frame c s _ (call_at (Notifying i) k)); [done|by rewrite Hk|done| |].
  - pose proof (share_bound _ _ _ HC) as HB. destruct HC. unfold shape, pushed in *. rewrite Ha in *.
    constructor; unfold shape, pushed; parts; rewrite ?HQ, ?decide_True by done; try done; try lia.
    rewrite seq_S, <- ok_share0. solve_Permutation.
  - intros c' Hc'. parts. rewrite HQ, decide_False by done. by rewrite app_nil_r.
Qed.

Lemma step_notify c i k s : calls_ok s → calls s !! c = Some k → at_ k = Notifying i → calls_ok (with_call c (after_push i k) s).
Proof.
  intros Hs Hk Ha. eapply calls_caller; [done|exact Hk|done|]. intros []. unfold after_push, shape, pushed in *. rewrite Ha in *.
  destruct (Nat.ltb_spec (S i) (count k)); constructor; unfold shape, pushed; parts; try done; try lia.
  by replace (count k) with (S i) by lia.
Qed.

Lemma step_test c k s : calls_ok s → calls s !! c = Some k → at_ k = Testing →
  calls_ok (with_call c (call_at (if done_ k then Returned else Sleeping) k) s).
Proof.
  intros Hs Hk Ha. eapply calls_caller; [done|exact Hk|done|]. intros []. unfold shape, pushed in *. rewrite Ha in *.
  destruct (done_ k) eqn:Ed; constructor; unfold shape, pushed; parts; rewrite ?Ed; try done.
Qed.

Lemma step_wake_caller c k s : calls_ok s → calls s !! c = Some k → at_ k = Sleeping → calls_ok (with_call c (call_at Testing k) s).
Proof.
  intros Hs Hk Ha. eapply calls_caller; [done|exact Hk|done|]. intros []. unfold shape, pushed in *. rewrite Ha in *.
  constructor; unfold shape, pushed; parts; try done.
Qed.

Lemma step_inline c k s : calls_ok s → calls s !! c = Some k → at_ k = Pushing 0 → count k < 2 →
  calls_ok (if count k =? 0 then with_call c (call_at Returned k) s else with_run (c, 0) (with_call c (call_at Returned k) s)).
Proof.
  intros Hs Hk Ha Hc. destruct (Nat.eqb_spec (count k) 0) as [E|E].
  - eapply calls_caller; [done|exact Hk|done|]. intros []. unfold shape, pushed in *. rewrite Ha in *.
    constructor; unfold shape, pushed; parts; try done; try lia. by rewrite E.
  - pose proof (Hs c) as HC. rewrite Hk in HC.
    assert (HR : ∀ c', own c' (runs s ++ [(c, 0)]) = own c' (runs s) ++ if decide (c = c') then [0] else []).
    { intros c'. rewrite own_app, own_cons. simpl. by rewrite app_nil_r. }
    apply (calls_frame c s _ (call_at Returned k)); [done|by rewrite Hk|done| |].
    + destruct HC. unfold shape, pushed in *. rewrite Ha in *. constructor; unfold shape, pushed; parts; rewrite ?HR, ?decide_True by done; try done; try lia.
      destruct (ok_inline0 Hc) as (E1 & E2 & _). rewrite E1, E2 in *. apply Permutation_nil_r, app_eq_nil in ok_share0 as [-> _].
      by replace (count k) with 1 by lia.
    + intros c' Hc'. parts. rewrite HR, decide_False by done. by rewrite app_nil_r.
Qed.

(** ** Every state that can be reached *)

Definition awake (ws : list worker) : Prop := ∃ p, p ∈ ws ∧ ~ idle p.
Definition to_notify (s : ThreadPool) : Prop := ∃ c k i, calls s !! c = Some k ∧ at_ k = Notifying i.

Lemma awake_insert (ws : list worker) w p p' : ws !! w = Some p → ~ idle p' → awake (<[w := p']> ws).
Proof. intros Hw Hp. exists p'. split; [|done]. apply (list_elem_of_lookup_2 _ w), list_lookup_insert_eq. by eapply lookup_lt_Some. Qed.

Lemma to_notify_other c k k' s : calls s !! c = Some k → (∀ i, at_ k ≠ Notifying i) → to_notify s → to_notify (with_call c k' s).
Proof.
  intros Hk Hn (c' & k1 & i & Hc' & Ha). exists c', k1, i. split; [|done]. parts. rewrite list_lookup_insert_ne; [done|].
  intros ->. rewrite Hk in Hc'. injection Hc' as ->. by destruct (Hn i).
Qed.

Lemma elem_of_insert (ws : list worker) w p q : q ∈ <[w := p]> ws → q = p ∨ q ∈ ws.
Proof.
  intros (j & Hj)%list_elem_of_lookup. apply list_lookup_insert_Some in Hj as [(_ & -> & _)|[_ Hj]]; [by left|right].
  by eapply list_elem_of_lookup_2.
Qed.

(** The pool's part of the invariant after a worker's step. *)
Lemma pool_worker w p p' s s' : pool_ok s → workers s !! w = Some p → workers s' = <[w := p']> (workers s) → shutdown s' = shutdown s →
  calls_ok s' → (shutdown s = Open → p' ≠ Exited) → (shutdown s = Notified → p' ≠ Asleep) →
  (tasks s' ≠ [] → shutdown s = Open → ~ idle p') → pool_ok s'.
Proof.
  intros [] Hw Ews Esh HC He Ha Hi. constructor; rewrite ?Ews, ?Esh.
  - exact HC.
  - intros E. apply (f_equal length) in E. rewrite length_insert in E. by destruct (workers s).
  - intros Ho [Hx|Hx]%elem_of_insert; [by destruct (He Ho)|by apply ok_open0].
  - intros Ho [Hx|Hx]%elem_of_insert; [by destruct (Ha Ho)|by apply ok_woken0].
  - intros Ht Ho. left. fold (awake (<[w := p']> (workers s))). eapply awake_insert; [done|auto].
Qed.

(** ... and after a caller's. *)
Lemma pool_caller s s' : pool_ok s → workers s' = workers s → shutdown s' = shutdown s → calls_ok s' →
  (tasks s' ≠ [] → shutdown s = Open → (tasks s ≠ [] ∧ (to_notify s → to_notify s')) ∨ awake (workers s) ∨ to_notify s') → pool_ok s'.
Proof.
  intros [] Ews Esh HC H. constructor; rewrite ?Ews, ?Esh; try done.
  intros Ht Ho. destruct (H Ht Ho) as [[Ht' Hn]|[Ha|Hn]]; [|by left|by right]. destruct (ok_served0 Ht' Ho) as [Ha|Hx]; [by left|right; by apply Hn].
Qed.

(** [x ← o; f x = Some y] and the guards, taken apart. *)
Ltac open_step Hs k Hk :=
  let E := fresh "E" in
  match type of Hs with context [calls ?s !! ?c] => destruct (calls s !! c) as [k|] eqn:Hk; [cbn [mbind option_bind mret option_ret] in Hs|discriminate Hs] end.
Ltac open_guard Hs Hg := case_guard as Hg; cbn [mbind option_bind mret option_ret] in Hs; [|discriminate Hs].

Lemma pool_call c k k' s : pool_ok s → calls s !! c = Some k → (∀ i, at_ k ≠ Notifying i) →
  calls_ok (with_call c k' s) → pool_ok (with_call c k' s).
Proof.
  intros HP Hk Hn HC. eapply (pool_caller s); [done|done|done|done|]. intros Ht _. left. split; [exact Ht|]. by eapply to_notify_other.
Qed.

Lemma pool_run t s : pool_ok s → calls_ok (with_run t s) → pool_ok (with_run t s).
Proof. intros HP HC. eapply (pool_caller s); [done|done|done|done|]. intros Ht _. left. by split. Qed.

Lemma step_ok_caller e s s' : pool_ok s → step e s = Some s' →
  match e with Call0 _ | Push _ | Notify _ _ | TestDone _ | WakeCaller _ => True | _ => False end → pool_ok s'.
Proof.
  intros HP Hs. pose proof (ok_calls _ HP) as HC. change (calls_ok s) in HC.
  destruct e as [c|c|c woken|c|w|w|w|w|w| | |w|c]; intros []; cbn [step] in Hs; open_step Hs k Hk.
  - open_guard Hs Ha. pose proof (step_inline c k s HC Hk Ha) as HC'.
    destruct (Nat.eqb_spec (count k) 0) as [E|E]; [|destruct (Nat.eqb_spec (count k) 1) as [E1|]]; simplify_eq.
    + apply (pool_call c k); [done|done|intros ?; congruence|]. apply HC'. lia.
    + assert (HC1 : calls_ok (with_run (c, 0) (with_call c (call_at Returned k) s))) by (apply HC'; lia).
      eapply (pool_caller s); [done|done|done|done|]. intros Ht _. left. split; [exact Ht|].
      apply (to_notify_other c k (call_at Returned k) s); [done|]. intros ?. congruence.
  - open_guard Hs Hc. destruct (at_ k) eqn:Ha; simplify_eq. eapply (pool_caller s); [done|done|done|by apply step_push|].
    intros _ _. right. right. eexists c, _, _. split; [apply list_lookup_insert_eq; by eapply lookup_lt_Some|done].
  - destruct (at_ k) eqn:Ha; try discriminate. pose proof (step_notify c i k s HC Hk Ha) as HC'.
    destruct woken as [w|]; open_guard Hs Hw; injection Hs as <-.
    + eapply (pool_worker w Asleep Ready s); try done; [by apply calls_wake|]. intros _ _ [|]; done.
    + eapply (pool_caller s); [done|done|done|done|]. intros _ Ho. right. left. destruct (workers s) as [|p ws] eqn:Ew; [by destruct (ok_workers _ HP)|].
      exists p. split; [by left|]. intros [->| ->]; [apply Hw; parts; rewrite Ew; by left|].
      apply (ok_open _ HP Ho). rewrite Ew. by left.
  - open_guard Hs Ha. injection Hs as <-. apply (pool_call c k); [done|done|intros ?; congruence|by apply step_test].
  - open_guard Hs Ha. injection Hs as <-. apply (pool_call c k); [done|done|intros ?; congruence|by apply step_wake_caller].
Qed.

Lemma calls_wake_all s : calls_ok s → calls_ok (with_shutdown Notified ((λ p, if decide (p = Asleep) then Ready else p) <$> workers s) s).
Proof.
  intros HC. eapply calls_frame_none; [exact HC|done|]. intros c. parts. split_and!; [done| |done|].
  - unfold held. induction (workers s) as [|p ws IH]; [done|]. simpl. rewrite IH. by case_decide; subst.
  - intros q Hq. unfold number. induction (workers s) as [|p ws IH]; [done|]. rewrite fmap_cons, !filter_cons.
    repeat case_decide; simpl; subst; try naive_solver; try by rewrite IH.
Qed.

Lemma step_ok_worker e s s' : pool_ok s → step e s = Some s' →
  match e with Call0 _ | Push _ | Notify _ _ | TestDone _ | WakeCaller _ => False | _ => True end → pool_ok s'.
Proof.
  intros HP Hs. pose proof (ok_calls _ HP) as HC. change (calls_ok s) in HC.
  destruct e as [c|c|c woken|c|w|w|w|w|w| | |w|c]; intros []; cbn [step] in Hs.
  - open_guard Hs Hw. injection Hs as <-. pose proof (step_take w s HC Hw) as HC'. unfold take_task in *. destruct (tasks s) as [|[c i] q] eqn:Et.
    + destruct (shutdown s) eqn:Esh; eapply (pool_worker w Ready _ s); try done; try (by rewrite Esh); parts; by rewrite Et.
    + eapply (pool_worker w Ready _ s); try done. intros _ _ [|]; done.
  - destruct (workers s !! w) as [[]|] eqn:Hw; simplify_eq. eapply (pool_worker w _ _ s); [done|exact Hw|done|done|by apply step_finish|done|done|].
    intros _ _ [|]; done.
  - destruct (workers s !! w) as [[]|] eqn:Hw; try discriminate. open_step Hs k Hk. injection Hs as <-. pose proof (step_count w c k s HC Hw Hk) as HC'.
    eapply (pool_worker w _ _ s); [done|exact Hw|done|done|exact HC'| | |]; destruct (_ =? 1); try done; intros _ _ [|]; done.
  - destruct (workers s !! w) as [[]|] eqn:Hw; try discriminate. open_step Hs k Hk. injection Hs as <-.
    eapply (pool_worker w _ _ s); [done|exact Hw|done|done|by apply step_complete|done|done|]. intros _ _ [|]; done.
  - destruct (workers s !! w) as [[]|] eqn:Hw; try discriminate. open_step Hs k Hk. injection Hs as <-.
    eapply (pool_worker w _ _ s); [done|exact Hw|done|done|by apply step_signal|done|done|]. intros _ _ [|]; done.
  - open_guard Hs Ho. injection Hs as <-. constructor; parts; try done; [|apply HP].
    exact (calls_frame_none s (with_shutdown Shut (workers s) s) HC eq_refl (λ c, conj eq_refl (conj (reflexivity _) (conj eq_refl (λ q _, eq_refl))))).
  - open_guard Hs Ho. injection Hs as <-. constructor; parts; try done; [by apply calls_wake_all|intros E; by apply fmap_nil_inv, (ok_workers _ HP) in E|].
    intros _ (p & Hp & _)%list_elem_of_fmap. case_decide; congruence.
  - open_guard Hs Hw. injection Hs as <-. eapply (pool_worker w Asleep Ready s); try done; [by apply calls_wake|]. intros _ _ [|]; done.
Qed.

Lemma pool_step_ok e s s' : pool_ok s → step e s = Some s' → pool_ok s'.
Proof. intros HP Hs. destruct e; (eapply step_ok_caller; by eauto) || (eapply step_ok_worker; by eauto). Qed.

Lemma pool_run_ok es s s' : pool_ok s → run_events es s = Some s' → pool_ok s'.
Proof.
  revert s. induction es as [|e es IH]; simpl; intros s HP Hr; [by injection Hr as <-|].
  destruct (step e s) as [s1|] eqn:E; [|done]. eapply IH; [by eapply pool_step_ok|exact Hr].
Qed.

Lemma start_ok n counts : pool_ok (start n counts).
Proof.
  constructor; simpl; try done.
  - intros c. assert (HH : held c (replicate (n `max` 1) Ready) = []) by (unfold held; induction (n `max` 1); [done|]; done).
    assert (HN : ∀ q, q ≠ Ready → number q (replicate (n `max` 1) Ready) = 0).
    { intros q Hq. unfold number. rewrite filter_none; [done|]. apply Forall_replicate. done. }
    rewrite list_lookup_fmap. destruct (counts !! c) as [m|]; simpl.
    + constructor; simpl; rewrite ?HH, ?HN by done; try done; try lia. by left.
    + split; simpl; rewrite ?HH, ?HN by done; done.
  - by destruct n.
  - intros _ Hx. by apply elem_of_replicate in Hx as [Hx _].
Qed.

(** ** Every call ends *)

Definition worker_weight (p : worker) : nat :=
  match p with Ready => 1 | Running _ _ => 6 | Counting _ => 5 | Completing _ => 4 | Signalling _ => 3 | Asleep | Exited => 0 end.
Definition call_weight (k : Call) : nat :=
  match at_ k with
  | Pushing i => 9 * (count k - i) + 1 | Notifying i => 9 * (count k - S i) + 3
  | Testing => 1 | Sleeping | Returned => 0
  end.
Definition closing_weight (n : nat) (d : closing) : nat := match d with Open => n + 2 | Shut => n + 1 | Notified => 0 end.

(** What is left to do. *)
Definition work (s : ThreadPool) : nat :=
  sum_list_with worker_weight (workers s) + 6 * length (tasks s) + sum_list_with call_weight (calls s) + closing_weight (length (workers s)) (shutdown s).

Lemma sum_with_insert {A : Type} (f : A → nat) (l : list A) i x y : l !! i = Some x → sum_list_with f (<[i := y]> l) + f x = sum_list_with f l + f y.
Proof.
  intros Hi. rewrite (insert_take_drop _ _ _ (lookup_lt_Some _ _ _ Hi)). rewrite <- (take_drop_middle l i x Hi) at 3.
  rewrite !sum_list_with_app. simpl. lia.
Qed.

Definition spurious (e : event) : Prop := match e with WakeWorker _ | WakeCaller _ => True | _ => False end.
Definition external (e : event) : Prop := spurious e ∨ e = ShutDown.

(** The sums after the step of a worker and of a call. *)
Ltac weigh :=
  repeat match goal with
  | Hw : workers ?s !! ?w = Some ?p |- context [sum_list_with worker_weight (<[?w := ?p']> (workers ?s))] =>
      lazymatch goal with _ : sum_list_with worker_weight (<[w := p']> (workers s)) + _ = _ |- _ => fail | _ => idtac end;
      let H := fresh in pose proof (sum_with_insert worker_weight (workers s) w p p' Hw) as H; cbn [worker_weight] in H
  | Hk : calls ?s !! ?c = Some ?k |- context [sum_list_with call_weight (<[?c := ?k']> (calls ?s))] =>
      lazymatch goal with _ : sum_list_with call_weight (<[c := k']> (calls s)) + _ = _ |- _ => fail | _ => idtac end;
      let H := fresh in pose proof (sum_with_insert call_weight (calls s) c k k' Hk) as H;
      unfold call_weight at 2 4 in H; cbn [call_at at_ count] in H
  end.

Lemma step_work_caller c e s s' : pool_ok s → step e s = Some s' →
  e = Call0 c ∨ e = Push c ∨ (∃ woken, e = Notify c woken) ∨ e = TestDone c → work s' < work s.
Proof.
  intros HP Hs He. pose proof (ok_calls _ HP c) as HC.
  destruct He as [->|[->|[[woken ->]| ->]]]; cbn [step] in Hs; open_step Hs k Hk; (try open_guard Hs Hg); pose proof (ok_shape _ _ _ HC) as Hsh; unfold shape in Hsh.
  - destruct (count k =? 0) eqn:E0; [|destruct (count k =? 1) eqn:E1]; simplify_eq; unfold work; parts; weigh; rewrite Hg in *; lia.
  - destruct (at_ k) eqn:Ha; simplify_eq. unfold work; parts; weigh. rewrite Ha, length_app in *. simpl. lia.
  - destruct (at_ k) eqn:Ha; try discriminate. unfold after_push in Hs. destruct woken as [w|]; open_guard Hs Hw; injection Hs as <-.
    + unfold work. revert Hw. parts. intros Hw. weigh. rewrite length_insert, Ha in *. destruct (_ <? _); cbn [at_] in *; lia.
    + unfold work. parts. weigh. rewrite Ha in *. destruct (_ <? _); cbn [at_] in *; lia.
  - injection Hs as <-. unfold work. parts. weigh. rewrite Hg in *. destruct (done_ k); cbn [at_] in *; lia.
Qed.

Lemma wake_all_weight (ws : list worker) :
  sum_list_with worker_weight ((λ p, if decide (p = Asleep) then Ready else p) <$> ws) ≤ sum_list_with worker_weight ws + length ws.
Proof.
  induction ws as [|p ws IH]; [done|]. rewrite fmap_cons. cbn [sum_list_with length]. case_decide; subst; cbn [worker_weight]; lia.
Qed.

Lemma step_work e s s' : pool_ok s → step e s = Some s' → ~ spurious e → work s' < work s.
Proof.
  intros HP Hs Hn. destruct e as [c|c|c woken|c|w|w|w|w|w| | |w|c]; try (by destruct Hn); try (eapply (step_work_caller c); eauto; naive_solver); cbn [step] in Hs.
  - open_guard Hs Hw. injection Hs as <-. unfold take_task. destruct (tasks s) as [|[c i] q] eqn:Et; [destruct (shutdown s) eqn:Esh|];
      unfold work; parts; weigh; rewrite ?length_insert, ?Esh, ?Et; simpl; lia.
  - destruct (workers s !! w) as [[]|] eqn:Hw; simplify_eq. unfold work; parts; weigh; rewrite length_insert; lia.
  - destruct (workers s !! w) as [[]|] eqn:Hw; try discriminate. open_step Hs k Hk. injection Hs as <-.
    unfold work; parts; weigh. rewrite length_insert. destruct (at_ k), (remaining k =? 1); cbn [at_ count worker_weight] in *; lia.
  - destruct (workers s !! w) as [[]|] eqn:Hw; try discriminate. open_step Hs k Hk. injection Hs as <-.
    unfold work; parts; weigh. rewrite length_insert. repeat case_decide; destruct (at_ k); cbn [at_ count call_at worker_weight remaining] in *; try congruence; try lia.
  - destruct (workers s !! w) as [[]|] eqn:Hw; try discriminate. open_step Hs k Hk. injection Hs as <-.
    unfold work; parts; weigh. rewrite length_insert. repeat case_decide; destruct (at_ k); cbn [at_ count call_at worker_weight remaining] in *; try congruence; try lia.
  - open_guard Hs Ho. injection Hs as <-. unfold work; parts. rewrite Ho. simpl. lia.
  - open_guard Hs Ho. injection Hs as <-. unfold work; parts. rewrite Ho, length_fmap. pose proof (wake_all_weight (workers s)). simpl. lia.
Qed.

Lemma run_work es s s' : pool_ok s → run_events es s = Some s' → Forall (λ e, ~ spurious e) es → length es + work s' ≤ work s.
Proof.
  revert s. induction es as [|e es IH]; simpl; intros s HP Hr Hf; [injection Hr as <-; lia|].
  destruct (step e s) as [s1|] eqn:E; [|done]. apply Forall_cons in Hf as [He Hf].
  pose proof (step_work e s s1 HP E He). pose proof (IH s1 (pool_step_ok e s s1 HP E) Hr Hf). lia.
Qed.

(** Nothing is left to do in a pool that cannot move. *)
Definition stuck (s : ThreadPool) : Prop := ∀ e, ~ external e → step e s = None.

Lemma stuck_worker s p : pool_ok s → stuck s → p ∈ workers s → idle p.
Proof.
  intros HP Hst (w & Hw)%list_elem_of_lookup.
  assert (Hk : ∀ c, p = Counting c ∨ p = Completing c ∨ p = Signalling c → is_Some (calls s !! c)).
  { intros c Hp. pose proof (ok_calls _ HP c) as HC. destruct (calls s !! c); [done|]. destruct HC as [_ HN].
    assert (0 < number p (workers s)) by by apply number_in, (list_elem_of_lookup_2 _ w). destruct Hp as [->|[->| ->]]; lia. }
  destruct p as [| |c i|c|c|c|]; [|by left| | | | |by right].
  - pose proof (Hst (Take w) ltac:(intros [[]|]; done)) as H. cbn [step] in H. rewrite option_guard_True in H by done. discriminate.
  - pose proof (Hst (Finish w) ltac:(intros [[]|]; done)) as H. cbn [step] in H. by rewrite Hw in H.
  - destruct (Hk c ltac:(tauto)) as [k Ek]. pose proof (Hst (Count w) ltac:(intros [[]|]; done)) as H. cbn [step] in H. by rewrite Hw, Ek in H.
  - destruct (Hk c ltac:(tauto)) as [k Ek]. pose proof (Hst (Complete w) ltac:(intros [[]|]; done)) as H. cbn [step] in H. by rewrite Hw, Ek in H.
  - destruct (Hk c ltac:(tauto)) as [k Ek]. pose proof (Hst (Signal w) ltac:(intros [[]|]; done)) as H. cbn [step] in H. by rewrite Hw, Ek in H.
Qed.

Lemma stuck_caller s c k : pool_ok s → stuck s → calls s !! c = Some k → at_ k = Returned ∨ at_ k = Sleeping.
Proof.
  intros HP Hst Hk. pose proof (ok_calls _ HP c) as HC. rewrite Hk in HC. pose proof (ok_shape _ _ _ HC) as Hsh. unfold shape in Hsh.
  destruct (at_ k) as [i|i| | |] eqn:Ha; try tauto.
  - destruct (decide (2 ≤ count k)) as [H2|H2].
    + pose proof (Hst (Push c) ltac:(intros [[]|]; done)) as H. cbn [step] in H. rewrite Hk in H. simpl in H. rewrite option_guard_True in H by done.
      by rewrite Ha in H.
    + pose proof (Hst (Call0 c) ltac:(intros [[]|]; done)) as H. cbn [step] in H. rewrite Hk in H. simpl in H. rewrite option_guard_True in H.
      2: { rewrite Ha. f_equal. lia. }
      destruct (count k) as [|[|]]; [done|done|lia].
  - exfalso. destruct (decide (Asleep ∈ workers s)) as [Hs|Hs].
    + apply list_elem_of_lookup in Hs as [w Hw]. pose proof (Hst (Notify c (Some w)) ltac:(intros [[]|]; done)) as H. cbn [step] in H.
      rewrite Hk in H. simpl in H. rewrite Ha in H. by rewrite option_guard_True in H.
    + pose proof (Hst (Notify c None) ltac:(intros [[]|]; done)) as H. cbn [step] in H. rewrite Hk in H. simpl in H. rewrite Ha in H.
      by rewrite option_guard_True in H.
  - pose proof (Hst (TestDone c) ltac:(intros [[]|]; done)) as H. cbn [step] in H. rewrite Hk in H. simpl in H. by rewrite option_guard_True in H.
Qed.

(** A sleeping caller's tasks have not all run. *)
Lemma sleeper_waits s c k : pool_ok s → calls s !! c = Some k → at_ k = Sleeping → (∀ p, p ∈ workers s → idle p) → own c (tasks s) ≠ [].
Proof.
  intros HP Hk Ha Hi Hq. pose proof (ok_calls _ HP c) as HC. rewrite Hk in HC.
  assert (HN : ∀ q, ~ idle q → number q (workers s) = 0).
  { intros q Hq'. destruct (number q (workers s)) eqn:E; [done|]. destruct Hq'. apply Hi, number_in. lia. }
  assert (HH : held c (workers s) = []).
  { unfold held. revert Hi. clear. induction (workers s) as [|p ws IH]; intros Hi; [done|].
    rewrite fmap_cons. cbn [concat]. rewrite IH by (intros q Hq; apply Hi; by right).
    by destruct (Hi p ltac:(by left)) as [->| ->]. }
  assert (2 ≤ count k) as Hc by (pose proof (ok_shape _ _ _ HC) as Hsh; unfold shape in Hsh; by rewrite Ha in Hsh).
  pose proof (share_bound _ _ _ HC) as [HB _]. rewrite HH, Hq in HB. unfold pushed in HB. rewrite Ha in HB. simpl in HB.
  pose proof (ok_remaining _ _ _ HC Hc) as HR. rewrite HN in HR by (intros [|]; done).
  destruct (ok_last _ _ _ HC Hc ltac:(lia)) as [Hd|Hd]; [|rewrite HN in Hd by (intros [|]; done); lia].
  pose proof (ok_sleeping _ _ _ HC Ha Hd) as Hs. rewrite HN in Hs by (intros [|]; done). lia.
Qed.

Lemma own_nil c q : q = [] → own c q = [].
Proof. by intros ->. Qed.

Lemma stuck_done s : pool_ok s → stuck s →
  (shutdown s = Open → ∀ c k, calls s !! c = Some k → at_ k = Returned) ∧ (shutdown s ≠ Open → ∀ p, p ∈ workers s → p = Exited).
Proof.
  intros HP Hst. split.
  - intros Ho c k Hk. destruct (stuck_caller s c k HP Hst Hk) as [Ha|Ha]; [done|]. exfalso.
    eapply sleeper_waits; [exact HP|exact Hk|exact Ha|intros; by eapply stuck_worker|]. apply own_nil.
    destruct (tasks s) as [|t q] eqn:Et; [done|]. exfalso.
    destruct (ok_served _ HP ltac:(by rewrite Et) Ho) as [(p & Hp & Hi)|(c' & k' & i & Hc' & Ha')].
    + by apply Hi, (stuck_worker s).
    + destruct (stuck_caller s c' k' HP Hst Hc'); congruence.
  - intros Ho p Hp. destruct (stuck_worker s p HP Hst Hp) as [->|]; [|done]. exfalso. destruct (shutdown s) eqn:E; [done| |].
    + pose proof (Hst NotifyAll ltac:(intros [[]|]; done)) as H. cbn [step] in H. by rewrite option_guard_True in H.
    + by apply (ok_woken _ HP E).
Qed.

Definition returned (s : ThreadPool) (c : nat) : Prop := ∃ k, calls s !! c = Some k ∧ at_ k = Returned.

Lemma calls_count_insert (l : list Call) c k k' : l !! c = Some k → count k' = count k → count <$> <[c := k']> l = count <$> l.
Proof. intros Hk E. rewrite list_fmap_insert, E. apply list_insert_id. by rewrite list_lookup_fmap, Hk. Qed.

Lemma step_counts e s s' : step e s = Some s' → count <$> calls s' = count <$> calls s.
Proof.
  intros Hs. destruct e as [c|c|c woken|c|w|w|w|w|w| | |w|c]; cbn [step] in Hs.
  all: try (destruct (workers s !! w) as [[]|]; try discriminate Hs).
  all: try open_step Hs k Hk; try open_guard Hs Hg; simplify_eq; try done.
  all: try by eapply calls_count_insert.
  - destruct (count k =? 0); [|destruct (count k =? 1)]; simplify_eq; by eapply calls_count_insert.
  - destruct (at_ k); simplify_eq. by eapply calls_count_insert.
  - destruct (at_ k); try discriminate. destruct woken; open_guard Hs Hw; injection Hs as <-; by eapply calls_count_insert.
  - unfold take_task. destruct (tasks s) as [|[]]; [destruct (shutdown s)|]; done.
Qed.

Lemma run_counts es s s' : run_events es s = Some s' → count <$> calls s' = count <$> calls s.
Proof.
  revert s. induction es as [|e es IH]; simpl; intros s Hr; [by injection Hr as <-|].
  destruct (step e s) as [s1|] eqn:E; [|done]. by rewrite (IH s1 Hr), (step_counts e s s1 E).
Qed.

Lemma start_count n counts es s c k : run_events es (start n counts) = Some s → calls s !! c = Some k → counts !! c = Some (count k).
Proof.
  intros Hr Hk. pose proof (run_counts _ _ _ Hr) as HC. simpl in HC. rewrite <- list_fmap_compose in HC.
  rewrite (list_fmap_ext _ id _ ltac:(done)), list_fmap_id in HC. rewrite <- HC, list_lookup_fmap. by rewrite Hk.
Qed.

(** What a returned call has run, and what is left of it. *)
Lemma returned_share s c k : pool_ok s → calls s !! c = Some k → at_ k = Returned →
  own c (runs s) ≡ₚ seq 0 (count k) ∧ own c (tasks s) = [] ∧ held c (workers s) = [].
Proof.
  intros HP Hk Ha. pose proof (ok_calls _ HP c) as HC. rewrite Hk in HC.
  pose proof (ok_share _ _ _ HC) as HS. pose proof (share_bound _ _ _ HC) as [HB1 HB2].
  assert (HE : held c (workers s) = [] ∧ own c (tasks s) = []).
  { destruct (decide (count k < 2)) as [Hc|Hc]; [by destruct (ok_inline _ _ _ HC Hc) as (? & ? & _)|].
    pose proof (ok_done _ _ _ HC ltac:(lia) (ok_returned _ _ _ HC ltac:(lia) Ha)) as Hd. pose proof (ok_remaining _ _ _ HC ltac:(lia)) as HR.
    unfold pushed in *. rewrite Ha in *. split; apply length_zero_iff_nil; lia. }
  destruct HE as [E1 E2]. rewrite E1, E2, !app_nil_r in HS. unfold pushed in HS. by rewrite Ha in HS.
Qed.

(** C28: However its threads interleave, a call of parallel_for that has returned has run fn once for each number below its count; no task
    of it is left in the queue or in a worker's hands (fn is used by reference, and its owner may go away), and no fn(i) runs twice before that. *)
Theorem parallel_for_exact n counts es s c k :
  run_events es (start n counts) = Some s → calls s !! c = Some k →
  counts !! c = Some (count k) ∧ NoDup (own c (runs s)) ∧ (∀ i, i ∈ own c (runs s) → i < count k) ∧
  (at_ k = Returned → own c (runs s) ≡ₚ seq 0 (count k) ∧ own c (tasks s) = [] ∧ ∀ i, Running c i ∉ workers s).
Proof.
  intros Hr Hk. pose proof (pool_run_ok _ _ _ (start_ok n counts) Hr) as HP. pose proof (ok_calls _ HP c) as HC. rewrite Hk in HC.
  pose proof (ok_share _ _ _ HC) as HS. pose proof (share_bound _ _ _ HC) as [HB1 HB2].
  split; [by eapply start_count|]. split_and!.
  - pose proof (NoDup_seq 0 (pushed k)) as Hnd. rewrite <- HS in Hnd. by apply NoDup_app in Hnd as [? _].
  - intros i Hi. assert (Hin : i ∈ seq 0 (pushed k)) by (rewrite <- HS; apply elem_of_app; by left). apply elem_of_seq in Hin. lia.
  - intros Ha. destruct (returned_share s c k HP Hk Ha) as (E1 & E2 & E3). split_and!; [done|done|].
    intros i (w & Hw)%list_elem_of_lookup. assert (Hin : i ∈ held c (workers s)); [|rewrite E3 in Hin; by apply elem_of_nil in Hin].
    unfold held. rewrite list_elem_of_In, in_concat. exists [i]. split; [|by left]. apply list_elem_of_In, list_elem_of_fmap. exists (Running c i).
    split; [simpl; by rewrite decide_True|by eapply list_elem_of_lookup_2].
Qed.

Lemma ready_weight n : sum_list_with worker_weight (replicate n Ready) = n.
Proof. induction n as [|n IH]; [done|]. cbn [replicate sum_list_with]. by rewrite IH. Qed.

Lemma new_calls_weight counts : sum_list_with call_weight ((λ m, mkCall m (Pushing 0) m false) <$> counts) = sum_list_with (λ m, 9 * m + 1) counts.
Proof. induction counts as [|m l IH]; [done|]. rewrite fmap_cons. cbn [sum_list_with]. rewrite IH. unfold call_weight. cbn [at_ count]. by rewrite Nat.sub_0_r. Qed.

(** C29: No call of parallel_for waits for ever: whatever order the threads run in, as long as no wait returns for no reason there are at most so many
    steps, and when none of the pool's own steps is possible every call has returned (unless the pool is being destroyed: then every worker
    has left its loop, so that the destructor's join ends). *)
Theorem parallel_for_returns n counts es s :
  run_events es (start n counts) = Some s → Forall (λ e, ~ spurious e) es →
  length es ≤ 2 * (n `max` 1) + 2 + sum_list_with (λ m, 9 * m + 1) counts ∧
  (stuck s → (shutdown s = Open → ∀ c, c < length counts → returned s c) ∧ (shutdown s ≠ Open → ∀ p, p ∈ workers s → p = Exited)).
Proof.
  intros Hr Hf. pose proof (start_ok n counts) as H0. pose proof (pool_run_ok _ _ _ H0 Hr) as HP. split.
  - pose proof (run_work _ _ _ H0 Hr Hf) as HW. unfold work at 2 in HW. simpl in HW. rewrite length_replicate in HW.
    rewrite ready_weight, new_calls_weight in HW. lia.
  - intros Hst. destruct (stuck_done s HP Hst) as [HA HB]. split; [|done]. intros Ho c Hc.
    pose proof (run_counts _ _ _ Hr) as HC. apply (f_equal length) in HC. rewrite !length_fmap in HC. simpl in HC. rewrite length_fmap in HC.
    destruct (lookup_lt_is_Some_2 (calls s) c ltac:(lia)) as [k Hk]. exists k. split; [done|by eapply HA].
Qed.

(** ** A run *)

(** Two threads; two calls at the same time, of two tasks each. *)
Definition demo_events : list event :=
  [Take 0; Take 1; Push 0; Notify 0 (Some 1); Push 1; Notify 1 (Some 0); Push 0; Notify 0 None; TestDone 0; Take 1; Take 0; Push 1; Finish 0;
   Count 0; Take 0; Finish 0; Finish 1; Count 1; Count 0; Complete 0; Signal 0; Notify 1 None; TestDone 0].

Definition demo_pool : ThreadPool := default (start 2 []) (run_events demo_events (start 2 [2; 2])).

Lemma demo_run : run_events demo_events (start 2 [2; 2]) = Some demo_pool.
Proof. vm_compute. reflexivity. Qed.

Lemma parallel_for_exact_witness : own 0 (runs demo_pool) ≡ₚ seq 0 2.
Proof. destruct (parallel_for_exact 2 [2; 2] demo_events demo_pool 0 (mkCall 2 Returned 0 true) demo_run eq_refl) as (_ & _ & _ & H). by apply H. Defined.

Lemma parallel_for_returns_witness : length demo_events ≤ 2 * 2 + 2 + (19 + (19 + 0)).
Proof. apply (parallel_for_returns 2 [2; 2] demo_events demo_pool demo_run). unfold demo_events. repeat constructor; intros []. Defined.
