(* ===== verification/Parallel.v ===== *)
(** * Parallel stages (include/engine/parallel_util.hpp, the parallel loops of
    src/engine/executor/executor_select.cpp, ParallelStop of include/engine/statement_deadline.hpp)

    A stage hands one slot to each number of a [parallel_for] and puts the slots together when the call has
    returned. The order in which the tasks of the call ran is any that a run of the pool (Pool.v) can have.
    std::sort is a parameter: it gives a sorted permutation where the comparison is a strict weak order. *)
From S2P Require Import Prelude Joins Pool.

#[local] Open Scope nat_scope.

(** ** The clock and the KILL flag of a parallel stage *)

Inductive stop_error : Set := Interrupted | Expired.

(** What a worker can see of the statement's thread: the kill flag and the clock, at each time it asks. *)
Record Watch := mkWatch { kill : nat → bool; timed_out : nat → bool }.

Definition watch_due (w : Watch) (t : nat) : bool := kill w t || timed_out w t.

(** check_now() on the statement's thread. *)
Definition check_now (w : Watch) (t : nat) : option stop_error :=
  if kill w t then Some Interrupted else if timed_out w t then Some Expired else None.

(** ParallelStop::due, with the flag [stopped] that the workers share. *)
Definition stop_due (w : Watch) (t : nat) (stopped : bool) : bool := stopped || watch_due w t.

(** ParallelStop::halt(i): asked in one row of 256. *)
Definition halt (w : Watch) (t i : nat) (stopped : bool) : bool := (i mod 256 =? 0) && stop_due w t stopped.

Definition finish (w : Watch) (t : nat) (stopped : bool) : option stop_error :=
  if stopped then Some (default Interrupted (check_now w t)) else None.

(** ** Slots *)

(** The orders in which the tasks of a returned call of [parallel_for(n, fn)] may have run. *)
Definition completed (n : nat) (order : list nat) : Prop :=
  ∃ n_threads counts es s c k, run_events es (start n_threads counts) = Some s ∧ calls s !! c = Some k ∧ at_ k = Returned ∧
    count k = n ∧ own c (runs s) = order.

(** Task [c] writes its slot: [slots[c] = f(c)]. *)
Definition fill {A} (f : nat → A) (order : list nat) (slots : list A) : list A := foldl (λ v i, <[i := f i]> v) slots order.

(** ** The scan in chunks (executor_select.cpp, the WHERE of a scan without subqueries) *)

Definition PARALLEL_CHUNK : nat := 4096.

Section scan.
Context {A : Type} (chunk_size : nat).
Implicit Types (rows out : list A).

(** One task: the rows from [i] on, until the end of the chunk; [None] where [halt] stops it. *)
Fixpoint scan_chunk (halts : nat → bool) (matches : A → bool) (i : nat) (rows : list A) : list A * bool :=
  match rows with
  | [] => ([], false)
  | r :: rows' =>
      if halts i then ([], true)
      else let '(out, stopped) := scan_chunk halts matches (S i) rows' in (if matches r then r :: out else out, stopped)
  end.

Definition n_chunks_of (n : nat) : nat := (n + chunk_size - 1) / chunk_size.

Definition chunk_of (rows : list A) (ci : nat) : list A :=
  let start := ci * chunk_size in let end_ := Nat.min (start + chunk_size) (length rows) in take (end_ - start) (drop start rows).

(** The whole stage: [halts ci] is what ParallelStop tells the task [ci]. *)
Definition parallel_scan (halts : nat → nat → bool) (w : Watch) (t : nat) (order : list nat) (matches : A → bool) (rows : list A) : list A + stop_error :=
  let n_chunks := n_chunks_of (length rows) in
  let run ci := scan_chunk (halts ci) matches (ci * chunk_size) (chunk_of rows ci) in
  let chunk_results := fill (fst ∘ run) order (replicate n_chunks []) in
  match finish w t (existsb (snd ∘ run) (seq 0 n_chunks)) with
  | Some e => inr e
  | None => inl (concat chunk_results)
  end.
End scan.

(** ** The sort in slices *)

Section sort.
Context {A : Type} (less : A → A → bool) (std_sort : list A → list A).
Implicit Types (l v : list A) (chunks : list (list A)).

(** std::merge: the first of the second list only where it comes before the first of the first. *)
Fixpoint merge l1 : list A → list A :=
  fix merge_aux l2 :=
    match l1, l2 with
    | [], _ => l2
    | _, [] => l1
    | a :: l1', b :: l2' => if less b a then b :: merge_aux l2' else a :: merge l1' l2
    end.

(** One turn of the merge tree. *)
Fixpoint merge_pairs chunks : list (list A) :=
  match chunks with a :: b :: rest => merge a b :: merge_pairs rest | _ => chunks end.

Fixpoint merge_tree (fuel : nat) chunks : list (list A) :=
  match fuel with
  | O => chunks
  | S fuel => if 1 <? length chunks then merge_tree fuel (merge_pairs chunks) else chunks
  end.

Definition sort_slices (n_chunks : nat) v : list (list A) :=
  let starts := chunk_starts (length v) n_chunks in
  (λ c, take (starts !!! S c - starts !!! c) (drop (starts !!! c) v)) <$> seq 0 n_chunks.

Definition sort_chunks (hardware_concurrency n : nat) : nat := Nat.min (if decide (hardware_concurrency = 0) then 4 else hardware_concurrency) n.

Definition parallel_sort (hardware_concurrency : nat) (w : Watch) (t : nat) (stopped : bool) (order : list nat) v : list A + stop_error :=
  let n_chunks := sort_chunks hardware_concurrency (length v) in
  if n_chunks <? 2 then inl (std_sort v)
  else
    let chunks := sort_slices n_chunks v in
    let sorted := fill (λ c, std_sort (chunks !!! c)) order chunks in
    match finish w t stopped with
    | Some e => inr e
    | None => inl (match merge_tree (length sorted) sorted with v :: _ => v | [] => [] end)
    end.
End sort.

(** ** The groups in chunks (executor_select.cpp: make_group_row) *)

Definition group_from (n n_chunks chunk : nat) : nat := n * chunk / n_chunks.

Definition group_rows {A B} (make_group_row : A → B) (groups : list A) (n_chunks : nat) (order : list nat) (rows : list B) : list B :=
  foldl (λ rows chunk,
    foldl (λ rows gi, match groups !! gi with Some g => <[gi := make_group_row g]> rows | None => rows end) rows
      (seq (group_from (length groups) n_chunks chunk) (group_from (length groups) n_chunks (S chunk) - group_from (length groups) n_chunks chunk)))
    rows order.

(** ** What the stages give *)

Lemma completed_perm n order : completed n order → order ≡ₚ seq 0 n.
Proof.
  intros (n_threads & counts & es & s & c & k & Hr & Hk & Ha & <- & <-).
  apply (returned_share s c k); [|done|done]. exact (pool_run_ok _ _ _ (start_ok n_threads counts) Hr).
Qed.

Section slots.
Context {A : Type} (f : nat → A).
Implicit Types (order : list nat) (v : list A).

Lemma length_fill order v : length (fill f order v) = length v.
Proof. unfold fill. revert v. induction order as [|i order IH]; intros v; [done|]. simpl. by rewrite IH, length_insert. Qed.

Lemma fill_lookup order v i : i < length v → fill f order v !! i = if decide (i ∈ order) then Some (f i) else v !! i.
Proof.
  unfold fill. revert v. induction order as [|j order IH]; intros v Hi; [done|]. simpl. rewrite IH by by rewrite length_insert.
  destruct (decide (i ∈ order)); [by rewrite decide_True by by right|]. destruct (decide (j = i)) as [->|Hj].
  - rewrite decide_True by by left. by apply list_lookup_insert_eq.
  - rewrite decide_False by (rewrite elem_of_cons; naive_solver). by apply list_lookup_insert_ne.
Qed.

(** The slots are what a loop over the numbers makes, in whatever order the tasks ran. *)
Lemma fill_all order v : order ≡ₚ seq 0 (length v) → fill f order v = f <$> seq 0 (length v).
Proof.
  intros Ho. apply list_eq_same_length with (length v); [by rewrite length_fmap, length_seq|apply length_fill|].
  intros i x y Hi Hx Hy. rewrite fill_lookup in Hx by done. rewrite decide_True in Hx by (rewrite Ho; apply elem_of_seq; lia).
  rewrite list_lookup_fmap, lookup_seq_lt in Hy by done. simpl in Hy. congruence.
Qed.
End slots.

Section scan_correct.
Context {A : Type} (chunk_size : nat).
Implicit Types (rows out : list A).

Lemma scan_chunk_exact halts matches i rows : (scan_chunk halts matches i rows).2 = false → (scan_chunk halts matches i rows).1 = filter (λ r : A, matches r = true) rows.
Proof.
  revert i. induction rows as [|r rows IH]; intros i; simpl; [done|]. destruct (halts i); [done|].
  specialize (IH (S i)). destruct (scan_chunk halts matches (S i) rows) as [out stopped]. simpl. intros Hs. rewrite filter_cons, <- IH by done.
  by destruct (matches r).
Qed.

Lemma chunks_cover rows : 0 < chunk_size → concat (chunk_of chunk_size rows <$> seq 0 (n_chunks_of chunk_size (length rows))) = rows.
Proof.
  intros Hs. set (n := length rows). set (k := n_chunks_of chunk_size n). set (at_ c := Nat.min (c * chunk_size) n).
  assert (Hk : n ≤ k * chunk_size).
  { unfold k, n_chunks_of. pose proof (Nat.div_mod_eq (n + chunk_size - 1) chunk_size). pose proof (Nat.mod_upper_bound (n + chunk_size - 1) chunk_size). lia. }
  transitivity (concat ((λ c, take (at_ (S c) - at_ c) (drop (at_ c) rows)) <$> seq 0 k)).
  - f_equal. apply list_fmap_ext. intros i c Hi. unfold chunk_of, at_. fold n. destruct (decide (c * chunk_size ≤ n)) as [Hc|Hc].
    + rewrite (Nat.min_l (c * chunk_size)) by done. f_equal. simpl. lia.
    + rewrite !drop_ge by (fold n; lia). by rewrite !take_nil.
  - rewrite concat_chunks; [|done|unfold at_; simpl; intros; lia]. unfold at_. by rewrite Nat.min_r, take_ge.
Qed.

Lemma concat_filter (P : A → bool) (ls : list (list A)) : concat ((λ l, filter (λ r, P r = true) l) <$> ls) = filter (λ r, P r = true) (concat ls).
Proof. induction ls as [|l ls IH]; [done|]. rewrite fmap_cons. cbn [concat]. by rewrite filter_app, IH. Qed.
End scan_correct.

(** *** Merging *)

Section sort_correct.
Context {A : Type} (less : A → A → bool).
Implicit Types (l v : list A) (chunks : list (list A)).

#[local] Abbreviation sorted := (StronglySorted (not_after less)).

Lemma merge_nil_r l : merge less l [] = l.
Proof. by destruct l. Qed.

Lemma merge_cons a l1 b l2 : merge less (a :: l1) (b :: l2) = if less b a then b :: merge less (a :: l1) l2 else a :: merge less l1 (b :: l2).
Proof. done. Qed.

Lemma merge_perm l1 l2 : merge less l1 l2 ≡ₚ l1 ++ l2.
Proof.
  revert l2. induction l1 as [|a l1 IH1]; intros l2; [by destruct l2|]. induction l2 as [|b l2 IH2]; [by rewrite merge_nil_r, app_nil_r|].
  rewrite merge_cons. destruct (less b a); [rewrite IH2|rewrite IH1]; solve_Permutation.
Qed.

Lemma merge_sorted l1 l2 : strict_weak less (l1 ++ l2) → sorted l1 → sorted l2 → sorted (merge less l1 l2).
Proof.
  intros Hw H1 H2. revert l2 Hw H2. induction H1 as [|a l1 H1 IH1 Ha]; intros l2 Hw H2; [by destruct l2|].
  induction H2 as [|b l2 H2 IH2 Hb]; [rewrite merge_nil_r; by constructor|]. rewrite merge_cons. rewrite Forall_forall in Ha, Hb.
  assert (Hina : a ∈ (a :: l1) ++ b :: l2) by by left. assert (Hinb : b ∈ (a :: l1) ++ b :: l2) by (apply elem_of_app; right; by left).
  destruct (less b a) eqn:E.
  - assert (Hba : not_after less b a) by exact (proj1 (Hw b a a Hinb Hina Hina) E). constructor.
    + apply IH2. intros x y z Hx Hy Hz. apply Hw; set_solver.
    + apply Forall_forall. intros x Hx. rewrite merge_perm in Hx. apply elem_of_app in Hx as [[->|Hx]%elem_of_cons|Hx]; [done| |by apply Hb].
      apply (proj2 (Hw b a x Hinb Hina ltac:(set_solver)) Hba). by apply Ha.
  - constructor.
    + apply IH1; [intros x y z Hx Hy Hz; apply Hw; set_solver|by constructor; [|apply Forall_forall]].
    + apply Forall_forall. intros x Hx. rewrite merge_perm in Hx. apply elem_of_app in Hx as [Hx|[->|Hx]%elem_of_cons]; [by apply Ha|exact E|].
      apply (proj2 (Hw a b x Hina Hinb ltac:(set_solver)) E). by apply Hb.
Qed.

(** The lists of a turn hold what the lists before it hold, in order. *)
Lemma merge_pairs_ok n : ∀ chunks, length chunks ≤ n → strict_weak less (concat chunks) → Forall sorted chunks →
  concat (merge_pairs less chunks) ≡ₚ concat chunks ∧ Forall sorted (merge_pairs less chunks) ∧
  (1 < length chunks → length (merge_pairs less chunks) < length chunks) ∧ (chunks ≠ [] → merge_pairs less chunks ≠ []).
Proof.
  induction n as [|n IH]; intros [|a [|b rest]] Hn Hw Hf; simpl in *; try lia; try (by split_and!; (done || lia)).
  apply Forall_cons in Hf as [Ha [Hb Hf]%Forall_cons].
  destruct (IH rest ltac:(lia)) as (P & S & L & _); [intros x y z Hx Hy Hz; apply Hw; set_solver|done|]. split_and!; try done.
  - rewrite merge_perm, P. solve_Permutation.
  - constructor; [|done]. apply merge_sorted; [|done|done]. intros x y z Hx Hy Hz. apply Hw; set_solver.
  - intros _. destruct rest as [|c [|d rest]]; simpl in *; lia.
Qed.

Lemma merge_tree_ok fuel chunks : length chunks ≤ S fuel → chunks ≠ [] → strict_weak less (concat chunks) → Forall sorted chunks →
  ∃ l, merge_tree less fuel chunks = [l] ∧ l ≡ₚ concat chunks ∧ sorted l.
Proof.
  revert chunks. induction fuel as [|fuel IH]; intros chunks Hn He Hw Hf; simpl.
  - destruct chunks as [|l [|? ?]]; simpl in *; try lia; try done. exists l. rewrite app_nil_r. by apply Forall_cons in Hf as [? _].
  - destruct (Nat.ltb_spec 1 (length chunks)) as [H1|H1].
    + destruct (merge_pairs_ok (length chunks) chunks ltac:(lia) Hw Hf) as (P & S & L & N).
      destruct (IH (merge_pairs less chunks)) as (l & El & Pl & Sl); [lia|auto| |done|].
      * intros x y z. rewrite P. apply Hw.
      * exists l. split_and!; [done|by rewrite Pl, P|done].
    + destruct chunks as [|l [|? ?]]; simpl in *; try lia; try done. exists l. rewrite app_nil_r. by apply Forall_cons in Hf as [? _].
Qed.
End sort_correct.

(** ** Properties *)

Lemma strict_weak_sub {A : Type} (less : A → A → bool) (l l' : list A) : (∀ x, x ∈ l' → x ∈ l) → strict_weak less l → strict_weak less l'.
Proof. intros Hs Hw x y z Hx Hy Hz. apply Hw; by apply Hs. Qed.

Lemma finish_none w t stopped : finish w t stopped = None ↔ stopped = false.
Proof. unfold finish. by destruct stopped. Qed.

(** A WHERE that is tested by the pool's threads finds the rows that a loop over the rows finds, in their order, in whatever order the
    threads ran their chunks; and when a thread was stopped by KILL or the clock the statement ends with an error and never with a part of the rows. *)
Theorem parallel_scan_exact {A : Type} (chunk_size : nat) halts w t order (matches : A → bool) (rows : list A) :
  0 < chunk_size → completed (n_chunks_of chunk_size (length rows)) order →
  (∀ out, parallel_scan chunk_size halts w t order matches rows = inl out → out = filter (λ r, matches r = true) rows) ∧
  ((∀ ci i, halts ci i = false) → parallel_scan chunk_size halts w t order matches rows = inl (filter (λ r, matches r = true) rows)).
Proof.
  intros Hc Ho%completed_perm. unfold parallel_scan. set (k := n_chunks_of chunk_size (length rows)) in *.
  set (run ci := scan_chunk (halts ci) matches (ci * chunk_size) (chunk_of chunk_size rows ci)).
  assert (HE : existsb (snd ∘ run) (seq 0 k) = false →
    concat (fill (fst ∘ run) order (replicate k [])) = filter (λ r, matches r = true) rows).
  { intros Hs. rewrite fill_all by by rewrite length_replicate. rewrite length_replicate, <- (chunks_cover chunk_size rows) by done.
    rewrite <- concat_filter, <- list_fmap_compose. f_equal. apply list_fmap_ext. intros i ci Hci. apply scan_chunk_exact.
    destruct ((scan_chunk (halts ci) matches (ci * chunk_size) (chunk_of chunk_size rows ci)).2) eqn:E; [|done]. rewrite <- Hs. symmetry.
    apply existsb_exists. exists ci. split; [by apply list_elem_of_In, (list_elem_of_lookup_2 _ i)|exact E]. }
  split.
  - intros out. destruct (finish w t _) eqn:E; [done|]. apply finish_none in E. intros [= <-]. by apply HE.
  - intros Hh. assert (E : existsb (snd ∘ run) (seq 0 k) = false).
    { apply not_true_is_false. intros (ci & _ & Hci)%existsb_exists. revert Hci. unfold run. simpl. generalize (ci * chunk_size).
      induction (chunk_of chunk_size rows ci) as [|r l IH]; intros i; simpl; [done|]. rewrite Hh. specialize (IH (S i)).
      by destruct (scan_chunk (halts ci) matches (S i) l). }
    rewrite E. simpl. by rewrite HE.
Qed.

(** What the parallel sort gives, for its clients. *)
Lemma parallel_sort_spec {A : Type} (less : A → A → bool) (std_sort : list A → list A) cpus w t stopped order (v : list A) :
  (∀ l, strict_weak less l → std_sort l ≡ₚ l ∧ StronglySorted (not_after less) (std_sort l)) →
  strict_weak less v → completed (sort_chunks cpus (length v)) order →
  (stopped = false → ∃ out, parallel_sort less std_sort cpus w t stopped order v = inl out) ∧
  ∀ out, parallel_sort less std_sort cpus w t stopped order v = inl out → out ≡ₚ v ∧ StronglySorted (not_after less) out.
Proof.
  intros Hsort Hw Ho%completed_perm. unfold parallel_sort. set (k := sort_chunks cpus (length v)) in *.
  destruct (Nat.ltb_spec k 2) as [Hk|Hk]; [split; [by eexists|]; intros out [= <-]; by apply Hsort|].
  set (sorted := fill _ order _).
  assert (Hlen : length (sort_slices k v) = k) by (unfold sort_slices; by rewrite length_fmap, length_seq).
  assert (Hslices : sorted = std_sort <$> sort_slices k v).
  { unfold sorted. rewrite fill_all by by rewrite Hlen. rewrite Hlen. apply list_eq_same_length with k; [by rewrite length_fmap|by rewrite length_fmap, length_seq|].
    intros i x y Hi Hx Hy. rewrite list_lookup_fmap, lookup_seq_lt in Hx by done. rewrite list_lookup_fmap in Hy. simpl in Hx.
    destruct (sort_slices k v !! i) eqn:E; [|done]. simpl in Hy. rewrite (list_lookup_total_correct _ _ _ E) in Hx. congruence. }
  assert (Hcover : concat (sort_slices k v) = v) by (apply slices_cover; lia).
  assert (Hin : ∀ l x, l ∈ sort_slices k v → x ∈ l → x ∈ v).
  { intros l x Hl Hx. rewrite <- Hcover, list_elem_of_In, in_concat. exists l. by rewrite <- !list_elem_of_In. }
  assert (HP : ∀ ls, (∀ l, l ∈ ls → strict_weak less l) → concat (std_sort <$> ls) ≡ₚ concat ls).
  { induction ls as [|l ls IH]; intros Hls; [done|]. rewrite fmap_cons. cbn [concat]. rewrite IH by (intros; apply Hls; by right).
    by rewrite (proj1 (Hsort l (Hls l ltac:(by left)))). }
  assert (Hsub : ∀ l, l ∈ sort_slices k v → strict_weak less l) by (intros l Hl; eapply strict_weak_sub; [by intros x; apply Hin|done]).
  destruct (merge_tree_ok less (length sorted) sorted) as (l & El & Pl & Sl).
  { lia. } { rewrite Hslices. destruct (sort_slices k v); simpl in *; [lia|done]. }
  { eapply strict_weak_sub; [|exact Hw]. intros x. rewrite Hslices, HP, Hcover by done. done. }
  { rewrite Hslices. apply Forall_forall. intros l (s & -> & Hs)%list_elem_of_fmap. by apply Hsort, Hsub. }
  rewrite El. rewrite Hslices, HP, Hcover in Pl by done. split; [intros ->; by eexists|].
  intros out. destruct (finish w t stopped); [done|]. by intros [= <-].
Qed.

(** The parallel sort gives a sorted permutation of the rows, whatever std::sort does with equal rows, however many threads there are and in
    whatever order they sort their slices; a stopped sort is an error and never an answer. *)
Theorem parallel_sort_exact {A : Type} (less : A → A → bool) (std_sort : list A → list A) cpus w t stopped order (v : list A) :
  (∀ l, strict_weak less l → std_sort l ≡ₚ l ∧ StronglySorted (not_after less) (std_sort l)) →
  strict_weak less v → completed (sort_chunks cpus (length v)) order →
  (stopped = false → ∃ out, parallel_sort less std_sort cpus w t stopped order v = inl out) ∧
  ∀ out, parallel_sort less std_sort cpus w t stopped order v = inl out → out ≡ₚ v ∧ StronglySorted (not_after less) out.
Proof. apply parallel_sort_spec. Qed.

(** Every group is in the chunk of one task. *)
Lemma group_chunk n k gi : 0 < k → gi < n → ∃ c, c < k ∧ group_from n k c ≤ gi < group_from n k (S c).
Proof.
  intros Hk Hg. assert (H : ∀ m, m ≤ k → gi < group_from n k m → ∃ c, c < m ∧ group_from n k c ≤ gi < group_from n k (S c)).
  { induction m as [|m IH]; intros Hm Hlt; [unfold group_from in Hlt; rewrite Nat.mul_0_r, Nat.Div0.div_0_l in Hlt; lia|].
    destruct (decide (gi < group_from n k m)) as [Hx|Hx].
    - destruct (IH ltac:(lia) Hx) as (c & ? & ?). exists c. split; [lia|done].
    - exists m. split; [lia|]. split; [lia|exact Hlt]. }
  destruct (H k ltac:(lia)) as (c & ? & ?); [|by exists c]. unfold group_from. by rewrite Nat.div_mul by lia.
Qed.

Section groups.
Context {A B : Type} (make_group_row : A → B) (groups : list A).
Implicit Types (rows : list B).

Definition put_group rows gi : list B := match groups !! gi with Some g => <[gi := make_group_row g]> rows | None => rows end.

Lemma length_put_groups gis rows : length (foldl put_group rows gis) = length rows.
Proof.
  revert rows. induction gis as [|j gis IH]; intros rows; [done|]. simpl. rewrite IH. unfold put_group. destruct (groups !! j); by rewrite ?length_insert.
Qed.

Lemma put_groups_lookup gis rows i : length rows = length groups → i < length groups →
  foldl put_group rows gis !! i = if decide (i ∈ gis) then make_group_row <$> groups !! i else rows !! i.
Proof.
  revert rows. induction gis as [|j gis IH]; intros rows Hr Hi; [done|]. simpl.
  rewrite IH; [|by rewrite <- Hr; apply (length_put_groups [j])|done]. destruct (decide (i ∈ gis)); [by rewrite decide_True by by right|].
  unfold put_group. destruct (decide (j = i)) as [->|Hj].
  - rewrite decide_True by by left. destruct (lookup_lt_is_Some_2 groups i Hi) as [g Hg]. rewrite Hg. apply list_lookup_insert_eq. lia.
  - rewrite decide_False by (rewrite elem_of_cons; naive_solver). destruct (groups !! j); [by apply list_lookup_insert_ne|done].
Qed.

Definition chunk_groups (n_chunks chunk : nat) : list nat :=
  seq (group_from (length groups) n_chunks chunk) (group_from (length groups) n_chunks (S chunk) - group_from (length groups) n_chunks chunk).

Lemma group_rows_fold n_chunks order rows : group_rows make_group_row groups n_chunks order rows = foldl put_group rows (concat (chunk_groups n_chunks <$> order)).
Proof.
  unfold group_rows. revert rows. induction order as [|c order IH]; intros rows; [done|]. rewrite fmap_cons. cbn [concat foldl]. by rewrite foldl_app, IH.
Qed.
End groups.

(** The rows of the groups, made in chunks by the pool's threads, are the row of each group in its place. *)
Theorem group_rows_exact {A B : Type} (make_group_row : A → B) (groups : list A) n_chunks order (rows : list B) :
  0 < n_chunks → completed n_chunks order → length rows = length groups →
  group_rows make_group_row groups n_chunks order rows = make_group_row <$> groups.
Proof.
  intros Hk Ho%completed_perm Hl. rewrite group_rows_fold. set (gis := concat _).
  apply list_eq_same_length with (length groups); [by rewrite length_fmap|by rewrite length_put_groups|].
  intros i x y Hi Hx Hy. rewrite put_groups_lookup, decide_True in Hx; [rewrite list_lookup_fmap in Hy; congruence| |done|done].
  destruct (group_chunk (length groups) n_chunks i Hk Hi) as (c & Hc & Hg). unfold gis. rewrite list_elem_of_In, in_concat.
  exists (chunk_groups groups n_chunks c). rewrite <- !list_elem_of_In. split; [|unfold chunk_groups; apply elem_of_seq; lia].
  apply list_elem_of_fmap. exists c. split; [done|]. rewrite Ho. apply elem_of_seq. lia.
Qed.

(** ** Runs of the pool *)

Lemma demo_completed : completed 2 [1; 0].
Proof. exists 2, [2; 2], demo_events, demo_pool, 0. eexists. split; [exact demo_run|]. vm_compute. repeat split. Qed.

Definition no_watch : Watch := mkWatch (λ _, false) (λ _, false).

Lemma parallel_scan_exact_witness :
  parallel_scan 2 (λ _ _, false) no_watch 0 [1; 0] Nat.even [1; 2; 4] = inl [2; 4].
Proof. apply (parallel_scan_exact 2 (λ _ _, false) no_watch 0 [1; 0] Nat.even [1; 2; 4]); [lia|exact demo_completed|done]. Defined.

Lemma ltb_strict_weak l : strict_weak Nat.ltb l.
Proof. intros x y z _ _ _. unfold not_after. rewrite !Nat.ltb_ge, Nat.ltb_lt. lia. Qed.

Lemma parallel_sort_exact_witness : ∃ out, parallel_sort Nat.ltb (stable_sort Nat.ltb) 2 no_watch 0 false [1; 0] [3; 1; 2] = inl out.
Proof.
  apply (parallel_sort_exact Nat.ltb (stable_sort Nat.ltb) 2 no_watch 0 false [1; 0] [3; 1; 2]).
  - intros l Hl. split; [apply stable_sort_perm|by apply stable_sort_sorted].
  - apply ltb_strict_weak.
  - exact demo_completed.
  - reflexivity.
Defined.

Example parallel_sort_demo : parallel_sort Nat.ltb (stable_sort Nat.ltb) 2 no_watch 0 false [1; 0] [3; 1; 2; 1] = inl [1; 1; 2; 3].
Proof. vm_compute. reflexivity. Qed.

Lemma group_rows_exact_witness : group_rows S [5; 6; 7] 2 [1; 0] [0; 0; 0] = [6; 7; 8].
Proof. apply (group_rows_exact S [5; 6; 7] 2 [1; 0] [0; 0; 0]); [lia|exact demo_completed|reflexivity]. Defined.
