(* ===== verification/SetOps.v ===== *)
(** * Set operations (src/engine/executor/executor_setops.cpp)

    UNION, INTERSECT and EXCEPT, with and without ALL, over the texts of the two sides' answers (ResultText.v);
    the ORDER BY, OFFSET and LIMIT behind them. What the statements of the two sides answer, and the names that a
    left side without rows would have (result_column_names_in), are arguments. The clock is left out. *)
From Stdlib Require Import SpecFloat.
From S2P Require Import Prelude Numerals Collation NumericText RowJson Lexer ResultText Joins Pool Parallel.

#[local] Open Scope Z_scope.

Record OrderBy := mkOrderBy { ord_column : list Z; ascending : bool }.

(** How the rows are sorted: on the pool's threads from so many rows on, or by std::stable_sort. *)
Record SortMode := mkSortMode {
  parallel_enabled : bool;
  parallel_min_rows : nat;
  std_sort : (Row → Row → bool) → list Row → list Row;
  hardware_concurrency : nat;
  slice_order : list nat
}.

Definition no_stop : Watch := mkWatch (λ _, false) (λ _, false).

Section setops.
Context (kRuns : list Run) (kPool : list Z) (mode : SortMode).
Implicit Types (a b : list Z) (cols : list (list Z)) (row : Row) (rows : list Row) (order_by : list OrderBy).

(** ** ORDER BY *)

Definition cmp_key a b : Z :=
  let a_null := bool_decide (a = str "NULL") in
  let b_null := bool_decide (b = str "NULL") in
  if a_null || b_null then (if bool_decide (a_null = b_null) then 0 else if a_null then -1 else 1)
  else match parse_number a, parse_number b with
       | Some pa, Some pb => if SFltb pa pb then -1 else if SFltb pb pa then 1 else 0
       | _, _ => compare kRuns kPool a b
       end.

Fixpoint row_order_less (order_by : list OrderBy) row1 row2 : bool :=
  match order_by with
  | [] => false
  | ord :: rest =>
      let av := default [] (row1 !! ord_column ord) in
      let bv := default [] (row2 !! ord_column ord) in
      let c := if ascending ord then cmp_key av bv else - cmp_key av bv in
      if negb (c =? 0) then c <? 0 else row_order_less rest row1 row2
  end.

Definition unknown_column (name : list Z) : list Z := str "Unknown column '" ++ name ++ str "' in 'order clause'".

Definition ieq a b : bool := bool_decide (lower_case a = lower_case b).

(** The part of a name behind its last point. *)
Fixpoint bare_name (name : list Z) : list Z :=
  match name with [] => [] | c :: t => if existsb (Z.eqb 46) t then bare_name t else if c =? 46 then t else name end.

Definition resolve_order_item cols (ord : OrderBy) : result OrderBy :=
  let column := ord_column ord in
  if negb (bool_decide (column = [])) && forallb is_digit column then
    let n := if (9 <? length column)%nat then 0%nat else Z.to_nat (digits_value column) in
    if (n <? 1)%nat || (length cols <? n)%nat then Err (unknown_column column)
    else Ok (mkOrderBy (cols !!! (n - 1)%nat) (ascending ord))
  else if bool_decide (column ∈ cols) then Ok ord
  else match list_find (λ c, ieq c (bare_name column) = true) cols with
       | None => Err (unknown_column column)
       | Some (_, spelled) => Ok (mkOrderBy spelled (ascending ord))
       end.

Fixpoint resolve_set_order cols order_by : result (list OrderBy) :=
  match order_by with
  | [] => Ok []
  | ord :: rest =>
      match resolve_order_item cols ord with
      | Err e => Err e
      | Ok ord' => match resolve_set_order cols rest with Err e => Err e | Ok rest' => Ok (ord' :: rest') end
      end
  end.

Definition sort_rows order_by rows : list Row :=
  let less := row_order_less order_by in
  if parallel_enabled mode && (parallel_min_rows mode <=? length rows)%nat then
    match parallel_sort less (std_sort mode less) (hardware_concurrency mode) no_stop 0 false (slice_order mode) rows with
    | inl rows' => rows'
    | inr _ => rows
    end
  else stable_sort less rows.

Definition apply_set_postprocess order_by (limit offset : option nat) rows : list Row :=
  let rows := match order_by with [] => rows | _ => sort_rows order_by rows end in
  let rows := match offset with Some n => drop n rows | None => rows end in
  match limit with Some n => take n rows | None => rows end.

(** ** Keys of rows *)

Definition row_key cols row : list (list Z) :=
  (λ c, match row !! c with Some v => key kRuns kPool v | None => [] end) <$> cols.

(** The value at a place of a row of the right side, under the columns that side has. *)
Definition right_value (right_cols : list (list Z)) row (i : nat) : list Z :=
  match right_cols !! i with Some c => default [] (row !! c) | None => [] end.

Definition right_key cols (right_cols : list (list Z)) row : list (list Z) :=
  imap (λ i c, key kRuns kPool (if (i <? length right_cols)%nat then right_value right_cols row i else default [] (row !! c))) cols.

(** A row of the right side under the names of the left side. *)
Definition remap cols (right_cols : list (list Z)) row : Row :=
  <[str "_xmax" := str "0"]> (<[str "_xmin" := str "1"]>
    (foldl (λ r e, <[e.2 := right_value right_cols row e.1]> r) (∅ : Row) (imap pair cols))).
End setops.

(** ** The loops, over rows with keys *)

Section loops.
Context {A K : Type} `{Countable K} (row_key : A → K).
Implicit Types (row : A) (rows : list A) (right_keys : list K).

(** UNION: the first row of every key. *)
Definition union_step (st : list K * list A) row : list K * list A :=
  let key := row_key row in
  if bool_decide (key ∈ st.1) then st else (st.1 ++ [key], st.2 ++ [row]).

Definition union_loop rows : list A := (foldl union_step ([], []) rows).2.

(** The first place of the right side with this key that no row has taken yet. *)
Definition free_match right_keys (matched : list nat) (key : K) : option nat :=
  fst <$> list_find (λ e, (e.1 ∉ matched) ∧ e.2 = key) (imap pair right_keys).

Definition intersect_step (all : bool) right_keys (st : list nat * list A) row : list nat * list A :=
  let key := row_key row in
  if all then
    match free_match right_keys st.1 key with
    | Some pos => (st.1 ++ [pos], st.2 ++ [row])
    | None => st
    end
  else
    let in_right := bool_decide (key ∈ right_keys) in
    let already_in_result := existsb (λ r, bool_decide (row_key r = key)) st.2 in
    if in_right && negb already_in_result then (st.1, st.2 ++ [row]) else st.

Definition intersect_loop (all : bool) right_keys rows : list A := (foldl (intersect_step all right_keys) ([], []) rows).2.

(** right_counts[k]++ for every key. *)
Definition right_counts right_keys : gmap K nat := foldl (λ m k, <[k := S (default 0%nat (m !! k))]> m) ∅ right_keys.

Definition except_step (all : bool) right_keys (st : gmap K nat * list A) row : gmap K nat * list A :=
  let key := row_key row in
  if all then
    match st.1 !! key with
    | Some (S n) => (<[key := n]> st.1, st.2)
    | _ => (st.1, st.2 ++ [row])
    end
  else
    let in_right := bool_decide (key ∈ right_keys) in
    let already_in_result := existsb (λ r, bool_decide (row_key r = key)) st.2 in
    if negb in_right && negb already_in_result then (st.1, st.2 ++ [row]) else st.

Definition except_loop (all : bool) right_keys rows : list A := (foldl (except_step all right_keys) (right_counts right_keys, []) rows).2.
End loops.

(** ** The statements *)

Section statements.
Context (kRuns : list Run) (kPool : list Z) (mode : SortMode).
Implicit Types (cols : list (list Z)) (rows : list Row) (order_by : list OrderBy) (limit offset : option nat) (answer : result (list Z)).

#[local] Abbreviation key_in := (row_key kRuns kPool).

Definition finish_set cols order_by limit offset rows : result (list Z) :=
  match resolve_set_order cols order_by with
  | Err e => Err e
  | Ok order_by => Ok (format_set_result cols (apply_set_postprocess kRuns kPool mode order_by limit offset rows))
  end.

(** [left_names]: result_column_names_in(s, left_shape) *)
Definition exec_union (left_out right_out : result (list Z)) (left_names : list (list Z)) (all : bool) order_by limit offset : result (list Z) :=
  match left_out with
  | Err e => Err e
  | Ok left_text =>
  match right_out with
  | Err e => Err e
  | Ok right_text =>
      let '(left_cols, left_rows) := parse_table_output left_text in
      let '(right_cols, right_rows) := parse_table_output right_text in
      if bool_decide (left_cols = []) && bool_decide (right_cols = []) then Ok no_rows
      else
        let left_cols := if bool_decide (left_cols = []) then (if decide (length left_names = length right_cols) then left_names else right_cols) else left_cols in
        let rows := left_rows ++ (remap left_cols right_cols <$> right_rows) in
        let rows := if all then rows else union_loop (key_in left_cols) rows in
        let cols := if bool_decide (left_cols = []) then right_cols else left_cols in
        finish_set cols order_by limit offset rows
  end end.

Definition exec_intersect (left_out right_out : result (list Z)) (all : bool) order_by limit offset : result (list Z) :=
  match left_out with
  | Err e => Err e
  | Ok left_text =>
  match right_out with
  | Err e => Err e
  | Ok right_text =>
      let '(left_cols, left_rows) := parse_table_output left_text in
      let '(right_cols, right_rows) := parse_table_output right_text in
      let cols := if bool_decide (left_cols = []) then right_cols else left_cols in
      let right_keys := right_key kRuns kPool cols right_cols <$> right_rows in
      finish_set cols order_by limit offset (intersect_loop (key_in cols) all right_keys left_rows)
  end end.

Definition exec_except (left_out right_out : result (list Z)) (all : bool) order_by limit offset : result (list Z) :=
  match left_out with
  | Err e => Err e
  | Ok left_text =>
  match right_out with
  | Err e => Err e
  | Ok right_text =>
      let '(left_cols, left_rows) := parse_table_output left_text in
      let '(right_cols, right_rows) := parse_table_output right_text in
      let cols := if bool_decide (left_cols = []) then right_cols else left_cols in
      let right_keys := right_key kRuns kPool cols right_cols <$> right_rows in
      finish_set cols order_by limit offset (except_loop (key_in cols) all right_keys left_rows)
  end end.
End statements.

(** ** What is kept of the rows *)

Section reference.
Context {A K : Type} `{Countable K} (row_key : A → K).
Implicit Types (row : A) (rows : list A) (rk : list K) (k : K).

(** How often a key is among the rows and among the keys. *)
Definition occ k rows : nat := length (filter (λ r, row_key r = k) rows).
Definition among k rk : nat := length (filter (k =.) rk).

(** The rows that are the [n]th of their key (from 0) with [P k n]. *)
Definition keep (P : K → nat → bool) rows : list A :=
  omap (λ e, if P (row_key e.2) (occ (row_key e.2) (take e.1 rows)) then Some e.2 else None) (imap pair rows).

Lemma occ_app k rows rows' : occ k (rows ++ rows') = (occ k rows + occ k rows')%nat.
Proof. unfold occ. by rewrite filter_app, length_app. Qed.

Lemma occ_one k row : occ k [row] = if decide (row_key row = k) then 1%nat else 0%nat.
Proof. unfold occ. rewrite filter_cons. by case_decide. Qed.

Lemma among_app k rk rk' : among k (rk ++ rk') = (among k rk + among k rk')%nat.
Proof. unfold among. by rewrite filter_app, length_app. Qed.

Lemma keep_snoc P rows row : keep P (rows ++ [row]) = keep P rows ++ if P (row_key row) (occ (row_key row) rows) then [row] else [].
Proof.
  unfold keep. rewrite imap_app, omap_app. f_equal.
  - apply list_omap_ext, Forall2_same_length_lookup. split; [done|]. intros i x y Hx Hy. rewrite Hx in Hy. injection Hy as <-.
    rewrite list_lookup_imap in Hx. destruct (rows !! i) eqn:E; [|done]. simpl in Hx. injection Hx as <-. simpl.
    rewrite take_app_le; [done|]. apply lookup_lt_Some in E. lia.
  - simpl. rewrite Nat.add_0_r, take_app_le, take_ge by lia. by destruct (P _ _).
Qed.

Lemma keep_sublist P rows : keep P rows `sublist_of` rows.
Proof.
  induction rows as [|row rows IH] using rev_ind; [done|]. rewrite keep_snoc. apply sublist_app; [done|]. destruct (P _ _); [done|apply sublist_nil_l].
Qed.

Lemma keep_count P rows k : occ k (keep P rows) = length (filter (λ n, P k n = true) (seq 0 (occ k rows))).
Proof.
  induction rows as [|row rows IH] using rev_ind; [done|]. rewrite keep_snoc, !occ_app, occ_one, IH. destruct (decide (row_key row = k)) as [<-|Hk].
  - rewrite Nat.add_1_r, seq_S, filter_app, length_app, filter_cons. simpl. destruct (P _ _) eqn:E; simpl; [|done].
    by rewrite occ_one, decide_True.
  - rewrite Nat.add_0_r. destruct (P _ _); simpl; [|done]. rewrite occ_one, decide_False by done. lia.
Qed.

Lemma keep_ext P P' rows : (∀ k n, P k n = P' k n) → keep P rows = keep P' rows.
Proof. intros HE. unfold keep. apply list_omap_ext, Forall_Forall2_diag, Forall_true. intros e. by rewrite HE. Qed.
End reference.

Lemma keep_fmap {A B K : Type} `{Countable K} (f : A → B) (key : B → K) P (rows : list A) : f <$> keep (key ∘ f) P rows = keep key P (f <$> rows).
Proof.
  assert (Hocc : ∀ k (l : list A), occ (key ∘ f) k l = occ key k (f <$> l)).
  { intros k l. induction l as [|x l IH] using rev_ind; [done|]. rewrite fmap_app, !occ_app, IH. simpl. by rewrite !occ_one. }
  induction rows as [|row rows IH] using rev_ind; [done|]. rewrite fmap_app. simpl. rewrite !keep_snoc, fmap_app, IH, Hocc. simpl. by destruct (P _ _).
Qed.

Section loops_spec.
Context {A K : Type} `{Countable K} (row_key : A → K).
Implicit Types (row : A) (rows : list A) (rk : list K) (k : K).

Lemma occ_pos k rows : (0 < occ row_key k rows)%nat ↔ k ∈ (row_key <$> rows).
Proof.
  unfold occ. rewrite list_elem_of_fmap. split.
  - destruct (filter _ rows) as [|r l] eqn:E; simpl; [lia|]. intros _. exists r.
    assert (Hr : r ∈ filter (λ r, row_key r = k) rows) by (rewrite E; by left). by apply list_elem_of_filter in Hr as [-> ?].
  - intros (r & -> & Hr). assert (Hf : r ∈ filter (λ r', row_key r' = row_key r) rows) by by apply list_elem_of_filter.
    destruct (filter _ rows); [by apply elem_of_nil in Hf|]. simpl. lia.
Qed.

Lemma among_pos k rk : (0 < among k rk)%nat ↔ k ∈ rk.
Proof.
  unfold among. split.
  - destruct (filter _ rk) as [|x l] eqn:E; simpl; [lia|]. intros _.
    assert (Hx : x ∈ filter (k =.) rk) by (rewrite E; by left). by apply list_elem_of_filter in Hx as [-> ?].
  - intros Hk. assert (Hf : k ∈ filter (k =.) rk) by by apply list_elem_of_filter. destruct (filter _ rk); [by apply elem_of_nil in Hf|]. simpl. lia.
Qed.

Lemma in_result k rows : existsb (λ r, bool_decide (row_key r = k)) rows = bool_decide (0 < occ row_key k rows)%nat.
Proof.
  apply eq_true_iff_eq. rewrite existsb_exists, bool_decide_eq_true, occ_pos, list_elem_of_fmap.
  setoid_rewrite bool_decide_eq_true. setoid_rewrite <- list_elem_of_In. naive_solver.
Qed.

Lemma occ_keep_first P rows k : (∀ n, P k n = bool_decide (n = 0%nat)) → occ row_key k (keep row_key P rows) = Nat.min 1 (occ row_key k rows).
Proof.
  intros HP. rewrite keep_count. destruct (occ row_key k rows) as [|n]; [done|]. cbn [seq]. rewrite filter_cons, HP. simpl.
  rewrite filter_none; [done|]. apply Forall_forall. intros m Hm. apply elem_of_seq in Hm. rewrite HP. rewrite bool_decide_eq_true. lia.
Qed.

Lemma occ_keep_never P rows k : (∀ n, P k n = false) → occ row_key k (keep row_key P rows) = 0%nat.
Proof. intros HP. rewrite keep_count, filter_none; [done|]. apply Forall_forall. intros m _. by rewrite HP. Qed.

(** *** UNION *)

Lemma union_loop_keep rows : union_loop row_key rows = keep row_key (λ _ n, bool_decide (n = 0%nat)) rows.
Proof.
  unfold union_loop. enough (HS : (∀ k, k ∈ (foldl (union_step row_key) ([], []) rows).1 ↔ (0 < occ row_key k rows)%nat) ∧
    (foldl (union_step row_key) ([], []) rows).2 = keep row_key (λ _ n, bool_decide (n = 0%nat)) rows) by by apply HS.
  induction rows as [|row rows [IH1 IH2]] using rev_ind.
  { split; [|done]. intros k. split; [by intros ?%elem_of_nil|unfold occ; simpl; lia]. }
  rewrite foldl_snoc, keep_snoc, <- IH2. destruct (foldl _ _ rows) as [seen filtered]. cbn [fst snd] in *. unfold union_step. cbn [fst snd].
  specialize (IH1 (row_key row)) as Hrow. case_bool_decide as Hs; cbn [fst snd]; rewrite Hrow in Hs.
  - split; [|rewrite bool_decide_eq_false_2 by lia; by rewrite app_nil_r]. intros k. rewrite IH1, occ_app, occ_one. case_decide; subst; lia.
  - rewrite bool_decide_eq_true_2 by lia. split; [|done]. intros k. rewrite elem_of_app, list_elem_of_singleton, IH1, occ_app, occ_one.
    case_decide as Hk; [split; [lia|by right]|]. split; [intros [?| ->]; [lia|done]|intros; left; lia].
Qed.

(** *** EXCEPT *)

Lemma right_counts_spec rk k : default 0%nat (right_counts rk !! k) = among k rk.
Proof.
  unfold right_counts. induction rk as [|x rk IH] using rev_ind; [done|]. rewrite foldl_snoc, among_app. unfold among at 2. rewrite filter_cons.
  destruct (decide (k = x)) as [->|Hk]; [rewrite lookup_insert_eq, IH; simpl; lia|rewrite lookup_insert_ne, IH by done; simpl; lia].
Qed.

Lemma except_all_keep rk rows : except_loop row_key true rk rows = keep row_key (λ k n, (among k rk <=? n)%nat) rows.
Proof.
  unfold except_loop. enough (HS : (∀ k, default 0%nat ((foldl (except_step row_key true rk) (right_counts rk, []) rows).1 !! k) = (among k rk - occ row_key k rows)%nat) ∧
    (foldl (except_step row_key true rk) (right_counts rk, []) rows).2 = keep row_key (λ k n, (among k rk <=? n)%nat) rows) by by apply HS.
  induction rows as [|row rows [IH1 IH2]] using rev_ind.
  { split; [|done]. intros k. simpl. rewrite right_counts_spec. unfold occ. simpl. lia. }
  rewrite foldl_snoc, keep_snoc, <- IH2. destruct (foldl _ _ rows) as [counts result]. cbn [fst snd] in *. unfold except_step. cbn [fst snd].
  specialize (IH1 (row_key row)) as Hrow. destruct (counts !! row_key row) as [[|n]|] eqn:E; simpl in Hrow; cbn [fst snd].
  1, 3: split; [|rewrite (proj2 (Nat.leb_le _ _)) by lia; done]; intros k; rewrite IH1, occ_app, occ_one; case_decide; subst; lia.
  split; [|rewrite (proj2 (Nat.leb_gt _ _)) by lia; by rewrite app_nil_r]. intros k. rewrite occ_app, occ_one. case_decide as Hk.
  - subst k. rewrite lookup_insert_eq. simpl. lia.
  - rewrite lookup_insert_ne by done. rewrite IH1. lia.
Qed.

(** The loops without ALL look whether the key is on the right and whether a row of it was kept before. *)
Lemma first_loop_keep (wanted : K → bool) (B : Type) (b : B) (step : B * list A → A → B * list A) rows :
  (∀ b result row, step (b, result) row = if wanted (row_key row) && negb (existsb (λ r, bool_decide (row_key r = row_key row)) result) then (b, result ++ [row]) else (b, result)) →
  (foldl step (b, []) rows).2 = keep row_key (λ k n, wanted k && bool_decide (n = 0%nat)) rows.
Proof.
  intros Hstep. enough (HS : foldl step (b, []) rows = (b, keep row_key (λ k n, wanted k && bool_decide (n = 0%nat)) rows)) by by rewrite HS.
  induction rows as [|row rows IH] using rev_ind; [done|]. rewrite foldl_snoc, IH, Hstep, keep_snoc, in_result. destruct (wanted (row_key row)) eqn:Ew; simpl; [|by rewrite app_nil_r].
  rewrite (occ_keep_first _ rows (row_key row)) by (intros n; by rewrite Ew). destruct (occ row_key (row_key row) rows) as [|n]; simpl; [done|by rewrite app_nil_r].
Qed.

Lemma except_first_keep rk rows : except_loop row_key false rk rows = keep row_key (λ k n, negb (bool_decide (k ∈ rk)) && bool_decide (n = 0%nat)) rows.
Proof. apply (first_loop_keep (λ k, negb (bool_decide (k ∈ rk)))). done. Qed.

Lemma intersect_first_keep rk rows : intersect_loop row_key false rk rows = keep row_key (λ k n, bool_decide (k ∈ rk) && bool_decide (n = 0%nat)) rows.
Proof. apply (first_loop_keep (λ k, bool_decide (k ∈ rk))). done. Qed.

(** *** INTERSECT ALL *)

Lemma free_match_Some rk matched k i : free_match rk matched k = Some i → rk !! i = Some k ∧ i ∉ matched.
Proof.
  unfold free_match. destruct (list_find _ _) as [[j [i' k']]|] eqn:E; [|done]. intros [= <-]. apply list_find_Some in E as (Hj & [Hn Hk] & _).
  rewrite list_lookup_imap in Hj. destruct (rk !! j) eqn:Ej; [|done]. simpl in Hj. injection Hj as -> ->. simpl in *. by subst.
Qed.

Lemma free_match_None rk matched k i : free_match rk matched k = None → rk !! i = Some k → i ∈ matched.
Proof.
  unfold free_match. destruct (list_find _ _) as [[j e]|] eqn:E; [done|]. intros _ Hi. apply list_find_None in E. rewrite Forall_forall in E.
  destruct (decide (i ∈ matched)) as [|Hn]; [done|]. exfalso. apply (E (i, k)); [|done].
  apply (list_elem_of_lookup_2 _ i). by rewrite list_lookup_imap, Hi.
Qed.

Lemma filter_ext_elem {B : Type} (P Q : B → Prop) `{∀ x, Decision (P x), ∀ x, Decision (Q x)} (l : list B) :
  (∀ x, x ∈ l → P x ↔ Q x) → filter P l = filter Q l.
Proof.
  induction l as [|x l IH]; intros HE; [done|]. rewrite !filter_cons, IH by (intros y Hy; apply HE; by right).
  pose proof (HE x ltac:(by left)). repeat case_decide; tauto.
Qed.

(** The places of a key. *)
Definition places rk k : list nat := filter (λ i, rk !! i = Some k) (seq 0 (length rk)).

Lemma length_places rk k : length (places rk k) = among k rk.
Proof.
  unfold places, among. induction rk as [|x rk IH] using rev_ind; [done|].
  rewrite length_app, Nat.add_1_r, seq_S, !filter_app, !length_app. f_equal.
  - rewrite <- IH. f_equal. apply filter_ext_elem. intros i Hi%elem_of_seq. by rewrite lookup_app_l by lia.
  - rewrite !filter_cons. simpl. rewrite lookup_app_r, Nat.sub_diag by lia. simpl. repeat case_decide; simpl; congruence.
Qed.

Lemma taken_bound rk matched k : NoDup matched → (length (filter (λ i, rk !! i = Some k) matched) ≤ among k rk)%nat.
Proof.
  intros Hn. rewrite <- length_places. apply submseteq_length, NoDup_submseteq; [by apply NoDup_filter|].
  intros i [Hi Hm]%list_elem_of_filter. apply list_elem_of_filter. split; [done|]. apply elem_of_seq. apply lookup_lt_Some in Hi. lia.
Qed.

Lemma all_taken rk matched k : (∀ i, rk !! i = Some k → i ∈ matched) → (among k rk ≤ length (filter (λ i, rk !! i = Some k) matched))%nat.
Proof.
  intros Ha. rewrite <- length_places. apply submseteq_length, NoDup_submseteq; [apply NoDup_filter, NoDup_seq|].
  intros i [Hi _]%list_elem_of_filter. apply list_elem_of_filter. split; [done|by apply Ha].
Qed.

Lemma intersect_all_keep rk rows : intersect_loop row_key true rk rows = keep row_key (λ k n, (n <? among k rk)%nat) rows.
Proof.
  unfold intersect_loop. set (st := foldl (intersect_step row_key true rk) ([], []) rows).
  enough (HS : NoDup st.1 ∧ (∀ k, length (filter (λ i, rk !! i = Some k) st.1) = Nat.min (occ row_key k rows) (among k rk)) ∧
    st.2 = keep row_key (λ k n, (n <? among k rk)%nat) rows) by by apply HS.
  unfold st. clear st. induction rows as [|row rows (IH1 & IH2 & IH3)] using rev_ind; [split_and!; [constructor|done|done]|].
  rewrite foldl_snoc, keep_snoc, <- IH3. destruct (foldl _ _ rows) as [matched result]. cbn [fst snd] in *. unfold intersect_step. cbn [fst snd].
  specialize (IH2 (row_key row)) as Hrow. destruct (free_match rk matched (row_key row)) as [pos|] eqn:E; cbn [fst snd].
  - apply free_match_Some in E as [Hpos Hnew]. assert (Hnd : NoDup (matched ++ [pos])).
    { apply NoDup_app. split_and!; [done| |apply NoDup_singleton]. by intros i Hi ->%list_elem_of_singleton. }
    pose proof (taken_bound rk (matched ++ [pos]) (row_key row) Hnd) as HB. rewrite filter_app, length_app, filter_cons, decide_True in HB by done. simpl in HB.
    rewrite (proj2 (Nat.ltb_lt _ _)) by lia. split_and!; [done| |done]. intros k. rewrite filter_app, length_app, IH2, filter_cons, occ_app, occ_one.
    destruct (decide (row_key row = k)) as [<-|Hk]; [rewrite decide_True by done; simpl; lia|rewrite decide_False by congruence; simpl; lia].
  - pose proof (all_taken rk matched (row_key row) (λ i, free_match_None rk matched (row_key row) i E)) as HA.
    rewrite (proj2 (Nat.ltb_ge _ _)) by lia. split_and!; [done| |by rewrite app_nil_r]. intros k. rewrite IH2, occ_app, occ_one.
    case_decide; subst; lia.
Qed.
End loops_spec.

(** ** The statements on tuples of values *)

Section tuples.
Context (kRuns : list Run) (kPool : list Z) (mode : SortMode).
Implicit Types (cols : list (list Z)) (row : Row) (rows : list Row).

Definition tuple_key (vs : list (list Z)) : list (list Z) := key kRuns kPool <$> vs.

(** Names that a row's entries can have side by side. *)
Definition plain_cols cols : Prop := NoDup cols ∧ (str "_xmin" ∉ cols) ∧ (str "_xmax" ∉ cols).

Definition has_cols cols row : Prop := ∀ c, c ∈ cols → is_Some (row !! c).

Lemma row_key_values cols row : has_cols cols row → row_key kRuns kPool cols row = tuple_key (row_values cols row).
Proof.
  intros Hd. unfold row_key, tuple_key, row_values. rewrite <- list_fmap_compose. apply list_fmap_ext. intros i c Hc.
  destruct (Hd c (list_elem_of_lookup_2 _ _ _ Hc)) as [v Hv]. simpl. by rewrite Hv.
Qed.

Lemma shown_row_value cols row c : plain_cols cols → c ∈ cols → shown_row cols row !! c = Some (default [] (row !! c)).
Proof.
  intros (_ & H1 & H2) Hc. rewrite shown_row_lookup; [by rewrite bool_decide_eq_true_2|by intros ->|by intros ->].
Qed.

Lemma shown_row_values cols row : plain_cols cols → row_values cols (shown_row cols row) = row_values cols row.
Proof.
  intros Hp. unfold row_values. apply list_fmap_ext. intros i c Hc. rewrite shown_row_value by (by eauto using list_elem_of_lookup_2). done.
Qed.

Lemma shown_row_has cols row : plain_cols cols → has_cols cols (shown_row cols row).
Proof. intros Hp c Hc. by rewrite shown_row_value. Qed.

Lemma remap_lookup cols right_cols row i c : plain_cols cols → cols !! i = Some c → remap cols right_cols row !! c = Some (right_value right_cols row i).
Proof.
  intros (Hn & H1 & H2) Hc. unfold remap. assert (Hin : c ∈ cols) by by eapply list_elem_of_lookup_2.
  rewrite !lookup_insert_ne by (intros <-; done). clear H1 H2 Hin.
  revert i Hc. induction cols as [|c' cols IH] using rev_ind; intros i Hc; [done|].
  apply NoDup_app in Hn as (Hn & Hd & _). rewrite imap_app, foldl_app. simpl. rewrite Nat.add_0_r. destruct (decide (c = c')) as [->|Hne].
  - rewrite lookup_insert_eq. destruct (decide (i < length cols)%nat) as [Hi|Hi].
    + rewrite lookup_app_l in Hc by done. exfalso. apply (Hd c'); [by eapply list_elem_of_lookup_2|by left].
    + apply lookup_lt_Some in Hc as Hl. rewrite length_app in Hl. simpl in Hl. by replace i with (length cols) by lia.
  - rewrite lookup_insert_ne by done. apply IH; [done|]. apply lookup_app_Some in Hc as [Hc|[_ Hc]]; [done|].
    apply list_lookup_singleton_Some in Hc as [_ ?]. congruence.
Qed.

Lemma right_value_values right_cols row i : right_value right_cols row i = default [] (row_values right_cols row !! i).
Proof. unfold right_value, row_values. rewrite list_lookup_fmap. by destruct (right_cols !! i). Qed.

Lemma remap_values cols right_cols row : plain_cols cols → length cols = length right_cols →
  row_values cols (remap cols right_cols row) = row_values right_cols row.
Proof.
  intros Hp Hl. apply list_eq_same_length with (length cols); [unfold row_values; by rewrite length_fmap, Hl|unfold row_values; by rewrite length_fmap|].
  intros i x y Hi Hx Hy. unfold row_values in Hx. rewrite list_lookup_fmap in Hx. destruct (cols !! i) as [c|] eqn:Ec; [|done]. simpl in Hx.
  rewrite (remap_lookup _ _ _ i) in Hx by done. simpl in Hx. rewrite right_value_values, Hy in Hx. simpl in Hx. congruence.
Qed.

Lemma remap_has cols right_cols row : plain_cols cols → has_cols cols (remap cols right_cols row).
Proof. intros Hp c [i Hi]%list_elem_of_lookup. by rewrite (remap_lookup _ _ _ i). Qed.

Lemma right_key_values cols right_cols row : length cols = length right_cols → right_key kRuns kPool cols right_cols row = tuple_key (row_values right_cols row).
Proof.
  intros Hl. unfold right_key, tuple_key. apply list_eq_same_length with (length cols).
  - unfold row_values. by rewrite !length_fmap, Hl.
  - by rewrite length_imap.
  - intros i x y Hi Hx Hy. rewrite list_lookup_imap in Hx. destruct (cols !! i); [|done]. simpl in Hx. rewrite (proj2 (Nat.ltb_lt _ _)) in Hx by lia.
    rewrite list_lookup_fmap in Hy. rewrite right_value_values in Hx. destruct (row_values right_cols row !! i); [|done]. simpl in *. congruence.
Qed.
End tuples.

Section keys.
Context {A K : Type} `{Countable K}.
Implicit Types (rows : list A) (key : A → K).

Lemma keep_key_ext key key' P rows : (∀ r, r ∈ rows → key r = key' r) → keep key P rows = keep key' P rows.
Proof.
  induction rows as [|row rows IH] using rev_ind; intros HE; [done|].
  assert (Hr : ∀ r, r ∈ rows → key r = key' r) by (intros r Hr; apply HE, elem_of_app; by left). rewrite !keep_snoc, IH by done.
  assert (Hk : key row = key' row) by (apply HE, elem_of_app; right; by left). rewrite Hk.
  replace (occ key' (key' row) rows) with (occ key (key' row) rows); [done|]. unfold occ. f_equal. apply filter_ext_elem. intros r Hi. by rewrite (Hr r Hi).
Qed.
End keys.

Inductive SetOp : Set := Union | Intersect | Except.

#[export] Instance SetOp_eq_dec : EqDecision SetOp.
Proof. solve_decision. Defined.

Section setop_properties.
Context (kRuns : list Run) (kPool : list Z) (mode : SortMode).
Implicit Types (cols lcols rcols names : list (list Z)) (row : Row) (rows lrows rrows : list Row) (l r : list (list (list Z))).

#[local] Abbreviation tkey := (tuple_key kRuns kPool).

(** What the operation promises of the tuples of the two sides: which occurrence of a tuple, by its key, is in the answer. *)
Definition set_keeps (op : SetOp) (all : bool) r (k : list (list Z)) (n : nat) : bool :=
  match op, all with
  | Union, true => true
  | Union, false => bool_decide (n = 0%nat)
  | Intersect, true => (n <? among k (tkey <$> r))%nat
  | Intersect, false => bool_decide (k ∈ (tkey <$> r)) && bool_decide (n = 0%nat)
  | Except, true => (among k (tkey <$> r) <=? n)%nat
  | Except, false => negb (bool_decide (k ∈ (tkey <$> r))) && bool_decide (n = 0%nat)
  end.

Definition set_tuples (op : SetOp) (all : bool) l r : list (list (list Z)) :=
  keep tkey (set_keeps op all r) (match op with Union => l ++ r | _ => l end).

(** SQL's count of a tuple that the sides hold [m] and [n] times. *)
Definition set_count (op : SetOp) (all : bool) (m n : nat) : nat :=
  match op, all with
  | Union, true => m + n
  | Union, false => Nat.min 1 (m + n)
  | Intersect, true => Nat.min m n
  | Intersect, false => Nat.min 1 (Nat.min m n)
  | Except, true => m - n
  | Except, false => if decide (n = 0)%nat then Nat.min 1 m else 0
  end%nat.

Definition exec_set (op : SetOp) (left_out right_out : result (list Z)) names (all : bool) : result (list Z) :=
  match op with
  | Union => exec_union kRuns kPool mode left_out right_out names all [] None None
  | Intersect => exec_intersect kRuns kPool mode left_out right_out all [] None None
  | Except => exec_except kRuns kPool mode left_out right_out all [] None None
  end.

Lemma occ_among k (vs : list (list (list Z))) : occ tkey k vs = among k (tkey <$> vs).
Proof. unfold occ, among. induction vs as [|v vs IH]; [done|]. rewrite fmap_cons, !filter_cons. repeat case_decide; subst; simpl; congruence. Qed.

Lemma seq_below n m : length (filter (λ i, (i <? m)%nat = true) (seq 0 n)) = Nat.min n m.
Proof.
  induction n as [|n IH]; [done|]. rewrite seq_S, filter_app, length_app, IH, filter_cons. case_decide as Hd; rewrite Nat.ltb_lt in Hd; cbn [length filter list_filter]; lia.
Qed.

Lemma seq_from n m : length (filter (λ i, (m <=? i)%nat = true) (seq 0 n)) = (n - m)%nat.
Proof.
  induction n as [|n IH]; [done|]. rewrite seq_S, filter_app, length_app, IH, filter_cons. case_decide as Hd; rewrite Nat.leb_le in Hd; cbn [length filter list_filter]; lia.
Qed.

Lemma set_tuples_count op all l r k : occ tkey k (set_tuples op all l r) = set_count op all (occ tkey k l) (occ tkey k r).
Proof.
  unfold set_tuples. pose proof (among_pos k (tkey <$> r)) as Hpos. rewrite <- occ_among in Hpos.
  destruct op, all; cbn [set_count].
  - rewrite keep_count, filter_all, length_seq, occ_app; [done|]. by apply Forall_true.
  - rewrite occ_keep_first by done. by rewrite occ_app.
  - rewrite keep_count. unfold set_keeps. by rewrite seq_below, <- occ_among.
  - destruct (decide (k ∈ (tkey <$> r))) as [Hk|Hk].
    + rewrite occ_keep_first; [|intros n; unfold set_keeps; by rewrite bool_decide_eq_true_2]. apply Hpos in Hk. lia.
    + rewrite occ_keep_never; [|intros n; unfold set_keeps; by rewrite bool_decide_eq_false_2]. rewrite <- Hpos in Hk. lia.
  - rewrite keep_count. unfold set_keeps. by rewrite seq_from, <- occ_among.
  - destruct (decide (k ∈ (tkey <$> r))) as [Hk|Hk].
    + rewrite occ_keep_never; [|intros n; unfold set_keeps; by rewrite bool_decide_eq_true_2]. apply Hpos in Hk. by rewrite decide_False by lia.
    + rewrite occ_keep_first; [|intros n; unfold set_keeps; by rewrite bool_decide_eq_false_2]. rewrite <- Hpos in Hk. by rewrite decide_True by lia.
Qed.

(** The rows of a side, read back from its answer. *)
Lemma side_values cols rows : plain_cols cols → row_values cols <$> (shown_row cols <$> rows) = row_values cols <$> rows.
Proof. intros Hp. rewrite <- list_fmap_compose. apply list_fmap_ext. intros i row _. by apply shown_row_values. Qed.

(** A loop that keeps rows by their key keeps the tuples. *)
Lemma kept_tuples cols (P : list (list Z) → nat → bool) rows : (∀ row, row ∈ rows → has_cols cols row) →
  row_values cols <$> keep (row_key kRuns kPool cols) P rows = keep tkey P (row_values cols <$> rows).
Proof.
  intros Hd. rewrite <- keep_fmap. f_equal. apply keep_key_ext. intros row Hr. by apply row_key_values, Hd.
Qed.

Lemma kept_shown cols (P : list (list Z) → nat → bool) rows : plain_cols cols →
  row_values cols <$> keep (row_key kRuns kPool cols) P (shown_row cols <$> rows) = keep tkey P (row_values cols <$> rows).
Proof.
  intros Hp. rewrite kept_tuples; [by rewrite side_values|]. intros row (r & -> & _)%list_elem_of_fmap. by apply shown_row_has.
Qed.

Lemma right_keys_values cols rcols rrows : plain_cols rcols → length cols = length rcols →
  right_key kRuns kPool cols rcols <$> (shown_row rcols <$> rrows) = tkey <$> (row_values rcols <$> rrows).
Proof.
  intros Hp Hl. rewrite <- !list_fmap_compose. apply list_fmap_ext. intros i row _. simpl. by rewrite right_key_values, shown_row_values.
Qed.

Lemma parse_side cols rows : parse_table_output (format_set_result cols rows) = (match rows with [] => [] | _ => cols end, shown_row cols <$> rows).
Proof. by destruct (result_text_roundtrip cols rows) as (E & _). Qed.

Lemma finish_plain cols rows : finish_set kRuns kPool mode cols [] None None rows = Ok (format_set_result cols rows).
Proof. done. Qed.

(** The rows of a UNION under the columns [cols]. *)
Lemma union_tuples all cols lrows' rcols rrows : plain_cols cols → plain_cols rcols → (rrows ≠ [] → length cols = length rcols) →
  (∀ row, row ∈ lrows' → has_cols cols row) →
  row_values cols <$> (let rows := lrows' ++ (remap cols rcols <$> (shown_row rcols <$> rrows)) in
    if all : bool then rows else union_loop (row_key kRuns kPool cols) rows) =
  set_tuples Union all (row_values cols <$> lrows') (row_values rcols <$> rrows).
Proof.
  intros Hp Hr Hl Hh. set (rows := lrows' ++ _). cbv zeta.
  assert (Hrows : row_values cols <$> rows = (row_values cols <$> lrows') ++ (row_values rcols <$> rrows)).
  { unfold rows. rewrite fmap_app. f_equal. rewrite <- !list_fmap_compose. apply list_fmap_ext. intros i row Hi. simpl.
    rewrite remap_values, shown_row_values; [done|done|done|]. apply Hl. by intros ->. }
  assert (Hhas : ∀ row, row ∈ rows → has_cols cols row).
  { intros row [Hi|(r & -> & _)%list_elem_of_fmap]%elem_of_app; [by apply Hh|by apply remap_has]. }
  unfold set_tuples. destruct all.
  - rewrite Hrows. symmetry. unfold set_keeps. generalize ((row_values cols <$> lrows') ++ (row_values rcols <$> rrows)). intros vs.
    induction vs as [|v vs IH] using rev_ind; [done|]. by rewrite keep_snoc, IH.
  - by rewrite union_loop_keep, kept_tuples, Hrows.
Qed.

Definition exec_answer op all lcols rcols names lrows rrows : result (list Z) :=
  exec_set op (Ok (format_set_result lcols lrows)) (Ok (format_set_result rcols rrows)) names all.

Lemma union_answer all lcols rcols names lrows rrows :
  lcols ≠ [] → plain_cols lcols → plain_cols rcols → plain_cols names → length lcols = length rcols →
  ∃ cols rows, exec_answer Union all lcols rcols names lrows rrows = Ok (format_set_result cols rows) ∧
    (lrows ≠ [] → cols = lcols) ∧ row_values cols <$> rows = set_tuples Union all (row_values lcols <$> lrows) (row_values rcols <$> rrows).
Proof.
  intros Hne Hpl Hpr Hpn Hlen. assert (Hrne : rcols ≠ []) by (intros ->; by destruct lcols).
  unfold exec_answer, exec_set, exec_union. rewrite !parse_side. destruct lrows as [|lrow lrows].
  - destruct rrows as [|rrow rrows]; [by exists lcols, []; destruct all|]. set (rr := rrow :: rrows).
    rewrite bool_decide_eq_true_2, bool_decide_eq_false_2 by done. cbn [andb].
    set (cols := if decide (length names = length rcols) then names else rcols).
    assert (Hcols : plain_cols cols ∧ length cols = length rcols) by (unfold cols; by case_decide). destruct Hcols as [Hp Hl].
    assert (cols ≠ []) by (intros E; rewrite E in Hl; by destruct rcols). rewrite (bool_decide_eq_false_2 (cols = [])) by done.
    eexists cols, _. split; [apply finish_plain|]. split; [done|]. apply (union_tuples all cols [] rcols rr); [done|done|done|]. by intros row ?%elem_of_nil.
  - rewrite (bool_decide_eq_false_2 (lcols = [])) by done. cbn [andb]. rewrite (bool_decide_eq_false_2 (lcols = [])) by done.
    eexists lcols, _. split; [apply finish_plain|]. split; [done|].
    pose proof (union_tuples all lcols (shown_row lcols <$> lrow :: lrows) rcols rrows Hpl Hpr (λ _, Hlen)) as HU. rewrite side_values in HU by done.
    destruct rrows as [|rrow rrows]; apply HU; intros row (r & -> & _)%list_elem_of_fmap; by apply shown_row_has.
Qed.

(** INTERSECT and EXCEPT keep rows of the left side. *)
Lemma left_answer op all lcols rcols names lrows rrows : op ≠ Union →
  lcols ≠ [] → plain_cols lcols → plain_cols rcols → length lcols = length rcols →
  ∃ cols rows, exec_answer op all lcols rcols names lrows rrows = Ok (format_set_result cols rows) ∧
    (lrows ≠ [] → cols = lcols) ∧ row_values cols <$> rows = set_tuples op all (row_values lcols <$> lrows) (row_values rcols <$> rrows).
Proof.
  intros Hop Hne Hpl Hpr Hlen. unfold exec_answer. destruct lrows as [|lrow lrows].
  - exists (match rrows with [] => [] | _ => rcols end), []. split; [|split; [done|by destruct op]].
    destruct op; [done|unfold exec_set, exec_intersect|unfold exec_set, exec_except]; rewrite !parse_side; by destruct all.
  - exists lcols. set (rk := tkey <$> (row_values rcols <$> rrows)).
    assert (Hrk : right_key kRuns kPool lcols (match rrows with [] => [] | _ => rcols end) <$> (shown_row rcols <$> rrows) = rk)
      by (destruct rrows; [done|by apply right_keys_values]).
    exists (keep (row_key kRuns kPool lcols) (set_keeps op all (row_values rcols <$> rrows)) (shown_row lcols <$> lrow :: lrows)).
    split; [|split; [done|]].
    + destruct op; [done|unfold exec_set, exec_intersect|unfold exec_set, exec_except]; rewrite !parse_side; cbv beta iota zeta;
        rewrite (bool_decide_eq_false_2 (lcols = [])), Hrk, finish_plain by done; do 2 f_equal; destruct all;
        rewrite ?intersect_all_keep, ?intersect_first_keep, ?except_all_keep, ?except_first_keep; reflexivity.
    + rewrite kept_shown by done. by destruct op.
Qed.

End setop_properties.

(** ** ORDER BY, OFFSET and LIMIT *)

Section ordering.
Context (kRuns : list Run) (kPool : list Z) (mode : SortMode).
Implicit Types (order_by : list OrderBy) (row : Row) (rows : list Row) (x y z : Row).

Definition value_of (ord : OrderBy) row : list Z := default [] (row !! ord_column ord).

(** The order the items promise: by the first item, and among its equals by the rest. *)
Definition item_order (ord : OrderBy) x y : comparison :=
  let c := cmp_key kRuns kPool (value_of ord x) (value_of ord y) ?= 0 in if ascending ord then c else CompOpp c.

Fixpoint rows_order order_by x y : comparison :=
  match order_by with [] => Eq | ord :: rest => match item_order ord x y with Eq => rows_order rest x y | c => c end end.

Lemma row_order_less_spec order_by x y : row_order_less kRuns kPool order_by x y = match rows_order order_by x y with Lt => true | _ => false end.
Proof.
  induction order_by as [|ord rest IH]; [done|]. cbn [row_order_less rows_order]. unfold item_order, value_of. rewrite IH.
  set (c := cmp_key _ _ _ _). destruct (ascending ord), (Z.compare_spec c 0); cbn [CompOpp];
    destruct (Z.eqb_spec c 0), (Z.eqb_spec (- c) 0), (Z.ltb_spec c 0), (Z.ltb_spec (- c) 0); try lia; done.
Qed.

(** The values of every sorted column compare as a total preorder. *)
Definition sortable order_by rows : Prop :=
  ∀ ord, ord ∈ order_by → preorder (λ v, v ∈ (value_of ord <$> rows)) (λ a b, cmp_key kRuns kPool a b ?= 0).

Lemma item_preorder ord rows : preorder (λ v, v ∈ (value_of ord <$> rows)) (λ a b, cmp_key kRuns kPool a b ?= 0) → preorder (λ x, x ∈ rows) (item_order ord).
Proof.
  intros Hp. unfold item_order. split.
  - intros x y Hx Hy. pose proof (po_antisym Hp (value_of ord x) (value_of ord y)) as E. cbn beta in E.
    rewrite E by by apply list_elem_of_fmap_2. by destruct (ascending ord).
  - intros x y z Hx Hy Hz. pose proof (po_trans Hp (value_of ord x) (value_of ord y) (value_of ord z)) as T.
    pose proof (po_trans Hp (value_of ord z) (value_of ord y) (value_of ord x)) as T'. cbn beta in T, T'.
    pose proof (po_antisym Hp (value_of ord x) (value_of ord y)) as E1. pose proof (po_antisym Hp (value_of ord y) (value_of ord z)) as E2.
    pose proof (po_antisym Hp (value_of ord x) (value_of ord z)) as E3. cbn beta in E1, E2, E3.
    specialize (T ltac:(by apply list_elem_of_fmap_2) ltac:(by apply list_elem_of_fmap_2) ltac:(by apply list_elem_of_fmap_2)).
    specialize (T' ltac:(by apply list_elem_of_fmap_2) ltac:(by apply list_elem_of_fmap_2) ltac:(by apply list_elem_of_fmap_2)).
    rewrite E1, E2, E3 in T' by by apply list_elem_of_fmap_2.
    destruct (ascending ord); [done|]. intros H1 H2. apply T'; [|]; by destruct (_ ?= _).
Qed.

Lemma rows_preorder order_by rows : sortable order_by rows → preorder (λ x, x ∈ rows) (rows_order order_by).
Proof.
  induction order_by as [|ord rest IH]; intros Hs; [by split|]. cbn [rows_order].
  apply (preorder_then (λ x, x ∈ rows) (item_order ord) (rows_order rest)); [apply item_preorder, Hs; by left|apply IH; intros o Ho; apply Hs; by right].
Qed.

Lemma less_strict_weak order_by rows : sortable order_by rows → strict_weak (row_order_less kRuns kPool order_by) rows.
Proof.
  intros Hs%rows_preorder x y z Hx Hy Hz. unfold not_after. rewrite !row_order_less_spec.
  rewrite (po_antisym Hs x y), (po_antisym Hs y z), (po_antisym Hs x z) by done. pose proof (po_trans Hs x y z Hx Hy Hz) as T.
  destruct (rows_order order_by x y), (rows_order order_by y z), (rows_order order_by x z); simpl; split; try done; intros; exfalso; by apply T.
Qed.

(** std::sort, and the order in which the pool's threads sort their slices. *)
Definition sort_mode_ok order_by rows : Prop :=
  (∀ l, strict_weak (row_order_less kRuns kPool order_by) l →
    std_sort mode (row_order_less kRuns kPool order_by) l ≡ₚ l ∧ StronglySorted (not_after (row_order_less kRuns kPool order_by)) (std_sort mode (row_order_less kRuns kPool order_by) l)) ∧
  completed (sort_chunks (hardware_concurrency mode) (length rows)) (slice_order mode).

(** The ORDER BY of a set operation. When the values of each sorted column compare as a total preorder, the rows are sorted by the items, the first
    that tells two rows apart deciding and DESC turned round, on one thread or on many; and OFFSET and LIMIT cut the sorted rows. *)
Theorem set_order_sorts order_by limit offset rows :
  order_by ≠ [] → sortable order_by rows → sort_mode_ok order_by rows →
  ∃ sorted, apply_set_postprocess kRuns kPool mode order_by limit offset rows =
      (match limit with Some n => take n | None => id end) ((match offset with Some n => drop n | None => id end) sorted) ∧
    sorted ≡ₚ rows ∧ StronglySorted (λ x y, rows_order order_by x y ≠ Gt) sorted.
Proof.
  intros Hne Hs [Hstd Hc]. pose proof (less_strict_weak order_by rows Hs) as Hw. exists (sort_rows kRuns kPool mode order_by rows).
  split; [by destruct order_by, limit, offset|].
  enough (HS : sort_rows kRuns kPool mode order_by rows ≡ₚ rows ∧ StronglySorted (not_after (row_order_less kRuns kPool order_by)) (sort_rows kRuns kPool mode order_by rows)).
  { destruct HS as [HP HS]. split; [done|]. apply rows_preorder in Hs. assert (Hin : Forall (λ x, x ∈ rows) (sort_rows kRuns kPool mode order_by rows))
      by (apply Forall_forall; intros x; by rewrite HP). clear HP. induction HS as [|x l HS IH Hx]; [constructor|]. apply Forall_cons in Hin as [Hi Hin].
    constructor; [by apply IH|]. rewrite Forall_forall in *. intros y Hy. specialize (Hx y Hy). unfold not_after in Hx. rewrite row_order_less_spec in Hx.
    rewrite (po_antisym Hs x y) in Hx by auto. intros E. by rewrite E in Hx. }
  unfold sort_rows. destruct (parallel_enabled mode && _); [|split; [apply stable_sort_perm|by apply stable_sort_sorted]].
  destruct (parallel_sort_spec (row_order_less kRuns kPool order_by) (std_sort mode (row_order_less kRuns kPool order_by)) (hardware_concurrency mode) no_stop 0 false
    (slice_order mode) rows Hstd Hw Hc) as [Hex Hout]. destruct (Hex eq_refl) as [out E]. rewrite E. by apply Hout.
Qed.
End ordering.

(** ** The names of ORDER BY *)

Definition is_position (ord : OrderBy) : bool := negb (bool_decide (ord_column ord = [])) && forallb is_digit (ord_column ord).

Lemma resolve_item_spec cols ord :
  match resolve_order_item cols ord with
  | Ok o' => ascending o' = ascending ord ∧ ord_column o' ∈ cols ∧
      if is_position ord then cols !! (Z.to_nat (digits_value (ord_column ord)) - 1)%nat = Some (ord_column o') ∧ (1 ≤ digits_value (ord_column ord) ≤ Z.of_nat (length cols))
      else ord_column o' = ord_column ord ∨ lower_case (ord_column o') = lower_case (bare_name (ord_column ord))
  | Err e => e = unknown_column (ord_column ord) ∧
      if is_position ord then (9 < length (ord_column ord))%nat ∨ ~ (1 ≤ digits_value (ord_column ord) ≤ Z.of_nat (length cols))
      else (ord_column ord ∉ cols) ∧ ∀ c, c ∈ cols → lower_case c ≠ lower_case (bare_name (ord_column ord))
  end.
Proof.
  unfold resolve_order_item. fold (is_position ord). destruct (is_position ord) eqn:Ep.
  - unfold is_position in Ep. apply andb_true_iff in Ep as [_ Hd]. rewrite forallb_forall in Hd.
    assert (Hn : 0 ≤ digits_value (ord_column ord)) by (apply digits_value_bound, Forall_forall; intros c Hc; by apply Hd, list_elem_of_In).
    destruct (Nat.ltb_spec 9 (length (ord_column ord))); [by split; [|left]|].
    destruct (Nat.ltb_spec (Z.to_nat (digits_value (ord_column ord))) 1); [by split; [|right; lia]|].
    destruct (Nat.ltb_spec (length cols) (Z.to_nat (digits_value (ord_column ord)))); [by split; [|right; lia]|]. cbn [orb ascending ord_column].
    destruct (lookup_lt_is_Some_2 cols (Z.to_nat (digits_value (ord_column ord)) - 1) ltac:(lia)) as [c Hc].
    rewrite (list_lookup_total_correct _ _ _ Hc). split_and!; [done|by eapply list_elem_of_lookup_2|done|lia|lia].
  - case_bool_decide as Hin; [split_and!; [done|done|by left]|]. destruct (list_find _ cols) as [[i c]|] eqn:E.
    + apply list_find_Some in E as (Hc & He & _). unfold ieq in He. apply bool_decide_eq_true in He. cbn [ascending ord_column].
      split_and!; [done|by eapply list_elem_of_lookup_2|by right].
    + split_and!; [done|done|]. apply list_find_None in E. rewrite Forall_forall in E. intros c Hc HE. apply (E c Hc).
      unfold ieq. by apply bool_decide_eq_true.
Qed.

(** An ORDER BY item that is a number is the place of a column of the answer, and one that is not between 1 and their number is an error,
    as is a name no column has; what an item is resolved to is always a column of the answer. *)
Theorem resolve_set_order_bounds cols order_by :
  match resolve_set_order cols order_by with
  | Ok order_by' => Forall2 (λ o o', ascending o' = ascending o ∧ ord_column o' ∈ cols ∧
      if is_position o then cols !! (Z.to_nat (digits_value (ord_column o)) - 1)%nat = Some (ord_column o') ∧ (1 ≤ digits_value (ord_column o) ≤ Z.of_nat (length cols))
      else ord_column o' = ord_column o ∨ lower_case (ord_column o') = lower_case (bare_name (ord_column o))) order_by order_by'
  | Err e => ∃ o, o ∈ order_by ∧ e = unknown_column (ord_column o) ∧
      if is_position o then (9 < length (ord_column o))%nat ∨ ~ (1 ≤ digits_value (ord_column o) ≤ Z.of_nat (length cols))
      else (ord_column o ∉ cols) ∧ ∀ c, c ∈ cols → lower_case c ≠ lower_case (bare_name (ord_column o))
  end.
Proof.
  induction order_by as [|ord rest IH]; [by constructor|]. cbn [resolve_set_order]. pose proof (resolve_item_spec cols ord) as HI.
  destruct (resolve_order_item cols ord) as [ord'|e].
  - destruct (resolve_set_order cols rest) as [rest'|e]; [by constructor|]. destruct IH as (o & Ho & HE). exists o. split; [by right|done].
  - destruct HI as [-> HE]. exists ord. split; [by left|done].
Qed.

(** ** Witnesses *)

Definition one_thread : SortMode := mkSortMode false 0 (λ less, stable_sort less) 1 [0%nat].
Definition demo_left : list Row := [{[ str "a" := str "1" ]}; {[ str "a" := str "x" ]}; {[ str "a" := str "X" ]}; {[ str "a" := str "2" ]}].
Definition demo_right : list Row := [{[ str "b" := str "x" ]}; {[ str "b" := str "3" ]}].

Definition shown_values cols (answer : result (list Z)) : option (list (list (list Z))) :=
  match answer with Ok text => Some (row_values cols <$> (parse_table_output text).2) | Err _ => None end.

Example set_demo :
  let ask op all := shown_values [str "a"] (exec_answer ascii_runs ascii_pool one_thread op all [str "a"] [str "b"] [] demo_left demo_right) in
  ask Union false = Some [[str "1"]; [str "x"]; [str "2"]; [str "3"]] ∧ ask Intersect false = Some [[str "x"]] ∧
  ask Except true = Some [[str "1"]; [str "X"]; [str "2"]] ∧ ask Except false = Some [[str "1"]; [str "2"]].
Proof. vm_compute. done. Qed.

Lemma plain_one c : c ≠ str "_xmin" → c ≠ str "_xmax" → plain_cols [c].
Proof. intros H1 H2. split_and!; [apply NoDup_singleton|by intros ?%list_elem_of_singleton|by intros ?%list_elem_of_singleton]. Qed.


Lemma one_task : completed 1 [0%nat].
Proof. exists 1%nat, [1%nat], [Call0 0], (default (start 1 []) (run_events [Call0 0] (start 1 [1%nat]))), 0%nat. eexists. vm_compute. repeat split. Qed.

Lemma set_order_sorts_witness :
  ∃ sorted, apply_set_postprocess ascii_runs ascii_pool one_thread [mkOrderBy (str "b") false] (Some 1%nat) None demo_right = take 1 (id sorted) ∧
    sorted ≡ₚ demo_right.
Proof.
  destruct (set_order_sorts ascii_runs ascii_pool one_thread [mkOrderBy (str "b") false] (Some 1%nat) None demo_right) as (sorted & H & HP & _).
  - discriminate.
  - intros ord ->%list_elem_of_singleton. apply preorder_checked. vm_compute. reflexivity.
  - split; [|exact one_task]. intros l Hl. split; [apply stable_sort_perm|by apply stable_sort_sorted].
  - exists sorted. split; [exact H|exact HP].
Defined.

(** ** Where the code falls short *)

(** Rows are maps by the names of the columns: of two columns of one name both show the last one's value. *)
Example columns_of_one_name :
  exec_set ascii_runs ascii_pool one_thread Union
    (Ok (str "+---+---+" ++ 10 :: str "| a | a |" ++ 10 :: str "+---+---+" ++ 10 :: str "| 1 | 2 |" ++ 10 :: str "+---+---+" ++ 10 :: str "1 row(s) returned."))
    (Ok no_rows) [] true =
  Ok (str "+---+---+" ++ 10 :: str "| a | a |" ++ 10 :: str "+---+---+" ++ 10 :: str "| 2 | 2 |" ++ 10 :: str "+---+---+" ++ 10 :: str "1 row(s) returned.").
Proof. vm_compute. reflexivity. Qed.

(** Integers are compared as doubles: beyond 2^53 ORDER BY does not tell them apart. *)
Example big_integers_tie :
  cmp_key ascii_runs ascii_pool (str "9007199254740993") (str "9007199254740992") = 0 ∧
  compare_numbers (str "9007199254740993") (str "9007199254740992") = 1.
Proof. vm_compute. done. Qed.
