(* ===== verification/Arith.v ===== *)
(** * Arithmetic of values (executor_eval.cpp: NumVal, combine, number_tree's leaves, arithmetic_text; leading_number of
    include/engine/sql_value_util.hpp)

    A tree of + - * / is evaluated with all the digits its values have: integers as BIGINT, decimals exactly, everything else as
    doubles. The shortest text of a double (format_double) is the parameter [format_double]; the counter of divisions by zero
    is left to the evaluator. *)
From Stdlib Require Import SpecFloat QArith Qfield.
From S2P Require Import Prelude Numerals NumericText Decimals JsonValue.

#[local] Open Scope Z_scope.

(** ** Doubles *)

(** strtod of a text that is a number: no exception, an infinity or zero out of range. *)
Definition strtod (s : list Z) : spec_float :=
  let '(neg, s) := match s with c :: t => if is_sign c then (c =? c_minus, t) else (false, s) | [] => (false, s) end in
  let whole := take_digits s in
  let s := drop (length whole) s in
  let '(fraction, s) := match s with c :: t => if c =? c_dot then (take_digits t, drop (count_digits t) t) else ([], s) | [] => ([], s) end in
  let '(e, _) := read_exponent s in
  double_of_decimal neg (digits_value (whole ++ fraction)) (e - Z.of_nat (length fraction)).

Fixpoint skip_white (s : list Z) : list Z :=
  match s with c :: t => if (c =? 32) || (c =? 9) || (c =? 10) || (c =? 13) then skip_white t else s | [] => [] end.

(** The number a text starts with, and whether the whole text is that number. *)
Definition leading_number (s : list Z) : spec_float * bool :=
  let t := skip_white s in
  let n := number_length t in
  if (n =? 0)%nat then (S754_zero false, false)
  else (strtod (take n t), forallb (λ c, (c =? 32) || (c =? 9)) (drop n t)).

Definition is_finite (v : spec_float) : bool := match v with S754_zero _ | S754_finite _ _ _ => true | _ => false end.

(** [static_cast<double>(static_cast<float>(v))] *)
Definition to_single (v : spec_float) : spec_float :=
  match v with
  | S754_finite neg m e =>
      match binary_normalize 24 128 (if neg then Z.neg m else Z.pos m) e neg with
      | S754_finite neg m e => binary_normalize 53 1024 (if neg then Z.neg m else Z.pos m) e neg
      | w => w
      end
  | v => v
  end.

(** ** NumVal *)

Record NumVal := mkNumVal {
  nv_null : bool;
  nv_approx : bool;
  nv_dbl : spec_float;
  nv_num : Num;
  nv_scale : nat;
  nv_is_int : bool;
  nv_int : Z;
  nv_derived : bool;
  nv_has_num : bool
}.

Definition num_zero : Num := mkNum false [48] 0.
Definition null_value : NumVal := mkNumVal true false (S754_zero false) num_zero 0 false 0 false false.

Definition as_double (x : NumVal) : spec_float :=
  if nv_approx x || negb (nv_derived x) then nv_dbl x
  else if nv_is_int x then double_of_int (nv_int x)
  else strtod (compact (to_decimal (nv_num x))).

Definition num_of (x : NumVal) : Num := if nv_has_num x then nv_num x else from_int (nv_int x).

(** An integer of at most 18 digits. *)
Definition small_int (s : list Z) : option Z :=
  let '(neg, ds) := match s with c :: t => if c =? c_minus then (true, t) else (false, s) | [] => (false, s) end in
  if bool_decide (ds = []) || (18 <? length ds)%nat || negb (forallb is_digit ds) then None
  else Some (if neg : bool then - digits_value ds else digits_value ds).

(** The nine digits behind the point of [rest / ub], one by one. *)
Fixpoint fraction_digits (k : nat) (ub rest fraction : Z) : Z :=
  match k with
  | O => fraction
  | S k => let rest := wrap64 (rest * 10) in fraction_digits k ub (rest mod ub) (wrap64 (fraction * 10 + rest / ub))
  end.

Definition int_quotient (a b : Z) : option Num :=
  let ua := if a <? 0 then wrap64 (0 - wrap64 a) else wrap64 a in
  let ub := if b <? 0 then wrap64 (0 - wrap64 b) else wrap64 b in
  if 900000000000000000 <? ub then None
  else
    let all := to_string (ua / ub) ++ (let f := to_string (fraction_digits 9 ub (ua mod ub) 0) in replicate (9 - length f) 48 ++ f) in
    let digits := strip_zeros all in
    Some (mkNum (negb (bool_decide (digits = [48])) && negb (eqb (a <? 0) (b <? 0))) digits 9).

Inductive arith_op := OpAdd | OpSub | OpMul | OpDiv.

Definition op_char (op : arith_op) : Z := match op with OpAdd => 43 | OpSub => 45 | OpMul => 42 | OpDiv => 47 end.

Definition int_text (v : Z) : list Z := minus_sign v ++ to_string (magnitude v).

Definition bigint_error (l : Z) (op : arith_op) (r : Z) : list Z :=
  str "BIGINT value is out of range in '(" ++ int_text l ++ 32 :: op_char op :: 32 :: int_text r ++ str ")'".

(** Whether [l / r] divides by zero: it is NULL then, and counted. *)
Definition zero_divisor (l r : NumVal) : bool :=
  if nv_approx l || nv_approx r then match as_double r with S754_zero _ => true | _ => false end
  else if nv_is_int r then nv_int r =? 0 else is_zero_digits (n_digits (nv_num r)).

Definition double_op (op : arith_op) : spec_float → spec_float → spec_float :=
  match op with OpAdd => SFadd 53 1024 | OpSub => SFsub 53 1024 | OpMul => SFmul 53 1024 | OpDiv => SFdiv 53 1024 end.

(** The digits behind the point that a quotient holds. *)
Definition internal_scale (scale : nat) : nat := (scale + 4 + 8) / 9 * 9.

Definition exact_num (op : arith_op) (l r : NumVal) : Num * nat :=
  match op with
  | OpAdd => (num_add (num_of l) (num_of r) false, Nat.max (nv_scale l) (nv_scale r))
  | OpSub => (num_add (num_of l) (num_of r) true, Nat.max (nv_scale l) (nv_scale r))
  | OpMul => (num_mul (num_of l) (num_of r), Nat.min 30 (nv_scale l + nv_scale r))
  | OpDiv =>
      let by_digits := default num_zero (num_div (num_of l) (num_of r) (internal_scale (nv_scale l)) true) in
      (if nv_is_int l && nv_is_int r then default by_digits (int_quotient (nv_int l) (nv_int r)) else by_digits, Nat.min 30 (nv_scale l + 4))
  end.

Definition combine (op : arith_op) (l r : NumVal) : result NumVal :=
  if nv_null l || nv_null r then Ok null_value
  else
    let approx := nv_approx l || nv_approx r in
    let ld := if approx then as_double l else nv_dbl l in
    let rd := if approx then as_double r else nv_dbl r in
    if (match op with OpDiv => true | _ => false end) && zero_divisor l r then Ok (mkNumVal true approx (S754_zero false) num_zero 0 false 0 false false)
    else
      let dbl := double_op op ld rd in
      if approx then Ok (mkNumVal (negb (is_finite dbl)) true dbl num_zero 0 false 0 false false)
      else if (match op with OpDiv => false | _ => true end) && nv_is_int l && nv_is_int r then
        match int64_arith (op_char op) (nv_int l) (nv_int r) with
        | None => Err (bigint_error (nv_int l) op (nv_int r))
        | Some v => Ok (mkNumVal false false dbl num_zero 0 true v true false)
        end
      else
        let '(num, scale) := exact_num op l r in
        Ok (mkNumVal false false dbl num scale false 0 true true).

(** ** Leaves *)

(** The number of a text that is not NULL: an integer, a decimal, or (with an exponent, or no plain number) a double. *)
Definition text_number (value : list Z) : NumVal :=
  match small_int value with
  | Some v => mkNumVal false false (double_of_int v) num_zero 0 true v false false
  | None =>
      let dbl := fst (leading_number value) in
      match (if existsb (λ c, (c =? 101) || (c =? 69)) value then None else parse value) with
      | Some d =>
          let num := from_decimal d in
          match (if (n_scale num =? 0)%nat then to_int64 d else None) with
          | Some i => mkNumVal false false dbl num (n_scale num) true i false true
          | None => mkNumVal false false dbl num (n_scale num) false 0 false true
          end
      | None => mkNumVal false true dbl num_zero 0 false 0 false false
      end
  end.

Definition set_approx (approx : bool) (v : NumVal) : NumVal :=
  mkNumVal (nv_null v) approx (nv_dbl v) (nv_num v) (nv_scale v) (nv_is_int v) (nv_int v) (nv_derived v) (nv_has_num v).
Definition set_double (dbl : spec_float) (v : NumVal) : NumVal :=
  mkNumVal (nv_null v) (nv_approx v) dbl (nv_num v) (nv_scale v) (nv_is_int v) (nv_int v) (nv_derived v) (nv_has_num v).

(** ** Doubles as texts *)

Definition atoi (s : list Z) : Z :=
  let '(neg, t) := match s with c :: t => if is_sign c then (c =? c_minus, t) else (false, s) | [] => (false, s) end in
  signed neg (digits_value (take_digits t)).

(** Where the point goes: 1e-15 to 999999999999999 are written out, the others with an exponent. *)
Definition double_layout (ds : list Z) (power : Z) : list Z :=
  if (-15 <=? power) && (power <=? 14) then
    if power <? 0 then 48 :: c_dot :: replicate (Z.to_nat (- power - 1)) 48 ++ ds
    else
      let whole := S (Z.to_nat power) in
      let ds := ds ++ replicate (whole - length ds) 48 in
      take whole ds ++ (if (whole <? length ds)%nat then c_dot :: drop whole ds else [])
  else take 1 ds ++ (if (1 <? length ds)%nat then c_dot :: drop 1 ds else []) ++ 101 :: int_text power.

Section texts.
(** std::to_chars, chars_format::scientific, of a float ([true]) or a double *)
Context (to_chars : bool → spec_float → list Z).

Definition format_double (v : spec_float) (single : bool) : list Z :=
  match v with
  | S754_nan => str "NULL"
  | S754_infinity neg => if neg then str "-inf" else str "inf"
  | S754_zero _ => [48]
  | S754_finite _ _ _ =>
      let s := to_chars single v in
      let minus := match s with c :: _ => c =? c_minus | [] => false end in
      let s := if minus then drop 1 s else s in
      let e := from_option fst (length s) (list_find (λ c, c = 101) s) in
      let out := double_layout (filter (λ c, c ≠ c_dot) (take e s)) (atoi (drop (S e) s)) in
      if minus then c_minus :: out else out
  end.

(** The text of a tree's value; [exact]: with every digit it holds. *)
Definition numval_text (exact : bool) (v : NumVal) : list Z :=
  if nv_null v then str "NULL"
  else if nv_approx v then format_double (nv_dbl v) false
  else if nv_is_int v && negb (nv_has_num v) then int_text (nv_int v)
  else if exact then decimal_str (n_scale (nv_num v)) (to_decimal (nv_num v))
  else decimal_str (nv_scale v) (to_decimal (num_round (nv_scale v) false (nv_num v))).
End texts.

Lemma from_chars_finite s x u : from_chars_double s = Some (x, u) → is_finite x = true.
Proof.
  unfold from_chars_double. cbv zeta. intros H. repeat (case_match; try discriminate H); by simplify_eq.
Qed.

(** ** Integers as decimals *)

#[local] Abbreviation digits l := (Forall (λ c, is_digit c = true) l).

Lemma to_digits_first fuel n acc : 0 < n < 2 ^ Z.of_nat fuel → ∃ c l, to_digits fuel n acc = c :: l ∧ c ≠ 48.
Proof.
  revert n acc. induction fuel as [|fuel IH]; intros n acc Hn; [simpl in Hn; lia|]. cbn [to_digits].
  destruct (Z.ltb_spec n 10); [exists (48 + n), acc; split; [done|lia]|].
  rewrite Nat2Z.inj_succ, Z.pow_succ_r in Hn by lia. pose proof (Z.div_mod n 10 ltac:(lia)). pose proof (Z.mod_pos_bound n 10 ltac:(lia)).
  apply IH. nia.
Qed.

Lemma to_string_canonical n : 0 ≤ n → canonical (to_string n).
Proof.
  intros Hn. destruct (to_string_spec n Hn) as (Hne & Hd & Hv). destruct (decide (n = 0)) as [->|Hn0]; [exact canonical_0|].
  unfold to_string in *. destruct (to_digits_first (S (Z.to_nat (Z.log2 n))) n []) as (c & l & E & Hc).
  - split; [lia|]. pose proof (Z.log2_spec n ltac:(lia)). pose proof (Z.log2_nonneg n). rewrite Nat2Z.inj_succ, Z2Nat.id by lia. lia.
  - rewrite E in *. by apply canonical_head.
Qed.

Lemma from_int_spec v : in_int64 v → num_ok (from_int v) ∧ n_scale (from_int v) = 0%nat ∧ num_units (from_int v) = v.
Proof.
  intros Hv. unfold from_int. set (m := if v <? 0 then _ else _). assert (Hm : m = Z.abs v).
  { pose proof (magnitude_abs v Hv) as H. unfold magnitude in H. unfold m. destruct (Z.ltb_spec v 0); [exact H|lia]. }
  destruct (to_string_spec m ltac:(lia)) as (_ & _ & Ev). split_and!; [split|done|].
  - apply to_string_canonical. lia.
  - cbn [n_digits n_negative]. rewrite Ev. intros ->. destruct (Z.ltb_spec v 0); lia.
  - unfold num_units. cbn [n_digits n_negative]. rewrite Ev, Hm. unfold signed. destruct (Z.ltb_spec v 0); lia.
Qed.

Lemma small_int_spec s v : small_int s = Some v → in_int64 v.
Proof.
  unfold small_int. destruct (match s with c :: t => if c =? c_minus then (true, t) else (false, s) | [] => (false, s) end) as [neg ds].
  destruct (bool_decide (ds = []) || (18 <? length ds)%nat || negb (forallb is_digit ds)) eqn:E; [done|]. intros [= <-].
  apply orb_false_iff in E as [[E1 E2]%orb_false_iff E3]. apply Nat.ltb_ge in E2. apply negb_false_iff, digits_check in E3.
  pose proof (digits_value_bound ds E3). assert (10 ^ Z.of_nat (length ds) ≤ 10 ^ 18) by (apply Z.pow_le_mono_r; lia). destruct neg; widths.
Qed.

(** ** Exact values *)

(** A value that is a number kept with all its digits. *)
Record exact_ok (v : NumVal) : Prop := {
  ex_present : nv_null v = false;
  ex_exact : nv_approx v = false;
  ex_num : num_ok (num_of v);
  ex_int : nv_is_int v = true → in_int64 (nv_int v) ∧ num_units (num_of v) = nv_int v ∧ n_scale (num_of v) = 0%nat ∧ nv_scale v = 0%nat;
  ex_dec : nv_is_int v = false → nv_has_num v = true
}.

Definition nv_value (v : NumVal) : Q := num_value (num_of v).

Lemma int_value v : exact_ok v → nv_is_int v = true → (nv_value v == inject_Z (nv_int v))%Q.
Proof.
  intros H Hi. destruct (ex_int _ H Hi) as (_ & Hu & Hs & _). unfold nv_value, num_value. rewrite Hu, Hs. unfold dec, q10. simpl.
  unfold Qdiv. by rewrite Qmult_1_r.
Qed.

Lemma text_number_ok value : nv_approx (text_number value) = false → exact_ok (text_number value).
Proof.
  unfold text_number. destruct (small_int value) as [v|] eqn:Es.
  - intros _. apply small_int_spec in Es. destruct (from_int_spec v Es) as (H1 & H2 & H3). constructor; try done.
  - destruct (if existsb _ value then None else parse value) as [d|] eqn:Ep; [|done]. intros _.
    assert (Hd : decimal_ok d).
    { destruct (existsb _ value); [done|]. destruct (parse_sound value d Ep) as (neg & ip & fp & e & Ht).
      destruct (proj2 (decimal_parse_spec value) neg ip fp e Ht) as (d' & Ed & Hok & _). congruence. }
    destruct (from_decimal_spec d Hd) as (Hn & Hs & Hu).
    destruct (if (n_scale (from_decimal d) =? 0)%nat then to_int64 d else None) as [i|] eqn:Ei.
    + destruct (Nat.eqb_spec (n_scale (from_decimal d)) 0) as [E0|]; [|done]. rewrite to_int64_spec in Ei by done. cbv zeta in Ei. case_decide as Hi; [|done]. injection Ei as <-.
      constructor; try done. intros _. cbn [nv_int nv_has_num num_of nv_num nv_scale]. split_and!; [done| |done|done].
      unfold num_of. cbn [nv_has_num nv_num]. rewrite Hu. unfold d_units. rewrite Hs in E0. apply length_zero_iff_nil in E0. by rewrite E0, app_nil_r.
    + constructor; done.
Qed.

Lemma small_int_text value v : small_int value = Some v → ∃ neg ds, value = (if neg : bool then [c_minus] else []) ++ ds ∧ digits ds ∧ ds ≠ [] ∧ v = signed neg (digits_value ds).
Proof.
  unfold small_int. intros H.
  destruct (match value with c :: t => if c =? c_minus then (true, t) else (false, value) | [] => (false, value) end) as [neg ds] eqn:E.
  destruct (bool_decide (ds = []) || (18 <? length ds)%nat || negb (forallb is_digit ds)) eqn:Ec; [done|]. injection H as <-.
  apply orb_false_iff in Ec as [[E1 _]%orb_false_iff E3]. apply negb_false_iff, digits_check in E3. rewrite bool_decide_eq_false in E1. exists neg, ds.
  split_and!; [|done|done|by destruct neg]. destruct value as [|c t]; [by injection E as <- <-|]. destruct (Z.eqb_spec c c_minus) as [->|]; by injection E as <- <-.
Qed.

(** ** The quotient of integers *)

Lemma fraction_digits_spec k ub rest fraction : 0 ≤ rest < ub → ub ≤ 900000000000000000 → 0 ≤ fraction → (fraction + 1) * 10 ^ Z.of_nat k ≤ 10 ^ 18 →
  fraction_digits k ub rest fraction = fraction * 10 ^ Z.of_nat k + rest * 10 ^ Z.of_nat k / ub.
Proof.
  revert rest fraction. induction k as [|k IH]; intros rest fraction Hr Hu Hf Hb; cbn [fraction_digits].
  { change (10 ^ Z.of_nat 0) with 1. rewrite !Z.mul_1_r, Z.div_small; lia. }
  rewrite pow10_succ in *. pose proof (pow10_pos k). rewrite (wrap64_small (rest * 10)) by widths.
  pose proof (Z.div_mod (rest * 10) ub ltac:(lia)) as Hdm. pose proof (Z.mod_pos_bound (rest * 10) ub ltac:(lia)).
  set (d := rest * 10 / ub) in *. assert (0 ≤ d < 10) by nia. 
  assert ((fraction + 1) * 10 ≤ 10 ^ 18) by nia. rewrite (wrap64_small (fraction * 10 + d)) by widths.
  rewrite IH; [|lia|done|lia|nia].
  replace (rest * (10 * 10 ^ Z.of_nat k)) with (d * 10 ^ Z.of_nat k * ub + (rest * 10) mod ub * 10 ^ Z.of_nat k) by nia.
  rewrite Z.div_add_l by lia. ring.
Qed.

Lemma sign_quot a b : b ≠ 0 → Z.quot a b = signed (negb (eqb (a <? 0) (b <? 0))) (Z.abs a / Z.abs b).
Proof.
  intros Hb. rewrite Z.quot_div by done. unfold signed. destruct (Z.ltb_spec a 0), (Z.ltb_spec b 0); cbn [eqb negb].
  - rewrite !Z.sgn_neg by lia. lia.
  - rewrite Z.sgn_neg, Z.sgn_pos by lia. lia.
  - destruct (decide (a = 0)) as [->|]; [rewrite Z.div_0_l by lia; done|]. rewrite Z.sgn_pos, Z.sgn_neg by lia. lia.
  - destruct (decide (a = 0)) as [->|]; [rewrite Z.div_0_l by lia; done|]. rewrite !Z.sgn_pos by lia. lia.
Qed.

Lemma int_quotient_spec a b q : in_int64 a → in_int64 b → b ≠ 0 → int_quotient a b = Some q →
  num_ok q ∧ n_scale q = 9%nat ∧ num_units q = Z.quot (a * 10 ^ 9) b.
Proof.
  intros Ha Hb Hb0. unfold int_quotient. change (if a <? 0 then wrap64 (0 - wrap64 a) else wrap64 a) with (magnitude a).
  change (if b <? 0 then wrap64 (0 - wrap64 b) else wrap64 b) with (magnitude b). rewrite !magnitude_abs by done.
  set (ua := Z.abs a). set (ub := Z.abs b). destruct (Z.ltb_spec 900000000000000000 ub) as [|Hub]; [done|]. intros <-%(inj Some).
  assert (Hub0 : 0 < ub) by (unfold ub; lia). pose proof (Z.mod_pos_bound ua ub Hub0) as Hm.
  set (f := fraction_digits 9 ub (ua mod ub) 0). assert (Hf : f = ua mod ub * 10 ^ 9 / ub) by (apply (fraction_digits_spec 9); lia).
  clearbody f.
  assert (Hfb : 0 ≤ f < 10 ^ 9) by (rewrite Hf; split; [apply Z.div_pos; lia|apply Z.div_lt_upper_bound; nia]).
  destruct (to_string_spec f ltac:(lia)) as (_ & Hfd & Hfv). assert (Hw : 0 ≤ ua / ub) by (apply Z.div_pos; unfold ua; lia).
  destruct (to_string_spec (ua / ub) Hw) as (_ & Hwd & Hwv). set (pad := replicate _ 48 ++ to_string f).
  assert (Hlen : length pad = 9%nat).
  { unfold pad. rewrite length_app, length_replicate. pose proof (to_string_canonical f ltac:(lia)) as (_ & _ & Hc).
    destruct (Nat.le_gt_cases (length (to_string f)) 9); [lia|]. specialize (Hc ltac:(lia)). rewrite Hfv in Hc.
    assert (10 ^ 9 ≤ 10 ^ Z.of_nat (length (to_string f) - 1)) by (apply Z.pow_le_mono_r; lia). lia. }
  assert (Hpd : digits pad) by (apply Forall_app; split; [apply Forall_zeros|done]).
  assert (Hv : digits_value (strip_zeros (to_string (ua / ub) ++ pad)) = ua * 10 ^ 9 / ub).
  { rewrite strip_zeros_value, digits_value_app, Hlen, Hwv. unfold pad. rewrite replicate_zeros_value, Hfv, Hf.
    change (Z.of_nat 9) with 9. rewrite (Z.div_mod ua ub) at 3 by lia. replace ((ub * (ua / ub) + ua mod ub) * 10 ^ 9) with (ua / ub * 10 ^ 9 * ub + ua mod ub * 10 ^ 9) by ring.
    by rewrite Z.div_add_l by lia. }
  assert (Hc : canonical (strip_zeros (to_string (ua / ub) ++ pad))) by (apply strip_zeros_canonical, Forall_app; done).
  set (ds := strip_zeros _) in *. fold (is_zero_digits ds). set (neg := negb (eqb (a <? 0) (b <? 0))).
  replace (negb (is_zero_digits ds) && neg) with (if is_zero_digits ds then false else neg) by by destruct (is_zero_digits ds).
  split_and!; [by apply num_ok_zero_sign|done|]. rewrite units_zero_sign by done. rewrite Hv, sign_quot by done. f_equal.
  - unfold neg. do 2 f_equal. destruct (Z.ltb_spec a 0), (Z.ltb_spec (a * 10 ^ 9) 0); lia.
  - unfold ua, ub. by rewrite Z.abs_mul.
Qed.

(** ** Operations *)

Definition op_z (op : arith_op) : Z → Z → Z := match op with OpAdd => Z.add | OpSub => Z.sub | OpMul => Z.mul | OpDiv => Z.quot end.
Definition op_q (op : arith_op) : Q → Q → Q := match op with OpAdd => Qplus | OpSub => Qminus | OpMul => Qmult | OpDiv => Qdiv end.

Lemma op_z_value op a b : op ≠ OpDiv → (inject_Z (op_z op a b) == op_q op (inject_Z a) (inject_Z b))%Q.
Proof.
  destruct op; intros H; cbn [op_z op_q]; [by rewrite inject_Z_plus| |by rewrite inject_Z_mult|done].
  unfold Z.sub, Qminus. by rewrite inject_Z_plus, inject_Z_opp.
Qed.

Lemma int64_op op a b : op ≠ OpDiv → in_int64 a → in_int64 b →
  int64_arith (op_char op) a b = if decide (in_int64 (op_z op a b)) then Some (op_z op a b) else None.
Proof. intros H Ha Hb. rewrite int64_arith_spec by done. by destruct op. Qed.

Lemma exact_num_spec op l r : op ≠ OpDiv → num_ok (num_of l) → num_ok (num_of r) →
  num_ok (fst (exact_num op l r)) ∧ (num_value (fst (exact_num op l r)) == op_q op (nv_value l) (nv_value r))%Q.
Proof. intros H Hl Hr. destruct (num_arith_exact _ _ Hl Hr) as ((? & _ & ?) & (? & _ & ?) & (? & _ & ?)). by destruct op. Qed.

Lemma int_result v dbl : in_int64 v → exact_ok (mkNumVal false false dbl num_zero 0 true v true false).
Proof. intros Hv. destruct (from_int_spec v Hv) as (H1 & H2 & H3). by constructor. Qed.

Lemma num_result dbl n scale : num_ok n → exact_ok (mkNumVal false false dbl n scale false 0 true true).
Proof. by constructor. Qed.

Lemma combine_exact_spec op l r : op ≠ OpDiv → exact_ok l → exact_ok r →
  match combine op l r with
  | Ok v => exact_ok v ∧ (nv_value v == op_q op (nv_value l) (nv_value r))%Q
  | Err e => nv_is_int l = true ∧ nv_is_int r = true ∧ ¬ in_int64 (op_z op (nv_int l) (nv_int r)) ∧ e = bigint_error (nv_int l) op (nv_int r)
  end.
Proof.
  intros Hop Hl Hr. unfold combine. rewrite (ex_present _ Hl), (ex_present _ Hr), (ex_exact _ Hl), (ex_exact _ Hr).
  replace (match op with OpDiv => true | _ => false end) with false by by destruct op.
  replace (match op with OpDiv => false | _ => true end) with true by by destruct op. cbn [orb andb].
  destruct (exact_num_spec op l r Hop (ex_num _ Hl) (ex_num _ Hr)) as [Hn Hv].
  destruct (nv_is_int l) eqn:El, (nv_is_int r) eqn:Er; cbn [andb];
    [|destruct (exact_num op l r); split; [by apply num_result|exact Hv]..].
  destruct (ex_int _ Hl El) as [Hil _], (ex_int _ Hr Er) as [Hir _]. rewrite int64_op by done. case_decide as Hi; [|done].
  split; [by apply int_result|]. pose proof (int_result _ (double_op op (nv_dbl l) (nv_dbl r)) Hi) as Ho. rewrite (int_value _ Ho eq_refl).
  cbn [nv_int]. rewrite op_z_value by done. pose proof (int_value _ Hl El) as E1. pose proof (int_value _ Hr Er) as E2.
  destruct op; cbn [op_q]; [| | |done]; by rewrite E1, E2.
Qed.

(** ** Division *)

Lemma quot_sign a b p q : b ≠ 0 → 0 < q → Z.quot (a * Z.sgn b * p) (Z.abs b * q) = Z.quot (a * p) (b * q).
Proof.
  intros Hb Hq. destruct (Z.lt_trichotomy b 0) as [H|[H|H]]; [|done|].
  - rewrite Z.sgn_neg, Z.abs_neq by lia. rewrite <- (Z.quot_opp_opp (a * p)) by nia. f_equal; ring.
  - rewrite Z.sgn_pos, Z.abs_eq by lia. f_equal; ring.
Qed.

Lemma divisor_zero r : exact_ok r → (if nv_is_int r then nv_int r =? 0 else is_zero_digits (n_digits (nv_num r))) = (num_units (num_of r) =? 0).
Proof.
  intros Hr. destruct (nv_is_int r) eqn:E.
  - destruct (ex_int _ Hr E) as (_ & -> & _). done.
  - pose proof (ex_num _ Hr) as [Hc _]. unfold num_of in *. rewrite (ex_dec _ Hr E) in *. rewrite is_zero_digits_spec by done.
    unfold num_units, signed. destruct (n_negative _), (Z.eqb_spec (digits_value (n_digits (nv_num r))) 0), (Z.eqb_spec (- digits_value (n_digits (nv_num r))) 0); lia || done.
Qed.

Lemma quotient_spec l r : exact_ok l → exact_ok r → num_units (num_of r) ≠ 0 →
  let q := fst (exact_num OpDiv l r) in
  let places := internal_scale (nv_scale l) in
  num_ok q ∧ n_scale q = places ∧
  num_units q = Z.quot (num_units (num_of l) * 10 ^ Z.of_nat (places + n_scale (num_of r))) (num_units (num_of r) * 10 ^ Z.of_nat (n_scale (num_of l))).
Proof.
  intros Hl Hr Hnz. cbv zeta. cbn [exact_num fst].
  destruct (num_div_spec (num_of l) (num_of r) (internal_scale (nv_scale l)) true (ex_num _ Hl) (ex_num _ Hr) Hnz) as (q & -> & Hq & Hs & Hu).
  cbn [from_option id rounding] in *. rewrite quot_sign in Hu by (done || apply pow10_pos).
  destruct (nv_is_int l) eqn:El, (nv_is_int r) eqn:Er; cbn [andb]; try done.
  destruct (int_quotient (nv_int l) (nv_int r)) as [qi|] eqn:Ei; [|done]. cbn [from_option id].
  destruct (ex_int _ Hl El) as (Hil & Eul & Esl & Escl), (ex_int _ Hr Er) as (Hir & Eur & Esr & _).
  destruct (int_quotient_spec _ _ _ Hil Hir ltac:(congruence) Ei) as (H1 & H2 & H3). rewrite Escl, Eul, Eur, Esl, Esr. split_and!; [done|done|].
  rewrite H3. change (10 ^ Z.of_nat 0) with 1. by rewrite Z.mul_1_r.
Qed.

Lemma combine_div_spec l r : exact_ok l → exact_ok r →
  ∃ v, combine OpDiv l r = Ok v ∧
  if decide (num_units (num_of r) = 0) then nv_null v = true
  else exact_ok v ∧ n_scale (num_of v) = internal_scale (nv_scale l) ∧ num_units (num_of v) =
    Z.quot (num_units (num_of l) * 10 ^ Z.of_nat (internal_scale (nv_scale l) + n_scale (num_of r))) (num_units (num_of r) * 10 ^ Z.of_nat (n_scale (num_of l))).
Proof.
  intros Hl Hr. unfold combine, zero_divisor. rewrite (ex_present _ Hl), (ex_present _ Hr), (ex_exact _ Hl), (ex_exact _ Hr). cbn [orb andb].
  rewrite divisor_zero by done. case_decide as Hz; [rewrite Hz; by eexists|]. rewrite (proj2 (Z.eqb_neq _ _) Hz).
  pose proof (quotient_spec l r Hl Hr Hz) as H. cbv zeta in H. destruct (exact_num OpDiv l r) as [q sc]. destruct H as (H1 & H2 & H3).
  eexists. split; [done|]. split; [by apply num_result|]. done.
Qed.

(** ** Doubles as texts *)

(** The value of [m] units of [10^e]. *)
Definition scaled (m e : Z) : Q := (inject_Z m * q10 (Z.to_nat e) / q10 (Z.to_nat (- e)))%Q.

(** The text std::to_chars writes: a digit, a fraction and an exponent. *)
Definition scientific (s : list Z) (neg : bool) (c : Z) (fp : list Z) (power : Z) : Prop :=
  ∃ sg eds, s = (if neg then [c_minus] else []) ++ c :: (if bool_decide (fp = []) then [] else c_dot :: fp) ++ 101 :: sg :: eds ∧
    digits (c :: fp) ∧ is_sign sg = true ∧ digits eds ∧ eds ≠ [] ∧ power = signed (sg =? c_minus) (digits_value eds) ∧ digits_value eds < 10000.

Definition sign_chars (neg : bool) : list Z := if neg then [c_minus] else [].

Lemma sign_chars_of neg : sign_of (sign_chars neg) neg.
Proof. destruct neg; [by left|right; by auto]. Qed.

Lemma number_text_parse text neg ip fp e m p :
  Decimals.number_text text neg ip fp e → signed neg (digits_value (ip ++ fp)) = m * 10 ^ Z.of_nat p →
  ∃ d, parse text = Some d ∧ decimal_ok d ∧ (d_value d == scaled m (Z.of_nat p - Z.of_nat (length fp) + e))%Q.
Proof.
  intros H E. destruct (proj2 (decimal_parse_spec text) neg ip fp e H) as (d & Hd & Hok & _ & Hv). exists d. split_and!; [done|done|].
  rewrite E in Hv. unfold dec, scaled in *. rewrite inject_Z_mult in Hv. change (inject_Z (10 ^ Z.of_nat p)) with (q10 p) in Hv.
  set (x := Z.of_nat p - Z.of_nat (length fp) + e) in *.
  assert (Hq : (q10 p * q10 (Z.to_nat e) * q10 (Z.to_nat (- x)) == q10 (Z.to_nat x) * q10 (Z.to_nat (- e)) * q10 (length fp))%Q).
  { rewrite <- !q10_add. replace (p + Z.to_nat e + Z.to_nat (- x))%nat with (Z.to_nat x + Z.to_nat (- e) + length fp)%nat by lia. done. }
  pose proof (q10_nonzero (Z.to_nat (- e))). pose proof (q10_nonzero (length fp)). pose proof (q10_nonzero (Z.to_nat (- x))).
  apply (Qmult_inj_r _ _ (q10 (Z.to_nat (- e)))); [done|]. rewrite Hv.
  apply (Qmult_inj_r _ _ (q10 (Z.to_nat (- x)) * q10 (length fp))%Q); [by intros [?|?]%Qmult_integral|].
  transitivity (inject_Z m * (q10 p * q10 (Z.to_nat e) * q10 (Z.to_nat (- x))))%Q; [by field|]. rewrite Hq. by field.
Qed.

(** A number written as sign, digits, a fraction and an exponent. *)
Lemma plain_number_text neg ip fp ex e : digits ip → digits fp → ip ≠ [] → exponent_text ex e →
  Decimals.number_text (sign_chars neg ++ ip ++ (if bool_decide (fp = []) then [] else c_dot :: fp) ++ ex) neg ip fp e.
Proof.
  intros Hi Hf Hne Hex. exists [], (sign_chars neg), (if bool_decide (fp = []) then [] else c_dot :: fp), ex, [].
  rewrite app_nil_r. split_and!; try done; [by constructor|by constructor|apply sign_chars_of|by left|case_bool_decide; by auto].
Qed.

Lemma point_drop (n : nat) (ds : list Z) :
  (if (n <? length ds)%nat then c_dot :: drop n ds else []) = (if bool_decide (drop n ds = []) then [] else c_dot :: drop n ds).
Proof.
  destruct (Nat.ltb_spec n (length ds)) as [H|H].
  - rewrite bool_decide_false; [done|]. intros E%(f_equal length). rewrite length_drop in E. simpl in E. lia.
  - rewrite drop_ge by done. by rewrite bool_decide_true.
Qed.

Lemma int_text_exponent p : -10000 < p < 10000 → exponent_text (101 :: int_text p) p.
Proof.
  intros Hp. right. assert (Hi : in_int64 p) by widths. destruct (to_string_spec (magnitude p) ltac:(rewrite magnitude_abs by done; lia)) as (Hne & Hd & Hv).
  rewrite magnitude_abs in * by done. exists 101, (minus_sign p), (p <? 0), (to_string (Z.abs p)). unfold int_text. rewrite magnitude_abs, Hv by done.
  split_and!; try done; [|lia|unfold signed; destruct (Z.ltb_spec p 0); lia]. unfold minus_sign. destruct (p <? 0); [by left|right; by auto].
Qed.

Lemma double_layout_spec neg ds p : digits ds → ds ≠ [] → -10000 < p < 10000 →
  ∃ ip fp e k, Decimals.number_text (sign_chars neg ++ double_layout ds p) neg ip fp e ∧ digits_value (ip ++ fp) = digits_value ds * 10 ^ Z.of_nat k ∧
    Z.of_nat k - Z.of_nat (length fp) + e = p - Z.of_nat (length ds - 1).
Proof.
  intros Hd Hne Hp. assert (Hl : (0 < length ds)%nat) by (destruct ds; simpl; [done|lia]).
  assert (Hcut : ∀ n, digits (take n ds) ∧ digits (drop n ds)) by (intros n; split; [by apply Forall_take|by apply Forall_drop]).
  unfold double_layout. destruct ((-15 <=? p) && (p <=? 14)) eqn:Er; [destruct (Z.ltb_spec p 0) as [Hneg|Hpos]|].
  - exists [48], (replicate (Z.to_nat (- p - 1)) 48 ++ ds), 0, 0%nat. split_and!.
    + pose proof (plain_number_text neg [48] (replicate (Z.to_nat (- p - 1)) 48 ++ ds) [] 0) as H.
      rewrite bool_decide_false, app_nil_r in H by (intros [_ ?]%app_eq_nil; done). apply H; [by repeat constructor| |done|by left].
      apply Forall_app; split; [apply Forall_zeros|done].
    + simpl app. rewrite digits_value_cons, replicate_zeros_value. lia.
    + rewrite length_app, length_replicate. lia.
  - set (w := S (Z.to_nat p)). set (ext := ds ++ replicate (w - length ds) 48). exists (take w ext), (drop w ext), 0, (w - length ds)%nat. rewrite point_drop.
    assert (He : digits ext) by (apply Forall_app; split; [done|apply Forall_zeros]). assert (Hw : (w ≤ length ext)%nat) by (unfold ext; rewrite length_app, length_replicate; lia).
    split_and!.
    + pose proof (plain_number_text neg (take w ext) (drop w ext) [] 0) as H. rewrite app_nil_r in H.
      apply H; [by apply Forall_take|by apply Forall_drop| |by left]. intros E%(f_equal length). rewrite length_take in E. cbn [length] in E. lia.
    + rewrite take_drop. apply append_zeros_value.
    + rewrite length_drop. unfold ext. rewrite length_app, length_replicate. lia.
  - exists (take 1 ds), (drop 1 ds), p, 0%nat. rewrite point_drop. split_and!.
    + apply plain_number_text; [apply Hcut..| |by apply int_text_exponent]. by destruct ds.
    + rewrite take_drop. lia.
    + rewrite length_drop. lia.
Qed.

Lemma no_dot_filter l : digits l → filter (λ c, c ≠ c_dot) l = l.
Proof. induction 1 as [|c l Hc _ IH]; [done|]. rewrite filter_cons_True; [by f_equal|]. intros ->. done. Qed.

Lemma find_exponent (l t : list Z) : Forall (λ c, c ≠ 101) l → list_find (λ c, c = 101) (l ++ 101 :: t) = Some (length l, 101).
Proof. induction 1 as [|c l Hc _ IH]; [done|]. simpl. rewrite decide_False by done. by rewrite IH. Qed.

Lemma atoi_spec sg eds : is_sign sg = true → digits eds → atoi (sg :: eds) = signed (sg =? c_minus) (digits_value eds).
Proof. intros Hs Hd. unfold atoi. rewrite Hs. rewrite <- (app_nil_r eds) at 1. by rewrite take_digits_all. Qed.

(** The digits and the exponent of the scientific text are found, and laid out. *)
Lemma format_double_layout to_chars v single neg c fp p : match v with S754_finite _ _ _ => true | _ => false end = true →
  scientific (to_chars single v) neg c fp p → format_double to_chars v single = sign_chars neg ++ double_layout (c :: fp) p.
Proof.
  intros Hv (sg & eds & E & Hd & Hsg & Hed & _ & -> & _). unfold format_double. destruct v; try done. rewrite E. clear E Hv.
  set (mant := c :: (if bool_decide (fp = []) then [] else c_dot :: fp)). assert (Hc : is_digit c = true) by by apply Forall_inv in Hd.
  assert (Hminus : match sign_chars neg ++ mant ++ 101 :: sg :: eds with c :: _ => c =? c_minus | [] => false end = neg).
  { destruct neg; [done|]. unfold mant. simpl. destruct (Z.eqb_spec c c_minus) as [->|]; done. }
  change ((if neg then [c_minus] else []) ++ c :: (if bool_decide (fp = []) then [] else c_dot :: fp) ++ 101 :: sg :: eds) with (sign_chars neg ++ mant ++ 101 :: sg :: eds).
  cbv zeta. rewrite Hminus. replace (if neg then drop 1 (sign_chars neg ++ mant ++ 101 :: sg :: eds) else sign_chars neg ++ mant ++ 101 :: sg :: eds) with (mant ++ 101 :: sg :: eds) by by destruct neg.
  assert (Hno : ∀ l, digits l → Forall (λ c, c ≠ 101) l) by (intros l Hl; eapply Forall_impl; [exact Hl|]; intros x Hx ->; done).
  rewrite find_exponent. 2: { unfold mant. constructor; [by intros ->|]. case_bool_decide; [constructor|]. constructor; [done|]. apply Hno. by apply Forall_inv_tail in Hd. }
  cbn [from_option fst]. rewrite take_app_length. replace (S (length mant)) with (length (mant ++ [101])) by (rewrite length_app; simpl; lia).
  replace (mant ++ 101 :: sg :: eds) with ((mant ++ [101]) ++ sg :: eds) by (by rewrite <- app_assoc). rewrite drop_app_length, atoi_spec by done.
  assert (filter (λ c, c ≠ c_dot) mant = c :: fp) as ->; [|by destruct neg]. unfold mant.
  rewrite filter_cons_True by by intros ->. f_equal. apply Forall_inv_tail in Hd. case_bool_decide as Hf; [by subst|].
  rewrite filter_cons_False by (intros H; by apply H). by apply no_dot_filter.
Qed.

(** A double is written in the layout of MySQL without losing a digit: whatever scientific text std::to_chars gives for it, the
    text laid out (with zeros before or behind the digits, with a point, or with an exponent) reads as the same decimal number. *)
Theorem format_double_keeps to_chars v single neg c fp p :
  match v with S754_finite _ _ _ => true | _ => false end = true → scientific (to_chars single v) neg c fp p →
  ∃ a b, parse (to_chars single v) = Some a ∧ parse (format_double to_chars v single) = Some b ∧ decimal_ok b ∧ (d_value b == d_value a)%Q.
Proof.
  intros Hv Hs. rewrite (format_double_layout _ _ _ _ _ _ _ Hv Hs). destruct Hs as (sg & eds & -> & Hd & Hsg & Hed & Hene & -> & Hlt).
  set (p := signed (sg =? c_minus) (digits_value eds)). pose proof (digits_value_bound eds Hed).
  assert (Hp : -10000 < p < 10000) by (unfold p, signed; destruct (sg =? c_minus); lia).
  assert (Hd' := Hd). apply Forall_cons in Hd' as [Hc Hf].
  destruct (double_layout_spec neg (c :: fp) p Hd ltac:(done) Hp) as (ip & fp' & e & k & Hn & Ev & Ek).
  assert (Hx : exponent_text (101 :: sg :: eds) p).
  { right. exists 101, [sg], (sg =? c_minus), eds. split_and!; try done. unfold is_sign in Hsg. 
    destruct (Z.eqb_spec sg 45) as [->|]; [by left|]. rewrite orb_false_r in Hsg. apply Z.eqb_eq in Hsg as ->. right; by auto. }
  pose proof (plain_number_text neg [c] fp _ p ltac:(by constructor) Hf ltac:(done) Hx) as Ha.
  destruct (number_text_parse _ _ _ _ _ (signed neg (digits_value (c :: fp))) 0 Ha) as (a & Pa & _ & Va); [simpl; lia|].
  destruct (number_text_parse _ _ _ _ _ (signed neg (digits_value (c :: fp))) k Hn) as (b & Pb & Hb & Vb); [rewrite Ev; destruct neg; simpl; lia|].
  exists a, b. split_and!; [exact Pa|exact Pb|exact Hb|]. rewrite Va, Vb. replace (Z.of_nat k - Z.of_nat (length fp') + e) with (Z.of_nat 0 - Z.of_nat (length fp) + p); [done|].
  rewrite Ek. cbn [length]. lia.
Qed.

(** ** The texts of exact values *)

Lemma int_text_parse v : in_int64 v → ∃ d, parse (int_text v) = Some d ∧ decimal_ok d ∧ (d_value d == inject_Z v)%Q.
Proof.
  intros Hi. assert (Hm := magnitude_abs v Hi). destruct (to_string_spec (magnitude v) ltac:(lia)) as (Hne & Hd & Hv).
  pose proof (plain_number_text (v <? 0) (to_string (magnitude v)) [] [] 0 Hd ltac:(constructor) Hne ltac:(by left)) as H.
  rewrite bool_decide_true, !app_nil_r in H by done. change (sign_chars (v <? 0)) with (minus_sign v) in H.
  destruct (number_text_parse _ _ _ _ _ v 0 H) as (d & Hp & Ho & E).
  - rewrite app_nil_r, Hv, Hm. unfold signed. change (10 ^ Z.of_nat 0) with 1. destruct (Z.ltb_spec v 0); lia.
  - exists d. split_and!; [done|done|]. rewrite E. unfold scaled, q10. cbn. unfold Qdiv. by rewrite !Qmult_1_r.
Qed.

Lemma num_text_parse n : num_ok n → ∃ d, parse (decimal_str (n_scale n) (to_decimal n)) = Some d ∧ decimal_ok d ∧ (d_value d == num_value n)%Q.
Proof.
  intros Hn. destruct (to_decimal_spec n Hn) as (Hok & Hl & Hu). exists (to_decimal n). rewrite <- Hl. split_and!; [|done|].
  - apply decimal_text_roundtrip; [done|]. unfold is_zero. intros [Ei%bool_decide_eq_true Ef%bool_decide_eq_true]%andb_true_iff.
    cbn [to_decimal d_negative]. destruct Hn as [_ ->]; [done|]. assert (E : num_units n = 0).
    { rewrite <- Hu. unfold d_units. rewrite Ei, digits_value_app, <- (skip_zeros_value (d_fraction _)), Ef. by destruct (d_negative _). }
    unfold num_units, signed in E. destruct (n_negative n); lia.
  - unfold d_value, num_value. by rewrite Hu, Hl.
Qed.

Lemma int_value_text v : exact_ok v → nv_is_int v = true → ∃ d, parse (int_text (nv_int v)) = Some d ∧ decimal_ok d ∧ (d_value d == nv_value v)%Q.
Proof.
  intros Hv Ei. destruct (int_text_parse (nv_int v) ltac:(by apply (ex_int _ Hv Ei))) as (d & ? & ? & H). exists d. split_and!; [done|done|].
  by rewrite H, int_value.
Qed.

(** The full text of an exact value reads back as the value; the text shown, as the value rounded to the places shown. *)
Lemma numval_text_exact to_chars v : exact_ok v → ∃ d, parse (numval_text to_chars true v) = Some d ∧ decimal_ok d ∧ (d_value d == nv_value v)%Q.
Proof.
  intros Hv. unfold numval_text. rewrite (ex_present _ Hv), (ex_exact _ Hv). destruct (nv_is_int v) eqn:Ei; cbn [andb].
  - destruct (nv_has_num v) eqn:Eh; cbn [negb]; [|by apply int_value_text].
    pose proof (num_text_parse _ (ex_num _ Hv)) as H. unfold nv_value, num_of in *. by rewrite Eh in *.
  - pose proof (num_text_parse _ (ex_num _ Hv)) as H. unfold nv_value, num_of in *. by rewrite (ex_dec _ Hv Ei) in *.
Qed.

Lemma numval_text_shown to_chars v : exact_ok v →
  ∃ d, parse (numval_text to_chars false v) = Some d ∧ decimal_ok d ∧
    (d_value d == if nv_is_int v then nv_value v
                  else dec (rounding false (num_units (num_of v) * 10 ^ Z.of_nat (nv_scale v)) (10 ^ Z.of_nat (n_scale (num_of v)))) (nv_scale v))%Q.
Proof.
  intros Hv. unfold numval_text. rewrite (ex_present _ Hv), (ex_exact _ Hv). destruct (nv_is_int v) eqn:Ei; cbn [andb].
  - destruct (nv_has_num v) eqn:Eh; cbn [negb].
    + destruct (ex_int _ Hv Ei) as (_ & _ & Es & Esc). pose proof (ex_num _ Hv) as Hn. pose proof (num_round_spec 0 false _ Hn) as (Ho & Hsc & Hu).
      rewrite Esc. unfold nv_value, num_of in *. rewrite Eh in *. rewrite Es in Hu. change (10 ^ Z.of_nat 0) with 1 in Hu.
      assert (E : num_units (num_round 0 false (nv_num v)) = num_units (nv_num v)).
      { rewrite Hu, rounding_abs, Z.mul_1_r by lia. rewrite <- (Z.mul_1_r (Z.abs _)), round_abs_exact by lia. rewrite Z.mul_comm. apply Z.abs_sgn. }
      pose proof (num_text_parse _ Ho) as H. rewrite Hsc in H. destruct H as (d & ? & ? & H). exists d. split_and!; [done|done|].
      rewrite H. unfold num_value. by rewrite E, Hsc, Es.
    + by apply int_value_text.
  - pose proof (ex_num _ Hv) as Hn. destruct (num_round_spec (nv_scale v) false _ Hn) as (Ho & Hsc & Hu). unfold num_of in *. rewrite (ex_dec _ Hv Ei) in *.
    pose proof (num_text_parse _ Ho) as H. rewrite Hsc in H. destruct H as (d & ? & ? & H). exists d. split_and!; [done|done|].
    rewrite H. unfold num_value. by rewrite Hu, Hsc.
Qed.

(** A decimal written without an exponent is an exact value. *)
Definition exact_text (t : list Z) : Prop := parse t ≠ None ∧ existsb (λ c, (c =? 101) || (c =? 69)) t = false.

Lemma parse_ok t d : parse t = Some d → decimal_ok d.
Proof.
  intros Hp. destruct (parse_sound t d Hp) as (neg & ip & fp & e & Ht). destruct (proj2 (decimal_parse_spec t) neg ip fp e Ht) as (d' & Ed & Hd & _). congruence.
Qed.

Lemma text_number_value t d : existsb (λ c, (c =? 101) || (c =? 69)) t = false → parse t = Some d →
  exact_ok (text_number t) ∧ (nv_value (text_number t) == d_value d)%Q.
Proof.
  intros He Hp. assert (Ha : nv_approx (text_number t) = false).
  { unfold text_number. rewrite He, Hp. destruct (small_int t); [done|]. by destruct (if (n_scale _ =? 0)%nat then to_int64 d else None). }
  split; [by apply text_number_ok|]. pose proof (text_number_ok t Ha) as Hok. revert Ha Hok. unfold text_number. destruct (small_int t) as [v|] eqn:Es; intros _ Hok.
  - rewrite (int_value _ Hok eq_refl). cbn [nv_int]. destruct (small_int_text _ _ Es) as (neg & ds & -> & Hd & Hne & ->).
    pose proof (plain_number_text neg ds [] [] 0 Hd ltac:(constructor) Hne ltac:(by left)) as H. rewrite bool_decide_true, !app_nil_r in H by done.
    destruct (number_text_parse _ _ _ _ _ (signed neg (digits_value ds)) 0 H) as (d' & Hp' & _ & E); [rewrite app_nil_r; simpl; lia|].
    unfold sign_chars in Hp'. rewrite Hp in Hp'. injection Hp' as <-. rewrite E. unfold scaled, q10. cbn. unfold Qdiv. by rewrite !Qmult_1_r.
  - rewrite He, Hp in *. destruct (parse_sound t d Hp) as (neg & ip & fp & e & Ht).
    destruct (proj2 (decimal_parse_spec t) neg ip fp e Ht) as (d' & Ed & Hd & _). assert (d' = d) as -> by congruence.
    destruct (from_decimal_spec d Hd) as (Hn & Hs & Hu).
    assert (E : (num_value (from_decimal d) == d_value d)%Q) by (unfold num_value, d_value; by rewrite Hu, Hs).
    destruct (if (n_scale (from_decimal d) =? 0)%nat then to_int64 d else None) as [i'|]; exact E.
Qed.
