(* ===== verification/Classes.v ===== *)
(** * What an operand is (include/engine/value_class.hpp; kind_of_expr of include/engine/parser/ast.hpp; float_kind of
    executor_select.cpp; column_number, widen_single and the tables of functions of executor_eval.cpp)

    The class of an expression (text or number) says how a comparison compares it, its kind (a date, a time, an ENUM, a SET) which number it
    stands for, and whether it is a FLOAT which number it holds. *)
From Stdlib Require Import SpecFloat.
From S2P Require Import Prelude Numerals NumericText Collation Dates Split JsonValue Decimals Arith Ast.

#[local] Open Scope Z_scope.

Definition EXECUTOR_NULL_VALUE : list Z := str "NULL".

Definition is_name (names : list string) (s : list Z) : bool := existsb (λ n, bool_decide (s = str n)) names.

(** ** Classes *)

Definition text_functions : list string :=
  ["UPPER"; "LOWER"; "UCASE"; "LCASE"; "CONCAT"; "CONCAT_WS"; "SUBSTRING"; "SUBSTR"; "TRIM"; "LTRIM"; "RTRIM"; "LEFT"; "RIGHT"; "REPLACE";
   "REVERSE"; "REPEAT"; "LPAD"; "RPAD"; "DATE_FORMAT"; "MD5"; "SHA1"; "SHA2"; "HEX"; "UNHEX"; "CHAR"; "FORMAT"; "MONTHNAME"; "DAYNAME";
   "DATABASE"; "SCHEMA"; "USER"; "VERSION"; "SPACE"; "NOW"; "CURDATE"; "CURRENT_DATE"; "CURRENT_TIMESTAMP"; "DATE"; "TIME"; "DATE_ADD";
   "DATE_SUB"; "LAST_DAY"; "STR_TO_DATE"; "FROM_UNIXTIME"; "JSON_UNQUOTE"; "REGEXP_REPLACE"; "REGEXP_SUBSTR"]%string.
Definition number_functions : list string :=
  ["LENGTH"; "CHAR_LENGTH"; "CHARACTER_LENGTH"; "BIT_LENGTH"; "ASCII"; "ABS"; "CEIL"; "CEILING"; "FLOOR"; "ROUND"; "TRUNCATE"; "MOD"; "POW";
   "POWER"; "SQRT"; "EXP"; "LOG"; "LOG2"; "LOG10"; "SIN"; "COS"; "TAN"; "SIGN"; "PI"; "RAND"; "INSTR"; "LOCATE"; "POSITION"; "FIELD";
   "DATEDIFF"; "YEAR"; "MONTH"; "DAY"; "DAYOFMONTH"; "DAYOFWEEK"; "DAYOFYEAR"; "WEEKDAY"; "WEEK"; "HOUR"; "MINUTE"; "SECOND";
   "UNIX_TIMESTAMP"; "TIMESTAMPDIFF"; "FIND_IN_SET"; "REGEXP_LIKE"; "ISNULL"; "STRCMP"]%string.

Definition function_result_class (name : list Z) : ValueClass :=
  let key := upper_case name in
  if is_name text_functions key then ClassText else if is_name number_functions key then ClassNumber else ClassUnknown.

(** What a value written without quotes in an IN list or after BETWEEN is. *)
Definition written_class (value : list Z) (quoted : bool) : ValueClass :=
  if quoted then ClassText else if parse_number value then ClassNumber else ClassUnknown.

(** The results of CASE(when, then, .. [, else]). *)
Fixpoint case_values {A : Type} (l : list A) : list A :=
  match l with _ :: v :: l => v :: case_values l | l => l end.

(** What a function of several values holds is what all of them hold; [true] marks a NULL, which says nothing. *)
Fixpoint common_class (kind : ValueClass) (values : list (bool * ValueClass)) : ValueClass :=
  match values with
  | [] => kind
  | (true, _) :: values => common_class kind values
  | (false, k) :: values =>
      if bool_decide (k = ClassUnknown) || (negb (bool_decide (kind = ClassUnknown)) && negb (bool_decide (k = kind))) then ClassUnknown
      else common_class k values
  end.

Definition is_null_literal (e : ArithExpr) : bool := match e with Str v => bool_decide (v = EXECUTOR_NULL_VALUE) | _ => false end.

Fixpoint class_of_expr (expr : ArithExpr) : ValueClass :=
  match expr with
  | Col _ cls _ _ _ _ _ _ => cls
  | ArithSubquery _ cls => cls
  | Str _ => ClassText
  | Func name args =>
      let classes := map (λ a, (is_null_literal a, class_of_expr a)) args in
      if is_name ["CASE"%string] name then common_class ClassUnknown (case_values classes)
      else if is_name ["COALESCE"; "IFNULL"; "GREATEST"; "LEAST"]%string name then common_class ClassUnknown classes
      else
        match (if is_name ["NULLIF"%string] name then classes else []) with
        | (_, k) :: _ => k
        | [] => function_result_class name
        end
  | _ => ClassNumber
  end.

(** ** Kinds *)

Definition word_of (a : ArithExpr) : list Z :=
  upper_case match a with Str v => v | Col name _ _ _ _ _ _ _ => name | _ => [] end.

(** The text before the first [c]. *)
Definition before (c : Z) (s : list Z) : list Z := take (from_option fst (length s) (list_find (λ x, x = c) s)) s.

Definition has_any (chars : list Z) (s : list Z) : bool := existsb (λ c, bool_decide (c ∈ chars)) s.

Fixpoint kind_of_expr (e : ArithExpr) : ColKind :=
  match e with
  | Col _ _ _ _ kind _ _ _ => kind
  | Func name args =>
      let n := upper_case name in
      if is_name ["DATE"; "CURDATE"; "CURRENT_DATE"; "LAST_DAY"; "FROM_DAYS"; "MAKEDATE"]%string n then KindDate
      else if is_name ["NOW"; "CURRENT_TIMESTAMP"; "LOCALTIME"; "LOCALTIMESTAMP"; "SYSDATE"; "TIMESTAMP"; "FROM_UNIXTIME"; "CONVERT_TZ"]%string n then KindDateTime
      else if is_name ["TIME"; "CURTIME"; "CURRENT_TIME"; "SEC_TO_TIME"; "MAKETIME"; "TIMEDIFF"]%string n then KindTime
      else
        match args with
        | [_; format] =>
            if is_name ["STR_TO_DATE"%string] n then
              let format := match format with Str v => v | _ => [] end in
              if has_any (str "HhIiSsTrklfp") format && has_any [37] format then KindDateTime else KindDate
            else if is_name ["CAST"; "CONVERT"]%string n then
              let type := before 40 (word_of format) in
              if is_name ["DATE"%string] type then KindDate
              else if is_name ["DATETIME"%string] type then KindDateTime
              else if is_name ["TIME"%string] type then KindTime
              else KindPlain
            else KindPlain
        | [date; _; unit] =>
            if is_name ["DATE_ADD"; "DATE_SUB"]%string n then
              let date_unit := is_name ["DAY"; "WEEK"; "MONTH"; "QUARTER"; "YEAR"]%string (word_of unit) in
              match kind_of_expr date with
              | KindDate => if date_unit then KindDate else KindDateTime
              | KindDateTime => KindDateTime
              | KindTime => if date_unit then KindPlain else KindTime
              | _ => KindPlain
              end
            else KindPlain
        | _ => KindPlain
        end
  | _ => KindPlain
  end.

(** ** FLOAT *)

Inductive FloatKind := FloatOther | FloatWhole | FloatFloat.
#[export] Instance FloatKind_eq_dec : EqDecision FloatKind.
Proof. solve_decision. Defined.

Inductive FloatFn := FnNone | FnPick | FnNullif.

Definition float_fn (name : list Z) : FloatFn :=
  let n := upper_case name in
  if is_name ["LEAST"; "IFNULL"; "COALESCE"; "GREATEST"]%string n then FnPick else if is_name ["NULLIF"%string] n then FnNullif else FnNone.

Definition any_float (kinds : list FloatKind) : FloatKind :=
  if existsb (λ k, bool_decide (k = FloatOther)) kinds then FloatOther
  else if existsb (λ k, bool_decide (k = FloatFloat)) kinds then FloatFloat else FloatOther.

Fixpoint float_kind (e : ArithExpr) : FloatKind :=
  match e with
  | Col _ _ outer _ kind _ _ single => if (outer =? 0) && bool_decide (kind = KindPlain) && single then FloatFloat else FloatOther
  | Num value => if negb (bool_decide (value = [])) && forallb (λ c, is_digit c || (c =? c_minus)) value then FloatWhole else FloatOther
  | Str value => if bool_decide (value = EXECUTOR_NULL_VALUE) then FloatWhole else FloatOther
  | Func name args =>
      match float_fn name, args with
      | FnNone, _ | _, [] => FloatOther
      | FnNullif, a :: _ => match float_kind a with FloatFloat => FloatFloat | _ => FloatOther end
      | FnPick, _ => any_float (map float_kind args)
      end
  | _ => FloatOther
  end.

Definition single_result (expr : ArithExpr) : bool := bool_decide (float_kind expr = FloatFloat).

(** ** Functions *)

(** ROUND(10 / 3 * 3) and the like are given all the digits of their argument. *)
Definition takes_exact_numbers (upper : list Z) : bool :=
  is_name ["ROUND"; "TRUNCATE"; "FLOOR"; "CEIL"; "CEILING"; "SQRT"; "POW"; "POWER"; "EXP"; "LN"; "LOG"; "LOG2"; "LOG10"; "SIN"; "COS"; "TAN"; "ASIN"; "ACOS";
           "ATAN"; "ATAN2"; "COT"; "DEGREES"; "RADIANS"; "MOD"; "SIGN"; "FORMAT"]%string upper.

(** Whether a function reads its arguments as numbers. *)
Definition wants_numbers (function : list Z) (args : list ArithExpr) : bool :=
  if is_name ["SQRT"; "EXP"; "LN"; "LOG"; "LOG2"; "LOG10"; "POW"; "POWER"; "SIN"; "COS"; "TAN"; "COT"; "ASIN"; "ACOS"; "ATAN"; "ATAN2"; "DEGREES"; "RADIANS";
              "SIGN"; "ABS"; "ROUND"; "TRUNCATE"; "FLOOR"; "CEIL"; "CEILING"; "MOD"; "BIT_COUNT"; "OP_BIT_AND"; "OP_BIT_OR"; "OP_BIT_XOR"; "OP_BIT_NOT";
              "OP_SHL"; "OP_SHR"; "OP_DIV"]%string function then true
  else
    match args with
    | [_; type] =>
        is_name ["CAST"; "CONVERT"]%string function &&
        match type with
        | Str _ | Col _ _ _ _ _ _ _ _ =>
            is_name ["SIGNED"; "UNSIGNED"; "INT"; "INTEGER"; "BIGINT"; "SMALLINT"; "TINYINT"; "MEDIUMINT"; "DECIMAL"; "NUMERIC"; "DEC"; "FIXED"; "DOUBLE"; "FLOAT";
                     "REAL"]%string (before 40 (word_of type))
        | _ => false
        end
    | _ => false
    end.

(** ** Numbers of columns *)

(** The pieces of a text between commas. *)
Fixpoint comma_parts (s : list Z) : list (list Z) :=
  match s with
  | [] => [[]]
  | c :: s =>
      let parts := comma_parts s in
      if c =? 44 then [] :: parts else match parts with p :: ps => (c :: p) :: ps | [] => [[c]] end
  end.

(** The millionths of a value written with the places of its column; [255]: with those its text has. *)
Definition fraction_text (fsp : Z) (text : list Z) (micro : Z) : list Z :=
  let places := drop 1 (to_string (1000000 + micro)) in
  let digits :=
    if fsp =? 255 then
      let after := length (before c_dot (reverse text)) in
      if (after =? length text)%nat then 0%nat else Nat.min after 6
    else Z.to_nat fsp in
  if (0 <? digits)%nat then c_dot :: take digits places else [].

Definition date_number (t : DateTime) : Z := dt_year t * 10000 + dt_month t * 100 + dt_day t.

Section classes.
Context (kRuns : list Run) (kPool : list Z).

(** -1, 0 or 1 for two values that are not NULL. *)
Definition compare_classed (a b : ValueClass) (x y : list Z) : Z :=
  if bool_decide (a = ClassNumber) || bool_decide (b = ClassNumber) then compare_numbers x y
  else
    match (if bool_decide (a = ClassText) && bool_decide (b = ClassText) then None else parse_number x), parse_number y with
    | Some _, Some _ => compare_numbers x y
    | _, _ => compare kRuns kPool x y
    end.

(** The place of the first member equal to the text, from 1. *)
Fixpoint enum_place (i : Z) (members : list (list Z)) (text : list Z) : Z :=
  match members with
  | [] => 0
  | m :: members => if equal kRuns kPool m text then i else enum_place (i + 1) members text
  end.

Fixpoint member_bits (i : Z) (members : list (list Z)) (part : list Z) : Z :=
  match members with
  | [] => 0
  | m :: members => Z.lor (if equal kRuns kPool m part then Z.shiftl 1 i else 0) (member_bits (i + 1) members part)
  end.

(** The number a date, a time, an ENUM or a SET stands for. *)
Definition column_number (kind : ColKind) (members : option (list (list Z))) (fsp : Z) (text : list Z) : list Z :=
  match kind with
  | KindPlain => text
  | KindDate => match parse_datetime text with Some t => int_text (date_number t) | None => [48] end
  | KindDateTime =>
      match parse_datetime text with
      | Some t => int_text (date_number t * 1000000 + dt_hour t * 10000 + dt_minute t * 100 + dt_second t) ++ fraction_text fsp text (dt_micro t)
      | None => [48]
      end
  | KindTime =>
      match parse_time_seconds text with
      | Some (seconds, micro) =>
          let whole := if seconds <? 0 then wrap_int64 (- seconds) else seconds in
          (if seconds <? 0 then [c_minus] else []) ++
          int_text (wrap_int64 (Z.quot whole 3600 * 10000) + Z.quot (Z.rem whole 3600) 60 * 100 + Z.rem whole 60) ++ fraction_text fsp text micro
      | None => [48]
      end
  | KindEnum => int_text (enum_place 1 (default [] members) text)
  | KindSet => to_string (foldl (λ bits part, Z.lor bits (member_bits 0 (take 64 (default [] members)) part)) 0 (if members then comma_parts text else []))
  end.

(** A column of such a type, or only the kind a function gives. *)
Record View := mkView { vw_kind : ColKind; vw_column : option (option (list (list Z)) * Z) }.

Definition view_of (e : ArithExpr) : View :=
  match e with
  | Col _ _ _ _ kind members fsp _ => if bool_decide (kind = KindPlain) then mkView KindPlain None else mkView kind (Some (members, fsp))
  | _ => mkView (kind_of_expr e) None
  end.

Definition viewed (v : View) : bool := negb (bool_decide (vw_kind v = KindPlain)).

Definition view_number (v : View) (text : list Z) : list Z :=
  match vw_column v with
  | Some (members, fsp) => column_number (vw_kind v) members fsp text
  | None => column_number (vw_kind v) None 255 text
  end.

(** std::to_chars of a double *)
Context (to_chars : spec_float → list Z).

(** The value of a FLOAT as the double it becomes. *)
Definition widen_single (text : list Z) : list Z :=
  match parse_number text with
  | None => text
  | Some number => let widened := to_single number in if SFeqb widened number then text else to_chars widened
  end.
End classes.

(** Whether a text is read as a number without being wholly one, a date or a time. *)
Definition truncated_number (text : list Z) : bool :=
  negb (snd (leading_number text)) && negb (forallb (λ c, (c =? 32) || (c =? 9) || (c =? 13) || (c =? 10)) text) &&
  negb (bool_decide (is_Some (parse_datetime text))) && negb (bool_decide (is_Some (parse_time_seconds text))).
