(* ===== verification/Eval.v ===== *)
(** * The evaluation of expressions and conditions (executor_eval.cpp: get_col, number_tree, arithmetic_text, eval_arith,
    eval_arith_exact, eval_cond3, eval_single3)

    An evaluation is a computation of a value or of the error of the statement, over the counters of the thread (divisions by zero,
    texts cut off to a number) and over [X], what the running statement keeps besides (the subquery caches of Subquery.v). The built-in and
    the user's functions, std::regex and std::to_chars are parameters; so is the statement that answers subqueries, [None] outside of one. *)
From Stdlib Require Import SpecFloat QArith.
From S2P Require Import Prelude Numerals NumericText Collation RowJson Joins Split Lexer JsonValue Decimals Arith Ast Classes.

#[local] Open Scope Z_scope.

(** ** Computations *)

Record EvalState (X : Type) := mkEvalState {
  ev_zeros : Z;
  ev_cuts : Z;
  ev_cut_text : list Z;
  ev_rest : X
}.
Arguments mkEvalState {X}.
Arguments ev_zeros {X}.
Arguments ev_cuts {X}.
Arguments ev_cut_text {X}.
Arguments ev_rest {X}.

Definition Ev (X A : Type) : Type := EvalState X → result A * EvalState X.

#[export] Instance Ev_ret X : MRet (Ev X) := λ A x s, (Ok x, s).
#[export] Instance Ev_bind X : MBind (Ev X) := λ A B f m s, match m s with (Ok x, s) => f x s | (Err e, s) => (Err e, s) end.

Definition throw {X A} (e : list Z) : Ev X A := λ s, (Err e, s).
Definition lift {X A} (r : result A) : Ev X A := λ s, (r, s).
Definition count_zero {X} : Ev X unit := λ s, (Ok tt, mkEvalState (wrap64 (ev_zeros s + 1)) (ev_cuts s) (ev_cut_text s) (ev_rest s)).
Definition count_cut {X} (text : list Z) : Ev X unit := λ s, (Ok tt, mkEvalState (ev_zeros s) (wrap64 (ev_cuts s + 1)) text (ev_rest s)).

Definition note_truncated_number {X} (text : list Z) : Ev X unit := if truncated_number text then count_cut text else mret tt.

(** What StrictWrite asks of the counters since it was made. *)
Definition strict_error {X} (before after : EvalState X) : option (list Z) :=
  if negb (ev_zeros after =? ev_zeros before) then Some (str "Division by 0")
  else if negb (ev_cuts after =? ev_cuts before) then Some (str "Truncated incorrect DOUBLE value: '" ++ ev_cut_text after ++ str "'")
  else None.

Fixpoint ev_all {X A} (l : list (Ev X A)) : Ev X (list A) :=
  match l with [] => mret [] | m :: l => x ← m; xs ← ev_all l; mret (x :: xs) end.

(** ** Three truth values *)

Inductive Tri := TriTrue | TriFalse | TriUnknown.
#[export] Instance Tri_eq_dec : EqDecision Tri.
Proof. solve_decision. Defined.

Definition tri (b : bool) : Tri := if b then TriTrue else TriFalse.
Definition tri_not (t : Tri) : Tri := match t with TriTrue => TriFalse | TriFalse => TriTrue | TriUnknown => TriUnknown end.
Definition tri_and (l r : Tri) : Tri :=
  match l, r with TriFalse, _ | _, TriFalse => TriFalse | TriTrue, TriTrue => TriTrue | _, _ => TriUnknown end.
Definition tri_or (l r : Tri) : Tri :=
  match l, r with TriTrue, _ | _, TriTrue => TriTrue | TriFalse, TriFalse => TriFalse | _, _ => TriUnknown end.

(** AND, OR and NOT, the right side left out where the left one decides. *)
Definition cond_and {X} (lhs rhs : Ev X Tri) : Ev X Tri :=
  l ← lhs;
  match l with
  | TriFalse => mret TriFalse
  | _ => r ← rhs; mret match r, l with TriFalse, _ => TriFalse | TriTrue, TriTrue => TriTrue | _, _ => TriUnknown end
  end.
Definition cond_or {X} (lhs rhs : Ev X Tri) : Ev X Tri :=
  l ← lhs;
  match l with
  | TriTrue => mret TriTrue
  | _ => r ← rhs; mret match r, l with TriTrue, _ => TriTrue | TriFalse, TriFalse => TriFalse | _, _ => TriUnknown end
  end.
Definition cond_not {X} (inner : Ev X Tri) : Ev X Tri := i ← inner; mret (tri_not i).

Fixpoint cond3 {X} (leaf : Condition → Ev X Tri) (expr : CondExpr) : Ev X Tri :=
  match expr with
  | And lhs rhs => cond_and (cond3 leaf lhs) (cond3 leaf rhs)
  | Or lhs rhs => cond_or (cond3 leaf lhs) (cond3 leaf rhs)
  | Not inner => cond_not (cond3 leaf inner)
  | Leaf condition => leaf condition
  end.

(** ** Columns *)

Section columns.
Context (iter : Row → list (list Z * list Z)).

Definition is_new_or_old (col : list Z) : bool :=
  (4 <? length col)%nat && bool_decide (col !! 3%nat = Some c_dot) && (bool_decide (take 3 col = str "NEW") || bool_decide (take 3 col = str "OLD")).

(** The cells of the columns whose qualified name ends in the suffix. *)
Definition suffixed (row : Row) (suffix : list Z) : list (list Z) := snd <$> filter (λ kv, ends_with kv.1 suffix = true) (iter row).

(** The parts around the last point. *)
Definition last_point (col : list Z) : option (list Z * list Z) :=
  let r := reverse col in
  match list_find (λ c, c = c_dot) r with
  | Some (i, _) => Some (reverse (drop (S i) r), reverse (take i r))
  | None => None
  end.

Definition get_col (row : Row) (col : list Z) : option (list Z) :=
  match row !! col with
  | Some v => Some v
  | None =>
      match (if is_new_or_old col then row !! (take 4 col ++ lower_case (drop 4 col)) else None) with
      | Some v => Some v
      | None =>
          match last_point col with
          | Some (table, col_part) =>
              match suffixed row (c_dot :: table ++ c_dot :: col_part) with v :: _ => Some v | [] => row !! col_part end
          | None => match suffixed row (c_dot :: col) with [v] => Some v | _ => None end
          end
      end
  end.
End columns.

(** ** Expressions *)

#[export] Instance Operator_eq_dec : EqDecision Operator.
Proof. intros [] []; (by left) || (by right). Defined.

(** The statement that answers a subquery: its value, and a condition over it. *)
Record StatementContext (X : Type) := mkContext {
  cx_value : Statement → Row → Ev X (list Z);
  cx_condition : Row → Condition → Ev X Tri
}.
Arguments cx_value {X}.
Arguments cx_condition {X}.

(** What is worked out of an expression: the number at the root of a tree of + - * /, its text, and the text with all digits
    (and whether it is a double). *)
Record ExprNode (X : Type) := mkNode {
  nd_num : Ev X NumVal;
  nd_text : Ev X (list Z);
  nd_exact : Ev X (list Z * bool)
}.
Arguments mkNode {X}.
Arguments nd_num {X}.
Arguments nd_text {X}.
Arguments nd_exact {X}.

Section eval.
Context {X : Type}.
Context (kRuns : list Run) (kPool : list Z).
Context (iter : Row → list (list Z * list Z)).
(** std::to_chars: scientific, of a float or a double; and the shortest text *)
Context (to_chars_scientific : bool → spec_float → list Z) (to_chars : spec_float → list Z).
(** std::regex_search of a value with a pattern, [None] where it throws *)
Context (regex_search : list Z → list Z → option bool).
(** builtin_functions.cpp and executor_scalar_func.cpp *)
Context (is_builtin_function : list Z → bool).
Context (call_builtin_with_values : list Z → list (list Z) → list (list Z) → list Z → Ev X (list Z)).
Context (apply_scalar_func : list Z → list (list Z) → Row → Ev X (list Z)).
(** deadline::tick, strict_comparison_depth > 0, statement_context_ *)
Context (tick : Ev X unit) (strict : bool) (context : option (StatementContext X)).

#[local] Abbreviation Text := (Ev X (list Z)).
#[local] Abbreviation viewed_number := (view_number kRuns kPool).

Definition null_text (s : list Z) : bool := bool_decide (s = EXECUTOR_NULL_VALUE).
Definition quoted_text (s : list Z) : list Z := 39 :: s ++ [39].

(** The number a leaf of a tree stands for, from its text. *)
Definition leaf_number (e : ArithExpr) (text : list Z) : Ev X NumVal :=
  if null_text text then mret null_value
  else
    let view := view_of e in
    let value := if viewed view then viewed_number view text else text in
    let text_operand := match e with Str _ => true | Col _ cls _ _ _ _ _ _ => bool_decide (cls = ClassText) | _ => false end in
    _ ← (if negb (viewed view) && text_operand then note_truncated_number text else mret tt);
    let v := text_number value in
    mret
      (if viewed view then set_approx (bool_decide (vw_kind view = KindEnum) || bool_decide (vw_kind view = KindSet)) v
       else
         match e with
         | Col _ cls _ approx _ _ _ single =>
             let v := if approx || bool_decide (cls = ClassText) then set_approx true v else v in
             if single then set_double (to_single (nv_dbl v)) v else v
         | Func _ _ => if single_result e then set_double (to_single (nv_dbl v)) (set_approx true v) else v
         | Str _ => set_approx true v
         | _ => v
         end).

Definition leaf_node (e : ArithExpr) (text : Text) : ExprNode X :=
  mkNode (t ← text; leaf_number e t) text (t ← text; mret (t, false)).

Definition arith_node (op : arith_op) (l r : ExprNode X) : ExprNode X :=
  let number :=
    a ← nd_num l; b ← nd_num r;
    _ ← (if match op with OpDiv => true | _ => false end && negb (nv_null a || nv_null b) && zero_divisor a b then count_zero else mret tt);
    lift (combine op a b) in
  mkNode number (v ← number; mret (numval_text to_chars_scientific false v)) (v ← number; mret (numval_text to_chars_scientific true v, nv_approx v)).

(** ** Functions *)

#[local] Abbreviation Arg := (ArithExpr * ExprNode X)%type.

Fixpoint eval_case (args : list Arg) : Text :=
  match args with
  | w :: t :: args => c ← nd_text w.2; if bool_decide (c = [49]) then nd_text t.2 else eval_case args
  | [e] => nd_text e.2
  | [] => mret EXECUTOR_NULL_VALUE
  end.

(** COALESCE / IFNULL over a FLOAT and something else: the first value that is not NULL, a FLOAT as a double. *)
Fixpoint first_widened (args : list Arg) : Text :=
  match args with
  | [] => mret EXECUTOR_NULL_VALUE
  | (a, n) :: args => v ← nd_text n; if null_text v then first_widened args else mret (if single_result a then widen_single to_chars v else v)
  end.

Definition eval_nullif (a b : Arg) : Text :=
  first ← nd_text a.2;
  second ← nd_text b.2;
  mret
    (if null_text first then first
     else if null_text second then first
     else
       let x := if single_result a.1 then widen_single to_chars first else first in
       let y := if single_result b.1 then widen_single to_chars second else second in
       let same := match parse_number x, parse_number y with Some _, Some _ => compare_numbers x y =? 0 | _, _ => equal kRuns kPool x y end in
       if same then EXECUTOR_NULL_VALUE else first).

(** How an argument is handed to a built-in function: as it was written, its value, and what it is. *)
Definition builtin_arg (exact_args numbers mixes_float : bool) (arg : Arg) : Ev X (list Z * list Z * Z) :=
  match arg.1 with
  | Col name cls _ approx kind members fsp single =>
      v ← nd_text arg.2;
      let plain := if approx || bool_decide (cls = ClassText) then 68 else 67 in
      mret
        (if numbers && negb (bool_decide (kind = KindPlain)) && negb (null_text v)
         then (name, column_number kRuns kPool kind members fsp v, if bool_decide (kind = KindEnum) || bool_decide (kind = KindSet) then 68 else 67)
         else if (numbers || mixes_float) && single && negb (null_text v) then (name, widen_single to_chars v, plain)
         else (name, v, plain))
  | Str value => mret (quoted_text value, value, 83)
  | Num value => mret (value, value, 78)
  | a =>
      '(value, approx) ← (if exact_args then nd_exact arg.2 else v ← nd_text arg.2; mret (v, false));
      let value := if numbers && negb (null_text value) && viewed (view_of a) then viewed_number (view_of a) value else value in
      let value := if mixes_float && negb (null_text value) && single_result a then widen_single to_chars value else value in
      mret (quoted_text value, value, if approx : bool then 68 else 69)
  end.

(** How the arguments are handed to another function; COALESCE and IFNULL stop at the first that is not NULL. *)
Fixpoint scalar_args (row : Row) (lazy found : bool) (args : list Arg) : Ev X (list (list Z)) :=
  match args with
  | [] => mret []
  | (a, n) :: args =>
      '(s, found) ←
        (if lazy && found then mret (EXECUTOR_NULL_VALUE, found)
         else
           match a with
           | Col name _ _ _ _ _ _ _ =>
               mret (name, if lazy then match get_col iter row name with Some v => negb (null_text v) | None => false end else found)
           | Str v => mret (quoted_text v, lazy && negb (null_text v))
           | Num v => mret (v, lazy)
           | _ => v ← nd_text n; mret (quoted_text v, if lazy then negb (null_text v) else found)
           end);
      rest ← scalar_args row lazy found args;
      mret (s :: rest)
  end.

Definition eval_func (row : Row) (name : list Z) (args : list Arg) : Text :=
  if is_name ["CASE"%string] name then eval_case args
  else
    let upper := upper_case name in
    let exprs := args.*1 in
    let float_family := is_name ["COALESCE"; "IFNULL"; "GREATEST"; "LEAST"]%string upper in
    let mixes_float := float_family && existsb single_result exprs && negb (single_result (Func name exprs)) in
    let builtin :=
      if is_builtin_function upper then
        cells ← ev_all (builtin_arg (takes_exact_numbers upper) (wants_numbers upper exprs) mixes_float <$> args);
        call_builtin_with_values upper ((λ c, c.1.1) <$> cells) ((λ c, c.1.2) <$> cells) (snd <$> cells)
      else
        strs ← scalar_args row (is_name ["COALESCE"; "IFNULL"]%string name) false args;
        apply_scalar_func name strs row in
    if mixes_float && negb (is_name ["GREATEST"; "LEAST"]%string upper) then first_widened args
    else
      match args with
      | [a; b] => if is_name ["NULLIF"%string] upper && (single_result a.1 || single_result b.1) then eval_nullif a b else builtin
      | _ => builtin
      end.

(** ** Conditions *)

Definition written_null (s : list Z) : bool := bool_decide (s = str "__NULL__") || null_text s.

Definition op_holds (op : Operator) (order : Z) : Tri :=
  match op with
  | OpEq => tri (order =? 0)
  | OpNe => tri (negb (order =? 0))
  | OpGt => tri (0 <? order)
  | OpLt => tri (order <? 0)
  | OpGte => tri (0 <=? order)
  | OpLte => tri (order <=? 0)
  | _ => TriFalse
  end.

Definition compares_numbers (op : Operator) : bool := match op with OpLike | OpNotLike | OpRegexp | OpNotRegexp => false | _ => true end.

(** The comparison of two operands; UPDATE and DELETE note a text read as a number. *)
Definition compare_noting (left_sure right_sure : bool) (lc rc : ValueClass) (lv rv : list Z) : Ev X Z :=
  _ ← (if strict && (bool_decide (lc = ClassNumber) || bool_decide (rc = ClassNumber)) then
         _ ← (if bool_decide (lc = ClassText) && left_sure then note_truncated_number lv else mret tt);
         if bool_decide (rc = ClassText) && right_sure then note_truncated_number rv else mret tt
       else mret tt);
  mret (compare_classed kRuns kPool lc rc lv rv).

(** A FLOAT: a column of that type, or a function that gives one. *)
Definition single_operand (e : ArithExpr) : bool :=
  match e with Col _ _ _ _ _ _ _ single => single | Func _ _ => single_result e | _ => false end.

Section operands.
Context (left : ArithExpr) (left_class : ValueClass).

Let left_view : View := view_of left.
Let left_viewed : bool := viewed left_view.
Let left_single : bool := single_operand left.

(** A side of BETWEEN. *)
Definition between_side (between_val bound : list Z) (quoted lower : bool) : Ev X Tri :=
  if null_text bound then mret TriUnknown
  else
    order ← compare_noting (negb left_viewed) quoted left_class (written_class bound quoted) between_val bound;
    mret (tri (if lower then 0 <=? order else order <=? 0)).

Definition eval_between (negated : bool) (val lo hi : list Z) (lo_quoted hi_quoted : bool) : Ev X Tri :=
  if null_text val then mret TriUnknown
  else
    let between_val := if left_viewed && (negb lo_quoted || negb hi_quoted) then viewed_number left_view val else val in
    let between_val := if left_single then widen_single to_chars between_val else between_val in
    low ← between_side between_val lo lo_quoted true;
    high ← between_side between_val hi hi_quoted false;
    mret (if negated then tri_not (tri_and low high) else tri_and low high).

(** The values of an IN list in order, up to the first that is equal. *)
Fixpoint in_list (val number_val : list Z) (values : list (list Z)) (quoted : list bool) : Ev X bool :=
  match values with
  | [] => mret false
  | v :: values =>
      if null_text v then in_list val number_val values (tail quoted)
      else
        let q := default false (head quoted) in
        order ← compare_noting (negb left_viewed) q left_class (written_class v q) (if (left_viewed || left_single) && negb q then number_val else val) v;
        if order =? 0 then mret true else in_list val number_val values (tail quoted)
  end.

Definition eval_in_list (op : Operator) (val : list Z) (values : list (list Z)) (quoted : list bool) : Ev X Tri :=
  if null_text val then mret TriUnknown
  else
    match op with
    | OpIn | OpNotIn =>
        let number_val := if left_viewed then viewed_number left_view val else if left_single then widen_single to_chars val else [] in
        found ← in_list val number_val values quoted;
        mret (if found : bool then tri (bool_decide (op = OpIn))
              else if existsb null_text values then TriUnknown else tri (bool_decide (op = OpNotIn)))
    | _ => mret TriFalse
    end.

(** A comparison with the value of the right side. *)
Definition eval_comparison (op : Operator) (val right : list Z) (right_class : ValueClass) (right_sure : bool) (right_view : View) (right_single : bool) : Ev X Tri :=
  match op with
  | OpIsNull => mret (tri (null_text val))
  | OpIsNotNull => mret (tri (negb (null_text val)))
  | _ =>
      if null_text val then mret TriUnknown
      else if written_null right then mret TriUnknown
      else
        let left_number := left_viewed && bool_decide (right_class = ClassNumber) in
        let val := if left_number then viewed_number left_view val else val in
        let right := if negb left_number && viewed right_view && bool_decide (left_class = ClassNumber) then viewed_number right_view right else right in
        let val := if left_single && negb left_viewed then widen_single to_chars val else val in
        let right := if right_single && negb (viewed right_view) then widen_single to_chars right else right in
        match op with
        | OpEq | OpNe | OpGt | OpLt | OpGte | OpLte =>
            order ← compare_noting (negb left_viewed) right_sure left_class right_class val right;
            mret (op_holds op order)
        | OpLike => mret (tri (like kRuns kPool val right))
        | OpNotLike => mret (tri (negb (like kRuns kPool val right)))
        | OpRegexp => mret (match regex_search val right with Some b => tri b | None => TriFalse end)
        | OpNotRegexp => mret (match regex_search val right with Some b => tri (negb b) | None => TriTrue end)
        | _ => mret TriFalse
        end
  end.
End operands.

Definition is_letter (c : Z) : bool := ((65 <=? c) && (c <=? 90)) || ((97 <=? c) && (c <=? 122)).

(** An unquoted value that may be the name of a column. *)
Definition is_ident_like (lit : list Z) (quoted : bool) : bool :=
  negb quoted && match lit with c :: _ => is_letter c || (c =? 95) | [] => false end && negb (bool_decide (is_Some (parse_number lit))).

Definition class_or (known fallback : ValueClass) : ValueClass := if bool_decide (known = ClassUnknown) then fallback else known.

(** A condition on its own, given its left side and (an expression) its right side. *)
Definition single3 (row : Row) (cond : Condition) (l : ExprNode X) (r : option (ExprNode X)) : Ev X Tri :=
  let '(mkCondition lhs op value left_class right_class _) := cond in
  _ ← tick;
  match value with
  | ValueSubquery _ => match context with Some c => cx_condition c row cond | None => throw (str "A subquery is not allowed here") end
  | _ =>
      val ← (if compares_numbers op then v ← nd_exact l; mret v.1 else nd_text l);
      let left_class := class_or left_class (class_of_expr lhs) in
      match value with
      | Between lo hi lo_quoted hi_quoted => eval_between lhs left_class (bool_decide (op = OpNotBetween)) val lo hi lo_quoted hi_quoted
      | LiteralList values quoted => eval_in_list lhs left_class op val values quoted
      | Arith expr =>
          match r with
          | Some r =>
              right ← (if compares_numbers op then v ← nd_exact r; mret v.1 else nd_text r);
              eval_comparison lhs left_class op val right (class_or right_class (class_of_expr expr)) (negb (viewed (view_of expr))) (view_of expr) (single_operand expr)
          | None => mret TriFalse
          end
      | Literal lit quoted _ =>
          let right := if is_ident_like lit quoted then default lit (get_col iter row lit) else lit in
          eval_comparison lhs left_class op val right (class_or right_class (written_class lit quoted)) quoted (mkView KindPlain None) false
      | ValueSubquery _ => mret TriFalse
      end
  end.

(** The value of a comparison in an expression. *)
Definition cmp_text (lhs rhs : ArithExpr) (op : list Z) (l r : ExprNode X) : Text :=
  lv ← nd_exact l;
  rv ← nd_exact r;
  if null_text lv.1 || null_text rv.1 then mret EXECUTOR_NULL_VALUE
  else
    let order := compare_classed kRuns kPool (class_of_expr lhs) (class_of_expr rhs) lv.1 rv.1 in
    let result :=
      if is_name [">"%string] op then 0 <? order
      else if is_name ["<"%string] op then order <? 0
      else if is_name [">="%string] op then 0 <=? order
      else if is_name ["<="%string] op then order <=? 0
      else if is_name ["="%string] op then order =? 0
      else negb (order =? 0) in
    mret (if result then [49] else [48]).

Definition pred_text (t : Tri) : list Z := match t with TriTrue => [49] | TriFalse => [48] | TriUnknown => EXECUTOR_NULL_VALUE end.

Definition column_text (row : Row) (name : list Z) : list Z :=
  let lower := lower_case name in
  if is_name ["true"%string] lower then str "true"
  else if is_name ["false"%string] lower then str "false"
  else default EXECUTOR_NULL_VALUE (get_col iter row name).

(** ** The evaluator *)

Fixpoint eval_node (row : Row) (expr : ArithExpr) : ExprNode X :=
  match expr with
  | Col name _ _ _ _ _ _ _ => leaf_node expr (mret (column_text row name))
  | Num value => leaf_node expr (mret value)
  | Str value => leaf_node expr (mret value)
  | Add l r => arith_node OpAdd (eval_node row l) (eval_node row r)
  | Sub l r => arith_node OpSub (eval_node row l) (eval_node row r)
  | Mul l r => arith_node OpMul (eval_node row l) (eval_node row r)
  | Div l r => arith_node OpDiv (eval_node row l) (eval_node row r)
  | Func name args => leaf_node expr (eval_func row name (map (λ a, (a, eval_node row a)) args))
  | ArithSubquery query _ =>
      leaf_node expr match context with Some c => cx_value c query row | None => throw (str "A subquery is not allowed here") end
  | Pred cond => leaf_node expr (t ← eval_cond3 row cond; mret (pred_text t))
  | Cmp l op r => leaf_node expr (cmp_text l r op (eval_node row l) (eval_node row r))
  end
with eval_cond3 (row : Row) (expr : CondExpr) : Ev X Tri :=
  match expr with
  | And lhs rhs => cond_and (eval_cond3 row lhs) (eval_cond3 row rhs)
  | Or lhs rhs => cond_or (eval_cond3 row lhs) (eval_cond3 row rhs)
  | Not inner => cond_not (eval_cond3 row inner)
  | Leaf condition => eval_single3 row condition
  end
with eval_single3 (row : Row) (cond : Condition) : Ev X Tri :=
  match cond with
  | mkCondition lhs _ value _ _ _ => single3 row cond (eval_node row lhs) (eval_value row value)
  end
with eval_value (row : Row) (value : ConditionValue) : option (ExprNode X) :=
  match value with Arith e => Some (eval_node row e) | _ => None end.

Definition eval_arith (row : Row) (expr : ArithExpr) : Text := nd_text (eval_node row expr).
Definition eval_arith_exact (row : Row) (expr : ArithExpr) : Ev X (list Z * bool) := nd_exact (eval_node row expr).
Definition matches_condexpr (row : Row) (condition : option CondExpr) : Ev X bool :=
  match condition with None => mret true | Some c => t ← eval_cond3 row c; mret (bool_decide (t = TriTrue)) end.
End eval.

(** ** Computations *)

(** The computation gives [x] in every state and leaves it as it is. *)
Definition yields {X A} (m : Ev X A) (x : A) : Prop := ∀ s, m s = (Ok x, s).

(** Whatever the computation gives satisfies [P]. *)
Definition gives {X A} (m : Ev X A) (P : A → Prop) : Prop := ∀ s x s', m s = (Ok x, s') → P x.

Lemma yields_ret {X A} (x : A) : yields (mret (M := Ev X) x) x.
Proof. done. Qed.
Lemma yields_bind {X A B} (m : Ev X A) (f : A → Ev X B) x y : yields m x → yields (f x) y → yields (m ≫= f) y.
Proof. intros Hm Hf s. cbv [mbind Ev_bind]. rewrite Hm. apply Hf. Qed.
Lemma gives_ret {X A} (x : A) (P : A → Prop) : P x → gives (mret (M := Ev X) x) P.
Proof. by intros H s y s' [= <- _]. Qed.
Lemma gives_bind {X A B} (m : Ev X A) (f : A → Ev X B) P Q : gives m P → (∀ x, P x → gives (f x) Q) → gives (m ≫= f) Q.
Proof. intros Hm Hf s y s'. cbv [mbind Ev_bind]. destruct (m s) as [[x|e] s1] eqn:E; [|done]. intros H. eapply Hf; [eapply Hm, E|exact H]. Qed.
Lemma gives_any {X A} (m : Ev X A) : gives m (λ _, True).
Proof. done. Qed.
Lemma gives_impl {X A} (m : Ev X A) (P Q : A → Prop) : gives m P → (∀ x, P x → Q x) → gives m Q.
Proof. intros Hm Hi s x s' E. by eapply Hi, Hm. Qed.

(** ** The laws of three truth values *)

Section laws.
Context {X : Type} (leaf : Condition → Ev X Tri).

Lemma cond_and_value (a b : Ev X Tri) s x s1 y s2 :
  a s = (Ok x, s1) → b s1 = (Ok y, s2) → cond_and a b s = (Ok (tri_and x y), if bool_decide (x = TriFalse) then s1 else s2).
Proof. intros Ea Eb. unfold cond_and. cbv [mbind Ev_bind]. rewrite Ea. destruct x; try rewrite Eb; destruct y; reflexivity. Qed.

Lemma cond_or_value (a b : Ev X Tri) s x s1 y s2 :
  a s = (Ok x, s1) → b s1 = (Ok y, s2) → cond_or a b s = (Ok (tri_or x y), if bool_decide (x = TriTrue) then s1 else s2).
Proof. intros Ea Eb. unfold cond_or. cbv [mbind Ev_bind]. rewrite Ea. destruct x; try rewrite Eb; destruct y; reflexivity. Qed.

Lemma cond_not_and (a b : Ev X Tri) s : cond_not (cond_and a b) s = cond_or (cond_not a) (cond_not b) s.
Proof.
  unfold cond_not, cond_and, cond_or. cbv [mbind Ev_bind mret Ev_ret]. destruct (a s) as [[[]|] s1]; cbn; try done; destruct (b s1) as [[[]|] s2]; done.
Qed.

Lemma cond_not_or (a b : Ev X Tri) s : cond_not (cond_or a b) s = cond_and (cond_not a) (cond_not b) s.
Proof.
  unfold cond_not, cond_and, cond_or. cbv [mbind Ev_bind mret Ev_ret]. destruct (a s) as [[[]|] s1]; cbn; try done; destruct (b s1) as [[[]|] s2]; done.
Qed.

Lemma cond_not_not (a : Ev X Tri) s : cond_not (cond_not a) s = a s.
Proof. unfold cond_not. cbv [mbind Ev_bind mret Ev_ret]. by destruct (a s) as [[[]|] s1]. Qed.

(** The condition with every NOT moved inwards. *)
Fixpoint push_not (negated : bool) (expr : CondExpr) : CondExpr :=
  match expr with
  | And a b => if negated then Or (push_not true a) (push_not true b) else And (push_not false a) (push_not false b)
  | Or a b => if negated then And (push_not true a) (push_not true b) else Or (push_not false a) (push_not false b)
  | Not a => push_not (negb negated) a
  | Leaf c => if negated then Not (Leaf c) else Leaf c
  end.

Lemma cond_and_ext (a a' b b' : Ev X Tri) : (∀ s, a s = a' s) → (∀ s, b s = b' s) → ∀ s, cond_and a b s = cond_and a' b' s.
Proof. intros Ha Hb s. unfold cond_and. cbv [mbind Ev_bind]. rewrite Ha. destruct (a' s) as [[[]|] s1]; cbn; rewrite ?Hb; done. Qed.
Lemma cond_or_ext (a a' b b' : Ev X Tri) : (∀ s, a s = a' s) → (∀ s, b s = b' s) → ∀ s, cond_or a b s = cond_or a' b' s.
Proof. intros Ha Hb s. unfold cond_or. cbv [mbind Ev_bind]. rewrite Ha. destruct (a' s) as [[[]|] s1]; cbn; rewrite ?Hb; done. Qed.

Fixpoint push_not_spec (expr : CondExpr) : ∀ s, cond3 leaf (push_not false expr) s = cond3 leaf expr s ∧ cond3 leaf (push_not true expr) s = cond_not (cond3 leaf expr) s.
Proof.
  destruct expr as [a b|a b|a|c]; intros s; cbn [push_not cond3].
  - split; [apply cond_and_ext; intros s'; by apply push_not_spec|]. rewrite cond_not_and.
    apply cond_or_ext; intros s'; by apply push_not_spec.
  - split; [apply cond_or_ext; intros s'; by apply push_not_spec|]. rewrite cond_not_or.
    apply cond_and_ext; intros s'; by apply push_not_spec.
  - split; [by apply push_not_spec|]. cbn [negb]. rewrite (proj1 (push_not_spec a s)). symmetry. apply cond_not_not.
  - done.
Qed.
End laws.

(** ** The evaluator *)

Section properties.
Context {X : Type}.
Context (kRuns : list Run) (kPool : list Z).
Context (iter : Row → list (list Z * list Z)).
Context (to_chars_scientific : bool → spec_float → list Z) (to_chars : spec_float → list Z).
Context (regex_search : list Z → list Z → option bool).
Context (is_builtin_function : list Z → bool).
Context (call_builtin_with_values : list Z → list (list Z) → list (list Z) → list Z → Ev X (list Z)).
Context (apply_scalar_func : list Z → list (list Z) → Row → Ev X (list Z)).
Context (tick : Ev X unit) (strict : bool) (context : option (StatementContext X)).

#[local] Abbreviation node := (eval_node kRuns kPool iter to_chars_scientific to_chars regex_search is_builtin_function call_builtin_with_values apply_scalar_func tick strict context).
#[local] Abbreviation condition := (eval_cond3 kRuns kPool iter to_chars_scientific to_chars regex_search is_builtin_function call_builtin_with_values apply_scalar_func tick strict context).
#[local] Abbreviation single := (eval_single3 kRuns kPool iter to_chars_scientific to_chars regex_search is_builtin_function call_builtin_with_values apply_scalar_func tick strict context).

Lemma eval_cond3_leaves row : ∀ expr, condition row expr = cond3 (single row) expr.
Proof.
  fix IH 1. intros [a b|a b|a|c]; cbn [eval_cond3 cond3]; [rewrite <- (IH a), <- (IH b)|rewrite <- (IH a), <- (IH b)|rewrite <- (IH a)|]; reflexivity.
Qed.

(** WHERE is evaluated in the logic of three truth values: AND, OR and NOT answer as its tables say, whether or not their right side has to be
    evaluated, and a NOT may be moved inwards over a whole condition (De Morgan, double negation) without changing the answer, the error or
    what is noted on the way. *)
Theorem three_valued_logic row a b s :
  (∀ x s1 y s2, condition row a s = (Ok x, s1) → condition row b s1 = (Ok y, s2) →
     fst (condition row (And a b) s) = Ok (tri_and x y) ∧ fst (condition row (Or a b) s) = Ok (tri_or x y) ∧
     fst (condition row (Not a) s) = Ok (tri_not x)) ∧
  condition row (push_not false a) s = condition row a s ∧
  condition row (push_not true a) s = condition row (Not a) s.
Proof.
  rewrite !eval_cond3_leaves. split; [|apply push_not_spec]. intros x s1 y s2. cbn [cond3]. intros Ea Eb.
  rewrite (cond_and_value _ _ _ _ _ _ _ Ea Eb), (cond_or_value _ _ _ _ _ _ _ Ea Eb). split_and!; [done|done|].
  unfold cond_not. cbv [mbind Ev_bind]. by rewrite Ea.
Qed.

(** ** BETWEEN and IN *)

(** A value written in a condition that stands for itself: a string, a number or NULL. *)
Definition stands_for_itself (row : Row) (v : list Z) (quoted : bool) : Prop :=
  v ≠ str "__NULL__" ∧ (quoted = false → null_text v = false → is_Some (parse_number v)) ∧ (null_text v = true → get_col iter row v = None).

Section pure.
Context (Htick : yields tick tt) (Hstrict : strict = false).

Lemma compare_noting_pure ls rs lc rc lv rv : yields (X := X) (compare_noting kRuns kPool strict ls rs lc rc lv rv) (compare_classed kRuns kPool lc rc lv rv).
Proof. rewrite Hstrict. done. Qed.

Lemma stands_literal row v quoted : stands_for_itself row v quoted →
  (if is_ident_like v quoted then default v (get_col iter row v) else v) = v.
Proof.
  intros (_ & Hn & Hg). destruct (is_ident_like v quoted) eqn:E; [|done]. unfold is_ident_like in E.
  apply andb_true_iff in E as [[Hq _]%andb_true_iff Hp]. apply negb_true_iff in Hq as ->. rewrite negb_true_iff, bool_decide_eq_false in Hp.
  destruct (null_text v) eqn:En; [by rewrite Hg|]. by destruct Hp; apply Hn.
Qed.

(** The value compared with a literal, and its answer. *)
Definition compared_value (e : ArithExpr) (quoted : bool) (val : list Z) : list Z :=
  let val := if viewed (view_of e) && negb quoted then view_number kRuns kPool (view_of e) val else val in
  if single_operand e && negb (viewed (view_of e)) then widen_single to_chars val else val.

Definition literal_answer (e : ArithExpr) (lc : ValueClass) (op : Operator) (val v : list Z) (quoted : bool) : Tri :=
  if null_text val || null_text v then TriUnknown
  else op_holds op (compare_classed kRuns kPool lc (written_class v quoted) (compared_value e quoted val) v).

Definition orders (op : Operator) : bool := match op with OpEq | OpNe | OpGt | OpLt | OpGte | OpLte => true | _ => false end.

Lemma literal_comparison row e op val a lc q v quoted : orders op = true → yields (nd_exact (node row e)) (val, a) → stands_for_itself row v quoted →
  yields (single row (mkCondition e op (Literal v quoted 0) lc ClassUnknown q)) (literal_answer e (class_or lc (class_of_expr e)) op val v quoted).
Proof.
  intros Hop He Hv. cbn [eval_single3 single3]. eapply yields_bind; [exact Htick|]. eapply yields_bind.
  { replace (compares_numbers op) with true by by destruct op. eapply yields_bind; [exact He|apply yields_ret]. }
  cbn [fst]. rewrite (stands_literal row v quoted Hv). change (class_or ClassUnknown (written_class v quoted)) with (written_class v quoted).
  assert (Hnull : written_null v = null_text v). { unfold written_null. destruct Hv as [Hn _]. by rewrite bool_decide_false. }
  assert (Hnum : null_text v = false → viewed (view_of e) && bool_decide (written_class v quoted = ClassNumber) = viewed (view_of e) && negb quoted).
  { intros En. unfold written_class. destruct quoted; [by rewrite bool_decide_false, !andb_false_r|]. destruct Hv as (_ & Hp & _).
    destruct (Hp eq_refl En) as [z ->]. by rewrite bool_decide_true. }
  unfold eval_comparison, literal_answer. rewrite Hnull.
  destruct op; try done; (destruct (null_text val); [apply yields_ret|]); (destruct (null_text v) eqn:En; [apply yields_ret|]); cbn [orb];
    rewrite (Hnum eq_refl); eapply yields_bind; try apply compare_noting_pure; rewrite ?andb_false_r; apply yields_ret.
Qed.

(** A value has one meaning for both of its bounds: it is no date, time, ENUM or SET, or the bounds are both strings or both numbers. *)
Definition one_meaning (e : ArithExpr) (lo_quoted hi_quoted : bool) : Prop :=
  viewed (view_of e) = true → lo_quoted = hi_quoted ∧ single_operand e = false.

Lemma between_val e val lo_quoted hi_quoted : one_meaning e lo_quoted hi_quoted →
  let bv := if viewed (view_of e) && (negb lo_quoted || negb hi_quoted) then view_number kRuns kPool (view_of e) val else val in
  let bv := if single_operand e then widen_single to_chars bv else bv in
  bv = compared_value e lo_quoted val ∧ bv = compared_value e hi_quoted val.
Proof.
  intros H. unfold compared_value, one_meaning in *. destruct (viewed (view_of e)).
  - destruct (H eq_refl) as [-> ->]. by destruct hi_quoted.
  - by destruct (single_operand e), lo_quoted, hi_quoted.
Qed.

Lemma side_answer e lc val bound quoted (lower : bool) : null_text val = false →
  yields (X := X) (between_side kRuns kPool strict e lc (compared_value e quoted val) bound quoted lower)
    (literal_answer e lc (if lower then OpGte else OpLte) val bound quoted).
Proof.
  intros Hv. unfold between_side, literal_answer. rewrite Hv. cbn [orb]. destruct (null_text bound); [apply yields_ret|].
  eapply yields_bind; [apply compare_noting_pure|]. by destruct lower.
Qed.

Lemma between_answer row e negated val a lc rc q lo hi lo_quoted hi_quoted : yields (nd_exact (node row e)) (val, a) → one_meaning e lo_quoted hi_quoted →
  let answer := literal_answer e (class_or lc (class_of_expr e)) in
  let inside := tri_and (answer OpGte val lo lo_quoted) (answer OpLte val hi hi_quoted) in
  yields (single row (mkCondition e (if negated : bool then OpNotBetween else OpBetween) (Between lo hi lo_quoted hi_quoted) lc rc q))
    (if negated then tri_not inside else inside).
Proof.
  intros He Hm. cbv zeta. cbn [eval_single3 single3]. eapply yields_bind; [exact Htick|]. eapply yields_bind.
  { replace (compares_numbers _) with true by by destruct negated. eapply yields_bind; [exact He|apply yields_ret]. }
  cbn [fst]. unfold eval_between. replace (bool_decide _) with negated by by destruct negated.
  destruct (null_text val) eqn:Ev; [unfold literal_answer; rewrite Ev; by destruct negated|].
  destruct (between_val e val lo_quoted hi_quoted Hm) as [E1 E2]. cbv zeta in E1, E2.
  eapply yields_bind; [rewrite E1; by apply side_answer|]. eapply yields_bind; [rewrite E2; by apply side_answer|]. by destruct negated.
Qed.

Lemma yields_and (a b : Ev X Tri) x y : yields a x → yields b y → yields (cond_and a b) (tri_and x y).
Proof. intros Ha Hb s. rewrite (cond_and_value _ _ _ _ _ _ _ (Ha s) (Hb s)). by destruct (bool_decide (x = TriFalse)). Qed.
Lemma yields_or (a b : Ev X Tri) x y : yields a x → yields b y → yields (cond_or a b) (tri_or x y).
Proof. intros Ha Hb s. rewrite (cond_or_value _ _ _ _ _ _ _ (Ha s) (Hb s)). by destruct (bool_decide (x = TriTrue)). Qed.
Lemma yields_not (a : Ev X Tri) x : yields a x → yields (cond_not a) (tri_not x).
Proof. intros Ha. eapply yields_bind; [exact Ha|apply yields_ret]. Qed.

(** [x BETWEEN lo AND hi] is [x >= lo AND x <= hi], and NOT BETWEEN its negation, with NULL on either side and whatever the classes and
    the kind of [x] are: numbers, texts, FLOATs, and dates or ENUMs against bounds written alike. *)
Theorem between_is_comparisons row e val a lc q lo hi lo_quoted hi_quoted s :
  yields (nd_exact (node row e)) (val, a) → stands_for_itself row lo lo_quoted → stands_for_itself row hi hi_quoted → one_meaning e lo_quoted hi_quoted →
  let leaf op v := Leaf (mkCondition e op v lc ClassUnknown q) in
  let both := And (leaf OpGte (Literal lo lo_quoted 0)) (leaf OpLte (Literal hi hi_quoted 0)) in
  condition row (leaf OpBetween (Between lo hi lo_quoted hi_quoted)) s = condition row both s ∧
  condition row (leaf OpNotBetween (Between lo hi lo_quoted hi_quoted)) s = condition row (Not both) s.
Proof.
  intros He Hlo Hhi Hm. cbv zeta.
  pose proof (literal_comparison row e OpGte val a lc q lo lo_quoted eq_refl He Hlo) as Hl.
  pose proof (literal_comparison row e OpLte val a lc q hi hi_quoted eq_refl He Hhi) as Hh. pose proof (yields_and _ _ _ _ Hl Hh) as Hboth.
  split; cbn [eval_cond3].
  - pose proof (between_answer row e false val a lc ClassUnknown q lo hi lo_quoted hi_quoted He Hm s) as Hb. rewrite Hboth. exact Hb.
  - pose proof (between_answer row e true val a lc ClassUnknown q lo hi lo_quoted hi_quoted He Hm s) as Hb.
    etransitivity; [exact Hb|symmetry; apply (yields_not _ _ Hboth)].
Qed.

(** ** IN *)

(** [e = v1 OR (e = v2 OR ...)]. *)
Fixpoint any_equal (leaf : list Z → bool → CondExpr) (v : list Z * bool) (vs : list (list Z * bool)) : CondExpr :=
  match vs with [] => leaf v.1 v.2 | v' :: vs => Or (leaf v.1 v.2) (any_equal leaf v' vs) end.

Definition any_answer (answer : list Z * bool → Tri) (vs : list (list Z * bool)) : Tri := foldr (λ v t, tri_or (answer v) t) TriFalse vs.

(** A FLOAT is compared with numbers only. *)
Definition in_meaning (e : ArithExpr) (vs : list (list Z * bool)) : Prop :=
  single_operand e = true → viewed (view_of e) = false ∧ Forall (λ v, null_text v.1 = true ∨ v.2 = false) vs.

Lemma any_equal_answer row leaf answer v vs : Forall (λ v, yields (condition row (leaf v.1 v.2)) (answer v)) (v :: vs) →
  yields (condition row (any_equal leaf v vs)) (any_answer answer (v :: vs)).
Proof.
  revert v. induction vs as [|v' vs IH]; intros v [Hv Hvs]%Forall_cons; cbn [any_equal].
  - cbn. replace (tri_or (answer v) TriFalse) with (answer v) by by destruct (answer v). done.
  - apply yields_or; [done|by apply IH].
Qed.

Lemma in_list_answer e lc val vs : null_text val = false → in_meaning e vs →
  let number_val := if viewed (view_of e) then view_number kRuns kPool (view_of e) val else if single_operand e then widen_single to_chars val else [] in
  ∃ found : bool, yields (X := X) (in_list kRuns kPool strict e lc val number_val vs.*1 vs.*2) found ∧
    (if found then TriTrue else if existsb null_text vs.*1 then TriUnknown else TriFalse) = any_answer (λ v, literal_answer e lc OpEq val v.1 v.2) vs.
Proof.
  intros Hv. cbv zeta. set (nv := if viewed _ then _ else _). induction vs as [|[v quoted] vs IH]; intros Hm; [exists false; split; [apply yields_ret|done]|].
  destruct IH as (found & Hf & E). { intros Hs. destruct (Hm Hs) as [? H]. split; [done|]. by apply Forall_inv_tail in H. }
  cbn [fmap list_fmap in_list fst snd tail head default existsb any_answer foldr]. fold (any_answer (λ v, literal_answer e lc OpEq val v.1 v.2) vs). rewrite <- E.
  unfold literal_answer at 1. rewrite Hv. cbn [orb fst snd]. destruct (null_text v) eqn:En.
  { exists found. split; [done|]. destruct found; cbn; [done|]. by destruct (existsb null_text vs.*1). }
  assert (Hcv : (if (viewed (view_of e) || single_operand e) && negb quoted then nv else val) = compared_value e quoted val).
  { unfold compared_value, nv, in_meaning in *. destruct (viewed (view_of e)), quoted; cbn [orb andb negb]; try done; destruct (single_operand e); try done.
    all: destruct (Hm eq_refl) as [? [H|H]%Forall_inv]; cbn in H; congruence. }
  cbn [op_holds]. destruct (Z.eqb_spec (compare_classed kRuns kPool lc (written_class v quoted) (compared_value e quoted val) v) 0) as [E0|E0].
  - exists true. split; [|done]. eapply yields_bind; [apply compare_noting_pure|]. cbn [from_option id]. rewrite Hcv, E0. apply yields_ret.
  - exists found. split; [|by destruct found, (existsb null_text vs.*1)]. eapply yields_bind; [apply compare_noting_pure|]. cbn [from_option id].
    by rewrite Hcv, (proj2 (Z.eqb_neq _ _) E0).
Qed.

(** The answer of an IN list: that of its equalities. *)
Lemma in_list_single row e op val a lc rc q v vs : yields (nd_exact (node row e)) (val, a) → in_meaning e (v :: vs) → op = OpIn ∨ op = OpNotIn →
  let found := any_answer (λ v, literal_answer e (class_or lc (class_of_expr e)) OpEq val v.1 v.2) (v :: vs) in
  yields (single row (mkCondition e op (LiteralList (v :: vs).*1 (v :: vs).*2) lc rc q)) (if bool_decide (op = OpIn) then found else tri_not found).
Proof.
  intros He Hm Hop. cbv zeta. set (lc' := class_or lc (class_of_expr e)). set (answer := λ v : list Z * bool, literal_answer e lc' OpEq val v.1 v.2).
  cbn [eval_single3 single3]. eapply yields_bind; [exact Htick|]. eapply yields_bind.
  { replace (compares_numbers op) with true by by destruct Hop as [-> | ->]. eapply yields_bind; [exact He|apply yields_ret]. }
  cbn [fst]. unfold eval_in_list. fold lc'. destruct (null_text val) eqn:Ev.
  - assert (E : any_answer answer (v :: vs) = TriUnknown).
    { unfold any_answer, answer, literal_answer. rewrite Ev. cbn [orb]. clear. cbn [foldr]. induction vs as [|w vs IH]; [done|]. cbn [foldr] in *. by rewrite IH. }
    rewrite E. by destruct Hop as [-> | ->].
  - destruct (in_list_answer e lc' val (v :: vs) Ev Hm) as (found & Hf & E). cbv zeta in Hf. fold answer in E. rewrite <- E.
    destruct Hop as [-> | ->]; (eapply yields_bind; [exact Hf|]); by destruct found, (existsb null_text (v :: vs).*1).
Qed.

(** [x IN (v1, v2, ...)] is [x = v1 OR x = v2 OR ...], and NOT IN its negation: UNKNOWN where nothing is equal and a NULL is among
    them, or where [x] is NULL, whatever is compared. *)
Theorem in_list_is_equalities row e val a lc q v vs s :
  yields (nd_exact (node row e)) (val, a) → Forall (λ v, stands_for_itself row v.1 v.2) (v :: vs) → in_meaning e (v :: vs) →
  let leaf op value := Leaf (mkCondition e op value lc ClassUnknown q) in
  let equalities := any_equal (λ v quoted, leaf OpEq (Literal v quoted 0)) v vs in
  condition row (leaf OpIn (LiteralList (v :: vs).*1 (v :: vs).*2)) s = condition row equalities s ∧
  condition row (leaf OpNotIn (LiteralList (v :: vs).*1 (v :: vs).*2)) s = condition row (Not equalities) s.
Proof.
  intros He Hvs Hm. cbv zeta. set (lc' := class_or lc (class_of_expr e)). set (answer := λ v : list Z * bool, literal_answer e lc' OpEq val v.1 v.2).
  set (leaf := λ v quoted, Leaf (mkCondition e OpEq (Literal v quoted 0) lc ClassUnknown q)).
  assert (Hr : yields (condition row (any_equal leaf v vs)) (any_answer answer (v :: vs))).
  { apply any_equal_answer. eapply Forall_impl; [exact Hvs|]. intros [w quoted] Hw. cbn [fst snd]. by apply (literal_comparison row e OpEq val a). }
  assert (Hl := λ op, in_list_single row e op val a lc ClassUnknown q v vs He Hm). fold lc' answer in Hl.
  split; cbn [eval_cond3].
  - rewrite (Hr s). apply (Hl OpIn). by left.
  - etransitivity; [apply (Hl OpNotIn); by right|]. symmetry. apply (yields_not _ _ Hr).
Qed.
End pure.

(** ** Arithmetic *)

(** What a tree of + - * over decimals stands for; [None] is NULL. *)
Definition leaf_value (t : list Z) : option Q := if null_text t then None else d_value <$> parse t.

Fixpoint tree_value (row : Row) (e : ArithExpr) : option Q :=
  match e with
  | Num v => leaf_value v
  | Col name _ _ _ _ _ _ _ => leaf_value (column_text iter row name)
  | Add l r => x ← tree_value row l; y ← tree_value row r; Some (x + y)%Q
  | Sub l r => x ← tree_value row l; y ← tree_value row r; Some (x - y)%Q
  | Mul l r => x ← tree_value row l; y ← tree_value row r; Some (x * y)%Q
  | _ => None
  end.

(** Its leaves are decimals: literals, and cells of columns that are no FLOAT, DOUBLE, text or date. *)
Fixpoint exact_tree (row : Row) (e : ArithExpr) : Prop :=
  match e with
  | Num v => null_text v = false → exact_text v
  | Col name cls _ approx kind _ _ single =>
      approx = false ∧ single = false ∧ cls ≠ ClassText ∧ kind = KindPlain ∧ (null_text (column_text iter row name) = false → exact_text (column_text iter row name))
  | Add l r | Sub l r | Mul l r => exact_tree row l ∧ exact_tree row r
  | _ => False
  end.

(** The number of an exact tree. *)
Definition has_value (q : option Q) (v : NumVal) : Prop :=
  match q with None => nv_null v = true ∧ nv_approx v = false | Some q => exact_ok v ∧ (nv_value v == q)%Q end.

(** The error of an operation on two BIGINTs whose result is none. *)
Definition overflow (e : list Z) : Prop := ∃ l op r, in_int64 l ∧ in_int64 r ∧ ¬ in_int64 (op_z op l r) ∧ e = bigint_error l op r.

Definition exactly {A} (P : A → Prop) (m : Ev X A) : Prop :=
  ∀ s, match m s with (Ok x, s') => s' = s ∧ P x | (Err e, s') => s' = s ∧ overflow e end.

Lemma exactly_bind {A B} P Q (m : Ev X A) (f : A → Ev X B) : exactly P m → (∀ x, P x → exactly Q (f x)) → exactly Q (m ≫= f).
Proof. intros Hm Hf s. cbv [mbind Ev_bind]. specialize (Hm s). destruct (m s) as [[x|e] s']; [|done]. destruct Hm as [-> Hx]. by apply Hf. Qed.

Lemma leaf_has_value t : (null_text t = false → exact_text t) → has_value (leaf_value t) (if null_text t then null_value else text_number t).
Proof.
  intros H. unfold leaf_value. destruct (null_text t); [done|]. destruct (H eq_refl) as [Hp He].
  destruct (parse t) as [d|] eqn:E; [|done]. by apply text_number_value.
Qed.

Lemma column_leaf name cls outer members fsp t : cls ≠ ClassText →
  yields (X := X) (leaf_number kRuns kPool (Col name cls outer false KindPlain members fsp false) t) (if null_text t then null_value else text_number t).
Proof. intros Hc s. unfold leaf_number. destruct (null_text t); [done|]. by rewrite (bool_decide_false (cls = ClassText)). Qed.

Lemma literal_leaf v : yields (X := X) (leaf_number kRuns kPool (Num v) v) (if null_text v then null_value else text_number v).
Proof. intros s. unfold leaf_number. by destruct (null_text v). Qed.

Lemma exactly_yields {A} (P : A → Prop) (m : Ev X A) x : yields m x → P x → exactly P m.
Proof. intros Hm Hx s. by rewrite Hm. Qed.

Lemma arith_node_exact op (l r : ExprNode X) ql qr : op ≠ OpDiv → exactly (has_value ql) (nd_num l) → exactly (has_value qr) (nd_num r) →
  exactly (has_value (x ← ql; y ← qr; Some (op_q op x y))) (nd_num (arith_node to_chars_scientific op l r)).
Proof.
  intros Hop Hl Hr. cbn [arith_node nd_num]. eapply exactly_bind; [exact Hl|]. intros a Ha. eapply exactly_bind; [exact Hr|]. intros b Hb.
  replace (match op with OpDiv => true | _ => false end) with false by by destruct op. cbn [andb]. eapply (exactly_bind (λ _, True)); [done|]. intros _ _ s.
  unfold lift. destruct ql as [x|]; cbn [has_value mbind option_bind] in *.
  2: { unfold combine. by rewrite (proj1 Ha). }
  destruct qr as [y|]; cbn [has_value mbind option_bind] in *.
  2: { unfold combine. by rewrite (proj1 Hb), orb_true_r. }
  destruct Ha as [Ha Ea], Hb as [Hb Eb]. pose proof (combine_exact_spec op a b Hop Ha Hb) as H. destruct (combine op a b) as [v|e].
  - destruct H as [Hv E]. split_and!; [done|done|]. rewrite E. destruct op; cbn [op_q]; by rewrite Ea, Eb.
  - destruct H as (Hia & Hib & Hn & ->). split; [done|]. exists (nv_int a), op, (nv_int b). split_and!; [by apply (ex_int _ Ha)|by apply (ex_int _ Hb)|done|done].
Qed.

Lemma exact_tree_number row : ∀ e, exact_tree row e → exactly (has_value (tree_value row e)) (nd_num (node row e)).
Proof.
  fix IH 1. intros [name cls outer approx kind members fsp single0|v|v|l r|l r|l r|l r|name args|l op r|c|q cls]; cbn [exact_tree]; intros H; try done;
    [| |destruct H as [Hl Hr]..].
  - destruct H as (-> & -> & Hc & -> & Ht). apply exactly_yields with (1 := column_leaf name cls outer members fsp _ Hc), leaf_has_value, Ht.
  - apply exactly_yields with (1 := literal_leaf v), leaf_has_value, H.
  - by apply (arith_node_exact OpAdd _ _ (tree_value row l) (tree_value row r)); auto.
  - by apply (arith_node_exact OpSub _ _ (tree_value row l) (tree_value row r)); auto.
  - by apply (arith_node_exact OpMul _ _ (tree_value row l) (tree_value row r)); auto.
Qed.

(** C32: + - * on integers and decimals is exact, however deep the tree is: its full text reads as the very number the tree stands for (NULL
    where an operand is NULL), or the evaluation ends with the error of an operation on two BIGINTs whose result is no BIGINT; nothing is
    counted on the way. *)
Theorem arithmetic_exact row e s : exact_tree row e →
  match eval_arith_exact kRuns kPool iter to_chars_scientific to_chars regex_search is_builtin_function call_builtin_with_values apply_scalar_func tick strict context row e s with
  | (Ok (t, approx), s') => s' = s ∧ approx = false ∧
      match tree_value row e with None => null_text t = true | Some q => ∃ d, parse t = Some d ∧ decimal_ok d ∧ (d_value d == q)%Q end
  | (Err m, s') => s' = s ∧ overflow m
  end.
Proof.
  intros He. enough (H : exactly (λ r : list Z * bool, r.2 = false ∧
    match tree_value row e with None => null_text r.1 = true | Some q => ∃ d, parse r.1 = Some d ∧ decimal_ok d ∧ (d_value d == q)%Q end) (nd_exact (node row e))).
  { specialize (H s). unfold eval_arith_exact. by destruct (nd_exact (node row e) s) as [[[t b]|m] s']. }
  pose proof (exact_tree_number row e He) as Hn.
  assert (Hleaf : ∀ t, (null_text t = false → exact_text t) →
    match leaf_value t with None => null_text t = true | Some q => ∃ d, parse t = Some d ∧ decimal_ok d ∧ (d_value d == q)%Q end).
  { intros t Ht. unfold leaf_value. destruct (null_text t); [done|]. destruct (parse t) as [d|] eqn:E; [|by destruct (Ht eq_refl) as [? _]].
    exists d. split_and!; [done|by apply (parse_ok t)|done]. }
  assert (Harith : ∀ op l r, node row e = arith_node to_chars_scientific op l r → exactly (λ r : list Z * bool, r.2 = false ∧
    match tree_value row e with None => null_text r.1 = true | Some q => ∃ d, parse r.1 = Some d ∧ decimal_ok d ∧ (d_value d == q)%Q end) (nd_exact (node row e))).
  { intros op l r E. rewrite E in *. cbn [arith_node nd_exact nd_num] in *. eapply exactly_bind; [exact Hn|]. intros v Hv s'. cbn [mret Ev_ret].
    split; [done|]. cbn [fst snd]. destruct (tree_value row e) as [q|]; cbn [has_value] in Hv.
    - destruct Hv as [Hok Eq]. split; [apply Hok|]. destruct (numval_text_exact to_chars_scientific v Hok) as (d & ? & ? & H). exists d. by rewrite <- Eq.
    - destruct Hv as [Hv Ha]. unfold numval_text. by rewrite Hv. }
  destruct e as [name cls outer approx kind members fsp single0|v|v|l r|l r|l r|l r|name args|l op r|c|q cls]; cbn [exact_tree] in He; try done;
    try (by eapply Harith).
  - apply exactly_yields with (x := (column_text iter row name, false)); [done|]. split; [done|]. apply Hleaf, He.
  - apply exactly_yields with (x := (v, false)); [done|]. split; [done|]. apply Hleaf, He.
Qed.

(** ** Types *)

(** A value of the class of numbers: NULL, or the text of a decimal. *)
Definition is_number (t : list Z) : Prop := null_text t = true ∨ ∃ d, parse t = Some d ∧ decimal_ok d.

(** What a node of a tree may hold, and what its root op_holds. *)
Definition number_ok (v : NumVal) : Prop := nv_null v = true ∨ nv_approx v = true ∨ exact_ok v.
Definition result_ok (v : NumVal) : Prop := nv_null v = true ∨ (nv_approx v = true ∧ is_finite (nv_dbl v) = true) ∨ exact_ok v.

(** No leaf of the tree is a date or a time. *)
Definition timeless_leaf (e : ArithExpr) : bool := match vw_kind (view_of e) with KindDate | KindDateTime | KindTime => false | _ => true end.
Fixpoint timeless (e : ArithExpr) : bool :=
  match e with Add l r | Sub l r | Mul l r | Div l r => timeless l && timeless r | e => timeless_leaf e end.

Lemma text_number_any t : number_ok (text_number t).
Proof. destruct (nv_approx (text_number t)) eqn:E; [by right; left|right; right; by apply text_number_ok]. Qed.

Lemma approx_ok v : number_ok (set_approx true v).
Proof. by right; left. Qed.

Lemma leaf_number_ok e t : timeless_leaf e = true → gives (X := X) (leaf_number kRuns kPool e t) number_ok.
Proof.
  intros He. unfold leaf_number. destruct (null_text t); [apply gives_ret; by left|]. eapply gives_bind; [apply gives_any|]. intros _ _. apply gives_ret.
  unfold timeless_leaf in He. destruct (viewed (view_of e)) eqn:Ev.
  - unfold viewed in Ev. apply negb_true_iff in Ev. rewrite bool_decide_eq_false in Ev. destruct (vw_kind (view_of e)); try done; apply approx_ok.
  - pose proof (text_number_any t) as Ht.
    destruct e as [name cls outer approx kind members fsp single0|v|v|l r|l r|l r|l r|name args|l op r|c|q cls]; try done; try apply approx_ok.
    + destruct (_ || _), single0; try done; try (right; by left). destruct Ht as [H|[H|[? ? ? ? ?]]]; [by left|by right; left|right; right; by constructor].
    + destruct (single_result _); [by right; left|done].
Qed.

Lemma combine_ok op l r v : number_ok l → number_ok r → combine op l r = Ok v → result_ok v.
Proof.
  intros Hl Hr. destruct (nv_null l || nv_null r) eqn:En; [unfold combine; rewrite En; intros [= <-]; by left|].
  destruct (nv_approx l || nv_approx r) eqn:Ea.
  - unfold combine. rewrite En, Ea. destruct (_ && zero_divisor l r); [intros [= <-]; by left|]. intros [= <-]. unfold result_ok. cbn [nv_null nv_approx nv_dbl].
    destruct (is_finite _); [by right; left|by left].
  - apply orb_false_iff in En as [? ?]. apply orb_false_iff in Ea as [? ?].
    destruct Hl as [?|[?|Hl]]; [congruence..|]. destruct Hr as [?|[?|Hr]]; [congruence..|]. assert (Hop : op = OpDiv ∨ op ≠ OpDiv) by (destruct op; by auto). destruct Hop as [->|Hop].
    + destruct (combine_div_spec l r Hl Hr) as (w & -> & Hw). intros [= ->]. case_decide; [by left|]. right; right. apply Hw.
    + pose proof (combine_exact_spec op l r Hop Hl Hr) as Hw. intros E. rewrite E in Hw. right; right. apply Hw.
Qed.

Lemma result_number v : result_ok v → number_ok v.
Proof. intros [?|[[? ?]|?]]; [by left|by right; left|by right; right]. Qed.

Lemma bit_number (b : bool) : is_number (if b then [49] else [48]).
Proof.
  right. destruct b; [destruct (int_text_parse 1 ltac:(widths)) as (d & ? & ? & _)|destruct (int_text_parse 0 ltac:(widths)) as (d & ? & ? & _)]; by exists d.
Qed.

Section typed.
(** std::to_chars writes a finite double other than zero as digits with an exponent *)
Context (Hchars : ∀ neg m e, ∃ minus c fp p, scientific (to_chars_scientific false (S754_finite neg m e)) minus c fp p).

Lemma format_double_number v : is_finite v = true → is_number (format_double to_chars_scientific v false).
Proof.
  destruct v as [neg|neg| |neg m e]; try done; intros _; [apply (bit_number false)|right].
  - destruct (Hchars neg m e) as (minus & c & fp & p & H). rewrite (format_double_layout _ (S754_finite neg m e) _ _ _ _ _ eq_refl H).
    destruct H as (sg & eds & _ & Hd & _ & Hed & _ & Hp & Hlt). pose proof (digits_value_bound eds Hed).
    destruct (double_layout_spec minus (c :: fp) p Hd ltac:(done)) as (ip & fp' & e' & k & Hn & Ev & _).
    { rewrite Hp. unfold signed. destruct (sg =? c_minus); lia. }
    destruct (number_text_parse _ _ _ _ _ (signed minus (digits_value (c :: fp))) k Hn) as (d & Hd' & Ho & _); [rewrite Ev; destruct minus; simpl; lia|]. by exists d.
Qed.

Lemma result_text exact v : result_ok v → is_number (numval_text to_chars_scientific exact v).
Proof.
  intros [H|[[Ha Hf]|H]].
  - left. unfold numval_text. by rewrite H.
  - unfold numval_text. destruct (nv_null v); [by left|]. rewrite Ha. by apply format_double_number.
  - destruct exact; [destruct (numval_text_exact to_chars_scientific v H) as (d & ? & ? & _)|destruct (numval_text_shown to_chars_scientific v H) as (d & ? & ? & _)];
      right; by exists d.
Qed.

Lemma arith_node_ok op l r : gives (nd_num l) number_ok → gives (nd_num r) number_ok → gives (nd_num (arith_node (X := X) to_chars_scientific op l r)) result_ok.
Proof.
  intros Hl Hr. cbn [arith_node nd_num]. eapply gives_bind; [exact Hl|]. intros a Ha. eapply gives_bind; [exact Hr|]. intros b Hb.
  eapply gives_bind; [apply gives_any|]. intros _ _ s v s' [= E _]. exact (combine_ok _ _ _ _ Ha Hb E).
Qed.

Lemma tree_number row : ∀ e, timeless e = true → gives (nd_num (node row e)) number_ok.
Proof.
  assert (Hleaf : ∀ e text, timeless_leaf e = true → gives (nd_num (leaf_node (X := X) kRuns kPool e text)) number_ok).
  { intros e text He. cbn [leaf_node nd_num]. eapply gives_bind; [apply gives_any|]. intros t _. by apply leaf_number_ok. }
  assert (Hop : ∀ op l r, gives (nd_num l) number_ok → gives (nd_num r) number_ok → gives (nd_num (arith_node (X := X) to_chars_scientific op l r)) number_ok).
  { intros op l r Hl Hr. eapply gives_impl; [by apply arith_node_ok|apply result_number]. }
  fix IH 1. intros [name cls outer approx kind members fsp single0|v|v|l r|l r|l r|l r|name args|l op r|c|q cls]; cbn [timeless]; intros H;
    [by apply Hleaf|by apply Hleaf|by apply Hleaf| | | | |by apply Hleaf|by apply Hleaf|by apply Hleaf|by apply Hleaf]; apply andb_true_iff in H as [Hl Hr].
  - by apply (Hop OpAdd); apply IH.
  - by apply (Hop OpSub); apply IH.
  - by apply (Hop OpMul); apply IH.
  - by apply (Hop OpDiv); apply IH.
Qed.

End typed.
End properties.

(** ** Concrete inputs *)

(** The exact decimal digits of a double, with an exponent. *)
Definition exact_scientific (_ : bool) (v : spec_float) : list Z :=
  match v with
  | S754_finite neg m e =>
      let ds := to_string (if 0 <=? e then Z.pos m * 2 ^ e else Z.pos m * 5 ^ (- e)) in
      let p := Z.of_nat (length ds) - 1 + Z.min e 0 in
      if Z.abs p <? 10000
      then let fp := drop_trailing_zeros (drop 1 ds) in sign_chars neg ++ take 1 ds ++ (if bool_decide (fp = []) then [] else c_dot :: fp) ++
           101 :: (if p <? 0 then c_minus else c_plus) :: to_string (Z.abs p)
      else str "0e+0"
  | _ => []
  end.

Lemma exact_scientific_ok neg m e : ∃ minus c fp p, scientific (exact_scientific false (S754_finite neg m e)) minus c fp p.
Proof.
  unfold exact_scientific. set (n := if 0 <=? e then _ else _). assert (Hn : 0 ≤ n).
  { unfold n. destruct (Z.leb_spec 0 e); apply Z.mul_nonneg_nonneg; try lia; apply Z.pow_nonneg; lia. }
  destruct (to_string_spec n Hn) as (Hne & Hd & _). destruct (to_string n) as [|c fp]; [done|]. cbv zeta. set (p := Z.of_nat _ - 1 + _).
  destruct (Z.ltb_spec (Z.abs p) 10000) as [Hp|Hp].
  - exists neg, c, (drop_trailing_zeros fp), p. assert (Hf : Forall (λ c, is_digit c = true) (c :: drop_trailing_zeros fp)).
    { apply Forall_cons in Hd as [Hc Hf]. constructor; [done|]. destruct (drop_trailing_zeros_split fp) as [k E]. rewrite E in Hf. by apply Forall_app in Hf as [? _]. }
    destruct (to_string_spec (Z.abs p) ltac:(lia)) as (Hpe & Hpd & Hpv). exists (if p <? 0 then c_minus else c_plus), (to_string (Z.abs p)).
    rewrite Hpv. split_and!; try done; [by destruct (p <? 0)|unfold signed; destruct (Z.ltb_spec p 0); simpl; lia].
  - exists false, 48, [], 0, c_plus, [48]. split_and!; try done; repeat constructor.
Qed.

Definition demo_eval (row : Row) (e : ArithExpr) : ExprNode unit :=
  eval_node ascii_runs ascii_pool map_to_list exact_scientific (λ v, format_double exact_scientific v false) (λ _ _, None) (λ _, false) (λ _ _ _ _, throw [])
    (λ _ _ _, throw []) (mret tt) false None row e.
Definition demo_cond (row : Row) (c : CondExpr) : Ev unit Tri :=
  eval_cond3 ascii_runs ascii_pool map_to_list exact_scientific (λ v, format_double exact_scientific v false) (λ _ _, None) (λ _, false) (λ _ _ _ _, throw [])
    (λ _ _ _, throw []) (mret tt) false None row c.
Definition start_state : EvalState unit := mkEvalState 0 0 [] tt.

Definition plain_col (name : string) (cls : ValueClass) : ArithExpr := Col (str name) cls 0 false KindPlain None 0 false.
Definition leaf_of (e : ArithExpr) (op : Operator) (v : ConditionValue) : CondExpr := Leaf (mkCondition e op v ClassUnknown ClassUnknown QuantNone).
Definition demo_items : Row := <[str "price" := str "10.50"]> {[ str "note" := str "NULL" ]}.

Example eval_demo :
  fst (nd_text (demo_eval demo_items (Mul (Div (Num [49]) (Num [51])) (Num [51]))) start_state) = Ok (str "1.0000") ∧
  fst (nd_text (demo_eval demo_items (Mul (plain_col "price" ClassNumber) (Num [50]))) start_state) = Ok (str "21.00") ∧
  fst (nd_text (demo_eval demo_items (Mul (Str (str "2.5")) (Num [50]))) start_state) = Ok (str "5") ∧
  fst (nd_text (demo_eval demo_items (Add (Num (str "9223372036854775807")) (Num [49]))) start_state) =
    Err (str "BIGINT value is out of range in '(9223372036854775807 + 1)'") ∧
  (nd_text (demo_eval demo_items (Div (Num [49]) (Num [48]))) start_state) = (Ok (str "NULL"), mkEvalState 1 0 [] tt) ∧
  (nd_text (demo_eval demo_items (Add (Str (str "12abc")) (Num [49]))) start_state) = (Ok (str "13"), mkEvalState 0 1 (str "12abc") tt).
Proof. vm_compute. done. Qed.

Lemma three_valued_logic_witness :
  fst (demo_cond demo_items (push_not true (And (leaf_of (plain_col "note" ClassText) OpEq (Literal (str "x") true 0)) (leaf_of (Num [49]) OpEq (Literal [49] false 0)))) start_state)
  = Ok TriUnknown.
Proof.
  destruct (three_valued_logic (X := unit) ascii_runs ascii_pool map_to_list exact_scientific (λ v, format_double exact_scientific v false) (λ _ _, None)
    (λ _, false) (λ _ _ _ _, throw []) (λ _ _ _, throw []) (mret (M := Ev unit) tt) false None demo_items
    (And (leaf_of (plain_col "note" ClassText) OpEq (Literal (str "x") true 0)) (leaf_of (Num [49]) OpEq (Literal [49] false 0)))
    (leaf_of (Num [49]) OpEq (Literal [49] false 0)) start_state) as (_ & _ & E).
  etransitivity; [exact (f_equal fst E)|]. vm_compute. done.
Defined.

Lemma between_is_comparisons_witness :
  let price := plain_col "price" ClassNumber in
  demo_cond demo_items (leaf_of price OpBetween (Between (str "9") (str "11.5") false false)) start_state =
  demo_cond demo_items (And (leaf_of price OpGte (Literal (str "9") false 0)) (leaf_of price OpLte (Literal (str "11.5") false 0))) start_state.
Proof.
  refine (proj1 (between_is_comparisons (X := unit) ascii_runs ascii_pool map_to_list exact_scientific (λ v, format_double exact_scientific v false) (λ _ _, None)
    (λ _, false) (λ _ _ _ _, throw []) (λ _ _ _, throw []) (mret (M := Ev unit) tt) false None (λ _, eq_refl) eq_refl demo_items (plain_col "price" ClassNumber) (str "10.50") false
    ClassUnknown QuantNone (str "9") (str "11.5") false false start_state _ _ _ _)).
  - intros s. vm_compute. done.
  - split_and!; [done|intros _ _; vm_compute; by eexists|done].
  - split_and!; [done|intros _ _; vm_compute; by eexists|done].
  - done.
Defined.

Lemma in_list_is_equalities_witness :
  let price := plain_col "price" ClassNumber in
  demo_cond demo_items (leaf_of price OpNotIn (LiteralList [str "1"; str "NULL"] [false; false])) start_state =
  demo_cond demo_items (Not (Or (leaf_of price OpEq (Literal (str "1") false 0)) (leaf_of price OpEq (Literal (str "NULL") false 0)))) start_state.
Proof.
  refine (proj2 (in_list_is_equalities (X := unit) ascii_runs ascii_pool map_to_list exact_scientific (λ v, format_double exact_scientific v false) (λ _ _, None)
    (λ _, false) (λ _ _ _ _, throw []) (λ _ _ _, throw []) (mret (M := Ev unit) tt) false None (λ _, eq_refl) eq_refl demo_items (plain_col "price" ClassNumber) (str "10.50") false
    ClassUnknown QuantNone (str "1", false) [(str "NULL", false)] start_state _ _ _)).
  - intros s. vm_compute. done.
  - repeat constructor; try done; intros _ _; vm_compute; by eexists.
  - done.
Defined.

Definition demo_tree : ArithExpr := Add (Mul (plain_col "price" ClassNumber) (Num (str "0.1"))) (Num (str "2")).

Lemma exact_text_check t : bool_decide (is_Some (parse t)) && negb (existsb (λ c, (c =? 101) || (c =? 69)) t) = true → exact_text t.
Proof. rewrite andb_true_iff, bool_decide_eq_true, negb_true_iff. intros [[d E] ?]. split; [by rewrite E|done]. Qed.

Lemma demo_tree_exact : exact_tree map_to_list demo_items demo_tree.
Proof.
  refine (conj (conj (conj eq_refl (conj eq_refl (conj _ (conj eq_refl _)))) _) _); [discriminate|intros _; apply exact_text_check; vm_compute; reflexivity..].
Qed.

Lemma arithmetic_exact_witness :
  ∃ t d, fst (nd_exact (demo_eval demo_items demo_tree) start_state) = Ok (t, false) ∧ parse t = Some d ∧ (d_value d == 61 # 20)%Q.
Proof.
  pose proof (arithmetic_exact (X := unit) ascii_runs ascii_pool map_to_list exact_scientific (λ v, format_double exact_scientific v false) (λ _ _, None)
    (λ _, false) (λ _ _ _ _, throw []) (λ _ _ _, throw []) (mret (M := Ev unit) tt) false None demo_items demo_tree start_state demo_tree_exact) as H.
  revert H. change (eval_arith_exact _ _ _ _ _ _ _ _ _ _ _ _ _ _ _) with (nd_exact (demo_eval demo_items demo_tree) start_state).
  assert (E : nd_exact (demo_eval demo_items demo_tree) start_state = (Ok (str "3.050", false), start_state)) by (vm_compute; reflexivity).
  rewrite E. intros (_ & _ & H).
  assert (Ev : ∃ q, tree_value map_to_list demo_items demo_tree = Some q ∧ (q == 61 # 20)%Q) by (eexists; split; vm_compute; reflexivity).
  destruct Ev as (q & Ev & Eq). rewrite Ev in H. destruct H as (d & Hd & _ & Hv). exists (str "3.050"), d. split; [reflexivity|]. split; [exact Hd|]. by rewrite Hv.
Defined.


(** ** Findings *)

Definition float_col : ArithExpr := Col (str "f") ClassNumber 0 true KindPlain None 0 true.
Definition date_col : ArithExpr := Col (str "d") ClassText 0 false KindDate None 0 false.
Definition demo_day : Row := <[str "f" := str "0.1"]> (<[str "t" := str "__NULL__"]> {[ str "d" := str "2024-06-15" ]}).

(** A FLOAT is in a list of strings it is not equal to. *)
Example float_in_strings :
  fst (demo_cond demo_day (leaf_of float_col OpIn (LiteralList [str "0.1"] [true])) start_state) = Ok TriTrue ∧
  fst (demo_cond demo_day (leaf_of float_col OpEq (Literal (str "0.1") true 0)) start_state) = Ok TriFalse.
Proof. vm_compute. done. Qed.

(** A date is not between a number and a string that it is not below and not above. *)
Example date_between_mixed :
  fst (demo_cond demo_day (leaf_of date_col OpBetween (Between (str "20240101") (str "2024-12-31") false true)) start_state) = Ok TriFalse ∧
  fst (demo_cond demo_day (leaf_of date_col OpGte (Literal (str "20240101") false 0)) start_state) = Ok TriTrue ∧
  fst (demo_cond demo_day (leaf_of date_col OpLte (Literal (str "2024-12-31") true 0)) start_state) = Ok TriTrue.
Proof. vm_compute. done. Qed.

(** A string is compared as NULL, but found in a list. *)
Example null_string :
  fst (demo_cond demo_day (leaf_of (plain_col "t" ClassText) OpEq (Literal (str "__NULL__") true 0)) start_state) = Ok TriUnknown ∧
  fst (demo_cond demo_day (leaf_of (plain_col "t" ClassText) OpIn (LiteralList [str "__NULL__"] [true])) start_state) = Ok TriTrue.
Proof. vm_compute. done. Qed.

(** A negative time of less than a second loses its sign as a number. *)
Example negative_time_number : column_number ascii_runs ascii_pool KindTime None 6 (str "-00:00:00.500000") = str "0.500000".
Proof. vm_compute. done. Qed.
