(* ===== verification/Subquery.v ===== *)
(** * Conditions over subqueries (executor_subquery.cpp; scalar_subquery_value of executor_eval.cpp; CopyScope of
    include/engine/executor/executor.hpp)

    A subquery that names no column of the query around it is answered once per statement: what EXISTS, IN and comparisons found is kept by the
    address of the subquery, and thrown away when another statement runs or one that writes has finished. Addresses are numbers; the execution of a
    query, and the values put in for the columns of the outer row, are parameters, as are the evaluators of Eval.v for the left side. *)
From Stdlib Require Import SpecFloat.
From S2P Require Import Prelude Numerals NumericText Collation RowJson Joins ResultText JsonValue Arith Ast Classes Eval.

#[local] Open Scope Z_scope.

(** ** What is kept *)

Record Caches := mkCaches {
  in_cache : gmap N (gset (list Z));
  scalar_cache : gmap N (list (list Z));
  exists_cache : gmap N bool;
  correlated_cache : gmap N bool;
  cache_statement : N;
  cache_writes : N
}.

Definition no_caches (statement writes : N) : Caches := mkCaches ∅ ∅ ∅ ∅ statement writes.

(** The members of ArithExpr::Subquery that are not part of its value. *)
Record Answer := mkAnswer { an_text : list Z; an_in : N; an_after : N; an_correlated : option bool }.
Definition no_answer : Answer := mkAnswer [] 0 0 None.

(** What the executor keeps for subqueries; [Y] is the rest of the database. *)
Record SubState (Y : Type) := mkSub { sb_caches : Caches; sb_answers : gmap N Answer; sb_writes : N; sb_rest : Y }.
Arguments mkSub {Y}.
Arguments sb_caches {Y}.
Arguments sb_answers {Y}.
Arguments sb_writes {Y}.
Arguments sb_rest {Y}.

Definition ev_gets {X A} (f : X → A) : Ev X A := λ s, (Ok (f (ev_rest s)), s).
Definition ev_modify {X} (f : X → X) : Ev X unit := λ s, (Ok tt, mkEvalState (ev_zeros s) (ev_cuts s) (ev_cut_text s) (f (ev_rest s))).

Definition with_caches {Y} (f : Caches → Caches) (x : SubState Y) : SubState Y := mkSub (f (sb_caches x)) (sb_answers x) (sb_writes x) (sb_rest x).
Definition with_answer {Y} (node : N) (f : Answer → Answer) (x : SubState Y) : SubState Y :=
  mkSub (sb_caches x) (<[node := f (default no_answer (sb_answers x !! node))]> (sb_answers x)) (sb_writes x) (sb_rest x).

Definition keep_in (k : N) (v : gset (list Z)) (c : Caches) : Caches :=
  mkCaches (<[k := v]> (in_cache c)) (scalar_cache c) (exists_cache c) (correlated_cache c) (cache_statement c) (cache_writes c).
Definition keep_scalar (k : N) (v : list (list Z)) (c : Caches) : Caches :=
  mkCaches (in_cache c) (<[k := v]> (scalar_cache c)) (exists_cache c) (correlated_cache c) (cache_statement c) (cache_writes c).
Definition keep_exists (k : N) (v : bool) (c : Caches) : Caches :=
  mkCaches (in_cache c) (scalar_cache c) (<[k := v]> (exists_cache c)) (correlated_cache c) (cache_statement c) (cache_writes c).
Definition keep_correlated (k : N) (v : bool) (c : Caches) : Caches :=
  mkCaches (in_cache c) (scalar_cache c) (exists_cache c) (<[k := v]> (correlated_cache c)) (cache_statement c) (cache_writes c).

(** ** Truth of a condition over values *)

(** [x IN values]: TRUE on a match, UNKNOWN where a NULL keeps it open; NOT IN the other way round; no value at all decides it. *)
Definition membership (op : Operator) (left_null contains has_null empty : bool) : Tri :=
  let is_in := bool_decide (op = OpIn) in
  if left_null then (if empty then tri (negb is_in) else TriUnknown)
  else if is_in then (if contains then TriTrue else if has_null then TriUnknown else TriFalse)
  else (if contains then TriFalse else if has_null then TriUnknown else TriTrue).

Section values.
Context (kRuns : list Run) (kPool : list Z) (printf_17g : spec_float → list Z).

Definition in_key (in_class : ValueClass) (v : list Z) : list Z :=
  if null_text v then v else if bool_decide (in_class = ClassText) then key kRuns kPool v else normalize_numeric_key kRuns kPool printf_17g v.

Definition in_equal (in_class : ValueClass) (a b : list Z) : bool :=
  bool_decide (a = b) || (if bool_decide (in_class = ClassText) then equal kRuns kPool a b else compare_classed kRuns kPool in_class in_class a b =? 0).

(** [x op ANY / ALL (values)]. *)
Fixpoint quantified_loop (any : bool) (holds : list Z → Tri) (open : bool) (vals : list (list Z)) : Tri :=
  match vals with
  | [] => if open then TriUnknown else tri (negb any)
  | v :: vals =>
      match holds v with
      | TriTrue => if any then TriTrue else quantified_loop any holds open vals
      | TriFalse => if any then quantified_loop any holds open vals else TriFalse
      | TriUnknown => quantified_loop any holds true vals
      end
  end.

(** The pairs of a row of values and a row of the subquery. *)
Fixpoint row_same (same : Tri) (cells : list (ValueClass * list Z * list Z)) : Tri :=
  match cells with
  | [] => same
  | (cls, mine, other) :: cells =>
      if bool_decide (same = TriFalse) then same
      else if null_text mine || null_text other then row_same TriUnknown cells
      else if negb (compare_classed kRuns kPool cls cls mine other =? 0) then row_same TriFalse cells
      else row_same same cells
  end.

Fixpoint row_in (fuel : nat) (width : nat) (mine : list (ValueClass * list Z)) (cells : list (list Z)) (within : Tri) : Tri :=
  match fuel with
  | O => within
  | S fuel =>
      if (width <=? length cells)%nat && negb (bool_decide (within = TriTrue)) then
        let same := row_same TriTrue (zip mine (take width cells)) in
        row_in fuel width mine (drop width cells) (if bool_decide (same = TriFalse) then within else same)
      else within
  end.
End values.

(** ** Evaluation *)

Section subqueries.
Context {Y : Type}.
#[local] Abbreviation X := (SubState Y).
Context (kRuns : list Run) (kPool : list Z) (printf_17g : spec_float → list Z).
(** executor_outer.cpp *)
Context (refers_outside : Statement → bool) (substitute_outer : Statement → Row → Statement).
(** exec_select / execute_with_s; a result that is an error is thrown *)
Context (execute : Statement → Ev X (list Z)).
(** statement_context_->statement, 0 outside of one *)
Context (statement : N).
(** eval_arith_exact and eval_single3 *)
Context (eval_exact : Row → ArithExpr → Ev X (list Z * bool)) (eval_single : Row → Condition → Ev X Tri).

Definition sync_subquery_caches : Ev X unit :=
  ev_modify (λ x,
    let c := sb_caches x in
    if bool_decide (statement = cache_statement c) && bool_decide (sb_writes x = cache_writes c) then x
    else with_caches (λ _, no_caches statement (sb_writes x)) x).

Definition subquery_is_correlated (k : N) (sub : Statement) : Ev X bool :=
  known ← ev_gets (λ x : X, correlated_cache (sb_caches x) !! k);
  match known with
  | Some b => mret b
  | None => _ ← ev_modify (with_caches (keep_correlated k (refers_outside sub))); mret (refers_outside sub)
  end.

(** The subquery runs with caches of its own (CopyScope). *)
Definition run_subquery (original : Statement) (row : Row) (correlated : bool) : Ev X (list Z) := λ s,
  let saved := sb_caches (ev_rest s) in
  let stmt := if correlated then substitute_outer original row else original in
  let '(r, s) := execute stmt (snd (ev_modify (with_caches (λ _, no_caches 0 0)) s)) in
  (r, snd (ev_modify (with_caches (λ _, saved)) s)).

(** What is known of an uncorrelated subquery, or found out and kept. *)
Definition cached {A} (correlated : bool) (find : Caches → option A) (keep : A → Caches → Caches) (fresh : Ev X A) : Ev X A :=
  known ← ev_gets (λ x : X, if correlated then None else find (sb_caches x));
  match known with
  | Some a => mret a
  | None => a ← fresh; _ ← (if correlated then mret tt else ev_modify (with_caches (keep a))); mret a
  end.

Definition exists_subquery (k : N) (original : Statement) (row : Row) (correlated : bool) : Ev X bool :=
  cached correlated (λ c, exists_cache c !! k) (keep_exists k) (out ← run_subquery original row correlated; mret (has_rows out)).

Definition subquery_values (k : N) (original : Statement) (row : Row) (correlated : bool) : Ev X (list (list Z)) :=
  cached correlated (λ c, scalar_cache c !! k) (keep_scalar k) (out ← run_subquery original row correlated; mret (extract_values_from_output out)).

Definition subquery_cells (width : nat) (k : N) (original : Statement) (row : Row) (correlated : bool) : Ev X (list (list Z)) :=
  cached correlated (λ c, scalar_cache c !! k) (keep_scalar k)
    (out ← run_subquery original row correlated;
     match extract_cells_from_output out width with
     | Some cells => mret cells
     | None => throw (str "Operand should contain " ++ to_string (Z.of_nat width) ++ str " column(s)")
     end).

Definition subquery_keys (cls : ValueClass) (k : N) (original : Statement) (row : Row) : Ev X (gset (list Z)) :=
  cached false (λ c, in_cache c !! k) (keep_in k)
    (out ← run_subquery original row false; mret (list_to_set (in_key kRuns kPool printf_17g cls <$> extract_values_from_output out))).

Definition is_in_op (op : Operator) : bool := bool_decide (op = OpIn) || bool_decide (op = OpNotIn).
Definition is_exists_op (op : Operator) : bool := bool_decide (op = OpExists) || bool_decide (op = OpNotExists).

(** A comparison with the values of a subquery. *)
Definition compare_values (op : Operator) (quantifier : Quantifier) (left_class right_class : ValueClass) (val : list Z) (vals : list (list Z)) : Ev X Tri :=
  let left_null := null_text val in
  let holds v := op_holds op (compare_classed kRuns kPool left_class right_class val v) in
  match quantifier with
  | QuantNone =>
      match vals with
      | [] => mret TriUnknown
      | [v] => mret (if null_text v then TriUnknown else holds v)
      | _ => throw (str "Subquery returns more than 1 row")
      end
  | _ =>
      let any := match quantifier with QuantAny => true | _ => false end in
      mret (match vals with
            | [] => tri (negb any)
            | _ => quantified_loop any (λ v, if left_null || null_text v then TriUnknown else holds v) false vals
            end)
  end.

Definition eval_single_with_subquery (k : N) (row : Row) (cond : Condition) : Ev X Tri :=
  let '(mkCondition lhs op value lc right_class quantifier) := cond in
  match value with
  | ValueSubquery original =>
      _ ← sync_subquery_caches;
      correlated ← subquery_is_correlated k original;
      if is_exists_op op then
        found ← exists_subquery k original row correlated;
        mret (tri (if bool_decide (op = OpExists) then found else negb found))
      else
        match (match lhs with Func name args => if is_name ["ROW"%string] name && is_in_op op then Some args else None | _ => None end) with
        | Some args =>
            mine ← ev_all ((λ a, v ← eval_exact row a; mret (class_of_expr a, v.1)) <$> args);
            cells ← subquery_cells (length args) k original row correlated;
            let within := row_in kRuns kPool (S (length cells)) (length args) mine cells TriFalse in
            mret (if bool_decide (op = OpIn) then within else tri_not within)
        | None =>
            v ← eval_exact row lhs;
            let val := v.1 in
            let left_null := null_text val in
            let quantified := match quantifier with QuantNone => false | _ => true end in
            if left_null && negb (is_in_op op) && negb quantified then mret TriUnknown
            else
              let in_class := class_or lc (class_of_expr lhs) in
              if is_in_op op && negb correlated then
                keys ← subquery_keys in_class k original row;
                mret (membership op left_null (bool_decide (in_key kRuns kPool printf_17g in_class val ∈ keys)) (bool_decide (EXECUTOR_NULL_VALUE ∈ keys)) (bool_decide (keys = ∅)))
              else
                vals ← subquery_values k original row correlated;
                if is_in_op op then
                  mret (membership op left_null (existsb (λ v, negb (null_text v) && in_equal kRuns kPool in_class v val) vals) (existsb null_text vals) (bool_decide (vals = [])))
                else if orders op then compare_values op quantifier in_class right_class val vals
                else mret TriFalse
        end
  | _ => eval_single row cond
  end.

(** ArithExpr::Subquery: the value of a subquery in an expression, kept in the node. *)
Definition scalar_subquery_value (node : N) (query : Statement) (row : Row) : Ev X (list Z) :=
  known ← ev_gets (λ x : X, default no_answer (sb_answers x !! node));
  correlated ← match an_correlated known with
               | Some b => mret b
               | None => _ ← ev_modify (with_answer node (λ a, mkAnswer (an_text a) (an_in a) (an_after a) (Some (refers_outside query)))); mret (refers_outside query)
               end;
  writes ← ev_gets (λ x : X, sb_writes x);
  if negb correlated && bool_decide (an_in known = statement) && bool_decide (an_after known = writes) then mret (an_text known)
  else
    out ← run_subquery query row correlated;
    match extract_values_from_output out with
    | _ :: _ :: _ => throw (str "Subquery returns more than 1 row")
    | vals =>
        let value := default EXECUTOR_NULL_VALUE (head vals) in
        writes ← ev_gets (λ x : X, sb_writes x);
        _ ← (if correlated then mret tt else ev_modify (with_answer node (λ a, mkAnswer value statement writes (an_correlated a))));
        mret value
    end.

(** WHERE and HAVING. *)
Definition eval_cond3_with_subquery (address : Condition → N) (row : Row) : CondExpr → Ev X Tri := cond3 (λ c, eval_single_with_subquery (address c) row c).

Definition matches_condition_with_subquery (address : Condition → N) (row : Row) (condition : option CondExpr) : Ev X bool :=
  match condition with None => mret true | Some c => t ← eval_cond3_with_subquery address row c; mret (bool_decide (t = TriTrue)) end.
End subqueries.

(** ** Values *)

Lemma row_same_false kRuns kPool cells : row_same kRuns kPool TriFalse cells = TriFalse.
Proof. by destruct cells as [|[[cls mine] other] cells]. Qed.

Section values_spec.
Context (kRuns : list Run) (kPool : list Z).

(** A pair of values in three truth values, and a row of pairs. *)
Definition pair_equal (p : ValueClass * list Z * list Z) : Tri :=
  if null_text p.1.2 || null_text p.2 then TriUnknown else tri (compare_classed kRuns kPool p.1.1 p.1.1 p.1.2 p.2 =? 0).
Definition all_pairs (cells : list (ValueClass * list Z * list Z)) : Tri := foldr (λ p t, tri_and (pair_equal p) t) TriTrue cells.

Lemma row_same_spec same cells : row_same kRuns kPool same cells = tri_and same (all_pairs cells).
Proof.
  revert same. induction cells as [|[[cls mine] other] cells IH]; intros same; cbn [row_same]; [by destruct same|].
  unfold all_pairs. cbn [foldr]. fold (all_pairs cells). unfold pair_equal. cbn [fst snd].
  destruct same; cbn [bool_decide]; [| done|]; (destruct (null_text mine || null_text other); [rewrite IH; by destruct (all_pairs cells)|]);
    (destruct (_ =? 0); cbn [negb tri]; rewrite IH; by destruct (all_pairs cells)).
Qed.

(** The rows of a list of cells. *)
Fixpoint rows_of_width (fuel width : nat) (cells : list (list Z)) : list (list (list Z)) :=
  match fuel with
  | O => []
  | S fuel => if (width <=? length cells)%nat then take width cells :: rows_of_width fuel width (drop width cells) else []
  end.

Lemma row_in_spec fuel width mine cells within : within ≠ TriTrue →
  row_in kRuns kPool fuel width mine cells within = tri_or within (foldr (λ r t, tri_or (all_pairs (zip mine r)) t) TriFalse (rows_of_width fuel width cells)).
Proof.
  revert cells within. induction fuel as [|fuel IH]; intros cells within Hw; cbn [row_in rows_of_width]; [by destruct within|].
  destruct (width <=? length cells)%nat; [|by destruct within]. cbn [andb foldr]. rewrite bool_decide_false by done. cbn [negb].
  rewrite row_same_spec. set (same := all_pairs _). set (rest := foldr _ _ _). replace (tri_and TriTrue same) with same by by destruct same.
  destruct same; cbn [tri_or].
  - destruct fuel; cbn [row_in]; [by destruct within|]. rewrite (bool_decide_true (TriTrue = TriTrue)) by done. rewrite andb_false_r. by destruct within.
  - rewrite bool_decide_true by done. rewrite IH by done. fold rest. by destruct within, rest.
  - rewrite bool_decide_false by done. rewrite IH by done. fold rest. by destruct within, rest.
Qed.

Lemma quantified_any holds open vals :
  quantified_loop true holds open vals = if existsb (λ v, bool_decide (holds v = TriTrue)) vals then TriTrue
    else if open || existsb (λ v, bool_decide (holds v = TriUnknown)) vals then TriUnknown else TriFalse.
Proof.
  revert open. induction vals as [|v vals IH]; intros open; cbn [quantified_loop existsb]; [by rewrite orb_false_r|].
  destruct (holds v) eqn:E; cbn; rewrite ?IH; [done|done|by rewrite orb_true_r].
Qed.

Lemma quantified_all holds open vals :
  quantified_loop false holds open vals = if existsb (λ v, bool_decide (holds v = TriFalse)) vals then TriFalse
    else if open || existsb (λ v, bool_decide (holds v = TriUnknown)) vals then TriUnknown else TriTrue.
Proof.
  revert open. induction vals as [|v vals IH]; intros open; cbn [quantified_loop existsb]; [by rewrite orb_false_r|].
  destruct (holds v) eqn:E; cbn; rewrite ?IH; [done|done|by rewrite orb_true_r].
Qed.
End values_spec.

Section membership_spec.
Context (kRuns : list Run) (kPool : list Z) (printf_17g : spec_float → list Z).

Definition values_contain (cls : ValueClass) (vals : list (list Z)) (val : list Z) : bool :=
  existsb (λ v, negb (null_text v) && in_equal kRuns kPool cls v val) vals.

Lemma existsb_ext {A} (f g : A → bool) l : (∀ x, f x = g x) → existsb f l = existsb g l.
Proof. intros H. induction l as [|x l IH]; [done|]. cbn. by rewrite H, IH. Qed.

(** IN the values is [= ANY] of them, NOT IN is [<> ALL]. *)
Lemma membership_quantified cls rc val vals negated : (∀ v, null_text val = false → null_text v = false → in_equal kRuns kPool cls v val = (compare_classed kRuns kPool cls rc val v =? 0)) →
  let op := if negated : bool then OpNe else OpEq in
  let holds v := if null_text val || null_text v then TriUnknown else op_holds op (compare_classed kRuns kPool cls rc val v) in
  membership (if negated then OpNotIn else OpIn) (null_text val) (values_contain cls vals val) (existsb null_text vals) (bool_decide (vals = [])) =
  match vals with [] => tri negated | _ => quantified_loop (negb negated) holds false vals end.
Proof.
  intros Heq. cbv zeta. set (holds := λ v, _). destruct (decide (vals = [])) as [->|Hne]; [unfold membership; by destruct negated, (null_text val)|].
  rewrite (bool_decide_false (vals = [])) by done. replace (match vals with [] => _ | _ => _ end) with (quantified_loop (negb negated) holds false vals) by by destruct vals.
  assert (Hc : null_text val = false → values_contain cls vals val = existsb (λ v, bool_decide (holds v = if negated then TriFalse else TriTrue)) vals).
  { intros Hv. unfold values_contain. apply existsb_ext. intros v. unfold holds. rewrite Hv. cbn [orb]. destruct (null_text v) eqn:En; cbn [negb andb].
    - by destruct negated.
    - rewrite Heq by done. destruct negated; cbn [op_holds]; by destruct (_ =? 0). }
  assert (Hn : null_text val = false → existsb null_text vals = existsb (λ v, bool_decide (holds v = TriUnknown)) vals).
  { intros Hv. apply existsb_ext. intros v. unfold holds. rewrite Hv. cbn [orb]. destruct (null_text v); [done|].
    destruct negated; cbn [op_holds]; by destruct (_ =? 0). }
  assert (Hall : null_text val = true → ∀ t, t ≠ TriUnknown → existsb (λ v, bool_decide (holds v = t)) vals = false ∧ existsb (λ v, bool_decide (holds v = TriUnknown)) vals = true).
  { intros Hv t Ht. unfold holds. rewrite Hv. cbn [orb]. rewrite (bool_decide_false (TriUnknown = t)) by done. split; [clear; by induction vals|by destruct vals]. }
  unfold membership. destruct negated; cbn [negb]; rewrite ?quantified_any, ?quantified_all; cbn [orb]; destruct (null_text val).
  - destruct (Hall eq_refl TriFalse ltac:(done)) as [-> ->]. done.
  - rewrite Hc, Hn by done. done.
  - destruct (Hall eq_refl TriTrue ltac:(done)) as [-> ->]. done.
  - rewrite Hc, Hn by done. done.
Qed.

Context (Hok : tables_ok kRuns kPool).

Lemma text_in_equal v val : in_equal kRuns kPool ClassText v val = (compare_classed kRuns kPool ClassText ClassText val v =? 0).
Proof.
  unfold in_equal, compare_classed. change (bool_decide (ClassText = ClassNumber)) with false. change (bool_decide (ClassText = ClassText)) with true.
  cbn [orb andb]. apply eq_iff_eq_true. rewrite orb_true_iff, bool_decide_eq_true, equal_order, Z.eqb_eq.
  assert (E : match parse_number v with Some _ | None => compare kRuns kPool val v end = compare kRuns kPool val v) by by destruct (parse_number v).
  rewrite compare_spec, (order_antisym kRuns kPool v val). split; [intros [->|H]|].
  - by rewrite order_refl.
  - by rewrite H.
  - intros H. right. by destruct (order kRuns kPool v val).
Qed.

(** Texts are the same value exactly when their keys are the same. *)
Lemma text_keys vals val : null_text val = false →
  bool_decide (in_key kRuns kPool printf_17g ClassText val ∈ (list_to_set (in_key kRuns kPool printf_17g ClassText <$> vals) : gset (list Z))) = values_contain ClassText vals val.
Proof.
  intros Hv. apply eq_iff_eq_true. rewrite bool_decide_eq_true, elem_of_list_to_set, list_elem_of_fmap. unfold values_contain.
  rewrite existsb_exists. change (is_null_text val) with (null_text val) in *. unfold in_key. rewrite Hv. change (bool_decide (ClassText = ClassText)) with true. cbn [andb]. split.
  - intros (v & E & Hin). exists v. split; [by apply list_elem_of_In|]. destruct (null_text v) eqn:En.
    + exfalso. apply (key_not_null kRuns kPool Hok val Hv). apply bool_decide_eq_true_1 in En. by rewrite E, En.
    + cbn [negb andb]. unfold in_equal. change (bool_decide (ClassText = ClassText)) with true. apply orb_true_iff. right.
      apply (key_equal kRuns kPool Hok). done.
  - intros (v & Hin & [Hn He]%andb_true_iff). exists v. apply negb_true_iff in Hn. rewrite Hn. split; [|by apply list_elem_of_In].
    unfold in_equal in He. apply orb_true_iff in He as [->%bool_decide_eq_true_1|He]; [done|]. change (bool_decide (ClassText = ClassText)) with true in He.
    symmetry. by apply (key_equal kRuns kPool Hok).
Qed.

Lemma null_keys cls vals : cls = ClassText →
  bool_decide (EXECUTOR_NULL_VALUE ∈ (list_to_set (in_key kRuns kPool printf_17g cls <$> vals) : gset (list Z))) = existsb null_text vals.
Proof.
  intros ->. apply eq_iff_eq_true. rewrite bool_decide_eq_true, elem_of_list_to_set, list_elem_of_fmap, existsb_exists. unfold in_key. split.
  - intros (v & E & Hin). exists v. split; [by apply list_elem_of_In|]. destruct (null_text v) eqn:En; [done|].
    exfalso. by apply (key_not_null kRuns kPool Hok v En).
  - intros (v & Hin & En). exists v. rewrite En. split; [|by apply list_elem_of_In]. by apply bool_decide_eq_true_1 in En as ->.
Qed.

Lemma empty_keys cls vals : bool_decide ((list_to_set (in_key kRuns kPool printf_17g cls <$> vals) : gset (list Z)) = ∅) = bool_decide (vals = []).
Proof.
  apply bool_decide_ext. destruct vals as [|v vals]; [done|]. split; [|done]. intros E. exfalso.
  assert (H : in_key kRuns kPool printf_17g cls v ∈ (∅ : gset (list Z))) by (rewrite <- E; cbn; set_solver). set_solver.
Qed.
End membership_spec.

(** ** The caches *)

Section transparent.
Context {Y : Type}.
#[local] Abbreviation X := (SubState Y).
#[local] Abbreviation St := (EvalState X).
Context (kRuns : list Run) (kPool : list Z) (printf_17g : spec_float → list Z).
Context (refers_outside : Statement → bool) (substitute_outer : Statement → Row → Statement).
Context (execute : Statement → Ev X (list Z)).
Context (statement : N).
Context (eval_exact : Row → ArithExpr → Ev X (list Z * bool)) (eval_single : Row → Condition → Ev X Tri).
(** The subquery at an address, its answer, the class of the left side of its condition, and (a row on the left) its width *)
Context (ast : N → Statement) (answer : N → list Z) (class_at : N → ValueClass) (width_at : N → option nat).

(** The state with nothing kept. *)
Definition clear (s : St) : St := snd (ev_modify (with_caches (λ _, no_caches 0 0)) s).

(** An uncorrelated subquery has one answer, and running it leaves the data as it is. *)
Context (Hrun : ∀ k s, refers_outside (ast k) = false → ∃ t, execute (ast k) s = (Ok (answer k), t) ∧ clear t = clear s).

Definition kept_ok (c : Caches) : Prop := ∀ k,
  (∀ v, in_cache c !! k = Some v → v = list_to_set (in_key kRuns kPool printf_17g (class_at k) <$> extract_values_from_output (answer k))) ∧
  (∀ v, scalar_cache c !! k = Some v →
     match width_at k with Some w => extract_cells_from_output (answer k) w = Some v | None => v = extract_values_from_output (answer k) end) ∧
  (∀ v, exists_cache c !! k = Some v → v = has_rows (answer k)) ∧
  (∀ v, correlated_cache c !! k = Some v → v = refers_outside (ast k)).

(** What is kept for the running statement holds. *)
Definition caches_ok (s : St) : Prop :=
  let c := sb_caches (ev_rest s) in cache_statement c = statement → cache_writes c = sb_writes (ev_rest s) → kept_ok c.

Lemma no_caches_ok a b : kept_ok (no_caches a b).
Proof. intros k. cbn. split_and!; intros v H; by rewrite lookup_empty in H. Qed.

(** The same data, and nothing wrong kept. *)
Definition agree (s s' : St) : Prop := clear s = clear s' ∧ kept_ok (sb_caches (ev_rest s)) ∧ kept_ok (sb_caches (ev_rest s')).

Definition agreeing {A} (m : Ev X A) : Prop := ∀ s s', agree s s' → let '(r, t) := m s in let '(r', t') := m s' in r = r' ∧ agree t t'.

Lemma agreeing_ret {A} (x : A) : agreeing (mret x).
Proof. done. Qed.
Lemma agreeing_throw {A} e : agreeing (throw (A := A) e).
Proof. done. Qed.
Lemma agreeing_bind {A B} (m : Ev X A) (f : A → Ev X B) : agreeing m → (∀ x, agreeing (f x)) → agreeing (m ≫= f).
Proof.
  intros Hm Hf s s' H. cbv [mbind Ev_bind]. specialize (Hm s s' H). destruct (m s) as [r t], (m s') as [r' t']. destruct Hm as [<- Ht].
  destruct r as [x|e]; [|done]. by apply Hf.
Qed.
Lemma agreeing_yields {A} (m : Ev X A) x : yields m x → agreeing m.
Proof. intros H s s' Ha. by rewrite !H. Qed.

Lemma clear_modify f s : clear (snd (ev_modify (with_caches f) s)) = clear s.
Proof. done. Qed.
Lemma caches_modify f s : sb_caches (ev_rest (snd (ev_modify (with_caches f) s) : St)) = f (sb_caches (ev_rest s)).
Proof. done. Qed.

Lemma agreeing_keep f : (∀ c, kept_ok c → kept_ok (f c)) → agreeing (ev_modify (with_caches f)).
Proof. intros Hf s s' (Hc & H & H'). split; [done|]. split; [exact Hc|]. split; apply Hf; done. Qed.

Lemma run_agreeing k row correlated : correlated = refers_outside (ast k) → agreeing (run_subquery substitute_outer execute (ast k) row correlated).
Proof.
  intros _ s s' (Hc & H & H'). unfold run_subquery. set (stmt := if correlated then _ else _).
  replace (snd (ev_modify (with_caches (λ _, no_caches 0 0)) s')) with (snd (ev_modify (with_caches (λ _, no_caches 0 0)) s)) by exact Hc.
  destruct (execute stmt _) as [r t]. split; [done|]. split; [done|]. by split.
Qed.

(** What is kept by the function [keep] is what a run finds out. *)
Lemma cached_agreeing {A} correlated (find : Caches → option A) keep (fresh : Ev X A) r :
  agreeing fresh →
  (correlated = false → (∀ a c, r = Ok a → kept_ok c → kept_ok (keep a c)) ∧ (∀ c v, kept_ok c → find c = Some v → r = Ok v) ∧
     (∀ s, ∃ t, fresh s = (r, t) ∧ clear t = clear s ∧ sb_caches (ev_rest t) = sb_caches (ev_rest s))) →
  agreeing (cached correlated find keep fresh).
Proof.
  intros Hf Hk s s' Ha. unfold cached, ev_gets. cbv [mbind Ev_bind]. destruct correlated.
  { pose proof (agreeing_bind fresh (λ a, _ ← mret (M := Ev X) tt; mret a) Hf (λ a s s' H, conj eq_refl H) s s' Ha) as H. exact H. }
  destruct (Hk eq_refl) as (Hkeep & Hfind & Hfresh). destruct Ha as (Hc & H & H').
  assert (Hone : ∀ u, kept_ok (sb_caches (ev_rest u)) → ∃ t, (match find (sb_caches (ev_rest u)) with
      | Some a => mret a | None => a ← fresh; _ ← ev_modify (with_caches (keep a)); mret a end) u = (r, t) ∧ clear t = clear u ∧ kept_ok (sb_caches (ev_rest t))).
  { intros u Hu. destruct (find (sb_caches (ev_rest u))) as [v|] eqn:E.
    - exists u. split_and!; [|done|done]. by rewrite (Hfind _ _ Hu E).
    - destruct (Hfresh u) as (t & Et & Ct & Kt). cbv [mbind Ev_bind]. rewrite Et. destruct r as [a|e].
      + eexists. split_and!; [done|exact Ct|]. change (kept_ok (keep a (sb_caches (ev_rest t)))). apply Hkeep; [done|]. by rewrite Kt.
      + exists t. split_and!; [done|done|by rewrite Kt]. }
  destruct (Hone s H) as (t & Et & Ct & Kt), (Hone s' H') as (t' & Et' & Ct' & Kt'). cbv [mbind Ev_bind] in *.
  rewrite Et, Et'. split; [done|]. split; [congruence|done].
Qed.

Lemma run_uncorrelated k row s : refers_outside (ast k) = false →
  ∃ t, run_subquery substitute_outer execute (ast k) row false s = (Ok (answer k), t) ∧ clear t = clear s ∧ sb_caches (ev_rest t) = sb_caches (ev_rest s).
Proof.
  intros Hk. unfold run_subquery. destruct (Hrun k (snd (ev_modify (with_caches (λ _, no_caches 0 0)) s)) Hk) as (t & -> & Ct).
  eexists. split_and!; [done| |done]. rewrite clear_modify, Ct. apply clear_modify.
Qed.

Lemma run_fresh {A} k row (f : list Z → result A) s : refers_outside (ast k) = false →
  ∃ t, (out ← run_subquery substitute_outer execute (ast k) row false; lift (f out)) s = (f (answer k), t) ∧ clear t = clear s ∧
    sb_caches (ev_rest t) = sb_caches (ev_rest s).
Proof. intros Hk. destruct (run_uncorrelated k row s Hk) as (t & E & H). exists t. split; [|exact H]. cbv [mbind Ev_bind]. by rewrite E. Qed.

Ltac kept_update k H := intros k'; specialize (H k'); destruct (decide (k = k')) as [<-|Hne];
  [destruct H as (H1 & H2 & H3 & H4); split_and!; try done; intros v; cbn; rewrite lookup_insert_eq; intros [= <-]
  |cbn; by rewrite lookup_insert_ne].

Lemma keep_exists_ok k c : kept_ok c → kept_ok (keep_exists k (has_rows (answer k)) c).
Proof. intros H. by kept_update k H. Qed.
Lemma keep_correlated_ok k c : kept_ok c → kept_ok (keep_correlated k (refers_outside (ast k)) c).
Proof. intros H. by kept_update k H. Qed.
Lemma keep_in_ok k c : kept_ok c → kept_ok (keep_in k (list_to_set (in_key kRuns kPool printf_17g (class_at k) <$> extract_values_from_output (answer k))) c).
Proof. intros H. by kept_update k H. Qed.
Lemma keep_scalar_ok k vs c :
  match width_at k with Some w => extract_cells_from_output (answer k) w = Some vs | None => vs = extract_values_from_output (answer k) end →
  kept_ok c → kept_ok (keep_scalar k vs c).
Proof. intros Hv H. by kept_update k H. Qed.

Lemma exists_agreeing k row : agreeing (exists_subquery substitute_outer execute k (ast k) row (refers_outside (ast k))).
Proof.
  apply cached_agreeing with (r := Ok (has_rows (answer k))).
  { apply agreeing_bind; [by apply run_agreeing|]. intros out. apply agreeing_ret. }
  intros Hk. split_and!; [intros a c [= <-]; apply keep_exists_ok|intros c v H E; destruct (H k) as (_ & _ & H3 & _); by rewrite (H3 _ E)|].
  intros s. rewrite Hk. apply (run_fresh k row (λ out, Ok (has_rows out)) s Hk).
Qed.

Lemma values_agreeing k row : width_at k = None → agreeing (subquery_values substitute_outer execute k (ast k) row (refers_outside (ast k))).
Proof.
  intros Hw. apply cached_agreeing with (r := Ok (extract_values_from_output (answer k))).
  { apply agreeing_bind; [by apply run_agreeing|]. intros out. apply agreeing_ret. }
  intros Hk. split_and!; [intros a c [= <-]; apply keep_scalar_ok; by rewrite Hw|intros c v H E; destruct (H k) as (_ & H2 & _); specialize (H2 _ E); rewrite Hw in H2; by subst|].
  intros s. rewrite Hk. apply (run_fresh k row (λ out, Ok (extract_values_from_output out)) s Hk).
Qed.

Definition cells_result (w : nat) (out : list Z) : result (list (list Z)) :=
  match extract_cells_from_output out w with
  | Some cells => Ok cells
  | None => Err (str "Operand should contain " ++ to_string (Z.of_nat w) ++ str " column(s)")
  end.

Lemma cells_agreeing k w row : width_at k = Some w → agreeing (subquery_cells substitute_outer execute w k (ast k) row (refers_outside (ast k))).
Proof.
  intros Hw. apply cached_agreeing with (r := cells_result w (answer k)).
  { apply agreeing_bind; [by apply run_agreeing|]. intros out. destruct (extract_cells_from_output out w); [apply agreeing_ret|apply agreeing_throw]. }
  intros Hk. split_and!.
  - unfold cells_result. intros a c Ha. apply keep_scalar_ok. rewrite Hw. destruct (extract_cells_from_output (answer k) w); by simplify_eq.
  - intros c v H E. destruct (H k) as (_ & H2 & _). specialize (H2 _ E). rewrite Hw in H2. unfold cells_result. by rewrite H2.
  - intros s. rewrite Hk. destruct (run_fresh k row (cells_result w) s Hk) as (t & E & H). exists t. split; [|exact H]. rewrite <- E.
    cbv [mbind Ev_bind]. destruct (run_subquery _ _ _ _ _ s) as [[out|e] u]; [|done]. unfold cells_result. by destruct (extract_cells_from_output out w).
Qed.

Lemma keys_agreeing k row : refers_outside (ast k) = false →
  agreeing (subquery_keys kRuns kPool printf_17g substitute_outer execute (class_at k) k (ast k) row).
Proof.
  intros Hk. apply cached_agreeing with (r := Ok (list_to_set (in_key kRuns kPool printf_17g (class_at k) <$> extract_values_from_output (answer k)))).
  { apply agreeing_bind; [by apply run_agreeing|]. intros out. apply agreeing_ret. }
  intros _. split_and!; [intros a c [= <-]; apply keep_in_ok|intros c v H E; destruct (H k) as (H1 & _); by rewrite (H1 _ E)|].
  intros s. apply (run_fresh k row (λ out, Ok (list_to_set (in_key kRuns kPool printf_17g (class_at k) <$> extract_values_from_output out))) s Hk).
Qed.

Lemma correlated_agreeing k : ∀ s s', agree s s' →
  ∃ t t', subquery_is_correlated refers_outside k (ast k) s = (Ok (refers_outside (ast k)), t) ∧
    subquery_is_correlated refers_outside k (ast k) s' = (Ok (refers_outside (ast k)), t') ∧ agree t t'.
Proof.
  assert (Hone : ∀ u, kept_ok (sb_caches (ev_rest u)) → ∃ t, subquery_is_correlated refers_outside k (ast k) u = (Ok (refers_outside (ast k)), t) ∧
    clear t = clear u ∧ kept_ok (sb_caches (ev_rest t))).
  { intros u Hu. unfold subquery_is_correlated, ev_gets. cbv [mbind Ev_bind]. destruct (correlated_cache _ !! k) as [b|] eqn:E.
    - exists u. split_and!; [|done|done]. destruct (Hu k) as (_ & _ & _ & H4). by rewrite (H4 _ E).
    - eexists. split_and!; [done|done|]. apply (keep_correlated_ok k _ Hu). }
  intros s s' (Hc & H & H'). destruct (Hone s H) as (t & Et & Ct & Kt), (Hone s' H') as (t' & Et' & Ct' & Kt').
  exists t, t'. split_and!; [done|done|]. split; [congruence|done].
Qed.

(** The width of a row of values on the left of IN. *)
Definition left_width (lhs : ArithExpr) (op : Operator) : option nat :=
  match lhs with Func name args => if is_name ["ROW"%string] name && is_in_op op then Some (length args) else None | _ => None end.

(** The values on the left are the same whenever they are worked out. *)
Definition steady (row : Row) (lhs : ArithExpr) : Prop :=
  (∃ v, yields (eval_exact row lhs) v) ∧ match lhs with Func _ args => Forall (λ a, ∃ v, yields (eval_exact row a) v) args | _ => True end.

Lemma agreeing_all {A} (l : list (Ev X A)) : Forall agreeing l → agreeing (ev_all l).
Proof.
  induction 1 as [|m l Hm _ IH]; [apply agreeing_ret|]. apply agreeing_bind; [done|]. intros x. apply agreeing_bind; [done|]. intros xs. apply agreeing_ret.
Qed.

Lemma agreeing_if {A} (b : bool) (m m' : Ev X A) : agreeing m → agreeing m' → agreeing (if b then m else m').
Proof. by destruct b. Qed.

Lemma compare_values_agreeing op q lc rc val vals : agreeing (compare_values kRuns kPool op q lc rc val vals).
Proof. unfold compare_values. destruct q; [destruct vals as [|v [|w vals]]|..]; try apply agreeing_ret. apply agreeing_throw. Qed.

Lemma sync_agree s : caches_ok s → ∃ t t', sync_subquery_caches statement s = (Ok tt, t) ∧ sync_subquery_caches statement (clear s) = (Ok tt, t') ∧ agree t t'.
Proof.
  assert (Hone : ∀ u, caches_ok u → ∃ t, sync_subquery_caches statement u = (Ok tt, t) ∧ clear t = clear u ∧ kept_ok (sb_caches (ev_rest t))).
  { intros u Hu. eexists. split; [done|]. cbn. destruct (bool_decide (statement = _)) eqn:E1; cbn [andb]; [|split; [done|apply no_caches_ok]].
    destruct (bool_decide (sb_writes _ = _)) eqn:E2; [|split; [done|apply no_caches_ok]].
    apply bool_decide_eq_true_1 in E1, E2. split; [by destruct u as [? ? ? []]|]. by apply Hu. }
  intros Hs. assert (Hc : caches_ok (clear s)) by (intros _ _; apply no_caches_ok).
  destruct (Hone s Hs) as (t & Et & Ct & Kt), (Hone (clear s) Hc) as (t' & Et' & Ct' & Kt'). exists t, t'. split_and!; [done|done|].
  split; [|done]. rewrite Ct, Ct'. done.
Qed.

Lemma rest_agreeing k row lhs op lc rc q : class_or lc (class_of_expr lhs) = class_at k → (is_exists_op op = false → width_at k = left_width lhs op) → steady row lhs →
  agreeing
    (let correlated := refers_outside (ast k) in
     if is_exists_op op then
       found ← exists_subquery substitute_outer execute k (ast k) row correlated;
       mret (tri (if bool_decide (op = OpExists) then found else negb found))
     else
       match (match lhs with Func name args => if is_name ["ROW"%string] name && is_in_op op then Some args else None | _ => None end) with
       | Some args =>
           mine ← ev_all ((λ a, v ← eval_exact row a; mret (class_of_expr a, v.1)) <$> args);
           cells ← subquery_cells substitute_outer execute (length args) k (ast k) row correlated;
           let within := row_in kRuns kPool (S (length cells)) (length args) mine cells TriFalse in
           mret (if bool_decide (op = OpIn) then within else tri_not within)
       | None =>
           v ← eval_exact row lhs;
           let val := v.1 in
           let left_null := null_text val in
           let quantified := match q with QuantNone => false | _ => true end in
           if left_null && negb (is_in_op op) && negb quantified then mret TriUnknown
           else
             let in_class := class_or lc (class_of_expr lhs) in
             if is_in_op op && negb correlated then
               keys ← subquery_keys kRuns kPool printf_17g substitute_outer execute in_class k (ast k) row;
               mret (membership op left_null (bool_decide (in_key kRuns kPool printf_17g in_class val ∈ keys)) (bool_decide (EXECUTOR_NULL_VALUE ∈ keys)) (bool_decide (keys = ∅)))
             else
               vals ← subquery_values substitute_outer execute k (ast k) row correlated;
               if is_in_op op then
                 mret (membership op left_null (existsb (λ v, negb (null_text v) && in_equal kRuns kPool in_class v val) vals) (existsb null_text vals) (bool_decide (vals = [])))
               else if orders op then compare_values kRuns kPool op q in_class rc val vals
               else mret TriFalse
       end).
Proof.
  intros Hcls Hw [[v Hv] Hargs]. cbv zeta. destruct (is_exists_op op); [apply agreeing_bind; [apply exists_agreeing|intros; apply agreeing_ret]|].
  specialize (Hw eq_refl). rewrite Hcls.
  assert (Hplain : left_width lhs op = None → agreeing
    (v ← eval_exact row lhs;
     if null_text v.1 && negb (is_in_op op) && negb (match q with QuantNone => false | _ => true end) then mret TriUnknown
     else if is_in_op op && negb (refers_outside (ast k)) then
       keys ← subquery_keys kRuns kPool printf_17g substitute_outer execute (class_at k) k (ast k) row;
       mret (membership op (null_text v.1) (bool_decide (in_key kRuns kPool printf_17g (class_at k) v.1 ∈ keys)) (bool_decide (EXECUTOR_NULL_VALUE ∈ keys)) (bool_decide (keys = ∅)))
     else
       vals ← subquery_values substitute_outer execute k (ast k) row (refers_outside (ast k));
       if is_in_op op then
         mret (membership op (null_text v.1) (existsb (λ w, negb (null_text w) && in_equal kRuns kPool (class_at k) w v.1) vals) (existsb null_text vals) (bool_decide (vals = [])))
       else if orders op then compare_values kRuns kPool op q (class_at k) rc v.1 vals
       else mret TriFalse)).
  { intros Hn. apply agreeing_bind; [by eapply agreeing_yields|]. intros w. apply agreeing_if; [apply agreeing_ret|]. destruct (is_in_op op && negb _) eqn:E.
    - apply andb_true_iff in E as [_ Hc%negb_true_iff]. apply agreeing_bind; [by apply keys_agreeing|]. intros keys. apply agreeing_ret.
    - apply agreeing_bind; [apply values_agreeing; by rewrite Hw|]. intros vals. repeat (apply agreeing_if; [apply agreeing_ret || apply compare_values_agreeing|]). apply agreeing_ret. }
  unfold left_width in *. destruct lhs; try (by apply Hplain). destruct (is_name ["ROW"%string] name && is_in_op op); [|by apply Hplain].
  apply agreeing_bind.
  { apply agreeing_all, Forall_fmap. eapply Forall_impl; [exact Hargs|]. intros a [w Ha]. cbn. apply agreeing_bind; [by eapply agreeing_yields|]. intros x. apply agreeing_ret. }
  intros mine. apply agreeing_bind; [by apply cells_agreeing|]. intros cells. apply agreeing_ret.
Qed.

End transparent.

(** ** IN and ANY *)

Section quantified.
Context {Y : Type}.
#[local] Abbreviation X := (SubState Y).
#[local] Abbreviation St := (EvalState X).
Context (kRuns : list Run) (kPool : list Z) (printf_17g : spec_float → list Z).
Context (refers_outside : Statement → bool) (substitute_outer : Statement → Row → Statement).
Context (execute : Statement → Ev X (list Z)).
Context (statement : N).
Context (eval_exact : Row → ArithExpr → Ev X (list Z * bool)) (eval_single : Row → Condition → Ev X Tri).
Context (Hok : tables_ok kRuns kPool).

Definition nothing_kept (s : St) : Prop := in_cache (sb_caches (ev_rest s)) = ∅ ∧ scalar_cache (sb_caches (ev_rest s)) = ∅.

Definition finds {A} (m : Ev X A) (x : A) : Prop := ∀ s, nothing_kept s → ∃ t, m s = (Ok x, t) ∧ nothing_kept t.

Lemma finds_bind {A B} (m : Ev X A) (f : A → Ev X B) x (P : result B → Prop) : finds m x → (∀ s, nothing_kept s → P (fst (f x s))) → ∀ s, nothing_kept s → P (fst ((m ≫= f) s)).
Proof. intros Hm Hf s Hs. cbv [mbind Ev_bind]. destruct (Hm s Hs) as (t & -> & Ht). by apply Hf. Qed.

Lemma ev_bind_ok {A B} (m : Ev X A) (f : A → Ev X B) x s t : m s = (Ok x, t) → (m ≫= f) s = f x t.
Proof. intros E. cbv [mbind Ev_bind]. by rewrite E. Qed.

Lemma finds_yields {A} (m : Ev X A) x : yields m x → finds m x.
Proof. intros H s Hs. exists s. by rewrite H. Qed.

Lemma finds_sync : finds (sync_subquery_caches statement) tt.
Proof. intros s Hs. eexists. split; [done|]. unfold nothing_kept. cbn. by destruct (_ && _). Qed.

Lemma finds_correlated k sub s : nothing_kept s → ∃ (b : bool) t, subquery_is_correlated refers_outside k sub s = (Ok b, t) ∧ nothing_kept t ∧
  b = default (refers_outside sub) (correlated_cache (sb_caches (ev_rest s)) !! k).
Proof.
  intros Hs. unfold subquery_is_correlated, ev_gets. cbv [mbind Ev_bind]. destruct (correlated_cache _ !! k) as [b|] eqn:E.
  - by exists b, s.
  - eexists _, _. split_and!; [done| |done]. exact Hs.
Qed.

Lemma correlated_bind {B} k sub (f : bool → Ev X B) (P : result B → Prop) :
  (∀ c s, nothing_kept s → P (fst (f c s))) → ∀ s, nothing_kept s → P (fst ((subquery_is_correlated refers_outside k sub ≫= f) s)).
Proof. intros Hf s Hs. cbv [mbind Ev_bind]. destruct (finds_correlated k sub s Hs) as (c & t & -> & Ht & _). by apply Hf. Qed.

Lemma cached_fresh {A} correlated (find : Caches → option A) keep (fresh : Ev X A) a s : nothing_kept s → (∀ c, in_cache c = ∅ → scalar_cache c = ∅ → find c = None) →
  finds fresh a → ∃ t, cached correlated find keep fresh s = (Ok a, t).
Proof.
  intros Hs Hf Ha. unfold cached, ev_gets. cbv [mbind Ev_bind]. destruct (Ha s Hs) as (t & E & _).
  destruct correlated; [|rewrite (Hf _ (proj1 Hs) (proj2 Hs))]; rewrite E; by eexists.
Qed.

Lemma finds_run sub row (correlated : bool) out : (∀ u, ∃ t, execute (if correlated then substitute_outer sub row else sub) u = (Ok out, t)) →
  finds (run_subquery substitute_outer execute sub row correlated) out.
Proof.
  intros Hrun s Hs. unfold run_subquery. destruct (Hrun (snd (ev_modify (with_caches (λ _, no_caches 0 0)) s))) as (t & ->). eexists. split; [done|]. exact Hs.
Qed.

Lemma finds_out {A} (m : Ev X (list Z)) (f : list Z → A) out : finds m out → finds (o ← m; mret (f o)) (f out).
Proof. intros H s Hs. cbv [mbind Ev_bind]. destruct (H s Hs) as (t & -> & Ht). by eexists. Qed.

(** [x IN (SELECT ...)] is [x = ANY (SELECT ...)] and [x NOT IN (SELECT ...)] is [x <> ALL (SELECT ...)] for texts, whether the subquery is looked up by the keys of its values or
    searched for the row at hand: with NULLs on either side and with no row at all. *)
Theorem in_is_any k row lhs lc q sub val a out negated s :
  nothing_kept s → class_or lc (class_of_expr lhs) = ClassText → left_width lhs OpIn = None → yields (eval_exact row lhs) (val, a) →
  (∀ c : bool, ∀ u, ∃ t, execute (if c then substitute_outer sub row else sub) u = (Ok out, t)) →
  let eval op q := eval_single_with_subquery kRuns kPool printf_17g refers_outside substitute_outer execute statement eval_exact eval_single k row
    (mkCondition lhs op (ValueSubquery sub) lc ClassText q) in
  fst (eval (if negated : bool then OpNotIn else OpIn) q s) = fst (eval (if negated then OpNe else OpEq) (if negated then QuantAll else QuantAny) s).
Proof.
  intros Hs Hcls Hw Hv Hrun. cbv zeta. set (vals := extract_values_from_output out).
  set (answer := match vals with [] => tri negated | _ => quantified_loop (negb negated)
    (λ v, if null_text val || null_text v then TriUnknown else op_holds (if negated then OpNe else OpEq) (compare_classed kRuns kPool ClassText ClassText val v)) false vals end).
  assert (Hfinds : ∀ correlated, finds (o ← run_subquery substitute_outer execute sub row correlated; mret (extract_values_from_output o)) vals).
  { intros c. apply (finds_out _ extract_values_from_output out), finds_run, Hrun. }
  assert (Hvals : ∀ k c t, nothing_kept t → ∃ u, subquery_values substitute_outer execute k sub row c t = (Ok vals, u)).
  { intros k' c t Ht. apply cached_fresh; [exact Ht|intros c' _ E'; cbn; by rewrite E', lookup_empty|apply Hfinds]. }
  assert (Hm : membership (if negated then OpNotIn else OpIn) (null_text val) (values_contain kRuns kPool ClassText vals val) (existsb null_text vals) (bool_decide (vals = [])) = answer).
  { apply (membership_quantified kRuns kPool ClassText ClassText val vals negated). intros v _ _. apply text_in_equal. }
  unfold eval_single_with_subquery. rewrite Hcls. transitivity (Ok answer); [|symmetry].
  - apply (finds_bind _ _ tt (λ r, r = Ok answer) finds_sync); [|exact Hs]. apply (correlated_bind k sub _ (λ r, r = Ok answer)). intros c t Ht.
    replace (is_exists_op (if negated then OpNotIn else OpIn)) with false by by destruct negated.
    replace (is_in_op (if negated then OpNotIn else OpIn)) with true by by destruct negated.
    assert (E : (match lhs with Func name args => if is_name ["ROW"%string] name && true then Some args else None | _ => None end) = None).
    { unfold left_width in Hw. change (is_in_op OpIn) with true in Hw. destruct lhs; try done. by destruct (is_name _ _ && true). }
    rewrite E. apply (finds_bind _ _ (val, a) (λ r, r = Ok answer)); [by apply finds_yields| |exact Ht]. clear t Ht. intros t Ht. cbn [fst negb andb]. rewrite andb_false_r. cbn [andb].
    destruct c; cbn [negb].
    + destruct (Hvals k true t Ht) as (u & Eu). rewrite (ev_bind_ok _ _ _ _ _ Eu). cbn [fst mret Ev_ret]. f_equal. exact Hm.
    + set (keys := list_to_set (in_key kRuns kPool printf_17g ClassText <$> vals) : gset (list Z)).
      assert (Hk : finds (o ← run_subquery substitute_outer execute sub row false; mret (list_to_set (in_key kRuns kPool printf_17g ClassText <$> extract_values_from_output o) : gset (list Z))) keys)
        by (apply (finds_out _ (λ o, list_to_set (in_key kRuns kPool printf_17g ClassText <$> extract_values_from_output o) : gset (list Z)) out), finds_run, (Hrun false)).
      assert (Eu : ∃ u, subquery_keys kRuns kPool printf_17g substitute_outer execute ClassText k sub row t = (Ok keys, u)).
      { apply cached_fresh; [exact Ht|intros c' E' _; cbn; by rewrite E', lookup_empty|exact Hk]. }
      destruct Eu as (u & Eu). rewrite (ev_bind_ok _ _ _ _ _ Eu). cbn [fst mret Ev_ret]. f_equal. rewrite <- Hm. unfold keys. rewrite (null_keys _ _ _ Hok) by done. rewrite empty_keys by done.
      unfold membership. destruct (null_text val) eqn:Ev; [done|]. by rewrite (text_keys _ _ _ Hok).
  - apply (finds_bind _ _ tt (λ r, r = Ok answer) finds_sync); [|exact Hs]. apply (correlated_bind k sub _ (λ r, r = Ok answer)). intros c t Ht.
    replace (is_exists_op (if negated then OpNe else OpEq)) with false by by destruct negated.
    replace (is_in_op (if negated then OpNe else OpEq)) with false by by destruct negated.
    assert (E : (match lhs with Func name args => if is_name ["ROW"%string] name && false then Some args else None | _ => None end) = None).
    { destruct lhs; try done. by rewrite andb_false_r. }
    rewrite E. apply (finds_bind _ _ (val, a) (λ r, r = Ok answer)); [by apply finds_yields| |exact Ht]. clear t Ht. intros t Ht. cbn [fst negb andb].
    replace (match (if negated then QuantAll else QuantAny) with QuantNone => false | _ => true end) with true by by destruct negated.
    cbn [negb]. rewrite andb_false_r. destruct (Hvals k c t Ht) as (u & Eu). rewrite (ev_bind_ok _ _ _ _ _ Eu). replace (orders (if negated then OpNe else OpEq)) with true by by destruct negated.
    unfold answer, compare_values. by destruct negated.
Qed.
End quantified.

(** ** The evaluator and its subqueries *)

Section statement.
Context {Y : Type}.
#[local] Abbreviation X := (SubState Y).
Context (kRuns : list Run) (kPool : list Z) (printf_17g : spec_float → list Z).
Context (iter : Row → list (list Z * list Z)).
Context (to_chars_scientific : bool → spec_float → list Z) (to_chars : spec_float → list Z).
Context (regex_search : list Z → list Z → option bool).
Context (is_builtin_function : list Z → bool).
Context (call_builtin_with_values : list Z → list (list Z) → list (list Z) → list Z → Ev X (list Z)).
Context (apply_scalar_func : list Z → list (list Z) → Row → Ev X (list Z)).
Context (tick : Ev X unit) (strict : bool).
Context (refers_outside : Statement → bool) (substitute_outer : Statement → Row → Statement).
Context (execute : Statement → Ev X (list Z)).
Context (statement : N).
(** The addresses of a condition's subquery and of a subquery in an expression *)
Context (address : Condition → N) (node_address : Statement → N).

(** The running statement, for expressions whose subqueries lie at most [depth] deep in one another's left sides. *)
Fixpoint statement_context (depth : nat) : option (StatementContext X) :=
  match depth with
  | O => None
  | S depth =>
      let context := statement_context depth in
      let exact := eval_arith_exact kRuns kPool iter to_chars_scientific to_chars regex_search is_builtin_function call_builtin_with_values apply_scalar_func tick strict context in
      let single := eval_single3 kRuns kPool iter to_chars_scientific to_chars regex_search is_builtin_function call_builtin_with_values apply_scalar_func tick strict context in
      Some (mkContext _ (λ q row, scalar_subquery_value refers_outside substitute_outer execute statement (node_address q) q row)
        (λ row c, eval_single_with_subquery kRuns kPool printf_17g refers_outside substitute_outer execute statement exact single (address c) row c))
  end.

(** The condition of WHERE for a row. *)
Definition where_condition (depth : nat) (row : Row) (condition : option CondExpr) : Ev X bool :=
  let context := statement_context depth in
  matches_condition_with_subquery kRuns kPool printf_17g refers_outside substitute_outer execute statement
    (eval_arith_exact kRuns kPool iter to_chars_scientific to_chars regex_search is_builtin_function call_builtin_with_values apply_scalar_func tick strict context)
    (eval_single3 kRuns kPool iter to_chars_scientific to_chars regex_search is_builtin_function call_builtin_with_values apply_scalar_func tick strict context)
    address row condition.
End statement.

(** ** Concrete inputs *)

Definition answer_of (vals : list string) : list Z := format_set_result [str "v"] ((λ v, {[ str "v" := str v ]}) <$> vals).

Definition demo_exact (row : Row) (e : ArithExpr) : Ev (SubState unit) (list Z * bool) :=
  eval_arith_exact ascii_runs ascii_pool map_to_list exact_scientific (λ v, format_double exact_scientific v false) (λ _ _, None) (λ _, false) (λ _ _ _ _, throw [])
    (λ _ _ _, throw []) (mret tt) false None row e.
Definition demo_single (_ : Row) (_ : Condition) : Ev (SubState unit) Tri := mret TriFalse.

Definition sub_start : EvalState (SubState unit) := mkEvalState 0 0 [] (mkSub (no_caches 0 0) ∅ 0%N tt).

(** A condition over a subquery that answers with [vals]; [outer]: it names a column of the outer query. *)
Definition demo_subquery (outer : bool) (vals : list string) (lhs : ArithExpr) (op : Operator) (q : Quantifier) (rc : ValueClass) : Ev (SubState unit) Tri :=
  eval_single_with_subquery ascii_runs ascii_pool (λ v, format_double exact_scientific v false) (λ _, outer) (λ s _, s) (λ _, mret (answer_of vals)) 7 demo_exact demo_single
    1 ∅ (mkCondition lhs op (ValueSubquery ShowSynonyms) ClassUnknown rc q).

Example subquery_demo :
  fst (demo_subquery false ["a"; "NULL"] (Str (str "A")) OpIn QuantNone ClassText sub_start) = Ok TriTrue ∧
  fst (demo_subquery false ["b"; "NULL"] (Str (str "A")) OpNotIn QuantNone ClassText sub_start) = Ok TriUnknown ∧
  fst (demo_subquery true [] (Str (str "NULL")) OpNotIn QuantNone ClassText sub_start) = Ok TriTrue ∧
  fst (demo_subquery true ["3"; "7"] (Num (str "5")) OpGt QuantAll ClassNumber sub_start) = Ok TriFalse ∧
  fst (demo_subquery true ["3"; "7"] (Num (str "5")) OpGt QuantNone ClassNumber sub_start) = Err (str "Subquery returns more than 1 row") ∧
  fst (demo_subquery false ["3"; "7"] (Func (str "ROW") [Num (str "3")]) OpIn QuantNone ClassNumber sub_start) = Ok TriTrue.
Proof. vm_compute. done. Qed.

(** The state after a row: the keys of the answer are kept at address 1 for statement 7. *)
Definition kept_demo : EvalState (SubState unit) :=
  mkEvalState 0 0 [] (mkSub (mkCaches {[1%N := {[str "a"; str "b"]}]} ∅ ∅ {[1%N := false]} 7 0) ∅ 0%N tt).


Lemma in_is_any_witness :
  let out := answer_of ["a"; "NULL"]%string in
  fst (demo_subquery false ["a"; "NULL"] (Str (str "B")) OpNotIn QuantNone ClassText sub_start) =
  fst (demo_subquery false ["a"; "NULL"] (Str (str "B")) OpNe QuantAll ClassText sub_start).
Proof.
  refine (in_is_any ascii_runs ascii_pool (λ v, format_double exact_scientific v false) (λ _, false) (λ s _, s) (λ _, mret (answer_of ["a"; "NULL"]%string)) 7
    demo_exact demo_single ascii_tables 1%N ∅ (Str (str "B")) ClassUnknown QuantNone ShowSynonyms (str "B") false (answer_of ["a"; "NULL"]%string) true sub_start _ eq_refl eq_refl _ _).
  - done.
  - intros s. vm_compute. done.
  - intros c u. exists u. done.
Defined.

(** A number is not in the texts it is equal to, unless the subquery is correlated. *)
Example number_in_texts :
  fst (demo_subquery false ["12abc"] (Num (str "12")) OpIn QuantNone ClassText sub_start) = Ok TriFalse ∧
  fst (demo_subquery true ["12abc"] (Num (str "12")) OpIn QuantNone ClassText sub_start) = Ok TriTrue ∧
  fst (demo_subquery false ["12abc"] (Num (str "12")) OpEq QuantAny ClassText sub_start) = Ok TriTrue.
Proof. vm_compute. done. Qed.
