(* ===== verification/Coerce.v ===== *)
(** * Values of column types (executor_types.cpp)

    What INSERT and UPDATE make of a text before they store it in a column: the number a numeric column keeps, the calendar value of
    a date or time column, the length of a VARCHAR, or the error. A struct [Decimal] here has the digits of its integer part without
    leading zeros, none for 0. std::to_chars and the JSON check of nlohmann are parameters. *)
From Stdlib Require Import SpecFloat QArith.
From S2P Require Import Prelude Numerals NumericText Lexer Decimals Arith Dates JsonValue Ast Classes.

#[local] Open Scope Z_scope.

(** ** Numbers *)

Definition is_white (c : Z) : bool := (c =? 32) || (c =? 9) || (c =? 10) || (c =? 13).

Fixpoint trim_front (s : list Z) : list Z :=
  match s with
  | c :: t => if is_white c then trim_front t else s
  | [] => []
  end.

Definition trimmed (s : list Z) : list Z := reverse (trim_front (reverse (trim_front s))).

(** The digits of an exponent; [None]: more than 10000. *)
Fixpoint exponent_value (s : list Z) (e : Z) : option (Z * list Z) :=
  match s with
  | c :: t =>
      if is_digit c then
        let e := e * 10 + (c - 48) in
        if 10000 <? e then None else exponent_value t e
      else Some (e, s)
  | [] => Some (e, [])
  end.

Definition read_column_exponent (s : list Z) : option (Z * list Z) :=
  match s with
  | c :: t =>
      if is_exponent_mark c then
        let '(eneg, t) := match t with c :: u => if is_sign c then (c =? c_minus, u) else (false, t) | [] => (false, t) end in
        match t with
        | [] => None
        | _ => '(e, rest) ← exponent_value t 0; Some (if eneg : bool then - e else e, rest)
        end
      else Some (0, s)
  | [] => Some (0, [])
  end.

(** The digits before and after a point [point] places behind the start of [ds]. *)
Definition place_point (ds : list Z) (point : Z) : list Z * list Z :=
  if point <=? 0 then ([], replicate (Z.to_nat (- point)) 48 ++ ds)
  else if (length ds <=? Z.to_nat point)%nat then (ds ++ replicate (Z.to_nat point - length ds) 48, [])
  else (take (Z.to_nat point) ds, drop (Z.to_nat point) ds).

Definition parse_decimal (text : list Z) : option Decimal :=
  let s := trimmed text in
  match s with
  | [] => None
  | c :: t =>
      let '(neg, s) := if is_sign c then (c =? c_minus, t) else (false, s) in
      let '(ip, fp, s) := parse_digits s in
      if bool_decide (ip = []) && bool_decide (fp = []) then None
      else
        '(exponent, rest) ← read_column_exponent s;
        match rest with
        | [] =>
            let point := Z.of_nat (length ip) + exponent in
            if (400 <? point) || (point <? -400) then None
            else let '(integer, fraction) := place_point (ip ++ fp) point in Some (mkDecimal neg (skip_zeros integer) fraction)
        | _ => None
        end
  end.

(** One is added in the last place kept when the first digit dropped is at least 5. *)
Definition round_to_scale (scale : nat) (d : Decimal) : Decimal :=
  if (length (d_fraction d) <=? scale)%nat then d
  else
    let up := 53 <=? d_fraction d !!! scale in
    let kept := take scale (d_fraction d) in
    if up then
      let all := reverse (add_one (reverse (d_integer d ++ kept))) in
      let int_len := (length all - scale)%nat in
      mkDecimal (d_negative d) (skip_zeros (take int_len all)) (drop int_len all)
    else mkDecimal (d_negative d) (d_integer d) kept.

Definition zero_decimal (d : Decimal) : bool := bool_decide (d_integer d = []) && bool_decide (skip_zeros (d_fraction d) = []).

Definition decimal_text (scale : nat) (d : Decimal) : list Z :=
  (if d_negative d && negb (zero_decimal d) then [c_minus] else []) ++
  (if bool_decide (d_integer d = []) then [48] else d_integer d) ++
  (if (0 <? scale)%nat then c_dot :: d_fraction d ++ replicate (scale - Nat.min scale (length (d_fraction d))) 48 else []).

(** ** Errors *)

Definition shown (v : list Z) : list Z := if (64 <? length v)%nat then take 64 v ++ str "..." else v.

Definition at_row (row : Z) : list Z := str " at row " ++ to_string row.

Definition range_error (name : list Z) (row : Z) : list Z := str "Out of range value for column '" ++ name ++ str "'" ++ at_row row.

Definition incorrect (kind : string) (value name : list Z) (row : Z) : list Z :=
  str "Incorrect " ++ str kind ++ str " value: '" ++ shown value ++ str "' for column '" ++ name ++ str "'" ++ at_row row.

(** ** Integers *)

(** 0 or a digit from 1 to 9 followed by digits, with a minus before it or not: less than 10 characters of them. *)
Definition short_canonical (value : list Z) : bool :=
  negb (bool_decide (value = [])) && (length value <? 10)%nat &&
  (bool_decide (value = [48]) ||
   match (match value with c :: t => if c =? c_minus then t else value | [] => [] end) with
   | c :: t => (49 <=? c) && (c <=? 57) && forallb is_digit t
   | [] => false
   end).

(** std::stoll of such a text *)
Definition short_value (value : list Z) : Z :=
  match value with
  | c :: t => if c =? c_minus then - digits_value t else digits_value value
  | [] => 0
  end.

Definition check_integer (name value : list Z) (row lo hi : Z) : result (list Z) :=
  if short_canonical value && (let n := short_value value in if n <? 0 then lo <=? n else n <=? hi) then Ok value
  else
    let lower := lower_case value in
    if bool_decide (lower = str "true") then Ok [49]
    else if bool_decide (lower = str "false") then Ok [48]
    else
      match parse_decimal value with
      | None => Err (incorrect "integer" value name row)
      | Some d =>
          let below_zero := d_negative d && (negb (bool_decide (skip_zeros (d_integer d) = [])) || negb (bool_decide (skip_zeros (d_fraction d) = []))) in
          let d := round_to_scale 0 d in
          if (20 <? length (d_integer d))%nat then Err (range_error name row)
          else if (0 <=? lo) && below_zero then Err (range_error name row)
          else
            match (if bool_decide (d_integer d = []) then Some 0 else from_chars_u64 (d_integer d)) with
            | None => Err (range_error name row)
            | Some magnitude =>
                if d_negative d && negb (magnitude =? 0) then
                  if (0 <=? lo) || (wrap64 (0 - wrap64 lo) <? magnitude) then Err (range_error name row)
                  else Ok (c_minus :: to_string magnitude)
                else if hi <? magnitude then Err (range_error name row)
                else Ok (to_string magnitude)
            end
      end.

(** ** Characters of UTF-8 *)

Definition continuation (c : Z) : bool := Z.land c 0xC0 =? 0x80.

Definition utf8_length (s : list Z) : nat := length (filter (λ c, continuation c = false) s).

(** The bytes of the first [n] characters. *)
Fixpoint char_cut (n : nat) (s : list Z) : nat :=
  match s with
  | [] => 0
  | c :: t =>
      if continuation c then S (char_cut n t)
      else match n with O => 0 | S n => S (char_cut n t) end
  end.

(** ** Dates and times *)

Record DateParts := mkParts {
  dp_y : Z;
  dp_mo : Z;
  dp_d : Z;
  dp_h : Z;
  dp_mi : Z;
  dp_s : Z;
  dp_micro : Z;
  dp_has_time : bool
}.

Definition leap (y : Z) : bool := ((Z.rem y 4 =? 0) && negb (Z.rem y 100 =? 0)) || (Z.rem y 400 =? 0).

Definition days_in (y m : Z) : Z := if (m =? 2) && leap y then 29 else [31; 28; 31; 30; 31; 30; 31; 31; 30; 31; 30; 31] !!! Z.to_nat (m - 1).

(** The millionths of a fraction and what follows it. *)
Definition parse_micro (s : list Z) : Z * list Z :=
  let ds := take_digits s in
  (digits_value (resize 6 48 ds) + (if match ds !! 6%nat with Some c => 53 <=? c | None => false end then 1 else 0), drop (length ds) s).

Definition short_year_of (two_digits : Z) : Z := if two_digits <? 70 then 2000 + two_digits else 1900 + two_digits.

Definition two_at (s : list Z) (at_ : nat) : Z := (s !!! at_ - 48) * 10 + (s !!! S at_ - 48).

(** [run] digits, 6, 8, 12 or 14, with [rest] behind them. *)
Definition compact_date (s : list Z) (run : nat) (rest : list Z) : option (DateParts * list Z) :=
  let long := ((run =? 8) || (run =? 14))%nat in
  let y := if long then two_at s 0 * 100 + two_at s 2 else short_year_of (two_at s 0) in
  let at_ := if long then 4%nat else 2%nat in
  let mo := two_at s at_ in
  let d := two_at s (at_ + 2) in
  if (12 <=? run)%nat then
    let '(micro, rest) := match rest with c :: t => if c =? c_dot then parse_micro t else (0, rest) | [] => (0, []) end in
    match rest with
    | [] => Some (mkParts y mo d (two_at s (at_ + 4)) (two_at s (at_ + 6)) (two_at s (at_ + 8)) micro true, [])
    | _ => None
    end
  else Some (mkParts y mo d 0 0 0 0 false, rest).

Definition date_separator (s : list Z) : option (list Z) :=
  match s with c :: t => if (c =? c_minus) || (c =? 47) || (c =? c_dot) then Some t else None | [] => None end.

Definition separated_date (s : list Z) : option (DateParts * list Z) :=
  let ds := take_digits (take 4 s) in
  let year := digits_value ds in
  '(y, u) ← (if (length ds =? 4)%nat then Some (year, drop 4 s) else if (length ds =? 2)%nat then Some (short_year_of year, drop 2 s) else None);
  u ← date_separator u;
  '(mo, u) ← digits_at 1 2 u;
  u ← date_separator u;
  '(d, u) ← digits_at 1 2 u;
  Some (mkParts y mo d 0 0 0 0 false, u).

(** ' HH:MM[:SS[.f]]' behind a date. *)
Definition clock_behind (p : DateParts) (u : list Z) : option DateParts :=
  match u with
  | [] => Some p
  | c :: t =>
      if dp_has_time p then Some p
      else if negb ((c =? 32) || (c =? 84)) then None
      else
        '(h, u) ← digits_at 1 2 t;
        u ← after 58 u;
        '(mi, u) ← digits_at 1 2 u;
        '(se, micro, u) ←
          match after 58 u with
          | None => Some (0, 0, u)
          | Some u =>
              '(se, u) ← digits_at 1 2 u;
              Some match after c_dot u with Some u => let '(micro, u) := parse_micro u in (se, micro, u) | None => (se, 0, u) end
          end;
        match u with [] => Some (mkParts (dp_y p) (dp_mo p) (dp_d p) h mi se micro true) | _ => None end
  end.

Definition parse_date_text (text : list Z) : option DateParts :=
  let s := trimmed text in
  let run := count_digits s in
  let rest := drop run s in
  let only_digits := (0 <? run)%nat && match rest with c :: _ => (c =? c_dot) || (c =? 32) || (c =? 84) | [] => true end in
  '(p, u) ← (if only_digits && ((run =? 6) || (run =? 8) || (run =? 12) || (run =? 14))%nat then compact_date s run rest else separated_date s);
  p ← clock_behind p u;
  if (dp_y p <? 1) || (dp_mo p <? 1) || (12 <? dp_mo p) || (dp_d p <? 1) || (days_in (dp_y p) (dp_mo p) <? dp_d p) then None
  else if (23 <? dp_h p) || (59 <? dp_mi p) || (59 <? dp_s p) then None
  else Some p.

(** The millionths rounded to [digits] places, and the second the rounding carried. *)
Definition round_micro (micro digits : Z) : Z * Z :=
  let unit := 10 ^ Z.max 0 (6 - digits) in
  let micro := (micro + unit / 2) / unit * unit in
  if micro <? 1000000 then (micro, 0) else (micro - 1000000, 1).

(** One second later; [None]: past the year 9999. *)
Definition next_second (p : DateParts) : option DateParts :=
  let at_ y mo d h mi s := mkParts y mo d h mi s (dp_micro p) (dp_has_time p) in
  if dp_s p + 1 <? 60 then Some (at_ (dp_y p) (dp_mo p) (dp_d p) (dp_h p) (dp_mi p) (dp_s p + 1))
  else if dp_mi p + 1 <? 60 then Some (at_ (dp_y p) (dp_mo p) (dp_d p) (dp_h p) (dp_mi p + 1) 0)
  else if dp_h p + 1 <? 24 then Some (at_ (dp_y p) (dp_mo p) (dp_d p) (dp_h p + 1) 0 0)
  else if dp_d p + 1 <=? days_in (dp_y p) (dp_mo p) then Some (at_ (dp_y p) (dp_mo p) (dp_d p + 1) 0 0 0)
  else if dp_mo p + 1 <=? 12 then Some (at_ (dp_y p) (dp_mo p + 1) 1 0 0 0)
  else if dp_y p + 1 <=? 9999 then Some (at_ (dp_y p + 1) 1 1 0 0 0)
  else None.

Definition micro_text (micro digits : Z) : list Z :=
  if digits <=? 0 then []
  else let all := to_string micro in c_dot :: take (Z.to_nat digits) (replicate (6 - length all) 48 ++ all).

Record TimeParts := mkTimeParts {
  tp_negative : bool;
  tp_hours : Z;
  tp_minutes : Z;
  tp_seconds : Z;
  tp_micro : Z
}.

(** The digits a number starts with; beyond 10^12 the others are left out, so that no [long long] overflows. *)
Definition long_number (s : list Z) : option (Z * list Z) :=
  let ds := take_digits s in
  match ds with
  | [] => None
  | _ => Some (fold_left (λ v c, if v <? 1000000000000 then v * 10 + (c - 48) else v) ds 0, drop (length ds) s)
  end.

Definition time_micro (s : list Z) : Z * list Z := match after c_dot s with Some t => parse_micro t | None => (0, s) end.

Definition parse_time_text (text : list Z) : option TimeParts :=
  let t := trimmed text in
  let '(negative, t) := match t with c :: u => if c =? c_minus then (true, u) else (false, t) | [] => (false, []) end in
  '(first, t) ← long_number t;
  '(days, with_days, first, t) ←
    match after 32 t with
    | Some u => '(hours, u) ← long_number u; Some (first, true, hours, u)
    | None => Some (0, false, first, t)
    end;
  '(r, t) ←
    match after 58 t with
    | Some u =>
        '(minutes, u) ← long_number u;
        '(seconds, micro, u) ←
          match after 58 u with
          | Some u => '(seconds, u) ← long_number u; let '(micro, u) := time_micro u in Some (seconds, micro, u)
          | None => Some (0, 0, u)
          end;
        Some (mkTimeParts negative (days * 24 + first) (Z.min minutes 99) (Z.min seconds 99) micro, u)
    | None =>
        if with_days : bool then if negative then None else Some (mkTimeParts negative (days * 24 + first) 0 0 0, t)
        else
          let '(micro, t) := time_micro t in
          Some (mkTimeParts negative (Z.quot first 10000) (Z.rem (Z.quot first 100) 100) (Z.rem first 100) micro, t)
    end;
  match t with
  | [] => if (59 <? tp_minutes r) || (59 <? tp_seconds r) then None else Some r
  | _ => None
  end.

Definition two (n : Z) : list Z := (if n <? 10 then [48] else []) ++ to_string n.

Definition year_text (y : Z) : list Z := let t := to_string y in replicate (4 - Nat.min 4 (length t)) 48 ++ t.

Definition date_text (p : DateParts) : list Z := year_text (dp_y p) ++ c_minus :: two (dp_mo p) ++ c_minus :: two (dp_d p).

Definition clock_text (h : list Z) (mi s : Z) : list Z := h ++ 58 :: two mi ++ 58 :: two s.

Definition datetime_text (p : DateParts) (digits : Z) : list Z :=
  date_text p ++ 32 :: clock_text (two (dp_h p)) (dp_mi p) (dp_s p) ++ micro_text (dp_micro p) digits.

Definition set_micro (p : DateParts) (micro : Z) : DateParts :=
  mkParts (dp_y p) (dp_mo p) (dp_d p) (dp_h p) (dp_mi p) (dp_s p) micro (dp_has_time p).

(** The date read, with its fraction rounded to the places of the column. *)
Definition rounded_datetime (value : list Z) (digits : Z) : option DateParts :=
  p ← parse_date_text value;
  let '(micro, carry) := round_micro (dp_micro p) digits in
  let p := set_micro p micro in
  if carry =? 1 then next_second p else Some p.

Definition rounded_time (value : list Z) (digits : Z) : option TimeParts :=
  p ← parse_time_text value;
  let '(micro, carry) := round_micro (tp_micro p) digits in
  let total := tp_hours p * 3600 + tp_minutes p * 60 + tp_seconds p + carry in
  Some (mkTimeParts (tp_negative p) (Z.quot total 3600) (Z.rem (Z.quot total 60) 60) (Z.rem total 60) micro).

Definition time_text (p : TimeParts) (digits : Z) : list Z :=
  let hours := to_string (tp_hours p) in
  let hours := if (length hours <? 2)%nat then 48 :: hours else hours in
  let zero := (tp_hours p =? 0) && (tp_minutes p =? 0) && (tp_seconds p =? 0) && (tp_micro p =? 0) in
  (if tp_negative p && negb zero then [c_minus] else []) ++ clock_text hours (tp_minutes p) (tp_seconds p) ++ micro_text (tp_micro p) digits.

(** ** The columns *)

(** The least and the greatest number of an integer column. *)
Definition integer_bounds (dt : DataType) (u : bool) : option (Z * Z) :=
  match dt with
  | TInt => Some (if u then (0, 4294967295) else (-2147483648, 2147483647))
  | TBigInt => Some (if u then (0, u64_max) else (int64_min, int64_max))
  | TSmallInt => Some (if u then (0, 65535) else (-32768, 32767))
  | TTinyInt => Some (if u then (0, 255) else (-128, 127))
  | TBoolean => Some (-128, 127)
  | _ => None
  end.

Section columns.
(** std::to_chars and nlohmann::json::accept *)
Context (to_chars : bool → spec_float → list Z) (json_accept : list Z → bool).

Definition coerce_float (name value : list Z) (row : Z) (u single : bool) : result (list Z) :=
  let lower := lower_case value in
  if bool_decide (lower = str "true") then Ok [49]
  else if bool_decide (lower = str "false") then Ok [48]
  else
    match parse_decimal value with
    | None => Err (incorrect "double" value name row)
    | Some d =>
        if u && d_negative d && negb (zero_decimal d) then Err (range_error name row)
        else
          match from_chars_double (strip_plus (trimmed value)) with
          | Some (x, _) => Ok (format_double to_chars x single)
          | None => Err (range_error name row)
          end
    end.

Definition coerce_decimal (name value : list Z) (row : Z) (u : bool) (precision scale : Z) : result (list Z) :=
  match parse_decimal value with
  | None => Err (incorrect "decimal" value name row)
  | Some d =>
      let d := round_to_scale (Z.to_nat scale) d in
      if precision <? Z.of_nat (length (d_integer d)) + scale then Err (range_error name row)
      else if u && d_negative d && negb (zero_decimal d) then Err (range_error name row)
      else Ok (decimal_text (Z.to_nat scale) d)
  end.

Definition coerce_varchar (name value : list Z) (row limit : Z) : result (list Z) :=
  if Z.of_nat (length value) <=? limit then Ok value
  else if Z.of_nat (utf8_length value) <=? limit then Ok value
  else
    let cut := char_cut (Z.to_nat limit) value in
    if forallb (λ c, c =? 32) (drop cut value) then Ok (take cut value)
    else Err (str "Data too long for column '" ++ name ++ str "'" ++ at_row row).

Definition coerce_year (name value : list Z) (row : Z) : result (list Z) :=
  match parse_decimal value with
  | None => Err (incorrect "integer" value name row)
  | Some d =>
      if negb (bool_decide (d_fraction d = [])) || d_negative d then Err (incorrect "integer" value name row)
      else
        let y := if (6 <? length (d_integer d))%nat then 999999 else digits_value (d_integer d) in
        let y := if (1 <=? y) && (y <=? 99) then short_year_of y else y in
        if negb (y =? 0) && ((y <? 1901) || (2155 <? y)) then Err (range_error name row)
        else Ok (if y =? 0 then str "0000" else to_string y)
  end.

Definition coerce_datetime (name value : list Z) (row digits : Z) : result (list Z) :=
  match rounded_datetime value digits with
  | None => Err (incorrect "datetime" value name row)
  | Some p => Ok (datetime_text p digits)
  end.

Definition coerce_time (name value : list Z) (row digits : Z) : result (list Z) :=
  match rounded_time value digits with
  | None => Err (incorrect "time" value name row)
  | Some p => if 838 <? tp_hours p then Err (incorrect "time" value name row) else Ok (time_text p digits)
  end.

(** The text stored, or the error; the code changes the text in place. *)
Definition coerce_column_value (col : ColumnDef) (value : list Z) (row : Z) : result (list Z) :=
  let name := cd_name col in
  let u := cd_is_unsigned col in
  if bool_decide (value = EXECUTOR_NULL_VALUE) then Ok value
  else
    match cd_data_type col with
    | TInt | TBigInt | TSmallInt | TTinyInt | TBoolean =>
        match integer_bounds (cd_data_type col) u with
        | Some (lo, hi) => check_integer name value row lo hi
        | None => Ok value
        end
    | TFloat => coerce_float name value row u true
    | TDouble => coerce_float name value row u false
    | TDecimal precision scale => coerce_decimal name value row u precision scale
    | TVarchar limit => coerce_varchar name value row limit
    | TDate => match parse_date_text value with Some p => Ok (date_text p) | None => Err (incorrect "date" value name row) end
    | TDateTime digits | TTimestamp digits => coerce_datetime name value row digits
    | TTime digits => coerce_time name value row digits
    | TYear => coerce_year name value row
    | TJson => if json_accept value then Ok value else Err (str "Invalid JSON text for column '" ++ name ++ str "'" ++ at_row row)
    | TText | TBlob | TEnum _ | TSet _ | TUnknown => Ok value
    end.
End columns.

(** ** The numbers of a text *)

#[local] Abbreviation digits l := (Forall (λ c, is_digit c = true) l).

Definition white (b : list Z) : Prop := Forall (λ c, is_white c = true) b.
Definition no_white (s : list Z) : Prop := Forall (λ c, is_white c = false) s.

(** An exponent of the value [e], or none. *)
Definition column_exponent (ex : list Z) (e : Z) : Prop :=
  (ex = [] ∧ e = 0) ∨
  ∃ m sg neg ds, ex = m :: sg ++ ds ∧ is_exponent_mark m = true ∧ sign_of sg neg ∧ digits ds ∧ ds ≠ [] ∧
    digits_value ds ≤ 10000 ∧ e = signed neg (digits_value ds).

(** The texts of numbers: white space around a sign, digits, a fraction and an exponent that moves the point to at most 400 places
    before or behind the first digit. *)
Definition column_numeral (text : list Z) (neg : bool) (ip fp : list Z) (e : Z) : Prop :=
  ∃ b sg pt ex b', text = b ++ (sg ++ ip ++ pt ++ ex) ++ b' ∧ white b ∧ white b' ∧ sign_of sg neg ∧ digits ip ∧ digits fp ∧
    (ip ≠ [] ∨ fp ≠ []) ∧ ((pt = [] ∧ fp = []) ∨ pt = c_dot :: fp) ∧ column_exponent ex e ∧ -400 ≤ Z.of_nat (length ip) + e ≤ 400.

(** The exact value of such a text. *)
Definition column_value (neg : bool) (ip fp : list Z) (e : Z) : Q :=
  scaled (signed neg (digits_value (ip ++ fp))) (e - Z.of_nat (length fp)).

Lemma trim_front_app b s : white b → no_head is_white s → trim_front (b ++ s) = s.
Proof.
  induction 1 as [|c b Hc Hb IH]; simpl; intros Hs; [|rewrite Hc; by apply IH].
  destruct s as [|c s]; [done|]. simpl in *. by rewrite Hs.
Qed.

Lemma trim_front_split s : ∃ b, s = b ++ trim_front s ∧ white b ∧ no_head is_white (trim_front s).
Proof.
  induction s as [|c s (b & E & Hb & Hh)]; [exists []; by repeat constructor|]. simpl. destruct (is_white c) eqn:Ec.
  - exists (c :: b). split_and!; [simpl; by f_equal|by constructor|done].
  - exists []. split_and!; [done|constructor|done].
Qed.

Lemma no_white_head s t : no_white s → s ≠ [] → no_head is_white (s ++ t).
Proof. by intros [|c u Hc _]. Qed.

Lemma white_reverse b : white b → white (reverse b).
Proof. apply Forall_reverse. Qed.

Lemma trimmed_app b s b' : white b → white b' → no_white s → trimmed (b ++ s ++ b') = s.
Proof.
  intros Hb Hb' Hs. unfold trimmed. destruct s as [|c s].
  - assert (E : trim_front (b ++ b') = []); [|simpl; by rewrite E].
    pose proof (trim_front_app (b ++ b') [] ltac:(by apply Forall_app) I) as E. by rewrite app_nil_r in E.
  - rewrite (trim_front_app b) by (done || by apply no_white_head). rewrite reverse_app.
    rewrite trim_front_app; [by rewrite reverse_involutive|by apply white_reverse|].
    rewrite <- (app_nil_r (reverse (c :: s))). apply no_white_head; [by apply Forall_reverse|].
    intros E%(f_equal length). by rewrite length_reverse in E.
Qed.

Lemma trimmed_split s : ∃ b b', s = b ++ trimmed s ++ b' ∧ white b ∧ white b'.
Proof.
  destruct (trim_front_split s) as (b & E & Hb & _). destruct (trim_front_split (reverse (trim_front s))) as (b' & E' & Hb' & _).
  exists b, (reverse b'). split_and!; [|done|by apply white_reverse]. rewrite E at 1. f_equal. unfold trimmed.
  rewrite <- reverse_app, <- E'. by rewrite reverse_involutive.
Qed.

Lemma digit_no_white c : is_digit c = true → is_white c = false.
Proof. rewrite is_digit_iff. unfold is_white. intros. rewrite !orb_false_iff, !Z.eqb_neq. lia. Qed.

Lemma digits_no_white ds : digits ds → no_white ds.
Proof. intros H. eapply Forall_impl; [exact H|]. apply digit_no_white. Qed.

Lemma sign_no_white sg neg : sign_of sg neg → no_white sg.
Proof. intros [[-> _]|[[-> | ->] _]]; by repeat constructor. Qed.

Lemma column_exponent_no_white ex e : column_exponent ex e → no_white ex.
Proof.
  intros [[-> _]|(m & sg & neg & ds & -> & Hm & Hsg & Hd & _)]; constructor.
  - unfold is_exponent_mark in Hm. by apply orb_true_iff in Hm as [->%Z.eqb_eq| ->%Z.eqb_eq].
  - apply Forall_app. split; [by eapply sign_no_white|by apply digits_no_white].
Qed.

Lemma exponent_value_spec ds e :
  digits ds → 0 ≤ e → e * 10 ^ Z.of_nat (length ds) + digits_value ds ≤ 10000 →
  exponent_value ds e = Some (e * 10 ^ Z.of_nat (length ds) + digits_value ds, []).
Proof.
  intros Hd. revert e. induction Hd as [|c ds Hc Hd IH]; intros e He Hb; cbn [exponent_value].
  - change (digits_value []) with 0. simpl Z.of_nat. f_equal. f_equal. lia.
  - cbn [length] in *. rewrite pow10_succ in *. rewrite digits_value_cons in *. rewrite Hc. apply is_digit_iff in Hc.
    pose proof (digits_value_bound ds Hd). pose proof (pow10_pos (length ds)). rewrite (proj2 (Z.ltb_ge _ _)) by nia.
    rewrite IH by lia. f_equal. f_equal. lia.
Qed.

Lemma exponent_value_inv s e0 e :
  0 ≤ e0 ≤ 10000 → exponent_value s e0 = Some (e, []) → digits s ∧ e = e0 * 10 ^ Z.of_nat (length s) + digits_value s ∧ e ≤ 10000.
Proof.
  revert e0. induction s as [|c s IH]; intros e0 He0; cbn [exponent_value].
  { intros [= <-]. change (digits_value []) with 0. simpl Z.of_nat. split_and!; [done|lia|lia]. }
  destruct (is_digit c) eqn:Ec; [|done]. apply is_digit_iff in Ec as Ec'. destruct (Z.ltb_spec 10000 (e0 * 10 + (c - 48))) as [|Hb]; [done|].
  intros H. destruct (IH (e0 * 10 + (c - 48)) ltac:(lia) H) as (Hd & -> & Hle). rewrite digits_value_cons. cbn [length]. rewrite pow10_succ.
  split_and!; [by constructor|lia|lia].
Qed.

Lemma read_column_exponent_spec ex e : column_exponent ex e → read_column_exponent ex = Some (e, []).
Proof.
  intros [[-> ->]|(m & sg & neg & ds & -> & Hm & Hsg & Hd & Hne & Hle & ->)]; [done|].
  unfold read_column_exponent. rewrite Hm.
  pose proof (sign_match ds sg neg Hsg) as E.
  assert (E' : match sg ++ ds with c :: u => if is_sign c then (c =? c_minus, u) else (false, sg ++ ds) | [] => (false, sg ++ ds) end = (neg, ds)).
  { apply E. destruct ds as [|c ds]; [done|]. apply Forall_inv in Hd. by apply digit_no_sign. }
  rewrite E'. pose proof (exponent_value_spec ds 0 Hd ltac:(lia)) as Hv. rewrite Z.mul_0_l, Z.add_0_l in Hv.
  destruct ds as [|c ds]; [done|]. rewrite Hv by done. by destruct neg.
Qed.

Lemma read_column_exponent_inv s e : read_column_exponent s = Some (e, []) → column_exponent s e.
Proof.
  destruct s as [|m u]; [intros [= <-]; by left|]. unfold read_column_exponent. destruct (is_exponent_mark m) eqn:Em; [|done].
  destruct (match u with c :: t => if is_sign c then (c =? c_minus, t) else (false, u) | [] => (false, u) end) as [neg v] eqn:Es.
  apply sign_match_inv in Es as (sg & -> & Hsg). destruct v as [|c v]; [done|].
  destruct (exponent_value (c :: v) 0) as [[e' t']|] eqn:Ee; [|done]. simpl. intros [= <- ->].
  apply exponent_value_inv in Ee as (Hd & -> & Hle); [|lia]. rewrite Z.mul_0_l, Z.add_0_l in *. right.
  exists m, sg, neg, (c :: v). by split_and!.
Qed.

Lemma column_exponent_head (f : Z → bool) ex e : column_exponent ex e → f 101 = false → f 69 = false → no_head f ex.
Proof.
  intros [[-> ->]|(m & sg & neg & ds & -> & Hm & _)] H1 H2; [done|]. simpl. unfold is_exponent_mark in Hm.
  by apply orb_true_iff in Hm as [->%Z.eqb_eq| ->%Z.eqb_eq].
Qed.

(** A text is read exactly when it is the text of a number. *)
Lemma parse_column_number text neg ip fp e :
  column_numeral text neg ip fp e →
  parse_decimal text = Some (let '(i, f) := place_point (ip ++ fp) (Z.of_nat (length ip) + e) in mkDecimal neg (skip_zeros i) f).
Proof.
  intros (b & sg & pt & ex & b' & -> & Hb & Hb' & Hsg & Hi & Hf & Hne & Hpt & Hex & Hp). unfold parse_decimal.
  rewrite trimmed_app; [|done|done|].
  2: { apply Forall_app; split; [by eapply sign_no_white|]. apply Forall_app; split; [by apply digits_no_white|].
       apply Forall_app; split; [|by eapply column_exponent_no_white].
       destruct Hpt as [[-> _]| ->]; [done|]. constructor; [done|by apply digits_no_white]. }
  assert (Hnn : ip ++ pt ++ ex ≠ []).
  { intros E. apply app_eq_nil in E as [-> E]. apply app_eq_nil in E as [E _]. destruct Hpt as [[-> ->]| ->]; [by destruct Hne|done]. }
  pose proof (sign_match (ip ++ pt ++ ex) sg neg Hsg) as Em.
  assert (Hh : no_head is_sign (ip ++ pt ++ ex)) by (apply (digits_head _ ip fp); try done; intros; by apply digit_no_sign).
  specialize (Em Hh). destruct (sg ++ ip ++ pt ++ ex) as [|c t] eqn:Et; [by apply app_eq_nil in Et as [_ ?]|]. rewrite Em.
  rewrite (parse_digits_spec ip fp) by (try done; by eapply column_exponent_head).
  destruct (bool_decide (ip = []) && bool_decide (fp = [])) eqn:E.
  { rewrite andb_true_iff, !bool_decide_eq_true in E. destruct E as [-> ->]. by destruct Hne. }
  rewrite (read_column_exponent_spec ex e Hex). cbn. rewrite (proj2 (Z.ltb_ge _ _)), (proj2 (Z.ltb_ge (_ + _) _)) by lia. cbn.
  by destruct (place_point _ _).
Qed.

Lemma parse_column_sound text d : parse_decimal text = Some d → ∃ neg ip fp e, column_numeral text neg ip fp e.
Proof.
  unfold parse_decimal. destruct (trimmed_split text) as (b & b' & E & Hb & Hb'). destruct (trimmed text) as [|c t] eqn:Et; [done|].
  destruct (if is_sign c then (c =? c_minus, t) else (false, c :: t)) as [neg u] eqn:Es.
  apply (sign_match_inv (c :: t)) in Es as (sg & Es & Hsg). destruct (parse_digits u) as [[ip fp] v] eqn:Eu.
  apply parse_digits_inv in Eu as (pt & Eu & Hi & Hf & Hpt).
  destruct (bool_decide (ip = []) && bool_decide (fp = [])) eqn:En; [done|].
  destruct (read_column_exponent v) as [[e w]|] eqn:Ev; [|done]. cbn. destruct w as [|? ?]; [|done].
  apply read_column_exponent_inv in Ev. destruct ((400 <? _) || _) eqn:Ep; [done|]. intros _. bool_cases.
  exists neg, ip, fp, e, b, sg, pt, v, b'. split_and!; try done; [by rewrite E, Es, Eu|].
  apply andb_false_iff in En as [En|En]; apply bool_decide_eq_false in En; auto.
Qed.

(** No leading zeros, and 0 without digits. *)
Definition column_ok (d : Decimal) : Prop := digits (d_integer d) ∧ digits (d_fraction d) ∧ skip_zeros (d_integer d) = d_integer d.

Lemma skip_zeros_idem s : skip_zeros (skip_zeros s) = skip_zeros s.
Proof. induction s as [|c s IH]; [done|]. simpl. destruct (c =? 48) eqn:E; [done|]. simpl. by rewrite E. Qed.

Lemma skip_zeros_app_value a b : digits_value (skip_zeros a ++ b) = digits_value (a ++ b).
Proof. by rewrite !digits_value_app, skip_zeros_value. Qed.

Lemma zeros_digits k : digits (replicate k 48).
Proof. apply Forall_replicate. done. Qed.

Lemma place_point_spec ds point :
  digits ds →
  let r := place_point ds point in
  digits r.1 ∧ digits r.2 ∧
  digits_value (r.1 ++ r.2) = digits_value ds * 10 ^ Z.max 0 (point - Z.of_nat (length ds)) ∧
  Z.of_nat (length r.2) = Z.max 0 (Z.of_nat (length ds) - point).
Proof.
  intros Hd. cbn zeta. unfold place_point. destruct (Z.leb_spec point 0); [|destruct (Nat.leb_spec (length ds) (Z.to_nat point))]; cbn [fst snd].
  - rewrite app_nil_l, length_app, length_replicate, Z.max_l, Z.mul_1_r by lia. split_and!; [done|apply Forall_app; split; [apply zeros_digits|done]| |lia].
    clear Hd. induction (Z.to_nat (- point)) as [|k IH]; [done|]. simpl replicate. simpl app. rewrite digits_value_cons, IH. lia.
  - rewrite app_nil_r, append_zeros_value. split_and!; [apply Forall_app; split; [done|apply zeros_digits]|constructor| |simpl; lia]. f_equal. f_equal. lia.
  - rewrite take_drop, length_drop, Z.max_l, Z.mul_1_r by lia. split_and!; [by apply Forall_take|by apply Forall_drop|done|lia].
Qed.

Lemma scaled_eq m e m' e' : m * 10 ^ Z.max 0 (e - e') = m' * 10 ^ Z.max 0 (e' - e) → (scaled m e == scaled m' e')%Q.
Proof.
  assert (Hmain : ∀ m e k, 0 ≤ k → (scaled (m * 10 ^ k) (e - k) == scaled m e)%Q).
  { clear. intros m e k Hk. unfold scaled. rewrite inject_Z_mult.
    replace (inject_Z (10 ^ k)) with (q10 (Z.to_nat k)) by (unfold q10; by rewrite Z2Nat.id by lia).
    pose proof (q10_nonzero (Z.to_nat (- (e - k)))). pose proof (q10_nonzero (Z.to_nat (- e))).
    assert (E : (q10 (Z.to_nat k) * q10 (Z.to_nat (e - k)) * q10 (Z.to_nat (- e)) == q10 (Z.to_nat e) * q10 (Z.to_nat (- (e - k))))%Q).
    { rewrite <- !q10_add. by replace (Z.to_nat k + Z.to_nat (e - k) + Z.to_nat (- e))%nat with (Z.to_nat e + Z.to_nat (- (e - k)))%nat by lia. }
    apply (Qmult_inj_r _ _ (q10 (Z.to_nat (- e)) * q10 (Z.to_nat (- (e - k))))%Q); [by intros [?|?]%Qmult_integral|].
    transitivity (inject_Z m * (q10 (Z.to_nat k) * q10 (Z.to_nat (e - k)) * q10 (Z.to_nat (- e))))%Q; [by field|]. rewrite E. by field. }
  intros E. rewrite <- (Hmain m e (Z.max 0 (e - e'))), <- (Hmain m' e' (Z.max 0 (e' - e))) by lia. rewrite E.
  replace (e - Z.max 0 (e - e')) with (e' - Z.max 0 (e' - e)) by lia. reflexivity.
Qed.

Lemma dec_scaled m p : (dec m p == scaled m (- Z.of_nat p))%Q.
Proof.
  unfold dec, scaled. replace (Z.to_nat (- Z.of_nat p)) with 0%nat by lia. rewrite Z.opp_involutive, Nat2Z.id.
  change (q10 0) with (inject_Z 1). pose proof (q10_nonzero p). by field.
Qed.

(** The decimal read is exact. *)
Lemma parse_column_value text neg ip fp e :
  column_numeral text neg ip fp e →
  ∃ d, parse_decimal text = Some d ∧ column_ok d ∧ d_negative d = neg ∧ (d_value d == column_value neg ip fp e)%Q.
Proof.
  intros H. rewrite (parse_column_number _ _ _ _ _ H). destruct H as (_ & _ & _ & _ & _ & _ & _ & _ & _ & Hi & Hf & _).
  destruct (place_point_spec (ip ++ fp) (Z.of_nat (length ip) + e) ltac:(by apply Forall_app)) as (H1 & H2 & Hv & Hl).
  destruct (place_point _ _) as [i f]. cbn [fst snd] in *. eexists. split_and!; [done| |done|].
  - split_and!; [by apply skip_zeros_digits|done|apply skip_zeros_idem].
  - unfold d_value, d_units, column_value. cbn [d_negative d_integer d_fraction]. rewrite dec_scaled, skip_zeros_app_value, Hv, Hl.
    rewrite length_app in *. apply scaled_eq. set (v := digits_value (ip ++ fp)).
    set (k := e - Z.of_nat (length fp)). replace (Z.of_nat (length ip) + e - Z.of_nat (length ip + length fp)) with k by lia.
    replace (Z.of_nat (length ip + length fp) - (Z.of_nat (length ip) + e)) with (- k) by lia.
    replace (- Z.max 0 (- k) - k) with (Z.max 0 (- k) - k - 2 * Z.max 0 (- k)) by lia.
    replace (Z.max 0 (Z.max 0 (- k) - k - 2 * Z.max 0 (- k))) with 0 by lia. replace (Z.max 0 (k - - Z.max 0 (- k))) with (Z.max 0 k) by lia.
    destruct neg; simpl; lia.
Qed.

(** ** Rounding *)

(** The units of [10^-places] nearest to [q], half of one away from zero. *)
Definition nearest (places : nat) (q : Q) : Z := round_half_away (Qnum q * 10 ^ Z.of_nat places) (Zpos (Qden q)).

#[export] Instance nearest_proper places : Proper (Qeq ==> eq) (nearest places).
Proof.
  intros a b E. unfold nearest, Qeq in *. rewrite <- (round_half_away_scale _ (Zpos (Qden a)) (Zpos (Qden b))) by lia.
  rewrite <- (round_half_away_scale (Qnum b * _) (Zpos (Qden b)) (Zpos (Qden a))) by lia. f_equal; [|lia].
  transitivity (Qnum a * Z.pos (Qden b) * 10 ^ Z.of_nat places); [ring|]. rewrite E. ring.
Qed.

Lemma nearest_dec places m k : nearest places (dec m k) = round_half_away (m * 10 ^ Z.of_nat places) (10 ^ Z.of_nat k).
Proof.
  assert (E : (dec m k == m # Z.to_pos (10 ^ Z.of_nat k))%Q).
  { unfold dec, q10. pose proof (pow10_pos k). rewrite (Qmake_Qdiv m). rewrite Z2Pos.id by done. reflexivity. }
  rewrite E. unfold nearest. cbn [Qnum Qden]. by rewrite Z2Pos.id by apply pow10_pos.
Qed.

Lemma signed_mul neg a b : signed neg a * b = signed neg (a * b).
Proof. destruct neg; simpl; lia. Qed.

Lemma round_signed neg v d : 0 ≤ v → 0 < d → round_half_away (signed neg v) d = signed neg (round_abs false v d).
Proof. apply (rounding_signed false). Qed.

(** What the columns' rounding keeps: [value], with [places] digits behind the point. *)
Lemma round_to_scale_spec scale d :
  column_ok d →
  let r := round_to_scale scale d in
  column_ok r ∧ d_negative r = d_negative d ∧ length (d_fraction r) = Nat.min scale (length (d_fraction d)) ∧
  digits_value (d_integer r ++ d_fraction r) = round_abs false (digits_value (d_integer d ++ d_fraction d)) (10 ^ Z.of_nat (length (d_fraction d) - scale)).
Proof.
  intros (Hi & Hf & Hz). cbn zeta. unfold round_to_scale. set (s := d_integer d ++ d_fraction d).
  assert (Hs : digits s) by (by apply Forall_app). destruct (Nat.leb_spec (length (d_fraction d)) scale) as [Hle|Hgt].
  { replace (length (d_fraction d) - scale)%nat with 0%nat by lia. change (10 ^ Z.of_nat 0) with 1.
    pose proof (round_abs_exact false (digits_value s) 1 ltac:(lia)) as E. rewrite Z.mul_1_r in E. by split_and!; [done|done|lia|]. }
  set (k := (length (d_fraction d) - scale)%nat).
  assert (Hls : (length s - k)%nat = (length (d_integer d) + scale)%nat) by (unfold s, k; rewrite length_app; lia).
  pose proof (round_digits false s k Hs ltac:(unfold s, k; rewrite length_app; lia)) as Hr. rewrite Hls in Hr.
  assert (E1 : take (length (d_integer d) + scale) s = d_integer d ++ take scale (d_fraction d)) by (unfold s; by rewrite take_app_add).
  assert (E2 : s !!! (length (d_integer d) + scale)%nat = d_fraction d !!! scale) by (unfold s; by rewrite lookup_total_app_r, Nat.add_sub_swap, Nat.sub_diag by lia).
  rewrite E1, E2 in Hr. rewrite <- Hr. set (kept := d_integer d ++ take scale (d_fraction d)) in *.
  assert (Hk : digits kept) by (apply Forall_app; split; [done|by apply Forall_take]).
  assert (Hlk : length kept = (length (d_integer d) + scale)%nat) by (unfold kept; rewrite length_app, length_take; lia).
  cbn [negb andb]. destruct (53 <=? d_fraction d !!! scale).
  - destruct (add_one_spec (reverse kept) ltac:(by apply digits_reverse)) as (Hd & Hv & Hl). rewrite low_value_reverse in Hv.
    rewrite length_reverse in Hl. set (all := reverse (add_one (reverse kept))).
    assert (Hda : digits all) by (by apply digits_reverse).
    assert (Hla : (scale ≤ length all)%nat) by (unfold all; rewrite length_reverse; lia).
    assert (Hva : digits_value all = digits_value kept + 1) by (by rewrite <- Hv).
    clearbody all. unfold column_ok. cbn [d_integer d_fraction d_negative]. rewrite skip_zeros_idem, skip_zeros_app_value, take_drop, length_drop.
    split_and!; [by apply skip_zeros_digits, Forall_take|by apply Forall_drop|done|done|lia|lia].
  - unfold column_ok. cbn [d_integer d_fraction d_negative]. rewrite length_take. split_and!; [done|by apply Forall_take|done|done|done|fold kept; lia].
Qed.

Lemma nearest_decimal scale d :
  column_ok d →
  nearest scale (d_value d) =
  signed (d_negative d) (round_abs false (digits_value (d_integer d ++ d_fraction d)) (10 ^ Z.of_nat (length (d_fraction d) - scale)) *
                         10 ^ Z.of_nat (scale - length (d_fraction d))).
Proof.
  intros (Hi & Hf & _). unfold d_value. rewrite nearest_dec. unfold d_units. set (v := digits_value _).
  assert (0 ≤ v) by (apply digits_value_bound, Forall_app; auto). pose proof (pow10_pos scale).
  rewrite signed_mul, round_signed by (try apply pow10_pos; nia). f_equal. set (f := length (d_fraction d)).
  destruct (Nat.le_ge_cases f scale) as [H1|H1].
  - replace (f - scale)%nat with 0%nat by lia. replace (10 ^ Z.of_nat scale) with (10 ^ Z.of_nat (scale - f) * 10 ^ Z.of_nat f)
      by (rewrite <- Z.pow_add_r by lia; f_equal; lia).
    rewrite Z.mul_assoc, round_abs_exact by apply pow10_pos. change (10 ^ Z.of_nat 0) with 1.
    pose proof (round_abs_exact false v 1 ltac:(lia)) as E. rewrite Z.mul_1_r in E. by rewrite E.
  - replace (scale - f)%nat with 0%nat by lia. change (10 ^ Z.of_nat 0) with 1. rewrite Z.mul_1_r.
    replace (10 ^ Z.of_nat f) with (10 ^ Z.of_nat (f - scale) * 10 ^ Z.of_nat scale) by (rewrite <- Z.pow_add_r by lia; f_equal; lia).
    by rewrite round_abs_scale by apply pow10_pos.
Qed.

(** ** The texts stored *)

(** [n] units of [10^-places] with all of its places. *)
Definition place_text (places : nat) (n : Z) : list Z :=
  (if n <? 0 then [c_minus] else []) ++
  (if (0 <? places)%nat then with_point places (to_string (Z.abs n)) else to_string (Z.abs n)).

Lemma digits_eq a b : digits a → digits b → length a = length b → digits_value a = digits_value b → a = b.
Proof. intros Ha Hb Hl Hv. apply bytes_compare_eq. rewrite digits_lexicographic by done. by rewrite Hv, Z.compare_refl. Qed.

Lemma to_string_digits s : canonical s → to_string (digits_value s) = s.
Proof.
  intros Hc. assert (0 ≤ digits_value s) by (by apply canonical_nonneg). destruct (to_string_spec (digits_value s)) as (_ & _ & Hv); [done|].
  by apply canonical_eq; [apply to_string_canonical| |].
Qed.

Lemma column_canonical d : column_ok d → d_integer d ≠ [] → canonical (d_integer d).
Proof.
  intros (Hi & _ & Hz) Hne. pose proof (skip_zeros_head (d_integer d)) as Hh. rewrite Hz in Hh.
  destruct (d_integer d) as [|c s]; [done|]. by apply canonical_head.
Qed.

Lemma canonical_app a b : canonical a → digits_value a ≠ 0 → digits b → canonical (a ++ b).
Proof.
  intros (Hd & Hne & Hv) Hz Hb. apply canonical_bound; [by apply Forall_app|by destruct a|]. intros Hl. rewrite digits_value_app, length_app in *.
  pose proof (digits_value_bound b Hb). pose proof (digits_value_bound a Hd). pose proof (pow10_pos (length b)).
  assert (Ha : 10 ^ Z.of_nat (length a - 1) ≤ digits_value a).
  { destruct a as [|x [|y a]]; [done|simpl length; change (10 ^ Z.of_nat (1 - 1)) with 1; lia|apply Hv; simpl; lia]. }
  destruct a as [|x a]; [done|]. cbn [length] in *. replace (S (length a) + length b - 1)%nat with (length a + length b)%nat by lia.
  rewrite Nat2Z.inj_add, Z.pow_add_r by lia. rewrite Nat.sub_1_r in Ha. simpl pred in Ha. nia.
Qed.

Lemma digits_value_zero s : digits s → digits_value s = 0 → skip_zeros s = [].
Proof.
  intros Hs E. pose proof (skip_zeros_head s) as Hh. pose proof (skip_zeros_digits s Hs) as Hd.
  rewrite <- skip_zeros_value in E. destruct (skip_zeros s) as [|c t]; [done|]. exfalso. rewrite digits_value_cons in E.
  apply Forall_cons in Hd as [Hc Hd]. apply is_digit_iff in Hc. pose proof (digits_value_bound t Hd). pose proof (pow10_pos (length t)). nia.
Qed.

Lemma zero_decimal_spec d : column_ok d → zero_decimal d = true ↔ digits_value (d_integer d ++ d_fraction d) = 0.
Proof.
  intros (Hi & Hf & Hz). unfold zero_decimal. rewrite andb_true_iff, !bool_decide_eq_true. split.
  - intros [-> E]. by rewrite app_nil_l, <- skip_zeros_value, E.
  - rewrite digits_value_app. pose proof (digits_value_bound _ Hi). pose proof (digits_value_bound _ Hf). pose proof (pow10_pos (length (d_fraction d))).
    intros E. rewrite <- Hz. split; apply digits_value_zero; (done || nia).
Qed.

(** Zeros before the digits of a number make up the places asked for. *)
Lemma with_point_short f : digits f → with_point (length f) (to_string (digits_value f)) = 48 :: c_dot :: f.
Proof.
  intros Hf. pose proof (digits_value_bound f Hf) as Hb. destruct (to_string_spec (digits_value f)) as (Hne & Hd & Hv); [lia|].
  pose proof (to_string_canonical (digits_value f) ltac:(lia)) as (_ & _ & Hlen). set (t := to_string (digits_value f)) in *.
  destruct (decide (f = [])) as [->|Hfn]; [done|]. assert (0 < length f)%nat by (destruct f; [done|simpl; lia]).
  assert (Hlt : (length t ≤ length f)%nat).
  { destruct (Nat.le_gt_cases (length t) (length f)) as [|Hgt]; [done|]. specialize (Hlen ltac:(lia)). rewrite Hv in Hlen.
    assert (10 ^ Z.of_nat (length f) ≤ 10 ^ Z.of_nat (length t - 1)); [apply Z.pow_le_mono_r; lia|lia]. }
  unfold with_point. rewrite (proj2 (Nat.leb_le _ _)) by done.
  assert (Ep : replicate (length f - length t + 1) 48 ++ t = 48 :: f).
  { apply digits_eq; [apply Forall_app; split; [apply zeros_digits|done]|by constructor| |].
    - rewrite length_app, length_replicate. cbn [length]. lia.
    - rewrite replicate_zeros_value, digits_value_cons, Hv. lia. }
  rewrite Ep. cbn [length]. by replace (S (length f) - length f)%nat with 1%nat by lia.
Qed.

Lemma with_point_long a b : canonical a → digits_value a ≠ 0 → digits b → with_point (length b) (to_string (digits_value (a ++ b))) = a ++ c_dot :: b.
Proof.
  intros Ha Hz Hb. rewrite to_string_digits by (by apply canonical_app). unfold with_point. rewrite length_app.
  assert (0 < length a)%nat by (destruct Ha as (_ & Hne & _); destruct a; [done|simpl; lia]).
  rewrite (proj2 (Nat.leb_gt _ _)) by lia.
  rewrite length_app, Nat.add_sub. by rewrite take_app_length, drop_app_length.
Qed.

(** The text of a rounded decimal is that of its units. *)
Lemma decimal_text_place scale r :
  column_ok r → (length (d_fraction r) ≤ scale)%nat →
  decimal_text scale r = place_text scale (signed (d_negative r) (digits_value (d_integer r ++ d_fraction r) * 10 ^ Z.of_nat (scale - length (d_fraction r)))).
Proof.
  intros Hok Hl. destruct (Hok) as (Hi & Hf & Hz). unfold decimal_text, place_text. rewrite Nat.min_r by done. set (k := (scale - length (d_fraction r))%nat).
  set (f := d_fraction r ++ replicate k 48). assert (Hfd : digits f) by (apply Forall_app; split; [done|apply zeros_digits]).
  assert (Hfl : length f = scale) by (unfold f, k; rewrite length_app, length_replicate; lia).
  rewrite <- append_zeros_value, <- app_assoc. fold f. set (v := digits_value (d_integer r ++ f)).
  assert (Hv : 0 ≤ v) by (apply digits_value_bound, Forall_app; auto).
  assert (Hz0 : zero_decimal r = true ↔ v = 0).
  { rewrite zero_decimal_spec by done. unfold v, f. rewrite app_assoc, append_zeros_value. pose proof (pow10_pos k). nia. }
  assert (Habs : Z.abs (signed (d_negative r) v) = v) by (destruct (d_negative r); simpl; lia). rewrite Habs. f_equal.
  { destruct (d_negative r); simpl; [|by rewrite (proj2 (Z.ltb_ge v 0)) by lia]. destruct (zero_decimal r) eqn:Ez; simpl.
    - rewrite (proj1 Hz0) by done. done.
    - rewrite (proj2 (Z.ltb_lt _ _)); [done|]. assert (v ≠ 0) by (intros E; apply Hz0 in E; congruence). lia. }
  rewrite <- Hfl. destruct (bool_decide_reflect (d_integer r = [])) as [E|Hne].
  - unfold v. rewrite E, app_nil_l. destruct (Nat.ltb_spec 0 (length f)); [by rewrite with_point_short|]. by destruct f; [|simpl in *; lia].
  - assert (Hc : canonical (d_integer r)) by (by apply column_canonical).
    assert (Hnz : digits_value (d_integer r) ≠ 0) by (intros E; apply digits_value_zero in E; [|done]; congruence).
    unfold v. destruct (Nat.ltb_spec 0 (length f)); [by rewrite with_point_long|]. destruct f; [|simpl in *; lia]. by rewrite !app_nil_r, to_string_digits.
Qed.

(** ** Integer columns *)

Lemma place_text_0 n : place_text 0 n = (if n <? 0 then [c_minus] else []) ++ to_string (Z.abs n).
Proof. done. Qed.

Lemma short_canonical_split value : short_canonical value = true →
  ∃ neg ds, value = sign_chars neg ++ ds ∧ digits ds ∧ ds ≠ [] ∧ canonical ds ∧ (length ds < 10)%nat ∧ short_value value = signed neg (digits_value ds) ∧
    (neg = true → digits_value ds ≠ 0).
Proof.
  assert (Hh : ∀ c t, (49 <=? c) && (c <=? 57) && forallb is_digit t = true → canonical (c :: t) ∧ digits_value (c :: t) ≠ 0).
  { intros c t H. bool_cases. apply digits_check in H0. split; [apply canonical_head; [constructor; [apply is_digit_iff; lia|done]|lia]|].
    rewrite digits_value_cons. pose proof (digits_value_bound t H0). pose proof (pow10_pos (length t)). nia. }
  unfold short_canonical. rewrite !andb_true_iff, orb_true_iff, !negb_true_iff, Nat.ltb_lt. intros [[Hne Hl] [H|H]].
  { apply bool_decide_eq_true in H as ->. exists false, [48]. split_and!; try done; [by repeat constructor|apply canonical_0]. }
  destruct value as [|c t]; [done|]. destruct (Z.eqb_spec c c_minus) as [->|Hc].
  - destruct t as [|d t]; [done|]. destruct (Hh d t H) as [Hcan Hv]. exists true, (d :: t). simpl in Hl.
    split_and!; try done; [by apply canonical_digits|simpl; lia].
  - destruct (Hh c t H) as [Hcan Hv]. exists false, (c :: t). unfold short_value. rewrite (proj2 (Z.eqb_neq _ _)) by done.
    split_and!; try done; by apply canonical_digits.
Qed.

Lemma column_numeral_plain neg ds : digits ds → ds ≠ [] → (length ds ≤ 400)%nat → column_numeral (sign_chars neg ++ ds) neg ds [] 0.
Proof.
  intros Hd Hne Hl. exists [], (sign_chars neg), [], [], []. rewrite !app_nil_r.
  split_and!; try done; try apply Forall_nil_2; first [apply sign_chars_of|by left|lia|idtac].
Qed.

Lemma place_text_signed neg ds : canonical ds → (neg = true → digits_value ds ≠ 0) → place_text 0 (signed neg (digits_value ds)) = sign_chars neg ++ ds.
Proof.
  intros Hc Hz. rewrite place_text_0. pose proof (canonical_nonneg ds Hc).
  destruct neg; simpl signed; [specialize (Hz eq_refl); rewrite (proj2 (Z.ltb_lt _ _)), Z.abs_opp by lia|rewrite (proj2 (Z.ltb_ge _ _)) by lia];
    by rewrite Z.abs_eq, to_string_digits.
Qed.

Lemma short_canonical_parsed value : short_canonical value = true →
  ∃ d, parse_decimal value = Some d ∧ nearest 0 (d_value d) = short_value value ∧ d_units d = short_value value ∧ value = place_text 0 (short_value value).
Proof.
  intros H. destruct (short_canonical_split value H) as (neg & ds & E & Hd & Hne & Hc & Hl & -> & Hz). rewrite E.
  destruct (parse_column_value _ _ _ _ _ (column_numeral_plain neg ds Hd Hne ltac:(lia))) as (d & Hp & (Hi & Hf & Hzi) & Hn & Hv).
  exists d. split; [done|]. assert (Hd' := Hp). rewrite (parse_column_number _ _ _ _ _ (column_numeral_plain neg ds Hd Hne ltac:(lia))) in Hd'.
  unfold place_point in Hd'. rewrite app_nil_r, (proj2 (Z.leb_gt _ _)), (proj2 (Nat.leb_le _ _)) in Hd' by (destruct ds; [done|simpl; lia]).
  injection Hd' as <-. unfold d_value, d_units. cbn [d_negative d_integer d_fraction length]. rewrite skip_zeros_app_value, app_nil_r.
  replace (Z.to_nat (Z.of_nat (length ds) + 0) - length ds)%nat with 0%nat by lia. rewrite app_nil_r.
  split_and!; [|done|by rewrite place_text_signed].
  rewrite nearest_dec. change (10 ^ Z.of_nat 0) with 1. rewrite Z.mul_1_r. pose proof (digits_value_bound ds Hd).
  rewrite round_signed by lia. f_equal. pose proof (round_abs_exact false (digits_value ds) 1 ltac:(lia)) as E1. by rewrite Z.mul_1_r in E1.
Qed.

(** The words are no numbers. *)
Lemma parse_word value w : parse_decimal value ≠ None → match w with c :: _ => (97 <= c <= 122)%Z | [] => False end →
  bool_decide (lower_case value = w) = false.
Proof.
  intros Hp Hw. apply bool_decide_eq_false. intros E. destruct (parse_decimal value) as [d|] eqn:Ed; [|done].
  destruct (parse_column_sound value d Ed) as (neg & ip & fp & e & b & sg & pt & ex & b' & -> & Hb & _ & Hsg & Hi & Hf & Hne & Hpt & _ & _).
  assert (Hhead : ∃ c t, b ++ (sg ++ ip ++ pt ++ ex) ++ b' = c :: t ∧ c ≤ 57).
  { destruct Hb as [|c b Hc Hb].
    2: { do 2 eexists. split; [done|]. unfold is_white in Hc. rewrite !orb_true_iff, !Z.eqb_eq in Hc. lia. }
    destruct sg as [|c sg]; [|do 2 eexists; split; [done|destruct Hsg as [[[= -> ->] _]|[[?|[= -> ->]] _]]; (done || lia)]].
    destruct Hi as [|c ip Hc Hi]; [|do 2 eexists; split; [done|apply is_digit_iff in Hc; lia]].
    destruct Hpt as [[-> ->]| ->]; [by destruct Hne|]. do 2 eexists. split; [done|lia]. }
  destruct Hhead as (c & t & Et & Hc). rewrite Et in E. destruct w as [|x w]; [done|]. simpl in E. injection E as E _.
  destruct ((65 <=? c) && (c <=? 90)) eqn:E'; bool_cases; lia.
Qed.

(** A decimal below zero, however small. *)
Lemma below_zero_spec d : column_ok d →
  d_negative d && (negb (bool_decide (skip_zeros (d_integer d) = [])) || negb (bool_decide (skip_zeros (d_fraction d) = []))) = (d_units d <? 0).
Proof.
  intros Hok. destruct (Hok) as (Hi & Hf & Hz). rewrite Hz, <- negb_andb. fold (zero_decimal d). pose proof (zero_decimal_spec d Hok) as His. unfold d_units.
  assert (0 ≤ digits_value (d_integer d ++ d_fraction d)) by (by apply digits_value_bound, Forall_app).
  destruct (d_negative d); simpl; [|symmetry; apply Z.ltb_ge; lia].
  destruct (zero_decimal d); simpl; symmetry; [apply Z.ltb_ge; rewrite (proj1 His) by done; lia|apply Z.ltb_lt].
  assert (digits_value (d_integer d ++ d_fraction d) ≠ 0); [intros E; apply His in E; done|lia].
Qed.

(** The integer of a rounded decimal: what from_chars makes of it, and a text of more than 20 digits is beyond it. *)
Lemma column_magnitude r : column_ok r →
  let m := digits_value (d_integer r) in
  0 ≤ m ∧ ((20 < length (d_integer r))%nat → u64_max < m) ∧
  (if bool_decide (d_integer r = []) then Some 0 else from_chars_u64 (d_integer r)) = if m <=? u64_max then Some m else None.
Proof.
  intros Hok. cbv zeta. destruct (Hok) as (Hi & _ & Hz). split_and!; [by apply digits_value_bound| |].
  - intros H20. destruct (column_canonical r Hok) as (_ & _ & H1); [intros E; rewrite E in H20; simpl in H20; lia|]. specialize (H1 ltac:(lia)).
    assert (10 ^ 20 ≤ 10 ^ Z.of_nat (length (d_integer r) - 1)) by (apply Z.pow_le_mono_r; lia). unfold u64_max. lia.
  - unfold from_chars_u64. destruct (bool_decide_reflect (d_integer r = [])) as [->|Hne]; [done|].
    assert (forallb is_digit (d_integer r) = true) as -> by (by apply forallb_forall; intros c Hc%list_elem_of_In; apply (proj1 (Forall_forall _ _) Hi)).
    pose proof (digits_value_bound _ Hi). cbn [orb negb]. destruct (Z.leb_spec (digits_value (d_integer r)) u64_max); [by rewrite decide_True by widths|by rewrite decide_False by widths].
Qed.

Lemma check_integer_parsed name value row lo hi d :
  parse_decimal value = Some d → column_ok d → int64_min ≤ lo ≤ 0 → 0 ≤ hi ≤ u64_max →
  check_integer name value row lo hi =
    let n := nearest 0 (d_value d) in
    if (lo <=? n) && (n <=? hi) && ((lo <? 0) || (0 <=? d_units d)) then Ok (place_text 0 n) else Err (range_error name row).
Proof.
  intros Hp Hok Hlo Hhi. cbv zeta. unfold check_integer. set (n := nearest 0 (d_value d)). cbv zeta.
  destruct (short_canonical value && _) eqn:Es.
  { apply andb_true_iff in Es as [Hs Hb]. destruct (short_canonical_parsed value Hs) as (d' & Hp' & Hn & Hu & Et). rewrite Hp in Hp'. injection Hp' as <-.
    fold n in Hn. rewrite Hu, <- Hn in *.
    assert ((lo <=? n) && (n <=? hi) && ((lo <? 0) || (0 <=? n)) = true) as ->; [|by rewrite Et].
    rewrite !andb_true_iff, orb_true_iff, !Z.leb_le, Z.ltb_lt. destruct (Z.ltb_spec n 0); bool_cases; lia. }
  clear Es. rewrite !(parse_word value) by (rewrite ?Hp; simpl; done || lia). rewrite Hp, below_zero_spec by done.
  destruct (round_to_scale_spec 0 d Hok) as (Hok' & Hneg & Hl & Hv). rewrite Nat.min_0_l in Hl. pose proof (nearest_decimal 0 d Hok) as Hn. fold n in Hn.
  rewrite <- Hv, Nat.sub_0_l, Z.mul_1_r, <- Hneg in Hn. set (r := round_to_scale 0 d) in *.
  assert (Hr : d_fraction r = []) by (by destruct (d_fraction r)). rewrite Hr, app_nil_r in Hn.
  destruct (column_magnitude r Hok') as (Hm & Hbig & ->). set (m := digits_value (d_integer r)) in *.
  assert (Hw : wrap64 (0 - wrap64 lo) = - lo).
  { unfold wrap64. rewrite Zminus_mod_idemp_r. destruct (decide (lo = 0)) as [->|]; [done|]. rewrite Z.mod_small by widths. lia. }
  assert (Hu : d_negative r = false → 0 ≤ d_units d).
  { rewrite Hneg. unfold d_units. intros ->. apply digits_value_bound, Forall_app. split; apply Hok. }
  rewrite Hw, place_text_0. clear Hv Hw Hr Hl Hneg.
  destruct (Nat.ltb_spec 20 (length (d_integer r))) as [H20|H20].
  { specialize (Hbig H20). rewrite (proj2 (andb_false_iff _ _)); [done|]. left. apply andb_false_iff. rewrite !Z.leb_gt, Hn.
    destruct (d_negative r); cbn [signed]; widths. }
  clear Hbig H20. destruct (d_negative r); cbn [signed] in Hn; [clear Hu|specialize (Hu eq_refl)];
    destruct (Z.leb_spec 0 lo), (Z.ltb_spec (d_units d) 0), (Z.leb_spec m u64_max), (Z.eqb_spec m 0), (Z.ltb_spec (- lo) m), (Z.ltb_spec hi m),
      (Z.leb_spec lo n), (Z.leb_spec n hi), (Z.ltb_spec lo 0), (Z.leb_spec 0 (d_units d)), (Z.ltb_spec n 0);
    cbn [andb orb negb]; try done; try widths; by rewrite Hn, ?Z.abs_opp, Z.abs_eq.
Qed.

(** ** Decimal columns *)

Lemma decimal_width r scale precision : column_ok r → (length (d_fraction r) ≤ scale)%nat → Z.of_nat scale ≤ precision →
  Z.of_nat (length (d_integer r)) + Z.of_nat scale ≤ precision ↔
  digits_value (d_integer r ++ d_fraction r) * 10 ^ Z.of_nat (scale - length (d_fraction r)) < 10 ^ precision.
Proof.
  intros Hok Hl Hs. destruct (Hok) as (Hi & Hf & Hz). set (k := (scale - length (d_fraction r))%nat).
  assert (E : digits_value (d_integer r ++ d_fraction r) * 10 ^ Z.of_nat k = digits_value (d_integer r) * 10 ^ Z.of_nat scale + digits_value (d_fraction r) * 10 ^ Z.of_nat k).
  { rewrite digits_value_app, Z.mul_add_distr_r, <- Z.mul_assoc, <- Z.pow_add_r by lia. do 3 f_equal. lia. }
  assert (Hb : 0 ≤ digits_value (d_fraction r) * 10 ^ Z.of_nat k < 10 ^ Z.of_nat scale).
  { pose proof (digits_value_bound _ Hf). pose proof (pow10_pos k).
    assert (10 ^ Z.of_nat scale = 10 ^ Z.of_nat (length (d_fraction r)) * 10 ^ Z.of_nat k) as -> by (rewrite <- Z.pow_add_r by lia; f_equal; lia). nia. }
  rewrite E. pose proof (digits_value_bound _ Hi) as Hib. pose proof (pow10_pos scale). split; intros H1.
  - assert (10 ^ (Z.of_nat (length (d_integer r)) + Z.of_nat scale) ≤ 10 ^ precision) by (apply Z.pow_le_mono_r; lia). rewrite Z.pow_add_r in * by lia. nia.
  - destruct (Z.le_gt_cases (Z.of_nat (length (d_integer r)) + Z.of_nat scale) precision) as [|Hgt]; [done|]. exfalso.
    assert (Hne : d_integer r ≠ []) by (intros E0; rewrite E0 in Hgt; simpl in Hgt; lia). destruct (column_canonical r Hok Hne) as (_ & _ & H2).
    assert (H3 : 10 ^ Z.of_nat (length (d_integer r) - 1) ≤ digits_value (d_integer r)).
    { destruct (d_integer r) as [|c [|c' t]] eqn:Ed; [done| |apply H2; simpl; lia]. simpl length. change (10 ^ Z.of_nat (1 - 1)) with 1.
      assert (digits_value [c] ≠ 0); [intros E0; apply digits_value_zero in E0; [congruence|done]|lia]. }
    assert (10 ^ precision ≤ 10 ^ (Z.of_nat (length (d_integer r) - 1) + Z.of_nat scale)) by (apply Z.pow_le_mono_r; lia). rewrite Z.pow_add_r in * by lia. nia.
Qed.

Lemma coerce_decimal_parsed name value row u precision scale d :
  parse_decimal value = Some d → column_ok d → 0 ≤ scale ≤ precision →
  coerce_decimal name value row u precision scale =
    let n := nearest (Z.to_nat scale) (d_value d) in
    if (Z.abs n <? 10 ^ precision) && negb (u && (n <? 0)) then Ok (place_text (Z.to_nat scale) n) else Err (range_error name row).
Proof.
  intros Hp Hok Hs. cbv zeta. unfold coerce_decimal. rewrite Hp. set (k := Z.to_nat scale).
  destruct (round_to_scale_spec k d Hok) as (Hok' & Hneg & Hl & Hv). pose proof (nearest_decimal k d Hok) as Hn.
  rewrite <- Hv, <- Hneg in Hn. set (r := round_to_scale k d) in *.
  replace (k - length (d_fraction d))%nat with (k - length (d_fraction r))%nat in Hn by lia.
  assert (Hlr : (length (d_fraction r) ≤ k)%nat) by lia. rewrite (decimal_text_place k r Hok' Hlr), <- Hn.
  set (m := digits_value (d_integer r ++ d_fraction r) * 10 ^ Z.of_nat (k - length (d_fraction r))) in *.
  assert (Hm : 0 ≤ m) by (apply Z.mul_nonneg_nonneg; [apply digits_value_bound, Forall_app; split; apply Hok'|by apply Z.lt_le_incl, pow10_pos]).
  assert (Habs : Z.abs (nearest k (d_value d)) = m) by (rewrite Hn; destruct (d_negative r); cbn [signed]; lia). rewrite Habs.
  pose proof (decimal_width r k precision Hok' Hlr ltac:(lia)) as Hw. fold m in Hw. replace (Z.of_nat k) with scale in Hw by lia.
  pose proof (zero_decimal_spec r Hok') as His. pose proof (pow10_pos (k - length (d_fraction r))).
  assert (Hsign : d_negative r && negb (zero_decimal r) = (nearest k (d_value d) <? 0)).
  { rewrite Hn. destruct (d_negative r); cbn [signed andb]; [|symmetry; apply Z.ltb_ge; lia].
    destruct (zero_decimal r) eqn:Ez; simpl; symmetry; [apply Z.ltb_ge; unfold m; rewrite (proj1 His) by done; lia|apply Z.ltb_lt].
    assert (digits_value (d_integer r ++ d_fraction r) ≠ 0) by (intros E; apply His in E; congruence).
    pose proof (digits_value_bound (d_integer r ++ d_fraction r) ltac:(apply Forall_app; split; apply Hok')). unfold m. nia. }
  rewrite <- andb_assoc, Hsign.
  destruct (Z.ltb_spec precision (Z.of_nat (length (d_integer r)) + scale)), (Z.ltb_spec m (10 ^ precision)); cbn [andb]; try done; try lia.
  by destruct (u && _).
Qed.

Lemma dec_nonneg m k : Qle_bool 0 (dec m k) = (0 <=? m).
Proof.
  unfold dec. apply eq_true_iff_eq. rewrite Z.leb_le, Qle_bool_iff.
  pose proof (pow10_pos k). assert (Hq : (0 < q10 k)%Q) by (unfold q10, Qlt; simpl; lia). rewrite <- (Qmult_le_r _ _ (q10 k)) by done.
  rewrite Qmult_0_l, (Qmult_comm (_ / _)), Qmult_div_r by apply q10_nonzero. unfold Qle. simpl. lia.
Qed.

Lemma units_sign d q : (d_value d == q)%Q → (0 <=? d_units d) = Qle_bool 0 q.
Proof. intros <-. symmetry. apply dec_nonneg. Qed.

Lemma integer_bounds_spec dt u lo hi : integer_bounds dt u = Some (lo, hi) → int64_min ≤ lo ≤ 0 ∧ 1 ≤ hi ≤ u64_max.
Proof. destruct dt, u; simpl; try done; intros [= <- <-]; widths. Qed.

(** An integer column keeps the integer nearest to the number of a text, half of one away from zero, in its canonical text; it
    refuses numbers whose nearest integer is out of the bounds of the type, and, when it is unsigned, numbers below zero however
    small. A DECIMAL(p,s) column keeps the nearest number of s places, with all of them, when it has at most p digits. *)
Lemma numeric_column_spec to_chars json_accept col value row neg ip fp e :
  column_numeral value neg ip fp e →
  let q := column_value neg ip fp e in
  let coerced := coerce_column_value to_chars json_accept col value row in
  let refused := Err (range_error (cd_name col) row) in
  (∀ lo hi, integer_bounds (cd_data_type col) (cd_is_unsigned col) = Some (lo, hi) →
    coerced = if (lo <=? nearest 0 q) && (nearest 0 q <=? hi) && ((lo <? 0) || Qle_bool 0 q) then Ok (place_text 0 (nearest 0 q)) else refused) ∧
  (∀ precision scale, cd_data_type col = TDecimal precision scale → 0 ≤ scale ≤ precision →
    let n := nearest (Z.to_nat scale) q in
    coerced = if (Z.abs n <? 10 ^ precision) && negb (cd_is_unsigned col && (n <? 0)) then Ok (place_text (Z.to_nat scale) n) else refused).
Proof.
  intros H. cbv zeta. destruct (parse_column_value _ _ _ _ _ H) as (d & Hp & Hok & _ & Hv).
  assert (Hnull : bool_decide (value = EXECUTOR_NULL_VALUE) = false) by (apply bool_decide_eq_false; intros ->; by vm_compute in Hp).
  unfold coerce_column_value. rewrite Hnull. split.
  - intros lo hi Hb. destruct (integer_bounds_spec _ _ _ _ Hb) as [Hlo Hhi]. rewrite Hb.
    assert (E := check_integer_parsed (cd_name col) value row lo hi d Hp Hok Hlo ltac:(lia)). cbv zeta in E.
    rewrite (nearest_proper 0 _ _ Hv), (units_sign d _ Hv) in E. destruct (cd_data_type col); try done; exact E.
  - intros precision scale -> Hs. pose proof (coerce_decimal_parsed (cd_name col) value row (cd_is_unsigned col) precision scale d Hp Hok Hs) as E.
    cbv zeta in E. by rewrite (nearest_proper _ _ _ Hv) in E.
Qed.

(** ** The texts of dates and times *)

Lemma seqZ_check (P : Z → bool) lo n : forallb P (seqZ lo n) = true → ∀ x, lo ≤ x < lo + n → P x = true.
Proof. rewrite forallb_forall. intros H x Hx. apply H, list_elem_of_In, elem_of_seqZ. lia. Qed.

Lemma two_digits n : 0 ≤ n < 100 → two n = [48 + n / 10; 48 + n mod 10].
Proof.
  intros H. assert (Hall : forallb (λ n, bool_decide (two n = [48 + n / 10; 48 + n mod 10])) (seqZ 0 100) = true) by (vm_compute; reflexivity).
  apply (seqZ_check _ 0 100 Hall), bool_decide_eq_true in H. exact H.
Qed.

Lemma year_text_digits y : 0 ≤ y < 10000 → year_text y = [48 + y / 1000; 48 + y / 100 mod 10; 48 + y / 10 mod 10; 48 + y mod 10].
Proof.
  intros H. assert (Hall : forallb (λ y, bool_decide (year_text y = [48 + y / 1000; 48 + y / 100 mod 10; 48 + y / 10 mod 10; 48 + y mod 10])) (seqZ 0 10000) = true)
    by (vm_compute; reflexivity).
  apply (seqZ_check _ 0 10000 Hall), bool_decide_eq_true in H. exact H.
Qed.

Lemma is_digit_mod n : is_digit (48 + n mod 10) = true.
Proof. apply is_digit_iff. pose proof (Z.mod_pos_bound n 10). lia. Qed.

Lemma is_digit_div n d : 0 < d → 0 ≤ n < 10 * d → is_digit (48 + n / d) = true.
Proof. intros Hd H. apply is_digit_iff. assert (0 ≤ n / d < 10); [|lia]. split; [apply Z.div_pos; lia|apply Z.div_lt_upper_bound; lia]. Qed.

Lemma two_split n : 0 ≤ n < 100 → digits (two n) ∧ digits_value (two n) = n ∧ length (two n) = 2%nat.
Proof.
  intros H. rewrite two_digits by done. split_and!; [|unfold digits_value; simpl; pose proof (Z.div_mod n 10); lia|done].
  repeat constructor; [apply is_digit_div; lia|apply is_digit_mod].
Qed.

Lemma take_digits_id s : digits s → take_digits s = s.
Proof. intros H. rewrite <- (app_nil_r s) at 1. by apply take_digits_all. Qed.

Lemma digits_at_two n u : 0 ≤ n < 100 → digits_at 1 2 (two n ++ u) = Some (n, u).
Proof.
  intros H. destruct (two_split n H) as (Hd & Hv & Hl). unfold digits_at.
  rewrite take_app_length' by done. rewrite take_digits_id by done. rewrite Hl, Hv. cbn [Nat.ltb Nat.leb]. by rewrite drop_app_length' by done.
Qed.

Lemma year_split y : 0 ≤ y < 10000 → digits (year_text y) ∧ digits_value (year_text y) = y ∧ length (year_text y) = 4%nat.
Proof.
  intros H. rewrite year_text_digits by done. split_and!; [|unfold digits_value; simpl; Z.to_euclidean_division_equations; lia|done].
  repeat constructor; try apply is_digit_mod. apply is_digit_div; lia.
Qed.

(** The six digits of the millionths. *)
Definition six (micro : Z) : list Z := let all := to_string micro in replicate (6 - length all) 48 ++ all.

Lemma six_spec micro : 0 ≤ micro < 1000000 → digits (six micro) ∧ digits_value (six micro) = micro ∧ length (six micro) = 6%nat.
Proof.
  intros H. destruct (to_string_spec micro) as (_ & Hd & Hv); [lia|]. pose proof (to_string_canonical micro ltac:(lia)) as (_ & _ & Hlen).
  unfold six. split_and!; [apply Forall_app; split; [apply zeros_digits|done]|by rewrite replicate_zeros_value|].
  rewrite length_app, length_replicate. assert (length (to_string micro) ≤ 6)%nat; [|lia].
  destruct (Nat.le_gt_cases (length (to_string micro)) 6) as [|Hgt]; [done|]. specialize (Hlen ltac:(lia)). rewrite Hv in Hlen.
  assert (10 ^ 6 ≤ 10 ^ Z.of_nat (length (to_string micro) - 1)) by (apply Z.pow_le_mono_r; lia). lia.
Qed.

Definition micro_unit (k : Z) : Z := 10 ^ Z.max 0 (6 - k).

(** Millionths of at most [k] places. *)
Definition micro_ok (k micro : Z) : Prop := 0 ≤ micro < 1000000 ∧ micro mod micro_unit k = 0.

Lemma micro_text_read k micro : 0 ≤ k ≤ 6 → micro_ok k micro →
  (k = 0 ∧ micro = 0 ∧ micro_text micro k = []) ∨
  ∃ ds, micro_text micro k = c_dot :: ds ∧ digits ds ∧ ds ≠ [] ∧ parse_micro ds = (micro, []).
Proof.
  intros Hk [Hm Hu]. unfold micro_unit in Hu. rewrite Z.max_r in Hu by lia. unfold micro_text. destruct (Z.leb_spec k 0) as [H0|H0].
  { left. replace k with 0 in * by lia. change (10 ^ (6 - 0)) with 1000000 in Hu. rewrite Z.mod_small in Hu by lia. done. }
  right. fold (six micro). destruct (six_spec micro Hm) as (Hd & Hv & Hl). set (j := Z.to_nat k). exists (take j (six micro)).
  assert (Hdt : digits (take j (six micro))) by (by apply Forall_take). assert (Hlt : length (take j (six micro)) = j) by (rewrite length_take; lia).
  split_and!; [done|done|intros E; rewrite E in Hlt; simpl in Hlt; lia|]. unfold parse_micro. rewrite take_digits_id by done.
  rewrite drop_all, lookup_ge_None_2, Z.add_0_r by lia. f_equal. rewrite resize_ge by lia. rewrite append_zeros_value, Hlt.
  destruct (digits_split (six micro) (6 - j) Hd ltac:(lia)) as [Ht _]. rewrite Hl, Hv in Ht. replace (6 - (6 - j))%nat with j in Ht by lia. rewrite Ht.
  replace (Z.of_nat (6 - j)) with (6 - k) by lia. pose proof (Z.div_mod micro (10 ^ (6 - k)) ltac:(lia)). lia.
Qed.

Lemma round_micro_id k micro : micro_ok k micro → round_micro micro k = (micro, 0).
Proof.
  intros [Hm Hu]. unfold round_micro. fold (micro_unit k). assert (Hp : 0 < micro_unit k) by (apply Z.pow_pos_nonneg; lia).
  assert (E : (micro + micro_unit k / 2) / micro_unit k * micro_unit k = micro).
  { pose proof (Z.div_mod micro (micro_unit k) ltac:(lia)) as Hd. rewrite Hu, Z.add_0_r in Hd. rewrite Hd at 1. rewrite (Z.mul_comm _ (micro / _)), Z.add_comm, Z.div_add by lia.
    rewrite Z.div_small; [lia|]. split; [apply Z.div_pos; lia|apply Z.div_lt_upper_bound; lia]. }
  rewrite E, (proj2 (Z.ltb_lt _ _)) by lia. done.
Qed.

Lemma micro_unit_cases k : 0 ≤ k ≤ 6 →
  let u := micro_unit k in 1000000 mod u = 0 ∧ 0 < u ∧ u ≤ 1000000 ∧ (u = 1 ∨ ∃ h, 0 < h ∧ u = 2 * h).
Proof.
  intros Hk. cbv zeta. assert (k = 0 ∨ k = 1 ∨ k = 2 ∨ k = 3 ∨ k = 4 ∨ k = 5 ∨ k = 6) as Hk' by lia.
  destruct_or! Hk'; subst k;
    match goal with |- context [micro_unit ?k] => let u := eval vm_compute in (micro_unit k) in change (micro_unit k) with u end;
    (split; [reflexivity|split; [reflexivity|split; [discriminate|]]]);
    [right; exists 500000|right; exists 50000|right; exists 5000|right; exists 500|right; exists 50|right; exists 5|by left]; done.
Qed.

Lemma round_micro_spec k micro : 0 ≤ k ≤ 6 → 0 ≤ micro ≤ 1000000 →
  let '(m, c) := round_micro micro k in micro_ok k m ∧ (c = 0 ∨ c = 1 ∧ m = 0) ∧ c * 1000000 + m = round_abs false micro (micro_unit k) * micro_unit k.
Proof.
  intros Hk Hm. unfold round_micro. fold (micro_unit k). set (u := micro_unit k).
  destruct (micro_unit_cases k Hk) as (Hu & Hp & Hle & Hh). fold u in Hu, Hp, Hle, Hh.
  assert (Hr : (2 * micro + u) / (2 * u) = (micro + u / 2) / u).
  { destruct Hh as [->|(h & Hh & ->)].
    - change (1 / 2) with 0. rewrite Z.div_1_r. Z.to_euclidean_division_equations; lia.
    - rewrite (Z.mul_comm 2 h), Z.div_mul, <- (Z.div_mul_cancel_l (micro + h) (h * 2) 2) by lia. f_equal; lia. }
 unfold round_abs. rewrite Hr. set (x := (micro + u / 2) / u).
  assert (Hx : 0 ≤ x * u ≤ 1000000).
  { assert (Hq : 0 ≤ u / 2 < u) by (split; [apply Z.div_pos; lia|apply Z.div_lt_upper_bound; lia]).
    assert (0 ≤ x) by (apply Z.div_pos; lia). split; [nia|]. apply Z.mod_divide in Hu as [q Hq']; [|lia].
    assert (x ≤ q); [|nia]. unfold x. apply Z.lt_succ_r, Z.div_lt_upper_bound; [lia|]. nia. }
  destruct (Z.ltb_spec (x * u) 1000000); unfold micro_ok; split_and!; try lia; [by apply Z.mod_mul; lia|].
  fold u. rewrite Zminus_mod, Hu, Z.mod_mul by lia. done.
Qed.

(** ** Calendar values *)

Definition parts_time (p : DateParts) : DateTime :=
  mkDateTime (dp_y p) (dp_mo p) (dp_d p) (dp_h p) (dp_mi p) (dp_s p) (dp_micro p) true (dp_has_time p).

(** A day of the years 1 to 9999 and a time of day; [top] is the bound of the millionths. *)
Definition parts_ok (top : Z) (p : DateParts) : Prop :=
  1 ≤ dp_y p ≤ 9999 ∧ valid_day (dp_y p) (dp_mo p) (dp_d p) ∧ 0 ≤ dp_h p < 24 ∧ 0 ≤ dp_mi p < 60 ∧ 0 ≤ dp_s p < 60 ∧ 0 ≤ dp_micro p < top.

Lemma days_in_month_of y m : days_in y m = days_in_month y m.
Proof. done. Qed.

Lemma valid_day_two y m d : valid_day y m d → 0 ≤ m < 100 ∧ 0 ≤ d < 100.
Proof.
  intros [Hm Hd]. rewrite days_in_month_eq in Hd by done. repeat case_match; lia.
Qed.

Definition ends_in_digit (s : list Z) : Prop := ∃ a b, s = a ++ b ∧ b ≠ [] ∧ digits b.

Lemma trim_front_id s : no_head is_white s → trim_front s = s.
Proof. destruct s as [|c s]; [done|]. simpl. by intros ->. Qed.

Lemma trimmed_id s : no_head is_white s → ends_in_digit s → trimmed s = s.
Proof.
  intros Hh (a & b & -> & Hne & Hb). unfold trimmed. rewrite (trim_front_id _ Hh).
  assert (Hr : no_head is_white (reverse (a ++ b))).
  { rewrite reverse_app. apply no_white_head; [by apply Forall_reverse, digits_no_white|].
    intros E%(f_equal length). rewrite length_reverse in E. by destruct b. }
  by rewrite (trim_front_id _ Hr), reverse_involutive.
Qed.

Lemma ends_app a b : ends_in_digit b → ends_in_digit (a ++ b).
Proof. intros (x & y & -> & H). exists (a ++ x), y. by rewrite app_assoc. Qed.

Lemma ends_digits b : digits b → b ≠ [] → ends_in_digit b.
Proof. intros H Hne. by exists [], b. Qed.

Lemma ends_two n : 0 ≤ n < 100 → ends_in_digit (two n).
Proof. intros H. destruct (two_split n H) as (Hd & _ & Hl). apply ends_digits; [done|]. by intros E; rewrite E in Hl. Qed.

Lemma ends_micro n k micro : 0 ≤ n < 100 → 0 ≤ k ≤ 6 → micro_ok k micro → ends_in_digit (two n ++ micro_text micro k).
Proof.
  intros Hn Hk Hm. destruct (micro_text_read k micro Hk Hm) as [(_ & _ & ->)|(ds & -> & Hd & Hne & _)].
  - rewrite app_nil_r. by apply ends_two.
  - apply ends_app, (ends_app [c_dot]), ends_digits; done.
Qed.

Lemma year_head y (t : list Z) : 0 ≤ y < 10000 → no_head is_white (year_text y ++ t).
Proof.
  intros H. rewrite year_text_digits by done. simpl. apply digit_no_white, is_digit_div; lia.
Qed.

Lemma separator_minus u : date_separator (c_minus :: u) = Some u.
Proof. done. Qed.

Lemma after_char c u : after c (c :: u) = Some u.
Proof. simpl. by rewrite Z.eqb_refl. Qed.

(** A date of the stored form with [u] behind it. *)
Lemma separated_stored p u : parts_ok 1000000 p →
  count_digits (date_text p ++ u) = 4%nat ∧ drop 4 (date_text p ++ u) = c_minus :: two (dp_mo p) ++ c_minus :: two (dp_d p) ++ u ∧
  separated_date (date_text p ++ u) = Some (mkParts (dp_y p) (dp_mo p) (dp_d p) 0 0 0 0 false, u).
Proof.
  intros (Hy & Hv & _). destruct (year_split (dp_y p) ltac:(lia)) as (Hd & Hyv & Hl). apply valid_day_two in Hv as [Hmo Hdd].
  assert (E : date_text p ++ u = year_text (dp_y p) ++ c_minus :: two (dp_mo p) ++ c_minus :: two (dp_d p) ++ u).
  { unfold date_text. rewrite <- !app_assoc. simpl. by rewrite <- app_assoc. }
  rewrite E. unfold count_digits. rewrite take_digits_all by done. split_and!; [done|by rewrite drop_app_length' by done|].
  unfold separated_date. rewrite take_app_length', take_digits_id, Hl, Hyv by done. cbn [Nat.eqb]. rewrite drop_app_length' by done.
  cbn [mbind option_bind]. rewrite separator_minus. cbn [mbind option_bind]. rewrite digits_at_two by done.
  cbn [mbind option_bind]. rewrite separator_minus. cbn [mbind option_bind]. by rewrite digits_at_two.
Qed.

Lemma parse_stored p u q : parts_ok 1000000 p → trimmed (date_text p ++ u) = date_text p ++ u →
  clock_behind (mkParts (dp_y p) (dp_mo p) (dp_d p) 0 0 0 0 false) u = Some q →
  dp_y q = dp_y p ∧ dp_mo q = dp_mo p ∧ dp_d q = dp_d p ∧ 0 ≤ dp_h q < 24 ∧ 0 ≤ dp_mi q < 60 ∧ 0 ≤ dp_s q < 60 →
  parse_date_text (date_text p ++ u) = Some q.
Proof.
  intros Hok Ht Hc (Ey & Em & Ed & Hh & Hmi & Hs). destruct (separated_stored p u Hok) as (Hrun & Hrest & Hsep). destruct Hok as (Hy & [Hm Hd] & _).
  unfold parse_date_text. rewrite Ht, Hrun, Hrest. cbv zeta. change (_ && _ && _) with false. rewrite Hsep. cbn [mbind option_bind]. rewrite Hc. cbn [mbind option_bind].
  rewrite Ey, Em, Ed, days_in_month_of. rewrite !(proj2 (Z.ltb_ge _ _)) by lia. done.
Qed.

Lemma parse_date_stored p : parts_ok 1000000 p → parse_date_text (date_text p) = Some (mkParts (dp_y p) (dp_mo p) (dp_d p) 0 0 0 0 false).
Proof.
  intros Hok. rewrite <- (app_nil_r (date_text p)). apply parse_stored; [done| |done|simpl; split_and!; done || lia].
  rewrite app_nil_r. destruct (Hok) as (Hy & Hv & _). apply valid_day_two in Hv as [? ?]. apply trimmed_id.
  - apply year_head. lia.
  - unfold date_text. apply ends_app, (ends_app [c_minus]), ends_app, (ends_app [c_minus]), ends_two. done.
Qed.

Lemma parse_datetime_stored p k : parts_ok 1000000 p → 0 ≤ k ≤ 6 → micro_ok k (dp_micro p) →
  parse_date_text (datetime_text p k) = Some (mkParts (dp_y p) (dp_mo p) (dp_d p) (dp_h p) (dp_mi p) (dp_s p) (dp_micro p) true).
Proof.
  intros Hok Hk Hmic. unfold datetime_text. destruct (Hok) as (Hy & Hv & Hh & Hmi & Hs & _). apply parse_stored; [done| | |simpl; lia].
  - apply trimmed_id; [unfold date_text; rewrite <- app_assoc; apply year_head; lia|]. unfold clock_text.
    rewrite <- app_assoc. cbn [app]. rewrite <- app_assoc.
    apply ends_app, (ends_app [32]), ends_app, (ends_app [58]), ends_app, (ends_app [58]), ends_micro; (done || lia).
  - unfold clock_behind. cbn [dp_has_time dp_y dp_mo dp_d]. change (negb _) with false. cbv iota. unfold clock_text. rewrite <- app_assoc.
    rewrite digits_at_two by lia. cbn [mbind option_bind app]. rewrite after_char. cbn [mbind option_bind]. rewrite <- app_assoc.
    rewrite digits_at_two by lia. cbn [mbind option_bind app]. rewrite after_char. rewrite digits_at_two by lia. cbn [mbind option_bind].
    destruct (micro_text_read k (dp_micro p) Hk Hmic) as [(_ & -> & ->)|(ds & -> & _ & _ & Hp)]; [done|].
    rewrite after_char. cbn [mbind option_bind]. by rewrite Hp.
Qed.

(** What is read is in range before it is checked. *)
Definition raw_ok (p : DateParts) : Prop :=
  0 ≤ dp_y p ≤ 9999 ∧ 0 ≤ dp_h p ∧ 0 ≤ dp_mi p ∧ 0 ≤ dp_s p ∧ 0 ≤ dp_micro p ≤ 1000000.

Lemma digits_at_nonneg a b s v u : digits_at a b s = Some (v, u) → 0 ≤ v.
Proof.
  unfold digits_at. destruct (_ <? _)%nat; [done|]. intros [= <- _]. apply digits_value_bound, take_digits_split.
Qed.

Lemma parse_micro_bound s m u : parse_micro s = (m, u) → 0 ≤ m ≤ 1000000.
Proof.
  unfold parse_micro. intros [= <- _]. assert (Hd : digits (resize 6 48 (take_digits s))).
  { apply Forall_resize; [done|apply take_digits_split]. }
  pose proof (digits_value_bound _ Hd) as Hb. rewrite length_resize in Hb. change (10 ^ Z.of_nat 6) with 1000000 in Hb.
  destruct (match _ with Some _ => _ | None => _ end); lia.
Qed.

Lemma digit_at s i : (i < count_digits s)%nat → 48 ≤ s !!! i ≤ 57.
Proof.
  unfold count_digits. intros H. destruct (take_digits_split s) as [E Hd]. rewrite E, lookup_total_app_l by done.
  apply is_digit_iff. destruct (lookup_lt_is_Some_2 _ _ H) as [c Hc]. rewrite (list_lookup_total_correct _ _ _ Hc). by apply (Forall_lookup_1 _ _ _ _ Hd Hc).
Qed.

Lemma two_at_bound s i : (S i < count_digits s)%nat → 0 ≤ two_at s i ≤ 99.
Proof. intros H. unfold two_at. pose proof (digit_at s i ltac:(lia)). pose proof (digit_at s (S i) H). lia. Qed.

Lemma short_year_bound t : 0 ≤ t ≤ 99 → 1970 ≤ short_year_of t ≤ 2069.
Proof. intros H. unfold short_year_of. destruct (Z.ltb_spec t 70); lia. Qed.

Lemma compact_date_raw s rest p u :
  let run := count_digits s in
  (run = 6 ∨ run = 8 ∨ run = 12 ∨ run = 14)%nat → compact_date s run rest = Some (p, u) → raw_ok p.
Proof.
  cbv zeta. set (run := count_digits s). intros Hrun. unfold compact_date.
  assert (Hy : 0 ≤ (if ((run =? 8) || (run =? 14))%nat then two_at s 0 * 100 + two_at s 2 else short_year_of (two_at s 0)) ≤ 9999).
  { pose proof (two_at_bound s 0 ltac:(fold run; lia)). pose proof (two_at_bound s 2 ltac:(fold run; lia)). pose proof (short_year_bound (two_at s 0)).
    destruct (_ || _); lia. }
  destruct (Nat.leb_spec 12 run) as [H12|H12]; [|intros [= <- _]; unfold raw_ok; simpl; lia].
  assert (Hat : ((if ((run =? 8) || (run =? 14))%nat then 4 else 2) + 9 < run)%nat).
  { assert (Hr : (run = 12 ∨ run = 14)%nat) by lia. by destruct Hr as [-> | ->]; simpl; lia. }
  set (at_ := if _ : bool then 4%nat else 2%nat) in *.
  destruct (match rest with c :: t => if c =? c_dot then parse_micro t else (0, rest) | [] => (0, []) end) as [micro u'] eqn:Em.
  assert (Hm : 0 ≤ micro ≤ 1000000).
  { destruct rest as [|c t]; [injection Em as <- _; lia|]. destruct (c =? c_dot); [by eapply parse_micro_bound|injection Em as <- _; lia]. }
  destruct u'; [|done]. intros [= <- _]. unfold raw_ok. cbn [dp_y dp_h dp_mi dp_s dp_micro].
  pose proof (two_at_bound s (at_ + 4) ltac:(fold run; lia)). pose proof (two_at_bound s (at_ + 6) ltac:(fold run; lia)).
  pose proof (two_at_bound s (at_ + 8) ltac:(fold run; lia)). lia.
Qed.

Lemma separated_date_raw s p u : separated_date s = Some (p, u) → raw_ok p.
Proof.
  unfold separated_date. set (ds := take_digits (take 4 s)). assert (Hd : digits ds) by apply take_digits_split.
  pose proof (digits_value_bound ds Hd) as Hb. 
  destruct (if (length ds =? 4)%nat then _ else _) as [[y v]|] eqn:Ey; [|done]. cbn [mbind option_bind].
  assert (Hy : 0 ≤ y ≤ 9999).
  { destruct (Nat.eqb_spec (length ds) 4) as [E|_]; [rewrite E in Hb; injection Ey as <- _; change (10 ^ Z.of_nat 4) with 10000 in Hb; lia|].
    destruct (Nat.eqb_spec (length ds) 2) as [E|_]; [|done]. rewrite E in Hb. injection Ey as <- _. change (10 ^ Z.of_nat 2) with 100 in Hb.
    pose proof (short_year_bound (digits_value ds)). lia. }
  destruct (date_separator v) as [v1|]; [|done]. cbn [mbind option_bind]. destruct (digits_at 1 2 v1) as [[mo v2]|]; [|done]. cbn [mbind option_bind].
  destruct (date_separator v2) as [v3|]; [|done]. cbn [mbind option_bind]. destruct (digits_at 1 2 v3) as [[d v4]|]; [|done]. cbn [mbind option_bind].
  intros [= <- _]. unfold raw_ok. simpl. lia.
Qed.

Lemma clock_behind_raw p u q : raw_ok p → clock_behind p u = Some q →
  raw_ok q ∧ dp_y q = dp_y p.
Proof.
  intros Hp. unfold clock_behind. destruct u as [|c t]; [by intros [= <-]|]. destruct (dp_has_time p); [by intros [= <-]|].
  destruct (negb _); [done|]. destruct (digits_at 1 2 t) as [[h v]|] eqn:Eh; [|done]. cbn [mbind option_bind].
  destruct (after 58 v) as [v1|]; [|done]. cbn [mbind option_bind]. destruct (digits_at 1 2 v1) as [[mi v2]|] eqn:Emi; [|done]. cbn [mbind option_bind].
  apply digits_at_nonneg in Eh, Emi.
  destruct (match after 58 v2 with Some _ => _ | None => _ end) as [[[se micro] v3]|] eqn:Es; [|done]. cbn [mbind option_bind].
  assert (Hs : 0 ≤ se ∧ 0 ≤ micro ≤ 1000000).
  { destruct (after 58 v2) as [v4|]; [|injection Es as <- <- _; lia]. destruct (digits_at 1 2 v4) as [[se' v5]|] eqn:Ese; [|done].
    apply digits_at_nonneg in Ese. cbn [mbind option_bind] in Es. destruct (after c_dot v5) as [v6|]; [|injection Es as <- <- _; lia].
    destruct (parse_micro v6) as [m v7] eqn:Em. apply parse_micro_bound in Em. injection Es as <- <- _. lia. }
  destruct v3; [|done]. intros [= <-]. unfold raw_ok in *. simpl. lia.
Qed.

(** A date is read only when it is one of the calendar, at a time of day. *)
Lemma parse_date_ok value p : parse_date_text value = Some p → parts_ok 1000001 p.
Proof.
  unfold parse_date_text. set (s := trimmed value).
  destruct (if _ && _ then compact_date _ _ _ else separated_date s) as [[q u]|] eqn:Eq; [|done]. cbn [mbind option_bind].
  destruct (clock_behind q u) as [r|] eqn:Er; [|done]. cbn [mbind option_bind].
  assert (Hq : raw_ok q).
  { destruct (_ && _) eqn:Ec; [|by eapply separated_date_raw]. apply andb_true_iff in Ec as [_ Ec].
    rewrite !orb_true_iff, !Nat.eqb_eq in Ec. eapply compact_date_raw; [|exact Eq]. tauto. }
  destruct (clock_behind_raw q u r Hq Er) as [(Hy & Hh & Hmi & Hs & Hm) _].
  destruct ((dp_y r <? 1) || _ || _ || _ || _) eqn:E1; [done|]. destruct ((23 <? dp_h r) || _ || _) eqn:E2; [done|]. intros [= <-]. bool_cases.
  rewrite days_in_month_of in *. unfold parts_ok, valid_day. lia.
Qed.

Lemma next_second_spec top p : parts_ok top p →
  match next_second p with
  | Some q => parts_ok top q ∧ dp_micro q = dp_micro p ∧ epoch_seconds (parts_time q) = epoch_seconds (parts_time p) + 1
  | None => dp_y p = 9999 ∧ dp_mo p = 12 ∧ dp_d p = 31 ∧ dp_h p = 23 ∧ dp_mi p = 59 ∧ dp_s p = 59
  end.
Proof.
  intros (Hy & Hv & Hh & Hmi & Hs & Hm). pose proof (next_day_spec _ _ _ Hv) as Hn. unfold next_second, next_day, parts_ok, epoch_seconds, epoch_days, parts_time in *.
  rewrite days_in_month_of.
  destruct (Z.ltb_spec (dp_s p + 1) 60); [simpl; split_and!; (done || lia)|].
  destruct (Z.ltb_spec (dp_mi p + 1) 60); [simpl; split_and!; (done || lia)|].
  destruct (Z.ltb_spec (dp_h p + 1) 24); [simpl; split_and!; (done || lia)|].
  destruct (Hv) as [Hm' Hd].
  destruct (Z.leb_spec (dp_d p + 1) (days_in_month (dp_y p) (dp_mo p))), (Z.ltb_spec (dp_d p) (days_in_month (dp_y p) (dp_mo p))); try lia.
  { destruct Hn as [? Hn]. simpl in *. rewrite Hn. split_and!; (done || lia). }
  destruct (Z.leb_spec (dp_mo p + 1) 12), (Z.ltb_spec (dp_mo p) 12); try lia.
  { destruct Hn as [? Hn]. simpl in *. rewrite Hn. split_and!; (done || lia). }
  destruct Hn as [? Hn]. destruct (Z.leb_spec (dp_y p + 1) 9999); simpl in *; [rewrite Hn; split_and!; (done || lia)|].
  replace (dp_mo p) with 12 in * by lia. rewrite days_in_month_eq in * by lia. simpl in *. lia.
Qed.

(** The fraction is rounded on the time line: to the nearest multiple of the column's unit, the later one of two. *)
Lemma round_micros s micro k : 0 ≤ k ≤ 6 → 0 ≤ micro ≤ 1000000 →
  let '(m, c) := round_micro micro k in
  micro_ok k m ∧ (c = 0 ∨ c = 1 ∧ m = 0) ∧ (s + c) * 1000000 + m = round_abs false (s * 1000000 + micro) (micro_unit k) * micro_unit k.
Proof.
  intros Hk Hm. pose proof (round_micro_spec k micro Hk Hm) as H. destruct (round_micro micro k) as [m c]. destruct H as (H1 & H2 & H3).
  split_and!; [done|done|]. destruct (micro_unit_cases k Hk) as (Hu & Hp & _). set (u := micro_unit k) in *. unfold round_abs in *.
  apply Z.mod_divide in Hu as [q Hq]; [|lia].
  replace (2 * (s * 1000000 + micro) + u) with (2 * micro + u + (s * q) * (2 * u)) by (rewrite Hq; ring). rewrite Z.div_add by lia.
  set (x := (2 * micro + u) / (2 * u)) in *. transitivity (s * (q * u) + x * u); [rewrite <- Hq; lia|ring].
Qed.

Lemma rounded_datetime_spec value k p : 0 ≤ k ≤ 6 → parse_date_text value = Some p →
  let r := round_abs false (epoch_micros (parts_time p)) (micro_unit k) * micro_unit k in
  match rounded_datetime value k with
  | Some q => parts_ok 1000000 q ∧ micro_ok k (dp_micro q) ∧ epoch_micros (parts_time q) = r
  | None => r = epoch_micros (mkDateTime 10000 1 1 0 0 0 0 true true)
  end.
Proof.
  intros Hk Hp. pose proof (parse_date_ok value p Hp) as Hok. cbv zeta. unfold rounded_datetime. rewrite Hp. cbn [mbind option_bind].
  assert (Hm : 0 ≤ dp_micro p ≤ 1000000) by (unfold parts_ok in Hok; lia).
  pose proof (round_micros (epoch_seconds (parts_time p)) (dp_micro p) k Hk Hm) as Hr. destruct (round_micro (dp_micro p) k) as [m c].
  destruct Hr as (Hmo & Hc & Hr). unfold epoch_micros at 1 3. cbn [parts_time dt_micro]. fold (parts_time p).
  assert (Hset : parts_ok 1000000 (set_micro p m)) by (destruct Hmo; unfold parts_ok in *; simpl; tauto).
  assert (Hsec : epoch_seconds (parts_time (set_micro p m)) = epoch_seconds (parts_time p)) by done.
  destruct Hc as [-> |[-> ->]].
  - change (0 =? 1) with false. cbv iota. split_and!; [done|done|]. unfold epoch_micros. rewrite Hsec. cbn [parts_time dt_micro set_micro dp_micro]. fold (parts_time p). lia.
  - change (1 =? 1) with true. cbv iota. pose proof (next_second_spec 1000000 _ Hset) as Hn. destruct (next_second (set_micro p 0)) as [q|].
    + destruct Hn as (Hq & Em & Es). rewrite Hsec in Es. cbn [set_micro dp_micro] in Em. split_and!; [done|by rewrite Em|]. unfold epoch_micros. rewrite Es.
      cbn [parts_time dt_micro]. fold (parts_time p). lia.
    + destruct Hn as (E1 & E2 & E3 & E4 & E5 & E6). cbn [set_micro dp_y dp_mo dp_d dp_h dp_mi dp_s] in *.
      assert (Es : epoch_seconds (parts_time p) = 253402300799) by (unfold epoch_seconds, epoch_days, parts_time; cbn [dt_year dt_month dt_day dt_hour dt_minute dt_second]; by rewrite E1, E2, E3, E4, E5, E6).
      rewrite Es in Hr |- *. rewrite <- Hr. by vm_compute.
Qed.

(** ** Times *)

Definition time_ok (top : Z) (p : TimeParts) : Prop :=
  0 ≤ tp_hours p ∧ 0 ≤ tp_minutes p < 60 ∧ 0 ≤ tp_seconds p < 60 ∧ 0 ≤ tp_micro p < top.

(** The millionths of a second of a time without its sign. *)
Definition time_micros (p : TimeParts) : Z := (tp_hours p * 3600 + tp_minutes p * 60 + tp_seconds p) * 1000000 + tp_micro p.

Definition number_step (v c : Z) : Z := if v <? 1000000000000 then v * 10 + (c - 48) else v.

Lemma number_steps ds v : digits ds → 0 ≤ v → 0 ≤ fold_left number_step ds v ∧
  (v * 10 ^ Z.of_nat (length ds) + digits_value ds < 1000000000000 → fold_left number_step ds v = v * 10 ^ Z.of_nat (length ds) + digits_value ds).
Proof.
  intros Hd. revert v. induction Hd as [|c ds Hc Hd IH]; intros v Hv; cbn [fold_left length].
  { change (digits_value []) with 0. simpl Z.of_nat. split; [done|intros; lia]. }
  apply is_digit_iff in Hc. rewrite pow10_succ, digits_value_cons. pose proof (digits_value_bound ds Hd). pose proof (pow10_pos (length ds)).
  unfold number_step at 2 4. destruct (Z.ltb_spec v 1000000000000).
  - destruct (IH (v * 10 + (c - 48)) ltac:(lia)) as [Hn He]. split; [done|]. intros Hb. rewrite He by lia. lia.
  - split; [by apply IH|]. intros Hb. exfalso. nia.
Qed.

Lemma long_number_nonneg s v u : long_number s = Some (v, u) → 0 ≤ v.
Proof.
  unfold long_number. destruct (take_digits_split s) as [_ Hd]. destruct (take_digits s) as [|c ds] eqn:E; [done|]. intros [= <- _].
  by apply (number_steps (c :: ds) 0 Hd).
Qed.

Lemma long_number_text ds u : digits ds → ds ≠ [] → digits_value ds < 1000000000000 → no_head is_digit u → long_number (ds ++ u) = Some (digits_value ds, u).
Proof.
  intros Hd Hne Hb Hu. unfold long_number. rewrite take_digits_all by (done || by destruct u). rewrite drop_app_length.
  destruct (number_steps ds 0 Hd ltac:(lia)) as [_ E]. fold number_step. destruct ds as [|c ds]; [done|]. rewrite E by lia. done.
Qed.

Lemma time_micro_bound s m u : time_micro s = (m, u) → 0 ≤ m ≤ 1000000.
Proof. unfold time_micro. destruct (after c_dot s); [apply parse_micro_bound|intros [= <- _]; lia]. Qed.

Lemma parse_time_ok value p : parse_time_text value = Some p → time_ok 1000001 p.
Proof.
  unfold parse_time_text. destruct (match trimmed value with c :: u => _ | [] => _ end) as [neg t].
  destruct (long_number t) as [[first t1]|] eqn:E1; [|done]. cbn [mbind option_bind]. apply long_number_nonneg in E1.
  destruct (match after 32 t1 with Some _ => _ | None => _ end) as [[[[days wd] hours] t2]|] eqn:E2; [|done]. cbn [mbind option_bind].
  assert (Hd : 0 ≤ days ∧ 0 ≤ hours).
  { destruct (after 32 t1) as [u|]; [|injection E2 as <- _ <- _; lia]. destruct (long_number u) as [[h u2]|] eqn:E3; [|done].
    apply long_number_nonneg in E3. injection E2 as <- _ <- _. lia. }
  clear E2. destruct (match after 58 t2 with Some _ => _ | None => _ end) as [[r t3]|] eqn:E3; [|done]. cbn [mbind option_bind].
  assert (Hr : 0 ≤ tp_hours r ∧ 0 ≤ tp_minutes r ∧ 0 ≤ tp_seconds r ∧ 0 ≤ tp_micro r ≤ 1000000).
  { destruct (after 58 t2) as [u|].
    - destruct (long_number u) as [[mi u2]|] eqn:E4; [|done]. cbn [mbind option_bind] in E3. apply long_number_nonneg in E4.
      destruct (match after 58 u2 with Some _ => _ | None => _ end) as [[[se mc] u4]|] eqn:E5; [|done]. injection E3 as <- _. simpl.
      assert (0 ≤ se ∧ 0 ≤ mc ≤ 1000000); [|lia]. destruct (after 58 u2) as [u3|]; [|injection E5 as <- <- _; lia].
      destruct (long_number u3) as [[se' u5]|] eqn:E6; [|done]. cbn [mbind option_bind] in E5. destruct (time_micro u5) as [mc' u6] eqn:E7.
      apply long_number_nonneg in E6. apply time_micro_bound in E7. injection E5 as <- <- _. lia.
    - destruct wd; [destruct neg; [done|]; injection E3 as <- _; simpl; lia|]. destruct (time_micro t2) as [mc u] eqn:E4. apply time_micro_bound in E4.
      injection E3 as <- _. cbn [tp_hours tp_minutes tp_seconds tp_micro]. rewrite !Z.quot_div_nonneg by lia.
      pose proof (Z.div_pos hours 100 ltac:(lia)). rewrite !Z.rem_mod_nonneg by lia. pose proof (Z.mod_pos_bound hours 100). pose proof (Z.mod_pos_bound (hours / 100) 100).
      pose proof (Z.div_pos hours 10000). lia. }
  destruct t3; [|done]. destruct (_ || _) eqn:E4; [done|]. intros [= <-]. bool_cases. unfold time_ok. lia.
Qed.

Lemma rounded_time_spec value k p : 0 ≤ k ≤ 6 → parse_time_text value = Some p →
  ∃ q, rounded_time value k = Some q ∧ time_ok 1000000 q ∧ micro_ok k (tp_micro q) ∧ tp_negative q = tp_negative p ∧
    time_micros q = round_abs false (time_micros p) (micro_unit k) * micro_unit k.
Proof.
  intros Hk Hp. destruct (parse_time_ok value p Hp) as (Hh & Hmi & Hs & Hm). unfold rounded_time. rewrite Hp. cbn [mbind option_bind].
  pose proof (round_micros (tp_hours p * 3600 + tp_minutes p * 60 + tp_seconds p) (tp_micro p) k Hk ltac:(lia)) as Hr.
  fold (time_micros p) in Hr. destruct (round_micro (tp_micro p) k) as [m c]. destruct Hr as (Hmo & Hc & Hr).
  set (total := tp_hours p * 3600 + tp_minutes p * 60 + tp_seconds p + c) in *. assert (Ht : 0 ≤ total) by lia.
  eexists. split; [reflexivity|]. rewrite <- Hr. unfold time_ok, time_micros. cbn [tp_hours tp_minutes tp_seconds tp_micro tp_negative].
  pose proof (proj1 Hmo). rewrite !Z.quot_div_nonneg, !Z.rem_mod_nonneg by (try apply Z.div_pos; lia).
  assert (E : total / 3600 = total / 60 / 60) by (by rewrite Z.div_div by lia).
  pose proof (Z.div_mod total 60). pose proof (Z.div_mod (total / 60) 60). pose proof (Z.mod_pos_bound total 60). pose proof (Z.mod_pos_bound (total / 60) 60).
  pose proof (Z.div_pos total 3600). split_and!; (done || lia).
Qed.

Definition hours_text (h : Z) : list Z := let t := to_string h in if (length t <? 2)%nat then 48 :: t else t.

Lemma hours_text_spec h : 0 ≤ h → digits (hours_text h) ∧ digits_value (hours_text h) = h ∧ hours_text h ≠ [].
Proof.
  intros Hh. destruct (to_string_spec h Hh) as (Hne & Hd & Hv). unfold hours_text. destruct (_ <? 2)%nat; [|done].
  split_and!; [by constructor|rewrite digits_value_cons, Hv; lia|done].
Qed.

(** A stored time is read back, with no sign when it is zero. *)
Lemma parse_time_stored p k : time_ok 1000000 p → tp_hours p < 1000000000000 → 0 ≤ k ≤ 6 → micro_ok k (tp_micro p) →
  parse_time_text (time_text p k) = Some (mkTimeParts (tp_negative p && negb (time_micros p =? 0)) (tp_hours p) (tp_minutes p) (tp_seconds p) (tp_micro p)).
Proof.
  intros (Hh & Hmi & Hs & Hm) Hb Hk Hmo. unfold time_text. fold (hours_text (tp_hours p)). cbv zeta.
  assert (Ez : (tp_hours p =? 0) && (tp_minutes p =? 0) && (tp_seconds p =? 0) && (tp_micro p =? 0) = (time_micros p =? 0)).
  { apply eq_true_iff_eq. rewrite !andb_true_iff, !Z.eqb_eq. unfold time_micros. lia. }
  rewrite Ez. set (neg := tp_negative p && negb (time_micros p =? 0)). destruct (hours_text_spec (tp_hours p) Hh) as (Hhd & Hhv & Hhn).
  destruct (two_split (tp_minutes p) ltac:(lia)) as (Hmd & Hmv & Hml). destruct (two_split (tp_seconds p) ltac:(lia)) as (Hsd & Hsv & Hsl).
  unfold clock_text. rewrite <- !app_assoc. cbn [app]. rewrite <- app_assoc. cbn [app].
  set (rest := 58 :: two (tp_minutes p) ++ 58 :: two (tp_seconds p) ++ micro_text (tp_micro p) k).
  assert (Hhead : no_head is_white (hours_text (tp_hours p) ++ rest) ∧ no_head (λ c, c =? c_minus) (hours_text (tp_hours p) ++ rest)).
  { destruct Hhd as [|c l Hc _]; [done|]. simpl. split; [by apply digit_no_white|]. apply is_digit_iff in Hc. apply Z.eqb_neq. lia. }
  unfold parse_time_text. rewrite trimmed_id.
  2: { destruct neg; [done|]. by apply Hhead. }
  2: { apply ends_app, ends_app, (ends_app [58]), ends_app, (ends_app [58]), ends_micro; (done || lia). }
  assert (Es : match (if neg then [c_minus] else []) ++ hours_text (tp_hours p) ++ rest with c :: u => if c =? c_minus then (true, u)
     else (false, (if neg then [c_minus] else []) ++ hours_text (tp_hours p) ++ rest) | [] => (false, []) end = (neg, hours_text (tp_hours p) ++ rest)).
  { destruct neg; [done|]. simpl. destruct Hhead as [_ Hhead]. destruct (hours_text (tp_hours p) ++ rest) as [|c u]; [done|]. simpl in Hhead. by rewrite Hhead. }
  rewrite Es, long_number_text by (try done; by rewrite Hhv). cbn [mbind option_bind]. rewrite Hhv. unfold rest at 1. cbn [after]. change (58 =? 32) with false. cbv iota.
  cbn [mbind option_bind]. unfold rest. rewrite after_char.
  rewrite long_number_text by (try done; try lia; by intros E; rewrite E in Hml). cbn [mbind option_bind]. rewrite after_char.
  destruct (micro_text_read k (tp_micro p) Hk Hmo) as [(_ & -> & ->)|(ds & -> & _ & _ & Hp)];
    (rewrite long_number_text; [|done|by intros E; rewrite E in Hsl|lia|done]); cbn [mbind option_bind];
    [change (time_micro []) with (0, @nil Z)|change (time_micro (c_dot :: ds)) with (parse_micro ds); rewrite Hp]; cbn [mbind option_bind tp_minutes tp_seconds]; rewrite Hmv, Hsv, !Z.min_l by lia;
    rewrite !(proj2 (Z.ltb_ge _ _)) by lia; done.
Qed.

Lemma with_point_split places ds : digits ds →
  ∃ ip fp, with_point places ds = ip ++ c_dot :: fp ∧ digits ip ∧ digits fp ∧ ip ≠ [] ∧ length fp = places ∧
    digits_value (ip ++ fp) = digits_value ds ∧ (length ip ≤ S (length ds))%nat.
Proof.
  intros Hd. unfold with_point. set (l := if (length ds <=? places)%nat then _ else ds).
  assert (Hl : digits l ∧ digits_value l = digits_value ds ∧ (places < length l ≤ places + S (length ds))%nat).
  { unfold l. destruct (Nat.leb_spec (length ds) places); [|split_and!; (done || lia)].
    rewrite replicate_zeros_value, length_app, length_replicate. split_and!; [apply Forall_app; split; [apply zeros_digits|done]|done|lia|lia]. }
  destruct Hl as (Hdl & Hv & Hl & Hu). exists (take (length l - places) l), (drop (length l - places) l).
  rewrite take_drop, length_drop, length_take. split_and!; [done|by apply Forall_take|by apply Forall_drop| |lia|done|lia].
  intros E%(f_equal length). rewrite length_take in E. simpl in E. lia.
Qed.

(** The texts of a column are numbers of the value they stand for. *)
Lemma place_text_number places n : Z.abs n < 10 ^ 300 →
  ∃ ip fp, column_numeral (place_text places n) (n <? 0) ip fp 0 ∧ (column_value (n <? 0) ip fp 0 == dec n places)%Q.
Proof.
  intros Hn. destruct (to_string_spec (Z.abs n) ltac:(lia)) as (Hne & Hd & Hv). pose proof (to_string_canonical (Z.abs n) ltac:(lia)) as (_ & _ & Hlen).
  assert (Hl : (length (to_string (Z.abs n)) ≤ 300)%nat).
  { destruct (Nat.le_gt_cases (length (to_string (Z.abs n))) 300) as [|Hgt]; [done|]. specialize (Hlen ltac:(lia)). rewrite Hv in Hlen.
    assert (10 ^ 300 ≤ 10 ^ Z.of_nat (length (to_string (Z.abs n)) - 1)); [apply Z.pow_le_mono_r; lia|lia]. }
  assert (Hs : signed (n <? 0) (Z.abs n) = n) by (destruct (Z.ltb_spec n 0); simpl; lia).
  unfold place_text. fold (sign_chars (n <? 0)). destruct (Nat.ltb_spec 0 places) as [Hp|Hp].
  - destruct (with_point_split places _ Hd) as (ip & fp & -> & Hi & Hf & Hin & Hfl & Hvv & Hil). exists ip, fp. split.
    + exists [], (sign_chars (n <? 0)), (c_dot :: fp), [], []. rewrite !app_nil_r.
      split_and!; try done; try apply Forall_nil_2; first [apply sign_chars_of|by left|by right|lia].
    + unfold column_value. by rewrite dec_scaled, Hvv, Hv, Hs, Hfl.
  - exists (to_string (Z.abs n)), []. split; [apply column_numeral_plain; (done || lia)|]. unfold column_value. replace places with 0%nat by lia.
    by rewrite dec_scaled, app_nil_r, Hv, Hs.
Qed.

Lemma nearest_units places n : nearest places (dec n places) = n.
Proof.
  rewrite nearest_dec. pose proof (pow10_pos places). destruct (Z.le_gt_cases 0 n) as [Hn|Hn].
  - pose proof (round_signed false (n * 10 ^ Z.of_nat places) (10 ^ Z.of_nat places)) as E. cbn [signed] in E.
    rewrite E, round_abs_exact by (done || nia). done.
  - pose proof (round_signed true (- n * 10 ^ Z.of_nat places) (10 ^ Z.of_nat places)) as E. cbn [signed] in E.
    replace (- (- n * 10 ^ Z.of_nat places)) with (n * 10 ^ Z.of_nat places) in E by ring. rewrite E, round_abs_exact by (done || nia). lia.
Qed.

(** ** What a column holds *)

Section stored.
Context (to_chars : bool → spec_float → list Z) (json_accept : list Z → bool).

(** The texts a column of a type holds. *)
Definition stored_form (dt : DataType) (u : bool) (v : list Z) : Prop :=
  match dt with
  | TInt | TBigInt | TSmallInt | TTinyInt | TBoolean => ∃ lo hi n, integer_bounds dt u = Some (lo, hi) ∧ lo ≤ n ≤ hi ∧ v = place_text 0 n
  | TDecimal precision scale => ∃ n, Z.abs n < 10 ^ precision ∧ (u = true → 0 ≤ n) ∧ v = place_text (Z.to_nat scale) n
  | TFloat | TDouble => v = [48] ∨ v = [49] ∨ ∃ x, is_finite x = true ∧ v = format_double to_chars x (match dt with TFloat => true | _ => false end)
  | TVarchar limit => Z.of_nat (utf8_length v) ≤ limit
  | TDate => ∃ p, parts_ok 1000000 p ∧ v = date_text p
  | TDateTime k | TTimestamp k => ∃ p, parts_ok 1000000 p ∧ micro_ok k (dp_micro p) ∧ v = datetime_text p k
  | TTime k => ∃ p, time_ok 1000000 p ∧ tp_hours p ≤ 838 ∧ micro_ok k (tp_micro p) ∧ v = time_text p k
  | TYear => v = str "0000" ∨ ∃ y, 1901 ≤ y ≤ 2155 ∧ v = to_string y
  | TJson => json_accept v = true
  | TText | TBlob | TEnum _ | TSet _ | TUnknown => True
  end.

(** The limits of the parameters of a type. *)
Definition column_type_ok (dt : DataType) : Prop :=
  match dt with
  | TDecimal precision scale => 0 ≤ scale ≤ precision ∧ precision ≤ 65
  | TDateTime k | TTimestamp k | TTime k => 0 ≤ k ≤ 6
  | TVarchar limit => 0 ≤ limit
  | _ => True
  end.

Lemma check_integer_stored name value row u dt lo hi v :
  integer_bounds dt u = Some (lo, hi) → check_integer name value row lo hi = Ok v → ∃ n, lo ≤ n ≤ hi ∧ v = place_text 0 n.
Proof.
  intros Hb H. destruct (integer_bounds_spec _ _ _ _ Hb) as [Hlo Hhi]. destruct (parse_decimal value) as [d|] eqn:Ep.
  - destruct (parse_column_sound value d Ep) as (neg & ip & fp & e & Hn). destruct (parse_column_value _ _ _ _ _ Hn) as (d' & Ep' & Hok & _).
    rewrite Ep in Ep'. injection Ep' as <-. rewrite (check_integer_parsed name value row lo hi d Ep Hok Hlo ltac:(lia)) in H. cbv zeta in H.
    destruct (_ && _) eqn:E; [|done]. injection H as <-. exists (nearest 0 (d_value d)). bool_cases. split; [lia|done].
  - unfold check_integer in H. destruct (short_canonical value && _) eqn:Es.
    { apply andb_true_iff in Es as [Es _]. destruct (short_canonical_parsed value Es) as (d & Ep' & _). congruence. }
    rewrite Ep in H. destruct (bool_decide _); [injection H as <-; exists 1; split; [lia|done]|].
    destruct (bool_decide _); [injection H as <-; exists 0; split; [lia|done]|done].
Qed.

Lemma utf8_length_le s : (utf8_length s ≤ length s)%nat.
Proof. apply length_filter. Qed.

Lemma char_cut_length n s : (utf8_length (take (char_cut n s) s) ≤ n)%nat.
Proof.
  revert n. induction s as [|c s IH]; intros n; [apply Nat.le_0_l|]. cbn [char_cut]. destruct (continuation c) eqn:E.
  - cbn [take]. unfold utf8_length. rewrite filter_cons_False by congruence. apply IH.
  - destruct n as [|n]; [apply Nat.le_0_l|]. cbn [take]. unfold utf8_length. rewrite filter_cons_True by done. cbn [length]. specialize (IH n). unfold utf8_length in IH. lia.
Qed.

Lemma coerce_year_stored name value row v : coerce_year name value row = Ok v → v = str "0000" ∨ ∃ y, 1901 ≤ y ≤ 2155 ∧ v = to_string y.
Proof.
  unfold coerce_year. destruct (parse_decimal value) as [d|]; [|done]. destruct (_ || _); [done|]. set (y := if (_ <? _)%nat then _ else _).
  set (y' := if (1 <=? y) && _ then _ else _). destruct (Z.eqb_spec y' 0) as [->|Hy]; simpl; [intros [= <-]; by left|].
  destruct (_ || _) eqn:E; [done|]. intros [= <-]. bool_cases. right. by exists y'.
Qed.

Lemma coerce_float_stored name value row u single v : coerce_float to_chars name value row u single = Ok v →
  v = [48] ∨ v = [49] ∨ ∃ x, is_finite x = true ∧ v = format_double to_chars x single.
Proof.
  unfold coerce_float. destruct (bool_decide _); [intros [= <-]; by right; left|]. destruct (bool_decide _); [intros [= <-]; by left|].
  destruct (parse_decimal value); [|done]. destruct (_ && _); [done|]. destruct (from_chars_double _) as [[x u']|] eqn:Ex; [|done]. intros [= <-].
  apply from_chars_finite in Ex. right; right. by exists x.
Qed.

Lemma coerce_datetime_stored name value row k v : coerce_datetime name value row k = Ok v → 0 ≤ k ≤ 6 →
  ∃ p, parts_ok 1000000 p ∧ micro_ok k (dp_micro p) ∧ v = datetime_text p k.
Proof.
  unfold coerce_datetime. destruct (rounded_datetime value k) as [q|] eqn:Eq; [|done]. intros [= <-] Hk. exists q.
  destruct (parse_date_text value) as [p|] eqn:Ep; [|unfold rounded_datetime in Eq; by rewrite Ep in Eq].
  pose proof (rounded_datetime_spec value k p Hk Ep) as Hr. rewrite Eq in Hr. by destruct Hr as (? & ? & _).
Qed.

Lemma coerce_stored col value row v :
  column_type_ok (cd_data_type col) → coerce_column_value to_chars json_accept col value row = Ok v →
  v = EXECUTOR_NULL_VALUE ∨ stored_form (cd_data_type col) (cd_is_unsigned col) v.
Proof.
  unfold coerce_column_value. intros Hty. destruct (bool_decide_reflect (value = EXECUTOR_NULL_VALUE)) as [->|_]; [intros [= <-]; by left|].
  destruct (cd_data_type col) as [| | | | | | |limit| |k|k|precision scale| |k| |l|l| | |] eqn:Edt; intros H; right; cbn [column_type_ok stored_form] in *; try done;
    try (destruct (integer_bounds _ _) as [[lo hi]|] eqn:Eb; [|by destruct (cd_is_unsigned col)];
         destruct (check_integer_stored _ _ _ _ _ _ _ _ Eb H) as (n & Hn & ->); by exists lo, hi, n).
  - by apply coerce_float_stored in H.
  - revert H. unfold coerce_varchar. destruct (Z.leb_spec (Z.of_nat (length value)) limit); [intros [= <-]; pose proof (utf8_length_le value); lia|].
    destruct (Z.leb_spec (Z.of_nat (utf8_length value)) limit); [by intros [= <-]|]. destruct (forallb _ _); [|done]. intros [= <-].
    pose proof (char_cut_length (Z.to_nat limit) value). lia.
  - destruct (parse_date_text value) as [p|] eqn:Ep; [|done]. injection H as <-. apply parse_date_ok in Ep. exists (set_micro p 0).
    split; [|done]. destruct Ep as (? & ? & ? & ? & ? & ?). unfold parts_ok. cbn [set_micro dp_y dp_mo dp_d dp_h dp_mi dp_s dp_micro]. split_and!; (done || lia).
  - by apply coerce_datetime_stored in H.
  - by apply coerce_datetime_stored in H.
  - revert H. destruct (parse_decimal value) as [d|] eqn:Ep; [|unfold coerce_decimal; by rewrite Ep].
    destruct (parse_column_sound value d Ep) as (neg & ip & fp & e & Hn). destruct (parse_column_value _ _ _ _ _ Hn) as (d' & Ep' & Hok & _).
    rewrite Ep in Ep'. injection Ep' as <-. rewrite (coerce_decimal_parsed _ _ _ _ precision scale d Ep Hok (proj1 Hty)). cbv zeta.
    destruct (_ && _) eqn:E; [|done]. intros [= <-]. eexists. bool_cases. split_and!; [done| |done]. intros Hu. rewrite Hu in *. cbn [andb] in *. by bool_cases.
  - by apply coerce_float_stored in H.
  - revert H. unfold coerce_time. destruct (rounded_time value k) as [q|] eqn:Eq; [|done]. destruct (Z.ltb_spec 838 (tp_hours q)); [done|]. intros [= <-]. exists q.
    destruct (parse_time_text value) as [p|] eqn:Ep; [|unfold rounded_time in Eq; by rewrite Ep in Eq].
    destruct (rounded_time_spec value k p Hty Ep) as (q' & Eq' & ? & ? & _). rewrite Eq in Eq'. injection Eq' as <-. by split_and!.
  - by apply coerce_year_stored in H.
  - by destruct (json_accept value) eqn:E; [injection H as <-|].
Qed.

Lemma coerce_year_kept name v row : (v = str "0000" ∨ ∃ y, 1901 ≤ y ≤ 2155 ∧ v = to_string y) → coerce_year name v row = Ok v.
Proof.
  intros [->|(y & Hy & ->)]; [by vm_compute|].
  assert (Hall : forallb (λ y, match coerce_year name (to_string y) row with Ok t => bool_decide (t = to_string y) | Err _ => false end) (seqZ 1901 255) = true)
    by (vm_compute; reflexivity).
  pose proof (seqZ_check _ _ _ Hall y ltac:(lia)) as E. cbv beta in E. destruct (coerce_year name (to_string y) row); [|done]. by apply bool_decide_eq_true in E as ->.
Qed.

Lemma coerce_number_kept col row n :
  match cd_data_type col with
  | TDecimal precision scale => 0 ≤ scale ≤ precision ∧ precision ≤ 65 ∧ Z.abs n < 10 ^ precision ∧ (cd_is_unsigned col = true → 0 ≤ n)
  | dt => ∃ lo hi, integer_bounds dt (cd_is_unsigned col) = Some (lo, hi) ∧ lo ≤ n ≤ hi
  end →
  let v := place_text (match cd_data_type col with TDecimal _ scale => Z.to_nat scale | _ => 0%nat end) n in
  coerce_column_value to_chars json_accept col v row = Ok v.
Proof.
  intros H. set (places := match cd_data_type col with TDecimal _ scale => Z.to_nat scale | _ => 0%nat end). cbv zeta.
  assert (Hb : Z.abs n < 10 ^ 300).
  { destruct (cd_data_type col); try (destruct H as (lo & hi & Hb & Hn); apply integer_bounds_spec in Hb; assert (2 ^ 64 < 10 ^ 300) by done; widths).
    destruct H as (_ & Hp & Hn & _). assert (10 ^ precision ≤ 10 ^ 65) by (apply Z.pow_le_mono_r; lia). assert (10 ^ 65 < 10 ^ 300) by done. lia. }
  destruct (place_text_number places n Hb) as (ip & fp & Hcn & Hq).
  destruct (numeric_column_spec to_chars json_accept col _ row _ _ _ _ Hcn) as [Hint Hdec].
  assert (Hnear : nearest places (column_value (n <? 0) ip fp 0) = n) by (rewrite (nearest_proper _ _ _ Hq); apply nearest_units).
  assert (Hint' : ∀ lo hi, integer_bounds (cd_data_type col) (cd_is_unsigned col) = Some (lo, hi) → lo ≤ n ≤ hi → places = 0%nat →
    coerce_column_value to_chars json_accept col (place_text places n) row = Ok (place_text places n)).
  { intros lo hi Hbd Hn E. rewrite E in *. rewrite (Hint lo hi Hbd), Hnear.
    assert (Hq0 : Qle_bool 0 (column_value (n <? 0) ip fp 0) = (0 <=? n)) by (rewrite <- (dec_nonneg n 0); apply eq_true_iff_eq; rewrite !Qle_bool_iff; by rewrite Hq).
    rewrite Hq0, (proj2 (Z.leb_le lo n)), (proj2 (Z.leb_le n hi)) by lia. cbn [andb].
    destruct (Z.ltb_spec lo 0); [done|]. by rewrite (proj2 (Z.leb_le 0 n)) by lia. }
  unfold places in *. destruct (cd_data_type col) eqn:Edt; try (destruct H as (lo & hi & Hbd & Hn); by apply (Hint' lo hi)).
  destruct H as (Hs & Hp & Hn & Hu). rewrite (Hdec _ _ eq_refl Hs), Hnear, (proj2 (Z.ltb_lt _ _)) by done. cbn [andb].
  destruct (cd_is_unsigned col); [|done]. by rewrite (proj2 (Z.ltb_ge n 0)) by auto.
Qed.

Lemma coerce_datetime_kept name row k p : 0 ≤ k ≤ 6 → parts_ok 1000000 p → micro_ok k (dp_micro p) →
  coerce_datetime name (datetime_text p k) row k = Ok (datetime_text p k).
Proof.
  intros Hk Hp Hm. unfold coerce_datetime, rounded_datetime. rewrite parse_datetime_stored by done. cbn [mbind option_bind dp_micro].
  rewrite round_micro_id by done. done.
Qed.

Lemma coerce_time_kept name row k p : 0 ≤ k ≤ 6 → time_ok 1000000 p → tp_hours p ≤ 838 → micro_ok k (tp_micro p) →
  coerce_time name (time_text p k) row k = Ok (time_text p k).
Proof.
  intros Hk Hp Hh Hm. unfold coerce_time, rounded_time. rewrite parse_time_stored by (done || lia). cbn [mbind option_bind tp_micro tp_hours tp_minutes tp_seconds].
  rewrite round_micro_id by done. rewrite Z.add_0_r. destruct Hp as (Hh0 & Hmi & Hs & Hmc). rewrite !Z.quot_div_nonneg, !Z.rem_mod_nonneg by (try apply Z.div_pos; lia).
  assert (E1 : (tp_hours p * 3600 + tp_minutes p * 60 + tp_seconds p) / 3600 = tp_hours p) by (symmetry; apply (Z.div_unique_pos _ _ _ (tp_minutes p * 60 + tp_seconds p)); lia).
  assert (E2 : (tp_hours p * 3600 + tp_minutes p * 60 + tp_seconds p) / 60 = tp_hours p * 60 + tp_minutes p) by (symmetry; apply (Z.div_unique_pos _ _ _ (tp_seconds p)); lia).
  assert (E3 : (tp_hours p * 3600 + tp_minutes p * 60 + tp_seconds p) mod 60 = tp_seconds p) by (symmetry; apply (Z.mod_unique_pos _ _ (tp_hours p * 60 + tp_minutes p)); lia).
  assert (E4 : (tp_hours p * 60 + tp_minutes p) mod 60 = tp_minutes p) by (symmetry; apply (Z.mod_unique_pos _ _ (tp_hours p)); lia).
  rewrite E1, E2, E3, E4. cbn [tp_hours]. rewrite (proj2 (Z.ltb_ge _ _)) by lia. unfold time_text. cbn [tp_hours tp_minutes tp_seconds tp_micro tp_negative]. cbv zeta. do 3 f_equal.
  assert (Ez : (tp_hours p =? 0) && (tp_minutes p =? 0) && (tp_seconds p =? 0) && (tp_micro p =? 0) = (time_micros p =? 0)).
  { apply eq_true_iff_eq. rewrite !andb_true_iff, !Z.eqb_eq. unfold time_micros. lia. }
  rewrite Ez. by destruct (tp_negative p), (time_micros p =? 0).
Qed.

(** A text of the form a column holds is stored as it is. *)
Lemma coerce_kept col v row :
  column_type_ok (cd_data_type col) → match cd_data_type col with TFloat | TDouble => False | _ => True end →
  v = EXECUTOR_NULL_VALUE ∨ stored_form (cd_data_type col) (cd_is_unsigned col) v →
  coerce_column_value to_chars json_accept col v row = Ok v.
Proof.
  intros Hty Hf [->|Hs]; [done|]. pose proof (coerce_number_kept col row) as Hnum.
  destruct (bool_decide (v = EXECUTOR_NULL_VALUE)) eqn:Hnn; [unfold coerce_column_value; by rewrite Hnn|].
  destruct (cd_data_type col) as [| | | | | | |limit| |k|k|precision scale| |k| |l|l| | |] eqn:Edt; cbn [column_type_ok stored_form] in *; try done;
    try (destruct Hs as (lo & hi & n & Hb & Hn & ->); apply (Hnum n); by exists lo, hi); try (unfold coerce_column_value; by rewrite Hnn, Edt).
  all: try (destruct Hs as (n & Hn & Hu & ->); apply (Hnum n); tauto).
  all: unfold coerce_column_value; rewrite Hnn, Edt.
  - unfold coerce_varchar. destruct (_ <=? _); [done|]. by rewrite (proj2 (Z.leb_le _ _)).
  - destruct Hs as (p & Hp & ->). by rewrite parse_date_stored.
  - destruct Hs as (p & Hp & Hm & ->). by apply coerce_datetime_kept.
  - destruct Hs as (p & Hp & Hm & ->). by apply coerce_datetime_kept.
  - destruct Hs as (p & Hp & Hh & Hm & ->). by apply coerce_time_kept.
  - by apply coerce_year_kept.
  - by rewrite Hs.
Qed.
End stored.

Lemma parts_valid p : parts_ok 1000000 p → valid_datetime (parts_time p).
Proof.
  intros (Hy & Hv & Hh & Hmi & Hs & Hm). split; [|unfold valid_time; simpl; lia]. apply valid_date_spec. simpl. split; [lia|done].
Qed.

(** ** Properties *)

(** C35: An integer column (and a BOOLEAN) keeps the integer nearest to the number a text writes, half of one away from zero, in its
    canonical text, and refuses it exactly when that integer is outside the bounds of the type or the column is unsigned and the number
    below zero, however small; a DECIMAL(p,s) column keeps the nearest number of s places, written with all of them, and refuses it exactly
    when that has more than p digits or, in an unsigned column, is below zero. *)
Theorem numeric_column_exact to_chars json_accept col value row neg ip fp e :
  column_numeral value neg ip fp e →
  let q := column_value neg ip fp e in
  let coerced := coerce_column_value to_chars json_accept col value row in
  let refused := Err (range_error (cd_name col) row) in
  (∀ lo hi, integer_bounds (cd_data_type col) (cd_is_unsigned col) = Some (lo, hi) →
    coerced = if (lo <=? nearest 0 q) && (nearest 0 q <=? hi) && ((lo <? 0) || Qle_bool 0 q) then Ok (place_text 0 (nearest 0 q)) else refused) ∧
  (∀ precision scale, cd_data_type col = TDecimal precision scale → 0 ≤ scale ≤ precision →
    let n := nearest (Z.to_nat scale) q in
    coerced = if (Z.abs n <? 10 ^ precision) && negb (cd_is_unsigned col && (n <? 0)) then Ok (place_text (Z.to_nat scale) n) else refused).
Proof. apply numeric_column_spec. Qed.

(** C34: What a column stores has the form of its type: an integer within the bounds, a number of p digits with s of them behind the point,
    a day of the calendar of the years 1 to 9999, a time of day or one of at most 838 hours, with a fraction of the places of the column,
    a year of 1901 to 2155 or 0000, a text of at most so many characters, valid JSON; and a text of that form is stored as it is, so that
    storing a stored value again changes nothing (floating-point columns aside, whose text std::to_chars writes). *)
Theorem column_values_well_formed to_chars json_accept col row :
  column_type_ok (cd_data_type col) →
  let coerce := λ v, coerce_column_value to_chars json_accept col v row in
  let held := λ v, v = EXECUTOR_NULL_VALUE ∨ stored_form to_chars json_accept (cd_data_type col) (cd_is_unsigned col) v in
  (∀ value v, coerce value = Ok v → held v) ∧
  (match cd_data_type col with TFloat | TDouble => False | _ => True end → ∀ v, held v → coerce v = Ok v).
Proof. intros Hty. split; [intros value v; by apply coerce_stored|intros Hf v; by apply coerce_kept]. Qed.


(** ** Examples *)

Definition demo_column (dt : DataType) (u : bool) : ColumnDef := mkColumnDef (str "c") dt false false false None false None [] None false u.

Definition demo_coerce (dt : DataType) (u : bool) (value : string) : result (list Z) :=
  coerce_column_value (λ _ _, []) (λ _, true) (demo_column dt u) (str value) 1.

Example integer_rounds : demo_coerce TInt false "-7.5" = Ok (str "-8") ∧ demo_coerce TBigInt false "-9223372036854775808.4" = Ok (str "-9223372036854775808") ∧
  demo_coerce TTinyInt true "255.5" = Err (str "Out of range value for column 'c' at row 1") ∧ demo_coerce TInt false " 0x10" = Err (str "Incorrect integer value: ' 0x10' for column 'c' at row 1").
Proof. by vm_compute. Qed.

Example varchar_cut : demo_coerce (TVarchar 3) false "abc  " = Ok (str "abc") ∧ demo_coerce (TVarchar 3) false "abcd" = Err (str "Data too long for column 'c' at row 1").
Proof. by vm_compute. Qed.

Example compact_times : demo_coerce (TDateTime 0) false "20240229235959.5" = Ok (str "2024-03-01 00:00:00") ∧ demo_coerce TDate false "69-1-2" = Ok (str "2069-01-02") ∧
  demo_coerce (TTime 1) false "-1 1:2:3.45" = Ok (str "-25:02:03.5") ∧ demo_coerce TYear false "70" = Ok (str "1970").
Proof. by vm_compute. Qed.

(** An unsigned INT refuses -0.4, an unsigned DECIMAL(5,0), whose check looks at the rounded number, keeps 0. *)
Example unsigned_decimal_rounds_first : demo_coerce TInt true "-0.4" = Err (str "Out of range value for column 'c' at row 1") ∧ demo_coerce (TDecimal 5 0) true "-0.4" = Ok (str "0").
Proof. by vm_compute. Qed.

(** A fraction of seven digits is rounded twice: to six places, and from there to those of the column. *)
Example fraction_rounded_twice : demo_coerce (TDateTime 0) false "2024-01-01 00:00:00.4999999" = Ok (str "2024-01-01 00:00:01").
Proof. by vm_compute. Qed.

(** A number with its point more than 400 places off is taken for no number, even 0. *)
Example tiny_number_refused : demo_coerce TInt false "1e-402" = Err (str "Incorrect integer value: '1e-402' for column 'c' at row 1").
Proof. by vm_compute. Qed.

Lemma numeric_column_exact_witness :
  column_numeral (str " 1234.565 ") false (str "1234") (str "565") 0 ∧ demo_coerce (TDecimal 6 2) false " 1234.565 " = Ok (str "1234.57").
Proof.
  assert (H : column_numeral (str " 1234.565 ") false (str "1234") (str "565") 0).
  { exists (str " "), [], (str ".565"), [], (str " ").
    unfold white, sign_of. split_and!; try vm_decide. by left. }
  split; [exact H|]. unfold demo_coerce.
  destruct (numeric_column_exact (λ _ _, []) (λ _, true) (demo_column (TDecimal 6 2) false) (str " 1234.565 ") 1 _ _ _ _ H) as [_ Hd].
  specialize (Hd 6 2 eq_refl ltac:(lia)). cbv zeta in Hd. rewrite Hd. vm_compute. reflexivity.
Defined.

Lemma column_values_well_formed_witness :
  column_type_ok (TTime 3) ∧ demo_coerce (TTime 3) false "12:34:56.7896" = Ok (str "12:34:56.790") ∧ demo_coerce (TTime 3) false "12:34:56.790" = Ok (str "12:34:56.790").
Proof.
  assert (H : column_type_ok (TTime 3)) by (simpl; lia). split; [exact H|].
  assert (E : demo_coerce (TTime 3) false "12:34:56.7896" = Ok (str "12:34:56.790")) by (vm_compute; reflexivity). split; [exact E|].
  destruct (column_values_well_formed (λ _ _, []) (λ _, true) (demo_column (TTime 3) false) 1 H) as [Hs Hk]. exact (Hk I _ (Hs _ _ E)).
Defined.

