(* ===== verification/Gap.v ===== *)
(** * Ranges of a key in a WHERE (gap_lock.cpp; collect_and_leaves of planner.cpp)

    The range of values that the AND-ed conditions on a column leave, which gap locks protect and the RANGE partitions of a table are
    chosen by, and the test that a value is in it. Values compare as doubles when both are numbers, by the collation otherwise. The
    theorems relate the range to the conditions it is made of and to the evaluation of the WHERE (Eval.v). *)
From Stdlib Require Import SpecFloat.
From S2P Require Import Prelude Numerals NumericText Collation RowJson Ast Arith Classes Eval.

#[local] Open Scope Z_scope.

(** ** The range *)

(** The conditions joined by AND at the top of a WHERE; OR and NOT give none. *)
Fixpoint collect_and_leaves (expr : CondExpr) : list Condition :=
  match expr with
  | And lhs rhs => collect_and_leaves lhs ++ collect_and_leaves rhs
  | Leaf condition => [condition]
  | Or _ _ | Not _ => []
  end.

Record GapRange := mkGapRange {
  gr_lo : option (list Z);
  gr_hi : option (list Z);
  gr_lo_inclusive : bool;
  gr_hi_inclusive : bool
}.

Definition whole_range : GapRange := mkGapRange None None true true.

Section gap.
Context (kRuns : list Run) (kPool : list Z).

Definition cmp_val (a b : list Z) : Z :=
  match parse_number a, parse_number b with
  | Some da, Some db => if SFltb da db then -1 else if SFltb db da then 1 else 0
  | _, _ => compare kRuns kPool a b
  end.

Definition narrow_lo (range : GapRange) (v : list Z) (inclusive : bool) : GapRange :=
  let narrowed := mkGapRange (Some v) (gr_hi range) inclusive (gr_hi_inclusive range) in
  match gr_lo range with
  | None => narrowed
  | Some lo =>
      let c := cmp_val v lo in
      if (0 <? c) || ((c =? 0) && negb inclusive && gr_lo_inclusive range) then narrowed else range
  end.

Definition narrow_hi (range : GapRange) (v : list Z) (inclusive : bool) : GapRange :=
  let narrowed := mkGapRange (gr_lo range) (Some v) (gr_lo_inclusive range) inclusive in
  match gr_hi range with
  | None => narrowed
  | Some hi =>
      let c := cmp_val v hi in
      if (c <? 0) || ((c =? 0) && negb inclusive && gr_hi_inclusive range) then narrowed else range
  end.

(** What a condition on the column [pk_col] does to the range. *)
Definition narrow_by (pk_col : list Z) (range : GapRange) (cond : Condition) : GapRange :=
  match cond with
  | mkCondition (Col name _ _ _ _ _ _ _) op value _ _ _ =>
      if bool_decide (name = pk_col) then
        match value with
        | Literal v _ _ =>
            match op with
            | OpEq => narrow_hi (narrow_lo range v true) v true
            | OpGt => narrow_lo range v false
            | OpGte => narrow_lo range v true
            | OpLt => narrow_hi range v false
            | OpLte => narrow_hi range v true
            | _ => range
            end
        | Between lo hi _ _ => match op with OpBetween => narrow_hi (narrow_lo range lo true) hi true | _ => range end
        | _ => range
        end
      else range
  | _ => range
  end.

Definition extract_pk_gap_range (condition : option CondExpr) (pk_col : list Z) : GapRange :=
  match condition with
  | None => whole_range
  | Some condition => foldl (narrow_by pk_col) whole_range (collect_and_leaves condition)
  end.

Definition gap_range_contains (range : GapRange) (value : list Z) : bool :=
  match gr_lo range with
  | Some lo => let c := cmp_val value lo in negb ((c <? 0) || ((c =? 0) && negb (gr_lo_inclusive range)))
  | None => true
  end &&
  match gr_hi range with
  | Some hi => let c := cmp_val value hi in negb ((0 <? c) || ((c =? 0) && negb (gr_hi_inclusive range)))
  | None => true
  end.

(** ** The order of the values *)

Definition is_numeral (s : list Z) : bool := bool_decide (is_Some (parse_number s)).

(** Numbers, or texts that are none. *)
Definition one_kind (number : bool) (s : list Z) : Prop := is_numeral s = number.

Definition float_order (x y : spec_float) : comparison := if SFltb x y then Lt else if SFltb y x then Gt else Eq.

Definition value_order (a b : list Z) : comparison :=
  match parse_number a, parse_number b with Some x, Some y => float_order x y | _, _ => order kRuns kPool a b end.

Lemma cmp_val_sign a b : cmp_val a b = sign (value_order a b).
Proof.
  unfold cmp_val, value_order. destruct (parse_number a) as [x|], (parse_number b) as [y|]; try apply compare_spec.
  unfold float_order. by destruct (SFltb x y), (SFltb y x).
Qed.

(** A finite float by its sign, exponent and mantissa. *)
Definition float_key (v : spec_float) : Z * Z * Z :=
  match v with
  | S754_finite false m e => (1, e, Z.pos m)
  | S754_finite true m e => (-1, - e, - Z.pos m)
  | _ => (0, 0, 0)
  end.

Definition key_order (x y : Z * Z * Z) : comparison :=
  match x.1.1 ?= y.1.1 with Eq => match x.1.2 ?= y.1.2 with Eq => x.2 ?= y.2 | c => c end | c => c end.

Lemma compare_preorder {A} (f : A → Z) : preorder (λ _, True) (λ x y, f x ?= f y).
Proof.
  split; [intros; apply Z.compare_antisym|]. intros x y z _ _ _.
  destruct (Z.compare_spec (f x) (f y)), (Z.compare_spec (f y) (f z)), (Z.compare_spec (f x) (f z)); try done; lia.
Qed.

Lemma key_preorder : preorder (λ _, True) key_order.
Proof. apply preorder_then; [apply (compare_preorder (λ x, x.1.1))|]. apply preorder_then; [apply (compare_preorder (λ x, x.1.2))|apply (compare_preorder snd)]. Qed.

Lemma float_order_key x y : is_finite x = true → is_finite y = true → float_order x y = key_order (float_key x) (float_key y).
Proof.
  destruct x as [[]| | |[] mx ex], y as [[]| | |[] my ey]; try done; intros _ _; unfold float_order, SFltb, key_order; cbn [SFcompare float_key fst snd];
    try done.
  all: change (Pos.compare_cont Eq mx my) with (mx ?= my)%positive; change (Pos.compare_cont Eq my mx) with (my ?= mx)%positive.
  all: change (1 ?= 1) with Eq; change (-1 ?= -1) with Eq; cbv iota.
  all: repeat match goal with
         | |- context [(?a ?= ?b)%positive] => destruct (Pos.compare_spec a b)
         | |- context [?a ?= ?b] => destruct (Z.compare_spec a b)
         end; subst; cbn [CompOpp]; try done; lia.
Qed.

Lemma parse_number_finite s v : parse_number s = Some v → is_finite v = true.
Proof.
  unfold parse_number. cbv zeta. destruct (match s with c :: _ => _ | [] => false end); [done|].
  destruct (match strip_plus s with c :: t => _ | [] => _ end) as [|c q]; [done|]. destruct (_ || _); [|done].
  destruct (from_chars_double (strip_plus s)) as [[x [|]]|] eqn:E; [|done|done]. intros [= <-]. by eapply from_chars_finite.
Qed.

(** Values of one kind, numbers or texts that are none, are totally preordered. *)
Lemma value_preorder number : preorder (one_kind number) value_order.
Proof.
  destruct number.
  - assert (Hkey : ∀ a, one_kind true a → ∃ x, parse_number a = Some x ∧ is_finite x = true).
    { intros a H. unfold one_kind, is_numeral in H. apply bool_decide_eq_true in H as [x Hx]. exists x. split; [done|by eapply parse_number_finite]. }
    assert (Hv : ∀ a b x y, parse_number a = Some x → is_finite x = true → parse_number b = Some y → is_finite y = true →
      value_order a b = key_order (float_key x) (float_key y)).
    { intros a b x y Ex Hx Ey Hy. unfold value_order. rewrite Ex, Ey. by apply float_order_key. }
    split.
    + intros a b (x & Ex & Hx)%Hkey (y & Ey & Hy)%Hkey. rewrite (Hv a b x y), (Hv b a y x) by done. by apply (po_antisym key_preorder).
    + intros a b c (x & Ex & Hx)%Hkey (y & Ey & Hy)%Hkey (z & Ez & Hz)%Hkey. rewrite (Hv a b x y), (Hv b c y z), (Hv a c x z) by done.
      by apply (po_trans key_preorder).
  - assert (Hv : ∀ a b, one_kind false a → value_order a b = order kRuns kPool a b).
    { intros a b H. unfold one_kind, is_numeral in H. apply bool_decide_eq_false in H. unfold value_order.
      destruct (parse_number a); [|done]. by destruct H. }
    split; [intros; rewrite !Hv by done; apply order_antisym|intros a b c Ha Hb Hc; rewrite !Hv by done; apply order_trans].
Qed.

(** ** What the range contains *)

(** The side of a bound, given how the value compares with it. *)
Definition above (c : comparison) (inclusive : bool) : bool := match c with Gt => true | Eq => inclusive | Lt => false end.
Definition below (c : comparison) (inclusive : bool) : bool := match c with Lt => true | Eq => inclusive | Gt => false end.

Definition lo_admits (bound : option (list Z)) (inclusive : bool) (v : list Z) : bool :=
  match bound with Some lo => above (value_order v lo) inclusive | None => true end.
Definition hi_admits (bound : option (list Z)) (inclusive : bool) (v : list Z) : bool :=
  match bound with Some hi => below (value_order v hi) inclusive | None => true end.

Lemma contains_sides range v :
  gap_range_contains range v = lo_admits (gr_lo range) (gr_lo_inclusive range) v && hi_admits (gr_hi range) (gr_hi_inclusive range) v.
Proof.
  unfold gap_range_contains, lo_admits, hi_admits. f_equal.
  - destruct (gr_lo range) as [lo|]; [|done]. rewrite cmp_val_sign. by destruct (value_order v lo), (gr_lo_inclusive range).
  - destruct (gr_hi range) as [hi|]; [|done]. rewrite cmp_val_sign. by destruct (value_order v hi), (gr_hi_inclusive range).
Qed.

(** The texts of a range are of one kind. *)
Definition range_kind (number : bool) (range : GapRange) : Prop :=
  (∀ lo, gr_lo range = Some lo → one_kind number lo) ∧ (∀ hi, gr_hi range = Some hi → one_kind number hi).

Lemma narrow_lo_contains number range l inclusive v :
  range_kind number range → one_kind number l → one_kind number v →
  range_kind number (narrow_lo range l inclusive) ∧
  gap_range_contains (narrow_lo range l inclusive) v = gap_range_contains range v && above (value_order v l) inclusive.
Proof.
  intros [Hlo Hhi] Hl Hv. unfold narrow_lo. rewrite !contains_sides. destruct (gr_lo range) as [lo|] eqn:E.
  2: { split; [split; simpl; [by intros ? [= <-]|done]|]. cbn [lo_admits gr_lo gr_hi gr_lo_inclusive gr_hi_inclusive]. by rewrite andb_comm. }
  specialize (Hlo lo eq_refl). rewrite cmp_val_sign. pose proof (preorder_triangle _ _ v l lo (value_preorder number) Hv Hl Hlo) as T.
  split.
  - destruct (_ || _); (split; [|done]); simpl; [by intros ? [= <-]|rewrite E; by intros ? [= <-]].
  - destruct (value_order l lo) eqn:El, inclusive, (gr_lo_inclusive range) eqn:Ei; cbn [sign Z.ltb Z.eqb Z.compare orb andb negb gr_lo gr_hi gr_lo_inclusive gr_hi_inclusive];
      rewrite ?E, ?Ei; cbn [lo_admits]; destruct (value_order v l), (value_order v lo); try discriminate T; cbn [above]; rewrite ?andb_true_r, ?andb_false_r; done.
Qed.

Lemma narrow_hi_contains number range l inclusive v :
  range_kind number range → one_kind number l → one_kind number v →
  range_kind number (narrow_hi range l inclusive) ∧
  gap_range_contains (narrow_hi range l inclusive) v = gap_range_contains range v && below (value_order v l) inclusive.
Proof.
  intros [Hlo Hhi] Hl Hv. unfold narrow_hi. rewrite !contains_sides. destruct (gr_hi range) as [hi|] eqn:E.
  2: { split; [split; simpl; [done|by intros ? [= <-]]|]. cbn [hi_admits gr_lo gr_hi gr_lo_inclusive gr_hi_inclusive]. by rewrite andb_true_r. }
  specialize (Hhi hi eq_refl). rewrite cmp_val_sign. pose proof (preorder_triangle _ _ v l hi (value_preorder number) Hv Hl Hhi) as T.
  split.
  - destruct (_ || _); (split; [done|]); simpl; [by intros ? [= <-]|rewrite E; by intros ? [= <-]].
  - destruct (value_order l hi) eqn:El, inclusive, (gr_hi_inclusive range) eqn:Ei; cbn [sign Z.ltb Z.eqb Z.compare orb andb negb gr_lo gr_hi gr_lo_inclusive gr_hi_inclusive];
      rewrite ?E, ?Ei; cbn [hi_admits]; destruct (value_order v l), (value_order v hi); try discriminate T; cbn [below]; rewrite ?andb_true_r, ?andb_false_r; done.
Qed.

(** What a condition on the column says of a value, in the order of the range. *)
Definition admits (pk_col v : list Z) (cond : Condition) : bool :=
  match cond with
  | mkCondition (Col name _ _ _ _ _ _ _) op value _ _ _ =>
      if bool_decide (name = pk_col) then
        match value, op with
        | Literal l _ _, OpEq => bool_decide (value_order v l = Eq)
        | Literal l _ _, OpGt => above (value_order v l) false
        | Literal l _ _, OpGte => above (value_order v l) true
        | Literal l _ _, OpLt => below (value_order v l) false
        | Literal l _ _, OpLte => below (value_order v l) true
        | Between lo hi _ _, OpBetween => above (value_order v lo) true && below (value_order v hi) true
        | _, _ => true
        end
      else true
  | _ => true
  end.

(** The literals a condition narrows the range of the column with. *)
Definition bound_literals (pk_col : list Z) (cond : Condition) : list (list Z * bool) :=
  match cond with
  | mkCondition (Col name _ _ _ _ _ _ _) op value _ _ _ =>
      if bool_decide (name = pk_col) then
        match value, op with
        | Literal l quoted _, (OpEq | OpGt | OpGte | OpLt | OpLte) => [(l, quoted)]
        | Between lo hi lo_quoted hi_quoted, OpBetween => [(lo, lo_quoted); (hi, hi_quoted)]
        | _, _ => []
        end
      else []
  | _ => []
  end.

Lemma narrow_by_contains number pk_col range cond v :
  range_kind number range → Forall (λ l, one_kind number l.1) (bound_literals pk_col cond) → one_kind number v →
  range_kind number (narrow_by pk_col range cond) ∧
  gap_range_contains (narrow_by pk_col range cond) v = gap_range_contains range v && admits pk_col v cond.
Proof.
  intros Hr Hl Hv.
  assert (Hboth : ∀ lo hi, one_kind number lo → one_kind number hi →
    range_kind number (narrow_hi (narrow_lo range lo true) hi true) ∧
    gap_range_contains (narrow_hi (narrow_lo range lo true) hi true) v = gap_range_contains range v && (above (value_order v lo) true && below (value_order v hi) true)).
  { intros lo hi Hlo Hhi. destruct (narrow_lo_contains number range lo true v Hr Hlo Hv) as [Hr1 E1].
    destruct (narrow_hi_contains number _ hi true v Hr1 Hhi Hv) as [Hr2 E2]. split; [done|]. by rewrite E2, E1, andb_assoc. }
  destruct cond as [left op value lc rc q]. cbn [narrow_by admits bound_literals] in *. destruct left; try (by rewrite andb_true_r).
  destruct (bool_decide _); [|by rewrite andb_true_r]. destruct value as [l quoted oc| |lo hi ql qh| |]; try (by rewrite andb_true_r).
  - destruct op; try (by rewrite andb_true_r); apply Forall_inv in Hl; cbn [fst] in Hl;
      try (by apply (narrow_lo_contains number)); try (by apply (narrow_hi_contains number)).
    destruct (Hboth l l Hl Hl) as [H1 H2]. split; [done|]. rewrite H2. f_equal. by destruct (value_order v l).
  - destruct op; try (by rewrite andb_true_r). apply Forall_cons in Hl as [Hlo Hhi%Forall_inv]. by apply Hboth.
Qed.

(** The range of a WHERE contains the values all of its AND-ed conditions on the column admit, and no others. *)
Lemma extract_range_spec number pk_col condition v :
  Forall (λ cond, Forall (λ l, one_kind number l.1) (bound_literals pk_col cond)) (collect_and_leaves condition) → one_kind number v →
  range_kind number (extract_pk_gap_range (Some condition) pk_col) ∧
  gap_range_contains (extract_pk_gap_range (Some condition) pk_col) v = forallb (admits pk_col v) (collect_and_leaves condition).
Proof.
  intros Hl Hv. cbn [extract_pk_gap_range].
  assert (Hmain : ∀ leaves range, range_kind number range → Forall (λ cond, Forall (λ l, one_kind number l.1) (bound_literals pk_col cond)) leaves →
    range_kind number (foldl (narrow_by pk_col) range leaves) ∧
    gap_range_contains (foldl (narrow_by pk_col) range leaves) v = gap_range_contains range v && forallb (admits pk_col v) leaves).
  { induction leaves as [|cond leaves IH]; intros range Hr Hls; [by rewrite andb_true_r|]. apply Forall_cons in Hls as [Hc Hls].
    destruct (narrow_by_contains number pk_col range cond v Hr Hc Hv) as [Hr' E]. cbn [foldl forallb]. destruct (IH _ Hr' Hls) as [H1 H2].
    split; [done|]. by rewrite H2, E, andb_assoc. }
  destruct (Hmain (collect_and_leaves condition) whole_range) as [H1 H2]; [by split|done|]. split; [done|]. by rewrite H2.
Qed.
End gap.

(** ** The range and the WHERE *)

Lemma and_true {X} (a b : Ev X Tri) s s' : cond_and a b s = (Ok TriTrue, s') → (∃ s1, a s = (Ok TriTrue, s1)) ∧ ∃ s1 s2, b s1 = (Ok TriTrue, s2).
Proof.
  unfold cond_and. cbv [mbind Ev_bind]. destruct (a s) as [[x|e] s1] eqn:Ea; [|done]. destruct x; [|done|].
  - destruct (b s1) as [[y|e] s2] eqn:Eb; [|done]. destruct y; try done. intros _. split; [by exists s1|by exists s1, s2].
  - destruct (b s1) as [[y|e] s2] eqn:Eb; [|done]. by destruct y.
Qed.

Section where_clause.
Context {X : Type}.
Context (kRuns : list Run) (kPool : list Z).
Context (iter : Row → list (list Z * list Z)).
Context (to_chars_scientific : bool → spec_float → list Z) (to_chars : spec_float → list Z).
Context (regex_search : list Z → list Z → option bool).
Context (is_builtin_function : list Z → bool).
Context (call_builtin_with_values : list Z → list (list Z) → list (list Z) → list Z → Ev X (list Z)).
Context (apply_scalar_func : list Z → list (list Z) → Row → Ev X (list Z)).
Context (tick : Ev X unit) (strict : bool) (context : option (StatementContext X)).
Context (Htick : yields tick tt) (Hstrict : strict = false).

#[local] Abbreviation condition := (eval_cond3 kRuns kPool iter to_chars_scientific to_chars regex_search is_builtin_function call_builtin_with_values apply_scalar_func tick strict context).
#[local] Abbreviation single := (eval_single3 kRuns kPool iter to_chars_scientific to_chars regex_search is_builtin_function call_builtin_with_values apply_scalar_func tick strict context).

(** A WHERE that is TRUE has every one of its AND-ed conditions TRUE. *)
Lemma leaves_true row : ∀ expr s s', condition row expr s = (Ok TriTrue, s') →
  Forall (λ cond, ∃ s1 s2, single row cond s1 = (Ok TriTrue, s2)) (collect_and_leaves expr).
Proof.
  fix IH 1. intros [a b|a b|a|c] s s' H; cbn [eval_cond3 collect_and_leaves] in *; [|constructor|constructor|].
  - apply and_true in H as [(s1 & Ha) (s2 & s3 & Hb)]. apply Forall_app. split; [by eapply IH|by eapply IH].
  - apply Forall_singleton. by exists s, s'.
Qed.

(** A column that is no date, time, ENUM, SET or FLOAT, and a literal that the condition compares with it as the range does. *)
Definition plain_column (e : ArithExpr) : Prop :=
  match e with Col _ _ _ _ kind _ _ single => kind = KindPlain ∧ single = false | _ => True end.

Definition same_meaning (row : Row) (e : ArithExpr) (lc : ValueClass) (v l : list Z) (quoted : bool) : Prop :=
  stands_for_itself iter row l quoted ∧
  (null_text l = true ∨ compare_classed kRuns kPool (class_or lc (class_of_expr e)) (written_class l quoted) v l = cmp_val kRuns kPool v l).

(** The conditions on the column [pk_col], whose value is [v], compare it as the range does. *)
Definition reads_alike (row : Row) (pk_col v : list Z) (cond : Condition) : Prop :=
  match cond with
  | mkCondition e op value lc rc _ =>
      bound_literals pk_col cond ≠ [] →
      plain_column e ∧ Forall (λ l, same_meaning row e lc v l.1 l.2) (bound_literals pk_col cond) ∧
      match value with Literal l quoted _ => class_or rc (written_class l quoted) = written_class l quoted | _ => True end
  end.

Lemma plain_value e quoted v : plain_column e → (∃ name cls oc approx kind members fsp sg, e = Col name cls oc approx kind members fsp sg) →
  compared_value kRuns kPool to_chars e quoted v = v.
Proof. intros Hp (name & cls & oc & approx & kind & members & fsp & sg & ->). cbn in Hp. destruct Hp as [-> ->]. done. Qed.

Lemma literal_single row e op v l lc rc q quoted oc : orders op = true → plain_column e → (∃ name cls oc approx kind members fsp sg, e = Col name cls oc approx kind members fsp sg ∧ column_text iter row name = v) →
  stands_for_itself iter row l quoted → class_or rc (written_class l quoted) = written_class l quoted →
  yields (single row (mkCondition e op (Literal l quoted oc) lc rc q)) (literal_answer kRuns kPool to_chars e (class_or lc (class_of_expr e)) op v l quoted).
Proof.
  intros Hop Hp (name & cls & oc' & approx & kind & members & fsp & sg & -> & Hv) Hl Hrc.
  assert (E : single row (mkCondition (Col name cls oc' approx kind members fsp sg) op (Literal l quoted oc) lc rc q) =
    single row (mkCondition (Col name cls oc' approx kind members fsp sg) op (Literal l quoted 0) lc ClassUnknown q)).
  { cbn [eval_single3 single3]. change (class_or ClassUnknown (written_class l quoted)) with (written_class l quoted). by rewrite Hrc. }
  rewrite E. eapply (literal_comparison kRuns kPool iter to_chars_scientific to_chars regex_search is_builtin_function call_builtin_with_values apply_scalar_func tick strict context Htick Hstrict _ _ _ _ false); [done| |done].
  intros s. cbn. by rewrite Hv.
Qed.

(** A condition on the column that is TRUE admits its value. *)
Lemma true_admits row pk_col v cond s s' :
  reads_alike row pk_col v cond → column_text iter row pk_col = v → single row cond s = (Ok TriTrue, s') →
  admits kRuns kPool pk_col v cond = true ∧ Forall (λ l, null_text l.1 = false) (bound_literals pk_col cond).
Proof.
  intros Hr Hv H. destruct cond as [e op value lc rc q]. cbn [admits bound_literals reads_alike] in *.
  destruct e as [name cls oc approx kind members fsp sg| | | | | | | | | |]; try done. case_bool_decide as Hn; [subst name|done].
  set (e := Col pk_col cls oc approx kind members fsp sg) in *.
  assert (Hcol : ∃ name cls oc approx kind members fsp sg, e = Col name cls oc approx kind members fsp sg ∧ column_text iter row name = v) by (by repeat eexists).
  assert (Hcol' : ∃ name cls oc approx kind members fsp sg, e = Col name cls oc approx kind members fsp sg) by (by repeat eexists).
  assert (Hans : ∀ op l quoted, plain_column e → same_meaning row e lc v l quoted → literal_answer kRuns kPool to_chars e (class_or lc (class_of_expr e)) op v l quoted = TriTrue →
    null_text l = false ∧ op_holds op (sign (value_order kRuns kPool v l)) = TriTrue).
  { intros op' l quoted Hp [_ Hm]. unfold literal_answer. rewrite plain_value by done. destruct (null_text v); [done|]. destruct (null_text l); [done|].
    destruct Hm as [?|Hm]; [done|]. cbn [orb]. by rewrite Hm, cmp_val_sign. }
  destruct value as [l quoted oc'| |lo hi ql qh| |]; try done.
  - destruct (orders op) eqn:Hop; [|by destruct op].
    destruct (match op with OpNe => true | _ => false end) eqn:Hne; [by destruct op|].
    assert (Hb : match op with OpEq | OpGt | OpGte | OpLt | OpLte => [(l, quoted)] | _ => [] end = [(l, quoted)]) by (by destruct op).
    rewrite Hb in *. destruct (Hr ltac:(done)) as (Hp & Hm%Forall_inv & Hrc). cbn [fst snd] in Hm.
    pose proof (literal_single row e op v l lc rc q quoted oc' Hop Hp Hcol (proj1 Hm) Hrc s) as Hy. rewrite H in Hy. injection Hy as Hy _.
    destruct (Hans op l quoted Hp Hm (eq_sym Hy)) as [Hl Ho]. split; [|by apply Forall_singleton].
    destruct op; try done; by destruct (value_order kRuns kPool v l).
  - destruct op; try done. destruct (Hr ltac:(done)) as (Hp & Hm & _). apply Forall_cons in Hm as [Hm1 Hm2%Forall_inv]. cbn [fst snd] in Hm1, Hm2.
    assert (Hs : one_meaning e ql qh) by (intros Hview; destruct Hp as [-> _]; done).
    assert (He : yields (nd_exact (eval_node kRuns kPool iter to_chars_scientific to_chars regex_search is_builtin_function call_builtin_with_values apply_scalar_func tick strict context row e)) (v, false))
      by (intros s0; cbn; by rewrite Hv).
    pose proof (between_answer kRuns kPool iter to_chars_scientific to_chars regex_search is_builtin_function call_builtin_with_values apply_scalar_func tick strict context Htick Hstrict
      row e false v false lc rc q lo hi ql qh He Hs s) as Hy. cbv beta iota zeta in Hy. rewrite H in Hy. injection Hy as Hy.
    destruct (literal_answer _ _ _ e _ OpGte v lo ql) eqn:E1, (literal_answer _ _ _ e _ OpLte v hi qh) eqn:E2; try done.
    destruct (Hans OpGte lo ql Hp Hm1 E1) as [Hl1 Ho1]. destruct (Hans OpLte hi qh Hp Hm2 E2) as [Hl2 Ho2].
    split; [by destruct (value_order kRuns kPool v lo), (value_order kRuns kPool v hi)|by repeat constructor].
Qed.

(** A row the WHERE is TRUE of has its value in the range. *)
Lemma true_in_range row pk_col v expr s s' number :
  one_kind number v → column_text iter row pk_col = v →
  Forall (λ cond, reads_alike row pk_col v cond ∧ Forall (λ l, null_text l.1 = true ∨ one_kind number l.1) (bound_literals pk_col cond)) (collect_and_leaves expr) →
  condition row expr s = (Ok TriTrue, s') →
  range_kind number (extract_pk_gap_range kRuns kPool (Some expr) pk_col) ∧
  gap_range_contains kRuns kPool (extract_pk_gap_range kRuns kPool (Some expr) pk_col) v = true.
Proof.
  intros Hk Hv Hl H. pose proof (leaves_true row expr s s' H) as Ht.
  assert (Hall : Forall (λ cond, Forall (λ l, one_kind number l.1) (bound_literals pk_col cond) ∧ admits kRuns kPool pk_col v cond = true) (collect_and_leaves expr)).
  { apply Forall_forall. intros cond Hin. destruct (proj1 (Forall_forall _ _) Ht cond Hin) as (s1 & s2 & Hc).
    destruct (proj1 (Forall_forall _ _) Hl cond Hin) as [Hr Hn]. destruct (true_admits row pk_col v cond s1 s2 Hr Hv Hc) as [Ha Hnn]. split; [|done].
    apply Forall_forall. intros l Hlin. pose proof (proj1 (Forall_forall _ _) Hn l Hlin) as [E|E]; [|done]. pose proof (proj1 (Forall_forall _ _) Hnn l Hlin). congruence. }
  destruct (extract_range_spec kRuns kPool number pk_col expr v) as [H1 H2]; [|done|].
  { eapply Forall_impl; [exact Hall|]. by intros ? [? _]. }
  split; [done|]. rewrite H2. apply forallb_forall. intros cond Hin%list_elem_of_In. by apply (proj1 (Forall_forall _ _) Hall cond Hin).
Qed.

End where_clause.

(** ** Examples *)

Definition demo_range (expr : CondExpr) (v : string) : bool := gap_range_contains ascii_runs ascii_pool (extract_pk_gap_range ascii_runs ascii_pool (Some expr) (str "id")) (str v).
Definition demo_answer (cls : ValueClass) (v : string) (op : Operator) (value : ConditionValue) : result Tri :=
  fst (demo_cond (<[str "b" := str "5"]> {[ str "id" := str v ]}) (leaf_of (plain_col "id" cls) op value) start_state).

(** A VARCHAR key compares as a text, its range as numbers where both are: '10' < '2' is TRUE and '10' outside of the range. *)
Example text_key_outside : demo_answer ClassText "10" OpLt (Literal (str "2") true 0) = Ok TriTrue ∧
  demo_range (leaf_of (plain_col "id" ClassText) OpLt (Literal (str "2") true 0)) "10" = false.
Proof. by vm_compute. Qed.

(** The name of another column is taken for a value: [id = b] is TRUE of a row with 5 in both, and 5 outside of the range. *)
Example column_taken_for_value : demo_answer ClassNumber "5" OpEq (Literal (str "b") false 0) = Ok TriTrue ∧
  demo_range (leaf_of (plain_col "id" ClassNumber) OpEq (Literal (str "b") false 0)) "5" = false.
Proof. by vm_compute. Qed.

(** BIGINT values beyond 2^53 compare exactly in the WHERE and as doubles in the range. *)
Example big_key_outside : demo_answer ClassNumber "9007199254740993" OpGt (Literal (str "9007199254740992") false 0) = Ok TriTrue ∧
  demo_range (leaf_of (plain_col "id" ClassNumber) OpGt (Literal (str "9007199254740992") false 0)) "9007199254740993" = false.
Proof. by vm_compute. Qed.

Definition demo_where : CondExpr :=
  And (leaf_of (plain_col "id" ClassNumber) OpGte (Literal (str "3") false 0)) (leaf_of (plain_col "id" ClassNumber) OpBetween (Between (str "1") (str "9.5") false false)).

