(* ===== verification/Partition.v ===== *)
(** * Partitioned tables (executor_partition.cpp)

    The routing of a statement on a partitioned table to the tables of its partitions: the partition a value belongs to, the partitions
    a WHERE can match, and the statements an INSERT, UPDATE, DELETE or SELECT is turned into, run in one transaction. What executes a
    statement is a parameter over the state [S] of the session, as is columns_have_aggregate of executor_select.cpp. *)
From Stdlib Require Import SpecFloat.
From S2P Require Import Prelude Numerals NumericText Collation RowJson ResultText SetOps Ast Arith Classes Eval Coerce Gap.

#[local] Open Scope Z_scope.

(** ** The partition of a value *)

(** std::stoll: white space, a sign, digits; [None] for its exceptions. *)
Definition stoll (s : list Z) : option Z :=
  let s := skip_space s in
  let '(neg, s) := match s with c :: t => if is_sign c then (c =? c_minus, t) else (false, s) | [] => (false, s) end in
  let ds := take_digits s in
  if bool_decide (ds = []) then None
  else
    let v := if neg : bool then - digits_value ds else digits_value ds in
    if decide (in_int64 v) then Some v else None.

Definition hash_number (value : list Z) : Z := default 0 (stoll value).

(** The leading count of a message. *)
Definition leading_count (msg : list Z) : option Z :=
  let ds := take_digits msg in
  if bool_decide (ds = []) then None else if digits_value ds <=? u64_max then Some (digits_value ds) else None.

Definition qualify_table_name (name current_db : list Z) : list Z := if existsb (Z.eqb c_dot) name then name else current_db ++ c_dot :: name.

Definition partition_info_for (catalog : gmap (list Z) TableSchema) (table : list Z) : option PartitionBy :=
  schema ← catalog !! table; ts_partition_info schema.

(** The values of the first condition [column = v] or [column IN (v, ...)]. *)
Fixpoint first_values (leaves : list Condition) (column : list Z) : option (list (list Z)) :=
  match leaves with
  | [] => None
  | mkCondition (Col name _ _ _ _ _ _ _) op value _ _ _ :: leaves =>
      if bool_decide (name = column) then
        match op, value with
        | OpEq, Literal v _ _ => Some [v]
        | OpIn, LiteralList values _ => Some values
        | _, _ => first_values leaves column
        end
      else first_values leaves column
  | _ :: leaves => first_values leaves column
  end.

Definition find_eq_or_in_values (condition : option CondExpr) (column : list Z) : option (list (list Z)) :=
  expr ← condition; first_values (collect_and_leaves expr) column.

Section partition.
Context (kRuns : list Run) (kPool : list Z).

Fixpoint range_child (defs : list PartitionDef) (value : list Z) : list Z :=
  match defs with
  | [] => []
  | def :: defs =>
      if pd_range_is_maxvalue def then pd_child_table def
      else
        match pd_range_upper_bound def with
        | Some bound => if cmp_val kRuns kPool value bound <? 0 then pd_child_table def else range_child defs value
        | None => range_child defs value
        end
  end.

Definition lists (def : PartitionDef) (value : list Z) : bool := existsb (λ v, equal kRuns kPool v value) (pd_list_values def).

Definition list_child (defs : list PartitionDef) (value : list Z) : list Z :=
  match list_find (λ def, lists def value = true) defs with Some (_, def) => pd_child_table def | None => [] end.

Definition hash_child (defs : list PartitionDef) (value : list Z) : list Z :=
  let count := Z.of_nat (length defs) in
  match defs with
  | [] => []
  | def :: _ =>
      let idx := Z.rem (Z.rem (hash_number value) count + count) count in
      from_option pd_child_table [] (defs !! Z.to_nat idx)
  end.

(** The table of the partition a value belongs to; empty: none. *)
Definition partition_child_for_value (info : PartitionBy) (value : list Z) : list Z :=
  match pb_kind info with
  | PartRange => range_child (pb_partitions info) value
  | PartList => list_child (pb_partitions info) value
  | PartHash => hash_child (pb_partitions info) value
  end.

(** ** The partitions a WHERE can match *)

(** Does a partition between two bounds, the lower one included, have values of the range? *)
Definition overlaps (qr : GapRange) (part_lo part_hi : option (list Z)) : bool :=
  negb (match part_hi, gr_lo qr with Some part_hi, Some lo => cmp_val kRuns kPool part_hi lo <=? 0 | _, _ => false end) &&
  negb (match part_lo, gr_hi qr with
        | Some part_lo, Some hi => let c := cmp_val kRuns kPool part_lo hi in (0 <? c) || ((c =? 0) && negb (gr_hi_inclusive qr))
        | _, _ => false
        end).

Fixpoint prune_range (qr : GapRange) (prev_bound : option (list Z)) (defs : list PartitionDef) : list (list Z) :=
  match defs with
  | [] => []
  | def :: defs =>
      let part_hi := if pd_range_is_maxvalue def then None else pd_range_upper_bound def in
      let rest := prune_range qr (pd_range_upper_bound def) defs in
      if overlaps qr prev_bound part_hi then pd_child_table def :: rest else rest
  end.

Definition or_all (pruned all : list (list Z)) : list (list Z) := match pruned with [] => all | _ => pruned end.

Definition prune_partition_children (info : PartitionBy) (condition : option CondExpr) : list (list Z) :=
  let all := pd_child_table <$> pb_partitions info in
  match condition with
  | None => all
  | Some _ =>
      match pb_kind info with
      | PartRange =>
          let qr := extract_pk_gap_range kRuns kPool condition (pb_column info) in
          match gr_lo qr, gr_hi qr with None, None => all | _, _ => or_all (prune_range qr None (pb_partitions info)) all end
      | PartList =>
          match find_eq_or_in_values condition (pb_column info) with
          | None => all
          | Some values => or_all (pd_child_table <$> filter (λ def, existsb (lists def) values = true) (pb_partitions info)) all
          end
      | PartHash =>
          match find_eq_or_in_values condition (pb_column info) with
          | Some [v] => let child := partition_child_for_value info v in if bool_decide (child = []) then all else [child]
          | _ => all
          end
      end
  end.

(** ** Running the statements of the partitions *)

Section routing.
Context {S : Type}.
(** Executor::execute, txn.is_active() and columns_have_aggregate *)
Context (execute : S → Statement → S * result (list Z)) (txn_active : S → bool) (columns_have_aggregate : list SelectColumn → bool).
Context (mode : SortMode).

(** The statements in order; the first error ends them, after a ROLLBACK when the transaction is the function's own. *)
Fixpoint run_children (own_txn : bool) (s : S) (child_stmts : list Statement) (results : list (list Z)) : S * result (list (list Z)) :=
  match child_stmts with
  | [] => (s, Ok results)
  | stmt :: child_stmts =>
      match execute s stmt with
      | (s, Err e) => (if own_txn then fst (execute s Rollback) else s, Err e)
      | (s, Ok r) => run_children own_txn s child_stmts (results ++ [r])
      end
  end.

Definition run_routed_statements (s : S) (child_stmts : list Statement) : S * result (list (list Z)) :=
  match child_stmts with
  | [] => (s, Ok [])
  | _ =>
      let own_txn := negb (txn_active s) in
      match (if own_txn then execute s Begin else (s, Ok [])) with
      | (s, Err e) => (s, Err e)
      | (s, Ok _) =>
          match run_children own_txn s child_stmts [] with
          | (s, Err e) => (s, Err e)
          | (s, Ok results) =>
              if own_txn then
                match execute s Commit with
                | (s, Err e) => (s, Err e)
                | (s, Ok _) => (s, Ok results)
                end
              else (s, Ok results)
          end
      end
  end.

Definition total_count (results : list (list Z)) : Z :=
  foldl (λ total r, match leading_count r with Some c => wrap64 (total + c) | None => total end) 0 results.

(** The message of a statement that counts rows. *)
Definition counted (verb : string) (run : S * result (list (list Z))) : S * result (list Z) :=
  match run with
  | (s, Err e) => (s, Err e)
  | (s, Ok results) => (s, Ok (to_string (total_count results) ++ str " row(s) " ++ str verb ++ str "."))
  end.

(** ** INSERT *)

(** child_order and grouped. *)
Definition Groups : Type := list (list Z) * gmap (list Z) (list (list (list Z))).

Definition add_to_group (groups : Groups) (child : list Z) (row : list (list Z)) : Groups :=
  let '(child_order, grouped) := groups in
  (if grouped !! child then child_order else child_order ++ [child], <[child := default [] (grouped !! child) ++ [row]]> grouped).

Fixpoint group_by_partition (info : PartitionBy) (part_idx : nat) (values : list (list (list Z))) (groups : Groups) : result Groups :=
  match values with
  | [] => Ok groups
  | row :: values =>
      match row !! part_idx with
      | None => Err (str "INSERT value list is shorter than the partition column's position")
      | Some value =>
          let child := partition_child_for_value info value in
          if bool_decide (child = []) then Err (str "No partition found for value '" ++ value ++ str "' in column '" ++ pb_column info ++ str "'")
          else group_by_partition info part_idx values (add_to_group groups child row)
      end
  end.

(** The place of the partition column in the rows. *)
Definition partition_index (catalog : gmap (list Z) TableSchema) (table : list Z) (info : PartitionBy) (columns : option (list (list Z))) : result nat :=
  match columns with
  | Some columns =>
      match list_find (λ c, c = pb_column info) columns with
      | Some (i, _) => Ok i
      | None => Err (str "INSERT into a partitioned table must include the partition column '" ++ pb_column info ++ str "'")
      end
  | None =>
      match catalog !! table with
      | None => Err (str "Table '" ++ table ++ str "' not found")
      | Some schema =>
          match list_find (λ c, cd_name c = pb_column info) (ts_columns schema) with
          | Some (i, _) => Ok i
          | None => Err (str "PARTITION BY column '" ++ pb_column info ++ str "' not defined")
          end
      end
  end.

Definition child_inserts (columns : option (list (list Z))) (on_conflict : InsertConflict) (groups : Groups) : list Statement :=
  (λ child, Insert child columns (default [] (groups.2 !! child)) on_conflict None) <$> groups.1.

Definition route_partitioned_insert (catalog : gmap (list Z) TableSchema) (s : S) (table : list Z) (info : PartitionBy)
    (columns : option (list (list Z))) (values : list (list (list Z))) (on_conflict : InsertConflict) (returning : option (list SelectColumn)) : S * result (list Z) :=
  if returning then (s, Err (str "RETURNING is not yet supported on INSERT into a partitioned table in this version"))
  else
    match partition_index catalog table info columns with
    | Err e => (s, Err e)
    | Ok part_idx =>
        match group_by_partition info part_idx values ([], ∅) with
        | Err e => (s, Err e)
        | Ok groups => counted "inserted" (run_routed_statements s (child_inserts columns on_conflict groups))
        end
    end.

(** ** UPDATE, DELETE and SELECT *)

Definition route_partitioned_update (s : S) (info : PartitionBy) (assignments : list (list Z * ArithExpr)) (condition : option CondExpr)
    (returning : option (list SelectColumn)) (table_aliases : list (list Z * list Z)) (order_by : list Ast.OrderBy) (limit : option Z) : S * result (list Z) :=
  if returning then (s, Err (str "RETURNING is not yet supported on UPDATE against a partitioned table in this version"))
  else if existsb (λ a, bool_decide (a.1 = pb_column info)) assignments then
    (s, Err (str "Cannot UPDATE the partitioning column '" ++ pb_column info ++ str "' -- use DELETE+INSERT instead"))
  else
    counted "updated" (run_routed_statements s
      ((λ child, Update child assignments condition None table_aliases order_by limit) <$> prune_partition_children info condition)).

Definition route_partitioned_delete (s : S) (info : PartitionBy) (condition : option CondExpr) (returning : option (list SelectColumn))
    (table_aliases : list (list Z * list Z)) (order_by : list Ast.OrderBy) (limit : option Z) : S * result (list Z) :=
  if returning then (s, Err (str "RETURNING is not yet supported on DELETE against a partitioned table in this version"))
  else
    counted "deleted" (run_routed_statements s
      ((λ child, Delete child condition None table_aliases order_by limit) <$> prune_partition_children info condition)).

(** The rows of the partitions' answers, under the columns of the first that has some. *)
Definition merge_answers (answers : list (list Z)) : list (list Z) * list Row :=
  foldl (λ st answer, let '(c, rows) := parse_table_output answer in ((match st.1 with [] => c | _ => st.1 end), st.2 ++ rows)) ([], []) answers.

Definition set_order (o : Ast.OrderBy) : SetOps.OrderBy := SetOps.mkOrderBy (ob_column o) (ob_ascending o).

Definition route_partitioned_select (s : S) (info : PartitionBy) (stmt : Statement) : S * result (list Z) :=
  match stmt with
  | Select table subquery columns distinct condition joins order_by group_by having limit offset for_update for_share sort_resolved alias aliases with_rollup =>
      if subquery then (s, Err (str "FROM-subquery is not supported together with a partitioned table in this version"))
      else if negb (bool_decide (length joins = 0%nat)) then (s, Err (str "JOIN is not yet supported on partitioned tables in this version"))
      else if group_by then (s, Err (str "GROUP BY is not yet supported on partitioned tables in this version"))
      else if distinct then (s, Err (str "SELECT DISTINCT is not yet supported on partitioned tables in this version"))
      else if columns_have_aggregate columns then (s, Err (str "Aggregate functions are not yet supported on partitioned tables in this version"))
      else
        let child_stmts := (λ child, Select child None columns distinct condition joins [] group_by having None None for_update for_share sort_resolved alias aliases with_rollup)
          <$> prune_partition_children info condition in
        match run_routed_statements s child_stmts with
        | (s, Err e) => (s, Err e)
        | (s, Ok answers) =>
            let '(cols, merged) := merge_answers answers in
            (s, Ok (format_set_result cols (apply_set_postprocess kRuns kPool mode (set_order <$> order_by) (Z.to_nat <$> limit) (Z.to_nat <$> offset) merged)))
        end
  | _ => (s, Err (str "This statement is not supported on partitioned tables in this version"))
  end.

(** The tables a statement that is not routed can touch. *)
Definition unrouted_tables (stmt : Statement) : list (list Z) :=
  match stmt with
  | InsertSelect table _ _ _ _ => [table]
  | MultiUpdate tables _ _ _ _ => tables
  | MultiDelete delete_tables from_table _ _ _ => from_table :: delete_tables
  | Merge target _ source _ _ _ _ _ _ _ _ _ => [target; source]
  | _ => []
  end.

(** [None]: no partitioned table, the statement goes on as it is. *)
Definition try_route_partitioned (catalog : gmap (list Z) TableSchema) (current_db : list Z) (s : S) (stmt : Statement) : option (S * result (list Z)) :=
  let qualified table := qualify_table_name table current_db in
  match stmt with
  | Insert table columns values on_conflict returning =>
      info ← partition_info_for catalog (qualified table);
      Some (route_partitioned_insert catalog s (qualified table) info columns values on_conflict returning)
  | Update table assignments condition returning table_aliases order_by limit =>
      info ← partition_info_for catalog (qualified table); Some (route_partitioned_update s info assignments condition returning table_aliases order_by limit)
  | Delete table condition returning table_aliases order_by limit =>
      info ← partition_info_for catalog (qualified table); Some (route_partitioned_delete s info condition returning table_aliases order_by limit)
  | Select table _ _ _ _ _ _ _ _ _ _ _ _ _ _ _ _ =>
      info ← partition_info_for catalog (qualified table); Some (route_partitioned_select s info stmt)
  | _ =>
      if existsb (λ t, bool_decide (is_Some (partition_info_for catalog (qualified t)))) (unrouted_tables stmt) then
        Some (s, Err (str "Partitioned tables don't yet support this statement type in this version (INSERT/UPDATE/DELETE/SELECT directly on the table are supported)"))
      else None
  end.
End routing.
End partition.

(** ** RANGE partitions *)

Section ranges.
Context (kRuns : list Run) (kPool : list Z) (number : bool).

#[local] Abbreviation order_of := (value_order kRuns kPool).

Definition bounds_kind (defs : list PartitionDef) : Prop := Forall (λ def, ∀ b, pd_range_upper_bound def = Some b → one_kind number b) defs.

(** A value of the query's range that is between two bounds is in their overlap with it. *)
Lemma value_overlaps qr part_lo part_hi v :
  one_kind number v → range_kind number qr → gap_range_contains kRuns kPool qr v = true →
  (∀ b, part_lo = Some b → one_kind number b ∧ order_of v b ≠ Lt) → (∀ b, part_hi = Some b → one_kind number b ∧ order_of v b = Lt) →
  overlaps kRuns kPool qr part_lo part_hi = true.
Proof.
  intros Hv [Hklo Hkhi] Hc Hlo Hhi. rewrite contains_sides in Hc. apply andb_true_iff in Hc as [Hcl Hch].
  unfold overlaps. apply andb_true_iff. rewrite !negb_true_iff. split.
  - destruct part_hi as [b|]; [|done]. destruct (gr_lo qr) as [lo|] eqn:E; [|done]. destruct (Hhi b eq_refl) as [Hkb Hvb].
    pose proof (preorder_triangle _ _ v b lo (value_preorder kRuns kPool number) Hv Hkb (Hklo lo eq_refl)) as T. rewrite cmp_val_sign. cbn [lo_admits] in Hcl.
    rewrite Hvb in T. destruct (order_of b lo); [| |done]; destruct (order_of v lo); (discriminate T || done).
  - destruct part_lo as [b|]; [|done]. destruct (gr_hi qr) as [hi|] eqn:E; [|done]. destruct (Hlo b eq_refl) as [Hkb Hvb].
    pose proof (preorder_triangle _ _ v b hi (value_preorder kRuns kPool number) Hv Hkb (Hkhi hi eq_refl)) as T. rewrite cmp_val_sign. cbn [hi_admits] in Hch.
    destruct (order_of v b); [|done|]; destruct (order_of b hi), (gr_hi_inclusive qr); try done; destruct (order_of v hi); (discriminate T || done).
Qed.

Lemma cmp_val_lt a b : (cmp_val kRuns kPool a b <? 0) = bool_decide (order_of a b = Lt).
Proof. rewrite cmp_val_sign. by destruct (order_of a b). Qed.

Lemma range_kept qr v child : one_kind number v → range_kind number qr → gap_range_contains kRuns kPool qr v = true → child ≠ [] →
  ∀ defs prev, bounds_kind defs → (∀ b, prev = Some b → one_kind number b ∧ order_of v b ≠ Lt) →
  range_child kRuns kPool defs v = child → child ∈ prune_range kRuns kPool qr prev defs.
Proof.
  intros Hv Hq Hc Hne. induction defs as [|def defs IH]; intros prev Hb Hprev; cbn [range_child prune_range]; [by intros <-|].
  apply Forall_cons in Hb as [Hd Hb]. destruct (pd_range_is_maxvalue def).
  - intros <-. rewrite (value_overlaps qr prev None v) by done. by left.
  - destruct (pd_range_upper_bound def) as [b|] eqn:Eb.
    + rewrite cmp_val_lt. case_bool_decide as Hlt.
      * intros <-. rewrite (value_overlaps qr prev (Some b) v); [by left|done..|]. intros ? [= <-]. split; [by apply Hd|done].
      * intros Hch. assert (child ∈ prune_range kRuns kPool qr (Some b) defs); [|destruct (overlaps _ _ _ _ _); [by right|done]].
        apply IH; [done| |done]. intros ? [= <-]. split; [by apply Hd|done].
    + intros Hch. assert (child ∈ prune_range kRuns kPool qr None defs); [by apply IH|]. destruct (overlaps _ _ _ _ _); [by right|done].
Qed.

Lemma range_child_in defs v child : child ≠ [] → range_child kRuns kPool defs v = child → child ∈ pd_child_table <$> defs.
Proof.
  intros Hne. induction defs as [|def defs IH]; cbn [range_child]; [by intros <-|]. rewrite fmap_cons. destruct (pd_range_is_maxvalue def); [intros <-; by left|].
  destruct (pd_range_upper_bound def); [destruct (_ <? 0); [intros <-; by left|]|]; intros; right; by apply IH.
Qed.
End ranges.

Lemma or_all_in (pruned all : list (list Z)) child : child ∈ pruned → child ∈ or_all pruned all.
Proof. destruct pruned as [|p l]; [intros H; inversion H|done]. Qed.

(** ** The WHERE and the partitions *)

Lemma any_answer_true answer vs : any_answer answer vs = TriTrue → ∃ w, w ∈ vs ∧ answer w = TriTrue.
Proof.
  induction vs as [|w vs IH]; [done|]. cbn. fold (any_answer answer vs). destruct (answer w) eqn:E; [exists w; split; [by left|done]| |];
    (intros H; destruct IH as (w' & Hin & Hw); [by destruct (any_answer answer vs)|]; exists w'; split; [by right|done]).
Qed.

Section where_clause.
Context {X : Type}.
Context (kRuns : list Run) (kPool : list Z).
Context (iter : Row → list (list Z * list Z)).
Context (to_chars_scientific : bool → spec_float → list Z) (to_chars : spec_float → list Z).
Context (regex_search : list Z → list Z → option bool).
Context (is_builtin_function : list Z → bool).
Context (call_builtin_with_values : list Z → list (list Z) → list (list Z) → list Z → Ev X (list Z)).
Context (apply_scalar_func : list Z → list (list Z) → Row → Ev X (list Z)).
Context (tick : Ev X unit) (strict : bool) (context : option (StatementContext X)).
Context (Htick : yields tick tt) (Hstrict : strict = false).

#[local] Abbreviation condition := (eval_cond3 kRuns kPool iter to_chars_scientific to_chars regex_search is_builtin_function call_builtin_with_values apply_scalar_func tick strict context).
#[local] Abbreviation single := (eval_single3 kRuns kPool iter to_chars_scientific to_chars regex_search is_builtin_function call_builtin_with_values apply_scalar_func tick strict context).
#[local] Abbreviation node := (eval_node kRuns kPool iter to_chars_scientific to_chars regex_search is_builtin_function call_builtin_with_values apply_scalar_func tick strict context).

(** The values an equality or an IN list compares the column with stand for themselves, and one equal to [v] is [R]-related to it. *)
Definition equal_alike (R : list Z → list Z → Prop) (row : Row) (e : ArithExpr) (lc : ValueClass) (v l : list Z) (quoted : bool) : Prop :=
  null_text l = true ∨ (compare_classed kRuns kPool (class_or lc (class_of_expr e)) (written_class l quoted) v l = 0 → R v l).

Definition reads_equal (R : list Z → list Z → Prop) (row : Row) (column v : list Z) (cond : Condition) : Prop :=
  match cond with
  | mkCondition e op value lc rc _ =>
      match e with Col name _ _ _ _ _ _ _ => name = column | _ => False end →
      match op, value with
      | OpEq, Literal l quoted _ =>
          plain_column e ∧ stands_for_itself iter row l quoted ∧ class_or rc (written_class l quoted) = written_class l quoted ∧ equal_alike R row e lc v l quoted
      | OpIn, LiteralList values quoted =>
          plain_column e ∧ values ≠ [] ∧ length quoted = length values ∧ Forall (λ l, equal_alike R row e lc v l.1 l.2) (zip values quoted)
      | _, _ => True
      end
  end.

Lemma answer_related R row e lc v l quoted : plain_column e → (∃ name cls oc approx kind members fsp sg, e = Col name cls oc approx kind members fsp sg) →
  equal_alike R row e lc v l quoted → literal_answer kRuns kPool to_chars e (class_or lc (class_of_expr e)) OpEq v l quoted = TriTrue → R v l.
Proof.
  intros Hp Hcol Ha. unfold literal_answer. rewrite plain_value by done. destruct (null_text v); [done|]. destruct (null_text l) eqn:En; [done|].
  cbn [orb op_holds]. destruct Ha as [?|Ha]; [congruence|]. destruct (Z.eqb_spec (compare_classed kRuns kPool (class_or lc (class_of_expr e)) (written_class l quoted) v l) 0) as [E|]; [|done].
  intros _. by apply Ha.
Qed.

(** The values that pruning finds in a WHERE that is TRUE include one that the column's value is related to. *)
Lemma found_values_true R row column v leaves values :
  column_text iter row column = v → Forall (reads_equal R row column v) leaves →
  Forall (λ cond, ∃ s1 s2, single row cond s1 = (Ok TriTrue, s2)) leaves →
  first_values leaves column = Some values → ∃ l, l ∈ values ∧ R v l.
Proof.
  intros Hv Hr Ht. induction leaves as [|cond leaves IH]; [done|]. apply Forall_cons in Hr as [Hc Hr]. apply Forall_cons in Ht as [(s1 & s2 & H) Ht].
  specialize (IH Hr Ht). destruct cond as [e op value lc rc q]. cbn [first_values reads_equal] in *.
  destruct e as [name cls oc approx kind members fsp sg| | | | | | | | | |]; try exact IH. case_bool_decide as Hn; [subst name|exact IH]. specialize (Hc eq_refl).
  set (e := Col column cls oc approx kind members fsp sg) in *.
  assert (Hcol : ∃ name cls oc approx kind members fsp sg, e = Col name cls oc approx kind members fsp sg ∧ column_text iter row name = v) by (by repeat eexists).
  assert (Hcol' : ∃ name cls oc approx kind members fsp sg, e = Col name cls oc approx kind members fsp sg) by (by repeat eexists).
  destruct op; try exact IH; destruct value as [l quoted oc'| | |values' quoted|]; try exact IH; intros [= <-].
  - destruct Hc as (Hp & Hs & Hrc & Ha).
    pose proof (literal_single kRuns kPool iter to_chars_scientific to_chars regex_search is_builtin_function call_builtin_with_values apply_scalar_func tick strict context Htick Hstrict
      row e OpEq v l lc rc q quoted oc' eq_refl Hp Hcol Hs Hrc s1) as Hy. rewrite H in Hy. injection Hy as Hy _.
    exists l. split; [by left|]. by eapply answer_related.
  - destruct Hc as (Hp & Hne & Hlen & Hall). destruct (zip values' quoted) as [|w ws] eqn:Ez.
    { destruct values' as [|x xs]; [done|]. by destruct quoted. }
    assert (E1 : values' = (w :: ws).*1) by (rewrite <- Ez; symmetry; apply fst_zip; lia).
    assert (E2 : quoted = (w :: ws).*2) by (rewrite <- Ez; symmetry; apply snd_zip; lia).
    assert (He : yields (nd_exact (node row e)) (v, false)) by (intros s0; cbn; by rewrite Hv).
    assert (Hm : in_meaning e (w :: ws)) by (intros Hsg; destruct Hp as [_ ->]; done).
    pose proof (in_list_single kRuns kPool iter to_chars_scientific to_chars regex_search is_builtin_function call_builtin_with_values apply_scalar_func tick strict context Htick Hstrict
      row e OpIn v false lc rc q w ws He Hm (or_introl eq_refl) s1) as Hy. rewrite <- E1, <- E2, H in Hy. rewrite bool_decide_true in Hy by done. injection Hy as Hy _.
    destruct (any_answer_true (λ l, literal_answer kRuns kPool to_chars e (class_or lc (class_of_expr e)) OpEq v l.1 l.2) (w :: ws) (eq_sym Hy)) as (x & Hin & Hx). exists x.1. split; [rewrite E1; by apply list_elem_of_fmap_2|].
    apply (answer_related R row e lc v x.1 x.2); [done|done| |done]. by apply (proj1 (Forall_forall _ _) Hall).
Qed.

(** What the WHERE must compare as the partitions do: RANGE values and bounds of one kind, and the conditions on the column read as
    the range reads them; the values of LIST partitions equal to it by the collation; those of HASH partitions with its number. *)
Definition prunable (number : bool) (info : PartitionBy) (row : Row) (v : list Z) (expr : CondExpr) : Prop :=
  match pb_kind info with
  | PartRange => one_kind number v ∧ bounds_kind number (pb_partitions info) ∧
      Forall (λ cond, reads_alike kRuns kPool iter row (pb_column info) v cond ∧
        Forall (λ l, null_text l.1 = true ∨ one_kind number l.1) (bound_literals (pb_column info) cond)) (collect_and_leaves expr)
  | PartList => Forall (reads_equal (λ a b, equal kRuns kPool a b = true) row (pb_column info) v) (collect_and_leaves expr)
  | PartHash => Forall (reads_equal (λ a b, hash_number a = hash_number b) row (pb_column info) v) (collect_and_leaves expr)
  end.

Lemma lists_equal def v l : equal kRuns kPool v l = true → lists kRuns kPool def v = true → lists kRuns kPool def l = true.
Proof.
  rewrite equal_order. intros Hl (x & Hin & Hx%equal_order)%existsb_exists. apply existsb_exists. exists x. split; [done|]. apply equal_order.
  pose proof (order_trans kRuns kPool x v l) as T1. pose proof (order_trans kRuns kPool l v x) as T2.
  rewrite (order_antisym kRuns kPool x l), (order_antisym kRuns kPool v l), (order_antisym kRuns kPool x v), Hl, Hx in T2. rewrite Hl, Hx in T1.
  destruct (order kRuns kPool x l); [done|exfalso; by apply T2|exfalso; by apply T1].
Qed.

Lemma list_kept defs v l values child : list_child kRuns kPool defs v = child → child ≠ [] → l ∈ values → equal kRuns kPool v l = true →
  child ∈ pd_child_table <$> filter (λ def, existsb (lists kRuns kPool def) values = true) defs.
Proof.
  unfold list_child. destruct (list_find _ defs) as [[i def]|] eqn:E; [|by intros <-]. intros <- _ Hin Hl.
  apply list_find_Some in E as (Hi & Hd & _). apply list_elem_of_fmap_2, list_elem_of_filter. split; [|by eapply list_elem_of_lookup_2].
  apply existsb_exists. exists l. split; [by apply list_elem_of_In|]. by eapply lists_equal.
Qed.

Lemma list_child_in defs v child : child ≠ [] → list_child kRuns kPool defs v = child → child ∈ pd_child_table <$> defs.
Proof.
  intros Hne. unfold list_child. destruct (list_find _ defs) as [[i def]|] eqn:E; [|by intros <-]. intros <-.
  apply list_find_Some in E as (Hi & _ & _). by apply list_elem_of_fmap_2, (list_elem_of_lookup_2 _ i).
Qed.

Lemma hash_child_in defs v child : child ≠ [] → hash_child defs v = child → child ∈ pd_child_table <$> defs.
Proof.
  intros Hne. unfold hash_child. destruct defs as [|d defs]; [by intros <-|]. destruct (_ !! _) as [def|] eqn:E; [|by intros <-]. intros <-.
  apply (list_elem_of_fmap_2 pd_child_table (d :: defs) def). by eapply list_elem_of_lookup_2.
Qed.

Lemma hash_child_number defs v l : hash_number v = hash_number l → hash_child defs v = hash_child defs l.
Proof. intros E. unfold hash_child. by rewrite E. Qed.

Lemma partition_child_in info v child : child ≠ [] → partition_child_for_value kRuns kPool info v = child → child ∈ pd_child_table <$> pb_partitions info.
Proof. unfold partition_child_for_value. destruct (pb_kind info); [apply range_child_in|apply list_child_in|apply hash_child_in]. Qed.

End where_clause.

(** ** What a routed INSERT executes *)

Section inserts.
Context (kRuns : list Run) (kPool : list Z).

(** The table a row of an INSERT goes to. *)
Definition routed (info : PartitionBy) (part_idx : nat) (row : list (list Z)) : option (list Z) :=
  value ← row !! part_idx; let child := partition_child_for_value kRuns kPool info value in if bool_decide (child = []) then None else Some child.

Definition rows_of info part_idx (values : list (list (list Z))) (child : list Z) : list (list (list Z)) :=
  filter (λ row, routed info part_idx row = Some child) values.

(** The groups of the rows seen so far. *)
Definition grouped_rows info part_idx (seen : list (list (list Z))) (groups : Groups) : Prop :=
  NoDup groups.1 ∧ (∀ child, child ∈ groups.1 ↔ is_Some (groups.2 !! child)) ∧
  (∀ child, default [] (groups.2 !! child) = rows_of info part_idx seen child) ∧
  (∀ child, is_Some (groups.2 !! child) ↔ Exists (λ row, routed info part_idx row = Some child) seen).

Lemma add_to_group_spec info part_idx seen groups row child :
  routed info part_idx row = Some child → grouped_rows info part_idx seen groups → grouped_rows info part_idx (seen ++ [row]) (add_to_group groups child row).
Proof.
  destruct groups as [ord g]. intros Hrow (Hnd & Hdom & Hrows & Hex). unfold grouped_rows in *. cbn [add_to_group fst snd] in *. split_and!.
  - destruct (g !! child) eqn:E; [done|]. apply NoDup_app. split_and!; [done| |apply NoDup_singleton].
    intros x Hx ->%list_elem_of_singleton. apply Hdom in Hx as [? ?]. congruence.
  - intros c. destruct (decide (c = child)) as [->|Hc].
    + rewrite lookup_insert_eq. destruct (g !! child) eqn:E; [split; [done|intros _; apply Hdom; by eexists]|].
      split; [by eexists|intros _; apply elem_of_app; right; by left].
    + rewrite lookup_insert_ne by done. rewrite <- Hdom. destruct (g !! child); [done|]. rewrite elem_of_app, list_elem_of_singleton. naive_solver.
  - intros c. unfold rows_of. rewrite filter_app. destruct (decide (c = child)) as [->|Hc].
    + rewrite lookup_insert_eq. cbn [default]. rewrite Hrows, filter_cons_True by done. by rewrite filter_nil.
    + rewrite lookup_insert_ne by done. rewrite filter_cons_False by congruence. by rewrite filter_nil, app_nil_r.
  - intros c. rewrite Exists_app, Exists_cons, Exists_nil. destruct (decide (c = child)) as [->|Hc].
    + rewrite lookup_insert_eq. split; [by right; left|by eexists].
    + rewrite lookup_insert_ne, Hex by done. split; [by left|]. intros [?|[?|[]]]; [done|congruence].
Qed.

Lemma group_by_partition_spec info part_idx : ∀ values seen groups, grouped_rows info part_idx seen groups →
  match group_by_partition kRuns kPool info part_idx values groups with
  | Ok groups' => Forall (λ row, is_Some (routed info part_idx row)) values ∧ grouped_rows info part_idx (seen ++ values) groups'
  | Err _ => Exists (λ row, routed info part_idx row = None) values
  end.
Proof.
  induction values as [|row values IH]; intros seen groups Hg; cbn [group_by_partition]; [rewrite app_nil_r; by split|].
  destruct (row !! part_idx) as [value|] eqn:Ev; [|left; unfold routed; by rewrite Ev].
  set (child := partition_child_for_value kRuns kPool info value).
  assert (Er : routed info part_idx row = if bool_decide (child = []) then None else Some child) by (unfold routed; by rewrite Ev).
  destruct (bool_decide (child = [])); [by left|]. specialize (IH _ _ (add_to_group_spec info part_idx seen groups row child Er Hg)).
  destruct (group_by_partition _ _ _ _ _ _); [|by right]. destruct IH as [H1 H2]. rewrite <- app_assoc in H2. split; [|done]. constructor; [by rewrite Er|done].
Qed.

(** The rows of distinct tables that take them all are the rows in another order. *)
Lemma rows_of_permutation info part_idx : ∀ children values, NoDup children →
  Forall (λ row, ∃ child, child ∈ children ∧ routed info part_idx row = Some child) values → mjoin (rows_of info part_idx values <$> children) ≡ₚ values.
Proof.
  induction children as [|c children IH]; intros values Hnd Hv.
  - destruct values as [|row values]; [done|]. apply Forall_inv in Hv as (? & Hin & _). inversion Hin.
  - apply NoDup_cons in Hnd as [Hc Hnd]. rewrite fmap_cons. cbn [mjoin list_join].
    set (others := filter (λ row, ¬ routed info part_idx row = Some c) values).
    assert (E : rows_of info part_idx values <$> children = rows_of info part_idx others <$> children).
    { apply list_fmap_ext. intros i x Hx. unfold rows_of, others. rewrite list_filter_filter. apply list_filter_iff. intros row. split; [|by intros [? _]].
      intros Hr. split; [done|]. intros Hr'. rewrite Hr in Hr'. injection Hr' as ->. apply Hc. by eapply list_elem_of_lookup_2. }
    rewrite E, (IH others Hnd).
    + unfold rows_of, others. apply filter_app_complement.
    + apply Forall_forall. intros row [Hn Hin]%list_elem_of_filter. destruct (proj1 (Forall_forall _ _) Hv row Hin) as (child & Hch & Hr).
      exists child. split; [|done]. apply elem_of_cons in Hch as [->|Hch]; [by destruct Hn|done].
Qed.

Section execution.
Context {S : Type} (execute : S → Statement → S * result (list Z)) (txn_active : S → bool).

(** C39: an INSERT into a partitioned table is refused, nothing executed, unless each of its rows has a partition. Otherwise it is one
    INSERT for each table that takes some: the tables are distinct, each INSERT has the rows of the table in the order of the
    statement, and together they have every row exactly once. *)
Theorem insert_routed catalog s table info columns values on_conflict :
  let route := route_partitioned_insert kRuns kPool execute txn_active catalog s table info columns values on_conflict None in
  match partition_index catalog table info columns with
  | Err e => route = (s, Err e)
  | Ok part_idx =>
      (Exists (λ row, routed info part_idx row = None) values ∧ ∃ e, route = (s, Err e)) ∨
      (Forall (λ row, is_Some (routed info part_idx row)) values ∧ ∃ children, NoDup children ∧
       (∀ child, child ∈ children ↔ Exists (λ row, routed info part_idx row = Some child) values) ∧
       mjoin (rows_of info part_idx values <$> children) ≡ₚ values ∧
       route = counted "inserted" (run_routed_statements execute txn_active s
         ((λ child, Insert child columns (rows_of info part_idx values child) on_conflict None) <$> children)))
  end.
Proof.
  intros route. unfold route, route_partitioned_insert. destruct (partition_index _ _ _ _) as [part_idx|e]; [|done].
  assert (H0 : grouped_rows info part_idx [] ([], ∅)).
  { split_and!; [apply NoDup_nil_2| | |]; intros c; cbn [fst snd]; rewrite lookup_empty; [|done|]; split; [inversion 1|by intros [? ?]|by intros [? ?]|by intros ?%Exists_nil]. }
  pose proof (group_by_partition_spec info part_idx values [] ([], ∅) H0) as H. destruct (group_by_partition _ _ _ _ _ _) as [groups|e]; [|left; split; [done|by eexists]].
  right. destruct H as [Hall (Hnd & Hdom & Hrows & Hex)]. cbn [app] in *. split; [done|]. exists groups.1.
  assert (Hin : ∀ child, child ∈ groups.1 ↔ Exists (λ row, routed info part_idx row = Some child) values) by (intros c; by rewrite Hdom, Hex).
  split_and!; [done|done| |].
  - apply rows_of_permutation; [done|]. apply Forall_forall. intros row Hrow. destruct (proj1 (Forall_forall _ _) Hall row Hrow) as [child Hc].
    exists child. split; [|done]. apply Hin, Exists_exists. by exists row.
  - do 2 f_equal. apply list_fmap_ext. intros i c Hc. by rewrite Hrows.
Qed.
End execution.
End inserts.

(** ** The transaction of a routed statement *)

Section transaction.
Context {S D : Type} (execute : S → Statement → S * result (list Z)) (txn_active : S → bool).
(** The data of a session, and the sessions in a transaction that began with some data. *)
Context (data : S → D) (since : D → S → Prop).

(** What the statements of transactions do to the data: a BEGIN refused changes nothing, a ROLLBACK gives back the data of its BEGIN. *)
Record transactional := mkTransactional {
  tr_begin s s' r : txn_active s = false → execute s Begin = (s', r) → match r with Ok _ => since (data s) s' | Err _ => data s' = data s end;
  tr_statement d s stmt : since d s → stmt ≠ Begin → stmt ≠ Commit → stmt ≠ Rollback → since d (fst (execute s stmt));
  tr_rollback d s : since d s → data (fst (execute s Rollback)) = d
}.

Definition row_statement (stmt : Statement) : Prop := stmt ≠ Begin ∧ stmt ≠ Commit ∧ stmt ≠ Rollback.

(** The statements executed in order, all of them Ok. *)
Inductive all_ok : S → list Statement → S → list (list Z) → Prop :=
  | all_ok_nil s : all_ok s [] s []
  | all_ok_cons s stmt s1 r stmts s2 rs : execute s stmt = (s1, Ok r) → all_ok s1 stmts s2 rs → all_ok s (stmt :: stmts) s2 (r :: rs).

Lemma run_children_spec own d (T : transactional) : ∀ stmts s results s' r, since d s → Forall row_statement stmts →
  run_children execute own s stmts results = (s', r) →
  match r with
  | Ok rs => since d s' ∧ ∃ new, rs = results ++ new ∧ all_ok s stmts s' new
  | Err _ => own = true → data s' = d
  end.
Proof.
  induction stmts as [|stmt stmts IH]; intros s results s' r Hs Hf; cbn [run_children].
  - intros [= <- <-]. split; [done|]. exists []. split; [by rewrite app_nil_r|constructor].
  - apply Forall_cons in Hf as [(H1 & H2 & H3) Hf]. pose proof (tr_statement T d s stmt Hs H1 H2 H3) as Hs1.
    destruct (execute s stmt) as [s1 [x|e]] eqn:E; cbn [fst] in Hs1.
    + intros H. specialize (IH s1 _ s' r Hs1 Hf H). destruct r; [|done]. destruct IH as (Hs' & new & -> & Hn). split; [done|].
      exists (x :: new). split; [by rewrite <- app_assoc|by econstructor].
    + intros [= <- <-] ->. by apply (tr_rollback T).
Qed.

(** A statement of several partitions outside of a transaction is a transaction: if it fails, other than in its COMMIT, the data
    are those before it; if not, the statements of the partitions were executed in order, each of them Ok, then a COMMIT. *)
Theorem routed_statement_atomic (T : transactional) s stmts s' r :
  txn_active s = false → Forall row_statement stmts → stmts ≠ [] → run_routed_statements execute txn_active s stmts = (s', r) →
  match r with
  | Ok rs => ∃ s0 b s1 c, execute s Begin = (s0, Ok b) ∧ all_ok s0 stmts s1 rs ∧ execute s1 Commit = (s', Ok c)
  | Err e => data s' = data s ∨ ∃ s0 b s1 rs, execute s Begin = (s0, Ok b) ∧ all_ok s0 stmts s1 rs ∧ execute s1 Commit = (s', Err e)
  end.
Proof.
  intros Ha Hf Hne. unfold run_routed_statements. rewrite Ha. cbn [negb]. destruct stmts as [|stmt stmts]; [done|]. set (all := stmt :: stmts) in *.
  destruct (execute s Begin) as [s0 [b|e]] eqn:Eb; pose proof (tr_begin T s _ _ Ha Eb) as Hb; cbn in Hb; [|intros [= <- <-]; by left].
  destruct (run_children execute true s0 all []) as [s1 [rs|e]] eqn:Er; pose proof (run_children_spec true _ T _ _ _ _ _ Hb Hf Er) as H; cbn in H.
  - destruct H as (_ & new & -> & Hn). destruct (execute s1 Commit) as [s2 [c|e]] eqn:Ec; intros [= <- <-]; [by exists s0, b, s1, c|].
    right. by exists s0, b, s1, new.
  - intros [= <- <-]. left. by apply H.
Qed.
End transaction.

(** ** Examples *)

Definition part_def (bound : option string) (values : list string) (child : string) : PartitionDef :=
  mkPartitionDef (str child) (str <$> bound) (negb (bool_decide (is_Some bound))) (str <$> values) (str child).

(** PARTITION BY RANGE (id): LESS THAN (10), LESS THAN MAXVALUE *)
Definition demo_ranges : PartitionBy := mkPartitionBy PartRange (str "id") [part_def (Some "10") [] "p0"; part_def None [] "p1"] 0.
Definition demo_buckets : PartitionBy := mkPartitionBy PartHash (str "id") [part_def None [] "p0"; part_def None [] "p1"; part_def None [] "p2"] 3.

Definition demo_prune (info : PartitionBy) (expr : CondExpr) : list (list Z) := prune_partition_children ascii_runs ascii_pool info (Some expr).

(** A session that keeps the statements executed, and those before the BEGIN; a statement on the table "bad" is an error. *)
Definition Session : Type := list Statement * option (list Statement).
Definition demo_execute (s : Session) (stmt : Statement) : Session * result (list Z) :=
  match stmt with
  | Begin => ((s.1, Some s.1), Ok [])
  | Commit => ((s.1, None), Ok [])
  | Rollback => ((default s.1 s.2, None), Ok [])
  | Update table _ _ _ _ _ _ => if bool_decide (table = str "bad") then (s, Err (str "error")) else ((s.1 ++ [stmt], s.2), Ok (str "1 row(s) updated."))
  | _ => ((s.1 ++ [stmt], s.2), Ok (str "2 row(s) inserted."))
  end.
Definition demo_active (s : Session) : bool := bool_decide (is_Some s.2).

Example partition_demo :
  partition_child_for_value ascii_runs ascii_pool demo_ranges (str "9.5") = str "p0" ∧ partition_child_for_value ascii_runs ascii_pool demo_buckets (str "-7") = str "p2" ∧
  demo_prune demo_ranges (leaf_of (plain_col "id" ClassNumber) OpLt (Literal (str "10") false 0)) = [str "p0"] ∧
  demo_prune demo_ranges (leaf_of (plain_col "id" ClassNumber) OpLte (Literal (str "10") false 0)) = [str "p0"; str "p1"].
Proof. by vm_compute. Qed.

(** A LIMIT goes to each of the partitions: an UPDATE of at most one row updates one in each. *)
Example limit_of_each_partition : (route_partitioned_update ascii_runs ascii_pool demo_execute demo_active ([], None) demo_ranges [] None None [] [] (Some 1)) =
  (([Update (str "p0") [] None None [] [] (Some 1); Update (str "p1") [] None None [] [] (Some 1)], None), Ok (str "2 row(s) updated.")).
Proof. by vm_compute. Qed.

(** An INSERT is routed by the value as it is written, the row has the one of the column: 9.6 goes to the ids below 10 and is stored as 10. *)
Example routed_by_the_text : partition_child_for_value ascii_runs ascii_pool demo_ranges (str "9.6") = str "p0" ∧ demo_coerce TInt false "9.6" = Ok (str "10") ∧
  demo_prune demo_ranges (leaf_of (plain_col "id" ClassNumber) OpEq (Literal (str "10") false 0)) = [str "p1"].
Proof. by vm_compute. Qed.

(** [id = b], b another column, is taken for the text "b", which is in the first bucket. *)
Example bucket_of_a_column :
  demo_cond (<[str "b" := str "1"]> {[ str "id" := str "1" ]}) (leaf_of (plain_col "id" ClassNumber) OpEq (Literal (str "b") false 0)) start_state = (Ok TriTrue, start_state) ∧
  partition_child_for_value ascii_runs ascii_pool demo_buckets (str "1") = str "p1" ∧
  demo_prune demo_buckets (leaf_of (plain_col "id" ClassNumber) OpEq (Literal (str "b") false 0)) = [str "p0"].
Proof. by vm_compute. Qed.

Lemma demo_transactional : transactional demo_execute demo_active fst (λ d (s : Session), s.2 = Some d).
Proof.
  split.
  - by intros [d [b|]] s' r Ha [= <- <-].
  - intros d [l o] stmt. cbn [snd fst]. intros -> H1 H2 H3. destruct stmt; try done. cbn. by case_bool_decide.
  - by intros d [l o] [= ->].
Qed.

Lemma routed_statement_atomic_witness :
  let stmts := [Update (str "p0") [] None None [] [] None; Update (str "bad") [] None None [] [] None] in
  run_routed_statements demo_execute demo_active ([], None) stmts = (([], None), Err (str "error")).
Proof.
  intros stmts. assert (E : run_routed_statements demo_execute demo_active ([], None) stmts = (([], None), Err (str "error"))) by (vm_compute; reflexivity).
  destruct (routed_statement_atomic demo_execute demo_active fst (λ d (s : Session), s.2 = Some d) demo_transactional ([], None) stmts _ _ eq_refl
    ltac:(repeat constructor; discriminate) ltac:(discriminate) E) as [_|(s0 & b & s1 & rs & H & H1 & H2)]; [exact E|]. discriminate H2.
Defined.

