(* ===== verification/Probe.v ===== *)
(** * The cache of UNIQUE values (executor_unique_probe.cpp, unique_probe.hpp)

    How many live rows of a table hold each value of its UNIQUE columns, composite keys and foreign keys: an INSERT whose value none
    holds skips its scan. The cache is stamped with the number of times that the locks of the table were taken exclusively, and used
    only while the stamp is that of now. The theorem is that no answer "absent" is ever wrong, for writers that take the locks and
    either tell the cache all that they change in a section or nothing. The 64-bit counts of locks taken are integers that do not
    wrap; the 32-bit counts of rows do, and a table of fewer than 2^32 rows is assumed where that matters. *)
From Stdlib Require Import Lia.
From S2P Require Import Prelude Numerals NumericText Collation RowJson Ast Classes.

#[local] Open Scope Z_scope.

(** ** Data *)

Record UniqueProbeKeySpec := mkKeySpec { ks_columns : list (list Z); ks_tuple : bool; ks_skip_null : bool }.
#[export] Instance UniqueProbeKeySpec_eq_dec : EqDecision UniqueProbeKeySpec.
Proof. solve_decision. Defined.

Record UniqueProbe := mkUniqueProbe {
  up_specs : list UniqueProbeKeySpec;
  up_signature : list Z;
  up_counts : list (gmap (list Z) Z);
  up_built : bool;
  up_locks_id : Z;
  up_data_id : Z;
  up_sum : Z;
  up_insert_tails : Z;
  up_seen : option (Z * Z * Z * Z);  (** seen_locks_id, seen_data_id, seen_sum and seen_insert_tails, when seen *)
  up_streak : Z;
  up_child_streak : Z
}.

Definition empty_probe : UniqueProbe := mkUniqueProbe [] [] [] false 0 0 0 0 None 0 0.

Record UniqueProbes := mkUniqueProbes {
  ps_by_table : gmap (list Z) UniqueProbe;
  ps_enabled : bool;
  ps_check : bool;
  ps_streak_needed : Z;
  ps_builds : Z;
  ps_skipped : Z
}.

Definition set_by_table (all : UniqueProbes) by_table := mkUniqueProbes by_table (ps_enabled all) (ps_check all) (ps_streak_needed all) (ps_builds all) (ps_skipped all).
Definition set_probe (all : UniqueProbes) (table : list Z) (p : UniqueProbe) : UniqueProbes := set_by_table all (<[table := p]> (ps_by_table all)).
Definition count_build (all : UniqueProbes) := mkUniqueProbes (ps_by_table all) (ps_enabled all) (ps_check all) (ps_streak_needed all) (ps_builds all + 1) (ps_skipped all).
Definition count_skip (all : UniqueProbes) := mkUniqueProbes (ps_by_table all) (ps_enabled all) (ps_check all) (ps_streak_needed all) (ps_builds all) (ps_skipped all + 1).

(** A lock: which one it is, and how many times it was taken exclusively. *)
Record Lock := mkLock { lk_instance_id : Z; lk_exclusive_count : Z }.

(** What the cache uses of the shared database. *)
Record ProbeDb := mkProbeDb {
  db_exclusive_count : Z;
  db_table_locks : gmap (list Z) (option Lock);
  db_data_locks : gmap (list Z) (option Lock);
  db_tables : gmap (list Z) (list Row);
  db_catalog : gmap (list Z) TableSchema;
  db_probes : UniqueProbes
}.
Definition set_probes (s : ProbeDb) (all : UniqueProbes) : ProbeDb :=
  mkProbeDb (db_exclusive_count s) (db_table_locks s) (db_data_locks s) (db_tables s) (db_catalog s) all.

Inductive ProbeUse := UseLookup | UseNoBuild | UseInsideExclusive.

Definition ValueOf : Type := list Z → option (list Z).

(** ** Keys *)

(** A row is live while no transaction has ended it. *)
Definition is_visible (row : Row) : bool := match row !! str "_xmax" with None => true | Some v => bool_decide (v = [48]) end.

Definition one_column (spec : UniqueProbeKeySpec) (name : list Z) : bool :=
  negb (ks_tuple spec) && ks_skip_null spec && bool_decide (ks_columns spec = [name]).

Definition foreign_specs (cols : list ColumnDef) (specs : list UniqueProbeKeySpec) : list UniqueProbeKeySpec :=
  foldl (λ specs col,
    if bool_decide (cd_foreign_keys col = []) then specs
    else if existsb (λ s, one_column s (cd_name col)) specs then specs else specs ++ [mkKeySpec [cd_name col] false true]) specs cols.

Definition specs_of (schema : TableSchema) : list UniqueProbeKeySpec :=
  foreign_specs (ts_columns schema)
    (((λ col, mkKeySpec [cd_name col] false true) <$> filter (λ col, cd_unique col && negb (cd_primary_key col) = true) (ts_columns schema)) ++
     (if (1 <? length (ts_primary_key_columns schema))%nat then [mkKeySpec (ts_primary_key_columns schema) true false] else []) ++
     ((λ key, mkKeySpec (uk_columns key) true true) <$> ts_unique_keys schema)).

Definition signature_of (specs : list UniqueProbeKeySpec) : list Z :=
  mjoin ((λ spec, [if ks_tuple spec then 84 else 67; if ks_skip_null spec then 110 else 112] ++ mjoin ((λ c, c ++ [31]) <$> ks_columns spec) ++ [30]) <$> specs).

Section probe.
Context (kRuns : list Run) (kPool : list Z).

(** A part of a tuple: its length and its collation key. *)
Definition tuple_part (v : list Z) : list Z := let part := key kRuns kPool v in to_string (Z.of_nat (length part)) ++ 58 :: part.

Fixpoint key_from (spec : UniqueProbeKeySpec) (value_of : ValueOf) (columns : list (list Z)) (encoded : list Z) : option (list Z) :=
  match columns with
  | [] => Some encoded
  | column :: columns =>
      match value_of column with
      | None =>
          if ks_skip_null spec then None
          else if negb (ks_tuple spec) then Some (key kRuns kPool []) else key_from spec value_of columns (encoded ++ tuple_part [])
      | Some v =>
          if ks_skip_null spec && bool_decide (v = EXECUTOR_NULL_VALUE) then None
          else if negb (ks_tuple spec) then Some (key kRuns kPool v) else key_from spec value_of columns (encoded ++ tuple_part v)
      end
  end.

(** The key of a row under a spec; [None]: a key that never repeats. *)
Definition key_of (spec : UniqueProbeKeySpec) (value_of : ValueOf) : option (list Z) := key_from spec value_of (ks_columns spec) [].

Definition values_of_row (row : Row) : ValueOf := λ c, row !! c.

(** ** Counts *)

Definition count_key (m : gmap (list Z) Z) (key : option (list Z)) : gmap (list Z) Z :=
  match key with Some k => <[k := wrap32 (default 0 (m !! k) + 1)]> m | None => m end.

Definition uncount_key (m : gmap (list Z) Z) (key : option (list Z)) : gmap (list Z) Z :=
  match key with
  | Some k => match m !! k with None => m | Some n => if wrap32 (n - 1) =? 0 then delete k m else <[k := wrap32 (n - 1)]> m end
  | None => m
  end.

Definition add_row (specs : list UniqueProbeKeySpec) (counts : list (gmap (list Z) Z)) (row : Row) : list (gmap (list Z) Z) :=
  zip_with (λ spec m, count_key m (key_of spec (values_of_row row))) specs counts.
Definition remove_row (specs : list UniqueProbeKeySpec) (counts : list (gmap (list Z) Z)) (row : Row) : list (gmap (list Z) Z) :=
  zip_with (λ spec m, uncount_key m (key_of spec (values_of_row row))) specs counts.

Definition count_rows (specs : list UniqueProbeKeySpec) (rows : list Row) : list (gmap (list Z) Z) :=
  foldl (λ counts row, if is_visible row then add_row specs counts row else counts) ((λ _, ∅) <$> specs) rows.

(** ** The stamp *)

(** locks_id, data_id and sum; [None]: a lock is not there. *)
Definition unique_probe_stamp (s : ProbeDb) (table : list Z) : option (Z * Z * Z) :=
  locks ← mjoin (db_table_locks s !! table);
  data ← mjoin (db_data_locks s !! table);
  Some (lk_instance_id locks, lk_instance_id data, db_exclusive_count s + lk_exclusive_count locks + lk_exclusive_count data).

(** The entry of a table, made when it is not built and may be. *)
Definition probe_for (all : UniqueProbes) (table : list Z) (schema : TableSchema) (create : bool) : option UniqueProbe * UniqueProbes :=
  let fresh :=
    let specs := specs_of schema in
    if bool_decide (specs = []) then (None, all)
    else if negb create && bool_decide (ps_by_table all !! table = None) then (None, all)
    else
      let p := default empty_probe (ps_by_table all !! table) in
      let signature := signature_of specs in
      let p := if bool_decide (up_signature p = signature) then p else mkUniqueProbe specs signature [] false 0 0 0 0 None 0 0 in
      (Some p, set_probe all table p) in
  match ps_by_table all !! table with
  | Some p => if up_built p then (Some p, all) else fresh
  | None => fresh
  end.

(** The logic_error of RUSQL_PROBE_CHECK: [false]. *)
Definition check_against_rows (p : UniqueProbe) (rows : list Row) : bool := bool_decide (count_rows (up_specs p) rows = up_counts p).

Definition stamped (p : UniqueProbe) (counts : list (gmap (list Z) Z)) (locks_id data_id sum streak child_streak : Z) : UniqueProbe :=
  mkUniqueProbe (up_specs p) (up_signature p) counts true locks_id data_id sum (up_insert_tails p) (up_seen p) streak child_streak.

(** The last of the specs that is asked for. *)
Definition find_last (test : UniqueProbeKeySpec → bool) (specs : list UniqueProbeKeySpec) : option nat :=
  foldl (λ which i, if from_option test false (specs !! i) then Some i else which) None (seq 0 (length specs)).

Definition is_current (p : UniqueProbe) (locks_id data_id sum : Z) (inside : bool) : bool :=
  up_built p && (up_locks_id p =? locks_id) && (up_data_id p =? data_id) && ((up_sum p =? sum) || (inside && (up_sum p + 1 =? sum))).

(** A key that the counts do not have, or that never repeats. *)
Definition absent_in (p : UniqueProbe) (which : nat) (value_of : ValueOf) : bool :=
  match spec ← up_specs p !! which; key_of spec value_of with
  | None => true
  | Some k => bool_decide (default ∅ (up_counts p !! which) !! k = None)
  end.

Definition give_answer (all : UniqueProbes) (p : UniqueProbe) (which : nat) (value_of : ValueOf) : bool * UniqueProbes :=
  let absent := absent_in p which value_of in (absent, if absent then count_skip all else all).

Definition ask (spec : UniqueProbeKeySpec) : UniqueProbeKeySpec → bool := λ s, bool_decide (s = spec).

Definition table_rows (s : ProbeDb) (table : list Z) : list Row := default [] (db_tables s !! table).

(** Only INSERTs since the last look? *)
Definition only_inserts (p : UniqueProbe) (locks_id data_id sum : Z) : bool :=
  match up_seen p with
  | Some (seen_locks_id, seen_data_id, seen_sum, seen_insert_tails) =>
      (seen_locks_id =? locks_id) && (seen_data_id =? data_id) && (sum - seen_sum =? up_insert_tails p - seen_insert_tails)
  | None => false
  end.

(** A lookup that found no current cache: the cache not made, or made of the rows. *)
Definition look (p : UniqueProbe) (locks_id data_id sum : Z) : UniqueProbe :=
  mkUniqueProbe (up_specs p) (up_signature p) (up_counts p) (up_built p) (up_locks_id p) (up_data_id p) (up_sum p) (up_insert_tails p)
    (Some (locks_id, data_id, sum, up_insert_tails p)) (if only_inserts p locks_id data_id sum then up_streak p + 1 else 0) (up_child_streak p).

(** The keys of the schema of now, when they are others. *)
Definition respec (p : UniqueProbe) (schema : TableSchema) : UniqueProbe :=
  let fresh := specs_of schema in
  if bool_decide (signature_of fresh = up_signature p) then p
  else mkUniqueProbe fresh (signature_of fresh) [] false 0 0 0 (up_insert_tails p) None 0 0.

(** Is it certain that no live row of the table holds the key that the columns of [value_of] make? [None]: the check of the cache failed. *)
Definition unique_probe_proves_absent (s : ProbeDb) (table : list Z) (schema : TableSchema) (columns : list (list Z)) (tuple skip_null : bool)
    (value_of : ValueOf) (use : ProbeUse) : option (bool * UniqueProbes) :=
  let all := db_probes s in
  let spec := mkKeySpec columns tuple skip_null in
  if negb (ps_enabled all) then Some (false, all)
  else
    match unique_probe_stamp s table with
    | None => Some (false, all)
    | Some (locks_id, data_id, sum) =>
        let lookup := match use with UseLookup => true | _ => false end in
        match probe_for all table schema lookup with
        | (None, all) => Some (false, all)
        | (Some p, all) =>
            if negb lookup && negb (up_built p) then Some (false, all)
            else
              match find_last (ask spec) (up_specs p) with
              | None => Some (false, all)
              | Some which =>
                  let rows := table_rows s table in
                  let inside := match use with UseInsideExclusive => true | _ => false end in
                  if is_current p locks_id data_id sum inside then
                    if ps_check all && negb inside && negb (check_against_rows p rows) then None
                    else Some (give_answer all p which value_of)
                  else if negb lookup then Some (false, all)
                  else
                    let p := look p locks_id data_id sum in
                    if up_streak p <? ps_streak_needed all then Some (false, set_probe all table p)
                    else
                      let p := respec p schema in
                      match find_last (ask spec) (up_specs p) with
                      | None => Some (false, set_probe all table p)
                      | Some which =>
                          let p := stamped p (count_rows (up_specs p) rows) locks_id data_id sum 0 (up_child_streak p) in
                          Some (give_answer (count_build (set_probe all table p)) p which value_of)
                      end
              end
        end
    end.

(** Does certainly no live row of the child table refer to the value? *)
Definition fk_children_absent (s : ProbeDb) (child_table column value : list Z) : option (bool * UniqueProbes) :=
  let all := db_probes s in
  if bool_decide (value = EXECUTOR_NULL_VALUE) then Some (true, all)
  else if negb (ps_enabled all) then Some (false, all)
  else
    match db_catalog s !! child_table, db_tables s !! child_table, unique_probe_stamp s child_table with
    | Some schema, Some rows, Some (locks_id, data_id, sum) =>
        match probe_for all child_table schema true with
        | (None, all) => Some (false, all)
        | (Some p, all) =>
            match find_last (λ spec, one_column spec column) (up_specs p) with
            | None => Some (false, all)
            | Some which =>
                let value_of : ValueOf := λ _, Some value in
                if is_current p locks_id data_id sum true then
                  if ps_check all && negb (check_against_rows p rows) then None else Some (give_answer all p which value_of)
                else if Z.of_nat (length rows) <? 1024 then Some (false, all)
                else
                  let child_streak := up_child_streak p + 1 in
                  if child_streak <? 2 then
                    Some (false, set_probe all child_table
                      (mkUniqueProbe (up_specs p) (up_signature p) (up_counts p) (up_built p) (up_locks_id p) (up_data_id p) (up_sum p) (up_insert_tails p) (up_seen p) (up_streak p) child_streak))
                  else
                    let p := stamped p (count_rows (up_specs p) rows) locks_id data_id sum (up_streak p) 0 in
                    Some (give_answer (count_build (set_probe all child_table p)) p which value_of)
            end
        end
    | _, _, _ => Some (false, all)
    end.

Definition dropped (p : UniqueProbe) : UniqueProbe :=
  mkUniqueProbe (up_specs p) (up_signature p) [] false (up_locks_id p) (up_data_id p) (up_sum p) (up_insert_tails p) (up_seen p) (up_streak p) (up_child_streak p).
Definition restamped (p : UniqueProbe) (counts : list (gmap (list Z) Z)) (sum : Z) : UniqueProbe :=
  mkUniqueProbe (up_specs p) (up_signature p) counts (up_built p) (up_locks_id p) (up_data_id p) sum (up_insert_tails p) (up_seen p) (up_streak p) (up_child_streak p).

(** Rows that stop being live and rows that become live: taken in by a cache that was current, any other is dropped. *)
Definition unique_probe_apply (s : ProbeDb) (table : list Z) (schema : TableSchema) (removed added : list Row) : UniqueProbes :=
  let all := db_probes s in
  if negb (ps_enabled all) then all
  else
    match unique_probe_stamp s table with
    | None => all
    | Some (locks_id, data_id, sum) =>
        match probe_for all table schema false with
        | (None, all) => all
        | (Some p, all) =>
            if negb (up_built p) then all
            else if (up_locks_id p =? locks_id) && (up_data_id p =? data_id) && ((up_sum p + 1 =? sum) || (up_sum p =? sum)) then
              let counts := foldl (add_row (up_specs p)) (foldl (remove_row (up_specs p)) (up_counts p) removed) added in
              set_probe all table (restamped p counts sum)
            else set_probe all table (dropped p)
        end
    end.

Definition insert_tail (p : UniqueProbe) : UniqueProbe :=
  mkUniqueProbe (up_specs p) (up_signature p) (up_counts p) (up_built p) (up_locks_id p) (up_data_id p) (up_sum p) (up_insert_tails p + 1) (up_seen p) (up_streak p) (up_child_streak p).

(** The rows that an INSERT is about to append. *)
Definition unique_probe_inserted (s : ProbeDb) (table : list Z) (schema : TableSchema) (rows : list Row) : option UniqueProbes :=
  let all := db_probes s in
  if negb (ps_enabled all) then Some all
  else
    let all := match probe_for all table schema true with (Some p, all) => set_probe all table (insert_tail p) | (None, all) => all end in
    let all := unique_probe_apply (set_probes s all) table schema [] rows in
    if negb (ps_check all) then Some all
    else
      match unique_probe_stamp s table with
      | None => Some all
      | Some (_, _, sum) =>
          match probe_for all table schema true with
          | (None, all) => Some all
          | (Some p, all) =>
              if negb (up_built p) || negb (up_sum p =? sum) then Some all
              else if check_against_rows p (table_rows s table ++ rows) then Some all else None
          end
      end.

(** A COMMIT, which changes no live row. *)
Definition unique_probe_commit (s : ProbeDb) (table : list Z) : UniqueProbes :=
  let all := db_probes s in
  if negb (ps_enabled all) then all
  else
    match unique_probe_stamp s table, ps_by_table all !! table with
    | Some (locks_id, data_id, sum), Some p =>
        if negb (up_built p) then all
        else if (up_locks_id p =? locks_id) && (up_data_id p =? data_id) && (up_sum p + 1 =? sum) then set_probe all table (restamped p (up_counts p) sum)
        else set_probe all table (dropped p)
    | _, _ => all
    end.

(** ** What the counts are *)

Definition live_rows (rows : list Row) : list Row := filter (λ row, is_visible row = true) rows.

Definition holders (spec : UniqueProbeKeySpec) (rows : list Row) (k : list Z) : Z :=
  Z.of_nat (length (filter (λ row, key_of spec (values_of_row row) = Some k) rows)).

(** The keys that rows hold, each with the number of rows that do. *)
Definition counts_of (rows : list Row) (spec : UniqueProbeKeySpec) (m : gmap (list Z) Z) : Prop :=
  ∀ k, m !! k = if holders spec rows k =? 0 then None else Some (holders spec rows k).

Definition few (rows : list Row) : Prop := Z.of_nat (length rows) < 2 ^ 32.

#[local] Instance held_proper spec : Proper ((≡ₚ) ==> eq ==> eq) (holders spec).
Proof. intros rows rows' Hp k ? <-. unfold holders. by rewrite Hp. Qed.

#[local] Instance counted_proper : Proper ((≡ₚ) ==> eq ==> eq ==> iff) counts_of.
Proof. intros rows rows' Hp spec ? <- m ? <-. unfold counts_of. split; intros H k; specialize (H k); [by rewrite <- (held_proper spec _ _ Hp k k)|by rewrite (held_proper spec _ _ Hp k k)]. Qed.

#[local] Instance few_proper : Proper ((≡ₚ) ==> iff) few.
Proof. intros rows rows' Hp. unfold few. by rewrite Hp. Qed.

Lemma held_cons spec row rows k : holders spec (row :: rows) k = holders spec rows k + if decide (key_of spec (values_of_row row) = Some k) then 1 else 0.
Proof. unfold holders. rewrite filter_cons. case_decide; cbn [length]; lia. Qed.

Lemma held_bounds spec rows k : 0 ≤ holders spec rows k ≤ Z.of_nat (length rows).
Proof. unfold holders. pose proof (length_filter (λ row, key_of spec (values_of_row row) = Some k) rows). lia. Qed.

Lemma few_cons row rows : few (row :: rows) → few rows.
Proof. unfold few. cbn [length]. lia. Qed.

Lemma wrap32_count n : 0 ≤ n < 2 ^ 32 → wrap32 n = n.
Proof. intros H. apply wrap32_small. unfold in_u32, u32_max. lia. Qed.

Lemma count_key_counted rows row spec m : few (row :: rows) → counts_of rows spec m → counts_of (row :: rows) spec (count_key m (key_of spec (values_of_row row))).
Proof.
  intros Hf Hm k. rewrite held_cons. pose proof (held_bounds spec rows k) as Hb. unfold few in Hf. cbn [length] in Hf.
  destruct (key_of spec (values_of_row row)) as [k'|] eqn:E; cbn [count_key].
  - destruct (decide (k' = k)) as [->|Hk].
    + rewrite decide_True by done. rewrite lookup_insert_eq, Hm. rewrite (proj2 (Z.eqb_neq (holders spec rows k + 1) 0)) by lia.
      destruct (Z.eqb_spec (holders spec rows k) 0) as [E0|]; cbn [default from_option]; unfold id; rewrite wrap32_count by lia; f_equal; lia.
    + rewrite decide_False by congruence. rewrite lookup_insert_ne by done. by rewrite Z.add_0_r.
  - rewrite decide_False by done. by rewrite Z.add_0_r.
Qed.

Lemma uncount_key_counted rows row spec m : few (row :: rows) → counts_of (row :: rows) spec m → counts_of rows spec (uncount_key m (key_of spec (values_of_row row))).
Proof.
  intros Hf Hm k. specialize (Hm k) as Hk. rewrite held_cons in Hk. pose proof (held_bounds spec rows k) as Hb. unfold few in Hf. cbn [length] in Hf.
  destruct (key_of spec (values_of_row row)) as [k'|] eqn:E; cbn [uncount_key].
  - destruct (decide (k' = k)) as [->|Hn].
    + rewrite decide_True in Hk by done. rewrite (proj2 (Z.eqb_neq (holders spec rows k + 1) 0)) in Hk by lia. rewrite Hk. rewrite wrap32_count by lia.
      replace (holders spec rows k + 1 - 1) with (holders spec rows k) by lia. destruct (Z.eqb_spec (holders spec rows k) 0); [apply lookup_delete_eq|apply lookup_insert_eq].
    + rewrite decide_False in Hk by congruence. rewrite Z.add_0_r in Hk. destruct (m !! k') as [n|]; [|done].
      destruct (wrap32 (n - 1) =? 0); [by rewrite lookup_delete_ne|by rewrite lookup_insert_ne].
  - rewrite decide_False, Z.add_0_r in Hk by done. done.
Qed.

Lemma counted_unique rows spec m m' : counts_of rows spec m → counts_of rows spec m' → m = m'.
Proof. intros H H'. apply map_eq. intros k. by rewrite H, H'. Qed.

(** The same for the counts of all the specs. *)
Definition all_counted (rows : list Row) (specs : list UniqueProbeKeySpec) (counts : list (gmap (list Z) Z)) : Prop := Forall2 (counts_of rows) specs counts.

#[local] Instance all_counted_proper : Proper ((≡ₚ) ==> eq ==> eq ==> iff) all_counted.
Proof. intros rows rows' Hp specs ? <- counts ? <-. unfold all_counted. split; intros H; (eapply Forall2_impl; [exact H|]); intros spec m Hm; [by apply (counted_proper _ _ Hp spec spec eq_refl m m eq_refl)|by apply (counted_proper _ _ Hp spec spec eq_refl m m eq_refl)]. Qed.

Lemma zip_with_counted f rows rows' specs counts :
  (∀ spec m, counts_of rows spec m → counts_of rows' spec (f spec m)) → all_counted rows specs counts → all_counted rows' specs (zip_with f specs counts).
Proof. intros Hf. unfold all_counted. induction 1; cbn [zip_with]; constructor; [by apply Hf|done]. Qed.

Lemma add_rows_counted specs : ∀ added rows counts, few (added ++ rows) → all_counted rows specs counts →
  all_counted (added ++ rows) specs (foldl (add_row specs) counts added).
Proof.
  induction added as [|row added IH]; intros rows counts Hf Hc; [done|]. cbn [foldl app] in *. rewrite Permutation_middle in Hf |- *.
  apply IH; [done|]. apply (zip_with_counted _ rows); [|done]. intros. apply count_key_counted; [|done].
  unfold few in *. rewrite length_app in Hf. lia.
Qed.

Lemma remove_rows_counted specs : ∀ removed rows counts, few (removed ++ rows) → all_counted (removed ++ rows) specs counts →
  all_counted rows specs (foldl (remove_row specs) counts removed).
Proof.
  induction removed as [|row removed IH]; intros rows counts Hf Hc; [done|]. cbn [foldl app] in *.
  apply IH; [by apply (few_cons row)|]. apply (zip_with_counted _ (row :: removed ++ rows)); [|done]. intros. by apply uncount_key_counted.
Qed.

Lemma count_rows_live specs : ∀ rows counts, foldl (λ counts row, if is_visible row then add_row specs counts row else counts) counts rows = foldl (add_row specs) counts (live_rows rows).
Proof.
  induction rows as [|row rows IH]; intros counts; [done|]. unfold live_rows. cbn [foldl]. rewrite filter_cons. destruct (is_visible row).
  - rewrite decide_True by done. apply IH.
  - rewrite decide_False by done. apply IH.
Qed.

Lemma count_rows_counted specs rows : few (live_rows rows) → all_counted (live_rows rows) specs (count_rows specs rows).
Proof.
  intros Hf. unfold count_rows. rewrite count_rows_live. pose proof (add_rows_counted specs (live_rows rows) [] ((λ _, ∅) <$> specs)) as H.
  rewrite app_nil_r in H. apply H; [done|]. apply Forall2_fmap_r, Forall_Forall2_diag, Forall_forall. intros spec _ k. by rewrite lookup_empty.
Qed.

Lemma all_counted_unique rows specs counts counts' : all_counted rows specs counts → all_counted rows specs counts' → counts = counts'.
Proof.
  intros H. revert counts'. induction H as [|spec m specs counts Hm H IH]; intros counts' H'; inversion H'; subst; [done|]. f_equal; [by eapply counted_unique|by apply IH].
Qed.

(** A key that exact counts do not have is the key of no row. *)
Lemma absent_in_holds p which value_of rows row spec : all_counted rows (up_specs p) (up_counts p) → up_specs p !! which = Some spec →
  absent_in p which value_of = true → row ∈ rows → key_of spec value_of = None ∨ key_of spec (values_of_row row) ≠ key_of spec value_of.
Proof.
  intros Hc Hs Ha Hr. unfold absent_in in Ha. rewrite Hs in Ha. cbn [mbind option_bind] in Ha. destruct (key_of spec value_of) as [k|] eqn:Ek; [right|by left].
  apply bool_decide_eq_true in Ha. destruct (Forall2_lookup_l _ _ _ _ _ Hc Hs) as (m & Hm & Hcm). rewrite Hm in Ha. cbn [default from_option] in Ha. unfold id in Ha. rewrite (Hcm k) in Ha.
  destruct (Z.eqb_spec (holders spec rows k) 0) as [E0|]; [|done]. intros E. unfold holders in E0.
  assert (Hin : row ∈ filter (λ row, key_of spec (values_of_row row) = Some k) rows) by (by apply list_elem_of_filter).
  destruct (filter _ _); [inversion Hin|cbn in E0; lia].
Qed.

(** ** The writers and readers of a table *)

Section system.
Context (table : list Z).

(** Nobody holds a lock of the table exclusively; or somebody does, and has not yet said to the cache what the section changes; or has
    said it; or changes rows and does not say. *)
Inductive Phase := Outside | Fresh | Told | Silent.

Definition ph_eq_dec : EqDecision Phase.
Proof. solve_decision. Defined.
#[local] Existing Instance ph_eq_dec.

Record System := mkSystem { sy_db : ProbeDb; sy_phase : Phase; sy_next_id : Z }.

Definition live (s : ProbeDb) : list Row := live_rows (table_rows s table).

(** The database with other contents of this table, or other locks. *)
Definition same_rows (s s' : ProbeDb) : Prop := db_tables s' !! table = db_tables s !! table.
Definition same_stamp (s s' : ProbeDb) : Prop := unique_probe_stamp s' table = unique_probe_stamp s table.
Definition same_probe (s s' : ProbeDb) : Prop := ps_by_table (db_probes s') !! table = ps_by_table (db_probes s) !! table ∧ ps_enabled (db_probes s') = ps_enabled (db_probes s).
Definition small (s : ProbeDb) : Prop := few (table_rows s table).

Inductive probe_step : System → System → Prop :=
  (* a lock is taken exclusively, as the first of the section or one more *)
  | step_acquire s s' ph next l d n : unique_probe_stamp s table = Some (l, d, n) → unique_probe_stamp s' table = Some (l, d, n + 1) →
      same_rows s s' → same_probe s s' → probe_step (mkSystem s ph next) (mkSystem s' (match ph with Outside => Fresh | _ => ph end) next)
  | step_release s ph next : probe_step (mkSystem s ph next) (mkSystem s Outside next)
  (* a section that tells the cache the rows that end and those that become live *)
  | step_tell s s' ph next schema removed added rest : ph = Fresh ∨ ph = Told →
      live s ≡ₚ removed ++ rest → live s' ≡ₚ added ++ rest → small s' → same_stamp s s' →
      db_probes s' = unique_probe_apply s table schema removed added → probe_step (mkSystem s ph next) (mkSystem s' Told next)
  | step_insert s s' ph next schema rows all : ph = Fresh ∨ ph = Told → Forall (λ row, is_visible row = true) rows →
      unique_probe_inserted s table schema rows = Some all → table_rows s' table = table_rows s table ++ rows → small s' → same_stamp s s' →
      db_probes s' = all → probe_step (mkSystem s ph next) (mkSystem s' Told next)
  | step_commit s s' ph next : ph = Fresh ∨ ph = Told → live s' ≡ₚ live s → small s' → same_stamp s s' →
      db_probes s' = unique_probe_commit s table → probe_step (mkSystem s ph next) (mkSystem s' Told next)
  (* a section that changes rows without telling: a ROLLBACK, a VACUUM, a recovery *)
  | step_silent s s' ph next : ph = Fresh ∨ ph = Silent → small s' → same_stamp s s' → same_probe s s' → probe_step (mkSystem s ph next) (mkSystem s' Silent next)
  (* DDL: the table has other locks, or none *)
  | step_ddl s s' ph next next' : ph ≠ Outside → small s' → same_probe s s' → next ≤ next' →
      (∀ l d n, unique_probe_stamp s' table = Some (l, d, n) → next ≤ l < next' ∧ next ≤ d < next') → probe_step (mkSystem s ph next) (mkSystem s' Silent next')
  (* the questions of readers, and of the section itself before it changes anything *)
  | step_lookup s ph next schema columns tuple skip_null value_of use answer all : ph ≠ Silent → (ph = Outside → use ≠ UseInsideExclusive) →
      unique_probe_proves_absent s table schema columns tuple skip_null value_of use = Some (answer, all) →
      probe_step (mkSystem s ph next) (mkSystem (set_probes s all) (match ph with Outside => Outside | _ => Told end) next)
  | step_children s ph next column value answer all : ph = Fresh ∨ ph = Told → fk_children_absent s table column value = Some (answer, all) →
      probe_step (mkSystem s ph next) (mkSystem (set_probes s all) Told next)
  (* the statements of other tables *)
  | step_elsewhere s s' ph next : same_rows s s' → same_stamp s s' → same_probe s s' → probe_step (mkSystem s ph next) (mkSystem s' ph next).

(** The table without a cache, nobody at work. *)
Definition starts (y : System) : Prop :=
  sy_phase y = Outside ∧ small (sy_db y) ∧ ps_by_table (db_probes (sy_db y)) !! table = None ∧
  ∀ l d n, unique_probe_stamp (sy_db y) table = Some (l, d, n) → l < sy_next_id y ∧ d < sy_next_id y.

Definition probe_reachable (y : System) : Prop := ∃ y0, starts y0 ∧ rtc probe_step y0 y.

(** The stamps at which a cache must be right, in a phase with a count of [n]. *)
Definition stamp_ok (ph : Phase) (n sum : Z) (exact : Prop) : Prop :=
  match ph with
  | Outside => sum ≤ n ∧ (sum = n → exact)
  | Fresh => sum < n ∧ (sum + 1 = n → exact)
  | Told => sum ≤ n ∧ (sum = n ∨ sum + 1 = n → exact)
  | Silent => sum < n
  end.

Definition probe_ok (s : ProbeDb) (ph : Phase) (next : Z) (p : UniqueProbe) : Prop :=
  up_built p = true →
  up_locks_id p < next ∧ up_data_id p < next ∧
  ∀ n, unique_probe_stamp s table = Some (up_locks_id p, up_data_id p, n) → stamp_ok ph n (up_sum p) (all_counted (live s) (up_specs p) (up_counts p)).

Definition inv (y : System) : Prop :=
  small (sy_db y) ∧ (∀ l d n, unique_probe_stamp (sy_db y) table = Some (l, d, n) → l < sy_next_id y ∧ d < sy_next_id y) ∧
  ∀ p, ps_by_table (db_probes (sy_db y)) !! table = Some p → ps_enabled (db_probes (sy_db y)) = true ∧ probe_ok (sy_db y) (sy_phase y) (sy_next_id y) p.

Lemma small_live s : small s → few (live s).
Proof. unfold small, live, live_rows, few. pose proof (length_filter (λ row, is_visible row = true) (table_rows s table)). lia. Qed.

(** The entry that [probe_for] gives is the one the table then has. *)
Lemma probe_for_ok (ok : UniqueProbe → Prop) all schema create :
  (∀ p, up_built p = false → ok p) → (∀ p, ps_by_table all !! table = Some p → ok p) →
  let '(o, all') := probe_for all table schema create in
  (∀ p, ps_by_table all' !! table = Some p → ok p) ∧ (∀ p, o = Some p → ps_by_table all' !! table = Some p ∧ ok p) ∧
  (o = None → ∀ p, ps_by_table all' !! table = Some p → up_built p = false) ∧ ps_enabled all' = ps_enabled all.
Proof.
  intros Hu Hok. unfold probe_for.
  assert (Hfresh : ∀ p, (∀ p0, ps_by_table all !! table = Some p0 → up_built p0 = false) →
    p = (if bool_decide (up_signature (default empty_probe (ps_by_table all !! table)) = signature_of (specs_of schema)) then default empty_probe (ps_by_table all !! table)
         else mkUniqueProbe (specs_of schema) (signature_of (specs_of schema)) [] false 0 0 0 0 None 0 0) → up_built p = false).
  { intros p H ->. case_bool_decide; [|done]. destruct (ps_by_table all !! table) as [p0|]; [by apply H|done]. }
  assert (Hmade : (∀ p0, ps_by_table all !! table = Some p0 → up_built p0 = false) →
    let '(o, all') := (if bool_decide (specs_of schema = []) then (None, all)
      else if negb create && bool_decide (ps_by_table all !! table = None) then (None, all)
      else let p := default empty_probe (ps_by_table all !! table) in let signature := signature_of (specs_of schema) in
        let p := if bool_decide (up_signature p = signature) then p else mkUniqueProbe (specs_of schema) signature [] false 0 0 0 0 None 0 0 in (Some p, set_probe all table p)) in
    (∀ p, ps_by_table all' !! table = Some p → ok p) ∧ (∀ p, o = Some p → ps_by_table all' !! table = Some p ∧ ok p) ∧
    (o = None → ∀ p, ps_by_table all' !! table = Some p → up_built p = false) ∧ ps_enabled all' = ps_enabled all).
  { intros H. destruct (bool_decide (specs_of schema = [])); [by split_and!; [exact Hok|intros ?|intros _; exact H|]|]. destruct (_ && _); [by split_and!; [exact Hok|intros ?|intros _; exact H|]|]. cbv zeta. split_and!; [| |done|done].
    - intros p. unfold set_probe, set_by_table. cbn [ps_by_table]. rewrite lookup_insert_eq. intros [= <-]. apply Hu. exact (Hfresh _ H eq_refl).
    - intros p [= <-]. unfold set_probe, set_by_table. cbn [ps_by_table]. rewrite lookup_insert_eq. split; [done|]. apply Hu. exact (Hfresh _ H eq_refl). }
  destruct (ps_by_table all !! table) as [p|] eqn:Ep; [|by apply Hmade]. destruct (up_built p) eqn:Eb; [|apply Hmade; by intros ? [= <-]].
  split_and!; [intros p' E; apply Hok; congruence|intros p' [= <-]; split; [done|by apply Hok]|done|done].
Qed.

Lemma find_last_some test specs i : find_last test specs = Some i → ∃ spec, specs !! i = Some spec ∧ test spec = true.
Proof.
  unfold find_last. generalize (length specs) as n. induction n as [|n IH]; [done|]. rewrite seq_S, foldl_snoc. cbn [Nat.add].
  destruct (specs !! n) as [spec|] eqn:E; [|done]. cbn [from_option]. destruct (test spec) eqn:Et; [|done]. intros [= <-]. by exists spec.
Qed.

Definition asking (ph : Phase) (inside : bool) : Prop := ph = Told ∨ (ph = Outside ∧ inside = false).

Lemma current_exact s ph next p l d n inside : probe_ok s ph next p → unique_probe_stamp s table = Some (l, d, n) → asking ph inside →
  is_current p l d n inside = true → all_counted (live s) (up_specs p) (up_counts p).
Proof.
  intros Hp Hs Hph Hc. unfold is_current in Hc. rewrite !andb_true_iff, orb_true_iff, andb_true_iff, !Z.eqb_eq in Hc. destruct Hc as [[[Hb El] Ed] Hsum].
  destruct (Hp Hb) as (_ & _ & H). specialize (H n). rewrite El, Ed in H. specialize (H Hs). destruct Hph as [->|[-> ->]].
  - apply H. destruct Hsum as [?|[_ ?]]; [by left|by right].
  - apply H. by destruct Hsum as [?|[? _]].
Qed.

Lemma check_passes s p : small s → all_counted (live s) (up_specs p) (up_counts p) → check_against_rows p (table_rows s table) = true.
Proof.
  intros Hs Hc. apply bool_decide_eq_true. eapply all_counted_unique; [|exact Hc]. by apply count_rows_counted, small_live.
Qed.

Lemma stamped_ok s ph next p l d n streak child_streak : small s → unique_probe_stamp s table = Some (l, d, n) → l < next → d < next → ph = Told ∨ ph = Outside →
  probe_ok s ph next (stamped p (count_rows (up_specs p) (table_rows s table)) l d n streak child_streak) ∧
  all_counted (live s) (up_specs p) (count_rows (up_specs p) (table_rows s table)).
Proof.
  intros Hsm Hs Hl Hd Hph. assert (Hc : all_counted (live s) (up_specs p) (count_rows (up_specs p) (table_rows s table))) by (by apply count_rows_counted, small_live).
  split; [|done]. intros _. cbn. split_and!; [done|done|]. intros n' Hn'. rewrite Hs in Hn'. injection Hn' as <-. destruct Hph as [->| ->]; cbn; split; (lia || done).
Qed.

Lemma unbuilt_ok s ph next p : up_built p = false → probe_ok s ph next p.
Proof. intros H. unfold probe_ok. by rewrite H. Qed.

Lemma respec_ok s ph next p schema : probe_ok s ph next p → probe_ok s ph next (respec p schema).
Proof. intros H. unfold respec. case_bool_decide; [done|by apply unbuilt_ok]. Qed.

(** What a question does: the cache stays right, an answer "absent" holds. *)
Definition answered (s : ProbeDb) (ph : Phase) (next : Z) (absent : Row → Prop) (r : option (bool * UniqueProbes)) : Prop :=
  ∃ b all, r = Some (b, all) ∧ (∀ p, ps_by_table all !! table = Some p → probe_ok s ph next p) ∧ ps_enabled all = ps_enabled (db_probes s) ∧ (b = true → ∀ row, row ∈ live s → absent row).

Lemma not_sure s ph next absent all : (∀ p, ps_by_table all !! table = Some p → probe_ok s ph next p) → ps_enabled all = ps_enabled (db_probes s) →
  answered s ph next absent (Some (false, all)).
Proof. intros H He. by exists false, all. Qed.

Lemma set_probe_ok s ph next all p : probe_ok s ph next p → ∀ p', ps_by_table (set_probe all table p) !! table = Some p' → probe_ok s ph next p'.
Proof. intros H p'. unfold set_probe, set_by_table. cbn [ps_by_table]. rewrite lookup_insert_eq. by intros [= <-]. Qed.

Lemma answer_ok s ph next all p which value_of absent spec :
  (∀ p', ps_by_table all !! table = Some p' → probe_ok s ph next p') → ps_enabled all = ps_enabled (db_probes s) →
  all_counted (live s) (up_specs p) (up_counts p) → up_specs p !! which = Some spec →
  (∀ row, row ∈ live s → key_of spec value_of = None ∨ key_of spec (values_of_row row) ≠ key_of spec value_of → absent row) →
  answered s ph next absent (Some (give_answer all p which value_of)).
Proof.
  intros Hok He Hc Hs Ha. unfold give_answer. eexists _, _. split; [done|]. split; [destruct (absent_in _ _ _); exact Hok|]. split; [by destruct (absent_in _ _ _)|].
  intros Hb row Hr. apply Ha; [done|]. by eapply absent_in_holds.
Qed.

Lemma stamp_told s ph next p : probe_ok s ph next p → ph ≠ Silent → probe_ok s (match ph with Outside => Outside | _ => Told end) next p.
Proof.
  intros H Hph Hb. destruct (H Hb) as (H1 & H2 & H3). split_and!; [done|done|]. intros n Hn. specialize (H3 n Hn). destruct ph; [done| |done|done].
  cbn in *. destruct H3 as [H3 H4]. split; [lia|]. intros [?|?]; [lia|by apply H4].
Qed.

(** What the invariant gives to an operation on a cache that is in use. *)
Lemma inv_told s ph next : inv (mkSystem s ph next) → ph ≠ Silent →
  ∀ p, ps_by_table (db_probes s) !! table = Some p → probe_ok s (match ph with Outside => Outside | _ => Told end) next p.
Proof. intros (_ & _ & Hp) Hph p E. apply stamp_told; [by apply Hp|done]. Qed.

Lemma proves_absent_ok s ph next schema columns tuple skip_null value_of use :
  inv (mkSystem s ph next) → ph ≠ Silent → (ph = Outside → use ≠ UseInsideExclusive) →
  let spec := mkKeySpec columns tuple skip_null in
  answered s (match ph with Outside => Outside | _ => Told end) next (λ row, key_of spec value_of = None ∨ key_of spec (values_of_row row) ≠ key_of spec value_of)
    (unique_probe_proves_absent s table schema columns tuple skip_null value_of use).
Proof.
  intros Hinv Hph Hin spec. pose proof (inv_told s ph next Hinv Hph) as Hp'. destruct Hinv as (Hsm & Hids & _). cbn in Hsm, Hids.
  set (ph' := match ph with Outside => Outside | _ => Told end) in *.
  assert (Hph' : ph' = Told ∨ ph' = Outside) by (destruct ph; auto).
  unfold unique_probe_proves_absent. destruct (negb (ps_enabled _)); [by apply not_sure|].
  destruct (unique_probe_stamp s table) as [[[l d] n]|] eqn:Es; [|by apply not_sure]. destruct (Hids l d n eq_refl) as [Hl Hd].
  set (lookup := match use with UseLookup => true | _ => false end).
  pose proof (probe_for_ok (probe_ok s ph' next) (db_probes s) schema lookup (unbuilt_ok s ph' next) Hp') as Hf.
  destruct (probe_for _ _ _ _) as [[p|] all]; [|by apply not_sure; apply Hf]. destruct Hf as (Hall & Hsome & _ & He). destruct (Hsome p eq_refl) as [_ Hpok].
  destruct (negb lookup && negb (up_built p)); [by apply not_sure|]. destruct (find_last _ _) as [which|] eqn:Ew; [|by apply not_sure].
  destruct (find_last_some _ _ _ Ew) as (sp & Hw & Esp). apply bool_decide_eq_true in Esp as ->. fold spec.
  set (inside := match use with UseInsideExclusive => true | _ => false end). destruct (is_current p l d n inside) eqn:Ec.
  - assert (Hask : asking ph' inside) by (destruct ph; [right|by left|by left|done]; split; [done|]; subst inside; destruct use; [done|done|by destruct Hin]).
    pose proof (current_exact s ph' next p l d n inside Hpok Es Hask Ec) as Hex. rewrite (check_passes s p Hsm Hex), andb_false_r.
    eapply answer_ok; [exact Hall|exact He|exact Hex|exact Hw|done].
  - destruct (negb lookup); [by apply not_sure|]. destruct (_ <? _); [apply not_sure; [by apply set_probe_ok|exact He]|].
    pose proof (respec_ok s ph' next (look p l d n) schema Hpok) as Hr.
    destruct (find_last _ (up_specs (respec _ _))) as [which'|] eqn:Ew'; [|apply not_sure; [by apply set_probe_ok|exact He]].
    destruct (find_last_some _ _ _ Ew') as (sp' & Hw' & Esp'). apply bool_decide_eq_true in Esp' as ->. fold spec in Hw'.
    destruct (stamped_ok s ph' next (respec (look p l d n) schema) l d n 0 (up_child_streak (respec (look p l d n) schema)) Hsm Es Hl Hd Hph') as [Hst Hex].
    eapply answer_ok; [by apply set_probe_ok|exact He|exact Hex|exact Hw'|done].
Qed.

(** No live row refers to the value: has, in the column, one that is equal to it by the collation. *)
Definition refers (column value : list Z) (row : Row) : Prop := ∃ v, row !! column = Some v ∧ v ≠ EXECUTOR_NULL_VALUE ∧ key kRuns kPool v = key kRuns kPool value.

Lemma one_column_key spec column row value : one_column spec column = true → value ≠ EXECUTOR_NULL_VALUE →
  key_of spec (λ _, Some value) = None ∨ key_of spec (values_of_row row) ≠ key_of spec (λ _, Some value) → ¬ refers column value row.
Proof.
  intros Hone Hv. destruct spec as [columns tuple skip]. unfold one_column in Hone. cbn in Hone. rewrite !andb_true_iff, bool_decide_eq_true, negb_true_iff in Hone.
  destruct Hone as [[-> ->] ->]. unfold key_of. cbn. rewrite (bool_decide_false (value = _)) by done. cbn. intros [?|H] (v & Ev & Hn & Ek); [done|].
  apply H. unfold values_of_row. rewrite Ev, bool_decide_false by done. cbn. by rewrite Ek.
Qed.

Lemma children_ok s ph next column value : inv (mkSystem s ph next) → ph = Fresh ∨ ph = Told →
  answered s Told next (λ row, value = EXECUTOR_NULL_VALUE ∨ ¬ refers column value row) (fk_children_absent s table column value).
Proof.
  intros Hinv Hph. assert (Hp' : ∀ p, ps_by_table (db_probes s) !! table = Some p → probe_ok s Told next p).
  { intros p E. pose proof (inv_told s ph next Hinv) as H. destruct Hph as [->| ->]; by apply H. }
  destruct Hinv as (Hsm & Hids & _). cbn in Hsm, Hids. unfold fk_children_absent. case_bool_decide as Hv.
  { eexists _, _. split; [done|]. split; [done|]. split; [done|]. intros _ row _. by left. }
  destruct (negb (ps_enabled _)); [by apply not_sure|].
  destruct (db_catalog s !! table) as [schema|]; [|by apply not_sure]. destruct (db_tables s !! table) as [rows|] eqn:Er; [|by apply not_sure].
  destruct (unique_probe_stamp s table) as [[[l d] n]|] eqn:Es; [|by apply not_sure]. destruct (Hids l d n eq_refl) as [Hl Hd].
  assert (Erows : rows = table_rows s table) by (unfold table_rows; by rewrite Er). subst rows.
  pose proof (probe_for_ok (probe_ok s Told next) (db_probes s) schema true (unbuilt_ok s Told next) Hp') as Hf.
  destruct (probe_for _ _ _ _) as [[p|] all]; [|by apply not_sure; apply Hf]. destruct Hf as (Hall & Hsome & _ & He). destruct (Hsome p eq_refl) as [_ Hpok].
  destruct (find_last _ _) as [which|] eqn:Ew; [|by apply not_sure]. destruct (find_last_some _ _ _ Ew) as (sp & Hw & Esp).
  assert (Habs : ∀ row, row ∈ live s → key_of sp (λ _, Some value) = None ∨ key_of sp (values_of_row row) ≠ key_of sp (λ _, Some value) → value = EXECUTOR_NULL_VALUE ∨ ¬ refers column value row)
    by (intros row _ H; right; by apply (one_column_key sp)).
  destruct (is_current p l d n true) eqn:Ec.
  - pose proof (current_exact s Told next p l d n true Hpok Es (or_introl eq_refl) Ec) as Hex. rewrite (check_passes s p Hsm Hex), andb_false_r.
    by eapply answer_ok.
  - destruct (_ <? 1024); [by apply not_sure|]. destruct (_ <? 2); [apply not_sure; [by apply set_probe_ok|exact He]|].
    destruct (stamped_ok s Told next p l d n (up_streak p) 0 Hsm Es Hl Hd (or_introl eq_refl)) as [Hst Hex].
    eapply answer_ok; [by apply set_probe_ok|exact He|exact Hex|exact Hw|done].
Qed.

Lemma restamped_ok s next p counts n : unique_probe_stamp s table = Some (up_locks_id p, up_data_id p, n) → up_locks_id p < next → up_data_id p < next →
  all_counted (live s) (up_specs p) counts → probe_ok s Told next (restamped p counts n).
Proof. intros Hs Hl Hd Hc _. cbn. split_and!; [done|done|]. intros n' Hn'. rewrite Hs in Hn'. injection Hn' as <-. by split. Qed.

(** The cache that takes a change in is right of the rows after it. *)
Lemma apply_ok s s' ph next schema removed added rest : inv (mkSystem s ph next) → ph = Fresh ∨ ph = Told →
  live s ≡ₚ removed ++ rest → live s' ≡ₚ added ++ rest → small s' → same_stamp s s' → ps_enabled (db_probes s) = true →
  let all := unique_probe_apply s table schema removed added in
  (∀ p, ps_by_table all !! table = Some p → probe_ok s' Told next p) ∧ ps_enabled all = true ∧
  (∀ p l d n, ps_by_table all !! table = Some p → up_built p = true → unique_probe_stamp s table = Some (l, d, n) → up_locks_id p = l ∧ up_data_id p = d).
Proof.
  intros Hinv Hph Hrem Hadd Hsm' Hst Hen. assert (Hp' : ∀ p, ps_by_table (db_probes s) !! table = Some p → probe_ok s Told next p).
  { intros p E. pose proof (inv_told s ph next Hinv) as H. destruct Hph as [->| ->]; by apply H. }
  destruct Hinv as (Hsm & Hids & _). cbn in Hsm, Hids. unfold unique_probe_apply. rewrite Hen. cbn [negb].
  destruct (unique_probe_stamp s table) as [[[l d] n]|] eqn:Es.
  2: { split; [|by split]. intros p E Hb. destruct (Hp' p E Hb) as (H1 & H2 & _). split_and!; [done|done|]. intros n. unfold same_stamp in Hst. by rewrite Hst, Es. }
  pose proof (probe_for_ok (probe_ok s Told next) (db_probes s) schema false (unbuilt_ok s Told next) Hp') as Hf.
  destruct (probe_for _ _ _ _) as [[p|] all].
  2: { destruct Hf as (_ & _ & Hu & He). split; [|split; [by rewrite He|intros p l' d' n' E; by rewrite (Hu eq_refl p E)]]. intros p E. apply unbuilt_ok. by apply Hu. }
  destruct Hf as (_ & Hsome & _ & He). destruct (Hsome p eq_refl) as [Hin Hpok]. rewrite Hen in He. destruct (up_built p) eqn:Eb; cbn [negb].
  2: { split; [|split; [done|intros p' l' d' n' E; congruence]]. intros p' E. apply unbuilt_ok. congruence. }
  destruct (_ && _) eqn:Ec.
  2: { split; [by apply set_probe_ok, unbuilt_ok|split; [done|]]. intros p' l' d' n'. unfold set_probe, set_by_table. cbn [ps_by_table]. rewrite lookup_insert_eq. by intros [= <-]. }
  rewrite !andb_true_iff, orb_true_iff, !Z.eqb_eq in Ec. destruct Ec as [[El Ed] Hsum].
  split; [|split; [done|intros p' l' d' n'; unfold set_probe, set_by_table; cbn [ps_by_table]; rewrite lookup_insert_eq; by intros [= <-] _ [= <- <- _]]]. apply set_probe_ok. destruct (Hpok Eb) as (Hl & Hd & H). rewrite El, Ed in H.
  destruct (H n Es) as [_ Hex]. cbn in Hex. assert (Hc : all_counted (live s) (up_specs p) (up_counts p)) by (apply Hex; by destruct Hsum; [right|left]).
  pose proof (small_live s Hsm) as Hf. pose proof (small_live s' Hsm') as Hf'. rewrite Hrem in Hc, Hf. rewrite Hadd in Hf'.
  apply restamped_ok; [unfold same_stamp in Hst; by rewrite Hst, El, Ed|done|done|]. rewrite Hadd. apply add_rows_counted; [done|]. by apply remove_rows_counted.
Qed.

Lemma commit_ok s s' ph next : inv (mkSystem s ph next) → ph = Fresh ∨ ph = Told → live s' ≡ₚ live s → same_stamp s s' → ps_enabled (db_probes s) = true →
  let all := unique_probe_commit s table in
  (∀ p, ps_by_table all !! table = Some p → probe_ok s' Told next p) ∧ ps_enabled all = true.
Proof.
  intros Hinv Hph Hlive Hst Hen. assert (Hp' : ∀ p, ps_by_table (db_probes s) !! table = Some p → probe_ok s Told next p).
  { intros p E. pose proof (inv_told s ph next Hinv) as H. destruct Hph as [->| ->]; by apply H. }
  unfold unique_probe_commit. rewrite Hen. cbn [negb]. unfold same_stamp in Hst.
  destruct (unique_probe_stamp s table) as [[[l d] n]|] eqn:Es.
  2: { split; [|done]. intros p E Hb. destruct (Hp' p E Hb) as (H1 & H2 & _). split_and!; [done|done|]. intros n. by rewrite Hst. }
  destruct (ps_by_table (db_probes s) !! table) as [p|] eqn:E; [|split; [|done]; intros p' E'; congruence].
  destruct (up_built p) eqn:Eb; cbn [negb]; [|split; [|done]; intros p' E'; apply unbuilt_ok; congruence].
  destruct (_ && _) eqn:Ec; (split; [|done]); apply set_probe_ok; [|by apply unbuilt_ok].
  rewrite !andb_true_iff, !Z.eqb_eq in Ec. destruct Ec as [[El Ed] Hsum]. destruct (Hp' p eq_refl Eb) as (Hl & Hd & H). rewrite El, Ed in H.
  destruct (H n Es) as [_ Hex]. cbn in Hex. apply restamped_ok; [by rewrite Hst, El, Ed|done|done|]. rewrite Hlive. apply Hex. by right.
Qed.

Lemma insert_tail_ok s ph next p : probe_ok s ph next p → probe_ok s ph next (insert_tail p).
Proof. done. Qed.

Lemma live_app rows rows' : Forall (λ row, is_visible row = true) rows' → live_rows (rows ++ rows') = live_rows rows ++ rows'.
Proof. intros H. unfold live_rows. rewrite filter_app. f_equal. induction H; [done|]. rewrite filter_cons_True by done. by f_equal. Qed.

Lemma inserted_ok s s' ph next schema rows : inv (mkSystem s ph next) → ph = Fresh ∨ ph = Told → Forall (λ row, is_visible row = true) rows →
  table_rows s' table = table_rows s table ++ rows → small s' → same_stamp s s' → ps_enabled (db_probes s) = true →
  ∃ all, unique_probe_inserted s table schema rows = Some all ∧ (∀ p, ps_by_table all !! table = Some p → probe_ok s' Told next p) ∧ ps_enabled all = true.
Proof.
  intros (Hsm & Hids & Hp) Hph Hvis Hrows Hsm' Hst Hen. cbn in Hsm, Hids, Hp. unfold unique_probe_inserted. rewrite Hen. cbn [negb]. cbv zeta.
  set (all1 := match probe_for (db_probes s) table schema true with (Some p, all) => set_probe all table (insert_tail p) | (None, all) => all end).
  assert (H1 : (∀ p, ps_by_table all1 !! table = Some p → probe_ok s ph next p) ∧ ps_enabled all1 = true).
  { pose proof (probe_for_ok (probe_ok s ph next) (db_probes s) schema true (unbuilt_ok s ph next) (λ p E, proj2 (Hp p E))) as Hf. subst all1.
    destruct (probe_for _ _ _ _) as [[p|] all]; destruct Hf as (Hall & Hsome & _ & He); rewrite Hen in He; [|done].
    split; [|done]. apply set_probe_ok, insert_tail_ok. by apply Hsome. }
  destruct H1 as [H1 He1]. assert (Hl : live s' ≡ₚ rows ++ live s) by (unfold live; rewrite Hrows, live_app by done; by rewrite Permutation_app_comm).
  assert (Hinv1 : inv (mkSystem (set_probes s all1) ph next)) by (split_and!; [exact Hsm|exact Hids|intros p E; split; [exact He1|by apply (H1 p)]]).
  destruct (apply_ok (set_probes s all1) s' ph next schema [] rows (live s) Hinv1 Hph ltac:(done) Hl Hsm' Hst He1) as (H2 & He2 & Hid).
  set (all2 := unique_probe_apply (set_probes s all1) table schema [] rows) in *. destruct (negb (ps_check all2)); [by exists all2|].
  destruct (unique_probe_stamp s table) as [[[l d] n]|] eqn:Es; [|by exists all2].
  pose proof (probe_for_ok (λ p, probe_ok s' Told next p ∧ (up_built p = true → ps_by_table all2 !! table = Some p)) all2 schema true
    ltac:(intros p E; split; [by apply unbuilt_ok|congruence]) (λ p E, conj (H2 p E) (λ _, E))) as Hf.
  destruct (probe_for all2 table schema true) as [[p|] all]; destruct Hf as (Hall & Hsome & _ & He); rewrite He2 in He;
    [|exists all; split_and!; [done|intros p E; by apply (Hall p E)|done]].
  destruct (Hsome p eq_refl) as [_ [Hpok Hin]]. assert (Hall' : ∀ p, ps_by_table all !! table = Some p → probe_ok s' Told next p) by (intros p' E; by apply (Hall p' E)).
  destruct (negb (up_built p) || negb (up_sum p =? n)) eqn:Eb; [by exists all|]. rewrite orb_false_iff, !negb_false_iff, Z.eqb_eq in Eb. destruct Eb as [Eb En].
  destruct (Hid p l d n (Hin Eb) Eb Es) as [El Ed]. destruct (Hpok Eb) as (_ & _ & H). unfold same_stamp in Hst. rewrite El, Ed, Hst in H.
  destruct (H n Es) as [_ Hex]. pose proof (check_passes s' p Hsm' (Hex (or_introl En))) as Hc. rewrite Hrows in Hc. rewrite Hc. by exists all.
Qed.

Lemma disabled_nothing s ph next : inv (mkSystem s ph next) → ps_enabled (db_probes s) = false → ps_by_table (db_probes s) !! table = None.
Proof. intros (_ & _ & Hp) He. cbn in Hp. destruct (ps_by_table (db_probes s) !! table) as [p|]; [|done]. destruct (Hp p eq_refl). congruence. Qed.

(** A stamp right in a phase is right in the next, of the same rows. *)
Lemma stamp_moves s s' ph ph' next : same_rows s s' → same_probe s s' →
  (∀ l d n', unique_probe_stamp s' table = Some (l, d, n') → ∃ n, unique_probe_stamp s table = Some (l, d, n) ∧ ∀ sum E, stamp_ok ph n sum E → stamp_ok ph' n' sum E) →
  inv (mkSystem s ph next) → inv (mkSystem s' ph' next).
Proof.
  intros Hr [Hp He] Hst (Hsm & Hids & Hpr). cbn in *. assert (Er : table_rows s' table = table_rows s table) by (unfold table_rows; unfold same_rows in Hr; by rewrite Hr).
  split_and!; cbn.
  - unfold small. by rewrite Er.
  - intros l d n' E. destruct (Hst l d n' E) as (n & En & _). by eapply Hids.
  - intros p E. rewrite Hp in E. destruct (Hpr p E) as [Hen Hok]. split; [by rewrite He|]. intros Hb. destruct (Hok Hb) as (H1 & H2 & H3).
    split_and!; [done|done|]. intros n' En'. destruct (Hst _ _ _ En') as (n & En & H). unfold live. rewrite Er. apply H. by apply H3.
Qed.

(** A section whose change the cache knows. *)
Lemma inv_change s s' ph next : inv (mkSystem s ph next) → small s' → same_stamp s s' →
  (ps_enabled (db_probes s) = true → (∀ p, ps_by_table (db_probes s') !! table = Some p → probe_ok s' Told next p) ∧ ps_enabled (db_probes s') = true) →
  (ps_enabled (db_probes s) = false → db_probes s' = db_probes s) → inv (mkSystem s' Told next).
Proof.
  intros Hinv Hsm Hst Hon Hoff. pose proof Hinv as (_ & Hids & _). cbn in Hids. split_and!; cbn; [done|unfold same_stamp in Hst; rewrite Hst; exact Hids|].
  intros p E. destruct (ps_enabled (db_probes s)) eqn:Hen; [destruct (Hon eq_refl) as [H1 H2]; split; [done|by apply H1]|].
  rewrite (Hoff eq_refl), (disabled_nothing s ph next Hinv Hen) in E. done.
Qed.

Lemma answered_inv s ph next ph' absent answer all : inv (mkSystem s ph next) → answered s ph' next absent (Some (answer, all)) →
  (ps_enabled (db_probes s) = false → all = db_probes s) → inv (mkSystem (set_probes s all) ph' next).
Proof.
  intros Hinv (b & all' & [= <- <-] & Hok & He & _) Hoff. pose proof Hinv as (Hsm & Hids & _). split_and!; cbn; [exact Hsm|exact Hids|].
  intros p E. destruct (ps_enabled (db_probes s)) eqn:Hen; [split; [done|by apply Hok]|].
  rewrite (Hoff eq_refl), (disabled_nothing s ph next Hinv Hen) in E. done.
Qed.

Lemma step_inv y y' : probe_step y y' → inv y → inv y'.
Proof.
  destruct 1 as [s s' ph next l d n Es Es' Hr Hp|s ph next|s s' ph next schema removed added rest Hph Hrem Hadd Hsm Hst E|s s' ph next schema rows all Hph Hvis Hi Hrows Hsm Hst E|
    s s' ph next Hph Hl Hsm Hst E|s s' ph next Hph Hsm Hst Hp|s s' ph next next' Hph Hsm Hp Hn Hst|s ph next schema columns tuple skip_null value_of use answer all Hph Hin E|
    s ph next column value answer all Hph E|s s' ph next Hr Hst Hp]; intros Hinv.
  - eapply stamp_moves; [done|done| |done]. intros l' d' n' E. rewrite Es' in E. injection E as <- <- <-. exists n. split; [done|].
    intros sum E. destruct ph; cbn; [intros [? H]; split; [lia|intros ?; apply H; lia]|intros [? H]; split; [lia|intros ?; lia]|intros [? H]; split; [lia|intros ?; apply H; lia]|lia].
  - eapply stamp_moves; [done|done| |done]. intros l d n E. exists n. split; [done|].
    intros sum X. destruct ph; cbn; [done|intros [? H]; split; [lia|intros ?; lia]|intros [? H]; split; [lia|intros ?; apply H; by left]|intros ?; split; [lia|intros ?; lia]].
  - apply (inv_change s s' ph next Hinv Hsm Hst).
    + intros Hen. rewrite E. destruct (apply_ok s s' ph next schema removed added rest Hinv Hph Hrem Hadd Hsm Hst Hen) as (H1 & H2 & _). by split.
    + intros Hen. rewrite E. unfold unique_probe_apply. by rewrite Hen.
  - apply (inv_change s s' ph next Hinv Hsm Hst).
    + intros Hen. destruct (inserted_ok s s' ph next schema rows Hinv Hph Hvis Hrows Hsm Hst Hen) as (all' & E' & H1 & H2). rewrite Hi in E'. injection E' as <-. by rewrite E.
    + intros Hen. unfold unique_probe_inserted in Hi. rewrite Hen in Hi. injection Hi as <-. exact E.
  - apply (inv_change s s' ph next Hinv Hsm Hst); rewrite E; [intros Hen; by apply (commit_ok s s' ph next)|intros Hen; unfold unique_probe_commit; by rewrite Hen].
  - destruct Hinv as (_ & Hids & Hpr). cbn in Hids, Hpr. unfold same_stamp in Hst. destruct Hp as [Hp He]. split_and!; cbn; [done|rewrite Hst; exact Hids|].
    intros p E. rewrite Hp in E. destruct (Hpr p E) as [Hen Hok]. split; [by rewrite He|]. intros Hb. destruct (Hok Hb) as (H1 & H2 & H3).
    split_and!; [done|done|]. intros n En. rewrite Hst in En. specialize (H3 n En). destruct Hph as [->| ->]; cbn in *; lia.
  - destruct Hinv as (_ & Hids & Hpr). cbn in Hids, Hpr. destruct Hp as [Hp He]. split_and!; cbn; [done|intros l d n E; destruct (Hst l d n E); lia|].
    intros p E. rewrite Hp in E. destruct (Hpr p E) as [Hen Hok]. split; [by rewrite He|]. intros Hb. destruct (Hok Hb) as (H1 & H2 & _).
    split_and!; [lia|lia|]. intros n En. destruct (Hst _ _ _ En). lia.
  - pose proof (proves_absent_ok s ph next schema columns tuple skip_null value_of use Hinv Hph Hin) as H. rewrite E in H.
    apply (answered_inv s ph next _ _ answer all Hinv H). intros Hen. unfold unique_probe_proves_absent in E. rewrite Hen in E. by injection E as _ <-.
  - pose proof (children_ok s ph next column value Hinv Hph) as H. rewrite E in H. apply (answered_inv s ph next _ _ answer all Hinv H).
    intros Hen. unfold fk_children_absent in E. rewrite Hen in E. case_bool_decide; by injection E as _ <-.
  - eapply stamp_moves; [done|done| |done]. intros l d n E. unfold same_stamp in Hst. rewrite Hst in E. exists n. by split.
Qed.

Lemma reachable_inv y : probe_reachable y → inv y.
Proof.
  intros (y0 & (Hph & Hsm & Hp & Hids) & Hst). assert (H0 : inv y0) by (split_and!; [done|done|]; intros p; by rewrite Hp).
  clear Hph Hsm Hp Hids. induction Hst; [done|]. by eauto using step_inv.
Qed.

(** C40: however readers and writers of a table come one after the other, an answer "absent" of the cache is right: no live row holds
    the key asked for (a NULL in a key that allows it never repeats), none refers to the value of a parent. The check that compares
    the cache with the rows never fails. *)
Theorem absent_is_absent s ph next : probe_reachable (mkSystem s ph next) →
  (∀ schema columns tuple skip_null value_of use, ph ≠ Silent → (ph = Outside → use ≠ UseInsideExclusive) →
   ∃ absent all, unique_probe_proves_absent s table schema columns tuple skip_null value_of use = Some (absent, all) ∧
   (absent = true → let spec := mkKeySpec columns tuple skip_null in
    ∀ row, row ∈ live s → key_of spec value_of = None ∨ key_of spec (values_of_row row) ≠ key_of spec value_of)) ∧
  (∀ column value, ph = Fresh ∨ ph = Told →
   ∃ absent all, fk_children_absent s table column value = Some (absent, all) ∧
   (absent = true → value = EXECUTOR_NULL_VALUE ∨ ∀ row, row ∈ live s → ¬ refers column value row)) ∧
  (∀ schema rows, ph = Fresh ∨ ph = Told → Forall (λ row, is_visible row = true) rows → few (table_rows s table ++ rows) →
   ∃ all, unique_probe_inserted s table schema rows = Some all).
Proof.
  intros Hinv%reachable_inv. split_and!.
  - intros schema columns tuple skip_null value_of use Hph Hin.
    destruct (proves_absent_ok s ph next schema columns tuple skip_null value_of use Hinv Hph Hin) as (b & all & E & _ & _ & H). by exists b, all.
  - intros column value Hph. destruct (children_ok s ph next column value Hinv Hph) as (b & all & E & _ & _ & H). exists b, all. split; [done|]. intros Hb.
    destruct (decide (value = EXECUTOR_NULL_VALUE)) as [|Hv]; [by left|right]. intros row Hr. by destruct (H Hb row Hr).
  - intros schema rows Hph Hvis Hf. set (s' := mkProbeDb (db_exclusive_count s) (db_table_locks s) (db_data_locks s) (<[table := table_rows s table ++ rows]> (db_tables s)) (db_catalog s) (db_probes s)).
    assert (Er : table_rows s' table = table_rows s table ++ rows) by (unfold table_rows at 1; cbn; by rewrite lookup_insert_eq).
    destruct (ps_enabled (db_probes s)) eqn:Hen; [|eexists; unfold unique_probe_inserted; by rewrite Hen].
    destruct (inserted_ok s s' ph next schema rows Hinv Hph Hvis Er) as (all & E & _); [unfold small; by rewrite Er|done|done|by exists all].
Qed.
End system.
End probe.

(** ** Examples *)

Definition unique_column (name : string) : ColumnDef := mkColumnDef (str name) TInt false false true None false None [] None false false.
Definition demo_schema : TableSchema := mkTableSchema (str "t") [unique_column "u"] ∅ [] [] [] None.
Definition u_row (v : string) : Row := {[ str "u" := str v ]}.

Definition demo_db : ProbeDb :=
  mkProbeDb 0 {[ str "t" := Some (mkLock 1 0) ]} {[ str "t" := Some (mkLock 2 0) ]} {[ str "t" := [u_row "1"; u_row "abc"] ]} {[ str "t" := demo_schema ]}
    (mkUniqueProbes ∅ true true 2 0 0).

Definition demo_lookup (s : ProbeDb) (v : string) : option (bool * UniqueProbes) :=
  unique_probe_proves_absent ascii_runs ascii_pool s (str "t") demo_schema [str "u"] false true (values_of_row (u_row v)) UseLookup.
Definition after_lookup (s : ProbeDb) (v : string) : ProbeDb := match demo_lookup s v with Some (_, all) => set_probes s all | None => s end.

(** The third lookup in a row makes the cache; 'ABC' is 'abc' by the collation. *)
Definition made_db : ProbeDb := after_lookup (after_lookup (after_lookup demo_db "2") "2") "2".

Example probe_demo : fst <$> demo_lookup demo_db "2" = Some false ∧ fst <$> demo_lookup made_db "2" = Some true ∧ fst <$> demo_lookup made_db "ABC" = Some false ∧
  fst <$> demo_lookup made_db "NULL" = Some true.
Proof. by vm_compute. Qed.

Lemma absent_is_absent_witness : probe_reachable ascii_runs ascii_pool (str "t") (mkSystem made_db Outside 3) ∧ fst <$> demo_lookup made_db "2" = Some true ∧
  ∀ row, row ∈ live (str "t") made_db → key_of ascii_runs ascii_pool (mkKeySpec [str "u"] false true) (values_of_row row) ≠
    key_of ascii_runs ascii_pool (mkKeySpec [str "u"] false true) (values_of_row (u_row "2")).
Proof.
  assert (Hstep : ∀ s, is_Some (demo_lookup s "2") → probe_step ascii_runs ascii_pool (str "t") (mkSystem s Outside 3) (mkSystem (after_lookup s "2") Outside 3)).
  { intros s [[b all] E]. unfold after_lookup. rewrite E. eapply (step_lookup ascii_runs ascii_pool (str "t") s Outside 3); [| |exact E]; [discriminate|intros _; discriminate]. }
  assert (Hr : probe_reachable ascii_runs ascii_pool (str "t") (mkSystem made_db Outside 3)).
  { exists (mkSystem demo_db Outside 3). split.
    - split; [reflexivity|split; [vm_compute; reflexivity|split; [vm_compute; reflexivity|]]]. intros l d n E. vm_compute in E. injection E as <- <- _. split; reflexivity.
    - eapply rtc_l; [apply Hstep; vm_compute; by eexists|]. eapply rtc_l; [apply Hstep; vm_compute; by eexists|]. eapply rtc_l; [apply Hstep; vm_compute; by eexists|]. apply rtc_refl. }
  assert (E : fst <$> demo_lookup made_db "2" = Some true) by (vm_compute; reflexivity). split; [exact Hr|split; [exact E|]].
  destruct (absent_is_absent ascii_runs ascii_pool (str "t") made_db Outside 3 Hr) as [H _].
  destruct (H demo_schema [str "u"] false true (values_of_row (u_row "2")) UseLookup ltac:(discriminate) ltac:(intros _; discriminate)) as (absent & all & Ea & Hab).
  unfold demo_lookup in E. rewrite Ea in E. cbn in E. injection E as E. intros row Hrow. destruct (Hab E row Hrow) as [Hn|Hn]; [|exact Hn].
  exfalso. vm_compute in Hn. discriminate Hn.
Defined.
